(* ===== verification/_CoqProject ===== *)
-Q . S2P
Prelude.v
Lru.v
RollingIndex.v
Bytes.v
Types.v
Caches.v
Store.v
CometGraph.v
Ancestry.v
Insert.v
Queries.v
Graph.v
Rounds.v
Fame.v
Divide.v
Order.v
Voting.v
Stamps.v
Received.v
Consensus.v
Sample.v
Correctness.v
Agreement.v
Wire.v
Core.v
Node.v
Gossip.v
GossipSync.v
Network.v
Serial.v
Stream.v
Goring.v
Mpsc.v
Mailbox.v
HexKeys.v
Rlp.v
RlpReader.v
RlpRaw.v
RlpStream.v
RlpDecode.v
RlpOptional.v
TrieNode.v
HexUtil.v
Trie.v
TrieTree.v
TrieRep.v
TrieEdit.v
TrieMap.v
TrieHash.v
TrieSpec.v
TrieProps.v
SecureTrie.v
State.v
StateView.v
StateDatabase.v
StateUndo.v
StateOps.v
StateProps.v
StateWf.v
Transition.v
TransitionProps.v
BigMath.v
KeccakF.v
Sha3.v
Sha3Props.v
Transactions.v
TransactionsProps.v
PriceHeap.v
PriceHeapProps.v
Receipts.v
ReceiptsProps.v
ProxyState.v
ProxyStateProps.v
