(* ===== verification/Prelude.v ===== *)
(** * Paradigm: a verification of the node

    Paradigm is a node of a permissioned ledger, written in Go.  Participants make signed events
    (_comets_) that point to an earlier comet of their own and to one of another participant.  They
    spread them by gossip.  Every node computes rounds, famous witnesses, timestamps and finally a
    total order from the graph of comets alone, cuts the order into blocks, and hands the blocks to
    an application that applies transactions to accounts kept in Merkle-Patricia tries.

    The definitions are translated from the sources (paths below are under src/), one per function
    or method, and run: the examples are evaluated by the kernel.

    ** How Go code is modelled

    A Go function is a function to [outcome] (it returns, returns an error, panics, or the model
    has run out of fuel), over a state where it mutates something: [M S A].  [zoom] runs the code of
    a component inside the state of the one that owns it, [wp] is the weakest precondition that the
    proofs use.  Iterating over a Go map has no order: [RangeOrder] stands for any order, and is an
    argument of what iterates.  An [int] that cannot overflow is a [Z]; where width matters (bytes,
    words, lengths, serialization, hashing, 256-bit arithmetic) the wrap-around is written out.  nil
    is [None] where the code can tell it from an empty value.  JSON, SHA-256, ECDSA, Keccak where
    only its being a hash matters, and databases are the operations of classes ([Crypto], [Store],
    [AppProxy], [Transport] and the classes of Trie and State); what is relied on is stated as laws
    or as hypotheses, and every property with one has a witness on a concrete instance.

    ** The parts

    _Storage._  Lru ([common/lru.go]), RollingIndex ([common/rolling_index.go],
    [rolling_index_map.go]), Caches ([storage/caches.go]), Store ([storage/store.go],
    [memory_store.go]).  The class [Store] is the interface of the sources and [StoreLaws] what the
    graph relies on; the in-memory store discharges it as long as nothing is evicted.

    _Consensus._  Types and Bytes ([types/comet.go], [block.go], [round_info.go], [root.go]);
    CometGraph ([core/sequentia/sequentia.go], [sorter.go]), every method over any [Store].  The
    meaning comes from pure functions of the graph: Ancestry (ancestors and coordinates), Rounds
    (rounds and witnesses), Fame (elections), Stamps (round received, timestamp).  Insert, Queries,
    Graph, Divide, Voting, Received and Order show that the methods compute them; Consensus has the
    invariant of every reachable state, under insertions, queries and whole consensus passes.

    _Gossip._  Core ([core/core.go]) wraps the graph with the keys and the pools of a node, Wire is
    the wire form of comets, Node ([core/node.go], [node_state.go], [peer_selector.go],
    [control_timer.go], [network/transport.go]) has the handlers of requests, the two halves of a
    gossip exchange, the commit of blocks and the heartbeat.  Gossip, GossipSync and Network prove
    what is handed out, what is taken in, and what an exchange between two nodes achieves.

    _Application._  ProxyState ([proxy/proxy_state.go], [proxy_was_state.go], [mem_pool.go], the
    commit of [inmem_proxy.go]) applies the transactions of a block with Transition
    ([proxy_processor.go], [gaspool.go]) to a state: State ([state/statedb.go], [state_object.go],
    [journal.go]), StateDatabase ([state/database.go]), on tries: HexKeys, TrieNode, Trie,
    SecureTrie ([trie/encoding.go], [node.go], [trie.go], [hasher.go], [secure_trie.go]).
    Transactions and PriceHeap ([types/transaction.go], [signer.go]) and Receipts
    ([types/receipt.go], [log.go], [bloom9.go]) are the data.

    _Encodings and hashing._  Rlp, RlpReader, RlpRaw, RlpStream, RlpDecode, RlpOptional
    ([common/rlp]), Serial and Stream ([common/zero_copy_sink.go], [zero_copy_source.go],
    [common/serialization]), HexUtil ([common/hexutil]), BigMath ([common/math/big.go]), KeccakF and
    Sha3 ([common/crypto/sha3]).

    _Actors._  Goring, Mpsc and Mailbox ([network/actor/internal/queue], [network/actor/mailbox]):
    the two queues and the mailbox, under every interleaving of their atomic steps.  The messages
    posted are not nil; what a nil one does is the lemma [nil_message_spins].

    ** What is shown

    - Comets and rounds (Correctness, Order): in every reachable state inserting an honest comet
      succeeds and keeps the coordinates right, a bad one is refused and changes nothing that
      counts; the queries answer ancestry; rounds and witnesses are those of the definition, so any
      two nodes agree on them; sorting the received comets gives one sequence of keys, and one
      arrangement when the keys are distinct, and the ordered comets become consecutive blocks with
      exactly their transactions.
    - Agreement: a consensus pass returns and records only decided fame and defined timestamps; two
      nodes never decide fame differently and give a comet received in the same round the same
      timestamp, while fewer than a third of the participants show them different histories.
    - Gossip (GossipSync, Network): [EventDiff] is exact, and an exchange leaves both nodes with
      everything either held.
    - Containers and concurrency: the LRU cache, the rolling index and the ring buffer refine
      lists; the lock-free queue is first-in first-out and the mailbox neither loses nor reorders
      messages nor sleeps on one, whatever the interleaving; once nobody posts, it comes to rest
      after a bounded number of steps.
    - Tries and state: a trie refines a map, its root hash identifies the map, a committed trie
      can be opened again, while the hash has no collision among the nodes; the state with its
      journal refines a stack of saved views and stays well-formed whether calls return, fail or
      panic; a message is accepted exactly when it should be and moves what it should.
    - Data: RLP, the binary serialization, hexadecimal text, transactions and receipts round-trip,
      and the RLP decoder accepts encodings only, for the types it can decode; the hash functions are the sponges of FIPS 202.
    - The application: what processing a block leaves in the store and waiting, on every branch, and
      a restart after which every commit panics once it has written the store.

    Each file with a name in [Props], and Correctness, Agreement, Network and the ends of the other
    files, has the properties, numbered C1 to C40, followed by witnesses.

    ** Fuel

    Loops that are not structural take fuel, and the properties say that it is enough, so
    [OutOfFuel] is never an answer.  The graph is walked within [fuel_ok] (more than the index of
    any comet) and a consensus pass within the number of comets stored.  Trie operations use
    [key_fuel], twice the length of the key and two: every second node of a path uses up a nibble.
    Text of numbers uses the binary logarithm ([text_fuel]), the decoders and the splitter the
    length of the input, the sponge loops the length of the data, the heap the number of its items.

    ** Not modelled

    Sockets, HTTP, files, the command line, logging and statistics are I/O.  Generated code (JSON of
    transactions, protocol buffers) and reflection in the RLP type cache have no source to follow
    or only memoise.  [storage/badger_store.go] marshals the values of the class [Store] into a
    database outside the sources.  The trie iterators and [ForEachStorage] on top of them have no
    caller, nor has [managed_state.go].  The actor runtime above the mailbox, the key store and the
    persistence of the peer list are left out.  Stores that evict what is still needed, and the
    interleaving of the goroutines of one node beyond the lock of its core, are outside the
    theorems, as are the capacity of the commit channel and the limits of memory. *)
From stdpp Require Export base gmap strings list fin_maps pretty sorting relations.
From Stdlib Require Export ZArith Lia.

(** * Outcomes of Go code

    A Go function either returns, returns a non-nil [error] as its last result,
    or panics.  Recursive or looping Go code is modelled with fuel, and running
    out of it is an outcome of its own, never confused with an error. *)

(** The constants of [errors/errors.go]. *)
Inductive StoreErrType : Type :=
  | KeyNotFound | TooLate | PassedIndex | SkippedIndex | NoRoot | UnknownParticipant.

(** A Go [error] value: a [StoreErr] of the [errors] package, or an error made by
    [fmt.Errorf], possibly around another one, or an error of a library. *)
Inductive gerror : Type :=
  | StoreErr (errType : StoreErrType) (key : string)
  | Errorf (msg : string)
  | Wrapf (ctx : string) (inner : gerror)
  | LibErr (msg : string).

Inductive outcome (A : Type) : Type :=
  | Ret (a : A)
  | Fail (e : gerror)
  | Panic (why : string)
  | OutOfFuel.
Arguments Ret {A} a.
Arguments Fail {A} e.
Arguments Panic {A} why.
Arguments OutOfFuel {A}.

#[export] Instance StoreErrType_eq_dec : EqDecision StoreErrType.
Proof. solve_decision. Defined.
#[export] Instance gerror_eq_dec : EqDecision gerror.
Proof. solve_decision. Defined.
#[export] Instance outcome_eq_dec {A} `{EqDecision A} : EqDecision (outcome A).
Proof. solve_decision. Defined.

(** * Stateful code: a state monad whose state survives an error or a panic *)

Definition M (S A : Type) : Type := S → outcome A * S.

#[export] Instance M_ret S : MRet (M S) := λ A a s, (Ret a, s).
#[export] Instance M_bind S : MBind (M S) := λ A B f m s,
  match m s with
  | (Ret a, s') => f a s'
  | (Fail e, s') => (Fail e, s')
  | (Panic w, s') => (Panic w, s')
  | (OutOfFuel, s') => (OutOfFuel, s')
  end.

Section Ops.
Context {S : Type}.

Definition fail {A} (e : gerror) : M S A := λ s, (Fail e, s).
Definition panic {A} (why : string) : M S A := λ s, (Panic why, s).
Definition out_of_fuel {A} : M S A := λ s, (OutOfFuel, s).
Definition get : M S S := λ s, (Ret s, s).
Definition gets {A} (f : S → A) : M S A := λ s, (Ret (f s), s).
Definition modify (f : S → S) : M S unit := λ s, (Ret tt, f s).

(** [v, err := m]: the error becomes a value the caller inspects. *)
Definition try {A} (m : M S A) : M S (gerror + A) := λ s,
  match m s with
  | (Ret a, s') => (Ret (inr a), s')
  | (Fail e, s') => (Ret (inl e), s')
  | (Panic w, s') => (Panic w, s')
  | (OutOfFuel, s') => (OutOfFuel, s')
  end.

(** [if err := m; err != nil { return fmt.Errorf("ctx: %s", err) }] *)
Definition wrap {A} (ctx : string) (m : M S A) : M S A := λ s,
  match m s with
  | (Fail e, s') => (Fail (Wrapf ctx e), s')
  | r => r
  end.

(** A pure outcome used as a computation. *)
Definition lift {A} (o : outcome A) : M S A := λ s, (o, s).

(** [for _, x := range l { f(x) }] *)
Fixpoint for_each {A} (f : A → M S unit) (l : list A) : M S unit :=
  match l with
  | [] => mret tt
  | x :: l' => f x ;; for_each f l'
  end.

(** A range loop that updates local variables [b] and never breaks. *)
Fixpoint foldM {A B} (f : B → A → M S B) (b : B) (l : list A) : M S B :=
  match l with
  | [] => mret b
  | x :: l' => b' ← f b x; foldM f b' l'
  end.

(** A range loop whose body may [break]: the body answers the new locals and
    whether the loop stops. *)
Fixpoint foldM_break {A B} (f : B → A → M S (B * bool)) (b : B) (l : list A) : M S (B * bool) :=
  match l with
  | [] => mret (b, false)
  | x :: l' => r ← f b x;
      if r.2 : bool then mret r else foldM_break f r.1 l'
  end.

(** Running a computation on a component of the state. *)
Definition zoom {T A} (sel : S → T) (upd : T → S → S) (m : M T A) : M S A := λ s,
  let '(o, t) := m (sel s) in (o, upd t s).
End Ops.

(** [weakest precondition]: what holds of the outcome and of the final state. *)
Definition wp {S A} (m : M S A) (s : S) (Q : outcome A → S → Prop) : Prop :=
  Q (m s).1 (m s).2.

Section WpRules.
Context {S : Type}.
Implicit Types (s : S).

Lemma wp_ret {A} (a : A) s Q : Q (Ret a) s → wp (mret a) s Q.
Proof. done. Qed.

Lemma wp_bind {A B} (m : M S A) (f : A → M S B) s Q :
  wp m s (λ o s', match o with
                  | Ret a => wp (f a) s' Q
                  | Fail e => Q (Fail e) s'
                  | Panic w => Q (Panic w) s'
                  | OutOfFuel => Q OutOfFuel s'
                  end) →
  wp (m ≫= f) s Q.
Proof. unfold wp, mbind, M_bind. destruct (m s) as [[] ?]; done. Qed.

Lemma wp_mono {A} (m : M S A) s (Q Q' : outcome A → S → Prop) :
  wp m s Q → (∀ o s', Q o s' → Q' o s') → wp m s Q'.
Proof. unfold wp. eauto. Qed.

Lemma wp_try {A} (m : M S A) s Q :
  wp m s (λ o s', match o with
                  | Ret a => Q (Ret (inr a)) s'
                  | Fail e => Q (Ret (inl e)) s'
                  | Panic w => Q (Panic w) s'
                  | OutOfFuel => Q OutOfFuel s'
                  end) →
  wp (try m) s Q.
Proof. unfold wp, try. destruct (m s) as [[] ?]; done. Qed.

Lemma wp_wrap {A} ctx (m : M S A) s Q :
  wp m s (λ o s', match o with
                  | Fail e => Q (Fail (Wrapf ctx e)) s'
                  | o => Q o s'
                  end) →
  wp (wrap ctx m) s Q.
Proof. unfold wp, wrap. destruct (m s) as [[] ?]; done. Qed.

Lemma wp_zoom {T A} (sel : S → T) (upd : T → S → S) (m : M T A) s Q :
  wp m (sel s) (λ o t, Q o (upd t s)) → wp (zoom sel upd m) s Q.
Proof. unfold wp, zoom. by destruct (m (sel s)). Qed.

Lemma wp_lift_bind {A B} (o : outcome A) a (f : A → M S B) s Q :
  o = Ret a → wp (f a) s Q → wp (lift o ≫= f) s Q.
Proof. by intros ->. Qed.

Lemma wp_gets_bind {A B} (h : S → A) (f : A → M S B) s Q :
  wp (f (h s)) s Q → wp (gets h ≫= f) s Q.
Proof. done. Qed.

Lemma wp_modify_bind {B} (h : S → S) (f : unit → M S B) s Q :
  wp (f tt) (h s) Q → wp (modify h ≫= f) s Q.
Proof. done. Qed.

(** A range loop keeps an invariant indexed by what is left to do. *)
Lemma wp_for_each {A} (f : A → M S unit) (I : list A → S → Prop) l s
    (Q : outcome unit → S → Prop) :
  I l s →
  (∀ x l' s', I (x :: l') s' →
     wp (f x) s' (λ o s'', match o with Ret _ => I l' s'' | o => Q o s'' end)) →
  (∀ s', I [] s' → Q (Ret tt) s') →
  wp (for_each f l) s Q.
Proof.
  intros HI Hstep Hend. revert s HI.
  induction l as [|x l IH]; intros s HI; [by apply Hend|].
  apply wp_bind. eapply wp_mono; [by apply Hstep|].
  intros [] s'; auto.
Qed.

Lemma wp_foldM {A B} (f : B → A → M S B) (I : list A → B → S → Prop) l b s
    (Q : outcome B → S → Prop) :
  I l b s →
  (∀ x l' b' s', I (x :: l') b' s' →
     wp (f b' x) s' (λ o s'', match o with
                              | Ret b'' => I l' b'' s''
                              | o => Q o s'' end)) →
  (∀ b' s', I [] b' s' → Q (Ret b') s') →
  wp (foldM f b l) s Q.
Proof.
  intros HI Hstep Hend. revert b s HI.
  induction l as [|x l IH]; intros b s HI; [by apply Hend|].
  apply wp_bind. eapply wp_mono; [by apply Hstep|].
  intros [] s'; auto.
Qed.

(** A loop that may break: [Q] holds where it stops. *)
Lemma wp_foldM_break {A B} (f : B → A → M S (B * bool)) (I : list A → B → S → Prop) l b s
    (Q : outcome (B * bool) → S → Prop) :
  I l b s →
  (∀ x l' b' s', I (x :: l') b' s' →
     wp (f b' x) s' (λ o s'', match o with
                              | Ret (b'', false) => I l' b'' s''
                              | o => Q o s'' end)) →
  (∀ b' s', I [] b' s' → Q (Ret (b', false)) s') →
  wp (foldM_break f b l) s Q.
Proof.
  intros HI Hstep Hend. revert b s HI.
  induction l as [|x l IH]; intros b s HI; [by apply Hend|].
  apply wp_bind. eapply wp_mono; [by apply Hstep|].
  intros [[b' []]| | |] s'; simpl; auto.
Qed.
End WpRules.

(** ** Notations, hints and tactics *)

Declare Scope go_scope.
Delimit Scope go_scope with go.

(** [m], started in [s], ends with an outcome and a state that satisfy [Q]. *)
Notation "'WP' m ◃ s {{ o s' , Q } }" := (wp m s (λ o s', Q))
  (at level 0, m at level 9, s at level 9, o name, s' name, Q at level 200) : go_scope.

(** What every proof about a computation does first: a return is its postcondition, a
    read or an update of the state is run. *)
Create HintDb wp.
#[export] Hint Resolve wp_ret : wp.
#[export] Hint Extern 1 (wp (gets _ ≫= _) _ _) => apply wp_gets_bind : wp.
#[export] Hint Extern 1 (wp (modify _ ≫= _) _ _) => apply wp_modify_bind : wp.

(** [wp_bind] and [wp_ret] until a call is in front. *)
Ltac wp_step :=
  first [apply wp_bind | apply wp_try | apply wp_wrap | apply wp_zoom]; cbn beta iota.

(** A closed decidable proposition, by evaluation. *)
Ltac decided := apply (bool_decide_unpack _); vm_compute; exact I.

(** Monad laws, pointwise in the state. *)
Lemma run_bind_Ret {S A B} (m : M S A) (f : A → M S B) s a s' :
  m s = (Ret a, s') → (m ≫= f) s = f a s'.
Proof. unfold mbind, M_bind. by intros ->. Qed.

Lemma run_bind_Fail {S A B} (m : M S A) (f : A → M S B) s e s' :
  m s = (Fail e, s') → (m ≫= f) s = (Fail e, s').
Proof. unfold mbind, M_bind. by intros ->. Qed.

(** * Go slices *)

(** [l[i]] panics when [i] is out of range. *)
Definition index {A} (l : list A) (i : Z) : outcome A :=
  if decide (0 ≤ i)%Z then
    match l !! Z.to_nat i with Some a => Ret a | None => Panic "index out of range" end
  else Panic "index out of range".

(** [l[i] = x] panics when [i] is out of range. *)
Definition set_index {A} (l : list A) (i : Z) (x : A) : outcome (list A) :=
  if decide (0 ≤ i < Z.of_nat (length l))%Z then Ret (<[Z.to_nat i := x]> l)
  else Panic "index out of range".

(** [l[i:]] panics unless [0 <= i <= len(l)] (a slice expression without a high
    bound checks against the length). *)
Definition slice_from {A} (l : list A) (i : Z) : outcome (list A) :=
  if decide (0 ≤ i ≤ Z.of_nat (length l))%Z then Ret (drop (Z.to_nat i) l)
  else Panic "slice bounds out of range".

Definition len {A} (l : list A) : Z := Z.of_nat (length l).

Lemma index_Some {A} (l : list A) i x : (0 ≤ i)%Z → l !! Z.to_nat i = Some x → index l i = Ret x.
Proof. intros Hi Hl. unfold index. by rewrite decide_True, Hl by lia. Qed.

Lemma index_in_range {A} (l : list A) i :
  (0 ≤ i < Z.of_nat (length l))%Z → ∃ x, index l i = Ret x ∧ l !! Z.to_nat i = Some x.
Proof.
  intros Hi. destruct (lookup_lt_is_Some_2 l (Z.to_nat i) ltac:(lia)) as [x Hx].
  exists x. split; [apply index_Some; [lia|done]|done].
Qed.

Lemma set_index_Ret {A} (l : list A) i x :
  (0 ≤ i < Z.of_nat (length l))%Z → set_index l i x = Ret (<[Z.to_nat i := x]> l).
Proof. intros Hi. unfold set_index. by rewrite decide_True by done. Qed.

(** A slice that may be [nil] is an [option] of a list; [nil] behaves as the
    empty list everywhere but in comparisons with [nil]. *)
Definition of_nilable {A} (o : option (list A)) : list A := default [] o.

(** * Counting *)
Definition countb {A} (f : A → bool) (l : list A) : Z :=
  foldr (λ x n, if f x then n + 1 else n)%Z 0%Z l.

Section Countb.
Context {A : Type}.
Implicit Types (f : A → bool) (l : list A).

Lemma countb_ext f f' l : (∀ x, x ∈ l → f x = f' x) → countb f l = countb f' l.
Proof.
  induction l as [|x l IH]; intros Hf; [done|]. simpl.
  rewrite IH by (intros; apply Hf; by right). by rewrite (Hf x) by (by left).
Qed.

Lemma countb_fmap {B} (h : B → A) f (l : list B) : countb f (h <$> l) = countb (f ∘ h) l.
Proof. induction l as [|x l IH]; [done|]. unfold countb in *. cbn. by rewrite IH. Qed.

Lemma countb_perm f l l' : l ≡ₚ l' → countb f l = countb f l'.
Proof.
  induction 1 as [|x l l' _ IH|x y l|l l' l'' _ IH _ IH']; simpl; [done|by rewrite IH| |congruence].
  destruct (f x), (f y); lia.
Qed.

Lemma countb_app f l l' : countb f (l ++ l') = (countb f l + countb f l')%Z.
Proof. unfold countb. induction l as [|x l IH]; cbn; [done|]. destruct (f x); lia. Qed.

Lemma countb_cons f x l : countb f (x :: l) = ((if f x then 1 else 0) + countb f l)%Z.
Proof. unfold countb. cbn. destruct (f x); lia. Qed.

Lemma countb_nonneg f l : (0 ≤ countb f l)%Z.
Proof. induction l as [|x l IH]; simpl; [done|]. destruct (f x); lia. Qed.

Lemma countb_filter (P : A → Prop) `{∀ x, Decision (P x)} l :
  Z.of_nat (length (filter P l)) = countb (λ x, bool_decide (P x)) l.
Proof.
  induction l as [|x l IH]; [done|]. rewrite filter_cons. simpl.
  destruct (decide (P x)).
  - rewrite bool_decide_eq_true_2 by done. simpl. lia.
  - by rewrite bool_decide_eq_false_2 by done.
Qed.
End Countb.

Lemma size_filter_countb {K V} `{Countable K} (P : K * V → Prop) `{∀ x, Decision (P x)} (m : gmap K V) :
  Z.of_nat (base.size (filter P m)) = countb (λ x, bool_decide (P x)) (map_to_list m).
Proof.
  rewrite <-countb_filter, <-length_map_to_list, map_filter_alt, map_to_list_to_map; [done|].
  eapply sublist_NoDup; [apply (NoDup_fst_map_to_list m)|apply fmap_sublist, sublist_filter].
Qed.

Definition MaxInt32 : Z := 2147483647.
Definition MinInt32 : Z := (-2147483648)%Z.

(** * Iterating over a Go map

    [for k, v := range m] visits the entries in an unspecified order, so the order
    is a parameter of everything that depends on it. *)
Class RangeOrder : Type := {
  range : ∀ {K V : Type} `{Countable K}, gmap K V → list (K * V);
  range_perm : ∀ {K V : Type} `{Countable K} (m : gmap K V), range m ≡ₚ map_to_list m
}.

(** One such order, used to run the model. *)
Definition listing_order : RangeOrder :=
  {| range := λ K V _ _ m, map_to_list m; range_perm := λ K V _ _ m, reflexivity _ |}.

Lemma elem_of_range `{RangeOrder} {K V} `{Countable K} (m : gmap K V) k v :
  (k, v) ∈ range m ↔ m !! k = Some v.
Proof. rewrite range_perm. apply elem_of_map_to_list. Qed.

Lemma NoDup_fst_range `{RangeOrder} {K V} `{Countable K} (m : gmap K V) :
  NoDup (range m).*1.
Proof. rewrite range_perm. apply NoDup_fst_map_to_list. Qed.
