(* ===== verification/Lru.v ===== *)
(** [common/lru.go]: the fixed-size LRU cache the stores and the comet graph put in
    front of everything.  The doubly linked list of [container/list] is a sequence
    of element identities, front first, over a heap of [*entry] values; the hash
    index is a map from keys to identities.  [recency] reads both structures as
    one association list, most recent first, and the operations are shown to
    implement the obvious operations on it. *)
From S2P Require Import Prelude.

Module Lru.
Section Lru.
Context {K V : Type} `{Countable K}.

(** [entry] is the pair of a key and a value; a [*list.Element] is a [positive]. *)
Record LRU := mkLRU {
  size : Z;
  evictList : list positive;
  elems : gmap positive (K * V);
  items : gmap K positive;
  onEvict : bool;               (* is a callback installed? *)
  callbacks : list (K * V);     (* the calls it got, oldest first *)
  fresh_elem : positive
}.

Definition NewLRU (sz : Z) (cb : bool) : LRU :=
  mkLRU sz [] ∅ ∅ cb [] 1%positive.

(** [container/list]: [MoveToFront], [Remove], [PushFront], [Back]. *)
Definition list_remove (e : positive) (l : list positive) : list positive :=
  filter (λ e', e' ≠ e) l.
Definition move_to_front (e : positive) (l : list positive) : list positive :=
  e :: list_remove e l.

Definition set_list (l : list positive) (c : LRU) : LRU :=
  mkLRU (size c) l (elems c) (items c) (onEvict c) (callbacks c) (fresh_elem c).

Definition notify (k : K) (v : V) (c : LRU) : LRU :=
  if onEvict c then
    mkLRU (size c) (evictList c) (elems c) (items c) (onEvict c)
          (callbacks c ++ [(k, v)]) (fresh_elem c)
  else c.

Definition Purge (c : LRU) : LRU :=
  let cbs := if onEvict c
    then omap (λ '(_, e), elems c !! e) (map_to_list (items c)) else [] in
  mkLRU (size c) [] (elems c) ∅ (onEvict c) (callbacks c ++ cbs) (fresh_elem c).

Definition removeElement (e : positive) (c : LRU) : LRU :=
  match elems c !! e with
  | Some (k, v) =>
      notify k v
        (mkLRU (size c) (list_remove e (evictList c)) (elems c) (delete k (items c))
               (onEvict c) (callbacks c) (fresh_elem c))
  | None => set_list (list_remove e (evictList c)) c
  end.

Definition removeOldest (c : LRU) : LRU :=
  match last (evictList c) with
  | Some e => removeElement e c
  | None => c
  end.

(** [Add] answers whether an eviction occurred. *)
Definition Add (k : K) (v : V) (c : LRU) : bool * LRU :=
  match items c !! k with
  | Some e =>
      (false, mkLRU (size c) (move_to_front e (evictList c))
                    (alter (λ kv, (kv.1, v)) e (elems c))
                    (items c) (onEvict c) (callbacks c) (fresh_elem c))
  | None =>
      let e := fresh_elem c in
      let c' := mkLRU (size c) (e :: evictList c) (<[e := (k, v)]> (elems c))
                      (<[k := e]> (items c)) (onEvict c) (callbacks c) (Pos.succ e) in
      let evict := bool_decide (size c < len (evictList c'))%Z in
      (evict, if evict then removeOldest c' else c')
  end.

Definition Get (k : K) (c : LRU) : option V * LRU :=
  match items c !! k with
  | Some e => (snd <$> elems c !! e, set_list (move_to_front e (evictList c)) c)
  | None => (None, c)
  end.

Definition Contains (k : K) (c : LRU) : bool := bool_decide (is_Some (items c !! k)).

Definition Peek (k : K) (c : LRU) : option V :=
  match items c !! k with
  | Some e => snd <$> elems c !! e
  | None => None
  end.

Definition Remove (k : K) (c : LRU) : bool * LRU :=
  match items c !! k with
  | Some e => (true, removeElement e c)
  | None => (false, c)
  end.

Definition RemoveOldest (c : LRU) : option (K * V) * LRU :=
  match last (evictList c) with
  | Some e => (elems c !! e, removeElement e c)
  | None => (None, c)
  end.

Definition GetOldest (c : LRU) : option (K * V) :=
  match last (evictList c) with
  | Some e => elems c !! e
  | None => None
  end.

(** [Keys] walks the list from the back. *)
Definition Keys (c : LRU) : list K :=
  omap (λ e, fst <$> elems c !! e) (reverse (evictList c)).

Definition Len (c : LRU) : Z := len (evictList c).

(** ** The representation invariant *)

Record wf (c : LRU) : Prop := {
  wf_nodup : NoDup (evictList c);
  wf_fresh : ∀ e, e ∈ evictList c → (e < fresh_elem c)%positive;
  wf_sound : ∀ k e, items c !! k = Some e →
               e ∈ evictList c ∧ ∃ v, elems c !! e = Some (k, v);
  wf_complete : ∀ e, e ∈ evictList c →
               ∃ k v, elems c !! e = Some (k, v) ∧ items c !! k = Some e
}.

(** ** The abstract cache: an association list, most recent first *)

Definition recency (c : LRU) : list (K * V) := omap (λ e, elems c !! e) (evictList c).

Definition assoc_remove (k : K) (l : list (K * V)) : list (K * V) :=
  filter (λ kv, kv.1 ≠ k) l.

Fixpoint assoc_find (k : K) (l : list (K * V)) : option V :=
  match l with
  | [] => None
  | (k', v) :: l' => if decide (k' = k) then Some v else assoc_find k l'
  end.

Definition spec_get (k : K) (l : list (K * V)) : option V * list (K * V) :=
  match assoc_find k l with
  | Some v => (Some v, (k, v) :: assoc_remove k l)
  | None => (None, l)
  end.

Definition spec_add (sz : Z) (k : K) (v : V) (l : list (K * V)) : bool * list (K * V) :=
  match assoc_find k l with
  | Some _ => (false, (k, v) :: assoc_remove k l)
  | None =>
      let l' := (k, v) :: l in
      if bool_decide (sz < len l')%Z then (true, take (length l) l') else (false, l')
  end.
(** ** Lemmas: the two structures agree *)

(** Every identity of [l] is live and indexed by its own key. *)
Definition indexed (c : LRU) (l : list positive) : Prop :=
  ∀ e, e ∈ l → ∃ k v, elems c !! e = Some (k, v) ∧ items c !! k = Some e.

Lemma wf_indexed c : wf c → indexed c (evictList c).
Proof. intros Hwf e. apply (wf_complete c Hwf). Qed.

Lemma indexed_cons c e l :
  indexed c (e :: l) →
  (∃ k v, elems c !! e = Some (k, v) ∧ items c !! k = Some e) ∧ indexed c l.
Proof. unfold indexed. set_solver. Qed.

(** Removing an identity removes exactly its key. *)
Lemma omap_list_remove c l e k v :
  indexed c l → items c !! k = Some e → elems c !! e = Some (k, v) →
  omap (λ e, elems c !! e) (list_remove e l) =
  assoc_remove k (omap (λ e, elems c !! e) l).
Proof.
  intros Hix Hk He. induction l as [|e' l IH]; [done|].
  apply indexed_cons in Hix as [(k' & v' & He' & Hk') Hix].
  unfold list_remove, assoc_remove in *. rewrite filter_cons. simpl.
  rewrite He'. simpl. rewrite filter_cons. simpl.
  destruct (decide (e' = e)) as [->|Hne].
  - assert (k' = k) as -> by congruence.
    rewrite !decide_False by tauto. by apply IH.
  - assert (k' ≠ k) by congruence.
    rewrite !decide_True by done. simpl. rewrite He'. simpl. f_equal. by apply IH.
Qed.

Lemma assoc_find_omap c l k :
  wf c → indexed c l →
  assoc_find k (omap (λ e, elems c !! e) l) =
  match items c !! k with
  | Some e => if decide (e ∈ l) then snd <$> elems c !! e else None
  | None => None
  end.
Proof.
  intros Hwf Hix. induction l as [|e l IH]; simpl.
  { by destruct (items c !! k). }
  apply indexed_cons in Hix as [(k' & v' & He & Hk') Hix].
  rewrite He. simpl. destruct (decide (k' = k)) as [->|Hne].
  - rewrite Hk', decide_True by set_solver. by rewrite He.
  - etrans; [by apply IH|]. destruct (items c !! k) as [e'|] eqn:Hk; [|done].
    assert (e' ≠ e).
    { intros ->. destruct (wf_sound c Hwf k e Hk) as [_ [v Hv]]. congruence. }
    destruct (decide (e' ∈ l)); [rewrite decide_True by set_solver; done|].
    rewrite decide_False by set_solver. done.
Qed.

Lemma assoc_find_recency c k : wf c → assoc_find k (recency c) = Peek k c.
Proof.
  intros Hwf. unfold recency, Peek.
  rewrite assoc_find_omap by eauto using wf_indexed.
  destruct (items c !! k) as [e|] eqn:Hk; [|done].
  apply (wf_sound c Hwf) in Hk as [He _]. by rewrite decide_True.
Qed.

Lemma omap_live_length c l :
  indexed c l → length (omap (λ e, elems c !! e) l) = length l.
Proof.
  induction l as [|e l IH]; intros Hix; [done|].
  apply indexed_cons in Hix as [(k & v & He & _) Hix].
  simpl. rewrite He. simpl. f_equal. by apply IH.
Qed.

Lemma length_recency c : wf c → length (recency c) = length (evictList c).
Proof. intros Hwf. by apply omap_live_length, wf_indexed. Qed.

Lemma elem_of_list_remove e e' l : e' ∈ list_remove e l ↔ e' ≠ e ∧ e' ∈ l.
Proof. unfold list_remove. by rewrite list_elem_of_filter. Qed.

Lemma NoDup_list_remove e l : NoDup l → NoDup (list_remove e l).
Proof. apply NoDup_filter. Qed.

Lemma wf_move_to_front c e :
  wf c → e ∈ evictList c → wf (set_list (move_to_front e (evictList c)) c).
Proof.
  intros [Hnd Hfr Hs Hc] He. unfold move_to_front. split; simpl.
  - constructor; [rewrite elem_of_list_remove; naive_solver|by apply NoDup_list_remove].
  - intros e'. rewrite elem_of_cons, elem_of_list_remove. naive_solver.
  - intros k e' Hk. destruct (Hs k e' Hk) as [Hin Hv]. split; [|done].
    rewrite elem_of_cons, elem_of_list_remove. destruct (decide (e' = e)); auto.
  - intros e'. rewrite elem_of_cons, elem_of_list_remove. naive_solver.
Qed.

Lemma wf_remove c e k v :
  wf c → items c !! k = Some e → elems c !! e = Some (k, v) →
  wf (mkLRU (size c) (list_remove e (evictList c)) (elems c) (delete k (items c))
            (onEvict c) (callbacks c) (fresh_elem c)).
Proof.
  intros [Hnd Hfr Hs Hc] Hk He. split; simpl.
  - by apply NoDup_list_remove.
  - intros e'. rewrite elem_of_list_remove. naive_solver.
  - intros k' e' [Hne Hk']%lookup_delete_Some.
    destruct (Hs k' e' Hk') as [Hin [v' Hv']]. split; [|by exists v'].
    rewrite elem_of_list_remove. split; [|done]. intros ->. naive_solver.
  - intros e' [Hne Hin]%elem_of_list_remove.
    destruct (Hc e' Hin) as (k' & v' & He' & Hk'). exists k', v'. split; [done|].
    rewrite lookup_delete_ne; [done|]. intros ->. naive_solver.
Qed.

Lemma wf_notify c k v : wf c → wf (notify k v c).
Proof. unfold notify. intros [????]. by destruct (onEvict c). Qed.

Lemma recency_notify c k v : recency (notify k v c) = recency c.
Proof. unfold notify. by destruct (onEvict c). Qed.

Lemma removeElement_spec c e k v :
  wf c → items c !! k = Some e → elems c !! e = Some (k, v) →
  wf (removeElement e c) ∧ recency (removeElement e c) = assoc_remove k (recency c).
Proof.
  intros Hwf Hk He. unfold removeElement. rewrite He. split.
  - eapply wf_notify, wf_remove; eauto.
  - rewrite recency_notify. apply (omap_list_remove c _ e k v); eauto using wf_indexed.
Qed.

(** The oldest element is the last entry of [recency], and removing its key
    drops that last entry. *)
Lemma last_recency c e :
  wf c → last (evictList c) = Some e → last (recency c) = elems c !! e.
Proof.
  intros Hwf [l Hl]%last_Some.
  assert (e ∈ evictList c) as Hin by (rewrite Hl; set_solver).
  destruct (wf_complete c Hwf e Hin) as (k & v & He & _).
  unfold recency. rewrite Hl, omap_app. simpl. rewrite He. by rewrite last_snoc.
Qed.

Lemma NoDup_recency_keys c : wf c → NoDup (recency c).*1.
Proof.
  intros Hwf. unfold recency. pose proof (wf_indexed c Hwf) as Hix.
  pose proof (wf_nodup c Hwf) as Hnd. induction (evictList c) as [|e l IH]; [constructor|].
  apply indexed_cons in Hix as [(k & v & He & Hk) Hix].
  apply NoDup_cons in Hnd as [Hnin Hnd]. simpl. rewrite He. simpl.
  constructor; [|by apply IH].
  intros ([k' v'] & ? & Hin)%list_elem_of_fmap. simplify_eq/=.
  apply list_elem_of_omap in Hin as (e' & Hin & He').
  destruct (Hix e' Hin) as (?&?&?&?). naive_solver.
Qed.

Lemma assoc_remove_not_in k (l : list (K * V)) : k ∉ l.*1 → assoc_remove k l = l.
Proof.
  induction l as [|[k' v] l IH]; intros Hnin; [done|].
  unfold assoc_remove in *. rewrite filter_cons. simpl in *.
  rewrite decide_True by set_solver. rewrite IH by set_solver. done.
Qed.

Lemma assoc_remove_last k v (l : list (K * V)) :
  NoDup (l ++ [(k, v)]).*1 → assoc_remove k (l ++ [(k, v)]) = l.
Proof.
  rewrite fmap_app. intros (_ & Hd & _)%NoDup_app. unfold assoc_remove.
  rewrite filter_app. simpl. rewrite filter_cons, decide_False by naive_solver.
  rewrite filter_nil, app_nil_r. apply assoc_remove_not_in. set_solver.
Qed.

Lemma removeOldest_spec c :
  wf c →
  wf (removeOldest c) ∧
  recency (removeOldest c) = take (pred (length (recency c))) (recency c).
Proof.
  intros Hwf. unfold removeOldest.
  destruct (last (evictList c)) as [e|] eqn:Hlast; last first.
  { apply last_None in Hlast. split; [done|].
    unfold recency. by rewrite Hlast. }
  pose proof (last_recency c e Hwf Hlast) as Hl.
  apply last_Some in Hlast as [l0 Hl0].
  assert (e ∈ evictList c) as Hin by (rewrite Hl0; set_solver).
  destruct (wf_complete c Hwf e Hin) as (k & v & He & Hk).
  destruct (removeElement_spec c e k v Hwf Hk He) as [Hwf' Hrec]. split; [done|].
  rewrite Hrec. rewrite He in Hl. apply last_Some in Hl as [l Hl].
  pose proof (NoDup_recency_keys c Hwf) as Hnd. rewrite Hl in *.
  rewrite assoc_remove_last by done. rewrite length_app. simpl.
  rewrite Nat.add_1_r. simpl. by rewrite take_app_length.
Qed.
Lemma wf_NewLRU sz cb : wf (NewLRU sz cb).
Proof. split; simpl; [constructor|set_solver|by intros|set_solver]. Qed.

Lemma wf_push c k v :
  wf c → items c !! k = None →
  wf (mkLRU (size c) (fresh_elem c :: evictList c) (<[fresh_elem c := (k, v)]> (elems c))
            (<[k := fresh_elem c]> (items c)) (onEvict c) (callbacks c)
            (Pos.succ (fresh_elem c))).
Proof.
  intros [Hnd Hfr Hs Hc] Hk.
  assert (fresh_elem c ∉ evictList c) as Hnew by (intros Hin; specialize (Hfr _ Hin); lia).
  split; simpl.
  - by constructor.
  - intros e [->|Hin]%elem_of_cons; [lia|]. specialize (Hfr e Hin). lia.
  - intros k' e [[-> <-]|[Hne Hk']]%lookup_insert_Some.
    + split; [set_solver|]. exists v. by rewrite lookup_insert_eq.
    + destruct (Hs k' e Hk') as [Hin [v' Hv']]. split; [set_solver|]. exists v'.
      rewrite lookup_insert_ne; [done|]. by intros <-.
  - intros e [->|Hin]%elem_of_cons.
    + exists k, v. by rewrite !lookup_insert_eq.
    + destruct (Hc e Hin) as (k' & v' & He & Hk'). exists k', v'.
      rewrite !lookup_insert_ne; [done|congruence|]. by intros <-.
Qed.

Lemma recency_push c k v :
  wf c →
  omap (λ e, <[fresh_elem c := (k, v)]> (elems c) !! e) (fresh_elem c :: evictList c) =
  (k, v) :: recency c.
Proof.
  intros Hwf. simpl. rewrite lookup_insert_eq. f_equal.
  apply list_omap_ext, Forall2_same_length_lookup. split; [done|].
  intros i e e' Hi Hi'. simplify_eq. apply list_elem_of_lookup_2 in Hi.
  pose proof (wf_fresh c Hwf e Hi). rewrite lookup_insert_ne; [done|lia].
Qed.

Lemma wf_overwrite c e k v v' :
  wf c → items c !! k = Some e → elems c !! e = Some (k, v') →
  wf (mkLRU (size c) (move_to_front e (evictList c)) (alter (λ kv, (kv.1, v)) e (elems c))
            (items c) (onEvict c) (callbacks c) (fresh_elem c)).
Proof.
  intros Hwf Hk He.
  destruct (wf_sound c Hwf k e Hk) as [Hin _].
  destruct (wf_move_to_front c e Hwf Hin) as [Hnd Hfr Hs Hc]. simpl in *.
  split; simpl; [done|done| |].
  - intros k0 e0 Hk0. destruct (Hs k0 e0 Hk0) as [? [v0 Hv0]]. split; [done|].
    rewrite lookup_alter. case_decide; subst; rewrite Hv0; simpl; eauto.
  - intros e0 He0. destruct (Hc e0 He0) as (k0 & v0 & Hv0 & Hk0).
    rewrite lookup_alter. case_decide; subst; rewrite Hv0; simpl; eauto.
Qed.

Lemma omap_alter_not_in (h : gmap positive (K * V)) f e (l : list positive) :
  e ∉ l → omap (λ e', alter f e h !! e') l = omap (λ e', h !! e') l.
Proof.
  intros Hnin. apply list_omap_ext, Forall2_same_length_lookup. split; [done|].
  intros i e1 e2 Hi Hi'. simplify_eq. apply list_elem_of_lookup_2 in Hi.
  rewrite lookup_alter_ne; [done|]. by intros ->.
Qed.

(** [Get] and [Add] against the association list. *)
Lemma Get_refines c k :
  wf c →
  wf (Get k c).2 ∧ ((Get k c).1, recency (Get k c).2) = spec_get k (recency c).
Proof.
  intros Hwf. unfold Get, spec_get. rewrite assoc_find_recency by done. unfold Peek.
  destruct (items c !! k) as [e|] eqn:Hk; [|done].
  destruct (wf_sound c Hwf k e Hk) as [Hin [v Hv]]. rewrite Hv. simpl.
  split; [by apply wf_move_to_front|].
  unfold recency at 1. simpl. rewrite Hv. do 2 f_equal. apply (omap_list_remove c _ e k v); auto using wf_indexed.
Qed.

Lemma Add_refines c k v :
  wf c →
  wf (Add k v c).2 ∧
  ((Add k v c).1, recency (Add k v c).2) = spec_add (size c) k v (recency c).
Proof.
  intros Hwf. unfold Add, spec_add. rewrite assoc_find_recency by done. unfold Peek.
  destruct (items c !! k) as [e|] eqn:Hk.
  - destruct (wf_sound c Hwf k e Hk) as [Hin [v' Hv']]. rewrite Hv'. simpl.
    split; [by eapply wf_overwrite|]. f_equal. unfold recency at 1. simpl.
    rewrite lookup_alter_eq, Hv'. simpl. f_equal.
    etrans; [apply omap_alter_not_in; rewrite elem_of_list_remove; tauto|].
    apply (omap_list_remove c _ e k v'); auto using wf_indexed.
  - pose proof (wf_push c k v Hwf Hk) as Hwf'.
    pose proof (recency_push c k v Hwf) as Hrec.
    unfold len. simpl. rewrite length_recency by done.
    case_bool_decide; [|by rewrite <-Hrec].
    destruct (removeOldest_spec _ Hwf') as [Hwf'' Hrec']. split; [done|]. f_equal.
    rewrite Hrec'. unfold recency at 1 2. simpl evictList. simpl elems.
    rewrite Hrec. simpl pred. by rewrite length_recency.
Qed.
Lemma Remove_refines c k :
  wf c →
  wf (Remove k c).2 ∧
  ((Remove k c).1, recency (Remove k c).2) =
  (bool_decide (is_Some (assoc_find k (recency c))), assoc_remove k (recency c)).
Proof.
  intros Hwf. rewrite assoc_find_recency by done. unfold Remove, Peek.
  destruct (items c !! k) as [e|] eqn:Hk.
  - destruct (wf_sound c Hwf k e Hk) as [Hin [v Hv]].
    destruct (removeElement_spec c e k v Hwf Hk Hv) as [Hwf' Hr]. split; [done|].
    simpl. rewrite Hr, Hv. done.
  - split; [done|]. simpl. f_equal. symmetry. apply assoc_remove_not_in.
    intros ([k' v'] & -> & (e & Hin & He)%list_elem_of_omap)%list_elem_of_fmap.
    destruct (wf_complete c Hwf e Hin) as (k0 & v0 & He0 & Hk0). simpl in *. congruence.
Qed.

Lemma GetOldest_refines c : wf c → GetOldest c = last (recency c).
Proof.
  intros Hwf. unfold GetOldest.
  destruct (last (evictList c)) as [e|] eqn:Hl.
  - by rewrite (last_recency c e).
  - apply last_None in Hl. unfold recency. by rewrite Hl.
Qed.

Lemma RemoveOldest_refines c :
  wf c →
  wf (RemoveOldest c).2 ∧
  ((RemoveOldest c).1, recency (RemoveOldest c).2) =
  (last (recency c), take (pred (length (recency c))) (recency c)).
Proof.
  intros Hwf. pose proof (removeOldest_spec c Hwf) as [Hw Hr].
  rewrite <-GetOldest_refines, <-Hr by done.
  unfold RemoveOldest, removeOldest, GetOldest in *.
  by destruct (last (evictList c)).
Qed.

Lemma Keys_refines c : wf c → Keys c = reverse (recency c).*1.
Proof.
  intros _. unfold Keys, recency.
  induction (evictList c) as [|e l IH]; [done|].
  rewrite reverse_cons, omap_app. simpl.
  destruct (elems c !! e) as [[k v]|]; simpl; rewrite ?app_nil_r, IH; [|done].
  by rewrite reverse_cons.
Qed.

Lemma wf_Purge c : wf (Purge c) ∧ recency (Purge c) = [].
Proof. split; [|done]. split; simpl; [constructor|set_solver|by intros|set_solver]. Qed.

Lemma size_notify k v c : size (notify k v c) = size c.
Proof. unfold notify. by destruct (onEvict c). Qed.

Lemma size_removeElement e c : size (removeElement e c) = size c.
Proof. unfold removeElement. destruct (elems c !! e) as [[]|]; by rewrite ?size_notify. Qed.

Lemma size_Add k v c : size (Add k v c).2 = size c.
Proof.
  unfold Add, removeOldest. destruct (items c !! k); [done|].
  case_bool_decide; [|done]. simpl snd. destruct (last _); [|done].
  by rewrite size_removeElement.
Qed.

Lemma size_Get k c : size (Get k c).2 = size c.
Proof. unfold Get. by destruct (items c !! k). Qed.

(** ** Whole runs: the cache as a state machine *)

Inductive op := OpAdd (k : K) (v : V) | OpGet (k : K) | OpPeek (k : K)
  | OpRemove (k : K) | OpRemoveOldest | OpGetOldest | OpPurge.

Inductive answer := AFlag (b : bool) | AVal (o : option V)
  | AEntry (o : option (K * V)) | ANone.

Definition run_op (o : op) (c : LRU) : answer * LRU :=
  match o with
  | OpAdd k v => let '(b, c') := Add k v c in (AFlag b, c')
  | OpGet k => let '(r, c') := Get k c in (AVal r, c')
  | OpPeek k => (AVal (Peek k c), c)
  | OpRemove k => let '(b, c') := Remove k c in (AFlag b, c')
  | OpRemoveOldest => let '(r, c') := RemoveOldest c in (AEntry r, c')
  | OpGetOldest => (AEntry (GetOldest c), c)
  | OpPurge => (ANone, Purge c)
  end.

(** The reference cache keeps one list and nothing else. *)
Definition spec_op (sz : Z) (o : op) (l : list (K * V)) : answer * list (K * V) :=
  match o with
  | OpAdd k v => let '(b, l') := spec_add sz k v l in (AFlag b, l')
  | OpGet k => let '(r, l') := spec_get k l in (AVal r, l')
  | OpPeek k => (AVal (assoc_find k l), l)
  | OpRemove k => (AFlag (bool_decide (is_Some (assoc_find k l))), assoc_remove k l)
  | OpRemoveOldest => (AEntry (last l), take (pred (length l)) l)
  | OpGetOldest => (AEntry (last l), l)
  | OpPurge => (ANone, [])
  end.

Fixpoint run_ops (os : list op) (c : LRU) : list answer * LRU :=
  match os with
  | [] => ([], c)
  | o :: os' => let '(a, c') := run_op o c in
                let '(as_, c'') := run_ops os' c' in (a :: as_, c'')
  end.

Fixpoint spec_ops (sz : Z) (os : list op) (l : list (K * V)) : list answer * list (K * V) :=
  match os with
  | [] => ([], l)
  | o :: os' => let '(a, l') := spec_op sz o l in
                let '(as_, l'') := spec_ops sz os' l' in (a :: as_, l'')
  end.

Lemma size_run_op o c : size (run_op o c).2 = size c.
Proof.
  destruct o; simpl; try done.
  - pose proof (size_Add k v c). by destruct (Add k v c).
  - pose proof (size_Get k c). by destruct (Get k c).
  - unfold Remove. destruct (items c !! k); [|done]. apply size_removeElement.
  - unfold RemoveOldest. destruct (last _); [|done]. apply size_removeElement.
Qed.

Lemma run_op_refines o c :
  wf c →
  wf (run_op o c).2 ∧
  ((run_op o c).1, recency (run_op o c).2) = spec_op (size c) o (recency c).
Proof.
  intros Hwf. destruct o as [k v|k|k|k| | |]; simpl.
  - destruct (Add_refines c k v Hwf) as [? <-]. by destruct (Add k v c).
  - destruct (Get_refines c k Hwf) as [? <-]. by destruct (Get k c).
  - by rewrite assoc_find_recency.
  - destruct (Remove_refines c k Hwf) as [? He]. destruct (Remove k c). simpl in *.
    split; [done|]. congruence.
  - destruct (RemoveOldest_refines c Hwf) as [? He]. destruct (RemoveOldest c). simpl in *.
    split; [done|]. congruence.
  - by rewrite GetOldest_refines.
  - destruct (wf_Purge c). auto.
Qed.

Lemma run_ops_refines os c :
  wf c →
  wf (run_ops os c).2 ∧
  ((run_ops os c).1, recency (run_ops os c).2) = spec_ops (size c) os (recency c).
Proof.
  revert c. induction os as [|o os IH]; intros c Hwf; simpl; [done|].
  destruct (run_op_refines o c Hwf) as [Hwf' Hr].
  pose proof (size_run_op o c) as Hsz.
  destruct (run_op o c) as [a c'] eqn:Ho. simpl in *. rewrite <-Hr.
  destruct (IH c' Hwf') as [Hwf'' Hr']. rewrite Hsz in Hr'. rewrite <-Hr'.
  by destruct (run_ops os c').
Qed.

(** ** The bound *)

Lemma length_assoc_remove k (l : list (K * V)) v :
  assoc_find k l = Some v → length (assoc_remove k l) < length l.
Proof.
  intros Hf. unfold assoc_remove.
  apply (length_filter_lt _ _ (k, v)); [|naive_solver].
  induction l as [|[k' v'] l IH]; [done|]. simpl in Hf.
  case_decide; simplify_eq; set_solver.
Qed.

Lemma spec_op_bound sz o l :
  (len l ≤ Z.max 0 sz)%Z → (len (spec_op sz o l).2 ≤ Z.max 0 sz)%Z.
Proof.
  intros Hl. unfold len in *. destruct o as [k v|k|k|k| | |]; simpl; try done.
  - unfold spec_add. destruct (assoc_find k l) eqn:Hf; simpl.
    + apply length_assoc_remove in Hf. lia.
    + unfold len. simpl. case_bool_decide; simpl; [|lia].
      rewrite length_firstn. simpl. lia.
  - unfold spec_get. destruct (assoc_find k l) eqn:Hf; simpl; [|done].
    apply length_assoc_remove in Hf. lia.
  - unfold assoc_remove. pose proof (length_filter (λ kv : K * V, kv.1 ≠ k) l). lia.
  - rewrite length_take. lia.
  - lia.
Qed.

Lemma spec_ops_bound sz os l :
  (len l ≤ Z.max 0 sz)%Z → (len (spec_ops sz os l).2 ≤ Z.max 0 sz)%Z.
Proof.
  revert l. induction os as [|o os IH]; intros l Hl; simpl; [done|].
  pose proof (spec_op_bound sz o l Hl). destruct (spec_op sz o l) as [a l']. simpl in *.
  specialize (IH l' H0). by destruct (spec_ops sz os l').
Qed.
(** ** What a client sees: a finite map *)

Definition view (c : LRU) : gmap K V := list_to_map (recency c).

Lemma assoc_find_map k (l : list (K * V)) :
  assoc_find k l = (list_to_map l : gmap K V) !! k.
Proof.
  induction l as [|[k' v] l IH]; simpl; [done|].
  rewrite lookup_insert. by case_decide.
Qed.

Lemma list_to_map_assoc_remove k (l : list (K * V)) :
  list_to_map (assoc_remove k l) = delete k (list_to_map l : gmap K V).
Proof.
  induction l as [|[k' v] l IH]; simpl; [by rewrite delete_empty|].
  unfold assoc_remove in *. rewrite filter_cons. simpl.
  destruct (decide (k' = k)) as [->|Hne].
  - rewrite decide_False by tauto. by rewrite IH, delete_insert_eq.
  - rewrite decide_True by done. simpl. by rewrite IH, delete_insert_ne.
Qed.

Lemma size_view c : wf c → base.size (view c) = length (evictList c).
Proof.
  intros Hwf. unfold view. rewrite <-length_recency by done.
  rewrite <-length_map_to_list. apply Permutation_length, map_to_list_to_map.
  by apply NoDup_recency_keys.
Qed.

Lemma Get_view c k :
  wf c → wf (Get k c).2 ∧ (Get k c).1 = view c !! k ∧ view (Get k c).2 = view c.
Proof.
  intros Hwf. destruct (Get_refines c k Hwf) as [Hwf' Heq]. split; [done|].
  unfold spec_get in Heq. rewrite assoc_find_map in Heq. unfold view.
  destruct (list_to_map (recency c) !! k) as [v|] eqn:Hk; injection Heq as -> ->; [|done].
  split; [done|]. simpl. rewrite list_to_map_assoc_remove, insert_delete_eq.
  by rewrite insert_id.
Qed.

(** Without an eviction [Add] is map insertion. *)
Lemma Add_view c k v :
  wf c → is_Some (view c !! k) ∨ (Z.of_nat (base.size (view c)) < size c)%Z →
  wf (Add k v c).2 ∧ view (Add k v c).2 = <[k := v]> (view c).
Proof.
  intros Hwf Hroom. destruct (Add_refines c k v Hwf) as [Hwf' Heq]. split; [done|].
  unfold spec_add in Heq. rewrite assoc_find_map in Heq.
  rewrite size_view, <-length_recency in Hroom by done. unfold view in *.
  destruct (list_to_map (recency c) !! k) as [v'|] eqn:Hk.
  - injection Heq as _ ->. simpl. by rewrite list_to_map_assoc_remove, insert_delete_eq.
  - destruct Hroom as [[? ?]|Hroom]; [done|].
    rewrite bool_decide_false in Heq by (unfold len; simpl; lia).
    by injection Heq as _ ->.
Qed.

(** In general the result is part of the insertion, and the new binding is in
    it whenever the cache can hold anything at all. *)
Lemma Add_view_subseteq c k v :
  wf c → view (Add k v c).2 ⊆ <[k := v]> (view c).
Proof.
  intros Hwf. destruct (Add_refines c k v Hwf) as [Hwf' Heq].
  pose proof (NoDup_recency_keys _ Hwf') as Hnd'.
  pose proof (NoDup_recency_keys _ Hwf) as Hnd.
  unfold spec_add in Heq. rewrite assoc_find_map in Heq. unfold view in *.
  destruct (list_to_map (recency c) !! k) as [v'|] eqn:Hk.
  - injection Heq as _ ->. simpl. by rewrite list_to_map_assoc_remove, insert_delete_eq.
  - apply not_elem_of_list_to_map_2 in Hk.
    assert (NoDup ((k, v) :: recency c).*1) as Hnd2 by (simpl; by constructor).
    case_bool_decide; injection Heq as _ Heq; rewrite Heq; [|done].
    apply map_subseteq_spec. intros k' v'' Hin.
    apply elem_of_list_to_map_2 in Hin.
    change (<[k := v]> (list_to_map (recency c) : gmap K V)) with
      (list_to_map ((k, v) :: recency c) : gmap K V).
    apply elem_of_list_to_map_1; [done|].
    rewrite <-(take_drop (length (recency c))). set_solver.
Qed.

Lemma view_NewLRU sz cb : view (NewLRU sz cb) = ∅.
Proof. done. Qed.
End Lru.
Arguments LRU : clear implicits.
Arguments LRU K V {_ _}.
(** C11: a cache behaves, answer by answer, as the list of its entries in recency order
    (most recent first): whatever the sequence of calls on a new cache, every
    answer is the one the reference list gives, the hash index and the linked list
    read back to exactly that list, and it never holds more than [size] entries. *)
Theorem lru_refines_recency_list {K V} `{Countable K} (sz : Z) (cb : bool)
    (os : list (@op K V)) :
  let c := run_ops os (NewLRU sz cb) in
  (c.1, recency c.2) = spec_ops sz os [] ∧
  wf c.2 ∧
  Keys c.2 = reverse (recency c.2).*1 ∧
  (Len c.2 ≤ Z.max 0 sz)%Z.
Proof.
  destruct (run_ops_refines os (NewLRU sz cb) (wf_NewLRU sz cb)) as [Hwf Hr].
  simpl in *. split; [done|]. split; [done|]. split; [by apply Keys_refines|].
  unfold Len, len. rewrite <-length_recency by done.
  change (length (recency (run_ops os (NewLRU sz cb)).2))
    with (length ((run_ops os (NewLRU sz cb)).1, recency (run_ops os (NewLRU sz cb)).2).2).
  rewrite Hr. apply spec_ops_bound. unfold len. simpl. lia.
Qed.

(** A run on a cache of size two: the least recently used key is evicted. *)
Lemma lru_run_example :
  (run_ops [OpAdd 1 10; OpAdd 2 20; OpGet 1; OpAdd 3 30; OpPeek 2; OpPeek 1]
     (NewLRU 2 false)).1 =
  [AFlag false; AFlag false; AVal (Some 10); AFlag true; AVal None; AVal (Some 10)].
Proof. by vm_compute. Qed.
End Lru.
