(* ===== verification/RollingIndex.v ===== *)
(** [common/rolling_index.go] and [common/rolling_index_map.go]: the bounded windows
    over the per-participant sequences of events.  A rolling index is read as the
    unbounded log of everything that was ever set in it ([window]); the operations
    are shown to answer as that log does, or [TooLate] for what has rolled out. *)
From S2P Require Import Prelude.

Module RollingIndex.
Section RollingIndex.
Context {T : Type}.

Record RollingIndex := mkRI { size : Z; lastIndex : Z; items : list T }.

(** [make] panics on a negative capacity, so sizes are not negative. *)
Definition NewRollingIndex (sz : Z) : RollingIndex := mkRI sz (-1) [].

Definition GetLastWindow (r : RollingIndex) : list T * Z := (items r, lastIndex r).

Definition Get (skipIndex : Z) (r : RollingIndex) : outcome (list T) :=
  if bool_decide (lastIndex r < skipIndex)%Z then Ret []
  else
    let cachedItems := len (items r) in
    let oldestCachedIndex := (lastIndex r - cachedItems + 1)%Z in
    if bool_decide (skipIndex + 1 < oldestCachedIndex)%Z
    then Fail (StoreErr TooLate (pretty skipIndex))
    else slice_from (items r) (skipIndex - oldestCachedIndex + 1).

Definition GetItem (idx : Z) (r : RollingIndex) : outcome T :=
  let n := len (items r) in
  let oldestCached := (lastIndex r - n + 1)%Z in
  if bool_decide (idx < oldestCached)%Z then Fail (StoreErr TooLate (pretty idx))
  else
    let findex := (idx - oldestCached)%Z in
    if bool_decide (n ≤ findex)%Z then Fail (StoreErr KeyNotFound (pretty idx))
    else index (items r) findex.

Definition Roll : M RollingIndex unit := λ r,
  match slice_from (items r) (size r) with
  | Ret l => (Ret tt, mkRI (size r) (lastIndex r) l)
  | Fail e => (Fail e, r) | Panic w => (Panic w, r) | OutOfFuel => (OutOfFuel, r)
  end.

Definition append (x : T) (idx : Z) : M RollingIndex unit :=
  modify (λ r, mkRI (size r) idx (items r ++ [x])).

Definition Set_ (item : T) (idx : Z) : M RollingIndex unit :=
  r ← get;
  if bool_decide (0 ≤ lastIndex r ∧ lastIndex r + 1 < idx)%Z
  then fail (StoreErr SkippedIndex (pretty idx))
  else if bool_decide (lastIndex r < 0 ∨ idx = lastIndex r + 1)%Z then
    (if bool_decide (2 * size r ≤ len (items r))%Z then Roll else mret tt) ;;
    append item idx
  else
    let cachedItems := len (items r) in
    let oldestCachedIndex := (lastIndex r - cachedItems + 1)%Z in
    if bool_decide (idx < oldestCachedIndex)%Z
    then fail (StoreErr TooLate (pretty idx))
    else
      l ← lift (set_index (items r) (idx - oldestCachedIndex) item);
      modify (λ r, mkRI (size r) (lastIndex r) l).

(** ** The log behind the window *)

Definition oldest (r : RollingIndex) : Z := (lastIndex r - len (items r) + 1)%Z.

(** [m] is everything ever set, by index; the window shows its top end.  Either
    nothing has rolled out yet, or more than [size] items are still served. *)
Record window (r : RollingIndex) (m : gmap Z T) : Prop := {
  win_size : (0 ≤ size r)%Z;
  win_last : (-1 ≤ lastIndex r)%Z;
  win_oldest : (0 ≤ oldest r)%Z;
  win_items : ∀ (i : nat) v, items r !! i = Some v → m !! (oldest r + Z.of_nat i)%Z = Some v;
  win_above : ∀ i, (lastIndex r < i)%Z → m !! i = None;
  win_nonempty : (0 ≤ lastIndex r)%Z → (1 ≤ len (items r))%Z;
  win_bound : (1 ≤ size r → len (items r) ≤ 2 * size r)%Z;
  win_keep : (size r < len (items r))%Z ∨ ∀ i v, m !! i = Some v → (oldest r ≤ i)%Z
}.

Lemma window_new sz : (0 ≤ sz)%Z → window (NewRollingIndex sz) ∅.
Proof.
  intros Hsz. split; unfold oldest, len; simpl; try (intros; lia); try done.
  right. by intros i v ?%lookup_empty_Some.
Qed.

(** Appending the next item, after a roll or not. *)
Lemma window_append r m (x : T) idx l :
  window r m →
  (lastIndex r = -1 ∨ idx = lastIndex r + 1)%Z → (0 ≤ idx)%Z →
  (∃ k, l = drop k (items r) ∧ (k = 0%nat ∨ (Z.of_nat k = size r ∧ 2 * size r ≤ len (items r))%Z)) →
  (1 ≤ size r → len l + 1 ≤ 2 * size r)%Z →
  window (mkRI (size r) idx (l ++ [x])) (<[idx := x]> m).
Proof.
  intros [Hsz Hlast Hold Hit Habove Hne Hb Hk] Hidx Hpos (k & -> & Hroll) Hlen.
  assert (lastIndex r = -1 → items r = [])%Z as Hnil.
  { intros Hm. unfold oldest, len in *. destruct (items r); [done|]. simpl in *. lia. }
  unfold oldest, len in *.
  split; unfold oldest, len in *; simpl in *; rewrite ?length_app, ?length_drop in *; simpl;
    try (intros; lia).
  - intros i v [Hi|[Hi Hv]]%lookup_app_Some.
    + rewrite lookup_drop in Hi. pose proof (lookup_lt_Some _ _ _ Hi) as Hlt.
      destruct Hidx as [Hm| ->]; [by rewrite Hnil in Hi|].
      rewrite lookup_insert_ne by lia. apply Hit in Hi. rewrite <-Hi. f_equal. lia.
    + rewrite length_drop in Hi, Hv. destruct (i - _)%nat eqn:Hz; [|done].
      simpl in Hv. simplify_eq. rewrite lookup_insert. rewrite decide_True; [done|].
      destruct Hidx as [Hm| ->]; [rewrite Hnil in * by done; simpl in *; lia|lia].
  - intros i Hi. rewrite lookup_insert_ne by lia. apply Habove. lia.
  - destruct Hroll as [->|[Hks Hroll]]; [|left; lia].
    destruct Hk as [Hk|Hk]; [left; lia|]. right.
    intros i v [[<- <-]|[Hne' Hiv]]%lookup_insert_Some; [lia|].
    destruct Hidx as [Hm| ->]; [|apply Hk in Hiv; lia].
    rewrite Habove in Hiv; [done|]. destruct (decide (lastIndex r < i)%Z); [done|].
    apply Hk in Hiv. rewrite Hnil in Hiv by done. simpl in *. lia.
Qed.

Lemma window_replace r m (x : T) idx :
  window r m → (oldest r ≤ idx ≤ lastIndex r)%Z →
  window (mkRI (size r) (lastIndex r) (<[Z.to_nat (idx - oldest r) := x]> (items r)))
         (<[idx := x]> m).
Proof.
  intros [Hsz Hlast Hold Hit Habove Hne Hb Hk] Hidx.
  unfold oldest, len in *.
  split; unfold oldest, len in *; simpl in *; rewrite ?length_insert in *;
    try (intros; lia); try done.
  - intros i v Hi. destruct (decide (i = Z.to_nat (idx - (lastIndex r - Z.of_nat (length (items r)) + 1))))
      as [->|Hne'].
    + rewrite list_lookup_insert_eq in Hi by lia. simplify_eq.
      rewrite lookup_insert. rewrite decide_True; [done|]. lia.
    + rewrite list_lookup_insert_ne in Hi by done.
      rewrite lookup_insert_ne by lia. by apply Hit.
  - intros i Hi. rewrite lookup_insert_ne by lia. by apply Habove.
  - destruct Hk as [Hk|Hk]; [by left|right].
    intros i v [[<- <-]|[_ Hiv]]%lookup_insert_Some; [lia|by apply Hk in Hiv].
Qed.

(** What [Set] does on every branch: the answer is decided by the index alone,
    an error leaves the window as it was, and there is no panic. *)
Definition set_answer (r : RollingIndex) (idx : Z) : outcome unit :=
  if bool_decide (0 ≤ lastIndex r ∧ lastIndex r + 1 < idx)%Z
  then Fail (StoreErr SkippedIndex (pretty idx))
  else if bool_decide (0 ≤ lastIndex r ∧ idx < oldest r)%Z
  then Fail (StoreErr TooLate (pretty idx))
  else Ret tt.

Lemma Set_spec r m (x : T) idx :
  window r m → (0 ≤ idx)%Z →
  (Set_ x idx r).1 = set_answer r idx ∧
  match set_answer r idx with
  | Ret _ => window (Set_ x idx r).2 (<[idx := x]> m) ∧
             lastIndex (Set_ x idx r).2 = Z.max idx (lastIndex r) ∧
             size (Set_ x idx r).2 = size r
  | _ => (Set_ x idx r).2 = r
  end.
Proof.
  intros Hw Hpos. pose proof Hw as [Hsz Hlast Hold Hit Habove Hne Hb Hk].
  unfold Set_, set_answer, oldest, len in *.
  unfold mbind, M_bind, get. cbn [fst snd].
  case_bool_decide as Hskip; [done|].
  case_bool_decide as Hnew.
  - rewrite (bool_decide_false (0 ≤ _ ∧ idx < _)%Z) by lia.
    case_bool_decide as Hfull.
    + unfold Roll, slice_from. rewrite decide_True by lia.
      cbn. split; [done|]. split; [|split; [lia|done]].
      apply window_append; [done|lia|done| |unfold len; rewrite length_drop; lia].
      exists (Z.to_nat (size r)). unfold len. split; [done|]. lia.
    + cbn. split; [done|]. split; [|split; [lia|done]].
      apply window_append; [done|lia|done| |unfold len; lia].
      exists 0. by auto.
  - case_bool_decide as Hlate; case_bool_decide as Hlate'; try lia; [done|].
    unfold set_index, lift. rewrite decide_True by lia. cbn.
    split; [done|]. split; [|split; [lia|done]].
    apply (window_replace r m x idx Hw). unfold oldest, len. lia.
Qed.

Lemma window_lookup r m idx :
  window r m → (oldest r ≤ idx ≤ lastIndex r)%Z →
  ∃ v, m !! idx = Some v ∧ items r !! Z.to_nat (idx - oldest r) = Some v.
Proof.
  intros Hw Hidx. pose proof (win_items r m Hw) as Hit.
  destruct (lookup_lt_is_Some_2 (items r) (Z.to_nat (idx - oldest r))) as [v Hv].
  { unfold oldest, len in *. lia. }
  exists v. split; [|done]. apply Hit in Hv. rewrite <-Hv. f_equal. lia.
Qed.

Definition item_answer (r : RollingIndex) (m : gmap Z T) (idx : Z) : outcome T :=
  if bool_decide (idx < oldest r)%Z then Fail (StoreErr TooLate (pretty idx))
  else match m !! idx with
       | Some v => Ret v
       | None => Fail (StoreErr KeyNotFound (pretty idx))
       end.

Lemma GetItem_spec r m idx : window r m → GetItem idx r = item_answer r m idx.
Proof.
  intros Hw. unfold GetItem, item_answer. fold (oldest r).
  case_bool_decide as Hold; [done|].
  case_bool_decide as Hnew.
  - rewrite (win_above r m Hw); [done|]. unfold oldest in *. lia.
  - destruct (window_lookup r m idx Hw) as (v & Hm & Hi); [unfold oldest in *; lia|].
    rewrite Hm. unfold index. rewrite decide_True by lia. by rewrite Hi.
Qed.

(** [Get skip] lists the log from [skip + 1] to the end, in order. *)
Lemma Get_spec r m skip :
  window r m →
  match Get skip r with
  | Ret l => ∀ i, l !! i = m !! (skip + 1 + Z.of_nat i)%Z ∨ (lastIndex r < skip + 1 + Z.of_nat i ∧ l !! i = None)%Z
  | Fail e => e = StoreErr TooLate (pretty skip) ∧ (skip + 1 < oldest r)%Z
  | _ => False
  end.
Proof.
  intros Hw. unfold Get. case_bool_decide as Hlast.
  { intros i. right. split; [lia|done]. }
  fold (oldest r). case_bool_decide as Hold; [done|].
  unfold slice_from. rewrite decide_True by (unfold oldest, len in *; lia).
  intros i. rewrite lookup_drop.
  destruct (decide (skip + 1 + Z.of_nat i ≤ lastIndex r)%Z) as [Hle|Hgt].
  - left. destruct (window_lookup r m (skip + 1 + Z.of_nat i) Hw) as (v & Hm & Hi); [lia|].
    rewrite Hm, <-Hi. f_equal. lia.
  - right. split; [lia|]. apply lookup_ge_None_2. unfold oldest, len in *. lia.
Qed.

(** ** Whole runs *)

Fixpoint run_sets (ops : list (T * Z)) (r : RollingIndex) (m : gmap Z T) : RollingIndex * gmap Z T :=
  match ops with
  | [] => (r, m)
  | (x, idx) :: ops' =>
      match Set_ x idx r with
      | (Ret _, r') => run_sets ops' r' (<[idx := x]> m)
      | (_, r') => run_sets ops' r' m
      end
  end.

Lemma run_sets_window ops r m :
  Forall (λ o, 0 ≤ o.2)%Z ops → window r m →
  window (run_sets ops r m).1 (run_sets ops r m).2 ∧ size (run_sets ops r m).1 = size r.
Proof.
  intros Hops. revert r m. induction Hops as [|[x idx] ops Hidx _ IH]; intros r m Hw; [done|].
  simpl in *. destruct (Set_spec r m x idx Hw Hidx) as [Ha Hr].
  destruct (Set_ x idx r) as [o r'] eqn:He. simpl in *. subst o.
  destruct (set_answer r idx); [|subst; by apply IH..].
  destruct Hr as (Hw' & _ & Hs). rewrite <-Hs. by apply IH.
Qed.
End RollingIndex.
Arguments RollingIndex : clear implicits.
(** C12: whatever was set in a new rolling index (at non-negative indexes), it serves
    the log of everything it accepted: an item is found at the index it was last
    set at, an index beyond the log is [KeyNotFound], one that rolled out is
    [TooLate]; nothing panics, at most [2*size] items are kept, and once an item
    has rolled out more than [size] of them are still served. *)
Theorem rolling_index_serves_log {T} (sz : Z) (ops : list (T * Z)) :
  (0 ≤ sz)%Z → Forall (λ o, 0 ≤ o.2)%Z ops →
  let r := (run_sets ops (NewRollingIndex sz) ∅).1 in
  let m := (run_sets ops (NewRollingIndex sz) ∅).2 in
  (∀ idx, GetItem idx r = item_answer r m idx) ∧
  (∀ x idx, 0 ≤ idx → (Set_ x idx r).1 = set_answer r idx)%Z ∧
  (∀ i v, m !! i = Some v → (i ≤ lastIndex r)%Z) ∧
  (1 ≤ sz → len (items r) ≤ 2 * sz)%Z ∧
  ((∃ i v, m !! i = Some v ∧ (i < oldest r)%Z) → (sz < len (items r))%Z).
Proof.
  intros Hsz Hops. simpl.
  destruct (run_sets_window ops (NewRollingIndex sz) ∅ Hops (window_new sz Hsz)) as [Hw Hs].
  simpl in Hs. repeat split.
  - intros idx. by apply GetItem_spec.
  - intros x idx Hidx. by apply Set_spec with (m := (run_sets ops (NewRollingIndex sz) ∅).2).
  - intros i v Hiv. destruct (decide (i ≤ lastIndex (run_sets ops (NewRollingIndex sz) ∅).1)%Z);
      [done|]. rewrite (win_above _ _ Hw) in Hiv; [done|lia].
  - intros Hge. pose proof (win_bound _ _ Hw). lia.
  - intros (i & v & Hiv & Hlt). destruct (win_keep _ _ Hw) as [|Hk]; [lia|].
    apply Hk in Hiv. lia.
Qed.

(** Two items per half window: the fifth one rolls the first two out. *)
Lemma rolling_index_serves_log_witness :
  GetItem 1 (run_sets [(10, 0%Z); (11, 1%Z); (12, 2%Z); (13, 3%Z); (14, 4%Z)]
               (NewRollingIndex 2) ∅).1 = Fail (StoreErr TooLate "1") ∧
  GetItem 3 (run_sets [(10, 0%Z); (11, 1%Z); (12, 2%Z); (13, 3%Z); (14, 4%Z)]
               (NewRollingIndex 2) ∅).1 = Ret 13.
Proof.
  pose proof (rolling_index_serves_log 2
    [(10, 0%Z); (11, 1%Z); (12, 2%Z); (13, 3%Z); (14, 4%Z)]) as H.
  specialize (H ltac:(lia) ltac:(repeat constructor; simpl; lia)) as [H _].
  split; rewrite H; by vm_compute.
Defined.

(** ** [RollingIndexMap] *)
Section RollingIndexMap.
Context {T : Type}.

Record RollingIndexMap := mkRIM {
  rim_size : Z;
  rim_keys : list Z;
  mapping : gmap Z (RollingIndex T)
}.

Definition fresh_mapping (sz : Z) (ks : list Z) : gmap Z (RollingIndex T) :=
  foldl (λ m k, <[k := NewRollingIndex sz]> m) ∅ ks.

Definition NewRollingIndexMap (sz : Z) (ks : list Z) : RollingIndexMap :=
  mkRIM sz ks (fresh_mapping sz ks).

Definition rim_Get (key skipIndex : Z) (rim : RollingIndexMap) : outcome (list T) :=
  match mapping rim !! key with
  | None => Fail (StoreErr KeyNotFound (pretty key))
  | Some r => Get skipIndex r
  end.

(** A missing key is a nil pointer, which the method call dereferences. *)
Definition rim_GetItem (key idx : Z) (rim : RollingIndexMap) : outcome T :=
  match mapping rim !! key with
  | None => Panic "nil pointer dereference"
  | Some r => GetItem idx r
  end.

(** The answer is an [interface{}]: an item, or the empty string ([None]) when
    nothing is cached. *)
Definition rim_GetLast (key : Z) (rim : RollingIndexMap) : outcome (option T) :=
  match mapping rim !! key with
  | None => Fail (StoreErr KeyNotFound (pretty key))
  | Some r => Ret (last (GetLastWindow r).1)
  end.

Definition rim_Set (key : Z) (item : T) (idx : Z) : M RollingIndexMap unit := λ rim,
  let r := default (NewRollingIndex (rim_size rim)) (mapping rim !! key) in
  let '(o, r') := Set_ item idx r in
  (o, mkRIM (rim_size rim) (rim_keys rim) (<[key := r']> (mapping rim))).

Definition rim_Known (rim : RollingIndexMap) : gmap Z Z :=
  (λ r, (GetLastWindow r).2) <$> mapping rim.

Definition rim_Reset (rim : RollingIndexMap) : RollingIndexMap :=
  mkRIM (rim_size rim) (rim_keys rim) (fresh_mapping (rim_size rim) (rim_keys rim)).

Lemma lookup_fresh_mapping sz ks k :
  fresh_mapping sz ks !! k = if decide (k ∈ ks) then Some (NewRollingIndex sz) else None.
Proof.
  unfold fresh_mapping.
  enough (∀ acc : gmap Z (RollingIndex T),
    foldl (λ m k, <[k := NewRollingIndex sz]> m) acc ks !! k =
    if decide (k ∈ ks) then Some (NewRollingIndex sz) else acc !! k) as ->; [done|].
  induction ks as [|k' ks IH]; intros acc; simpl; [done|].
  rewrite IH, lookup_insert.
  destruct (decide (k ∈ ks)); [by rewrite decide_True by set_solver|].
  destruct (decide (k' = k)) as [->|Hne]; [by rewrite decide_True by set_solver|].
  by rewrite decide_False by set_solver.
Qed.

(** Each key is an independent rolling index; [Known] is its last index. *)
Lemma rim_Set_lookup key item idx rim k :
  mapping (rim_Set key item idx rim).2 !! k =
  if decide (k = key)
  then Some (Set_ item idx (default (NewRollingIndex (rim_size rim)) (mapping rim !! key))).2
  else mapping rim !! k.
Proof.
  unfold rim_Set. destruct (Set_ item idx _) as [o r'] eqn:He. simpl.
  rewrite lookup_insert. destruct (decide (key = k)), (decide (k = key)); congruence.
Qed.
End RollingIndexMap.
Arguments RollingIndexMap : clear implicits.
End RollingIndex.
