(* ===== verification/Bytes.v ===== *)
(** Byte strings, the "0x%X" names of keys and hashes ([fmt.Sprintf], [hex.DecodeString])
    and the text form of signatures ([common/crypto/utils.go]). *)
From S2P Require Import Prelude.
From Stdlib Require Import Ascii String.
Open Scope Z_scope.

(** A Go [byte] is a [Z] in [0, 256). *)
Abbreviation bytes := (list Z).
Definition is_byte (b : Z) : Prop := 0 ≤ b < 256.
Definition is_bytes (l : bytes) : Prop := Forall is_byte l.

(** ** Strings as character lists *)

Fixpoint chars (s : string) : list ascii :=
  match s with
  | EmptyString => []
  | String c s' => c :: chars s'
  end.

Fixpoint of_chars (l : list ascii) : string :=
  match l with
  | [] => EmptyString
  | c :: l' => String c (of_chars l')
  end.

Lemma chars_of_chars l : chars (of_chars l) = l.
Proof. induction l; simpl; congruence. Qed.

Lemma chars_app s1 s2 : chars (s1 +:+ s2) = (chars s1 ++ chars s2)%list.
Proof. induction s1; simpl; [done|]. by f_equal. Qed.

(** [s[n:]] on a string panics when [n] exceeds its length. *)
Definition str_from (s : string) (n : nat) : outcome string :=
  if decide (n ≤ List.length (chars s))%nat then Ret (of_chars (drop n (chars s)))
  else Panic "slice bounds out of range".

(** ** Digits *)

(** The character of a digit below 36; [upper] is the [%X] alphabet. *)
Definition digit_char (upper : bool) (d : Z) : ascii :=
  if d <? 10 then ascii_of_N (Z.to_N (48 + d))
  else ascii_of_N (Z.to_N ((if upper then 65 else 97) + (d - 10))).

(** The value of a character as a digit of base at most 36, either case. *)
Definition char_digit (base : Z) (c : ascii) : option Z :=
  let n := Z.of_N (N_of_ascii c) in
  let d := if bool_decide (48 ≤ n ≤ 57) then n - 48
           else if bool_decide (97 ≤ n ≤ 122) then n - 97 + 10
           else if bool_decide (65 ≤ n ≤ 90) then n - 65 + 10
           else base in
  if d <? base then Some d else None.

(** ** [fmt.Sprintf("0x%X", b)] and [hex.DecodeString] *)

Definition hex_chars (b : bytes) : list ascii :=
  flat_map (λ x, [digit_char true (x / 16); digit_char true (x mod 16)]) b.

Definition hexX (b : bytes) : string := "0x" +:+ of_chars (hex_chars b).

(** The bytes decoded before the first malformed character, with the error. *)
Fixpoint decode_hex (l : list ascii) : bytes * option gerror :=
  match l with
  | [] => ([], None)
  | [a] => ([], Some (match char_digit 16 a with
                      | None => LibErr "encoding/hex: invalid byte"
                      | Some _ => LibErr "encoding/hex: odd length hex string" end))
  | a :: b :: l' =>
      match char_digit 16 a, char_digit 16 b with
      | Some x, Some y => let '(r, e) := decode_hex l' in (x * 16 + y :: r, e)
      | _, _ => ([], Some (LibErr "encoding/hex: invalid byte"))
      end
  end.

Definition DecodeString (s : string) : bytes * option gerror := decode_hex (chars s).

(** ** [big.Int] text in base 36 and [strings.Split] *)

(** The digits of [n], most significant first, by repeated division. *)
Fixpoint digits36 (fuel : nat) (n : Z) (acc : list ascii) : list ascii :=
  match fuel with
  | O => acc
  | S f => let acc' := digit_char false (n mod 36) :: acc in
           if n <? 36 then acc' else digits36 f (n / 36) acc'
  end.

Definition text_fuel (n : Z) : nat := S (Z.to_nat (Z.log2 n)).

Definition Text36 (n : Z) : string :=
  of_chars (if n <? 0 then "-"%char :: digits36 (text_fuel (- n)) (- n) []
            else digits36 (text_fuel n) n []).

Fixpoint parse36 (l : list ascii) (acc : Z) : option Z :=
  match l with
  | [] => Some acc
  | c :: l' => match char_digit 36 c with
               | Some d => parse36 l' (acc * 36 + d)
               | None => None
               end
  end.

(** [new(big.Int).SetString(s, 36)]: an optional sign, then at least one digit. *)
Definition SetString36 (s : string) : option Z :=
  match chars s with
  | [] => None
  | c :: l =>
      if decide (c = "-"%char) then (if decide (l = []) then None else Z.opp <$> parse36 l 0)
      else if decide (c = "+"%char) then (if decide (l = []) then None else parse36 l 0)
      else parse36 (c :: l) 0
  end.

(** [strings.Split(s, "|")] *)
Fixpoint split_chars (sep : ascii) (l : list ascii) : list (list ascii) :=
  match l with
  | [] => [[]]
  | c :: l' =>
      match split_chars sep l' with
      | [] => [[c]]
      | w :: ws => if decide (c = sep) then [] :: w :: ws else (c :: w) :: ws
      end
  end.

Definition Split (s : string) : list string := of_chars <$> split_chars "|" (chars s).

Definition EncodeSignature (r s : Z) : string := Text36 r +:+ "|" +:+ Text36 s.

(** The two numbers may be nil: the parse result is not checked. *)
Definition DecodeSignature (sig : string) : outcome (option Z * option Z) :=
  match Split sig with
  | [a; b] => Ret (SetString36 a, SetString36 b)
  | _ => Fail (Errorf "wrong number of values in signature")
  end.

(** ** Lemmas *)

(** A property of the digits below 36 is checked digit by digit. *)
Lemma digit_cases (n : nat) (P : Z → Prop) `{∀ d, Decision (P d)} d :
  forallb (λ d, bool_decide (P d)) (seqZ 0 (Z.of_nat n)) = true → 0 ≤ d < Z.of_nat n → P d.
Proof.
  rewrite forallb_forall. intros HP Hd. apply (bool_decide_eq_true_1 (P d)), HP.
  apply list_elem_of_In, elem_of_seqZ. lia.
Qed.

Lemma char_digit_36 u d : 0 ≤ d < 36 → char_digit 36 (digit_char u d) = Some d.
Proof.
  apply (digit_cases 36 (λ d, char_digit 36 (digit_char u d) = Some d)).
  by destruct u; vm_compute.
Qed.

Lemma char_digit_16 u d : 0 ≤ d < 16 → char_digit 16 (digit_char u d) = Some d.
Proof.
  apply (digit_cases 16 (λ d, char_digit 16 (digit_char u d) = Some d)).
  by destruct u; vm_compute.
Qed.

Lemma digit_char_plain d :
  0 ≤ d < 36 → digit_char false d ≠ "|"%char ∧ digit_char false d ≠ "-"%char
               ∧ digit_char false d ≠ "+"%char.
Proof.
  apply (digit_cases 36 (λ d, digit_char false d ≠ "|"%char ∧ digit_char false d ≠ "-"%char
                              ∧ digit_char false d ≠ "+"%char)).
  by vm_compute.
Qed.

Lemma decode_hex_chars b : is_bytes b → decode_hex (hex_chars b) = (b, None).
Proof.
  induction 1 as [|x b Hx _ IH]; [done|]. simpl. unfold is_byte in Hx.
  rewrite !char_digit_16 by (Z.to_euclidean_division_equations; lia).
  rewrite IH. f_equal. f_equal. Z.to_euclidean_division_equations; lia.
Qed.

(** Reading back a printed name: [hex.DecodeString(name[2:])]. *)
Lemma decode_hexX b :
  is_bytes b → str_from (hexX b) 2 = Ret (of_chars (hex_chars b)) ∧
               DecodeString (of_chars (hex_chars b)) = (b, None).
Proof.
  intros Hb. unfold str_from, DecodeString. rewrite chars_of_chars.
  split; [|by apply decode_hex_chars].
  assert (chars (hexX b) = "0"%char :: "x"%char :: hex_chars b) as ->.
  { unfold hexX. rewrite chars_app, chars_of_chars. done. }
  by rewrite decide_True by (simpl; lia).
Qed.

Lemma hexX_inj b b' : is_bytes b → is_bytes b' → hexX b = hexX b' → b = b'.
Proof.
  intros Hb Hb' He. pose proof (decode_hexX b Hb) as [Hs Hd].
  pose proof (decode_hexX b' Hb') as [Hs' Hd']. rewrite He in Hs. rewrite Hs in Hs'.
  injection Hs' as Hs'. rewrite <-Hs' in Hd'. congruence.
Qed.

Lemma hexX_ne_empty b : hexX b ≠ EmptyString.
Proof. done. Qed.

Lemma parse36_digits f n acc :
  0 ≤ n < 36 ^ Z.of_nat f → (0 < f)%nat →
  parse36 (digits36 f n acc) 0 = parse36 acc n.
Proof.
  revert n acc. induction f as [|f IH]; intros n acc Hn Hf; [lia|].
  simpl digits36. destruct (Z.ltb_spec n 36).
  - simpl. rewrite char_digit_36 by (rewrite Z.mod_small; lia).
    f_equal. rewrite Z.mod_small; lia.
  - rewrite Nat2Z.inj_succ, Z.pow_succ_r in Hn by lia.
    assert (0 < f)%nat. { destruct f; [|lia]. simpl in Hn. lia. }
    rewrite IH; [|split; [apply Z.div_pos; lia|apply Z.div_lt_upper_bound; lia]|done].
    simpl. rewrite char_digit_36 by (apply Z.mod_pos_bound; lia).
    f_equal. pose proof (Z.div_mod n 36). lia.
Qed.

Lemma text_fuel_enough n : 0 ≤ n → n < 36 ^ Z.of_nat (text_fuel n).
Proof.
  intros Hn. unfold text_fuel. rewrite Nat2Z.inj_succ, Z2Nat.id by apply Z.log2_nonneg.
  destruct (decide (n = 0)) as [->|Hne]; [done|].
  pose proof (Z.log2_spec n ltac:(lia)) as [_ Hlt].
  eapply Z.lt_le_trans; [done|]. apply Z.pow_le_mono_l. lia.
Qed.

(** Every printed character is a digit. *)
Lemma digits36_all f n acc (P : ascii → Prop) :
  0 ≤ n → (∀ d, 0 ≤ d < 36 → P (digit_char false d)) → Forall P acc →
  Forall P (digits36 f n acc).
Proof.
  revert n acc. induction f as [|f IH]; intros n acc Hn HP Hacc; [done|]. simpl.
  assert (P (digit_char false (n mod 36))) by (apply HP, Z.mod_pos_bound; lia).
  destruct (n <? 36); [by constructor|].
  apply IH; [apply Z.div_pos; lia|done|by constructor].
Qed.

Lemma digits36_nonempty f n acc : (0 < f)%nat → digits36 f n acc ≠ [].
Proof.
  assert (∀ f n acc, acc ≠ [] → digits36 f n acc ≠ []) as Haux.
  { clear. induction f as [|f IH]; intros n acc Hacc; [done|]. simpl.
    destruct (n <? 36); [done|]. by apply IH. }
  destruct f; [lia|]. intros _. simpl. destruct (n <? 36); [done|]. by apply Haux.
Qed.

Lemma SetString36_Text36 n : SetString36 (Text36 n) = Some n.
Proof.
  unfold SetString36, Text36. rewrite chars_of_chars.
  assert (∀ n, 0 ≤ n → ∃ c l, digits36 (text_fuel n) n [] = c :: l ∧
            c ≠ "-"%char ∧ c ≠ "+"%char ∧ parse36 (c :: l) 0 = Some n) as Hpos.
  { intros m Hm. pose proof (digits36_nonempty (text_fuel m) m [] ltac:(unfold text_fuel; lia)).
    pose proof (digits36_all (text_fuel m) m [] (λ c, c ≠ "-"%char ∧ c ≠ "+"%char) Hm) as Hall.
    pose proof (parse36_digits (text_fuel m) m []) as Hp.
    destruct (digits36 (text_fuel m) m []) as [|c l]; [done|].
    exists c, l. split; [done|].
    assert (c ≠ "-"%char ∧ c ≠ "+"%char) as [? ?].
    { assert (Forall (λ c, c ≠ "-"%char ∧ c ≠ "+"%char) (c :: l)) as Hf.
      { apply Hall; [|constructor]. intros d Hd. by destruct (digit_char_plain d Hd) as (?&?&?). }
      by inversion Hf. }
    split; [done|]. split; [done|]. apply Hp; [|unfold text_fuel; lia].
    split; [done|]. by apply text_fuel_enough. }
  destruct (Z.ltb_spec n 0).
  - destruct (Hpos (- n)) as (c & l & -> & _ & _ & Hp); [lia|].
    rewrite decide_True, decide_False by done. rewrite Hp. simpl. f_equal. lia.
  - destruct (Hpos n) as (c & l & -> & Hm & Hpl & Hp); [lia|].
    by rewrite !decide_False.
Qed.

Lemma split_chars_plain sep l : sep ∉ l → split_chars sep l = [l].
Proof.
  induction l as [|c l IH]; intros Hn; [done|]. simpl. rewrite IH by set_solver.
  rewrite decide_False; [done|]. set_solver.
Qed.

Lemma split_chars_app sep l1 l2 :
  sep ∉ l1 → sep ∉ l2 → split_chars sep (l1 ++ sep :: l2) = [l1; l2].
Proof.
  intros H1 H2. induction l1 as [|c l1 IH]; simpl.
  - rewrite split_chars_plain by done. by rewrite decide_True.
  - rewrite IH by set_solver. rewrite decide_False; [done|set_solver].
Qed.

Lemma Text36_no_bar n : "|"%char ∉ chars (Text36 n).
Proof.
  unfold Text36. rewrite chars_of_chars.
  assert (∀ m, 0 ≤ m → Forall (λ c, c ≠ "|"%char) (digits36 (text_fuel m) m [])) as Hall.
  { intros m Hm. apply digits36_all; [done| |constructor].
    intros d Hd. by destruct (digit_char_plain d Hd). }
  destruct (Z.ltb_spec n 0) as [Hlt|Hge].
  - pose proof (Hall (- n) ltac:(lia)) as Hf. rewrite Forall_forall in Hf.
    intros [?|Hin]%elem_of_cons; [done|]. by apply Hf in Hin.
  - pose proof (Hall n Hge) as Hf. rewrite Forall_forall in Hf.
    intros Hin. by apply Hf in Hin.
Qed.

Lemma of_chars_chars s : of_chars (chars s) = s.
Proof. induction s; simpl; congruence. Qed.

(** A signature's text form reads back as the two numbers it was made from. *)
Lemma signature_text_roundtrip (r s : Z) :
  DecodeSignature (EncodeSignature r s) = Ret (Some r, Some s).
Proof.
  unfold DecodeSignature, EncodeSignature, Split.
  rewrite !chars_app. simpl chars. rewrite <-app_comm_cons. simpl app.
  rewrite split_chars_app by apply Text36_no_bar. simpl.
  by rewrite !of_chars_chars, !SetString36_Text36.
Qed.
