(* ===== verification/Types.v ===== *)
(** [types/]: comets (the events of the graph), their wire form, round information,
    roots, blocks and block signatures.

    JSON encoding, SHA-256 and ECDSA come from Go's standard library and are the
    parameters of class [Crypto]; what JSON leaves out of an encoding (unexported
    fields) is explicit in the types of the parameters.  The memo fields [creator],
    [hash] and [hex] of [Comet] and [Block] only cache the functions they are named
    after and have no counterpart here. *)
From Stdlib Require Import Ascii.
From S2P Require Import Prelude Bytes.
Open Scope Z_scope.

(** ** Block signatures *)

Record BlockSignature := mkBlockSignature {
  bs_Validator : bytes;
  bs_Index : Z;
  bs_Signature : string
}.

Record WireBlockSignature := mkWireBlockSignature {
  wbs_Index : Z;
  wbs_Signature : string
}.

#[export] Instance BlockSignature_eq_dec : EqDecision BlockSignature.
Proof. solve_decision. Defined.
#[export] Instance WireBlockSignature_eq_dec : EqDecision WireBlockSignature.
Proof. solve_decision. Defined.

Definition ValidatorHex (bs : BlockSignature) : string := hexX (bs_Validator bs).

Definition bs_ToWire (bs : BlockSignature) : WireBlockSignature :=
  mkWireBlockSignature (bs_Index bs) (bs_Signature bs).

(** ** Comets *)

(** The exported fields of [CometBody] are what JSON, and so the hash, sees. *)
Record BodyFields := mkBodyFields {
  Transactions : option (list bytes);
  Parents : list string;
  Creator_bytes : bytes;
  Timestamp : Z;
  Index : Z;
  BlockSignatures : option (list BlockSignature)
}.

Record CometBody := mkCometBody {
  fields : BodyFields;
  selfParentIndex : Z;
  otherParentCreatorID : Z;
  otherParentIndex : Z;
  creatorID : Z
}.

Record EventCoordinates := mkCoord { Hash : string; CIndex : Z }.

Record Comet := mkComet {
  Body : CometBody;
  Signature : string;
  TopologicalIndex : Z;
  RoundReceived : option Z;
  ConsensusTimestamp : Z;
  LastAncestors : list EventCoordinates;
  FirstDescendants : list EventCoordinates
}.

#[export] Instance BodyFields_eq_dec : EqDecision BodyFields.
Proof. solve_decision. Defined.
#[export] Instance CometBody_eq_dec : EqDecision CometBody.
Proof. solve_decision. Defined.
#[export] Instance EventCoordinates_eq_dec : EqDecision EventCoordinates.
Proof. solve_decision. Defined.
#[export] Instance Comet_eq_dec : EqDecision Comet.
Proof. solve_decision. Defined.

(** [types.Comet{}], the value the store returns next to an error. *)
Definition zero_time : Z := 0.
Definition zero_Comet : Comet :=
  mkComet (mkCometBody (mkBodyFields None [] [] zero_time 0 None) 0 0 0 0)
          "" 0 None zero_time [] [].

Definition NewComet (transactions : option (list bytes))
    (blockSignatures : option (list BlockSignature)) (parents : list string)
    (creator : bytes) (index : Z) (now : Z) : Comet :=
  mkComet (mkCometBody (mkBodyFields transactions parents creator now index blockSignatures)
                       0 0 0 0)
          "" 0 None zero_time [] [].

(** ** Blocks *)

Record BlockBody := mkBlockBody {
  bb_Index : Z;
  bb_RoundReceived : Z;
  bb_StateHash : option bytes;
  bb_Transactions : list bytes
}.

Record Block := mkBlock {
  b_Body : BlockBody;
  b_Signatures : gmap string string     (* [validator hex] => signature *)
}.

#[export] Instance BlockBody_eq_dec : EqDecision BlockBody.
Proof. solve_decision. Defined.
#[export] Instance Block_eq_dec : EqDecision Block.
Proof. solve_decision. Defined.

Definition NewBlock (blockIndex roundReceived : Z) (transactions : list bytes) : Block :=
  mkBlock (mkBlockBody blockIndex roundReceived None transactions) ∅.

Definition zero_Block : Block := mkBlock (mkBlockBody 0 0 None []) ∅.

(** ** The standard library's encoders and cryptography *)

Class Crypto : Type := {
  PrivKey : Type;
  FromECDSAPub : PrivKey → bytes;                  (* the key's public half, marshalled *)
  json_body : BodyFields → gerror + bytes;
  json_block_body : BlockBody → gerror + bytes;
  SHA256 : bytes → bytes;
  ecdsa_Sign : PrivKey → bytes → gerror + (Z * Z);
  ecdsa_Verify : bytes → bytes → Z → Z → outcome bool  (* [elliptic.Unmarshal] and [ecdsa.Verify] *)
}.

Section WithCrypto.
Context `{Crypto}.

(** [crypto.Verify(crypto.ToECDSAPub(pub), hash, r, s)]: an empty key is a nil
    pointer, an unparsable number is a nil [*big.Int].  A key that is not empty and no point of
    the curve has nil coordinates, on which [ecdsa.Verify] may panic. *)
Definition verify_sig (pub hash : bytes) (r s : option Z) : outcome bool :=
  match pub, r, s with
  | [], _, _ => Panic "nil pointer dereference"
  | _, Some r, Some s => ecdsa_Verify pub hash r s
  | _, _, _ => Panic "nil pointer dereference"
  end.

Definition body_Hash (b : CometBody) : outcome bytes :=
  match json_body (fields b) with
  | inl e => Fail e
  | inr data => Ret (SHA256 data)
  end.

Definition Creator (c : Comet) : string := hexX (Creator_bytes (fields (Body c))).
Definition SelfParent (c : Comet) : outcome string := index (Parents (fields (Body c))) 0.
Definition OtherParent (c : Comet) : outcome string := index (Parents (fields (Body c))) 1.
Definition comet_Index (c : Comet) : Z := Index (fields (Body c)).
Definition comet_Transactions (c : Comet) : list bytes :=
  of_nilable (Transactions (fields (Body c))).
Definition comet_BlockSignatures (c : Comet) : list BlockSignature :=
  of_nilable (BlockSignatures (fields (Body c))).

(** [Hex] ignores the hashing error and prints no digits then. *)
Definition Hex (c : Comet) : string :=
  match body_Hash (Body c) with
  | Ret h => hexX h
  | _ => hexX []
  end.

Definition IsLoaded (c : Comet) : bool :=
  if bool_decide (comet_Index c = 0) then true
  else
    let hasTransactions := bool_decide (0 < len (comet_Transactions c)) in
    let hasBlockSignatures := bool_decide (0 < len (comet_BlockSignatures c)) in
    hasTransactions || hasBlockSignatures.

Definition set_Signature (sig : string) (c : Comet) : Comet :=
  mkComet (Body c) sig (TopologicalIndex c) (RoundReceived c) (ConsensusTimestamp c)
          (LastAncestors c) (FirstDescendants c).

Definition Sign (k : PrivKey) (c : Comet) : outcome Comet :=
  match body_Hash (Body c) with
  | Ret h => match ecdsa_Sign k h with
             | inl e => Fail e
             | inr (r, s) => Ret (set_Signature (EncodeSignature r s) c)
             end
  | Fail e => Fail e | Panic w => Panic w | OutOfFuel => OutOfFuel
  end.

Definition Verify (c : Comet) : outcome bool :=
  match body_Hash (Body c) with
  | Ret h => match DecodeSignature (Signature c) with
             | Ret (r, s) => verify_sig (Creator_bytes (fields (Body c))) h r s
             | Fail e => Fail e | Panic w => Panic w | OutOfFuel => OutOfFuel
             end
  | Fail e => Fail e | Panic w => Panic w | OutOfFuel => OutOfFuel
  end.

Definition SetRoundReceived (rr : Z) (c : Comet) : Comet :=
  mkComet (Body c) (Signature c) (TopologicalIndex c) (Some rr) (ConsensusTimestamp c)
          (LastAncestors c) (FirstDescendants c).

Definition set_ConsensusTimestamp (t : Z) (c : Comet) : Comet :=
  mkComet (Body c) (Signature c) (TopologicalIndex c) (RoundReceived c) t
          (LastAncestors c) (FirstDescendants c).

Definition set_TopologicalIndex (i : Z) (c : Comet) : Comet :=
  mkComet (Body c) (Signature c) i (RoundReceived c) (ConsensusTimestamp c)
          (LastAncestors c) (FirstDescendants c).

Definition set_coordinates (la fd : list EventCoordinates) (c : Comet) : Comet :=
  mkComet (Body c) (Signature c) (TopologicalIndex c) (RoundReceived c)
          (ConsensusTimestamp c) la fd.

Definition comet_SetWireInfo (spi opc opi cid : Z) (c : Comet) : Comet :=
  mkComet (mkCometBody (fields (Body c)) spi opc opi cid) (Signature c)
          (TopologicalIndex c) (RoundReceived c) (ConsensusTimestamp c)
          (LastAncestors c) (FirstDescendants c).

(** ** The wire form: parents as (creator, index) pairs *)

Record WireBody := mkWireBody {
  w_Transactions : option (list bytes);
  w_BlockSignatures : option (list WireBlockSignature);
  w_SelfParentIndex : Z;
  w_OtherParentCreatorID : Z;
  w_OtherParentIndex : Z;
  w_CreatorID : Z;
  w_Timestamp : Z;
  w_Index : Z
}.

Record WireEvent := mkWireEvent { w_Body : WireBody; w_Signature : string }.

Definition WireBlockSignatures (c : Comet) : option (list WireBlockSignature) :=
  option_map (map bs_ToWire) (BlockSignatures (fields (Body c))).

Definition ToWire (c : Comet) : WireEvent :=
  let b := Body c in
  mkWireEvent
    (mkWireBody (Transactions (fields b)) (WireBlockSignatures c)
       (selfParentIndex b) (otherParentCreatorID b) (otherParentIndex b) (creatorID b)
       (Timestamp (fields b)) (Index (fields b)))
    (Signature c).

Definition we_BlockSignatures (validator : bytes) (we : WireEvent) : option (list BlockSignature) :=
  option_map (map (λ bs, mkBlockSignature validator (wbs_Index bs) (wbs_Signature bs)))
    (w_BlockSignatures (w_Body we)).

(** ** Blocks: signing and verifying *)

Definition GetSignature (validator : string) (b : Block) : outcome BlockSignature :=
  match b_Signatures b !! validator with
  | None => Fail (Errorf "signature not found")
  | Some sig =>
      match str_from validator 2 with
      | Ret h => Ret (mkBlockSignature (DecodeString h).1 (bb_Index (b_Body b)) sig)
      | Fail e => Fail e | Panic w => Panic w | OutOfFuel => OutOfFuel
      end
  end.

Definition AppendTransactions (txs : list bytes) (b : Block) : Block :=
  let bb := b_Body b in
  mkBlock (mkBlockBody (bb_Index bb) (bb_RoundReceived bb) (bb_StateHash bb)
             (bb_Transactions bb ++ txs))
          (b_Signatures b).

Definition block_body_Hash (bb : BlockBody) : outcome bytes :=
  match json_block_body bb with
  | inl e => Fail e
  | inr data => Ret (SHA256 data)
  end.

Definition block_Sign (k : PrivKey) (b : Block) : outcome BlockSignature :=
  match block_body_Hash (b_Body b) with
  | Ret h => match ecdsa_Sign k h with
             | inl e => Fail e
             | inr (r, s) => Ret (mkBlockSignature (FromECDSAPub k) (bb_Index (b_Body b))
                                                   (EncodeSignature r s))
             end
  | Fail e => Fail e | Panic w => Panic w | OutOfFuel => OutOfFuel
  end.

Definition SetSignature (bs : BlockSignature) (b : Block) : Block :=
  mkBlock (b_Body b) (<[ValidatorHex bs := bs_Signature bs]> (b_Signatures b)).

Definition block_Verify (sig : BlockSignature) (b : Block) : outcome bool :=
  match block_body_Hash (b_Body b) with
  | Ret h => match DecodeSignature (bs_Signature sig) with
             | Ret (r, s) => verify_sig (bs_Validator sig) h r s
             | Fail e => Fail e | Panic w => Panic w | OutOfFuel => OutOfFuel
             end
  | Fail e => Fail e | Panic w => Panic w | OutOfFuel => OutOfFuel
  end.
End WithCrypto.

(** ** Orders of [sort.Sort] *)

Definition ByTimestamp_Less (a b : Comet) : bool :=
  Timestamp (fields (Body a)) <? Timestamp (fields (Body b)).

Definition ByTopologicalOrder_Less (a b : Comet) : bool :=
  TopologicalIndex a <? TopologicalIndex b.

(** ** Roots and frames *)

Record Root := mkRoot {
  X : string;
  Y : string;
  root_Index : Z;
  Round : Z;
  Others : option (gmap string string)
}.

#[export] Instance Root_eq_dec : EqDecision Root.
Proof. solve_decision. Defined.

(** A missing [Others] is a nil map: reads find nothing in it, a write panics. *)
Definition NewBaseRoot : Root := mkRoot "" "" (-1) (-1) None.
Definition zero_Root : Root := mkRoot "" "" 0 0 None.
Definition other_of (root : Root) (x : string) : option string :=
  default ∅ (Others root) !! x.

Record Frame := mkFrame { f_Roots : gmap string Root; f_Comets : list Comet }.

(** ** Rounds *)

Inductive Trilean := Undefined | True_ | False_.

#[export] Instance Trilean_eq_dec : EqDecision Trilean.
Proof. solve_decision. Defined.

Record RoundEvent := mkRoundEvent { re_Witness : bool; re_Famous : Trilean }.

#[export] Instance RoundEvent_eq_dec : EqDecision RoundEvent.
Proof. solve_decision. Defined.

Record RoundInfo := mkRoundInfo { Events : gmap string RoundEvent; Queued : bool }.

Definition NewRoundInfo : RoundInfo := mkRoundInfo ∅ false.

Definition AddEvent (x : string) (witness : bool) (r : RoundInfo) : RoundInfo :=
  match Events r !! x with
  | Some _ => r
  | None => mkRoundInfo (<[x := mkRoundEvent witness Undefined]> (Events r)) (Queued r)
  end.

Definition SetFame (x : string) (f : bool) (r : RoundInfo) : RoundInfo :=
  let e := default (mkRoundEvent true Undefined) (Events r !! x) in
  mkRoundInfo (<[x := mkRoundEvent (re_Witness e) (if f then True_ else False_)]> (Events r))
              (Queued r).

Definition set_Queued (q : bool) (r : RoundInfo) : RoundInfo := mkRoundInfo (Events r) q.

Definition IsDecided (witness : string) (r : RoundInfo) : bool :=
  match Events r !! witness with
  | Some w => re_Witness w && bool_decide (re_Famous w ≠ Undefined)
  | None => false
  end.

Section Ranges.
Context `{RangeOrder}.

Definition WitnessesDecided (r : RoundInfo) : bool :=
  forallb (λ '(_, e), negb (re_Witness e && bool_decide (re_Famous e = Undefined)))
          (range (Events r)).

Definition Witnesses (r : RoundInfo) : list string :=
  (filter (λ '(_, e), re_Witness e = true) (range (Events r))).*1.

Definition FamousWitnesses (r : RoundInfo) : list string :=
  (filter (λ '(_, e), re_Witness e = true ∧ re_Famous e = True_) (range (Events r))).*1.

(** [new(big.Int).SetString(x, 16)]; the [Xor] with a nil result panics. *)
Fixpoint parse16 (l : list Ascii.ascii) (acc : Z) : option Z :=
  match l with
  | [] => Some acc
  | c :: l' => match char_digit 16 c with
               | Some d => parse16 l' (acc * 16 + d)
               | None => None
               end
  end.

Definition SetString16 (s : string) : option Z :=
  match chars s with
  | [] => None
  | c :: l =>
      if decide (c = "-"%char) then (if decide (l = []) then None else Z.opp <$> parse16 l 0)
      else if decide (c = "+"%char) then (if decide (l = []) then None else parse16 l 0)
      else parse16 (c :: l) 0
  end.

Fixpoint xor_all (xs : list string) (acc : Z) : outcome Z :=
  match xs with
  | [] => Ret acc
  | x :: xs' => match SetString16 x with
                | Some s => xor_all xs' (Z.lxor acc s)
                | None => Panic "nil pointer dereference"
                end
  end.

Definition PseudoRandomNumber (r : RoundInfo) : outcome Z := xor_all (FamousWitnesses r) 0.
End Ranges.

(** ** Lemmas *)

Section RangeLemmas.
Context `{RangeOrder}.

Lemma elem_of_fst_filter_range {V} (P : string * V → Prop) `{∀ x, Decision (P x)}
    (m : gmap string V) x :
  x ∈ (filter P (range m)).*1 ↔ ∃ v, m !! x = Some v ∧ P (x, v).
Proof.
  rewrite list_elem_of_fmap. split.
  - intros ([k v] & -> & [HP Hin]%list_elem_of_filter). apply elem_of_range in Hin. eauto.
  - intros (v & Hv & HP). exists (x, v). split; [done|].
    apply list_elem_of_filter. split; [done|]. by apply elem_of_range.
Qed.

Lemma elem_of_Witnesses r x :
  x ∈ Witnesses r ↔ ∃ e, Events r !! x = Some e ∧ re_Witness e = true.
Proof. apply elem_of_fst_filter_range. Qed.

Lemma elem_of_FamousWitnesses r x :
  x ∈ FamousWitnesses r ↔
  ∃ e, Events r !! x = Some e ∧ re_Witness e = true ∧ re_Famous e = True_.
Proof. apply elem_of_fst_filter_range. Qed.

Lemma NoDup_fst_filter {K V} (P : K * V → Prop) `{∀ x, Decision (P x)} (l : list (K * V)) :
  NoDup l.*1 → NoDup (filter P l).*1.
Proof.
  induction l as [|kv l IH]; [done|]. simpl. intros [Hn Hnd]%NoDup_cons.
  rewrite filter_cons. case_decide; [|auto]. simpl. constructor; [|auto].
  intros (kv' & Heq & [_ Hin]%list_elem_of_filter)%list_elem_of_fmap.
  apply Hn, list_elem_of_fmap. eauto.
Qed.

Lemma NoDup_Witnesses r : NoDup (Witnesses r).
Proof. apply NoDup_fst_filter, NoDup_fst_range. Qed.

Lemma NoDup_FamousWitnesses r : NoDup (FamousWitnesses r).
Proof. apply NoDup_fst_filter, NoDup_fst_range. Qed.

Lemma WitnessesDecided_spec r :
  WitnessesDecided r = true ↔ ∀ x, x ∈ Witnesses r → IsDecided x r = true.
Proof.
  unfold WitnessesDecided. rewrite forallb_forall. split.
  - intros Hall x (e & He & Hw)%elem_of_Witnesses. unfold IsDecided. rewrite He, Hw. simpl.
    specialize (Hall (x, e)). simpl in Hall. rewrite Hw in Hall.
    rewrite <-list_elem_of_In, elem_of_range in Hall. specialize (Hall He).
    apply negb_true_iff in Hall. by case_bool_decide; case_bool_decide.
  - intros Hall [x e] Hin%list_elem_of_In. apply elem_of_range in Hin.
    apply negb_true_iff, andb_false_iff.
    destruct (re_Witness e) eqn:Hw; [right|by left].
    assert (IsDecided x r = true) as Hd by (apply Hall, elem_of_Witnesses; eauto).
    unfold IsDecided in Hd. rewrite Hin, Hw in Hd. simpl in Hd.
    by case_bool_decide; case_bool_decide.
Qed.

(** Deciding a known witness leaves the set of witnesses alone. *)
Lemma Witnesses_SetFame x f r y :
  x ∈ Witnesses r → y ∈ Witnesses (SetFame x f r) ↔ y ∈ Witnesses r.
Proof.
  intros (e & He & Hw)%elem_of_Witnesses. rewrite !elem_of_Witnesses. unfold SetFame.
  rewrite He. simpl. setoid_rewrite lookup_insert.
  destruct (decide (x = y)) as [<-|Hne]; [|done]. naive_solver.
Qed.

Lemma IsDecided_SetFame x f r y :
  x ∈ Witnesses r →
  IsDecided y (SetFame x f r) = bool_decide (x = y) || IsDecided y r.
Proof.
  intros (e & He & Hw)%elem_of_Witnesses. unfold IsDecided, SetFame. rewrite He. simpl.
  rewrite lookup_insert. case_bool_decide; subst; simpl.
  - rewrite decide_True by done. rewrite Hw. simpl. by destruct f.
  - by rewrite decide_False.
Qed.
End RangeLemmas.

(** A round with a famous witness (witnesses are named "0x" and hex digits) has no
    pseudo-random number: [SetString] refuses the prefix in base 16 and the nil
    result is dereferenced, whatever the map order and the other witnesses. *)
Lemma PseudoRandomNumber_panics `{RangeOrder} (r : RoundInfo) :
  (∀ x e, Events r !! x = Some e → ∃ h, x = hexX h) →
  FamousWitnesses r ≠ [] →
  PseudoRandomNumber r = Panic "nil pointer dereference".
Proof.
  intros Hnames Hne. unfold PseudoRandomNumber.
  destruct (FamousWitnesses r) as [|x l] eqn:Hl; [done|].
  assert (x ∈ FamousWitnesses r) as (e & He & _)%elem_of_FamousWitnesses
    by (rewrite Hl; set_solver).
  destruct (Hnames x e He) as [h ->]. done.
Qed.
