(* ===== verification/Caches.v ===== *)
(** [storage/caches.go]: the per-participant windows of event hashes and of block
    signatures, and the small records used as cache keys and values. *)
From S2P Require Import Prelude RollingIndex Bytes Types.
Import RollingIndex.
Open Scope Z_scope.

Record Key := mkKey { key_x : string; key_y : string }.

#[export] Instance Key_eq_dec : EqDecision Key.
Proof. solve_decision. Defined.
#[export] Program Instance Key_countable : Countable Key :=
  inj_countable' (λ k, (key_x k, key_y k)) (λ p, mkKey p.1 p.2) _.
Next Obligation. by intros []. Qed.

Definition NewKey (x y : string) : Key := mkKey x y.
Definition Key_ToString (k : Key) : string :=
  "{" +:+ key_x k +:+ ", " +:+ key_y k +:+ "}".

Record ParentRoundInfo := mkPRI { pri_Round : Z; pri_IsRoot : bool }.
Definition NewBaseParentRoundInfo : ParentRoundInfo := mkPRI (-1) false.

#[export] Instance ParentRoundInfo_eq_dec : EqDecision ParentRoundInfo.
Proof. solve_decision. Defined.

(** [errors.Is] *)
Definition Is (e : gerror) (t : StoreErrType) : bool :=
  match e with
  | StoreErr t' _ => bool_decide (t' = t)
  | _ => false
  end.

Section Caches.
Context `{RangeOrder}.

Definition getValues (m : gmap string Z) : list Z := (range m).*2.

(** Running a pure outcome on. *)
Definition obind {A B} (o : outcome A) (f : A → outcome B) : outcome B :=
  match o with
  | Ret a => f a
  | Fail e => Fail e
  | Panic w => Panic w
  | OutOfFuel => OutOfFuel
  end.

(** *** [ParticipantEventsCache] *)

Record ParticipantEventsCache := mkPEC {
  pec_participants : gmap string Z;
  pec_rim : RollingIndexMap string
}.

Definition NewParticipantEventsCache (size : Z) (participants : gmap string Z) : ParticipantEventsCache :=
  mkPEC participants (NewRollingIndexMap size (getValues participants)).

Definition participantID (participants : gmap string Z) (p : string) : outcome Z :=
  match participants !! p with
  | Some id => Ret id
  | None => Fail (StoreErr UnknownParticipant p)
  end.

Definition pec_Get (p : string) (skipIndex : Z) (c : ParticipantEventsCache) : outcome (list string) :=
  obind (participantID (pec_participants c) p) (λ id, rim_Get id skipIndex (pec_rim c)).

Definition pec_GetItem (p : string) (idx : Z) (c : ParticipantEventsCache) : outcome string :=
  obind (participantID (pec_participants c) p) (λ id, rim_GetItem id idx (pec_rim c)).

(** The empty string of an empty window passes the [.(string)] assertion. *)
Definition pec_GetLast (p : string) (c : ParticipantEventsCache) : outcome string :=
  obind (participantID (pec_participants c) p) (λ id,
  obind (rim_GetLast id (pec_rim c)) (λ last, Ret (default "" last))).

Definition pec_Set (p hash : string) (idx : Z) : M ParticipantEventsCache unit := λ c,
  match participantID (pec_participants c) p with
  | Ret id => let '(o, rim') := rim_Set id hash idx (pec_rim c) in
              (o, mkPEC (pec_participants c) rim')
  | Fail e => (Fail e, c) | Panic w => (Panic w, c) | OutOfFuel => (OutOfFuel, c)
  end.

Definition pec_Known (c : ParticipantEventsCache) : gmap Z Z := rim_Known (pec_rim c).

Definition pec_Reset (c : ParticipantEventsCache) : ParticipantEventsCache :=
  mkPEC (pec_participants c) (rim_Reset (pec_rim c)).

(** *** [ParticipantBlockSignaturesCache] *)

Record ParticipantBlockSignaturesCache := mkPSC {
  psc_participants : gmap string Z;
  psc_rim : RollingIndexMap BlockSignature
}.

Definition NewParticipantBlockSignaturesCache (size : Z) (participants : gmap string Z) :=
  mkPSC participants (NewRollingIndexMap size (getValues participants)).

Definition psc_Get (p : string) (skipIndex : Z) (c : ParticipantBlockSignaturesCache) : outcome (list BlockSignature) :=
  obind (participantID (psc_participants c) p) (λ id, rim_Get id skipIndex (psc_rim c)).

Definition psc_GetItem (p : string) (idx : Z) (c : ParticipantBlockSignaturesCache) : outcome BlockSignature :=
  obind (participantID (psc_participants c) p) (λ id, rim_GetItem id idx (psc_rim c)).

(** An unknown participant reads the map's zero value 0, and the empty string of
    an empty window fails the type assertion. *)
Definition psc_GetLast (p : string) (c : ParticipantBlockSignaturesCache) : outcome BlockSignature :=
  obind (rim_GetLast (default 0 (psc_participants c !! p)) (psc_rim c)) (λ last,
    match last with
    | Some bs => Ret bs
    | None => Panic "interface conversion"
    end).

Definition psc_Set (p : string) (sig : BlockSignature) : M ParticipantBlockSignaturesCache unit := λ c,
  match participantID (psc_participants c) p with
  | Ret id => let '(o, rim') := rim_Set id sig (bs_Index sig) (psc_rim c) in
              (o, mkPSC (psc_participants c) rim')
  | Fail e => (Fail e, c) | Panic w => (Panic w, c) | OutOfFuel => (OutOfFuel, c)
  end.

Definition psc_Known (c : ParticipantBlockSignaturesCache) : gmap Z Z := rim_Known (psc_rim c).

Definition psc_Reset (c : ParticipantBlockSignaturesCache) : ParticipantBlockSignaturesCache :=
  mkPSC (psc_participants c) (rim_Reset (psc_rim c)).
End Caches.
