(* ===== verification/Store.v ===== *)
(** [storage/store.go] and [storage/memory_store.go]: the [Store] interface the comet graph
    is written against, and its in-memory implementation over LRU caches.

    The interface is a class of operations, [Store]; what a client may rely on is a
    second class, [StoreLaws], stated on what the store holds, for stores that do
    not lose what they were given.  The in-memory store satisfies the laws as long as its caches
    are not full, which is what the [fits] of its instance says. *)
From S2P Require Import Prelude Lru RollingIndex Bytes Types Caches.
Import RollingIndex.
Open Scope Z_scope.

Class Store (S : Type) : Type := {
  st_CacheSize : S → Z;
  st_Participants : S → gmap string Z;
  st_GetComet : string → M S Comet;
  st_SetComet : Comet → M S unit;
  st_ParticipantEvents : string → Z → M S (list string);
  st_ParticipantEvent : string → Z → M S string;
  st_LastEventFrom : string → M S (string * bool);
  st_KnownEvents : M S (gmap Z Z);
  st_ConsensusEvents : S → list string;
  st_ConsensusEventsCount : S → Z;
  st_AddConsensusEvent : string → M S unit;
  st_GetRound : Z → M S RoundInfo;
  st_SetRound : Z → RoundInfo → M S unit;
  st_LastRound : S → Z;
  st_RoundWitnesses : Z → M S (list string);
  st_RoundEvents : Z → M S Z;
  st_GetRoot : string → M S Root;
  st_GetBlock : Z → M S Block;
  st_SetBlock : Block → M S unit;
  st_Reset : gmap string Root → M S unit
}.

(** ** What a store promises

    [content] is what a store holds; the hash of the last event of each participant
    is "" while there is none, and [next] is the index its next event has. *)
Record content := mkContent {
  comets : gmap string Comet;
  rounds : gmap Z RoundInfo;
  blocks : gmap Z Block;
  store_roots : gmap string Root;
  last_of : gmap string string;
  next_of : gmap string Z;
  log_of : string → Z → option string;     (* participant, index => hash, while served *)
  last_round : Z;
  capacity : Z;                            (* the cache size the store was made with *)
  members : gmap string Z                  (* the participants it was made for *)
}.

Definition set_comets (m : gmap string Comet) (v : content) : content :=
  mkContent m (rounds v) (blocks v) (store_roots v) (last_of v) (next_of v) (log_of v)
    (last_round v) (capacity v) (members v).
Definition set_rounds (m : gmap Z RoundInfo) (lr : Z) (v : content) : content :=
  mkContent (comets v) m (blocks v) (store_roots v) (last_of v) (next_of v) (log_of v) lr
    (capacity v) (members v).
Definition set_blocks (m : gmap Z Block) (v : content) : content :=
  mkContent (comets v) (rounds v) m (store_roots v) (last_of v) (next_of v) (log_of v)
    (last_round v) (capacity v) (members v).

(** The answer of a lookup: what is there, or [KeyNotFound]. *)
Definition answers {A} (o : outcome A) (r : option A) : Prop :=
  match r with
  | Some a => o = Ret a
  | None => ∃ key, o = Fail (StoreErr KeyNotFound key)
  end.

Definition last_event_answer (v : content) (p : string) : outcome (string * bool) :=
  match last_of v !! p with
  | None => Fail (StoreErr UnknownParticipant p)
  | Some h => if bool_decide (h = "") then
                match store_roots v !! p with
                | Some root => Ret (X root, true)
                | None => Fail (StoreErr NoRoot p)
                end
              else Ret (h, false)
  end.

(** The log after the comet [c]. *)
Definition log_with `{Crypto} (c : Comet) (v : content) (p : string) (i : Z) : option string :=
  if decide (p = Creator c ∧ i = comet_Index c) then Some (Hex c) else log_of v p i.

(** The laws of a store that loses nothing: [store_ok] is its own invariant and
    [room_comet], [room_round], [room_block] say that one more entry fits. *)
Class StoreLaws (S : Type) `{RangeOrder, Crypto, Store S} : Type := {
  view : S → content;
  store_ok : S → Prop;
  room_comet : content → Prop;
  room_round : content → Z → Prop;
  room_block : content → Z → Prop;

  law_GetComet k s : store_ok s →
    wp (st_GetComet k) s (λ o s', answers o (comets (view s) !! k) ∧
                                  store_ok s' ∧ view s' = view s);
  law_SetComet_old c s : store_ok s → is_Some (comets (view s) !! Hex c) →
    wp (st_SetComet c) s (λ o s', o = Ret tt ∧ store_ok s' ∧
       view s' = set_comets (<[Hex c := c]> (comets (view s))) (view s));
  law_SetComet_new c s : store_ok s → room_comet (view s) → comets (view s) !! Hex c = None →
    next_of (view s) !! Creator c = Some (comet_Index c) →
    wp (st_SetComet c) s (λ o s', o = Ret tt ∧ store_ok s' ∧
       comets (view s') = <[Hex c := c]> (comets (view s)) ∧
       last_of (view s') = <[Creator c := Hex c]> (last_of (view s)) ∧
       next_of (view s') = <[Creator c := comet_Index c + 1]> (next_of (view s)) ∧
       (∀ p i, log_of (view s') p i = log_with c (view s) p i) ∧
       rounds (view s') = rounds (view s) ∧ blocks (view s') = blocks (view s) ∧
       store_roots (view s') = store_roots (view s) ∧
       last_round (view s') = last_round (view s) ∧ capacity (view s') = capacity (view s) ∧
       members (view s') = members (view s));
  (** comets fit up to the cache size *)
  law_room v : Z.of_nat (base.size (comets v)) < capacity v → room_comet v;
  law_room_block v i : Z.of_nat (base.size (blocks v)) < capacity v → room_block v i;
  law_LastEventFrom p s : store_ok s →
    wp (st_LastEventFrom p) s (λ o s', o = last_event_answer (view s) p ∧
                                       store_ok s' ∧ view s' = view s);
  law_ParticipantEvent p i h s : store_ok s → log_of (view s) p i = Some h →
    wp (st_ParticipantEvent p i) s (λ o s', o = Ret h ∧ store_ok s' ∧ view s' = view s);
  (** the events after [skip], when all of them are still served *)
  law_ParticipantEvents p skip n s : store_ok s → next_of (view s) !! p = Some n → -1 ≤ skip →
    (∀ i, skip < i < n → is_Some (log_of (view s) p i)) →
    wp (st_ParticipantEvents p skip) s (λ o s', (∃ l, o = Ret l ∧ ∀ i : nat, l !! i = log_of (view s) p (skip + 1 + Z.of_nat i)) ∧
                                                store_ok s' ∧ view s' = view s);
  law_KnownEvents s : store_ok s →
    wp st_KnownEvents s (λ o s', (∃ K, o = Ret K ∧
      (∀ p id n, members (view s) !! p = Some id → next_of (view s) !! p = Some n → K !! id = Some (n - 1)) ∧
      (∀ id k, K !! id = Some k → ∃ p, members (view s) !! p = Some id)) ∧ store_ok s' ∧ view s' = view s);
  law_GetRoot p s : store_ok s →
    wp (st_GetRoot p) s (λ o s', answers o (store_roots (view s) !! p) ∧
                                 store_ok s' ∧ view s' = view s);
  law_GetRound r s : store_ok s →
    wp (st_GetRound r) s (λ o s', answers o (rounds (view s) !! r) ∧
                                  store_ok s' ∧ view s' = view s);
  law_SetRound r ri s : store_ok s → is_Some (rounds (view s) !! r) ∨ room_round (view s) r →
    wp (st_SetRound r ri) s (λ o s', o = Ret tt ∧ store_ok s' ∧
       view s' = set_rounds (<[r := ri]> (rounds (view s))) (Z.max r (last_round (view s))) (view s));
  law_RoundWitnesses r s : store_ok s →
    wp (st_RoundWitnesses r) s (λ o s',
       o = Ret (from_option Witnesses [] (rounds (view s) !! r)) ∧ store_ok s' ∧ view s' = view s);
  law_RoundEvents r s : store_ok s →
    wp (st_RoundEvents r) s (λ o s',
       (∃ n, o = Ret n) ∧ store_ok s' ∧ view s' = view s);
  law_LastRound s : store_ok s → st_LastRound s = last_round (view s);
  (** rounds fit where comets do *)
  law_rounds_fit s r : store_ok s → (base.size (rounds (view s)) < base.size (comets (view s)))%nat →
    room_round (view s) r;
  law_AddConsensusEvent k s : store_ok s →
    wp (st_AddConsensusEvent k) s (λ o s', o = Ret tt ∧ store_ok s' ∧ view s' = view s ∧
       st_ConsensusEventsCount s' = st_ConsensusEventsCount s + 1);
  law_GetBlock i s : store_ok s →
    wp (st_GetBlock i) s (λ o s', answers o (blocks (view s) !! i) ∧
                                  store_ok s' ∧ view s' = view s);
  law_SetBlock b s : store_ok s → is_Some (blocks (view s) !! bb_Index (b_Body b)) ∨ room_block (view s) (bb_Index (b_Body b)) →
    wp (st_SetBlock b) s (λ o s', o = Ret tt ∧ store_ok s' ∧
       view s' = set_blocks (<[bb_Index (b_Body b) := b]> (blocks (view s))) (view s))
}.

Module Inmem.
Section Inmem.
Context `{RangeOrder, Crypto}.

Record InmemStore := mkInmem {
  cacheSize : Z;
  participants : gmap string Z;
  eventCache : Lru.LRU string Comet;
  roundCache : Lru.LRU Z RoundInfo;
  blockCache : Lru.LRU Z Block;
  consensusCache : RollingIndex string;
  totConsensusEvents : Z;
  participantEventsCache : ParticipantEventsCache;
  roots : gmap string Root;
  lastRound : Z
}.

Definition base_roots (ps : gmap string Z) : gmap string Root := (λ _, NewBaseRoot) <$> ps.

Definition NewInmemStore (ps : gmap string Z) (sz : Z) : InmemStore :=
  mkInmem sz ps (Lru.NewLRU sz false) (Lru.NewLRU sz false) (Lru.NewLRU sz false)
    (NewRollingIndex sz) 0 (NewParticipantEventsCache sz ps) (base_roots ps) (-1).

Definition upd_events c (s : InmemStore) : InmemStore :=
  mkInmem (cacheSize s) (participants s) c (roundCache s) (blockCache s) (consensusCache s)
    (totConsensusEvents s) (participantEventsCache s) (roots s) (lastRound s).
Definition upd_rounds c lr (s : InmemStore) : InmemStore :=
  mkInmem (cacheSize s) (participants s) (eventCache s) c (blockCache s) (consensusCache s)
    (totConsensusEvents s) (participantEventsCache s) (roots s) lr.
Definition upd_blocks c (s : InmemStore) : InmemStore :=
  mkInmem (cacheSize s) (participants s) (eventCache s) (roundCache s) c (consensusCache s)
    (totConsensusEvents s) (participantEventsCache s) (roots s) (lastRound s).
Definition upd_pec c (s : InmemStore) : InmemStore :=
  mkInmem (cacheSize s) (participants s) (eventCache s) (roundCache s) (blockCache s)
    (consensusCache s) (totConsensusEvents s) c (roots s) (lastRound s).

(** A lookup moves the entry to the front of its cache. *)
Definition GetComet (key : string) : M InmemStore Comet := λ s,
  let '(res, c) := Lru.Get key (eventCache s) in
  (match res with Some e => Ret e | None => Fail (StoreErr KeyNotFound key) end,
   upd_events c s).

Definition addParticpantEvent (p hash : string) (idx : Z) : M InmemStore unit :=
  zoom participantEventsCache upd_pec (pec_Set p hash idx).

Definition SetComet (event : Comet) : M InmemStore unit :=
  let key := Hex event in
  r ← try (GetComet key);
  (match r with
   | inl e => if Is e KeyNotFound
              then addParticpantEvent (Creator event) key (comet_Index event)
              else fail e
   | inr _ => mret tt
   end) ;;
  modify (λ s, upd_events (Lru.Add key event (eventCache s)).2 s).

Definition ParticipantEvents (p : string) (skip : Z) : M InmemStore (list string) := λ s,
  (pec_Get p skip (participantEventsCache s), s).

Definition ParticipantEvent (p : string) (idx : Z) : M InmemStore string := λ s,
  (pec_GetItem p idx (participantEventsCache s), s).

Definition LastEventFrom (p : string) : M InmemStore (string * bool) := λ s,
  (obind (pec_GetLast p (participantEventsCache s)) (λ last,
     if bool_decide (last = "") then
       match roots s !! p with
       | Some root => Ret (X root, true)
       | None => Fail (StoreErr NoRoot p)
       end
     else Ret (last, false)), s).

Definition KnownEvents : M InmemStore (gmap Z Z) := gets (λ s, pec_Known (participantEventsCache s)).

Definition ConsensusEvents (s : InmemStore) : list string := (GetLastWindow (consensusCache s)).1.

(** The error of the rolling index is dropped. *)
Definition AddConsensusEvent (key : string) : M InmemStore unit :=
  modify (λ s,
    mkInmem (cacheSize s) (participants s) (eventCache s) (roundCache s) (blockCache s)
      (Set_ key (totConsensusEvents s) (consensusCache s)).2
      (totConsensusEvents s + 1) (participantEventsCache s) (roots s) (lastRound s)).

Definition GetRound (r : Z) : M InmemStore RoundInfo := λ s,
  let '(res, c) := Lru.Get r (roundCache s) in
  (match res with Some e => Ret e | None => Fail (StoreErr KeyNotFound (pretty r)) end,
   upd_rounds c (lastRound s) s).

Definition SetRound (r : Z) (round : RoundInfo) : M InmemStore unit :=
  modify (λ s,
    upd_rounds (Lru.Add r round (roundCache s)).2
      (if bool_decide (lastRound s < r) then r else lastRound s) s).

Definition RoundWitnesses (r : Z) : M InmemStore (list string) :=
  res ← try (GetRound r);
  mret match res with inl _ => [] | inr round => Witnesses round end.

Definition RoundEvents (r : Z) : M InmemStore Z :=
  res ← try (GetRound r);
  mret match res with inl _ => 0 | inr round => Z.of_nat (base.size (Events round)) end.

Definition GetRoot (p : string) : M InmemStore Root := λ s,
  (match roots s !! p with Some r => Ret r | None => Fail (StoreErr KeyNotFound p) end, s).

Definition GetBlock (idx : Z) : M InmemStore Block := λ s,
  let '(res, c) := Lru.Get idx (blockCache s) in
  (match res with Some e => Ret e | None => Fail (StoreErr KeyNotFound (pretty idx)) end,
   upd_blocks c s).

Definition SetBlock (block : Block) : M InmemStore unit :=
  r ← try (GetBlock (bb_Index (b_Body block)));
  (match r with
   | inl e => if Is e KeyNotFound then mret tt else fail e
   | inr _ => mret tt
   end) ;;
  modify (λ s, upd_blocks (Lru.Add (bb_Index (b_Body block)) block (blockCache s)).2 s).

(** Blocks and the count of consensus events survive a reset. *)
Definition Reset (rs : gmap string Root) : M InmemStore unit :=
  modify (λ s,
    mkInmem (cacheSize s) (participants s) (Lru.NewLRU (cacheSize s) false)
      (Lru.NewLRU (cacheSize s) false) (blockCache s) (NewRollingIndex (cacheSize s))
      (totConsensusEvents s) (pec_Reset (participantEventsCache s)) rs (-1)).
End Inmem.

#[export] Instance Inmem_Store `{RangeOrder, Crypto} : Store InmemStore := {|
  st_CacheSize := cacheSize;
  st_Participants := participants;
  st_GetComet := GetComet;
  st_SetComet := SetComet;
  st_ParticipantEvents := ParticipantEvents;
  st_ParticipantEvent := ParticipantEvent;
  st_LastEventFrom := LastEventFrom;
  st_KnownEvents := KnownEvents;
  st_ConsensusEvents := ConsensusEvents;
  st_ConsensusEventsCount := totConsensusEvents;
  st_AddConsensusEvent := AddConsensusEvent;
  st_GetRound := GetRound;
  st_SetRound := SetRound;
  st_LastRound := lastRound;
  st_RoundWitnesses := RoundWitnesses;
  st_RoundEvents := RoundEvents;
  st_GetRoot := GetRoot;
  st_GetBlock := GetBlock;
  st_SetBlock := SetBlock;
  st_Reset := Reset
|}.

(** ** The in-memory store keeps the laws *)
Section Laws.
Context `{RangeOrder, Crypto}.

(** The rolling index of a participant. *)
Definition ri_of (s : InmemStore) (id : Z) : RollingIndex string :=
  default (NewRollingIndex (cacheSize s)) (mapping (pec_rim (participantEventsCache s)) !! id).

Definition inmem_view (s : InmemStore) : content :=
  mkContent (Lru.view (eventCache s)) (Lru.view (roundCache s)) (Lru.view (blockCache s))
    (roots s)
    ((λ id, default "" (last (items (ri_of s id)))) <$> participants s)
    ((λ id, lastIndex (ri_of s id) + 1) <$> participants s)
    (λ p i, match participants s !! p with
            | Some id => match GetItem i (ri_of s id) with Ret h => Some h | _ => None end
            | None => None
            end)
    (lastRound s) (cacheSize s) (participants s).

Record inmem_ok (s : InmemStore) : Prop := {
  ok_events : Lru.wf (eventCache s);
  ok_rounds : Lru.wf (roundCache s);
  ok_blocks : Lru.wf (blockCache s);
  ok_esize : Lru.size (eventCache s) = cacheSize s;
  ok_rsize : Lru.size (roundCache s) = cacheSize s;
  ok_bsize : Lru.size (blockCache s) = cacheSize s;
  ok_ps : pec_participants (participantEventsCache s) = participants s;
  ok_inj : ∀ p p' id, participants s !! p = Some id → participants s !! p' = Some id → p = p';
  ok_win : ∀ p id, participants s !! p = Some id →
             is_Some (mapping (pec_rim (participantEventsCache s)) !! id) ∧
             ∃ m, window (ri_of s id) m;
  ok_fit : Z.of_nat (base.size (Lru.view (eventCache s))) ≤ cacheSize s;
  ok_full : ∀ p id, participants s !! p = Some id →
              size (ri_of s id) = cacheSize s ∧ oldest (ri_of s id) = 0 ∧
              len (items (ri_of s id)) ≤ Z.of_nat (base.size (Lru.view (eventCache s)));
  ok_keys : ∀ id r, mapping (pec_rim (participantEventsCache s)) !! id = Some r → ∃ p, participants s !! p = Some id
}.

Lemma inmem_GetComet k s :
  inmem_ok s →
  wp (GetComet k) s (λ o s', answers o (comets (inmem_view s) !! k) ∧ inmem_ok s' ∧
                             inmem_view s' = inmem_view s).
Proof.
  intros Hok. unfold wp, GetComet.
  pose proof (Lru.Get_view (eventCache s) k (ok_events s Hok)) as (Hwf & Hr & Hv).
  pose proof (Lru.size_Get k (eventCache s)) as Hsz.
  destruct (Lru.Get k (eventCache s)) as [res c]. simpl in *. subst res.
  split; [by destruct (_ !! k); [|eexists]|]. split.
  - destruct Hok. split; simpl; rewrite ?Hv; try done; congruence.
  - unfold inmem_view. simpl. by rewrite Hv.
Qed.

Lemma inmem_GetRound k s :
  inmem_ok s →
  wp (GetRound k) s (λ o s', answers o (rounds (inmem_view s) !! k) ∧ inmem_ok s' ∧
                             inmem_view s' = inmem_view s).
Proof.
  intros Hok. unfold wp, GetRound.
  pose proof (Lru.Get_view (roundCache s) k (ok_rounds s Hok)) as (Hwf & Hr & Hv).
  pose proof (Lru.size_Get k (roundCache s)) as Hsz.
  destruct (Lru.Get k (roundCache s)) as [res c]. simpl in *. subst res.
  split; [by destruct (_ !! k); [|eexists]|]. split.
  - destruct Hok. by split; simpl; try done; congruence.
  - unfold inmem_view. simpl. by rewrite Hv.
Qed.

Lemma inmem_GetBlock k s :
  inmem_ok s →
  wp (GetBlock k) s (λ o s', answers o (blocks (inmem_view s) !! k) ∧ inmem_ok s' ∧
                             inmem_view s' = inmem_view s).
Proof.
  intros Hok. unfold wp, GetBlock.
  pose proof (Lru.Get_view (blockCache s) k (ok_blocks s Hok)) as (Hwf & Hr & Hv).
  pose proof (Lru.size_Get k (blockCache s)) as Hsz.
  destruct (Lru.Get k (blockCache s)) as [res c]. simpl in *. subst res.
  split; [by destruct (_ !! k); [|eexists]|]. split.
  - destruct Hok. by split; simpl; try done; congruence.
  - unfold inmem_view. simpl. by rewrite Hv.
Qed.

(** Adding a comet to the cache without evicting one. *)
Lemma inmem_cache_comet k c s :
  inmem_ok s →
  is_Some (Lru.view (eventCache s) !! k) ∨
    Z.of_nat (base.size (Lru.view (eventCache s))) < cacheSize s →
  inmem_ok (upd_events (Lru.Add k c (eventCache s)).2 s) ∧
  inmem_view (upd_events (Lru.Add k c (eventCache s)).2 s) =
    set_comets (<[k := c]> (comets (inmem_view s))) (inmem_view s).
Proof.
  intros Hok Hroom. rewrite <-(ok_esize s Hok) in Hroom.
  destruct (Lru.Add_view (eventCache s) k c (ok_events s Hok) Hroom) as [Hwf Hv].
  pose proof (Lru.size_Add k c (eventCache s)) as Hsz. split.
  - assert (base.size (Lru.view (eventCache s)) ≤ base.size (<[k:=c]> (Lru.view (eventCache s))))%nat as Hgrow
      by (rewrite map_size_insert; destruct (_ !! k); simpl; lia).
    destruct Hok. split; simpl; rewrite ?Hv; try done; [congruence| |].
    + destruct Hroom as [Hsome|Hlt]; [by rewrite map_size_insert_Some|].
      rewrite map_size_insert. rewrite <-ok_esize0. destruct (_ !! k); simpl; lia.
    + intros p id Hp. destruct (ok_full0 p id Hp) as (? & ? & ?). split; [done|]. split; [done|]. change (ri_of _ id) with (ri_of s id). lia.
  - unfold inmem_view, set_comets. simpl. by rewrite Hv.
Qed.

Lemma inmem_SetComet_old c s :
  inmem_ok s → is_Some (comets (inmem_view s) !! Hex c) →
  wp (SetComet c) s (λ o s', o = Ret tt ∧ inmem_ok s' ∧
     inmem_view s' = set_comets (<[Hex c := c]> (comets (inmem_view s))) (inmem_view s)).
Proof.
  intros Hok [c0 Hc0]. unfold SetComet. apply wp_bind, wp_try.
  eapply wp_mono; [by apply inmem_GetComet|]. intros o s1 (Ha & Hok1 & Hv1).
  rewrite Hc0 in Ha. simpl in Ha. subst o. apply wp_bind, wp_ret.
  unfold wp, modify. cbn [fst snd]. split; [done|]. rewrite <-Hv1.
  apply inmem_cache_comet; [done|]. left.
  change (is_Some (comets (inmem_view s1) !! Hex c)). rewrite Hv1. by exists c0.
Qed.

(** The rolling index after the next event of its participant. *)
Lemma set_next (r : RollingIndex string) m h idx :
  window r m → idx = lastIndex r + 1 → len (items r) < 2 * size r →
  ∃ m', Set_ h idx r = (Ret tt, mkRI (size r) idx (items r ++ [h])) ∧ window (Set_ h idx r).2 m'.
Proof.
  intros Hw -> Hlen. pose proof (win_last r m Hw) as Hl. pose proof (win_oldest r m Hw) as Ho.
  destruct (Set_spec r m h (lastIndex r + 1) Hw) as [Ha Hr]; [lia|].
  assert (set_answer r (lastIndex r + 1) = Ret tt) as Hans.
  { unfold set_answer. rewrite !bool_decide_false; [done| |]; unfold oldest, len in *; lia. }
  rewrite Hans in *. exists (<[lastIndex r + 1 := h]> m). split; [|apply Hr].
  unfold Set_, mbind, M_bind, get. cbn [fst snd]. rewrite bool_decide_false by lia. rewrite bool_decide_true by lia.
  by rewrite bool_decide_false by lia.
Qed.

(** What a window that starts at 0 serves. *)
Lemma get_item_full (r : RollingIndex string) i :
  oldest r = 0 → match GetItem i r with Ret h => Some h | _ => None end = if decide (0 ≤ i) then items r !! Z.to_nat i else None.
Proof.
  intros Ho. unfold GetItem. fold (oldest r). rewrite Ho. case_bool_decide; [by rewrite decide_False by lia|].
  rewrite decide_True by lia. rewrite Z.sub_0_r. case_bool_decide as Hn.
  - symmetry. apply lookup_ge_None. unfold len in Hn. lia.
  - unfold index. rewrite decide_True by lia. destruct (items r !! Z.to_nat i) eqn:Hi; [done|].
    apply lookup_ge_None in Hi. unfold len in Hn. lia.
Qed.

(** The store with the window of [id] replaced. *)
Definition with_window (id : Z) (r : RollingIndex string) (s : InmemStore) : InmemStore :=
  let rim := pec_rim (participantEventsCache s) in
  upd_pec (mkPEC (pec_participants (participantEventsCache s)) (mkRIM (rim_size rim) (rim_keys rim) (<[id := r]> (mapping rim)))) s.

Lemma ri_of_with_window id r s id' : ri_of (with_window id r s) id' = if decide (id' = id) then r else ri_of s id'.
Proof. unfold ri_of. cbn. rewrite lookup_insert. by destruct (decide (id = id')), (decide (id' = id)); try congruence. Qed.

Lemma inmem_add_participant_event p h idx s id :
  inmem_ok s → participants s !! p = Some id → lastIndex (ri_of s id) + 1 = idx →
  Z.of_nat (base.size (Lru.view (eventCache s))) < cacheSize s →
  let r' := mkRI (size (ri_of s id)) idx (items (ri_of s id) ++ [h]) in
  addParticpantEvent p h idx s = (Ret tt, with_window id r' s) ∧ ∃ m, window r' m.
Proof.
  intros Hok Hp Hidx Hroom. destruct (ok_win s Hok p id Hp) as [[r Hr] [m Hw]].
  destruct (ok_full s Hok p id Hp) as (Hsz & Hold & Hlen).
  assert (ri_of s id = r) as Hri by (unfold ri_of; by rewrite Hr).
  destruct (set_next (ri_of s id) m h idx Hw ltac:(lia) ltac:(lia)) as (m' & HS & Hw'). rewrite HS in Hw'. cbn zeta. split; [|by exists m'].
  unfold addParticpantEvent, zoom, pec_Set, participantID. rewrite (ok_ps s Hok), Hp. unfold rim_Set. rewrite Hr. change (default _ (Some r)) with r.
  rewrite Hri in *. rewrite HS. cbn [fst snd]. unfold with_window. by rewrite (ok_ps s Hok).
Qed.

(** One more event of [id], in its window and in the cache. *)
Lemma inmem_ok_append p id h idx c' s :
  inmem_ok s → participants s !! p = Some id → lastIndex (ri_of s id) + 1 = idx →
  let r' := mkRI (size (ri_of s id)) idx (items (ri_of s id) ++ [h]) in
  (∃ m, window r' m) → Lru.wf c' → Lru.size c' = cacheSize s →
  Z.of_nat (base.size (Lru.view c')) = Z.of_nat (base.size (Lru.view (eventCache s))) + 1 →
  Z.of_nat (base.size (Lru.view c')) ≤ cacheSize s →
  inmem_ok (upd_events c' (with_window id r' s)).
Proof.
  intros Hok Hp Hidx r' Hw Hwf Hsz Hgrow Hfit.
  assert (∀ id', ri_of (upd_events c' (with_window id r' s)) id' = if decide (id' = id) then r' else ri_of s id') as Hri
    by apply ri_of_with_window.
  destruct Hok. split; try done.
  - intros p' id' Hp'. destruct (ok_win0 p' id' Hp') as [Hs Hm]. rewrite Hri. cbn. rewrite lookup_insert.
    split; [case_decide; [by eexists|done]|by case_decide].
  - intros p' id' Hp'. rewrite Hri. cbn [eventCache upd_events cacheSize with_window upd_pec]. rewrite Hgrow. case_decide as Hid.
    + destruct (ok_full0 p id Hp) as (? & Ho & ?). subst r'. unfold oldest, len in *. cbn [size lastIndex items].
      rewrite length_app. cbn [length]. split_and!; [done|lia|lia].
    + destruct (ok_full0 p' id' Hp') as (? & ? & ?). split_and!; [done|done|lia].
  - cbn. intros id' r [[<- _]|[_ Hr]]%lookup_insert_Some; [by exists p|by eapply ok_keys0].
Qed.

Lemma inmem_SetComet_new c s :
  inmem_ok s → Z.of_nat (base.size (comets (inmem_view s))) < capacity (inmem_view s) →
  comets (inmem_view s) !! Hex c = None →
  next_of (inmem_view s) !! Creator c = Some (comet_Index c) →
  wp (SetComet c) s (λ o s', o = Ret tt ∧ inmem_ok s' ∧
     comets (inmem_view s') = <[Hex c := c]> (comets (inmem_view s)) ∧
     last_of (inmem_view s') = <[Creator c := Hex c]> (last_of (inmem_view s)) ∧
     next_of (inmem_view s') = <[Creator c := comet_Index c + 1]> (next_of (inmem_view s)) ∧
     (∀ p i, log_of (inmem_view s') p i = log_with c (inmem_view s) p i) ∧
     rounds (inmem_view s') = rounds (inmem_view s) ∧
     blocks (inmem_view s') = blocks (inmem_view s) ∧
     store_roots (inmem_view s') = store_roots (inmem_view s) ∧
     last_round (inmem_view s') = last_round (inmem_view s) ∧
     capacity (inmem_view s') = capacity (inmem_view s) ∧
     members (inmem_view s') = members (inmem_view s)).
Proof.
  intros Hok Hroom Hnone Hnext. unfold SetComet. apply wp_bind, wp_try.
  eapply wp_mono; [by apply inmem_GetComet|]. intros o s1 (Ha & Hok1 & Hv1).
  rewrite Hnone in Ha. destruct Ha as [key ->]. rewrite <-Hv1 in *. clear Hv1 s Hok.
  simpl Is.
  cbn in Hnext, Hroom, Hnone. apply lookup_fmap_Some in Hnext as (id & Hidx & Hp).
  destruct (inmem_add_participant_event (Creator c) (Hex c) (comet_Index c) s1 id Hok1 Hp Hidx Hroom) as [Hadd Hw].
  set (r' := mkRI _ _ _) in *.
  apply wp_bind. unfold wp at 1. rewrite Hadd. cbn [fst snd]. unfold wp, modify. cbn [fst snd]. split; [done|].
  change (eventCache (with_window id r' s1)) with (eventCache s1).
  destruct (Lru.Add_view (eventCache s1) (Hex c) c (ok_events s1 Hok1) ltac:(right; by rewrite (ok_esize s1 Hok1))) as [Hwf Hv].
  assert (inmem_ok (upd_events (Lru.Add (Hex c) c (eventCache s1)).2 (with_window id r' s1))) as Hok3.
  { eapply inmem_ok_append; try done.
    - rewrite Lru.size_Add. by apply (ok_esize s1).
    - rewrite Hv, map_size_insert_None by done. lia.
    - rewrite Hv, map_size_insert_None by done. lia. }
  split; [done|]. set (s2 := upd_events _ _).
  assert (∀ id', ri_of s2 id' = if decide (id' = id) then r' else ri_of s1 id') as Hri by apply ri_of_with_window.
  assert (∀ p id', participants s1 !! p = Some id' → p ≠ Creator c → id' ≠ id) as Hne.
  { intros p id' Hp' Hpc ->. apply Hpc. by eapply (ok_inj s1 Hok1). }
  split; [exact Hv|]. unfold log_with, inmem_view. cbn [last_of next_of log_of]. change (participants s2) with (participants s1).
  split_and!; try done.
  - apply map_eq. intros p. rewrite lookup_insert, !lookup_fmap. case_decide as Heq; [subst p; rewrite Hp|].
    + cbn. rewrite Hri, decide_True by done. cbn [items r']. by rewrite last_snoc.
    + destruct (participants s1 !! p) as [id'|] eqn:Hp'; [|done]. cbn. by rewrite Hri, decide_False by eauto.
  - apply map_eq. intros p. rewrite lookup_insert, !lookup_fmap. case_decide as Heq; [subst p; rewrite Hp|].
    + cbn. by rewrite Hri, decide_True by done.
    + destruct (participants s1 !! p) as [id'|] eqn:Hp'; [|done]. cbn. by rewrite Hri, decide_False by eauto.
  - intros p i. destruct (participants s1 !! p) as [id'|] eqn:Hp'.
    2:{ rewrite decide_False; [done|]. intros [-> _]. congruence. }
    destruct (ok_full s1 Hok1 p id' Hp') as (_ & Ho & _).
    destruct (ok_full s2 Hok3 p id' Hp') as (_ & Ho2 & _). rewrite !get_item_full by done.
    rewrite Hri. destruct (decide (p = Creator c)) as [->|Hpc].
    + assert (id' = id) as -> by congruence. rewrite (decide_True (P := id = id)) by done. cbn [items r'].
      assert (Z.of_nat (length (items (ri_of s1 id))) = comet_Index c) as Hl by (unfold oldest, len in Ho; lia).
      destruct (decide (i = comet_Index c)) as [->|Hic].
      * rewrite (decide_True (P := _ ∧ _)) by done. rewrite decide_True by lia. rewrite lookup_app_r by lia.
        by replace (Z.to_nat (comet_Index c) - length (items (ri_of s1 id)))%nat with 0%nat by lia.
      * rewrite (decide_False (P := _ ∧ _)) by tauto. case_decide; [|done].
        destruct (decide (i < comet_Index c)); [by rewrite lookup_app_l by lia|].
        rewrite (lookup_ge_None_2 (items (ri_of s1 id))) by lia. apply lookup_ge_None_2. rewrite length_app. cbn. lia.
    + rewrite (decide_False (P := id' = id)) by eauto. by rewrite (decide_False (P := _ ∧ _)) by tauto.
Qed.

Lemma inmem_ParticipantEvents p skip n s :
  inmem_ok s → next_of (inmem_view s) !! p = Some n → -1 ≤ skip →
  wp (ParticipantEvents p skip) s (λ o s', (∃ l, o = Ret l ∧ ∀ i : nat, l !! i = log_of (inmem_view s) p (skip + 1 + Z.of_nat i)) ∧
                                           inmem_ok s' ∧ inmem_view s' = inmem_view s).
Proof.
  intros Hok Hn Hskip. unfold wp, ParticipantEvents, pec_Get, participantID. rewrite (ok_ps s Hok). cbn [fst snd].
  apply lookup_fmap_Some in Hn as (id & _ & Hp). split; [|done]. rewrite Hp. cbn [obind].
  destruct (ok_win s Hok p id Hp) as [[r Hr] _]. destruct (ok_full s Hok p id Hp) as (_ & Ho & _).
  unfold rim_Get, inmem_view. cbn [log_of]. rewrite Hr, Hp. assert (ri_of s id = r) as Hri by (unfold ri_of; by rewrite Hr). rewrite Hri in *.
  unfold Get. fold (oldest r). rewrite Ho. case_bool_decide as Hlast; [|case_bool_decide; [lia|]].
  - exists []. split; [done|]. intros i. rewrite get_item_full by done. rewrite decide_True by lia. symmetry.
    apply lookup_ge_None_2. unfold oldest, len in Ho. lia.
  - unfold slice_from. unfold oldest, len in *. rewrite decide_True by lia. eexists. split; [done|]. intros i.
    rewrite get_item_full by done. rewrite decide_True by lia. rewrite lookup_drop. f_equal. lia.
Qed.

Lemma inmem_KnownEvents s :
  inmem_ok s →
  wp KnownEvents s (λ o s', (∃ K, o = Ret K ∧
    (∀ p id n, members (inmem_view s) !! p = Some id → next_of (inmem_view s) !! p = Some n → K !! id = Some (n - 1)) ∧
    (∀ id k, K !! id = Some k → ∃ p, members (inmem_view s) !! p = Some id)) ∧ inmem_ok s' ∧ inmem_view s' = inmem_view s).
Proof.
  intros Hok. unfold wp, KnownEvents, gets. cbn [fst snd]. split; [|done]. eexists. split; [done|].
  unfold pec_Known, rim_Known. cbn [members inmem_view]. split.
  - intros p id n Hp Hn. cbn in Hn. rewrite lookup_fmap, Hp in Hn. injection Hn as <-. rewrite lookup_fmap.
    destruct (ok_win s Hok p id Hp) as [[r Hr] _]. unfold ri_of. rewrite Hr. cbn. f_equal. lia.
  - intros id k (r & _ & Hr)%lookup_fmap_Some. by eapply ok_keys.
Qed.

Lemma inmem_LastEventFrom p s :
  inmem_ok s → LastEventFrom p s = (last_event_answer (inmem_view s) p, s).
Proof.
  intros Hok. unfold LastEventFrom, pec_GetLast, participantID, last_event_answer.
  rewrite (ok_ps s Hok). cbn. rewrite lookup_fmap.
  destruct (participants s !! p) as [id|] eqn:Hp; [|done]. simpl.
  destruct (ok_win s Hok p id Hp) as [[r Hr] _]. unfold rim_GetLast, ri_of. rewrite Hr. done.
Qed.

Lemma inmem_ParticipantEvent p i h s :
  inmem_ok s → log_of (inmem_view s) p i = Some h → ParticipantEvent p i s = (Ret h, s).
Proof.
  intros Hok. unfold ParticipantEvent, pec_GetItem, participantID. rewrite (ok_ps s Hok). cbn.
  destruct (participants s !! p) as [id|] eqn:Hp; [|done]. simpl.
  destruct (ok_win s Hok p id Hp) as [[r Hr] _]. unfold rim_GetItem, ri_of. rewrite Hr. simpl.
  by destruct (GetItem i r); intros; simplify_eq.
Qed.

Lemma inmem_SetRound r ri s :
  inmem_ok s →
  is_Some (rounds (inmem_view s) !! r) ∨
    Z.of_nat (base.size (rounds (inmem_view s))) < capacity (inmem_view s) →
  wp (SetRound r ri) s (λ o s', o = Ret tt ∧ inmem_ok s' ∧
     inmem_view s' = set_rounds (<[r := ri]> (rounds (inmem_view s)))
                       (Z.max r (last_round (inmem_view s))) (inmem_view s)).
Proof.
  intros Hok Hroom. unfold wp, SetRound, modify. cbn in Hroom. cbn [fst snd].
  rewrite <-(ok_rsize s Hok) in Hroom.
  destruct (Lru.Add_view (roundCache s) r ri (ok_rounds s Hok) Hroom) as [Hwf Hv].
  pose proof (Lru.size_Add r ri (roundCache s)) as Hsz. split; [done|]. split.
  - destruct Hok. by split; simpl; try done; congruence.
  - unfold inmem_view, set_rounds. simpl. rewrite Hv. f_equal. case_bool_decide; lia.
Qed.

Lemma inmem_SetBlock b s :
  inmem_ok s →
  is_Some (blocks (inmem_view s) !! bb_Index (b_Body b)) ∨
    Z.of_nat (base.size (blocks (inmem_view s))) < capacity (inmem_view s) →
  wp (SetBlock b) s (λ o s', o = Ret tt ∧ inmem_ok s' ∧
     inmem_view s' = set_blocks (<[bb_Index (b_Body b) := b]> (blocks (inmem_view s)))
                       (inmem_view s)).
Proof.
  intros Hok Hroom. unfold SetBlock. apply wp_bind, wp_try.
  eapply wp_mono; [by apply inmem_GetBlock|]. intros o s1 (Ha & Hok1 & Hv1).
  rewrite <-Hv1 in *. clear Hv1 s Hok.
  assert (wp (modify (λ s0, upd_blocks (Lru.Add (bb_Index (b_Body b)) b (blockCache s0)).2 s0)) s1
    (λ o s', o = Ret tt ∧ inmem_ok s' ∧
       inmem_view s' = set_blocks (<[bb_Index (b_Body b) := b]> (blocks (inmem_view s1)))
                         (inmem_view s1))) as Hfin.
  { unfold wp, modify. cbn [fst snd]. cbn in Hroom. rewrite <-(ok_bsize s1 Hok1) in Hroom.
    destruct (Lru.Add_view (blockCache s1) _ b (ok_blocks s1 Hok1) Hroom) as [Hwf Hv].
    pose proof (Lru.size_Add (bb_Index (b_Body b)) b (blockCache s1)) as Hsz.
    split; [done|]. split.
    - destruct Hok1. by split; simpl; try done; congruence.
    - unfold inmem_view, set_blocks. simpl. by rewrite Hv. }
  destruct (blocks (inmem_view s1) !! _); simpl in Ha.
  - subst o. by apply wp_bind, wp_ret.
  - destruct Ha as [key ->]. simpl Is. by apply wp_bind, wp_ret.
Qed.

Lemma inmem_RoundWitnesses r s :
  inmem_ok s →
  wp (RoundWitnesses r) s (λ o s',
     o = Ret (from_option Witnesses [] (rounds (inmem_view s) !! r)) ∧
     inmem_ok s' ∧ inmem_view s' = inmem_view s).
Proof.
  intros Hok. unfold RoundWitnesses. apply wp_bind, wp_try.
  eapply wp_mono; [by apply inmem_GetRound|]. intros o s1 (Ha & Hok1 & Hv1).
  destruct (rounds (inmem_view s) !! r); simpl in Ha; [subst o|destruct Ha as [key ->]];
    by apply wp_ret.
Qed.

Lemma inmem_RoundEvents r s :
  inmem_ok s →
  wp (RoundEvents r) s (λ o s', (∃ n, o = Ret n) ∧ inmem_ok s' ∧ inmem_view s' = inmem_view s).
Proof.
  intros Hok. unfold RoundEvents. apply wp_bind, wp_try.
  eapply wp_mono; [by apply inmem_GetRound|]. intros o s1 (Ha & Hok1 & Hv1).
  destruct (rounds (inmem_view s) !! r); simpl in Ha; [subst o|destruct Ha as [key ->]];
    apply wp_ret; eauto.
Qed.

#[export, program] Instance inmem_laws : StoreLaws InmemStore := {|
  view := inmem_view;
  store_ok := inmem_ok;
  room_comet v := Z.of_nat (base.size (comets v)) < capacity v;
  room_round v r := Z.of_nat (base.size (rounds v)) < capacity v;
  room_block v i := Z.of_nat (base.size (blocks v)) < capacity v;
  law_GetComet := inmem_GetComet;
  law_SetComet_old := inmem_SetComet_old;
  law_SetComet_new := inmem_SetComet_new;
  law_GetRound := inmem_GetRound;
  law_SetRound := inmem_SetRound;
  law_GetBlock := inmem_GetBlock;
  law_SetBlock := inmem_SetBlock;
  law_RoundWitnesses := inmem_RoundWitnesses;
  law_RoundEvents := inmem_RoundEvents;
  law_KnownEvents := inmem_KnownEvents
|}.
Next Obligation. done. Qed.
Next Obligation. done. Qed.
Next Obligation.
  intros p s Hok. unfold wp. cbn [st_LastEventFrom Inmem_Store].
  by rewrite inmem_LastEventFrom.
Qed.
Next Obligation.
  intros p i h s Hok Hl. unfold wp. cbn [st_ParticipantEvent Inmem_Store].
  by erewrite inmem_ParticipantEvent.
Qed.
Next Obligation. intros p skip n s Hok Hn Hs _. by apply (inmem_ParticipantEvents p skip n). Qed.
Next Obligation.
  intros p s Hok. unfold wp. cbn. split; [|done]. destruct (roots s !! p); [done|by eexists].
Qed.
Next Obligation. done. Qed.
Next Obligation. intros s r Hok Hlt. pose proof (ok_fit s Hok). cbn in *. lia. Qed.
Next Obligation.
  intros k s Hok. unfold wp. cbn. split; [done|]. split; [|done]. by destruct Hok.
Qed.

Lemma inmem_ok_new ps sz :
  0 ≤ sz → (∀ p p' id, ps !! p = Some id → ps !! p' = Some id → p = p') →
  inmem_ok (NewInmemStore ps sz).
Proof.
  intros Hsz Hinj.
  assert (∀ p id, ps !! p = Some id → fresh_mapping (T:=string) sz (getValues ps) !! id = Some (NewRollingIndex sz)) as Hmap.
  { intros p id Hp. rewrite lookup_fresh_mapping, decide_True; [done|].
    apply list_elem_of_fmap. exists (p, id). split; [done|]. by apply elem_of_range. }
  split; simpl; try apply Lru.wf_NewLRU; try done.
  - intros p id Hp. unfold ri_of. cbn. rewrite (Hmap p id Hp). split; [by eexists|]. exists ∅. by apply window_new.
  - intros p id Hp. unfold ri_of. cbn. rewrite (Hmap p id Hp). cbn. done.
  - intros id r. rewrite lookup_fresh_mapping. case_decide as Hid; [|done]. intros _.
    apply list_elem_of_fmap in Hid as ([p id'] & -> & Hin). exists p. by apply elem_of_range.
Qed.

(** Nothing is logged yet. *)
Lemma inmem_log_new ps sz p i : log_of (inmem_view (NewInmemStore ps sz)) p i = None.
Proof.
  cbn. destruct (ps !! p) as [id|]; [|done]. unfold ri_of. cbn. rewrite lookup_fresh_mapping.
  destruct (decide _); cbn; rewrite get_item_full by done; by case_decide.
Qed.
End Laws.
End Inmem.
