(* ===== verification/CometGraph.v ===== *)
(** [core/sequentia/sequentia.go] and [core/sequentia/sorter.go]: the comet graph.  One definition per
    method, over any implementation of the [Store] interface.  [Round] recurses over
    the graph and [UpdateAncestorFirstDescendant] walks a chain of self-parents, so
    both take fuel. *)
From S2P Require Import Prelude Lru Bytes Types Caches Store.
Open Scope Z_scope.

(** ** [sort.Sort] with a comparison that may panic: insertion sort

    [sort.Sort] promises a sorted arrangement and is not stable, so among elements that compare
    equal the real order can differ from this one.  The theorems use no more of [sort] than that it
    returns a sorted arrangement; the file Order says how far that fixes the consensus order.  The other two
    uses are by timestamp, of which only the times are read, and by topological index, which no
    two comets of a node share. *)
Section Sort.
Context {A : Type} (less : A → A → outcome bool).

Fixpoint insert_sorted (x : A) (l : list A) : outcome (list A) :=
  match l with
  | [] => Ret [x]
  | y :: l' => obind (less x y) (λ b : bool,
                 if b then Ret (x :: y :: l')
                 else obind (insert_sorted x l') (λ r, Ret (y :: r)))
  end.

Fixpoint sort (l : list A) : outcome (list A) :=
  match l with
  | [] => Ret []
  | x :: l' => obind (sort l') (insert_sorted x)
  end.
End Sort.

(** ** The consensus order *)
Section Sorter.
Context `{RangeOrder}.

(** The sorter's round table [r] is made empty and never filled. *)
Definition sorter_rounds : gmap Z RoundInfo := ∅.

Definition GetPseudoRandomNumber (round : Z) : outcome Z :=
  PseudoRandomNumber (default (mkRoundInfo ∅ false) (sorter_rounds !! round)).

Definition signature_xor (c : Comet) (w : Z) : outcome Z :=
  match DecodeSignature (Signature c) with
  | Ret (Some r, _) => Ret (Z.lxor r w)
  | _ => Panic "nil pointer dereference"
  end.

Definition Less (a b : Comet) : outcome bool :=
  let irr := default (-1) (RoundReceived a) in
  let jrr := default (-1) (RoundReceived b) in
  if bool_decide (irr ≠ jrr) then Ret (bool_decide (irr < jrr))
  else if bool_decide (ConsensusTimestamp a ≠ ConsensusTimestamp b)
  then Ret (bool_decide (ConsensusTimestamp a < ConsensusTimestamp b))
  else match RoundReceived a with
       | None => Panic "nil pointer dereference"
       | Some rr =>
           obind (GetPseudoRandomNumber rr) (λ w,
           obind (signature_xor a w) (λ wsi,
           obind (signature_xor b w) (λ wsj, Ret (bool_decide (wsi < wsj)))))
       end.
End Sorter.

Section CometGraph.
Context `{RangeOrder, Crypto} {S : Type} `{Store S}.
Record CometGraph := mkCG {
  Participants : gmap string Z;
  ReverseParticipants : gmap Z string;
  store : S;
  UndeterminedEvents : list string;
  UndecidedRounds : list Z;
  LastConsensusRound : option Z;
  LastBlockIndex : Z;
  LastCommitedRoundEvents : Z;
  ConsensusTransactions : Z;
  PendingLoadedEvents : Z;
  topologicalIndex : Z;
  mostPlurality : Z;
  commitCh : option (list Block);     (* None: nil channel; else what was sent *)
  ancestorCache : Lru.LRU Key bool;
  selfAncestorCache : Lru.LRU Key bool;
  oldestSelfAncestorCache : Lru.LRU Key string;
  stronglySeeCache : Lru.LRU Key bool;
  parentRoundCache : Lru.LRU string ParentRoundInfo;
  roundCache : Lru.LRU string Z
}.

Definition upd_store (t : S) (g : CometGraph) : CometGraph :=
  mkCG (Participants g) (ReverseParticipants g) t (UndeterminedEvents g)
    (UndecidedRounds g) (LastConsensusRound g) (LastBlockIndex g)
    (LastCommitedRoundEvents g) (ConsensusTransactions g) (PendingLoadedEvents g)
    (topologicalIndex g) (mostPlurality g) (commitCh g) (ancestorCache g)
    (selfAncestorCache g) (oldestSelfAncestorCache g) (stronglySeeCache g)
    (parentRoundCache g) (roundCache g).

Definition upd_caches a sa o ss pr ro (g : CometGraph) : CometGraph :=
  mkCG (Participants g) (ReverseParticipants g) (store g) (UndeterminedEvents g)
    (UndecidedRounds g) (LastConsensusRound g) (LastBlockIndex g)
    (LastCommitedRoundEvents g) (ConsensusTransactions g) (PendingLoadedEvents g)
    (topologicalIndex g) (mostPlurality g) (commitCh g) a sa o ss pr ro.

Definition upd_ancestor c g := upd_caches c (selfAncestorCache g) (oldestSelfAncestorCache g)
  (stronglySeeCache g) (parentRoundCache g) (roundCache g) g.
Definition upd_selfAncestor c g := upd_caches (ancestorCache g) c (oldestSelfAncestorCache g)
  (stronglySeeCache g) (parentRoundCache g) (roundCache g) g.
Definition upd_oldest c g := upd_caches (ancestorCache g) (selfAncestorCache g) c
  (stronglySeeCache g) (parentRoundCache g) (roundCache g) g.
Definition upd_stronglySee c g := upd_caches (ancestorCache g) (selfAncestorCache g)
  (oldestSelfAncestorCache g) c (parentRoundCache g) (roundCache g) g.
Definition upd_parentRound c g := upd_caches (ancestorCache g) (selfAncestorCache g)
  (oldestSelfAncestorCache g) (stronglySeeCache g) c (roundCache g) g.
Definition upd_round c g := upd_caches (ancestorCache g) (selfAncestorCache g)
  (oldestSelfAncestorCache g) (stronglySeeCache g) (parentRoundCache g) c g.

(** The scalar and list fields the consensus methods write. *)
Definition upd_consensus und rounds lcr lbi lcre ctx pend topo ch (g : CometGraph) : CometGraph :=
  mkCG (Participants g) (ReverseParticipants g) (store g) und rounds lcr lbi lcre ctx pend
    topo (mostPlurality g) ch (ancestorCache g) (selfAncestorCache g)
    (oldestSelfAncestorCache g) (stronglySeeCache g) (parentRoundCache g) (roundCache g).

Definition set_Undetermined l g := upd_consensus l (UndecidedRounds g) (LastConsensusRound g)
  (LastBlockIndex g) (LastCommitedRoundEvents g) (ConsensusTransactions g)
  (PendingLoadedEvents g) (topologicalIndex g) (commitCh g) g.
Definition set_Undecided l g := upd_consensus (UndeterminedEvents g) l (LastConsensusRound g)
  (LastBlockIndex g) (LastCommitedRoundEvents g) (ConsensusTransactions g)
  (PendingLoadedEvents g) (topologicalIndex g) (commitCh g) g.
Definition set_LastConsensus lcr n g := upd_consensus (UndeterminedEvents g)
  (UndecidedRounds g) lcr (LastBlockIndex g) n (ConsensusTransactions g)
  (PendingLoadedEvents g) (topologicalIndex g) (commitCh g) g.
Definition set_LastBlock i g := upd_consensus (UndeterminedEvents g) (UndecidedRounds g)
  (LastConsensusRound g) i (LastCommitedRoundEvents g) (ConsensusTransactions g)
  (PendingLoadedEvents g) (topologicalIndex g) (commitCh g) g.
Definition set_counts ctx pend g := upd_consensus (UndeterminedEvents g) (UndecidedRounds g)
  (LastConsensusRound g) (LastBlockIndex g) (LastCommitedRoundEvents g) ctx pend
  (topologicalIndex g) (commitCh g) g.
Definition set_topo i g := upd_consensus (UndeterminedEvents g) (UndecidedRounds g)
  (LastConsensusRound g) (LastBlockIndex g) (LastCommitedRoundEvents g)
  (ConsensusTransactions g) (PendingLoadedEvents g) i (commitCh g) g.
Definition set_commitCh ch g := upd_consensus (UndeterminedEvents g) (UndecidedRounds g)
  (LastConsensusRound g) (LastBlockIndex g) (LastCommitedRoundEvents g)
  (ConsensusTransactions g) (PendingLoadedEvents g) (topologicalIndex g) ch g.

Abbreviation G := (M CometGraph).

(** Calling the store. *)
Definition stm {A} (m : M S A) : G A := zoom store upd_store m.

(** [if c, ok := cache.Get(k); ok { return c }; v := compute; cache.Add(k, v)] *)
Definition memo {K V} `{Countable K} (sel : CometGraph → Lru.LRU K V)
    (upd : Lru.LRU K V → CometGraph → CometGraph) (k : K) (compute : G V) : G V :=
  r ← zoom sel upd (λ c, let '(o, c') := Lru.Get k c in (Ret o, c'));
  match r with
  | Some v => mret v
  | None =>
      v ← compute;
      modify (λ g, upd (Lru.Add k v (sel g)).2 g) ;;
      mret v
  end.

(** ** Construction *)

Definition reverse_participants (ps : gmap string Z) : gmap Z string :=
  foldl (λ m '(pk, id), <[id := pk]> m) ∅ (range ps).

Definition MostPlurality_of (ps : gmap string Z) : Z :=
  2 * Z.of_nat (base.size ps) / 3 + 1.

(** The argument is what the package variable [Instance] holds: a second call
    asserts the stored struct to be a pointer. *)
Definition BuildCometGraph (ps : gmap string Z) (st : S) (ch : option (list Block)) :
    M (option CometGraph) CometGraph :=
  inst ← get;
  match inst with
  | Some _ => panic "interface conversion"
  | None =>
      let sz := st_CacheSize st in
      let g := mkCG ps (reverse_participants ps) st [] [0] None (-1) 0 0 0 0
        (MostPlurality_of ps) ch (Lru.NewLRU sz false) (Lru.NewLRU sz false)
        (Lru.NewLRU sz false) (Lru.NewLRU sz false) (Lru.NewLRU sz false)
        (Lru.NewLRU sz false) in
      modify (λ _, Some g) ;; mret g
  end.

(** ** Ancestry *)

(** [cg.Participants[pk]]: 0 for an unknown key. *)
Definition participant (pk : string) : G Z := gets (λ g, default 0 (Participants g !! pk)).

Definition ancestor (x y : string) : G bool :=
  if bool_decide (x = y) then mret true
  else
    rx ← try (stm (st_GetComet x));
    match rx with
    | inl _ => mret false
    | inr ex =>
        ry ← try (stm (st_GetComet y));
        match ry with
        | inl _ => mret false
        | inr ey =>
            eyCreator ← participant (Creator ey);
            la ← lift (index (LastAncestors ex) eyCreator);
            mret (bool_decide (comet_Index ey ≤ CIndex la))
        end
    end.

Definition AncestorOf (x y : string) : G bool :=
  memo ancestorCache upd_ancestor (NewKey x y) (ancestor x y).

Definition selfAncestor (x y : string) : G bool :=
  if bool_decide (x = y) then mret true
  else
    rx ← try (stm (st_GetComet x));
    match rx with
    | inl _ => mret false
    | inr ex =>
        exCreator ← participant (Creator ex);
        ry ← try (stm (st_GetComet y));
        match ry with
        | inl _ => mret false
        | inr ey =>
            eyCreator ← participant (Creator ey);
            mret (bool_decide (exCreator = eyCreator ∧ comet_Index ey ≤ comet_Index ex))
        end
    end.

Definition SelfAncestor (x y : string) : G bool :=
  memo selfAncestorCache upd_selfAncestor (NewKey x y) (selfAncestor x y).

Definition See (x y : string) : G bool := AncestorOf x y.

Definition oldestSelfAncestorToSee (x y : string) : G string :=
  rx ← try (stm (st_GetComet x));
  match rx with
  | inl _ => mret ""
  | inr ex =>
      ry ← try (stm (st_GetComet y));
      match ry with
      | inl _ => mret ""
      | inr ey =>
          c ← participant (Creator ex);
          a ← lift (index (FirstDescendants ey) c);
          mret (if bool_decide (CIndex a ≤ comet_Index ex) then Hash a else "")
      end
  end.

Definition OldestSelfAncestorToSee (x y : string) : G string :=
  memo oldestSelfAncestorCache upd_oldest (NewKey x y) (oldestSelfAncestorToSee x y).

(** The loop of [stronglySee] over the two coordinate arrays. *)
Fixpoint count_between (la fd : list EventCoordinates) (c : Z) : outcome Z :=
  match la, fd with
  | [], _ => Ret c
  | _ :: _, [] => Panic "index out of range"
  | a :: la', d :: fd' =>
      count_between la' fd' (if bool_decide (CIndex d ≤ CIndex a) then c + 1 else c)
  end.

Definition stronglySee (x y : string) : G bool :=
  rx ← try (stm (st_GetComet x));
  match rx with
  | inl _ => mret false
  | inr ex =>
      ry ← try (stm (st_GetComet y));
      match ry with
      | inl _ => mret false
      | inr ey =>
          c ← lift (count_between (LastAncestors ex) (FirstDescendants ey) 0);
          mp ← gets mostPlurality;
          mret (bool_decide (mp ≤ c))
      end
  end.

Definition StronglySee (x y : string) : G bool :=
  memo stronglySeeCache upd_stronglySee (NewKey x y) (stronglySee x y).

(** ** Rounds *)

Section Rounds.
(** The recursive call on a parent. *)
Variable round_of : string → G Z.

Definition parentRound (x : string) : G ParentRoundInfo :=
  rx ← try (stm (st_GetComet x));
  match rx with
  | inl _ => mret NewBaseParentRoundInfo
  | inr ex =>
      rr ← try (stm (st_GetRoot (Creator ex)));
      match rr with
      | inl _ => mret NewBaseParentRoundInfo
      | inr root =>
          sp ← lift (SelfParent ex);
          spi ← (if bool_decide (sp = X root) then mret (mkPRI (Round root) true)
                 else r ← round_of sp; mret (mkPRI r false));
          op ← lift (OtherParent ex);
          ro ← try (stm (st_GetComet op));
          opi ← (match ro with
                 | inr _ => r ← round_of op; mret (mkPRI r false)
                 | inl _ =>
                     if bool_decide (op = Y root) then mret (mkPRI (Round root) true)
                     else if bool_decide (other_of root x = Some op)
                     then mret (mkPRI (Round root) false)
                     else mret (mkPRI (-1) false)
                 end);
          mret (if bool_decide (pri_Round spi < pri_Round opi) then opi else spi)
      end
  end.

Definition ParentRound (x : string) : G ParentRoundInfo :=
  memo parentRoundCache upd_parentRound x (parentRound x).

Fixpoint count_stronglySee (x : string) (ws : list string) (c : Z) : G Z :=
  match ws with
  | [] => mret c
  | w :: ws' =>
      b ← StronglySee x w;
      count_stronglySee x ws' (if b : bool then c + 1 else c)
  end.

Definition RoundInc (x : string) : G bool :=
  pr ← ParentRound x;
  if pri_IsRoot pr then mret true
  else
    ws ← stm (st_RoundWitnesses (pri_Round pr));
    c ← count_stronglySee x ws 0;
    mp ← gets mostPlurality;
    mret (bool_decide (mp ≤ c)).

Definition round (x : string) : G Z :=
  pr ← ParentRound x;
  inc ← RoundInc x;
  mret (if inc : bool then pri_Round pr + 1 else pri_Round pr).
End Rounds.

Fixpoint Round_ (fuel : nat) (x : string) : G Z :=
  match fuel with
  | O => out_of_fuel
  | Datatypes.S f => memo roundCache upd_round x (round (Round_ f) x)
  end.

Variable fuel : nat.
Abbreviation Round := (Round_ fuel).

Definition Witness (x : string) : G bool :=
  rx ← try (stm (st_GetComet x));
  match rx with
  | inl _ => mret false
  | inr ex =>
      rr ← try (stm (st_GetRoot (Creator ex)));
      match rr with
      | inl _ => mret false
      | inr root =>
          sp ← lift (SelfParent ex);
          first ← (if bool_decide (sp = X root)
                   then op ← lift (OtherParent ex); mret (bool_decide (op = Y root))
                   else mret false);
          if first : bool then mret true
          else
            r ← Round x;
            rsp ← Round sp;
            mret (bool_decide (rsp < r))
      end
  end.

Definition RoundReceived_of (x : string) : G Z :=
  rx ← try (stm (st_GetComet x));
  mret match rx with
       | inl _ => -1
       | inr ex => default (-1) (RoundReceived ex)
       end.

Definition RoundDiff (x y : string) : G Z :=
  xRound ← Round x;
  if bool_decide (xRound < 0) then fail (Errorf "event has negative round")
  else
    yRound ← Round y;
    if bool_decide (yRound < 0) then fail (Errorf "event has negative round")
    else mret (xRound - yRound).

(** ** Inserting a comet *)

Definition CheckSelfParent (comet : Comet) : G unit :=
  selfParent ← lift (SelfParent comet);
  last ← stm (st_LastEventFrom (Creator comet));
  if bool_decide (selfParent = last.1) then mret tt
  else fail (Errorf "Self-parent not last known event by creator").

Definition CheckOtherParent (comet : Comet) : G unit :=
  otherParent ← lift (OtherParent comet);
  if bool_decide (otherParent = "") then mret tt
  else
    r ← try (stm (st_GetComet otherParent));
    match r with
    | inr _ => mret tt
    | inl _ =>
        root ← stm (st_GetRoot (Creator comet));
        sp ← lift (SelfParent comet);
        if bool_decide (X root = sp ∧ Y root = otherParent) then mret tt
        else if bool_decide (other_of root (Hex comet) = Some otherParent) then mret tt
        else fail (Errorf "Other-parent not known")
    end.

(** [copy(dst[:members], src)] into a zeroed slice of [members] coordinates. *)
Definition copy_coords (members : nat) (src : list EventCoordinates) : list EventCoordinates :=
  take members src ++ replicate (members - length src) (mkCoord "" 0).

(** The pointwise maximum loop; [other] may be too short to be indexed. *)
Fixpoint max_coords (la other : list EventCoordinates) : outcome (list EventCoordinates) :=
  match la, other with
  | [], _ => Ret []
  | _ :: _, [] => Panic "index out of range"
  | a :: la', b :: other' =>
      obind (max_coords la' other') (λ r,
        Ret ((if bool_decide (CIndex a < CIndex b) then b else a) :: r))
  end.

Definition InitEventCoordinates (comet : Comet) : G Comet :=
  ps ← gets Participants;
  let members := base.size ps in
  let fd := replicate members (mkCoord "" MaxInt32) in
  sph ← lift (SelfParent comet);
  sp ← try (stm (st_GetComet sph));
  oph ← lift (OtherParent comet);
  op ← try (stm (st_GetComet oph));
  la ← lift (match sp, op with
             | inl _, inl _ => Ret (replicate members (mkCoord "" (-1)))
             | inl _, inr o => Ret (copy_coords members (LastAncestors o))
             | inr s, inl _ => Ret (copy_coords members (LastAncestors s))
             | inr s, inr o => max_coords (copy_coords members (LastAncestors s)) (LastAncestors o)
             end);
  match ps !! Creator comet with
  | None => fail (Errorf "Could not find creator id")
  | Some creatorID =>
      let me := mkCoord (Hex comet) (comet_Index comet) in
      fd' ← lift (set_index fd creatorID me);
      la' ← lift (set_index la creatorID me);
      mret (set_coordinates la' fd' comet)
  end.

(** One walk down the self-parents of a last ancestor. *)
Fixpoint walk_ancestors (fuel : nat) (creatorID : Z) (me : EventCoordinates) (ah : string) : G unit :=
  if bool_decide (ah = "") then mret tt
  else
  match fuel with
  | O => out_of_fuel
  | Datatypes.S f =>
      r ← try (stm (st_GetComet ah));
      match r with
      | inl _ => mret tt
      | inr a =>
          d ← lift (index (FirstDescendants a) creatorID);
          if bool_decide (CIndex d = MaxInt32) then
            fd ← lift (set_index (FirstDescendants a) creatorID me);
            stm (st_SetComet (set_coordinates (LastAncestors a) fd a)) ;;
            sp ← lift (SelfParent a);
            walk_ancestors f creatorID me sp
          else mret tt
      end
  end.

Definition UpdateAncestorFirstDescendant (comet : Comet) : G unit :=
  ps ← gets Participants;
  match ps !! Creator comet with
  | None => fail (Errorf "Could not find creator id")
  | Some creatorID =>
      let me := mkCoord (Hex comet) (comet_Index comet) in
      for_each (λ a, walk_ancestors fuel creatorID me (Hash a)) (LastAncestors comet)
  end.

Definition SetWireInfo (comet : Comet) : G Comet :=
  r ← try (stm (st_LastEventFrom (Creator comet)));
  sp ← lift (SelfParent comet);
  let '(lf, isRoot) := match r with inr p => p | inl _ => ("", false) end in
  spi ← (if (isRoot : bool) && bool_decide (lf = sp) then
           root ← stm (st_GetRoot (Creator comet)); mret (root_Index root)
         else
           selfParent ← stm (st_GetComet sp); mret (comet_Index selfParent));
  op ← lift (OtherParent comet);
  opi ← (if bool_decide (op = "") then mret (-1, -1)
         else
           otherParent ← stm (st_GetComet op);
           id ← participant (Creator otherParent);
           mret (id, comet_Index otherParent));
  cid ← participant (Creator comet);
  mret (comet_SetWireInfo spi opi.1 opi.2 cid comet).

(** Failures are logged and skipped; a malformed signature panics. *)
Definition recordBlockSignature (bs : BlockSignature) : G unit :=
  ps ← gets Participants;
  match ps !! hexX (bs_Validator bs) with
  | None => mret tt
  | Some _ =>
      rb ← try (stm (st_GetBlock (bs_Index bs)));
      match rb with
      | inl _ => mret tt
      | inr block =>
          valid ← try (lift (block_Verify bs block));
          match valid with
          | inr true => try (stm (st_SetBlock (SetSignature bs block))) ;; mret tt
          | _ => mret tt
          end
      end
  end.

Definition recordBlockSignatures (l : list BlockSignature) : G unit :=
  for_each recordBlockSignature l.

Definition InsertComet (comet : Comet) (setWireInfo : bool) : G unit :=
  ok ← lift (Verify comet);
  if negb ok then fail (Errorf "Invalid Event signature")
  else
    wrap "CheckSelfParent" (CheckSelfParent comet) ;;
    wrap "CheckOtherParent" (CheckOtherParent comet) ;;
    topo ← gets topologicalIndex;
    let comet1 := set_TopologicalIndex topo comet in
    modify (λ g, set_topo (topologicalIndex g + 1) g) ;;
    comet2 ← (if setWireInfo : bool then wrap "SetWireInfo" (SetWireInfo comet1)
              else mret comet1);
    comet3 ← wrap "InitEventCoordinates" (InitEventCoordinates comet2);
    wrap "SetEvent" (stm (st_SetComet comet3)) ;;
    wrap "UpdateAncestorFirstDescendant" (UpdateAncestorFirstDescendant comet3) ;;
    modify (λ g, set_Undetermined (UndeterminedEvents g ++ [Hex comet3]) g) ;;
    (if IsLoaded comet3
     then modify (λ g, set_counts (ConsensusTransactions g) (PendingLoadedEvents g + 1) g)
     else mret tt) ;;
    recordBlockSignatures (comet_BlockSignatures comet3).

(** ** The wire *)

Definition ReadWireInfo (we : WireEvent) : G Comet :=
  let w := w_Body we in
  rev ← gets ReverseParticipants;
  let creator := default "" (rev !! w_CreatorID w) in
  digits ← lift (str_from creator 2);
  match DecodeString digits with
  | (_, Some e) => fail e
  | (creatorBytes, None) =>
      selfParent ← (if bool_decide (0 ≤ w_SelfParentIndex w)
                    then stm (st_ParticipantEvent creator (w_SelfParentIndex w))
                    else mret "");
      otherParent ← (if bool_decide (0 ≤ w_OtherParentIndex w)
                     then stm (st_ParticipantEvent
                            (default "" (rev !! w_OtherParentCreatorID w)) (w_OtherParentIndex w))
                     else mret "");
      mret (mkComet
        (mkCometBody
           (mkBodyFields (w_Transactions w) [selfParent; otherParent] creatorBytes
              (w_Timestamp w) (w_Index w) (we_BlockSignatures creatorBytes we))
           (w_SelfParentIndex w) (w_OtherParentCreatorID w) (w_OtherParentIndex w)
           (w_CreatorID w))
        (w_Signature we) 0 None zero_time [] [])
  end.

(** ** Consensus: rounds *)

(** [roundInfo, err := GetRound(i)] where only [KeyNotFound] is tolerated. *)
Definition get_or_new_round (i : Z) : G RoundInfo :=
  r ← try (stm (st_GetRound i));
  match r with
  | inr ri => mret ri
  | inl e => if Is e KeyNotFound then mret NewRoundInfo else fail e
  end.

Definition divide_one (hash : string) : G unit :=
  roundNumber ← Round hash;
  witness ← Witness hash;
  roundInfo ← get_or_new_round roundNumber;
  roundInfo' ← (if Queued roundInfo then mret roundInfo
                else modify (λ g, set_Undecided (UndecidedRounds g ++ [roundNumber]) g) ;;
                     mret (set_Queued true roundInfo));
  stm (st_SetRound roundNumber (AddEvent hash witness roundInfo')).

Definition DivideRounds : G unit :=
  und ← gets UndeterminedEvents;
  for_each divide_one und.

(** ** Consensus: fame *)

Abbreviation Votes := (gmap string (gmap string bool)).

Definition setVote (votes : Votes) (x y : string) (vote : bool) : Votes :=
  <[x := <[y := vote]> (default ∅ (votes !! x))]> votes.

Definition getVote (votes : Votes) (x y : string) : bool :=
  default false (default ∅ (votes !! x) !! y).

(** The name of a comet is "0x" and hex digits; the test is on the middle byte. *)
Definition middleBit (ehex : string) : outcome bool :=
  obind (str_from ehex 2) (λ s,
    let hash := (DecodeString s).1 in
    Ret (negb (bool_decide (0 < len hash ∧ hash !! (length hash / 2)%nat = Some 0)))).

Fixpoint filter_stronglySee (y : string) (ws : list string) : G (list string) :=
  match ws with
  | [] => mret []
  | w :: ws' =>
      b ← StronglySee y w;
      r ← filter_stronglySee y ws';
      mret (if b : bool then w :: r else r)
  end.

Fixpoint count_votes (votes : Votes) (x : string) (ws : list string) (yays nays : Z) : Z * Z :=
  match ws with
  | [] => (yays, nays)
  | w :: ws' => if getVote votes w x then count_votes votes x ws' (yays + 1) nays
                else count_votes votes x ws' yays (nays + 1)
  end.

(** [math.Mod(diff, n) > 0]; the remainder by zero is NaN. *)
Definition normal_round (diff n : Z) : bool :=
  if bool_decide (n = 0) then false else bool_decide (0 < diff mod n).

(** Round [i], witness [x] of it, witness [y] of round [j]. *)
Definition vote_one (i : Z) (x : string) (j : Z) (loc : RoundInfo * Votes) (y : string) :
    G (RoundInfo * Votes * bool) :=
  let '(roundInfo, votes) := loc in
  let diff := j - i in
  if bool_decide (diff = 1) then
    b ← See y x;
    mret (roundInfo, setVote votes y x b, false)
  else
    prev ← stm (st_RoundWitnesses (j - 1));
    ssWitnesses ← filter_stronglySee y prev;
    let '(yays, nays) := count_votes votes x ssWitnesses 0 0 in
    let v := bool_decide (nays ≤ yays) in
    let t := if v then yays else nays in
    mp ← gets mostPlurality;
    n ← gets (λ g, Z.of_nat (base.size (Participants g)));
    if normal_round diff n then
      if bool_decide (mp ≤ t)
      then mret (SetFame x v roundInfo, setVote votes y x v, true)
      else mret (roundInfo, setVote votes y x v, false)
    else if bool_decide (mp ≤ t)
    then mret (roundInfo, setVote votes y x v, false)
    else
      c ← lift (middleBit y);
      mret (roundInfo, setVote votes y x c, false).

(** The loop over the rounds above [i], left by [break X]. *)
Definition vote_rounds (i : Z) (x : string) (loc : RoundInfo * Votes) : G (RoundInfo * Votes) :=
  lr ← gets (λ g, st_LastRound (store g));
  r ← foldM_break (λ loc j,
        ws ← stm (st_RoundWitnesses j);
        foldM_break (vote_one i x j) loc ws)
      loc (seqZ (i + 1) (lr - i));
  mret r.1.

Definition decide_witness (i : Z) (loc : RoundInfo * Votes) (x : string) : G (RoundInfo * Votes) :=
  if IsDecided x loc.1 then mret loc else vote_rounds i x loc.

Definition setLastConsensusRound (i : Z) : G unit :=
  n ← stm (st_RoundEvents (i - 1));
  modify (set_LastConsensus (Some i) n).

(** One undecided round; the locals are the votes and the set of decided rounds.  An
    error of the store comes back beside the locals, for the deferred call. *)
Definition decide_round (loc : Votes * gset Z) (i : Z) : G (Votes * gset Z * option gerror) :=
  let '(votes, decided) := loc in
  ri ← try (stm (st_GetRound i));
  match ri with
  | inl e => mret (votes, decided, Some e)
  | inr roundInfo =>
      r ← foldM (decide_witness i) (roundInfo, votes) (Witnesses roundInfo);
      let '(roundInfo', votes') := r in
      decided' ← (if WitnessesDecided roundInfo' then
                    lcr ← gets LastConsensusRound;
                    (if bool_decide (lcr = None ∨ default 0 lcr < i)
                     then setLastConsensusRound i else mret tt) ;;
                    mret ({[ i ]} ∪ decided)
                  else mret decided);
      ok ← try (stm (st_SetRound i roundInfo'));
      mret (votes', decided', match ok with inl e => Some e | inr _ => None end)
  end.

Fixpoint decide_rounds (loc : Votes * gset Z) (rounds : list Z) : G (gset Z * option gerror) :=
  match rounds with
  | [] => mret (loc.2, None)
  | i :: rounds' =>
      r ← decide_round loc i;
      match r with
      | (loc', None) => decide_rounds loc' rounds'
      | (loc', Some e) => mret (loc'.2, Some e)
      end
  end.

Definition updateUndecidedRounds (decided : gset Z) : G unit :=
  modify (λ g, set_Undecided (filter (λ ur, ur ∉ decided) (UndecidedRounds g)) g).

Definition DecideFame : G unit :=
  rounds ← gets UndecidedRounds;
  r ← decide_rounds (∅, ∅) rounds;
  updateUndecidedRounds r.1 ;;
  match r.2 with
  | None => mret tt
  | Some e => fail e
  end.

(** ** Consensus: order *)

Definition MedianTimestamp (eventHashes : list string) : G Z :=
  events ← foldM (λ acc x, r ← try (stm (st_GetComet x));
                           mret (acc ++ [match r with inr ex => ex | inl _ => zero_Comet end]))
             [] eventHashes;
  sorted ← lift (sort (λ a b, Ret (ByTimestamp_Less a b)) events);
  m ← lift (index sorted (len sorted / 2));
  mret (Timestamp (fields (Body m))).

Fixpoint filter_See (ws : list string) (x : string) : G (list string) :=
  match ws with
  | [] => mret []
  | w :: ws' =>
      b ← See w x;
      r ← filter_See ws' x;
      mret (if b : bool then w :: r else r)
  end.

(** One candidate round for [x]; [true] when it is the round received. *)
Definition receive_in (x : string) (i : Z) : G bool :=
  tr ← get_or_new_round i;
  und ← gets UndecidedRounds;
  if negb (WitnessesDecided tr && match und with u :: _ => bool_decide (i < u) | [] => false end)
  then mret false
  else
    let fws := FamousWitnesses tr in
    s ← filter_See fws x;
    if bool_decide (len fws / 2 < len s) then
      ex ← stm (st_GetComet x);
      t ← foldM (λ acc a, o ← OldestSelfAncestorToSee a x; mret (acc ++ [o])) [] s;
      ts ← MedianTimestamp t;
      stm (st_SetComet (set_ConsensusTimestamp ts (SetRoundReceived i ex))) ;;
      mret true
    else mret false.

Definition receive_one (x : string) : G unit :=
  r ← Round x;
  lr ← gets (λ g, st_LastRound (store g));
  foldM_break (λ _ i, b ← receive_in x i; mret (tt, b)) tt (seqZ (r + 1) (lr - r)) ;;
  mret tt.

Definition DecideRoundReceived : G unit :=
  und ← gets UndeterminedEvents;
  for_each receive_one und.

Definition createAndInsertBlock (roundReceived : Z) (txs : list bytes) : G Block :=
  lbi ← gets LastBlockIndex;
  let block := NewBlock (lbi + 1) roundReceived txs in
  stm (st_SetBlock block) ;;
  modify (λ g, set_LastBlock (LastBlockIndex g + 1) g) ;;
  mret block.

(** The grouping of transactions by round received, in order of appearance. *)
Definition add_to_blocks (bm : gmap Z (list bytes) * list Z) (rr : Z) (txs : list bytes) :
    gmap Z (list bytes) * list Z :=
  match bm.1 !! rr with
  | Some btxs => (<[rr := btxs ++ txs]> bm.1, bm.2)
  | None => (<[rr := txs]> bm.1, bm.2 ++ [rr])
  end.

Definition handle_event (bm : gmap Z (list bytes) * list Z) (e : Comet) :
    G (gmap Z (list bytes) * list Z) :=
  stm (st_AddConsensusEvent (Hex e)) ;;
  modify (λ g, set_counts (ConsensusTransactions g + len (comet_Transactions e))
                 (if IsLoaded e then PendingLoadedEvents g - 1 else PendingLoadedEvents g) g) ;;
  match RoundReceived e with
  | None => panic "nil pointer dereference"
  | Some rr => mret (add_to_blocks bm rr (comet_Transactions e))
  end.

(** Sending on [commitCh] appends to the blocks sent.  The channel of a node has room for 400 blocks
    ([node.go:67]); that a send waits while it is full is not modelled. *)
Definition emit_block (blockMap : gmap Z (list bytes)) (rr : Z) : G unit :=
  let blockTxs := default [] (blockMap !! rr) in
  if bool_decide (0 < len blockTxs) then
    block ← createAndInsertBlock rr blockTxs;
    modify (λ g, match commitCh g with
                 | None => g
                 | Some sent => set_commitCh (Some (sent ++ [block])) g
                 end)
  else mret tt.

Definition handleNewConsensusEvents (newConsensusEvents : list Comet) : G unit :=
  bm ← foldM handle_event (∅, []) newConsensusEvents;
  for_each (emit_block bm.1) bm.2.

(** Splitting the undetermined events into the newly ordered and the rest. *)
Definition split_one (acc : list Comet * list string) (x : string) : G (list Comet * list string) :=
  ex ← stm (st_GetComet x);
  mret (match RoundReceived ex with
        | Some _ => (acc.1 ++ [ex], acc.2)
        | None => (acc.1, acc.2 ++ [x])
        end).

Definition FindOrder : G unit :=
  DecideRoundReceived ;;
  und ← gets UndeterminedEvents;
  r ← foldM split_one ([], []) und;
  modify (set_Undetermined r.2) ;;
  sorted ← lift (sort Less r.1);
  handleNewConsensusEvents sorted.

(** ** Reset, frames and bootstrap *)

Definition Reset (roots : gmap string Root) : G unit :=
  stm (st_Reset roots) ;;
  modify (λ g,
    let sz := st_CacheSize (store g) in
    upd_caches (Lru.NewLRU sz false) (Lru.NewLRU sz false) (Lru.NewLRU sz false)
      (Lru.NewLRU sz false) (Lru.NewLRU sz false) (Lru.NewLRU sz false)
      (upd_consensus [] [] (LastConsensusRound g) (LastBlockIndex g)
         (LastCommitedRoundEvents g) (ConsensusTransactions g) 0 0 (commitCh g) g)).

Definition root_above (c : Comet) : G Root :=
  sp ← lift (SelfParent c);
  op ← lift (OtherParent c);
  r ← Round sp;
  mret (mkRoot sp op (comet_Index c - 1) r (Some ∅)).

Definition frame_witness (acc : list Comet * gmap string Root) (wh : string) :
    G (list Comet * gmap string Root) :=
  w ← stm (st_GetComet wh);
  root ← root_above w;
  pes ← stm (st_ParticipantEvents (Creator w) (comet_Index w));
  evs ← foldM (λ l e, ev ← stm (st_GetComet e); mret (l ++ [ev])) (acc.1 ++ [w]) pes;
  mret (evs, <[Creator w := root]> acc.2).

Definition frame_participant (acc : list Comet * gmap string Root) (p : string) :
    G (list Comet * gmap string Root) :=
  match acc.2 !! p with
  | Some _ => mret acc
  | None =>
      last ← stm (st_LastEventFrom p);
      if last.2 : bool then
        root ← stm (st_GetRoot p);
        mret (acc.1, <[p := root]> acc.2)
      else
        ev ← stm (st_GetComet last.1);
        root ← root_above ev;
        mret (acc.1 ++ [ev], <[p := root]> acc.2)
  end.

(** Other-parents outside of the frame go to the [Others] of the creator's root;
    the entry of an unknown creator is the zero root, whose map is nil. *)
Fixpoint frame_others (treated : gset string) (events : list Comet) (roots : gmap string Root) :
    outcome (gmap string Root) :=
  match events with
  | [] => Ret roots
  | ev :: events' =>
      let treated' := {[ Hex ev ]} ∪ treated in
      obind (OtherParent ev) (λ op,
      obind (SelfParent ev) (λ sp,
        let root := default zero_Root (roots !! Creator ev) in
        if bool_decide (op ≠ "" ∧ (op ∉ treated') ∧ sp ≠ X root) then
          match Others root with
          | None => Panic "assignment to entry in nil map"
          | Some o =>
              frame_others treated' events'
                (<[Creator ev := mkRoot (X root) (Y root) (root_Index root)
                     (Types.Round root) (Some (<[Hex ev := op]> o))]> roots)
          end
        else frame_others treated' events' roots))
  end.

Definition GetFrame : G Frame :=
  lcr ← gets LastConsensusRound;
  lastConsensusRound ← stm (st_GetRound (default 0 lcr));
  acc ← foldM frame_witness ([], ∅) (Witnesses lastConsensusRound);
  ps ← gets Participants;
  acc' ← foldM frame_participant acc ((range ps).*1);
  events ← lift (sort (λ a b, Ret (ByTopologicalOrder_Less a b)) acc'.1);
  roots ← lift (frame_others ∅ events acc'.2);
  mret (mkFrame roots events).

(** [db] reads the comets of a badger store in topological order; any other store
    has nothing to load. *)
Definition Bootstrap (db : option (M S (list Comet))) : G unit :=
  match db with
  | None => mret tt
  | Some topologicalEvents =>
      evs ← stm topologicalEvents;
      for_each (λ e, InsertComet e true) evs ;;
      DivideRounds ;;
      DecideFame ;;
      FindOrder
  end.
End CometGraph.
