(* ===== verification/Ancestry.v ===== *)
(** The graph behind the coordinates: what [LastAncestors] and [FirstDescendants] mean.

    Everything structural is a function of the bodies the store holds: parents,
    creators, indexes, and the ancestor relation [anc].  [dag_ok] is the shape of
    the graph, [la_ok] and [fd_ok] the meaning of the two coordinate arrays; the main
    lemmas show that a comet added with the coordinates the code computes keeps
    them all. *)
From S2P Require Import Prelude Bytes Types Caches Store CometGraph.
Open Scope Z_scope.

Section Ancestry.
Context `{Crypto}.

(** ** Reading a body *)
Definition b_name (b : CometBody) : string :=
  match body_Hash b with Ret h => hexX h | _ => hexX [] end.
Definition b_creator (b : CometBody) : string := hexX (Creator_bytes (fields b)).
Definition b_index (b : CometBody) : Z := Index (fields b).
Definition b_self (b : CometBody) : outcome string := index (Parents (fields b)) 0.
Definition b_other (b : CometBody) : outcome string := index (Parents (fields b)) 1.

Abbreviation bodies := (gmap string CometBody).

(** ** The graph *)
Definition edge (B : bodies) (x y : string) : Prop :=
  ∃ b, B !! x = Some b ∧ is_Some (B !! y) ∧ (b_self b = Ret y ∨ b_other b = Ret y).

(** [anc B x y]: [y] is an ancestor of [x], or [x] itself. *)
Definition anc (B : bodies) : string → string → Prop := rtc (edge B).

(** [ps] numbers the participants from 0 without gaps. *)
Definition ids_ok (ps : gmap string Z) : Prop :=
  (∀ p id, ps !! p = Some id → 0 ≤ id < Z.of_nat (base.size ps)) ∧
  (∀ p p' id, ps !! p = Some id → ps !! p' = Some id → p = p').

Record dag_ok (ps : gmap string Z) (B : bodies) (next : gmap string Z)
    (last : gmap string string) : Prop := {
  dag_ids : ids_ok ps;
  dag_next : dom next = dom ps;
  dag_last_dom : dom last = dom ps;
  dag_name : ∀ h b, B !! h = Some b → b_name b = h;
  dag_range : ∀ h b, B !! h = Some b →
    ∃ n, next !! b_creator b = Some n ∧ 0 ≤ b_index b < n;
  dag_next_range : ∀ p n, next !! p = Some n → 0 ≤ n ≤ MaxInt32;
  dag_uniq : ∀ h h' b b', B !! h = Some b → B !! h' = Some b' →
    b_creator b = b_creator b' → b_index b = b_index b' → h = h';
  dag_full : ∀ p n k, next !! p = Some n → 0 ≤ k < n →
    ∃ h b, B !! h = Some b ∧ b_creator b = p ∧ b_index b = k;
  dag_last : ∀ p n l, next !! p = Some n → last !! p = Some l →
    (n = 0 ∧ l = "") ∨ ∃ b, B !! l = Some b ∧ b_creator b = p ∧ b_index b = n - 1;
  dag_self : ∀ h b, B !! h = Some b →
    (b_index b = 0 ∧ b_self b = Ret "") ∨
    ∃ h' b', b_self b = Ret h' ∧ B !! h' = Some b' ∧
             b_creator b' = b_creator b ∧ b_index b' = b_index b - 1;
  dag_other : ∀ h b, B !! h = Some b →
    b_other b = Ret "" ∨ ∃ h', b_other b = Ret h' ∧ is_Some (B !! h')
}.

Lemma dag_ne_empty ps B next last : dag_ok ps B next last → B !! "" = None.
Proof.
  intros Hd. destruct (B !! "") as [b|] eqn:Hb; [|done].
  apply (dag_name _ _ _ _ Hd) in Hb. unfold b_name in Hb. by destruct (body_Hash b).
Qed.

Lemma dag_creator ps B next last h b :
  dag_ok ps B next last → B !! h = Some b → ∃ id, ps !! b_creator b = Some id.
Proof.
  intros Hd Hb. destruct (dag_range _ _ _ _ Hd h b Hb) as (n & Hn & _).
  apply elem_of_dom_2 in Hn. rewrite (dag_next _ _ _ _ Hd) in Hn.
  by apply elem_of_dom in Hn.
Qed.

Lemma dag_index_lt_max ps B next last h b :
  dag_ok ps B next last → B !! h = Some b → 0 ≤ b_index b < MaxInt32.
Proof.
  intros Hd Hb. destruct (dag_range _ _ _ _ Hd h b Hb) as (n & Hn & Hi).
  pose proof (dag_next_range _ _ _ _ Hd _ _ Hn). lia.
Qed.

Lemma anc_refl B x : anc B x x.
Proof. apply rtc_refl. Qed.

Lemma anc_trans B x y z : anc B x y → anc B y z → anc B x z.
Proof. apply transitivity. Qed.

(** Self-ancestry: the events of one creator are totally ordered by index. *)
Lemma anc_same_creator ps B next last h h' b b' :
  dag_ok ps B next last → B !! h = Some b → B !! h' = Some b' →
  b_creator b = b_creator b' → b_index b' ≤ b_index b → anc B h h'.
Proof.
  intros Hd. remember (Z.to_nat (b_index b - b_index b')) as d eqn:Hdist.
  revert h b Hdist. induction d as [|d IH]; intros h b Hdist Hb Hb' Hc Hle.
  - assert (h = h') as -> by (apply (dag_uniq _ _ _ _ Hd h h' b b'); auto; lia).
    apply anc_refl.
  - destruct (dag_self _ _ _ _ Hd h b Hb) as [[H0 _]|(sp & bs & Hs & Hbs & Hcs & His)].
    + pose proof (dag_index_lt_max _ _ _ _ _ _ Hd Hb'). lia.
    + eapply rtc_l; [exists b; split; [done|]; split; [by eexists|by left]|].
      apply (IH sp bs); auto; [lia|congruence|lia].
Qed.

(** ** Coordinates *)

Definition coord_at (l : list EventCoordinates) (id : Z) : option EventCoordinates :=
  l !! Z.to_nat id.

(** A coordinate names an event of its participant, or nothing. *)
Definition names (B : bodies) (p : string) (a : EventCoordinates) : Prop :=
  ∃ b, B !! Hash a = Some b ∧ b_creator b = p ∧ b_index b = CIndex a.

(** The last ancestor of [x] among the events of [p]. *)
Definition la_spec (B : bodies) (x p : string) (a : EventCoordinates) : Prop :=
  (a = mkCoord "" (-1) ∨ names B p a) ∧
  ∀ y b, B !! y = Some b → b_creator b = p → (anc B x y ↔ b_index b ≤ CIndex a).

(** The first descendant of [y] among the events of [p]. *)
Definition fd_spec (B : bodies) (y p : string) (d : EventCoordinates) : Prop :=
  (d = mkCoord "" MaxInt32 ∨ names B p d) ∧
  ∀ x b, B !! x = Some b → b_creator b = p → (anc B x y ↔ CIndex d ≤ b_index b).

Definition la_ok (ps : gmap string Z) (B : bodies) (h : string) (la : list EventCoordinates) : Prop :=
  length la = base.size ps ∧
  ∀ p id, ps !! p = Some id → ∃ a, coord_at la id = Some a ∧ la_spec B h p a.

Definition fd_ok (ps : gmap string Z) (B : bodies) (h : string) (fd : list EventCoordinates) : Prop :=
  length fd = base.size ps ∧
  ∀ p id, ps !! p = Some id → ∃ d, coord_at fd id = Some d ∧ fd_spec B h p d.

Record graph_ok (ps : gmap string Z) (v : content) : Prop := {
  g_dag : dag_ok ps (Body <$> comets v) (next_of v) (last_of v);
  g_roots : ∀ p, is_Some (ps !! p) → store_roots v !! p = Some NewBaseRoot;
  g_la : ∀ h c, comets v !! h = Some c → la_ok ps (Body <$> comets v) h (LastAncestors c);
  g_fd : ∀ h c, comets v !! h = Some c → fd_ok ps (Body <$> comets v) h (FirstDescendants c)
}.

Lemma graph_body v h c : comets v !! h = Some c → (Body <$> comets v) !! h = Some (Body c).
Proof. intros Hc. by rewrite lookup_fmap, Hc. Qed.

(** ** Adding a body *)
Section Add.
Context (ps : gmap string Z) (B : bodies) (next : gmap string Z) (last : gmap string string).
Context (Hd : dag_ok ps B next last).
Context (hx : string) (bx : CometBody) (sp op : string) (n : Z).
Context (Hfresh : B !! hx = None) (Hname : b_name bx = hx).
Context (Hnext : next !! b_creator bx = Some n) (Hidx : b_index bx = n) (Hmax : n < MaxInt32).
Context (Hsp : b_self bx = Ret sp) (Hlast : last !! b_creator bx = Some sp).
Context (Hop : b_other bx = Ret op) (Hopk : op = "" ∨ is_Some (B !! op)).

Abbreviation B' := (<[hx := bx]> B).

Lemma hx_ne_empty : hx ≠ "".
Proof. rewrite <-Hname. unfold b_name. by destruct (body_Hash bx). Qed.

(** Old events keep their edges. *)
Lemma edge_old x y : is_Some (B !! x) → edge B' x y ↔ edge B x y.
Proof.
  intros [b Hb]. assert (x ≠ hx) as Hne by (intros ->; congruence).
  unfold edge. split.
  - intros (b' & Hb' & [b'' Hy] & Hpar). rewrite lookup_insert_ne in Hb' by done.
    exists b'. split; [done|]. split; [|done].
    assert (b' = b) as -> by congruence.
    apply lookup_insert_Some in Hy as [[<- _]|[_ Hy]]; [|by eexists].
    exfalso. destruct Hpar as [Hpar|Hpar].
    + destruct (dag_self _ _ _ _ Hd x b Hb) as [[_ Hs]|(h' & b0 & Hs & Hb0 & _)];
        rewrite Hs in Hpar; injection Hpar as Hpar; [by destruct hx_ne_empty|congruence].
    + destruct (dag_other _ _ _ _ Hd x b Hb) as [Hs|(h' & Hs & [b0 Hb0])];
        rewrite Hs in Hpar; injection Hpar as Hpar; [by destruct hx_ne_empty|congruence].
  - intros (b' & Hb' & [b'' Hy] & Hpar). exists b'. rewrite lookup_insert_ne by done.
    split; [done|]. split; [|done].
    rewrite lookup_insert. case_decide; by eexists.
Qed.

Lemma edge_is_Some x y : edge B x y → is_Some (B !! x) ∧ is_Some (B !! y).
Proof. intros (b & Hb & Hy & _). split; [by eexists|done]. Qed.

Lemma anc_old x y : is_Some (B !! x) → anc B' x y ↔ anc B x y.
Proof.
  intros Hx. split.
  - intros Ha. revert Hx. induction Ha as [|x z y Hxz Hzy IH]; intros Hx; [apply anc_refl|].
    apply edge_old in Hxz; [|done]. eapply rtc_l; [done|].
    apply IH. by destruct (edge_is_Some _ _ Hxz).
  - intros Ha. clear Hx. induction Ha as [|x z y Hxz Hzy IH]; [apply anc_refl|].
    destruct (edge_is_Some _ _ Hxz). eapply rtc_l; [|exact IH]. by apply edge_old.
Qed.

(** The ancestors of the new event are itself and those of its parents. *)
Lemma anc_new y :
  is_Some (B !! y) →
  anc B' hx y ↔ (is_Some (B !! sp) ∧ anc B sp y) ∨ (is_Some (B !! op) ∧ anc B op y).
Proof.
  intros Hy. split.
  - intros Ha. apply rtc_inv in Ha as [<-|(z & Hxz & Hzy)].
    { destruct Hy. congruence. }
    destruct Hxz as (b & Hb & Hz & Hpar). rewrite lookup_insert_eq in Hb.
    injection Hb as <-.
    assert (z ≠ hx) as Hzne.
    { intros ->. destruct Hpar as [Hpar|Hpar].
      - rewrite Hsp in Hpar. injection Hpar as Hpar.
        destruct (dag_last _ _ _ _ Hd _ _ _ Hnext Hlast) as [[_ ?]|(b0 & ? & _)];
          [destruct hx_ne_empty; congruence|congruence].
      - rewrite Hop in Hpar. injection Hpar as Hpar.
        destruct Hopk as [?|[? ?]]; [destruct hx_ne_empty; congruence|congruence]. }
    rewrite lookup_insert_ne in Hz by done.
    apply anc_old in Hzy; [|done].
    destruct Hpar as [Hpar|Hpar]; [rewrite Hsp in Hpar|rewrite Hop in Hpar];
      injection Hpar as ->; auto.
  - assert (∀ z, b_self bx = Ret z ∨ b_other bx = Ret z → is_Some (B !! z) → anc B z y →
                 anc B' hx y) as Haux.
    { intros z Hpar Hz Ha. eapply rtc_l; [|by apply anc_old].
      exists bx. rewrite lookup_insert_eq. split; [done|]. split; [|done].
      rewrite lookup_insert_ne; [done|]. intros <-. destruct Hz. congruence. }
    intros [[Hs Ha]|[Hs Ha]]; eauto.
Qed.

(** Nothing old descends from the new event. *)
Lemma anc_to_new x : is_Some (B !! x) → ¬ anc B' x hx.
Proof.
  intros Hx Ha. apply anc_old in Ha; [|done].
  assert (∀ x y, anc B x y → is_Some (B !! x) → is_Some (B !! y)) as Hdom.
  { induction 1 as [|u z w Huz Hzw IH]; intros Hu; [done|]. apply IH.
    by destruct (edge_is_Some _ _ Huz). }
  destruct (Hdom _ _ Ha Hx). congruence.
Qed.

Lemma creator_events_older y b :
  B !! y = Some b → b_creator b = b_creator bx → b_index b < n ∧ is_Some (B !! sp) ∧ anc B sp y.
Proof.
  intros Hb Hc. destruct (dag_range _ _ _ _ Hd y b Hb) as (n' & Hn' & Hr).
  rewrite Hc, Hnext in Hn'. injection Hn' as <-.
  destruct (dag_last _ _ _ _ Hd _ _ _ Hnext Hlast) as [[-> _]|(bs & Hbs & Hcs & His)]; [lia|].
  split; [lia|]. split; [by eexists|].
  apply (anc_same_creator ps B next last sp y bs b Hd); auto; [congruence|lia].
Qed.

Lemma dag_add :
  dag_ok ps B' (<[b_creator bx := n + 1]> next) (<[b_creator bx := hx]> last).
Proof.
  pose proof (dag_next_range _ _ _ _ Hd _ _ Hnext) as Hn0.
  assert (∀ y b, B !! y = Some b → y ≠ hx) as Hne by (intros y b Hb ->; congruence).
  split.
  - apply (dag_ids _ _ _ _ Hd).
  - rewrite dom_insert_lookup_L; [apply (dag_next _ _ _ _ Hd)|by eexists].
  - rewrite dom_insert_lookup_L; [apply (dag_last_dom _ _ _ _ Hd)|by eexists].
  - intros h b [[<- <-]|[_ Hb]]%lookup_insert_Some; [done|by apply (dag_name _ _ _ _ Hd)].
  - intros h b [[<- <-]|[_ Hb]]%lookup_insert_Some.
    + exists (n + 1). rewrite lookup_insert_eq. split; [done|lia].
    + destruct (dag_range _ _ _ _ Hd h b Hb) as (n' & Hn' & Hr).
      rewrite lookup_insert. case_decide as Hc; [|by eauto].
      exists (n + 1). split; [done|]. rewrite <-Hc, Hnext in Hn'. injection Hn' as <-. lia.
  - intros p n' [[<- <-]|[_ Hn']]%lookup_insert_Some; [lia|].
    by apply (dag_next_range _ _ _ _ Hd p).
  - intros h h' b b' [[<- <-]|[_ Hb]]%lookup_insert_Some
      [[<- <-]|[_ Hb']]%lookup_insert_Some Hc Hi; [done| | |].
    + destruct (creator_events_older h' b' Hb'); [done|lia].
    + destruct (creator_events_older h b Hb); [done|lia].
    + by apply (dag_uniq _ _ _ _ Hd h h' b b').
  - intros p n' k [[<- <-]|[Hp Hn']]%lookup_insert_Some Hk.
    + destruct (decide (k = n)) as [->|Hkn].
      * exists hx, bx. by rewrite lookup_insert_eq.
      * destruct (dag_full _ _ _ _ Hd _ _ k Hnext) as (h & b & Hb & Hc & Hi); [lia|].
        exists h, b. rewrite lookup_insert_ne by (by apply not_eq_sym, (Hne h b)). done.
    + destruct (dag_full _ _ _ _ Hd p n' k Hn' Hk) as (h & b & Hb & Hc & Hi).
      exists h, b. rewrite lookup_insert_ne by (by apply not_eq_sym, (Hne h b)). done.
  - intros p n' l [[<- <-]|[Hp Hn']]%lookup_insert_Some Hl.
    + rewrite lookup_insert_eq in Hl. injection Hl as <-. right.
      exists bx. rewrite lookup_insert_eq. split; [done|]. split; [done|lia].
    + rewrite lookup_insert_ne in Hl by done.
      destruct (dag_last _ _ _ _ Hd p n' l Hn' Hl) as [?|(b & Hb & Hc & Hi)]; [by left|].
      right. exists b. rewrite lookup_insert_ne by (by apply not_eq_sym, (Hne l b)). done.
  - intros h b [[<- <-]|[_ Hb]]%lookup_insert_Some.
    + destruct (dag_last _ _ _ _ Hd _ _ _ Hnext Hlast) as [[-> ->]|(bs & Hbs & Hcs & His)];
        [by left|]. right. exists sp, bs.
      rewrite lookup_insert_ne by (by apply not_eq_sym, (Hne sp bs)).
      repeat split; [done|done|done|lia].
    + destruct (dag_self _ _ _ _ Hd h b Hb) as [?|(h' & b' & Hs & Hb' & Hc & Hi)]; [by left|].
      right. exists h', b'. rewrite lookup_insert_ne by (by apply not_eq_sym, (Hne h' b')). done.
  - intros h b [[<- <-]|[_ Hb]]%lookup_insert_Some.
    + destruct Hopk as [->|[bo Hbo]]; [by left|]. right. exists op. split; [done|].
      rewrite lookup_insert_ne by (by apply not_eq_sym, (Hne op bo)). by eexists.
    + destruct (dag_other _ _ _ _ Hd h b Hb) as [?|(h' & Ho & [b' Hb'])]; [by left|].
      right. exists h'. split; [done|].
      rewrite lookup_insert_ne by (by apply not_eq_sym, (Hne h' b')). by eexists.
Qed.

(** *** Last ancestors *)

Lemma names_old p a : names B p a → names B' p a.
Proof.
  intros (b & Hb & Hc & Hi). exists b. rewrite lookup_insert_ne; [done|]. congruence.
Qed.

Lemma la_spec_old h p a : is_Some (B !! h) → la_spec B h p a → la_spec B' h p a.
Proof.
  intros Hh [Hn Ha]. split; [destruct Hn; auto using names_old|].
  intros y b [[<- <-]|[_ Hb]]%lookup_insert_Some Hc.
  - split; [intros Hanc; by destruct (anc_to_new h Hh)|]. intros Hle. exfalso.
    pose proof (dag_next_range _ _ _ _ Hd _ _ Hnext).
    destruct Hn as [->|(ba & Hba & Hca & Hia)]; [simpl in *; lia|].
    destruct (creator_events_older (Hash a) ba Hba); [congruence|lia].
  - rewrite anc_old by done. by apply Ha.
Qed.

Lemma la_ok_old h la : is_Some (B !! h) → la_ok ps B h la → la_ok ps B' h la.
Proof.
  intros Hh [Hlen Hla]. split; [done|]. intros p id Hp.
  destruct (Hla p id Hp) as (a & Ha & Hs). exists a. split; [done|]. by apply la_spec_old.
Qed.

(** The coordinate the code computes from those of the parents, when there are. *)
Definition pick (os oo : option EventCoordinates) : EventCoordinates :=
  match os, oo with
  | None, None => mkCoord "" (-1)
  | Some a, None => a
  | None, Some b => b
  | Some a, Some b => if bool_decide (CIndex a < CIndex b) then b else a
  end.

Definition parent_coord (h p : string) (o : option EventCoordinates) : Prop :=
  match o with
  | Some a => is_Some (B !! h) ∧ la_spec B h p a
  | None => B !! h = None
  end.

Lemma la_spec_pick p os oo :
  p ≠ b_creator bx → parent_coord sp p os → parent_coord op p oo →
  la_spec B' hx p (pick os oo).
Proof.
  intros Hp Hs Ho. split.
  - assert (∀ h a, parent_coord h p (Some a) → a = mkCoord "" (-1) ∨ names B' p a) as Hn.
    { intros h a [_ [[->|?] _]]; [by left|right; by apply names_old]. }
    unfold pick. destruct os, oo; try case_bool_decide; eauto.
  - intros y b [[<- <-]|[_ Hb]]%lookup_insert_Some Hc; [done|].
    rewrite anc_new by (by eexists).
    pose proof (dag_index_lt_max _ _ _ _ _ _ Hd Hb) as Hi0.
    assert (∀ h o, parent_coord h p o →
              (is_Some (B !! h) ∧ anc B h y ↔ ∃ a, o = Some a ∧ b_index b ≤ CIndex a)) as Haux.
    { intros h [a|] Hpc; simpl in Hpc.
      - destruct Hpc as [Hh [_ Ha]]. rewrite (Ha y b Hb Hc).
        split; [intros [_ ?]; eauto|]. intros (a' & ? & ?). by simplify_eq.
      - rewrite Hpc. split; [intros [[? ?] _]|intros (? & ? & _)]; done. }
    rewrite (Haux sp os Hs), (Haux op oo Ho). clear Haux Hs Ho. unfold pick.
    destruct os as [a|], oo as [a'|]; simpl; try case_bool_decide; split;
      try (intros [(? & ? & ?)|(? & ? & ?)]; simplify_eq; lia);
      intros; try lia; eauto.
Qed.

Lemma la_spec_me : la_spec B' hx (b_creator bx) (mkCoord hx n).
Proof.
  split.
  - right. exists bx. simpl. by rewrite lookup_insert_eq.
  - intros y b [[<- <-]|[_ Hb]]%lookup_insert_Some Hc; simpl.
    + split; [lia|]. intros _. apply anc_refl.
    + destruct (creator_events_older y b Hb Hc) as (Hlt & Hs & Ha).
      split; [lia|]. intros _. apply anc_new; [by eexists|]. by left.
Qed.

(** *** First descendants *)

Lemma fd_spec_old_other y p d :
  is_Some (B !! y) → p ≠ b_creator bx → fd_spec B y p d → fd_spec B' y p d.
Proof.
  intros Hy Hp [Hn Hf]. split; [destruct Hn; auto using names_old|].
  intros x b [[<- <-]|[_ Hb]]%lookup_insert_Some Hc; [done|].
  rewrite anc_old by (by eexists). by apply Hf.
Qed.

(** The creator's coordinate of an old event: set to the new event exactly when
    it was unset and the new event descends from it. *)
Lemma fd_spec_old_creator y d :
  is_Some (B !! y) → fd_spec B y (b_creator bx) d →
  (anc B' hx y → CIndex d = MaxInt32 → fd_spec B' y (b_creator bx) (mkCoord hx n)) ∧
  (¬ anc B' hx y ∨ CIndex d ≠ MaxInt32 → fd_spec B' y (b_creator bx) d).
Proof.
  intros Hy [Hn Hf]. split.
  - intros Ha Hmaxd. split; [right; exists bx; simpl; by rewrite lookup_insert_eq|].
    intros x b [[<- <-]|[_ Hb]]%lookup_insert_Some Hc; simpl; [split; [lia|done]|].
    rewrite anc_old by (by eexists). rewrite (Hf x b Hb Hc), Hmaxd.
    pose proof (dag_index_lt_max _ _ _ _ _ _ Hd Hb).
    destruct (creator_events_older x b Hb Hc). lia.
  - intros Hor. split; [destruct Hn; auto using names_old|].
    intros x b [[<- <-]|[_ Hb]]%lookup_insert_Some Hc.
    + rewrite Hidx. split.
      * intros Ha. destruct Hor as [Hna|Hset]; [done|].
        destruct Hn as [->|(bd & Hbd & Hcd & Hid)]; [done|].
        destruct (creator_events_older (Hash d) bd Hbd Hcd). lia.
      * intros Hle. destruct Hn as [->|(bd & Hbd & Hcd & Hid)]; [simpl in Hle; lia|].
        destruct (creator_events_older (Hash d) bd Hbd Hcd) as (_ & Hs & Ha).
        apply anc_new; [done|]. left. split; [done|].
        eapply anc_trans; [exact Ha|]. apply (Hf (Hash d) bd Hbd Hcd). lia.
    + rewrite anc_old by (by eexists). by apply Hf.
Qed.

Lemma fd_spec_new_me : fd_spec B' hx (b_creator bx) (mkCoord hx n).
Proof.
  split; [right; exists bx; simpl; by rewrite lookup_insert_eq|].
  intros x b [[<- <-]|[_ Hb]]%lookup_insert_Some Hc; simpl.
  - split; [lia|]. intros _. apply anc_refl.
  - split; [intros Ha; by destruct (anc_to_new x ltac:(by eexists))|].
    destruct (creator_events_older x b Hb Hc). lia.
Qed.

Lemma fd_spec_new_other p : p ≠ b_creator bx → fd_spec B' hx p (mkCoord "" MaxInt32).
Proof.
  intros Hp. split; [by left|].
  intros x b [[<- <-]|[_ Hb]]%lookup_insert_Some Hc; [done|]. simpl.
  pose proof (dag_index_lt_max _ _ _ _ _ _ Hd Hb).
  split; [intros Ha; by destruct (anc_to_new x ltac:(by eexists))|lia].
Qed.
End Add.

(** ** Marking first descendants

    What a walk of [UpdateAncestorFirstDescendant] does to the comets: those that
    satisfy [P] and have no first descendant for participant [i] yet get [me]. *)
Definition set_fd (i : Z) (me : EventCoordinates) (c : Comet) : Comet :=
  set_coordinates (LastAncestors c) (<[Z.to_nat i := me]> (FirstDescendants c)) c.

Definition unseen (i : Z) (c : Comet) : bool :=
  match coord_at (FirstDescendants c) i with
  | Some d => bool_decide (CIndex d = MaxInt32)
  | None => false
  end.

Definition mark_one (i : Z) (me : EventCoordinates) (P : CometBody → bool) (c : Comet) : Comet :=
  if P (Body c) && unseen i c then set_fd i me c else c.

Definition mark (i : Z) (me : EventCoordinates) (P : CometBody → bool)
    (m : gmap string Comet) : gmap string Comet := mark_one i me P <$> m.

Lemma Body_mark_one i me P c : Body (mark_one i me P c) = Body c.
Proof. unfold mark_one. by destruct (_ && _). Qed.

Lemma LA_mark_one i me P c : LastAncestors (mark_one i me P c) = LastAncestors c.
Proof. unfold mark_one. by destruct (_ && _). Qed.

Lemma Body_mark i me P m : Body <$> mark i me P m = Body <$> m.
Proof.
  unfold mark. rewrite <-map_fmap_compose. apply map_fmap_ext.
  intros h c _. apply Body_mark_one.
Qed.

(** What a stored comet keeps for ever: its body, its signature and its place in the order of
    insertion. *)
Definition face (c : Comet) : CometBody * string * Z := (Body c, Signature c, TopologicalIndex c).

Lemma face_mark i me P m : face <$> mark i me P m = face <$> m.
Proof.
  unfold mark. rewrite <-map_fmap_compose. apply map_fmap_ext.
  intros h c _. cbn. unfold mark_one. by destruct (_ && _).
Qed.

(** What the consensus adds to a comet: its round received and its timestamp. *)
Definition stamp (c : Comet) : option Z * Z := (RoundReceived c, ConsensusTimestamp c).

Lemma stamp_mark i me P m : stamp <$> mark i me P m = stamp <$> m.
Proof.
  unfold mark. rewrite <-map_fmap_compose. apply map_fmap_ext.
  intros h c _. cbn. unfold mark_one. by destruct (_ && _).
Qed.

Lemma mark_ext i me P Q m :
  (∀ h c, m !! h = Some c → unseen i c = true → P (Body c) = Q (Body c)) →
  mark i me P m = mark i me Q m.
Proof.
  intros HPQ. unfold mark. apply map_fmap_ext. intros h c Hc. unfold mark_one.
  destruct (unseen i c) eqn:Hu; [|by rewrite !andb_false_r].
  by rewrite (HPQ h c).
Qed.

Lemma mark_none i me P m :
  (∀ h c, m !! h = Some c → unseen i c = true → P (Body c) = false) → mark i me P m = m.
Proof.
  intros HP. unfold mark. rewrite <-(map_fmap_id m) at 2. apply map_fmap_ext. intros h c Hc.
  unfold mark_one. destruct (unseen i c) eqn:Hu; [|by rewrite andb_false_r].
  by rewrite (HP h c).
Qed.

Lemma unseen_set_fd i me c : CIndex me ≠ MaxInt32 → unseen i (set_fd i me c) = false.
Proof.
  intros Hme. unfold unseen, set_fd, coord_at. simpl.
  destruct (decide (Z.to_nat i < length (FirstDescendants c))%nat).
  - rewrite list_lookup_insert_eq by done. by apply bool_decide_eq_false_2.
  - by rewrite list_insert_ge, lookup_ge_None_2 by lia.
Qed.

Lemma mark_one_mark_one i me P Q c :
  CIndex me ≠ MaxInt32 →
  mark_one i me P (mark_one i me Q c) = mark_one i me (λ b, P b || Q b) c.
Proof.
  intros Hme. unfold mark_one at 2 3. destruct (unseen i c) eqn:Hu.
  - rewrite !andb_true_r. destruct (Q (Body c)) eqn:HQ; unfold mark_one.
    + by rewrite unseen_set_fd, andb_false_r, orb_true_r.
    + by rewrite Hu, andb_true_r, orb_false_r.
  - rewrite !andb_false_r. unfold mark_one. by rewrite Hu, andb_false_r.
Qed.

Lemma mark_mark i me P Q m :
  CIndex me ≠ MaxInt32 →
  mark i me P (mark i me Q m) = mark i me (λ b, P b || Q b) m.
Proof.
  intros Hme. unfold mark. rewrite <-map_fmap_compose. apply map_fmap_ext.
  intros h c _. by apply mark_one_mark_one.
Qed.

(** The events a last-ancestor array points at or above. *)
Definition below (ps : gmap string Z) (la : list EventCoordinates) (b : CometBody) : bool :=
  match ps !! b_creator b with
  | Some id => match coord_at la id with
               | Some a => bool_decide (b_index b ≤ CIndex a)
               | None => false
               end
  | None => false
  end.

Lemma below_anc ps B next last h la y b :
  dag_ok ps B next last → la_ok ps B h la → B !! y = Some b →
  below ps la b = true ↔ anc B h y.
Proof.
  intros Hd [_ Hla] Hb. destruct (dag_creator ps B next last y b Hd Hb) as [id Hid].
  destruct (Hla _ _ Hid) as (a & Ha & _ & Hspec).
  unfold below. rewrite Hid, Ha, bool_decide_eq_true. by rewrite (Hspec y b).
Qed.

Lemma coord_at_insert (l : list EventCoordinates) i j me :
  0 ≤ i < Z.of_nat (length l) → 0 ≤ j →
  coord_at (<[Z.to_nat i := me]> l) j = if decide (i = j) then Some me else coord_at l j.
Proof.
  intros Hi Hj. unfold coord_at. destruct (decide (i = j)) as [->|Hne].
  - rewrite list_lookup_insert_eq; [done|lia].
  - rewrite list_lookup_insert_ne; [done|lia].
Qed.

(** *** The step of the whole graph *)

Definition inserted (ps : gmap string Z) (v v' : content) (id : Z) (x : Comet) : Prop :=
  comets v' = mark id (mkCoord (Hex x) (comet_Index x)) (below ps (LastAncestors x))
                (<[Hex x := x]> (comets v)) ∧
  next_of v' = <[Creator x := comet_Index x + 1]> (next_of v) ∧
  last_of v' = <[Creator x := Hex x]> (last_of v) ∧
  store_roots v' = store_roots v.

Lemma graph_ok_insert ps v v' id x sp op :
  graph_ok ps v → inserted ps v v' id x →
  comets v !! Hex x = None →
  ps !! Creator x = Some id →
  next_of v !! Creator x = Some (comet_Index x) → comet_Index x < MaxInt32 →
  SelfParent x = Ret sp → last_of v !! Creator x = Some sp →
  OtherParent x = Ret op → op = "" ∨ is_Some (comets v !! op) →
  la_ok ps (<[Hex x := Body x]> (Body <$> comets v)) (Hex x) (LastAncestors x) →
  FirstDescendants x = <[Z.to_nat id := mkCoord (Hex x) (comet_Index x)]>
                         (replicate (base.size ps) (mkCoord "" MaxInt32)) →
  graph_ok ps v'.
Proof.
  intros [Hdag Hroots Hla Hfd] (Hc' & Hn' & Hl' & Hr') Hfresh Hid Hnext Hmax Hsp Hlast Hop Hopk
    HlaX HfdX.
  set (B := Body <$> comets v) in *.
  assert (B !! Hex x = None) as HfB by (unfold B; by rewrite lookup_fmap, Hfresh).
  assert (op = "" ∨ is_Some (B !! op)) as HopB.
  { destruct Hopk; [by left|right]. unfold B. by rewrite lookup_fmap, fmap_is_Some. }
  assert (Body <$> comets v' = <[Hex x := Body x]> B) as HB'.
  { rewrite Hc', Body_mark. apply fmap_insert. }
  pose proof (proj1 (dag_ids _ _ _ _ Hdag) _ _ Hid) as Hid_range.
  pose proof (dag_add ps B _ _ Hdag (Hex x) (Body x) sp op (comet_Index x) HfB eq_refl
    Hnext eq_refl Hmax Hsp Hlast Hop HopB) as Hdag'.
  assert (∀ h c, comets v !! h = Some c → is_Some (B !! h)) as Hold.
  { intros h c Hc. unfold B. rewrite lookup_fmap, Hc. by eexists. }
  split.
  - rewrite HB', Hn', Hl'. exact Hdag'.
  - rewrite Hr'. exact Hroots.
  - rewrite HB', Hc'. intros h c Hc. unfold mark in Hc.
    apply lookup_fmap_Some in Hc as (c0 & <- & Hc0). rewrite LA_mark_one.
    apply lookup_insert_Some in Hc0 as [[<- <-]|[_ Hc0]]; [done|].
    eapply la_ok_old; eauto.
  - rewrite HB', Hc'. intros h c Hc. unfold mark in Hc.
    apply lookup_fmap_Some in Hc as (c0 & <- & Hc0).
    apply lookup_insert_Some in Hc0 as [[<- <-]|[Hne Hc0]].
    + assert (coord_at (FirstDescendants x) id = Some (mkCoord (Hex x) (comet_Index x))) as Hme.
      { rewrite HfdX, coord_at_insert; [by rewrite decide_True|rewrite length_replicate; lia|lia]. }
      assert (unseen id x = false) as Hu.
      { unfold unseen. rewrite Hme. apply bool_decide_eq_false_2. simpl. lia. }
      unfold mark_one. rewrite Hu, andb_false_r. split.
      { by rewrite HfdX, length_insert, length_replicate. }
      intros p j Hp. pose proof (proj1 (dag_ids _ _ _ _ Hdag) _ _ Hp) as Hj.
      rewrite HfdX, coord_at_insert by (rewrite ?length_replicate; lia).
      destruct (decide (id = j)) as [->|Hij].
      * assert (p = Creator x) as -> by (by eapply (proj2 (dag_ids _ _ _ _ Hdag))).
        eexists. split; [done|]. eapply fd_spec_new_me; eauto.
      * eexists. split; [unfold coord_at; apply lookup_replicate_2; lia|].
        eapply fd_spec_new_other; eauto.
        change (b_creator (Body x)) with (Creator x). intros ->. congruence.
    + destruct (Hfd h c0 Hc0) as [Hlen Hspec]. split.
      { unfold mark_one. destruct (_ && _); [|done]. simpl. by rewrite length_insert. }
      intros p j Hp. pose proof (proj1 (dag_ids _ _ _ _ Hdag) _ _ Hp) as Hj.
      destruct (Hspec p j Hp) as (d & Hd & Hds).
      pose proof (graph_body v h c0 Hc0) as HBh. fold B in HBh.
      assert (<[Hex x:=Body x]> B !! h = Some (Body c0)) as HBh' by (by rewrite lookup_insert_ne).
      pose proof (below_anc ps _ _ _ _ _ _ _ Hdag' HlaX HBh') as Hbelow.
      destruct (decide (j = id)) as [->|Hij].
      * assert (p = Creator x) as -> by (by eapply (proj2 (dag_ids _ _ _ _ Hdag))).
        edestruct (fd_spec_old_creator ps B (next_of v) (last_of v) Hdag (Hex x) (Body x) sp op
          (comet_Index x) HfB eq_refl Hnext eq_refl Hmax Hsp Hlast Hop HopB h d)
          as [Hset Hkeep]; [by eapply Hold|done|].
        assert (unseen id c0 = bool_decide (CIndex d = MaxInt32)) as Hu
          by (unfold unseen; by rewrite Hd).
        unfold mark_one. rewrite Hu.
        destruct (below ps (LastAncestors x) (Body c0)) eqn:Hbl; simpl.
        -- case_bool_decide as Hdm.
           ++ eexists. split; [unfold set_fd; simpl; rewrite coord_at_insert by lia;
                               by rewrite decide_True|].
              apply Hset; [by apply Hbelow|done].
           ++ exists d. split; [done|]. apply Hkeep. by right.
        -- exists d. split; [done|]. apply Hkeep. left. intros Ha. apply Hbelow in Ha. congruence.
      * exists d. split.
        { unfold mark_one. destruct (_ && _); [|done]. unfold set_fd. simpl.
          rewrite coord_at_insert by lia. by rewrite decide_False. }
        eapply fd_spec_old_other; eauto.
        change (b_creator (Body x)) with (Creator x). intros ->. congruence.
Qed.
End Ancestry.
