(* ===== verification/Insert.v ===== *)
(** [InsertComet] on the graph: the coordinates it computes are the last ancestors and
    the first descendants of the graph with the new comet, for every store that
    satisfies the laws of [Store.v]. *)
From S2P Require Import Prelude Lru Bytes Types Caches Store CometGraph Ancestry.
Open Scope Z_scope.

(** A numbering without gaps uses every number. *)
Lemma ids_ok_surj ps i :
  ids_ok ps → 0 ≤ i < Z.of_nat (base.size ps) → ∃ p, ps !! p = Some i.
Proof.
  intros [Hrange Hinj] Hi.
  set (l := (map_to_list ps).*2).
  assert (NoDup l) as Hnd.
  { apply NoDup_fmap_2_strong; [|apply NoDup_map_to_list].
    intros [p a] [p' a'] Hp Hp' Heq. simpl in Heq. subst a'.
    apply elem_of_map_to_list in Hp, Hp'. by rewrite (Hinj p p' a Hp Hp'). }
  assert (l ⊆+ seqZ 0 (Z.of_nat (base.size ps))) as Hsub.
  { apply NoDup_submseteq; [done|]. intros a Ha.
    apply list_elem_of_fmap in Ha as ([p a'] & -> & Hp). apply elem_of_map_to_list in Hp.
    apply elem_of_seqZ. simpl. specialize (Hrange p a' Hp). lia. }
  apply submseteq_length_Permutation in Hsub as Hperm.
  2:{ unfold l. rewrite length_fmap, length_map_to_list, length_seqZ. lia. }
  assert (i ∈ l) as Hin by (rewrite Hperm; apply elem_of_seqZ; lia).
  apply list_elem_of_fmap in Hin as ([p a] & -> & Hp). apply elem_of_map_to_list in Hp. eauto.
Qed.

Section Insert.
Context `{RangeOrder, Crypto} {S : Type} `{Store S, !StoreLaws S}.
Implicit Types (g : CometGraph (S := S)) (v : content).
Abbreviation G := (M (CometGraph (S := S))).

(** ** Calls to the store *)

(** [g] is [g0] with a store that holds [v]. *)
Definition at_store g0 v g : Prop :=
  ∃ t, g = upd_store t g0 ∧ store_ok t ∧ view t = v.

Lemma at_store_refl g : store_ok (store g) → at_store g (view (store g)) g.
Proof. intros. exists (store g). by destruct g. Qed.

Lemma at_store_upd g0 v g t v' :
  at_store g0 v g → store_ok t → view t = v' → at_store g0 v' (upd_store t g).
Proof. intros (t0 & -> & _ & _) Ht Hv. by exists t. Qed.

Lemma at_store_Participants g0 v g : at_store g0 v g → Participants g = Participants g0.
Proof. by intros (t & -> & _). Qed.

Lemma wp_try_GetComet g0 v g k (Q : outcome (gerror + Comet) → CometGraph → Prop) :
  at_store g0 v g →
  (∀ g', at_store g0 v g' →
     match comets v !! k with
     | Some c => Q (Ret (inr c)) g'
     | None => ∀ e, Q (Ret (inl e)) g'
     end) →
  wp (try (stm (st_GetComet k))) g Q.
Proof.
  intros Hat HQ. apply wp_try, wp_zoom.
  pose proof Hat as (t & -> & Hok & Hv). cbn [store upd_store].
  eapply wp_mono; [by apply law_GetComet|]. intros o t' (Ho & Hok' & Hv').
  specialize (HQ (upd_store t' (upd_store t g0)) ltac:(eapply at_store_upd; eauto; congruence)).
  rewrite Hv in Ho. destruct (comets v !! k); simpl in Ho; [by rewrite Ho|].
  destruct Ho as [? ->]. apply HQ.
Qed.

Definition found {A} (r : gerror + A) : option A :=
  match r with inr a => Some a | inl _ => None end.

Lemma wp_try_GetComet_sum g0 v g k (Q : outcome (gerror + Comet) → CometGraph → Prop) :
  at_store g0 v g →
  (∀ g' r, at_store g0 v g' → comets v !! k = found r → Q (Ret r) g') →
  wp (try (stm (st_GetComet k))) g Q.
Proof.
  intros Hat HQ. eapply wp_try_GetComet; [done|]. intros g' Hg'.
  destruct (comets v !! k); [|intros e]; by apply HQ.
Qed.

Lemma wp_GetComet g0 v g k c (Q : outcome Comet → CometGraph → Prop) :
  at_store g0 v g → comets v !! k = Some c →
  (∀ g', at_store g0 v g' → Q (Ret c) g') →
  wp (stm (st_GetComet k)) g Q.
Proof.
  intros Hat Hc HQ. apply wp_zoom.
  pose proof Hat as (t & -> & Hok & Hv). cbn [store upd_store].
  eapply wp_mono; [by apply law_GetComet|]. intros o t' (Ho & Hok' & Hv').
  rewrite Hv, Hc in Ho. simpl in Ho. rewrite Ho. apply HQ.
  eapply at_store_upd; eauto; congruence.
Qed.

Lemma wp_LastEventFrom g0 v g p (Q : outcome (string * bool) → CometGraph → Prop) :
  at_store g0 v g →
  (∀ g', at_store g0 v g' → Q (last_event_answer v p) g') →
  wp (stm (st_LastEventFrom p)) g Q.
Proof.
  intros Hat HQ. apply wp_zoom.
  pose proof Hat as (t & -> & Hok & Hv). cbn [store upd_store].
  eapply wp_mono; [by apply law_LastEventFrom|]. intros o t' (-> & Hok' & Hv').
  rewrite Hv. apply HQ. eapply at_store_upd; eauto; congruence.
Qed.

Lemma wp_GetRoot g0 v g p root (Q : outcome Root → CometGraph → Prop) :
  at_store g0 v g → store_roots v !! p = Some root →
  (∀ g', at_store g0 v g' → Q (Ret root) g') →
  wp (stm (st_GetRoot p)) g Q.
Proof.
  intros Hat Hr HQ. apply wp_zoom.
  pose proof Hat as (t & -> & Hok & Hv). cbn [store upd_store].
  eapply wp_mono; [by apply law_GetRoot|]. intros o t' (Ho & Hok' & Hv').
  rewrite Hv, Hr in Ho. simpl in Ho. rewrite Ho. apply HQ.
  eapply at_store_upd; eauto; congruence.
Qed.

Lemma wp_SetComet_old g0 v g c (Q : outcome unit → CometGraph → Prop) :
  at_store g0 v g → is_Some (comets v !! Hex c) →
  (∀ g', at_store g0 (set_comets (<[Hex c := c]> (comets v)) v) g' → Q (Ret tt) g') →
  wp (stm (st_SetComet c)) g Q.
Proof.
  intros Hat Hc HQ. apply wp_zoom.
  pose proof Hat as (t & -> & Hok & Hv). cbn [store upd_store].
  eapply wp_mono; [apply law_SetComet_old; [done|by rewrite Hv]|].
  intros o t' (-> & Hok' & Hv'). apply HQ. eapply at_store_upd; eauto. by rewrite Hv', Hv.
Qed.

(** ** The walk down a chain of self-parents *)

Definition len_ok (ps : gmap string Z) (m : gmap string Comet) : Prop :=
  ∀ h c, m !! h = Some c → length (FirstDescendants c) = base.size ps.

(** Below [k], the events of [q] that have a first descendant for [i] are a prefix. *)
Definition seen_prefix (i : Z) (q : string) (k : Z) (m : gmap string Comet) : Prop :=
  ∀ h1 c1 h2 c2, m !! h1 = Some c1 → m !! h2 = Some c2 →
    Creator c1 = q → Creator c2 = q → comet_Index c2 ≤ comet_Index c1 ≤ k →
    unseen i c1 = false → unseen i c2 = false.

(** The events of [q] up to index [k]. *)
Definition upto (q : string) (k : Z) (b : CometBody) : bool :=
  bool_decide (b_creator b = q) && bool_decide (b_index b ≤ k).

Lemma set_comets_id v : set_comets (comets v) v = v.
Proof. by destruct v. Qed.

Lemma unseen_index i a d :
  0 ≤ i → index (FirstDescendants a) i = Ret d → unseen i a = bool_decide (CIndex d = MaxInt32).
Proof.
  intros Hi. unfold index, unseen, coord_at. rewrite decide_True by done.
  destruct (_ !! _); by intros [= ->].
Qed.

Lemma insert_as_mark ps next last i me m ah a :
  dag_ok ps (Body <$> m) next last → m !! ah = Some a → unseen i a = true →
  <[ah := set_fd i me a]> m =
    mark i me (λ b, bool_decide (b_creator b = Creator a) && bool_decide (b_index b = comet_Index a)) m.
Proof.
  intros Hd Ha Hu. unfold mark. apply map_eq. intros h. rewrite lookup_fmap.
  destruct (decide (h = ah)) as [->|Hne].
  - rewrite lookup_insert_eq, Ha. simpl. unfold mark_one. rewrite Hu.
    by rewrite !bool_decide_eq_true_2.
  - rewrite lookup_insert_ne by done. destruct (m !! h) as [c|] eqn:Hc; [|done]. simpl.
    f_equal. unfold mark_one. destruct (_ && unseen i c) eqn:HP; [|done]. exfalso.
    apply andb_true_iff in HP as [HP _]. apply andb_true_iff in HP as [Hq%bool_decide_eq_true Hk%bool_decide_eq_true].
    apply Hne. eapply (dag_uniq _ _ _ _ Hd); [by rewrite lookup_fmap, Hc|by rewrite lookup_fmap, Ha|..]; done.
Qed.

Lemma mark_lookup_inv i me P m h c' :
  mark i me P m !! h = Some c' → ∃ c, m !! h = Some c ∧ c' = mark_one i me P c.
Proof. unfold mark. intros (c & <- & Hc)%lookup_fmap_Some. eauto. Qed.

Lemma len_ok_mark ps i me P m : len_ok ps m → len_ok ps (mark i me P m).
Proof.
  intros Hl h c' (c & Hc & ->)%mark_lookup_inv. specialize (Hl h c Hc).
  unfold mark_one. destruct (_ && _); [|done]. simpl. by rewrite length_insert.
Qed.

(** Marking outside the events in question does not disturb a prefix. *)
Lemma seen_prefix_mark i me P q k k' m :
  seen_prefix i q k m → k' ≤ k →
  (∀ h c, m !! h = Some c → Creator c = q → comet_Index c ≤ k' → P (Body c) = false) →
  seen_prefix i q k' (mark i me P m).
Proof.
  intros Hp Hk HP h1 c1' h2 c2' (c1 & Hc1 & ->)%mark_lookup_inv (c2 & Hc2 & ->)%mark_lookup_inv.
  unfold Creator, comet_Index. rewrite !Body_mark_one.
  intros Hq1 Hq2 Hle Hu. unfold mark_one in *.
  rewrite (HP h1 c1 Hc1 Hq1) in Hu by (unfold comet_Index; lia).
  rewrite (HP h2 c2 Hc2 Hq2) by (unfold comet_Index; lia).
  simpl in *. eapply (Hp h1 c1 h2 c2); eauto. unfold comet_Index. lia.
Qed.

Lemma mark_stop ps next last i me m ah a :
  dag_ok ps (Body <$> m) next last → m !! ah = Some a → unseen i a = false →
  seen_prefix i (Creator a) (comet_Index a) m →
  mark i me (upto (Creator a) (comet_Index a)) m = m.
Proof.
  intros Hd Ha Hu Hp. apply mark_none. intros h c Hc Huc.
  destruct (upto _ _ _) eqn:HP; [|done]. exfalso.
  apply andb_true_iff in HP as [Hq%bool_decide_eq_true Hk%bool_decide_eq_true].
  enough (unseen i c = false) by congruence.
  eapply (Hp ah a h c); eauto. unfold comet_Index, b_index in *. lia.
Qed.

Lemma mark_go i me q k m :
  CIndex me ≠ MaxInt32 →
  mark i me (upto q (k - 1)) (mark i me
     (λ b, bool_decide (b_creator b = q) && bool_decide (b_index b = k)) m)
  = mark i me (upto q k) m.
Proof.
  intros Hme. rewrite mark_mark by done. apply mark_ext. intros h c _ _. unfold upto.
  rewrite <-andb_orb_distrib_r. f_equal. rewrite <-bool_decide_or. apply bool_decide_ext. lia.
Qed.

Lemma walk_spec ps next last fuel i me g0 : ∀ v g ah a,
  dag_ok ps (Body <$> comets v) next last → len_ok ps (comets v) →
  0 ≤ i < Z.of_nat (base.size ps) → CIndex me ≠ MaxInt32 →
  comets v !! ah = Some a → seen_prefix i (Creator a) (comet_Index a) (comets v) →
  comet_Index a < Z.of_nat fuel → at_store g0 v g →
  wp (walk_ancestors fuel i me ah) g (λ o g', o = Ret tt ∧
    at_store g0 (set_comets (mark i me (upto (Creator a) (comet_Index a)) (comets v)) v) g').
Proof.
  induction fuel as [|fuel IH]; intros v g ah a Hd Hlen Hi Hme Ha Hp Hfuel Hat.
  { pose proof (dag_index_lt_max _ _ _ _ ah (Body a) Hd ltac:(by apply graph_body)).
    unfold comet_Index, b_index in *. lia. }
  pose proof (graph_body v ah a Ha) as HBa.
  assert (ah ≠ "") as Hne by (intros ->; by rewrite (dag_ne_empty _ _ _ _ Hd) in HBa).
  assert (Hex a = ah) as Hhex by exact (dag_name _ _ _ _ Hd _ _ HBa).
  cbn [walk_ancestors]. rewrite bool_decide_eq_false_2 by done.
  apply wp_bind. eapply wp_try_GetComet; [done|]. rewrite Ha. intros g1 Hat1.
  destruct (index_in_range (FirstDescendants a) i) as (d & Hd1 & Hd2);
    [by rewrite (Hlen ah a Ha)|].
  apply wp_bind. rewrite Hd1. unfold wp at 1, lift at 1. cbn [fst snd].
  pose proof (unseen_index i a d ltac:(lia) Hd1) as Hu.
  case_bool_decide as Hdm.
  2:{ apply wp_ret. rewrite (mark_stop ps next last i me _ ah); [by rewrite set_comets_id|done..|].
      done. }
  apply wp_bind. rewrite set_index_Ret by (by rewrite (Hlen ah a Ha)).
  unfold wp at 1, lift at 1. cbn [fst snd]. fold (set_fd i me a).
  apply wp_bind. eapply wp_SetComet_old; [done| |].
  { change (Hex (set_fd i me a)) with (Hex a). rewrite Hhex. by eexists. }
  change (Hex (set_fd i me a)) with (Hex a). rewrite Hhex.
  rewrite (insert_as_mark ps next last) by (rewrite ?Hu; auto using bool_decide_eq_true_2). intros g2 Hat2.
  set (P1 := λ b, bool_decide (b_creator b = Creator a) && bool_decide (b_index b = comet_Index a)) in *.
  apply wp_bind. unfold wp at 1, lift at 1. cbn [fst snd].
  destruct (dag_self _ _ _ _ Hd _ _ HBa) as [[Hi0 Hs]|(sp & bs & Hs & Hbs & Hcs & His)];
    change (b_self (Body a)) with (SelfParent a) in Hs; rewrite Hs.
  - replace (walk_ancestors fuel i me "") with (mret tt : G unit) by (by destruct fuel).
    apply wp_ret. split; [done|].
    rewrite (mark_ext _ _ (upto (Creator a) (comet_Index a)) P1); [done|].
    intros h c Hc _. unfold upto, P1. f_equal. apply bool_decide_ext.
    pose proof (dag_index_lt_max _ _ _ _ h (Body c) Hd ltac:(by apply graph_body)).
    unfold comet_Index, b_index in *. lia.
  - rewrite lookup_fmap in Hbs. apply fmap_Some in Hbs as (s & Hsl & ->).
    set (v2 := set_comets (mark i me P1 (comets v)) v) in *.
    assert (comets v2 !! sp = Some s) as Hs2.
    { unfold v2. simpl. unfold mark. rewrite lookup_fmap, Hsl. simpl. f_equal.
      unfold mark_one. rewrite (proj2 (andb_false_iff (P1 (Body s)) _)); [done|]. left.
      unfold P1. apply andb_false_iff. right. apply bool_decide_eq_false_2.
      unfold comet_Index, b_index in *. lia. }
    assert (Creator s = Creator a) as Hcc by exact Hcs.
    assert (comet_Index s = comet_Index a - 1) as Hii by exact His.
    eapply wp_mono.
    + apply (IH v2 g2 sp s); try done.
      * unfold v2. simpl. by rewrite Body_mark.
      * by apply len_ok_mark.
      * rewrite Hcc, Hii. unfold v2. simpl.
        eapply seen_prefix_mark; [done|lia|]. intros h c _ _ Hle.
        unfold P1. apply andb_false_iff. right. apply bool_decide_eq_false_2.
        unfold comet_Index, b_index in *. lia.
      * lia.
    + intros o g' [-> Hg']. split; [done|]. rewrite Hcc, Hii in Hg'. unfold v2 in Hg'. simpl in Hg'.
      unfold P1 in Hg'. by rewrite mark_go in Hg'.
Qed.

(** ** The loop over the last ancestors *)

Definition below_first (ps : gmap string Z) (la : list EventCoordinates) (j : nat) (b : CometBody) : bool :=
  below ps la b && match ps !! b_creator b with
                   | Some id => bool_decide (id < Z.of_nat j)
                   | None => false
                   end.

Lemma below_first_all ps la b :
  ids_ok ps → length la = base.size ps → below_first ps la (length la) b = below ps la b.
Proof.
  intros [Hids _] Hlen. unfold below_first, below. destruct (ps !! b_creator b) as [id|] eqn:Hid; [|done].
  specialize (Hids _ _ Hid). rewrite (bool_decide_eq_true_2 (id < _)) by lia. by rewrite andb_true_r.
Qed.

(** One more coordinate adds the events of its participant. *)
Lemma below_first_S ps la j p a b :
  ids_ok ps → ps !! p = Some (Z.of_nat j) → la !! j = Some a →
  below_first ps la (Datatypes.S j) b = upto p (CIndex a) b || below_first ps la j b.
Proof.
  intros [Hrange Hinj] Hp Ha. unfold below_first, upto, below.
  destruct (decide (b_creator b = p)) as [->|Hne].
  - rewrite Hp. unfold coord_at. rewrite Nat2Z.id, Ha.
    rewrite (bool_decide_eq_true_2 (Z.of_nat j < Z.of_nat (Datatypes.S j))) by lia.
    rewrite (bool_decide_eq_false_2 (Z.of_nat j < Z.of_nat j)) by lia.
    rewrite (bool_decide_eq_true_2 (p = p)) by done.
    by rewrite andb_true_r, andb_false_r, orb_false_r.
  - rewrite (bool_decide_eq_false_2 (b_creator b = p)) by done. simpl.
    destruct (ps !! b_creator b) as [id|] eqn:Hid; [|by rewrite andb_false_r].
    f_equal. apply bool_decide_ext.
    assert (id ≠ Z.of_nat j) by (intros ->; by destruct Hne; eapply Hinj).
    lia.
Qed.

Lemma walk_empty fuel i me : walk_ancestors fuel i me "" = (mret tt : G unit).
Proof. by destruct fuel. Qed.

Lemma update_spec ps next last fuel x i v g0 g :
  Participants g0 = ps → dag_ok ps (Body <$> comets v) next last → len_ok ps (comets v) →
  ps !! Creator x = Some i → comet_Index x ≠ MaxInt32 →
  la_ok ps (Body <$> comets v) (Hex x) (LastAncestors x) →
  (∀ q k, seen_prefix i q k (comets v)) →
  (∀ h c, comets v !! h = Some c → comet_Index c < Z.of_nat fuel) →
  at_store g0 v g →
  wp (UpdateAncestorFirstDescendant fuel x) g (λ o g', o = Ret tt ∧
    at_store g0 (set_comets (mark i (mkCoord (Hex x) (comet_Index x))
                               (below ps (LastAncestors x)) (comets v)) v) g').
Proof.
  intros Hps Hd Hlen Hi Hmax [Hlal Hla] Hpre Hfuel Hat.
  pose proof (dag_ids _ _ _ _ Hd) as Hids. pose proof (proj1 Hids _ _ Hi) as Hir.
  unfold UpdateAncestorFirstDescendant. apply wp_bind. unfold wp at 1, gets. cbn [fst snd].
  rewrite (at_store_Participants _ _ _ Hat), Hps, Hi.
  set (me := mkCoord (Hex x) (comet_Index x)) in *. set (la := LastAncestors x) in *.
  set (after j := set_comets (mark i me (below_first ps la j) (comets v)) v).
  eapply (wp_for_each _ (λ l g', ∃ j, l = drop j la ∧ j ≤ length la ∧ at_store g0 (after j) g')%nat).
  - exists 0%nat. rewrite drop_0. split; [done|]. split; [lia|]. unfold after.
    rewrite mark_none; [by rewrite set_comets_id|]. intros h c _ _. unfold below_first.
    apply andb_false_iff. right. destruct (ps !! b_creator (Body c)) as [id|] eqn:Hid; [|done].
    apply bool_decide_eq_false_2. pose proof (proj1 Hids _ _ Hid). lia.
  - intros a l' g' (j & Hl & Hj & Hg').
    assert (la !! j = Some a) as Ha.
    { rewrite <-(Nat.add_0_r j), <-lookup_drop, <-Hl. done. }
    assert (l' = drop (Datatypes.S j) la) as Hl'.
    { rewrite (drop_S la a j Ha) in Hl. congruence. }
    pose proof (lookup_lt_Some _ _ _ Ha) as Hjl.
    destruct (ids_ok_surj ps (Z.of_nat j) Hids ltac:(lia)) as [p Hp].
    destruct (Hla p _ Hp) as (a' & Ha' & Hcoord & _).
    unfold coord_at in Ha'. rewrite Nat2Z.id, Ha in Ha'. injection Ha' as <-.
    assert (∀ h c, comets v !! h = Some c → below_first ps la (Datatypes.S j) (Body c) =
              upto p (CIndex a) (Body c) || below_first ps la j (Body c)) as HS
      by (intros; by apply below_first_S).
    destruct Hcoord as [->|(b & Hb & Hcb & Hib)].
    + cbn [Hash]. rewrite walk_empty. apply wp_ret. exists (Datatypes.S j).
      split; [done|]. split; [lia|]. unfold after in *.
      rewrite (mark_ext _ _ _ (below_first ps la j)); [done|].
      intros h c Hc _. rewrite (HS h c Hc). unfold upto. simpl.
      pose proof (dag_index_lt_max _ _ _ _ h (Body c) Hd ltac:(by apply graph_body)).
      rewrite (bool_decide_eq_false_2 (b_index (Body c) ≤ -1)) by lia. by rewrite andb_false_r.
    + rewrite lookup_fmap in Hb. apply fmap_Some in Hb as (c & Hc & ->).
      assert (below_first ps la j (Body c) = false) as Hnb.
      { unfold below_first. rewrite Hcb, Hp. apply andb_false_iff. right.
        apply bool_decide_eq_false_2. lia. }
      assert (comets (after j) !! Hash a = Some c) as Hc'.
      { unfold after. simpl. unfold mark. rewrite lookup_fmap, Hc. simpl. f_equal.
        unfold mark_one. by rewrite Hnb. }
      eapply wp_mono.
      * eapply (walk_spec ps next last fuel i me g0 (after j) g' (Hash a) c); try done.
        -- unfold after. simpl. by rewrite Body_mark.
        -- by apply len_ok_mark.
        -- unfold after. simpl. eapply seen_prefix_mark; [apply (Hpre _ (comet_Index c))|lia|].
           intros h c2 _ Hc2 _. unfold below_first.
           change (b_creator (Body c2)) with (Creator c2). rewrite Hc2.
           change (Creator c) with (b_creator (Body c)). rewrite Hcb, Hp.
           apply andb_false_iff. right. apply bool_decide_eq_false_2. lia.
        -- by apply (Hfuel (Hash a)).
      * intros o g'' [-> Hg'']. exists (Datatypes.S j). split; [done|]. split; [lia|].
        unfold after in *. simpl in Hg''. rewrite mark_mark in Hg'' by done.
        change (Creator c) with (b_creator (Body c)) in Hg''.
        change (comet_Index c) with (b_index (Body c)) in Hg''. rewrite Hcb, Hib in Hg''.
        rewrite (mark_ext _ _ (below_first ps la (Datatypes.S j))
          (λ b, upto p (CIndex a) b || below_first ps la j b)); [done|].
        intros h c2 Hc2 _. by apply (HS h).
  - intros g' (j & Hl & Hj & Hg'). split; [done|].
    assert (j = length la) as ->.
    { apply (f_equal length) in Hl. rewrite length_drop in Hl. simpl in Hl. lia. }
    unfold after in Hg'. rewrite (mark_ext _ _ _ (below_first ps la (length la))); [done|].
    intros. by rewrite below_first_all.
Qed.

(** ** The coordinates of the new comet *)

Lemma copy_coords_id n src : length src = n → copy_coords n src = src.
Proof. intros <-. unfold copy_coords. by rewrite firstn_all, Nat.sub_diag, app_nil_r. Qed.

Lemma max_coords_zip la other :
  length la = length other →
  max_coords la other =
    Ret (zip_with (λ a b, if bool_decide (CIndex a < CIndex b) then b else a) la other).
Proof.
  revert other. induction la as [|a la IH]; intros [|b other] Hl; try done.
  simpl. rewrite IH by (simpl in Hl; lia). done.
Qed.

(** What the comet's parents know of a participant. *)
Definition parent_la v (h : string) (id : Z) : option EventCoordinates :=
  c ← comets v !! h; coord_at (LastAncestors c) id.

Lemma parent_coord_la ps v h p id :
  graph_ok ps v → ps !! p = Some id →
  parent_coord (Body <$> comets v) h p (parent_la v h id).
Proof.
  intros Hg Hp. unfold parent_la. destruct (comets v !! h) as [c|] eqn:Hc; simpl.
  - destruct (proj2 (g_la _ _ Hg h c Hc) p id Hp) as (a & -> & Ha). simpl.
    split; [|done]. rewrite lookup_fmap, Hc. by eexists.
  - by rewrite lookup_fmap, Hc.
Qed.

Definition merged_la n (os oo : option Comet) : outcome (list EventCoordinates) :=
  match os, oo with
  | None, None => Ret (replicate n (mkCoord "" (-1)))
  | None, Some o => Ret (copy_coords n (LastAncestors o))
  | Some s, None => Ret (copy_coords n (LastAncestors s))
  | Some s, Some o => max_coords (copy_coords n (LastAncestors s)) (LastAncestors o)
  end.

Lemma merged_la_pick ps v sp op :
  graph_ok ps v →
  ∃ L, merged_la (base.size ps) (comets v !! sp) (comets v !! op) = Ret L ∧
    length L = base.size ps ∧
    ∀ id, 0 ≤ id < Z.of_nat (base.size ps) →
      coord_at L id = Some (pick (parent_la v sp id) (parent_la v op id)).
Proof.
  intros Hg. set (n := base.size ps).
  assert (∀ h c, comets v !! h = Some c → length (LastAncestors c) = n) as Hlen
    by (intros h c Hc; apply (g_la _ _ Hg h c Hc)).
  assert (∀ h c id, comets v !! h = Some c → 0 ≤ id < Z.of_nat n →
            ∃ a, coord_at (LastAncestors c) id = Some a) as Hget.
  { intros h c id Hc Hid. apply lookup_lt_is_Some_2. rewrite (Hlen h c Hc). lia. }
  unfold merged_la, parent_la.
  destruct (comets v !! sp) as [s|] eqn:Hs, (comets v !! op) as [o|] eqn:Ho; simpl;
    rewrite ?copy_coords_id by eauto.
  - pose proof (Hlen _ _ Hs). pose proof (Hlen _ _ Ho).
    rewrite max_coords_zip by congruence. eexists. split; [done|].
    rewrite length_zip_with_l_eq by congruence. split; [done|]. intros id Hid.
    destruct (Hget _ _ id Hs Hid) as [a Ha], (Hget _ _ id Ho Hid) as [b Hb].
    unfold coord_at in *. rewrite lookup_zip_with, Ha, Hb. done.
  - eexists. split; [done|]. split; [eauto|]. intros id Hid.
    destruct (Hget _ _ id Hs Hid) as [a Ha]. by rewrite Ha.
  - eexists. split; [done|]. split; [eauto|]. intros id Hid.
    destruct (Hget _ _ id Ho Hid) as [a Ha]. by rewrite Ha.
  - eexists. split; [done|]. rewrite length_replicate. split; [done|]. intros id Hid.
    unfold coord_at. simpl. apply lookup_replicate_2. lia.
Qed.

(** A comet that extends the graph: its creator's next event, on known parents. *)
Record extends (ps : gmap string Z) v (x : Comet) (id : Z) (sp op : string) : Prop := {
  ex_fresh : comets v !! Hex x = None;
  ex_creator : ps !! Creator x = Some id;
  ex_next : next_of v !! Creator x = Some (comet_Index x);
  ex_max : comet_Index x < MaxInt32;
  ex_sp : SelfParent x = Ret sp;
  ex_last : last_of v !! Creator x = Some sp;
  ex_op : OtherParent x = Ret op;
  ex_known : op = "" ∨ is_Some (comets v !! op)
}.

Lemma extends_fields ps v x x' id sp op :
  fields (Body x') = fields (Body x) → extends ps v x id sp op → extends ps v x' id sp op.
Proof.
  intros Heq [? ? ? ? ? ? ? ?].
  assert (Hex x' = Hex x) as Hh by (unfold Hex, body_Hash; by rewrite Heq).
  unfold Creator, SelfParent, OtherParent, comet_Index in *.
  split; unfold Creator, SelfParent, OtherParent, comet_Index; rewrite ?Hh, ?Heq; done.
Qed.

Lemma init_la_ok ps v x id sp op L :
  graph_ok ps v → extends ps v x id sp op → length L = base.size ps →
  (∀ i, 0 ≤ i < Z.of_nat (base.size ps) →
     coord_at L i = Some (pick (parent_la v sp i) (parent_la v op i))) →
  la_ok ps (<[Hex x := Body x]> (Body <$> comets v)) (Hex x)
    (<[Z.to_nat id := mkCoord (Hex x) (comet_Index x)]> L).
Proof.
  intros Hg [Hfresh Hid Hnext Hmax Hsp Hlast Hop Hk] Hlen HL.
  pose proof (g_dag _ _ Hg) as Hd. pose proof (proj1 (dag_ids _ _ _ _ Hd)) as Hr.
  assert ((Body <$> comets v) !! Hex x = None) as HfB by (by rewrite lookup_fmap, Hfresh).
  assert (op = "" ∨ is_Some ((Body <$> comets v) !! op)) as HkB
    by (by rewrite lookup_fmap, fmap_is_Some).
  split; [by rewrite length_insert|]. intros p j Hp.
  rewrite coord_at_insert; [|rewrite Hlen; eauto|destruct (Hr _ _ Hp); done].
  destruct (decide (id = j)) as [->|Hne].
  - assert (p = Creator x) as -> by (by eapply (proj2 (dag_ids _ _ _ _ Hd))).
    eexists. split; [done|]. eapply la_spec_me; eauto.
  - eexists. split; [by apply HL; eauto|].
    eapply la_spec_pick; eauto using parent_coord_la.
    change (b_creator (Body x)) with (Creator x). intros ->. congruence.
Qed.

Lemma init_spec ps v x id sp op g0 g :
  Participants g0 = ps → graph_ok ps v → extends ps v x id sp op → at_store g0 v g →
  wp (InitEventCoordinates x) g (λ o g', ∃ la,
    o = Ret (set_coordinates la (<[Z.to_nat id := mkCoord (Hex x) (comet_Index x)]>
               (replicate (base.size ps) (mkCoord "" MaxInt32))) x) ∧
    la_ok ps (<[Hex x := Body x]> (Body <$> comets v)) (Hex x) la ∧ at_store g0 v g').
Proof.
  intros Hps Hg Hx Hat. pose proof (proj1 (dag_ids _ _ _ _ (g_dag _ _ Hg)) _ _ (ex_creator _ _ _ _ _ _ Hx)) as Hr.
  destruct (merged_la_pick ps v sp op Hg) as (L & HL & Hlen & HLs).
  unfold InitEventCoordinates. apply wp_gets_bind.
  rewrite (at_store_Participants _ _ _ Hat), Hps.
  eapply wp_lift_bind; [exact (ex_sp _ _ _ _ _ _ Hx)|].
  apply wp_bind. eapply wp_try_GetComet_sum; [done|]. intros g1 rs Hat1 Hrs.
  eapply wp_lift_bind; [exact (ex_op _ _ _ _ _ _ Hx)|].
  apply wp_bind. eapply wp_try_GetComet_sum; [done|]. intros g2 ro Hat2 Hro.
  rewrite Hrs, Hro in HL. unfold merged_la in HL.
  eapply wp_lift_bind; [rewrite <-HL; by destruct rs, ro|].
  rewrite (ex_creator _ _ _ _ _ _ Hx). cbn zeta.
  eapply wp_lift_bind; [apply set_index_Ret; rewrite length_replicate; lia|].
  eapply wp_lift_bind; [apply set_index_Ret; rewrite Hlen; lia|].
  apply wp_ret. eauto using init_la_ok.
Qed.

(** ** The whole insertion *)

Lemma graph_len_ok ps v : graph_ok ps v → len_ok ps (comets v).
Proof. intros Hg h c Hc. apply (g_fd _ _ Hg h c Hc). Qed.

(** Whoever has seen an event has seen the earlier ones of its creator. *)
Lemma graph_seen_down ps v p id h1 c1 h2 c2 :
  graph_ok ps v → ps !! p = Some id →
  comets v !! h1 = Some c1 → comets v !! h2 = Some c2 →
  Creator c1 = Creator c2 → comet_Index c2 ≤ comet_Index c1 →
  unseen id c1 = false → unseen id c2 = false.
Proof.
  intros Hg Hp Hc1 Hc2 Hc Hle. pose proof (g_dag _ _ Hg) as Hd.
  destruct (proj2 (g_fd _ _ Hg h1 c1 Hc1) p id Hp) as (d1 & Hd1 & Hn1 & Hs1).
  destruct (proj2 (g_fd _ _ Hg h2 c2 Hc2) p id Hp) as (d2 & Hd2 & Hn2 & Hs2).
  unfold unseen. rewrite Hd1, Hd2, !bool_decide_eq_false. intros Hseen Heq.
  destruct Hn1 as [->|(b & Hb & Hcb & Hib)]; [done|].
  assert (anc (Body <$> comets v) (Hash d1) h2) as Ha.
  { eapply anc_trans; [apply (Hs1 _ _ Hb Hcb); lia|].
    eapply (anc_same_creator ps); eauto using graph_body. }
  apply (Hs2 _ _ Hb Hcb) in Ha. pose proof (dag_index_lt_max _ _ _ _ _ _ Hd Hb). lia.
Qed.

(** A participant has seen its own events. *)
Lemma graph_seen_own ps v id h c :
  graph_ok ps v → ps !! Creator c = Some id → comets v !! h = Some c → unseen id c = false.
Proof.
  intros Hg Hid Hc. pose proof (g_dag _ _ Hg) as Hd. pose proof (graph_body v h c Hc) as Hb.
  destruct (proj2 (g_fd _ _ Hg h c Hc) _ id Hid) as (d & Hd' & _ & Hs).
  unfold unseen. rewrite Hd'. apply bool_decide_eq_false_2. intros Heq.
  pose proof (proj1 (Hs h (Body c) Hb eq_refl) (anc_refl _ _)).
  pose proof (dag_index_lt_max _ _ _ _ _ _ Hd Hb). lia.
Qed.

Lemma seen_prefix_insert ps v x id sp op q k :
  graph_ok ps v → extends ps v x id sp op → unseen id x = false →
  seen_prefix id q k (<[Hex x := x]> (comets v)).
Proof.
  intros Hg Hx Hux h1 c1 h2 c2 Hc1 Hc2 Hq1 Hq2 Hle Hu.
  apply lookup_insert_Some in Hc2 as [[_ <-]|[_ Hc2]]; [done|].
  apply lookup_insert_Some in Hc1 as [[_ <-]|[_ Hc1]].
  - eapply graph_seen_own; eauto. rewrite Hq2, <-Hq1. apply (ex_creator _ _ _ _ _ _ Hx).
  - eapply (graph_seen_down _ _ _ _ h1 c1 h2 c2 Hg (ex_creator _ _ _ _ _ _ Hx)); eauto;
      [congruence|lia].
Qed.

Lemma graph_ok_blocks ps m v : graph_ok ps v → graph_ok ps (set_blocks m v).
Proof. by intros [? ? ? ?]. Qed.

Definition blocks_ok v : Prop := ∀ i b, blocks v !! i = Some b → bb_Index (b_Body b) = i.

(** A signature whose text parses: checking it answers or fails, and does not panic. *)
Definition sig_ok (bs : BlockSignature) : Prop :=
  ∀ b, (∃ r, block_Verify bs b = Ret r) ∨ ∃ e, block_Verify bs b = Fail e.

Lemma recordBlockSignature_spec g0 v g bs :
  sig_ok bs → blocks_ok v → at_store g0 v g →
  wp (recordBlockSignature bs) g (λ o g', o = Ret tt ∧
    ∃ m, blocks_ok (set_blocks m v) ∧ dom m = dom (blocks v) ∧ at_store g0 (set_blocks m v) g').
Proof.
  intros Hsig Hbl Hat.
  assert (∀ g', at_store g0 v g' → ∃ m, blocks_ok (set_blocks m v) ∧ dom m = dom (blocks v) ∧
            at_store g0 (set_blocks m v) g') as Hsame.
  { intros g' Hg'. exists (blocks v). by destruct v. }
  unfold recordBlockSignature. apply wp_gets_bind.
  destruct (Participants g !! _); [|apply wp_ret; eauto].
  apply wp_bind, wp_try, wp_zoom. pose proof Hat as (t & -> & Hok & Hv). cbn [store upd_store].
  eapply wp_mono; [by apply law_GetBlock|]. intros o t' (Ho & Hok' & Hv'). rewrite Hv in Ho.
  assert (at_store g0 v (upd_store t' (upd_store t g0))) as Hat'
    by (eapply at_store_upd; eauto; congruence).
  destruct (blocks v !! bs_Index bs) as [b|] eqn:Hb; simpl in Ho;
    [subst o|destruct Ho as [? ->]; apply wp_ret; eauto].
  apply wp_bind, wp_try. destruct (Hsig b) as [[r ->]|[e ->]]; unfold wp at 1, lift; cbn [fst snd];
    [destruct r|]; [|apply wp_ret; eauto..].
  apply wp_bind, wp_try, wp_zoom. cbn [store upd_store].
  assert (bb_Index (b_Body (SetSignature bs b)) = bs_Index bs) as Hi by exact (Hbl _ b Hb).
  eapply wp_mono.
  { apply law_SetBlock; [done|]. left. rewrite Hi, Hv', Hv, Hb. by eexists. }
  intros o t2 (-> & Hok2 & Hv2). apply wp_ret. split; [done|].
  rewrite Hi, Hv', Hv in Hv2. eexists. split; [|split; [|by eapply at_store_upd; eauto]].
  - intros i b' Hb'. cbn [blocks set_blocks] in Hb'.
    apply lookup_insert_Some in Hb' as [[<- <-]|[_ Hb']]; [done|]. by apply Hbl.
  - rewrite dom_insert_L. apply elem_of_dom_2 in Hb. set_solver.
Qed.

Lemma recordBlockSignatures_spec g0 v g l :
  Forall sig_ok l → blocks_ok v → at_store g0 v g →
  wp (recordBlockSignatures l) g (λ o g', o = Ret tt ∧
    ∃ m, blocks_ok (set_blocks m v) ∧ dom m = dom (blocks v) ∧ at_store g0 (set_blocks m v) g').
Proof.
  intros Hl Hbl Hat. unfold recordBlockSignatures.
  eapply (wp_for_each _ (λ l' g', Forall sig_ok l' ∧ ∃ m, blocks_ok (set_blocks m v) ∧
    dom m = dom (blocks v) ∧ at_store g0 (set_blocks m v) g')).
  - split; [done|]. exists (blocks v). by destruct v.
  - intros bs l' g' [Hbs (m & Hm & Hdom & Hg')]. apply Forall_cons in Hbs as [Hbs Hl'].
    eapply wp_mono; [by apply recordBlockSignature_spec|].
    intros o g'' [-> (m' & Hm' & Hdom' & Hg'')]. split; [done|]. exists m'.
    split; [done|]. split; [simpl in Hdom'; congruence|done].
  - intros g' [_ Hm]. done.
Qed.

(** *** The checks *)

Lemma last_event_extends ps v x id sp op :
  graph_ok ps v → extends ps v x id sp op →
  last_event_answer v (Creator x) = Ret (sp, bool_decide (sp = "")).
Proof.
  intros Hg [_ Hid _ _ _ Hlast _ _]. unfold last_event_answer. rewrite Hlast.
  case_bool_decide as Hsp; [|done]. rewrite (g_roots _ _ Hg) by (by eexists). by subst sp.
Qed.

Lemma CheckSelfParent_spec ps v x id sp op g0 g :
  graph_ok ps v → extends ps v x id sp op → at_store g0 v g →
  wp (CheckSelfParent x) g (λ o g', o = Ret tt ∧ at_store g0 v g').
Proof.
  intros Hg Hx Hat. unfold CheckSelfParent.
  eapply wp_lift_bind; [exact (ex_sp _ _ _ _ _ _ Hx)|].
  apply wp_bind. eapply wp_LastEventFrom; [done|]. intros g1 Hat1.
  rewrite (last_event_extends ps v x id sp op) by done. cbn [fst].
  rewrite bool_decide_eq_true_2 by done. by apply wp_ret.
Qed.

Lemma CheckOtherParent_spec ps v x id sp op g0 g :
  extends ps v x id sp op → at_store g0 v g →
  wp (CheckOtherParent x) g (λ o g', o = Ret tt ∧ at_store g0 v g').
Proof.
  intros Hx Hat. unfold CheckOtherParent.
  eapply wp_lift_bind; [exact (ex_op _ _ _ _ _ _ Hx)|].
  case_bool_decide; [by apply wp_ret|].
  destruct (ex_known _ _ _ _ _ _ Hx) as [?|[c Hc]]; [done|].
  apply wp_bind. eapply wp_try_GetComet; [done|]. rewrite Hc. intros g1 Hat1. by apply wp_ret.
Qed.

(** *** The wire fields *)

(** The pair that names a parent on the wire. *)
Definition wire_of (ps : gmap string Z) v (h : string) : Z * Z :=
  match comets v !! h with
  | Some o => (default 0 (ps !! Creator o), comet_Index o)
  | None => (-1, -1)
  end.

Definition wired (ps : gmap string Z) v (op : string) (id : Z) (x : Comet) : Comet :=
  comet_SetWireInfo (comet_Index x - 1) (wire_of ps v op).1 (wire_of ps v op).2 id x.

Lemma SetWireInfo_spec ps v x id sp op g0 g :
  Participants g0 = ps → graph_ok ps v → extends ps v x id sp op → at_store g0 v g →
  wp (SetWireInfo x) g (λ o g', o = Ret (wired ps v op id x) ∧ at_store g0 v g').
Proof.
  intros Hps Hg Hx Hat. pose proof (g_dag _ _ Hg) as Hd. unfold SetWireInfo.
  apply wp_bind, wp_try. eapply wp_LastEventFrom; [done|]. intros g1 Hat1.
  rewrite (last_event_extends ps v x id sp op) by done.
  eapply wp_lift_bind; [exact (ex_sp _ _ _ _ _ _ Hx)|].
  apply wp_bind. eapply (wp_mono _ _ (λ o g', o = Ret (comet_Index x - 1) ∧ at_store g0 v g')).
  { destruct (dag_last _ _ _ _ Hd _ _ _ (ex_next _ _ _ _ _ _ Hx) (ex_last _ _ _ _ _ _ Hx))
      as [[H0' ->]|(b & Hb & _ & Hib)].
    - rewrite !bool_decide_eq_true_2 by done. simpl.
      apply wp_bind. eapply wp_GetRoot; [done|apply (g_roots _ _ Hg)|].
      { rewrite (ex_creator _ _ _ _ _ _ Hx). by eexists. }
      intros g2 Hat2. apply wp_ret. by rewrite H0'.
    - assert (sp ≠ "") as Hne by (intros ->; by rewrite (dag_ne_empty _ _ _ _ Hd) in Hb).
      rewrite (bool_decide_eq_false_2 (sp = "")) by done. simpl.
      rewrite lookup_fmap in Hb. apply fmap_Some in Hb as (c & Hc & ->).
      apply wp_bind. eapply wp_GetComet; [done..|]. intros g2 Hat2. apply wp_ret.
      split; [|done]. f_equal. exact Hib. }
  intros o g2 [-> Hat2].
  eapply wp_lift_bind; [exact (ex_op _ _ _ _ _ _ Hx)|].
  apply wp_bind. eapply (wp_mono _ _ (λ o g', o = Ret (wire_of ps v op) ∧ at_store g0 v g')).
  { unfold wire_of. case_bool_decide as Hop.
    - apply wp_ret. subst op. pose proof (dag_ne_empty _ _ _ _ Hd) as Hn.
      rewrite lookup_fmap in Hn. by destruct (comets v !! "").
    - destruct (ex_known _ _ _ _ _ _ Hx) as [?|[c Hc]]; [done|]. rewrite Hc.
      apply wp_bind. eapply wp_GetComet; [done..|]. intros g3 Hat3.
      apply wp_gets_bind. apply wp_ret.
      by rewrite (at_store_Participants _ _ _ Hat3), Hps. }
  intros o g3 [-> Hat3]. apply wp_gets_bind. apply wp_ret. split; [|done].
  by rewrite (at_store_Participants _ _ _ Hat3), Hps, (ex_creator _ _ _ _ _ _ Hx).
Qed.

(** *** Storing the comet and updating its ancestors *)

(** [v1] is [v] with the comet [x] appended to its creator's log. *)
Record appended v (x : Comet) v1 : Prop := {
  ap_comets : comets v1 = <[Hex x := x]> (comets v);
  ap_last : last_of v1 = <[Creator x := Hex x]> (last_of v);
  ap_next : next_of v1 = <[Creator x := comet_Index x + 1]> (next_of v);
  ap_rounds : rounds v1 = rounds v;
  ap_blocks : blocks v1 = blocks v;
  ap_roots : store_roots v1 = store_roots v;
  ap_last_round : last_round v1 = last_round v;
  ap_capacity : capacity v1 = capacity v;
  ap_log : ∀ p i, log_of v1 p i = log_with x v p i;
  ap_members : members v1 = members v
}.

Lemma SetComet_new_spec ps v x id sp op g0 g :
  extends ps v x id sp op → room_comet v → at_store g0 v g →
  wp (stm (st_SetComet x)) g (λ o g', o = Ret tt ∧ ∃ v1, appended v x v1 ∧ at_store g0 v1 g').
Proof.
  intros Hx Hroom Hat. apply wp_zoom.
  pose proof Hat as (t & -> & Hok & Hv). cbn [store upd_store].
  eapply wp_mono.
  { apply law_SetComet_new; [done|by rewrite Hv|..]; rewrite Hv; apply Hx. }
  rewrite Hv. intros o t' (-> & Hok' & Hc & Hl & Hn & Hlog & Hr & Hb & Hro & Hlr & Hcap & Hmem).
  split; [done|]. exists (view t'). split; [done|]. by eapply at_store_upd.
Qed.

(** The comet carries the coordinates [InitEventCoordinates] computes. *)
Definition coordinates_ok (ps : gmap string Z) v (x : Comet) (id : Z) : Prop :=
  la_ok ps (<[Hex x := Body x]> (Body <$> comets v)) (Hex x) (LastAncestors x) ∧
  FirstDescendants x = <[Z.to_nat id := mkCoord (Hex x) (comet_Index x)]>
                         (replicate (base.size ps) (mkCoord "" MaxInt32)).

Lemma extends_dag ps v x id sp op :
  graph_ok ps v → extends ps v x id sp op →
  dag_ok ps (<[Hex x := Body x]> (Body <$> comets v))
    (<[Creator x := comet_Index x + 1]> (next_of v)) (<[Creator x := Hex x]> (last_of v)).
Proof.
  intros Hg [Hfresh Hid Hnext Hmax Hsp Hlast Hop Hk].
  eapply (dag_add ps _ _ _ (g_dag _ _ Hg) (Hex x) (Body x) sp op (comet_Index x)); try done.
  - by rewrite lookup_fmap, Hfresh.
  - by rewrite lookup_fmap, fmap_is_Some.
Qed.

Lemma coordinates_unseen ps v x id sp op :
  graph_ok ps v → extends ps v x id sp op → coordinates_ok ps v x id → unseen id x = false.
Proof.
  intros Hg Hx [_ Hfd]. pose proof (ex_max _ _ _ _ _ _ Hx).
  pose proof (proj1 (dag_ids _ _ _ _ (g_dag _ _ Hg)) _ _ (ex_creator _ _ _ _ _ _ Hx)).
  unfold unseen. rewrite Hfd, coord_at_insert by (rewrite ?length_replicate; lia).
  rewrite decide_True by done. apply bool_decide_eq_false_2. simpl. lia.
Qed.

Definition fuel_ok (fuel : nat) v : Prop := ∀ p n, next_of v !! p = Some n → n < Z.of_nat fuel.

Lemma fuel_ok_index ps v x id sp op fuel h c :
  graph_ok ps v → extends ps v x id sp op → fuel_ok fuel v →
  <[Hex x := x]> (comets v) !! h = Some c → comet_Index c < Z.of_nat fuel.
Proof.
  intros Hg Hx Hf [[_ <-]|[_ Hc]]%lookup_insert_Some.
  - apply (Hf _ _ (ex_next _ _ _ _ _ _ Hx)).
  - destruct (dag_range _ _ _ _ (g_dag _ _ Hg) h (Body c)) as (n & Hn & Hr);
      [by apply graph_body|]. specialize (Hf _ _ Hn). unfold comet_Index, b_index in *. lia.
Qed.

Lemma update_new_spec ps v v1 x id sp op fuel g0 g :
  Participants g0 = ps → graph_ok ps v → extends ps v x id sp op → coordinates_ok ps v x id →
  fuel_ok fuel v → appended v x v1 → at_store g0 v1 g →
  wp (UpdateAncestorFirstDescendant fuel x) g (λ o g', o = Ret tt ∧ ∃ v2,
    graph_ok ps v2 ∧ inserted ps v v2 id x ∧
    v2 = set_comets (comets v2) v1 ∧ at_store g0 v2 g').
Proof.
  intros Hps Hg Hx Hco Hf Hap Hat. pose proof Hco as [Hla Hfd].
  assert (Body <$> comets v1 = <[Hex x := Body x]> (Body <$> comets v)) as HB
    by (rewrite (ap_comets _ _ _ Hap); apply fmap_insert).
  eapply wp_mono.
  - eapply (update_spec ps (next_of v1) (last_of v1) fuel x id v1 g0 g); try done.
    + rewrite HB, (ap_next _ _ _ Hap), (ap_last _ _ _ Hap). by eapply extends_dag.
    + rewrite (ap_comets _ _ _ Hap). intros h c [[_ <-]|[_ Hc]]%lookup_insert_Some.
      * by rewrite Hfd, length_insert, length_replicate.
      * by apply (graph_len_ok ps v Hg h).
    + apply Hx.
    + pose proof (ex_max _ _ _ _ _ _ Hx). lia.
    + by rewrite HB.
    + intros q k. rewrite (ap_comets _ _ _ Hap). eapply seen_prefix_insert; eauto.
      by eapply coordinates_unseen.
    + intros h c Hc. rewrite (ap_comets _ _ _ Hap) in Hc. by eapply (fuel_ok_index ps v).
  - intros o g' [-> Hat']. split; [done|]. eexists. split; [|split; [|split; [|exact Hat']]].
    3: done.
    2: { split; [simpl; by rewrite (ap_comets _ _ _ Hap)|]. simpl.
         by rewrite (ap_next _ _ _ Hap), (ap_last _ _ _ Hap), (ap_roots _ _ _ Hap). }
    destruct Hx. eapply (graph_ok_insert ps v _ id x sp op); try done.
    split; [simpl; by rewrite (ap_comets _ _ _ Hap)|]. simpl.
    by rewrite (ap_next _ _ _ Hap), (ap_last _ _ _ Hap), (ap_roots _ _ _ Hap).
Qed.

(** *** The whole of it *)

(** What an insertion does to the graph outside the store. *)
Definition booked (c : Comet) g : CometGraph :=
  let g1 := set_topo (topologicalIndex g + 1) g in
  let g2 := set_Undetermined (UndeterminedEvents g1 ++ [Hex c]) g1 in
  if IsLoaded c then set_counts (ConsensusTransactions g2) (PendingLoadedEvents g2 + 1) g2 else g2.

(** The body the store keeps: with its wire fields when asked to compute them. *)
Definition kept_body (ps : gmap string Z) v (op : string) (id : Z) (sw : bool) (c : Comet) : CometBody :=
  if sw then Body (wired ps v op id c) else Body c.

Record insert_post ps v (c : Comet) (id : Z) (op : string) (sw : bool) (topo : Z) v' : Prop := {
  ip_graph : graph_ok ps v';
  ip_bodies : Body <$> comets v' = <[Hex c := kept_body ps v op id sw c]> (Body <$> comets v);
  ip_next : next_of v' = <[Creator c := comet_Index c + 1]> (next_of v);
  ip_last : last_of v' = <[Creator c := Hex c]> (last_of v);
  ip_rounds : rounds v' = rounds v;
  ip_last_round : last_round v' = last_round v;
  ip_blocks : dom (blocks v') = dom (blocks v);
  ip_blocks_ok : blocks_ok v';
  ip_capacity : capacity v' = capacity v;
  ip_faces : face <$> comets v' = <[Hex c := (kept_body ps v op id sw c, Signature c, topo)]> (face <$> comets v);
  ip_stamps : stamp <$> comets v' = <[Hex c := stamp c]> (stamp <$> comets v);
  ip_log : ∀ p i, log_of v' p i = log_with c v p i;
  ip_members : members v' = members v
}.

Lemma inserted_post ps v v1 v2 m x c id op sw topo :
  graph_ok ps v2 → inserted ps v v2 id x → v2 = set_comets (comets v2) v1 → appended v x v1 →
  Body x = kept_body ps v op id sw c → Hex x = Hex c → Creator x = Creator c →
  comet_Index x = comet_Index c → Signature x = Signature c → TopologicalIndex x = topo → stamp x = stamp c →
  blocks_ok (set_blocks m v2) → dom m = dom (blocks v2) →
  insert_post ps v c id op sw topo (set_blocks m v2).
Proof.
  intros Hg (Hc & Hn & Hl & _) Hv2 Hap Hbody Hhex Hcr Hidx Hsig Htopo Hst Hbl Hdom.
  split; try done; simpl.
  - by apply graph_ok_blocks.
  - by rewrite Hc, Body_mark, fmap_insert, Hbody, Hhex.
  - by rewrite Hn, Hcr, Hidx.
  - by rewrite Hl, Hcr, Hhex.
  - rewrite Hv2. apply (ap_rounds _ _ _ Hap).
  - rewrite Hv2. apply (ap_last_round _ _ _ Hap).
  - rewrite Hdom, Hv2. simpl. by rewrite (ap_blocks _ _ _ Hap).
  - rewrite Hv2. apply (ap_capacity _ _ _ Hap).
  - rewrite Hc, face_mark, fmap_insert, Hhex. unfold face at 1. by rewrite Hbody, Hsig, Htopo.
  - by rewrite Hc, stamp_mark, fmap_insert, Hhex, Hst.
  - intros p i. rewrite Hv2. cbn. rewrite (ap_log _ _ _ Hap). unfold log_with. by rewrite Hcr, Hidx, Hhex.
  - rewrite Hv2. apply (ap_members _ _ _ Hap).
Qed.

Lemma InsertComet_spec fuel g c sw id sp op :
  let ps := Participants g in
  let v := view (store g) in
  store_ok (store g) → graph_ok ps v → blocks_ok v → extends ps v c id sp op →
  Verify c = Ret true → room_comet v → fuel_ok fuel v →
  Forall sig_ok (comet_BlockSignatures c) →
  wp (InsertComet fuel c sw) g (λ o g', o = Ret tt ∧
    ∃ v', insert_post ps v c id op sw (topologicalIndex g) v' ∧ at_store (booked c g) v' g').
Proof.
  intros ps v Hok Hg Hbl Hx Hver Hroom Hf Hsigs. unfold InsertComet.
  eapply wp_lift_bind; [exact Hver|]. simpl negb. cbv iota.
  pose proof (at_store_refl g Hok) as Hat. fold v in Hat.
  apply wp_bind, wp_wrap. eapply wp_mono; [by eapply (CheckSelfParent_spec ps v)|].
  intros o g1 [-> Hat1].
  apply wp_bind, wp_wrap. eapply wp_mono; [by eapply (CheckOtherParent_spec ps v)|].
  intros o g2 [-> Hat2]. clear Hat Hat1 g1.
  apply wp_gets_bind, wp_modify_bind.
  replace (topologicalIndex g2) with (topologicalIndex g) by (by destruct Hat2 as (t & -> & _)).
  set (gt := set_topo (topologicalIndex g + 1) g).
  assert (at_store gt v (set_topo (topologicalIndex g + 1) g2)) as Hat.
  { destruct Hat2 as (t & -> & Ht & Hv). by exists t. }
  set (c1 := set_TopologicalIndex (topologicalIndex g) c).
  assert (extends ps v c1 id sp op) as Hx1 by (by apply (extends_fields ps v c)).
  set (c2 := if sw then wired ps v op id c1 else c1).
  apply wp_bind. eapply (wp_mono _ _ (λ o g', o = Ret c2 ∧ at_store gt v g')).
  { unfold c2. destruct sw; [|by apply wp_ret]. apply wp_wrap.
    eapply wp_mono; [by eapply (SetWireInfo_spec ps v c1 id sp op gt)|]. by intros o g' [-> ?]. }
  intros o g3 [-> Hat3].
  assert (fields (Body c2) = fields (Body c)) as Hfields by (unfold c2; by destruct sw).
  assert (extends ps v c2 id sp op) as Hx2 by (by apply (extends_fields ps v c)).
  apply wp_bind, wp_wrap. eapply wp_mono; [by eapply (init_spec ps v c2 id sp op gt)|].
  intros o g4 (la & -> & Hla & Hat4).
  set (x := set_coordinates la _ c2).
  assert (fields (Body x) = fields (Body c)) as Hfx by exact Hfields.
  assert (extends ps v x id sp op) as Hx3 by (by apply (extends_fields ps v c)).
  assert (coordinates_ok ps v x id) as Hco by done.
  assert (Hex x = Hex c) as Hhex by (unfold Hex, body_Hash; by rewrite Hfx).
  apply wp_bind, wp_wrap. eapply wp_mono; [by eapply (SetComet_new_spec ps v x)|].
  intros o g5 (-> & v1 & Hap & Hat5).
  apply wp_bind, wp_wrap. eapply wp_mono; [by eapply (update_new_spec ps v v1 x id sp op fuel gt)|].
  intros o g6 (-> & v2 & Hg2 & Hins & Hv2 & Hat6).
  apply wp_modify_bind. apply wp_bind.
  eapply (wp_mono _ _ (λ o g', o = Ret tt ∧ at_store (booked c g) v2 g')).
  { assert (IsLoaded x = IsLoaded c) as Hil.
    { unfold IsLoaded, comet_Index, comet_Transactions, comet_BlockSignatures. by rewrite Hfx. }
    rewrite Hil, Hhex. unfold booked. fold gt. destruct Hat6 as (t & -> & Ht & Hvt).
    destruct (IsLoaded c); split; try done; by exists t. }
  intros o g7 [-> Hat7].
  assert (comet_BlockSignatures x = comet_BlockSignatures c) as ->
    by (unfold comet_BlockSignatures; by rewrite Hfx).
  eapply wp_mono; [apply (recordBlockSignatures_spec (booked c g) v2); [done| |done]|].
  { rewrite Hv2. unfold blocks_ok. simpl. by rewrite (ap_blocks _ _ _ Hap). }
  intros o g8 (-> & m & Hbm & Hdm & Hat8). split; [done|]. eexists. split; [|exact Hat8].
  eapply (inserted_post ps v v1 v2 m x); try done.
  - unfold x, c2, kept_body, wired. by destruct sw.
  - unfold Creator. by rewrite Hfx.
  - unfold comet_Index. by rewrite Hfx.
  - unfold x, c2, wired. by destruct sw.
  - unfold x, c2, wired. by destruct sw.
  - unfold x, c2, wired. by destruct sw.
Qed.
End Insert.
