(* ===== verification/Queries.v ===== *)
(** The questions the algorithm asks about the graph: [AncestorOf], [SelfAncestor], [See],
    [OldestSelfAncestorToSee] and [StronglySee] answer what they are named after, whatever
    the memo caches hold and evict, and the answers stay right when comets are added. *)
From S2P Require Import Prelude Lru Bytes Types Caches Store CometGraph Ancestry Insert.
Open Scope Z_scope.

(** The identifiers of the participants are 0, ..., n-1. *)
Lemma ids_perm ps :
  ids_ok ps → (map_to_list ps).*2 ≡ₚ seqZ 0 (Z.of_nat (base.size ps)).
Proof.
  intros Hids. symmetry. apply submseteq_length_Permutation.
  - apply NoDup_submseteq; [apply NoDup_seqZ|]. intros i Hi. apply elem_of_seqZ in Hi.
    destruct (ids_ok_surj ps i Hids ltac:(lia)) as [p Hp].
    apply list_elem_of_fmap. exists (p, i). split; [done|]. by apply elem_of_map_to_list.
  - rewrite length_fmap, length_map_to_list, length_seqZ. lia.
Qed.

Section Meaning.
Context `{Crypto}.
Implicit Types (B : gmap string CometBody) (ps : gmap string Z).

Definition known B (x : string) : Prop := is_Some (B !! x).
#[export] Instance known_dec B x : Decision (known B x).
Proof. unfold known. apply _. Defined.

(** Ancestry along self-parents only. *)
Definition self_edge B (x y : string) : Prop :=
  ∃ b, B !! x = Some b ∧ is_Some (B !! y) ∧ b_self b = Ret y.
Definition self_anc B : string → string → Prop := rtc (self_edge B).

(** Some event of [p] lies between [x] and [y]. *)
Definition between B (x y p : string) : Prop :=
  ∃ z b, B !! z = Some b ∧ b_creator b = p ∧ anc B x z ∧ anc B z y.

(** The first self-ancestor of [x] that descends from [y]. *)
Definition oldest_seer B (x y z : string) : Prop :=
  self_anc B x z ∧ anc B z y ∧ ∀ z', self_anc B x z' → anc B z' y → self_anc B z' z.

(** ** What an answer means *)

Definition anc_answer B (k : Key) (r : bool) : Prop :=
  known B (key_x k) ∧ known B (key_y k) ∧ (r = true ↔ anc B (key_x k) (key_y k)).

Definition self_answer B (k : Key) (r : bool) : Prop :=
  known B (key_x k) ∧ known B (key_y k) ∧ (r = true ↔ self_anc B (key_x k) (key_y k)).

Definition oldest_answer B (k : Key) (z : string) : Prop :=
  known B (key_x k) ∧ known B (key_y k) ∧
  (known B z ∧ oldest_seer B (key_x k) (key_y k) z ∨
   z = "" ∧ ¬ ∃ z', self_anc B (key_x k) z' ∧ anc B z' (key_y k)).

Definition strong_answer ps B (k : Key) (r : bool) : Prop :=
  known B (key_x k) ∧ known B (key_y k) ∧
  ∃ Q : gset string,
    (∀ p, p ∈ Q ↔ is_Some (ps !! p) ∧ between B (key_x k) (key_y k) p) ∧
    (r = true ↔ MostPlurality_of ps ≤ Z.of_nat (base.size Q)).

Lemma self_anc_anc B x y : self_anc B x y → anc B x y.
Proof.
  apply rtc_subrel. intros a b (c & Hc & Hk & Hs). exists c. auto.
Qed.

(** A self-ancestor is an earlier event of the same creator. *)
Lemma self_anc_spec ps B next last x y bx by_ :
  dag_ok ps B next last → B !! x = Some bx → B !! y = Some by_ →
  self_anc B x y ↔ b_creator bx = b_creator by_ ∧ b_index by_ ≤ b_index bx.
Proof.
  intros Hd Hx Hy. split.
  - intros Ha. revert bx Hx. induction Ha as [x|x z y Hxz Hzy IH]; intros bx Hx.
    { assert (bx = by_) as -> by congruence. split; [done|lia]. }
    destruct Hxz as (b & Hb & [bz Hz] & Hs). assert (b = bx) as -> by congruence.
    destruct (dag_self _ _ _ _ Hd x bx Hx) as [[_ Hs']|(h & b & Hs' & Hb' & Hc & Hi)];
      rewrite Hs in Hs'; injection Hs' as ->.
    + by rewrite (dag_ne_empty _ _ _ _ Hd) in Hz.
    + assert (b = bz) as -> by congruence.
      destruct (IH Hy bz Hz) as [? ?]. split; [congruence|lia].
  - intros [Hc Hle]. remember (Z.to_nat (b_index bx - b_index by_)) as d eqn:Hdist.
    revert x bx Hx Hc Hle Hdist. induction d as [|d IH]; intros x bx Hx Hc Hle Hdist.
    + assert (x = y) as -> by (apply (dag_uniq _ _ _ _ Hd x y bx by_); auto; lia).
      apply rtc_refl.
    + destruct (dag_self _ _ _ _ Hd x bx Hx) as [[H0 _]|(sp & bs & Hs & Hbs & Hcs & His)].
      { pose proof (dag_index_lt_max _ _ _ _ _ _ Hd Hy). lia. }
      eapply rtc_l; [exists bx; eauto|]. apply (IH sp bs); auto; [congruence|lia|lia].
Qed.

Lemma self_anc_known B x y : known B x → self_anc B x y → known B y.
Proof. intros Hx Ha. induction Ha as [|x z y (b & _ & Hz & _) _ IH]; auto. Qed.

Lemma anc_known B x y : known B x → anc B x y → known B y.
Proof. intros Hx Ha. induction Ha as [|x z y (b & _ & Hz & _) _ IH]; auto. Qed.

(** ** Reading the coordinates *)

Lemma between_coords ps B next last x y p a d :
  dag_ok ps B next last → la_spec B x p a → fd_spec B y p d →
  CIndex d ≤ CIndex a ↔ between B x y p.
Proof.
  intros Hd [Hna Ha] [Hnd Hfd]. split.
  - intros Hle. destruct Hnd as [->|(b & Hb & Hc & Hi)].
    + exfalso. destruct Hna as [->|(b & Hb & _ & Hi)]; [by simpl in Hle|].
      pose proof (dag_index_lt_max _ _ _ _ _ _ Hd Hb). simpl in Hle. lia.
    + exists (Hash d), b. split; [done|]. split; [done|].
      split; [apply (Ha _ _ Hb Hc)|apply (Hfd _ _ Hb Hc)]; lia.
  - intros (z & b & Hb & Hc & Hxz & Hzy).
    apply (Ha _ _ Hb Hc) in Hxz. apply (Hfd _ _ Hb Hc) in Hzy. lia.
Qed.

Definition reaches (la fd : list EventCoordinates) (i : Z) : bool :=
  match coord_at la i, coord_at fd i with
  | Some a, Some d => bool_decide (CIndex d ≤ CIndex a)
  | _, _ => false
  end.

Lemma count_between_spec la fd c :
  length la = length fd →
  count_between la fd c = Ret (c + countb (reaches la fd) (seqZ 0 (Z.of_nat (length la)))).
Proof.
  revert fd c. induction la as [|a la IH]; intros [|d fd] c Hl; try done.
  { simpl. f_equal. lia. }
  cbn [count_between length]. rewrite IH by (simpl in Hl; lia). f_equal.
  rewrite Nat2Z.inj_succ, (seqZ_cons 0 (Z.succ _)) by lia. cbn [countb foldr].
  replace (Z.pred (Z.succ (Z.of_nat (length la)))) with (Z.of_nat (length la)) by lia.
  change (reaches (a :: la) (d :: fd) 0) with (bool_decide (CIndex d ≤ CIndex a)).
  fold (countb (reaches (a :: la) (d :: fd)) (seqZ (Z.succ 0) (Z.of_nat (length la)))).
  rewrite <-(fmap_add_seqZ 1 0), countb_fmap.
  rewrite (countb_ext (reaches (a :: la) (d :: fd) ∘ Z.add 1) (reaches la fd)); [case_bool_decide; lia|].
  intros i Hi. apply elem_of_seqZ in Hi. unfold reaches, coord_at. simpl.
  by replace (Z.to_nat (1 + i)) with (S (Z.to_nat i)) by lia.
Qed.

(** The loop of [stronglySee] counts the participants with an event between. *)
Lemma stronglySee_count ps B next last x y la fd :
  dag_ok ps B next last → la_ok ps B x la → fd_ok ps B y fd →
  ∃ Q : gset string, (∀ p, p ∈ Q ↔ is_Some (ps !! p) ∧ between B x y p) ∧
    count_between la fd 0 = Ret (Z.of_nat (base.size Q)).
Proof.
  intros Hd [Hll Hla] [Hfl Hfd]. pose proof (dag_ids _ _ _ _ Hd) as Hids.
  exists (dom (filter (λ '(p, id), reaches la fd id = true) ps)). split.
  - intros p. rewrite elem_of_dom.
    assert (∀ id, ps !! p = Some id → reaches la fd id = true ↔ between B x y p) as Hr.
    { intros id Hid. destruct (Hla p id Hid) as (a & Ha & Has), (Hfd p id Hid) as (d & Hd' & Hds).
      unfold reaches. rewrite Ha, Hd', bool_decide_eq_true. by eapply between_coords. }
    split.
    + intros [id [Hid Hre]%map_lookup_filter_Some]. split; [by eexists|]. by apply (Hr id).
    + intros [[id Hid] Hb]. exists id. apply map_lookup_filter_Some. split; [done|]. by apply (Hr id).
  - rewrite count_between_spec by congruence. f_equal.
    rewrite size_dom, size_filter_countb, Hll, <-(countb_perm _ _ _ (ids_perm ps Hids)), countb_fmap.
    apply countb_ext. intros [p id] _. simpl. by destruct (reaches la fd id).
Qed.
End Meaning.

Section Queries.
Context `{RangeOrder, Crypto} {S : Type} `{Store S, !StoreLaws S}.
Implicit Types (g : CometGraph (S := S)) (v : content) (ps : gmap string Z).

(** ** The invariant a query keeps *)

Definition cache_ok {K V} `{Countable K} (R : K → V → Prop) (c : Lru.LRU K V) : Prop :=
  Lru.wf c ∧ ∀ k r, Lru.view c !! k = Some r → R k r.

Record queryable ps v g : Prop := {
  q_ps : Participants g = ps;
  q_mp : mostPlurality g = MostPlurality_of ps;
  q_ok : store_ok (store g);
  q_view : view (store g) = v;
  q_graph : graph_ok ps v;
  q_anc : cache_ok (anc_answer (Body <$> comets v)) (ancestorCache g);
  q_self : cache_ok (self_answer (Body <$> comets v)) (selfAncestorCache g);
  q_oldest : cache_ok (oldest_answer (Body <$> comets v)) (oldestSelfAncestorCache g);
  q_strong : cache_ok (strong_answer ps (Body <$> comets v)) (stronglySeeCache g)
}.

(** [g'] is [g0] up to the caches of the queries and the order inside the store. *)
Definition quiet g0 g : Prop :=
  ∃ t a sa o ss, g = upd_caches a sa o ss (parentRoundCache g0) (roundCache g0) (upd_store t g0).

Lemma quiet_refl g : quiet g g.
Proof. exists (store g), (ancestorCache g), (selfAncestorCache g), (oldestSelfAncestorCache g),
  (stronglySeeCache g). by destruct g. Qed.

Lemma quiet_trans g1 g2 g3 : quiet g1 g2 → quiet g2 g3 → quiet g1 g3.
Proof.
  intros (t & a & sa & o & ss & ->) (t' & a' & sa' & o' & ss' & ->).
  by exists t', a', sa', o', ss'.
Qed.

(** A memo is transparent when what it holds and what it adds is right. *)
Lemma memo_spec {K V} `{Countable K} sel upd (I : CometGraph (S := S) → Prop)
    (R : K → V → Prop) k compute g :
  (∀ g, I g → cache_ok R (sel g)) →
  (∀ g c, I g → cache_ok R c → I (upd c g)) →
  I g →
  (∀ g', I g' → wp compute g' (λ o g'', ∃ r, o = Ret r ∧ R k r ∧ I g'')) →
  wp (memo sel upd k compute) g (λ o g', ∃ r, o = Ret r ∧ R k r ∧ I g').
Proof.
  intros Hsel Hupd Hg Hcomp. unfold memo. apply wp_bind, wp_zoom.
  destruct (Hsel g Hg) as [Hwf HR].
  destruct (Lru.Get_view (sel g) k Hwf) as (Hwf' & Hget & Hv).
  unfold wp at 1. destruct (Lru.Get k (sel g)) as [r c'] eqn:Hr. cbn [fst snd] in *.
  assert (I (upd c' g)) as Hg' by (apply Hupd; [done|]; split; [done|]; rewrite Hv; done).
  destruct r as [r|].
  - apply wp_ret. exists r. split; [done|]. split; [by apply HR|done].
  - apply wp_bind. eapply wp_mono; [by apply Hcomp|]. intros o g2 (r & -> & HRr & Hg2).
    apply wp_modify_bind, wp_ret. exists r. split; [done|]. split; [done|].
    apply Hupd; [done|]. destruct (Hsel g2 Hg2) as [Hwf2 HR2]. split.
    + by destruct (Lru.Add_refines (sel g2) k r Hwf2).
    + intros k' r' Hk'. pose proof (Lru.Add_view_subseteq (sel g2) k r Hwf2) as Hsub.
      eapply lookup_weaken in Hk'; [|exact Hsub].
      apply lookup_insert_Some in Hk' as [[<- <-]|[_ Hk']]; [done|]. by apply HR2.
Qed.

Definition asks ps v g0 g : Prop := queryable ps v g ∧ quiet g0 g.

Lemma asks_upd_store ps v g0 g t :
  asks ps v g0 g → store_ok t → view t = v → asks ps v g0 (upd_store t g).
Proof.
  intros [[] Hq] Ht Hv. split; [by split|].
  eapply quiet_trans; [done|]. exists t, (ancestorCache g), (selfAncestorCache g),
    (oldestSelfAncestorCache g), (stronglySeeCache g). by destruct g.
Qed.

Lemma asks_GetComet ps v g0 g k c (Q : outcome (gerror + Comet) → CometGraph → Prop) :
  asks ps v g0 g → comets v !! k = Some c →
  (∀ g', asks ps v g0 g' → Q (Ret (inr c)) g') →
  wp (try (stm (st_GetComet k))) g Q.
Proof.
  intros Hg Hc HQ. pose proof (q_ok _ _ _ (proj1 Hg)) as Hok.
  pose proof (q_view _ _ _ (proj1 Hg)) as Hv.
  eapply wp_try_GetComet; [by apply at_store_refl|]. rewrite Hv, Hc.
  intros g' (t & -> & Ht & Hvt). apply HQ. by apply asks_upd_store.
Qed.

Lemma known_comet v x : known (Body <$> comets v) x → ∃ c, comets v !! x = Some c.
Proof. unfold known. rewrite lookup_fmap, fmap_is_Some. by intros [c Hc]; eauto. Qed.

Lemma participant_spec ps v g0 g c h :
  asks ps v g0 g → comets v !! h = Some c →
  ∃ id, ps !! Creator c = Some id ∧ default 0 (Participants g !! Creator c) = id ∧
        0 ≤ id < Z.of_nat (base.size ps).
Proof.
  intros [Hq _] Hc. pose proof (g_dag _ _ (q_graph _ _ _ Hq)) as Hd.
  destruct (dag_creator _ _ _ _ h (Body c) Hd (graph_body v h c Hc)) as [id Hid].
  exists id. rewrite (q_ps _ _ _ Hq). split; [exact Hid|].
  change (Creator c) with (b_creator (Body c)). rewrite Hid. split; [done|].
  by apply (proj1 (dag_ids _ _ _ _ Hd) _ _ Hid).
Qed.

Lemma coord_index (l : list EventCoordinates) i a :
  0 ≤ i → coord_at l i = Some a → index l i = Ret a.
Proof. intros Hi Ha. unfold index. rewrite decide_True by done. unfold coord_at in Ha. by rewrite Ha. Qed.

(** ** The queries *)

Lemma ancestor_spec ps v g0 g x y :
  asks ps v g0 g → known (Body <$> comets v) x → known (Body <$> comets v) y →
  wp (ancestor x y) g (λ o g', ∃ r, o = Ret r ∧
    anc_answer (Body <$> comets v) (NewKey x y) r ∧ asks ps v g0 g').
Proof.
  intros Hg Hx Hy. destruct (known_comet v x Hx) as [ex Hex], (known_comet v y Hy) as [ey Hey].
  unfold ancestor. case_bool_decide as Hxy.
  { apply wp_ret. exists true. subst y. split; [done|]. split; [|done].
    split; [done|]. split; [done|]. split; [intros _; apply anc_refl|done]. }
  apply wp_bind. eapply asks_GetComet; [done..|]. intros g1 Hg1.
  apply wp_bind. eapply asks_GetComet; [done..|]. intros g2 Hg2.
  apply wp_gets_bind. destruct (participant_spec _ _ _ _ ey y Hg2 Hey) as (id & Hid & -> & Hr).
  destruct (proj2 (g_la _ _ (q_graph _ _ _ (proj1 Hg2)) x ex Hex) _ _ Hid) as (a & Ha & _ & Has).
  eapply wp_lift_bind; [apply coord_index; [lia|exact Ha]|].
  apply wp_ret. eexists. split; [done|]. split; [|done]. split; [done|]. split; [done|].
  rewrite bool_decide_eq_true. symmetry. apply (Has y (Body ey)); [by apply graph_body|done].
Qed.

Lemma AncestorOf_spec ps v g0 g x y :
  asks ps v g0 g → known (Body <$> comets v) x → known (Body <$> comets v) y →
  wp (AncestorOf x y) g (λ o g', ∃ r, o = Ret r ∧
    anc_answer (Body <$> comets v) (NewKey x y) r ∧ asks ps v g0 g').
Proof.
  intros Hg Hx Hy. unfold AncestorOf. apply memo_spec; [| |done|].
  - by intros g' [[] _].
  - intros g' c [[] (t & a & sa & o & ss & ->)] Hc. split; [by split|].
    by exists t, c, sa, o, ss.
  - intros g' Hg'. by apply ancestor_spec.
Qed.

Lemma selfAncestor_spec ps v g0 g x y :
  asks ps v g0 g → known (Body <$> comets v) x → known (Body <$> comets v) y →
  wp (selfAncestor x y) g (λ o g', ∃ r, o = Ret r ∧
    self_answer (Body <$> comets v) (NewKey x y) r ∧ asks ps v g0 g').
Proof.
  intros Hg Hx Hy. destruct (known_comet v x Hx) as [ex Hex], (known_comet v y Hy) as [ey Hey].
  unfold selfAncestor. case_bool_decide as Hxy.
  { apply wp_ret. exists true. subst y. split; [done|]. split; [|done].
    split; [done|]. split; [done|]. split; [intros _; apply rtc_refl|done]. }
  apply wp_bind. eapply asks_GetComet; [done..|]. intros g1 Hg1.
  apply wp_gets_bind. destruct (participant_spec _ _ _ _ ex x Hg1 Hex) as (ix & Hix & -> & _).
  apply wp_bind. eapply asks_GetComet; [done..|]. intros g2 Hg2.
  apply wp_gets_bind. destruct (participant_spec _ _ _ _ ey y Hg2 Hey) as (iy & Hiy & -> & _).
  apply wp_ret. eexists. split; [done|]. split; [|done]. split; [done|]. split; [done|].
  pose proof (g_dag _ _ (q_graph _ _ _ (proj1 Hg))) as Hd. rewrite bool_decide_eq_true. cbn [key_x key_y NewKey].
  rewrite (self_anc_spec _ _ _ _ x y (Body ex) (Body ey) Hd) by (by apply graph_body).
  change (b_creator (Body ex)) with (Creator ex). change (b_creator (Body ey)) with (Creator ey).
  assert (ix = iy ↔ Creator ex = Creator ey) as ->.
  { split; [intros ->; by eapply (proj2 (dag_ids _ _ _ _ Hd))|]. intros Heq. rewrite Heq in Hix. congruence. }
  done.
Qed.

Lemma SelfAncestor_spec ps v g0 g x y :
  asks ps v g0 g → known (Body <$> comets v) x → known (Body <$> comets v) y →
  wp (SelfAncestor x y) g (λ o g', ∃ r, o = Ret r ∧
    self_answer (Body <$> comets v) (NewKey x y) r ∧ asks ps v g0 g').
Proof.
  intros Hg Hx Hy. unfold SelfAncestor. apply memo_spec; [| |done|].
  - by intros g' [[] _].
  - intros g' c [[] (t & a & sa & o & ss & ->)] Hc. split; [by split|].
    by exists t, a, c, o, ss.
  - intros g' Hg'. by apply selfAncestor_spec.
Qed.

Lemma oldestSelfAncestorToSee_spec ps v g0 g x y :
  asks ps v g0 g → known (Body <$> comets v) x → known (Body <$> comets v) y →
  wp (oldestSelfAncestorToSee x y) g (λ o g', ∃ z, o = Ret z ∧
    oldest_answer (Body <$> comets v) (NewKey x y) z ∧ asks ps v g0 g').
Proof.
  intros Hg Hx Hy. destruct (known_comet v x Hx) as [ex Hex], (known_comet v y Hy) as [ey Hey].
  unfold oldestSelfAncestorToSee.
  apply wp_bind. eapply asks_GetComet; [done..|]. intros g1 Hg1.
  apply wp_bind. eapply asks_GetComet; [done..|]. intros g2 Hg2.
  apply wp_gets_bind. destruct (participant_spec _ _ _ _ ex x Hg2 Hex) as (id & Hid & -> & Hr).
  destruct (proj2 (g_fd _ _ (q_graph _ _ _ (proj1 Hg2)) y ey Hey) _ _ Hid) as (d & Hd' & Hdn & Hds).
  eapply wp_lift_bind; [apply coord_index; [lia|exact Hd']|].
  apply wp_ret. eexists. split; [done|]. split; [|done]. split; [done|]. split; [done|].
  pose proof (g_dag _ _ (q_graph _ _ _ (proj1 Hg))) as Hd. cbn [key_x key_y NewKey].
  pose proof (graph_body v x ex Hex) as Hbx.
  assert (∀ z, self_anc (Body <$> comets v) x z → anc (Body <$> comets v) z y →
    ∃ b, (Body <$> comets v) !! z = Some b ∧ b_creator b = Creator ex ∧
         CIndex d ≤ b_index b ≤ comet_Index ex) as Hz.
  { intros z Hxz Hzy. destruct (self_anc_known _ _ _ Hx Hxz) as [b Hb]. exists b. split; [done|].
    apply (self_anc_spec _ _ _ _ _ _ _ _ Hd Hbx Hb) in Hxz as [Hc Hle].
    split; [done|]. apply (Hds z b Hb) in Hzy; [|done]. unfold comet_Index, b_index in *. lia. }
  case_bool_decide as Hle.
  - left. destruct Hdn as [->|(b & Hb & Hc & Hi)].
    { pose proof (dag_index_lt_max _ _ _ _ _ _ Hd Hbx). simpl in Hle.
      unfold comet_Index, b_index in *. lia. }
    split; [by eexists|]. split.
    { apply (self_anc_spec _ _ _ _ _ _ _ _ Hd Hbx Hb).
      split; [done|]. unfold comet_Index, b_index in *. lia. }
    split; [apply (Hds _ _ Hb Hc); lia|].
    intros z' Hxz Hzy. destruct (Hz z' Hxz Hzy) as (b' & Hb' & Hc' & Hr').
    apply (self_anc_spec _ _ _ _ _ _ _ _ Hd Hb' Hb). split; [congruence|lia].
  - right. split; [done|]. intros (z & Hxz & Hzy). destruct (Hz z Hxz Hzy) as (b & _ & _ & Hr'). lia.
Qed.

Lemma OldestSelfAncestorToSee_spec ps v g0 g x y :
  asks ps v g0 g → known (Body <$> comets v) x → known (Body <$> comets v) y →
  wp (OldestSelfAncestorToSee x y) g (λ o g', ∃ z, o = Ret z ∧
    oldest_answer (Body <$> comets v) (NewKey x y) z ∧ asks ps v g0 g').
Proof.
  intros Hg Hx Hy. unfold OldestSelfAncestorToSee. apply memo_spec; [| |done|].
  - by intros g' [[] _].
  - intros g' c [[] (t & a & sa & o & ss & ->)] Hc. split; [by split|].
    by exists t, a, sa, c, ss.
  - intros g' Hg'. by apply oldestSelfAncestorToSee_spec.
Qed.

Lemma stronglySee_spec ps v g0 g x y :
  asks ps v g0 g → known (Body <$> comets v) x → known (Body <$> comets v) y →
  wp (stronglySee x y) g (λ o g', ∃ r, o = Ret r ∧
    strong_answer ps (Body <$> comets v) (NewKey x y) r ∧ asks ps v g0 g').
Proof.
  intros Hg Hx Hy. destruct (known_comet v x Hx) as [ex Hex], (known_comet v y Hy) as [ey Hey].
  pose proof (q_graph _ _ _ (proj1 Hg)) as Hgr.
  destruct (stronglySee_count ps _ _ _ x y _ _ (g_dag _ _ Hgr) (g_la _ _ Hgr x ex Hex)
    (g_fd _ _ Hgr y ey Hey)) as (Q & HQ & Hcount).
  unfold stronglySee.
  apply wp_bind. eapply asks_GetComet; [done..|]. intros g1 Hg1.
  apply wp_bind. eapply asks_GetComet; [done..|]. intros g2 Hg2.
  eapply wp_lift_bind; [exact Hcount|]. apply wp_gets_bind, wp_ret.
  eexists. split; [done|]. split; [|done]. split; [done|]. split; [done|]. exists Q.
  split; [done|]. by rewrite bool_decide_eq_true, (q_mp _ _ _ (proj1 Hg2)).
Qed.

Lemma StronglySee_spec ps v g0 g x y :
  asks ps v g0 g → known (Body <$> comets v) x → known (Body <$> comets v) y →
  wp (StronglySee x y) g (λ o g', ∃ r, o = Ret r ∧
    strong_answer ps (Body <$> comets v) (NewKey x y) r ∧ asks ps v g0 g').
Proof.
  intros Hg Hx Hy. unfold StronglySee. apply memo_spec; [| |done|].
  - by intros g' [[] _].
  - intros g' c [[] (t & a & sa & o & ss & ->)] Hc. split; [by split|].
    by exists t, a, sa, o, c.
  - intros g' Hg'. by apply stronglySee_spec.
Qed.
End Queries.

(** ** Answers are final

    The answers about known events do not change when a comet is added, so the memo
    caches need no invalidation. *)
Section Stable.
Context `{Crypto}.
Context (ps : gmap string Z) (B : gmap string CometBody) (next : gmap string Z) (last : gmap string string).
Context (Hd : dag_ok ps B next last).
Context (hx : string) (bx : CometBody) (sp op : string) (n : Z).
Context (Hfresh : B !! hx = None) (Hname : b_name bx = hx).
Context (Hnext : next !! b_creator bx = Some n) (Hidx : b_index bx = n) (Hmax : n < MaxInt32).
Context (Hsp : b_self bx = Ret sp) (Hlast : last !! b_creator bx = Some sp).
Context (Hop : b_other bx = Ret op) (Hopk : op = "" ∨ is_Some (B !! op)).
Abbreviation B' := (<[hx := bx]> B).

Lemma known_old x : known B x → known B' x.
Proof. unfold known. rewrite lookup_insert. case_decide; [by eexists|done]. Qed.

Lemma lookup_old x b : B !! x = Some b → B' !! x = Some b.
Proof. intros Hx. rewrite lookup_insert_ne; [done|]. congruence. Qed.

Lemma anc_stable x y : known B x → anc B' x y ↔ anc B x y.
Proof. intros Hx. by eapply anc_old. Qed.

Lemma self_anc_stable x y : known B x → self_anc B' x y ↔ self_anc B x y.
Proof.
  intros Hx. assert (dag_ok ps B' (<[b_creator bx := n + 1]> next) (<[b_creator bx := hx]> last)) as Hd'
    by (by eapply dag_add).
  split; intros Ha.
  - assert (known B y) as [by_ Hy].
    { eapply anc_known; [exact Hx|]. apply anc_stable; [done|]. by apply self_anc_anc. }
    destruct Hx as [b Hb].
    apply (self_anc_spec _ _ _ _ _ _ _ _ Hd Hb Hy).
    by apply (self_anc_spec _ _ _ _ _ _ _ _ Hd' (lookup_old _ _ Hb) (lookup_old _ _ Hy)).
  - destruct (self_anc_known _ _ _ Hx Ha) as [by_ Hy]. destruct Hx as [b Hb].
    apply (self_anc_spec _ _ _ _ _ _ _ _ Hd' (lookup_old _ _ Hb) (lookup_old _ _ Hy)).
    by apply (self_anc_spec _ _ _ _ _ _ _ _ Hd Hb Hy).
Qed.

Lemma between_stable x y p : known B x → between B' x y p ↔ between B x y p.
Proof.
  intros Hx. unfold between. split.
  - intros (z & b & Hz & Hc & Hxz & Hzy). apply anc_stable in Hxz; [|done].
    pose proof (anc_known _ _ _ Hx Hxz) as [b' Hz']. apply anc_stable in Hzy; [|by eexists].
    assert (b = b') as -> by (apply lookup_old in Hz'; congruence). eauto 6.
  - intros (z & b & Hz & Hc & Hxz & Hzy). exists z, b. split; [by apply lookup_old|].
    split; [done|]. split; apply anc_stable; auto. by eexists.
Qed.

Lemma anc_answer_stable k r : anc_answer B k r → anc_answer B' k r.
Proof.
  intros (Hx & Hy & Hr). split; [by apply known_old|]. split; [by apply known_old|].
  by rewrite anc_stable.
Qed.

Lemma self_answer_stable k r : self_answer B k r → self_answer B' k r.
Proof.
  intros (Hx & Hy & Hr). split; [by apply known_old|]. split; [by apply known_old|].
  by rewrite self_anc_stable.
Qed.

Lemma oldest_answer_stable k z : oldest_answer B k z → oldest_answer B' k z.
Proof.
  intros (Hx & Hy & Hr). split; [by apply known_old|]. split; [by apply known_old|].
  destruct Hr as [[Hz (Hs & Ha & Hmin)]|[-> Hno]].
  - left. split; [by apply known_old|]. split; [by apply self_anc_stable|].
    split; [by apply anc_stable|]. intros z' Hs' Ha'.
    apply self_anc_stable in Hs'; [|done]. pose proof (self_anc_known _ _ _ Hx Hs') as Hz'.
    apply self_anc_stable; [done|]. apply Hmin; [done|]. by apply anc_stable in Ha'.
  - right. split; [done|]. intros (z' & Hs' & Ha'). apply Hno. exists z'.
    apply self_anc_stable in Hs'; [|done]. split; [done|].
    apply anc_stable in Ha'; [done|]. exact (self_anc_known _ _ _ Hx Hs').
Qed.

Lemma strong_answer_stable k r : strong_answer ps B k r → strong_answer ps B' k r.
Proof.
  intros (Hx & Hy & Q & HQ & Hr). split; [by apply known_old|]. split; [by apply known_old|].
  exists Q. split; [|done]. intros p. by rewrite HQ, between_stable.
Qed.
End Stable.
