(* ===== verification/Graph.v ===== *)
(** The invariant of the comet graph: it holds of a new graph, and honest insertions and
    queries keep it. *)
From S2P Require Import Prelude Lru Bytes Types Caches Store CometGraph Ancestry Insert Queries.
Open Scope Z_scope.

Section Machine.
Context `{RangeOrder, Crypto} {S : Type} `{Store S, !StoreLaws S}.
Implicit Types (g : CometGraph (S := S)) (v : content) (ps : gmap string Z).

(** A store nothing was written to. *)
Record fresh_content ps v : Prop := {
  fr_comets : comets v = ∅;
  fr_rounds : rounds v = ∅;
  fr_blocks : blocks v = ∅;
  fr_roots : ∀ p, is_Some (ps !! p) → store_roots v !! p = Some NewBaseRoot;
  fr_last : last_of v = (λ _, "") <$> ps;
  fr_next : next_of v = (λ _, 0) <$> ps;
  fr_log : ∀ p i, log_of v p i = None;
  fr_members : members v = ps
}.

Record valid_insert (fuel : nat) g (c : Comet) (id : Z) (sp op : string) : Prop := {
  vi_extends : extends (Participants g) (view (store g)) c id sp op;
  vi_verify : Verify c = Ret true;
  vi_room : room_comet (view (store g));
  vi_fuel : fuel_ok fuel (view (store g));
  vi_sigs : Forall sig_ok (comet_BlockSignatures c);
  vi_new : RoundReceived c = None
}.

(** The queries a caller can make of two known events. *)
Inductive query := QAncestor | QSelfAncestor | QSee | QOldest | QStrong.

Definition run_query (q : query) (x y : string) g : CometGraph :=
  match q with
  | QAncestor => (AncestorOf x y g).2
  | QSelfAncestor => (SelfAncestor x y g).2
  | QSee => (See x y g).2
  | QOldest => (OldestSelfAncestorToSee x y g).2
  | QStrong => (StronglySee x y g).2
  end.

(** ** The invariant *)

Definition graph_inv ps g : Prop :=
  queryable ps (view (store g)) g ∧ blocks_ok (view (store g)).

Lemma fresh_graph_ok ps v : ids_ok ps → fresh_content ps v → graph_ok ps v.
Proof.
  intros Hids [Hc _ _ Hr Hl Hn _ _]. split; rewrite ?Hc, ?fmap_empty; try done.
  rewrite Hl, Hn.
  split; try done; try (by intros h b Hh; rewrite lookup_empty in Hh).
  - by rewrite dom_fmap_L.
  - by rewrite dom_fmap_L.
  - intros p n Hp. apply lookup_fmap_Some in Hp as (id & <- & _). unfold MaxInt32. lia.
  - intros p n k Hp Hk. apply lookup_fmap_Some in Hp as (id & <- & _). lia.
  - intros p n l Hp Hq. apply lookup_fmap_Some in Hp as (id & <- & _).
    apply lookup_fmap_Some in Hq as (id' & <- & _). by left.
Qed.

Lemma cache_ok_new {K V} `{Countable K} (R : K → V → Prop) sz : cache_ok R (Lru.NewLRU sz false).
Proof. split; [apply Lru.wf_NewLRU|]. intros k r. rewrite Lru.view_NewLRU. by rewrite lookup_empty. Qed.

Lemma graph_inv_new ps st ch g inst :
  ids_ok ps → store_ok st → fresh_content ps (view st) →
  BuildCometGraph ps st ch None = (Ret g, inst) → graph_inv ps g.
Proof.
  intros Hids Hok Hfr Hb. unfold BuildCometGraph in Hb. cbv beta iota delta [mbind M_bind get modify mret M_ret] in Hb.
  injection Hb as <- _. split.
  - split; simpl; auto using cache_ok_new, fresh_graph_ok.
  - intros i b. simpl. by rewrite (fr_blocks _ _ Hfr), lookup_empty.
Qed.

(** Adding a comet keeps the memo caches right. *)
Lemma cache_ok_mono {K V} `{Countable K} (R R' : K → V → Prop) c :
  (∀ k r, R k r → R' k r) → cache_ok R c → cache_ok R' c.
Proof. intros HR [? Hc]. split; [done|]. eauto. Qed.

Lemma queryable_insert ps g g' c v' id sp op sw topo :
  queryable ps (view (store g)) g → extends ps (view (store g)) c id sp op →
  insert_post ps (view (store g)) c id op sw topo v' → at_store (booked c g) v' g' →
  queryable ps v' g'.
Proof.
  intros [Hps Hmp _ _ Hgr Ha Hs Ho Hss] Hx [Hgr' HB _ _ _ _ _ _ _ _ _ _] (t & -> & Hok & Hv).
  set (v := view (store g)) in *.
  assert (fields (kept_body ps v op id sw c) = fields (Body c)) as Hf by (by destruct sw).
  assert (extends ps v (set_coordinates [] [] (mkComet (kept_body ps v op id sw c) "" 0 None 0 [] [])) id sp op)
    as Hx' by (eapply extends_fields; [|exact Hx]; done).
  set (c' := set_coordinates _ _ _) in Hx'.
  assert (Hex c' = Hex c) as Hhex by (unfold Hex, body_Hash; simpl; by rewrite Hf).
  assert (Body <$> comets v' = <[Hex c' := Body c']> (Body <$> comets v)) as HB' by (by rewrite Hhex).
  destruct Hx' as [Hfresh Hid Hnext Hmax Hsp Hlast Hop Hk].
  assert ((Body <$> comets v) !! Hex c' = None) as HfB by (by rewrite lookup_fmap, Hfresh).
  assert (op = "" ∨ is_Some ((Body <$> comets v) !! op)) as HkB
    by (by rewrite lookup_fmap, fmap_is_Some).
  pose proof (g_dag _ _ Hgr) as Hd.
  unfold booked. destruct (IsLoaded c); split; simpl; try done; rewrite HB';
    (eapply cache_ok_mono; [|eassumption]; intros k r;
     first [eapply anc_answer_stable|eapply self_answer_stable|eapply oldest_answer_stable|
            eapply strong_answer_stable]; eauto).
Qed.

Lemma graph_inv_insert ps fuel g c sw id sp op :
  graph_inv ps g → valid_insert fuel g c id sp op →
  wp (InsertComet fuel c sw) g (λ o g', o = Ret tt ∧ graph_inv ps g' ∧
    insert_post ps (view (store g)) c id op sw (topologicalIndex g) (view (store g')) ∧
    ∃ t, g' = upd_store t (booked c g)).
Proof.
  intros [Hq Hbl] [Hx Hver Hroom Hf Hs]. pose proof Hq as [Hps _ Hok _ Hgr _ _ _ _].
  rewrite Hps in Hx.
  eapply wp_mono.
  - apply (InsertComet_spec fuel g c sw id sp op); rewrite ?Hps; eauto.
  - rewrite Hps. intros o g' (-> & v' & Hpost & Hat). split; [done|].
    assert (view (store g') = v') as Hv by (by destruct Hat as (t & -> & _ & ?)).
    assert (queryable ps v' g') as Hq' by (by eapply queryable_insert). rewrite Hv.
    split; [split|split]; rewrite ?Hv; [done|apply Hpost|done|].
    destruct Hat as (t & -> & _). by exists t.
Qed.

Lemma asks_start ps g : graph_inv ps g → asks ps (view (store g)) g g.
Proof. intros [Hq _]. split; [done|apply quiet_refl]. Qed.

Lemma graph_inv_asks ps v g0 g : blocks_ok v → asks ps v g0 g → graph_inv ps g.
Proof. intros Hbl [Hq _]. unfold graph_inv. rewrite (q_view _ _ _ Hq). done. Qed.

Lemma query_asks ps g q x y :
  graph_inv ps g →
  known (Body <$> comets (view (store g))) x → known (Body <$> comets (view (store g))) y →
  asks ps (view (store g)) g (run_query q x y g).
Proof.
  intros Hg Hx Hy. pose proof (asks_start ps g Hg) as Ha.
  destruct q; simpl; unfold See;
    [destruct (AncestorOf_spec _ _ _ _ x y Ha Hx Hy) as (r & _ & _ & Hr)
    |destruct (SelfAncestor_spec _ _ _ _ x y Ha Hx Hy) as (r & _ & _ & Hr)
    |destruct (AncestorOf_spec _ _ _ _ x y Ha Hx Hy) as (r & _ & _ & Hr)
    |destruct (OldestSelfAncestorToSee_spec _ _ _ _ x y Ha Hx Hy) as (r & _ & _ & Hr)
    |destruct (StronglySee_spec _ _ _ _ x y Ha Hx Hy) as (r & _ & _ & Hr)]; exact Hr.
Qed.

Lemma graph_inv_query ps g q x y :
  graph_inv ps g →
  known (Body <$> comets (view (store g))) x → known (Body <$> comets (view (store g))) y →
  graph_inv ps (run_query q x y g).
Proof. intros Hg Hx Hy. eapply graph_inv_asks; [apply Hg|]. by apply query_asks. Qed.
End Machine.
