(* ===== verification/Rounds.v ===== *)
(** The round of a comet, and whether it is a witness, as functions of the graph alone;
    [Round], [Witness] and [DivideRounds] compute them. *)
From S2P Require Import Prelude Lru Bytes Types Caches Store CometGraph Ancestry Insert Queries Graph.
Open Scope Z_scope.

(** ** What rounds are *)
Section Spec.
Context `{Crypto} (ps : gmap string Z).
Implicit Types (B : gmap string CometBody) (R : gmap string Z) (b : CometBody) (W : gset string).

Definition parent_name (o : outcome string) : string := match o with Ret h => h | _ => "" end.
Definition b_sp b : string := parent_name (b_self b).
Definition b_op b : string := parent_name (b_other b).

(** No event is its own ancestor: the edges go down in [rank], which is below the
    number of events. *)
Definition ranked B (rank : string → nat) : Prop :=
  (∀ x y, edge B x y → (rank y < rank x)%nat) ∧ (∀ x, known B x → (rank x < base.size B)%nat).

Definition rnd R (x : string) : Z := default (-1) (R !! x).

(** The larger of the parents' rounds; a missing parent is a root, of round -1. *)
Definition parent_info B R b : ParentRoundInfo :=
  let spi := if bool_decide (b_sp b = "") then mkPRI (-1) true else mkPRI (rnd R (b_sp b)) false in
  let opi := match B !! b_op b with
             | Some _ => mkPRI (rnd R (b_op b)) false
             | None => mkPRI (-1) true
             end in
  if bool_decide (pri_Round spi < pri_Round opi) then opi else spi.

(** The first event of its creator in its round. *)
Definition is_witness R (x : string) b : Prop :=
  b_sp b = "" ∧ b_op b = "" ∨ rnd R (b_sp b) < rnd R x.

Definition strongly B (x y : string) : Prop :=
  ∃ Q : gset string, (∀ p, p ∈ Q ↔ is_Some (ps !! p) ∧ between B x y p) ∧
                     MostPlurality_of ps ≤ Z.of_nat (base.size Q).

(** The witnesses of round [r] that [x] strongly sees. *)
Definition seen_witnesses B R (x : string) (r : Z) W : Prop :=
  ∀ w, w ∈ W ↔ w ≠ x ∧ ∃ b, B !! w = Some b ∧ rnd R w = r ∧ is_witness R w b ∧ strongly B x w.

(** The round is that of the parents, or the next one when the comet follows a root
    or strongly sees enough witnesses. *)
Definition round_ok B R (x : string) b (r : Z) : Prop :=
  let pi := parent_info B R b in
  ∃ (W : gset string) (inc : bool), seen_witnesses B R x (pri_Round pi) W ∧
    (inc = true ↔ pri_IsRoot pi = true ∨ MostPlurality_of ps ≤ Z.of_nat (base.size W)) ∧
    r = if inc then pri_Round pi + 1 else pri_Round pi.

Definition rounds_ok B R : Prop :=
  dom R = dom B ∧ ∀ x b, B !! x = Some b → round_ok B R x b (rnd R x).

Lemma round_parent B R x b r : round_ok B R x b r → pri_Round (parent_info B R b) ≤ r.
Proof. intros (W & inc & _ & _ & ->). destruct inc; lia. Qed.

Lemma strongly_unique B x y (Q : gset string) :
  (∀ p, p ∈ Q ↔ is_Some (ps !! p) ∧ between B x y p) →
  strongly B x y ↔ MostPlurality_of ps ≤ Z.of_nat (base.size Q).
Proof.
  intros HQ. split; [|by exists Q].
  intros (Q' & HQ' & Hle). by replace Q with Q' by (apply set_eq; intros p; by rewrite HQ, HQ').
Qed.

Lemma strong_answer_strongly B k r :
  strong_answer ps B k r → r = true ↔ strongly B (key_x k) (key_y k).
Proof. intros (_ & _ & Q & HQ & ->). by rewrite strongly_unique. Qed.

Lemma MostPlurality_pos : 1 ≤ MostPlurality_of ps.
Proof. unfold MostPlurality_of. pose proof (Z.div_pos (2 * Z.of_nat (base.size ps)) 3). lia. Qed.

(** What is strongly seen is an ancestor. *)
Lemma strongly_anc B x y : strongly B x y → anc B x y.
Proof.
  intros (Q & HQ & Hle). pose proof MostPlurality_pos.
  destruct (set_choose_or_empty Q) as [[p Hp]|Hemp].
  - apply HQ in Hp as (_ & z & b & _ & _ & Hxz & Hzy). by eapply anc_trans.
  - apply size_empty_iff in Hemp. lia.
Qed.

Lemma ranked_anc B rank x y : ranked B rank → anc B x y → x = y ∨ (rank y < rank x)%nat.
Proof.
  intros [Hr _] Ha. induction Ha as [|x z y Hxz _ IH]; [by left|right].
  apply Hr in Hxz. destruct IH as [->|?]; lia.
Qed.

(** With two participants or more, nobody strongly sees itself. *)
Lemma not_strongly_self B rank x b :
  ranked B rank → B !! x = Some b → 2 ≤ Z.of_nat (base.size ps) → ¬ strongly B x x.
Proof.
  intros Hr Hb Hn (Q & HQ & Hle).
  assert (Q ⊆ {[ b_creator b ]}) as Hsub.
  { intros p Hp. apply HQ in Hp as (_ & z & bz & Hz & <- & Hxz & Hzx).
    assert (z = x) as ->.
    { destruct (ranked_anc _ _ _ _ Hr Hxz), (ranked_anc _ _ _ _ Hr Hzx); auto; lia. }
    assert (bz = b) as -> by congruence. by apply elem_of_singleton. }
  apply subseteq_size in Hsub. rewrite size_singleton in Hsub.
  unfold MostPlurality_of in Hle.
  assert (1 ≤ 2 * Z.of_nat (base.size ps) / 3) by (apply Z.div_le_lower_bound; lia). lia.
Qed.

Lemma dag_b_sp B next last x b :
  dag_ok ps B next last → B !! x = Some b →
  b_self b = Ret (b_sp b) ∧ (b_sp b = "" ∨ known B (b_sp b)).
Proof.
  intros Hd Hb. unfold b_sp, known.
  destruct (dag_self _ _ _ _ Hd x b Hb) as [[_ ->]|(h & b' & -> & Hb' & _)]; simpl; [auto|].
  split; [done|]. right. by eexists.
Qed.

Lemma dag_b_op B next last x b :
  dag_ok ps B next last → B !! x = Some b →
  b_other b = Ret (b_op b) ∧ (b_op b = "" ∨ known B (b_op b)).
Proof.
  intros Hd Hb. unfold b_op, known.
  destruct (dag_other _ _ _ _ Hd x b Hb) as [->|(h & -> & Hb')]; simpl; auto.
Qed.

Lemma edge_sp B next last x b :
  dag_ok ps B next last → B !! x = Some b → known B (b_sp b) → edge B x (b_sp b).
Proof.
  intros Hd Hb Hk. exists b. split; [done|]. split; [done|]. left. by eapply dag_b_sp.
Qed.

Lemma edge_op B next last x b :
  dag_ok ps B next last → B !! x = Some b → known B (b_op b) → edge B x (b_op b).
Proof.
  intros Hd Hb Hk. exists b. split; [done|]. split; [done|]. right. by eapply dag_b_op.
Qed.
End Spec.

(** ** Rounds do not depend on who computes them *)
Section Agree.
Context `{Crypto} (ps : gmap string Z).
Context (B1 B2 : gmap string CometBody) (next1 next2 : gmap string Z) (last1 last2 : gmap string string).
Context (Hd1 : dag_ok ps B1 next1 last1) (Hd2 : dag_ok ps B2 next2 last2).

(** Equal names mean equal contents (up to the wire fields). *)
Definition same_events : Prop :=
  ∀ h b1 b2, B1 !! h = Some b1 → B2 !! h = Some b2 → fields b1 = fields b2.
Context (Hsame : same_events).

Lemma same_parents h b1 b2 :
  B1 !! h = Some b1 → B2 !! h = Some b2 →
  b_creator b1 = b_creator b2 ∧ b_self b1 = b_self b2 ∧ b_other b1 = b_other b2.
Proof.
  intros Hb1 Hb2. unfold b_creator, b_self, b_other. by rewrite (Hsame h b1 b2 Hb1 Hb2).
Qed.

(** The parents a common event has in one graph it has in the other. *)
Lemma edge_agree x y : known B1 x → known B2 x → edge B1 x y → known B2 y ∧ edge B2 x y.
Proof.
  intros [b1 Hb1] [b2 Hb2] (b & Hb & Hy & Hpar). assert (b = b1) as -> by congruence.
  destruct (same_parents x b1 b2 Hb1 Hb2) as (_ & Hs & Ho). rewrite Hs, Ho in Hpar.
  assert (y ≠ "") as Hne.
  { intros ->. destruct Hy as [by_ Hy]. by rewrite (dag_ne_empty _ _ _ _ Hd1) in Hy. }
  assert (known B2 y) as Hk.
  { destruct Hpar as [Hpar|Hpar].
    - destruct (dag_b_sp ps B2 _ _ x b2 Hd2 Hb2) as [Hsp Hk]. rewrite Hsp in Hpar.
      injection Hpar as Hpar. rewrite Hpar in Hk. by destruct Hk.
    - destruct (dag_b_op ps B2 _ _ x b2 Hd2 Hb2) as [Hop Hk]. rewrite Hop in Hpar.
      injection Hpar as Hpar. rewrite Hpar in Hk. by destruct Hk. }
  split; [done|]. by exists b2.
Qed.

Lemma anc_agree x y : known B1 x → known B2 x → anc B1 x y → known B2 y ∧ anc B2 x y.
Proof.
  intros Hx1 Hx2 Ha. induction Ha as [x|x z y Hxz Hzy IH]; [split; [done|apply anc_refl]|].
  destruct (edge_agree x z Hx1 Hx2 Hxz) as [Hz2 He].
  assert (known B1 z) as Hz1 by (by destruct Hxz as (? & _ & ? & _)).
  destruct (IH Hz1 Hz2) as [Hy2 Ha]. split; [done|]. by eapply rtc_l.
Qed.

Lemma between_agree x y p :
  known B1 x → known B2 x → between B1 x y p → between B2 x y p.
Proof.
  intros Hx1 Hx2 (z & b & Hz & Hc & Hxz & Hzy).
  destruct (anc_agree x z Hx1 Hx2 Hxz) as [[b2 Hz2] Hxz2].
  exists z, b2. split; [done|]. destruct (same_parents z b b2 Hz Hz2) as [Hcc _].
  split; [congruence|]. split; [done|]. apply anc_agree; [by eexists|by eexists|done].
Qed.
End Agree.

Section AgreeRounds.
Context `{Crypto} (ps : gmap string Z).
Context (B1 B2 : gmap string CometBody) (next1 next2 : gmap string Z) (last1 last2 : gmap string string).
Context (Hd1 : dag_ok ps B1 next1 last1) (Hd2 : dag_ok ps B2 next2 last2).
Context (Hsame : same_events B1 B2).
Context (R1 R2 : gmap string Z) (HR1 : rounds_ok ps B1 R1) (HR2 : rounds_ok ps B2 R2).
Context (rank : string → nat) (Hrank : ranked B1 rank).

Lemma same_events_sym : same_events B2 B1.
Proof. intros h b2 b1 Hb2 Hb1. symmetry. by apply (Hsame h). Qed.

Lemma strongly_agree x y : known B1 x → known B2 x → strongly ps B1 x y ↔ strongly ps B2 x y.
Proof.
  intros Hx1 Hx2. unfold strongly.
  assert (∀ p, between B1 x y p ↔ between B2 x y p) as Hb.
  { intros p. split; [by eapply between_agree|].
    eapply between_agree; eauto using same_events_sym. }
  by setoid_rewrite Hb.
Qed.

(** Rounds agree on the common events below a rank. *)
Definition agree_below (k : nat) : Prop :=
  ∀ y, known B1 y → known B2 y → (rank y < k)%nat → rnd R1 y = rnd R2 y.

Lemma rnd_empty B R next last : dag_ok ps B next last → rounds_ok ps B R → rnd R "" = -1.
Proof.
  intros Hd [Hdom _]. unfold rnd. rewrite (proj1 (not_elem_of_dom R "")); [done|].
  rewrite Hdom. apply not_elem_of_dom. by eapply dag_ne_empty.
Qed.

Lemma agree_parent k x y :
  agree_below k → known B1 x → known B2 x → (rank x ≤ k)%nat →
  y = "" ∨ edge B1 x y → rnd R1 y = rnd R2 y.
Proof.
  intros IH Hx1 Hx2 Hk [->|He].
  - rewrite (rnd_empty B1 R1 next1 last1), (rnd_empty B2 R2 next2 last2); done.
  - destruct (edge_agree ps B1 B2 _ _ _ _ Hd1 Hd2 Hsame x y Hx1 Hx2 He) as [Hy2 _].
    apply IH; [by destruct He as (? & _ & ? & _)|done|]. pose proof (proj1 Hrank _ _ He). lia.
Qed.

Lemma parents_agree k x b1 b2 :
  agree_below k → B1 !! x = Some b1 → B2 !! x = Some b2 → (rank x ≤ k)%nat →
  b_sp b1 = b_sp b2 ∧ b_op b1 = b_op b2 ∧
  rnd R1 (b_sp b1) = rnd R2 (b_sp b1) ∧ rnd R1 (b_op b1) = rnd R2 (b_op b1) ∧
  (is_Some (B1 !! b_op b1) ↔ is_Some (B2 !! b_op b1)).
Proof.
  intros IH Hb1 Hb2 Hk.
  destruct (same_parents B1 B2 Hsame x b1 b2 Hb1 Hb2) as (_ & Hs & Ho).
  assert (b_sp b1 = b_sp b2) as Hs' by (unfold b_sp; by rewrite Hs).
  assert (b_op b1 = b_op b2) as Ho' by (unfold b_op; by rewrite Ho).
  destruct (dag_b_sp ps B1 _ _ x b1 Hd1 Hb1) as [_ Hks].
  destruct (dag_b_op ps B1 _ _ x b1 Hd1 Hb1) as [_ Hko].
  destruct (dag_b_op ps B2 _ _ x b2 Hd2 Hb2) as [_ Hko2]. rewrite <-Ho' in Hko2.
  split; [done|]. split; [done|]. split; [|split].
  - eapply agree_parent; eauto; [by eexists|by eexists|].
    destruct Hks; [by left|right; by eapply edge_sp].
  - eapply agree_parent; eauto; [by eexists|by eexists|].
    destruct Hko; [by left|right; by eapply edge_op].
  - assert (∀ (B : gmap string CometBody), B !! "" = None → ¬ is_Some (B !! "")) as Hno.
    { intros B -> [? ?]. done. }
    split; intros Hi.
    + destruct Hko2 as [He|?]; [|done]. rewrite He in Hi.
      by destruct (Hno B1 (dag_ne_empty _ _ _ _ Hd1)).
    + destruct Hko as [He|?]; [|done]. rewrite He in Hi.
      by destruct (Hno B2 (dag_ne_empty _ _ _ _ Hd2)).
Qed.

Lemma parent_info_agree k x b1 b2 :
  agree_below k → B1 !! x = Some b1 → B2 !! x = Some b2 → (rank x ≤ k)%nat →
  parent_info B1 R1 b1 = parent_info B2 R2 b2.
Proof.
  intros IH Hb1 Hb2 Hk. destruct (parents_agree k x b1 b2 IH Hb1 Hb2 Hk) as (Hs & Ho & Hrs & Hro & Hi).
  unfold parent_info. rewrite <-Hs, <-Ho, Hrs, Hro.
  destruct (B1 !! b_op b1), (B2 !! b_op b1); try done; exfalso.
  - destruct (proj1 Hi ltac:(by eexists)). done.
  - destruct (proj2 Hi ltac:(by eexists)). done.
Qed.

Lemma is_witness_agree k w b1 b2 :
  agree_below k → B1 !! w = Some b1 → B2 !! w = Some b2 → (rank w < k)%nat →
  rnd R1 w = rnd R2 w ∧ (is_witness R1 w b1 ↔ is_witness R2 w b2).
Proof.
  intros IH Hb1 Hb2 Hk.
  destruct (parents_agree k w b1 b2 IH Hb1 Hb2 ltac:(lia)) as (Hs & Ho & Hrs & _).
  assert (rnd R1 w = rnd R2 w) as Hr by (apply IH; [by eexists|by eexists|done]).
  split; [done|]. unfold is_witness. by rewrite <-Hs, <-Ho, Hrs, Hr.
Qed.

Lemma seen_witnesses_agree x r W1 W2 :
  agree_below (rank x) → known B1 x → known B2 x →
  seen_witnesses ps B1 R1 x r W1 → seen_witnesses ps B2 R2 x r W2 → W1 = W2.
Proof.
  intros IH Hx1 Hx2 HW1 HW2. apply set_eq. intros w. rewrite (HW1 w), (HW2 w).
  assert (∀ w, w ≠ x → anc B1 x w → (rank w < rank x)%nat) as Hlt.
  { intros w' Hne Ha. destruct (ranked_anc B1 rank x w' Hrank Ha); [congruence|done]. }
  split; intros (Hne & b & Hb & Hr & Hw & Hs); (split; [done|]).
  - pose proof (strongly_anc ps B1 x w Hs) as Ha.
    destruct (anc_agree ps B1 B2 _ _ _ _ Hd1 Hd2 Hsame x w Hx1 Hx2 Ha) as [[b2 Hb2] _].
    destruct (is_witness_agree (rank x) w b b2 IH Hb Hb2 (Hlt w Hne Ha)) as [Hrr Hww].
    exists b2. split; [done|]. rewrite <-Hrr, <-Hww, <-strongly_agree by done. done.
  - pose proof (strongly_anc ps B2 x w Hs) as Ha.
    destruct (anc_agree ps B2 B1 _ _ _ _ Hd2 Hd1 same_events_sym x w Hx2 Hx1 Ha) as [[b1 Hb1] Ha1].
    destruct (is_witness_agree (rank x) w b1 b IH Hb1 Hb (Hlt w Hne Ha1)) as [Hrr Hww].
    exists b1. split; [done|]. rewrite Hrr, Hww, strongly_agree by done. done.
Qed.

Lemma rounds_agree x : known B1 x → known B2 x → rnd R1 x = rnd R2 x.
Proof.
  remember (rank x) as k eqn:Hk. revert x Hk.
  induction k as [k IH] using lt_wf_ind. intros x -> Hx1 Hx2.
  assert (agree_below (rank x)) as Hbelow.
  { intros y Hy1 Hy2 Hlt. by apply (IH (rank y)). }
  destruct Hx1 as [b1 Hb1], Hx2 as [b2 Hb2].
  destruct (proj2 HR1 x b1 Hb1) as (W1 & i1 & HW1 & Hi1 & ->).
  destruct (proj2 HR2 x b2 Hb2) as (W2 & i2 & HW2 & Hi2 & ->).
  rewrite (parent_info_agree (rank x) x b1 b2 Hbelow Hb1 Hb2 ltac:(lia)) in *.
  assert (W1 = W2) as -> by (eapply seen_witnesses_agree; eauto; by eexists).
  assert (i1 = i2) as -> by (destruct i1, i2; try done; naive_solver).
  done.
Qed.

Lemma witness_agree x b1 b2 :
  B1 !! x = Some b1 → B2 !! x = Some b2 → is_witness R1 x b1 ↔ is_witness R2 x b2.
Proof.
  intros Hb1 Hb2. eapply (is_witness_agree (S (rank x))); eauto.
  intros y Hy1 Hy2 _. by apply rounds_agree.
Qed.
End AgreeRounds.

(** ** Adding a comet *)

Lemma exists_filter {A} `{Countable A} (D : gset A) (P : A → Prop) :
  (∀ x, x ∈ D → P x ∨ ¬ P x) → ∃ W : gset A, ∀ x, x ∈ W ↔ x ∈ D ∧ P x.
Proof.
  induction D as [|x D Hx IH] using set_ind_L; intros Hdec.
  - exists ∅. set_solver.
  - destruct IH as [W HW]; [set_solver|]. destruct (Hdec x) as [Hp|Hp]; [set_solver|..].
    + exists ({[x]} ∪ W). intros y. rewrite !elem_of_union, HW, !elem_of_singleton. naive_solver.
    + exists W. intros y. rewrite HW, elem_of_union, elem_of_singleton. naive_solver.
Qed.

#[export] Instance is_witness_dec `{Crypto} R x b : Decision (is_witness R x b).
Proof. unfold is_witness. apply _. Defined.

Section Extend.
Context `{Crypto} (ps : gmap string Z) (B : gmap string CometBody) (next : gmap string Z)
  (last : gmap string string).
Context (Hd : dag_ok ps B next last).
Context (hx : string) (bx : CometBody) (sp op : string) (n : Z).
Context (Hfresh : B !! hx = None) (Hname : b_name bx = hx).
Context (Hnext : next !! b_creator bx = Some n) (Hidx : b_index bx = n) (Hmax : n < MaxInt32).
Context (Hsp : b_self bx = Ret sp) (Hlast : last !! b_creator bx = Some sp).
Context (Hop : b_other bx = Ret op) (Hopk : op = "" ∨ is_Some (B !! op)).
Context (R : gmap string Z) (HR : rounds_ok ps B R).
Abbreviation B' := (<[hx := bx]> B).

Lemma strongly_stable x y : known B x → strongly ps B' x y ↔ strongly ps B x y.
Proof.
  intros Hx. unfold strongly.
  assert (∀ p, between B' x y p ↔ between B x y p) as Hb by (intros p; by eapply between_stable).
  by setoid_rewrite Hb.
Qed.

Lemma rnd_old r y : y ≠ hx → rnd (<[hx := r]> R) y = rnd R y.
Proof. intros Hne. unfold rnd. by rewrite lookup_insert_ne. Qed.

Lemma old_parents_ne x b : B !! x = Some b → b_sp b ≠ hx ∧ b_op b ≠ hx.
Proof.
  intros Hb. assert (hx ≠ "") as Hne by (by eapply hx_ne_empty).
  destruct (dag_b_sp ps B _ _ x b Hd Hb) as [_ Hs], (dag_b_op ps B _ _ x b Hd Hb) as [_ Ho].
  split; intros Heq; [rewrite Heq in Hs; destruct Hs as [?|[? ?]]|
                      rewrite Heq in Ho; destruct Ho as [?|[? ?]]]; congruence.
Qed.

Lemma parent_info_stable r x b :
  B !! x = Some b → parent_info B' (<[hx := r]> R) b = parent_info B R b.
Proof.
  intros Hb. destruct (old_parents_ne x b Hb) as [Hs Ho].
  unfold parent_info. rewrite !rnd_old by done. by rewrite lookup_insert_ne by done.
Qed.

Lemma is_witness_stable r w b :
  B !! w = Some b → is_witness (<[hx := r]> R) w b ↔ is_witness R w b.
Proof.
  intros Hb. destruct (old_parents_ne w b Hb) as [Hs Ho].
  unfold is_witness. rewrite !rnd_old; [done|congruence|done].
Qed.

Lemma round_ok_stable r x b rx :
  B !! x = Some b → round_ok ps B R x b rx → round_ok ps B' (<[hx := r]> R) x b rx.
Proof.
  intros Hb (W & inc & HW & Hinc & ->). exists W, inc. rewrite (parent_info_stable r x b Hb).
  split; [|done]. intros w. rewrite (HW w). split; intros (Hne & bw & Hbw & Hr & Hw & Hs); (split; [done|]).
  - assert (w ≠ hx) by congruence. exists bw. rewrite lookup_insert_ne, rnd_old by done.
    rewrite is_witness_stable, strongly_stable by (done || by eexists). done.
  - assert (w ≠ hx) as Hnx.
    { intros ->. apply strongly_anc in Hs. revert Hs. eapply anc_to_new; eauto. }
    rewrite lookup_insert_ne in Hbw by done. rewrite rnd_old in Hr by done.
    rewrite is_witness_stable, strongly_stable in * by (done || by eexists). eauto.
Qed.

Lemma rounds_extend :
  (∀ w, known B w → strongly ps B' hx w ∨ ¬ strongly ps B' hx w) →
  ∃ r, rounds_ok ps B' (<[hx := r]> R).
Proof.
  intros Hdec. set (pi := parent_info B R bx).
  destruct (exists_filter (dom B) (λ w, ∃ b, B !! w = Some b ∧ rnd R w = pri_Round pi ∧
    is_witness R w b ∧ strongly ps B' hx w)) as [W HW].
  { intros w [b Hb]%elem_of_dom. destruct (Hdec w ltac:(by eexists)) as [Hs|Hs].
    - destruct (decide (rnd R w = pri_Round pi ∧ is_witness R w b)) as [[? ?]|Hno]; [left; eauto|].
      right. intros (b' & Hb' & ? & ? & _). apply Hno. by assert (b' = b) as <- by congruence.
    - right. naive_solver. }
  set (inc := pri_IsRoot pi || bool_decide (MostPlurality_of ps ≤ Z.of_nat (base.size W))).
  exists (if inc then pri_Round pi + 1 else pri_Round pi). set (r := if inc then _ else _).
  assert (hx ≠ "") as Hne by (by eapply hx_ne_empty).
  assert (b_sp bx = sp ∧ b_op bx = op) as [Hsp' Hop'] by (unfold b_sp, b_op; by rewrite Hsp, Hop).
  assert (sp ≠ hx ∧ op ≠ hx) as [Hs Ho].
  { split; intros ->.
    - destruct (dag_last _ _ _ _ Hd _ _ _ Hnext Hlast) as [[_ ?]|(b0 & ? & _)]; congruence.
    - destruct Hopk as [?|[? ?]]; congruence. }
  assert (parent_info B' (<[hx := r]> R) bx = pi) as Hpi.
  { unfold pi, parent_info. rewrite Hsp', Hop', !rnd_old by done. by rewrite lookup_insert_ne. }
  split; [rewrite !dom_insert_L; by rewrite (proj1 HR)|].
  intros x b [[<- <-]|[Hxne Hb]]%lookup_insert_Some.
  - exists W, inc. rewrite Hpi. split; [|split].
    + intros w. rewrite (HW w). split.
      * intros [[b Hb]%elem_of_dom (b' & Hb' & Hr & Hw & Hst)]. assert (w ≠ hx) by congruence.
        split; [done|]. exists b'. rewrite lookup_insert_ne, rnd_old by done.
        by rewrite is_witness_stable.
      * intros (Hwne & b & Hb & Hr & Hw & Hst). rewrite lookup_insert_ne in Hb by done.
        split; [by apply elem_of_dom; eexists|]. rewrite rnd_old in Hr by done.
        rewrite is_witness_stable in Hw by done. eauto.
    + unfold inc. by rewrite orb_true_iff, bool_decide_eq_true.
    + unfold rnd. by rewrite lookup_insert_eq.
  - rewrite rnd_old by done. apply round_ok_stable; [done|]. by apply HR.
Qed.

Lemma ranked_extend rank :
  ranked B rank → ranked B' (λ y, if decide (y = hx) then base.size B else rank y).
Proof.
  intros [Hedge Hsize]. split.
  - intros x y Hxy.
    assert (y ≠ hx) as Hyne.
    { intros ->. destruct (decide (x = hx)) as [->|Hxne].
      - destruct Hxy as (b & Hb & _ & Hpar). rewrite lookup_insert_eq in Hb. injection Hb as <-.
        rewrite Hsp, Hop in Hpar. destruct Hpar as [[= ->]|[= ->]].
        + destruct (dag_last _ _ _ _ Hd _ _ _ Hnext Hlast) as [[_ ?]|(b0 & ? & _)]; [|congruence].
          by eapply hx_ne_empty.
        + destruct Hopk as [?|[? ?]]; [by eapply hx_ne_empty|congruence].
      - assert (known B x) as Hx by (destruct Hxy as (b & Hb & _); rewrite lookup_insert_ne in Hb by done; by eexists).
        pose proof (rtc_once _ _ Hxy : anc B' x hx) as Hanc. revert Hanc. eapply anc_to_new; eauto. }
    rewrite (decide_False (P := y = hx)) by done. case_decide as Hx.
    + apply Hsize. destruct Hxy as (b & _ & Hy & _). by rewrite lookup_insert_ne in Hy.
    + apply Hedge. eapply edge_old; eauto.
      destruct Hxy as (b & Hb & _). rewrite lookup_insert_ne in Hb by done. by eexists.
  - intros x Hx. rewrite map_size_insert_None by done. case_decide as He; [lia|].
    unfold known in Hx. rewrite lookup_insert_ne in Hx by done. specialize (Hsize x Hx). lia.
Qed.
End Extend.
