(* ===== verification/Fame.v ===== *)
(** The fame of a witness as a function of the graph alone: the votes of the later witnesses, the
    round that decides, and why no two nodes decide differently while fewer than a third of the
    participants show different histories to different nodes. *)
From S2P Require Import Prelude Lru Bytes Types Caches Store CometGraph Ancestry Insert Queries Graph Rounds.
Open Scope Z_scope.

(** ** Counting participants *)

Lemma size_set_map_inj `{Countable A, Countable B} (f : A → B) (X : gset A) :
  (∀ x y, x ∈ X → y ∈ X → f x = f y → x = y) → base.size (set_map f X : gset B) = base.size X.
Proof.
  induction X as [|x X Hx IH] using set_ind_L; intros Hinj; [by rewrite set_map_empty, !size_empty|].
  rewrite set_map_union_L, set_map_singleton_L, !size_union, !size_singleton, IH; [done|..].
  - intros y z Hy Hz. apply Hinj; set_solver.
  - set_solver.
  - intros y Hy%elem_of_singleton (z & Hz & HzX)%elem_of_map. apply Hx.
    rewrite (Hinj x z); [done|set_solver..|congruence].
Qed.

(** ** Votes *)
Section Votes.
Context `{Crypto} (ps : gmap string Z) (B : gmap string CometBody) (R : gmap string Z).

Definition wit (y : string) (j : Z) : Prop := ∃ b, B !! y = Some b ∧ rnd R y = j ∧ is_witness R y b.

Definition coin (y : string) : bool := match middleBit y with Ret c => c | _ => false end.

Definition majority (yays nays : Z) : bool := bool_decide (nays ≤ yays).
Definition support (yays nays : Z) : Z := if majority yays nays then yays else nays.

(** The vote after counting: the majority, or in a coin round without a quorum the coin. *)
Definition verdict (diff : Z) (y : string) (yays nays : Z) : bool :=
  if normal_round diff (Z.of_nat (base.size ps)) || bool_decide (MostPlurality_of ps ≤ support yays nays)
  then majority yays nays else coin y.

(** How the witness [y] votes on the fame of [x], a witness of round [i]: in the next round whether
    it sees [x], later after the votes of the witnesses [W] it strongly sees, of which [Y] say yes. *)
Inductive voted (x : string) (i : Z) : string → bool → Prop :=
| voted_see y b : wit y (i + 1) → (b = true ↔ anc B y x) → voted x i y b
| voted_count y j (W Y : gset string) :
    i + 1 < j → wit y j → seen_witnesses ps B R y (j - 1) W → Y ⊆ W →
    (∀ w, w ∈ W → voted x i w (bool_decide (w ∈ Y))) →
    voted x i y (verdict (j - i) y (Z.of_nat (base.size Y)) (Z.of_nat (base.size (W ∖ Y)))).

(** The poll that [y] takes among the witnesses of the round before. *)
Record poll (x : string) (i : Z) (y : string) (j : Z) (W Y : gset string) : Prop := {
  po_late : i + 1 < j;
  po_wit : wit y j;
  po_seen : seen_witnesses ps B R y (j - 1) W;
  po_sub : Y ⊆ W;
  po_votes : ∀ w, w ∈ W → voted x i w (bool_decide (w ∈ Y))
}.

(** Outside the coin rounds a poll with a quorum decides. *)
Definition decided_at (x : string) (i : Z) (f : bool) (j : Z) : Prop :=
  ∃ y W Y, poll x i y j W Y ∧ normal_round (j - i) (Z.of_nat (base.size ps)) = true ∧
    f = majority (Z.of_nat (base.size Y)) (Z.of_nat (base.size (W ∖ Y))) ∧
    MostPlurality_of ps ≤ support (Z.of_nat (base.size Y)) (Z.of_nat (base.size (W ∖ Y))).

Definition decided (x : string) (i : Z) (f : bool) : Prop := ∃ j, decided_at x i f j.

Lemma voted_wit x i y b : voted x i y b → ∃ j, i < j ∧ wit y j.
Proof. intros [|]; eexists; (split; [|done]); lia. Qed.

Lemma wit_round y j j' : wit y j → wit y j' → j = j'.
Proof. intros (? & _ & <- & _) (? & _ & <- & _). done. Qed.

Lemma seen_wit y r W w : seen_witnesses ps B R y r W → w ∈ W → wit w r ∧ strongly ps B y w.
Proof. intros HW Hw. apply HW in Hw as (_ & b & Hb & Hr & Hwi & Hs). split; [by exists b|done]. Qed.

Lemma voted_fun x i y b b' : voted x i y b → voted x i y b' → b = b'.
Proof.
  intros Hv. revert b'. induction Hv as [y b Hy Hb|y j W Y Hj Hy HW HY _ IH]; intros b' Hv'.
  - inversion Hv' as [? ? Hy' Hb'|? j' W' Y' Hj' Hy' ? ? ?]; subst.
    + apply eq_true_iff_eq. by rewrite Hb, Hb'.
    + pose proof (wit_round _ _ _ Hy Hy'). lia.
  - inversion Hv' as [? ? Hy' Hb'|? j' W' Y' Hj' Hy' HW' HY' Hvs']; subst.
    + pose proof (wit_round _ _ _ Hy Hy'). lia.
    + pose proof (wit_round _ _ _ Hy Hy') as <-.
      assert (W = W') as <- by (apply set_eq; intros w; by rewrite (HW w), (HW' w)).
      assert (Y = Y') as <-; [|done]. apply set_eq. intros w. split; intros Hw.
      * apply HY in Hw as HwW. pose proof (IH w HwW _ (Hvs' w HwW)) as He.
        rewrite (bool_decide_eq_true_2 (w ∈ Y)) in He by done. by apply eq_sym, bool_decide_eq_true in He.
      * apply HY' in Hw as HwW. pose proof (IH w HwW _ (Hvs' w HwW)) as He.
        rewrite (bool_decide_eq_true_2 (w ∈ Y')) in He by done. by apply bool_decide_eq_true in He.
Qed.

(** Everybody agrees from round [j] on. *)
Definition unanimous (x : string) (i j : Z) (f : bool) : Prop :=
  ∀ y j' b, j ≤ j' → wit y j' → voted x i y b → b = f.

(** The votes for [f] of a poll. *)
Definition backers (f : bool) (W Y : gset string) : gset string := if f then Y else W ∖ Y.

Lemma poll_backers x i y j W Y f w :
  poll x i y j W Y → w ∈ backers f W Y → w ∈ W ∧ voted x i w f.
Proof.
  intros Hp Hw. assert (w ∈ W) as HwW.
  { destruct f; simpl in Hw; [by apply (po_sub _ _ _ _ _ _ Hp)|set_solver]. }
  split; [done|]. pose proof (po_votes _ _ _ _ _ _ Hp w HwW) as Hv. destruct f; simpl in Hw.
  - by rewrite bool_decide_eq_true_2 in Hv.
  - rewrite bool_decide_eq_false_2 in Hv by set_solver. done.
Qed.

Lemma backers_size W Y f : Y ⊆ W →
  Z.of_nat (base.size (backers f W Y)) + Z.of_nat (base.size (backers (negb f) W Y)) = Z.of_nat (base.size W).
Proof.
  intros HY. pose proof (size_union_alt Y W) as Hs. replace (Y ∪ W) with W in Hs by set_solver.
  destruct f; simpl; lia.
Qed.

Lemma majority_backers W Y f :
  Z.of_nat (base.size (backers (negb f) W Y)) < Z.of_nat (base.size (backers f W Y)) →
  majority (Z.of_nat (base.size Y)) (Z.of_nat (base.size (W ∖ Y))) = f.
Proof. unfold majority. destruct f; simpl; intros; case_bool_decide; [done|lia|lia|done]. Qed.

Lemma support_backers f W Y :
  f = majority (Z.of_nat (base.size Y)) (Z.of_nat (base.size (W ∖ Y))) →
  support (Z.of_nat (base.size Y)) (Z.of_nat (base.size (W ∖ Y))) = Z.of_nat (base.size (backers f W Y)).
Proof. intros Hf. unfold support. rewrite <-Hf. by destruct f. Qed.
End Votes.

(** ** One graph *)
Section OneGraph.
Context `{Crypto} (ps : gmap string Z) (B : gmap string CometBody) (R : gmap string Z)
  (rank : string → nat) (next : gmap string Z) (last : gmap string string).
Context (Hd : dag_ok ps B next last) (HR : rounds_ok ps B R) (Hrank : ranked B rank)
  (Hn : 2 ≤ Z.of_nat (base.size ps)).

(** The rounds do not fall along ancestry. *)
Lemma rnd_edge x y : edge B x y → rnd R y ≤ rnd R x.
Proof.
  intros (b & Hb & Hy & Hpar). pose proof (round_parent _ _ _ _ _ _ (proj2 HR x b Hb)) as Hle.
  unfold parent_info in Hle. destruct Hy as [by_ Hy].
  assert (y ≠ "") as Hne by (intros ->; by rewrite (dag_ne_empty _ _ _ _ Hd) in Hy).
  destruct Hpar as [Hp|Hp].
  - assert (b_sp b = y) as Hs by (unfold b_sp; by rewrite Hp).
    rewrite Hs, (bool_decide_eq_false_2 (y = "")) in Hle by done.
    destruct (B !! b_op b); case_bool_decide; simpl in *; lia.
  - assert (b_op b = y) as Ho by (unfold b_op; by rewrite Hp).
    rewrite Ho, Hy in Hle. case_bool_decide; case_bool_decide; simpl in *; lia.
Qed.

Lemma rnd_anc x y : anc B x y → rnd R y ≤ rnd R x.
Proof. induction 1 as [|x z y Hxz _ IH]; [lia|]. apply rnd_edge in Hxz. lia. Qed.

(** A creator has one witness in a round. *)
Lemma witness_unique w w' b b' r :
  wit B R w r → wit B R w' r → B !! w = Some b → B !! w' = Some b' → b_creator b = b_creator b' → w = w'.
Proof.
  assert (∀ w w' b b', wit B R w r → wit B R w' r → B !! w = Some b → B !! w' = Some b' →
    b_creator b = b_creator b' → ¬ b_index b < b_index b') as Hno.
  { intros u u' c c' (c0 & Hu & Hr & _) (c1 & Hu' & Hr' & Hw') Hc Hc' Heq Hlt.
    assert (c1 = c') as -> by congruence.
    destruct (dag_self _ _ _ _ Hd u' c' Hc') as [[H0 _]|(sp & bs & Hs & Hbs & Hcs & Hi)].
    { destruct (dag_range _ _ _ _ Hd u c Hc) as (? & _ & ?). lia. }
    assert (b_sp c' = sp) as Hsp by (unfold b_sp; by rewrite Hs).
    destruct Hw' as [[He _]|Hw'].
    { rewrite Hsp in He. subst sp. by rewrite (dag_ne_empty _ _ _ _ Hd) in Hbs. }
    rewrite Hsp in Hw'. assert (anc B sp u) as Ha%rnd_anc; [|lia].
    apply self_anc_anc, (self_anc_spec _ _ _ _ _ _ _ _ Hd Hbs Hc). split; [congruence|lia]. }
  intros Hw Hw' Hb Hb' Hc. apply (dag_uniq _ _ _ _ Hd w w' b b' Hb Hb' Hc).
  pose proof (Hno w w' b b' Hw Hw' Hb Hb' Hc). pose proof (Hno w' w b' b Hw' Hw Hb' Hb (eq_sym Hc)). lia.
Qed.

Definition creator_of (w : string) : string := from_option b_creator "" (B !! w).

(** As many participants as witnesses of a round. *)
Lemma creators_size (W : gset string) r :
  (∀ w, w ∈ W → wit B R w r) →
  base.size (set_map creator_of W : gset string) = base.size W ∧ (set_map creator_of W : gset string) ⊆ dom ps.
Proof.
  intros HW. split.
  - apply size_set_map_inj. intros w w' Hw%HW Hw'%HW. pose proof Hw as (b & Hb & _). pose proof Hw' as (b' & Hb' & _).
    unfold creator_of. rewrite Hb, Hb'. simpl. by eapply witness_unique.
  - intros c (w & -> & (b & Hb & _)%HW)%elem_of_map. unfold creator_of. rewrite Hb. simpl.
    destruct (dag_creator _ _ _ _ _ _ Hd Hb) as [id Hid]. by apply elem_of_dom.
Qed.


Lemma anc_dec x y : anc B x y ∨ ¬ anc B x y.
Proof.
  remember (rank x) as k eqn:Hk. revert x Hk. induction k as [k IH] using lt_wf_ind. intros x ->.
  destruct (decide (x = y)) as [->|Hne]; [left; apply anc_refl|].
  destruct (exists_filter (dom B) (λ z, edge B x z ∧ anc B z y)) as [Z HZ].
  { intros z _. destruct (B !! x) as [b|] eqn:Hb.
    - destruct (decide (known B z ∧ (b_self b = Ret z ∨ b_other b = Ret z))) as [[Hz Hp]|Hno].
      + assert (edge B x z) as He by (by exists b).
        destruct (IH (rank z) (proj1 Hrank _ _ He) z eq_refl); [left|right]; naive_solver.
      + right. intros [(b' & Hb' & Hz & Hp) _]. apply Hno. assert (b' = b) as -> by congruence. done.
    - right. intros [(b & Hb' & _) _]. congruence. }
  destruct (set_choose_or_empty Z) as [[z Hz]|He].
  - left. apply HZ in Hz as [_ [He Ha]]. by eapply rtc_l.
  - right. intros Ha. apply rtc_inv in Ha as [?|(z & Hxz & Ha)]; [done|].
    apply (not_elem_of_empty (C := gset string) z), He, HZ. split; [|done]. destruct Hxz as (? & _ & ? & _). by apply elem_of_dom.
Qed.

Lemma between_dec x y p : between B x y p ∨ ¬ between B x y p.
Proof.
  destruct (exists_filter (dom B) (λ z, creator_of z = p ∧ anc B x z ∧ anc B z y)) as [Z HZ].
  { intros z _. destruct (decide (creator_of z = p)), (anc_dec x z), (anc_dec z y); naive_solver. }
  destruct (set_choose_or_empty Z) as [[z Hz]|He].
  - left. apply HZ in Hz as [[b Hb]%elem_of_dom (Hc & Hxz & Hzy)]. exists z, b.
    unfold creator_of in Hc. rewrite Hb in Hc. done.
  - right. intros (z & b & Hb & Hc & Hxz & Hzy). apply (not_elem_of_empty (C := gset string) z), He, HZ.
    split; [by apply elem_of_dom|]. unfold creator_of. by rewrite Hb.
Qed.

Lemma between_set x y : ∃ Q : gset string, ∀ p, p ∈ Q ↔ is_Some (ps !! p) ∧ between B x y p.
Proof.
  destruct (exists_filter (dom ps) (between B x y)) as [Q HQ]; [intros; apply between_dec|].
  exists Q. intros p. by rewrite HQ, elem_of_dom.
Qed.

Lemma strongly_dec_graph x y : strongly ps B x y ∨ ¬ strongly ps B x y.
Proof.
  destruct (between_set x y) as [Q HQ]. rewrite (strongly_unique _ _ _ _ Q HQ).
  destruct (decide (MostPlurality_of ps ≤ Z.of_nat (base.size Q))); auto.
Qed.

(** A descendant strongly sees what its ancestor does. *)
Lemma strongly_desc x x' y : anc B x x' → strongly ps B x' y → strongly ps B x y.
Proof.
  intros Ha (Q' & HQ' & Hle). destruct (between_set x y) as [Q HQ].
  rewrite (strongly_unique _ _ _ _ Q HQ). enough (Q' ⊆ Q) as ?%subseteq_size by lia.
  intros p [Hp (z & b & Hz & Hc & Hxz & Hzy)]%HQ'. apply HQ. split; [done|].
  exists z, b. split; [done|]. split; [done|]. split; [by eapply anc_trans|done].
Qed.

(** Some witnesses of round [r], a quorum of them, each strongly seen by [y]. *)
Definition quorum_below (y : string) (r : Z) (W : gset string) : Prop :=
  MostPlurality_of ps ≤ Z.of_nat (base.size W) ∧ ∀ w, w ∈ W → wit B R w r ∧ strongly ps B y w.

(** Every comet of a later round strongly sees a quorum of witnesses of the round before. *)
Lemma quorum_seen y : known B y → 0 < rnd R y → ∃ W, quorum_below y (rnd R y - 1) W.
Proof.
  remember (rank y) as k eqn:Hk. revert y Hk. induction k as [k IH] using lt_wf_ind. intros y -> [b Hb] Hpos.
  destruct (proj2 HR y b Hb) as (W & inc & HW & Hinc & Hr). destruct inc.
  - destruct (proj1 Hinc eq_refl) as [Hroot|Hle].
    + exfalso. revert Hroot Hr. unfold parent_info.
      destruct (B !! b_op b), (bool_decide (b_sp b = "")); case_bool_decide; simpl in *; intros; try done; lia.
    + exists W. split; [done|]. intros w Hw. rewrite Hr, Z.add_simpl_r. by eapply seen_wit.
  - assert (∃ p, edge B y p ∧ rnd R p = rnd R y) as (p & He & Hp).
    { rewrite Hr. unfold parent_info in *.
      destruct (dag_b_sp _ _ _ _ _ _ Hd Hb) as [_ Hks], (dag_b_op _ _ _ _ _ _ Hd Hb) as [_ Hko].
      destruct (B !! b_op b) eqn:Ho; case_bool_decide as Hsp; case_bool_decide; simpl in *; try lia.
      all: try (exists (b_op b); split; [eapply edge_op; [done..|]; by eexists|done]).
      all: exists (b_sp b); (split; [eapply edge_sp; [done..|]; naive_solver|done]). }
    destruct (IH (rank p) (proj1 Hrank _ _ He) p eq_refl) as (W' & Hle & HW').
    { by destruct He as (? & _ & ? & _). }
    { lia. }
    exists W'. split; [done|]. intros w Hw. rewrite <-Hp. destruct (HW' w Hw) as [? Hs]. split; [done|].
    eapply strongly_desc; [|done]. by apply rtc_once.
Qed.

Lemma wit_quorum y j : wit B R y j → 0 < j → ∃ W, quorum_below y (j - 1) W.
Proof. intros (b & Hb & <- & _) Hj. apply quorum_seen; [by eexists|done]. Qed.

(** So a poll is never small. *)
Lemma seen_quorum y j W :
  wit B R y j → 0 < j → seen_witnesses ps B R y (j - 1) W → MostPlurality_of ps ≤ Z.of_nat (base.size W).
Proof.
  intros Hy Hj HW. destruct (wit_quorum y j Hy Hj) as (W' & Hle & HW').
  enough (W' ⊆ W) as ?%subseteq_size by lia. intros w Hw. destruct (HW' w Hw) as [(b & Hb & Hr & Hwi) Hs].
  apply HW. split; [|by exists b]. intros ->. by eapply not_strongly_self.
Qed.

(** Once a round is unanimous all later ones are. *)
Lemma unanimous_from x i j f :
  0 ≤ i → i < j → (∀ y b, wit B R y j → voted ps B R x i y b → b = f) → unanimous ps B R x i j f.
Proof.
  intros Hi0 Hij Hj y j' b Hle Hy Hv. revert j' Hle Hy.
  induction Hv as [y b Hw Hb|y j0 W Y Hj0 Hw HW HY Hvs IH]; intros j' Hle Hy.
  - pose proof (wit_round _ _ _ _ _ Hw Hy). assert (j = j') as -> by lia. eapply Hj; [done|by apply voted_see].
  - pose proof (wit_round _ _ _ _ _ Hw Hy) as ->. destruct (decide (j = j')) as [->|Hne].
    { eapply Hj; [done|by eapply voted_count]. }
    pose proof (seen_quorum y j' W Hy ltac:(lia) HW) as Hq.
    assert (∀ w, w ∈ W → bool_decide (w ∈ Y) = f) as Hall.
    { intros w HwW. apply (IH w HwW (j' - 1)); [lia|]. by eapply seen_wit. }
    pose proof (MostPlurality_pos ps).
    assert (backers (negb f) W Y = ∅) as Hnone.
    { apply set_eq. intros w. split; [|set_solver]. intros Hw'. assert (w ∈ W) as HwW by (destruct f; set_solver).
      specialize (Hall w HwW). destruct f; simpl in *; [|apply bool_decide_eq_false in Hall; set_solver].
      apply bool_decide_eq_true in Hall. set_solver. }
    pose proof (backers_size W Y f HY) as Hsz. rewrite Hnone, size_empty in Hsz.
    assert (majority (Z.of_nat (base.size Y)) (Z.of_nat (base.size (W ∖ Y))) = f) as Hm.
    { apply majority_backers. rewrite Hnone, size_empty. lia. }
    unfold verdict. rewrite (support_backers f) by done.
    rewrite (bool_decide_eq_true_2 (MostPlurality_of ps ≤ _)) by lia. by rewrite orb_true_r.
Qed.
End OneGraph.

(** ** Two graphs *)

(** Two witnesses of one creator and one round, each strongly seen by someone, are the same. *)
Definition no_forks `{Crypto} ps B1 R1 B2 R2 : Prop := ∀ y1 y2 w1 w2 r b1 b2,
  wit B1 R1 w1 r → wit B2 R2 w2 r → B1 !! w1 = Some b1 → B2 !! w2 = Some b2 →
  b_creator b1 = b_creator b2 → known B1 y1 → known B2 y2 →
  strongly ps B1 y1 w1 → strongly ps B2 y2 w2 → w1 = w2.

(** Fewer than a third of the participants are outside [honest], and those in it have one
    history: at each height the same comet in both graphs. *)
Record honest_majority `{Crypto} (ps : gmap string Z) (B1 B2 : gmap string CometBody) (honest : gset string) : Prop := {
  hm_few : 3 * Z.of_nat (base.size (dom ps ∖ honest)) < Z.of_nat (base.size ps);
  hm_one : ∀ h1 b1 h2 b2, B1 !! h1 = Some b1 → B2 !! h2 = Some b2 →
    b_creator b1 = b_creator b2 → b_index b1 = b_index b2 → b_creator b1 ∈ honest → h1 = h2
}.

Section TwoGraphs.
Context `{Crypto} (ps : gmap string Z) (B1 B2 : gmap string CometBody) (R1 R2 : gmap string Z)
  (rank1 rank2 : string → nat) (next1 next2 : gmap string Z) (last1 last2 : gmap string string).
Context (Hd1 : dag_ok ps B1 next1 last1) (Hd2 : dag_ok ps B2 next2 last2).
Context (HR1 : rounds_ok ps B1 R1) (HR2 : rounds_ok ps B2 R2).
Context (Hrank1 : ranked B1 rank1) (Hrank2 : ranked B2 rank2).
Context (Hn : 2 ≤ Z.of_nat (base.size ps)).
Context (Hsame : same_events B1 B2).

Lemma wit_agree y j : known B2 y → wit B1 R1 y j → wit B2 R2 y j.
Proof.
  intros [b2 Hb2] (b1 & Hb1 & Hr & Hw). exists b2. split; [done|].
  pose proof (rounds_agree ps _ _ _ _ _ _ Hd1 Hd2 Hsame R1 R2 HR1 HR2 rank1 Hrank1 y ltac:(by eexists) ltac:(by eexists)) as Hrr.
  split; [congruence|]. by apply (witness_agree ps _ _ _ _ _ _ Hd1 Hd2 Hsame R1 R2 HR1 HR2 rank1 Hrank1 y b1 b2).
Qed.

Lemma seen_agree y r W :
  known B1 y → known B2 y → seen_witnesses ps B1 R1 y r W → seen_witnesses ps B2 R2 y r W.
Proof.
  intros Hy1 Hy2 HW.
  destruct (exists_filter (dom B2) (λ w, w ≠ y ∧ ∃ b, B2 !! w = Some b ∧ rnd R2 w = r ∧ is_witness R2 w b ∧ strongly ps B2 y w)) as [W2 HW2].
  { intros w [b Hb]%elem_of_dom.
    destruct (decide (w ≠ y ∧ rnd R2 w = r ∧ is_witness R2 w b)) as [?|Hno], (strongly_dec_graph ps B2 rank2 Hrank2 y w); naive_solver. }
  assert (seen_witnesses ps B2 R2 y r W2) as HW2'.
  { intros w. rewrite HW2. split; [by intros [_ ?]|]. intros (Hne & b & Hb & ?).
    split; [by apply elem_of_dom|]. split; [done|]. by exists b. }
  replace W with W2; [done|]. symmetry.
  eapply (seen_witnesses_agree ps B1 B2 _ _ _ _ Hd1 Hd2 Hsame R1 R2 HR1 HR2 rank1 Hrank1 y r W W2); try done.
  intros z Hz1 Hz2 _. by apply (rounds_agree ps _ _ _ _ _ _ Hd1 Hd2 Hsame R1 R2 HR1 HR2 rank1 Hrank1).
Qed.

(** A vote is the same wherever it is counted. *)
Lemma voted_agree x i y b : voted ps B1 R1 x i y b → known B2 y → voted ps B2 R2 x i y b.
Proof.
  intros Hv. induction Hv as [y b Hy Hb|y j W Y Hj Hy HW HY Hvs IH]; intros Hk.
  - assert (known B1 y) as Hy1 by (destruct Hy as (? & ? & _); by eexists).
    apply voted_see; [by apply wit_agree|]. rewrite Hb. split; intros Ha.
    + by apply (anc_agree ps _ _ _ _ _ _ Hd1 Hd2 Hsame).
    + by apply (anc_agree ps _ _ _ _ _ _ Hd2 Hd1 (same_events_sym _ _ Hsame)).
  - assert (known B1 y) as Hy1 by (destruct Hy as (? & ? & _); by eexists).
    apply voted_count; [done|by apply wit_agree|by apply seen_agree|done|].
    intros w Hw. apply IH; [done|]. destruct (seen_wit _ _ _ _ _ _ _ HW Hw) as [_ Hs%strongly_anc].
    by apply (anc_agree ps _ _ _ _ _ _ Hd1 Hd2 Hsame y w Hy1 Hk).
Qed.

(** What one node has decided stays decided in a graph that has the comets of the decision. *)
Lemma decided_agree x i f :
  (∀ h, known B1 h → known B2 h) → decided ps B1 R1 x i f → decided ps B2 R2 x i f.
Proof.
  intros Hsub (j & y & W & Y & [Hj Hy HW HY Hvs] & Hdec). exists j, y, W, Y. split; [|done].
  assert (known B1 y) as Hy1 by (destruct Hy as (? & ? & _); by eexists).
  split; [done|apply wit_agree; auto|apply seen_agree; auto|done|].
  intros w Hw. apply voted_agree; [auto|]. apply Hsub. destruct (seen_wit _ _ _ _ _ _ _ HW Hw) as [(? & ? & _) _].
  by eexists.
Qed.

(** While the honest are more than two thirds, no fork is strongly seen twice. *)
Lemma between_common honest y1 w1 y2 w2 p :
  honest_majority ps B1 B2 honest → p ∈ honest → between B1 y1 w1 p → between B2 y2 w2 p →
  (known B2 w1 ∨ known B1 w2).
Proof.
  intros Hh Hp (z1 & c1 & Hz1 & Hc1 & _ & Ha1) (z2 & c2 & Hz2 & Hc2 & _ & Ha2).
  pose proof (dag_range _ _ _ _ Hd1 _ _ Hz1) as (n1 & Hn1 & Hi1).
  pose proof (dag_range _ _ _ _ Hd2 _ _ Hz2) as (n2 & Hn2 & Hi2).
  destruct (decide (b_index c1 ≤ b_index c2)) as [Hle|Hgt].
  - left. destruct (dag_full _ _ _ _ Hd2 _ _ (b_index c1) Hn2 ltac:(lia)) as (z & c & Hz & Hc & Hi).
    assert (z1 = z) as -> by (apply (hm_one _ _ _ _ Hh z1 c1 z c); congruence).
    apply (anc_agree ps _ _ _ _ _ _ Hd1 Hd2 Hsame z w1); [by eexists|by eexists|done].
  - right. destruct (dag_full _ _ _ _ Hd1 _ _ (b_index c2) Hn1 ltac:(lia)) as (z & c & Hz & Hc & Hi).
    assert (z = z2) as -> by (apply (hm_one _ _ _ _ Hh z c z2 c2); congruence).
    apply (anc_agree ps _ _ _ _ _ _ Hd2 Hd1 (same_events_sym _ _ Hsame) z2 w2); [by eexists|by eexists|done].
Qed.
End TwoGraphs.

Lemma no_forks_honest `{Crypto} ps B1 B2 R1 R2 rank1 rank2 next1 next2 last1 last2 honest :
  dag_ok ps B1 next1 last1 → dag_ok ps B2 next2 last2 → rounds_ok ps B1 R1 → rounds_ok ps B2 R2 →
  ranked B1 rank1 → ranked B2 rank2 → same_events B1 B2 → honest_majority ps B1 B2 honest →
  no_forks ps B1 R1 B2 R2.
Proof.
  intros Hd1 Hd2 HR1 HR2 Hk1 Hk2 Hsame Hh y1 y2 w1 w2 r b1 b2 Hw1 Hw2 Hb1 Hb2 Hc _ _ (Q1 & HQ1 & Hle1) (Q2 & HQ2 & Hle2).
  assert (∃ p, p ∈ Q1 ∧ p ∈ Q2 ∧ p ∈ honest) as (p & Hp1 & Hp2 & Hp).
  { assert (Q1 ∪ Q2 ⊆ dom ps) as Hsub.
    { intros p [[? _]%HQ1|[? _]%HQ2]%elem_of_union; by apply elem_of_dom. }
    apply subseteq_size in Hsub. rewrite size_dom, size_union_alt in Hsub.
    destruct (set_choose_or_empty (Q1 ∩ Q2 ∩ honest)) as [[p Hp]|He]; [exists p; set_solver|].
    pose proof (hm_few _ _ _ _ Hh) as Hfew.
    assert (Q2 ∩ Q1 ⊆ dom ps ∖ honest) as Hsub2.
    { intros p [Hp2 Hp1]%elem_of_intersection. apply elem_of_difference.
      split; [apply elem_of_dom; by apply HQ1|]. intros Hp. set_solver. }
    apply subseteq_size in Hsub2. pose proof (size_difference_alt Q2 Q1).
    pose proof (subseteq_size (Q2 ∩ Q1) Q2 ltac:(set_solver)).
    unfold MostPlurality_of in *. pose proof (Z.mul_succ_div_gt (2 * Z.of_nat (base.size ps)) 3 ltac:(lia)). lia. }
  apply HQ1 in Hp1 as [_ Hp1]. apply HQ2 in Hp2 as [_ Hp2].
  destruct (between_common ps B1 B2 _ _ _ _ Hd1 Hd2 Hsame honest _ _ _ _ p Hh Hp Hp1 Hp2) as [[b Hb]|[b Hb]].
  - destruct (same_parents B1 B2 Hsame w1 b1 b Hb1 Hb) as [Hcc _].
    apply (witness_unique ps B2 R2 _ _ Hd2 HR2 w1 w2 b b2 r); [|done|done|done|congruence].
    eapply (wit_agree ps B1 B2 R1 R2 rank1); eauto. by eexists.
  - destruct (same_parents B1 B2 Hsame w2 b b2 Hb Hb2) as [Hcc _].
    apply (witness_unique ps B1 R1 _ _ Hd1 HR1 w1 w2 b1 b r); [done| |done|done|congruence].
    eapply (wit_agree ps B2 B1 R2 R1 rank2); eauto using same_events_sym. by eexists.
Qed.

(** ** Agreement *)

(** The second round up is decisive: a normal round, or one of two participants. *)
Lemma second_round (ps : gmap string Z) (i : Z) :
  2 ≤ Z.of_nat (base.size ps) →
  normal_round (i + 2 - i) (Z.of_nat (base.size ps)) = true ∨ MostPlurality_of ps = Z.of_nat (base.size ps).
Proof.
  intros Hn. replace (i + 2 - i) with 2 by lia. unfold normal_round. rewrite bool_decide_eq_false_2 by lia.
  destruct (decide (Z.of_nat (base.size ps) = 2)) as [He|Hne]; [right; unfold MostPlurality_of; by rewrite He|left].
  rewrite Z.mod_small by lia. by rewrite bool_decide_eq_true_2 by lia.
Qed.

Section Agreement.
Context `{Crypto} (ps : gmap string Z) (B1 B2 : gmap string CometBody) (R1 R2 : gmap string Z)
  (rank1 rank2 : string → nat) (next1 next2 : gmap string Z) (last1 last2 : gmap string string).
Context (Hd1 : dag_ok ps B1 next1 last1) (Hd2 : dag_ok ps B2 next2 last2).
Context (HR1 : rounds_ok ps B1 R1) (HR2 : rounds_ok ps B2 R2).
Context (Hrank1 : ranked B1 rank1) (Hrank2 : ranked B2 rank2).
Context (Hn : 2 ≤ Z.of_nat (base.size ps)).
Context (Hsame : same_events B1 B2) (Hforks : no_forks ps B1 R1 B2 R2).

(** A quorum of votes in one graph sways every poll of that round in the other: the votes
    against it are fewer than a third of the participants. *)
Lemma swayed x i f (V : gset string) j y1 y2 W Y :
  known B1 y1 → quorum_below ps B1 R1 y1 (j - 1) V → (∀ w, w ∈ V → voted ps B1 R1 x i w f) →
  0 ≤ i → poll ps B2 R2 x i y2 j W Y →
  Z.of_nat (base.size (backers (negb f) W Y)) + MostPlurality_of ps ≤ Z.of_nat (base.size ps) ∧
  Z.of_nat (base.size (backers (negb f) W Y)) < Z.of_nat (base.size (backers f W Y)).
Proof.
  intros Hy1 [Hle HV] Hvs Hi Hp. set (A := backers (negb f) W Y).
  pose proof (po_wit _ _ _ _ _ _ _ _ _ Hp) as Hy2. pose proof (po_late _ _ _ _ _ _ _ _ _ Hp) as Hj.
  assert (∀ w, w ∈ A → w ∈ W ∧ voted ps B2 R2 x i w (negb f)) as HA by (intros w; by eapply poll_backers).
  destruct (creators_size ps B1 R1 _ _ Hd1 HR1 V (j - 1) ltac:(intros w Hw; by apply HV)) as [HsV HdV].
  destruct (creators_size ps B2 R2 _ _ Hd2 HR2 A (j - 1)) as [HsA HdA].
  { intros w [Hw _]%HA. by apply (seen_wit _ _ _ _ _ _ _ (po_seen _ _ _ _ _ _ _ _ _ Hp) Hw). }
  assert ((set_map (creator_of B1) V : gset string) ## set_map (creator_of B2) A) as Hdisj.
  { intros c (w1 & Hc1 & Hw1)%elem_of_map (w2 & Hc2 & Hw2)%elem_of_map.
    destruct (HV w1 Hw1) as [Hwit1 Hs1], (HA w2 Hw2) as [Hw2W Hv2].
    destruct (seen_wit _ _ _ _ _ _ _ (po_seen _ _ _ _ _ _ _ _ _ Hp) Hw2W) as [Hwit2 Hs2].
    pose proof Hwit1 as (b1 & Hb1 & _). pose proof Hwit2 as (b2 & Hb2 & _).
    assert (w1 = w2) as <-.
    { eapply (Hforks y1 y2 w1 w2 (j - 1) b1 b2); try done.
      - unfold creator_of in *. rewrite Hb1 in Hc1. rewrite Hb2 in Hc2. simpl in *. congruence.
      - destruct Hy2 as (? & ? & _). by eexists. }
    pose proof (voted_agree ps B1 B2 R1 R2 rank1 rank2 _ _ _ _ Hd1 Hd2 HR1 HR2 Hrank1 Hrank2 Hsame x i w1 f (Hvs _ Hw1) ltac:(by eexists)) as Hv1.
    pose proof (voted_fun _ _ _ _ _ _ _ _ Hv1 Hv2). by destruct f. }
  pose proof (size_union _ _ Hdisj) as Hu.
  assert (set_map (creator_of B1) V ∪ set_map (creator_of B2) A ⊆ dom ps) as Hsub%subseteq_size by set_solver.
  rewrite Hu, HsV, HsA, size_dom in Hsub. split; [lia|].
  pose proof (seen_quorum ps B2 R2 rank2 _ _ Hd2 HR2 Hrank2 Hn y2 j W Hy2 ltac:(lia) (po_seen _ _ _ _ _ _ _ _ _ Hp)) as Hq.
  pose proof (backers_size W Y f (po_sub _ _ _ _ _ _ _ _ _ Hp)) as Hsz. fold A in Hsz.
  unfold MostPlurality_of in *. pose proof (Z.mul_succ_div_gt (2 * Z.of_nat (base.size ps)) 3 ltac:(lia)). lia.
Qed.

(** Then everybody votes with the quorum from that round on. *)
Lemma sways_all x i f (V : gset string) j y1 :
  known B1 y1 → quorum_below ps B1 R1 y1 (j - 1) V → (∀ w, w ∈ V → voted ps B1 R1 x i w f) →
  0 ≤ i → i + 1 < j →
  normal_round (j - i) (Z.of_nat (base.size ps)) = true ∨ MostPlurality_of ps = Z.of_nat (base.size ps) →
  unanimous ps B2 R2 x i j f.
Proof.
  intros Hy1 HV Hvs Hi Hj Hround. eapply unanimous_from; [done..|lia|].
  intros y b Hy Hv. inversion Hv as [? ? Hy' _|? j' W Y Hj' Hy' HW HY Hvs']; subst.
  { pose proof (wit_round _ _ _ _ _ Hy Hy'). lia. }
  pose proof (wit_round _ _ _ _ _ Hy Hy') as <-.
  assert (poll ps B2 R2 x i y j W Y) as Hp by (by split).
  destruct (swayed x i f V j y1 y W Y Hy1 HV Hvs Hi Hp) as [Hfew Hlt].
  pose proof (majority_backers W Y f Hlt) as Hm. unfold verdict. rewrite Hm.
  destruct Hround as [->|Heq]; [done|]. rewrite (support_backers f) by done.
  pose proof (backers_size W Y f HY).
  pose proof (seen_quorum ps B2 R2 rank2 _ _ Hd2 HR2 Hrank2 Hn y j W Hy ltac:(lia) HW).
  rewrite (bool_decide_eq_true_2 (MostPlurality_of ps ≤ _)) by lia. by rewrite orb_true_r.
Qed.

(** A decision of the swayed round or a later one goes with the quorum. *)
Lemma decided_swayed x i f (V : gset string) j y1 j2 f2 :
  known B1 y1 → quorum_below ps B1 R1 y1 (j - 1) V → (∀ w, w ∈ V → voted ps B1 R1 x i w f) →
  0 ≤ i → i + 1 < j →
  normal_round (j - i) (Z.of_nat (base.size ps)) = true ∨ MostPlurality_of ps = Z.of_nat (base.size ps) →
  j ≤ j2 → decided_at ps B2 R2 x i f2 j2 → f2 = f.
Proof.
  intros Hy1 HV Hvs Hi Hj Hround Hle (y & W & Y & Hp & _ & -> & Hq). destruct (decide (j = j2)) as [<-|Hne].
  { apply majority_backers. by eapply swayed. }
  pose proof (sways_all x i f V j y1 Hy1 HV Hvs Hi Hj Hround) as Hall.
  set (f2 := majority _ _). rewrite (support_backers f2) in Hq by done. pose proof (MostPlurality_pos ps).
  destruct (set_choose_or_empty (backers f2 W Y)) as [[w Hw]|He%size_empty_iff]; [|lia].
  destruct (poll_backers _ _ _ _ _ _ _ _ _ _ _ Hp Hw) as [HwW Hv].
  destruct (seen_wit _ _ _ _ _ _ _ (po_seen _ _ _ _ _ _ _ _ _ Hp) HwW) as [Hwit _].
  apply (Hall w (j2 - 1)); [lia|done|done].
Qed.

Lemma decided_quorum x i f j :
  decided_at ps B1 R1 x i f j → ∃ y V, known B1 y ∧ quorum_below ps B1 R1 y (j - 1) V ∧
    (∀ w, w ∈ V → voted ps B1 R1 x i w f) ∧ i + 1 < j ∧ normal_round (j - i) (Z.of_nat (base.size ps)) = true.
Proof.
  intros (y & W & Y & Hp & Hr & Hf & Hq). rewrite (support_backers f) in Hq by done.
  exists y, (backers f W Y). destruct (po_wit _ _ _ _ _ _ _ _ _ Hp) as (b & Hb & _).
  split; [by eexists|]. split; [|split; [|split; [apply Hp|done]]].
  - split; [done|]. intros w Hw. destruct (poll_backers _ _ _ _ _ _ _ _ _ _ _ Hp Hw) as [HwW _].
    by apply (seen_wit _ _ _ _ _ _ _ (po_seen _ _ _ _ _ _ _ _ _ Hp)).
  - intros w Hw. by eapply poll_backers.
Qed.

Lemma decided_later x i f1 f2 j1 j2 :
  0 ≤ i → decided_at ps B1 R1 x i f1 j1 → decided_at ps B2 R2 x i f2 j2 → j1 ≤ j2 → f2 = f1.
Proof.
  intros Hi Hdec1 Hdec2 Hle. destruct (decided_quorum _ _ _ _ Hdec1) as (y & V & Hy & HV & Hvs & Hj & Hr).
  eapply decided_swayed; eauto.
Qed.

(** A witness that one graph lacks, although it has witnesses two rounds up, is not famous. *)
Lemma missing_not_famous x i y f :
  0 ≤ i → wit B1 R1 y (i + 2) → ¬ known B1 x → decided ps B2 R2 x i f → f = false.
Proof.
  intros Hi Hy Hx [j Hdec]. destruct (wit_quorum ps B1 R1 rank1 _ _ Hd1 HR1 Hrank1 y (i + 2) Hy ltac:(lia)) as (V & HV).
  pose proof Hdec as (? & ? & ? & Hp & _). pose proof (po_late _ _ _ _ _ _ _ _ _ Hp).
  eapply (decided_swayed x i false V (i + 2) y j f); try done; [destruct Hy as (? & ? & _); by eexists| |lia| |lia].
  - intros w Hw. destruct HV as [_ HV]. destruct (HV w Hw) as [Hwit _].
    apply voted_see; [by replace (i + 1) with (i + 2 - 1) by lia|]. split; [done|]. intros Ha.
    destruct Hwit as (b & Hb & _). destruct Hx. eapply anc_known; [by eexists|done].
  - by apply second_round.
Qed.
End Agreement.

Lemma no_forks_sym `{Crypto} ps B1 R1 B2 R2 : no_forks ps B1 R1 B2 R2 → no_forks ps B2 R2 B1 R1.
Proof. intros Hf y1 y2 w1 w2 r b1 b2 ? ? ? ? ? ? ? ? ?. symmetry. by eapply (Hf y2 y1 w2 w1 r b2 b1). Qed.

(** No two nodes decide differently. *)
Lemma fame_agree `{Crypto} ps B1 B2 R1 R2 rank1 rank2 next1 next2 last1 last2 x i f1 f2 :
  dag_ok ps B1 next1 last1 → dag_ok ps B2 next2 last2 → rounds_ok ps B1 R1 → rounds_ok ps B2 R2 →
  ranked B1 rank1 → ranked B2 rank2 → 2 ≤ Z.of_nat (base.size ps) → same_events B1 B2 →
  no_forks ps B1 R1 B2 R2 → 0 ≤ i →
  decided ps B1 R1 x i f1 → decided ps B2 R2 x i f2 → f1 = f2.
Proof.
  intros Hd1 Hd2 HR1 HR2 Hk1 Hk2 Hn Hsame Hf Hi [j1 Hdec1] [j2 Hdec2]. destruct (decide (j1 ≤ j2)).
  - symmetry. eapply (decided_later ps B1 B2); eauto.
  - eapply (decided_later ps B2 B1); eauto using same_events_sym, no_forks_sym. lia.
Qed.

(** A node that has decided a round has witnesses two rounds up. *)
Lemma decided_above `{Crypto} ps B R rank next last x i f :
  dag_ok ps B next last → rounds_ok ps B R → ranked B rank → 0 ≤ i →
  decided ps B R x i f → ∃ y, wit B R y (i + 2).
Proof.
  intros Hd HR Hk Hi (j & y & W & Y & Hp & _).
  pose proof (po_late _ _ _ _ _ _ _ _ _ Hp) as Hj. pose proof (po_wit _ _ _ _ _ _ _ _ _ Hp) as Hy. clear Hp.
  remember (Z.to_nat (j - (i + 2))) as d eqn:Hd'. revert j y Hj Hy Hd'.
  induction d as [|d IH]; intros j y Hj Hy Hd'; [exists y; by replace (i + 2) with j by lia|].
  destruct (wit_quorum ps B R rank _ _ Hd HR Hk y j Hy ltac:(lia)) as (V & Hle & HV).
  pose proof (MostPlurality_pos ps).
  destruct (set_choose_or_empty V) as [[w Hw]|He%size_empty_iff]; [|lia].
  apply (IH (j - 1) w); [lia|by apply HV|lia].
Qed.
