(* ===== verification/Divide.v ===== *)
(** [Round], [ParentRound], [RoundInc], [Witness] and [DivideRounds] compute the rounds and
    the witnesses of [Rounds.v]; the caches they fill stay right. *)
From S2P Require Import Prelude Lru Bytes Types Caches Store CometGraph Ancestry Insert Queries Graph Rounds Fame.
Open Scope Z_scope.

(** ** What the store knows of the rounds

    [Div] are the events that have been divided into rounds; the round tables [rds]
    hold exactly them. *)
Section Layout.
Context `{RangeOrder, Crypto}.

(** The fame a table records has been decided. *)
Definition fame_sound (ps : gmap string Z) (B : gmap string CometBody) (R : gmap string Z)
    (x : string) (i : Z) (t : Trilean) : Prop :=
  match t with
  | Undefined => True
  | True_ => decided ps B R x i true
  | False_ => decided ps B R x i false
  end.

Record layout (ps : gmap string Z) (B : gmap string CometBody) (R : gmap string Z)
    (rank : string → nat) (Div : gset string) (rds : gmap Z RoundInfo) : Prop := {
  lay_n : 2 ≤ Z.of_nat (base.size ps);
  lay_rank : ranked B rank;
  lay_rounds : rounds_ok ps B R;
  lay_closed : ∀ x y, x ∈ Div → edge B x y → y ∈ Div;
  lay_sound : ∀ r ri x e, rds !! r = Some ri → Events ri !! x = Some e →
    ∃ b, B !! x = Some b ∧ x ∈ Div ∧ rnd R x = r ∧ (re_Witness e = true ↔ is_witness R x b);
  lay_complete : ∀ x, x ∈ Div → ∃ ri e, rds !! rnd R x = Some ri ∧ Events ri !! x = Some e;
  lay_nonempty : ∀ r ri, rds !! r = Some ri → ∃ x e, Events ri !! x = Some e;
  lay_fame : ∀ r ri x e, rds !! r = Some ri → Events ri !! x = Some e → fame_sound ps B R x r (re_Famous e)
}.

(** All the parents have been divided. *)
Definition ready (B : gmap string CometBody) (Div : gset string) (x : string) : Prop :=
  known B x ∧ ∀ y, edge B x y → y ∈ Div.

Definition pr_answer (B : gmap string CometBody) (R : gmap string Z) (k : string) (pi : ParentRoundInfo) : Prop :=
  (∃ b, B !! k = Some b ∧ pi = parent_info B R b) ∨ k = "" ∧ pi = NewBaseParentRoundInfo.

Definition round_answer (B : gmap string CometBody) (R : gmap string Z) (k : string) (r : Z) : Prop :=
  known B k ∧ r = rnd R k ∨ k = "" ∧ r = -1.

Lemma layout_known ps B R rank Div rds x : layout ps B R rank Div rds → x ∈ Div → known B x.
Proof.
  intros Hl Hx. destruct (lay_complete _ _ _ _ _ _ Hl x Hx) as (ri & e & Hri & He).
  destruct (lay_sound _ _ _ _ _ _ Hl _ _ _ _ Hri He) as (b & Hb & _). by eexists.
Qed.

Lemma ready_anc ps B R rank Div rds x y :
  layout ps B R rank Div rds → ready B Div x → anc B x y → y ≠ x → y ∈ Div.
Proof.
  intros Hl [Hk Hpar] Ha Hne. apply rtc_inv in Ha as [<-|(z & Hxz & Hzy)]; [done|].
  apply Hpar in Hxz. clear Hk Hpar Hne. induction Hzy as [|z z' y Hzz _ IH]; [done|].
  apply IH. by eapply (lay_closed _ _ _ _ _ _ Hl).
Qed.

Lemma divided_ready ps B R rank Div rds x :
  layout ps B R rank Div rds → x ∈ Div → ready B Div x.
Proof.
  intros Hl Hx. split; [by eapply layout_known|]. intros y. by apply (lay_closed _ _ _ _ _ _ Hl).
Qed.

(** The witnesses the store lists for a round are those strongly visible from a comet
    that is ready. *)
Lemma listed_witnesses ps B R rank Div rds x r w :
  layout ps B R rank Div rds → ready B Div x →
  (w ∈ from_option Witnesses [] (rds !! r) ∧ strongly ps B x w) ↔
  w ≠ x ∧ ∃ b, B !! w = Some b ∧ rnd R w = r ∧ is_witness R w b ∧ strongly ps B x w.
Proof.
  intros Hl Hx. split.
  - intros [Hw Hs]. destruct (rds !! r) as [ri|] eqn:Hri; simpl in Hw; [|by apply elem_of_nil in Hw].
    apply elem_of_Witnesses in Hw as (e & He & Hwe).
    destruct (lay_sound _ _ _ _ _ _ Hl _ _ _ _ Hri He) as (b & Hb & _ & Hr & Hwit).
    split; [|exists b; by rewrite <-Hwit].
    intros ->. eapply not_strongly_self; eauto using lay_rank, lay_n.
  - intros (Hne & b & Hb & Hr & Hw & Hs). split; [|done].
    assert (w ∈ Div) as HwD by (eapply ready_anc; eauto using strongly_anc).
    destruct (lay_complete _ _ _ _ _ _ Hl w HwD) as (ri & e & Hri & He).
    destruct (lay_sound _ _ _ _ _ _ Hl _ _ _ _ Hri He) as (b' & Hb' & _ & _ & Hwit).
    assert (b' = b) as -> by congruence. rewrite <-Hr, Hri. simpl.
    apply elem_of_Witnesses. exists e. split; [done|]. by apply Hwit.
Qed.

(** There are no more rounds than divided events. *)
Lemma layout_size ps B R rank Div rds :
  layout ps B R rank Div rds → (base.size rds ≤ base.size Div)%nat.
Proof.
  intros Hl. rewrite <-size_dom.
  transitivity (base.size (set_map (rnd R) Div : gset Z)).
  - apply subseteq_size. intros r [ri Hri]%elem_of_dom.
    destruct (lay_nonempty _ _ _ _ _ _ Hl r ri Hri) as (x & e & He).
    destruct (lay_sound _ _ _ _ _ _ Hl _ _ _ _ Hri He) as (b & _ & Hx & Hr & _).
    apply elem_of_map. eauto.
  - unfold base.size, set_size. simpl. rewrite <-(length_fmap (rnd R) (elements Div)).
    apply submseteq_length, NoDup_submseteq; [apply NoDup_elements|].
    intros r Hr. apply elem_of_elements, elem_of_map in Hr as (x & -> & Hx).
    apply list_elem_of_fmap. exists x. by rewrite elem_of_elements.
Qed.

Lemma layout_room ps B R rank Div rds x :
  layout ps B R rank Div rds → known B x → x ∉ Div → (base.size rds < base.size B)%nat.
Proof.
  intros Hl Hx Hn. pose proof (layout_size _ _ _ _ _ _ Hl).
  assert (base.size Div < base.size B)%nat; [|lia].
  rewrite <-(size_dom (D := gset string) B). apply subset_size. split.
  - intros y Hy. apply elem_of_dom. by eapply layout_known.
  - intros Hsub. apply Hn, Hsub. by apply elem_of_dom.
Qed.

Lemma layout_add ps B R rank Div rds x b w ri :
  layout ps B R rank Div rds → ready B Div x → B !! x = Some b →
  (w = true ↔ is_witness R x b) → Events ri = from_option Events ∅ (rds !! rnd R x) →
  layout ps B R rank ({[x]} ∪ Div) (<[rnd R x := AddEvent x w ri]> rds).
Proof.
  intros Hl Hx Hb Hw Hri.
  assert (∀ y e, Events (AddEvent x w ri) !! y = Some e →
            from_option Events ∅ (rds !! rnd R x) !! y = Some e ∨ y = x ∧ re_Witness e = w ∧ re_Famous e = Undefined) as Hadd.
  { intros y e. unfold AddEvent. destruct (Events ri !! x); simpl; rewrite Hri; [auto|].
    intros [[<- <-]|[_ ?]]%lookup_insert_Some; auto. }
  assert (∀ y e, from_option Events ∅ (rds !! rnd R x) !! y = Some e →
            ∃ e', Events (AddEvent x w ri) !! y = Some e') as Hkeep.
  { intros y e. unfold AddEvent. destruct (Events ri !! x); simpl; rewrite Hri; [eauto|].
    intros He. rewrite lookup_insert. case_decide; eauto. }
  assert (∃ e, Events (AddEvent x w ri) !! x = Some e) as Hself.
  { unfold AddEvent. destruct (Events ri !! x) eqn:Hxe; [eauto|]. simpl. rewrite lookup_insert_eq. eauto. }
  split; try apply Hl.
  - intros y z Hy He. apply elem_of_union_r. apply elem_of_union in Hy as [->%elem_of_singleton|Hy].
    + by apply Hx.
    + by eapply (lay_closed _ _ _ _ _ _ Hl).
  - intros r ri' y e Hr He. apply lookup_insert_Some in Hr as [[<- <-]|[Hne Hr]].
    + destruct (Hadd y e He) as [Hold|(-> & Hwe & _)].
      * destruct (rds !! rnd R x) as [ri0|] eqn:Hri0; simpl in Hold; [|by rewrite lookup_empty in Hold].
        destruct (lay_sound _ _ _ _ _ _ Hl _ _ _ _ Hri0 Hold) as (b' & ? & ? & ? & ?).
        exists b'. split; [done|]. split; [set_solver|done].
      * exists b. rewrite Hwe. split; [done|]. split; [set_solver|done].
    + destruct (lay_sound _ _ _ _ _ _ Hl _ _ _ _ Hr He) as (b' & ? & ? & ? & ?).
      exists b'. split; [done|]. split; [set_solver|done].
  - intros y Hy. rewrite lookup_insert. case_decide as Heq.
    + rewrite elem_of_union, elem_of_singleton in Hy. destruct Hy as [->|Hy]; [destruct Hself; eauto|].
      destruct (lay_complete _ _ _ _ _ _ Hl y Hy) as (ri0 & e & Hr0 & He). rewrite <-Heq in Hr0.
      destruct (Hkeep y e) as [e' ?]; [by rewrite Hr0|eauto].
    + rewrite elem_of_union, elem_of_singleton in Hy. destruct Hy as [->|Hy]; [done|].
      by apply (lay_complete _ _ _ _ _ _ Hl).
  - intros r ri' Hr. apply lookup_insert_Some in Hr as [[<- <-]|[Hne Hr]].
    + destruct Hself. eauto.
    + by apply (lay_nonempty _ _ _ _ _ _ Hl r).
  - intros r ri' y e Hr He. apply lookup_insert_Some in Hr as [[<- <-]|[Hne Hr]].
    + destruct (Hadd y e He) as [Hold|(_ & _ & ->)]; [|done].
      destruct (rds !! rnd R x) as [ri0|] eqn:Hri0; simpl in Hold; [|by rewrite lookup_empty in Hold].
      by eapply (lay_fame _ _ _ _ _ _ Hl).
    + by eapply (lay_fame _ _ _ _ _ _ Hl).
Qed.

(** Known events have rounds from 0 on. *)
Lemma rnd_nonneg ps B R rank next last x :
  dag_ok ps B next last → ranked B rank → rounds_ok ps B R → known B x → 0 ≤ rnd R x.
Proof.
  intros Hd Hr HR. remember (rank x) as k eqn:Hk. revert x Hk.
  induction k as [k IH] using lt_wf_ind. intros x -> [b Hb].
  destruct (proj2 HR x b Hb) as (W & inc & _ & Hinc & ->).
  assert (∀ y, edge B x y → 0 ≤ rnd R y) as Hpar.
  { intros y He. apply (IH (rank y)); [by apply Hr|done|]. by destruct He as (? & _ & ? & _). }
  assert (pri_IsRoot (parent_info B R b) = true ∧ pri_Round (parent_info B R b) = -1 ∨
          0 ≤ pri_Round (parent_info B R b)) as [[H1 H2]|Hge].
  { destruct (dag_b_sp ps B _ _ x b Hd Hb) as [_ Hs].
    assert (b_sp b ≠ "" → 0 ≤ rnd R (b_sp b)) as Hsp.
    { intros Hne. destruct Hs as [?|Hs]; [done|]. apply Hpar. by eapply edge_sp. }
    assert (is_Some (B !! b_op b) → 0 ≤ rnd R (b_op b)) as Hop.
    { intros Hk. apply Hpar. by eapply edge_op. }
    unfold parent_info. case_bool_decide as He; destruct (B !! b_op b) eqn:Ho; simpl;
      case_bool_decide; simpl; eauto. }
  - assert (inc = true) as -> by (apply Hinc; by left). rewrite H2. lia.
  - destruct inc; lia.
Qed.
End Layout.

Section Code.
Context `{RangeOrder, Crypto} {S : Type} `{Store S, !StoreLaws S}.
Implicit Types (g : CometGraph (S := S)) (v : content) (ps : gmap string Z).

(** [g] is [g0] up to the six caches and the order inside the store. *)
Definition calm g0 g : Prop :=
  ∃ t a sa o ss pr ro, g = upd_caches a sa o ss pr ro (upd_store t g0).

Lemma calm_refl g : calm g g.
Proof.
  exists (store g), (ancestorCache g), (selfAncestorCache g), (oldestSelfAncestorCache g),
    (stronglySeeCache g), (parentRoundCache g), (CometGraph.roundCache g). by destruct g.
Qed.

Lemma calm_trans g1 g2 g3 : calm g1 g2 → calm g2 g3 → calm g1 g3.
Proof.
  intros (t & a & sa & o & ss & pr & ro & ->) (t' & a' & sa' & o' & ss' & pr' & ro' & ->).
  by exists t', a', sa', o', ss', pr', ro'.
Qed.

Lemma quiet_calm g0 g : quiet g0 g → calm g0 g.
Proof. intros (t & a & sa & o & ss & ->). by exists t, a, sa, o, ss, (parentRoundCache g0), (CometGraph.roundCache g0). Qed.

Record computes ps v (R : gmap string Z) g0 g : Prop := {
  co_q : queryable ps v g;
  co_pr : cache_ok (pr_answer (Body <$> comets v) R) (parentRoundCache g);
  co_round : cache_ok (round_answer (Body <$> comets v) R) (CometGraph.roundCache g);
  co_calm : calm g0 g
}.

Lemma computes_quiet ps v R g0 g g' :
  computes ps v R g0 g → asks ps v g g' → computes ps v R g0 g'.
Proof.
  intros [Hq Hp Hr Hc] [Hq' Hqu]. split; [done| | |].
  - by destruct Hqu as (t & a & sa & o & ss & ->).
  - by destruct Hqu as (t & a & sa & o & ss & ->).
  - eapply calm_trans; [done|]. by apply quiet_calm.
Qed.

Lemma computes_asks ps v R g0 g : computes ps v R g0 g → asks ps v g g.
Proof. intros [Hq _ _ _]. split; [done|apply quiet_refl]. Qed.

Lemma computes_store ps v R g0 g t :
  computes ps v R g0 g → store_ok t → view t = v → computes ps v R g0 (upd_store t g).
Proof. intros Hc Ht Hv. eapply computes_quiet; [done|]. apply asks_upd_store; auto. by eapply computes_asks. Qed.

Lemma computes_GetComet ps v R g0 g k (Q : outcome (gerror + Comet) → CometGraph → Prop) :
  computes ps v R g0 g →
  (∀ g', computes ps v R g0 g' →
     match comets v !! k with
     | Some c => Q (Ret (inr c)) g'
     | None => ∀ e, Q (Ret (inl e)) g'
     end) →
  wp (try (stm (st_GetComet k))) g Q.
Proof.
  intros Hg HQ. pose proof (q_ok _ _ _ (co_q _ _ _ _ _ Hg)) as Hok.
  pose proof (q_view _ _ _ (co_q _ _ _ _ _ Hg)) as Hv.
  eapply wp_try_GetComet; [by apply at_store_refl|]. rewrite Hv.
  intros g' (t & -> & Ht & Hvt). apply HQ. by apply computes_store.
Qed.

Lemma computes_GetRoot ps v R g0 g c h (Q : outcome (gerror + Root) → CometGraph → Prop) :
  computes ps v R g0 g → comets v !! h = Some c →
  (∀ g', computes ps v R g0 g' → Q (Ret (inr NewBaseRoot)) g') →
  wp (try (stm (st_GetRoot (Creator c)))) g Q.
Proof.
  intros Hg Hc HQ. pose proof (co_q _ _ _ _ _ Hg) as Hq.
  destruct (participant_spec ps v g g c h (computes_asks _ _ _ _ _ Hg) Hc) as (id & Hid & _).
  apply wp_try. eapply wp_GetRoot; [apply at_store_refl, (q_ok _ _ _ Hq)| |].
  - rewrite (q_view _ _ _ Hq). apply (g_roots _ _ (q_graph _ _ _ Hq)). by eexists.
  - rewrite (q_view _ _ _ Hq). intros g' (t & -> & Ht & Hvt). apply HQ. by apply computes_store.
Qed.

Lemma computes_RoundWitnesses ps v R g0 g r (Q : outcome (list string) → CometGraph → Prop) :
  computes ps v R g0 g →
  (∀ g', computes ps v R g0 g' → Q (Ret (from_option Witnesses [] (rounds v !! r))) g') →
  wp (stm (st_RoundWitnesses r)) g Q.
Proof.
  intros Hg HQ. pose proof (co_q _ _ _ _ _ Hg) as Hq. apply wp_zoom.
  eapply wp_mono; [apply law_RoundWitnesses, (q_ok _ _ _ Hq)|].
  intros o t (-> & Ht & Hv). rewrite (q_view _ _ _ Hq) in *. apply HQ. by apply computes_store.
Qed.

Lemma computes_StronglySee ps v R g0 g x y (Q : outcome bool → CometGraph → Prop) :
  computes ps v R g0 g → known (Body <$> comets v) x → known (Body <$> comets v) y →
  (∀ g' r, computes ps v R g0 g' → (r = true ↔ strongly ps (Body <$> comets v) x y) → Q (Ret r) g') →
  wp (StronglySee x y) g Q.
Proof.
  intros Hg Hx Hy HQ.
  eapply wp_mono; [apply (StronglySee_spec ps v g g x y (computes_asks _ _ _ _ _ Hg) Hx Hy)|].
  intros o g' (r & -> & Hr & Hg'). apply HQ; [by eapply computes_quiet|].
  by apply strong_answer_strongly in Hr.
Qed.

Lemma computes_memo_pr ps v R g0 g k compute :
  computes ps v R g0 g →
  (∀ g', computes ps v R g0 g' → wp compute g' (λ o g'', ∃ r, o = Ret r ∧
     pr_answer (Body <$> comets v) R k r ∧ computes ps v R g0 g'')) →
  wp (memo parentRoundCache upd_parentRound k compute) g (λ o g', ∃ r, o = Ret r ∧
     pr_answer (Body <$> comets v) R k r ∧ computes ps v R g0 g').
Proof.
  intros Hg Hc. apply memo_spec; [| |done|done].
  - by intros g' [].
  - intros g' c [[] ? ? (t & a & sa & o & ss & pr & ro & ->)] Hcok.
    split; [by split|done|done|]. by exists t, a, sa, o, ss, c, ro.
Qed.

Lemma computes_memo_round ps v R g0 g k compute :
  computes ps v R g0 g →
  (∀ g', computes ps v R g0 g' → wp compute g' (λ o g'', ∃ r, o = Ret r ∧
     round_answer (Body <$> comets v) R k r ∧ computes ps v R g0 g'')) →
  wp (memo CometGraph.roundCache upd_round k compute) g (λ o g', ∃ r, o = Ret r ∧
     round_answer (Body <$> comets v) R k r ∧ computes ps v R g0 g').
Proof.
  intros Hg Hc. apply memo_spec; [| |done|done].
  - by intros g' [].
  - intros g' c [[] ? ? (t & a & sa & o & ss & pr & ro & ->)] Hcok.
    split; [by split|done|done|]. by exists t, a, sa, o, ss, pr, c.
Qed.

Lemma computes_get_or_new_round ps v R g0 g r :
  computes ps v R g0 g →
  wp (get_or_new_round r) g (λ o g', o = Ret (default NewRoundInfo (rounds v !! r)) ∧ computes ps v R g0 g').
Proof.
  intros Hg. pose proof (co_q _ _ _ _ _ Hg) as Hq. unfold get_or_new_round. apply wp_bind, wp_try, wp_zoom.
  eapply wp_mono; [apply law_GetRound, (q_ok _ _ _ Hq)|]. rewrite (q_view _ _ _ Hq).
  intros o t (Ho & Ht & Hv). pose proof (computes_store _ _ _ _ _ t Hg Ht Hv) as Hg3.
  destruct (rounds v !! r); simpl in Ho; [subst o|destruct Ho as [key ->]]; by apply wp_ret.
Qed.

(** ** Counting the witnesses *)

Lemma count_stronglySee_spec ps v R g0 x ws : ∀ g c,
  computes ps v R g0 g → known (Body <$> comets v) x →
  (∀ w, w ∈ ws → known (Body <$> comets v) w) → NoDup ws →
  wp (count_stronglySee x ws c) g (λ o g', ∃ W : gset string,
    (∀ w, w ∈ W ↔ w ∈ ws ∧ strongly ps (Body <$> comets v) x w) ∧
    o = Ret (c + Z.of_nat (base.size W)) ∧ computes ps v R g0 g').
Proof.
  induction ws as [|w ws IH]; intros g c Hg Hx Hk Hnd.
  { apply wp_ret. exists ∅. split; [set_solver|]. rewrite size_empty. split; [f_equal; lia|done]. }
  apply NoDup_cons in Hnd as [Hw Hnd]. cbn [count_stronglySee].
  apply wp_bind. eapply computes_StronglySee; [done|done|apply Hk; by left|]. intros g1 r Hg1 Hr.
  eapply wp_mono; [apply (IH g1 _ Hg1 Hx); [|done]; intros; apply Hk; by right|].
  intros o g2 (W & HW & -> & Hg2). destruct r.
  - exists ({[w]} ∪ W). split; [|split; [|done]].
    + intros y. rewrite elem_of_union, elem_of_singleton, elem_of_cons, HW. naive_solver.
    + rewrite size_union, size_singleton; [f_equal; lia|].
      intros y Hy1%elem_of_singleton Hy2. apply HW in Hy2 as [? _]. congruence.
  - exists W. split; [|done]. intros y. rewrite elem_of_cons, HW. naive_solver.
Qed.

(** ** Rounds *)
Section Round.
Context (ps : gmap string Z) (v : content) (R : gmap string Z) (rank : string → nat) (Div : gset string).
Abbreviation B := (Body <$> comets v).
Context (Hlay : layout ps B R rank Div (rounds v)).

Definition good (x : string) : Prop := x = "" ∨ ready B Div x.

(** What a recursive call must do on the parents of [x]. *)
Definition round_call (f : string → M (CometGraph (S := S)) Z) g0 (x : string) : Prop :=
  ∀ g, computes ps v R g0 g →
    wp (f x) g (λ o g', o = Ret (rnd R x) ∧ computes ps v R g0 g').

Lemma pr_answer_known k b pi : B !! k = Some b → pr_answer B R k pi →
  dag_ok ps B (next_of v) (last_of v) → pi = parent_info B R b.
Proof.
  intros Hb [(b' & Hb' & ->)|[-> _]] Hd; [congruence|]. by rewrite (dag_ne_empty _ _ _ _ Hd) in Hb.
Qed.

Lemma parentRound_spec f g0 g x c :
  computes ps v R g0 g → comets v !! x = Some c →
  (∀ y, edge B x y → round_call f g0 y) →
  wp (parentRound f x) g (λ o g', ∃ r, o = Ret r ∧ pr_answer B R x r ∧ computes ps v R g0 g').
Proof.
  intros Hg Hc Hcall. pose proof (g_dag _ _ (q_graph _ _ _ (co_q _ _ _ _ _ Hg))) as Hd.
  pose proof (graph_body v x c Hc) as Hb.
  destruct (dag_b_sp ps _ _ _ x _ Hd Hb) as [Hsp Hks], (dag_b_op ps _ _ _ x _ Hd Hb) as [Hop Hko].
  unfold parentRound. apply wp_bind. eapply computes_GetComet; [done|]. rewrite Hc. intros g1 Hg1.
  apply wp_bind. eapply computes_GetRoot; [done..|]. intros g2 Hg2.
  eapply wp_lift_bind; [exact Hsp|]. cbn [X NewBaseRoot].
  apply wp_bind. eapply (wp_mono _ _ (λ o g', o = Ret (if bool_decide (b_sp (Body c) = "")
    then mkPRI (-1) true else mkPRI (rnd R (b_sp (Body c))) false) ∧ computes ps v R g0 g')).
  { case_bool_decide as He; [by apply wp_ret|]. destruct Hks as [?|Hks]; [done|].
    apply wp_bind. eapply wp_mono; [apply (Hcall (b_sp (Body c))); [by eapply edge_sp|done]|].
    intros o g3 [-> Hg3]. by apply wp_ret. }
  intros o g3 [-> Hg3]. eapply wp_lift_bind; [exact Hop|].
  apply wp_bind. eapply computes_GetComet; [done|]. intros g4 Hg4.
  assert (pr_answer B R x (parent_info B R (Body c))) as Hans by (left; eauto).
  destruct (comets v !! b_op (Body c)) as [oc|] eqn:Ho.
  - apply wp_bind, wp_bind. eapply wp_mono; [apply (Hcall (b_op (Body c))); [|done]|].
    { eapply edge_op; [done..|]. unfold known. rewrite lookup_fmap, Ho. by eexists. }
    intros o g5 [-> Hg5]. apply wp_ret, wp_ret. eexists. split; [|split; [exact Hans|done]].
    unfold parent_info. by rewrite lookup_fmap, Ho.
  - intros e. assert (b_op (Body c) = "") as Ho'.
    { destruct Hko as [?|[? Hk]]; [done|]. by rewrite lookup_fmap, Ho in Hk. }
    rewrite (bool_decide_eq_true_2 (b_op (Body c) = Y NewBaseRoot)) by done. apply wp_bind, wp_ret, wp_ret.
    eexists. split; [|split; [exact Hans|done]]. unfold parent_info. by rewrite lookup_fmap, Ho.
Qed.

Lemma parentRound_empty f g0 g :
  computes ps v R g0 g →
  wp (parentRound f "") g (λ o g', ∃ r, o = Ret r ∧ pr_answer B R "" r ∧ computes ps v R g0 g').
Proof.
  intros Hg. pose proof (g_dag _ _ (q_graph _ _ _ (co_q _ _ _ _ _ Hg))) as Hd.
  unfold parentRound. apply wp_bind. eapply computes_GetComet; [done|].
  pose proof (dag_ne_empty _ _ _ _ Hd) as He. rewrite lookup_fmap in He.
  destruct (comets v !! ""); [done|].
  intros g1 Hg1 e. apply wp_ret. eexists. split; [done|]. split; [by right|done].
Qed.

Lemma ParentRound_spec f g0 g x :
  computes ps v R g0 g → good x → (∀ y, edge B x y → round_call f g0 y) →
  wp (ParentRound f x) g (λ o g', ∃ r, o = Ret r ∧ pr_answer B R x r ∧ computes ps v R g0 g').
Proof.
  intros Hg Hx Hcall. unfold ParentRound. apply computes_memo_pr; [done|]. intros g' Hg'.
  destruct Hx as [->|[Hk _]]; [by apply parentRound_empty|].
  destruct (known_comet v x Hk) as [c Hc]. by eapply parentRound_spec.
Qed.

Lemma listed_known r w :
  w ∈ from_option Witnesses [] (rounds v !! r) → known B w.
Proof.
  destruct (rounds v !! r) as [ri|] eqn:Hri; simpl; [|by intros ?%elem_of_nil].
  intros (e & He & _)%elem_of_Witnesses.
  destruct (lay_sound _ _ _ _ _ _ Hlay _ _ _ _ Hri He) as (b & Hb & _). by eexists.
Qed.

Lemma NoDup_listed r : NoDup (from_option Witnesses [] (rounds v !! r)).
Proof. destruct (rounds v !! r); simpl; [apply NoDup_Witnesses|constructor]. Qed.

Lemma round_known f g0 g x :
  computes ps v R g0 g → ready B Div x → (∀ y, edge B x y → round_call f g0 y) →
  wp (round f x) g (λ o g', o = Ret (rnd R x) ∧ computes ps v R g0 g').
Proof.
  intros Hg Hx Hcall. pose proof (g_dag _ _ (q_graph _ _ _ (co_q _ _ _ _ _ Hg))) as Hd.
  pose proof Hx as [[b Hb] _].
  destruct (proj2 (lay_rounds _ _ _ _ _ _ Hlay) x b Hb) as (W & inc & HW & Hinc & Hr).
  unfold round. apply wp_bind. eapply wp_mono; [apply ParentRound_spec; eauto; by right|].
  intros o g1 (pi & -> & Hpi & Hg1). rewrite (pr_answer_known x b pi Hb Hpi Hd). clear pi Hpi.
  set (pi := parent_info B R b) in *.
  apply wp_bind. eapply (wp_mono _ _ (λ o g', o = Ret inc ∧ computes ps v R g0 g')).
  2:{ intros o g2 [-> Hg2]. apply wp_ret. by rewrite Hr. }
  unfold RoundInc. apply wp_bind. eapply wp_mono; [apply ParentRound_spec; eauto; by right|].
  intros o g2 (pi' & -> & Hpi' & Hg2). rewrite (pr_answer_known x b pi' Hb Hpi' Hd). fold pi.
  destruct (pri_IsRoot pi) eqn:Hroot.
  { apply wp_ret. split; [|done]. f_equal. symmetry. apply Hinc. by left. }
  apply wp_bind. eapply computes_RoundWitnesses; [done|]. intros g3 Hg3.
  apply wp_bind. eapply wp_mono.
  { apply (count_stronglySee_spec ps v R g0 x); [done|by eexists|apply listed_known|apply NoDup_listed]. }
  intros o g4 (W' & HW' & -> & Hg4). apply wp_gets_bind, wp_ret. split; [|done]. f_equal.
  assert (W' = W) as ->.
  { apply set_eq. intros w. rewrite (HW w), (HW' w). by eapply listed_witnesses. }
  rewrite (q_mp _ _ _ (co_q _ _ _ _ _ Hg4)), Z.add_0_l.
  apply eq_true_iff_eq. rewrite bool_decide_eq_true, Hinc. naive_solver.
Qed.

Lemma round_empty f g0 g :
  computes ps v R g0 g →
  wp (round f "") g (λ o g', o = Ret (-1) ∧ computes ps v R g0 g').
Proof.
  intros Hg. pose proof (g_dag _ _ (q_graph _ _ _ (co_q _ _ _ _ _ Hg))) as Hd.
  assert (∀ y, edge B "" y → round_call f g0 y) as Hno.
  { intros y (b & Hb & _). by rewrite (dag_ne_empty _ _ _ _ Hd) in Hb. }
  assert (∀ pi, pr_answer B R "" pi → pi = NewBaseParentRoundInfo) as Hbase.
  { intros pi [(b & Hb & _)|[_ ->]]; [|done]. by rewrite (dag_ne_empty _ _ _ _ Hd) in Hb. }
  unfold round. apply wp_bind. eapply wp_mono; [apply ParentRound_spec; eauto; by left|].
  intros o g1 (pi & -> & Hpi & Hg1). rewrite (Hbase pi Hpi).
  apply wp_bind. eapply (wp_mono _ _ (λ o g', o = Ret false ∧ computes ps v R g0 g')).
  2:{ intros o g2 [-> Hg2]. by apply wp_ret. }
  unfold RoundInc. apply wp_bind. eapply wp_mono; [apply ParentRound_spec; eauto; by left|].
  intros o g2 (pi' & -> & Hpi' & Hg2). rewrite (Hbase pi' Hpi'). cbn [pri_IsRoot pri_Round NewBaseParentRoundInfo].
  apply wp_bind. eapply computes_RoundWitnesses; [done|]. intros g3 Hg3.
  assert (from_option Witnesses [] (rounds v !! (-1)) = []) as ->.
  { destruct (from_option _ _ _) as [|w l] eqn:Hl; [done|].
    assert (w ∈ from_option Witnesses [] (rounds v !! (-1))) as Hw by (rewrite Hl; by left).
    destruct (rounds v !! (-1)) as [ri|] eqn:Hri; [|done]. simpl in Hw.
    apply elem_of_Witnesses in Hw as (e & He & _).
    destruct (lay_sound _ _ _ _ _ _ Hlay _ _ _ _ Hri He) as (b & Hb & _ & Hr & _).
    pose proof (rnd_nonneg ps B R rank _ _ w Hd (lay_rank _ _ _ _ _ _ Hlay)
      (lay_rounds _ _ _ _ _ _ Hlay) ltac:(by eexists)). lia. }
  cbn [count_stronglySee]. apply wp_bind, wp_ret, wp_gets_bind, wp_ret. split; [|done].
  rewrite (q_mp _ _ _ (co_q _ _ _ _ _ Hg3)). pose proof (MostPlurality_pos ps).
  rewrite bool_decide_eq_false_2 by lia. done.
Qed.

Definition enough (fuel : nat) (x : string) : Prop :=
  match comets v !! x with Some _ => (rank x < fuel)%nat | None => (0 < fuel)%nat end.

Lemma Round_spec g0 fuel : ∀ x g,
  computes ps v R g0 g → good x → enough fuel x →
  wp (Round_ fuel x) g (λ o g', o = Ret (rnd R x) ∧ computes ps v R g0 g').
Proof.
  induction fuel as [|fuel IH]; intros x g Hg Hx Hf.
  { unfold enough in Hf. destruct (comets v !! x); lia. }
  pose proof (g_dag _ _ (q_graph _ _ _ (co_q _ _ _ _ _ Hg))) as Hd.
  cbn [Round_]. eapply wp_mono.
  - apply (computes_memo_round ps v R g0); [done|]. intros g' Hg'.
    destruct Hx as [->|Hx].
    + eapply wp_mono; [by apply round_empty|]. intros o g'' [-> Hg'']. eexists.
      split; [done|]. split; [by right|done].
    + eapply wp_mono; [apply round_known; [done|done|]|].
      * intros y Hy g2 Hg2. apply IH; [done|right|].
        -- eapply divided_ready; [done|]. by apply Hx.
        -- destruct (known_comet v x (proj1 Hx)) as [c Hc]. unfold enough in *. rewrite Hc in Hf.
           pose proof (proj1 (lay_rank _ _ _ _ _ _ Hlay) _ _ Hy). destruct (comets v !! y); lia.
      * intros o g'' [-> Hg'']. eexists. split; [done|]. split; [left; split; [apply Hx|done]|done].
  - intros o g' (r & -> & Hr & Hg'). split; [|done]. f_equal.
    destruct Hr as [[_ ->]|[-> ->]]; [done|].
    by rewrite (rnd_empty ps B R (next_of v) (last_of v) Hd (lay_rounds _ _ _ _ _ _ Hlay)).
Qed.

Lemma sp_good x b :
  dag_ok ps B (next_of v) (last_of v) → ready B Div x → B !! x = Some b → good (b_sp b).
Proof.
  intros Hd Hx Hb. destruct (dag_b_sp ps B _ _ x b Hd Hb) as [_ [?|Hk]]; [by left|right].
  eapply divided_ready; [done|]. apply Hx. by eapply edge_sp.
Qed.

Lemma sp_enough fuel x b :
  dag_ok ps B (next_of v) (last_of v) → B !! x = Some b → (rank x < fuel)%nat →
  enough fuel (b_sp b).
Proof.
  intros Hd Hb Hf. unfold enough. destruct (comets v !! b_sp b) eqn:Hc; [|lia].
  assert (edge B x (b_sp b)) as He.
  { eapply edge_sp; [done..|]. unfold known. rewrite lookup_fmap, Hc. by eexists. }
  apply (proj1 (lay_rank _ _ _ _ _ _ Hlay)) in He. lia.
Qed.

Lemma Witness_spec g0 g fuel x b :
  computes ps v R g0 g → ready B Div x → B !! x = Some b → (rank x < fuel)%nat →
  wp (Witness fuel x) g (λ o g', ∃ r, o = Ret r ∧ (r = true ↔ is_witness R x b) ∧
                                      computes ps v R g0 g').
Proof.
  intros Hg Hx Hb Hf. pose proof (g_dag _ _ (q_graph _ _ _ (co_q _ _ _ _ _ Hg))) as Hd.
  destruct (known_comet v x (proj1 Hx)) as [c Hc].
  assert (b = Body c) as -> by (rewrite lookup_fmap, Hc in Hb; by injection Hb).
  destruct (dag_b_sp ps _ _ _ x _ Hd Hb) as [Hsp _], (dag_b_op ps _ _ _ x _ Hd Hb) as [Hop _].
  unfold Witness. apply wp_bind. eapply computes_GetComet; [done|]. rewrite Hc. intros g1 Hg1.
  apply wp_bind. eapply computes_GetRoot; [done..|]. intros g2 Hg2.
  eapply wp_lift_bind; [exact Hsp|]. cbn [X Y NewBaseRoot].
  apply wp_bind. eapply (wp_mono _ _ (λ o g', o = Ret (bool_decide (b_sp (Body c) = "" ∧
    b_op (Body c) = "")) ∧ computes ps v R g0 g')).
  { case_bool_decide as He.
    - eapply wp_lift_bind; [exact Hop|]. apply wp_ret. split; [|done]. f_equal.
      apply bool_decide_ext. naive_solver.
    - apply wp_ret. split; [|done]. f_equal. rewrite bool_decide_eq_false_2; [done|naive_solver]. }
  intros o g3 [-> Hg3]. case_bool_decide as Hfirst.
  { apply wp_ret. exists true. split; [done|]. split; [|done]. split; [by left|done]. }
  apply wp_bind. eapply wp_mono.
  { apply (Round_spec g0); [done|by right|]. unfold enough. by rewrite Hc. }
  intros o g4 [-> Hg4]. apply wp_bind. eapply wp_mono.
  { apply (Round_spec g0); [done|by eapply sp_good|by eapply sp_enough]. }
  intros o g5 [-> Hg5]. apply wp_ret. eexists. split; [done|]. split; [|done].
  rewrite bool_decide_eq_true. unfold is_witness. naive_solver.
Qed.
End Round.

(** ** Dividing *)

Record dividing ps v R rank Div g : Prop := {
  dv_q : queryable ps v g;
  dv_pr : cache_ok (pr_answer (Body <$> comets v) R) (parentRoundCache g);
  dv_round : cache_ok (round_answer (Body <$> comets v) R) (CometGraph.roundCache g);
  dv_layout : layout ps (Body <$> comets v) R rank Div (rounds v);
  dv_und : ∀ r, r ∈ UndecidedRounds g → r = 0 ∨ is_Some (rounds v !! r)
}.

Lemma dividing_computes ps v R rank Div g : dividing ps v R rank Div g → computes ps v R g g.
Proof. intros [? ? ? _ _]. split; try done. apply calm_refl. Qed.

(** Only the round tables and the list of undecided rounds change. *)
Definition divided g g' : Prop := ∃ und, calm (set_Undecided und g) g'.

Lemma divided_refl g g' : calm g g' → divided g g'.
Proof. intros Hc. exists (UndecidedRounds g). by destruct g. Qed.

Lemma divided_trans g1 g2 g3 : divided g1 g2 → divided g2 g3 → divided g1 g3.
Proof.
  intros [und (t & a & sa & o & ss & pr & ro & ->)] [und' (t' & a' & sa' & o' & ss' & pr' & ro' & ->)].
  by exists und', t', a', sa', o', ss', pr', ro'.
Qed.

Lemma graph_ok_rounds ps m lr v : graph_ok ps v → graph_ok ps (set_rounds m lr v).
Proof. by intros [? ? ? ?]. Qed.

Lemma divide_one_spec ps v R rank Div fuel g x :
  dividing ps v R rank Div g → ready (Body <$> comets v) Div x → (rank x < fuel)%nat →
  wp (divide_one fuel x) g (λ o g', o = Ret tt ∧ ∃ m lr,
    dividing ps (set_rounds m lr v) R rank ({[x]} ∪ Div) g' ∧ divided g g').
Proof.
  intros Hdv Hx Hf. pose proof (dv_layout _ _ _ _ _ _ Hdv) as Hlay.
  pose proof (dividing_computes _ _ _ _ _ _ Hdv) as Hc. pose proof Hx as [[b Hb] _].
  destruct (known_comet v x (proj1 Hx)) as [c Hcx].
  unfold divide_one. apply wp_bind. eapply wp_mono.
  { apply (Round_spec ps v R rank Div Hlay g); [done|by right|]. unfold enough. by rewrite Hcx. }
  intros o g1 [-> Hg1]. apply wp_bind. eapply wp_mono; [by apply (Witness_spec ps v R rank Div Hlay g _ _ x b)|].
  intros o g2 (w & -> & Hw & Hg2).
  apply wp_bind. eapply wp_mono; [by apply (computes_get_or_new_round ps v R g)|].
  intros o g3 [-> Hg3]. set (ri := default _ _).
  assert (Events ri = from_option Events ∅ (rounds v !! rnd R x)) as Hri by (unfold ri; by destruct (rounds v !! _)).
  apply wp_bind. eapply (wp_mono _ _ (λ o g', ∃ ri' und, o = Ret ri' ∧ Events ri' = Events ri ∧
    (∀ r, r ∈ und → r ∈ UndecidedRounds g3 ∨ r = rnd R x) ∧ g' = set_Undecided und g3)).
  { destruct (Queued ri).
    - apply wp_ret. exists ri, (UndecidedRounds g3). split; [done|]. split; [done|].
      split; [by left|]. by destruct g3.
    - apply wp_modify_bind, wp_ret. eexists _, _. split; [done|]. split; [done|]. split; [|done].
      intros r [?| ->%list_elem_of_singleton]%elem_of_app; auto. }
  intros o g4 (ri' & und & -> & Hri' & Hund & ->).
  pose proof (co_q _ _ _ _ _ Hg3) as Hq. apply wp_zoom. cbn [store set_Undecided upd_consensus].
  eapply wp_mono; [apply law_SetRound; [apply (q_ok _ _ _ Hq)|]|].
  { rewrite (q_view _ _ _ Hq). destruct (decide (x ∈ Div)) as [HxD|HxD].
    - left. destruct (lay_complete _ _ _ _ _ _ Hlay x HxD) as (? & ? & -> & _). by eexists.
    - right. rewrite <-(q_view _ _ _ Hq). apply law_rounds_fit; [apply (q_ok _ _ _ Hq)|].
      rewrite (q_view _ _ _ Hq). pose proof (layout_room _ _ _ _ _ _ x Hlay (proj1 Hx) HxD) as Hr.
      by rewrite map_size_fmap in Hr. }
  rewrite (q_view _ _ _ Hq). intros o t (-> & Ht & Hv). split; [done|]. eexists _, _. split.
  - assert (UndecidedRounds g3 = UndecidedRounds g) as Hug
      by (by destruct (co_calm _ _ _ _ _ Hg3) as (t' & a & sa & o & ss & pr & ro & ->)).
    destruct Hg3 as [[] Hp Hr Hcalm]. split; [|done|done| |].
    + split; try done. by apply graph_ok_rounds.
    + eapply layout_add; try done. by rewrite Hri', Hri.
    + intros r Hr'%Hund. cbn [rounds set_rounds]. rewrite lookup_insert.
      case_decide; [right; by eexists|]. destruct Hr' as [Hr'| ->]; [|done].
      rewrite Hug in Hr'. by apply (dv_und _ _ _ _ _ _ Hdv).
  - destruct Hg3 as [_ _ _ (t' & a & sa & o & ss & pr & ro & ->)].
    exists und. by exists t, a, sa, o, ss, pr, ro.
Qed.

(** ** The whole pass *)

(** Parents come before children. *)
Fixpoint topo (B : gmap string CometBody) (Div : gset string) (l : list string) : Prop :=
  match l with
  | [] => True
  | x :: l' => ready B Div x ∧ topo B ({[x]} ∪ Div) l'
  end.

Lemma DivideRounds_spec ps v R rank Div fuel g :
  dividing ps v R rank Div g → topo (Body <$> comets v) Div (UndeterminedEvents g) →
  (base.size (comets v) ≤ fuel)%nat →
  wp (DivideRounds fuel) g (λ o g', o = Ret tt ∧ ∃ m lr,
    dividing ps (set_rounds m lr v) R rank (Div ∪ list_to_set (UndeterminedEvents g)) g' ∧
    divided g g').
Proof.
  intros Hdv Htopo Hf. unfold DivideRounds. apply wp_gets_bind.
  set (L := UndeterminedEvents g) in *.
  eapply (wp_for_each _ (λ l g', ∃ m lr D, dividing ps (set_rounds m lr v) R rank D g' ∧
    topo (Body <$> comets v) D l ∧ D ∪ list_to_set l = Div ∪ list_to_set L ∧ divided g g')).
  - exists (rounds v), (last_round v), Div. split; [by destruct v|]. split; [done|]. split; [done|].
    apply divided_refl, calm_refl.
  - intros x l g1 (m & lr & D & Hdv1 & [Hx Hl] & HD & Hd1).
    eapply wp_mono; [apply (divide_one_spec _ _ _ _ _ _ _ _ Hdv1 Hx)|].
    + pose proof (proj2 (lay_rank _ _ _ _ _ _ (dv_layout _ _ _ _ _ _ Hdv1)) x (proj1 Hx)) as Hr.
      rewrite map_size_fmap in Hr. cbn [comets set_rounds] in Hr. lia.
    + intros o g2 (-> & m' & lr' & Hdv2 & Hd2). exists m', lr', ({[x]} ∪ D). split; [done|].
      split; [done|]. split; [set_solver|]. by eapply divided_trans.
  - intros g1 (m & lr & D & Hdv1 & _ & HD & Hd1). split; [done|]. exists m, lr. split; [|done].
    replace (Div ∪ list_to_set L) with D by set_solver. done.
Qed.
End Code.
