(* ===== verification/Order.v ===== *)
(** The consensus order and the blocks: sorting the received comets, grouping their
    transactions by round received, and handing out the blocks. *)
From S2P Require Import Prelude Lru Bytes Types Caches Store CometGraph Insert.
Open Scope Z_scope.

(** ** Sorting *)

(** The key [ConsensusSorter] orders by: round received, consensus timestamp, and the first
    number of the signature (the whitening number it is combined with is 0). *)
Definition sort_key (c : Comet) : option (Z * Z * Z) :=
  match RoundReceived c, DecodeSignature (Signature c) with
  | Some rr, Ret (Some r, _) => Some (rr, ConsensusTimestamp c, r)
  | _, _ => None
  end.

Definition key_lt (a b : Z * Z * Z) : Prop :=
  let '(r1, t1, s1) := a in
  let '(r2, t2, s2) := b in
  r1 < r2 ∨ r1 = r2 ∧ (t1 < t2 ∨ t1 = t2 ∧ s1 < s2).

#[export] Instance key_lt_dec a b : Decision (key_lt a b).
Proof. destruct a as [[??]?], b as [[??]?]. unfold key_lt. apply _. Defined.

Lemma key_lt_trans a b c : key_lt a b → key_lt b c → key_lt a c.
Proof. destruct a as [[??]?], b as [[??]?], c as [[??]?]. unfold key_lt. lia. Qed.

Lemma key_lt_total a b : key_lt a b ∨ a = b ∨ key_lt b a.
Proof.
  destruct a as [[a1 a2] a3], b as [[b1 b2] b3]. unfold key_lt.
  destruct (Z.lt_total a1 b1) as [?|[->|?]]; [lia| |lia].
  destruct (Z.lt_total a2 b2) as [?|[->|?]]; [lia| |lia].
  destruct (Z.lt_total a3 b3) as [?|[->|?]]; [lia|auto|lia].
Qed.

Lemma key_lt_irrefl a : ¬ key_lt a a.
Proof. destruct a as [[??]?]. unfold key_lt. lia. Qed.

Definition key_le (ka kb : option (Z * Z * Z)) : Prop :=
  match ka, kb with
  | Some ka, Some kb => ¬ key_lt kb ka
  | _, _ => False
  end.

Lemma key_le_antisymm ka kb : key_le ka kb → key_le kb ka → ka = kb.
Proof. destruct ka as [ka|], kb as [kb|]; try done. destruct (key_lt_total ka kb) as [?|[->|?]]; done. Qed.

(** [a] may stand before [b]. *)
Definition before (a b : Comet) : Prop := key_le (sort_key a) (sort_key b).

Lemma sorted_keys l : StronglySorted before l → StronglySorted key_le (sort_key <$> l).
Proof. induction 1 as [|x l _ IH Hx]; cbn; constructor; [done|]. by apply Forall_fmap. Qed.

Section Sorting.
Context `{RangeOrder}.

(** The whitening number is always 0: the sorter's round table is never filled. *)
Lemma whitening_zero rr : GetPseudoRandomNumber rr = Ret 0.
Proof.
  unfold GetPseudoRandomNumber, sorter_rounds. rewrite lookup_empty. simpl.
  unfold PseudoRandomNumber, FamousWitnesses. simpl.
  assert (range (K := string) (V := RoundEvent) ∅ = []) as ->; [|done].
  apply Permutation_nil. rewrite range_perm. by rewrite map_to_list_empty.
Qed.

Lemma Less_key a b ka kb :
  sort_key a = Some ka → sort_key b = Some kb → Less a b = Ret (bool_decide (key_lt ka kb)).
Proof.
  unfold sort_key. intros Ha Hb.
  destruct (RoundReceived a) as [ra|] eqn:Hra; [|done].
  destruct (DecodeSignature (Signature a)) as [[[sa|] ta]| | |] eqn:Hsa; try done.
  destruct (RoundReceived b) as [rb|] eqn:Hrb; [|done].
  destruct (DecodeSignature (Signature b)) as [[[sb|] tb]| | |] eqn:Hsb; try done.
  injection Ha as <-. injection Hb as <-.
  unfold Less. rewrite Hra, Hrb. simpl. case_bool_decide as Hr.
  { f_equal. apply bool_decide_ext. lia. }
  subst rb. case_bool_decide as Ht.
  { f_equal. apply bool_decide_ext. lia. }
  rewrite Ht, whitening_zero. simpl.
  unfold signature_xor. rewrite Hsa, Hsb. simpl. rewrite !Z.lxor_0_r.
  f_equal. apply bool_decide_ext. lia.
Qed.

Definition keyed (c : Comet) : Prop := is_Some (sort_key c).

Lemma insert_sorted_spec x l :
  keyed x → Forall keyed l → StronglySorted before l →
  ∃ l', insert_sorted Less x l = Ret l' ∧ l' ≡ₚ x :: l ∧ StronglySorted before l'.
Proof.
  intros [kx Hx]. induction l as [|y l IH]; intros Hl Hs.
  { exists [x]. split; [done|]. split; [done|]. repeat constructor. }
  apply Forall_cons in Hl as [[ky Hy] Hl]. apply StronglySorted_inv in Hs as [Hs Hall].
  cbn [insert_sorted]. rewrite (Less_key x y kx ky Hx Hy). cbn [obind].
  case_bool_decide as Hlt.
  - exists (x :: y :: l). split; [done|]. split; [done|].
    assert (∀ z, z ∈ y :: l → before y z → before x z) as Hxz.
    { intros z _ Hyz. unfold before in *. rewrite Hy in Hyz. rewrite Hx.
      destruct (sort_key z) as [kz|]; [|done]. intros Hzx. apply Hyz.
      by apply (key_lt_trans kz kx ky). }
    constructor; [by constructor|]. apply Forall_cons. split.
    + apply Hxz; [by left|]. unfold before. rewrite Hy. apply key_lt_irrefl.
    + apply Forall_forall. intros z Hz. apply Hxz; [by right|].
      by apply (proj1 (Forall_forall _ _) Hall).
  - destruct (IH Hl Hs) as (l' & -> & Hperm & Hs'). cbn [obind]. exists (y :: l').
    split; [done|]. split; [rewrite Hperm; by constructor|]. constructor; [done|].
    rewrite Hperm. constructor; [|done]. unfold before. by rewrite Hy, Hx.
Qed.

Lemma sort_spec l :
  Forall keyed l → ∃ l', sort Less l = Ret l' ∧ l' ≡ₚ l ∧ StronglySorted before l'.
Proof.
  induction l as [|x l IH]; intros Hl; [exists []; by repeat constructor|].
  apply Forall_cons in Hl as [Hx Hl]. destruct (IH Hl) as (l' & Hl' & Hperm & Hs).
  cbn [sort]. rewrite Hl'. cbn [obind].
  destruct (insert_sorted_spec x l' Hx) as (l'' & -> & Hperm' & Hs'); [by rewrite Hperm|done|].
  exists l''. split; [done|]. split; [by rewrite Hperm', Hperm|done].
Qed.

(** Comets with equal keys are equal. *)
Definition distinct_keys (l : list Comet) : Prop :=
  ∀ a b, a ∈ l → b ∈ l → sort_key a = sort_key b → a = b.

(** C14: the consensus order depends on the set of received comets only: whatever order they are
    found in, sorting returns, and returns an arrangement of them in which the round received,
    then the consensus timestamp, then the first number of the signature goes up.  All such
    arrangements have the same sequence of keys, so comets can be exchanged only within a group
    with one key; in particular, if no two comets have the same key, there is one arrangement, and
    any sorting algorithm returns it.  The comets must have been received and have readable
    signatures ([keyed]).  (Two comets that a creator has signed with the same nonce can share the
    key, and then [sort.Sort], which is not stable, does not fix their order.) *)
Theorem consensus_order_canonical l1 l2 :
  l1 ≡ₚ l2 → Forall keyed l1 →
  ∃ r1 r2, sort Less l1 = Ret r1 ∧ sort Less l2 = Ret r2 ∧
    r1 ≡ₚ l1 ∧ StronglySorted before r1 ∧ r2 ≡ₚ l1 ∧ StronglySorted before r2 ∧
    (∀ l', l' ≡ₚ l1 → StronglySorted before l' → sort_key <$> l' = sort_key <$> r1) ∧
    (distinct_keys l1 → r2 = r1 ∧ ∀ l', l' ≡ₚ l1 → StronglySorted before l' → l' = r1).
Proof.
  intros Hperm Hk. destruct (sort_spec l1 Hk) as (r1 & Hr1 & Hp1 & Hs1).
  destruct (sort_spec l2) as (r2 & Hr2 & Hp2 & Hs2); [by rewrite <-Hperm|]. rewrite <-Hperm in Hp2.
  exists r1, r2. repeat (split; [done|]). split.
  - intros m Hm Hsm. eapply StronglySorted_unique_strong; [|by apply sorted_keys..|by rewrite Hm, Hp1].
    intros ka kb _ _. apply key_le_antisymm.
  - intros Hd. assert (∀ m, m ≡ₚ l1 → StronglySorted before m → m = r1) as Huniq; [|by auto].
    intros m Hm Hsm. eapply StronglySorted_unique_strong; [|done|done|by rewrite Hm, Hp1].
    intros a b Ha Hb Hab Hba. rewrite Hm in Ha. rewrite Hp1 in Hb. apply Hd; [done..|]. by apply key_le_antisymm.
Qed.
End Sorting.

(** ** Grouping transactions into blocks *)

Definition rr_of (e : Comet) : Z := default 0 (RoundReceived e).

(** The transactions of the comets received in round [rr], in order. *)
Definition txs_of (rr : Z) (es : list Comet) : list bytes :=
  concat (map comet_Transactions (filter (λ e, rr_of e = rr) es)).

Definition grouped (es : list Comet) : gmap Z (list bytes) * list Z :=
  fold_left (λ bm e, add_to_blocks bm (rr_of e) (comet_Transactions e)) es (∅, []).

Lemma grouped_snoc es e :
  grouped (es ++ [e]) = add_to_blocks (grouped es) (rr_of e) (comet_Transactions e).
Proof. unfold grouped. by rewrite fold_left_app. Qed.

Lemma txs_of_snoc rr es e :
  txs_of rr (es ++ [e]) =
    txs_of rr es ++ (if decide (rr_of e = rr) then comet_Transactions e else []).
Proof.
  unfold txs_of. rewrite filter_app, map_app, concat_app. f_equal.
  rewrite filter_cons. case_decide; simpl; by rewrite ?app_nil_r.
Qed.

Lemma txs_of_none rr es : (∀ e, e ∈ es → rr_of e ≠ rr) → txs_of rr es = [].
Proof.
  unfold txs_of. induction es as [|e es IH]; intros Hne; [done|]. rewrite filter_cons.
  rewrite decide_False by (apply Hne; by left). apply IH. intros. apply Hne. by right.
Qed.

Lemma grouped_spec es :
  NoDup (grouped es).2 ∧
  (∀ rr, rr ∈ (grouped es).2 ↔ ∃ e, e ∈ es ∧ rr_of e = rr) ∧
  (∀ rr, (grouped es).1 !! rr = if decide (rr ∈ (grouped es).2) then Some (txs_of rr es) else None).
Proof.
  induction es as [|e es (Hnd & Hin & Hmap)] using rev_ind.
  { split; [constructor|]. split; [|intros rr; rewrite decide_False by (by intros ?%elem_of_nil); apply lookup_empty].
    intros rr. split; [by intros ?%elem_of_nil|]. by intros (e & ?%elem_of_nil & _). }
  rewrite grouped_snoc. unfold add_to_blocks.
  assert (∀ rr, (∃ e0, e0 ∈ es ++ [e] ∧ rr_of e0 = rr) ↔ rr ∈ (grouped es).2 ∨ rr_of e = rr) as Hor.
  { intros rr. rewrite Hin. split.
    - intros (e0 & [?| ->%list_elem_of_singleton]%elem_of_app & ?); eauto.
    - intros [(e0 & ? & ?)|?]; [exists e0|exists e]; rewrite elem_of_app, list_elem_of_singleton; auto. }
  rewrite (Hmap (rr_of e)). destruct (decide (rr_of e ∈ (grouped es).2)) as [Hold|Hnew]; simpl.
  - split; [done|]. split.
    + intros rr. rewrite Hor. split; [auto|]. by intros [?|<-].
    + intros rr. rewrite lookup_insert, txs_of_snoc, Hmap.
      destruct (decide (rr_of e = rr)) as [<-|Hne]; [by rewrite decide_True|].
      by rewrite app_nil_r.
  - split; [apply NoDup_app; split; [done|]; split; [|apply NoDup_singleton]|split].
    + intros rr Hrr ->%list_elem_of_singleton. done.
    + intros rr. rewrite Hor, elem_of_app, list_elem_of_singleton. naive_solver.
    + intros rr. rewrite lookup_insert, txs_of_snoc, Hmap.
      destruct (decide (rr_of e = rr)) as [<-|Hne].
      * rewrite decide_True by (rewrite elem_of_app, list_elem_of_singleton; auto). f_equal.
        rewrite txs_of_none; [done|]. intros e0 He0 Heq. apply Hnew, Hin. eauto.
      * rewrite app_nil_r. destruct (decide (rr ∈ (grouped es).2)).
        -- by rewrite decide_True by (rewrite elem_of_app; auto).
        -- rewrite decide_False; [done|]. rewrite elem_of_app, list_elem_of_singleton. naive_solver.
Qed.

Definition by_round (a b : Comet) : Prop := rr_of a ≤ rr_of b.

(** Of comets sorted by round received, the groups are in order, one after the other. *)
Lemma grouped_sorted es :
  StronglySorted by_round es →
  StronglySorted Z.lt (grouped es).2 ∧
  concat (map (λ rr, txs_of rr es) (grouped es).2) = concat (map comet_Transactions es).
Proof.
  induction es as [|e es IH] using rev_ind; intros Hs; [split; [constructor|done]|].
  apply StronglySorted_app in Hs as (Hle & Hs & _).
  destruct (IH Hs) as [Hlt Hcat]. destruct (grouped_spec es) as (Hnd & Hin & Hmap).
  assert (∀ rr, rr ∈ (grouped es).2 → rr ≤ rr_of e) as Hmax.
  { intros rr (e0 & He0 & <-)%Hin. apply Hle; [done|by left]. }
  assert (∀ l, (∀ rr, rr ∈ l → rr ≠ rr_of e) →
    map (λ rr, txs_of rr (es ++ [e])) l = map (λ rr, txs_of rr es) l) as Hsame.
  { intros l Hl. apply map_ext_in. intros rr Hrr%list_elem_of_In. rewrite txs_of_snoc.
    rewrite decide_False by (by apply not_eq_sym, Hl). by rewrite app_nil_r. }
  rewrite grouped_snoc, map_app, concat_app, <-Hcat. unfold add_to_blocks. rewrite (Hmap (rr_of e)).
  destruct (decide (rr_of e ∈ (grouped es).2)) as [Hold|Hnew]; cbn [fst snd].
  - split; [done|].
    destruct (list_elem_of_split _ _ Hold) as (o1 & o2 & Ho).
    assert (o2 = []) as ->.
    { destruct o2 as [|r o2]; [done|]. rewrite Ho in Hlt, Hmax.
      apply StronglySorted_app in Hlt as (_ & _ & Hlt). apply StronglySorted_inv in Hlt as [_ Hf].
      apply Forall_cons in Hf as [Hf _]. specialize (Hmax r ltac:(set_solver)). lia. }
    rewrite Ho in *. rewrite !map_app, !concat_app. simpl. rewrite (Hsame o1).
    + rewrite txs_of_snoc, decide_True by done. rewrite !app_nil_r. by rewrite app_assoc.
    + intros rr Hrr ->. apply NoDup_app in Hnd as (_ & Hd & _). eapply (Hd (rr_of e)); [done|by left].
  - split.
    + apply StronglySorted_app. split; [|split; [done|repeat constructor]].
      intros r1 r2 Hr1 ->%list_elem_of_singleton. specialize (Hmax r1 Hr1).
      assert (r1 ≠ rr_of e) by (intros ->; done). lia.
    + rewrite map_app, concat_app, (Hsame (grouped es).2) by (intros rr Hrr ->; done). f_equal.
      simpl. rewrite txs_of_snoc, decide_True by done.
      rewrite txs_of_none; [done|]. intros e0 He0 Heq. apply Hnew, Hin. eauto.
Qed.

(** The blocks made of the groups, numbered from [i + 1]; empty groups make none. *)
Fixpoint make_blocks (i : Z) (groups : list (Z * list bytes)) : list Block :=
  match groups with
  | [] => []
  | (rr, txs) :: groups' =>
      if decide (txs = []) then make_blocks i groups'
      else NewBlock (i + 1) rr txs :: make_blocks (i + 1) groups'
  end.

Lemma make_blocks_index i groups k b :
  make_blocks i groups !! k = Some b → bb_Index (b_Body b) = i + 1 + Z.of_nat k.
Proof.
  revert i k. induction groups as [|[rr txs] groups IH]; intros i k; [done|]. simpl.
  case_decide; [apply IH|]. destruct k as [|k]; simpl.
  - intros [= <-]. simpl. lia.
  - intros Hk%IH. lia.
Qed.

Lemma make_blocks_from i (f : Z → list bytes) order k b :
  make_blocks i (map (λ rr, (rr, f rr)) order) !! k = Some b →
  bb_Transactions (b_Body b) = f (bb_RoundReceived (b_Body b)) ∧ bb_Transactions (b_Body b) ≠ [].
Proof.
  revert i k. induction order as [|rr order IH]; intros i k; [done|]. simpl.
  case_decide; [apply IH|]. destruct k as [|k]; simpl; [by intros [= <-]|apply IH].
Qed.

Lemma make_blocks_txs i groups :
  concat (map (λ b, bb_Transactions (b_Body b)) (make_blocks i groups)) = concat (map snd groups).
Proof.
  revert i. induction groups as [|[rr txs] groups IH]; intros i; [done|]. simpl.
  case_decide as He; [by rewrite IH, He|]. simpl. by rewrite IH.
Qed.

Lemma make_blocks_length i groups : (length (make_blocks i groups) ≤ length groups)%nat.
Proof.
  revert i. induction groups as [|[rr txs] groups IH]; intros i; [done|]. simpl.
  case_decide; simpl; [specialize (IH i)|specialize (IH (i + 1))]; lia.
Qed.

Section Blocks.
Context `{RangeOrder, Crypto} {S : Type} `{Store S, !StoreLaws S}.
Implicit Types (g : CometGraph (S := S)) (v : content).

Definition put_block (m : gmap Z Block) (b : Block) : gmap Z Block := <[bb_Index (b_Body b) := b]> m.

(** [k] more blocks fit in the store. *)
Definition room_for_blocks v (k : nat) : Prop :=
  ∀ m i, (base.size m < base.size (blocks v) + k)%nat → room_block (set_blocks m v) i.

(** What sending blocks does to the graph outside the store. *)
Definition sent (bs : list Block) g : CometGraph :=
  set_commitCh (option_map (λ l, l ++ bs) (commitCh g))
    (set_LastBlock (LastBlockIndex g + Z.of_nat (length bs)) g).

Lemma sent_nil g : sent [] g = g.
Proof.
  unfold sent. destruct g as [? ? ? ? ? ? lbi ? ? ? ? ? ch ? ? ? ? ? ?]. cbn.
  rewrite Z.add_0_r. destruct ch; simpl; by rewrite ?app_nil_r.
Qed.

Lemma at_store_sent g0 v g bs : at_store g0 v g → at_store (sent bs g0) v (sent bs g).
Proof. intros (t & -> & Ht & Hv). by exists t. Qed.

Lemma sent_sent bs bs' g : sent bs' (sent bs g) = sent (bs ++ bs') g.
Proof.
  unfold sent. destruct g as [? ? ? ? ? ? lbi ? ? ? ? ? ch ? ? ? ? ? ?]. cbn.
  rewrite length_app, Nat2Z.inj_add, Z.add_assoc. destruct ch; simpl; by rewrite ?app_assoc.
Qed.

Lemma emit_block_spec bm g0 v g rr k :
  at_store g0 v g → room_for_blocks v (Datatypes.S k) →
  let bs := make_blocks (LastBlockIndex g0) [(rr, default [] (bm !! rr))] in
  wp (emit_block bm rr) g (λ o g', o = Ret tt ∧ ∃ v',
    v' = set_blocks (fold_left put_block bs (blocks v)) v ∧ at_store (sent bs g0) v' g' ∧
    room_for_blocks v' k).
Proof.
  intros Hat Hroom. cbn zeta. unfold emit_block. set (txs := default [] (bm !! rr)).
  simpl make_blocks. case_decide as He.
  - rewrite bool_decide_eq_false_2 by (rewrite He; unfold len; simpl; lia).
    apply wp_ret. split; [done|]. exists v. rewrite sent_nil. simpl.
    split; [by destruct v|]. split; [done|]. intros m i Hm. apply Hroom. lia.
  - assert (0 < len txs) as Hlen by (unfold len; destruct txs; [done|simpl; lia]).
    rewrite bool_decide_eq_true_2 by done.
    apply wp_bind. unfold createAndInsertBlock. apply wp_gets_bind.
    pose proof Hat as (t & -> & Ht & Hv). cbn [LastBlockIndex upd_store].
    set (b := NewBlock (LastBlockIndex g0 + 1) rr txs).
    apply wp_bind, wp_zoom. cbn [store upd_store].
    eapply wp_mono; [apply law_SetBlock; [done|right]|].
    { replace (view t) with (set_blocks (blocks v) v) by (by destruct v). apply Hroom. lia. }
    rewrite Hv. intros o t' (-> & Ht' & Hv'). apply wp_modify_bind, wp_ret.
    unfold wp, modify. cbn [fst snd]. split; [done|].
    exists (set_blocks (put_block (blocks v) b) v). split; [done|]. split.
    + exists t'. split; [|split; [done|exact Hv']]. unfold sent. destruct g0 as [? ? ? ? ? ? ? ? ? ? ? ? ch ? ? ? ? ? ?]. by destruct ch.
    + intros m i Hm. apply (Hroom m i). cbn [blocks set_blocks] in Hm.
      unfold put_block in Hm. rewrite map_size_insert in Hm. destruct (blocks v !! _); unfold id in Hm; lia.
Qed.

Lemma emit_blocks_spec bm order : ∀ g0 v g,
  at_store g0 v g → room_for_blocks v (length order) →
  let bs := make_blocks (LastBlockIndex g0) (map (λ rr, (rr, default [] (bm !! rr))) order) in
  wp (for_each (emit_block bm) order) g (λ o g', o = Ret tt ∧
    at_store (sent bs g0) (set_blocks (fold_left put_block bs (blocks v)) v) g').
Proof.
  induction order as [|rr order IH]; intros g0 v g Hat Hroom bs.
  { apply wp_ret. split; [done|]. subst bs. simpl. rewrite sent_nil. by destruct v. }
  cbn [for_each]. apply wp_bind. eapply wp_mono; [by eapply emit_block_spec|].
  intros o g1 (-> & v' & -> & Hat1 & Hroom1).
  eapply wp_mono; [apply (IH _ _ _ Hat1 Hroom1)|]. intros o g2 [-> Hat2]. split; [done|].
  revert Hat2. subst bs. cbn [map make_blocks]. case_decide as He; cbn [make_blocks].
  - rewrite !sent_nil. simpl. done.
  - cbn [LastBlockIndex sent length].
    rewrite sent_sent. cbn [app fold_left blocks set_blocks].
    replace (LastBlockIndex (sent _ g0)) with (LastBlockIndex g0 + 1) by (by destruct g0).
    done.
Qed.

(** The counters after the comets [es] have been handled. *)
Definition counted (es : list Comet) g : CometGraph :=
  set_counts (ConsensusTransactions g + len (concat (map comet_Transactions es)))
    (PendingLoadedEvents g - countb IsLoaded es) g.

Lemma counted_nil g : counted [] g = g.
Proof. unfold counted. destruct g. cbn. by rewrite Z.add_0_r, Z.sub_0_r. Qed.

Lemma countb_snoc {A} (f : A → bool) l x : countb f (l ++ [x]) = countb f l + (if f x then 1 else 0).
Proof.
  rewrite (countb_perm f (l ++ [x]) (x :: l)) by (by rewrite Permutation_app_comm).
  simpl. destruct (f x); lia.
Qed.

Lemma handle_events_spec es g0 v g :
  at_store g0 v g → Forall (λ e, is_Some (RoundReceived e)) es →
  wp (foldM handle_event (∅, []) es) g (λ o g', o = Ret (grouped es) ∧ at_store (counted es g0) v g').
Proof.
  intros Hat Hrr.
  eapply (wp_foldM _ (λ l bm g', ∃ dn, es = dn ++ l ∧ bm = grouped dn ∧ at_store (counted dn g0) v g')).
  - exists []. split; [done|]. split; [done|]. by rewrite counted_nil.
  - intros e l bm g' (dn & -> & -> & Hat'). unfold handle_event.
    apply Forall_app in Hrr as [_ Hrr]. apply Forall_cons in Hrr as [[rr Hr] _].
    apply wp_bind, wp_zoom. pose proof Hat' as (t & -> & Ht & Hv). cbn [store upd_store].
    eapply wp_mono; [by apply law_AddConsensusEvent|]. intros o t' (-> & Ht' & Hv' & _).
    apply wp_modify_bind. rewrite Hr. apply wp_ret. exists (dn ++ [e]). split; [by rewrite <-app_assoc|].
    split; [rewrite grouped_snoc; unfold rr_of; by rewrite Hr|].
    exists t'. split; [|split; [done|congruence]].
    unfold counted. rewrite countb_snoc, map_app, concat_app. unfold len. simpl. rewrite app_nil_r, length_app.
    destruct g0, (IsLoaded e); cbn;
      by rewrite Nat2Z.inj_add, !Z.add_assoc, ?Z.add_0_r, ?Z.sub_add_distr.
  - intros bm g' (dn & Hes & -> & Hat'). rewrite app_nil_r in Hes. by subst dn.
Qed.

(** The blocks made of the received comets [es] after block [i]. *)
Definition blocks_from (i : Z) (es : list Comet) : list Block :=
  make_blocks i (map (λ rr, (rr, txs_of rr es)) (grouped es).2).

Lemma handle_spec es g :
  store_ok (store g) → Forall (λ e, is_Some (RoundReceived e)) es →
  room_for_blocks (view (store g)) (length (grouped es).2) →
  let bs := blocks_from (LastBlockIndex g) es in
  wp (handleNewConsensusEvents es) g (λ o g', o = Ret tt ∧
    at_store (sent bs (counted es g))
      (set_blocks (fold_left put_block bs (blocks (view (store g)))) (view (store g))) g').
Proof.
  intros Hok Hrr Hroom bs. unfold handleNewConsensusEvents. apply wp_bind.
  eapply wp_mono; [apply handle_events_spec; [by apply at_store_refl|done]|].
  intros o g1 [-> Hat1].
  eapply wp_mono; [by apply (emit_blocks_spec _ _ _ _ _ Hat1 Hroom)|]. intros o g2 [-> Hat2].
  split; [done|]. revert Hat2. subst bs. unfold blocks_from.
  replace (map (λ rr, (rr, default [] ((grouped es).1 !! rr))) (grouped es).2)
    with (map (λ rr, (rr, txs_of rr es)) (grouped es).2); [done|].
  apply map_ext_in. intros rr Hin%list_elem_of_In. destruct (grouped_spec es) as (_ & _ & ->).
  by rewrite decide_True.
Qed.

Lemma grouped_length es : (length (grouped es).2 ≤ length es)%nat.
Proof.
  rewrite <-(length_map rr_of es). apply submseteq_length, NoDup_submseteq; [apply grouped_spec|].
  intros rr (e & He & <-)%(proj1 (proj2 (grouped_spec es))). by apply list_elem_of_fmap_2.
Qed.

(** C15: the comets that reach consensus become blocks: consecutive block indexes after the
    last one, one block per round received with its transactions in order, each stored
    under its index and sent once; when the comets come in consensus order, the
    transactions of the blocks are exactly theirs, in that order.  The counters move by
    the transactions and by the loaded comets.  The comets have been received, and the store has
    room for a block for each. *)
Theorem consensus_comets_become_blocks es g :
  store_ok (store g) → Forall (λ e, is_Some (RoundReceived e)) es →
  room_for_blocks (view (store g)) (length es) →
  wp (handleNewConsensusEvents es) g (λ o g', o = Ret tt ∧ ∃ bs,
    commitCh g' = option_map (λ l, l ++ bs) (commitCh g) ∧
    LastBlockIndex g' = LastBlockIndex g + Z.of_nat (length bs) ∧
    blocks (view (store g')) = fold_left put_block bs (blocks (view (store g))) ∧
    (∀ k b, bs !! k = Some b → bb_Index (b_Body b) = LastBlockIndex g + 1 + Z.of_nat k ∧
       bb_Transactions (b_Body b) = txs_of (bb_RoundReceived (b_Body b)) es ∧
       bb_Transactions (b_Body b) ≠ []) ∧
    (StronglySorted by_round es →
       concat (map (λ b, bb_Transactions (b_Body b)) bs) = concat (map comet_Transactions es)) ∧
    ConsensusTransactions g' = ConsensusTransactions g + len (concat (map comet_Transactions es)) ∧
    PendingLoadedEvents g' = PendingLoadedEvents g - countb IsLoaded es).
Proof.
  intros Hok Hrr Hroom. eapply wp_mono; [apply handle_spec; [done|done|]|].
  - intros m i Hm. apply Hroom. pose proof (grouped_length es). lia.
  - intros o g' (-> & t & -> & Ht & Hv). split; [done|]. exists (blocks_from (LastBlockIndex g) es).
    cbn [store upd_store]. rewrite Hv. split; [done|]. split; [done|]. split; [done|]. split.
    + intros k b Hb. split; [by eapply make_blocks_index|]. by apply (make_blocks_from (LastBlockIndex g) (λ rr, txs_of rr es) (grouped es).2 k).
    + split; [|done]. intros Hs. unfold blocks_from. rewrite make_blocks_txs, map_map.
      by apply grouped_sorted.
Qed.
End Blocks.
