(* ===== verification/Voting.v ===== *)
(** [DecideFame] holds the elections of [Fame.v]: the votes it counts are the votes of the
    witnesses, and the fame it writes into the round tables has been decided. *)
From S2P Require Import Prelude Lru Bytes Types Caches Store CometGraph Ancestry Insert Queries Graph Rounds Fame Divide.
Open Scope Z_scope.
Open Scope go_scope.

(** ** Counting the votes *)

Lemma getVote_same votes y x b : getVote (setVote votes y x b) y x = b.
Proof. unfold getVote, setVote. rewrite lookup_insert_eq. simpl. by rewrite lookup_insert_eq. Qed.

Lemma getVote_other votes y x b y' : y' ≠ y → getVote (setVote votes y x b) y' x = getVote votes y' x.
Proof. intros Hne. unfold getVote, setVote. by rewrite lookup_insert_ne. Qed.

Lemma size_cons_difference (w : string) (X Y : gset string) :
  w ∉ X → w ∉ Y → base.size (({[w]} ∪ X) ∖ Y) = Datatypes.S (base.size (X ∖ Y)).
Proof.
  intros HX HY. replace (({[w]} ∪ X) ∖ Y) with ({[w]} ∪ (X ∖ Y)) by set_solver.
  rewrite size_union, size_singleton; [done|set_solver].
Qed.

Lemma count_votes_spec votes x ws yays nays :
  NoDup ws →
  let Y := list_to_set (filter (λ w, getVote votes w x = true) ws) : gset string in
  count_votes votes x ws yays nays =
    (yays + Z.of_nat (base.size Y), nays + Z.of_nat (base.size ((list_to_set ws : gset string) ∖ Y))).
Proof.
  cbn zeta. revert yays nays. induction ws as [|w ws IH]; intros yays nays Hnd.
  { rewrite filter_nil, list_to_set_nil, difference_diag_L, size_empty. cbn [count_votes]. f_equal; lia. }
  apply NoDup_cons in Hnd as [Hw Hnd]. cbn [count_votes]. rewrite filter_cons.
  destruct (getVote votes w x) eqn:Hv.
  - rewrite decide_True by done. rewrite (IH _ _ Hnd), !list_to_set_cons. f_equal.
    + rewrite size_union, size_singleton; [lia|]. intros z Hz%elem_of_singleton Hz'. subst z.
      apply elem_of_list_to_set, list_elem_of_filter in Hz' as [_ ?]. done.
    + do 3 f_equal. apply set_eq. intros z. rewrite !elem_of_difference, !elem_of_union, !elem_of_singleton, !elem_of_list_to_set.
      split; [intros [Hz Hn]; split; [by right|]|intros [[->|?] Hn]; [naive_solver|split; [done|naive_solver]]].
      intros [->|?]; [done|naive_solver].
  - rewrite decide_False by done. rewrite (IH _ _ Hnd), list_to_set_cons. f_equal.
    rewrite size_cons_difference; [lia|by rewrite elem_of_list_to_set|].
    intros [? _]%elem_of_list_to_set%list_elem_of_filter. congruence.
Qed.

(** The name of a comet has a middle. *)
Lemma middleBit_hexX h : ∃ c, middleBit (hexX h) = Ret c.
Proof. by eexists. Qed.

Section Voting.
Context `{RangeOrder, Crypto} {S : Type} `{Store S, !StoreLaws S}.
Implicit Types (g : CometGraph (S := S)).
Context (ps : gmap string Z) (v : content) (R : gmap string Z) (rank : string → nat) (Div : gset string).
Abbreviation B := (Body <$> comets v).
Context (Hlay : layout ps B R rank Div (rounds v)).
Context (Hd : dag_ok ps B (next_of v) (last_of v)).

Abbreviation listed r := (from_option Witnesses [] (rounds v !! r)).

Lemma listed_wit r w : w ∈ listed r → wit B R w r ∧ w ∈ Div.
Proof.
  destruct (rounds v !! r) as [ri|] eqn:Hri; simpl; [|by intros ?%elem_of_nil].
  intros (e & He & Hw)%elem_of_Witnesses.
  destruct (lay_sound _ _ _ _ _ _ Hlay _ _ _ _ Hri He) as (b & Hb & HD & Hr & Hwit).
  split; [|done]. exists b. by rewrite <-Hwit.
Qed.

Lemma filter_stronglySee_spec y g0 ws : ∀ g,
  computes ps v R g0 g → known B y → (∀ w, w ∈ ws → known B w) → NoDup ws →
  WP (filter_stronglySee y ws) ◃ g {{ o g', ∃ l, o = Ret l ∧ NoDup l ∧
    (∀ w, w ∈ l ↔ w ∈ ws ∧ strongly ps B y w) ∧ computes ps v R g0 g' }}.
Proof.
  induction ws as [|w ws IH]; intros g Hg Hy Hk Hnd.
  { apply wp_ret. exists []. split; [done|]. split; [constructor|]. split; [set_solver|done]. }
  apply NoDup_cons in Hnd as [Hw Hnd]. cbn [filter_stronglySee].
  apply wp_bind. eapply computes_StronglySee; [done|done|apply Hk; by left|]. intros g1 r Hg1 Hr.
  apply wp_bind. eapply wp_mono; [apply (IH g1 Hg1 Hy); [|done]; intros; apply Hk; by right|].
  intros o g2 (l & -> & Hl & Hin & Hg2). apply wp_ret. eexists. split; [done|]. split; [|split; [|done]].
  - destruct r; [|done]. constructor; [|done]. by intros [? _]%Hin.
  - intros z. rewrite elem_of_cons. destruct r; [rewrite elem_of_cons|]; rewrite Hin; naive_solver.
Qed.

(** The votes on [x] of all the witnesses listed for the rounds below [j] are in the table. *)
Definition counted_to (votes : gmap string (gmap string bool)) (x : string) (i j : Z) : Prop :=
  ∀ k w, i < k < j → w ∈ listed k → voted ps B R x i w (getVote votes w x).

(** One witness of round [j] votes. *)
Lemma vote_one_spec g0 g x i j ri votes y :
  computes ps v R g0 g → known B x → i < j → y ∈ listed j → counted_to votes x i j →
  WP (vote_one i x j (ri, votes) y) ◃ g {{ o g', ∃ ri' b stop, o = Ret (ri', setVote votes y x b, stop) ∧
    voted ps B R x i y b ∧ computes ps v R g0 g' ∧
    if stop : bool then ∃ f, decided ps B R x i f ∧ ri' = SetFame x f ri else ri' = ri }}.
Proof.
  intros Hg Hx Hj Hy Hcov. destruct (listed_wit j y Hy) as [Hwy HyD].
  assert (known B y) as Hyk by (destruct Hwy as (? & ? & _); by eexists).
  unfold vote_one. case_bool_decide as Hdiff.
  { apply wp_bind. eapply wp_mono; [by apply (AncestorOf_spec ps v g g y x (computes_asks _ _ _ _ _ Hg))|].
    intros o g1 (r & -> & (_ & _ & Hr) & Hg1). apply wp_ret. exists ri, r, false. split; [done|].
    split; [|split; [by eapply computes_quiet|done]].
    apply voted_see; [by replace (i + 1) with j by lia|done]. }
  apply wp_bind. eapply computes_RoundWitnesses; [done|]. intros g1 Hg1.
  apply wp_bind. eapply wp_mono.
  { apply (filter_stronglySee_spec y g0); [done|done| |by apply NoDup_listed].
    intros w Hw. destruct (listed_wit _ _ Hw) as [(? & ? & _) _]. by eexists. }
  intros o g2 (l & -> & Hnd & Hin & Hg2). rewrite (count_votes_spec _ _ _ _ _ Hnd). cbn zeta.
  set (W := list_to_set l : gset string). set (Y := list_to_set (filter _ l) : gset string).
  rewrite !Z.add_0_l.
  assert (poll ps B R x i y j W Y) as Hp.
  { split; [lia|done| | |].
    - intros w. unfold W. rewrite elem_of_list_to_set, Hin.
      eapply listed_witnesses; [done|]. by eapply divided_ready.
    - intros w. unfold W, Y. rewrite !elem_of_list_to_set, list_elem_of_filter. naive_solver.
    - intros w Hw. unfold W in Hw. apply elem_of_list_to_set, Hin in Hw as [Hwl Hs].
      replace (bool_decide (w ∈ Y)) with (getVote votes w x); [apply (Hcov (j - 1)); [lia|done]|].
      apply eq_true_iff_eq. rewrite bool_decide_eq_true. unfold Y.
      rewrite elem_of_list_to_set, list_elem_of_filter, Hin. naive_solver. }
  assert (∀ b, b = verdict ps (j - i) y (Z.of_nat (base.size Y)) (Z.of_nat (base.size (W ∖ Y))) →
    voted ps B R x i y b) as Hv by (intros b ->; by apply voted_count; apply Hp).
  unfold verdict in Hv. fold (majority (Z.of_nat (base.size Y)) (Z.of_nat (base.size (W ∖ Y)))).
  set (m := majority _ _) in *. set (t := support _ _) in *.
  change (if m then Z.of_nat (base.size Y) else Z.of_nat (base.size (W ∖ Y))) with t.
  apply wp_gets_bind, wp_gets_bind.
  rewrite (q_mp _ _ _ (co_q _ _ _ _ _ Hg2)), (q_ps _ _ _ (co_q _ _ _ _ _ Hg2)).
  destruct (normal_round _ _) eqn:Hround; simpl in Hv.
  - case_bool_decide as Hq; apply wp_ret; eexists _, _, _; (split; [done|]); (split; [by apply Hv|]); (split; [done|]).
    + exists m. split; [|done]. exists j, y, W, Y. done.
    + done.
  - case_bool_decide as Hq.
    { apply wp_ret. eexists _, _, _. split; [done|]. split; [by apply Hv|]. split; [done|done]. }
    assert (∃ c, middleBit y = Ret c) as [c Hc].
    { destruct Hyk as [b Hb]. rewrite <-(dag_name _ _ _ _ Hd _ _ Hb). unfold b_name. destruct (body_Hash b); apply middleBit_hexX. }
    eapply wp_lift_bind; [exact Hc|]. apply wp_ret. eexists _, _, _. split; [done|].
    split; [apply Hv; unfold coin; by rewrite Hc|]. by split.
Qed.

(** The election of [x], up to the round that decides it or the last one. *)
Lemma vote_rounds_spec g0 g x i ri votes :
  computes ps v R g0 g → known B x →
  WP (vote_rounds i x (ri, votes)) ◃ g {{ o g', ∃ ri' votes', o = Ret (ri', votes') ∧
    computes ps v R g0 g' ∧ (ri' = ri ∨ ∃ f, decided ps B R x i f ∧ ri' = SetFame x f ri) }}.
Proof.
  intros Hg Hx. unfold vote_rounds. apply wp_gets_bind. set (js := seqZ _ _).
  apply wp_bind. eapply (wp_foldM_break _ (λ l loc g', ∃ dn votes', js = dn ++ l ∧ loc = (ri, votes') ∧
    counted_to votes' x i (i + 1 + len dn) ∧ computes ps v R g0 g')).
  - exists [], votes. split; [done|]. split; [done|]. split; [|done].
    intros k w Hk. unfold len in Hk. simpl in Hk. lia.
  - intros j l loc g1 (dn & votes1 & Hjs & -> & Hcov & Hg1).
    assert (j = i + 1 + len dn) as ->.
    { assert (js !! length dn = Some j) as Hl by (rewrite Hjs; by apply list_lookup_middle).
      apply lookup_seqZ in Hl as [-> _]. unfold len. lia. }
    set (j := i + 1 + len dn) in *. assert (i < j) as Hj by (unfold j, len; lia).
    apply wp_bind. eapply computes_RoundWitnesses; [done|]. intros g2 Hg2.
    eapply (wp_foldM_break _ (λ l loc g', ∃ seen votes', listed j = seen ++ l ∧ loc = (ri, votes') ∧
      counted_to votes' x i j ∧ (∀ w, w ∈ seen → voted ps B R x i w (getVote votes' w x)) ∧ computes ps v R g0 g')).
    + exists [], votes1. split; [done|]. split; [done|]. split; [done|]. split; [set_solver|done].
    + intros y l' loc g3 (seen & votes2 & Hws & -> & Hcov2 & Hseen & Hg3).
      assert (y ∈ listed j) as Hy by (rewrite Hws; set_solver).
      eapply wp_mono; [by apply (vote_one_spec g0)|].
      intros o g4 (ri' & b & stop & -> & Hv & Hg4 & Hstop).
      destruct stop; [eexists _, _; split; [done|]; split; [done|]; by right|]. subst ri'.
      exists (seen ++ [y]), (setVote votes2 y x b). split; [by rewrite <-app_assoc|]. split; [done|].
      assert (∀ w k, w ∈ listed k → k ≠ j → w ≠ y) as Hne.
      { intros w k Hw Hk ->. apply listed_wit in Hw as [Hw _]. apply listed_wit in Hy as [Hwy _].
        by pose proof (wit_round _ _ _ _ _ Hw Hwy). }
      split; [|split; [|done]].
      * intros k w Hk Hw. rewrite getVote_other; [by apply (Hcov2 k)|]. eapply Hne; [done|lia].
      * pose proof (NoDup_listed v j) as Hnd. rewrite Hws in Hnd. apply NoDup_app in Hnd as (_ & Hdis & _).
        intros w [Hw| ->%list_elem_of_singleton]%elem_of_app; [|by rewrite getVote_same].
        rewrite getVote_other; [by apply Hseen|]. intros ->. apply (Hdis y Hw). set_solver.
    + intros loc g3 (seen & votes2 & Hws & -> & Hcov2 & Hseen & Hg3). rewrite app_nil_r in Hws.
      exists (dn ++ [j]), votes2. split; [by rewrite <-app_assoc|]. split; [done|]. split; [|done].
      intros k w Hk Hw. unfold len in Hk. rewrite length_app in Hk. simpl in Hk.
      destruct (decide (k = j)) as [->|Hne]; [apply Hseen; by rewrite <-Hws|].
      apply (Hcov2 k); [unfold j, len in *; lia|done].
  - intros loc g1 (dn & votes1 & _ & -> & _ & Hg1). apply wp_ret. eexists _, _. split; [done|]. split; [done|]. by left.
Qed.

(** [ri'] is [ri] with more of the fame decided. *)
Definition famed (i : Z) (ri ri' : RoundInfo) : Prop := ∀ x,
  match Events ri !! x, Events ri' !! x with
  | Some e, Some e' => re_Witness e' = re_Witness e ∧ fame_sound ps B R x i (re_Famous e')
  | None, None => True
  | _, _ => False
  end.

Lemma famed_refl i ri : rounds v !! i = Some ri → famed i ri ri.
Proof.
  intros Hri x. destruct (Events ri !! x) eqn:Hx; [|done]. split; [done|].
  by eapply (lay_fame _ _ _ _ _ _ Hlay).
Qed.

Lemma famed_SetFame i ri ri' x f :
  famed i ri ri' → is_Some (Events ri !! x) → decided ps B R x i f → famed i ri (SetFame x f ri').
Proof.
  intros Hf [e He] Hdec y. pose proof (Hf y) as Hy. unfold SetFame. simpl.
  destruct (decide (x = y)) as [<-|Hne]; [|by rewrite lookup_insert_ne].
  rewrite lookup_insert_eq, He in *. destruct (Events ri' !! x) as [e'|]; [|done].
  split; [apply Hy|]. by destruct f.
Qed.

Lemma layout_famed i ri ri' :
  rounds v !! i = Some ri → famed i ri ri' → layout ps B R rank Div (<[i := ri']> (rounds v)).
Proof.
  intros Hri Hf.
  assert (∀ x e', Events ri' !! x = Some e' → ∃ e, Events ri !! x = Some e ∧
    re_Witness e' = re_Witness e ∧ fame_sound ps B R x i (re_Famous e')) as Hold.
  { intros x e' He'. specialize (Hf x). rewrite He' in Hf. destruct (Events ri !! x); [eauto|done]. }
  assert (∀ x e, Events ri !! x = Some e → ∃ e', Events ri' !! x = Some e') as Hnew.
  { intros x e He. specialize (Hf x). rewrite He in Hf. destruct (Events ri' !! x); [eauto|done]. }
  split; try apply Hlay.
  - intros r ri0 x e Hr He. apply lookup_insert_Some in Hr as [[<- <-]|[Hne Hr]].
    + destruct (Hold x e He) as (e0 & He0 & -> & _). by eapply (lay_sound _ _ _ _ _ _ Hlay).
    + by eapply (lay_sound _ _ _ _ _ _ Hlay).
  - intros x Hx. destruct (lay_complete _ _ _ _ _ _ Hlay x Hx) as (ri0 & e & Hr & He).
    rewrite lookup_insert. case_decide as Hi; [|eauto]. rewrite <-Hi, Hri in Hr. injection Hr as <-.
    destruct (Hnew x e He); eauto.
  - intros r ri0 Hr. apply lookup_insert_Some in Hr as [[<- <-]|[Hne Hr]].
    + destruct (lay_nonempty _ _ _ _ _ _ Hlay _ _ Hri) as (x & e & He). destruct (Hnew x e He). eauto.
    + by eapply (lay_nonempty _ _ _ _ _ _ Hlay).
  - intros r ri0 x e Hr He. apply lookup_insert_Some in Hr as [[<- <-]|[Hne Hr]].
    + by destruct (Hold x e He) as (_ & _ & _ & ?).
    + by eapply (lay_fame _ _ _ _ _ _ Hlay).
Qed.

Lemma decide_witnesses_spec g0 g i ri votes :
  computes ps v R g0 g → rounds v !! i = Some ri →
  WP (foldM (decide_witness i) (ri, votes) (Witnesses ri)) ◃ g {{ o g', ∃ ri' votes', o = Ret (ri', votes') ∧
    famed i ri ri' ∧ computes ps v R g0 g' }}.
Proof.
  intros Hg Hri.
  eapply (wp_foldM _ (λ l loc g', (∀ x, x ∈ l → x ∈ Witnesses ri) ∧ ∃ ri' votes', loc = (ri', votes') ∧
    famed i ri ri' ∧ computes ps v R g0 g')).
  - split; [done|]. exists ri, votes. split; [done|]. split; [by apply famed_refl|done].
  - intros x l loc g1 (Hl & ri1 & votes1 & -> & Hf & Hg1).
    assert (x ∈ listed i) as Hx by (rewrite Hri; apply Hl; by left).
    assert (∀ z, z ∈ l → z ∈ Witnesses ri) as Hl' by (intros; apply Hl; by right).
    unfold decide_witness. cbn [fst]. destruct (IsDecided x ri1).
    { apply wp_ret. split; [done|]. eauto. }
    eapply wp_mono; [apply (vote_rounds_spec g0); [done|]|].
    { destruct (listed_wit _ _ Hx) as [(? & ? & _) _]. by eexists. }
    intros o g2 (ri2 & votes2 & -> & Hg2 & Hri2). split; [done|]. eexists _, _. split; [done|]. split; [|done].
    destruct Hri2 as [->|(f & Hdec & ->)]; [done|]. apply famed_SetFame; [done| |done].
    rewrite Hri in Hx. apply elem_of_Witnesses in Hx as (e & He & _). by eexists.
  - intros loc g1 (_ & ri1 & votes1 & -> & Hf & Hg1). eauto.
Qed.
End Voting.

(** ** The whole pass *)
Section Pass.
Context `{RangeOrder, Crypto} {S : Type} `{Store S, !StoreLaws S}.
Implicit Types (g : CometGraph (S := S)) (v : content) (ps : gmap string Z).

(** Only the round tables, the undecided rounds and the last consensus round change. *)
Definition elected g g' : Prop := ∃ und lcr n, calm (set_Undecided und (set_LastConsensus lcr n g)) g'.

Lemma elected_refl g g' : calm g g' → elected g g'.
Proof. intros Hc. exists (UndecidedRounds g), (LastConsensusRound g), (LastCommitedRoundEvents g). by destruct g. Qed.

Lemma elected_trans g1 g2 g3 : elected g1 g2 → elected g2 g3 → elected g1 g3.
Proof.
  intros (u & l & n & t & a & sa & o & ss & pr & ro & ->) (u' & l' & n' & t' & a' & sa' & o' & ss' & pr' & ro' & ->).
  exists u', l', n'. by exists t', a', sa', o', ss', pr', ro'.
Qed.

Lemma elected_consensus g und lcr n : elected g (set_Undecided und (set_LastConsensus lcr n g)).
Proof. exists und, lcr, n. apply calm_refl. Qed.

Lemma dividing_upd ps v R rank Div g und rds lcr lbi lcre ctx pend topo ch :
  dividing ps v R rank Div g → (∀ r, r ∈ rds → r ∈ UndecidedRounds g) →
  dividing ps v R rank Div (upd_consensus und rds lcr lbi lcre ctx pend topo ch g).
Proof. intros [[] ? ? ? Hu] Hr. split; [by split|done|done|done|]. intros r ?%Hr. by apply Hu. Qed.

Lemma computes_dividing ps v R rank Div g0 g :
  dividing ps v R rank Div g0 → computes ps v R g0 g → dividing ps v R rank Div g.
Proof.
  intros Hdv Hc. split; [apply Hc..|apply Hdv|].
  destruct (co_calm _ _ _ _ _ Hc) as (t & a & sa & o & ss & pr & ro & ->). apply Hdv.
Qed.

Lemma decide_round_spec ps v R rank Div g votes dec i :
  dividing ps v R rank Div g →
  WP (decide_round (votes, dec) i) ◃ g {{ o g', ∃ votes' dec' err m lr, o = Ret (votes', dec', err) ∧
    dividing ps (set_rounds m lr v) R rank Div g' ∧ dom m = dom (rounds v) ∧ elected g g' ∧
    (is_Some (rounds v !! i) → err = None) }}.
Proof.
  intros Hdv. pose proof (dv_layout _ _ _ _ _ _ Hdv) as Hlay. pose proof (dv_q _ _ _ _ _ _ Hdv) as Hq.
  pose proof (g_dag _ _ (q_graph _ _ _ Hq)) as Hd. pose proof (dividing_computes _ _ _ _ _ _ Hdv) as Hc.
  unfold decide_round. apply wp_bind, wp_try, wp_zoom.
  eapply wp_mono; [apply law_GetRound, (q_ok _ _ _ Hq)|]. rewrite (q_view _ _ _ Hq).
  intros o t (Ho & Ht & Hv). pose proof (computes_store _ _ _ _ _ t Hc Ht Hv) as Hc1.
  destruct (rounds v !! i) as [ri|] eqn:Hri; simpl in Ho.
  2:{ destruct Ho as [key ->]. apply wp_ret. eexists _, _, _, (rounds v), (last_round v). split; [done|].
      split; [|split; [done|split; [apply elected_refl, Hc1|by intros [? ?]]]].
      replace (set_rounds _ _ v) with v by (by destruct v). by eapply computes_dividing. }
  subst o. apply wp_bind. eapply wp_mono; [by apply (decide_witnesses_spec ps v R rank Div Hlay Hd g)|].
  intros o g1 (ri' & votes' & -> & Hf & Hc2).
  apply wp_bind. eapply (wp_mono _ _ (λ o g', ∃ dec', o = Ret dec' ∧ dividing ps v R rank Div g' ∧ elected g g')).
  { pose proof (computes_dividing _ _ _ _ _ _ _ Hdv Hc2) as Hdv2.
    pose proof (elected_refl _ _ (co_calm _ _ _ _ _ Hc2)) as He2.
    destruct (WitnessesDecided ri'); [|apply wp_ret; eauto]. apply wp_gets_bind, wp_bind.
    case_bool_decide; [|apply wp_ret, wp_ret; eauto].
    unfold setLastConsensusRound. apply wp_bind, wp_zoom.
    eapply wp_mono; [apply law_RoundEvents, (q_ok _ _ _ (co_q _ _ _ _ _ Hc2))|].
    rewrite (q_view _ _ _ (co_q _ _ _ _ _ Hc2)). intros o t1 ([n ->] & Ht1 & Hv1).
    pose proof (computes_store _ _ _ _ _ t1 Hc2 Ht1 Hv1) as Hc3.
    unfold wp, modify. cbn [fst snd]. eexists. split; [done|]. split.
    - apply dividing_upd; [exact (computes_dividing _ _ _ _ _ _ _ Hdv Hc3)|done].
    - eapply elected_trans; [apply elected_refl, Hc3|]. set (g3 := upd_store t1 g1).
      replace (set_LastConsensus (Some i) n g3) with (set_Undecided (UndecidedRounds g3) (set_LastConsensus (Some i) n g3))
        by (by destruct g3). apply elected_consensus. }
  intros o g2 (dec' & -> & Hdv2 & He2). pose proof (dv_q _ _ _ _ _ _ Hdv2) as Hq2.
  apply wp_bind, wp_try, wp_zoom. eapply wp_mono; [apply law_SetRound; [apply (q_ok _ _ _ Hq2)|left]|].
  { rewrite (q_view _ _ _ Hq2), Hri. by eexists. }
  rewrite (q_view _ _ _ Hq2). intros o t2 (-> & Ht2 & Hv2). apply wp_ret.
  eexists _, _, _, _, _. split; [done|]. split; [|split; [|split; [|done]]].
  - destruct Hdv2 as [[] Hp Hr _ Hu]. split; [|done|done| |].
    + split; try done. by apply graph_ok_rounds.
    + exact (layout_famed ps v R rank Div Hlay i ri ri' Hri Hf).
    + intros r Hr'%Hu. cbn [rounds set_rounds]. rewrite lookup_insert. case_decide; [right; by eexists|done].
  - rewrite dom_insert_lookup_L; [done|]. by eexists.
  - eapply elected_trans; [exact He2|]. apply elected_refl.
    exists t2, (ancestorCache g2), (selfAncestorCache g2), (oldestSelfAncestorCache g2), (stronglySeeCache g2),
      (parentRoundCache g2), (CometGraph.roundCache g2). by destruct g2.
Qed.

Lemma decide_rounds_spec ps R rank Div l : ∀ v g votes dec,
  dividing ps v R rank Div g →
  WP (decide_rounds (votes, dec) l) ◃ g {{ o g', ∃ dec' err m lr, o = Ret (dec', err) ∧
    dividing ps (set_rounds m lr v) R rank Div g' ∧ dom m = dom (rounds v) ∧ elected g g' ∧
    ((∀ i, i ∈ l → is_Some (rounds v !! i)) → err = None) }}.
Proof.
  induction l as [|i l IH]; intros v g votes dec Hdv.
  { apply wp_ret. eexists _, _, (rounds v), (last_round v). split; [done|].
    replace (set_rounds _ _ v) with v by (by destruct v). split; [done|]. split; [done|].
    split; [apply elected_refl, calm_refl|done]. }
  cbn [decide_rounds]. apply wp_bind. eapply wp_mono; [by apply decide_round_spec|].
  intros o g1 (votes1 & dec1 & err & m & lr & -> & Hdv1 & Hdom & He1 & Herr). destruct err as [e|].
  { apply wp_ret. eexists _, _, _, _. split; [done|]. split; [done|]. split; [done|]. split; [done|].
    intros Hall. apply Herr, Hall. by left. }
  eapply wp_mono; [by apply (IH (set_rounds m lr v) g1 votes1 dec1)|].
  intros o g2 (dec2 & err2 & m2 & lr2 & -> & Hdv2 & Hdom2 & He2 & Herr2).
  eexists _, _, m2, lr2. split; [done|]. split; [done|]. split; [by rewrite Hdom2|].
  split; [by eapply elected_trans|]. intros Hall. apply Herr2. intros k Hk. cbn [rounds set_rounds].
  apply elem_of_dom. rewrite Hdom. apply elem_of_dom, Hall. by right.
Qed.

(** [DecideFame] keeps the tables right; it returns an error only when an undecided round has
    no table, that is before the first comet. *)
Lemma DecideFame_spec ps v R rank Div g :
  dividing ps v R rank Div g →
  WP DecideFame ◃ g {{ o g', (∃ m lr, dividing ps (set_rounds m lr v) R rank Div g' ∧ dom m = dom (rounds v)) ∧
    elected g g' ∧ (o = Ret tt ∨ ∃ e, o = Fail e) ∧ (is_Some (rounds v !! 0) → o = Ret tt) }}.
Proof.
  intros Hdv. unfold DecideFame. apply wp_gets_bind, wp_bind. eapply wp_mono; [by apply decide_rounds_spec|].
  intros o g1 (dec & err & m & lr & -> & Hdv1 & Hdom & He1 & Herr).
  apply wp_modify_bind. set (g2 := set_Undecided _ g1).
  assert ((∃ m lr, dividing ps (set_rounds m lr v) R rank Div g2 ∧ dom m = dom (rounds v)) ∧ elected g g2) as [Hdv2 He2].
  { split.
    - exists m, lr. split; [|done]. apply dividing_upd; [done|]. intros r [_ ?]%list_elem_of_filter. done.
    - eapply elected_trans; [done|]. unfold g2.
      replace (set_Undecided _ g1) with (set_Undecided (filter (λ ur, ur ∉ dec) (UndecidedRounds g1))
        (set_LastConsensus (LastConsensusRound g1) (LastCommitedRoundEvents g1) g1)) by (by destruct g1).
      apply elected_consensus. }
  destruct err as [e|]; unfold wp; cbn [fst snd fail mret M_ret].
  - split; [done|]. split; [done|]. split; [right; eauto|]. intros Hzero.
    enough (Some e = None) by done. apply Herr. intros i Hi. by destruct (dv_und _ _ _ _ _ _ Hdv i Hi) as [->|?].
  - split; [done|]. split; [done|]. split; [by left|done].
Qed.
End Pass.
