(* ===== verification/Stamps.v ===== *)
(** The round received and the consensus timestamp of a comet as functions of the graph: the
    famous witnesses of a decided round, those that see the comet, and the median of the times
    at which their creators first saw it.  Two nodes that receive a comet in the same round give it the
    same timestamp. *)
From S2P Require Import Prelude Lru Bytes Types Caches Store CometGraph Ancestry Insert Queries Graph Rounds Fame.
Open Scope Z_scope.

Definition median (l : list Z) : Z := default 0 (merge_sort Z.le l !! (length l / 2)%nat).

Section Stamps.
Context `{Crypto} (ps : gmap string Z) (B : gmap string CometBody) (R : gmap string Z).

(** A witness of round [i] that nobody can declare famous: decided so, or unseen by a quorum of the next round. *)
Definition doomed (w : string) (i : Z) : Prop :=
  decided ps B R w i false ∨
  ∃ y V, known B y ∧ quorum_below ps B R y (i + 1) V ∧ ∀ u, u ∈ V → voted ps B R w i u false.

(** [F] are the famous witnesses of round [i], for good. *)
Record election (i : Z) (F : gset string) : Prop := {
  el_some : F ≠ ∅;
  el_famous : ∀ w, w ∈ F → wit B R w i ∧ decided ps B R w i true;
  el_rest : ∀ w, wit B R w i → w ∉ F → doomed w i
}.

(** [x] is received in round [i] at time [ts]: more than half of the famous witnesses see it, and [ts] is the
    median of the times [T] at which their creators first did. *)
Definition stamped (x : string) (i ts : Z) : Prop := ∃ (F : gset string) (T : gmap string Z),
  0 ≤ i ∧ rnd R x < i ∧ election i F ∧
  (∀ a, is_Some (T !! a) ↔ a ∈ F ∧ anc B a x) ∧
  (∀ a t, T !! a = Some t → ∃ z b, oldest_seer B a x z ∧ B !! z = Some b ∧ t = Timestamp (fields b)) ∧
  Z.of_nat (base.size F) / 2 < Z.of_nat (base.size T) ∧
  ts = median (map_to_list T).*2.
End Stamps.

Lemma decided_late `{Crypto} ps B R x i f : decided ps B R x i f → ∃ j, i + 2 ≤ j ∧ decided_at ps B R x i f j.
Proof.
  intros [j Hj]. exists j. split; [|done]. destruct Hj as (y & W & Y & Hp & _).
  pose proof (po_late _ _ _ _ _ _ _ _ _ Hp). lia.
Qed.

Section TwoNodes.
Context `{Crypto} (ps : gmap string Z) (B1 B2 : gmap string CometBody) (R1 R2 : gmap string Z)
  (rank1 rank2 : string → nat) (next1 next2 : gmap string Z) (last1 last2 : gmap string string).
Context (Hd1 : dag_ok ps B1 next1 last1) (Hd2 : dag_ok ps B2 next2 last2).
Context (HR1 : rounds_ok ps B1 R1) (HR2 : rounds_ok ps B2 R2).
Context (Hrank1 : ranked B1 rank1) (Hrank2 : ranked B2 rank2).
Context (Hn : 2 ≤ Z.of_nat (base.size ps)).
Context (Hsame : same_events B1 B2).

(** A doomed witness is not famous anywhere. *)
Lemma doomed_not_famous w i f :
  no_forks ps B1 R1 B2 R2 → 0 ≤ i → doomed ps B1 R1 w i → decided ps B2 R2 w i f → f = false.
Proof.
  intros Hf Hi [Hdec1|(y & V & Hy & HV & Hvs)] Hdec2.
  - symmetry. by eapply (fame_agree ps B1 B2).
  - destruct (decided_late _ _ _ _ _ _ Hdec2) as (j & Hj & Hdec).
    eapply (decided_swayed ps B1 B2 R1 R2 rank1 rank2 _ _ _ _ Hd1 Hd2 HR1 HR2 Hrank1 Hrank2 Hn Hsame Hf w i false V (i + 2) y j);
      [done| |done|done|lia|by apply second_round|lia|done].
    by replace (i + 2 - 1) with (i + 1) by lia.
Qed.

Lemma self_anc_agree x y : known B1 x → known B2 x → self_anc B1 x y → known B2 y ∧ self_anc B2 x y.
Proof.
  intros Hx1 Hx2 Ha. induction Ha as [x|x z y Hxz Hzy IH]; [split; [done|apply rtc_refl]|].
  destruct Hxz as (b & Hb & Hz1 & Hs).
  destruct (edge_agree ps B1 B2 _ _ _ _ Hd1 Hd2 Hsame x z Hx1 Hx2) as [Hz2 He]; [exists b; auto|].
  destruct (IH Hz1 Hz2) as [Hy2 Ha]. split; [done|]. eapply rtc_l; [|exact Ha].
  destruct Hx2 as [b2 Hb2]. exists b2. split; [done|]. split; [done|].
  destruct (same_parents B1 B2 Hsame x b b2 Hb Hb2) as (_ & <- & _). done.
Qed.
End TwoNodes.

Section Election.
Context `{Crypto} (ps : gmap string Z) (B1 B2 : gmap string CometBody) (R1 R2 : gmap string Z)
  (rank1 rank2 : string → nat) (next1 next2 : gmap string Z) (last1 last2 : gmap string string).
Context (Hd1 : dag_ok ps B1 next1 last1) (Hd2 : dag_ok ps B2 next2 last2).
Context (HR1 : rounds_ok ps B1 R1) (HR2 : rounds_ok ps B2 R2).
Context (Hrank1 : ranked B1 rank1) (Hrank2 : ranked B2 rank2).
Context (Hn : 2 ≤ Z.of_nat (base.size ps)).
Context (Hsame : same_events B1 B2).


Lemma election_sub i F1 F2 :
  no_forks ps B1 R1 B2 R2 → 0 ≤ i → election ps B1 R1 i F1 → election ps B2 R2 i F2 → F1 ⊆ F2.
Proof.
  intros Hf Hi He1 He2 w Hw. destruct (el_famous _ _ _ _ _ He1 w Hw) as [Hwit Hdec].
  destruct (decide (w ∈ F2)) as [|Hno]; [done|]. exfalso. assert (true = false); [|done].
  destruct (decide (known B2 w)) as [Hk|Hk].
  - assert (wit B2 R2 w i) as Hwit2 by (by eapply (wit_agree ps B1 B2 R1 R2 rank1)).
    eapply (doomed_not_famous ps B2 B1 R2 R1 rank2 rank1); eauto using same_events_sym, no_forks_sym, el_rest.
  - destruct (set_choose_L F2 (el_some _ _ _ _ _ He2)) as [w2 Hw2].
    destruct (el_famous _ _ _ _ _ He2 w2 Hw2) as [_ Hdec2].
    destruct (decided_above _ _ _ _ _ _ _ _ _ Hd2 HR2 Hrank2 Hi Hdec2) as [y Hy].
    eapply (missing_not_famous ps B2 B1 R2 R1 rank2 rank1); eauto using same_events_sym, no_forks_sym.
Qed.
End Election.

Section Agreement.
Context `{Crypto} (ps : gmap string Z) (B1 B2 : gmap string CometBody) (R1 R2 : gmap string Z)
  (rank1 rank2 : string → nat) (next1 next2 : gmap string Z) (last1 last2 : gmap string string).
Context (Hd1 : dag_ok ps B1 next1 last1) (Hd2 : dag_ok ps B2 next2 last2).
Context (HR1 : rounds_ok ps B1 R1) (HR2 : rounds_ok ps B2 R2).
Context (Hrank1 : ranked B1 rank1) (Hrank2 : ranked B2 rank2).
Context (Hn : 2 ≤ Z.of_nat (base.size ps)).
Context (Hsame : same_events B1 B2).

Lemma anc_iff a x : known B1 a → known B2 a → anc B1 a x ↔ anc B2 a x.
Proof.
  intros Ha1 Ha2. split; intros Ha.
  - by apply (anc_agree ps _ _ _ _ _ _ Hd1 Hd2 Hsame).
  - by apply (anc_agree ps _ _ _ _ _ _ Hd2 Hd1 (same_events_sym _ _ Hsame)).
Qed.

Lemma oldest_seer_agree a x z :
  known B1 a → known B2 a → oldest_seer B1 a x z → known B2 z ∧ oldest_seer B2 a x z.
Proof.
  intros Ha1 Ha2 (Hs & Ha & Hmin).
  destruct (self_anc_agree ps B1 B2 _ _ _ _ Hd1 Hd2 Hsame a z Ha1 Ha2 Hs) as [Hz2 Hs2].
  pose proof (self_anc_known _ _ _ Ha1 Hs) as Hz1.
  split; [done|]. split; [done|]. split; [by apply anc_iff|]. intros z' Hs' Ha'.
  pose proof (self_anc_known _ _ _ Ha2 Hs') as Hz'2.
  destruct (self_anc_agree ps B2 B1 _ _ _ _ Hd2 Hd1 (same_events_sym _ _ Hsame) a z' Ha2 Ha1 Hs') as [Hz'1 Hs1].
  apply (self_anc_agree ps B1 B2 _ _ _ _ Hd1 Hd2 Hsame z' z); [done|done|]. apply Hmin; [done|by apply anc_iff].
Qed.

Lemma oldest_seer_unique a x z z' :
  known B2 a → oldest_seer B2 a x z → oldest_seer B2 a x z' → z = z'.
Proof.
  intros Ha (Hs & Hx & Hmin) (Hs' & Hx' & Hmin').
  destruct (self_anc_known _ _ _ Ha Hs) as [b Hb]. destruct (self_anc_known _ _ _ Ha Hs') as [b' Hb'].
  pose proof (Hmin' z Hs Hx) as H1. pose proof (Hmin z' Hs' Hx') as H2.
  apply (self_anc_spec _ _ _ _ _ _ _ _ Hd2 Hb Hb') in H1 as [Hc H1].
  apply (self_anc_spec _ _ _ _ _ _ _ _ Hd2 Hb' Hb) in H2 as [_ H2].
  apply (dag_uniq _ _ _ _ Hd2 z z' b b' Hb Hb' Hc). lia.
Qed.

(** Two nodes that receive a comet in the same round stamp it with the same time. *)
Lemma stamped_agree x i t1 t2 :
  no_forks ps B1 R1 B2 R2 → stamped ps B1 R1 x i t1 → stamped ps B2 R2 x i t2 → t1 = t2.
Proof.
  intros Hf (F1 & T1 & Hi & _ & He1 & Hdom1 & HT1 & _ & ->) (F2 & T2 & _ & _ & He2 & Hdom2 & HT2 & _ & ->).
  assert (F1 = F2) as <-.
  { apply (anti_symm (⊆)); [eapply (election_sub ps B1 B2)|eapply (election_sub ps B2 B1)]; eauto using same_events_sym, no_forks_sym. }
  assert (∀ a, a ∈ F1 → known B1 a ∧ known B2 a) as Hk.
  { intros a Ha. destruct (el_famous _ _ _ _ _ He1 a Ha) as [(? & ? & _) _], (el_famous _ _ _ _ _ He2 a Ha) as [(? & ? & _) _].
    split; by eexists. }
  assert (T1 = T2) as ->; [|done]. apply map_eq. intros a.
  assert (is_Some (T1 !! a) ↔ is_Some (T2 !! a)) as Hiff.
  { rewrite Hdom1, Hdom2. split; intros [Ha Hx]; (split; [done|]); destruct (Hk a Ha); by apply anc_iff. }
  destruct (T1 !! a) as [s1|] eqn:Hs1, (T2 !! a) as [s2|] eqn:Hs2.
  - destruct (Hk a) as [Ha1 Ha2]; [apply Hdom1; by rewrite Hs1|].
    destruct (HT1 a s1 Hs1) as (z1 & b1 & Ho1 & Hb1 & ->), (HT2 a s2 Hs2) as (z2 & b2 & Ho2 & Hb2 & ->).
    destruct (oldest_seer_agree a x z1 Ha1 Ha2 Ho1) as [_ Ho].
    assert (z1 = z2) as -> by (by eapply oldest_seer_unique). by rewrite (Hsame z2 b1 b2 Hb1 Hb2).
  - destruct (proj1 Hiff ltac:(by eexists)). done.
  - destruct (proj2 Hiff ltac:(by eexists)). done.
  - done.
Qed.

(** A stamp is good in every graph that has the comets it was made from. *)
Lemma stamped_grows x i ts :
  (∀ h, known B1 h → known B2 h) → known B1 x → stamped ps B1 R1 x i ts → stamped ps B2 R2 x i ts.
Proof.
  intros Hsub Hx (F & T & Hi & Hlt & He & Hdom & HT & Hmaj & ->). exists F, T. split; [done|].
  assert (∀ a, a ∈ F → known B1 a) as Hk.
  { intros a Ha. destruct (el_famous _ _ _ _ _ He a Ha) as [(? & ? & _) _]. by eexists. }
  assert (∀ w r, known B1 w → wit B2 R2 w r → wit B1 R1 w r) as Hback.
  { intros w r Hw. eapply (wit_agree ps B2 B1 R2 R1 rank2); eauto using same_events_sym. }
  assert (∀ w r, wit B1 R1 w r → wit B2 R2 w r) as Hforth.
  { intros w r Hw. eapply (wit_agree ps B1 B2 R1 R2 rank1); eauto. apply Hsub. destruct Hw as (? & ? & _). by eexists. }
  assert (∀ w y V, known B1 y → quorum_below ps B1 R1 y (i + 1) V → (∀ u, u ∈ V → voted ps B1 R1 w i u false) →
    doomed ps B2 R2 w i) as Hdoom.
  { intros w y V Hy [Hle HV] Hvs. right. exists y, V. split; [auto|]. split.
    - split; [done|]. intros u Hu. destruct (HV u Hu) as [Hwu Hsu]. split; [auto|].
      apply (strongly_agree ps B1 B2 _ _ _ _ Hd1 Hd2 Hsame); auto.
    - intros u Hu. eapply (voted_agree ps B1 B2 R1 R2 rank1 rank2); eauto. apply Hsub.
      destruct (HV u Hu) as [(? & ? & _) _]. by eexists. }
  split; [|split; [|split; [|split; [|done]]]].
  - rewrite <-(rounds_agree ps B1 B2 _ _ _ _ Hd1 Hd2 Hsame R1 R2 HR1 HR2 rank1 Hrank1 x); auto.
  - split; [apply He|intros w Hw; destruct (el_famous _ _ _ _ _ He w Hw) as [? ?]; split; [auto|]|].
    { eapply (decided_agree ps B1 B2 R1 R2 rank1 rank2); eauto. }
    intros w Hw Hno. destruct (decide (known B1 w)) as [Hkw|Hkw].
    + destruct (el_rest _ _ _ _ _ He w (Hback _ _ Hkw Hw) Hno) as [?|(y & V & ? & ? & ?)]; [left|by eapply Hdoom].
      eapply (decided_agree ps B1 B2 R1 R2 rank1 rank2); eauto.
    + destruct (set_choose_L F (el_some _ _ _ _ _ He)) as [w2 Hw2].
      destruct (el_famous _ _ _ _ _ He w2 Hw2) as [_ Hdec2].
      destruct (decided_above _ _ _ _ _ _ _ _ _ Hd1 HR1 Hrank1 Hi Hdec2) as [y Hy].
      destruct (wit_quorum ps B1 R1 rank1 _ _ Hd1 HR1 Hrank1 y (i + 2) Hy ltac:(lia)) as (V & HV).
      replace (i + 2 - 1) with (i + 1) in HV by lia.
      eapply (Hdoom w y V); [destruct Hy as (? & ? & _); by eexists|done|].
      intros u Hu. destruct HV as [_ HV]. destruct (HV u Hu) as [Hwu _].
      apply voted_see; [done|]. split; [done|]. intros Ha. destruct Hkw.
      destruct Hwu as (? & ? & _). eapply anc_known; [by eexists|done].
  - intros a. rewrite Hdom. split; intros [Ha ?]; (split; [done|]); apply anc_iff; auto.
  - intros a t Ha. destruct (HT a t Ha) as (z & b & Ho & Hb & ->).
    assert (a ∈ F) as HaF by (apply Hdom; by eexists).
    destruct (oldest_seer_agree a x z) as [[b2 Hb2] Ho2]; auto.
    exists z, b2. split; [done|]. split; [done|]. by rewrite (Hsame z b b2 Hb Hb2).
Qed.
End Agreement.
