(* ===== verification/Received.v ===== *)
(** [FindOrder]: the round received and the timestamp that it writes are those of [Stamps.v]; it
    leaves the rest of the comets alone, returns, and keeps what the other passes rely on. *)
From S2P Require Import Prelude Lru Bytes Types Caches Store CometGraph Ancestry Insert Queries Graph Rounds Fame Divide Order Voting Stamps.
Open Scope Z_scope.
Open Scope go_scope.

Lemma new_round_empty w : ¬ is_Some (Events NewRoundInfo !! w).
Proof. simpl. rewrite lookup_empty. by intros [? ?]. Qed.

(** ** The median *)

Lemma median_perm l l' : l ≡ₚ l' → median l = median l'.
Proof.
  intros Hp. unfold median. rewrite (Permutation_length Hp).
  replace (merge_sort Z.le l') with (merge_sort Z.le l); [done|].
  apply (Sorted_unique Z.le); [apply Sorted_merge_sort, _|apply Sorted_merge_sort, _|].
  by rewrite !merge_sort_Permutation.
Qed.

Abbreviation time c := (Timestamp (fields (Body c))).

Lemma insert_by_time x l :
  StronglySorted (λ a b, time a ≤ time b) l →
  ∃ l', insert_sorted (λ a b, Ret (ByTimestamp_Less a b)) x l = Ret l' ∧ l' ≡ₚ x :: l ∧
        StronglySorted (λ a b, time a ≤ time b) l'.
Proof.
  induction l as [|y l IH]; intros Hs; [exists [x]; by repeat constructor|].
  apply StronglySorted_inv in Hs as [Hs Hall]. cbn [insert_sorted obind]. unfold ByTimestamp_Less at 1.
  destruct (Z.ltb_spec (time x) (time y)) as [Hlt|Hge].
  - exists (x :: y :: l). split; [done|]. split; [done|]. constructor; [by constructor|].
    constructor; [lia|]. eapply Forall_impl; [done|]. simpl. lia.
  - destruct (IH Hs) as (l' & -> & Hp & Hs'). exists (y :: l'). split; [done|].
    split; [rewrite Hp; constructor|]. constructor; [done|]. rewrite Hp. constructor; [lia|done].
Qed.

Lemma sort_by_time l : ∃ l', sort (λ a b, Ret (ByTimestamp_Less a b)) l = Ret l' ∧ l' ≡ₚ l ∧
  StronglySorted (λ a b, time a ≤ time b) l'.
Proof.
  induction l as [|x l IH]; [exists []; by repeat constructor|]. destruct IH as (l' & Hl & Hp & Hs).
  destruct (insert_by_time x l' Hs) as (l2 & Hl2 & Hp2 & Hs2). exists l2. cbn [sort]. rewrite Hl. cbn [obind].
  split; [done|]. split; [by rewrite Hp2, Hp|done].
Qed.

(** The comet in the middle has the median time. *)
Lemma middle_time l l' m :
  l' ≡ₚ l → StronglySorted (λ a b, time a ≤ time b) l' →
  l' !! (length l / 2)%nat = Some m → time m = median ((λ c, time c) <$> l).
Proof.
  intros Hp Hs Hm. unfold median. rewrite length_fmap.
  replace (merge_sort Z.le ((λ c, time c) <$> l)) with ((λ c, time c) <$> l').
  - by rewrite list_lookup_fmap, Hm.
  - apply (Sorted_unique Z.le); [|apply Sorted_merge_sort, _|by rewrite merge_sort_Permutation, Hp].
    apply StronglySorted_Sorted. clear Hm Hp. induction Hs as [|a l' _ IH Hall]; [constructor|].
    cbn. constructor; [done|]. by apply Forall_fmap.
Qed.

Section Received.
Context `{RangeOrder, Crypto} {S : Type} `{Store S, !StoreLaws S}.
Implicit Types (g : CometGraph (S := S)).

(** The famous witnesses of a round all of whose witnesses are decided. *)
Lemma election_table ps B R rank Div rds (Hlay : layout ps B R rank Div rds) (Hall : ∀ y, known B y → y ∈ Div) i ri :
  rds !! i = Some ri → WitnessesDecided ri = true → FamousWitnesses ri ≠ [] →
  election ps B R i (list_to_set (FamousWitnesses ri)).
Proof.
  intros Hri Hdec Hne. split.
  - intros He. apply Hne. destruct (FamousWitnesses ri) as [|w l]; [done|]. set_solver.
  - intros w Hw. apply elem_of_list_to_set, elem_of_FamousWitnesses in Hw as (e & He & Hw & Hf).
    destruct (lay_sound _ _ _ _ _ _ Hlay _ _ _ _ Hri He) as (b & Hb & _ & Hr & Hwit).
    split; [exists b; by rewrite <-Hwit|].
    pose proof (lay_fame _ _ _ _ _ _ Hlay _ _ _ _ Hri He) as Hs. by rewrite Hf in Hs.
  - intros w (b & Hb & Hr & Hwit) Hno. left.
    destruct (lay_complete _ _ _ _ _ _ Hlay w) as (ri' & e & Hri' & He); [apply Hall; by eexists|].
    rewrite Hr, Hri in Hri'. injection Hri' as <-.
    destruct (lay_sound _ _ _ _ _ _ Hlay _ _ _ _ Hri He) as (b' & Hb' & _ & _ & Hwit').
    assert (b' = b) as -> by congruence. apply Hwit' in Hwit.
    pose proof (lay_fame _ _ _ _ _ _ Hlay _ _ _ _ Hri He) as Hs.
    assert (IsDecided w ri = true) as Hisd.
    { apply WitnessesDecided_spec; [done|]. apply elem_of_Witnesses. eauto. }
    unfold IsDecided in Hisd. rewrite He, Hwit in Hisd. simpl in Hisd. apply bool_decide_eq_true in Hisd.
    destruct (re_Famous e) eqn:Hf; [done| |done]. exfalso. apply Hno.
    apply elem_of_list_to_set, elem_of_FamousWitnesses. eauto.
Qed.

(** ** In one state of the store *)
Section OneView.
Context (ps : gmap string Z) (v : content) (R : gmap string Z).
Abbreviation B := (Body <$> comets v).

Lemma filter_See_spec x g0 ws : ∀ g,
  computes ps v R g0 g → known B x → (∀ w, w ∈ ws → known B w) → NoDup ws →
  WP (filter_See ws x) ◃ g {{ o g', ∃ l, o = Ret l ∧ NoDup l ∧
    (∀ w, w ∈ l ↔ w ∈ ws ∧ anc B w x) ∧ computes ps v R g0 g' }}.
Proof.
  induction ws as [|w ws IH]; intros g Hg Hx Hk Hnd.
  { apply wp_ret. exists []. split; [done|]. split; [constructor|]. split; [set_solver|done]. }
  apply NoDup_cons in Hnd as [Hw Hnd]. cbn [filter_See]. apply wp_bind. eapply wp_mono.
  { apply (AncestorOf_spec ps v g g w x (computes_asks _ _ _ _ _ Hg)); [apply Hk; by left|done]. }
  intros o g1 (r & -> & (_ & _ & Hr) & Hg1). pose proof (computes_quiet _ _ _ _ _ _ Hg Hg1) as Hc1. cbn in Hr.
  apply wp_bind. eapply wp_mono; [apply (IH g1 Hc1 Hx); [|done]; intros; apply Hk; by right|].
  intros o g2 (l & -> & Hl & Hin & Hg2). apply wp_ret. eexists. split; [done|]. split; [|split; [|done]].
  - destruct r; [|done]. constructor; [|done]. by intros [? _]%Hin.
  - intros z. rewrite elem_of_cons. destruct r; [rewrite elem_of_cons|]; rewrite Hin; naive_solver.
Qed.

(** The comets of the creators of [s] that first saw [x]. *)
Lemma oldest_seers_spec x g0 g s :
  computes ps v R g0 g → known B x → (∀ a, a ∈ s → known B a ∧ anc B a x) →
  WP (foldM (λ acc a, o ← OldestSelfAncestorToSee a x; mret (acc ++ [o])) [] s) ◃ g
    {{ o g', ∃ zs, o = Ret zs ∧ Forall2 (λ a z, oldest_seer B a x z ∧ known B z) s zs ∧ computes ps v R g0 g' }}.
Proof.
  intros Hg Hx Hs.
  eapply (wp_foldM _ (λ l acc g', ∃ dn, s = dn ++ l ∧ Forall2 (λ a z, oldest_seer B a x z ∧ known B z) dn acc ∧
    computes ps v R g0 g')).
  - exists []. split; [done|]. split; [constructor|done].
  - intros a l acc g1 (dn & -> & Hdn & Hg1). destruct (Hs a) as [Ha Hax]; [set_solver|].
    apply wp_bind. eapply wp_mono; [by apply (OldestSelfAncestorToSee_spec ps v g1 g1 a x (computes_asks _ _ _ _ _ Hg1))|].
    intros o g2 (z & -> & (_ & _ & Hz) & Hg2). apply wp_ret. exists (dn ++ [a]). split; [by rewrite <-app_assoc|].
    split; [|by eapply computes_quiet]. apply Forall2_app; [done|]. constructor; [|done].
    destruct Hz as [[? ?]|[_ Hno]]; [done|]. destruct Hno. exists a. split; [apply rtc_refl|done].
  - intros acc g1 (dn & -> & Hdn & Hg1). rewrite app_nil_r in *. eauto.
Qed.

Lemma MedianTimestamp_spec g0 g zs :
  computes ps v R g0 g → (∀ z, z ∈ zs → known B z) → zs ≠ [] →
  WP (MedianTimestamp zs) ◃ g {{ o g', ∃ cs, Forall2 (λ z c, comets v !! z = Some c) zs cs ∧
    o = Ret (median ((λ c, time c) <$> cs)) ∧ computes ps v R g0 g' }}.
Proof.
  intros Hg Hk Hne. unfold MedianTimestamp. apply wp_bind.
  eapply (wp_foldM _ (λ l acc g', ∃ dn, zs = dn ++ l ∧ Forall2 (λ z c, comets v !! z = Some c) dn acc ∧
    computes ps v R g0 g')).
  - exists []. split; [done|]. split; [constructor|done].
  - intros z l acc g1 (dn & -> & Hdn & Hg1). destruct (known_comet v z) as [c Hc]; [apply Hk; set_solver|].
    apply wp_bind. eapply computes_GetComet; [done|]. rewrite Hc. intros g2 Hg2. apply wp_ret.
    exists (dn ++ [z]). split; [by rewrite <-app_assoc|]. split; [|done]. apply Forall2_app; [done|]. by repeat constructor.
  - intros cs g1 (dn & -> & Hcs & Hg1). rewrite app_nil_r in *.
    destruct (sort_by_time cs) as (l & Hl & Hp & Hs). eapply wp_lift_bind; [exact Hl|].
    assert (length dn = length cs) as Hlen by (by eapply Forall2_length).
    assert (0 < length cs)%nat as Hpos by (destruct dn; [done|simpl in Hlen; lia]).
    unfold len. rewrite (Permutation_length Hp).
    assert (is_Some (l !! (length cs / 2)%nat)) as [m Hm].
    { apply lookup_lt_is_Some. rewrite (Permutation_length Hp). by apply Nat.div_lt; lia. }
    eapply wp_lift_bind; [apply index_Some; [|]|].
    + apply Z.div_pos; lia.
    + replace (Z.to_nat (Z.of_nat (length cs) / 2)) with (length cs / 2)%nat; [exact Hm|].
      rewrite <-(Nat2Z.id (length cs / 2)), Nat2Z.inj_div. done.
    + apply wp_ret. exists cs. split; [done|]. split; [|done]. by rewrite (middle_time cs l m).
Qed.

Lemma times_map (s : list string) (ts : list Z) :
  length s = length ts → NoDup s →
  base.size (list_to_map (zip s ts) : gmap string Z) = length s ∧
  (map_to_list (list_to_map (zip s ts) : gmap string Z)).*2 ≡ₚ ts ∧
  (∀ a, is_Some ((list_to_map (zip s ts) : gmap string Z) !! a) ↔ a ∈ s) ∧
  (∀ a t, (list_to_map (zip s ts) : gmap string Z) !! a = Some t → ∃ k, s !! k = Some a ∧ ts !! k = Some t).
Proof.
  intros Hlen Hnd.
  assert ((zip s ts).*1 = s) as Hfst by (apply fst_zip; lia).
  assert (NoDup (zip s ts).*1) as Hnd' by (by rewrite Hfst).
  assert (map_to_list (list_to_map (zip s ts) : gmap string Z) ≡ₚ zip s ts) as Hp by (by apply map_to_list_to_map).
  split; [|split; [|split]].
  - by rewrite <-length_map_to_list, Hp, length_zip_with, <-Hlen, Nat.min_id.
  - rewrite Hp. rewrite snd_zip by lia. done.
  - intros a. rewrite <-elem_of_dom, dom_list_to_map_L, Hfst. apply elem_of_list_to_set.
  - intros a t Ha. apply elem_of_list_to_map_2, list_elem_of_lookup in Ha as [k Hk].
    apply lookup_zip_with_Some in Hk as (a' & t' & [= -> ->] & ? & ?). eauto.
Qed.

(** What is found by looking up the first seers is the stamp. *)
Lemma stamp_holds x i ri s zs cs :
  0 ≤ i → rnd R x < i → election ps B R i (list_to_set (FamousWitnesses ri)) →
  NoDup s → (∀ w, w ∈ s ↔ w ∈ FamousWitnesses ri ∧ anc B w x) →
  len (FamousWitnesses ri) / 2 < len s →
  Forall2 (λ a z, oldest_seer B a x z ∧ known B z) s zs →
  Forall2 (λ z c, comets v !! z = Some c) zs cs →
  stamped ps B R x i (median ((λ c, time c) <$> cs)).
Proof.
  intros Hi Hlt Hel Hnd Hs Hmaj Hzs Hcs. set (ts := (λ c, time c) <$> cs).
  assert (length s = length ts) as Hlen.
  { unfold ts. rewrite length_fmap. transitivity (length zs); by eapply Forall2_length. }
  destruct (times_map s ts Hlen Hnd) as (Hsz & Hperm & Hdom & Htimes).
  exists (list_to_set (FamousWitnesses ri)), (list_to_map (zip s ts)).
  split; [done|]. split; [done|]. split; [done|]. split.
  { intros a. rewrite Hdom, Hs, elem_of_list_to_set. done. }
  split; [|split].
  - intros a t' Ha. destruct (Htimes a t' Ha) as (k & Hk & Hk').
    destruct (Forall2_lookup_l _ _ _ _ _ Hzs Hk) as (z & Hz & Hold & _).
    destruct (Forall2_lookup_l _ _ _ _ _ Hcs Hz) as (c & Hck & Hc').
    unfold ts in Hk'. rewrite list_lookup_fmap, Hck in Hk'. injection Hk' as <-.
    exists z, (Body c). split; [done|]. split; [by apply graph_body|done].
  - rewrite size_list_to_set by apply NoDup_FamousWitnesses. rewrite Hsz. exact Hmaj.
  - symmetry. by apply median_perm.
Qed.
End OneView.

(** ** Writing the stamps *)
Implicit Types (v : content) (ps R : gmap string Z).

(** A comet without its stamp. *)
Definition plain (c : Comet) : Comet :=
  mkComet (Body c) (Signature c) (TopologicalIndex c) None 0 (LastAncestors c) (FirstDescendants c).

(** Only the stamps of comets change. *)
Record restamped v v' : Prop := {
  rs_plain : plain <$> comets v' = plain <$> comets v;
  rs_rest : v' = set_comets (comets v') v
}.

Lemma restamped_refl v : restamped v v.
Proof. split; [done|by destruct v]. Qed.

Lemma restamped_trans v1 v2 v3 : restamped v1 v2 → restamped v2 v3 → restamped v1 v3.
Proof. intros [Hp1 Hr1] [Hp2 Hr2]. split; [congruence|]. rewrite Hr2, Hr1. by destruct v1. Qed.

Lemma restamped_fmap {A} (f : Comet → A) v v' :
  (∀ c, f (plain c) = f c) → restamped v v' → f <$> comets v' = f <$> comets v.
Proof.
  intros Hf [Hp _].
  assert (∀ m : gmap string Comet, f <$> m = f <$> (plain <$> m)) as Hm.
  { intros m. rewrite <-map_fmap_compose. apply map_fmap_ext. intros; symmetry; apply Hf. }
  by rewrite (Hm (comets v')), (Hm (comets v)), Hp.
Qed.

Lemma restamped_Body v v' : restamped v v' → Body <$> comets v' = Body <$> comets v.
Proof. by apply restamped_fmap. Qed.

Lemma restamped_lookup v v' x c' :
  restamped v v' → comets v' !! x = Some c' → ∃ c, comets v !! x = Some c ∧ plain c = plain c'.
Proof.
  intros [Hp _] Hc. assert ((plain <$> comets v') !! x = Some (plain c')) as Hx by (by rewrite lookup_fmap, Hc).
  rewrite Hp, lookup_fmap in Hx. destruct (comets v !! x) as [c|]; [|done]. apply (inj Some) in Hx. eauto.
Qed.

Lemma restamped_graph_ok ps v v' : restamped v v' → graph_ok ps v → graph_ok ps v'.
Proof.
  intros Hrs [Hdag Hroots Hla Hfd]. pose proof (restamped_Body _ _ Hrs) as HB.
  assert (next_of v' = next_of v ∧ last_of v' = last_of v ∧ store_roots v' = store_roots v) as (Hn & Hl & Hr)
    by (rewrite (rs_rest _ _ Hrs); done).
  split; rewrite ?HB, ?Hn, ?Hl, ?Hr; try done.
  - intros h c' Hc'. destruct (restamped_lookup _ _ _ _ Hrs Hc') as (c & Hc & [= _ _ _ <- _]). by apply Hla.
  - intros h c' Hc'. destruct (restamped_lookup _ _ _ _ Hrs Hc') as (c & Hc & [= _ _ _ _ <-]). by apply Hfd.
Qed.

Lemma restamped_rounds v v' : restamped v v' → rounds v' = rounds v.
Proof. intros Hrs. by rewrite (rs_rest _ _ Hrs). Qed.

Lemma dividing_restamped ps v v' R rank Div g t :
  dividing ps v R rank Div g → restamped v v' → store_ok t → view t = v' →
  dividing ps v' R rank Div (upd_store t g).
Proof.
  intros [[] Hpr Hro Hlay Hund] Hrs Ht Hv. pose proof (restamped_Body _ _ Hrs) as HB.
  split; rewrite ?HB, ?(restamped_rounds _ _ Hrs); try done.
  split; rewrite ?HB; try done. by eapply restamped_graph_ok.
Qed.

Definition stamps_ok ps v R : Prop := ∀ x c i,
  comets v !! x = Some c → RoundReceived c = Some i → stamped ps (Body <$> comets v) R x i (ConsensusTimestamp c).

Record ordering ps v0 R rank Div g0 g : Prop := {
  od_view : restamped v0 (view (store g));
  od_div : dividing ps (view (store g)) R rank Div g;
  od_stamps : stamps_ok ps (view (store g)) R;
  od_calm : calm g0 g
}.

Lemma ordering_computes ps v0 R rank Div g0 g g' :
  ordering ps v0 R rank Div g0 g → computes ps (view (store g)) R g g' → ordering ps v0 R rank Div g0 g'.
Proof.
  intros [Hv Hdv Hst Hc] Hco. pose proof (q_view _ _ _ (co_q _ _ _ _ _ Hco)) as Hv'.
  split; rewrite ?Hv'; [done|by eapply computes_dividing|done|].
  eapply calm_trans; [done|apply Hco].
Qed.

Section Passes.
Context (ps : gmap string Z) (v0 : content) (R : gmap string Z) (rank : string → nat) (Div : gset string) (g0 : CometGraph (S := S)).
Abbreviation B0 := (Body <$> comets v0).
Context (Hall : ∀ y, known B0 y → y ∈ Div).

(** Writing the stamp of [x] back into the store. *)
Lemma write_stamp_spec g g5 x cx i ts :
  let cx' := set_ConsensusTimestamp ts (SetRoundReceived i cx) in
  ordering ps v0 R rank Div g0 g → computes ps (view (store g)) R g g5 → comets (view (store g)) !! x = Some cx →
  stamped ps (Body <$> comets (view (store g))) R x i ts →
  WP (stm (st_SetComet cx')) ◃ g5 {{ o g', o = Ret tt ∧ ordering ps v0 R rank Div g0 g' }}.
Proof.
  intros cx' Hod Hc5 Hcx Hstamp. pose proof (od_div _ _ _ _ _ _ _ Hod) as Hdv. set (v := view (store g)) in *.
  pose proof (dv_q _ _ _ _ _ _ Hdv) as Hq.
  assert (Hex cx' = x) as Hhex.
  { change (Hex cx') with (Hex cx). pose proof (dag_name _ _ _ _ (g_dag _ _ (q_graph _ _ _ Hq)) x (Body cx) (graph_body _ _ _ Hcx)) as Hn.
    rewrite <-Hn. unfold Hex, b_name. by destruct (body_Hash (Body cx)). }
  apply wp_zoom. eapply wp_mono; [apply law_SetComet_old; [apply (q_ok _ _ _ (co_q _ _ _ _ _ Hc5))|]|].
  { rewrite (q_view _ _ _ (co_q _ _ _ _ _ Hc5)), Hhex. by eexists. }
  rewrite (q_view _ _ _ (co_q _ _ _ _ _ Hc5)), Hhex. intros o t6 (-> & Ht6 & Hv6). split; [done|].
  assert (restamped v (view t6)) as Hrs.
  { rewrite Hv6. split; [|by destruct v]. cbn. rewrite fmap_insert. apply insert_id. by rewrite lookup_fmap, Hcx. }
  pose proof (ordering_computes _ _ _ _ _ _ _ _ Hod Hc5) as Hod5.
  split; cbn [store upd_store].
  - eapply restamped_trans; [apply Hod|exact Hrs].
  - eapply dividing_restamped; [|exact Hrs|done|done]. by eapply computes_dividing.
  - intros y c' i' Hy Hrr. rewrite (restamped_Body _ _ Hrs). rewrite Hv6 in Hy. cbn in Hy.
    apply lookup_insert_Some in Hy as [[<- <-]|[_ Hy]]; [by injection Hrr as <-|].
    by apply (od_stamps _ _ _ _ _ _ _ Hod).
  - eapply calm_trans; [apply Hod5|].
    exists t6, (ancestorCache g5), (selfAncestorCache g5), (oldestSelfAncestorCache g5), (stronglySeeCache g5),
      (parentRoundCache g5), (CometGraph.roundCache g5). by destruct g5.
Qed.

(** One round is tried for [x]. *)
Lemma receive_in_spec g x i :
  ordering ps v0 R rank Div g0 g → known B0 x → 0 ≤ i → rnd R x < i →
  WP (receive_in x i) ◃ g {{ o g', (∃ b, o = Ret b) ∧ ordering ps v0 R rank Div g0 g' }}.
Proof.
  intros Hod Hx Hi Hlt. pose proof (od_div _ _ _ _ _ _ _ Hod) as Hdv. set (v := view (store g)) in *.
  pose proof (restamped_Body _ _ (od_view _ _ _ _ _ _ _ Hod)) as HB. fold v in HB.
  pose proof (dv_layout _ _ _ _ _ _ Hdv) as Hlay. pose proof (dv_q _ _ _ _ _ _ Hdv) as Hq.
  pose proof (dividing_computes _ _ _ _ _ _ Hdv) as Hc. rewrite <-HB in Hall, Hx.
  unfold receive_in. apply wp_bind.
  eapply wp_mono; [by apply (computes_get_or_new_round ps v R g)|].
  intros o g1 [-> Hc1]. apply wp_gets_bind. set (tr := default _ _).
  destruct (WitnessesDecided tr) eqn:Hdec; simpl.
  2:{ apply wp_ret. split; [eauto|]. by eapply ordering_computes. }
  destruct (negb _); [apply wp_ret; split; [eauto|by eapply ordering_computes]|].
  apply wp_bind. eapply wp_mono.
  { apply (filter_See_spec ps v R x g (FamousWitnesses tr) g1 Hc1 Hx); [|apply NoDup_FamousWitnesses].
    intros w (e & He & _)%elem_of_FamousWitnesses. unfold tr in He.
    destruct (rounds v !! i) as [ri|] eqn:Hri; [|destruct (new_round_empty w); by eexists].
    destruct (lay_sound _ _ _ _ _ _ Hlay _ _ _ _ Hri He) as (b & Hb & _). by eexists. }
  intros o g2 (s & -> & Hnd & Hs & Hc2). case_bool_decide as Hmaj; [|apply wp_ret; split; [eauto|by eapply ordering_computes]].
  assert (s ≠ []) as Hne.
  { intros ->. unfold len in Hmaj. simpl in Hmaj. pose proof (Z.div_pos (Z.of_nat (length (FamousWitnesses tr))) 2). lia. }
  assert (∃ ri, rounds v !! i = Some ri ∧ tr = ri) as (ri & Hri & Htr).
  { unfold tr. destruct (rounds v !! i) as [ri|]; [by eauto|]. exfalso. apply Hne.
    destruct s as [|a s']; [done|]. assert (a ∈ FamousWitnesses NewRoundInfo) as (e & He & _)%elem_of_FamousWitnesses.
    { apply Hs. by left. }
    destruct (new_round_empty a). by eexists. }
  rewrite Htr in *. clear tr Htr.
  assert (FamousWitnesses ri ≠ []) as HneF.
  { intros HF. rewrite HF in Hs. destruct s as [|a s']; [done|].
    by destruct (proj1 (Hs a) ltac:(by left)) as [?%elem_of_nil _]. }
  pose proof (election_table _ _ _ _ _ _ Hlay Hall i ri Hri Hdec HneF) as Hel.
  destruct (known_comet v x Hx) as [cx Hcx].
  apply wp_bind. eapply wp_GetComet; [apply at_store_refl, (q_ok _ _ _ (co_q _ _ _ _ _ Hc2))| |].
  { rewrite (q_view _ _ _ (co_q _ _ _ _ _ Hc2)). exact Hcx. }
  rewrite (q_view _ _ _ (co_q _ _ _ _ _ Hc2)). intros g3 (t3 & -> & Ht3 & Hv3).
  pose proof (computes_store _ _ _ _ _ t3 Hc2 Ht3 Hv3) as Hc3. set (g3 := upd_store t3 g2) in *. clearbody g3.
  assert (∀ a, a ∈ s → known (Body <$> comets v) a ∧ anc (Body <$> comets v) a x) as Hsk.
  { intros a [Ha Hax]%Hs. split; [|done]. destruct (el_famous _ _ _ _ _ Hel a) as [(? & ? & _) _]; [by apply elem_of_list_to_set|].
    by eexists. }
  apply wp_bind. eapply wp_mono; [by apply (oldest_seers_spec ps v R x g)|].
  intros o g4 (zs & -> & Hzs & Hc4). apply wp_bind. eapply wp_mono.
  { apply (MedianTimestamp_spec ps v R g g4 zs Hc4).
    - intros z [k Hk]%list_elem_of_lookup. destruct (Forall2_lookup_r _ _ _ _ _ Hzs Hk) as (a & _ & _ & ?). done.
    - intros ->. apply Forall2_length in Hzs. by destruct s. }
  intros o g5 (cs & Hcs & -> & Hc5).
  set (cx' := set_ConsensusTimestamp _ _).
  assert (stamped ps (Body <$> comets v) R x i (ConsensusTimestamp cx')) as Hstamp by (by eapply (stamp_holds ps v R x i ri s zs)).
  apply wp_bind. eapply wp_mono; [by apply (write_stamp_spec g g5 x cx)|]. intros o g6 [-> Hod6].
  apply wp_ret. split; [eauto|done].
Qed.

Lemma receive_one_spec fuel g x :
  ordering ps v0 R rank Div g0 g → known B0 x → (base.size (comets v0) ≤ fuel)%nat → 0 ≤ rnd R x →
  WP (receive_one fuel x) ◃ g {{ o g', o = Ret tt ∧ ordering ps v0 R rank Div g0 g' }}.
Proof.
  intros Hod Hx Hf Hr. pose proof (od_div _ _ _ _ _ _ _ Hod) as Hdv. set (v := view (store g)) in *.
  pose proof (restamped_Body _ _ (od_view _ _ _ _ _ _ _ Hod)) as HB. fold v in HB.
  pose proof (dv_layout _ _ _ _ _ _ Hdv) as Hlay. pose proof Hx as Hx0. rewrite <-HB in Hx.
  unfold receive_one. apply wp_bind. eapply wp_mono.
  { apply (Round_spec ps v R rank Div Hlay g fuel x g (dividing_computes _ _ _ _ _ _ Hdv)).
    - right. eapply divided_ready; [done|by apply Hall].
    - destruct (known_comet v x Hx) as [c Hc]. unfold enough. rewrite Hc.
      pose proof (proj2 (lay_rank _ _ _ _ _ _ Hlay) x Hx) as Hk. rewrite HB, map_size_fmap in Hk. lia. }
  intros o g1 [-> Hc1]. pose proof (ordering_computes _ _ _ _ _ _ _ _ Hod Hc1) as Hod1.
  apply wp_gets_bind. apply wp_bind.
  eapply (wp_foldM_break _ (λ l _ g', (∀ i, i ∈ l → rnd R x < i) ∧ ordering ps v0 R rank Div g0 g')).
  - split; [|done]. intros i Hi%elem_of_seqZ. lia.
  - intros i l _ g2 [Hl Hod2]. apply wp_bind. pose proof (Hl i ltac:(by left)).
    eapply wp_mono; [apply receive_in_spec; [done|done|lia|lia]|].
    intros o g3 [[b ->] Hod3]. apply wp_ret. destruct b; [by apply wp_ret|].
    split; [|done]. intros; apply Hl; by right.
  - intros _ g2 [_ Hod2]. by apply wp_ret.
Qed.

Lemma DecideRoundReceived_spec fuel g :
  ordering ps v0 R rank Div g0 g → (∀ x, x ∈ UndeterminedEvents g → known B0 x) →
  (base.size (comets v0) ≤ fuel)%nat → (∀ x, known B0 x → 0 ≤ rnd R x) →
  WP (DecideRoundReceived fuel) ◃ g {{ o g', o = Ret tt ∧ ordering ps v0 R rank Div g0 g' }}.
Proof.
  intros Hod Hk Hf Hr. unfold DecideRoundReceived. apply wp_gets_bind.
  eapply (wp_for_each _ (λ l g', (∀ x, x ∈ l → known B0 x) ∧ ordering ps v0 R rank Div g0 g')).
  - done.
  - intros x l g1 [Hl Hod1]. pose proof (Hl x ltac:(by left)) as Hx.
    eapply wp_mono; [apply receive_one_spec; auto|]. intros o g2 [-> Hod2]. split; [|done].
    intros; apply Hl; by right.
  - intros g1 [_ Hod1]. done.
Qed.
End Passes.

(** ** Splitting and handing out *)

(** A comet without a round received. *)
Definition waits v (x : string) : Prop := ∃ c, comets v !! x = Some c ∧ RoundReceived c = None.

Lemma split_spec v g0 g l :
  at_store g0 v g → (∀ x, x ∈ l → is_Some (comets v !! x)) →
  WP (foldM split_one ([], []) l) ◃ g {{ o g', ∃ es rest, o = Ret (es, rest) ∧
    (∀ e, e ∈ es → ∃ x, comets v !! x = Some e ∧ is_Some (RoundReceived e)) ∧
    (∀ x, x ∈ rest ↔ x ∈ l ∧ waits v x) ∧ (length es ≤ length l)%nat ∧ at_store g0 v g' }}.
Proof.
  intros Hat Hk.
  eapply (wp_foldM _ (λ l' acc g', ∃ dn, l = dn ++ l' ∧
    (∀ e, e ∈ acc.1 → ∃ x, comets v !! x = Some e ∧ is_Some (RoundReceived e)) ∧
    (∀ x, x ∈ acc.2 ↔ x ∈ dn ∧ waits v x) ∧ (length acc.1 ≤ length dn)%nat ∧ at_store g0 v g')).
  - exists []. split; [done|]. split; [set_solver|]. split; [set_solver|]. done.
  - intros x l' [es rest] g1 (dn & -> & Hes & Hrest & Hlen & Hat1). destruct (Hk x) as [c Hc]; [set_solver|].
    unfold split_one. apply wp_bind. eapply wp_GetComet; [done|done|]. intros g2 Hat2. apply wp_ret.
    exists (dn ++ [x]). rewrite <-app_assoc, length_app. split; [done|]. simpl in *.
    destruct (RoundReceived c) as [rr|] eqn:Hrr; simpl.
    + split; [|split; [|rewrite length_app; simpl; split; [lia|done]]].
      * intros e [He| ->%list_elem_of_singleton]%elem_of_app; [by apply Hes|]. exists x. rewrite Hrr. eauto.
      * intros y. rewrite Hrest, elem_of_app, list_elem_of_singleton. split; [naive_solver|].
        intros [[?| ->] Hw]; [done|]. destruct Hw as (c' & Hc' & ?). congruence.
    + split; [done|]. split; [|split; [lia|done]]. intros y.
      rewrite !elem_of_app, !list_elem_of_singleton, Hrest. split; [|naive_solver].
      intros [?| ->]; [naive_solver|]. split; [by right|]. by exists c.
  - intros [es rest] g1 (dn & -> & Hes & Hrest & Hlen & Hat1). rewrite app_nil_r in *. simpl in *. exists es, rest. eauto 6.
Qed.

(** Comets, but for their stamps, and everything except the blocks stay. *)
Record ordered v v' : Prop := {
  or_plain : plain <$> comets v' = plain <$> comets v;
  or_rest : v' = set_blocks (blocks v') (set_comets (comets v') v)
}.

Lemma fold_put_block bs m : (∀ i b, m !! i = Some b → bb_Index (b_Body b) = i) →
  ∀ i b, fold_left put_block bs m !! i = Some b → bb_Index (b_Body b) = i.
Proof.
  revert m. induction bs as [|b0 bs IH]; intros m Hm; [done|]. simpl. apply IH. intros i b.
  unfold put_block. intros [[<- <-]|[_ ?]]%lookup_insert_Some; [done|by apply Hm].
Qed.

(** A comet whose signature parses. *)
Definition signed v : Prop := ∀ x c, comets v !! x = Some c → ∃ r s, DecodeSignature (Signature c) = Ret (Some r, s).

Lemma FindOrder_spec ps v R rank Div fuel g :
  dividing ps v R rank Div g → (∀ y, known (Body <$> comets v) y → y ∈ Div) → stamps_ok ps v R → blocks_ok v → signed v →
  (∀ x, x ∈ UndeterminedEvents g → known (Body <$> comets v) x) →
  (base.size (comets v) ≤ fuel)%nat → Z.of_nat (base.size (blocks v)) + len (UndeterminedEvents g) ≤ capacity v →
  WP (FindOrder fuel) ◃ g {{ o g', o = Ret tt ∧ let v' := view (store g') in
    ordered v v' ∧ dividing ps v' R rank Div g' ∧ stamps_ok ps v' R ∧ blocks_ok v' ∧
    (∀ x, x ∈ UndeterminedEvents g' ↔ x ∈ UndeterminedEvents g ∧ waits v' x) ∧
    ReverseParticipants g' = ReverseParticipants g ∧ topologicalIndex g' = topologicalIndex g }}.
Proof.
  intros Hdv Hall Hst Hbl Hsig Hund Hf Hroom. pose proof (dv_q _ _ _ _ _ _ Hdv) as Hq.
  pose proof (dv_layout _ _ _ _ _ _ Hdv) as Hlay. pose proof (q_view _ _ _ Hq) as Hv.
  assert (∀ x, known (Body <$> comets v) x → 0 ≤ rnd R x) as Hnn.
  { intros x Hx. eapply rnd_nonneg; eauto using lay_rank, lay_rounds. apply (g_dag _ _ (q_graph _ _ _ Hq)). }
  unfold FindOrder. apply wp_bind. eapply wp_mono.
  { apply (DecideRoundReceived_spec ps v R rank Div g Hall fuel g); auto.
    split; rewrite ?Hv; [apply restamped_refl|done|done|apply calm_refl]. }
  intros o g1 [-> [Hrs Hdv1 Hst1 Hc1]]. set (v1 := view (store g1)) in *.
  assert (UndeterminedEvents g1 = UndeterminedEvents g) as Hug
    by (by destruct Hc1 as (t & a & sa & oo & ss & pr & ro & ->)).
  apply wp_gets_bind. rewrite Hug. apply wp_bind. eapply wp_mono.
  { apply (split_spec v1 g1 g1); [apply at_store_refl, (q_ok _ _ _ (dv_q _ _ _ _ _ _ Hdv1))|].
    intros x Hx%Hund. rewrite <-(restamped_Body _ _ Hrs) in Hx. destruct (known_comet v1 x Hx) as [c ->]. by eexists. }
  intros o g2 (es & rest & -> & Hes & Hrest & Hlen & (t2 & -> & Ht2 & Hv2)). apply wp_modify_bind. cbn [fst snd].
  destruct (sort_spec es) as (es' & Hsort & Hperm & Hsorted).
  { apply Forall_forall. intros e He. destruct (Hes e He) as (x & Hx & [rr Hrr]).
    destruct (restamped_lookup _ _ _ _ Hrs Hx) as (c & Hc & Hplain). unfold keyed, sort_key. rewrite Hrr.
    destruct (Hsig x c Hc) as (r & s & Hd). injection Hplain as _ Hsg _ _ _. rewrite <-Hsg, Hd. by eexists. }
  eapply wp_lift_bind; [exact Hsort|]. set (g3 := set_Undetermined rest _).
  assert (dividing ps v1 R rank Div g3) as Hdv3.
  { unfold g3, set_Undetermined. apply dividing_upd; [|done].
    eapply dividing_restamped; [done|apply restamped_refl|done|done]. }
  assert (view (store g3) = v1) as Hv3 by done.
  eapply wp_mono; [apply handle_spec|].
  - done.
  - apply Forall_forall. intros e He. rewrite Hperm in He. by destruct (Hes e He) as (_ & _ & ?).
  - rewrite Hv3. intros m i Hm. apply law_room_block. cbn.
    replace (capacity v1) with (capacity v) by (by rewrite (rs_rest _ _ Hrs)).
    replace (blocks v1) with (blocks v) in Hm by (by rewrite (rs_rest _ _ Hrs)).
    pose proof (grouped_length es') as Hgl. pose proof (Permutation_length Hperm). unfold len in *. lia.
  - rewrite Hv3. intros o g4 (-> & t4 & -> & Ht4 & Hv4). split; [done|]. cbn zeta. cbn [store upd_store]. rewrite Hv4.
    set (bs := blocks_from _ _) in *. set (m := fold_left put_block bs _) in *.
    assert (dividing ps (set_blocks m v1) R rank Div (upd_store t4 (sent bs (counted es' g3)))) as Hdv4.
    { destruct Hdv3 as [[] ? ? ? ?]. split; try done. split; try done. by apply graph_ok_blocks. }
    split; [|split; [done|split; [done|split; [|split]]]].
    + split; [apply Hrs|]. cbn. rewrite (rs_rest _ _ Hrs). by destruct v.
    + intros i b Hb. eapply fold_put_block; [|exact Hb]. cbn. replace (blocks v1) with (blocks v) by (by rewrite (rs_rest _ _ Hrs)). done.
    + exact Hrest.
    + by destruct Hc1 as (t & a & sa & oo & ss & pr & ro & ->).
Qed.
End Received.
