(* ===== verification/Consensus.v ===== *)
(** Insertions, queries, round divisions and whole consensus passes in any order: the invariant that makes rounds
    and witnesses right in every reachable state, and the properties that follow. *)
From S2P Require Import Prelude Lru Bytes Types Caches Store CometGraph Ancestry Insert Queries Graph Rounds Fame Divide Order Voting Stamps Received.
Open Scope Z_scope.
Open Scope go_scope.

(** ** What adding a comet leaves as it was *)
Section Grow.
Context `{RangeOrder, Crypto} (ps : gmap string Z) (B : gmap string CometBody) (next : gmap string Z)
  (last : gmap string string).
Context (Hd : dag_ok ps B next last).
Context (hx : string) (bx : CometBody) (sp op : string) (n : Z).
Context (Hfresh : B !! hx = None) (Hname : b_name bx = hx).
Context (Hnext : next !! b_creator bx = Some n) (Hidx : b_index bx = n) (Hmax : n < MaxInt32).
Context (Hsp : b_self bx = Ret sp) (Hlast : last !! b_creator bx = Some sp).
Context (Hop : b_other bx = Ret op) (Hopk : op = "" ∨ is_Some (B !! op)).
Abbreviation B' := (<[hx := bx]> B).

Lemma ready_grow Div x : (∀ y, y ∈ Div → known B y) → ready B Div x → ready B' Div x.
Proof.
  intros HD [Hk Hp]. split; [by eapply known_old|]. intros y He. apply Hp.
  eapply edge_old; eauto.
Qed.

Lemma ready_new (Div : gset string) : (∀ y, known B y → y ∈ Div) → ready B' Div hx.
Proof.
  intros HD. split; [unfold known; rewrite lookup_insert_eq; by eexists|].
  intros y He. apply HD.
  assert (y ≠ hx) as Hne.
  { intros ->. destruct He as (b & Hb & _ & Hpar). rewrite lookup_insert_eq in Hb. injection Hb as <-.
    rewrite Hsp, Hop in Hpar. destruct Hpar as [[= ->]|[= ->]].
    - destruct (dag_last _ _ _ _ Hd _ _ _ Hnext Hlast) as [[_ ?]|(b0 & ? & _)]; [|congruence].
      by eapply hx_ne_empty.
    - destruct Hopk as [?|[? ?]]; [by eapply hx_ne_empty|congruence]. }
  destruct He as (b & _ & Hy & _). by rewrite lookup_insert_ne in Hy.
Qed.

Lemma topo_grow Div L : (∀ y, y ∈ Div → known B y) → topo B Div L →
  (∀ y, known B y → y ∈ Div ∨ y ∈ L) → topo B' Div (L ++ [hx]).
Proof.
  revert Div. induction L as [|x L IH]; intros Div HD Ht Hcov; simpl.
  - split; [|done]. apply ready_new. intros y Hy. destruct (Hcov y Hy) as [?|?%elem_of_nil]; done.
  - destruct Ht as [Hx Ht]. split; [by apply ready_grow|]. apply IH; [|done|].
    + intros y. rewrite elem_of_union, elem_of_singleton. intros [->|?]; [apply Hx|auto].
    + intros y Hy. destruct (Hcov y Hy) as [?|[->|?]%elem_of_cons]; set_solver.
Qed.

Section WithRounds.
Context (R : gmap string Z) (r : Z) (rank rank' : string → nat) (Div : gset string)
  (rds : gmap Z RoundInfo).
Context (Hlay : layout ps B R rank Div rds).
Context (HR' : rounds_ok ps B' (<[hx := r]> R)) (Hrank' : ranked B' rank').
Context (next' : gmap string Z) (last' : gmap string string) (Hd' : dag_ok ps B' next' last').
Abbreviation R' := (<[hx := r]> R).

Lemma fame_sound_grow x i t : fame_sound ps B R x i t → fame_sound ps B' R' x i t.
Proof.
  assert (same_events B B') as Hsame.
  { intros h b1 b2 Hb1 Hb2. rewrite lookup_insert_ne in Hb2 by congruence. congruence. }
  assert (∀ h, known B h → known B' h) as Hsub by (intros; by eapply known_old).
  destruct t; simpl; [done|..]; apply (decided_agree ps B B' R R' rank rank' _ _ _ _ Hd Hd');
    auto; apply Hlay.
Qed.

Lemma layout_grow : layout ps B' R' rank' Div rds.
Proof.
  assert (∀ y, known B y → y ≠ hx) as Hne by (intros y [? ?]; congruence).
  assert (∀ y, y ∈ Div → known B y) as HD by (intros y; by eapply layout_known).
  split; try done; try apply Hlay.
  - intros x y Hx He. eapply (lay_closed _ _ _ _ _ _ Hlay); [done|]. eapply edge_old; eauto.
    by apply HD.
  - intros rr ri x e Hr He.
    destruct (lay_sound _ _ _ _ _ _ Hlay _ _ _ _ Hr He) as (b & Hb & Hx & Hrx & Hw).
    exists b. rewrite lookup_insert_ne by (by apply not_eq_sym, Hne; eexists).
    split; [done|]. split; [done|].
    split; [rewrite rnd_old; [done|apply Hne; by eexists]|].
    rewrite Hw. symmetry. by eapply (is_witness_stable ps B).
  - intros x Hx. rewrite rnd_old by (by apply Hne, HD). by apply (lay_complete _ _ _ _ _ _ Hlay).
  - intros rr ri x e Hr He. by eapply fame_sound_grow, (lay_fame _ _ _ _ _ _ Hlay).
Qed.

Lemma pr_answer_grow k pi : pr_answer B R k pi → pr_answer B' R' k pi.
Proof.
  intros [(b & Hb & ->)|?]; [|by right]. left. exists b.
  split; [rewrite lookup_insert_ne; [done|congruence]|]. symmetry. by eapply parent_info_stable.
Qed.

Lemma round_answer_grow k rr : round_answer B R k rr → round_answer B' R' k rr.
Proof.
  intros [[Hk ->]|?]; [|by right]. left. split; [by eapply known_old|].
  rewrite rnd_old; [done|]. destruct Hk. congruence.
Qed.
End WithRounds.
End Grow.

Section Machine.
Context `{RangeOrder, Crypto} {S : Type} `{Store S, !StoreLaws S}.
Implicit Types (g : CometGraph (S := S)) (v : content) (ps : gmap string Z).

(** The consensus pass of [Core.RunConsensus] and [Bootstrap]. *)
Definition consensus_pass (fuel : nat) : M CometGraph unit := DivideRounds fuel ;; DecideFame ;; FindOrder fuel.

(** There is a comet, and room for a block for each comet that waits. *)
Record passable (fuel : nat) g : Prop := {
  pa_fuel : (base.size (comets (view (store g))) ≤ fuel)%nat;
  pa_some : comets (view (store g)) ≠ ∅;
  pa_room : Z.of_nat (base.size (blocks (view (store g)))) + len (UndeterminedEvents g) ≤ capacity (view (store g))
}.

(** New graph, insertions, queries on known events, divisions into rounds, and consensus passes. *)
Inductive run ps (fuel : nat) : CometGraph → Prop :=
| run_new st ch g inst :
    ids_ok ps → 2 ≤ Z.of_nat (base.size ps) → store_ok st → fresh_content ps (view st) →
    BuildCometGraph ps st ch None = (Ret g, inst) → run ps fuel g
| run_insert g c sw id sp op :
    run ps fuel g → valid_insert fuel g c id sp op → run ps fuel (InsertComet fuel c sw g).2
| run_query g q x y :
    run ps fuel g →
    known (Body <$> comets (view (store g))) x → known (Body <$> comets (view (store g))) y →
    run ps fuel (run_query q x y g)
| run_divide g :
    run ps fuel g → (base.size (comets (view (store g))) ≤ fuel)%nat →
    run ps fuel (DivideRounds fuel g).2
| run_pass g : run ps fuel g → passable fuel g → run ps fuel (consensus_pass fuel g).2.

Record consensus_inv ps R rank Div g : Prop := {
  ci_dividing : dividing ps (view (store g)) R rank Div g;
  ci_blocks : blocks_ok (view (store g));
  ci_topo : topo (Body <$> comets (view (store g))) Div (UndeterminedEvents g);
  ci_cover : ∀ y, known (Body <$> comets (view (store g))) y → y ∈ Div ∨ y ∈ UndeterminedEvents g;
  ci_stamps : stamps_ok ps (view (store g)) R;
  ci_signed : signed (view (store g))
}.

Lemma ci_graph ps R rank Div g : consensus_inv ps R rank Div g → graph_inv ps g.
Proof. intros [[Hq _ _ _ _] Hbl _ _ _ _]. by split. Qed.

Lemma consensus_new ps st ch g inst :
  ids_ok ps → 2 ≤ Z.of_nat (base.size ps) → store_ok st → fresh_content ps (view st) →
  BuildCometGraph ps st ch None = (Ret g, inst) → consensus_inv ps ∅ (λ _, 0%nat) ∅ g.
Proof.
  intros Hids Hn Hok Hfr Hb. destruct (graph_inv_new _ _ _ _ _ Hids Hok Hfr Hb) as [Hq Hbl].
  unfold BuildCometGraph in Hb. cbv beta iota delta [mbind M_bind get modify mret M_ret] in Hb.
  injection Hb as <- _. simpl in *.
  split; simpl; try done; rewrite ?(fr_comets _ _ Hfr), ?fmap_empty.
  - split; simpl; auto using cache_ok_new. rewrite (fr_comets _ _ Hfr), fmap_empty, (fr_rounds _ _ Hfr).
    2:{ intros r Hr%list_elem_of_singleton. by left. }
    split; try done; try set_solver.
    split; [intros x y (b & Hb & _); by rewrite lookup_empty in Hb|].
    intros x [b Hb]. by rewrite lookup_empty in Hb.
  - intros y [b Hy]. by rewrite lookup_empty in Hy.
  - intros x c i Hx. by rewrite (fr_comets _ _ Hfr), lookup_empty in Hx.
  - intros x c Hx. by rewrite (fr_comets _ _ Hfr), lookup_empty in Hx.
Qed.

(** What verifies parses. *)
Lemma Verify_signed c : Verify c = Ret true → ∃ r s, DecodeSignature (Signature c) = Ret (Some r, s).
Proof.
  unfold Verify. destruct (body_Hash (Body c)); [|done..].
  destruct (DecodeSignature (Signature c)) as [[r s]| | |]; [|done..].
  unfold verify_sig. destruct (Creator_bytes _), r; try done. eauto.
Qed.

Lemma signed_insert ps v c id op sw topo v' :
  signed v → insert_post ps v c id op sw topo v' → Verify c = Ret true → signed v'.
Proof.
  intros Hs Hpost Hver x c' Hx.
  assert ((face <$> comets v') !! x = Some (face c')) as Hf by (by rewrite lookup_fmap, Hx).
  rewrite (ip_faces _ _ _ _ _ _ _ _ Hpost) in Hf. apply lookup_insert_Some in Hf as [[_ Hf]|[_ Hf]].
  - injection Hf as _ <- _. by apply Verify_signed.
  - rewrite lookup_fmap in Hf. destruct (comets v !! x) as [c0|] eqn:Hc0; [|done].
    injection Hf as _ <- _. by eapply Hs.
Qed.

Lemma stamps_insert ps v c id op sw topo v' R R' :
  stamps_ok ps v R → insert_post ps v c id op sw topo v' → RoundReceived c = None →
  (∀ x i ts, is_Some (comets v !! x) → stamped ps (Body <$> comets v) R x i ts → stamped ps (Body <$> comets v') R' x i ts) →
  stamps_ok ps v' R'.
Proof.
  intros Hst Hpost Hnew Hgrow x c' i Hx Hrr.
  assert ((stamp <$> comets v') !! x = Some (stamp c')) as Hs by (by rewrite lookup_fmap, Hx).
  rewrite (ip_stamps _ _ _ _ _ _ _ _ Hpost) in Hs. apply lookup_insert_Some in Hs as [[_ Hs]|[_ Hs]].
  - unfold stamp in Hs. congruence.
  - rewrite lookup_fmap in Hs. destruct (comets v !! x) as [c0|] eqn:Hc0; [|done].
    unfold stamp in Hs. injection Hs as Hrr0 <-. apply Hgrow; [by eexists|]. apply Hst; [done|congruence].
Qed.

Lemma strongly_dec ps v x y :
  graph_ok ps v → known (Body <$> comets v) x → known (Body <$> comets v) y →
  strongly ps (Body <$> comets v) x y ∨ ¬ strongly ps (Body <$> comets v) x y.
Proof.
  intros Hg Hx Hy. destruct (known_comet v x Hx) as [cx Hcx], (known_comet v y Hy) as [cy Hcy].
  destruct (stronglySee_count ps _ _ _ x y _ _ (g_dag _ _ Hg) (g_la _ _ Hg x cx Hcx)
    (g_fd _ _ Hg y cy Hcy)) as (Q & HQ & _).
  rewrite (strongly_unique _ _ _ _ Q HQ).
  destruct (decide (MostPlurality_of ps ≤ Z.of_nat (base.size Q))); auto.
Qed.

Lemma consensus_insert ps R rank Div fuel g c sw id sp op :
  consensus_inv ps R rank Div g → valid_insert fuel g c id sp op →
  ∃ R' rank', consensus_inv ps R' rank' Div (InsertComet fuel c sw g).2.
Proof.
  intros Hci Hvi. pose proof (ci_graph _ _ _ _ _ Hci) as Hgi.
  destruct (graph_inv_insert ps fuel g c sw id sp op Hgi Hvi) as (_ & Hgi' & Hpost & t & Hg').
  set (g' := (InsertComet fuel c sw g).2) in *.
  set (v := view (store g)) in *. set (v' := view (store g')) in *.
  destruct Hci as [[Hq Hpr Hro Hlay Hun] Hbl Htopo Hcov Hst Hsg]. fold v in Hq, Hpr, Hro, Hlay, Htopo, Hcov.
  pose proof (vi_extends _ _ _ _ _ _ Hvi) as Hx. rewrite (q_ps _ _ _ Hq) in Hx. fold v in Hx.
  pose proof (q_graph _ _ _ Hq) as Hgr. pose proof (g_dag _ _ Hgr) as Hd.
  set (bx := kept_body ps v op id sw c).
  assert (fields bx = fields (Body c)) as Hf by (unfold bx; by destruct sw).
  assert (b_name bx = Hex c) as Hname by (unfold b_name, Hex, body_Hash; by rewrite Hf).
  assert (b_creator bx = Creator c) as Hcr by (unfold b_creator, Creator; by rewrite Hf).
  assert (b_index bx = comet_Index c) as Hix by (unfold b_index, comet_Index; by rewrite Hf).
  assert (b_self bx = Ret sp) as Hs by (unfold b_self; rewrite Hf; apply Hx).
  assert (b_other bx = Ret op) as Ho by (unfold b_other; rewrite Hf; apply Hx).
  assert ((Body <$> comets v) !! Hex c = None) as HfB by (rewrite lookup_fmap, (ex_fresh _ _ _ _ _ _ Hx); done).
  assert (op = "" ∨ is_Some ((Body <$> comets v) !! op)) as HkB
    by (rewrite lookup_fmap, fmap_is_Some; apply Hx).
  pose proof (ex_next _ _ _ _ _ _ Hx) as Hnext. rewrite <-Hcr in Hnext.
  pose proof (ex_last _ _ _ _ _ _ Hx) as Hlast. rewrite <-Hcr in Hlast.
  pose proof (ex_max _ _ _ _ _ _ Hx) as Hmax.
  pose proof (ip_bodies _ _ _ _ _ _ _ _ Hpost) as HB'. fold bx in HB'.
  assert (UndeterminedEvents g' = UndeterminedEvents g ++ [Hex c]) as Hund
    by (rewrite Hg'; unfold booked; by destruct (IsLoaded c)).
  destruct (rounds_extend ps _ _ _ Hd (Hex c) bx sp op _ HfB Hname Hnext Hs Hlast Ho HkB R
    (lay_rounds _ _ _ _ _ _ Hlay)) as [r HR'].
  { intros w Hw. rewrite <-HB'. apply strongly_dec; [apply Hpost|..]; rewrite HB'.
    - unfold known. rewrite lookup_insert_eq. by eexists.
    - by apply known_old. }
  pose proof (ranked_extend ps _ _ _ Hd (Hex c) bx sp op _ HfB Hname Hnext Hs Hlast Ho HkB rank
    (lay_rank _ _ _ _ _ _ Hlay)) as Hrank'.
  assert (dag_ok ps (<[Hex c := bx]> (Body <$> comets v)) (next_of v') (last_of v')) as Hd'
    by (rewrite <-HB'; apply g_dag, Hpost).
  eexists _, _. split; fold v'; [|apply Hgi'|rewrite HB', Hund; eapply topo_grow; eauto| | |].
  - split; [apply Hgi'| | | |].
    + rewrite Hg'. replace (parentRoundCache _) with (parentRoundCache g)
        by (unfold booked; by destruct (IsLoaded c)).
      rewrite HB'. eapply cache_ok_mono; [|exact Hpr]. intros k pi. eapply pr_answer_grow; eauto.
    + rewrite Hg'. replace (CometGraph.roundCache _) with (CometGraph.roundCache g)
        by (unfold booked; by destruct (IsLoaded c)).
      rewrite HB'. eapply cache_ok_mono; [|exact Hro]. intros k rr. eapply round_answer_grow; eauto.
    + rewrite HB', (ip_rounds _ _ _ _ _ _ _ _ Hpost). eapply layout_grow; eauto.
    + rewrite (ip_rounds _ _ _ _ _ _ _ _ Hpost), Hg'. unfold booked. by destruct (IsLoaded c).
  - intros y. by eapply layout_known.
  - rewrite HB', Hund. intros y Hy. unfold known in Hy. rewrite elem_of_app, list_elem_of_singleton.
    destruct (decide (y = Hex c)) as [->|Hne]; [by right; right|].
    rewrite lookup_insert_ne in Hy by done. destruct (Hcov y Hy); auto.
  - eapply stamps_insert; [done|done|apply Hvi|]. intros x i ts [cx Hcx] Hsx. rewrite HB'.
    assert (known (Body <$> comets v) x) as Hkx by (exists (Body cx); by apply graph_body).
    eapply (stamped_grows ps (Body <$> comets v)); eauto using lay_rounds, lay_rank.
    + intros h b1 b2 Hb1 Hb2. rewrite lookup_insert_ne in Hb2 by congruence. congruence.
    + intros h Hh. by eapply known_old.
  - eapply signed_insert; [done|done|apply Hvi].
Qed.

Lemma consensus_asks ps R rank Div g g' :
  consensus_inv ps R rank Div g → asks ps (view (store g)) g g' → consensus_inv ps R rank Div g'.
Proof.
  intros [[Hq Hpr Hro Hlay Hun] Hbl Ht Hc Hst Hsg] [Hq' Hqu]. pose proof (q_view _ _ _ Hq') as Hv.
  split; rewrite ?Hv; [|done| | |done|done].
  - split; [done| | |done|]; by destruct Hqu as (t & a & sa & o & ss & ->).
  - by destruct Hqu as (t & a & sa & o & ss & ->).
  - by destruct Hqu as (t & a & sa & o & ss & ->).
Qed.

Lemma topo_mono B (D D' : gset string) L : D ⊆ D' → topo B D L → topo B D' L.
Proof.
  revert D D'. induction L as [|x L IH]; intros D D' Hsub; [done|]. intros [[Hk Hp] Ht].
  split; [split; [done|]; set_solver|]. eapply IH; [|exact Ht]. set_solver.
Qed.

Lemma consensus_divide ps R rank Div fuel g :
  consensus_inv ps R rank Div g → (base.size (comets (view (store g))) ≤ fuel)%nat →
  wp (DivideRounds fuel) g (λ o g', o = Ret tt ∧
    consensus_inv ps R rank (Div ∪ list_to_set (UndeterminedEvents g)) g' ∧
    (∃ m lr, view (store g') = set_rounds m lr (view (store g))) ∧ divided g g').
Proof.
  intros [Hdv Hbl Ht Hc Hst Hsg] Hf. eapply wp_mono; [by apply DivideRounds_spec|].
  intros o g' (-> & m & lr & Hdv' & Hd). split; [done|].
  pose proof (q_view _ _ _ (dv_q _ _ _ _ _ _ Hdv')) as Hv. split; [|split; [eauto|done]].
  assert (UndeterminedEvents g' = UndeterminedEvents g) as Hund
    by (by destruct Hd as (und & t & a & sa & oo & ss & pr & ro & ->)).
  split; rewrite ?Hv, ?Hund; simpl; [done|done| | |done|done].
  - eapply topo_mono; [|exact Ht]. set_solver.
  - intros y Hy. left. destruct (Hc y Hy); set_solver.
Qed.

Lemma topo_known B (D : gset string) L x : topo B D L → x ∈ L → known B x.
Proof.
  revert D. induction L as [|y L IH]; intros D; [by intros _ ?%elem_of_nil|].
  intros [[Hk _] Ht] [->|Hx]%elem_of_cons; [done|by eapply IH].
Qed.

Lemma topo_ready B (D : gset string) L : (∀ x, x ∈ L → ready B D x) → topo B D L.
Proof.
  induction L as [|x L IH]; intros Hall; [done|]. split; [apply Hall; by left|].
  eapply topo_mono; [|apply IH; intros; apply Hall; by right]. set_solver.
Qed.

(** Where there are comets there is a first round. *)
Lemma first_round ps v R rank Div g :
  dividing ps v R rank Div g → (∀ y, known (Body <$> comets v) y → y ∈ Div) → comets v ≠ ∅ → is_Some (rounds v !! 0).
Proof.
  intros Hdv Hall Hne. pose proof (dv_layout _ _ _ _ _ _ Hdv) as Hlay.
  pose proof (g_dag _ _ (q_graph _ _ _ (dv_q _ _ _ _ _ _ Hdv))) as Hd.
  destruct (map_choose _ Hne) as (x & c & Hc).
  assert (known (Body <$> comets v) x) as Hx by (exists (Body c); by apply graph_body). clear c Hc.
  remember (rank x) as k eqn:Hk. revert x Hk Hx. induction k as [k IH] using lt_wf_ind. intros x -> Hx.
  pose proof Hx as [b Hb]. destruct (dag_b_sp _ _ _ _ _ _ Hd Hb) as [_ [Hs|Hs]].
  2:{ pose proof (edge_sp _ _ _ _ _ _ Hd Hb Hs) as He. apply (IH (rank (b_sp b))) with (x := b_sp b); [|done|done].
      by apply (proj1 (lay_rank _ _ _ _ _ _ Hlay)). }
  destruct (dag_b_op _ _ _ _ _ _ Hd Hb) as [_ [Ho|Ho]].
  2:{ pose proof (edge_op _ _ _ _ _ _ Hd Hb Ho) as He. apply (IH (rank (b_op b))) with (x := b_op b); [|done|done].
      by apply (proj1 (lay_rank _ _ _ _ _ _ Hlay)). }
  destruct (lay_complete _ _ _ _ _ _ Hlay x (Hall x Hx)) as (ri & e & Hri & _).
  enough (rnd R x = 0) as Hr by (rewrite Hr in Hri; by eexists).
  destruct (proj2 (lay_rounds _ _ _ _ _ _ Hlay) x b Hb) as (W & inc & _ & Hinc & ->).
  unfold parent_info in *. rewrite Hs, Ho, (dag_ne_empty _ _ _ _ Hd) in *. simpl in *.
  destruct inc; [done|]. exfalso. enough (false = true) by done. apply Hinc. by left.
Qed.

(** A consensus pass returns and keeps the invariant; the comets stay but for their stamps. *)
Lemma consensus_pass_ok ps R rank Div fuel g :
  consensus_inv ps R rank Div g → passable fuel g →
  WP (consensus_pass fuel) ◃ g {{ o g', o = Ret tt ∧
    (∃ D, consensus_inv ps R rank D g' ∧ ∀ y, known (Body <$> comets (view (store g'))) y → y ∈ D) ∧
    plain <$> comets (view (store g')) = plain <$> comets (view (store g)) ∧
    log_of (view (store g')) = log_of (view (store g)) ∧ last_of (view (store g')) = last_of (view (store g)) ∧ next_of (view (store g')) = next_of (view (store g)) ∧
    members (view (store g')) = members (view (store g)) ∧ capacity (view (store g')) = capacity (view (store g)) ∧
    ReverseParticipants g' = ReverseParticipants g ∧ topologicalIndex g' = topologicalIndex g ∧
    (∀ x, x ∈ UndeterminedEvents g' ↔ x ∈ UndeterminedEvents g ∧ waits (view (store g')) x) }}.
Proof.
  intros Hci [Hf Hne Hroom]. unfold consensus_pass. apply wp_bind.
  eapply wp_mono; [by apply (consensus_divide ps R rank Div fuel g)|].
  intros o g1 (-> & Hci1 & (m1 & lr1 & Hv1) & [und1 Hc1]).
  set (D := Div ∪ list_to_set (UndeterminedEvents g)) in *.
  assert (∀ y, known (Body <$> comets (view (store g1))) y → y ∈ D) as Hall.
  { rewrite Hv1. intros y Hy. unfold D. destruct (ci_cover _ _ _ _ _ Hci y Hy); set_solver. }
  assert (UndeterminedEvents g1 = UndeterminedEvents g ∧ ReverseParticipants g1 = ReverseParticipants g ∧
    topologicalIndex g1 = topologicalIndex g) as (Hu1 & Hr1 & Ht1)
    by (by destruct Hc1 as (t & a & sa & oo & ss & pr & ro & ->)).
  destruct Hci1 as [Hdv1 Hbl1 _ _ Hst1 Hsg1]. set (v1 := view (store g1)) in *.
  apply wp_bind. eapply wp_mono; [by apply DecideFame_spec|].
  intros o g2 ((m2 & lr2 & Hdv2 & Hdom2) & (und2 & lcr2 & n2 & Hc2) & _ & Hret).
  assert (o = Ret tt) as -> by (apply Hret; eapply first_round; [done|done|by rewrite Hv1]). clear Hret.
  assert (UndeterminedEvents g2 = UndeterminedEvents g1 ∧ ReverseParticipants g2 = ReverseParticipants g1 ∧
    topologicalIndex g2 = topologicalIndex g1) as (Hu2 & Hr2 & Ht2)
    by (by destruct Hc2 as (t & a & sa & oo & ss & pr & ro & ->)).
  eapply wp_mono; [apply (FindOrder_spec _ _ _ _ _ fuel _ Hdv2)|].
  - done.
  - done.
  - done.
  - done.
  - rewrite Hu2, Hu1. intros x Hx. cbn [comets set_rounds]. rewrite Hv1. cbn [comets set_rounds].
    by eapply topo_known, Hx; apply Hci.
  - rewrite Hv1. done.
  - rewrite Hu2, Hu1, Hv1. done.
  - intros o g3 (-> & Hor & Hdv3 & Hst3 & Hbl3 & Hu3 & Hr3 & Ht3). split; [done|].
    set (v3 := view (store g3)) in *.
    assert (plain <$> comets v3 = plain <$> comets (view (store g))) as Hpl.
    { rewrite (or_plain _ _ Hor). cbn [comets set_rounds]. by rewrite Hv1. }
    assert (∀ y, known (Body <$> comets v3) y → y ∈ D) as Hall3.
    { assert (Body <$> comets v3 = Body <$> comets v1) as ->; [|done].
      apply (restamped_Body v1 (set_comets (comets v3) v1)). split; [|done]. apply Hor. }
    split; [exists D; split; [split|done]|split; [done|]].
    + done.
    + done.
    + apply topo_ready. intros x Hx. eapply divided_ready; [apply Hdv3|]. unfold D.
      rewrite <-Hu1, <-Hu2. apply elem_of_union_r, elem_of_list_to_set. by apply Hu3.
    + intros y Hy. left. by apply Hall3.
    + done.
    + intros x c Hx. assert ((plain <$> comets v3) !! x = Some (plain c)) as Hp by (rewrite lookup_fmap; unfold v3; by rewrite Hx).
      rewrite Hpl, lookup_fmap in Hp. destruct (comets (view (store g)) !! x) as [c0|] eqn:Hc0; [|done].
      injection Hp as _ <- _ _ _. by eapply (ci_signed _ _ _ _ _ Hci).
    + rewrite Hr3, Hr2, Hr1, Ht3, Ht2, Ht1.
      assert (∀ x, x ∈ UndeterminedEvents g3 ↔ x ∈ UndeterminedEvents g ∧ waits v3 x) as Hw
        by (intros x; rewrite Hu3, Hu2, Hu1; done).
      rewrite (or_rest _ _ Hor). cbn. rewrite Hv1. done.
Qed.

Lemma run_inv ps fuel g : run ps fuel g → ∃ R rank Div, consensus_inv ps R rank Div g.
Proof.
  induction 1 as [st ch g inst Hids Hn Hok Hfr Hb|g c sw id sp op _ (R & rank & Div & IH) Hv
    |g q x y _ (R & rank & Div & IH) Hx Hy|g _ (R & rank & Div & IH) Hf|g _ (R & rank & Div & IH) Hp].
  - eexists _, _, _. by eapply consensus_new.
  - destruct (consensus_insert _ _ _ _ _ _ _ sw _ _ _ IH Hv) as (R' & rank' & IH'). eauto.
  - exists R, rank, Div. eapply consensus_asks; [done|]. apply query_asks; [|done|done].
    by eapply ci_graph.
  - destruct (consensus_divide _ _ _ _ _ _ IH Hf) as (_ & IH' & _). eauto.
  - destruct (consensus_pass_ok _ _ _ _ _ _ IH Hp) as (_ & (D & IH' & _) & _). eauto.
Qed.

Lemma run_graph ps fuel g : run ps fuel g → graph_inv ps g.
Proof. intros (R & rank & Div & Hci)%run_inv. by eapply ci_graph. Qed.

(** The round a run computes for a comet whose parents are divided. *)
Lemma run_Round ps fuel g R rank Div x :
  consensus_inv ps R rank Div g → ready (Body <$> comets (view (store g))) Div x →
  (base.size (comets (view (store g))) ≤ fuel)%nat →
  wp (Round_ fuel x) g (λ o g', o = Ret (rnd R x) ∧ view (store g') = view (store g)).
Proof.
  intros [Hdv _ _ _ _ _] Hx Hf. pose proof (dv_layout _ _ _ _ _ _ Hdv) as Hlay.
  eapply wp_mono.
  - apply (Round_spec ps _ R rank Div Hlay g);
      [by eapply dividing_computes|by right|].
    destruct (known_comet _ x (proj1 Hx)) as [c Hc]. unfold enough. rewrite Hc.
    pose proof (proj2 (lay_rank _ _ _ _ _ _ Hlay) x (proj1 Hx)) as Hr.
    rewrite map_size_fmap in Hr. lia.
  - intros o g' [-> Hg']. split; [done|]. apply (q_view _ _ _ (co_q _ _ _ _ _ Hg')).
Qed.
End Machine.
