(* ===== verification/Sample.v ===== *)
(** A small concrete network, to run the model on: two participants, an in-memory store, and
    toy cryptography (the hash of a body is its creator, its index and its timestamp; every
    signature verifies). *)
From S2P Require Import Prelude Lru RollingIndex Bytes Types Caches Store CometGraph Ancestry Insert Queries Graph Rounds Divide Consensus.
Open Scope Z_scope.

#[global] Existing Instances Inmem.Inmem_Store Inmem.inmem_laws.

#[global] Instance sample_order : RangeOrder := listing_order.

#[global] Instance sample_crypto : Crypto := {|
  PrivKey := Z;
  FromECDSAPub k := [k];
  json_body f := inr (Creator_bytes f ++ [Index f; Timestamp f]);
  json_block_body b := inr [bb_Index b];
  SHA256 data := data;
  ecdsa_Sign k hash := inr (k, 1);
  ecdsa_Verify pub hash r s := Ret true
|}.

Definition alice : bytes := [1].
Definition bob : bytes := [2].
Definition sample_ps : gmap string Z := <[hexX alice := 0]> {[ hexX bob := 1 ]}.
Definition sample_store : Inmem.InmemStore := Inmem.NewInmemStore sample_ps 100.
Definition sample_fuel : nat := 50.

Definition sample_comet (who : bytes) (i : Z) (sp op : string) : Comet :=
  set_Signature "1|1" (NewComet None None [sp; op] who i (10 + i)).

(** Bob's second comet has seen Alice's second; Alice's third has seen Bob's second. *)
Definition a0 : Comet := sample_comet alice 0 "" "".
Definition b0 : Comet := sample_comet bob 0 "" "".
Definition a1 : Comet := sample_comet alice 1 (Hex a0) (Hex b0).
Definition b1 : Comet := sample_comet bob 1 (Hex b0) (Hex a1).

Definition sample_new : CometGraph :=
  match (BuildCometGraph sample_ps sample_store (Some []) None).1 with
  | Ret g => g
  | _ => mkCG ∅ ∅ sample_store [] [] None 0 0 0 0 0 0 None (Lru.NewLRU 0 false) (Lru.NewLRU 0 false)
           (Lru.NewLRU 0 false) (Lru.NewLRU 0 false) (Lru.NewLRU 0 false) (Lru.NewLRU 0 false)
  end.

Definition insert_all (cs : list Comet) (g : CometGraph) : CometGraph :=
  fold_left (λ g c, (InsertComet sample_fuel c true g).2) cs g.

Lemma sample_ids : ids_ok sample_ps.
Proof.
  assert (map_Forall (λ _ id, 0 ≤ id < Z.of_nat (base.size sample_ps)) sample_ps) as Hr
    by decided.
  split; [exact Hr|].
  assert (map_Forall (λ p id, map_Forall (λ p' id', id = id' → p = p') sample_ps) sample_ps) as Hi
    by decided.
  intros p p' id Hp Hp'. by apply (Hi p id Hp p' id Hp').
Qed.

Lemma sample_fresh : fresh_content sample_ps (view sample_store).
Proof.
  split; try (vm_compute; reflexivity); [|apply Inmem.inmem_log_new].
  assert (map_Forall (λ p _, store_roots (view sample_store) !! p = Some NewBaseRoot) sample_ps) as Hr.
  { unfold map_Forall. intros p id Hp. cbn. unfold Inmem.base_roots. by rewrite lookup_fmap, Hp. }
  intros p [id Hp]. by apply (Hr p id).
Qed.

Lemma sample_run_new : run sample_ps sample_fuel sample_new.
Proof.
  apply (run_new sample_ps sample_fuel sample_store (Some []) sample_new (Some sample_new)).
  - apply sample_ids.
  - by vm_compute.
  - apply Inmem.inmem_ok_new; [lia|apply sample_ids].
  - apply sample_fresh.
  - by vm_compute.
Qed.

(** Checking that a comet may be inserted. *)
Definition insertable (g : CometGraph) (c : Comet) (id : Z) (sp op : string) : bool :=
  let v := view (store g) in
  bool_decide (comets v !! Hex c = None) &&
  bool_decide (Participants g !! Creator c = Some id) &&
  bool_decide (next_of v !! Creator c = Some (comet_Index c)) &&
  bool_decide (comet_Index c < MaxInt32) &&
  bool_decide (SelfParent c = Ret sp) &&
  bool_decide (last_of v !! Creator c = Some sp) &&
  bool_decide (OtherParent c = Ret op) &&
  bool_decide (op = "" ∨ is_Some (comets v !! op)) &&
  bool_decide (Verify c = Ret true) &&
  bool_decide (Z.of_nat (base.size (comets v)) < capacity v) &&
  bool_decide (map_Forall (λ _ n, n < Z.of_nat sample_fuel) (next_of v)) &&
  bool_decide (comet_BlockSignatures c = []) &&
  bool_decide (RoundReceived c = None).

Lemma insertable_valid g c id sp op :
  insertable g c id sp op = true → valid_insert sample_fuel g c id sp op.
Proof.
  unfold insertable. rewrite !andb_true_iff, !bool_decide_eq_true.
  intros [[[[[[[[[[[[? ?] ?] ?] ?] ?] ?] ?] ?] ?] ?] Hsig] ?].
  split; [by split|done|done|done| |done]. rewrite Hsig. constructor.
Qed.

Lemma sample_run_insert g c id sp op :
  run sample_ps sample_fuel g → insertable g c id sp op = true →
  run sample_ps sample_fuel (InsertComet sample_fuel c true g).2.
Proof. intros Hg Hc. eapply run_insert; [done|]. by apply insertable_valid. Qed.

Definition sample_graph : CometGraph := insert_all [a0; b0; a1] sample_new.
Definition sample_graph4 : CometGraph := insert_all [b1] sample_graph.

Lemma sample_run_graph : run sample_ps sample_fuel sample_graph.
Proof.
  unfold sample_graph, insert_all. cbn [fold_left].
  eapply (sample_run_insert _ _ 0 (Hex a0) (Hex b0)); [|by vm_compute].
  eapply (sample_run_insert _ _ 1 "" ""); [|by vm_compute].
  eapply (sample_run_insert _ _ 0 "" ""); [|by vm_compute].
  apply sample_run_new.
Qed.

Lemma sample_b1_valid : valid_insert sample_fuel sample_graph b1 1 (Hex b0) (Hex a1).
Proof. apply insertable_valid. by vm_compute. Qed.

Lemma sample_run_graph4 : run sample_ps sample_fuel sample_graph4.
Proof. eapply run_insert; [apply sample_run_graph|apply sample_b1_valid]. Qed.

(** ** A longer conversation *)

Fixpoint talk (n : nat) (i : Z) (ha hb : string) : list Comet :=
  match n with
  | O => []
  | S n' => let a := sample_comet alice i ha hb in
            let b := sample_comet bob i hb (Hex a) in
            a :: b :: talk n' (i + 1) (Hex a) (Hex b)
  end.

Definition chat (n : nat) : list Comet := a0 :: b0 :: talk n 1 (Hex a0) (Hex b0).

Definition insertable_as (g : CometGraph) (c : Comet) : bool :=
  insertable g c (default 0 (Participants g !! Creator c)) (parent_name (SelfParent c)) (parent_name (OtherParent c)).

Fixpoint insertable_all (cs : list Comet) (g : CometGraph) : bool :=
  match cs with
  | [] => true
  | c :: cs' => insertable_as g c && insertable_all cs' (InsertComet sample_fuel c true g).2
  end.

Lemma run_insert_all cs g :
  run sample_ps sample_fuel g → insertable_all cs g = true → run sample_ps sample_fuel (insert_all cs g).
Proof.
  revert g. induction cs as [|c cs IH]; intros g Hg; [done|]. cbn [insertable_all]. rewrite andb_true_iff.
  intros [Hc Hcs]. apply IH; [|done]. by eapply sample_run_insert.
Qed.

(** One node has heard five turns; the other seven, and has run the consensus after the sixth. *)
Definition node1 : CometGraph := insert_all (chat 5) sample_new.
Definition node2_early : CometGraph := insert_all (chat 6) sample_new.
Definition node2 : CometGraph := insert_all (drop 14 (chat 7)) (consensus_pass sample_fuel node2_early).2.

Definition passable_now (g : CometGraph) : bool :=
  bool_decide (base.size (comets (view (store g))) ≤ sample_fuel)%nat &&
  bool_decide (comets (view (store g)) ≠ ∅) &&
  bool_decide (Z.of_nat (base.size (blocks (view (store g)))) + len (UndeterminedEvents g) ≤ capacity (view (store g))).

Lemma passable_now_ok g : passable_now g = true → passable sample_fuel g.
Proof. unfold passable_now. rewrite !andb_true_iff, !bool_decide_eq_true. intros [[? ?] ?]. by split. Qed.

Lemma node1_run : run sample_ps sample_fuel node1.
Proof. apply run_insert_all; [apply sample_run_new|]. vm_compute. reflexivity. Qed.

Lemma node1_passable : passable sample_fuel node1.
Proof. apply passable_now_ok. vm_compute. reflexivity. Qed.

Lemma node2_run : run sample_ps sample_fuel node2.
Proof.
  apply run_insert_all; [|vm_compute; reflexivity]. apply run_pass.
  - apply run_insert_all; [apply sample_run_new|]. vm_compute. reflexivity.
  - apply passable_now_ok. vm_compute. reflexivity.
Qed.

Lemma node2_passable : passable sample_fuel node2.
Proof. apply passable_now_ok. vm_compute. reflexivity. Qed.
