(* ===== verification/Correctness.v ===== *)
(** The properties of the comet graph and of its rounds, in every state a run reaches. *)
From S2P Require Import Prelude Lru RollingIndex Bytes Types Caches Store CometGraph Ancestry Insert Queries Graph Rounds Divide Consensus Order Sample.
Open Scope Z_scope.

Section Correctness.
Context `{RangeOrder, Crypto} {S : Type} `{Store S, !StoreLaws S}.
Implicit Types (g : CometGraph (S := S)) (ps : gmap string Z).

(** The bodies a graph's store holds. *)
Definition bodies_of g : gmap string CometBody := Body <$> comets (view (store g)).


(** The coordinates of every stored comet mean what they are read as: entry [id] of its
    last ancestors bounds the events of that participant it descends from, and entry
    [id] of its first descendants bounds those that descend from it. *)
Lemma coordinates_mean_ancestry ps fuel g x c p id :
  run ps fuel g → comets (view (store g)) !! x = Some c → ps !! p = Some id →
  ∃ a d, index (LastAncestors c) id = Ret a ∧ index (FirstDescendants c) id = Ret d ∧
    ∀ y b, bodies_of g !! y = Some b → b_creator b = p →
      (anc (bodies_of g) x y ↔ b_index b ≤ CIndex a) ∧
      (anc (bodies_of g) y x ↔ CIndex d ≤ b_index b).
Proof.
  intros Hr Hc Hp. destruct (run_graph _ _ _ Hr) as [Hq _]. pose proof (q_graph _ _ _ Hq) as Hg.
  pose proof (proj1 (dag_ids _ _ _ _ (g_dag _ _ Hg)) _ _ Hp) as Hid.
  destruct (proj2 (g_la _ _ Hg x c Hc) p id Hp) as (a & Ha & _ & Has).
  destruct (proj2 (g_fd _ _ Hg x c Hc) p id Hp) as (d & Hd & _ & Hds).
  exists a, d. split; [apply coord_index; [lia|done]|]. split; [apply coord_index; [lia|done]|].
  intros y b Hb Hcb. auto.
Qed.

(** C8: [AncestorOf] answers ancestry in the graph, whatever the memo cache holds, and
    [OldestSelfAncestorToSee] the first self-ancestor of [x] that descends from [y], or the empty
    name exactly when none does. *)
Theorem ancestor_of_correct ps fuel g x y :
  run ps fuel g → known (bodies_of g) x → known (bodies_of g) y →
  wp (AncestorOf x y) g (λ o g', ∃ r, o = Ret r ∧ (r = true ↔ anc (bodies_of g) x y) ∧
    view (store g') = view (store g)) ∧
  wp (OldestSelfAncestorToSee x y) g (λ o g', ∃ z, o = Ret z ∧
    (known (bodies_of g) z ∧ oldest_seer (bodies_of g) x y z ∨
     z = "" ∧ ¬ ∃ z', self_anc (bodies_of g) x z' ∧ anc (bodies_of g) z' y) ∧
    view (store g') = view (store g)).
Proof.
  intros Hr Hx Hy. split; eapply wp_mono.
  - eapply (AncestorOf_spec ps (view (store g)) g g x y); [|done|done].
    by eapply asks_start, run_graph.
  - intros o g' (r & -> & (_ & _ & Hans) & Hq & _). exists r. split; [done|]. split; [done|].
    apply (q_view _ _ _ Hq).
  - eapply (OldestSelfAncestorToSee_spec ps (view (store g)) g g x y); [|done|done].
    by eapply asks_start, run_graph.
  - intros o g' (z & -> & (_ & _ & Hans) & Hq & _). exists z. split; [done|]. split; [done|].
    apply (q_view _ _ _ Hq).
Qed.

(** C7: [StronglySee x y] holds exactly when the participants with an event between [x] and
    [y] are more than two thirds of all (at least [2n/3 + 1]). *)
Theorem strongly_see_correct ps fuel g x y :
  run ps fuel g → known (bodies_of g) x → known (bodies_of g) y →
  wp (StronglySee x y) g (λ o g', ∃ (r : bool) (Q : gset string), o = Ret r ∧
    (∀ p, p ∈ Q ↔ is_Some (ps !! p) ∧ between (bodies_of g) x y p) ∧
    (r = true ↔ 2 * Z.of_nat (base.size ps) / 3 + 1 ≤ Z.of_nat (base.size Q)) ∧
    view (store g') = view (store g)).
Proof.
  intros Hr Hx Hy. eapply wp_mono.
  - eapply (StronglySee_spec ps (view (store g)) g g x y); [|done|done].
    by eapply asks_start, run_graph.
  - intros o g' (r & -> & (_ & _ & Q & HQ & Hans) & Hq & _). exists r, Q.
    split; [done|]. split; [done|]. split; [done|]. apply (q_view _ _ _ Hq).
Qed.

(** C2: [DivideRounds] puts every comet in the round the definition of rounds gives it (one
    above its parents' when it strongly sees a quorum of their witnesses), with the
    right witness flag, and nothing else in any round; it returns with fuel for the
    number of comets. *)
Theorem divide_rounds_correct ps fuel g :
  run ps fuel g → (base.size (bodies_of g) ≤ fuel)%nat →
  wp (DivideRounds fuel) g (λ o g', o = Ret tt ∧ bodies_of g' = bodies_of g ∧
    ∃ R, rounds_ok ps (bodies_of g) R ∧
      (∀ x b, bodies_of g !! x = Some b → ∃ ri e,
         rounds (view (store g')) !! rnd R x = Some ri ∧ Events ri !! x = Some e ∧
         (re_Witness e = true ↔ is_witness R x b)) ∧
      (∀ r ri x e, rounds (view (store g')) !! r = Some ri → Events ri !! x = Some e →
         known (bodies_of g) x ∧ rnd R x = r)).
Proof.
  intros (R & rank & Div & Hci)%run_inv Hf. unfold bodies_of in Hf. rewrite map_size_fmap in Hf.
  eapply wp_mono; [by apply (consensus_divide ps R rank Div)|].
  intros o g' (-> & Hci' & (m & lr & Hv) & _). split; [done|].
  assert (bodies_of g' = bodies_of g) as HB by (unfold bodies_of; by rewrite Hv). split; [done|].
  pose proof (dv_layout _ _ _ _ _ _ (ci_dividing _ _ _ _ _ Hci')) as Hlay.
  fold (bodies_of g') in Hlay. rewrite HB in Hlay. exists R. split; [apply Hlay|]. split.
  - intros x b Hb. assert (x ∈ Div ∪ list_to_set (UndeterminedEvents g)) as Hx.
    { destruct (ci_cover _ _ _ _ _ Hci x ltac:(by eexists)); set_solver. }
    destruct (lay_complete _ _ _ _ _ _ Hlay x Hx) as (ri & e & Hri & He).
    destruct (lay_sound _ _ _ _ _ _ Hlay _ _ _ _ Hri He) as (b' & Hb' & _ & _ & Hw).
    assert (b' = b) as -> by congruence. eauto.
  - intros r ri x e Hri He.
    destruct (lay_sound _ _ _ _ _ _ Hlay _ _ _ _ Hri He) as (b' & Hb' & _ & Hr & _).
    split; [by eexists|done].
Qed.

(** Every comet of a divided graph has its round and its witness flag computed. *)
Lemma node_rounds ps fuel g :
  run ps fuel g → (base.size (bodies_of g) ≤ fuel)%nat →
  ∃ R rank next last, rounds_ok ps (bodies_of g) R ∧ ranked (bodies_of g) rank ∧
    dag_ok ps (bodies_of g) next last ∧
    ∀ x b, bodies_of g !! x = Some b →
      (Round_ fuel x (DivideRounds fuel g).2).1 = Ret (rnd R x) ∧
      ∃ w, (Witness fuel x (DivideRounds fuel g).2).1 = Ret w ∧ (w = true ↔ is_witness R x b).
Proof.
  intros (R & rank & Div & Hci)%run_inv Hf. unfold bodies_of in Hf. rewrite map_size_fmap in Hf.
  destruct (consensus_divide ps R rank Div fuel g Hci Hf) as (_ & Hci' & (m & lr & Hv) & _).
  set (g' := (DivideRounds fuel g).2) in *.
  pose proof (ci_dividing _ _ _ _ _ Hci') as Hdv. pose proof (dv_layout _ _ _ _ _ _ Hdv) as Hlay.
  assert (bodies_of g' = bodies_of g) as HB by (unfold bodies_of; by rewrite Hv).
  pose proof (g_dag _ _ (q_graph _ _ _ (dv_q _ _ _ _ _ _ Hdv))) as Hd. fold (bodies_of g') in Hd, Hlay.
  exists R, rank, (next_of (view (store g'))), (last_of (view (store g'))). rewrite <-HB.
  split; [apply Hlay|]. split; [apply Hlay|]. split; [done|]. intros x b Hb.
  assert (x ∈ Div ∪ list_to_set (UndeterminedEvents g)) as Hx.
  { rewrite HB in Hb. destruct (ci_cover _ _ _ _ _ Hci x ltac:(by eexists)); set_solver. }
  pose proof (divided_ready _ _ _ _ _ _ x Hlay Hx) as Hready. fold (bodies_of g') in Hready.
  assert (base.size (comets (view (store g'))) ≤ fuel)%nat as Hf' by (by rewrite Hv).
  split; [by destruct (run_Round ps fuel g' R rank _ x Hci' Hready Hf') as [? _]|].
  destruct (Witness_spec ps _ R rank _ Hlay g' g' fuel x b) as (w & Hw & Hiff & _); eauto.
  - by eapply dividing_computes.
  - pose proof (proj2 (lay_rank _ _ _ _ _ _ Hlay) x (proj1 Hready)) as Hr.
    unfold bodies_of in Hr. rewrite map_size_fmap in Hr. lia.
Qed.




Lemma quorums_intersect ps B x y x' y' :
  strongly ps B x y → strongly ps B x' y' →
  ∃ Q : gset string, Z.of_nat (base.size ps) < 3 * Z.of_nat (base.size Q) ∧
    ∀ p, p ∈ Q → is_Some (ps !! p) ∧ between B x y p ∧ between B x' y' p.
Proof.
  intros (Q1 & HQ1 & Hle1) (Q2 & HQ2 & Hle2). exists (Q1 ∩ Q2). split.
  - assert (Q1 ∪ Q2 ⊆ dom ps) as Hsub.
    { intros p [Hp|Hp]%elem_of_union; [apply HQ1 in Hp as [Hp _]|apply HQ2 in Hp as [Hp _]];
        by apply elem_of_dom. }
    apply subseteq_size in Hsub. rewrite size_dom, size_union_alt in Hsub.
    pose proof (size_difference_alt Q2 Q1) as Hdiff.
    pose proof (subseteq_size (Q2 ∩ Q1) Q2 ltac:(set_solver)).
    replace (Q1 ∩ Q2) with (Q2 ∩ Q1) by set_solver.
    unfold MostPlurality_of in *. pose proof (Z.mul_succ_div_gt (2 * Z.of_nat (base.size ps)) 3 ltac:(lia)).
    lia.
  - intros p [Hp1 Hp2]%elem_of_intersection. apply HQ1 in Hp1. apply HQ2 in Hp2. naive_solver.
Qed.

Lemma StronglySee_strongly ps fuel g x y :
  run ps fuel g → known (bodies_of g) x → known (bodies_of g) y →
  (StronglySee x y g).1 = Ret true → strongly ps (bodies_of g) x y.
Proof.
  intros Hr Hx Hy Hs.
  destruct (StronglySee_spec ps (view (store g)) g g x y (asks_start _ _ (run_graph _ _ _ Hr)) Hx Hy)
    as (r & Hr' & Hans & _).
  apply strong_answer_strongly in Hans. apply Hans. congruence.
Qed.

(** Two quorums always share participants, more than a third of all: whenever [StronglySee]
    says yes to two pairs of comets, the participants with events in between for both are
    more than a third. *)
Lemma strongly_seen_quorums_intersect ps fuel g x y x' y' :
  run ps fuel g → Forall (known (bodies_of g)) [x; y; x'; y'] →
  (StronglySee x y g).1 = Ret true → (StronglySee x' y' g).1 = Ret true →
  ∃ Q : gset string, Z.of_nat (base.size ps) < 3 * Z.of_nat (base.size Q) ∧
    ∀ p, p ∈ Q → is_Some (ps !! p) ∧ between (bodies_of g) x y p ∧ between (bodies_of g) x' y' p.
Proof.
  intros Hr Hk Hs Hs'. rewrite !Forall_cons in Hk. destruct Hk as (Hx & Hy & Hx' & Hy' & _).
  apply quorums_intersect; by eapply StronglySee_strongly.
Qed.
End Correctness.

(** ** Two nodes *)
Section Nodes.
Context {C : Crypto} {O1 O2 : RangeOrder} {S1 S2 : Type} {St1 : Store S1} {St2 : Store S2}
  {L1 : @StoreLaws S1 O1 C St1} {L2 : @StoreLaws S2 O2 C St2}.

(** C3: two nodes that hold different parts of the same history (equal names, equal
    contents), with stores and map orders of their own, give every comet they both know
    the same round and the same witness flag. *)
Theorem nodes_agree_on_rounds ps fuel1 fuel2 (g1 : CometGraph (S := S1)) (g2 : CometGraph (S := S2)) x :
  @run O1 C S1 St1 L1 ps fuel1 g1 → @run O2 C S2 St2 L2 ps fuel2 g2 →
  (base.size (@bodies_of O1 C S1 St1 L1 g1) ≤ fuel1)%nat →
  (base.size (@bodies_of O2 C S2 St2 L2 g2) ≤ fuel2)%nat →
  same_events (@bodies_of O1 C S1 St1 L1 g1) (@bodies_of O2 C S2 St2 L2 g2) →
  known (@bodies_of O1 C S1 St1 L1 g1) x → known (@bodies_of O2 C S2 St2 L2 g2) x →
  let g1' := (DivideRounds fuel1 g1).2 in
  let g2' := (DivideRounds fuel2 g2).2 in
  (∃ r, (Round_ fuel1 x g1').1 = Ret r ∧ (Round_ fuel2 x g2').1 = Ret r) ∧
  (∃ w, (Witness fuel1 x g1').1 = Ret w ∧ (Witness fuel2 x g2').1 = Ret w).
Proof.
  intros Hr1 Hr2 Hf1 Hf2 Hsame [b1 Hb1] [b2 Hb2]. cbn zeta.
  destruct (@node_rounds O1 C S1 St1 L1 ps fuel1 g1 Hr1 Hf1) as (R1 & k1 & n1 & l1 & HR1 & Hk1 & Hd1 & Hx1).
  destruct (@node_rounds O2 C S2 St2 L2 ps fuel2 g2 Hr2 Hf2) as (R2 & k2 & n2 & l2 & HR2 & Hk2 & Hd2 & Hx2).
  destruct (Hx1 x b1 Hb1) as (Hrd1 & w1 & Hw1 & Hi1), (Hx2 x b2 Hb2) as (Hrd2 & w2 & Hw2 & Hi2).
  assert (rnd R1 x = rnd R2 x) as Hr 
    by (apply (rounds_agree ps _ _ _ _ _ _ Hd1 Hd2 Hsame R1 R2 HR1 HR2 k1 Hk1); by eexists).
  assert (is_witness R1 x b1 ↔ is_witness R2 x b2) as Hw
    by exact (witness_agree ps _ _ _ _ _ _ Hd1 Hd2 Hsame R1 R2 HR1 HR2 k1 Hk1 x b1 b2 Hb1 Hb2).
  split; [rewrite Hrd1, Hrd2, Hr; eauto|]. exists w1. split; [done|]. rewrite Hw2. f_equal.
  apply eq_true_iff_eq. by rewrite Hi1, Hi2.
Qed.
End Nodes.

(** ** On a concrete network *)


Lemma ancestor_of_correct_witness :
  (AncestorOf (Hex b1) (Hex a0) sample_graph4).1 = Ret true ∧
  anc (bodies_of sample_graph4) (Hex b1) (Hex a0).
Proof.
  destruct (ancestor_of_correct sample_ps sample_fuel sample_graph4 (Hex b1) (Hex a0)
    sample_run_graph4 ltac:(decided) ltac:(decided)) as [(r & Hr & Hiff & _) _].
  assert (r = true) as -> by (revert Hr; vm_compute; by intros [= <-]).
  split; [exact Hr|by apply Hiff].
Defined.

Lemma strongly_see_correct_witness :
  (StronglySee (Hex b1) (Hex a0) sample_graph4).1 = Ret true ∧
  ∃ Q : gset string, 2 ≤ Z.of_nat (base.size Q) ∧
    ∀ p, p ∈ Q → between (bodies_of sample_graph4) (Hex b1) (Hex a0) p.
Proof.
  destruct (strongly_see_correct sample_ps sample_fuel sample_graph4 (Hex b1) (Hex a0)
    sample_run_graph4 ltac:(decided) ltac:(decided)) as (r & Q & Hr & HQ & Hiff & _).
  assert (r = true) as -> by (revert Hr; vm_compute; by intros [= <-]).
  split; [exact Hr|]. exists Q. split; [by apply Hiff|]. intros p Hp. by apply HQ.
Defined.

Lemma divide_rounds_correct_witness :
  (DivideRounds sample_fuel sample_graph4).1 = Ret tt ∧
  ∃ R, rounds_ok sample_ps (bodies_of sample_graph4) R.
Proof.
  destruct (divide_rounds_correct sample_ps sample_fuel sample_graph4 sample_run_graph4
    ltac:(decided)) as (Ho & _ & R & HR & _).
  split; [exact Ho|]. exists R. exact HR.
Defined.

(** Two nodes: one has seen three comets, the other four. *)
Lemma nodes_agree_on_rounds_witness :
  ∃ r, (Round_ sample_fuel (Hex a1) (DivideRounds sample_fuel sample_graph).2).1 = Ret r ∧
       (Round_ sample_fuel (Hex a1) (DivideRounds sample_fuel sample_graph4).2).1 = Ret r.
Proof.
  assert (same_events (bodies_of sample_graph) (bodies_of sample_graph4)) as Hsame.
  { assert (map_Forall (λ h b, map_Forall (λ h' b', h = h' → fields b = fields b')
      (bodies_of sample_graph4)) (bodies_of sample_graph)) as Hall
      by decided.
    intros h b b' Hb Hb'. by apply (Hall h b Hb h b' Hb'). }
  apply (nodes_agree_on_rounds sample_ps sample_fuel sample_fuel sample_graph sample_graph4 (Hex a1)
    sample_run_graph sample_run_graph4 ltac:(decided)
    ltac:(decided) Hsame ltac:(decided) ltac:(decided)).
Defined.


(** A comet that reuses a height of its creator is accepted, although the comment on [See]
    relies on there being no two events of one creator at the same height. *)
Definition a0_again : Comet :=
  set_Signature "1|1" (NewComet (Some [[7]]) None [Hex a1; ""] alice 0 99).

(** [InsertComet] does not check the index of a comet: a second comet of Alice at height 0,
    on top of her comet of height 1, is accepted, and the store then holds two comets of
    hers at the same height. *)
Lemma insert_accepts_reused_height :
  let r := InsertComet sample_fuel a0_again true sample_graph4 in
  r.1 = Ret tt ∧
  ∃ c c', Hex a0 ≠ Hex a0_again ∧
    comets (view (store r.2)) !! Hex a0 = Some c ∧ comets (view (store r.2)) !! Hex a0_again = Some c' ∧
    Creator c = Creator c' ∧ comet_Index c = comet_Index c'.
Proof.
  split; [vm_compute; reflexivity|]. eexists _, _. split; [by vm_compute|].
  split; [vm_compute; reflexivity|]. split; [vm_compute; reflexivity|]. split; vm_compute; reflexivity.
Qed.

(** Two received comets: the first found is the later in consensus order. *)
Definition received_late : Comet := SetRoundReceived 3 (set_Signature "5|1" (NewComet (Some [[30]; [31]]) None [""; ""] alice 0 10)).
Definition received_early : Comet := SetRoundReceived 2 (set_Signature "7|1" (NewComet (Some [[20]]) None [""; ""] bob 0 11)).

Lemma consensus_order_canonical_witness :
  sort Less [received_late; received_early] = Ret [received_early; received_late] ∧
  sort Less [received_early; received_late] = Ret [received_early; received_late].
Proof.
  destruct (consensus_order_canonical [received_late; received_early] [received_early; received_late])
    as (l & l2 & Hq1 & Hq2 & _ & _ & _ & _ & _ & Huniq).
  - constructor.
  - repeat constructor; decided.
  - destruct Huniq as [-> Huniq].
    { intros a b Ha Hb Hab. rewrite !elem_of_cons, elem_of_nil in Ha, Hb.
      destruct Ha as [->|[->|[]]], Hb as [->|[->|[]]]; try done; by vm_compute in Hab. }
    assert ([received_early; received_late] = l) as <-; [|done].
    apply Huniq; [constructor|]. apply SSorted_cons; [|constructor; [decided|constructor]].
    apply SSorted_cons; constructor.
Defined.

Lemma consensus_comets_become_blocks_witness :
  let g' := (handleNewConsensusEvents [received_early; received_late] sample_new).2 in
  ∃ bs, commitCh g' = Some bs ∧ LastBlockIndex g' = -1 + Z.of_nat (length bs) ∧
    concat (map (λ b, bb_Transactions (b_Body b)) bs) = [[20]; [30]; [31]].
Proof.
  destruct (consensus_comets_become_blocks [received_early; received_late] sample_new)
    as (_ & bs & Hch & Hlast & _ & _ & Hsort & _).
  - apply Inmem.inmem_ok_new; [lia|apply sample_ids].
  - repeat constructor; decided.
  - intros m i Hm. change (Z.of_nat (base.size m) < 100).
    assert (base.size (blocks (view (store sample_new))) = 0%nat) as H0 by (vm_compute; reflexivity).
    rewrite H0 in Hm. simpl in Hm. lia.
  - exists bs. split; [exact Hch|]. split; [exact Hlast|]. apply Hsort.
    apply SSorted_cons; [apply SSorted_cons; constructor|]. constructor; [by vm_compute|constructor].
Defined.
