(* ===== verification/Agreement.v ===== *)
(** What nodes agree on: a consensus pass does what [Fame.v] and [Stamps.v] define, and two nodes
    that hold different parts of one history, while fewer than a third of the participants show
    different histories to them, find the same famous witnesses and the same timestamps. *)
From S2P Require Import Prelude Lru RollingIndex Bytes Types Caches Store CometGraph Ancestry Insert Queries Graph Rounds Fame Divide Order Voting Stamps Received Consensus Sample Correctness.
Open Scope Z_scope.
Open Scope go_scope.

Section Agreement.
Context `{RangeOrder, Crypto} {S : Type} `{Store S, !StoreLaws S}.
Implicit Types (g : CometGraph (S := S)).

Lemma plain_Body v v' : plain <$> comets v' = plain <$> comets v → Body <$> comets v' = Body <$> comets v.
Proof.
  intros Hp. assert (∀ m : gmap string Comet, Body <$> m = Body <$> (plain <$> m)) as Hm.
  { intros m. rewrite <-map_fmap_compose. by apply map_fmap_ext. }
  by rewrite (Hm (comets v')), (Hm (comets v)), Hp.
Qed.

Lemma GetRound_view g i ri :
  store_ok (store g) → (st_GetRound i (store g)).1 = Ret ri → rounds (view (store g)) !! i = Some ri.
Proof.
  intros Hok Hr. destruct (law_GetRound i (store g) Hok) as [Ho _]. rewrite Hr in Ho.
  destruct (rounds _ !! i); simpl in Ho; [congruence|]. by destruct Ho.
Qed.

Lemma GetComet_view g x c :
  store_ok (store g) → (st_GetComet x (store g)).1 = Ret c → comets (view (store g)) !! x = Some c.
Proof.
  intros Hok Hr. destruct (law_GetComet x (store g) Hok) as [Ho _]. rewrite Hr in Ho.
  destruct (comets _ !! x); simpl in Ho; [congruence|]. by destruct Ho.
Qed.

(** C5: a consensus pass returns.  It leaves every comet as it was but for its stamp; whatever fame
    the round tables record has been decided by a quorum of votes; a comet with a round
    received has been seen by more than half of the famous witnesses of that round, and its
    timestamp is the median of the times they first saw it; the undetermined comets are those
    that still wait for a round.  There is a comet, fuel for the comets, and room in the store for a
    block for each comet that waits. *)
Theorem consensus_pass_correct ps fuel g :
  run ps fuel g → passable fuel g →
  WP (consensus_pass fuel) ◃ g {{ o g', o = Ret tt ∧ let v' := view (store g') in
    plain <$> comets v' = plain <$> comets (view (store g)) ∧
    ∃ R, rounds_ok ps (bodies_of g) R ∧
      (∀ i ri x e, rounds v' !! i = Some ri → Events ri !! x = Some e → fame_sound ps (bodies_of g) R x i (re_Famous e)) ∧
      (∀ x c i, comets v' !! x = Some c → RoundReceived c = Some i → stamped ps (bodies_of g) R x i (ConsensusTimestamp c)) ∧
      (∀ x, x ∈ UndeterminedEvents g' ↔ x ∈ UndeterminedEvents g ∧ waits v' x) }}.
Proof.
  intros (R & rank & Div & Hci)%run_inv Hp. eapply wp_mono; [by apply (consensus_pass_ok ps R rank Div)|].
  intros o g' (-> & (D & [Hdv _ _ _ Hst _] & _) & Hpl & _ & _ & _ & _ & _ & _ & _ & Hu). split; [done|]. cbn zeta.
  pose proof (plain_Body _ _ Hpl) as HB. pose proof (dv_layout _ _ _ _ _ _ Hdv) as Hlay. unfold stamps_ok in Hst.
  rewrite HB in Hlay, Hst. split; [done|]. exists R. split; [apply Hlay|]. split; [apply (lay_fame _ _ _ _ _ _ Hlay)|]. done.
Qed.

(** What two nodes are compared by. *)
Lemma pass_tables ps fuel g :
  run ps fuel g → passable fuel g → ∃ R rank D, let g' := (consensus_pass fuel g).2 in
    layout ps (bodies_of g) R rank D (rounds (view (store g'))) ∧ store_ok (store g') ∧
    dag_ok ps (bodies_of g) (next_of (view (store g))) (last_of (view (store g))) ∧
    (∀ y, known (bodies_of g) y → y ∈ D).
Proof.
  intros (R & rank & Div & Hci)%run_inv Hp. exists R, rank.
  destruct (consensus_pass_ok ps R rank Div fuel g Hci Hp) as (_ & (D & [Hdv _ _ _ _ _] & Hall) & Hpl & _).
  exists D. cbn zeta. pose proof (plain_Body _ _ Hpl) as HB. pose proof (dv_layout _ _ _ _ _ _ Hdv) as Hlay.
  rewrite HB in Hlay, Hall. split; [done|]. split; [apply (q_ok _ _ _ (dv_q _ _ _ _ _ _ Hdv))|]. split; [|done].
  apply (g_dag _ _ (q_graph _ _ _ (dv_q _ _ _ _ _ _ (ci_dividing _ _ _ _ _ Hci)))).
Qed.
End Agreement.

Section Nodes.
Context {C : Crypto} {O1 O2 : RangeOrder} {S1 S2 : Type} {St1 : Store S1} {St2 : Store S2}
  {L1 : @StoreLaws S1 O1 C St1} {L2 : @StoreLaws S2 O2 C St2}.
Abbreviation bodies1 := (@bodies_of O1 C S1 St1 L1).
Abbreviation bodies2 := (@bodies_of O2 C S2 St2 L2).
Abbreviation pass1 fuel g := (@consensus_pass O1 C S1 St1 fuel g).2.
Abbreviation pass2 fuel g := (@consensus_pass O2 C S2 St2 fuel g).2.

Lemma round_nonneg ps B R rank next last D rds i ri :
  layout ps B R rank D rds → dag_ok ps B next last → rds !! i = Some ri → 0 ≤ i.
Proof.
  intros Hl Hd Hr. destruct (lay_nonempty _ _ _ _ _ _ Hl i ri Hr) as (x & e & He).
  destruct (lay_sound _ _ _ _ _ _ Hl _ _ _ _ Hr He) as (b & Hb & _ & <- & _).
  eapply (rnd_nonneg ps B R rank next last); eauto using lay_rank, lay_rounds. by eexists.
Qed.

Lemma famous_agree ps B1 B2 R1 R2 k1 k2 n1 n2 l1 l2 D1 D2 rds1 rds2 i ri1 ri2 x e1 e2 :
  layout ps B1 R1 k1 D1 rds1 → layout ps B2 R2 k2 D2 rds2 → dag_ok ps B1 n1 l1 → dag_ok ps B2 n2 l2 →
  same_events B1 B2 → no_forks ps B1 R1 B2 R2 → rds1 !! i = Some ri1 → rds2 !! i = Some ri2 →
  Events ri1 !! x = Some e1 → Events ri2 !! x = Some e2 → re_Famous e1 ≠ Undefined → re_Famous e2 ≠ Undefined →
  re_Famous e1 = re_Famous e2.
Proof.
  intros Hl1 Hl2 Hd1 Hd2 Hs Hf Hr1 Hr2 He1 He2 Hu1 Hu2.
  pose proof (lay_fame _ _ _ _ _ _ Hl1 _ _ _ _ Hr1 He1) as Hf1. pose proof (lay_fame _ _ _ _ _ _ Hl2 _ _ _ _ Hr2 He2) as Hf2.
  assert (0 ≤ i) as Hi by (by eapply (round_nonneg ps B1 R1)).
  assert (∀ f1 f2, decided ps B1 R1 x i f1 → decided ps B2 R2 x i f2 → f1 = f2) as Hag.
  { intros f1 f2. eapply (fame_agree ps B1 B2); eauto using lay_rank, lay_rounds, lay_n. }
  destruct (re_Famous e1), (re_Famous e2); try done; by pose proof (Hag _ _ Hf1 Hf2).
Qed.

(** C4: two nodes never differ on fame, provided that equal names mean equal contents, and that
    fewer than a third of the participants show the nodes different comets at one height.  After a
    consensus pass of each, a witness that both have decided is famous at both or at neither; and
    a round that both have decided, with a famous witness at each, has the same famous witnesses at
    both, even when a witness of it has reached only one of them. *)
Theorem nodes_agree_on_fame ps fuel1 fuel2 honest (g1 : CometGraph (S := S1)) (g2 : CometGraph (S := S2)) i ri1 ri2 :
  @run O1 C S1 St1 L1 ps fuel1 g1 → @run O2 C S2 St2 L2 ps fuel2 g2 →
  @passable O1 C S1 St1 L1 fuel1 g1 → @passable O2 C S2 St2 L2 fuel2 g2 →
  same_events (bodies1 g1) (bodies2 g2) → honest_majority ps (bodies1 g1) (bodies2 g2) honest →
  (st_GetRound i (store (pass1 fuel1 g1))).1 = Ret ri1 → (st_GetRound i (store (pass2 fuel2 g2))).1 = Ret ri2 →
  (∀ x e1 e2, Events ri1 !! x = Some e1 → Events ri2 !! x = Some e2 →
     re_Famous e1 ≠ Undefined → re_Famous e2 ≠ Undefined → re_Famous e1 = re_Famous e2) ∧
  (@WitnessesDecided O1 ri1 = true → @WitnessesDecided O2 ri2 = true →
   @FamousWitnesses O1 ri1 ≠ [] → @FamousWitnesses O2 ri2 ≠ [] → @FamousWitnesses O1 ri1 ≡ₚ @FamousWitnesses O2 ri2).
Proof.
  intros Hr1 Hr2 Hp1 Hp2 Hs Hh Hg1 Hg2.
  destruct (@pass_tables O1 C S1 St1 L1 ps fuel1 g1 Hr1 Hp1) as (R1 & k1 & D1 & Hl1 & Hok1 & Hd1 & Hall1).
  destruct (@pass_tables O2 C S2 St2 L2 ps fuel2 g2 Hr2 Hp2) as (R2 & k2 & D2 & Hl2 & Hok2 & Hd2 & Hall2).
  apply (@GetRound_view O1 C S1 St1 L1) in Hg1; [|done]. apply (@GetRound_view O2 C S2 St2 L2) in Hg2; [|done].
  assert (no_forks ps (bodies1 g1) R1 (bodies2 g2) R2) as Hf.
  { eapply (no_forks_honest ps (bodies1 g1) (bodies2 g2)); eauto using lay_rank, lay_rounds. }
  split; [intros x e1 e2; exact (famous_agree ps _ _ _ _ _ _ _ _ _ _ _ _ _ _ i ri1 ri2 x e1 e2 Hl1 Hl2 Hd1 Hd2 Hs Hf Hg1 Hg2)|]. intros Hw1 Hw2 Hne1 Hne2.
  pose proof (election_table _ _ _ _ _ _ Hl1 Hall1 i ri1 Hg1 Hw1 Hne1) as He1.
  pose proof (election_table _ _ _ _ _ _ Hl2 Hall2 i ri2 Hg2 Hw2 Hne2) as He2.
  apply NoDup_Permutation; [apply NoDup_FamousWitnesses..|]. intros w.
  rewrite <-!(elem_of_list_to_set (C := gset string)).
  assert (0 ≤ i) as Hi by (by eapply (round_nonneg ps _ R1)).
  assert (list_to_set (@FamousWitnesses O1 ri1) = (list_to_set (@FamousWitnesses O2 ri2) : gset string)) as ->; [|done].
  apply (anti_symm (⊆)); [eapply (election_sub ps (bodies1 g1) (bodies2 g2))|eapply (election_sub ps (bodies2 g2) (bodies1 g1))];
    eauto using lay_rank, lay_rounds, lay_n, same_events_sym, no_forks_sym.
Qed.

(** C6: two nodes hold parts of one history in which equal names mean equal contents, and fewer than
    a third of the participants show them different comets at one height.  Then a comet that both
    have received in the same round has the same consensus timestamp at both, whenever each of
    them ran its passes and whichever other comets of the history it holds. *)
Theorem nodes_agree_on_timestamps ps fuel1 fuel2 honest (g1 : CometGraph (S := S1)) (g2 : CometGraph (S := S2)) x c1 c2 i :
  @run O1 C S1 St1 L1 ps fuel1 g1 → @run O2 C S2 St2 L2 ps fuel2 g2 →
  same_events (bodies1 g1) (bodies2 g2) → honest_majority ps (bodies1 g1) (bodies2 g2) honest →
  (st_GetComet x (store g1)).1 = Ret c1 → (st_GetComet x (store g2)).1 = Ret c2 →
  RoundReceived c1 = Some i → RoundReceived c2 = Some i → ConsensusTimestamp c1 = ConsensusTimestamp c2.
Proof.
  intros Hr1 Hr2 Hs Hh Hc1 Hc2 Hi1 Hi2.
  destruct (@run_inv O1 C S1 St1 L1 ps fuel1 g1 Hr1) as (R1 & k1 & D1 & [Hdv1 _ _ _ Hst1 _]).
  destruct (@run_inv O2 C S2 St2 L2 ps fuel2 g2 Hr2) as (R2 & k2 & D2 & [Hdv2 _ _ _ Hst2 _]).
  pose proof (dv_layout _ _ _ _ _ _ Hdv1) as Hl1. pose proof (dv_layout _ _ _ _ _ _ Hdv2) as Hl2.
  pose proof (g_dag _ _ (q_graph _ _ _ (dv_q _ _ _ _ _ _ Hdv1))) as Hd1.
  pose proof (g_dag _ _ (q_graph _ _ _ (dv_q _ _ _ _ _ _ Hdv2))) as Hd2.
  apply (@GetComet_view O1 C S1 St1 L1) in Hc1; [|apply (q_ok _ _ _ (dv_q _ _ _ _ _ _ Hdv1))].
  apply (@GetComet_view O2 C S2 St2 L2) in Hc2; [|apply (q_ok _ _ _ (dv_q _ _ _ _ _ _ Hdv2))].
  eapply (stamped_agree ps (bodies1 g1) (bodies2 g2) R1 R2 k1 k2); eauto using lay_rank, lay_rounds, lay_n.
  eapply (no_forks_honest ps (bodies1 g1) (bodies2 g2)); eauto using lay_rank, lay_rounds.
Qed.
End Nodes.

(** ** On a concrete network *)

Lemma node_events : same_events (bodies_of node1) (bodies_of node2).
Proof.
  assert (map_Forall (λ h b, map_Forall (λ h' b', h = h' → fields b = fields b') (bodies_of node2)) (bodies_of node1)) as Hall
    by decided.
  intros h b b' Hb Hb'. by apply (Hall h b Hb h b' Hb').
Qed.

Lemma node_honest : honest_majority sample_ps (bodies_of node1) (bodies_of node2) (dom sample_ps).
Proof.
  split; [by vm_compute|].
  assert (map_Forall (λ h b, map_Forall (λ h' b', b_creator b = b_creator b' → b_index b = b_index b' → h = h') (bodies_of node2)) (bodies_of node1)) as Hall
    by decided.
  intros h1 b1 h2 b2 Hb1 Hb2 Hc Hi _. by apply (Hall h1 b1 Hb1 h2 b2 Hb2).
Qed.

Lemma consensus_pass_correct_witness :
  (consensus_pass sample_fuel node1).1 = Ret tt ∧
  ∃ R c, comets (view (store (consensus_pass sample_fuel node1).2)) !! Hex a0 = Some c ∧
    stamped sample_ps (bodies_of node1) R (Hex a0) 1 (ConsensusTimestamp c).
Proof.
  destruct (consensus_pass_correct sample_ps sample_fuel node1 node1_run node1_passable) as (Ho & _ & R & _ & _ & Hst & _).
  split; [exact Ho|]. exists R.
  destruct (comets (view (store (consensus_pass sample_fuel node1).2)) !! Hex a0) as [c|] eqn:Hc.
  - exists c. split; [reflexivity|]. apply (Hst _ _ _ Hc). revert Hc. vm_compute. intros [= <-]. reflexivity.
  - exfalso. revert Hc. vm_compute. discriminate.
Defined.

(** The table of round 1 at each node, after a pass. *)
Definition round_of (i : Z) (g : CometGraph) : RoundInfo :=
  match (st_GetRound i (store g)).1 with Ret ri => ri | _ => NewRoundInfo end.

Lemma node1_round : (st_GetRound 1 (store (consensus_pass sample_fuel node1).2)).1 = Ret (round_of 1 (consensus_pass sample_fuel node1).2).
Proof. vm_compute. reflexivity. Qed.

Lemma node2_round : (st_GetRound 1 (store (consensus_pass sample_fuel node2).2)).1 = Ret (round_of 1 (consensus_pass sample_fuel node2).2).
Proof. vm_compute. reflexivity. Qed.

Lemma node1_decided :
  WitnessesDecided (round_of 1 (consensus_pass sample_fuel node1).2) = true ∧ FamousWitnesses (round_of 1 (consensus_pass sample_fuel node1).2) ≠ [].
Proof. split; vm_compute; [reflexivity|discriminate]. Qed.

Lemma node2_decided :
  WitnessesDecided (round_of 1 (consensus_pass sample_fuel node2).2) = true ∧ FamousWitnesses (round_of 1 (consensus_pass sample_fuel node2).2) ≠ [].
Proof. split; vm_compute; [reflexivity|discriminate]. Qed.

Lemma nodes_agree_on_fame_witness :
  FamousWitnesses (round_of 1 (consensus_pass sample_fuel node1).2) ≡ₚ
  FamousWitnesses (round_of 1 (consensus_pass sample_fuel node2).2).
Proof.
  exact (proj2 (nodes_agree_on_fame sample_ps sample_fuel sample_fuel (dom sample_ps) node1 node2 1 _ _
    node1_run node2_run node1_passable node2_passable node_events node_honest node1_round node2_round)
    (proj1 node1_decided) (proj1 node2_decided) (proj2 node1_decided) (proj2 node2_decided)).
Defined.

(** The first comet, as each node holds it. *)
Definition comet_of (x : string) (g : CometGraph) : Comet :=
  match (st_GetComet x (store g)).1 with Ret c => c | _ => zero_Comet end.

Definition node1_passed : CometGraph := (consensus_pass sample_fuel node1).2.

Lemma node1_passed_run : run sample_ps sample_fuel node1_passed.
Proof. apply run_pass; [apply node1_run|apply node1_passable]. Qed.

Lemma node1_passed_bodies : bodies_of node1_passed = bodies_of node1.
Proof. vm_compute. reflexivity. Qed.

Lemma passed_events : same_events (bodies_of node1_passed) (bodies_of node2).
Proof. rewrite node1_passed_bodies. apply node_events. Qed.

Lemma passed_honest : honest_majority sample_ps (bodies_of node1_passed) (bodies_of node2) (dom sample_ps).
Proof. rewrite node1_passed_bodies. apply node_honest. Qed.

Lemma node1_comet : (st_GetComet (Hex a0) (store node1_passed)).1 = Ret (comet_of (Hex a0) node1_passed) ∧
  RoundReceived (comet_of (Hex a0) node1_passed) = Some 1.
Proof. split; vm_compute; reflexivity. Qed.

Lemma node2_comet : (st_GetComet (Hex a0) (store node2)).1 = Ret (comet_of (Hex a0) node2) ∧
  RoundReceived (comet_of (Hex a0) node2) = Some 1.
Proof. split; vm_compute; reflexivity. Qed.

Lemma nodes_agree_on_timestamps_witness :
  ConsensusTimestamp (comet_of (Hex a0) node1_passed) = ConsensusTimestamp (comet_of (Hex a0) node2).
Proof.
  exact (nodes_agree_on_timestamps sample_ps sample_fuel sample_fuel (dom sample_ps) node1_passed node2 (Hex a0) _ _ 1
    node1_passed_run node2_run passed_events passed_honest (proj1 node1_comet) (proj1 node2_comet) (proj2 node1_comet) (proj2 node2_comet)).
Defined.
