(* ===== verification/Wire.v ===== *)
(** The wire form of a comet: parents as (creator, index) pairs.  What [ToWire] writes,
    [ReadWireInfo] of another node reads back. *)
From S2P Require Import Prelude Lru Bytes Types Caches Store CometGraph Ancestry Insert Queries Graph Rounds Divide Consensus Sample.
Open Scope Z_scope.

Lemma reverse_participants_lookup `{RangeOrder} ps p i :
  ids_ok ps → ps !! p = Some i → reverse_participants ps !! i = Some p.
Proof.
  intros [_ Hinj] Hp. unfold reverse_participants.
  assert ((p, i) ∈ range ps) as Hin by (by apply elem_of_range).
  assert (∀ p', (p', i) ∈ range ps → p' = p) as Huniq.
  { intros p' Hp'%elem_of_range. by apply (Hinj p' p i). }
  assert (∀ l (m : gmap Z string), (∀ p', (p', i) ∈ l → p' = p) →
    ((p, i) ∈ l ∨ m !! i = Some p) → foldl (λ m '(pk, id), <[id := pk]> m) m l !! i = Some p) as Hfold.
  { clear Hin Huniq. induction l as [|[p' i'] l IH]; intros m Hu Hor; simpl.
    - by destruct Hor as [?%elem_of_nil|?].
    - apply IH; [intros; apply Hu; by right|].
      destruct (decide (i' = i)) as [->|Hne].
      + right. rewrite lookup_insert_eq. f_equal. apply Hu. by left.
      + rewrite lookup_insert_ne by done.
        destruct Hor as [[[= <- <-]|?]%elem_of_cons|?]; [done|by left|by right]. }
  apply Hfold; [done|by left].
Qed.

Section Wire.
Context `{RangeOrder, Crypto} {S : Type} `{Store S, !StoreLaws S}.
Implicit Types (g : CometGraph (S := S)) (v : content) (ps : gmap string Z).

Lemma wp_ParticipantEvent g p i h (Q : outcome string → CometGraph → Prop) :
  store_ok (store g) → log_of (view (store g)) p i = Some h →
  (∀ g', at_store g (view (store g)) g' → Q (Ret h) g') →
  wp (stm (st_ParticipantEvent p i)) g Q.
Proof.
  intros Hok Hl HQ. apply wp_zoom. eapply wp_mono; [by apply law_ParticipantEvent|].
  intros o t (-> & Ht & Hv). apply HQ. eapply at_store_upd; [by apply at_store_refl|done|done].
Qed.

(** The receiver's log holds the parents of the comet. *)
Record holds_parents v v2 (c : Comet) (sp op : string) : Prop := {
  hp_self : comet_Index c ≠ 0 → log_of v2 (Creator c) (comet_Index c - 1) = Some sp;
  hp_other : ∀ oc, comets v !! op = Some oc → log_of v2 (Creator oc) (comet_Index oc) = Some op
}.

(** A comet read from the wire is the comet that was written: a node that holds its parents
    rebuilds the same body, signature and name, so the signature verifies there too. *)
Lemma wire_round_trip ps v c id sp op g2 :
  graph_ok ps v → extends ps v c id sp op →
  Parents (fields (Body c)) = [sp; op] → is_bytes (Creator_bytes (fields (Body c))) →
  (∀ l, BlockSignatures (fields (Body c)) = Some l →
     Forall (λ bs, bs_Validator bs = Creator_bytes (fields (Body c))) l) →
  store_ok (store g2) → ReverseParticipants g2 = reverse_participants ps →
  holds_parents v (view (store g2)) c sp op →
  wp (ReadWireInfo (ToWire (wired ps v op id c))) g2 (λ o g', ∃ c', o = Ret c' ∧
    Body c' = Body (wired ps v op id c) ∧ Signature c' = Signature c ∧ Hex c' = Hex c ∧
    Verify c' = Verify c ∧ view (store g') = view (store g2)).
Proof.
  intros Hg Hx Hpar Hbytes Hsigs Hok Hrev [Hself Hother].
  pose proof (g_dag _ _ Hg) as Hd. pose proof (dag_ids _ _ _ _ Hd) as Hids.
  destruct (decode_hexX (Creator_bytes (fields (Body c))) Hbytes) as [Hstr Hdec].
  unfold ReadWireInfo. apply wp_gets_bind. rewrite Hrev.
  cbn [w_Body ToWire wired comet_SetWireInfo Body w_CreatorID creatorID].
  rewrite (reverse_participants_lookup ps (Creator c) id Hids (ex_creator _ _ _ _ _ _ Hx)). cbn [default].
  eapply wp_lift_bind; [exact Hstr|]. rewrite Hdec.
  cbn [w_SelfParentIndex selfParentIndex w_OtherParentIndex otherParentIndex w_OtherParentCreatorID
       otherParentCreatorID w_Transactions w_Timestamp w_Index w_Signature fields Signature].
  apply wp_bind. eapply (wp_mono _ _ (λ o g', o = Ret sp ∧ at_store g2 (view (store g2)) g')).
  { pose proof (dag_next_range _ _ _ _ Hd _ _ (ex_next _ _ _ _ _ _ Hx)) as Hrange.
    case_bool_decide as Hi.
    - eapply wp_ParticipantEvent; [done|apply Hself; lia|]. done.
    - apply wp_ret. split; [|by apply at_store_refl].
      destruct (dag_last _ _ _ _ Hd _ _ _ (ex_next _ _ _ _ _ _ Hx) (ex_last _ _ _ _ _ _ Hx))
        as [[_ ->]|(b & Hb & _ & Hib)]; [done|].
      pose proof (dag_index_lt_max _ _ _ _ _ _ Hd Hb). lia. }
  intros o g3 [-> (t & -> & Ht & Hv)].
  apply wp_bind. eapply (wp_mono _ _ (λ o g', o = Ret op ∧ view (store g') = view (store g2))).
  { unfold wire_of. destruct (comets v !! op) as [oc|] eqn:Hoc; cbn [fst snd].
    - pose proof (graph_body v op oc Hoc) as Hbo.
      pose proof (dag_index_lt_max _ _ _ _ _ _ Hd Hbo) as Hio.
      destruct (dag_creator _ _ _ _ _ _ Hd Hbo) as [io Hio'].
      change (b_creator (Body oc)) with (Creator oc) in Hio'. rewrite Hio'. cbn [default].
      rewrite bool_decide_eq_true_2 by (unfold comet_Index, b_index in *; lia).
      rewrite (reverse_participants_lookup ps (Creator oc) io Hids Hio'). cbn [default].
      eapply wp_ParticipantEvent; [done|cbn [store upd_store]; rewrite Hv; by apply Hother|].
      cbn [store upd_store]. rewrite Hv. intros g4 (t' & -> & _ & Hv'). by split.
    - rewrite bool_decide_eq_false_2 by lia. apply wp_ret. split; [|exact Hv].
      destruct (ex_known _ _ _ _ _ _ Hx) as [->|[oc' ?]]; [done|congruence]. }
  intros o g4 [-> Hv4]. apply wp_ret. eexists. split; [done|].
  assert (we_BlockSignatures (Creator_bytes (fields (Body c))) (ToWire (wired ps v op id c)) =
          BlockSignatures (fields (Body c))) as Hbs.
  { unfold we_BlockSignatures. cbn. unfold WireBlockSignatures.
    cbn [fields Body wired comet_SetWireInfo].
    destruct (BlockSignatures (fields (Body c))) as [l|]; [|done]. simpl. f_equal.
    rewrite map_map. specialize (Hsigs l eq_refl). induction l as [|bs l IH]; [done|].
    apply Forall_cons in Hsigs as [Hv0 Hsigs]. cbn [map]. rewrite IH by done. f_equal.
    destruct bs. simpl in *. by subst. }
  assert (mkBodyFields (Transactions (fields (Body c))) [sp; op] (Creator_bytes (fields (Body c)))
    (Timestamp (fields (Body c))) (Index (fields (Body c))) (BlockSignatures (fields (Body c)))
    = fields (Body c)) as Hf by (rewrite <-Hpar; by destruct (fields (Body c))).
  cbn [Body Signature]. rewrite Hbs, Hf. split; [done|]. split; [done|].
  split; [unfold Hex, body_Hash; done|]. split; [unfold Verify, body_Hash; done|done].
Qed.
End Wire.
