(* ===== verification/Core.v ===== *)
(** [core/core.go]: the gossip core of a node, around its comet graph.  It makes the comets of the
    node, hands out what another node does not know, and takes in what another node sends. *)
From S2P Require Import Prelude Lru Bytes Types Caches Store CometGraph.
Open Scope Z_scope.

Section Core.
Context `{RangeOrder, Crypto} {S : Type} `{Store S} (fuel : nat).
Abbreviation Graph := (CometGraph (S := S)).

(** [pubKey] and [hexID] only cache the functions they are named after. *)
Record Core := mkCore {
  c_id : Z;
  c_key : PrivKey;
  cg : Graph;
  c_participants : gmap string Z;
  c_reverseParticipants : gmap Z string;
  Head : string;
  Seq : Z;
  transactionPool : list bytes;
  blockSignaturePool : list BlockSignature
}.
Abbreviation C := (M Core).

Definition upd_cg (g : Graph) (c : Core) : Core :=
  mkCore (c_id c) (c_key c) g (c_participants c) (c_reverseParticipants c) (Head c) (Seq c) (transactionPool c) (blockSignaturePool c).
Definition set_head (h : string) (i : Z) (c : Core) : Core :=
  mkCore (c_id c) (c_key c) (cg c) (c_participants c) (c_reverseParticipants c) h i (transactionPool c) (blockSignaturePool c).
Definition set_pools (txs : list bytes) (sigs : list BlockSignature) (c : Core) : Core :=
  mkCore (c_id c) (c_key c) (cg c) (c_participants c) (c_reverseParticipants c) (Head c) (Seq c) txs sigs.

(** Calls on the graph and on its store. *)
Definition on_cg {A} (m : M Graph A) : C A := zoom cg upd_cg m.
Definition on_store {A} (m : M S A) : C A := on_cg (stm m).

(** The argument of the last kind is the package variable of [BuildCometGraph]. *)
Definition NewCore (id : Z) (key : PrivKey) (ps : gmap string Z) (st : S) (ch : option (list Block)) : M (option Graph) Core :=
  g ← BuildCometGraph ps st ch;
  mret (mkCore id key g ps (reverse_participants ps) "" 0 [] []).

Definition PubKey (c : Core) : bytes := FromECDSAPub (c_key c).
Definition HexID (c : Core) : string := hexX (PubKey c).

(** ** Inserting comets *)
Definition InsertEvent (event : Comet) (setWireInfo : bool) : C unit :=
  on_cg (InsertComet fuel event setWireInfo) ;;
  modify (λ c, if bool_decide (Creator event = HexID c) then set_head (Hex event) (comet_Index event) c else c).

Definition SignAndInsertSelfEvent (event : Comet) : C unit :=
  c ← get;
  signed ← lift (Sign (c_key c) event);
  InsertEvent signed true.

(** The first comet of a node has the zero time, so that a node that starts again makes the same. *)
Definition Init : C unit :=
  c ← get;
  SignAndInsertSelfEvent (NewComet None None [""; ""] (PubKey c) (Seq c) zero_time).

Definition GetComet (hash : string) : C Comet := on_store (st_GetComet hash).

(** The head of the root is read only when there was an error. *)
Definition Bootstrap (db : option (M S (list Comet))) : C unit :=
  on_cg (CometGraph.Bootstrap fuel db) ;;
  c ← get;
  last ← on_store (st_LastEventFrom (HexID c));
  head ← (if last.2 : bool then
            root ← try (on_store (st_GetRoot (HexID c)));
            mret match root with inl _ => (X zero_Root, root_Index zero_Root) | inr _ => ("", 0) end
          else
            lastEvent ← GetComet last.1;
            mret (last.1, comet_Index lastEvent));
  modify (set_head head.1 head.2).

Definition KnownEvents : C (gmap Z Z) := on_store st_KnownEvents.

Definition SignBlock (block : Block) : C BlockSignature :=
  c ← get;
  sig ← lift (block_Sign (c_key c) block);
  on_store (st_SetBlock (SetSignature sig block)) ;;
  mret sig.

(** ** What another node does not know *)

(** An entry that is missing reads as 0. *)
Definition unknown_total (mine known : gmap Z Z) : Z :=
  foldl (λ tot '(i, li), let k := default 0 (known !! i) in if bool_decide (k < li) then tot + (li - k) else tot) 0 (range mine).

Definition OverSyncLimit (knownEvents : gmap Z Z) (syncLimit : Z) : C bool :=
  mine ← KnownEvents;
  mret (bool_decide (syncLimit < unknown_total mine knownEvents)).

Definition participant_diff (unknown : list Comet) (kv : Z * Z) : C (list Comet) :=
  c ← get;
  let pk := default "" (c_reverseParticipants c !! kv.1) in
  participantEvents ← on_store (st_ParticipantEvents pk kv.2);
  foldM (λ l e, ev ← on_store (st_GetComet e); mret (l ++ [ev])) unknown participantEvents.

Definition EventDiff (known : gmap Z Z) : C (list Comet) :=
  unknown ← foldM participant_diff [] (range known);
  lift (sort (λ a b, Ret (ByTopologicalOrder_Less a b)) unknown).

Definition Core_ToWire (events : list Comet) : list WireEvent := map ToWire events.

Definition FromWire (wireEvents : list WireEvent) : C (list Comet) :=
  foldM (λ l w, ev ← on_cg (ReadWireInfo w); mret (l ++ [ev])) [] wireEvents.

(** ** What another node sends *)

(** The answer is the name of the last one, or the empty name. *)
Fixpoint sync_events (wes : list WireEvent) : C string :=
  match wes with
  | [] => mret ""
  | we :: rest =>
      ev ← on_cg (ReadWireInfo we);
      InsertEvent ev false ;;
      match rest with [] => mret (Hex ev) | _ => sync_events rest end
  end.

Definition new_head (otherHead : string) (now : Z) (c : Core) : Comet :=
  NewComet (Some (transactionPool c)) (Some (blockSignaturePool c)) [Head c; otherHead] (PubKey c) (Seq c + 1) now.

Definition Sync (unknownEvents : list WireEvent) (now : Z) : C unit :=
  otherHead ← sync_events unknownEvents;
  c ← get;
  if bool_decide (unknownEvents ≠ [] ∨ transactionPool c ≠ [] ∨ blockSignaturePool c ≠ []) then
    wrap "Error inserting new head" (SignAndInsertSelfEvent (new_head otherHead now c)) ;;
    modify (set_pools [] [])
  else mret tt.

Definition AddSelfEvent (now : Z) : C unit :=
  c ← get;
  if bool_decide (transactionPool c = [] ∧ blockSignaturePool c = []) then mret tt
  else
    wrap "Error inserting new head" (SignAndInsertSelfEvent (new_head "" now c)) ;;
    modify (set_pools [] []).

Definition RunConsensus : C unit :=
  on_cg (DivideRounds fuel) ;;
  on_cg DecideFame ;;
  on_cg (FindOrder fuel).

Definition AddTransactions (txs : list bytes) : C unit :=
  modify (λ c, set_pools (transactionPool c ++ txs) (blockSignaturePool c) c).
Definition AddBlockSignature (bs : BlockSignature) : C unit :=
  modify (λ c, set_pools (transactionPool c) (blockSignaturePool c ++ [bs]) c).

(** ** Reading *)
Definition GetHead : C Comet := c ← get; GetComet (Head c).

Definition GetCometTransactions (hash : string) : C (list bytes) :=
  ex ← GetComet hash;
  mret (comet_Transactions ex).

Definition GetConsensusEvents (c : Core) : list string := st_ConsensusEvents (store (cg c)).

Definition GetConsensusTransactions : C (list bytes) :=
  c ← get;
  foldM (λ txs e,
    r ← try (GetCometTransactions e);
    match r with inl _ => fail (Errorf ("Consensus event not found: " +:+ e)) | inr eTxs => mret (txs ++ eTxs) end)
    [] (GetConsensusEvents c).

Definition NeedGossip (c : Core) : bool :=
  bool_decide (0 < PendingLoadedEvents (cg c)) || bool_decide (0 < len (transactionPool c)) || bool_decide (0 < len (blockSignaturePool c)).
End Core.
