(* ===== verification/Node.v ===== *)
(** [core/node.go] with [core/node_state.go], [core/sequentia/peer_selector.go],
    [common/timer/control_timer.go] and the messages of [network/transport.go]: a node around its
    gossip core.  A handler is one run of the code under it without the other goroutines of the
    node; the stretches between [coreLock.Lock] and [coreLock.Unlock] are single calls of [on_core].
    The logs and the statistics are left out. *)
From S2P Require Import Prelude Lru Bytes Types Caches Store CometGraph Core.
Open Scope Z_scope.

(** ** [core/node_state.go] *)
Inductive NodeState := Booting | CatchingUp | Shutdown.

#[export] Instance NodeState_eq_dec : EqDecision NodeState.
Proof. solve_decision. Defined.

Definition NodeState_String (s : NodeState) : string :=
  match s with Booting => "Booting" | CatchingUp => "CatchingUp" | Shutdown => "Shutdown" end.

Record nodeState := mkNodeState { ns_state : NodeState; ns_starting : Z }.

Definition setState (s : NodeState) (b : nodeState) : nodeState := mkNodeState s (ns_starting b).
Definition isStarting (b : nodeState) : bool := bool_decide (0 < ns_starting b).

Definition CompareAndSwap (old new v : Z) : Z := if bool_decide (v = old) then new else v.
Definition setStarting (starting : bool) (b : nodeState) : nodeState :=
  mkNodeState (ns_state b)
    (if starting then CompareAndSwap 0 1 (ns_starting b) else CompareAndSwap 1 0 (ns_starting b)).

(** ** [network/peer/peer.go] and [core/sequentia/peer_selector.go] *)
Record Peer := mkPeer { NetAddr : string; PubKeyHex : string }.

(** Backwards, so that the index is that of the last match. *)
Fixpoint exclude_from (i : Z) (peers : list Peer) (peer : string) : Z * list Peer :=
  match peers with
  | [] => (-1, [])
  | p :: rest =>
      let '(index, others) := exclude_from (i + 1) rest peer in
      if bool_decide (NetAddr p ≠ peer) then (index, p :: others)
      else (if bool_decide (index = -1) then i else index, others)
  end.
Definition ExcludePeer (peers : list Peer) (peer : string) : Z * list Peer := exclude_from 0 peers peer.

Record RandomPeerSelector := mkSelector { ps_peers : list Peer; ps_last : string }.

Definition NewRandomPeerSelector (participants : list Peer) (localAddr : string) : RandomPeerSelector :=
  mkSelector (ExcludePeer participants localAddr).2 "".
Definition UpdateLast (peer : string) (ps : RandomPeerSelector) : RandomPeerSelector := mkSelector (ps_peers ps) peer.

(** [rnd] is the number the generator draws; [Intn] brings it into the range. *)
Definition Intn (rnd n : Z) : outcome Z :=
  if bool_decide (n ≤ 0) then Panic "invalid argument to Intn" else Ret (rnd mod n).

Definition selectable (ps : RandomPeerSelector) : list Peer :=
  if bool_decide (1 < len (ps_peers ps)) then (ExcludePeer (ps_peers ps) (ps_last ps)).2 else ps_peers ps.
Definition Next (ps : RandomPeerSelector) (rnd : Z) : outcome Peer :=
  match Intn rnd (len (selectable ps)) with
  | Ret i => index (selectable ps) i
  | Fail e => Fail e | Panic w => Panic w | OutOfFuel => OutOfFuel
  end.

(** ** [common/timer/control_timer.go]

    [ct_armed]: the channel the loop waits on will deliver.  A factory with base 0 gives the nil
    channel, which never does. *)
Record ControlTimer := mkTimer { ct_base : Z; ct_Set : bool; ct_armed : bool; ct_running : bool }.

Definition NewRandomControlTimer (base : Z) : ControlTimer := mkTimer base false false false.

Definition setTimer (c : ControlTimer) : ControlTimer :=
  mkTimer (ct_base c) true (bool_decide (ct_base c ≠ 0)) (ct_running c).

(** The branches of the loop.  The tick has two halves: between the delivery and the write of [Set]
    the receiver of the tick runs. *)
Inductive timer_event := Delivered | Cleared | ResetCh | StopCh | ShutdownCh.

Definition Run_step (e : timer_event) (c : ControlTimer) : ControlTimer :=
  match e with
  | Delivered => mkTimer (ct_base c) (ct_Set c) false (ct_running c)
  | Cleared => mkTimer (ct_base c) false (ct_armed c) (ct_running c)
  | ResetCh => setTimer c
  | StopCh => mkTimer (ct_base c) false false (ct_running c)
  | ShutdownCh => mkTimer (ct_base c) false (ct_armed c) false
  end.

(** [go controlTimer.Run()]. *)
Definition Run_start (c : ControlTimer) : ControlTimer := setTimer (mkTimer (ct_base c) (ct_Set c) (ct_armed c) true).

(** ** [network/transport.go] *)
Record SyncRequest := mkSyncRequest { srq_FromID : Z; srq_Known : gmap Z Z }.
Record SyncResponse := mkSyncResponse {
  srs_FromID : Z; srs_SyncLimit : bool; srs_Events : list WireEvent; srs_Known : gmap Z Z
}.
Record EagerSyncRequest := mkEagerRequest { erq_FromID : Z; erq_Events : list WireEvent }.
Record EagerSyncResponse := mkEagerResponse { ers_FromID : Z; ers_Success : bool }.

Inductive rpc_command := CSync (r : SyncRequest) | CEager (r : EagerSyncRequest) | COther.
Inductive rpc_answer := ASync (r : SyncResponse) | AEager (r : EagerSyncResponse) | ANil.

(** [RPC.Respond]: an answer, an error or both. *)
Definition RPCResponse : Type := rpc_answer * option gerror.

Class Transport (W : Type) : Type := {
  tr_LocalAddr : W → string;
  tr_Sync : string → SyncRequest → M W SyncResponse;
  tr_EagerSync : string → EagerSyncRequest → M W EagerSyncResponse;
  tr_Close : M W unit
}.

(** [proxy.AppProxy]: an answer, which may be nil, and an error, as in Go. *)
Class AppProxy (P : Type) : Type := {
  CommitBlock : Block → M P (option bytes * option gerror)
}.

Section Node.
Context `{RangeOrder, Crypto} {S : Type} `{Store S} {W : Type} `{Transport W} {P : Type} `{AppProxy P} (fuel : nat).
Abbreviation K := (Core (S := S)).

Record Node := mkNode {
  n_state : nodeState;
  n_SyncLimit : Z;                  (* of conf *)
  n_id : Z;
  n_core : K;
  n_localAddr : string;
  n_selector : RandomPeerSelector;
  n_trans : W;
  n_proxy : P;
  n_closed : bool;                  (* shutdownCh *)
  n_timer : ControlTimer
}.
Abbreviation N := (M Node).

Definition upd_state (s : nodeState) (n : Node) : Node :=
  mkNode s (n_SyncLimit n) (n_id n) (n_core n) (n_localAddr n) (n_selector n) (n_trans n) (n_proxy n) (n_closed n) (n_timer n).
Definition upd_core (k : K) (n : Node) : Node :=
  mkNode (n_state n) (n_SyncLimit n) (n_id n) k (n_localAddr n) (n_selector n) (n_trans n) (n_proxy n) (n_closed n) (n_timer n).
Definition upd_selector (ps : RandomPeerSelector) (n : Node) : Node :=
  mkNode (n_state n) (n_SyncLimit n) (n_id n) (n_core n) (n_localAddr n) ps (n_trans n) (n_proxy n) (n_closed n) (n_timer n).
Definition upd_trans (w : W) (n : Node) : Node :=
  mkNode (n_state n) (n_SyncLimit n) (n_id n) (n_core n) (n_localAddr n) (n_selector n) w (n_proxy n) (n_closed n) (n_timer n).
Definition upd_proxy (p : P) (n : Node) : Node :=
  mkNode (n_state n) (n_SyncLimit n) (n_id n) (n_core n) (n_localAddr n) (n_selector n) (n_trans n) p (n_closed n) (n_timer n).
Definition upd_closed (b : bool) (n : Node) : Node :=
  mkNode (n_state n) (n_SyncLimit n) (n_id n) (n_core n) (n_localAddr n) (n_selector n) (n_trans n) (n_proxy n) b (n_timer n).
Definition upd_timer (t : ControlTimer) (n : Node) : Node :=
  mkNode (n_state n) (n_SyncLimit n) (n_id n) (n_core n) (n_localAddr n) (n_selector n) (n_trans n) (n_proxy n) (n_closed n) t.

Definition on_core {A} (m : M K A) : N A := zoom n_core upd_core m.
Definition on_trans {A} (m : M W A) : N A := zoom n_trans upd_trans m.
Definition on_proxy {A} (m : M P A) : N A := zoom n_proxy upd_proxy m.
Definition getState : N NodeState := gets (λ n, ns_state (n_state n)).
Definition set_state (s : NodeState) : N unit := modify (λ n, upd_state (setState s (n_state n)) n).
Definition to_timer (e : timer_event) : N unit := modify (λ n, upd_timer (Run_step e (n_timer n)) n).

(** ** Making a node *)
Definition NewNode (syncLimit heartbeat id : Z) (key : PrivKey) (participants : list Peer) (st : S) (trans : W) (proxy : P) :
    M (option (CometGraph (S := S))) Node :=
  let localAddr := tr_LocalAddr trans in
  let pmap := st_Participants st in
  core ← NewCore id key pmap st (Some []);
  let node := mkNode (mkNodeState Booting 0) syncLimit id core localAddr
                (NewRandomPeerSelector participants localAddr) trans proxy false (NewRandomControlTimer heartbeat) in
  mret (upd_state (setState Booting (setStarting true (n_state node))) node).

Definition Node_Init (bootstrap : bool) (db : option (M S (list Comet))) : N unit :=
  if bootstrap then on_core (Core.Bootstrap fuel db) else on_core (Core.Init fuel).

(** ** Taking in events *)
Definition sync (events : list WireEvent) (now : Z) : N unit :=
  on_core (Core.Sync fuel events now) ;;
  on_core (Core.RunConsensus fuel).

(** ** Answering other nodes *)
Definition processSyncRequest (cmd : SyncRequest) : N RPCResponse :=
  n ← get;
  overSyncLimit ← on_core (OverSyncLimit (srq_Known cmd) (n_SyncLimit n));
  diff ← (if overSyncLimit : bool then mret ([], None)
          else
            eventDiff ← try (on_core (EventDiff (srq_Known cmd)));
            mret match eventDiff with
                 | inl err => (Core_ToWire [], Some err)
                 | inr l => (Core_ToWire l, None)
                 end);
  knownEvents ← on_core KnownEvents;
  mret (ASync (mkSyncResponse (n_id n) overSyncLimit diff.1 knownEvents), diff.2).

Definition processEagerSyncRequest (cmd : EagerSyncRequest) (now : Z) : N RPCResponse :=
  n ← get;
  r ← try (sync (erq_Events cmd) now);
  mret match r with
       | inl err => (AEager (mkEagerResponse (n_id n) false), Some err)
       | inr _ => (AEager (mkEagerResponse (n_id n) true), None)
       end.

Definition processRPC (cmd : rpc_command) (now : Z) : N RPCResponse :=
  n ← get;
  s ← getState;
  if bool_decide (s ≠ Booting) then
    mret (ASync (mkSyncResponse (n_id n) false [] ∅), Some (Errorf ("not ready: " +:+ NodeState_String s)))
  else
    match cmd with
    | CSync r => processSyncRequest r
    | CEager r => processEagerSyncRequest r now
    | COther => mret (ANil, Some (Errorf "unexpected command"))
    end.

(** ** Gossip *)
Definition preGossip (now : Z) : N bool :=
  n ← get;
  if negb (NeedGossip (n_core n) || isStarting (n_state n)) then mret false
  else on_core (AddSelfEvent fuel now) ;; mret true.

Definition requestSync (target : string) (known : gmap Z Z) : N SyncResponse :=
  n ← get;
  on_trans (tr_Sync target (mkSyncRequest (n_id n) known)).

Definition requestEagerSync (target : string) (events : list WireEvent) : N EagerSyncResponse :=
  n ← get;
  on_trans (tr_EagerSync target (mkEagerRequest (n_id n) events)).

(** The second part of the answer is nil when the limit was hit. *)
Definition pull (peerAddr : string) (now : Z) : N (bool * gmap Z Z) :=
  knownEvents ← on_core KnownEvents;
  resp ← requestSync peerAddr knownEvents;
  if srs_SyncLimit resp then mret (true, ∅)
  else sync (srs_Events resp) now ;; mret (false, srs_Known resp).

Definition push (peerAddr : string) (knownEvents : gmap Z Z) : N unit :=
  n ← get;
  overSyncLimit ← on_core (OverSyncLimit knownEvents (n_SyncLimit n));
  if overSyncLimit : bool then mret tt
  else
    eventDiff ← on_core (EventDiff knownEvents);
    requestEagerSync peerAddr (Core_ToWire eventDiff) ;; mret tt.

Definition gossip (peerAddr : string) (now : Z) : N unit :=
  r ← pull peerAddr now;
  if r.1 : bool then set_state CatchingUp
  else
    push peerAddr r.2 ;;
    modify (λ n, upd_selector (UpdateLast peerAddr (n_selector n)) n) ;;
    modify (λ n, upd_state (setStarting false (n_state n)) n).

Definition fastForward : N unit := set_state Booting.

(** ** Committing

    The block came through the channel and holds the same map of signatures as the one in the
    store, so it has what was added to that one since (not followed once the store has dropped its
    copy); the store's own copy is replaced in any case.  An error of the application is logged and dropped. *)
Definition shared_signatures (block : Block) : N Block :=
  stored ← try (on_core (on_store (st_GetBlock (bb_Index (b_Body block)))));
  mret match stored with inl _ => block | inr b => mkBlock (b_Body block) (b_Signatures b) end.

Definition set_StateHash (h : option bytes) (b : Block) : Block :=
  mkBlock (mkBlockBody (bb_Index (b_Body b)) (bb_RoundReceived (b_Body b)) h (bb_Transactions (b_Body b))) (b_Signatures b).

Definition commit (block : Block) : N unit :=
  r ← on_proxy (CommitBlock block);
  shared ← shared_signatures block;
  sig ← on_core (SignBlock (set_StateHash r.1 shared));
  on_core (AddBlockSignature sig).

Definition addTransaction (tx : bytes) : N unit := on_core (AddTransactions [tx]).

(** ** The loops *)

(** One turn of the loop of [doBackgroundWork]; [None] leaves it. *)
Inductive work := WRPC (cmd : rpc_command) | WSubmit (t : bytes) | WCommit | WShutdown.

Definition reset_unless_set : N unit :=
  n ← get;
  if ct_Set (n_timer n) then mret tt else to_timer ResetCh.

(** The head of the commit channel, which the graph writes. *)
Definition next_block : N (option Block) :=
  n ← get;
  match commitCh (cg (n_core n)) with
  | Some (b :: rest) => on_core (on_cg (modify (set_commitCh (Some rest)))) ;; mret (Some b)
  | _ => mret None
  end.

Definition doBackgroundWork (w : work) (now : Z) : N (option (option RPCResponse)) :=
  match w with
  | WRPC cmd =>
      resp ← processRPC cmd now;
      n ← get;
      (if NeedGossip (n_core n) then reset_unless_set else mret tt) ;;
      mret (Some (Some resp))
  | WSubmit t => addTransaction t ;; reset_unless_set ;; mret (Some None)
  | WCommit =>
      b ← next_block;
      match b with
      | None => mret (Some None)          (* nothing to receive *)
      | Some block => try (commit block) ;; mret (Some None)
      end
  | WShutdown => mret None
  end.

(** One tick in [startGossipTimer]; the answer is the peer a goroutine is started to gossip with. *)
Definition tick (gossips : bool) (rnd now : Z) : N (option string) :=
  who ← (if gossips then
           proceed ← try (preGossip now);
           match proceed with
           | inr true => n ← get; peer ← lift (Next (n_selector n) rnd); mret (Some (NetAddr peer))
           | _ => mret None
           end
         else mret None);
  n ← get;
  (if negb (NeedGossip (n_core n)) then to_timer StopCh else reset_unless_set) ;;
  mret who.

(** The timer's loop clears [Set] after it has delivered the tick: [late] when the receiver has
    read [Set] by then. *)
Definition heartbeat (late gossips : bool) (rnd now : Z) : N (option string) :=
  to_timer Delivered ;;
  if late then who ← tick gossips rnd now; to_timer Cleared ;; mret who
  else to_timer Cleared ;; tick gossips rnd now.

(** One turn of the loop of [Run] outside [startGossipTimer]; [false] leaves it. *)
Definition Run_turn : N bool :=
  s ← getState;
  match s with
  | Booting => mret true
  | CatchingUp => fastForward ;; mret true
  | Shutdown => mret false
  end.

(** [closeStore] is [Close] of the store. *)
Definition Node_Shutdown (closeStore : M S unit) : N unit :=
  s ← getState;
  if bool_decide (s ≠ Shutdown) then
    set_state Shutdown ;;
    modify (upd_closed true) ;;
    to_timer ShutdownCh ;;
    try (on_trans tr_Close) ;;
    try (on_core (on_store closeStore)) ;;
    mret tt
  else mret tt.

Definition Node_GetBlock (blockIndex : Z) : N Block := on_core (on_store (st_GetBlock blockIndex)).
End Node.
