(* ===== verification/Gossip.v ===== *)
(** Gossip: what a node hands out ([EventDiff]) and what it does with what it is sent ([Sync]), in
    every state of the gossip core that its own operations lead to. *)
From S2P Require Import Prelude Lru Bytes Types Caches Store CometGraph Ancestry Insert Queries Graph Rounds Divide Order Received Consensus Sample Wire Core.
Open Scope Z_scope.

Section Gossip.
Context `{RangeOrder, Crypto} {S : Type} `{Store S, !StoreLaws S}.
Implicit Types (g : CometGraph (S := S)) (v : content) (ps : gmap string Z) (c : Comet) (k : Core (S := S)).

(** ** What a stored comet is like *)

(** The wire fields name the parents. *)
Definition wire_right ps (B : gmap string CometBody) (b : CometBody) : Prop :=
  ps !! b_creator b = Some (creatorID b) ∧ selfParentIndex b = b_index b - 1 ∧
  (b_other b = Ret "" ∧ otherParentIndex b = -1 ∧ otherParentCreatorID b = -1 ∨
   ∃ h bo, b_other b = Ret h ∧ B !! h = Some bo ∧ ps !! b_creator bo = Some (otherParentCreatorID b) ∧ otherParentIndex b = b_index bo).

(** Signed by its creator, who also made the block signatures it carries. *)
Record sendable (b : CometBody) (sig : string) : Prop := {
  sd_parents : ∃ sp op, Parents (fields b) = [sp; op];
  sd_bytes : is_bytes (Creator_bytes (fields b));
  sd_verify : Verify (mkComet b sig 0 None 0 [] []) = Ret true;
  sd_sigs : Forall sig_ok (of_nilable (BlockSignatures (fields b)));
  sd_own : Forall (λ bs, bs_Validator bs = Creator_bytes (fields b)) (of_nilable (BlockSignatures (fields b)))
}.

(** The log serves every comet, the order of insertion respects the edges, and every comet can be
    sent on. *)
Record gossip_ok ps v (topo : Z) : Prop := {
  go_members : members v = ps;
  go_log : ∀ h c, comets v !! h = Some c → log_of v (Creator c) (comet_Index c) = Some h;
  go_only : ∀ p i h, log_of v p i = Some h → ∃ c, comets v !! h = Some c ∧ Creator c = p ∧ comet_Index c = i;
  go_topo : ∀ h c, comets v !! h = Some c → TopologicalIndex c < topo;
  go_order : ∀ h c h' c', comets v !! h = Some c → comets v !! h' = Some c' →
    edge (Body <$> comets v) h h' → TopologicalIndex c' < TopologicalIndex c;
  go_distinct : ∀ h c h' c', comets v !! h = Some c → comets v !! h' = Some c' →
    TopologicalIndex c = TopologicalIndex c' → h = h';
  go_wire : ∀ h c, comets v !! h = Some c → wire_right ps (Body <$> comets v) (Body c);
  go_send : ∀ h c, comets v !! h = Some c → sendable (Body c) (Signature c)
}.

Lemma face_inj c c' : face c = face c' →
  Body c = Body c' ∧ Signature c = Signature c' ∧ TopologicalIndex c = TopologicalIndex c'.
Proof. by intros [= -> -> ->]. Qed.

(** The comets after an insertion, up to their coordinates. *)
Lemma inserted_faces ps v x id op sw topo v' h c :
  insert_post ps v x id op sw topo v' → comets v' !! h = Some c →
  h = Hex x ∧ Body c = kept_body ps v op id sw x ∧ Signature c = Signature x ∧ TopologicalIndex c = topo ∨
  h ≠ Hex x ∧ ∃ c0, comets v !! h = Some c0 ∧ Body c = Body c0 ∧ Signature c = Signature c0 ∧ TopologicalIndex c = TopologicalIndex c0.
Proof.
  intros Hip Hc. assert ((face <$> comets v') !! h = Some (face c)) as Hf by (by rewrite lookup_fmap, Hc).
  rewrite (ip_faces _ _ _ _ _ _ _ _ Hip) in Hf. apply lookup_insert_Some in Hf as [[<- Hf]|[Hne Hf]].
  - left. split; [done|]. by injection Hf as -> -> ->.
  - right. split; [done|]. apply lookup_fmap_Some in Hf as (c0 & Hf & Hc0). exists c0. split; [done|]. by apply face_inj.
Qed.

Lemma old_faces ps v x id op sw topo v' h c :
  insert_post ps v x id op sw topo v' → comets v !! Hex x = None → comets v !! h = Some c →
  ∃ c', comets v' !! h = Some c' ∧ Body c' = Body c ∧ Signature c' = Signature c ∧ TopologicalIndex c' = TopologicalIndex c.
Proof.
  intros Hip Hfresh Hc. assert (h ≠ Hex x) as Hne by congruence.
  assert ((face <$> comets v') !! h = Some (face c)) as Hf.
  { rewrite (ip_faces _ _ _ _ _ _ _ _ Hip), lookup_insert_ne by done. by rewrite lookup_fmap, Hc. }
  apply lookup_fmap_Some in Hf as (c' & Hf & Hc'). exists c'. split; [done|]. by apply face_inj.
Qed.

Lemma wire_right_grow ps B b hx bx : B !! hx = None → wire_right ps B b → wire_right ps (<[hx := bx]> B) b.
Proof.
  intros Hf (H1' & H2' & Hor). split; [done|]. split; [done|]. destruct Hor as [?|(h & bo & Ho & Hbo & ?)]; [by left|]. right.
  exists h, bo. split; [done|]. split; [|done]. rewrite lookup_insert_ne; [done|congruence].
Qed.

(** Both for a comet whose wire fields are computed and for one that came with them. *)
Lemma kept_wire_right ps v x id sp op sw :
  graph_ok ps v → extends ps v x id sp op → (sw = false → wire_right ps (Body <$> comets v) (Body x)) →
  wire_right ps (Body <$> comets v) (kept_body ps v op id sw x).
Proof.
  intros Hg Hx Hsw. destruct sw; [|by apply Hsw]. unfold kept_body, wired, wire_right, b_creator, b_index, b_other. cbn.
  split; [apply (ex_creator _ _ _ _ _ _ Hx)|]. split; [done|]. pose proof (ex_op _ _ _ _ _ _ Hx) as Hop.
  unfold OtherParent in Hop. rewrite Hop. unfold wire_of. destruct (ex_known _ _ _ _ _ _ Hx) as [->|[o Ho]].
  - left. pose proof (dag_ne_empty _ _ _ _ (g_dag _ _ Hg)) as Hn. rewrite lookup_fmap in Hn. by destruct (comets v !! "").
  - right. exists op, (Body o). rewrite lookup_fmap, Ho. split; [done|]. split; [done|]. cbn. split; [|done].
    destruct (dag_creator _ _ _ _ op (Body o) (g_dag _ _ Hg)) as [io Hio]; [by rewrite lookup_fmap, Ho|].
    change (ps !! Creator o = Some io) in Hio. change (hexX _) with (Creator o). by rewrite Hio.
Qed.

(** A comet that is added is nobody's parent yet. *)
Lemma edge_new ps v x id sp op bx h h' :
  graph_ok ps v → extends ps v x id sp op → fields bx = fields (Body x) →
  edge (<[Hex x := bx]> (Body <$> comets v)) h h' → h' ≠ Hex x ∧ (h ≠ Hex x → edge (Body <$> comets v) h h').
Proof.
  intros Hg [Hfresh Hid Hnext Hmax Hsp Hlast Hop Hk] Hf He. pose proof (g_dag _ _ Hg) as Hd.
  assert ((Body <$> comets v) !! Hex x = None) as HfB by (by rewrite lookup_fmap, Hfresh).
  assert (b_name bx = Hex x) as Hname by (unfold b_name, Hex, body_Hash; by rewrite Hf).
  assert (Hex x ≠ "") as Hnemp by (unfold Hex; by destruct (body_Hash (Body x))).
  destruct (decide (h = Hex x)) as [->|Hne].
  - split; [|done]. intros ->. destruct He as (b & Hb & _ & Hpar). rewrite lookup_insert_eq in Hb. injection Hb as <-.
    unfold b_self, b_other in Hpar. rewrite Hf in Hpar. unfold SelfParent, OtherParent in *. rewrite Hsp, Hop in Hpar.
    destruct Hpar as [[= ->]|[= ->]]; [|destruct Hk as [|[? ?]]; congruence].
    destruct (dag_last _ _ _ _ Hd _ _ _ Hnext Hlast) as [[_ ?]|(b0 & ? & _)]; congruence.
  - assert (is_Some ((Body <$> comets v) !! h)) as Hh.
    { destruct He as (b & Hb & _). rewrite lookup_insert_ne in Hb by done. by eexists. }
    apply (edge_old ps _ _ _ Hd (Hex x) bx HfB Hname h h' Hh) in He.
    split; [|done]. intros ->. destruct He as (b & _ & [b' Hb'] & _). congruence.
Qed.

Lemma gossip_insert ps v x id sp op sw topo v' :
  graph_ok ps v → extends ps v x id sp op → insert_post ps v x id op sw topo v' → gossip_ok ps v topo →
  (sw = false → wire_right ps (Body <$> comets v) (Body x)) → sendable (Body x) (Signature x) →
  gossip_ok ps v' (topo + 1).
Proof.
  intros Hg Hx Hip Hgo Hsw Hsend. pose proof (ex_fresh _ _ _ _ _ _ Hx) as Hfresh.
  assert ((Body <$> comets v) !! Hex x = None) as HfB by (by rewrite lookup_fmap, Hfresh).
  pose proof (ip_bodies _ _ _ _ _ _ _ _ Hip) as HB. set (bx := kept_body ps v op id sw x) in *.
  assert (fields bx = fields (Body x)) as Hfx by (unfold bx; by destruct sw).
  assert (∀ c, Body c = bx → Creator c = Creator x ∧ comet_Index c = comet_Index x) as Hcx
    by (intros c Hc; unfold Creator, comet_Index; by rewrite Hc, Hfx).
  split.
  - rewrite (ip_members _ _ _ _ _ _ _ _ Hip). apply Hgo.
  - intros h c Hc. rewrite (ip_log _ _ _ _ _ _ _ _ Hip). unfold log_with.
    destruct (inserted_faces _ _ _ _ _ _ _ _ _ _ Hip Hc) as [(-> & Hb & _)|(Hne & c0 & Hc0 & Hb & _)].
    + destruct (Hcx c Hb) as [-> ->]. by rewrite decide_True.
    + pose proof (go_log _ _ _ Hgo h c0 Hc0) as Hl. unfold Creator, comet_Index in *. rewrite Hb.
      rewrite decide_False; [done|]. intros [Hcr Hix]. (* no comet has this creator and index yet *)
      destruct (dag_range _ _ _ _ (g_dag _ _ Hg) h (Body c0)) as (n & Hn & Hr); [by rewrite lookup_fmap, Hc0|].
      unfold b_creator in Hn. rewrite Hcr in Hn. pose proof (ex_next _ _ _ _ _ _ Hx) as Hn'. unfold Creator, comet_Index in Hn'.
      rewrite Hn' in Hn. injection Hn as <-. unfold b_index in Hr. lia.
  - intros p i h. rewrite (ip_log _ _ _ _ _ _ _ _ Hip). unfold log_with. case_decide as Hpi.
    + intros [= <-]. destruct Hpi as [-> ->].
      assert ((Body <$> comets v') !! Hex x = Some bx) as Hb by (rewrite HB; apply lookup_insert_eq).
      apply lookup_fmap_Some in Hb as (c & Hb & Hc). exists c. split; [done|]. by apply Hcx.
    + intros Hl. destruct (go_only _ _ _ Hgo p i h Hl) as (c & Hc & Hcr & Hix).
      destruct (old_faces _ _ _ _ _ _ _ _ _ _ Hip Hfresh Hc) as (c' & Hc' & Hb & _). exists c'. split; [done|].
      unfold Creator, comet_Index in *. by rewrite Hb.
  - intros h c Hc. destruct (inserted_faces _ _ _ _ _ _ _ _ _ _ Hip Hc) as [(_ & _ & _ & ->)|(_ & c0 & Hc0 & _ & _ & ->)]; [lia|].
    pose proof (go_topo _ _ _ Hgo h c0 Hc0). lia.
  - intros h c h' c' Hc Hc' He. rewrite HB in He.
    destruct (edge_new ps v x id sp op bx h h' Hg Hx Hfx He) as [Hne' Hold].
    destruct (inserted_faces _ _ _ _ _ _ _ _ _ _ Hip Hc') as [(-> & _)|(_ & c0' & Hc0' & _ & _ & ->)]; [done|].
    destruct (inserted_faces _ _ _ _ _ _ _ _ _ _ Hip Hc) as [(-> & _ & _ & ->)|(Hne & c0 & Hc0 & _ & _ & ->)].
    + apply (go_topo _ _ _ Hgo h' c0' Hc0').
    + eapply (go_order _ _ _ Hgo h c0 h' c0'); auto.
  - intros h c h' c' Hc Hc' Ht.
    destruct (inserted_faces _ _ _ _ _ _ _ _ _ _ Hip Hc) as [(-> & _ & _ & Ht1)|(_ & c0 & Hc0 & _ & _ & Ht1)],
      (inserted_faces _ _ _ _ _ _ _ _ _ _ Hip Hc') as [(-> & _ & _ & Ht2)|(_ & c0' & Hc0' & _ & _ & Ht2)]; try done.
    + pose proof (go_topo _ _ _ Hgo h' c0' Hc0'). lia.
    + pose proof (go_topo _ _ _ Hgo h c0 Hc0). lia.
    + eapply (go_distinct _ _ _ Hgo h c0 h' c0'); try done. congruence.
  - intros h c Hc. rewrite HB. apply wire_right_grow; [done|].
    destruct (inserted_faces _ _ _ _ _ _ _ _ _ _ Hip Hc) as [(_ & -> & _)|(_ & c0 & Hc0 & -> & _)].
    + by eapply kept_wire_right.
    + by apply (go_wire _ _ _ Hgo h).
  - intros h c Hc. destruct (inserted_faces _ _ _ _ _ _ _ _ _ _ Hip Hc) as [(_ & -> & -> & _)|(_ & c0 & Hc0 & -> & -> & _)].
    + fold bx. destruct Hsend as [S1 S2 S3 S4 S5]. unfold Verify, body_Hash in S3. cbn in S3. split; unfold Verify, body_Hash; cbn; by rewrite Hfx.
    + by apply (go_send _ _ _ Hgo h).
Qed.

(** ** The core *)

(** What the operations of a node keep, from its first comet on. *)
Record core_ok ps k : Prop := {
  co_graph : ∃ R rank Div, consensus_inv ps R rank Div (cg k);
  co_gossip : gossip_ok ps (view (store (cg k))) (topologicalIndex (cg k));
  co_rev : c_reverseParticipants k = reverse_participants ps;
  co_grev : ReverseParticipants (cg k) = reverse_participants ps;
  co_head : last_of (view (store (cg k))) !! HexID k = Some (Head k);
  co_seq : next_of (view (store (cg k))) !! HexID k = Some (Seq k + 1);
  co_pool : Forall (λ bs, bs_Validator bs = PubKey k ∧ sig_ok bs) (blockSignaturePool k)
}.

Lemma co_inv ps k : core_ok ps k → graph_inv ps (cg k).
Proof. intros Hk. destruct (co_graph _ _ Hk) as (R & rank & Div & Hci). by eapply ci_graph. Qed.

Lemma co_ok ps k : core_ok ps k → graph_ok ps (view (store (cg k))).
Proof. intros Hk. apply (q_graph _ _ _ (proj1 (co_inv _ _ Hk))). Qed.

(** ** A consensus pass *)

Lemma gossip_plain ps v v' topo :
  plain <$> comets v' = plain <$> comets v → log_of v' = log_of v → members v' = members v →
  gossip_ok ps v topo → gossip_ok ps v' topo.
Proof.
  intros Hp Hl Hm [Hmem Hlog Honly Htopo Horder Hdist Hwire Hsend].
  assert (Body <$> comets v' = Body <$> comets v) as HB
    by (apply (restamped_Body v (set_comets (comets v') v)); by split).
  assert (∀ h c', comets v' !! h = Some c' → ∃ c, comets v !! h = Some c ∧ Body c = Body c' ∧
    Signature c = Signature c' ∧ TopologicalIndex c = TopologicalIndex c') as Hold.
  { intros h c' Hc'. destruct (restamped_lookup v (set_comets (comets v') v) h c') as (c & Hc & [= ? ? ? ? ?]); [by split|done|].
    by exists c. }
  split; rewrite ?HB, ?Hl, ?Hm; try done.
  - intros h c' Hc'. destruct (Hold h c' Hc') as (c & Hc & Hb & _). unfold Creator, comet_Index. rewrite <-Hb. by apply Hlog.
  - intros p i h Hpi. destruct (Honly p i h Hpi) as (c & Hc & Hcr & Hix).
    assert ((Body <$> comets v') !! h = Some (Body c)) as Hb by (by rewrite HB, lookup_fmap, Hc).
    apply lookup_fmap_Some in Hb as (c' & Hb & Hc'). exists c'. unfold Creator, comet_Index in *. by rewrite Hb.
  - intros h c' Hc'. destruct (Hold h c' Hc') as (c & Hc & _ & _ & <-). by eapply Htopo.
  - intros h c1 h' c2 Hc1 Hc2 He. destruct (Hold h c1 Hc1) as (d1 & Hd1 & _ & _ & <-), (Hold h' c2 Hc2) as (d2 & Hd2 & _ & _ & <-).
    by eapply Horder.
  - intros h c1 h' c2 Hc1 Hc2 He. destruct (Hold h c1 Hc1) as (d1 & Hd1 & _ & _ & Ht1), (Hold h' c2 Hc2) as (d2 & Hd2 & _ & _ & Ht2).
    eapply Hdist; [done|done|congruence].
  - intros h c' Hc'. destruct (Hold h c' Hc') as (c & Hc & <- & _). by eapply Hwire.
  - intros h c' Hc'. destruct (Hold h c' Hc') as (c & Hc & <- & <- & _). by eapply Hsend.
Qed.

Lemma RunConsensus_pass fuel k : RunConsensus fuel k = on_cg (consensus_pass fuel) k.
Proof.
  unfold RunConsensus, consensus_pass, on_cg, zoom, mbind, M_bind.
  destruct (DivideRounds fuel (cg k)) as [[[]| | |] g1]; try done. cbn [cg upd_cg].
  by destruct (DecideFame g1) as [[[]| | |] g2].
Qed.

(** [RunConsensus] returns and keeps the core right. *)
Lemma RunConsensus_ok fuel ps k :
  core_ok ps k → passable fuel (cg k) →
  wp (RunConsensus fuel) k (λ o k', o = Ret tt ∧ core_ok ps k' ∧
    Body <$> comets (view (store (cg k'))) = Body <$> comets (view (store (cg k))) ∧
    capacity (view (store (cg k'))) = capacity (view (store (cg k))) ∧
    next_of (view (store (cg k'))) = next_of (view (store (cg k))) ∧ ∃ g, k' = upd_cg g k).
Proof.
  intros [(R & rank & Div & Hci) Hgo Hrev Hgrev Hhead Hseq Hpool] Hp.
  unfold wp. rewrite RunConsensus_pass. change (wp (on_cg (consensus_pass fuel)) k (λ o k', o = Ret tt ∧ core_ok ps k' ∧
    Body <$> comets (view (store (cg k'))) = Body <$> comets (view (store (cg k))) ∧
    capacity (view (store (cg k'))) = capacity (view (store (cg k))) ∧
    next_of (view (store (cg k'))) = next_of (view (store (cg k))) ∧ ∃ g, k' = upd_cg g k)).
  apply wp_zoom. eapply wp_mono; [by apply (consensus_pass_ok ps R rank Div)|].
  intros o g (-> & (D & Hci' & _) & Hpl & Hlog & Hlast & Hnext & Hmem & Hcap & Hr & Ht & _). split; [done|]. cbn [cg upd_cg].
  split; [|split; [|split; [done|split; [done|by exists g]]]].
  - split; cbn [cg upd_cg]; [eauto| |done|congruence|by rewrite Hlast|by rewrite Hnext|done].
    rewrite Ht. by eapply gossip_plain.
  - apply (restamped_Body (view (store (cg k))) (set_comets (comets (view (store g))) (view (store (cg k))))). by split.
Qed.

(** The same core, after reading. *)
Definition same_core k0 k : Prop := ∃ g, k = upd_cg g k0 ∧ at_store (cg k0) (view (store (cg k0))) g.

Lemma same_core_refl k : store_ok (store (cg k)) → same_core k k.
Proof. intros Hok. exists (cg k). split; [by destruct k|by apply at_store_refl]. Qed.

Lemma same_core_view k0 k : same_core k0 k → view (store (cg k)) = view (store (cg k0)).
Proof. intros (g & -> & (t & -> & _ & Hv)). done. Qed.

Lemma same_core_ok ps k0 k : core_ok ps k0 → same_core k0 k → core_ok ps k.
Proof.
  intros Hk Hs. pose proof (same_core_view _ _ Hs) as Hv. destruct Hs as (g & -> & (t & -> & Ht & Hvt)).
  destruct Hk as [(R & rank & Div & Hci) Hgo Hr Hgr Hh Hsq Hp]. split; rewrite ?Hv; try done.
  exists R, rank, Div. eapply consensus_asks; [done|]. cbn. apply asks_upd_store; [|done|done].
  apply asks_start. by eapply ci_graph.
Qed.

Lemma wp_read {A} (m : M S A) k0 k (P : outcome A → Prop) (Q : outcome A → Core → Prop) :
  same_core k0 k →
  (∀ s, store_ok s → view s = view (store (cg k0)) → wp m s (λ o s', P o ∧ store_ok s' ∧ view s' = view s)) →
  (∀ o k', P o → same_core k0 k' → Q o k') → wp (on_store m) k Q.
Proof.
  intros (g & -> & (t & -> & Ht & Hv)) Hm HQ. unfold on_store, on_cg. apply wp_zoom. unfold stm. apply wp_zoom. cbn.
  eapply wp_mono; [by apply Hm|]. intros o t' (HP & Ht' & Hv'). apply HQ; [done|].
  exists (upd_store t' (cg k0)). split; [done|]. exists t'. split; [done|]. split; [done|]. congruence.
Qed.

(** ** What is handed out *)
Lemma wp_get_comets k0 : ∀ es cs k acc (Q : outcome (list Comet) → Core → Prop),
  same_core k0 k → Forall2 (λ e c, comets (view (store (cg k0))) !! e = Some c) es cs →
  (∀ k', same_core k0 k' → Q (Ret (acc ++ cs)) k') →
  wp (foldM (λ l e, ev ← on_store (st_GetComet e); mret (l ++ [ev])) acc es) k Q.
Proof.
  intros es cs k acc Q Hs Hall HQ.
  eapply (wp_foldM _ (λ es' l k', same_core k0 k' ∧ ∃ done' todo, Forall2 (λ e c, comets (view (store (cg k0))) !! e = Some c) es' todo ∧
            cs = done' ++ todo ∧ l = acc ++ done')).
  - split; [done|]. exists [], cs. by rewrite app_nil_r.
  - intros e es' l k' (Hk' & done' & todo & Htodo & -> & ->). apply Forall2_cons_inv_l in Htodo as (c & todo' & Hc & Htodo & ->).
    apply wp_bind. eapply (wp_read _ k0 k' (λ o, o = Ret c)); [done| |].
    + intros s Hs' Hv. eapply wp_mono; [by apply law_GetComet|]. intros o s' (Ho & ?). rewrite Hv, Hc in Ho. done.
    + intros o k'' -> Hk''. apply wp_ret. split; [done|]. exists (done' ++ [c]), todo'. by rewrite <-!app_assoc.
  - intros l k' (Hk' & done' & todo & Htodo & -> & ->). apply Forall2_nil_inv_l in Htodo as ->. rewrite app_nil_r in HQ. by apply HQ.
Qed.

(** The comets of [p] above an index. *)
Definition above v (p : string) (i : Z) (c : Comet) : Prop := (∃ h, comets v !! h = Some c) ∧ Creator c = p ∧ i < comet_Index c.

Lemma log_comets ps v topo p n i l :
  graph_ok ps v → gossip_ok ps v topo → next_of v !! p = Some n → -1 ≤ i →
  (∀ j : nat, l !! j = log_of v p (i + 1 + Z.of_nat j)) →
  ∃ cs, Forall2 (λ e c, comets v !! e = Some c) l cs ∧ NoDup cs ∧ ∀ c, c ∈ cs ↔ above v p i c.
Proof.
  intros Hg Hgo Hn Hi Hl.
  assert (∀ j e, l !! j = Some e → ∃ c, comets v !! e = Some c ∧ Creator c = p ∧ comet_Index c = i + 1 + Z.of_nat j) as Hat
    by (intros j e; rewrite Hl; apply (go_only _ _ _ Hgo)).
  assert (∃ cs, Forall2 (λ e c, comets v !! e = Some c) l cs) as [cs Hcs].
  { assert (Forall (λ e, ∃ c, comets v !! e = Some c) l) as Hf.
    { apply Forall_lookup. intros j e He. destruct (Hat j e He) as (c & Hc & _). by exists c. }
    clear -Hf. induction Hf as [|e l [c Hc] _ [cs IH]]; [by exists []|]. exists (c :: cs). by constructor. }
  assert (∀ j c, cs !! j = Some c → Creator c = p ∧ comet_Index c = i + 1 + Z.of_nat j) as Hix.
  { intros j c Hc. destruct (Forall2_lookup_r _ _ _ _ _ Hcs Hc) as (e & He & Hce).
    destruct (Hat j e He) as (c' & Hc' & ?). by assert (c' = c) as -> by congruence. }
  exists cs. split; [done|]. split.
  - apply NoDup_alt. intros j j' c Hj Hj'. destruct (Hix _ _ Hj), (Hix _ _ Hj'). lia.
  - intros c. split.
    + intros (j & Hj)%list_elem_of_lookup. destruct (Forall2_lookup_r _ _ _ _ _ Hcs Hj) as (e & He & Hce).
      destruct (Hix j c Hj) as [? ?]. split; [by exists e|]. split; [done|lia].
    + intros ([h Hc] & Hcr & Hlt). pose proof (go_log _ _ _ Hgo h c Hc) as Hlog.
      assert (l !! Z.to_nat (comet_Index c - i - 1) = Some h) as He.
      { rewrite Hl. rewrite Hcr in Hlog. rewrite <-Hlog. f_equal. lia. }
      destruct (Forall2_lookup_l _ _ _ _ _ Hcs He) as (c' & Hc' & Hce). assert (c' = c) as -> by congruence.
      by eapply list_elem_of_lookup_2.
Qed.

Lemma participant_diff_spec ps k0 k p id i unknown (Q : outcome (list Comet) → Core → Prop) :
  core_ok ps k0 → same_core k0 k → ps !! p = Some id → -1 ≤ i →
  (∀ cs k', NoDup cs → (∀ c, c ∈ cs ↔ above (view (store (cg k0))) p i c) → same_core k0 k' → Q (Ret (unknown ++ cs)) k') →
  wp (participant_diff unknown (id, i)) k Q.
Proof.
  intros Hk Hs Hp Hi HQ. unfold participant_diff. apply wp_gets_bind. cbn [fst snd].
  assert (c_reverseParticipants k = reverse_participants ps) as -> by (destruct Hs as (g & -> & _); apply (co_rev _ _ Hk)).
  pose proof (co_ok _ _ Hk) as Hg. pose proof (g_dag _ _ Hg) as Hd. pose proof (co_gossip _ _ Hk) as Hgo.
  rewrite (reverse_participants_lookup ps p id) by (apply Hd || done). cbn [default].
  set (v := view (store (cg k0))) in *.
  assert (is_Some (next_of v !! p)) as [n Hn] by (apply elem_of_dom; rewrite (dag_next _ _ _ _ Hd); by eapply elem_of_dom_2).
  apply wp_bind. eapply (wp_read _ k0 k (λ o, ∃ l, o = Ret l ∧ ∀ j : nat, l !! j = log_of v p (i + 1 + Z.of_nat j))); [done| |].
  - intros s Hok Hv. eapply wp_mono; [eapply (law_ParticipantEvents p i n s Hok)|]; rewrite ?Hv; try done.
    intros j Hj. destruct (dag_full _ _ _ _ Hd p n j Hn ltac:(lia)) as (h & b & Hb & Hcr & Hix).
    rewrite lookup_fmap in Hb. apply fmap_Some in Hb as (c & Hc & ->). exists h.
    rewrite <-Hcr, <-Hix. exact (go_log _ _ _ Hgo h c Hc).
  - intros o k' (l & -> & Hl) Hk'. destruct (log_comets ps v _ p n i l Hg Hgo Hn Hi Hl) as (cs & Hcs & Hnd & Hin).
    eapply wp_get_comets; [done|exact Hcs|]. intros k'' Hk''. by apply HQ.
Qed.

(** *** Sorting by a key *)
Lemma insert_by_key (l : list Comet) x :
  ∃ l', insert_sorted (λ a b, Ret (ByTopologicalOrder_Less a b)) x l = Ret l' ∧ l' ≡ₚ x :: l ∧
    (StronglySorted (λ a b, TopologicalIndex a ≤ TopologicalIndex b) l → StronglySorted (λ a b, TopologicalIndex a ≤ TopologicalIndex b) l').
Proof.
  induction l as [|y l (l' & Hl' & Hp & Hs)]; cbn [insert_sorted obind].
  - exists [x]. split; [done|]. split; [done|]. intros _. repeat constructor.
  - destruct (ByTopologicalOrder_Less x y) eqn:Hxy; unfold ByTopologicalOrder_Less in Hxy; [apply Z.ltb_lt in Hxy|apply Z.ltb_ge in Hxy].
    + exists (x :: y :: l). split; [done|]. split; [done|]. intros Hsy. constructor; [done|].
      apply StronglySorted_inv in Hsy as [_ Hy]. constructor; [lia|]. eapply Forall_impl; [exact Hy|]. cbn. lia.
    + rewrite Hl'. cbn [obind]. exists (y :: l'). split; [done|]. split; [by rewrite Hp; constructor|].
      intros [Hsl Hy]%StronglySorted_inv. constructor; [by apply Hs|]. rewrite Hp. by constructor.
Qed.

Lemma sort_by_key (l : list Comet) :
  ∃ l', sort (λ a b, Ret (ByTopologicalOrder_Less a b)) l = Ret l' ∧ l' ≡ₚ l ∧
    StronglySorted (λ a b, TopologicalIndex a ≤ TopologicalIndex b) l'.
Proof.
  induction l as [|x l (l' & Hl' & Hp & Hs)]; [by exists []; repeat constructor|]. cbn [sort]. rewrite Hl'. cbn [obind].
  destruct (insert_by_key l' x) as (l2 & Hl2 & Hp2 & Hs2). exists l2. split; [done|]. split; [by rewrite Hp2, Hp|auto].
Qed.

Lemma sorted_before {A} (R : A → A → Prop) (l : list A) i j x y :
  StronglySorted R l → l !! i = Some x → l !! j = Some y → (i < j)%nat → R x y.
Proof.
  intros Hs. revert i j. induction Hs as [|z l Hs IH Hz]; intros i j Hi Hj Hij; [done|].
  destruct j as [|j]; [lia|]. destruct i as [|i]; cbn in *.
  - injection Hi as <-. rewrite Forall_lookup in Hz. by eapply Hz.
  - apply (IH i j); [done|done|lia].
Qed.

(** What a node that knows [known] misses, oldest first. *)
Record missing ps v (known : gmap Z Z) (l : list Comet) : Prop := {
  mi_nodup : NoDup l;
  mi_elem : ∀ c, c ∈ l ↔ ∃ h id i, comets v !! h = Some c ∧ ps !! Creator c = Some id ∧ known !! id = Some i ∧ i < comet_Index c;
  mi_sorted : StronglySorted (λ a b, TopologicalIndex a ≤ TopologicalIndex b) l
}.

Definition known_ok ps (known : gmap Z Z) : Prop := ∀ id i, known !! id = Some i → -1 ≤ i ∧ ∃ p, ps !! p = Some id.

Lemma EventDiff_spec ps k0 k known :
  core_ok ps k0 → same_core k0 k → known_ok ps known →
  wp (EventDiff known) k (λ o k', ∃ l, o = Ret l ∧ missing ps (view (store (cg k0))) known l ∧ same_core k0 k').
Proof.
  intros Hk Hs Hkn. set (v := view (store (cg k0))). unfold EventDiff. apply wp_bind.
  pose proof (proj2 (dag_ids _ _ _ _ (g_dag _ _ (co_ok _ _ Hk)))) as Hinj.
  eapply (wp_foldM _ (λ kvs l k', same_core k0 k' ∧ NoDup l ∧ ∃ kvs0, range known = kvs0 ++ kvs ∧
            ∀ c, c ∈ l ↔ ∃ h id i, comets v !! h = Some c ∧ ps !! Creator c = Some id ∧ (id, i) ∈ kvs0 ∧ i < comet_Index c)).
  - split; [done|]. split; [constructor|]. exists []. split; [done|]. intros c. split; [by intros ?%elem_of_nil|].
    intros (h & id & i & _ & _ & Hin & _). by apply elem_of_nil in Hin.
  - intros [id i] kvs l k' (Hk' & Hnd & kvs0 & Hr & Hl).
    assert (known !! id = Some i) as Hid by (apply elem_of_range; rewrite Hr; set_solver).
    destruct (Hkn id i Hid) as (Hi & p & Hp). eapply (participant_diff_spec ps k0 k' p id i l); try done.
    intros cs k'' Hnd' Hcs Hk''. split; [done|]. split.
    + apply NoDup_app. split; [done|]. split; [|done]. intros c Hc Hc'. apply Hl in Hc as (h & id' & i' & _ & Hid' & Hin & _).
      apply Hcs in Hc' as (_ & Hcr & _). rewrite Hcr, Hp in Hid'. injection Hid' as <-.
      pose proof (NoDup_fst_range known) as Hu. rewrite Hr, fmap_app, NoDup_app in Hu. destruct Hu as (_ & Hu & _).
      apply (Hu id); [apply list_elem_of_fmap; by exists (id, i')|by left].
    + exists (kvs0 ++ [(id, i)]). split; [by rewrite <-app_assoc|]. intros c. rewrite elem_of_app, Hl, Hcs. unfold above. split.
      * intros [(h & id' & i' & ? & ? & ? & ?)|([h Hc] & Hcr & Hlt)].
        -- exists h, id', i'. split; [done|]. split; [done|]. split; [by apply elem_of_app; left|done].
        -- exists h, id, i. split; [done|]. split; [by rewrite Hcr|]. split; [by apply elem_of_app; right; left|done].
      * intros (h & id' & i' & Hc & Hid' & [Hin|[= -> ->]%list_elem_of_singleton]%elem_of_app & Hlt); [left; eauto 10|].
        right. split; [by exists h|]. split; [|done]. by eapply Hinj.
  - intros l k' (Hk' & Hnd & kvs0 & Hr & Hl). rewrite app_nil_r in Hr. destruct (sort_by_key l) as (l' & Hl' & Hp & Hsorted).
    unfold wp, lift. cbn [fst snd]. exists l'. split; [done|]. split; [|done]. split; [by rewrite Hp| |done].
    intros c. rewrite Hp, Hl, <-Hr. by setoid_rewrite elem_of_range.
Qed.

(** ** Reading from the wire *)
Lemma ReadWireInfo_right ps g c sp op (Q : outcome Comet → CometGraph → Prop) :
  graph_ok ps (view (store g)) → store_ok (store g) → gossip_ok ps (view (store g)) (topologicalIndex g) →
  ReverseParticipants g = reverse_participants ps →
  wire_right ps (Body <$> comets (view (store g))) (Body c) → sendable (Body c) (Signature c) →
  SelfParent c = Ret sp → OtherParent c = Ret op → 0 ≤ comet_Index c →
  (comet_Index c = 0 → sp = "") → (0 < comet_Index c → log_of (view (store g)) (Creator c) (comet_Index c - 1) = Some sp) →
  (∀ g' c', at_store g (view (store g)) g' → Body c' = Body c → Signature c' = Signature c → RoundReceived c' = None → Q (Ret c') g') →
  wp (ReadWireInfo (ToWire c)) g Q.
Proof.
  intros Hg Hok Hgo Hrev (Hcr & Hspi & Hoth) Hsend Hsp Hop H0i Hz Hself HQ. set (v := view (store g)) in *.
  pose proof (dag_ids _ _ _ _ (g_dag _ _ Hg)) as Hids.
  destruct (decode_hexX _ (sd_bytes _ _ Hsend)) as [Hstr Hdec].
  unfold ReadWireInfo. apply wp_gets_bind. rewrite Hrev. cbn [w_Body ToWire w_CreatorID].
  rewrite (reverse_participants_lookup ps (Creator c) (creatorID (Body c)) Hids Hcr). cbn [default].
  eapply wp_lift_bind; [exact Hstr|]. rewrite Hdec. cbn [w_SelfParentIndex w_OtherParentIndex w_OtherParentCreatorID w_Transactions w_Timestamp w_Index w_Signature].
  apply wp_bind. eapply (wp_mono _ _ (λ o g', o = Ret sp ∧ at_store g v g')).
  { rewrite Hspi. change (b_index (Body c)) with (comet_Index c). case_bool_decide as Hi.
    - eapply wp_ParticipantEvent; [done|apply Hself; lia|]. done.
    - apply wp_ret. split; [by rewrite Hz by lia|by apply at_store_refl]. }
  intros o g1 [-> Hat1]. apply wp_bind. eapply (wp_mono _ _ (λ o g', o = Ret op ∧ at_store g v g')).
  { change (b_other (Body c)) with (OtherParent c) in Hoth. rewrite Hop in Hoth.
    destruct Hoth as [([= ->] & -> & _)|(h & bo & [= <-] & Hbo & Hido & Hix)].
    - rewrite bool_decide_false by lia. by apply wp_ret.
    - pose proof (dag_index_lt_max _ _ _ _ _ _ (g_dag _ _ Hg) Hbo). rewrite bool_decide_true by lia.
      rewrite (reverse_participants_lookup ps (b_creator bo) _ Hids Hido). cbn [default]. rewrite Hix.
      pose proof Hat1 as (t & -> & Ht & Hvt). eapply wp_ParticipantEvent; cbn [store upd_store]; [done| |].
      + rewrite Hvt. apply lookup_fmap_Some in Hbo as (o & <- & Ho). exact (go_log _ _ _ Hgo op o Ho).
      + rewrite Hvt. intros g' (t' & -> & Ht' & Hvt'). split; [done|]. by exists t'. }
  intros o g2 [-> Hat2]. apply wp_ret. apply HQ; [done| |done|done]. cbn [Body].
  destruct (sd_parents _ _ Hsend) as (sp' & op' & Hpar). unfold SelfParent, OtherParent in Hsp, Hop. rewrite Hpar in Hsp, Hop.
  cbn in Hsp, Hop. injection Hsp as ->. injection Hop as ->.
  assert (we_BlockSignatures (Creator_bytes (fields (Body c))) (ToWire c) = BlockSignatures (fields (Body c))) as ->.
  { unfold we_BlockSignatures. cbn. unfold WireBlockSignatures. pose proof (sd_own _ _ Hsend) as Hown.
    destruct (BlockSignatures (fields (Body c))) as [bl|]; [|done]. cbn in *. f_equal. rewrite map_map. clear -Hown.
    induction Hown as [|bs bl Hb _ IH]; [done|]. cbn [map]. rewrite IH. f_equal. destruct bs. cbn in *. by subst. }
  rewrite <-Hpar. destruct (Body c) as [[tx pa cr ts ix bs] i1 i2 i3 i4]. done.
Qed.

(** ** Inserting into the core *)

(** What an insertion changes of the core. *)
Record inserts ps k x id op sw k' : Prop := {
  in_ok : core_ok ps k';
  in_post : insert_post ps (view (store (cg k))) x id op sw (topologicalIndex (cg k)) (view (store (cg k')));
  in_key : c_key k' = c_key k;
  in_txs : transactionPool k' = transactionPool k;
  in_sigs : blockSignaturePool k' = blockSignaturePool k;
  in_und : UndeterminedEvents (cg k') = UndeterminedEvents (cg k) ++ [Hex x];
  in_me : Creator x = HexID k → Head k' = Hex x ∧ Seq k' = comet_Index x
}.

Lemma co_head_of ps k k' x id op sw :
  core_ok ps k → insert_post ps (view (store (cg k))) x id op sw (topologicalIndex (cg k)) (view (store (cg k'))) →
  HexID k' = HexID k → (Creator x = HexID k → Head k' = Hex x ∧ Seq k' = comet_Index x) →
  (Creator x ≠ HexID k → Head k' = Head k ∧ Seq k' = Seq k) →
  last_of (view (store (cg k'))) !! HexID k' = Some (Head k') ∧ next_of (view (store (cg k'))) !! HexID k' = Some (Seq k' + 1).
Proof.
  intros Hk Hip -> Hme Hnot. rewrite (ip_last _ _ _ _ _ _ _ _ Hip), (ip_next _ _ _ _ _ _ _ _ Hip).
  destruct (decide (Creator x = HexID k)) as [He|Hne].
  - destruct (Hme He) as [-> ->]. rewrite He, !lookup_insert_eq. done.
  - destruct (Hnot Hne) as [-> ->]. rewrite !lookup_insert_ne by done. split; apply Hk.
Qed.

Lemma InsertEvent_spec ps fuel k x sw id sp op :
  core_ok ps k → valid_insert fuel (cg k) x id sp op →
  (sw = false → wire_right ps (Body <$> comets (view (store (cg k)))) (Body x)) → sendable (Body x) (Signature x) →
  wp (InsertEvent fuel x sw) k (λ o k', o = Ret tt ∧ inserts ps k x id op sw k').
Proof.
  intros Hk Hvi Hsw Hsend. destruct (co_graph _ _ Hk) as (R & rank & Div & Hci). pose proof (ci_graph _ _ _ _ _ Hci) as Hgi.
  pose proof (q_ps _ _ _ (proj1 Hgi)) as Hps.
  unfold InsertEvent, on_cg. apply wp_bind, wp_zoom.
  pose proof (graph_inv_insert ps fuel (cg k) x sw id sp op Hgi Hvi) as Hins.
  destruct (consensus_insert ps R rank Div fuel (cg k) x sw id sp op Hci Hvi) as (R' & rank' & Hci').
  unfold wp in Hins |- *. destruct (InsertComet fuel x sw (cg k)) as [o g']. cbn [fst snd] in *.
  destruct Hins as (-> & Hgi' & Hip & t & Hg'). cbn [fst snd].
  set (k' := if bool_decide (Creator x = HexID (upd_cg g' k)) then set_head (Hex x) (comet_Index x) (upd_cg g' k) else upd_cg g' k).
  change (Ret () = Ret () ∧ inserts ps k x id op sw k'). split; [done|].
  assert (cg k' = g') as Hcg by (unfold k'; by case_bool_decide).
  assert (c_key k' = c_key k) as Hkey by (unfold k'; by case_bool_decide).
  assert (HexID k' = HexID k) as Hid by (unfold HexID, PubKey; by rewrite Hkey).
  assert (Creator x = HexID k → Head k' = Hex x ∧ Seq k' = comet_Index x) as Hme
    by (intros He; unfold k'; by rewrite bool_decide_true).
  assert (blockSignaturePool k' = blockSignaturePool k) as Hpool by (unfold k'; by case_bool_decide).
  rewrite <-Hcg in *. destruct (co_head_of ps k k' x id op sw Hk Hip Hid Hme) as [Hh Hs].
  { intros Hne. unfold k'. by rewrite bool_decide_false. }
  split; try done; [|unfold k'; by case_bool_decide|rewrite Hg'; unfold booked; by destruct (IsLoaded x)]. split; try done.
  - by exists R', rank', Div.
  - rewrite <-Hps in Hip. pose proof (vi_extends _ _ _ _ _ _ Hvi) as Hx. rewrite Hps in Hx, Hip.
    replace (topologicalIndex (cg k')) with (topologicalIndex (cg k) + 1).
    + eapply gossip_insert; [apply (co_ok _ _ Hk)|exact Hx|exact Hip|apply Hk|done|done].
    + rewrite Hg'. unfold booked. by destruct (IsLoaded x).
  - rewrite <-(co_rev _ _ Hk). unfold k'. by case_bool_decide.
  - rewrite <-(co_grev _ _ Hk), Hg'. unfold booked. by destruct (IsLoaded x).
  - rewrite Hpool. unfold PubKey. rewrite Hkey. apply Hk.
Qed.
End Gossip.
