(* ===== verification/GossipSync.v ===== *)
(** Gossip between two nodes: what one hands out, the other takes in, and holds the union of both
    afterwards. *)
From S2P Require Import Prelude Lru Bytes Types Caches Store CometGraph Ancestry Insert Queries Graph Rounds Divide Consensus Sample Wire Core Gossip.
Open Scope Z_scope.

(** Two parts of one history: equal names mean equal contents, and nobody has forked. *)
Record one_history `{Crypto} (B1 B2 : gmap string CometBody) : Prop := {
  oh_same : same_events B1 B2;
  oh_forks : ∀ h1 b1 h2 b2, B1 !! h1 = Some b1 → B2 !! h2 = Some b2 →
    b_creator b1 = b_creator b2 → b_index b1 = b_index b2 → h1 = h2
}.

Lemma same_fields `{Crypto} b1 b2 : fields b1 = fields b2 →
  b_creator b1 = b_creator b2 ∧ b_index b1 = b_index b2 ∧ b_self b1 = b_self b2 ∧ b_other b1 = b_other b2 ∧ b_name b1 = b_name b2.
Proof. intros Hf. unfold b_creator, b_index, b_self, b_other, b_name, body_Hash. by rewrite Hf. Qed.

(** ** The sender and what it hands out *)
(** What the next consensus pass may have to keep: the blocks there are and those it may add. *)
Definition load `{RangeOrder, Crypto} {S : Type} `{Store S, !StoreLaws S} (k : Core (S := S)) : Z :=
  Z.of_nat (base.size (blocks (view (store (cg k))))) + len (UndeterminedEvents (cg k)).

Lemma inserts_load `{RangeOrder, Crypto} {S : Type} `{Store S, !StoreLaws S} ps (k k' : Core (S := S)) x id op sw :
  inserts ps k x id op sw k' → load k' = load k + 1.
Proof.
  intros Hin. pose proof (ip_blocks _ _ _ _ _ _ _ _ (in_post _ _ _ _ _ _ _ Hin)) as Hd. unfold load.
  rewrite (in_und _ _ _ _ _ _ _ Hin), <-!(size_dom (D := gset Z)), Hd. unfold len. rewrite length_app. cbn [length]. lia.
Qed.

Section Transfer.
Context `{RangeOrder, Crypto} {S : Type} `{Store S, !StoreLaws S} (fuel : nat) (ps : gmap string Z).
Context (vA : content) (topoA : Z) (HgA : graph_ok ps vA) (HoA : gossip_ok ps vA topoA).
Context (B0 : Core (S := S)) (HB0 : core_ok ps B0).
Abbreviation vB := (view (store (cg B0))).
Abbreviation BA := (Body <$> comets vA).
Abbreviation BB := (Body <$> comets vB).
Context (Hone : one_history BA BB).
Context (K : gmap Z Z) (Hkn : ∀ p id n, ps !! p = Some id → next_of vB !! p = Some n → K !! id = Some (n - 1)).
Context (l : list Comet) (Hmi : missing ps vA K l).
Context (HfA : fuel_ok fuel vA) (HfB : fuel_ok fuel vB).

Lemma stored_name v h c : graph_ok ps v → comets v !! h = Some c → h = Hex c.
Proof.
  intros Hg Hc. symmetry. apply (dag_name _ _ _ _ (g_dag _ _ Hg) h (Body c)). by rewrite lookup_fmap, Hc.
Qed.

(** The parents of a comet were inserted before it, and so were the earlier ones of its creator. *)
Lemma anc_topo h c h' c' :
  comets vA !! h = Some c → comets vA !! h' = Some c' → anc BA h h' → h ≠ h' → TopologicalIndex c' < TopologicalIndex c.
Proof.
  intros Hc Hc' Ha Hne. revert c Hc Hne. induction Ha as [x|x y z Hxy Hyz IH]; intros c Hc Hne; [done|].
  assert (is_Some (comets vA !! y)) as [cy Hy].
  { destruct Hxy as (b & _ & [b' Hb'] & _). apply lookup_fmap_Some in Hb' as (cy & _ & ?). by exists cy. }
  pose proof (go_order _ _ _ HoA x c y cy Hc Hy Hxy) as Hlt.
  destruct (decide (y = z)) as [->|Hyz']; [congruence|]. specialize (IH Hc' cy Hy Hyz'). lia.
Qed.

(** What the receiver misses. *)
Lemma in_missing h c p n :
  comets vA !! h = Some c → Creator c = p → next_of vB !! p = Some n → n ≤ comet_Index c → c ∈ l.
Proof.
  intros Hc <- Hn Hle. apply (mi_elem _ _ _ _ Hmi).
  destruct (dag_creator _ _ _ _ h (Body c) (g_dag _ _ HgA)) as [id Hid]; [by rewrite lookup_fmap, Hc|].
  change (b_creator (Body c)) with (Creator c) in Hid. exists h, id, (n - 1). split; [done|]. split; [done|].
  split; [by apply (Hkn (Creator c))|lia].
Qed.

Lemma missing_stored c : c ∈ l → comets vA !! Hex c = Some c.
Proof. intros (h & id & i & Hc & _)%(mi_elem _ _ _ _ Hmi). by rewrite <-(stored_name vA h c HgA Hc). Qed.

Lemma next_B p : is_Some (ps !! p) → is_Some (next_of vB !! p).
Proof. intros Hp. apply elem_of_dom. rewrite (dag_next _ _ _ _ (g_dag _ _ (co_ok _ _ HB0))). by apply elem_of_dom. Qed.

Lemma missing_above c : c ∈ l → ∃ n, next_of vB !! Creator c = Some n ∧ n ≤ comet_Index c.
Proof.
  intros (h & id & i & Hc & Hid & Hi & Hlt)%(mi_elem _ _ _ _ Hmi). destruct (next_B (Creator c)) as [n Hn]; [by eexists|].
  exists n. split; [done|]. rewrite (Hkn _ _ _ Hid Hn) in Hi. injection Hi as <-. lia.
Qed.

(** A comet that both hold is the same on both sides, wire fields included. *)
Lemma same_body h b1 b2 : BA !! h = Some b1 → BB !! h = Some b2 → b1 = b2.
Proof.
  intros Hb1 Hb2. pose proof (oh_same _ _ Hone h b1 b2 Hb1 Hb2) as Hf. destruct (same_fields b1 b2 Hf) as (Hcr & Hix & _ & Hot & _).
  pose proof Hb1 as (c1 & <- & Hc1)%lookup_fmap_Some. pose proof Hb2 as (c2 & <- & Hc2)%lookup_fmap_Some.
  destruct (go_wire _ _ _ HoA h c1 Hc1) as (A1 & A2 & A3). destruct (go_wire _ _ _ (co_gossip _ _ HB0) h c2 Hc2) as (B1 & B2 & B3).
  rewrite Hcr, B1 in A1. injection A1 as A1. rewrite Hot in A3.
  assert (otherParentIndex (Body c1) = otherParentIndex (Body c2) ∧ otherParentCreatorID (Body c1) = otherParentCreatorID (Body c2)) as [Ho1 Ho2].
  { destruct A3 as [(Ha & -> & ->)|(x & bo & Ha & Hbo & Hid & ->)], B3 as [(Hb & -> & ->)|(y & bo' & Hb & Hbo' & Hid' & ->)]; try done;
      rewrite Ha in Hb; injection Hb as Hb; subst.
    - by rewrite (dag_ne_empty _ _ _ _ (g_dag _ _ (co_ok _ _ HB0))) in Hbo'.
    - by rewrite (dag_ne_empty _ _ _ _ (g_dag _ _ HgA)) in Hbo.
    - destruct (same_fields bo bo' (oh_same _ _ Hone _ _ _ Hbo Hbo')) as (Hc' & Hi' & _). split; [done|]. congruence. }
  destruct (Body c1), (Body c2). cbn in *. congruence.
Qed.

(** Whatever the sender holds, the receiver holds or is sent. *)
Lemma held_or_missing h c : comets vA !! h = Some c → BB !! h = Some (Body c) ∨ c ∈ l.
Proof.
  intros Hc. assert (BA !! h = Some (Body c)) as Hb by (by rewrite lookup_fmap, Hc).
  destruct (next_B (Creator c)) as [n Hn]; [destruct (dag_creator _ _ _ _ h _ (g_dag _ _ HgA) Hb) as [id ?]; by exists id|].
  destruct (decide (n ≤ comet_Index c)) as [Hle|Hgt]; [right; by eapply in_missing|left].
  pose proof (dag_index_lt_max _ _ _ _ _ _ (g_dag _ _ HgA) Hb) as Hi.
  destruct (dag_full _ _ _ _ (g_dag _ _ (co_ok _ _ HB0)) _ _ (comet_Index c) Hn) as (h' & b' & Hb' & Hcr & Hix).
  { unfold b_index, comet_Index in *. lia. }
  assert (h = h') as <- by (apply (oh_forks _ _ Hone h (Body c) h' b' Hb Hb'); done).
  by rewrite Hb', (same_body h _ _ Hb Hb').
Qed.

(** ** The receiver, after the comets [l1] *)
Record syncing (l1 : list Comet) (k : Core) : Prop := {
  sy_ok : core_ok ps k;
  sy_bodies : ∀ h b, (Body <$> comets (view (store (cg k)))) !! h = Some b ↔ BB !! h = Some b ∨ ∃ c, c ∈ l1 ∧ Hex c = h ∧ Body c = b;
  sy_key : c_key k = c_key B0;
  sy_txs : transactionPool k = transactionPool B0;
  sy_sigs : blockSignaturePool k = blockSignaturePool B0;
  sy_size : Z.of_nat (base.size (comets (view (store (cg k))))) = Z.of_nat (base.size (comets vB)) + len l1;
  sy_cap : capacity (view (store (cg k))) = capacity vB;
  sy_load : load k = load B0 + len l1
}.

(** Everything that is not new comes from one of the two. *)
Lemma held_from l1 k h b : syncing l1 k → (∀ c, c ∈ l1 → c ∈ l) →
  (Body <$> comets (view (store (cg k)))) !! h = Some b → BB !! h = Some b ∨ BA !! h = Some b.
Proof.
  intros Hk Hsub [?|(c' & Hc' & <- & <-)]%(sy_bodies _ _ Hk); [by left|right]. by rewrite lookup_fmap, missing_stored by auto.
Qed.

Lemma sync_fuel l1 k : syncing l1 k → (∀ c, c ∈ l1 → c ∈ l) → fuel_ok fuel (view (store (cg k))).
Proof.
  intros Hk Hsub p n Hn. pose proof (g_dag _ _ (co_ok _ _ (sy_ok _ _ Hk))) as Hdk. pose proof (dag_next_range _ _ _ _ Hdk _ _ Hn).
  assert (is_Some (ps !! p)) as Hp by (apply elem_of_dom; rewrite <-(dag_next _ _ _ _ Hdk); by eapply elem_of_dom_2).
  destruct (next_B p Hp) as [nB HnB]. pose proof (HfB _ _ HnB). destruct (decide (n = 0)) as [->|Hne].
  { pose proof (dag_next_range _ _ _ _ (g_dag _ _ (co_ok _ _ HB0)) _ _ HnB). lia. }
  destruct (dag_full _ _ _ _ Hdk p n (n - 1) Hn ltac:(lia)) as (h & b & Hb & Hcr & Hix).
  destruct (held_from l1 k h b Hk Hsub Hb) as [Hb'|Hb'].
  - destruct (dag_range _ _ _ _ (g_dag _ _ (co_ok _ _ HB0)) _ _ Hb') as (n' & Hn' & ?). rewrite Hcr in Hn'. pose proof (HfB _ _ Hn'). lia.
  - destruct (dag_range _ _ _ _ (g_dag _ _ HgA) _ _ Hb') as (n' & Hn' & ?). rewrite Hcr in Hn'. pose proof (HfA _ _ Hn'). lia.
Qed.

Lemma syncing_same l1 k k1 : syncing l1 k → same_core k k1 → syncing l1 k1.
Proof.
  intros Hk Hs. pose proof (same_core_view _ _ Hs) as Hv. pose proof (same_core_ok _ _ _ (sy_ok _ _ Hk) Hs) as Hok.
  assert (load k1 = load k) as Hload by (unfold load; rewrite Hv; by destruct Hs as (g & -> & t & -> & _)).
  destruct Hs as (g & -> & _). destruct Hk. split; try done; by rewrite ?Hv, ?Hload.
Qed.

Section Next.
Context (l1 l2 : list Comet) (c : Comet) (Hl : l = l1 ++ c :: l2) (k : Core) (Hk : syncing l1 k).
Abbreviation vk := (view (store (cg k))).
Abbreviation Bk := (Body <$> comets vk).

Lemma c_missing : c ∈ l.
Proof. rewrite Hl. set_solver. Qed.

Lemma c_body : BA !! Hex c = Some (Body c).
Proof. by rewrite lookup_fmap, (missing_stored c c_missing). Qed.

Lemma held_fork h b : Bk !! h = Some b → b_creator b = Creator c → b_index b = comet_Index c → h = Hex c.
Proof.
  intros Hb Hcr Hix. destruct (held_from l1 k h b Hk) as [HbB|HbA]; [intros c' ?; rewrite Hl; set_solver|done|..].
  - symmetry. apply (oh_forks _ _ Hone (Hex c) (Body c) h b c_body HbB); done.
  - by apply (dag_uniq _ _ _ _ (g_dag _ _ HgA) h (Hex c) b (Body c) HbA c_body).
Qed.

Lemma c_fresh : Bk !! Hex c = None.
Proof.
  destruct (Bk !! Hex c) as [b|] eqn:Hb; [|done]. exfalso. apply (sy_bodies _ _ Hk) in Hb as [Hb|(c' & Hc' & Hhex & _)].
  - destruct (missing_above c c_missing) as (n & Hn & Hle). pose proof (same_body _ _ _ c_body Hb) as <-.
    destruct (dag_range _ _ _ _ (g_dag _ _ (co_ok _ _ HB0)) _ _ Hb) as (n' & Hn' & Hr).
    change (b_creator (Body c)) with (Creator c) in Hn'. rewrite Hn in Hn'. injection Hn' as <-. unfold b_index, comet_Index in *. lia.
  - assert (c' = c) as ->.
    { pose proof (missing_stored c c_missing) as H1'. pose proof (missing_stored c' ltac:(rewrite Hl; set_solver)) as H2'. congruence. }
    pose proof (mi_nodup _ _ _ _ Hmi) as Hnd. rewrite Hl, NoDup_app in Hnd. destruct Hnd as (_ & Hnd & _). by apply (Hnd c Hc'); left.
Qed.

(** What was inserted before at the sender has been sent before. *)
Lemma sent_before h c' : comets vA !! h = Some c' → TopologicalIndex c' < TopologicalIndex c → Bk !! h = Some (Body c').
Proof.
  intros Hc' Hlt. apply (sy_bodies _ _ Hk). destruct (held_or_missing h c' Hc') as [?|Hin]; [by left|right].
  exists c'. split; [|by rewrite <-(stored_name vA h c' HgA Hc')]. rewrite Hl in Hin. apply elem_of_app in Hin as [|Hin]; [done|].
  exfalso. pose proof (mi_sorted _ _ _ _ Hmi) as Hs. rewrite Hl in Hs. apply StronglySorted_app_1_r in Hs.
  apply StronglySorted_inv in Hs as [_ Hs]. apply elem_of_cons in Hin as [->|Hin]; [lia|].
  rewrite Forall_forall in Hs. specialize (Hs c' Hin). lia.
Qed.

Lemma held_earlier h c' : comets vA !! h = Some c' → Creator c' = Creator c → comet_Index c' < comet_Index c → Bk !! h = Some (Body c').
Proof.
  intros Hc' Hcr Hlt. apply (sent_before h c' Hc'). pose proof (missing_stored c c_missing) as Hc.
  apply (anc_topo (Hex c) c h c' Hc Hc').
  - apply (anc_same_creator ps BA _ _ (Hex c) h (Body c) (Body c') (g_dag _ _ HgA)); try done; [by apply c_body|by rewrite lookup_fmap, Hc'|].
    unfold b_index, comet_Index in *. lia.
  - intros <-. assert (c' = c) as -> by congruence. lia.
Qed.

Lemma c_next : next_of vk !! Creator c = Some (comet_Index c).
Proof.
  pose proof (g_dag _ _ (co_ok _ _ (sy_ok _ _ Hk))) as Hdk. pose proof (g_dag _ _ HgA) as HdA.
  pose proof (dag_index_lt_max _ _ _ _ _ _ HdA c_body) as Hi. change (b_index (Body c)) with (comet_Index c) in Hi.
  assert (is_Some (next_of vk !! Creator c)) as [n Hn].
  { destruct (dag_creator _ _ _ _ _ _ HdA c_body) as [id Hid]. apply elem_of_dom. rewrite (dag_next _ _ _ _ Hdk). by eapply elem_of_dom_2. }
  rewrite Hn. f_equal. destruct (Z.lt_trichotomy n (comet_Index c)) as [Hlt|[?|Hgt]]; [|done|].
  - exfalso. destruct (dag_range _ _ _ _ HdA _ _ c_body) as (nA & HnA & HrA). change (b_index (Body c)) with (comet_Index c) in HrA.
    pose proof (dag_next_range _ _ _ _ Hdk _ _ Hn).
    destruct (dag_full _ _ _ _ HdA _ _ n HnA ltac:(lia)) as (h & b & Hb & Hcr & Hix). apply lookup_fmap_Some in Hb as (c' & <- & Hc').
    assert (Bk !! h = Some (Body c')) as Hb.
    { apply held_earlier; [done|exact Hcr|]. unfold b_index, comet_Index in *. lia. }
    destruct (dag_range _ _ _ _ Hdk _ _ Hb) as (n' & Hn' & Hr). rewrite Hcr in Hn'. change (b_creator (Body c)) with (Creator c) in Hn'.
    rewrite Hn in Hn'. injection Hn' as <-. lia.
  - exfalso. destruct (dag_full _ _ _ _ Hdk _ _ (comet_Index c) Hn ltac:(lia)) as (h & b & Hb & Hcr & Hix).
    rewrite (held_fork h b Hb Hcr Hix) in Hb. by rewrite c_fresh in Hb.
Qed.

Lemma c_parents : ∃ id sp op, extends ps vk c id sp op ∧
  (comet_Index c = 0 → sp = "") ∧ (0 < comet_Index c → log_of vk (Creator c) (comet_Index c - 1) = Some sp) ∧
  wire_right ps Bk (Body c).
Proof.
  pose proof (g_dag _ _ (co_ok _ _ (sy_ok _ _ Hk))) as Hdk. pose proof (g_dag _ _ HgA) as HdA.
  pose proof (co_gossip _ _ (sy_ok _ _ Hk)) as Hgk. pose proof (missing_stored c c_missing) as Hc.
  destruct (dag_creator _ _ _ _ _ _ HdA c_body) as [id Hid]. change (b_creator (Body c)) with (Creator c) in Hid.
  pose proof (dag_index_lt_max _ _ _ _ _ _ HdA c_body) as Hi. change (b_index (Body c)) with (comet_Index c) in Hi.
  assert (is_Some (last_of vk !! Creator c)) as [lst Hlst]
    by (apply elem_of_dom; rewrite (dag_last_dom _ _ _ _ Hdk); by eapply elem_of_dom_2).
  assert (∃ sp, SelfParent c = Ret sp ∧ lst = sp ∧ (comet_Index c = 0 → sp = "") ∧
            (0 < comet_Index c → log_of vk (Creator c) (comet_Index c - 1) = Some sp)) as (sp & Hsp & -> & Hz & Hlog).
  { destruct (dag_self _ _ _ _ HdA _ _ c_body) as [[H0' Hs]|(sp & b' & Hs & Hb' & Hcr & Hix)]; change (b_self (Body c)) with (SelfParent c) in Hs.
    - exists "". change (b_index (Body c)) with (comet_Index c) in H0'. split; [done|]. split; [|split; [done|lia]].
      destruct (dag_last _ _ _ _ Hdk _ _ _ c_next Hlst) as [[_ ?]|(b & Hb & _ & Hib)]; [done|].
      pose proof (dag_index_lt_max _ _ _ _ _ _ Hdk Hb). lia.
    - exists sp. split; [done|]. change (b_creator (Body c)) with (Creator c) in Hcr. change (b_index (Body c)) with (comet_Index c) in Hix.
      pose proof (dag_index_lt_max _ _ _ _ _ _ HdA Hb') as Hi'. apply lookup_fmap_Some in Hb' as (c' & <- & Hc').
      assert (Bk !! sp = Some (Body c')) as Hbk by (apply held_earlier; [done..|]; unfold b_index, comet_Index in *; lia).
      split; [|split; [lia|]].
      + destruct (dag_last _ _ _ _ Hdk _ _ _ c_next Hlst) as [[? _]|(b & Hb & Hcb & Hib)]; [lia|].
        eapply (dag_uniq _ _ _ _ Hdk); [exact Hb|exact Hbk|congruence|congruence].
      + intros _. apply lookup_fmap_Some in Hbk as (ck & Hbk & Hck). pose proof (go_log _ _ _ Hgk sp ck Hck) as Hlk.
        rewrite <-Hcr, <-Hix. unfold Creator, comet_Index in Hlk. rewrite Hbk in Hlk. exact Hlk. }
  destruct (go_wire _ _ _ HoA (Hex c) c Hc) as (Hw1 & Hw2 & Hw3).
  assert (∃ op, OtherParent c = Ret op ∧ (op = "" ∨ is_Some (comets vk !! op)) ∧ wire_right ps Bk (Body c)) as (op & Hop & Hk' & Hw).
  { destruct Hw3 as [(Ho & Hw3)|(op & bo & Ho & Hbo & Hw3)].
    - exists "". split; [done|]. split; [by left|]. split; [done|]. split; [done|]. by left.
    - pose proof Hbo as (co & <- & Hco)%lookup_fmap_Some. exists op.
      assert (Bk !! op = Some (Body co)) as Hbk.
      { apply (sent_before op co Hco). apply (go_order _ _ _ HoA (Hex c) c op co Hc Hco).
        exists (Body c). split; [apply c_body|]. split; [by eexists|by right]. }
      split; [done|]. split; [right; apply lookup_fmap_Some in Hbk as (ck & _ & ?); by exists ck|].
      split; [done|]. split; [done|]. right. by exists op, (Body co). }
  exists id, sp, op. split; [|done]. split; try done; [|apply c_next|lia].
  pose proof c_fresh as Hf. rewrite lookup_fmap in Hf. by destruct (comets vk !! Hex c).
Qed.

End Next.

Context (Hroom : Z.of_nat (base.size (comets vB)) + len l ≤ capacity vB).

(** One comet from the wire. *)
Lemma sync_one l1 l2 c (Q : outcome unit → Core → Prop) c' k1 :
  l = l1 ++ c :: l2 → syncing l1 k1 → Body c' = Body c → Signature c' = Signature c → RoundReceived c' = None →
  (∀ k', syncing (l1 ++ [c]) k' → Q (Ret tt) k') → wp (InsertEvent fuel c' false) k1 Q.
Proof.
  intros Hl Hk Hbody Hsig Hnew HQ. destruct (c_parents l1 l2 c Hl k1 Hk) as (id & sp & op & Hx & _ & _ & Hw).
  assert (c ∈ l) as Hc by (rewrite Hl; set_solver). pose proof (missing_stored c Hc) as HcA.
  pose proof (go_send _ _ _ HoA (Hex c) c HcA) as Hsend.
  assert (Hex c' = Hex c) as Hhex by (unfold Hex; by rewrite Hbody).
  eapply wp_mono.
  - eapply (InsertEvent_spec ps fuel k1 c' false id sp op (sy_ok _ _ Hk)); [|by intros _; rewrite Hbody|by rewrite Hbody, Hsig].
    split.
    + rewrite (q_ps _ _ _ (proj1 (co_inv _ _ (sy_ok _ _ Hk)))). eapply extends_fields; [|exact Hx]. by rewrite Hbody.
    + rewrite <-(sd_verify _ _ Hsend). unfold Verify. cbn. by rewrite Hbody, Hsig.
    + apply law_room. rewrite (sy_size _ _ Hk), (sy_cap _ _ Hk). rewrite Hl in Hroom. unfold len in *. rewrite length_app in Hroom. cbn in Hroom. lia.
    + apply (sync_fuel l1 k1 Hk). intros c0 ?. rewrite Hl. set_solver.
    + unfold comet_BlockSignatures. rewrite Hbody. apply Hsend.
    + done.
  - intros o k' [-> Hin]. apply HQ. pose proof (in_post _ _ _ _ _ _ _ Hin) as Hip.
    pose proof (ip_bodies _ _ _ _ _ _ _ _ Hip) as HB. cbn [kept_body] in HB. rewrite Hhex, Hbody in HB.
    pose proof (c_fresh l1 l2 c Hl k1 Hk) as Hfresh. split.
    + apply Hin.
    + intros h b. rewrite HB, lookup_insert_Some, (sy_bodies _ _ Hk h b). setoid_rewrite elem_of_app. setoid_rewrite list_elem_of_singleton.
      split.
      * intros [[<- <-]|[_ [?|(c0 & ? & ? & ?)]]]; [right; exists c; auto|by left|right; exists c0; auto].
      * intros [HbB|(c0 & [Hc0| ->] & Hh & Hb)]; [right|right|left; done].
        -- split; [|by left]. intros <-. assert ((Body <$> comets (view (store (cg k1)))) !! Hex c = Some b) as Hb by (apply (sy_bodies _ _ Hk); by left). congruence.
        -- split; [|right; by exists c0]. intros <-. assert ((Body <$> comets (view (store (cg k1)))) !! Hex c = Some b) as Hb' by (apply (sy_bodies _ _ Hk); right; by exists c0). congruence.
    + rewrite (in_key _ _ _ _ _ _ _ Hin). apply Hk.
    + rewrite (in_txs _ _ _ _ _ _ _ Hin). apply Hk.
    + rewrite (in_sigs _ _ _ _ _ _ _ Hin). apply Hk.
    + apply (f_equal base.size) in HB. rewrite map_size_insert_None in HB by done. rewrite !map_size_fmap in HB.
      rewrite HB. pose proof (sy_size _ _ Hk) as Hsz. unfold len in *. rewrite length_app. cbn [length]. lia.
    + rewrite (ip_capacity _ _ _ _ _ _ _ _ Hip). apply Hk.
    + rewrite (inserts_load _ _ _ _ _ _ _ Hin), (sy_load _ _ Hk). unfold len. rewrite length_app. cbn [length]. lia.
Qed.

Lemma sync_read l1 l2 c k (Q : outcome Comet → Core → Prop) :
  l = l1 ++ c :: l2 → syncing l1 k →
  (∀ c' k1, Body c' = Body c → Signature c' = Signature c → RoundReceived c' = None → syncing l1 k1 → Q (Ret c') k1) →
  wp (on_cg (ReadWireInfo (ToWire c))) k Q.
Proof.
  intros Hl Hk HQ. destruct (c_parents l1 l2 c Hl k Hk) as (id & sp & op & Hx & Hz & Hlog & Hw).
  assert (c ∈ l) as Hc by (rewrite Hl; set_solver). pose proof (missing_stored c Hc) as HcA.
  pose proof (sy_ok _ _ Hk) as Hok. unfold on_cg. apply wp_zoom.
  assert (0 ≤ comet_Index c) as Hi.
  { assert (BA !! Hex c = Some (Body c)) as Hb by (by rewrite lookup_fmap, HcA). apply (dag_index_lt_max _ _ _ _ _ _ (g_dag _ _ HgA) Hb). }
  eapply (ReadWireInfo_right ps (cg k) c sp op); try done.
  - apply (co_ok _ _ Hok).
  - apply (q_ok _ _ _ (proj1 (co_inv _ _ Hok))).
  - apply (co_gossip _ _ Hok).
  - apply (co_grev _ _ Hok).
  - apply (go_send _ _ _ HoA (Hex c) c HcA).
  - apply Hx.
  - apply Hx.
  - intros g' c' Hat Hb Hs Hr. apply HQ; [done|done|done|]. eapply syncing_same; [exact Hk|]. by exists g'.
Qed.

(** All of them. *)
Lemma sync_events_spec : ∀ l2 l1 k, l = l1 ++ l2 → syncing l1 k →
  wp (sync_events fuel (map ToWire l2)) k (λ o k', o = Ret (default "" (Hex <$> last l2)) ∧ syncing l k').
Proof.
  induction l2 as [|c l2 IH]; intros l1 k Hl Hk; cbn [map sync_events].
  - apply wp_ret. split; [done|]. by rewrite Hl, app_nil_r.
  - apply wp_bind. apply (sync_read l1 l2 c k); [done|done|]. intros c' k1 Hb Hs Hr Hk1.
    apply wp_bind. apply (sync_one l1 l2 c _ c' k1); try done. intros k' Hk'.
    assert (Hex c' = Hex c) as Hhex by (unfold Hex; by rewrite Hb). destruct l2 as [|c2 l2].
    + cbn [map]. apply wp_ret. rewrite Hhex. split; [done|]. by rewrite Hl.
    + rewrite last_cons_cons. apply (IH (l1 ++ [c]) k'); [by rewrite <-app_assoc|done].
Qed.

Lemma syncing_start : syncing [] B0.
Proof.
  split; try done.
  - intros h b. split; [by left|]. intros [?|(c & Hc & _)]; [done|by apply elem_of_nil in Hc].
  - unfold len. cbn. lia.
  - unfold len. cbn. lia.
Qed.

(** In the end the receiver holds what either held. *)
Lemma syncing_all k h b : syncing l k → BA !! h = Some b → (Body <$> comets (view (store (cg k)))) !! h = Some b.
Proof.
  intros Hk (c & <- & Hc)%lookup_fmap_Some. apply (sy_bodies _ _ Hk). destruct (held_or_missing h c Hc) as [?|Hin]; [by left|right].
  exists c. split; [done|]. split; [|done]. symmetry. by apply (stored_name vA).
Qed.
End Transfer.

(** ** The comets a node makes *)
Section Own.
Context `{RangeOrder, Crypto} {S : Type} `{Store S, !StoreLaws S} (fuel : nat) (ps : gmap string Z).
Implicit Types (k : Core (S := S)).

(** A key pair that works, and bodies that have a JSON form. *)
Record signs (key : PrivKey) : Prop := {
  sg_bytes : is_bytes (FromECDSAPub key);
  sg_nonempty : FromECDSAPub key ≠ [];
  sg_json : ∀ f, ∃ data, json_body f = inr data;
  sg_sign : ∀ hash, ∃ r s, ecdsa_Sign key hash = inr (r, s) ∧ ecdsa_Verify (FromECDSAPub key) hash r s = Ret true
}.

Lemma signed_sendable key txs sigs sp op i now :
  signs key → Forall (λ bs, bs_Validator bs = FromECDSAPub key ∧ sig_ok bs) (of_nilable sigs) →
  ∃ x, Sign key (NewComet txs sigs [sp; op] (FromECDSAPub key) i now) = Ret x ∧
    Body x = Body (NewComet txs sigs [sp; op] (FromECDSAPub key) i now) ∧ sendable (Body x) (Signature x) ∧ RoundReceived x = None.
Proof.
  intros [Hb Hne Hj Hs] Hsigs. set (c := NewComet _ _ _ _ _ _). destruct (Hj (fields (Body c))) as [data Hdata].
  destruct (Hs (SHA256 data)) as (r & s & Hrs & Hv). exists (set_Signature (EncodeSignature r s) c).
  split; [unfold Sign, body_Hash; by rewrite Hdata, Hrs|]. split; [done|]. split; [|done]. split.
  - by exists sp, op.
  - exact Hb.
  - unfold Verify, body_Hash. cbn [Body Signature set_Signature]. rewrite Hdata, signature_text_roundtrip. cbn [fields Body c NewComet Creator_bytes].
    unfold verify_sig. destruct (FromECDSAPub key); [done|]. by rewrite Hv.
  - eapply Forall_impl; [exact Hsigs|]. by intros bs [_ ?].
  - eapply Forall_impl; [exact Hsigs|]. by intros bs [? _].
Qed.

Lemma own_event k txs sigs op now :
  core_ok ps k → signs (c_key k) → Forall (λ bs, bs_Validator bs = PubKey k ∧ sig_ok bs) (of_nilable sigs) →
  let x := NewComet txs sigs [Head k; op] (PubKey k) (Seq k + 1) now in
  op = "" ∨ is_Some (comets (view (store (cg k))) !! op) → comets (view (store (cg k))) !! Hex x = None →
  room_comet (view (store (cg k))) → fuel_ok fuel (view (store (cg k))) → Z.of_nat fuel ≤ MaxInt32 →
  wp (SignAndInsertSelfEvent fuel x) k (λ o k', o = Ret tt ∧ ∃ x' id, Body x' = Body x ∧ inserts ps k x' id op true k').
Proof.
  intros Hk Hs Hsigs x Hop Hfresh Hroom Hf HM.
  destruct (signed_sendable (c_key k) txs sigs (Head k) op (Seq k + 1) now Hs Hsigs) as (x' & Hsign & Hbody & Hsend & Hnew).
  fold (PubKey k) in Hsign, Hbody. fold x in Hsign, Hbody.
  assert (is_Some (ps !! HexID k)) as [id Hid].
  { apply elem_of_dom. rewrite <-(dag_next _ _ _ _ (g_dag _ _ (co_ok _ _ Hk))). eapply elem_of_dom_2, (co_seq _ _ Hk). }
  unfold SignAndInsertSelfEvent. apply wp_gets_bind. eapply wp_lift_bind; [exact Hsign|].
  eapply wp_mono; [eapply (InsertEvent_spec ps fuel k x' true id (Head k) op Hk); [|done|done]|].
  - split.
    + rewrite (q_ps _ _ _ (proj1 (co_inv _ _ Hk))). apply (extends_fields ps _ x); [by rewrite Hbody|].
      split; try done; [apply (co_seq _ _ Hk)| |apply (co_head _ _ Hk)].
      pose proof (Hf _ _ (co_seq _ _ Hk)). unfold comet_Index. cbn. lia.
    + rewrite <-(sd_verify _ _ Hsend). done.
    + done.
    + done.
    + apply Hsend.
    + done.
  - intros o k' [-> Hin]. split; [done|]. by exists x', id.
Qed.

(** *** The first comet *)

(** The head and the sequence number play no part when the node's own comet is inserted. *)
Lemma InsertEvent_own h i x sw k k' :
  Creator x = HexID k → InsertEvent fuel x sw (set_head h i k) = (Ret tt, k') → InsertEvent fuel x sw k = (Ret tt, k').
Proof.
  intros Hme. unfold InsertEvent, on_cg, zoom, mbind, M_bind. cbn [cg set_head]. destruct (InsertComet fuel x sw (cg k)) as [[[]| | |] g]; try done.
  unfold modify. rewrite !bool_decide_true by done. by intros [= <-].
Qed.

Lemma new_core_ok id key st ch k inst :
  ids_ok ps → 2 ≤ Z.of_nat (base.size ps) → store_ok st → fresh_content ps (view st) → is_Some (ps !! hexX (FromECDSAPub key)) →
  NewCore id key ps st ch None = (Ret k, inst) → core_ok ps (set_head "" (-1) k) ∧ c_key k = key ∧ Seq k = 0 ∧ view (store (cg k)) = view st.
Proof.
  intros Hids Hn Hok Hfr [me Hme] Hnew. unfold NewCore, mbind, M_bind in Hnew. destruct (BuildCometGraph ps st ch None) as [[g| | |] i] eqn:Hb; try done.
  cbn in Hnew. injection Hnew as <- <-. pose proof (consensus_new ps st ch g i Hids Hn Hok Hfr Hb) as Hci.
  unfold BuildCometGraph, mbind, M_bind, get, modify, mret, M_ret in Hb. cbn in Hb. injection Hb as <- _.
  split; [|done]. split; cbn; try done.
  - eexists _, _, _. exact Hci.
  - split; cbn; rewrite ?(fr_comets _ _ Hfr); try (intros; by simplify_map_eq).
    + apply Hfr.
    + intros p j h. by rewrite (fr_log _ _ Hfr).
  - unfold HexID, PubKey. cbn. rewrite (fr_last _ _ Hfr), lookup_fmap, Hme. done.
  - unfold HexID, PubKey. cbn. rewrite (fr_next _ _ Hfr), lookup_fmap, Hme. done.
Qed.

Lemma Init_ok id key st ch k inst :
  ids_ok ps → 2 ≤ Z.of_nat (base.size ps) → store_ok st → fresh_content ps (view st) → is_Some (ps !! hexX (FromECDSAPub key)) →
  signs key → 0 < capacity (view st) → Z.of_nat fuel ≤ MaxInt32 → (0 < fuel)%nat →
  NewCore id key ps st ch None = (Ret k, inst) →
  wp (Init fuel) k (λ o k', o = Ret tt ∧ core_ok ps k').
Proof.
  intros Hids Hn Hok Hfr Hme Hs Hcap HM Hf0 Hnew. destruct (new_core_ok id key st ch k inst) as (Hk & Hkey & Hseq & Hv); try done.
  set (k0 := set_head "" (-1) k) in *. unfold Init. apply wp_gets_bind. rewrite Hseq.
  assert (comets (view (store (cg k0))) = ∅) as Hemp by (change (cg k0) with (cg k); rewrite Hv; apply Hfr).
  pose proof (own_event k0 None None "" zero_time Hk) as Hown. cbn zeta in Hown. change (Head k0) with "" in Hown. change (Seq k0 + 1) with 0 in Hown.
  change (PubKey k0) with (PubKey k) in Hown. set (x := NewComet None None [""; ""] (PubKey k) 0 zero_time) in *.
  destruct Hown as (Ho & x' & id' & Hb & Hin).
  - change (c_key k0) with (c_key k). by rewrite Hkey.
  - constructor.
  - by left.
  - by rewrite Hemp, lookup_empty.
  - apply law_room. rewrite Hemp, map_size_empty. change (cg k0) with (cg k). rewrite Hv. lia.
  - change (cg k0) with (cg k). rewrite Hv. intros p n. rewrite (fr_next _ _ Hfr), lookup_fmap. destruct (ps !! p); [|done]. intros [= <-]. lia.
  - done.
  - unfold wp. unfold SignAndInsertSelfEvent, mbind, M_bind, get, lift in *. cbn [fst snd] in *. change (c_key k0) with (c_key k) in *.
    destruct (Sign (c_key k) x) as [x1| | |] eqn:Hsg; try done.
    assert (Creator x1 = HexID k) as Hc.
    { unfold Sign in Hsg. destruct (body_Hash (Body x)); try done. destruct (ecdsa_Sign _ _) as [|[? ?]]; try done. by injection Hsg as <-. }
    destruct (InsertEvent fuel x1 true k0) as [o k'] eqn:He. cbn [fst snd] in *. subst o.
    rewrite (InsertEvent_own "" (-1) x1 true k k' Hc He). split; [done|]. apply Hin.
Qed.
End Own.

(** ** Two nodes *)
Definition knows ps v (K : gmap Z Z) : Prop :=
  known_ok ps K ∧ ∀ p id n, ps !! p = Some id → next_of v !! p = Some n → K !! id = Some (n - 1).

Lemma core_refl `{RangeOrder, Crypto} {S : Type} `{Store S, !StoreLaws S} ps (k : Core (S := S)) : core_ok ps k → same_core k k.
Proof. intros Hk. apply same_core_refl, (q_ok _ _ _ (proj1 (co_inv _ _ Hk))). Qed.

Lemma KnownEvents_spec `{RangeOrder, Crypto} {S : Type} `{Store S, !StoreLaws S} ps (k0 k : Core (S := S)) :
  core_ok ps k0 → same_core k0 k →
  wp KnownEvents k (λ o k', ∃ K, o = Ret K ∧ knows ps (view (store (cg k0))) K ∧ same_core k0 k').
Proof.
  intros Hk Hs. pose proof (co_ok _ _ Hk) as Hg. pose proof (go_members _ _ _ (co_gossip _ _ Hk)) as Hm.
  eapply (wp_read _ k0 k (λ o, ∃ K, o = Ret K ∧ knows ps (view (store (cg k0))) K)); [done| |].
  - intros s Hok Hv. eapply wp_mono; [by apply law_KnownEvents|]. intros o s' (Ho & ? & ?). split; [|done].
    rewrite Hv, Hm in Ho. destruct Ho as (K & -> & Hkn & Hids). exists K. split; [done|]. split; [|done].
    intros id i Hi. destruct (Hids id i Hi) as [p Hp]. split; [|by exists p].
    assert (is_Some (next_of (view (store (cg k0))) !! p)) as [n Hn] by (apply elem_of_dom; rewrite (dag_next _ _ _ _ (g_dag _ _ Hg)); by eapply elem_of_dom_2).
    rewrite (Hkn p id n Hp Hn) in Hi. injection Hi as <-. pose proof (dag_next_range _ _ _ _ (g_dag _ _ Hg) _ _ Hn). lia.
  - intros o k' (K & -> & HK) Hk'. by exists K.
Qed.

(** C9: what a node hands out.  [EventDiff] returns exactly the comets that a node with the given
    last indexes does not know, each once, in the order they were inserted, so parents come before
    their children; the core still holds what it held. *)
Theorem event_diff_exact `{RangeOrder, Crypto} {S : Type} `{Store S, !StoreLaws S} ps (A : Core (S := S)) K :
  core_ok ps A → known_ok ps K →
  wp (EventDiff K) A (λ o A', ∃ l, o = Ret l ∧
    NoDup l ∧
    (∀ c, c ∈ l ↔ ∃ id i, comets (view (store (cg A))) !! Hex c = Some c ∧ ps !! Creator c = Some id ∧ K !! id = Some i ∧ i < comet_Index c) ∧
    (∀ i j c c', l !! i = Some c → l !! j = Some c' → edge (Body <$> comets (view (store (cg A)))) (Hex c) (Hex c') → (j < i)%nat) ∧
    core_ok ps A' ∧ view (store (cg A')) = view (store (cg A))).
Proof.
  intros HA HK. eapply wp_mono; [by apply (EventDiff_spec ps A A); [|apply (core_refl ps)|]|].
  intros o A' (l & -> & Hmi & Hs). pose proof (co_ok _ _ HA) as Hg. exists l. split; [done|]. split; [apply Hmi|].
  assert (∀ c, c ∈ l → comets (view (store (cg A))) !! Hex c = Some c) as Hst by (intros c; by apply (missing_stored ps _ Hg K l Hmi)).
  split; [|split; [|split; [by eapply same_core_ok|by apply same_core_view]]].
  - intros c. rewrite (mi_elem _ _ _ _ Hmi). split.
    + intros (h & id & i & Hc & ?). exists id, i. by rewrite <-(stored_name ps _ _ _ Hg Hc).
    + intros (id & i & ?). by exists (Hex c), id, i.
  - intros i j c c' Hi Hj He. pose proof (Hst c (list_elem_of_lookup_2 _ _ _ Hi)) as Hc. pose proof (Hst c' (list_elem_of_lookup_2 _ _ _ Hj)) as Hc'.
    pose proof (go_order _ _ _ (co_gossip _ _ HA) _ _ _ _ Hc Hc' He) as Hlt.
    destruct (decide (j < i)%nat) as [|Hge]; [done|]. assert (i ≠ j) as Hne by (intros ->; assert (c = c') by congruence; subst; lia).
    assert (i < j)%nat as Hij by lia. pose proof (sorted_before _ l i j c c' (mi_sorted _ _ _ _ Hmi) Hi Hj Hij) as Hle. cbn in Hle. lia.
Qed.

Section TwoNodes.
Context {C : Crypto} {O1 O2 : RangeOrder} {S1 S2 : Type} {St1 : Store S1} {St2 : Store S2}
  {L1 : @StoreLaws S1 O1 C St1} {L2 : @StoreLaws S2 O2 C St2}.
Abbreviation held1 k := (Body <$> comets (@view S1 O1 C St1 L1 (store (cg k)))).
Abbreviation held2 k := (Body <$> comets (@view S2 O2 C St2 L2 (store (cg k)))).

(** The names the next comet of a node may get at the time [now]. *)
Definition own_name (k : Core (S := S2)) (now : Z) (sp op : string) (i : Z) : string :=
  Hex (NewComet (Some (transactionPool k)) (Some (blockSignaturePool k)) [sp; op] (PubKey k) i now).

(** None of them is in use. *)
Definition unused (fuel : nat) (D : gmap string CometBody) (k : Core (S := S2)) (now : Z) : Prop :=
  ∀ sp op i, 0 ≤ i < Z.of_nat fuel → D !! own_name k now sp op i = None.

(** A comet that [B] made itself, above all its comets that [A] or [B] had. *)
Record made (fuel : nat) (A : Core (S := S1)) (B : Core (S := S2)) (now : Z) (op h : string) (b : CometBody) : Prop := {
  md_name : ∃ sp, h = own_name B now sp op (b_index b);
  md_creator : b_creator b = HexID B;
  md_other : b_other b = Ret op;
  md_txs : Transactions (fields b) = Some (transactionPool B);
  md_sigs : BlockSignatures (fields b) = Some (blockSignaturePool B);
  md_index : 0 ≤ b_index b < Z.of_nat fuel;
  md_tight : b_index b = 0 ∨ ∃ h' b', (held1 A !! h' = Some b' ∨ held2 B !! h' = Some b') ∧ b_creator b' = HexID B ∧ b_index b' = b_index b - 1;
  md_above : ∀ h' b', held1 A !! h' = Some b' ∨ held2 B !! h' = Some b' → b_creator b' = HexID B → b_index b' < b_index b
}.

(** What [Sync] leaves of the comets [l] of [A] and of the core [B]. *)
Record took ps fuel (A : Core (S := S1)) (B : Core (S := S2)) (l : list Comet) now (B' : Core (S := S2)) : Prop := {
  tk_ok : @core_ok O2 C S2 St2 L2 ps B';
  tk_A : ∀ h b, held1 A !! h = Some b → held2 B' !! h = Some b;
  tk_B : ∀ h b, held2 B !! h = Some b → held2 B' !! h = Some b;
  tk_from : ∀ h b, held2 B' !! h = Some b → held1 A !! h = Some b ∨ held2 B !! h = Some b ∨
    made fuel A B now (default "" (Hex <$> last l)) h b;
  tk_txs : transactionPool B' = [];
  tk_sigs : blockSignaturePool B' = [];
  tk_key : c_key B' = c_key B;
  tk_size : Z.of_nat (base.size (held2 B')) ≤ Z.of_nat (base.size (held2 B)) + len l + 1;
  tk_cap : capacity (view (store (cg B'))) = capacity (view (store (cg B)));
  tk_head : l ≠ [] ∨ transactionPool B ≠ [] ∨ blockSignaturePool B ≠ [] →
    ∃ b, held2 B' !! Head B' = Some b ∧ made fuel A B now (default "" (Hex <$> last l)) (Head B') b
}.

Lemma Sync_spec ps fuel (A : Core (S := S1)) (B : Core (S := S2)) K l now :
  @core_ok O1 C S1 St1 L1 ps A → @core_ok O2 C S2 St2 L2 ps B → one_history (held1 A) (held2 B) →
  (∀ p id n, ps !! p = Some id → next_of (@view S2 O2 C St2 L2 (store (cg B))) !! p = Some n → K !! id = Some (n - 1)) →
  missing ps (@view S1 O1 C St1 L1 (store (cg A))) K l →
  fuel_ok fuel (@view S1 O1 C St1 L1 (store (cg A))) → fuel_ok fuel (@view S2 O2 C St2 L2 (store (cg B))) → Z.of_nat fuel ≤ MaxInt32 →
  Z.of_nat (base.size (held2 B)) + len l < capacity (@view S2 O2 C St2 L2 (store (cg B))) →
  signs (c_key B) → unused fuel (held1 A) B now → unused fuel (held2 B) B now →
  wp (Sync fuel (Core_ToWire l) now) B (λ o B', o = Ret tt ∧ took ps fuel A B l now B' ∧ load B' ≤ load B + len l + 1).
Proof.
  intros HA HB Hone Hkn Hmi HfA HfB HM Hroom Hsig HuA HuB.
  pose proof (co_ok _ _ HA) as HgA. pose proof (co_gossip _ _ HA) as HoA. rewrite map_size_fmap in Hroom.
  set (vA := view (store (cg A))) in *.
  unfold Sync. apply wp_bind. eapply wp_mono.
  { apply (sync_events_spec fuel ps vA _ HgA HoA B HB Hone K Hkn l Hmi HfA HfB ltac:(lia) l [] B eq_refl (syncing_start ps B HB)). }
  intros o k [-> Hk]. apply wp_gets_bind.
  pose proof (syncing_all ps vA _ HgA HoA B HB Hone K Hkn l Hmi k) as HallA.
  assert (∀ h b, held2 B !! h = Some b → held2 k !! h = Some b) as HallB by (intros h b Hb; apply (sy_bodies _ _ _ _ Hk); by left).
  assert (∀ h b, held2 k !! h = Some b → held1 A !! h = Some b ∨ held2 B !! h = Some b) as Hfrom.
  { intros h b Hb. destruct (held_from ps vA HgA B K l Hmi l k h b) as [?|?]; auto. }
  pose proof (sync_fuel fuel ps vA HgA B HB K l Hmi HfA HfB l k Hk ltac:(done)) as Hfk.
  pose proof (sy_ok _ _ _ _ Hk) as Hok. pose proof (sy_size _ _ _ _ Hk) as Hsz. rewrite <-!(map_size_fmap Body) in Hsz.
  rewrite (sy_txs _ _ _ _ Hk), (sy_sigs _ _ _ _ Hk). case_bool_decide as Hne.
  2:{ assert (transactionPool B = [] ∧ blockSignaturePool B = [] ∧ l = []) as (H1' & H2' & H3').
      { destruct (transactionPool B), (blockSignaturePool B), l; try done; exfalso; apply Hne; cbn; auto. }
      apply wp_ret. split; [done|]. split; [|rewrite (sy_load _ _ _ _ Hk); lia]. split; try done; try apply Hk; auto.
      - intros h b Hb. destruct (Hfrom h b Hb); auto.
      - by rewrite (sy_txs _ _ _ _ Hk).
      - by rewrite (sy_sigs _ _ _ _ Hk).
      - lia.
      - rewrite H1', H2', H3'. by intros [?|[?|?]]. }
  set (op := default "" (Hex <$> last l)) in *.
  assert (own_name k now (Head k) op (Seq k + 1) = own_name B now (Head k) op (Seq k + 1)) as Hown.
  { unfold own_name, PubKey. by rewrite (sy_key _ _ _ _ Hk), (sy_txs _ _ _ _ Hk), (sy_sigs _ _ _ _ Hk). }
  pose proof (co_seq _ _ Hok) as Hseq. pose proof (Hfk _ _ Hseq) as Hlt.
  pose proof (dag_next_range _ _ _ _ (g_dag _ _ (co_ok _ _ Hok)) _ _ Hseq) as Hge.
  assert (held2 k !! own_name k now (Head k) op (Seq k + 1) = None) as Hfresh.
  { rewrite Hown. destruct (held2 k !! _) as [b|] eqn:Hb; [|done]. destruct (Hfrom _ _ Hb) as [Hb'|Hb'].
    - rewrite HuA in Hb'; [done|lia].
    - rewrite HuB in Hb'; [done|lia]. }
  apply wp_bind, wp_wrap. eapply wp_mono.
  - eapply (own_event fuel ps k (Some (transactionPool k)) (Some (blockSignaturePool k)) op now); try done.
    + by rewrite (sy_key _ _ _ _ Hk).
    + apply (co_pool _ _ Hok).
    + unfold op. destruct (last l) as [c|] eqn:Hlast; [right|by left]. cbn.
      assert (held2 k !! Hex c = Some (Body c)) as Hc.
      { apply (sy_bodies _ _ _ _ Hk). right. exists c. split; [by apply last_Some_elem_of|done]. }
      apply lookup_fmap_Some in Hc as (c' & _ & ?). by exists c'.
    + unfold own_name in Hfresh. rewrite lookup_fmap in Hfresh. by destruct (comets _ !! _).
    + apply law_room. rewrite (sy_size _ _ _ _ Hk), (sy_cap _ _ _ _ Hk). lia.
  - intros o k' (-> & x & id & Hbody & Hin). unfold wp, modify. cbn [fst snd]. split; [done|].
    pose proof (in_post _ _ _ _ _ _ _ Hin) as Hip. pose proof (ip_bodies _ _ _ _ _ _ _ _ Hip) as HB'.
    assert (Hex x = own_name k now (Head k) op (Seq k + 1)) as Hhex by (unfold Hex; by rewrite Hbody).
    set (bx := kept_body ps (view (store (cg k))) op id true x) in *. rewrite Hhex in HB'.
    assert (∀ h b, held2 k !! h = Some b → held2 k' !! h = Some b) as Hgrow.
    { intros h b Hb. rewrite HB', lookup_insert_ne; [done|]. intros Heq. congruence. }
    assert (Creator x = HexID k) as Hcr by (unfold Creator; by rewrite Hbody).
    assert (HexID k = HexID B) as Hme by (unfold HexID, PubKey; by rewrite (sy_key _ _ _ _ Hk)).
    destruct (in_me _ _ _ _ _ _ _ Hin Hcr) as [Hhead _].
    assert (fields bx = fields (Body x)) as Hfx by done. rewrite Hbody in Hfx.
    assert (made fuel A B now op (Hex x) bx) as Hmade.
    { assert (b_index bx = Seq k + 1) as Hix by (unfold b_index; by rewrite Hfx).
      split; rewrite ?Hix; unfold b_creator, b_other; rewrite ?Hfx; try done; try lia.
      - exists (Head k). by rewrite Hhex, Hown.
      - cbn. by rewrite (sy_txs _ _ _ _ Hk).
      - cbn. by rewrite (sy_sigs _ _ _ _ Hk).
      - destruct (decide (Seq k + 1 = 0)) as [|Hn0]; [by left|right].
        destruct (dag_full _ _ _ _ (g_dag _ _ (co_ok _ _ Hok)) (HexID k) (Seq k + 1) (Seq k) Hseq ltac:(lia)) as (h' & b' & Hb' & Hcr' & Hix').
        exists h', b'. split; [by apply Hfrom|]. split; [unfold b_creator in Hcr'; by rewrite Hcr'|lia].
      - intros h' b' Hb' Hcr'. assert (held2 k !! h' = Some b') as Hb2 by (destruct Hb'; auto).
        destruct (dag_range _ _ _ _ (g_dag _ _ (co_ok _ _ Hok)) h' b' Hb2) as (n & Hn & ?).
        rewrite <-Hme in Hcr'. unfold b_creator in *. rewrite Hcr', Hseq in Hn. injection Hn as <-. lia. }
    split; [|change (load (set_pools [] [] k')) with (load k'); rewrite (inserts_load _ _ _ _ _ _ _ Hin), (sy_load _ _ _ _ Hk); lia].
    split; cbn [cg transactionPool blockSignaturePool c_key set_pools Head]; try done.
    + destruct (in_ok _ _ _ _ _ _ _ Hin). by split.
    + intros h b Hb. apply Hgrow. by apply HallA.
    + intros h b Hb. apply Hgrow. by apply HallB.
    + intros h b. rewrite HB', lookup_insert_Some. intros [[<- <-]|[_ Hb]].
      * right; right. by rewrite <-Hhex.
      * destruct (Hfrom h b Hb); auto.
    + rewrite (in_key _ _ _ _ _ _ _ Hin). apply Hk.
    + rewrite HB', map_size_insert_None by done. lia.
    + rewrite (ip_capacity _ _ _ _ _ _ _ _ Hip). apply Hk.
    + intros _. exists bx. rewrite Hhead. split; [by rewrite HB', Hhex, lookup_insert_eq|done].
Qed.
End TwoNodes.

(** ** On a concrete network *)

(** Alice and Bob, each after the first comet. *)
Definition sample_core (key : @PrivKey sample_crypto) : Core :=
  match (NewCore 0 key sample_ps sample_store (Some []) None).1 with
  | Ret k => (Init sample_fuel k).2
  | _ => mkCore 0 key sample_new sample_ps ∅ "" 0 [] []
  end.
Definition alice_core : Core := sample_core 1.
Definition bob_core : Core := sample_core 2.

Lemma sample_signs (key : @PrivKey sample_crypto) : key = 1 ∨ key = 2 → signs key.
Proof.
  intros Hkey. split; [| |by intros f; eexists|by intros h; exists key, 1].
  - constructor; [|constructor]. unfold is_byte. lia.
  - done.
Qed.

Lemma sample_core_ok (key : @PrivKey sample_crypto) : key = 1 ∨ key = 2 → core_ok sample_ps (sample_core key).
Proof.
  intros Hkey. unfold sample_core. destruct (NewCore 0 key sample_ps sample_store (Some []) None) as [o inst] eqn:Hnew.
  assert (∃ k, o = Ret k) as [k ->] by (unfold NewCore, mbind, M_bind, BuildCometGraph, get in Hnew; cbn in Hnew; injection Hnew as <- _; by eexists).
  cbn [fst]. refine (proj2 (Init_ok sample_fuel sample_ps 0 key sample_store (Some []) k inst _ _ _ _ _ _ _ _ _ Hnew)).
  - apply sample_ids.
  - by vm_compute.
  - apply Inmem.inmem_ok_new; [lia|apply sample_ids].
  - apply sample_fresh.
  - destruct Hkey as [->| ->]; decided.
  - by apply sample_signs.
  - by vm_compute.
  - by vm_compute.
  - unfold sample_fuel. lia.
Qed.

(** What Bob knows: none of Alice's comets and one of his own. *)
Definition bob_knows : gmap Z Z := {[0 := -1; 1 := 0]}.

Lemma event_diff_exact_witness :
  ∃ c, (EventDiff bob_knows alice_core).1 = Ret [c] ∧ comets (view (store (cg alice_core))) !! Hex c = Some c.
Proof.
  assert (known_ok sample_ps bob_knows) as HK.
  { assert (map_Forall (λ id i, -1 ≤ i ∧ id ∈ (map_to_list sample_ps).*2) bob_knows) as Hd by decided.
    intros id i Hi. destruct (Hd id i Hi) as [? Hin]. split; [done|]. apply list_elem_of_fmap in Hin as ([p id'] & -> & Hin).
    exists p. by apply elem_of_map_to_list in Hin. }
  destruct (event_diff_exact sample_ps alice_core bob_knows (sample_core_ok 1 ltac:(by left)) HK) as (l & Hl & _ & Hel & _).
  assert (match (EventDiff bob_knows alice_core).1 with Ret l => length l | _ => 0%nat end = 1%nat) as Hlen by (vm_compute; reflexivity).
  rewrite Hl in Hlen |- *. destruct l as [|c [|]]; try discriminate Hlen. exists c. split; [reflexivity|].
  destruct (proj1 (Hel c) ltac:(by left)) as (? & ? & Hc & _). exact Hc.
Defined.

(** The name of a sample comet is its creator, its index and its time. *)
Lemma sample_unused (D : gmap string CometBody) (k : Core (S := Inmem.InmemStore)) now :
  Forall (λ i, D !! hexX ((PubKey k) ++ [i; now]) = None) (seqZ 0 (Z.of_nat sample_fuel)) → unused sample_fuel D k now.
Proof. intros Hall sp op i Hi. rewrite Forall_forall in Hall. apply (Hall i). apply elem_of_seqZ. lia. Qed.
