(* ===== verification/Network.v ===== *)
(** Two nodes that gossip: a call of [gossip] of one node, with the calls of [processRPC] of the
    other that it causes, leaves both with everything either held.  The properties of the peer
    selector and of the heartbeat of [Node] are here too. *)
From S2P Require Import Prelude Lru Bytes Types Caches Store CometGraph Ancestry Insert Queries Graph Rounds Divide Order Received Consensus Sample Wire Core Gossip GossipSync Node.
Open Scope Z_scope.

(** ** A direct line to one other node

    [makeRPC] of the transports without the wire: the command is handed to the peer's [processRPC]
    at the time [ln_now] of the peer's clock, and the answer comes back.  The peer itself has no
    line, since it needs none to answer. *)
Record Offline := mkOffline { off_addr : string }.

#[export] Instance Offline_transport : Transport Offline := {|
  tr_LocalAddr := off_addr;
  tr_Sync t _ := fail (Errorf ("failed to connect to peer: " +:+ t));
  tr_EagerSync t _ := fail (Errorf ("failed to connect to peer: " +:+ t));
  tr_Close := mret tt
|}.

Section Line.
Context `{RangeOrder, Crypto} {S : Type} `{Store S} {P : Type}.

Record Line := mkLine { ln_local : string; ln_addr : string; ln_now : Z; ln_fuel : nat; ln_node : Node (S := S) (W := Offline) (P := P) }.
Definition upd_line (m : Node (S := S) (W := Offline) (P := P)) (w : Line) : Line :=
  mkLine (ln_local w) (ln_addr w) (ln_now w) (ln_fuel w) m.

Definition deliver (target : string) (cmd : rpc_command) : M Line rpc_answer :=
  w ← get;
  if bool_decide (target = ln_addr w) then
    resp ← zoom ln_node upd_line (processRPC (ln_fuel w) cmd (ln_now w));
    match resp.2 with Some err => fail err | None => mret resp.1 end
  else fail (Errorf ("failed to connect to peer: " +:+ target)).

#[export] Instance Line_transport : Transport Line := {|
  tr_LocalAddr := ln_local;
  tr_Sync t r := a ← deliver t (CSync r); match a with ASync x => mret x | _ => fail (Errorf "unexpected answer") end;
  tr_EagerSync t r := a ← deliver t (CEager r); match a with AEager x => mret x | _ => fail (Errorf "unexpected answer") end;
  tr_Close := mret tt
|}.
End Line.

(** ** How far behind

    What [OverSyncLimit] counts, in no order. *)
Definition gap (known : gmap Z Z) (id li : Z) : Z := Z.max 0 (li - default 0 (known !! id)).
Definition behind (mine known : gmap Z Z) : Z := map_fold (λ id li tot, tot + gap known id li) 0 mine.

Lemma unknown_total_sum (known : gmap Z Z) (l : list (Z * Z)) t :
  foldl (λ tot '(i, li), let k := default 0 (known !! i) in if bool_decide (k < li) then tot + (li - k) else tot) t l =
  t + foldr (λ kv tot, tot + gap known kv.1 kv.2) 0 l.
Proof.
  revert t. induction l as [|[i li] l IH]; intros t; cbn [foldl foldr fst snd]; [lia|]. rewrite IH. cbn zeta. unfold gap. case_bool_decide; lia.
Qed.

Lemma unknown_total_behind `{RangeOrder} mine known : unknown_total mine known = behind mine known.
Proof.
  unfold unknown_total, behind. rewrite unknown_total_sum, map_fold_foldr, Z.add_0_l.
  assert (∀ l1 l2 : list (Z * Z), l1 ≡ₚ l2 → foldr (λ kv tot, tot + gap known kv.1 kv.2) 0 l1 = foldr (λ kv tot, tot + gap known kv.1 kv.2) 0 l2) as Hp.
  { induction 1; cbn; lia. }
  rewrite (Hp _ _ (range_perm mine)). generalize (map_to_list mine). induction l as [|[i li] l IH]; cbn; [done|]. by rewrite IH.
Qed.

Lemma behind_insert known (m : gmap Z Z) i x : m !! i = None → behind (<[i := x]> m) known = behind m known + gap known i x.
Proof. intros Hi. unfold behind. rewrite map_fold_insert_L; [done| |done]. intros. lia. Qed.

(** One more of one participant is at most one more. *)
Lemma behind_le known me : ∀ m1 m2 : gmap Z Z, dom m1 = dom m2 →
  (∀ i x y, m1 !! i = Some x → m2 !! i = Some y → gap known i x ≤ gap known i y + if bool_decide (i = me) then 1 else 0) →
  behind m1 known ≤ behind m2 known + if bool_decide (me ∈ dom m1) then 1 else 0.
Proof.
  intros m1. induction m1 as [|i x m1 Hi IH] using map_ind; intros m2 Hdom Hle.
  - rewrite dom_empty_L in Hdom. symmetry in Hdom. apply dom_empty_inv_L in Hdom as ->. unfold behind. rewrite map_fold_empty. by case_bool_decide.
  - assert (is_Some (m2 !! i)) as [y Hy] by (apply elem_of_dom; rewrite <-Hdom, dom_insert_L; set_solver).
    rewrite <-(insert_delete_id m2 i y Hy), !behind_insert by (done || apply lookup_delete_eq).
    pose proof (Hle i x y (lookup_insert_eq _ _ _) Hy) as Hxy. opose proof (IH (delete i m2) _ _) as Hm.
    + rewrite dom_delete_L, <-Hdom, dom_insert_L. apply not_elem_of_dom in Hi. set_solver.
    + intros j a b Ha Hb. apply lookup_delete_Some in Hb as [Hne Hb]. apply (Hle j a b); [|done]. by rewrite lookup_insert_ne.
    + apply not_elem_of_dom in Hi. assert (me ∈ dom (<[i := x]> m1) ↔ i = me ∨ me ∈ dom m1) as Hme by set_solver.
      repeat case_bool_decide; subst; try lia; exfalso; tauto.
Qed.

Lemma knows_dom `{RangeOrder, Crypto} ps v K : graph_ok ps v → knows ps v K → ∀ id, id ∈ dom K ↔ ∃ p, ps !! p = Some id.
Proof.
  intros Hg [Hok Hkn] id. split.
  - intros [i Hi]%elem_of_dom. by apply (Hok id i).
  - intros [p Hp]. assert (is_Some (next_of v !! p)) as [n Hn] by (apply elem_of_dom; rewrite (dag_next _ _ _ _ (g_dag _ _ Hg)); by eapply elem_of_dom_2).
    apply elem_of_dom. eexists. by apply (Hkn p id n).
Qed.

Lemma missing_len `{RangeOrder, Crypto} ps v K l : missing ps v K l → len l ≤ Z.of_nat (base.size (Body <$> comets v)).
Proof.
  intros [Hnd Hel _]. rewrite map_size_fmap, <-length_map_to_list, <-(length_fmap snd). unfold len. apply inj_le.
  apply submseteq_length, NoDup_submseteq; [done|]. intros c (h & _ & _ & Hc & _)%Hel. apply list_elem_of_fmap. exists (h, c). split; [done|].
  by apply elem_of_map_to_list.
Qed.

(** The next comets of two nodes get different names. *)
Definition apart `{Crypto} {S1 S2 : Type} (fuel : nat) (A : Core (S := S1)) now (B : Core (S := S2)) now' : Prop :=
  ∀ sp op i sp' op' i', 0 ≤ i < Z.of_nat fuel → 0 ≤ i' < Z.of_nat fuel → own_name A now sp op i ≠ own_name B now' sp' op' i'.

(** ** What a node holds that was sent the comets of another *)
Section Took.
Context {C : Crypto} {O1 O2 : RangeOrder} {S1 S2 : Type} {St1 : Store S1} {St2 : Store S2}
  {L1 : @StoreLaws S1 O1 C St1} {L2 : @StoreLaws S2 O2 C St2} (ps : gmap string Z) (fuel : nat).
Abbreviation view1 k := (@view S1 O1 C St1 L1 (store (cg k))).
Abbreviation view2 k := (@view S2 O2 C St2 L2 (store (cg k))).
Abbreviation held1 k := (Body <$> comets (view1 k)).
Abbreviation held2 k := (Body <$> comets (view2 k)).
Context (A : Core (S := S1)) (B : Core (S := S2)) (l : list Comet) (now : Z) (B' : Core (S := S2)).
Context (HA : @core_ok O1 C S1 St1 L1 ps A) (HB : @core_ok O2 C S2 St2 L2 ps B).
Context (Ht : @took C O1 O2 S1 S2 St1 St2 L1 L2 ps fuel A B l now B').

Lemma took_history : one_history (held1 A) (held2 B) → unused fuel (held1 A) B now → one_history (held2 B') (held1 A).
Proof.
  intros [Hf Hi] Hu. split.
  - intros h b1 b2 H1 H2. destruct (tk_from _ _ _ _ _ _ _ Ht h b1 H1) as [H1'|[H1'|Hm]].
    + congruence.
    + symmetry. by apply (Hf h).
    + destruct (md_name _ _ _ _ _ _ _ Hm) as [sp ->]. rewrite Hu in H2; [done|]. apply Hm.
  - intros h1 b1 h2 b2 H1 H2 Hcr Hix. destruct (tk_from _ _ _ _ _ _ _ Ht h1 b1 H1) as [H1'|[H1'|Hm]].
    + by eapply (dag_uniq _ _ _ _ (g_dag _ _ (co_ok _ _ HA))).
    + symmetry. by apply (Hi h2 b2 h1 b1).
    + rewrite (md_creator _ _ _ _ _ _ _ Hm) in Hcr. pose proof (md_above _ _ _ _ _ _ _ Hm h2 b2 ltac:(by left) ltac:(done)). lia.
Qed.

Lemma took_next p nA nB n' :
  next_of (view1 A) !! p = Some nA → next_of (view2 B) !! p = Some nB → next_of (view2 B') !! p = Some n' →
  n' ≤ Z.max nA nB + if bool_decide (p = HexID B) then 1 else 0.
Proof.
  intros HnA HnB Hn'. pose proof (g_dag _ _ (co_ok _ _ HA)) as HdA. pose proof (g_dag _ _ (co_ok _ _ HB)) as HdB.
  pose proof (dag_next_range _ _ _ _ HdA _ _ HnA). pose proof (dag_next_range _ _ _ _ HdB _ _ HnB).
  assert (∀ h b, held1 A !! h = Some b ∨ held2 B !! h = Some b → b_creator b = p → b_index b < Z.max nA nB) as Hlt.
  { intros h b [Hb|Hb] Hcr.
    - destruct (dag_range _ _ _ _ HdA h b Hb) as (n & Hn & ?). rewrite Hcr, HnA in Hn. injection Hn as <-. lia.
    - destruct (dag_range _ _ _ _ HdB h b Hb) as (n & Hn & ?). rewrite Hcr, HnB in Hn. injection Hn as <-. lia. }
  destruct (decide (n' ≤ 0)); [case_bool_decide; lia|].
  destruct (dag_full _ _ _ _ (g_dag _ _ (co_ok _ _ (tk_ok _ _ _ _ _ _ _ Ht))) p n' (n' - 1) Hn' ltac:(lia)) as (h & b & Hb & Hcr & Hix).
  destruct (tk_from _ _ _ _ _ _ _ Ht h b Hb) as [Hb'|[Hb'|Hm]].
  - pose proof (Hlt h b (or_introl Hb') Hcr). case_bool_decide; lia.
  - pose proof (Hlt h b (or_intror Hb') Hcr). case_bool_decide; lia.
  - rewrite (md_creator _ _ _ _ _ _ _ Hm) in Hcr. rewrite bool_decide_true by done.
    destruct (md_tight _ _ _ _ _ _ _ Hm) as [Hz|(h' & b' & Hb' & Hcr' & Hix')]; [lia|].
    pose proof (Hlt h' b' Hb' ltac:(congruence)). lia.
Qed.

Lemma took_nexts p : is_Some (next_of (view2 B') !! p) → is_Some (next_of (view1 A) !! p) ∧ is_Some (next_of (view2 B) !! p).
Proof.
  rewrite <-!elem_of_dom, (dag_next _ _ _ _ (g_dag _ _ (co_ok _ _ HA))), (dag_next _ _ _ _ (g_dag _ _ (co_ok _ _ HB))),
    (dag_next _ _ _ _ (g_dag _ _ (co_ok _ _ (tk_ok _ _ _ _ _ _ _ Ht)))). done.
Qed.

Lemma took_fuel f : fuel_ok f (view1 A) → fuel_ok f (view2 B) → fuel_ok (Datatypes.S f) (view2 B').
Proof.
  intros HfA HfB p n Hn. destruct (took_nexts p ltac:(by eexists)) as [[nA HnA] [nB HnB]].
  pose proof (took_next p nA nB n HnA HnB Hn). pose proof (HfA p nA HnA). pose proof (HfB p nB HnB). case_bool_decide; lia.
Qed.

Lemma took_behind KA KB K' : knows ps (view1 A) KA → knows ps (view2 B) KB → knows ps (view2 B') K' → behind K' KA ≤ behind KB KA + 1.
Proof.
  intros HKA HKB HK'. assert (is_Some (ps !! HexID B)) as [me Hme].
  { apply elem_of_dom. rewrite <-(dag_next _ _ _ _ (g_dag _ _ (co_ok _ _ HB))). eapply elem_of_dom_2, (co_seq _ _ HB). }
  etrans; [apply (behind_le KA me K' KB)|case_bool_decide; lia].
  - apply set_eq. intros id. rewrite (knows_dom ps _ _ (co_ok _ _ (tk_ok _ _ _ _ _ _ _ Ht)) HK'), (knows_dom ps _ _ (co_ok _ _ HB) HKB). done.
  - intros id x y Hx Hy. destruct (proj1 HK' id x Hx) as (_ & p & Hp).
    assert (is_Some (next_of (view2 B') !! p)) as [n Hn].
    { apply elem_of_dom. rewrite (dag_next _ _ _ _ (g_dag _ _ (co_ok _ _ (tk_ok _ _ _ _ _ _ _ Ht)))). by eapply elem_of_dom_2. }
    destruct (took_nexts p ltac:(by eexists)) as [[nA HnA] [nB HnB]]. pose proof (took_next p nA nB n HnA HnB Hn) as Hle.
    pose proof (proj2 HK' p id n Hp Hn) as E1. pose proof (proj2 HKB p id nB Hp HnB) as E2. pose proof (proj2 HKA p id nA Hp HnA) as E3.
    rewrite Hx in E1. rewrite Hy in E2. injection E1 as ->. injection E2 as ->. unfold gap. rewrite E3. cbn.
    destruct (decide (p = HexID B)) as [->|Hne].
    + rewrite Hme in Hp. injection Hp as ->. rewrite !bool_decide_true in * by done. lia.
    + rewrite (bool_decide_false (p = HexID B)) in Hle by done. case_bool_decide; lia.
Qed.

Lemma took_unused (X : Core (S := S1)) now' :
  unused fuel (held1 A) X now' → unused fuel (held2 B) X now' →
  apart fuel B now X now' → unused fuel (held2 B') X now'.
Proof.
  intros H1 H2 Hd sp op i Hi. destruct (held2 B' !! _) as [b|] eqn:Hb; [|done].
  destruct (tk_from _ _ _ _ _ _ _ Ht _ b Hb) as [Hb'|[Hb'|Hm]].
  - by rewrite H1 in Hb'.
  - by rewrite H2 in Hb'.
  - destruct (md_name _ _ _ _ _ _ _ Hm) as [sp' Heq].
    exfalso. apply (Hd sp' (default "" (Hex <$> last l)) (b_index b) sp op i); [apply Hm|done|done].
Qed.
End Took.

(** ** [sync] of a node *)
Section Sync.
Context {C : Crypto} {O1 O2 : RangeOrder} {S1 S2 : Type} {St1 : Store S1} {St2 : Store S2}
  {L1 : @StoreLaws S1 O1 C St1} {L2 : @StoreLaws S2 O2 C St2} (ps : gmap string Z) (fuel : nat).
Abbreviation view1 k := (@view S1 O1 C St1 L1 (store (cg k))).
Abbreviation view2 k := (@view S2 O2 C St2 L2 (store (cg k))).
Abbreviation held1 k := (Body <$> comets (view1 k)).
Abbreviation held2 k := (Body <$> comets (view2 k)).
Abbreviation took12 := (@took C O1 O2 S1 S2 St1 St2 L1 L2 ps fuel).

(** A consensus pass takes nothing away. *)
Lemma took_pass A B l now B1 B2 g :
  took12 A B l now B1 → @core_ok O2 C S2 St2 L2 ps B2 → held2 B2 = held2 B1 → capacity (view2 B2) = capacity (view2 B1) →
  B2 = upd_cg g B1 → took12 A B l now B2.
Proof. intros [? ? ? ? ? ? ? ? ? ?] Hok Hh Hc ->. split; rewrite ?Hh, ?Hc; try done. Qed.

(** Reading before it made no difference. *)
Lemma took_same A B0 B l now B' : @same_core O2 C S2 St2 L2 B0 B → took12 A B l now B' → took12 A B0 l now B'.
Proof.
  intros Hs. pose proof (same_core_view _ _ Hs) as Hv. destruct Hs as (g & -> & _). cbn [cg upd_cg] in Hv.
  assert (∀ op h b, made fuel A (upd_cg g B0) now op h b → made fuel A B0 now op h b) as Hm.
  { intros op h b [? ? ? ? ? ? Ht Ha]. cbn [cg upd_cg] in *. rewrite Hv in Ht, Ha. by split. }
  intros [? ? HB Hf ? ? ? Hsz Hcap Hh]. cbn [cg upd_cg] in *. rewrite Hv in HB, Hsz, Hcap. split; try done.
  - intros h b Hb. destruct (Hf h b Hb) as [?|[Hb'|?]]; [by left| |right; right; by apply Hm]. rewrite Hv in Hb'. auto.
  - intros Hne. destruct (Hh Hne) as (b & ? & ?). exists b. split; [done|]. by apply Hm.
Qed.

(** There is room for [n] more comets, and for the pass after them. *)
Record roomy (k : Core (S := S2)) (n : Z) : Prop := {
  ro_fuel : Z.of_nat (base.size (held2 k)) + n ≤ Z.of_nat fuel;
  ro_comets : Z.of_nat (base.size (held2 k)) + n ≤ capacity (view2 k);
  ro_load : load k + n ≤ capacity (view2 k)
}.

Lemma sync_spec {W P : Type} (n : Node (S := S2) (W := W) (P := P)) A B K l now :
  @core_ok O1 C S1 St1 L1 ps A → @core_ok O2 C S2 St2 L2 ps B → @same_core O2 C S2 St2 L2 B (n_core n) →
  one_history (held1 A) (held2 B) → knows ps (view2 B) K → missing ps (view1 A) K l →
  fuel_ok fuel (view1 A) → fuel_ok fuel (view2 B) → Z.of_nat fuel ≤ MaxInt32 →
  roomy B (len l + 1) → held2 B ≠ ∅ → signs (c_key B) → unused fuel (held1 A) B now → unused fuel (held2 B) B now →
  wp (sync fuel (Core_ToWire l) now) n (λ o n', o = Ret tt ∧ ∃ B', n' = upd_core B' n ∧ took12 A B l now B').
Proof.
  intros HA HB Hs Hone [HKok Hkn] Hmi HfA HfB HM [Hr1 Hr2 Hr3] Hne Hsig HuA HuB. pose proof (same_core_ok _ _ _ HB Hs) as HB'.
  pose proof (same_core_view _ _ Hs) as Hv.
  assert (load (n_core n) = load B) as Hload by (unfold load; rewrite Hv; by destruct Hs as (g & -> & t & -> & _)).
  assert (unused fuel (held1 A) (n_core n) now ∧ unused fuel (held2 (n_core n)) (n_core n) now ∧ signs (c_key (n_core n))) as (HuA' & HuB' & Hsig').
  { rewrite Hv. by destruct Hs as (g & -> & _). }
  unfold sync, on_core. apply wp_bind, wp_zoom. eapply wp_mono.
  - apply (Sync_spec ps fuel A (n_core n) K l now); rewrite ?Hv in *; try done. lia.
  - intros o B1 (-> & Ht1 & Hload1). apply wp_zoom. cbn [n_core upd_core]. pose proof (took_same _ _ _ _ _ _ Hs Ht1) as Ht.
    pose proof (tk_size _ _ _ _ _ _ _ Ht) as Hsz. rewrite map_size_fmap in Hsz.
    eapply wp_mono; [apply (RunConsensus_ok fuel ps B1 (tk_ok _ _ _ _ _ _ _ Ht))|].
    + split.
      * lia.
      * intros He. apply map_choose in Hne as (h & b & Hb). apply (tk_B _ _ _ _ _ _ _ Ht) in Hb. by rewrite He, fmap_empty in Hb.
      * change (load B1 ≤ capacity (view2 B1)). rewrite (tk_cap _ _ _ _ _ _ _ Ht). lia.
    + intros o B2 (-> & Hok & Hh & Hc & _ & g & Hg). split; [done|]. exists B2. split; [done|]. by eapply took_pass.
Qed.
End Sync.

(** ** Answering *)
Section Answer.
Context `{RangeOrder, Crypto} {S : Type} `{Store S, !StoreLaws S} {W P : Type} (ps : gmap string Z).
Implicit Types (k : Core (S := S)) (m : Node (S := S) (W := W) (P := P)).

Lemma OverSyncLimit_spec k0 k known limit :
  core_ok ps k0 → same_core k0 k →
  wp (OverSyncLimit known limit) k (λ o k', ∃ K, knows ps (view (store (cg k0))) K ∧ o = Ret (bool_decide (limit < behind K known)) ∧ same_core k0 k').
Proof.
  intros Hk Hs. unfold OverSyncLimit. apply wp_bind. eapply wp_mono; [by apply (KnownEvents_spec ps k0)|].
  intros o k' (K & -> & HK & Hs'). apply wp_ret. exists K. by rewrite unknown_total_behind.
Qed.

(** A node within the limit answers with the comets that are missing and with what it knows. *)
Lemma processSyncRequest_spec m B from known :
  core_ok ps B → same_core B (n_core m) → known_ok ps known →
  (∀ K, knows ps (view (store (cg B))) K → behind K known ≤ n_SyncLimit m) →
  wp (processSyncRequest (mkSyncRequest from known)) m (λ o m', ∃ l K B',
    o = Ret (ASync (mkSyncResponse (n_id m) false (Core_ToWire l) K), None) ∧
    missing ps (view (store (cg B))) known l ∧ knows ps (view (store (cg B))) K ∧ m' = upd_core B' m ∧ same_core B B').
Proof.
  intros HB Hs Hkn Hlim. unfold processSyncRequest. apply wp_gets_bind. unfold on_core. apply wp_bind, wp_zoom.
  eapply wp_mono; [by apply (OverSyncLimit_spec B)|]. intros o B1 (K1 & HK1 & -> & Hs1). cbn [srq_Known].
  rewrite bool_decide_false by (pose proof (Hlim K1 HK1); lia). apply wp_bind, wp_bind, wp_try, wp_zoom. cbn [n_core upd_core].
  eapply wp_mono; [by apply (EventDiff_spec ps B B1 known)|]. intros o B2 (l & -> & Hmi & Hs2). apply wp_ret. cbn [fst snd].
  apply wp_bind, wp_zoom. cbn [n_core upd_core]. eapply wp_mono; [by apply (KnownEvents_spec ps B B2)|].
  intros o B3 (K & -> & HK & Hs3). apply wp_ret. by exists l, K, B3.
Qed.
End Answer.

(** ** A gossip exchange *)
Section Exchange.
Context {C : Crypto} {O1 O2 : RangeOrder} {S1 S2 : Type} {St1 : Store S1} {St2 : Store S2}
  {L1 : @StoreLaws S1 O1 C St1} {L2 : @StoreLaws S2 O2 C St2} {P1 P2 : Type} (ps : gmap string Z) (fuel : nat).
Abbreviation view1 k := (@view S1 O1 C St1 L1 (store (cg k))).
Abbreviation view2 k := (@view S2 O2 C St2 L2 (store (cg k))).
Abbreviation held1 k := (Body <$> comets (view1 k)).
Abbreviation held2 k := (Body <$> comets (view2 k)).
Abbreviation size1 k := (Z.of_nat (base.size (held1 k))).
Abbreviation size2 k := (Z.of_nat (base.size (held2 k))).
Abbreviation net := (Line (S := S2) (P := P2)).
Abbreviation node := (Node (S := S1) (W := net) (P := P1)).
Abbreviation line_net := (@Line_transport O2 C S2 St2 P2).
Abbreviation peer n := (n_core (ln_node (n_trans n))).
Implicit Types (n : node) (w : net).

(** Two nodes that work, with one history, room for each other's comets and names for their own,
    neither too far behind the other. *)
Record can_gossip n (addr : string) (now : Z) : Prop := {
  gs_core : @core_ok O1 C S1 St1 L1 ps (n_core n);
  gs_peer : @core_ok O2 C S2 St2 L2 ps (peer n);
  gs_state : ns_state (n_state (ln_node (n_trans n))) = Booting;
  gs_addr : ln_addr (n_trans n) = addr;
  gs_history : one_history (held2 (peer n)) (held1 (n_core n));
  gs_limits : ∀ KA KB, knows ps (view1 (n_core n)) KA → knows ps (view2 (peer n)) KB →
    behind KB KA ≤ n_SyncLimit (ln_node (n_trans n)) ∧ behind KA KB < n_SyncLimit n;
  gs_fuel : fuel_ok (pred fuel) (view1 (n_core n)) ∧ fuel_ok (pred fuel) (view2 (peer n)) ∧ ln_fuel (n_trans n) = fuel ∧ Z.of_nat fuel ≤ MaxInt32;
  gs_room1 : @roomy C O1 S1 St1 L1 fuel (n_core n) (size2 (peer n) + 1);
  gs_room2 : @roomy C O2 S2 St2 L2 fuel (peer n) (size1 (n_core n) + size2 (peer n) + 2);
  gs_some : held1 (n_core n) ≠ ∅ ∧ held2 (peer n) ≠ ∅;
  gs_signs : signs (c_key (n_core n)) ∧ signs (c_key (peer n));
  gs_unused1 : unused fuel (held1 (n_core n)) (n_core n) now ∧ unused fuel (held2 (peer n)) (n_core n) now;
  gs_unused2 : unused fuel (held1 (n_core n)) (peer n) (ln_now (n_trans n)) ∧ unused fuel (held2 (peer n)) (peer n) (ln_now (n_trans n));
  gs_apart : apart fuel (n_core n) now (peer n) (ln_now (n_trans n))
}.

Lemma wp_deliver w cmd (Q : outcome rpc_answer → net → Prop) :
  wp (processRPC (ln_fuel w) cmd (ln_now w)) (ln_node w)
    (λ o m, match o with
            | Ret (a, None) => Q (Ret a) (upd_line m w)
            | Ret (_, Some e) => Q (Fail e) (upd_line m w)
            | Fail e => Q (Fail e) (upd_line m w) | Panic x => Q (Panic x) (upd_line m w) | OutOfFuel => Q OutOfFuel (upd_line m w)
            end) → wp (deliver (ln_addr w) cmd) w Q.
Proof.
  intros Hw. unfold deliver. apply wp_gets_bind. rewrite bool_decide_true by done. apply wp_bind, wp_zoom.
  eapply wp_mono; [exact Hw|]. intros [[a [e|]]| | |] m HQ; exact HQ.
Qed.

(** The first half: what the node holds after [pull], and what it learns of its peer. *)
Lemma pull_spec n addr now :
  can_gossip n addr now →
  wp (pull (H := O1) (H2 := line_net) fuel addr now) n (λ o n', ∃ l K A' B', o = Ret (false, K) ∧
    n' = upd_core A' (upd_trans (upd_line (upd_core B' (ln_node (n_trans n))) (n_trans n)) n) ∧
    @took C O2 O1 S2 S1 St2 St1 L2 L1 ps fuel (peer n) (n_core n) l now A' ∧ len l ≤ size2 (peer n) ∧
    @same_core O2 C S2 St2 L2 (peer n) B' ∧ knows ps (view2 (peer n)) K).
Proof.
  intros [HA HB Hst Had Hone Hlim (HfA & HfB & Hlf & HM) Hr1 _ [Hne _] [Hsg _] [Hu1 Hu2] _ _].
  unfold pull, on_core. apply wp_bind, wp_zoom.
  eapply wp_mono; [apply (KnownEvents_spec ps (n_core n) (n_core n) HA), (core_refl ps _ HA)|].
  intros o A1 (KA & -> & HKA & HsA). unfold requestSync. apply wp_bind, wp_gets_bind. unfold on_trans. apply wp_zoom. cbn [n_trans upd_core n_id].
  apply wp_bind. rewrite <-Had. apply wp_deliver. unfold processRPC. apply wp_gets_bind, wp_gets_bind. rewrite Hst. rewrite bool_decide_false by auto.
  eapply wp_mono.
  { apply (processSyncRequest_spec ps (ln_node (n_trans n)) (peer n) (n_id n) KA HB (core_refl ps _ HB) (proj1 HKA)).
    intros K HK. by apply (Hlim KA K). }
  intros o m' (l & K & B' & -> & Hmi & HK & -> & HsB). apply wp_ret. cbn [srs_SyncLimit srs_Events srs_Known].
  pose proof (missing_len _ _ _ _ Hmi) as Hlen. apply wp_bind. eapply wp_mono.
  - apply (@sync_spec C O2 O1 S2 S1 St2 St1 L2 L1 ps fuel _ _ _ (peer n) (n_core n) KA l now); try done.
    + intros p x Hx. pose proof (HfB p x Hx). lia.
    + intros p x Hx. pose proof (HfA p x Hx). lia.
    + destruct Hr1. split; lia.
  - intros o n' (-> & A' & -> & Ht). apply wp_ret. by exists l, K, A', B'.
Qed.

(** The second half, after the first. *)
Lemma push_spec n addr now l K A' B' :
  can_gossip n addr now →
  @took C O2 O1 S2 S1 St2 St1 L2 L1 ps fuel (peer n) (n_core n) l now A' → len l ≤ size2 (peer n) →
  @same_core O2 C S2 St2 L2 (peer n) B' → knows ps (view2 (peer n)) K →
  let n1 := upd_core A' (upd_trans (upd_line (upd_core B' (ln_node (n_trans n))) (n_trans n)) n) in
  wp (push (H := O1) (H2 := line_net) addr K) n1 (λ o n', ∃ l' A2 B2, o = Ret tt ∧
    n' = upd_core A2 (upd_trans (upd_line (upd_core B2 (ln_node (n_trans n))) (n_trans n)) n) ∧
    @same_core O1 C S1 St1 L1 A' A2 ∧ @took C O1 O2 S1 S2 St1 St2 L1 L2 ps fuel A' (peer n) l' (ln_now (n_trans n)) B2).
Proof.
  intros [HA HB Hst Had Hone Hlim (HfA & HfB & Hlf & HM) _ Hr2 [_ Hne] [_ Hsg] [_ Hu] [Hu1 Hu2] Hap] Ht Hlen HsB HK n1.
  pose proof (tk_ok _ _ _ _ _ _ _ Ht) as HA'. unfold push. apply wp_gets_bind. unfold on_core. apply wp_bind, wp_zoom.
  eapply wp_mono; [apply (OverSyncLimit_spec ps A' A' K _ HA'), (core_refl ps _ HA')|]. intros o A1 (K1 & HK1 & -> & HsA1).
  pose proof (KnownEvents_spec ps (n_core n) (n_core n) HA (core_refl ps _ HA)) as (KA & _ & HKA & _).
  pose proof (@took_behind C O2 O1 S2 S1 St2 St1 L2 L1 ps fuel (peer n) (n_core n) l now A' HB HA Ht K KA K1 HK HKA HK1) as Hbe.
  destruct (Hlim KA K HKA HK) as [_ Hl2]. cbn [n_SyncLimit n1 upd_core upd_trans]. rewrite bool_decide_false by lia.
  apply wp_bind, wp_zoom. cbn [n_core upd_core].
  eapply wp_mono; [apply (EventDiff_spec ps A' A1 K HA' HsA1 (proj1 HK))|]. intros o A2 (l' & -> & Hmi & HsA2).
  apply wp_bind. unfold requestEagerSync. apply wp_gets_bind. unfold on_trans. apply wp_zoom. cbn [n_trans upd_core upd_trans n_id n1].
  apply wp_bind. rewrite <-Had. change (ln_addr (n_trans n)) with (ln_addr (upd_line (upd_core B' (ln_node (n_trans n))) (n_trans n))).
  apply wp_deliver. cbn [ln_node upd_line ln_now ln_fuel]. rewrite Hlf. unfold processRPC. apply wp_gets_bind, wp_gets_bind.
  cbn [n_state upd_core]. rewrite Hst, bool_decide_false by auto. unfold processEagerSyncRequest. apply wp_gets_bind, wp_bind, wp_try.
  pose proof (missing_len _ _ _ _ Hmi) as Hlen'. pose proof (tk_size _ _ _ _ _ _ _ Ht) as Hsz.
  eapply wp_mono.
  - apply (@sync_spec C O1 O2 S1 S2 St1 St2 L1 L2 ps fuel _ _ (upd_core B' (ln_node (n_trans n))) A' (peer n) K l' (ln_now (n_trans n))); try done.
    + by eapply (@took_history C O2 O1 S2 S1 St2 St1 L2 L1 ps fuel (peer n) (n_core n) l now A' HB Ht).
    + destruct fuel as [|f]; [|by eapply (@took_fuel C O2 O1 S2 S1 St2 St1 L2 L1 ps _ (peer n) (n_core n) l now A' HB HA Ht f)].
      exfalso. pose proof (HfA _ _ (co_seq _ _ HA)). pose proof (dag_next_range _ _ _ _ (g_dag _ _ (co_ok _ _ HA)) _ _ (co_seq _ _ HA)). lia.
    + intros p x Hx. pose proof (HfB p x Hx). lia.
    + destruct Hr2. split; lia.
    + by eapply (@took_unused C O2 O1 S2 S1 St2 St1 L2 L1 ps fuel (peer n) (n_core n) l now A' Ht).
  - intros o m' (-> & B2 & -> & Ht2). apply wp_ret, wp_ret, wp_ret. by exists l', A2, B2.
Qed.

(** C10: a gossip exchange.  When two nodes with one history are within their limits, [gossip] with
    its peer's answers leaves both nodes working, both with everything that either held, and the
    peer also with the comet the node made on top of what it was sent; no transaction or signature
    is left waiting, and the peer is remembered as the last one. *)
Theorem gossip_exchanges n addr now :
  can_gossip n addr now →
  wp (gossip (H := O1) (H2 := line_net) fuel addr now) n (λ o n', o = Ret tt ∧
    @core_ok O1 C S1 St1 L1 ps (n_core n') ∧ @core_ok O2 C S2 St2 L2 ps (peer n') ∧
    (∀ h b, held1 (n_core n) !! h = Some b ∨ held2 (peer n) !! h = Some b →
       held1 (n_core n') !! h = Some b ∧ held2 (peer n') !! h = Some b) ∧
    (∀ h b, held1 (n_core n') !! h = Some b → held2 (peer n') !! h = Some b) ∧
    transactionPool (n_core n') = [] ∧ blockSignaturePool (n_core n') = [] ∧
    transactionPool (peer n') = [] ∧ blockSignaturePool (peer n') = [] ∧
    ps_last (n_selector n') = addr ∧ ns_state (n_state n') = ns_state (n_state n)).
Proof.
  intros Hg. unfold gossip. apply wp_bind. eapply wp_mono; [by apply pull_spec|].
  intros o n' (l & K & A' & B' & -> & -> & Ht & Hlen & HsB & HK). cbn [fst snd].
  apply wp_bind. eapply wp_mono; [by apply (push_spec n addr now l K A' B')|].
  intros o n' (l' & A2 & B2 & -> & -> & HsA & Ht2). apply wp_modify_bind. unfold wp, modify. cbn [fst snd].
  pose proof (same_core_view _ _ HsA) as Hv.
  cbn [n_core n_trans n_selector n_state ln_node upd_state upd_selector upd_core upd_trans upd_line]. rewrite Hv.
  split; [done|]. split; [apply (same_core_ok ps A' A2 (tk_ok _ _ _ _ _ _ _ Ht) HsA)|]. split; [apply (tk_ok _ _ _ _ _ _ _ Ht2)|].
  split; [|split; [by apply (tk_A _ _ _ _ _ _ _ Ht2)|]].
  - intros h b Hb. assert (held1 A' !! h = Some b) as Hb' by (destruct Hb; [by apply (tk_B _ _ _ _ _ _ _ Ht)|by apply (tk_A _ _ _ _ _ _ _ Ht)]).
    split; [done|]. by apply (tk_A _ _ _ _ _ _ _ Ht2).
  - destruct HsA as (g & -> & _). cbn [transactionPool blockSignaturePool upd_cg].
    rewrite (tk_txs _ _ _ _ _ _ _ Ht), (tk_sigs _ _ _ _ _ _ _ Ht), (tk_txs _ _ _ _ _ _ _ Ht2), (tk_sigs _ _ _ _ _ _ _ Ht2). done.
Qed.
End Exchange.

(** ** Choosing a peer *)
Lemma exclude_filter i peers a : (exclude_from i peers a).2 = filter (λ p, NetAddr p ≠ a) peers.
Proof.
  revert i. induction peers as [|p peers IH]; intros i; [done|]. cbn [exclude_from]. specialize (IH (i + 1)).
  destruct (exclude_from (i + 1) peers a) as [x others]. cbn [snd] in IH. rewrite filter_cons, <-IH. by case_bool_decide; case_decide.
Qed.

(** A node never chooses itself, nor twice in a row the same address when there is another. *)
Lemma Next_spec participants localAddr last rnd :
  let ps := UpdateLast last (NewRandomPeerSelector participants localAddr) in
  match Next ps rnd with
  | Ret p => p ∈ participants ∧ NetAddr p ≠ localAddr ∧ (NetAddr p = last → len (ps_peers ps) = 1)
  | Panic _ => ∀ p, p ∈ participants → NetAddr p = localAddr ∨ NetAddr p = last ∧ 1 < len (ps_peers ps)
  | _ => False
  end.
Proof.
  intros ps. assert (∀ p, p ∈ ps_peers ps ↔ NetAddr p ≠ localAddr ∧ p ∈ participants) as Hps.
  { intros p. cbn. unfold ExcludePeer. by rewrite exclude_filter, list_elem_of_filter. }
  assert (∀ p, p ∈ selectable ps ↔ p ∈ ps_peers ps ∧ (1 < len (ps_peers ps) → NetAddr p ≠ last)) as Hsel.
  { intros p. unfold selectable, ExcludePeer. case_bool_decide; [rewrite exclude_filter, list_elem_of_filter; tauto|tauto]. }
  unfold Next, Intn. case_bool_decide as Hlen.
  - assert (selectable ps = []) as He by (unfold len in Hlen; destruct (selectable ps); cbn in *; [done|lia]).
    intros p Hp. destruct (decide (NetAddr p = localAddr)) as [|Hne]; [by left|right].
    pose proof (proj2 (Hps p) (conj Hne Hp)) as Hin. destruct (decide (NetAddr p = last)) as [Hl|Hl].
    + split; [done|]. destruct (decide (1 < len (ps_peers ps))) as [|Hn]; [done|].
      assert (p ∈ selectable ps) as Hs by (apply Hsel; tauto). rewrite He in Hs. by apply elem_of_nil in Hs.
    + assert (p ∈ selectable ps) as Hs by (apply Hsel; tauto). rewrite He in Hs. by apply elem_of_nil in Hs.
  - destruct (index_in_range (selectable ps) (rnd mod len (selectable ps))) as (p & -> & Hp); [apply Z.mod_pos_bound; unfold len in Hlen; lia|].
    pose proof (list_elem_of_lookup_2 _ _ _ Hp) as Hin. apply Hsel in Hin as [Hin Hl]. apply Hps in Hin as Hin'.
    split; [apply Hin'|]. split; [apply Hin'|]. intros Hlast. apply list_elem_of_lookup_1 in Hin as [j Hj]. apply lookup_lt_Some in Hj.
    destruct (decide (1 < len (ps_peers ps))) as [Hgt|]; [by apply Hl in Hgt|unfold len in *; lia].
Qed.

(** ** The heartbeat *)
Section Heartbeat.
Context `{RangeOrder, Crypto} {S : Type} `{Store S} {W P : Type} (fuel : nat).
Implicit Types (n : Node (S := S) (W := W) (P := P)).

Lemma preGossip_timer now n : n_timer (preGossip fuel now n).2 = n_timer n.
Proof.
  unfold preGossip, mbind, M_bind, get. cbn. case_match; [done|]. unfold on_core, zoom. by destruct (AddSelfEvent fuel now (n_core n)) as [[] k].
Qed.

(** What one tick does to the timer, when it returns: it is stopped when there is nothing to gossip
    about, else set again if the flag is read as cleared, else left alone. *)
Lemma tick_timer gossips rnd now n who n' :
  tick fuel gossips rnd now n = (Ret who, n') →
  n_timer n' = if NeedGossip (n_core n') then (if ct_Set (n_timer n) then n_timer n else Run_step ResetCh (n_timer n))
               else Run_step StopCh (n_timer n).
Proof.
  intros Ht. unfold tick in Ht. unfold mbind at 1, M_bind at 1 in Ht.
  set (first := if gossips then _ else _) in Ht. assert (n_timer (first n).2 = n_timer n) as Hf.
  { unfold first. destruct gossips; [|done]. unfold mbind, M_bind, try. pose proof (preGossip_timer now n) as Hp.
    destruct (preGossip fuel now n) as [[[]| | |] n1]; cbn in *; try done. by destruct (Next (n_selector n1) rnd). }
  destruct (first n) as [[w| | |] n1]; try done. cbn [snd] in Hf. unfold mbind, M_bind, get in Ht. cbn in Ht.
  destruct (NeedGossip (n_core n1)) eqn:Hn; cbn in Ht.
  - unfold reset_unless_set, mbind, M_bind, get in Ht. cbn in Ht. rewrite Hf in Ht. destruct (ct_Set (n_timer n)) eqn:Hs; cbn in Ht; injection Ht as <- <-.
    + by rewrite Hn.
    + cbn [n_core n_timer upd_timer]. by rewrite Hn, Hf.
  - injection Ht as <- <-. cbn [n_core n_timer upd_timer]. by rewrite Hn, Hf.
Qed.

(** After a tick that is handled once the flag is cleared, the timer runs exactly when there is
    something to gossip about.  When the handler reads the flag before it is cleared, the timer is
    stopped in any case, and stays so until a message or a transaction arrives. *)
Lemma heartbeat_timer late gossips rnd now n who n' :
  ct_base (n_timer n) ≠ 0 → ct_Set (n_timer n) = true → heartbeat fuel late gossips rnd now n = (Ret who, n') →
  ct_armed (n_timer n') = negb late && NeedGossip (n_core n') ∧ ct_Set (n_timer n') = ct_armed (n_timer n').
Proof.
  intros Hb Hs Hh. unfold heartbeat, to_timer, mbind, M_bind, modify in Hh. cbn in Hh. destruct late.
  - destruct (tick _ _ _ _ _) as [[w| | |] n2] eqn:Ht; try done. injection Hh as <- <-. apply tick_timer in Ht. cbn in *.
    rewrite Hs in Ht. rewrite Ht. by destruct (NeedGossip (n_core n2)).
  - apply tick_timer in Hh. cbn in *. rewrite Hh. destruct (NeedGossip (n_core n')); [|done]. cbn. by rewrite bool_decide_true.
Qed.
End Heartbeat.

(** ** On a concrete network *)
Definition bob_node : Node (S := Inmem.InmemStore) (W := Offline) (P := unit) :=
  mkNode (mkNodeState Booting 0) 10 1 bob_core "bob:1" (mkSelector [] "") (mkOffline "bob:1") tt false (NewRandomControlTimer 10).
Definition alice_node : Node (S := Inmem.InmemStore) (W := Line (S := Inmem.InmemStore) (P := unit)) (P := unit) :=
  mkNode (mkNodeState Booting 1) 10 0 alice_core "alice:1" (mkSelector [mkPeer "bob:1" ""] "")
    (mkLine "alice:1" "bob:1" 9 sample_fuel bob_node) tt false (NewRandomControlTimer 10).

Lemma knows_unique `{RangeOrder, Crypto} ps v K K' : graph_ok ps v → knows ps v K → knows ps v K' → K = K'.
Proof.
  intros Hg HK HK'. apply map_eq. intros id. destruct (decide (id ∈ dom K)) as [Hin|Hno].
  - apply (knows_dom ps v K Hg HK) in Hin as [p Hp]. assert (is_Some (next_of v !! p)) as [n Hn] by (apply elem_of_dom; rewrite (dag_next _ _ _ _ (g_dag _ _ Hg)); by eapply elem_of_dom_2).
    by rewrite (proj2 HK p id n Hp Hn), (proj2 HK' p id n Hp Hn).
  - assert (id ∉ dom K') as Hno' by (by rewrite (knows_dom ps v K' Hg HK'), <-(knows_dom ps v K Hg HK)).
    apply not_elem_of_dom in Hno, Hno'. congruence.
Qed.

(** The facts that evaluate. *)
Lemma sample_known (key : @PrivKey sample_crypto) : key = 1 ∨ key = 2 → ∀ K, knows sample_ps (view (store (cg (sample_core key)))) K →
  (KnownEvents (sample_core key)).1 = Ret K.
Proof.
  intros Hkey K HK. pose proof (sample_core_ok key Hkey) as Hok. pose proof (KnownEvents_spec sample_ps _ _ Hok (core_refl _ _ Hok)) as Hw.
  unfold wp in Hw. destruct Hw as (K' & -> & HK' & _). f_equal. by eapply knows_unique; [apply (co_ok _ _ Hok)| |].
Qed.

Lemma alice_known : (KnownEvents alice_core).1 = Ret {[0 := 0; 1 := -1]}.
Proof. vm_compute. reflexivity. Qed.
Lemma bob_known : (KnownEvents bob_core).1 = Ret {[0 := -1; 1 := 0]}.
Proof. vm_compute. reflexivity. Qed.

Lemma sample_limits KA KB : (KnownEvents alice_core).1 = Ret KA → (KnownEvents bob_core).1 = Ret KB → behind KB KA ≤ 10 ∧ behind KA KB < 10.
Proof. rewrite alice_known, bob_known. intros [= <-] [= <-]. split; decided. Qed.

Lemma sample_sizes :
  Z.of_nat (base.size (Body <$> comets (view (store (cg alice_core))))) = 1 ∧ Z.of_nat (base.size (Body <$> comets (view (store (cg bob_core))))) = 1 ∧
  load alice_core = 1 ∧ load bob_core = 1 ∧ capacity (view (store (cg alice_core))) = 100 ∧ capacity (view (store (cg bob_core))) = 100.
Proof. by vm_compute. Qed.

Lemma sample_one_history : one_history (Body <$> comets (view (store (cg bob_core)))) (Body <$> comets (view (store (cg alice_core)))).
Proof.
  assert (map_Forall (λ h1 b1, map_Forall (λ h2 b2, (h1 = h2 → fields b1 = fields b2) ∧ (b_creator b1 = b_creator b2 → b_index b1 = b_index b2 → h1 = h2))
    (Body <$> comets (view (store (cg alice_core))))) (Body <$> comets (view (store (cg bob_core))))) as Hone by decided.
  split; [intros h b1 b2 H1 H2; by apply (Hone h b1 H1 h b2 H2)|]. intros h1 b1 h2 b2 H1 H2. by apply (Hone h1 b1 H1 h2 b2 H2).
Qed.

Lemma sample_fuels (key : @PrivKey sample_crypto) : key = 1 ∨ key = 2 → fuel_ok (pred sample_fuel) (view (store (cg (sample_core key)))).
Proof.
  intros Hkey. assert (map_Forall (λ _ n, n < Z.of_nat (pred sample_fuel)) (next_of (view (store (cg (sample_core key)))))) as Hf by (destruct Hkey as [->| ->]; decided).
  exact Hf.
Qed.

Lemma sample_apart : apart sample_fuel alice_core 7 bob_core 9.
Proof.
  intros sp op i sp' op' i' Hi Hi'.
  assert (Forall (λ i, Forall (λ i', hexX [1; i; 7] ≠ hexX [2; i'; 9]) (seqZ 0 (Z.of_nat sample_fuel))) (seqZ 0 (Z.of_nat sample_fuel))) as Hd by decided.
  rewrite Forall_forall in Hd. specialize (Hd i ltac:(apply elem_of_seqZ; lia)). rewrite Forall_forall in Hd. apply (Hd i'). apply elem_of_seqZ. lia.
Qed.

Lemma alice_ok : core_ok sample_ps alice_core.
Proof. apply sample_core_ok. by left. Qed.
Lemma bob_ok : core_ok sample_ps bob_core.
Proof. apply sample_core_ok. by right. Qed.

Lemma sample_room1 : @roomy sample_crypto _ _ _ _ sample_fuel alice_core (1 + 1).
Proof. destruct sample_sizes as (Hs1 & _ & Hl1 & _ & Hc1 & _). split; rewrite ?Hs1, ?Hl1, ?Hc1; by vm_compute. Qed.
Lemma sample_room2 : @roomy sample_crypto _ _ _ _ sample_fuel bob_core (1 + 1 + 2).
Proof. destruct sample_sizes as (_ & Hs2 & _ & Hl2 & _ & Hc2). split; rewrite ?Hs2, ?Hl2, ?Hc2; by vm_compute. Qed.

Lemma sample_nonempty : Body <$> comets (view (store (cg alice_core))) ≠ ∅ ∧ Body <$> comets (view (store (cg bob_core))) ≠ ∅.
Proof. destruct sample_sizes as (Hs1 & Hs2 & _). split; intros He; [rewrite He, map_size_empty in Hs1; discriminate Hs1|rewrite He, map_size_empty in Hs2; discriminate Hs2]. Qed.

Lemma alice_unused : unused sample_fuel (Body <$> comets (view (store (cg alice_core)))) alice_core 7 ∧
  unused sample_fuel (Body <$> comets (view (store (cg bob_core)))) alice_core 7.
Proof. split; apply sample_unused; decided. Qed.
Lemma bob_unused : unused sample_fuel (Body <$> comets (view (store (cg alice_core)))) bob_core 9 ∧
  unused sample_fuel (Body <$> comets (view (store (cg bob_core)))) bob_core 9.
Proof. split; apply sample_unused; decided. Qed.

Lemma alice_limits KA KB : knows sample_ps (view (store (cg alice_core))) KA → knows sample_ps (view (store (cg bob_core))) KB →
  behind KB KA ≤ 10 ∧ behind KA KB < 10.
Proof. intros HA HB. apply sample_limits; [apply (sample_known 1); [by left|exact HA]|apply (sample_known 2); [by right|exact HB]]. Qed.

Lemma sample_fuel_facts : fuel_ok (pred sample_fuel) (view (store (cg alice_core))) ∧ fuel_ok (pred sample_fuel) (view (store (cg bob_core))) ∧
  sample_fuel = sample_fuel ∧ Z.of_nat sample_fuel ≤ MaxInt32.
Proof. split; [apply sample_fuels; by left|]. split; [apply sample_fuels; by right|]. split; [reflexivity|]. by vm_compute. Qed.

#[local] Opaque alice_core bob_core.

Lemma sample_can_gossip : can_gossip sample_ps sample_fuel alice_node "bob:1" 7.
Proof.
  destruct sample_sizes as (Hs1 & Hs2 & _).
  constructor; cbn [n_core n_trans ln_node ln_now ln_fuel ln_addr n_state ns_state n_SyncLimit alice_node bob_node]; rewrite ?Hs1, ?Hs2.
  - exact alice_ok.
  - exact bob_ok.
  - reflexivity.
  - reflexivity.
  - exact sample_one_history.
  - exact alice_limits.
  - exact sample_fuel_facts.
  - exact sample_room1.
  - exact sample_room2.
  - exact sample_nonempty.
  - split; apply sample_signs; [by left|by right].
  - exact alice_unused.
  - exact bob_unused.
  - exact sample_apart.
Qed.

Lemma gossip_exchanges_witness :
  wp (gossip sample_fuel "bob:1" 7) alice_node (λ o n', o = Ret tt ∧
    known (Body <$> comets (view (store (cg (n_core n'))))) (Head bob_core) ∧
    known (Body <$> comets (view (store (cg (n_core (ln_node (n_trans n'))))))) (Head alice_core)).
Proof.
  eapply wp_mono; [exact (gossip_exchanges sample_ps sample_fuel alice_node "bob:1" 7 sample_can_gossip)|].
  intros o n' (Ho & _ & _ & Hall & _). split; [exact Ho|]. split.
  - eexists. apply Hall. right. vm_compute. reflexivity.
  - eexists. apply Hall. left. vm_compute. reflexivity.
Defined.
