(* ===== verification/Serial.v ===== *)
(** [common/zero_copy_sink.go], [common/zero_copy_source.go] and [common/safeMath.go]: binary
    encoding of numbers, strings and byte slices.

    A sink owns a backing array of [cap] bytes of which the first [len] are written; what
    lies beyond is exposed by the next reslice, so the array is explicit.  [uint64] is a [Z]
    modulo [2^64]; [int] is 64 bits wide. *)
From S2P Require Import Prelude Bytes.
Open Scope Z_scope.

Definition wrap64 (x : Z) : Z := x mod 2 ^ 64.
Definition maxInt : Z := 2 ^ 63 - 1.

(** [int(x)], [int64(x)] of a [uint64], and the narrower conversions. *)
Definition signed (w : Z) (x : Z) : Z := if bool_decide (x mod 2 ^ w < 2 ^ (w - 1)) then x mod 2 ^ w else x mod 2 ^ w - 2 ^ w.
Definition unsigned (w : Z) (x : Z) : Z := x mod 2 ^ w.

(** ** [safeMath.go] *)
Definition SafeSub (x y : Z) : Z * bool := (wrap64 (x - y), bool_decide (x < y)).
Definition SafeAdd (x y : Z) : Z * bool := (wrap64 (x + y), bool_decide (2 ^ 64 - 1 - x < y)).
Definition SafeMul (x y : Z) : Z * bool :=
  if bool_decide (x = 0 ∨ y = 0) then (0, false)
  else (wrap64 (x * y), bool_decide ((2 ^ 64 - 1) / x < y)).

(** ** Little endian *)
Fixpoint put_le (n : nat) (v : Z) : bytes :=
  match n with
  | O => []
  | S n' => v mod 256 :: put_le n' (v / 256)
  end.

Fixpoint get_le (b : bytes) : Z :=
  match b with
  | [] => 0
  | x :: b' => x + 256 * get_le b'
  end.

(** The encoding of a variable-length integer. *)
Definition var_uint (data : Z) : bytes :=
  if bool_decide (data < 253) then [data]
  else if bool_decide (data ≤ 65535) then 253 :: put_le 2 data
  else if bool_decide (data ≤ 4294967295) then 254 :: put_le 4 data
  else 255 :: put_le 8 data.

Definition getVarUintSize (value : Z) : Z :=
  if bool_decide (value < 253) then 1
  else if bool_decide (value ≤ 65535) then 3
  else if bool_decide (value ≤ 4294967295) then 5
  else 9.

(** ** The sink *)
Record ZeroCopySink := mkSink { sk_arr : bytes; sk_len : Z }.

Definition sink_bytes (s : ZeroCopySink) : bytes := take (Z.to_nat (sk_len s)) (sk_arr s).
Definition sink_cap (s : ZeroCopySink) : Z := len (sk_arr s).

Abbreviation K := (M ZeroCopySink).

(** [None] is a nil slice; [Some (b, spare)] a slice with contents [b] over an array
    that goes on with [spare]. *)
Definition NewZeroCopySink (b : option (bytes * bytes)) : ZeroCopySink :=
  match b with
  | None => mkSink (replicate 512 0) 0
  | Some (b, spare) => mkSink (b ++ spare) (len b)
  end.

(** [self.buf = self.buf[:l]] *)
Definition reslice (l : Z) : K unit :=
  s ← get;
  if bool_decide (0 ≤ l ≤ sink_cap s) then modify (λ s, mkSink (sk_arr s) l)
  else panic "slice bounds out of range".

Definition tryGrowByReslice (n : Z) : K (Z * bool) :=
  s ← get;
  let l := sk_len s in
  if bool_decide (n ≤ sink_cap s - l) then reslice (l + n) ;; mret (l, true)
  else mret (0, false).

(** A [make] always finds the memory: that one beyond the address space panics is not modelled. *)
Definition grow (n : Z) : K Z :=
  r ← tryGrowByReslice n;
  if r.2 : bool then mret r.1
  else
    s ← get;
    let l := sk_len s in
    let c := sink_cap s in
    if bool_decide (maxInt - c - n < c) then panic "bytes.Buffer: too large"
    else
      modify (λ s, mkSink (sink_bytes s ++ replicate (Z.to_nat (2 * c + n - l)) 0) (l + n)) ;;
      mret l.

(** The answer is the position of the returned slice in the buffer. *)
Definition NextBytes (n : Z) : K Z :=
  r ← tryGrowByReslice (signed 64 n);
  if r.2 : bool then mret r.1 else grow (signed 64 n).

(** Writing [p] at position [m] of the buffer; what does not fit is not copied. *)
Definition overwrite (m : Z) (p : bytes) (s : ZeroCopySink) : ZeroCopySink :=
  let n := Z.to_nat m in
  let p' := take (Z.to_nat (sk_len s) - n)%nat p in
  mkSink (take n (sk_arr s) ++ p' ++ drop (n + length p')%nat (sk_arr s)) (sk_len s).

(** [copy(data, p)] *)
Definition WriteBytes (p : bytes) : K unit :=
  m ← NextBytes (len p);
  modify (overwrite m p).

(** [binary.LittleEndian.PutUint16] and the like panic when the slice is too short. *)
Definition put_at (m : Z) (p : bytes) : K unit :=
  s ← get;
  if bool_decide (m + len p ≤ sk_len s) then modify (overwrite m p)
  else panic "index out of range".

Definition BackUp (n : Z) : K unit :=
  s ← get;
  reslice (sk_len s - signed 64 n).

Definition WriteUint8 (data : Z) : K unit := m ← NextBytes 1; put_at m [data].
Definition WriteByte (c : Z) : K unit := WriteUint8 c.
Definition WriteBool (data : bool) : K unit := if data then WriteByte 1 else WriteByte 0.
Definition WriteUint16 (data : Z) : K unit := m ← NextBytes 2; put_at m (put_le 2 data).
Definition WriteUint32 (data : Z) : K unit := m ← NextBytes 4; put_at m (put_le 4 data).
Definition WriteUint64 (data : Z) : K unit := m ← NextBytes 8; put_at m (put_le 8 data).
Definition WriteInt64 (data : Z) : K unit := WriteUint64 (unsigned 64 data).
Definition WriteInt32 (data : Z) : K unit := WriteUint32 (unsigned 32 data).
Definition WriteInt16 (data : Z) : K unit := WriteUint16 (unsigned 16 data).

Definition WriteVarUint (data : Z) : K Z :=
  m ← NextBytes 9;
  size ← (if bool_decide (data < 253) then put_at m [data] ;; mret 1
          else if bool_decide (data ≤ 65535)
          then put_at m [253] ;; put_at (m + 1) (put_le 2 data) ;; mret 3
          else if bool_decide (data ≤ 4294967295)
          then put_at m [254] ;; put_at (m + 1) (put_le 4 data) ;; mret 5
          else put_at m [255] ;; put_at (m + 1) (put_le 8 data) ;; mret 9);
  BackUp (9 - size) ;;
  mret size.

Definition WriteVarBytes (data : bytes) : K Z :=
  let l := len data in
  n ← WriteVarUint l;
  WriteBytes data ;;
  mret (n + l).

Definition WriteString (data : bytes) : K Z := WriteVarBytes data.
Definition WriteAddress (addr : bytes) : K unit := WriteBytes addr.
Definition WriteHash (hash : bytes) : K unit := WriteBytes hash.
Definition sink_Reset : K unit := reslice 0.

(** ** The source *)
Record ZeroCopySource := mkSource { so_s : bytes; so_off : Z }.

Abbreviation R := (M ZeroCopySource).

Definition NewZeroCopySource (b : bytes) : ZeroCopySource := mkSource b 0.

Definition source_Len (s : ZeroCopySource) : Z :=
  let length := len (so_s s) in
  if bool_decide (length ≤ so_off s) then 0 else length - so_off s.

Definition set_off (o : Z) : R unit := modify (λ s, mkSource (so_s s) o).

Definition src_NextBytes (n : Z) : R (bytes * bool) :=
  s ← get;
  let m := len (so_s s) in
  let '(e, overflow) := SafeAdd (so_off s) n in
  let eof := overflow || bool_decide (m < e) in
  let e' := if eof : bool then m else e in
  if bool_decide (so_off s ≤ e') then
    set_off e' ;;
    mret (take (Z.to_nat (e' - so_off s)) (drop (Z.to_nat (so_off s)) (so_s s)), eof)
  else panic "slice bounds out of range".

Definition Skip (n : Z) : R bool :=
  s ← get;
  let m := len (so_s s) in
  let '(e, overflow) := SafeAdd (so_off s) n in
  let eof := overflow || bool_decide (m < e) in
  set_off (if eof : bool then m else e) ;;
  mret eof.

Definition NextByte : R (Z * bool) :=
  s ← get;
  match so_s s !! Z.to_nat (so_off s) with
  | Some b => if bool_decide (so_off s < len (so_s s))
              then set_off (wrap64 (so_off s + 1)) ;; mret (b, false) else mret (0, true)
  | None => mret (0, true)
  end.

Definition NextUint8 : R (Z * bool) := NextByte.

(** data, irregular, eof *)
Definition NextBool : R (bool * bool * bool) :=
  r ← NextByte;
  let '(val, eof) := r in
  mret (if bool_decide (val = 0) then (false, false, eof)
        else if bool_decide (val = 1) then (true, false, eof) else (true, true, eof)).

Definition src_BackUp (n : Z) : R unit := modify (λ s, mkSource (so_s s) (wrap64 (so_off s - n))).

Definition next_uint (n : nat) : R (Z * bool) :=
  r ← src_NextBytes (Z.of_nat n);
  let '(buf, eof) := r in
  mret (if eof : bool then (0, true) else (get_le buf, false)).

Definition NextUint16 : R (Z * bool) := next_uint 2.
Definition NextUint32 : R (Z * bool) := next_uint 4.
Definition NextUint64 : R (Z * bool) := next_uint 8.
Definition NextInt16 : R (Z * bool) := r ← NextUint16; mret (signed 16 r.1, r.2).
Definition NextInt32 : R (Z * bool) := r ← NextUint32; mret (signed 32 r.1, r.2).
Definition NextInt64 : R (Z * bool) := r ← NextUint64; mret (signed 64 r.1, r.2).

(** data, size, irregular, eof.  The inner end-of-file tests return with the [eof] of
    the first byte. *)
Definition NextVarUint : R (Z * Z * bool * bool) :=
  r ← NextByte;
  let '(fb, eof) := r in
  if eof : bool then mret (0, 0, false, true)
  else
    let long (next : R (Z * bool)) (size : Z) : R (Z * Z * bool * bool) :=
      v ← next;
      if v.2 : bool then mret (0, 0, false, false)
      else mret (v.1, size, negb (bool_decide (size = getVarUintSize v.1)), false) in
    if bool_decide (fb = 253) then long NextUint16 3
    else if bool_decide (fb = 254) then long NextUint32 5
    else if bool_decide (fb = 255) then long NextUint64 9
    else mret (fb, 1, negb (bool_decide (1 = getVarUintSize fb)), false).

(** The [eof] of the count is overwritten. *)
Definition NextVarBytes : R (bytes * Z * bool * bool) :=
  r ← NextVarUint;
  let '(count, size, irregular, _) := r in
  d ← src_NextBytes count;
  mret (d.1, wrap64 (size + count), irregular, d.2).

Definition NextString : R (bytes * Z * bool * bool) := NextVarBytes.

Definition ADDR_LEN : Z := 20.
Definition UINT256_SIZE : Z := 32.

(** A fixed-size array: zeroes at end of file. *)
Definition next_array (n : Z) : R (bytes * bool) :=
  r ← src_NextBytes n;
  mret (if r.2 : bool then (replicate (Z.to_nat n) 0, true) else (r.1, false)).
Definition NextAddress : R (bytes * bool) := next_array ADDR_LEN.
Definition NextHash : R (bytes * bool) := next_array UINT256_SIZE.

(** ** Lemmas *)

Lemma length_put_le n v : length (put_le n v) = n.
Proof. revert v. induction n; intros v; simpl; auto. Qed.

Lemma get_put_le n v : 0 ≤ v < 256 ^ Z.of_nat n → get_le (put_le n v) = v.
Proof.
  revert v. induction n as [|n IH]; intros v Hv.
  - simpl in *. lia.
  - rewrite Nat2Z.inj_succ, Z.pow_succ_r in Hv by lia. cbn [put_le get_le].
    rewrite IH; [pose proof (Z.div_mod v 256); lia|].
    split; [apply Z.div_pos; lia|apply Z.div_lt_upper_bound; lia].
Qed.

Lemma signed_small w x : 0 < w → 0 ≤ x < 2 ^ (w - 1) → signed w x = x.
Proof.
  intros Hw Hx. unfold signed.
  assert (2 ^ w = 2 * 2 ^ (w - 1)) as Hp by (rewrite <-Z.pow_succ_r by lia; f_equal; lia).
  rewrite Z.mod_small by lia. by rewrite bool_decide_eq_true_2 by lia.
Qed.

(** Converting to unsigned and back. *)
Lemma signed_unsigned w x : 0 < w → - 2 ^ (w - 1) ≤ x < 2 ^ (w - 1) → signed w (unsigned w x) = x.
Proof.
  intros Hw Hx. unfold signed, unsigned. rewrite Z.mod_mod by (apply Z.pow_nonzero; lia).
  assert (2 ^ w = 2 * 2 ^ (w - 1)) as Hp by (rewrite <-Z.pow_succ_r by lia; f_equal; lia).
  destruct (decide (0 ≤ x)).
  - rewrite Z.mod_small by lia. by rewrite bool_decide_eq_true_2 by lia.
  - assert (x mod 2 ^ w = x + 2 ^ w) as ->.
    { symmetry. apply (Z.mod_unique _ _ (-1)); lia. }
    rewrite bool_decide_eq_false_2 by lia. lia.
Qed.

Lemma unsigned_range w x : 0 ≤ w → 0 ≤ unsigned w x < 2 ^ w.
Proof. intros Hw. apply Z.mod_pos_bound. by apply Z.pow_pos_nonneg. Qed.

(** *** Writing appends *)

Definition sink_max : Z := 2 ^ 60.

Definition sink_ok (s : ZeroCopySink) : Prop :=
  0 ≤ sk_len s ≤ sink_cap s ∧ sink_cap s ≤ 3 * sink_max.

Lemma sink_bytes_len s : sink_ok s → len (sink_bytes s) = sk_len s.
Proof.
  intros [Hl _]. unfold sink_bytes, len, sink_cap, len in *. rewrite length_take. lia.
Qed.

Lemma reslice_spec l s : 0 ≤ l ≤ sink_cap s →
  wp (reslice l) s (λ o s', o = Ret tt ∧ s' = mkSink (sk_arr s) l).
Proof.
  intros Hl. unfold reslice. apply wp_bind. unfold wp, get. cbn [fst snd].
  rewrite bool_decide_eq_true_2 by done. done.
Qed.

Lemma NextBytes_spec n s :
  sink_ok s → 0 ≤ n → sk_len s + n ≤ sink_max →
  wp (NextBytes n) s (λ o s', o = Ret (sk_len s) ∧ sink_ok s' ∧ sk_len s' = sk_len s + n ∧
    take (Z.to_nat (sk_len s)) (sk_arr s') = sink_bytes s).
Proof.
  intros Hok Hn Hmax. pose proof Hok as [Hl Hc]. unfold sink_max in *.
  unfold NextBytes. rewrite signed_small by lia.
  assert (∀ (s0 : ZeroCopySink), s0 = s → n ≤ sink_cap s - sk_len s →
    wp (tryGrowByReslice n) s0 (λ o s', o = Ret (sk_len s, true) ∧ s' = mkSink (sk_arr s) (sk_len s + n))) as Hyes.
  { intros s0 -> Hfit. unfold tryGrowByReslice. apply wp_bind. unfold wp at 1, get. cbn [fst snd].
    rewrite bool_decide_eq_true_2 by done. apply wp_bind. eapply wp_mono; [apply reslice_spec; lia|].
    intros o s' [-> ->]. by apply wp_ret. }
  assert (∀ (s0 : ZeroCopySink), s0 = s → ¬ n ≤ sink_cap s - sk_len s →
    wp (tryGrowByReslice n) s0 (λ o s', o = Ret (0, false) ∧ s' = s)) as Hno.
  { intros s0 -> Hfit. unfold tryGrowByReslice. apply wp_bind. unfold wp at 1, get. cbn [fst snd].
    rewrite bool_decide_eq_false_2 by done. by apply wp_ret. }
  destruct (decide (n ≤ sink_cap s - sk_len s)) as [Hfit|Hfit].
  - apply wp_bind. eapply wp_mono; [by apply Hyes|]. intros o s' [-> ->]. apply wp_ret.
    split; [done|]. split; [|done]. unfold sink_ok, sink_cap in *. cbn [sk_arr sk_len] in *.
    unfold sink_max. lia.
  - apply wp_bind. eapply wp_mono; [by apply Hno|]. intros o s' [-> ->]. cbn [snd].
    unfold grow. apply wp_bind. eapply wp_mono; [by apply Hno|]. intros o s' [-> ->]. cbn [snd].
    apply wp_bind. unfold wp at 1, get. cbn [fst snd].
    rewrite bool_decide_eq_false_2 by (unfold maxInt; lia).
    apply wp_modify_bind, wp_ret. split; [done|].
    pose proof (sink_bytes_len s Hok) as Hb. unfold sink_ok, sink_cap, len in *. cbn [sk_arr sk_len].
    rewrite length_app, length_replicate. split; [unfold sink_max; lia|]. split; [done|].
    rewrite take_app_le by lia. rewrite take_ge by lia. done.
Qed.

Lemma put_at_spec m p s :
  sink_ok s → 0 ≤ m → m + len p ≤ sk_len s →
  wp (put_at m p) s (λ o s', o = Ret tt ∧ sink_ok s' ∧ sk_len s' = sk_len s ∧
    take (Z.to_nat (m + len p)) (sk_arr s') = take (Z.to_nat m) (sk_arr s) ++ p).
Proof.
  intros Hok Hm Hp. pose proof Hok as [Hl Hc].
  unfold put_at. apply wp_bind. unfold wp at 1, get. cbn [fst snd].
  rewrite bool_decide_eq_true_2 by done. unfold wp, modify. cbn [fst snd].
  unfold sink_ok, sink_cap, len, overwrite in *. cbn [sk_arr sk_len].
  rewrite (take_ge p) by lia. split; [done|].
  rewrite !length_app, length_take, length_drop. split; [lia|]. split; [done|].
  rewrite app_assoc. rewrite take_app_le by (rewrite length_app, length_take; lia).
  rewrite take_ge by (rewrite length_app, length_take; lia). done.
Qed.

Definition appends {A} (m : K A) (a : A) (p : bytes) : Prop :=
  ∀ s, sink_ok s → sk_len s + len p + 9 ≤ sink_max →
  wp m s (λ o s', o = Ret a ∧ sink_ok s' ∧ sink_bytes s' = sink_bytes s ++ p).

Lemma appends_put p n : n = len p → appends (m ← NextBytes n; put_at m p) tt p.
Proof.
  intros -> s Hok Hmax. pose proof Hok as [Hl _]. assert (0 ≤ len p) by (unfold len; lia).
  apply wp_bind. eapply wp_mono; [apply NextBytes_spec; [done|lia|lia]|].
  intros o s1 (-> & Hok1 & Hlen1 & Htake1).
  eapply wp_mono; [apply put_at_spec; [done|lia|lia]|]. intros o s2 (-> & Hok2 & Hlen2 & Htake2).
  split; [done|]. split; [done|]. unfold sink_bytes at 1. by rewrite Hlen2, Hlen1, Htake2, Htake1.
Qed.

Lemma appends_WriteBytes p : appends (WriteBytes p) tt p.
Proof.
  intros s Hok Hmax. pose proof Hok as [Hl _]. assert (0 ≤ len p) by (unfold len; lia).
  unfold WriteBytes. apply wp_bind. eapply wp_mono; [apply NextBytes_spec; [done|lia|lia]|].
  intros o s1 (-> & Hok1 & Hlen1 & Htake1).
  pose proof (put_at_spec (sk_len s) p s1 Hok1 ltac:(lia) ltac:(lia)) as Hput.
  revert Hput. unfold wp, put_at, mbind, M_bind, get, modify. cbn [fst snd].
  rewrite bool_decide_eq_true_2 by lia. cbn [fst snd].
  intros (_ & Hok2 & Hlen2 & Htake2). split; [done|]. split; [done|].
  unfold sink_bytes at 1. by rewrite Hlen2, Hlen1, Htake2, Htake1.
Qed.

(** A tag byte and a fixed number of bytes, in a space of nine. *)
Lemma var_uint_puts tag p size s :
  sink_ok s → sk_len s + 9 ≤ sink_max → size = 1 + len p → size ≤ 9 →
  wp (m ← NextBytes 9;
      r ← (put_at m [tag] ;; put_at (m + 1) p ;; mret size);
      BackUp (9 - r) ;; mret r) s
    (λ o s', o = Ret size ∧ sink_ok s' ∧ sink_bytes s' = sink_bytes s ++ tag :: p).
Proof.
  intros Hok Hmax -> H9. pose proof Hok as [Hl _]. assert (0 ≤ len p) by (unfold len; lia).
  apply wp_bind. eapply wp_mono; [apply NextBytes_spec; [done|lia|lia]|].
  intros o s1 (-> & Hok1 & Hlen1 & Htake1). apply wp_bind, wp_bind.
  eapply wp_mono; [apply put_at_spec; [done|lia|unfold len; simpl; lia]|].
  intros o s2 (-> & Hok2 & Hlen2 & Htake2). replace (len [tag]) with 1 in Htake2 by done.
  apply wp_bind. eapply wp_mono; [apply put_at_spec; [done|lia|lia]|].
  intros o s3 (-> & Hok3 & Hlen3 & Htake3). apply wp_ret.
  apply wp_bind. unfold BackUp. apply wp_bind. unfold wp at 1, get. cbn [fst snd].
  rewrite signed_small by lia. pose proof Hok3 as [Hl3 Hc3].
  eapply wp_mono; [apply reslice_spec; lia|]. intros o s4 [-> ->]. apply wp_ret. split; [done|].
  split; [split; [|done]; unfold sink_cap in *; cbn [sk_arr sk_len]; lia|].
  unfold sink_bytes at 1. cbn [sk_arr sk_len].
  replace (sk_len s3 - (9 - (1 + len p))) with (sk_len s + 1 + len p) by lia.
  rewrite Htake3, Htake2, Htake1. by rewrite <-app_assoc.
Qed.

Lemma appends_WriteVarUint data :
  0 ≤ data → appends (WriteVarUint data) (len (var_uint data)) (var_uint data).
Proof.
  intros Hd s Hok Hmax.
  assert (sk_len s + 9 ≤ sink_max) as H9 by (unfold len in Hmax; lia).
  unfold WriteVarUint, var_uint in *.
  case_bool_decide; [|case_bool_decide; [|case_bool_decide]].
  - pose proof Hok as [Hl _].
    apply wp_bind. eapply wp_mono; [apply NextBytes_spec; [done|lia|lia]|].
    intros o s1 (-> & Hok1 & Hlen1 & Htake1). apply wp_bind, wp_bind.
    eapply wp_mono; [apply put_at_spec; [done|lia|unfold len; simpl; lia]|].
    intros o s2 (-> & Hok2 & Hlen2 & Htake2). replace (len [data]) with 1 in * by done.
    apply wp_ret, wp_bind. unfold BackUp. apply wp_bind. unfold wp at 1, get. cbn [fst snd].
    rewrite signed_small by lia. pose proof Hok2 as [Hl2 Hc2].
    eapply wp_mono; [apply reslice_spec; lia|]. intros o s4 [-> ->]. apply wp_ret. split; [done|].
    split; [split; [|done]; unfold sink_cap in *; cbn [sk_arr sk_len]; lia|].
    unfold sink_bytes at 1. cbn [sk_arr sk_len].
    replace (sk_len s2 - (9 - 1)) with (sk_len s + 1) by lia. by rewrite Htake2, Htake1.
  - by apply (var_uint_puts 253 (put_le 2 data)).
  - by apply (var_uint_puts 254 (put_le 4 data)).
  - by apply (var_uint_puts 255 (put_le 8 data)).
Qed.

(** *** Reading takes what was written *)

(** The source stands before [p]; reading it answers [a] and moves past. *)
Definition reads {A} (m : R A) (a : A) (p : bytes) : Prop :=
  ∀ pre rest, len (pre ++ p ++ rest) < 2 ^ 64 →
  m (mkSource (pre ++ p ++ rest) (len pre)) = (Ret a, mkSource (pre ++ p ++ rest) (len (pre ++ p))).

Lemma reads_bind {A B} (m : R A) (f : A → R B) a b p q :
  reads m a p → reads (f a) b q → reads (m ≫= f) b (p ++ q).
Proof.
  intros Hm Hf pre rest Hlen. rewrite <-!app_assoc in *.
  rewrite (run_bind_Ret m f _ a (mkSource (pre ++ p ++ q ++ rest) (len (pre ++ p)))) by (by apply Hm).
  specialize (Hf (pre ++ p) rest). rewrite <-!app_assoc in Hf. by apply Hf.
Qed.

Lemma reads_ret {A} (a : A) : reads (mret a) a [].
Proof. intros pre rest _. by rewrite app_nil_r. Qed.

Lemma reads_bind_ret {A B} (m : R A) (f : A → B) a b p :
  reads m a p → b = f a → reads (r ← m; mret (f r)) b p.
Proof.
  intros Hm ->. rewrite <-(app_nil_r p). eapply reads_bind; [done|apply reads_ret].
Qed.

Lemma reads_NextBytes p n : n = len p → reads (src_NextBytes n) (p, false) p.
Proof.
  intros -> pre rest Hlen. unfold src_NextBytes, mbind, M_bind, get, SafeAdd. cbn [so_s so_off].
  unfold len in *. rewrite !length_app in *.
  rewrite (bool_decide_eq_false_2 (2 ^ 64 - 1 - _ < _)) by lia. unfold wrap64. rewrite Z.mod_small by lia.
  rewrite (bool_decide_eq_false_2 (_ < _)) by lia. change (false || false) with false. cbv beta iota.
  rewrite bool_decide_eq_true_2 by lia. unfold set_off, modify, mret, M_ret.
  replace (Z.to_nat (Z.of_nat (length pre) + Z.of_nat (length p) - Z.of_nat (length pre)))
    with (length p) by lia.
  rewrite Nat2Z.id, drop_app_length, take_app_length. do 2 f_equal. cbn. lia.
Qed.

Lemma reads_NextByte b : reads NextByte (b, false) [b].
Proof.
  intros pre rest Hlen. unfold NextByte, mbind, M_bind, get. cbn [so_s so_off].
  change ([b] ++ rest) with (b :: rest) in *. unfold len in *. rewrite Nat2Z.id, list_lookup_middle by done. rewrite !length_app in *. simpl in *.
  rewrite bool_decide_eq_true_2 by lia. unfold set_off, modify, mret, M_ret. do 2 f_equal.
  unfold wrap64. rewrite Z.mod_small by lia. lia.
Qed.

Lemma reads_next_uint n v :
  0 ≤ v < 256 ^ Z.of_nat n → reads (next_uint n) (v, false) (put_le n v).
Proof.
  intros Hv. unfold next_uint. rewrite <-(app_nil_r (put_le n v)).
  eapply reads_bind; [apply reads_NextBytes; unfold len; by rewrite length_put_le|].
  cbn. rewrite get_put_le by done. apply reads_ret.
Qed.

Lemma reads_NextVarUint v :
  0 ≤ v < 2 ^ 64 → reads NextVarUint (v, getVarUintSize v, false, false) (var_uint v).
Proof.
  intros Hv. unfold var_uint, NextVarUint.
  case_bool_decide as H1; [|case_bool_decide as H2; [|case_bool_decide as H3]].
  - rewrite <-(app_nil_r [v]). eapply reads_bind; [apply reads_NextByte|]. cbn.
    rewrite !bool_decide_eq_false_2 by lia.
    assert (getVarUintSize v = 1) as -> by (unfold getVarUintSize; by rewrite bool_decide_eq_true_2).
    apply reads_ret.
  - change (253 :: put_le 2 v) with ([253] ++ put_le 2 v).
    eapply reads_bind; [apply reads_NextByte|]. cbv beta iota zeta. rewrite (bool_decide_eq_true_2 (253 = 253)) by done.
    rewrite <-(app_nil_r (put_le 2 v)).
    eapply reads_bind; [apply reads_next_uint; lia|]. cbn [fst snd].
    assert (getVarUintSize v = 3) as -> by (unfold getVarUintSize; by rewrite bool_decide_eq_false_2, bool_decide_eq_true_2).
    apply reads_ret.
  - change (254 :: put_le 4 v) with ([254] ++ put_le 4 v).
    eapply reads_bind; [apply reads_NextByte|]. cbv beta iota zeta. rewrite (bool_decide_eq_false_2 (254 = 253)) by done. rewrite (bool_decide_eq_true_2 (254 = 254)) by done.
    rewrite <-(app_nil_r (put_le 4 v)).
    eapply reads_bind; [apply reads_next_uint; lia|]. cbn [fst snd].
    assert (getVarUintSize v = 5) as -> by (unfold getVarUintSize; by rewrite bool_decide_eq_false_2, bool_decide_eq_false_2, bool_decide_eq_true_2).
    apply reads_ret.
  - change (255 :: put_le 8 v) with ([255] ++ put_le 8 v).
    eapply reads_bind; [apply reads_NextByte|]. cbv beta iota zeta. rewrite (bool_decide_eq_false_2 (255 = 253)) by done. rewrite (bool_decide_eq_false_2 (255 = 254)) by done. rewrite (bool_decide_eq_true_2 (255 = 255)) by done.
    rewrite <-(app_nil_r (put_le 8 v)).
    eapply reads_bind; [apply reads_next_uint; lia|]. cbn [fst snd].
    assert (getVarUintSize v = 9) as -> by (unfold getVarUintSize; by rewrite !bool_decide_eq_false_2).
    apply reads_ret.
Qed.

(** *** Whole messages

    What a caller writes, one constructor per pair of a [Write] and a [Next] method. *)
Inductive item :=
  | IUint8 (v : Z) | IBool (b : bool)
  | IUint16 (v : Z) | IUint32 (v : Z) | IUint64 (v : Z)
  | IInt16 (v : Z) | IInt32 (v : Z) | IInt64 (v : Z)
  | IVarUint (v : Z) | IVarBytes (b : bytes) | IString (b : bytes)
  | IAddress (b : bytes) | IHash (b : bytes).

(** The value fits its Go type. *)
Definition item_ok (i : item) : Prop :=
  match i with
  | IUint8 v => 0 ≤ v < 2 ^ 8
  | IBool _ => True
  | IUint16 v => 0 ≤ v < 2 ^ 16
  | IUint32 v => 0 ≤ v < 2 ^ 32
  | IUint64 v | IVarUint v => 0 ≤ v < 2 ^ 64
  | IInt16 v => - 2 ^ 15 ≤ v < 2 ^ 15
  | IInt32 v => - 2 ^ 31 ≤ v < 2 ^ 31
  | IInt64 v => - 2 ^ 63 ≤ v < 2 ^ 63
  | IVarBytes b | IString b => len b < 2 ^ 60
  | IAddress b => len b = ADDR_LEN
  | IHash b => len b = UINT256_SIZE
  end.

Definition write_item (i : item) : K unit :=
  match i with
  | IUint8 v => WriteUint8 v
  | IBool b => WriteBool b
  | IUint16 v => WriteUint16 v
  | IUint32 v => WriteUint32 v
  | IUint64 v => WriteUint64 v
  | IInt16 v => WriteInt16 v
  | IInt32 v => WriteInt32 v
  | IInt64 v => WriteInt64 v
  | IVarUint v => WriteVarUint v ;; mret tt
  | IVarBytes b => WriteVarBytes b ;; mret tt
  | IString b => WriteString b ;; mret tt
  | IAddress b => WriteAddress b
  | IHash b => WriteHash b
  end.

(** Reading an item of the same kind; the flag is set when the source reports neither the
    end of the data nor an irregular encoding. *)
Definition plain {A} (f : A → item) (m : R (A * bool)) : R (item * bool) :=
  r ← m; mret (f r.1, negb r.2).
Definition sized {A} (f : A → item) (m : R (A * Z * bool * bool)) : R (item * bool) :=
  r ← m; mret (f r.1.1.1, negb r.1.2 && negb r.2).

Definition read_like (i : item) : R (item * bool) :=
  match i with
  | IUint8 _ => plain IUint8 NextUint8
  | IBool _ => r ← NextBool; mret (IBool r.1.1, negb r.1.2 && negb r.2)
  | IUint16 _ => plain IUint16 NextUint16
  | IUint32 _ => plain IUint32 NextUint32
  | IUint64 _ => plain IUint64 NextUint64
  | IInt16 _ => plain IInt16 NextInt16
  | IInt32 _ => plain IInt32 NextInt32
  | IInt64 _ => plain IInt64 NextInt64
  | IVarUint _ => sized IVarUint NextVarUint
  | IVarBytes _ => sized IVarBytes NextVarBytes
  | IString _ => sized IString NextString
  | IAddress _ => plain IAddress NextAddress
  | IHash _ => plain IHash NextHash
  end.

Fixpoint read_all (l : list item) : R (list item * bool) :=
  match l with
  | [] => mret ([], true)
  | i :: l' =>
    r ← read_like i;
    rs ← read_all l';
    mret (r.1 :: rs.1, r.2 && rs.2)
  end.

(** The wire format. *)
Definition encode (i : item) : bytes :=
  match i with
  | IUint8 v => [v]
  | IBool b => [if b then 1 else 0]
  | IUint16 v => put_le 2 v
  | IUint32 v => put_le 4 v
  | IUint64 v => put_le 8 v
  | IInt16 v => put_le 2 (unsigned 16 v)
  | IInt32 v => put_le 4 (unsigned 32 v)
  | IInt64 v => put_le 8 (unsigned 64 v)
  | IVarUint v => var_uint v
  | IVarBytes b | IString b => var_uint (len b) ++ b
  | IAddress b | IHash b => b
  end.

Lemma appends_bind {A B} (m : K A) (f : A → K B) a b p q :
  appends m a p → appends (f a) b q → appends (m ≫= f) b (p ++ q).
Proof.
  intros Hm Hf s Hok Hmax. unfold len in Hmax. rewrite length_app in Hmax.
  apply wp_bind. eapply wp_mono; [apply Hm; [done|unfold len; lia]|].
  intros o s' (-> & Hok' & Hb'). eapply wp_mono.
  - apply Hf; [done|]. rewrite <-(sink_bytes_len s'), Hb' by done. unfold len in *.
    rewrite length_app. pose proof (sink_bytes_len s Hok). unfold len in *. lia.
  - intros o s'' (-> & Hok'' & Hb''). by rewrite Hb'', Hb', app_assoc.
Qed.

Lemma appends_ret {A} (a : A) : appends (mret a) a [].
Proof. intros s Hok _. apply wp_ret. by rewrite app_nil_r. Qed.

Lemma appends_then {A B} (m : K A) (b : B) a p : appends m a p → appends (m ;; mret b) b p.
Proof.
  intros Hm. rewrite <-(app_nil_r p). eapply appends_bind; [done|apply appends_ret].
Qed.

Lemma appends_WriteVarBytes b :
  appends (WriteVarBytes b) (len (var_uint (len b)) + len b) (var_uint (len b) ++ b).
Proof.
  eapply appends_bind; [apply appends_WriteVarUint; unfold len; lia|].
  eapply appends_then, appends_WriteBytes.
Qed.

Lemma write_item_appends i : item_ok i → appends (write_item i) tt (encode i).
Proof.
  intros Hi. destruct i; cbn [item_ok write_item encode] in *;
    try (by apply appends_put); try apply appends_WriteBytes;
    try (eapply appends_then, appends_WriteVarBytes).
  - destruct b; by apply appends_put.
  - eapply appends_then, appends_WriteVarUint. lia.
Qed.

Lemma write_items_append l :
  Forall item_ok l → appends (for_each write_item l) tt (concat (map encode l)).
Proof.
  induction 1 as [|i l Hi _ IH]; [apply appends_ret|].
  exact (appends_bind _ _ _ _ _ _ (write_item_appends i Hi) IH).
Qed.

Lemma reads_next_array b n : len b = n → reads (next_array n) (b, false) b.
Proof.
  intros Hb. eapply reads_bind_ret; [by apply reads_NextBytes|done].
Qed.

Lemma reads_NextVarBytes b : len b < 2 ^ 60 →
  reads NextVarBytes (b, wrap64 (getVarUintSize (len b) + len b), false, false) (var_uint (len b) ++ b).
Proof.
  intros Hb. eapply reads_bind; [apply reads_NextVarUint; unfold len in *; lia|].
  cbv beta iota. eapply reads_bind_ret; [by apply reads_NextBytes|done].
Qed.

Lemma reads_signed n w v :
  w = 8 * Z.of_nat n → 0 < w → - 2 ^ (w - 1) ≤ v < 2 ^ (w - 1) →
  reads (r ← next_uint n; mret (signed w r.1, r.2)) (v, false) (put_le n (unsigned w v)).
Proof.
  intros Hw H0 Hv. eapply reads_bind_ret.
  - apply reads_next_uint. change 256 with (2 ^ 8). rewrite <-Z.pow_mul_r, <-Hw by lia.
    apply unsigned_range. lia.
  - cbn [fst snd]. by rewrite signed_unsigned.
Qed.

Lemma reads_NextBool b : reads NextBool (b, false, false) [if b then 1 else 0].
Proof.
  rewrite <-(app_nil_r [_]). eapply reads_bind; [apply reads_NextByte|]. destruct b; apply reads_ret.
Qed.

Lemma read_like_reads i : item_ok i → reads (read_like i) (i, true) (encode i).
Proof.
  intros Hi. destruct i; cbn [item_ok read_like encode] in *;
    (eapply reads_bind_ret;
      [first [by apply reads_NextByte | by apply reads_NextBool | by apply reads_next_uint
             | by apply reads_signed | by apply reads_NextVarUint | by apply reads_NextVarBytes
             | by apply reads_next_array]|done]).
Qed.

Lemma read_all_reads l :
  Forall item_ok l → reads (read_all l) (l, true) (concat (map encode l)).
Proof.
  induction 1 as [|i l Hi _ IH]; [apply reads_ret|].
  eapply reads_bind; [by apply read_like_reads|]. by eapply reads_bind_ret.
Qed.

(** C20: what is written to a [ZeroCopySink] is what a [ZeroCopySource] over its bytes reads:
    for every sequence of values of the thirteen kinds, whatever is already in the sink, the
    writes do not panic, append the wire format, and reading the same kinds from where the
    writing started gives the values back, reports neither an end of data nor an irregular
    encoding, and leaves the source at its end.  Values are within the range of their kind and
    texts shorter than [2^60], and the whole stays below the size at which the buffer panics. *)
Theorem zero_copy_round_trip l s :
  Forall item_ok l → sink_ok s → sk_len s + len (concat (map encode l)) + 9 ≤ sink_max →
  let '(o, s') := for_each write_item l s in
  o = Ret tt ∧ sink_ok s' ∧ sink_bytes s' = sink_bytes s ++ concat (map encode l) ∧
  read_all l (mkSource (sink_bytes s') (len (sink_bytes s)))
    = (Ret (l, true), mkSource (sink_bytes s') (len (sink_bytes s'))).
Proof.
  intros Hl Hok Hmax. pose proof (write_items_append l Hl s Hok Hmax) as Hw. unfold wp in Hw.
  destruct (for_each write_item l s) as [o s'] eqn:Hrun. cbn [fst snd] in Hw.
  destruct Hw as (-> & Hok' & Hb). repeat (split; [done|]). rewrite Hb.
  pose proof (read_all_reads l Hl (sink_bytes s) []) as Hr. rewrite app_nil_r in Hr. apply Hr.
  pose proof (sink_bytes_len s Hok). unfold len, sink_max in *. rewrite length_app. lia.
Qed.

Definition sample_items : list item :=
  [IUint8 7; IBool true; IInt16 (-2); IVarUint 300; IVarBytes [1; 2; 3]; IUint64 (2 ^ 64 - 1);
   IString []; IInt64 (- 2 ^ 63)].

Lemma zero_copy_round_trip_witness :
  read_all sample_items
    (mkSource (sink_bytes (for_each write_item sample_items (NewZeroCopySink (Some ([9], [])))).2) 1)
  = (Ret (sample_items, true),
     mkSource [9; 7; 1; 254; 255; 253; 44; 1; 3; 1; 2; 3; 255; 255; 255; 255; 255; 255; 255; 255; 0;
               0; 0; 0; 0; 0; 0; 0; 128] 29).
Proof.
  pose proof (zero_copy_round_trip sample_items (NewZeroCopySink (Some ([9], [])))
    ltac:(repeat constructor; decided) ltac:(split; decided) ltac:(decided)) as H.
  destruct (for_each write_item sample_items _) as [o s'] eqn:Hrun.
  destruct H as (_ & _ & Hb & Hr). cbn [snd]. rewrite Hb in *. exact Hr.
Defined.

(** *** Truncated input *)
Lemma next_uint_truncated n pre short :
  (length short < n)%nat → len (pre ++ short) + Z.of_nat n < 2 ^ 64 →
  next_uint n (mkSource (pre ++ short) (len pre))
    = (Ret (0, true), mkSource (pre ++ short) (len (pre ++ short))).
Proof.
  intros Hshort Hlen. unfold next_uint, src_NextBytes, mbind, M_bind, get, SafeAdd. cbn [so_s so_off].
  unfold len in *. rewrite length_app in *.
  rewrite (bool_decide_eq_false_2 (2 ^ 64 - 1 - _ < _)) by lia. unfold wrap64. rewrite Z.mod_small by lia.
  rewrite (bool_decide_eq_true_2 (_ < _)) by lia. change (false || true) with true. cbv beta iota.
  rewrite bool_decide_eq_true_2 by lia. done.
Qed.

(** [ZeroCopySource.NextVarUint] on an integer cut off after its tag byte answers 0 and
    reports no end of data, and [NextVarBytes] on an empty rest answers an empty slice and
    reports none either: the caller cannot tell them from a zero and an empty string. *)
Lemma truncated_integers_go_unreported pre tag n short :
  (tag, n) ∈ [(253, 2%nat); (254, 4%nat); (255, 8%nat)] → (length short < n)%nat →
  len pre < 2 ^ 63 →
  NextVarUint (mkSource (pre ++ tag :: short) (len pre))
    = (Ret (0, 0, false, false), mkSource (pre ++ tag :: short) (len (pre ++ tag :: short))) ∧
  NextVarBytes (mkSource pre (len pre)) = (Ret ([], 0, false, false), mkSource pre (len pre)).
Proof.
  intros Htag Hshort Hpre. split.
  - pose proof (next_uint_truncated n (pre ++ [tag]) short Hshort) as Hnext.
    rewrite <-app_assoc in Hnext. change ([tag] ++ short) with (tag :: short) in Hnext.
    pose proof (reads_NextByte tag pre short) as Hbyte. change ([tag] ++ short) with (tag :: short) in Hbyte.
    assert (len (pre ++ tag :: short) + 8 < 2 ^ 64 ∧ (n ≤ 8)%nat) as [Hlen Hn].
    { unfold len in *. rewrite length_app. cbn [length].
      assert (n = 2%nat ∨ n = 4%nat ∨ n = 8%nat) by set_solver. lia. }
    unfold NextVarUint. erewrite run_bind_Ret by (apply Hbyte; lia). cbv beta iota zeta.
    specialize (Hnext ltac:(lia)).
    assert ((tag = 253 ∧ n = 2%nat) ∨ (tag = 254 ∧ n = 4%nat) ∨ (tag = 255 ∧ n = 8%nat))
      as [[-> ->]|[[-> ->]|[-> ->]]] by set_solver.
    all: repeat (first [rewrite bool_decide_eq_true_2 by done | rewrite bool_decide_eq_false_2 by done]).
    all: erewrite run_bind_Ret by exact Hnext; done.
  - unfold NextVarBytes, NextVarUint, NextByte, mbind, M_bind, get. cbn [so_s so_off]. unfold len in *.
    rewrite Nat2Z.id, lookup_ge_None_2 by done. unfold mret, M_ret. cbv beta iota zeta.
    pose proof (reads_NextBytes [] 0 eq_refl pre []) as H0. rewrite !app_nil_r in H0. unfold len in H0.
    rewrite H0 by lia. done.
Qed.
