(* ===== verification/Stream.v ===== *)
(** [common/serialization/serialize.go]: the encoding of [Serial] over [io.Writer] and
    [io.Reader].

    The writer is a buffer that grows, the reader what is left to read. *)
From S2P Require Import Prelude Bytes Serial.
Open Scope Z_scope.

Abbreviation W := (M bytes).

Definition write (p : bytes) : W unit := modify (λ b, b ++ p).

Definition EOF : gerror := LibErr "EOF".
Definition ErrUnexpectedEOF : gerror := LibErr "unexpected EOF".
Definition ErrRange : gerror := Errorf "value out of range".
Definition ErrEof : gerror := Errorf "got EOF, can not get the next byte".

(** [io.ReadFull] of [n] bytes *)
Definition ReadFull (n : nat) : W bytes :=
  b ← get;
  if decide (n ≤ length b)%nat then modify (drop n) ;; mret (take n b)
  else modify (λ _, []) ;; fail (if decide (b = []) then EOF else ErrUnexpectedEOF).

Definition WriteVarUint (value : Z) : W unit := write (var_uint value).

Definition ReadVarUint (maxint : Z) : W Z :=
  let maxint := if bool_decide (maxint = 0) then 2 ^ 64 - 1 else maxint in
  fb ← ReadFull 1;
  res ← (if bool_decide (fb = [253]) then b ← ReadFull 2; mret (get_le b)
         else if bool_decide (fb = [254]) then b ← ReadFull 4; mret (get_le b)
         else if bool_decide (fb = [255]) then b ← ReadFull 8; mret (get_le b)
         else mret (get_le fb));
  if bool_decide (maxint < res) then fail ErrRange else mret res.

Definition byteXReader (x : Z) : W bytes :=
  if bool_decide (x = 0) then mret []
  else if bool_decide (x < 2 * 1024 * 1024) then ReadFull (Z.to_nat x)
  else
    b ← get;
    let k := signed 64 x in
    let got := take (Z.to_nat k) b in
    modify (drop (Z.to_nat k)) ;;
    if bool_decide (len got = k) then mret got else fail ErrEof.

Definition WriteVarBytes (value : bytes) : W unit :=
  WriteVarUint (len value) ;; write value.
Definition WriteString (value : bytes) : W unit := WriteVarBytes value.
Definition ReadVarBytes : W bytes := val ← ReadVarUint 0; byteXReader val.
Definition ReadString : W bytes := ReadVarBytes.
Definition ReadBytes (length : Z) : W bytes := byteXReader length.

Definition or_eof {A} (m : W A) : W A :=
  r ← try m; match r with inl _ => fail ErrEof | inr a => mret a end.

Definition ReadUint8 : W Z := or_eof (b ← ReadFull 1; mret (get_le b)).
Definition ReadUint16 : W Z := or_eof (b ← ReadFull 2; mret (get_le b)).
Definition ReadUint32 : W Z := or_eof (b ← ReadFull 4; mret (get_le b)).
Definition ReadUint64 : W Z := or_eof (b ← ReadFull 8; mret (get_le b)).
Definition WriteUint8 (val : Z) : W unit := write [val].
Definition WriteUint16 (val : Z) : W unit := write (put_le 2 val).
Definition WriteUint32 (val : Z) : W unit := write (put_le 4 val).
Definition WriteUint64 (val : Z) : W unit := write (put_le 8 val).
Definition WriteBool (val : bool) : W unit := write [if val then 1 else 0].
Definition ReadBool : W bool := b ← ReadFull 1; mret (negb (bool_decide (get_le b = 0))).
Definition WriteByte (val : Z) : W unit := write [val].
Definition ReadByte : W Z := b ← byteXReader 1; lift (index b 0).

(** ** Lemmas *)
Lemma ReadFull_app n p rest :
  n = length p → ReadFull n (p ++ rest) = (Ret p, rest).
Proof.
  intros ->. unfold ReadFull, mbind, M_bind, get, modify, mret, M_ret.
  rewrite decide_True by (rewrite length_app; lia). by rewrite take_app_length, drop_app_length.
Qed.

Lemma range_test maxint v (b : bytes) :
  v < 2 ^ 64 →
  (if bool_decide ((if bool_decide (maxint = 0) then 2 ^ 64 - 1 else maxint) < v)
   then fail ErrRange else mret v) b
  = (if bool_decide (maxint ≠ 0 ∧ maxint < v) then Fail ErrRange else Ret v, b).
Proof.
  intros Hv. case_bool_decide as Hq0; case_bool_decide as Hq1; case_bool_decide as Hq2; try done;
    exfalso; (lia || tauto).
Qed.

Lemma var_uint_cases v :
  (v < 253 ∧ var_uint v = [v]) ∨ (253 ≤ v ≤ 65535 ∧ var_uint v = 253 :: put_le 2 v) ∨
  (65535 < v ≤ 4294967295 ∧ var_uint v = 254 :: put_le 4 v) ∨
  (4294967295 < v ∧ var_uint v = 255 :: put_le 8 v).
Proof. unfold var_uint. repeat case_bool_decide; naive_solver lia. Qed.

Lemma Stream_ReadVarUint_spec maxint v rest :
  0 ≤ v < 2 ^ 64 →
  ReadVarUint maxint (var_uint v ++ rest)
    = (if bool_decide (maxint ≠ 0 ∧ maxint < v) then Fail ErrRange else Ret v, rest).
Proof.
  intros Hv. unfold ReadVarUint.
  destruct (var_uint_cases v) as [[? ->]|[[? ->]|[[? ->]|[? ->]]]]; cbn [app]; erewrite run_bind_Ret by (by apply (ReadFull_app 1 [_])).
  - rewrite !(bool_decide_eq_false_2 ([v] = _)) by (intros [=]; lia).
    erewrite run_bind_Ret by done. cbn [get_le]. rewrite Z.add_0_r. apply range_test; lia.
  - rewrite (bool_decide_eq_true_2 ([253] = [253])) by done.
    erewrite run_bind_Ret by (by erewrite run_bind_Ret by (by apply ReadFull_app)).
    rewrite get_put_le by lia. apply range_test; lia.
  - rewrite (bool_decide_eq_false_2 ([254] = [253])) by done.
    rewrite (bool_decide_eq_true_2 ([254] = [254])) by done.
    erewrite run_bind_Ret by (by erewrite run_bind_Ret by (by apply ReadFull_app)).
    rewrite get_put_le by lia. apply range_test; lia.
  - rewrite (bool_decide_eq_false_2 ([255] = [253])) by done.
    rewrite (bool_decide_eq_false_2 ([255] = [254])) by done.
    rewrite (bool_decide_eq_true_2 ([255] = [255])) by done.
    erewrite run_bind_Ret by (by erewrite run_bind_Ret by (by apply ReadFull_app)).
    rewrite get_put_le by lia. apply range_test; lia.
Qed.

Lemma byteXReader_app b rest : len b < 2 ^ 60 → byteXReader (len b) (b ++ rest) = (Ret b, rest).
Proof.
  intros Hb. unfold byteXReader. case_bool_decide as H0.
  { unfold len in H0. by destruct b. }
  case_bool_decide as H1; [apply ReadFull_app; unfold len; lia|].
  unfold mbind, M_bind, get, modify. rewrite signed_small by (unfold len in *; lia).
  unfold len in *. rewrite Nat2Z.id, take_app_length, drop_app_length.
  by rewrite bool_decide_eq_true_2 by done.
Qed.

(** The stream functions of [serialize.go] write the same format: a variable-length
    integer read back with a limit is refused with [ErrRange] exactly when the limit is set
    and exceeded, in either case consuming exactly its bytes; a byte slice written with its
    length is read back, also by the zero-copy source. *)
Lemma stream_round_trip v b maxint out rest :
  0 ≤ v < 2 ^ 64 → len b < 2 ^ 60 → len rest < 2 ^ 60 →
  WriteVarUint v out = (Ret tt, out ++ var_uint v) ∧
  ReadVarUint maxint (var_uint v ++ rest)
    = (if bool_decide (maxint ≠ 0 ∧ maxint < v) then Fail ErrRange else Ret v, rest) ∧
  (let enc := (WriteVarBytes b []).2 in
   ReadVarBytes (enc ++ rest) = (Ret b, rest) ∧
   NextVarBytes (NewZeroCopySource (enc ++ rest))
     = (Ret (b, getVarUintSize (len b) + len b, false, false), mkSource (enc ++ rest) (len enc))).
Proof.
  intros Hv Hb Hrest. split; [done|]. split; [by apply Stream_ReadVarUint_spec|].
  assert ((WriteVarBytes b []).2 = var_uint (len b) ++ b) as -> by done. cbv zeta.
  assert (0 ≤ len b < 2 ^ 64) as Hlb by (unfold len in *; lia).
  assert (getVarUintSize (len b) ≤ 9) as H9 by (unfold getVarUintSize; repeat case_bool_decide; lia).
  assert (1 ≤ getVarUintSize (len b)) as H1' by (unfold getVarUintSize; repeat case_bool_decide; lia).
  split.
  - unfold ReadVarBytes. rewrite <-app_assoc.
    erewrite run_bind_Ret by (by rewrite Stream_ReadVarUint_spec, bool_decide_eq_false_2 by tauto).
    by apply byteXReader_app.
  - pose proof (reads_NextVarBytes b Hb [] rest) as Hr. cbn [app] in Hr.
    unfold wrap64 in Hr. rewrite Z.mod_small in Hr by lia. apply Hr.
    unfold len in *. rewrite !length_app.
    assert (length (var_uint (Z.of_nat (length b))) ≤ 9)%nat; [|lia].
    unfold var_uint. repeat case_bool_decide; cbn [length]; rewrite ?length_put_le; lia.
Qed.

