(* ===== verification/Goring.v ===== *)
(** [network/actor/internal/queue/goring/queue.go]: the growing ring buffer behind the user
    mailbox of an actor.

    An [interface{}] is an [option]: [None] is [nil].  The lock makes each operation one
    step, so the operations are functions on the state. *)
From S2P Require Import Prelude.
Open Scope Z_scope.

(** The longest slice of interfaces (16 bytes each) a 48-bit address space can hold;
    [make] panics beyond it. *)
Definition max_len : Z := 2 ^ 44.

(** [make([]T, n)] with every element the zero value *)
Definition make_slice {S A} (zero : A) (n : Z) : M S (list A) :=
  if bool_decide (0 ≤ n ≤ max_len) then mret (replicate (Z.to_nat n) zero)
  else panic "makeslice: len out of range".

(** [a % b] *)
Definition go_rem {S} (a b : Z) : M S Z :=
  if bool_decide (b = 0) then panic "integer divide by zero" else mret (Z.rem a b).

Section Queue.
Context {A : Type}.

Record ringBuffer := mkRing { buffer : list (option A); head : Z; tail : Z; mod_ : Z }.
Record Queue := mkQueue { content : ringBuffer; len_ : Z }.

Abbreviation Q := (M Queue).

Definition set_content (c : ringBuffer) : Q unit := modify (λ q, mkQueue c (len_ q)).
Definition add_len (n : Z) : Q unit := modify (λ q, mkQueue (content q) (len_ q + n)).

Definition New (initialSize : Z) : outcome Queue :=
  if bool_decide (0 ≤ initialSize ≤ max_len)
  then Ret (mkQueue (mkRing (replicate (Z.to_nat initialSize) None) 0 0 initialSize) 0)
  else Panic "makeslice: len out of range".

(** The copying loop of [Push], for the indexes from [i] on. *)
Fixpoint copy_from (c : ringBuffer) (i : Z) (n : nat) (newBuff : list (option A)) : Q (list (option A)) :=
  match n with
  | O => mret newBuff
  | S n' =>
    buffIndex ← go_rem (tail c + i) (mod_ c);
    x ← lift (index (buffer c) buffIndex);
    newBuff' ← lift (set_index newBuff i x);
    copy_from c (i + 1) n' newBuff'
  end.

Definition Push (item : option A) : Q unit :=
  c ← gets content;
  t ← go_rem (tail c + 1) (mod_ c);
  let c := mkRing (buffer c) (head c) t (mod_ c) in
  set_content c ;;
  (if bool_decide (tail c = head c) then
     let newLen := mod_ c * 2 in
     newBuff ← make_slice None newLen;
     newBuff ← copy_from c 0 (Z.to_nat (mod_ c)) newBuff;
     set_content (mkRing newBuff 0 (mod_ c) newLen)
   else mret tt) ;;
  add_len 1 ;;
  c ← gets content;
  b ← lift (set_index (buffer c) (tail c) item);
  set_content (mkRing b (head c) (tail c) (mod_ c)).

Definition Length : Q Z := gets len_.
Definition Empty : Q bool := l ← Length; mret (bool_decide (l = 0)).

Definition Pop : Q (option A * bool) :=
  e ← Empty;
  if e : bool then mret (None, false)
  else
    c ← gets content;
    h ← go_rem (head c + 1) (mod_ c);
    set_content (mkRing (buffer c) h (tail c) (mod_ c)) ;;
    res ← lift (index (buffer c) h);
    b ← lift (set_index (buffer c) h None);
    set_content (mkRing b h (tail c) (mod_ c)) ;;
    add_len (-1) ;;
    mret (res, true).

(** The copying loop of [PopMany], for the offsets from [i] on. *)
Fixpoint take_from (i : Z) (n : nat) (out : list (option A)) : Q (list (option A)) :=
  match n with
  | O => mret out
  | S n' =>
    c ← gets content;
    pos ← go_rem (head c + 1 + i) (mod_ c);
    x ← lift (index (buffer c) pos);
    out' ← lift (set_index out i x);
    b ← lift (set_index (buffer c) pos None);
    set_content (mkRing b (head c) (tail c) (mod_ c)) ;;
    take_from (i + 1) n' out'
  end.

(** A nil slice is the empty list. *)
Definition PopMany (count : Z) : Q (list (option A) * bool) :=
  e ← Empty;
  if e : bool then mret ([], false)
  else
    l ← gets len_;
    let count := if bool_decide (l ≤ count) then l else count in
    add_len (- count) ;;
    out ← make_slice None count;
    out ← take_from 0 (Z.to_nat count) out;
    c ← gets content;
    h ← go_rem (head c + count) (mod_ c);
    set_content (mkRing (buffer c) h (tail c) (mod_ c)) ;;
    mret (out, true).
End Queue.
Arguments Queue : clear implicits.
Arguments ringBuffer : clear implicits.

(** ** The ring holds a list *)
Lemma mod_cases m x : 0 ≤ x < 2 * m → (x < m ∧ x mod m = x) ∨ (m ≤ x ∧ x mod m = x - m).
Proof.
  intros Hx. destruct (decide (x < m)).
  - left. by rewrite Z.mod_small by lia.
  - right. split; [lia|]. symmetry. apply (Z.mod_unique _ _ 1); lia.
Qed.

Lemma go_rem_spec {S} a b (s : S) : 0 ≤ a → 0 < b → go_rem a b s = (Ret (a mod b), s).
Proof.
  intros Ha Hb. unfold go_rem. rewrite bool_decide_eq_false_2 by lia. by rewrite Z.rem_mod_nonneg by lia.
Qed.

Lemma make_slice_spec {S A} (zero : A) n (s : S) :
  0 ≤ n ≤ max_len → make_slice zero n s = (Ret (replicate (Z.to_nat n) zero), s).
Proof. intros Hn. unfold make_slice. by rewrite bool_decide_eq_true_2. Qed.

Section Refinement.
Context {A : Type}.
Implicit Types (q : Queue A) (c : ringBuffer A) (l : list (option A)).

(** Where the [k]-th queued item lies. *)
Definition slot c (k : Z) : Z := (head c + 1 + k) mod mod_ c.

Record ring_ok q : Prop := {
  ok_buffer : len (buffer (content q)) = mod_ (content q);
  ok_mod : 0 < mod_ (content q) ≤ max_len;
  ok_head : 0 ≤ head (content q) < mod_ (content q);
  ok_len : 0 ≤ len_ q < mod_ (content q);
  ok_tail : tail (content q) = (head (content q) + len_ q) mod mod_ (content q)
}.

Definition holds q l : Prop :=
  len l = len_ q ∧
  ∀ k : nat, (k < length l)%nat → buffer (content q) !! Z.to_nat (slot (content q) (Z.of_nat k)) = l !! k.

Lemma copy_from_spec c n i nb q :
  0 ≤ i → 0 ≤ tail c → 0 < mod_ c → len (buffer c) = mod_ c → i + Z.of_nat n ≤ len nb →
  ∃ r, copy_from c i n nb q = (Ret r, q) ∧ length r = length nb ∧
    ∀ j : nat, r !! j = if decide (i ≤ Z.of_nat j < i + Z.of_nat n)
                        then buffer c !! Z.to_nat ((tail c + Z.of_nat j) mod mod_ c) else nb !! j.
Proof.
  revert i nb. induction n as [|n IH]; intros i nb Hi Ht Hm Hb Hn.
  { exists nb. split; [done|]. split; [done|]. intros j. by rewrite decide_False by lia. }
  cbn [copy_from]. erewrite run_bind_Ret by (apply go_rem_spec; lia).
  pose proof (Z.mod_pos_bound (tail c + i) (mod_ c) Hm) as Hpos.
  destruct (lookup_lt_is_Some_2 (buffer c) (Z.to_nat ((tail c + i) mod mod_ c))) as [x Hx].
  { unfold len in *. lia. }
  erewrite run_bind_Ret by (unfold lift; by erewrite index_Some by (done || lia)).
  erewrite run_bind_Ret by (unfold lift; by rewrite set_index_Ret by (unfold len in *; lia)).
  destruct (IH (i + 1) (<[Z.to_nat i := x]> nb)) as (r & Hr & Hlen & Hlook); try lia.
  { unfold len in *. rewrite length_insert. lia. }
  exists r. split; [done|]. rewrite length_insert in Hlen. split; [done|]. intros j. rewrite Hlook.
  destruct (decide (Z.of_nat j = i)) as [Hj|Hj].
  - rewrite decide_False, decide_True by lia. rewrite Hj, Hx.
    replace j with (Z.to_nat i) by lia. apply list_lookup_insert_eq. unfold len in *. lia.
  - rewrite list_lookup_insert_ne by lia.
    destruct (decide (i + 1 ≤ Z.of_nat j < i + 1 + Z.of_nat n));
      destruct (decide (i ≤ Z.of_nat j < i + Z.of_nat (S n))); try done; lia.
Qed.

(** Writing the item after the last one. *)
Lemma holds_snoc q c b item l :
  ring_ok q → holds q l → len_ q + 1 < mod_ c →
  mod_ c = mod_ (content q) → head c = head (content q) → buffer c = buffer (content q) →
  b = <[Z.to_nat (slot c (len_ q)) := item]> (buffer c) → tail c = slot c (len_ q) →
  let q' := mkQueue (mkRing b (head c) (tail c) (mod_ c)) (len_ q + 1) in
  ring_ok q' ∧ holds q' (l ++ [item]).
Proof.
  intros [Hb Hm Hh Hl Ht] [Hlen Hk] Hroom Em Eh Eb -> Et. cbv zeta.
  pose proof (Z.mod_pos_bound (head c + 1 + len_ q) (mod_ c) ltac:(lia)) as Hpos.
  split; [split|split]; cbn [content len_ buffer head tail mod_].
  - unfold len in *. rewrite length_insert. congruence.
  - congruence.
  - congruence.
  - lia.
  - rewrite Et. unfold slot. f_equal. lia.
  - unfold len in *. rewrite length_app. simpl. lia.
  - intros k Hkl. rewrite length_app in Hkl. simpl in Hkl. unfold slot in *. cbn [head mod_].
    unfold len in *.
    destruct (decide (k < length l)%nat) as [Hlt|Hge].
    + rewrite list_lookup_insert_ne, Eb, lookup_app_l, <-Hk, Eh, Em by
        (done || (intros Heq; destruct (mod_cases (mod_ c) (head c + 1 + len_ q)),
           (mod_cases (mod_ c) (head c + 1 + Z.of_nat k)); lia)). done.
    + assert (Z.of_nat k = len_ q) as -> by lia. rewrite list_lookup_insert_eq by (rewrite Eb; lia).
      rewrite lookup_app_r by lia. by replace (k - length l)%nat with 0%nat by lia.
Qed.
(** The memory bound matters only when the push fills the ring. *)
Lemma Push_spec q l item :
  ring_ok q → holds q l → (len_ q + 1 = mod_ (content q) → mod_ (content q) * 2 ≤ max_len) →
  wp (Push item) q (λ o q', o = Ret tt ∧ ring_ok q' ∧ holds q' (l ++ [item]) ∧
    mod_ (content q') = if bool_decide (len_ q + 1 = mod_ (content q))
                        then mod_ (content q) * 2 else mod_ (content q)).
Proof.
  intros Hok Hh Hmax. pose proof Hok as [Hb Hm Hhd Hl Ht]. pose proof Hh as [Hlen Hk].
  set (c := content q) in *. unfold wp, Push. erewrite run_bind_Ret by done. fold c.
  assert (0 ≤ tail c < mod_ c) as Htl by (rewrite Ht; apply Z.mod_pos_bound; lia).
  erewrite run_bind_Ret by (apply go_rem_spec; lia).
  assert ((tail c + 1) mod mod_ c = slot c (len_ q)) as Etail.
  { unfold slot. rewrite Ht. rewrite Zplus_mod_idemp_l. f_equal. lia. }
  rewrite Etail. erewrite run_bind_Ret by done. cbn [tail head mod_ buffer content len_].
  destruct (decide (len_ q + 1 = mod_ c)) as [Hfull|Hfree].
  - assert (slot c (len_ q) = head c) as Efull.
    { unfold slot. destruct (mod_cases (mod_ c) (head c + 1 + len_ q)); lia. }
    rewrite !bool_decide_eq_true_2 by done. specialize (Hmax Hfull).
    set (q1 := mkQueue _ _).
    destruct (copy_from_spec (mkRing (buffer c) (head c) (slot c (len_ q)) (mod_ c)) (Z.to_nat (mod_ c)) 0
      (replicate (Z.to_nat (mod_ c * 2)) None) q1) as (r & Hr & Hrl & Hlook);
      cbn [tail mod_ buffer] in *; try (rewrite ?Efull; lia).
    { unfold len. rewrite length_replicate. lia. }
    rewrite length_replicate in Hrl.
    set (q2 := mkQueue (mkRing r 0 (mod_ c - 1) (mod_ c * 2)) (len_ q)).
    destruct (holds_snoc q2 (mkRing r 0 (mod_ c) (mod_ c * 2))
      (<[Z.to_nat (mod_ c) := item]> r) item l) as [Hok' Hh'];
      cbn [mod_ head buffer tail content len_]; try done.
    { split; unfold q2; cbn [mod_ head buffer tail content len_]; unfold len; (lia || (rewrite Z.mod_small; lia)). }
    { split; [done|]. intros k Hkl. rewrite <-Hk by done. unfold slot, q2. cbn [content head mod_ buffer].
      unfold len in *. rewrite Z.mod_small by lia. rewrite Hlook.
      rewrite decide_True by lia. rewrite Efull. do 3 f_equal. lia. }
    { unfold q2. cbn [len_]. lia. }
    { do 2 f_equal. unfold slot, q2. cbn [head mod_ len_]. rewrite Z.mod_small; lia. }
    { unfold slot, q2. cbn [head mod_ len_]. rewrite Z.mod_small; lia. }
    erewrite run_bind_Ret by
      (erewrite run_bind_Ret by (apply make_slice_spec; lia); erewrite run_bind_Ret by exact Hr; done).
    erewrite run_bind_Ret by done. erewrite run_bind_Ret by done. cbn [buffer tail content].
    erewrite run_bind_Ret by (unfold lift; by rewrite set_index_Ret by lia).
    done.
  - assert (slot c (len_ q) ≠ head c) as Hne.
    { unfold slot. destruct (mod_cases (mod_ c) (head c + 1 + len_ q)); lia. }
    rewrite !bool_decide_eq_false_2 by done. erewrite run_bind_Ret by done.
    erewrite run_bind_Ret by done. erewrite run_bind_Ret by done. cbn [buffer tail content head mod_ len_].
    pose proof (Z.mod_pos_bound (head c + 1 + len_ q) (mod_ c) ltac:(lia)) as Hpos.
    erewrite run_bind_Ret by (unfold lift; by rewrite set_index_Ret by (unfold slot, len in *; lia)).
    destruct (holds_snoc q (mkRing (buffer c) (head c) (slot c (len_ q)) (mod_ c)) _ item l
      Hok Hh ltac:(cbn [mod_]; lia) eq_refl eq_refl eq_refl eq_refl eq_refl) as [Hok' Hh'].
    done.
Qed.

Lemma Pop_empty q : holds q [] → Pop q = (Ret (None, false), q).
Proof.
  intros [Hlen _]. unfold Pop. erewrite run_bind_Ret by (unfold Empty; by erewrite run_bind_Ret by done).
  by rewrite bool_decide_eq_true_2.
Qed.

Lemma Pop_spec q x l :
  ring_ok q → holds q (x :: l) →
  wp Pop q (λ o q', o = Ret (x, true) ∧ ring_ok q' ∧ holds q' l ∧ mod_ (content q') = mod_ (content q)).
Proof.
  intros Hok [Hlen Hk]. pose proof Hok as [Hb Hm Hhd Hl Ht]. unfold len in Hlen. simpl in Hlen.
  set (c := content q) in *. unfold wp, Pop.
  erewrite run_bind_Ret by (unfold Empty; by erewrite run_bind_Ret by done).
  rewrite bool_decide_eq_false_2 by lia. erewrite run_bind_Ret by done. fold c.
  erewrite run_bind_Ret by (apply go_rem_spec; lia). erewrite run_bind_Ret by done.
  pose proof (Z.mod_pos_bound (head c + 1) (mod_ c) ltac:(lia)) as Hpos.
  pose proof (Hk 0%nat ltac:(simpl; lia)) as H0. unfold slot in H0. rewrite Z.add_0_r in H0.
  erewrite run_bind_Ret by (unfold lift; by erewrite index_Some by (done || lia)).
  erewrite run_bind_Ret by (unfold lift; by rewrite set_index_Ret by (unfold len in *; lia)).
  erewrite run_bind_Ret by done. erewrite run_bind_Ret by done. cbn [fst snd mret M_ret].
  split; [done|]. split; [split|split; [split|done]]; cbn [content len_ buffer head tail mod_].
  - unfold len in *. by rewrite length_insert.
  - done.
  - done.
  - lia.
  - rewrite Ht, Zplus_mod_idemp_l. f_equal. lia.
  - unfold len. lia.
  - intros k Hkl. change (l !! k) with ((x :: l) !! Datatypes.S k). rewrite <-Hk by (simpl; lia).
    unfold slot. cbn [head mod_]. rewrite <-Z.add_assoc, Zplus_mod_idemp_l.
    replace (head c + 1 + (1 + Z.of_nat k)) with (head c + 1 + Z.of_nat (Datatypes.S k)) by lia.
    fold c. apply list_lookup_insert_ne.
    destruct (mod_cases (mod_ c) (head c + 1)), (mod_cases (mod_ c) (head c + 1 + Z.of_nat (Datatypes.S k))); lia.
Qed.

Lemma slot_inj c a b :
  0 ≤ head c < mod_ c → 0 ≤ a < mod_ c → 0 ≤ b < mod_ c → slot c a = slot c b → a = b.
Proof.
  intros Hh Ha Hb. unfold slot.
  destruct (mod_cases (mod_ c) (head c + 1 + a)), (mod_cases (mod_ c) (head c + 1 + b)); lia.
Qed.

(** What [take_from] leaves alone. *)
Definition same_ring q q' : Prop :=
  len (buffer (content q')) = mod_ (content q) ∧ head (content q') = head (content q) ∧
  tail (content q') = tail (content q) ∧ mod_ (content q') = mod_ (content q) ∧ len_ q' = len_ q.

Lemma take_from_spec q n i out l :
  0 ≤ i → 0 < mod_ (content q) → 0 ≤ head (content q) < mod_ (content q) →
  len (buffer (content q)) = mod_ (content q) →
  len l < mod_ (content q) → i + Z.of_nat n ≤ len l → i + Z.of_nat n ≤ len out →
  (∀ k : nat, i ≤ Z.of_nat k → (k < length l)%nat →
     buffer (content q) !! Z.to_nat (slot (content q) (Z.of_nat k)) = l !! k) →
  wp (take_from i n out) q (λ o q', same_ring q q' ∧
    (∀ k : nat, i + Z.of_nat n ≤ Z.of_nat k → (k < length l)%nat →
       buffer (content q') !! Z.to_nat (slot (content q) (Z.of_nat k)) = l !! k) ∧
    ∃ r, o = Ret r ∧ length r = length out ∧
      ∀ j : nat, r !! j = if decide (i ≤ Z.of_nat j < i + Z.of_nat n) then l !! j else out !! j).
Proof.
  revert i out q. induction n as [|n IH]; intros i out q Hi Hm Hh Hb Hlm Hl Hout Hk.
  { apply wp_ret. split; [done|]. split; [intros k Hkk Hkl; apply Hk; lia|]. exists out.
    split; [done|]. split; [done|]. intros j. by rewrite decide_False by lia. }
  unfold wp. cbn [take_from]. erewrite run_bind_Ret by done. set (c := content q) in *.
  erewrite run_bind_Ret by (apply go_rem_spec; lia).
  pose proof (Z.mod_pos_bound (head c + 1 + i) (mod_ c) Hm) as Hpos.
  destruct (lookup_lt_is_Some_2 l (Z.to_nat i)) as [x Hx]; [unfold len in *; lia|].
  pose proof (Hk (Z.to_nat i) ltac:(lia) ltac:(unfold len in *; lia)) as Hi0.
  rewrite Hx, Z2Nat.id in Hi0 by done. unfold slot in Hi0.
  erewrite run_bind_Ret by (unfold lift; by erewrite index_Some by (done || lia)).
  erewrite run_bind_Ret by (unfold lift; by rewrite set_index_Ret by (unfold len in *; lia)).
  erewrite run_bind_Ret by (unfold lift; by rewrite set_index_Ret by (unfold len in *; lia)).
  erewrite run_bind_Ret by done. set (q1 := mkQueue _ _).
  pose proof (IH (i + 1) (<[Z.to_nat i := x]> out) q1) as Hrec. unfold q1 in Hrec at 1 2 3 4 5 6 7 8.
  cbn [content head mod_ buffer] in Hrec. unfold len in *. rewrite !length_insert in Hrec.
  specialize (Hrec ltac:(lia) Hm Hh Hb Hlm ltac:(lia) ltac:(lia)).
  eapply wp_mono; [apply Hrec|].
  - intros k Hki Hkl. change (slot (content q1) (Z.of_nat k)) with (slot c (Z.of_nat k)).
    unfold q1. cbn [content buffer].
    rewrite list_lookup_insert_ne; [apply Hk; [lia|done]|]. intros Heq.
    assert (0 ≤ slot c (Z.of_nat k)) by (apply Z.mod_pos_bound; lia).
    apply Z2Nat.inj in Heq; [|lia|done].
    change (slot c i = slot c (Z.of_nat k)) in Heq. apply slot_inj in Heq; lia.
  - intros o q' (Hsame & Hrest & r & -> & Hrl & Hlook). split; [exact Hsame|].
    split; [intros k Hkk Hkl; apply Hrest; lia|]. exists r. split; [done|]. split; [done|].
    intros j. rewrite Hlook. destruct (decide (Z.of_nat j = i)) as [Hj|Hj].
    + rewrite decide_False, decide_True by lia. replace j with (Z.to_nat i) by lia. rewrite Hx.
      apply list_lookup_insert_eq. lia.
    + rewrite list_lookup_insert_ne by lia.
      destruct (decide (i + 1 ≤ Z.of_nat j < i + 1 + Z.of_nat n));
        destruct (decide (i ≤ Z.of_nat j < i + Z.of_nat (Datatypes.S n))); try done; lia.
Qed.

Lemma PopMany_spec q l count :
  ring_ok q → holds q l → l ≠ [] → 0 ≤ count →
  wp (PopMany count) q (λ o q', o = Ret (take (Z.to_nat count) l, true) ∧ ring_ok q' ∧
    holds q' (drop (Z.to_nat count) l) ∧ mod_ (content q') = mod_ (content q)).
Proof.
  intros Hok [Hlen Hk] Hne Hcount. pose proof Hok as [Hb Hm Hhd Hl Ht].
  assert (0 < len l) as Hpos by (unfold len; destruct l; [done|simpl; lia]).
  unfold wp, PopMany. erewrite run_bind_Ret by (unfold Empty; by erewrite run_bind_Ret by done).
  rewrite bool_decide_eq_false_2 by lia. erewrite run_bind_Ret by done.
  set (n := if bool_decide (len_ q ≤ count) then len_ q else count).
  assert (0 ≤ n ≤ len_ q) as Hn by (unfold n; case_bool_decide; lia).
  assert (take (Z.to_nat n) l = take (Z.to_nat count) l ∧ drop (Z.to_nat n) l = drop (Z.to_nat count) l)
    as [<- <-].
  { unfold n, len in *. case_bool_decide; [|done]. rewrite !take_ge, !drop_ge by lia. done. }
  erewrite run_bind_Ret by done. erewrite run_bind_Ret by (apply make_slice_spec; lia).
  set (q1 := mkQueue _ _).
  pose proof (take_from_spec q1 (Z.to_nat n) 0 (replicate (Z.to_nat n) None) l) as Hloop.
  unfold wp in Hloop. unfold len in *. rewrite length_replicate in Hloop.
  destruct (take_from 0 _ _ q1) as [o q2] eqn:Hrun. cbn [fst snd] in Hloop.
  destruct Hloop as ((Hb2 & Hh2 & Ht2 & Hm2 & Hl2) & Hrest & r & -> & Hrl & Hlook);
    [unfold q1; cbn [content]; (done || lia || auto)..|].
  erewrite run_bind_Ret by exact Hrun. erewrite run_bind_Ret by done.
  change (content q1) with (content q) in *. change (len_ q1) with (len_ q + - n) in Hl2.
  erewrite run_bind_Ret by (apply go_rem_spec; lia). erewrite run_bind_Ret by done.
  cbn [fst snd mret M_ret]. split.
  - do 2 f_equal. apply list_eq. intros j. rewrite Hlook. unfold len in *.
    destruct (decide (j < Z.to_nat n)%nat).
    + rewrite decide_True, lookup_take_lt by lia. done.
    + rewrite decide_False, lookup_take_ge by lia.
      apply lookup_ge_None_2. rewrite length_replicate. lia.
  - pose proof (Z.mod_pos_bound (head (content q) + n) (mod_ (content q)) ltac:(lia)) as Hpos2.
    split; [split|split; [split|]]; cbn [content len_ buffer head tail mod_]; rewrite ?Hh2, ?Hm2, ?Hl2 in *;
      try done; try lia.
    + rewrite Ht2, Ht, Zplus_mod_idemp_l. f_equal. lia.
    + unfold len in *. rewrite length_drop. lia.
    + intros k Hkl. rewrite length_drop in Hkl. rewrite lookup_drop, <-Hrest by (unfold len in *; lia).
      unfold slot. cbn [head mod_]. rewrite <-Z.add_assoc, Zplus_mod_idemp_l. do 3 f_equal. lia.
Qed.

(** ** Any sequence of operations *)
Inductive op := OPush (item : option A) | OPop | OPopMany (count : Z).

Definition op_ok (o : op) : Prop := match o with OPopMany n => 0 ≤ n | _ => True end.

(** The items answered, and the flag. *)
Definition do_op (o : op) : M (Queue A) (list (option A) * bool) :=
  match o with
  | OPush item => Push item ;; mret ([], true)
  | OPop => r ← Pop; mret ([r.1], r.2)
  | OPopMany n => PopMany n
  end.

(** The same on a list, oldest item first. *)
Definition fifo_op (o : op) (l : list (option A)) : (list (option A) * bool) * list (option A) :=
  match o, l with
  | OPush item, _ => (([], true), l ++ [item])
  | OPop, [] => (([None], false), [])
  | OPop, x :: l' => (([x], true), l')
  | OPopMany _, [] => (([], false), [])
  | OPopMany n, _ => ((take (Z.to_nat n) l, true), drop (Z.to_nat n) l)
  end.

Fixpoint do_ops (os : list op) : M (Queue A) (list (list (option A) * bool)) :=
  match os with
  | [] => mret []
  | o :: os' => r ← do_op o; rs ← do_ops os'; mret (r :: rs)
  end.

Fixpoint fifo_ops (os : list op) (l : list (option A)) : list (list (option A) * bool) * list (option A) :=
  match os with
  | [] => ([], l)
  | o :: os' => let '(r, l') := fifo_op o l in let '(rs, l'') := fifo_ops os' l' in (r :: rs, l'')
  end.

Definition pushes (os : list op) : Z := countb (λ o, match o with OPush _ => true | _ => false end) os.

Lemma do_op_spec q l o n k :
  ring_ok q → holds q l → op_ok o → len l ≤ k → mod_ (content q) ≤ Z.max n (2 * k) →
  2 * (k + pushes [o]) ≤ max_len →
  wp (do_op o) q (λ a q', a = Ret (fifo_op o l).1 ∧ ring_ok q' ∧ holds q' (fifo_op o l).2 ∧
    len (fifo_op o l).2 ≤ k + pushes [o] ∧ mod_ (content q') ≤ Z.max n (2 * (k + pushes [o]))).
Proof.
  intros Hok Hh Ho Hlk Hmod Hmax. pose proof Hh as [Hlen _].
  destruct o as [item| |count]; cbn [pushes countb foldr] in *.
  - apply wp_bind. eapply wp_mono.
    { eapply (Push_spec q l item Hok Hh). intros E. cbn in Hmax. lia. }
    intros a q' (-> & Hok' & Hh' & Hm'). apply wp_ret. split; [done|]. split; [done|]. split; [done|].
    cbn [fifo_op snd]. unfold len in *. rewrite length_app. cbn in *. split; [lia|].
    case_bool_decide; lia.
  - destruct l as [|x l].
    + unfold wp. cbn [do_op]. erewrite run_bind_Ret by (by apply Pop_empty). cbn. split; [done|]. split; [done|]. split; [done|]. unfold len in *. simpl in *. lia.
    + apply wp_bind. eapply wp_mono; [by apply (Pop_spec q x l)|].
      intros a q' (-> & Hok' & Hh' & Hm'). apply wp_ret. split; [done|]. split; [done|]. split; [done|].
      rewrite Hm'. cbn. unfold len in *. simpl in *. lia.
  - destruct l as [|x l].
    + unfold wp. cbn [do_op]. unfold PopMany. erewrite run_bind_Ret
        by (unfold Empty; by erewrite run_bind_Ret by done). rewrite bool_decide_eq_true_2 by done.
      cbn. split; [done|]. split; [done|]. split; [done|]. unfold len in *. simpl in *. lia.
    + eapply wp_mono; [by apply (PopMany_spec q (x :: l) count)|].
      intros a q' (-> & Hok' & Hh' & Hm'). split; [done|]. split; [done|]. split; [done|].
      rewrite Hm'. cbn [fifo_op snd]. unfold len in *. rewrite length_drop. cbn. simpl in Hlk. lia.
Qed.

Lemma do_ops_spec os q l n k :
  ring_ok q → holds q l → Forall op_ok os → len l ≤ k → mod_ (content q) ≤ Z.max n (2 * k) →
  2 * (k + pushes os) ≤ max_len →
  wp (do_ops os) q (λ a q', a = Ret (fifo_ops os l).1 ∧ ring_ok q' ∧ holds q' (fifo_ops os l).2 ∧
    mod_ (content q') ≤ Z.max n (2 * (k + pushes os))).
Proof.
  revert q l k. induction os as [|o os IH]; intros q l k Hok Hh Hos Hlk Hmod Hmax.
  { apply wp_ret. cbn in *. rewrite Z.add_0_r. done. }
  apply Forall_cons in Hos as [Ho Hos].
  assert (pushes (o :: os) = pushes [o] + pushes os) as Hp by (destruct o; unfold pushes, countb; cbn [foldr]; lia).
  pose proof (countb_nonneg (λ o, match o with OPush _ => true | _ => false end) os) as Hnn.
  change (0 ≤ pushes os) in Hnn.
  apply wp_bind. eapply wp_mono; [apply (do_op_spec q l o n k); (done || lia)|].
  intros a q1 (-> & Hok1 & Hh1 & Hl1 & Hm1). cbn [fifo_ops].
  destruct (fifo_op o l) as [r l1] eqn:Ho1. cbn [fst snd] in *.
  apply wp_bind. eapply wp_mono; [apply (IH q1 l1 (k + pushes [o])); (done || lia)|].
  intros a q2 (-> & Hok2 & Hh2 & Hm2). destruct (fifo_ops os l1) as [rs l2]. apply wp_ret.
  split; [done|]. split; [done|]. split; [done|]. cbn [fst snd] in *. rewrite Hp. lia.
Qed.

(** C19: the ring buffer is a first-in first-out queue: any sequence of [Push], [Pop] and
    [PopMany] on a new queue of any positive size runs without a panic and answers what a
    list would, through any number of wrap-arounds and growths; the buffer never grows
    beyond twice the number of pushes, which is within the range of the indexes. *)
Theorem goring_refines_fifo n os :
  0 < n ≤ max_len → Forall op_ok os → 2 * pushes os ≤ max_len →
  ∃ q, New n = Ret q ∧
  let '(a, q') := do_ops os q in
  a = Ret (fifo_ops os []).1 ∧ holds q' (fifo_ops os []).2 ∧
  mod_ (content q') ≤ Z.max n (2 * pushes os).
Proof.
  intros Hn Hos Hmax. unfold New. rewrite bool_decide_eq_true_2 by lia. eexists. split; [done|].
  pose proof (do_ops_spec os (mkQueue (mkRing (replicate (Z.to_nat n) None) 0 0 n) 0) [] n 0) as Hrun.
  unfold wp in Hrun. destruct (do_ops os _) as [a q']. cbn [fst snd] in Hrun.
  destruct Hrun as (-> & _ & Hh & Hm); [..|done].
  - split; cbn; unfold len; rewrite ?length_replicate; try lia. by rewrite Z.mod_0_l by lia.
  - split; [done|]. intros k Hk. simpl in Hk. lia.
  - done.
  - done.
  - cbn. lia.
  - lia.
Qed.
End Refinement.

(** Pops and pushes around the end of a ring of three, then a growth. *)
Lemma goring_refines_fifo_witness :
  ∃ q, New 3 = Ret q ∧
  (do_ops [OPush (Some 1); OPush (Some 2); OPop; OPush (Some 3); OPush (Some 4); OPopMany 2; OPop; OPop] q).1
  = Ret [([], true); ([], true); ([Some 1], true); ([], true); ([], true); ([Some 2; Some 3], true);
         ([Some 4], true); ([None], false)].
Proof.
  destruct (goring_refines_fifo 3
    [OPush (Some 1); OPush (Some 2); OPop; OPush (Some 3); OPush (Some 4); OPopMany 2; OPop; OPop]
    ltac:(unfold max_len; lia) ltac:(repeat constructor; simpl; lia) ltac:(unfold max_len; cbn; lia))
    as (q & Hq & Hrun).
  exists q. split; [exact Hq|]. destruct (do_ops _ q) as [a q']. exact (proj1 Hrun).
Defined.
