(* ===== verification/Mpsc.v ===== *)
(** [network/actor/internal/queue/mpsc/mpsc.go]: the lock-free multi-producer,
    single-consumer queue behind the system mailbox.

    Nodes live in a heap that only grows; a pointer is an index into it.  [Push] touches
    shared memory twice, with the swap of [head] and the store to [prev.next]; [Pop] and
    [Empty] touch it once, with the load of [tail.next].  Producers are threads that stand
    between their two steps; an execution is any interleaving of the steps. *)
From S2P Require Import Prelude.

Section Mpsc.
Context {A : Type}.

(** An [interface{}]: [None] is [nil]. *)
Record node := mkNode { next : option nat; val : option A }.
Record Queue := mkQueue { heap : list node; head : nat; tail : nat }.

Abbreviation Q := (M Queue).

Definition New : Queue := mkQueue [mkNode None None] 0 0.

Definition load (p : nat) : Q node :=
  q ← get;
  match heap q !! p with Some n => mret n | None => panic "invalid memory address" end.
Definition store_node (p : nat) (n : node) : Q unit :=
  modify (λ q, mkQueue (<[p := n]> (heap q)) (head q) (tail q)).

(** [n := &node{val: x}; prev := atomic.SwapPointer(&q.head, n)] *)
Definition push_swap (x : option A) : Q (nat * nat) :=
  q ← get;
  let n := length (heap q) in
  modify (λ q, mkQueue (heap q ++ [mkNode None x]) n (tail q)) ;;
  mret (head q, n).

(** [prev.next = n] *)
Definition push_link (prev n : nat) : Q unit :=
  p ← load prev;
  store_node prev (mkNode (Some n) (val p)).

Definition Push (x : option A) : Q unit :=
  r ← push_swap x;
  push_link r.1 r.2.

Definition Pop : Q (option A) :=
  q ← get;
  t ← load (tail q);
  match next t with
  | Some n =>
    modify (λ q, mkQueue (heap q) (head q) n) ;;
    nd ← load n;
    store_node n (mkNode (next nd) None) ;;
    mret (val nd)
  | None => mret None
  end.

Definition Empty : Q bool :=
  q ← get;
  t ← load (tail q);
  mret (match next t with Some _ => false | None => true end).

(** ** Executions *)

(** [pending !! t] is what thread [t] is about to link. *)
Record conf := mkConf { queue : Queue; pending : gmap nat (nat * nat) }.

Inductive event :=
  | ESwap (t : nat) (x : option A)
  | ELink (t : nat)
  | EPop (took : bool) (v : option A).

Inductive step : conf → event → conf → Prop :=
  | step_swap t x r q q' pend :
      pend !! t = None → push_swap x q = (Ret r, q') →
      step (mkConf q pend) (ESwap t x) (mkConf q' (<[t := r]> pend))
  | step_link t p n q q' pend :
      pend !! t = Some (p, n) → push_link p n q = (Ret tt, q') →
      step (mkConf q pend) (ELink t) (mkConf q' (delete t pend))
  | step_pop e v q q' pend :
      Empty q = (Ret e, q) → Pop q = (Ret v, q') →
      step (mkConf q pend) (EPop (negb e) v) (mkConf q' pend).

Inductive exec : list event → conf → Prop :=
  | exec_new : exec [] (mkConf New ∅)
  | exec_step tr c ev c' : exec tr c → step c ev c' → exec (tr ++ [ev]) c'.

(** The items in the order of the swaps, and the items taken, in order. *)
Definition pushed (tr : list event) : list (option A) :=
  omap (λ ev, match ev with ESwap _ x => Some x | _ => None end) tr.
Definition popped (tr : list event) : list (option A) :=
  omap (λ ev, match ev with EPop true v => Some v | _ => None end) tr.

(** ** The chain from the tail to the head *)

(** [ns] are the nodes from the consumer's to the producers' end, [xs] the items of all but
    the first.  Where two neighbours are not linked, one thread is about to link them. *)
Record chain_ok (c : conf) (ns : list nat) (xs : list (option A)) : Prop := {
  ch_nodup : NoDup ns;
  ch_tail : ns !! 0 = Some (tail (queue c));
  ch_head : last ns = Some (head (queue c));
  ch_vals : ∀ i p, ns !! i = Some p →
    ∃ nd, heap (queue c) !! p = Some nd ∧ ∀ j, i = S j → xs !! j = Some (val nd);
  ch_len : length ns = S (length xs);
  ch_links : ∀ i p nd, ns !! i = Some p → heap (queue c) !! p = Some nd →
    (next nd = None ∧ ∀ n, ns !! S i = Some n → ∃ t, pending c !! t = Some (p, n)) ∨
    (∃ n, next nd = Some n ∧ ns !! S i = Some n);
  ch_pending : ∀ t p n, pending c !! t = Some (p, n) →
    ∃ i nd, ns !! i = Some p ∧ ns !! S i = Some n ∧ heap (queue c) !! p = Some nd ∧ next nd = None;
  ch_threads : ∀ t t' p n n', pending c !! t = Some (p, n) → pending c !! t' = Some (p, n') → t = t'
}.

Lemma run_load q p nd : heap q !! p = Some nd → load p q = (Ret nd, q).
Proof. intros Hp. unfold load, mbind, M_bind, get. by rewrite Hp. Qed.

Lemma chain_new : chain_ok (mkConf New ∅) [0] [].
Proof.
  split; try done.
  - apply NoDup_singleton.
  - intros [|i] p Hp; [|done]. injection Hp as <-. exists (mkNode None None). by split.
  - intros [|i] p nd Hp Hnd; [|done]. injection Hp as <-. injection Hnd as <-. left. by split.
Qed.

Lemma chain_lt c ns xs i p : chain_ok c ns xs → ns !! i = Some p → (p < length (heap (queue c)))%nat.
Proof. intros Hc Hp. destruct (ch_vals c ns xs Hc i p Hp) as (nd & Hnd & _). by eapply lookup_lt_Some. Qed.

Lemma chain_head c ns xs : chain_ok c ns xs → ns !! length xs = Some (head (queue c)).
Proof.
  intros Hc. rewrite <-(ch_head c ns xs Hc), last_lookup, (ch_len c ns xs Hc). done.
Qed.

Lemma chain_same c ns xs i j p : chain_ok c ns xs → ns !! i = Some p → ns !! j = Some p → i = j.
Proof. intros Hc. eapply NoDup_lookup, ch_nodup, Hc. Qed.

Lemma chain_swap q pend ns xs t x :
  chain_ok (mkConf q pend) ns xs → pend !! t = None →
  push_swap x q = (Ret (head q, length (heap q)),
                   mkQueue (heap q ++ [mkNode None x]) (length (heap q)) (tail q)) ∧
  chain_ok (mkConf (mkQueue (heap q ++ [mkNode None x]) (length (heap q)) (tail q))
                   (<[t := (head q, length (heap q))]> pend))
    (ns ++ [length (heap q)]) (xs ++ [x]).
Proof.
  intros Hc Ht. split; [done|].
  pose proof (chain_head _ _ _ Hc) as Hhead. cbn [queue] in Hhead.
  pose proof (chain_lt _ _ _ (length xs) _ Hc Hhead) as Hlt. cbn [queue] in Hlt.
  pose proof (λ i p, chain_lt _ _ _ i p Hc) as Hlts. cbn [queue] in Hlts.
  assert (∀ i, (i ≤ length xs)%nat → is_Some (ns !! i)) as Hin.
  { intros i Hi. apply lookup_lt_is_Some. rewrite (ch_len _ _ _ Hc). lia. }
  destruct Hc as [Hnd H0 Hl Hvals Hlen Hlinks Hpend Hthr]. cbn [queue pending] in *.
  split; cbn [queue pending heap tail head].
  - apply NoDup_app. split; [done|]. split; [|apply NoDup_singleton].
    intros p [i Hp]%list_elem_of_lookup Hq%list_elem_of_singleton. apply Hlts in Hp. lia.
  - rewrite lookup_app_l; [done|]. lia.
  - by rewrite last_snoc.
  - intros i p Hp. apply lookup_snoc_Some in Hp as [[Hi Hp]|[-> <-]].
    + destruct (Hvals i p Hp) as (nd & Hp' & Hx). exists nd. split.
      * rewrite lookup_app_l; [done|]. by eapply Hlts.
      * intros j ->. rewrite lookup_app_l; [by apply Hx|]. lia.
    + eexists. split; [by rewrite list_lookup_middle|]. intros j Hj. cbn [val].
      rewrite list_lookup_middle; [done|]. lia.
  - rewrite !length_app. simpl. lia.
  - intros i p nd Hp Hnode. apply lookup_snoc_Some in Hp as [[Hi Hp]|[-> <-]].
    + rewrite lookup_app_l in Hnode by (by eapply Hlts).
      destruct (Hlinks i p nd Hp Hnode) as [[Hnone Hn]|(n & Hn & Hi')].
      * left. split; [done|]. intros n Hn'. apply lookup_snoc_Some in Hn' as [[Hi' Hn']|[Hi' <-]].
        -- destruct (Hn n Hn') as [t' Ht']. exists t'. rewrite lookup_insert_ne; [done|congruence].
        -- exists t. rewrite lookup_insert_eq. replace i with (length xs) in Hp by lia. congruence.
      * right. exists n. split; [done|]. apply lookup_app_l_Some. done.
    + left. rewrite list_lookup_middle in Hnode by done. injection Hnode as <-. split; [done|].
      intros n Hn. apply lookup_lt_Some in Hn. rewrite length_app in Hn. simpl in Hn. lia.
  - intros t' p n Hp. apply lookup_insert_Some in Hp as [[<- [= <- <-]]|[Hne Hp]].
    + destruct (Hvals _ _ Hhead) as (nd & Hnode & _). exists (length xs), nd.
      split; [by apply lookup_app_l_Some|]. split; [apply list_lookup_middle; lia|].
      split; [by apply lookup_app_l_Some|].
      destruct (Hlinks _ _ _ Hhead Hnode) as [[Hnone _]|(n & _ & Hn)]; [done|].
      apply lookup_lt_Some in Hn. lia.
    + destruct (Hpend t' p n Hp) as (i & nd & Hi & Hi' & Hnode & Hnone). exists i, nd.
      split; [by apply lookup_app_l_Some|]. split; [by apply lookup_app_l_Some|].
      split; [by apply lookup_app_l_Some|done].
  - assert (∀ t' n, pend !! t' ≠ Some (head q, n)) as Hfree.
    { intros t' n Hp. destruct (Hpend _ _ _ Hp) as (i & nd & Hi & Hi' & _).
      assert (i = length xs) as -> by (by eapply NoDup_lookup).
      apply lookup_lt_Some in Hi'. lia. }
    intros t1 t2 p n n' Hq1 Hq2.
    apply lookup_insert_Some in Hq1 as [[<- [= <- <-]]|[Hne1 Hq1]];
    apply lookup_insert_Some in Hq2 as [[<- Heq]|[Hne2 Hq2]]; try done.
    + by apply Hfree in Hq2.
    + injection Heq as <- <-. by apply Hfree in Hq1.
    + by eapply Hthr.
Qed.

Lemma chain_link q pend ns xs t p n :
  chain_ok (mkConf q pend) ns xs → pend !! t = Some (p, n) →
  ∃ q', push_link p n q = (Ret tt, q') ∧ chain_ok (mkConf q' (delete t pend)) ns xs.
Proof.
  intros Hc Ht. pose proof (λ i j a, chain_same _ _ _ i j a Hc) as Hsame.
  destruct Hc as [Hnd H0 Hl Hvals Hlen Hlinks Hpend Hthr]. cbn [queue pending] in *.
  destruct (Hpend t p n Ht) as (i & nd & Hi & Hi' & Hnode & Hnone).
  exists (mkQueue (<[p := mkNode (Some n) (val nd)]> (heap q)) (head q) (tail q)). split.
  { unfold push_link. by rewrite (run_bind_Ret _ _ _ _ _ (run_load _ _ _ Hnode)). }
  assert (∀ a b, a ≠ p → heap q !! a = b → <[p := mkNode (Some n) (val nd)]> (heap q) !! a = b) as Hkeep.
  { intros a b Ha. by rewrite list_lookup_insert_ne. }
  assert (<[p := mkNode (Some n) (val nd)]> (heap q) !! p = Some (mkNode (Some n) (val nd))) as Hnew.
  { apply list_lookup_insert_eq. by eapply lookup_lt_Some. }
  split; cbn [queue pending heap tail head]; try done.
  - intros j a Ha. destruct (Hvals j a Ha) as (nd' & Hnode' & Hx). destruct (decide (a = p)) as [->|Hne].
    + exists (mkNode (Some n) (val nd)). split; [done|]. rewrite Hnode in Hnode'.
      injection Hnode' as ->. exact Hx.
    + exists nd'. auto.
  - intros j a nd' Ha Hnode'. destruct (decide (a = p)) as [->|Hne].
    + right. exists n. assert (j = i) as -> by (by eapply Hsame).
      rewrite Hnew in Hnode'. injection Hnode' as <-. done.
    + rewrite list_lookup_insert_ne in Hnode' by done.
      destruct (Hlinks j a nd' Ha Hnode') as [[Hno Hn]|Hyes]; [left|by right].
      split; [done|]. intros m Hm. destruct (Hn m Hm) as [t' Ht']. exists t'.
      rewrite lookup_delete_ne; [done|]. congruence.
  - intros t' a b Hab. apply lookup_delete_Some in Hab as [Hne Hab].
    destruct (Hpend t' a b Hab) as (j & nd' & Hj & Hj' & Hnode' & Hnone').
    exists j, nd'. split; [done|]. split; [done|]. split; [|done]. apply Hkeep; [|done].
    intros ->. apply Hne. by eapply Hthr.
  - intros t1 t2 a b b' Hq1 Hq2. apply lookup_delete_Some in Hq1 as [_ Hq1].
    apply lookup_delete_Some in Hq2 as [_ Hq2]. by eapply Hthr.
Qed.

(** The consumer moves to the second node and clears its item. *)
Lemma chain_taken q pend a n ns v xs t nd :
  chain_ok (mkConf q pend) (a :: n :: ns) (v :: xs) →
  heap q !! a = Some t → next t = Some n → heap q !! n = Some nd →
  chain_ok (mkConf (mkQueue (<[n := mkNode (next nd) None]> (heap q)) (head q) n) pend) (n :: ns) xs.
Proof.
  intros Hc Ha Hnext Hn. pose proof (λ i j a, chain_same _ _ _ i j a Hc) as Hsame.
  destruct Hc as [Hnd H0 Hl Hvals Hlen Hlinks Hpend Hthr]. cbn [queue pending] in *.
  set (h := <[n := mkNode (next nd) None]> (heap q)).
  assert (∀ p m, h !! p = Some m → ∃ m', heap q !! p = Some m' ∧ next m' = next m) as Hback.
  { intros p m Hm. destruct (decide (p = n)) as [->|Hne].
    - exists nd. unfold h in Hm. rewrite list_lookup_insert_eq in Hm by (by eapply lookup_lt_Some).
      by injection Hm as <-.
    - exists m. unfold h in Hm. by rewrite list_lookup_insert_ne in Hm. }
  assert (∀ p m, heap q !! p = Some m → ∃ m', h !! p = Some m' ∧ next m' = next m ∧ (p ≠ n → m' = m)) as Hforth.
  { intros p m Hm. destruct (decide (p = n)) as [->|Hne].
    - exists (mkNode (next nd) None). unfold h. rewrite list_lookup_insert_eq by (by eapply lookup_lt_Some).
      rewrite Hn in Hm. injection Hm as <-. done.
    - exists m. unfold h. by rewrite list_lookup_insert_ne. }
  split; cbn [queue pending heap tail head]; fold h.
  - by apply NoDup_cons in Hnd as [_ Hnd].
  - done.
  - done.
  - intros i p Hp. destruct (Hvals (S i) p Hp) as (m & Hm & Hx).
    destruct (Hforth p m Hm) as (m' & Hm' & _ & Hsm). exists m'. split; [done|].
    intros j ->. assert (p ≠ n) as Hne.
    { intros ->. specialize (Hsame (S (S j)) 1%nat n Hp eq_refl). lia. }
    rewrite (Hsm Hne). by apply (Hx (S j)).
  - simpl in *. lia.
  - intros i p m Hp Hm. destruct (Hback p m Hm) as (m' & Hm' & <-). by apply (Hlinks (S i) p m').
  - intros t' p b Hp. destruct (Hpend t' p b Hp) as ([|i] & m & Hi & Hi' & Hm & Hnone).
    + injection Hi as <-. congruence.
    + destruct (Hforth p m Hm) as (m' & Hm' & Hnx & _). exists i, m'. by rewrite Hnx.
  - done.
Qed.

(** The consumer finds the queue empty, or takes the first item. *)
Lemma chain_pop q pend ns xs :
  chain_ok (mkConf q pend) ns xs →
  (Empty q = (Ret true, q) ∧ Pop q = (Ret None, q) ∧
     (xs = [] ∨ ∃ t n, pend !! t = Some (tail q, n))) ∨
  (∃ ns' v xs' q', xs = v :: xs' ∧ Empty q = (Ret false, q) ∧ Pop q = (Ret v, q') ∧
     chain_ok (mkConf q' pend) ns' xs').
Proof.
  intros Hc. pose proof Hc as Hc0.
  destruct Hc as [Hnd H0 Hl Hvals Hlen Hlinks Hpend Hthr]. cbn [queue pending] in *.
  destruct (Hvals _ _ H0) as (t & Ht & _).
  assert (Empty q = (Ret (match next t with Some _ => false | None => true end), q)) as HE.
  { unfold Empty. erewrite run_bind_Ret by done. by erewrite run_bind_Ret by (by apply run_load). }
  rewrite HE. unfold Pop. erewrite run_bind_Ret by done. erewrite run_bind_Ret by (by apply run_load).
  destruct (Hlinks _ _ _ H0 Ht) as [[Hnone Hn]|(n & Hn & Hi1)].
  - left. rewrite Hnone. split; [done|]. split; [done|].
    destruct xs as [|x xs]; [by left|]. right.
    destruct (lookup_lt_is_Some_2 ns 1) as [n Hi1]; [simpl in *; lia|].
    destruct (Hn n Hi1) as [t' Ht']. eauto.
  - right. rewrite Hn. destruct (Hvals _ _ Hi1) as (nd & Hnode & Hx). specialize (Hx 0%nat eq_refl).
    destruct xs as [|v xs']; [done|]. injection Hx as ->.
    exists (drop 1 ns), (val nd), xs', (mkQueue (<[n := mkNode (next nd) None]> (heap q)) (head q) n).
    split; [done|]. split; [done|]. split.
    + erewrite run_bind_Ret by done. by erewrite run_bind_Ret by (by apply run_load).
    + destruct ns as [|a [|n' ns']]; [done..|]. injection H0 as ->. injection Hi1 as ->.
      by eapply chain_taken.
Qed.

Lemma pushed_snoc tr ev :
  pushed (tr ++ [ev]) = pushed tr ++ match ev with ESwap _ x => [x] | _ => [] end.
Proof. unfold pushed. rewrite omap_app. by destruct ev. Qed.

Lemma popped_snoc tr ev :
  popped (tr ++ [ev]) = popped tr ++ match ev with EPop true v => [v] | _ => [] end.
Proof. unfold popped. rewrite omap_app. by destruct ev as [| |[]]. Qed.

Lemma exec_chain tr c : exec tr c → ∃ ns xs, chain_ok c ns xs ∧ pushed tr = popped tr ++ xs.
Proof.
  induction 1 as [|tr c ev c' Hex (ns & xs & Hc & Hp) Hstep].
  { exists [0%nat], []. split; [apply chain_new|done]. }
  rewrite pushed_snoc, popped_snoc.
  destruct Hstep as [t x r q q' pend Ht Hrun|t p n q q' pend Ht Hrun|e v q q' pend HE Hrun].
  - destruct (chain_swap q pend ns xs t x Hc Ht) as [Hswap Hc']. rewrite Hswap in Hrun.
    injection Hrun as <- <-. eexists _, _. split; [exact Hc'|]. rewrite Hp, app_nil_r. by rewrite app_assoc.
  - destruct (chain_link q pend ns xs t p n Hc Ht) as (q'' & Hlink & Hc'). rewrite Hlink in Hrun.
    injection Hrun as <-. exists ns, xs. by rewrite !app_nil_r.
  - destruct (chain_pop q pend ns xs Hc) as [(HE' & HP & _)|(ns' & v' & xs' & q'' & -> & HE' & HP & Hc')];
      rewrite HE' in HE; injection HE as <-; rewrite HP in Hrun; injection Hrun as <- <-.
    + exists ns, xs. by rewrite !app_nil_r.
    + exists ns', xs'. split; [done|]. rewrite Hp, app_nil_r. by rewrite <-app_assoc.
Qed.

(** C18: in every interleaving of producers and the consumer, no step dereferences a bad
    pointer, and the items taken are, in order, an initial part of the items pushed in the
    order of the swaps: nothing is lost, duplicated or reordered.  When no producer stands
    between its two steps, [Pop] takes the oldest item left, and finds the queue empty only
    when it is. *)
Theorem mpsc_is_fifo tr c :
  exec tr c →
  ∃ xs, pushed tr = popped tr ++ xs ∧
    (∀ t x, pending c !! t = None → ∃ c', step c (ESwap t x) c') ∧
    (∀ t, is_Some (pending c !! t) → ∃ c', step c (ELink t) c') ∧
    ∃ took v c', step c (EPop took v) c' ∧
      (pending c = ∅ → match xs with [] => took = false | x :: _ => took = true ∧ v = x end).
Proof.
  intros Hex. destruct (exec_chain tr c Hex) as (ns & xs & Hc & Hp). exists xs. split; [done|].
  destruct c as [q pend]. cbn [pending]. split; [|split].
  - intros t x Ht. eexists. econstructor; [done|]. by eapply chain_swap.
  - intros t [[p n] Ht]. destruct (chain_link q pend ns xs t p n Hc Ht) as (q' & Hq' & _).
    eexists. by econstructor.
  - destruct (chain_pop q pend ns xs Hc) as [(HE & HP & Hwhy)|(ns' & v & xs' & q' & -> & HE & HP & _)].
    + exists false, None. eexists. split; [by apply (step_pop true)|].
      intros ->. destruct Hwhy as [->|(t & n & Ht)]; [done|]. by rewrite lookup_empty in Ht.
    + exists true, v. eexists. split; [by apply (step_pop false)|done].
Qed.

(** Playing a given interleaving. *)
Definition fire `{EqDecision A} (c : conf) (ev : event) : option conf :=
  let q := queue c in
  match ev with
  | ESwap t x =>
    match pending c !! t, push_swap x q with
    | None, (Ret r, q') => Some (mkConf q' (<[t := r]> (pending c)))
    | _, _ => None
    end
  | ELink t =>
    match pending c !! t with
    | Some (p, n) => match push_link p n q with
                     | (Ret _, q') => Some (mkConf q' (delete t (pending c))) | _ => None end
    | None => None
    end
  | EPop took v =>
    match Empty q, Pop q with
    | (Ret e, _), (Ret v', q') => if decide (took = negb e ∧ v = v') then Some (mkConf q' (pending c)) else None
    | _, _ => None
    end
  end.

Definition play `{EqDecision A} (evs : list event) : option conf :=
  fold_left (λ oc ev, c ← oc; fire c ev) evs (Some (mkConf New ∅)).

Lemma fire_step `{EqDecision A} c ev c' : fire c ev = Some c' → step c ev c'.
Proof.
  destruct c as [q pend], ev as [t x|t|took v]; unfold fire; cbn [queue pending].
  - destruct (pend !! t) as [?|] eqn:Ht; [done|].
    destruct (push_swap x q) as [[r| | |] q'] eqn:Hrun; try done. intros [= <-]. by econstructor.
  - destruct (pend !! t) as [[p n]|] eqn:Ht; [|done].
    destruct (push_link p n q) as [[[]| | |] q'] eqn:Hrun; try done. intros [= <-]. by econstructor.
  - destruct (Empty q) as [[e| | |] q1] eqn:HE; try done.
    destruct (Pop q) as [[v'| | |] q'] eqn:HP; try done. case_decide as Hd; [|done]. intros [= <-].
    destruct Hd as [-> ->]. constructor; [|done]. rewrite HE. f_equal. revert HE.
    unfold Empty, load, mbind, M_bind, get. destruct (heap q !! tail q); by intros [= _ ->].
Qed.

Lemma play_exec `{EqDecision A} evs c : play evs = Some c → exec evs c.
Proof.
  revert c. induction evs as [|ev evs IH] using rev_ind; intros c.
  { intros [= <-]. constructor. }
  unfold play. rewrite fold_left_app. cbn [fold_left].
  change (fold_left _ evs (Some (mkConf New ∅))) with (play evs).
  destruct (play evs) as [c0|]; [|done]. intros Hf. econstructor; [by apply IH|by apply fire_step].
Qed.
End Mpsc.
Arguments Queue : clear implicits.
Arguments conf : clear implicits.
Arguments event : clear implicits.

(** Two producers overlap: the second finishes first, its item stays hidden until the first
    has linked, and the items then come out in the order of the swaps. *)
Definition overlap : list (event Z) :=
  [ESwap 1 (Some 10%Z); ESwap 2 (Some 20%Z); ELink 2; EPop false None; ELink 1; EPop true (Some 10%Z)].

Lemma mpsc_is_fifo_witness :
  ∃ c xs, exec overlap c ∧ pushed overlap = popped overlap ++ xs ∧ xs = [Some 20%Z] ∧
    ∃ c', step c (EPop true (Some 20%Z)) c'.
Proof.
  destruct (play overlap) as [c|] eqn:Hplay; [|discriminate Hplay].
  pose proof (play_exec _ _ Hplay) as Hex.
  destruct (mpsc_is_fifo _ _ Hex) as (xs & Hxs & _ & _ & took & v & c' & Hstep & Hv).
  exists c, xs. split; [exact Hex|]. split; [exact Hxs|].
  assert (xs = [Some 20%Z]) as -> by (cbn in Hxs; by injection Hxs as <-). split; [reflexivity|].
  destruct Hv as [-> ->].
  - assert (option_map (λ c, bool_decide (pending c = ∅)) (play overlap) = Some true) as Hb by reflexivity.
    rewrite Hplay in Hb. injection Hb as Hb. by apply bool_decide_eq_true in Hb.
  - exists c'. exact Hstep.
Defined.
