(* ===== verification/Mailbox.v ===== *)
(** [network/actor/mailbox]: the unbounded mailbox of an actor ([mailbox.go],
    [unbounded.go], the default dispatcher), with its user queue ([Goring]) and its system
    queue ([Mpsc]), under every interleaving of the threads that post messages and of the
    goroutines that process them.

    A thread is a program counter; each step is one access to shared memory together with
    the local code after it.  The statistics callbacks and the yielding of [run] every
    [Throughput()] messages have no effect on the state and are left out.  The messages posted are
    not nil: a nil user message makes a goroutine go on for ever, as [nil_message_spins] shows. *)
From S2P Require Import Prelude Goring Mpsc.
Open Scope Z_scope.

(** Two's complement, as [atomic.AddInt32] computes. *)
Definition wrap32 (x : Z) : Z := (x + 2 ^ 31) mod 2 ^ 32 - 2 ^ 31.

Section Mailbox.
Context {A : Type}.

(** What is posted: the two messages the mailbox itself reacts to, and the rest. *)
Inductive message := SuspendMailbox | ResumeMailbox | Message (a : A).

(** The system queue comes with the links its producers have still to make. *)
Record defaultMailbox := mkBox {
  userMailbox : Goring.Queue message;
  systemMailbox : Mpsc.conf message;
  schedulerStatus : bool;  (* running *)
  userMessages : Z;
  sysMessages : Z;
  suspended : bool
}.

Definition set_user q b := mkBox q (systemMailbox b) (schedulerStatus b) (userMessages b) (sysMessages b) (suspended b).
Definition set_sys q b := mkBox (userMailbox b) q (schedulerStatus b) (userMessages b) (sysMessages b) (suspended b).
Definition set_status s b := mkBox (userMailbox b) (systemMailbox b) s (userMessages b) (sysMessages b) (suspended b).
Definition add_user n b := mkBox (userMailbox b) (systemMailbox b) (schedulerStatus b) (wrap32 (userMessages b + n)) (sysMessages b) (suspended b).
Definition add_sys n b := mkBox (userMailbox b) (systemMailbox b) (schedulerStatus b) (userMessages b) (wrap32 (sysMessages b + n)) (suspended b).
Definition set_suspended s b := mkBox (userMailbox b) (systemMailbox b) (schedulerStatus b) (userMessages b) (sysMessages b) s.

(** [Unbounded()] *)
Definition Unbounded : outcome defaultMailbox :=
  match Goring.New 10 with
  | Ret q => Ret (mkBox q (Mpsc.mkConf Mpsc.New ∅) false 0 0 false)
  | Fail e => Fail e
  | Panic w => Panic w
  | OutOfFuel => OutOfFuel
  end.

Inductive event :=
  | EUserPosted (m : option message) | ESysPosted (m : option message)
  | EUserDelivered (m : message) | ESysDelivered (m : message)
  | EInternal.

(** A thread in [PostUserMessage] or [PostSystemMessage]: before the push, between the two
    steps of the lock-free push, before the increment of the counter, before the
    compare-and-swap of [schedule]. *)
Inductive poster :=
  | PUser (m : option message) | PUserInc
  | PSys (m : option message) | PLink (t : nat) | PSysInc
  | PSched.

(** One step of thread [p], which pushes to the system queue under the name [t]: what it
    does next, whether it has started a goroutine on [processMessages], what happened. *)
Definition post_step (t : nat) (p : poster) (b : defaultMailbox)
    : outcome (option poster * bool * event * defaultMailbox) :=
  match p with
  | PUser m =>
    match Goring.Push m (userMailbox b) with
    | (Ret _, q) => Ret (Some PUserInc, false, EUserPosted m, set_user q b)
    | (Fail e, _) => Fail e | (Panic w, _) => Panic w | (OutOfFuel, _) => OutOfFuel
    end
  | PUserInc => Ret (Some PSched, false, EInternal, add_user 1 b)
  | PSys m =>
    let c := systemMailbox b in
    match Mpsc.push_swap m (Mpsc.queue c) with
    | (Ret r, q) => Ret (Some (PLink t), false, ESysPosted m,
                         set_sys (Mpsc.mkConf q (<[t := r]> (Mpsc.pending c))) b)
    | (Fail e, _) => Fail e | (Panic w, _) => Panic w | (OutOfFuel, _) => OutOfFuel
    end
  | PLink t' =>
    let c := systemMailbox b in
    match Mpsc.pending c !! t' with
    | Some (prev, n) =>
      match Mpsc.push_link prev n (Mpsc.queue c) with
      | (Ret _, q) => Ret (Some PSysInc, false, EInternal,
                           set_sys (Mpsc.mkConf q (delete t' (Mpsc.pending c))) b)
      | (Fail e, _) => Fail e | (Panic w, _) => Panic w | (OutOfFuel, _) => OutOfFuel
      end
    | None => Panic "no such producer"
    end
  | PSysInc => Ret (Some PSched, false, EInternal, add_sys 1 b)
  | PSched =>
    if schedulerStatus b then Ret (None, false, EInternal, b)
    else Ret (None, true, EInternal, set_status true b)
  end.

(** A goroutine in [processMessages]: in [run] before a pop of the system queue, with a
    system message in hand, before a pop of the user queue, with a user message in hand;
    then, after [run], before the store of [idle], before the two loads, before the test,
    and before the compare-and-swap. *)
Inductive consumer :=
  | RSys | RGotSys (m : message) | RUser | RGotUser (m : message)
  | REnd | RLoadSys | RLoadUser (sys : Z) | RCheck (sys user : Z) | RCas.

(** One step of a consumer; [crash] says that the invoker panics on the message in hand, in
    which case [run] recovers, escalates the failure and returns. *)
Definition proc_step (crash : bool) (r : consumer) (b : defaultMailbox)
    : outcome (option consumer * event * defaultMailbox) :=
  match r with
  | RSys =>
    let c := systemMailbox b in
    match Mpsc.Pop (Mpsc.queue c) with
    | (Ret v, q) =>
      let b' := set_sys (Mpsc.mkConf q (Mpsc.pending c)) b in
      Ret (Some (match v with
                 | Some m => RGotSys m
                 | None => if suspended b then REnd else RUser
                 end), EInternal, b')
    | (Fail e, _) => Fail e | (Panic w, _) => Panic w | (OutOfFuel, _) => OutOfFuel
    end
  | RGotSys m =>
    let b' := add_sys (-1) b in
    Ret (match m with
         | SuspendMailbox => (Some RSys, ESysDelivered m, set_suspended true b')
         | ResumeMailbox => (Some RSys, ESysDelivered m, set_suspended false b')
         | Message _ => (Some (if crash then REnd else RSys), ESysDelivered m, b')
         end)
  | RUser =>
    match Goring.Pop (userMailbox b) with
    | (Ret (v, ok), q) =>
      Ret (Some (match (if ok : bool then v else None) with
                 | Some m => RGotUser m
                 | None => REnd
                 end), EInternal, set_user q b)
    | (Fail e, _) => Fail e | (Panic w, _) => Panic w | (OutOfFuel, _) => OutOfFuel
    end
  | RGotUser m => Ret (Some (if crash then REnd else RSys), EUserDelivered m, add_user (-1) b)
  | REnd => Ret (Some RLoadSys, EInternal, set_status false b)
  | RLoadSys => Ret (Some (RLoadUser (sysMessages b)), EInternal, b)
  | RLoadUser sys => Ret (Some (RCheck sys (userMessages b)), EInternal, b)
  | RCheck sys user =>
    Ret (if bool_decide (0 < sys) || negb (suspended b) && bool_decide (0 < user)
         then Some RCas else None, EInternal, b)
  | RCas =>
    if schedulerStatus b then Ret (None, EInternal, b)
    else Ret (Some RSys, EInternal, set_status true b)
  end.

(** ** The system: a mailbox and its threads *)
Record system := mkSys { box : defaultMailbox; posters : list poster; consumers : list consumer }.

Definition opt_list {B} (o : option B) : list B := match o with Some x => [x] | None => [] end.

Inductive step : system → event → system → Prop :=
  | step_call_user m b ps cs : step (mkSys b ps cs) EInternal (mkSys b (PUser (Some m) :: ps) cs)
  | step_call_sys m b ps cs : step (mkSys b ps cs) EInternal (mkSys b (PSys (Some m) :: ps) cs)
  | step_post t p o spawn ev b b' ps1 ps2 cs :
      Mpsc.pending (systemMailbox b) !! t = None →
      post_step t p b = Ret (o, spawn, ev, b') →
      step (mkSys b (ps1 ++ p :: ps2) cs) ev
           (mkSys b' (ps1 ++ opt_list o ++ ps2) (if spawn : bool then RSys :: cs else cs))
  | step_proc crash r o ev b b' ps cs1 cs2 :
      proc_step crash r b = Ret (o, ev, b') →
      step (mkSys b ps (cs1 ++ r :: cs2)) ev (mkSys b' ps (cs1 ++ opt_list o ++ cs2)).

Inductive exec : list event → system → Prop :=
  | exec_new b : Unbounded = Ret b → exec [] (mkSys b [] [])
  | exec_step tr s ev s' : exec tr s → step s ev s' → exec (tr ++ [ev]) s'.

(** ** The invariant *)
Definition sys_posted (tr : list event) : list (option message) :=
  omap (λ ev, match ev with ESysPosted m => Some m | _ => None end) tr.
Definition user_posted (tr : list event) : list (option message) :=
  omap (λ ev, match ev with EUserPosted m => Some m | _ => None end) tr.
Definition sys_delivered (tr : list event) : list message :=
  omap (λ ev, match ev with ESysDelivered m => Some m | _ => None end) tr.
Definition user_delivered (tr : list event) : list message :=
  omap (λ ev, match ev with EUserDelivered m => Some m | _ => None end) tr.

(** The counters are 32 bits wide. *)
Definition few (tr : list event) : Prop := len (sys_posted tr) < 2 ^ 31 ∧ len (user_posted tr) < 2 ^ 31.

(** Inside [run]. *)
Definition consuming (r : consumer) : bool :=
  match r with RSys | RGotSys _ | RUser | RGotUser _ | REnd => true | _ => false end.
Definition got_sys (r : consumer) : list message := match r with RGotSys m => [m] | _ => [] end.
Definition got_user (r : consumer) : list message := match r with RGotUser m => [m] | _ => [] end.

(** Pushed, but not counted yet. *)
Definition sys_uncounted (p : poster) : bool := match p with PLink _ | PSysInc => true | _ => false end.
Definition user_uncounted (p : poster) : bool := match p with PUserInc => true | _ => false end.
Definition link_id (p : poster) : option nat := match p with PLink t => Some t | _ => None end.

(** The consumer is past [run] and is going to find out that there is work. *)
Definition notices (b : defaultMailbox) (xs : list (option message)) (r : consumer) : Prop :=
  match r with
  | RLoadSys | RCas => True
  | RLoadUser s => 0 < s ∨ xs = []
  | RCheck s u => 0 < s ∨ (suspended b = false ∧ 0 < u)
  | _ => False
  end.

(** [xs] and [ul] are what the system and the user queue hold. *)
Record inv (tr : list event) (s : system) (ns : list nat) (xs ul : list (option message)) : Prop := {
  i_chain : Mpsc.chain_ok (systemMailbox (box s)) ns xs;
  i_ring : Goring.ring_ok (userMailbox (box s));
  i_holds : Goring.holds (userMailbox (box s)) ul;
  i_some : Forall is_Some xs ∧ Forall is_Some ul;
  i_sys : sys_posted tr = (Some <$> (sys_delivered tr ++ concat (map got_sys (consumers s)))) ++ xs;
  i_user : user_posted tr = (Some <$> (user_delivered tr ++ concat (map got_user (consumers s)))) ++ ul;
  i_nsys : sysMessages (box s)
    = wrap32 (len xs + len (concat (map got_sys (consumers s))) - countb sys_uncounted (posters s));
  i_nuser : userMessages (box s)
    = wrap32 (len ul + len (concat (map got_user (consumers s))) - countb user_uncounted (posters s));
  i_running : countb consuming (consumers s) = if schedulerStatus (box s) then 1 else 0;
  i_args : Forall (λ p, match p with PUser None | PSys None => False | _ => True end) (posters s);
  i_pending : omap link_id (posters s) ≡ₚ (map_to_list (Mpsc.pending (systemMailbox (box s)))).*1;
  i_wake : schedulerStatus (box s) = false → posters s = [] →
    xs ≠ [] ∨ (suspended (box s) = false ∧ ul ≠ []) →
    ∃ r, r ∈ consumers s ∧ notices (box s) xs r
}.

Lemma wrap32_small x : - 2 ^ 31 ≤ x < 2 ^ 31 → wrap32 x = x.
Proof. intros Hx. unfold wrap32. rewrite Z.mod_small; lia. Qed.

Lemma wrap32_add x y : wrap32 (wrap32 x + y) = wrap32 (x + y).
Proof.
  unfold wrap32. f_equal. replace ((x + 2 ^ 31) mod 2 ^ 32 - 2 ^ 31 + y + 2 ^ 31)
    with ((x + 2 ^ 31) mod 2 ^ 32 + y) by lia.
  rewrite Zplus_mod_idemp_l. f_equal. lia.
Qed.

Lemma idle_gots cs : countb consuming cs = 0 → concat (map got_sys cs) = [] ∧ concat (map got_user cs) = [].
Proof.
  induction cs as [|r cs IH]; [done|]. cbn [countb foldr]. change (foldr _ 0 cs) with (countb consuming cs).
  pose proof (countb_nonneg consuming cs). cbn [map concat]. destruct r; cbn; (lia || apply IH || idtac).
Qed.

Lemma sys_posted_snoc tr ev :
  sys_posted (tr ++ [ev]) = sys_posted tr ++ match ev with ESysPosted m => [m] | _ => [] end.
Proof. unfold sys_posted. rewrite omap_app. by destruct ev. Qed.
Lemma user_posted_snoc tr ev :
  user_posted (tr ++ [ev]) = user_posted tr ++ match ev with EUserPosted m => [m] | _ => [] end.
Proof. unfold user_posted. rewrite omap_app. by destruct ev. Qed.
Lemma sys_delivered_snoc tr ev :
  sys_delivered (tr ++ [ev]) = sys_delivered tr ++ match ev with ESysDelivered m => [m] | _ => [] end.
Proof. unfold sys_delivered. rewrite omap_app. by destruct ev. Qed.
Lemma user_delivered_snoc tr ev :
  user_delivered (tr ++ [ev]) = user_delivered tr ++ match ev with EUserDelivered m => [m] | _ => [] end.
Proof. unfold user_delivered. rewrite omap_app. by destruct ev. Qed.

Lemma few_prefix tr ev : few (tr ++ [ev]) → few tr.
Proof. unfold few, len. rewrite sys_posted_snoc, user_posted_snoc, !length_app. lia. Qed.

Lemma len_snoc {B} (l : list B) x : len (l ++ [x]) = len l + 1.
Proof. unfold len. rewrite length_app. simpl. lia. Qed.

(** Splits the counts and the lists around the thread that moves. *)
Ltac reduce_threads :=
  cbn [app opt_list map concat got_sys got_user sys_uncounted user_uncounted link_id consuming omap list_omap
       box posters consumers userMailbox systemMailbox schedulerStatus userMessages sysMessages suspended
       set_user set_sys set_status add_user add_sys set_suspended Mpsc.queue Mpsc.pending] in *.
Ltac normalize_threads :=
  reduce_threads;
  rewrite ?sys_posted_snoc, ?user_posted_snoc, ?sys_delivered_snoc, ?user_delivered_snoc in *;
  rewrite ?map_app, ?concat_app, ?countb_app, ?omap_app, ?len_snoc, ?app_nil_r in *;
  rewrite ?countb_cons in *; reduce_threads.

Lemma inv_post_user tr m b q ps1 ps2 cs ns xs ul :
  inv tr (mkSys b (ps1 ++ PUser m :: ps2) cs) ns xs ul → few (tr ++ [EUserPosted m]) →
  Goring.Push m (userMailbox b) = (Ret tt, q) →
  inv (tr ++ [EUserPosted m]) (mkSys (set_user q b) (ps1 ++ [PUserInc] ++ ps2) cs) ns xs (ul ++ [m]).
Proof.
  intros [Hch Hring Hho [Hsx Hsu] Hsys Husr Hns Hnu Hrun Hargs Hpend Hwake] [Hf1 Hf2] Hpush.
  normalize_threads.
  assert (is_Some m) as Hm.
  { apply Forall_app in Hargs as [_ [Hm _]%Forall_cons]. by destruct m. }
  assert (len ul ≤ len (user_posted tr)) as Hlul by (rewrite Husr; unfold len; rewrite length_app; lia).
  pose proof Hho as [Hlen _].
  pose proof (Goring.Push_spec (userMailbox b) ul m Hring Hho) as Hspec. unfold wp in Hspec.
  rewrite Hpush in Hspec. destruct Hspec as (_ & Hring' & Hho' & _).
  { intros Hfull. unfold Goring.max_len. lia. }
  split; normalize_threads; try done.
  - split; [done|]. by apply Forall_app_2; [|constructor].
  - by rewrite Husr, <-!app_assoc.
  - rewrite Hnu. f_equal. lia.
  - apply Forall_app in Hargs as [Hq1 [_ Hq2]%Forall_cons]. apply Forall_app. split; [done|]. by constructor.
  - intros _ Hnil. by destruct ps1.
Qed.

(** The arguments of the threads that do not move. *)
Lemma args_replace (P : poster → Prop) ps1 p ps2 l :
  Forall P (ps1 ++ p :: ps2) → Forall P l → Forall P (ps1 ++ l ++ ps2).
Proof. rewrite !Forall_app, Forall_cons. tauto. Qed.

Lemma inv_post_sys tr m t b q r ps1 ps2 cs ns xs ul :
  inv tr (mkSys b (ps1 ++ PSys m :: ps2) cs) ns xs ul →
  Mpsc.pending (systemMailbox b) !! t = None →
  Mpsc.push_swap m (Mpsc.queue (systemMailbox b)) = (Ret r, q) →
  ∃ ns', inv (tr ++ [ESysPosted m])
    (mkSys (set_sys (Mpsc.mkConf q (<[t := r]> (Mpsc.pending (systemMailbox b)))) b) (ps1 ++ [PLink t] ++ ps2) cs)
    ns' (xs ++ [m]) ul.
Proof.
  intros [Hch Hring Hho [Hsx Hsu] Hsys Husr Hns Hnu Hrun Hargs Hpend Hwake] Ht Hswap.
  assert (is_Some m) as Hm.
  { apply Forall_app in Hargs as [_ [Hm _]%Forall_cons]. by destruct m. }
  assert (Hch' := Hch). cbn [box] in Hch'. destruct (systemMailbox b) as [q0 pend] eqn:Hb.
  destruct (Mpsc.chain_swap q0 pend ns xs t m Hch' Ht) as [Hswap' Hc].
  cbn [Mpsc.queue Mpsc.pending] in *. rewrite Hswap' in Hswap. injection Hswap as <- <-.
  eexists. split; normalize_threads; try done.
  - split; [|done]. by apply Forall_app_2; [|constructor].
  - by rewrite Hsys, <-!app_assoc.
  - rewrite Hns. f_equal. lia.
  - by apply (args_replace _ _ _ _ [PLink t] Hargs); constructor.
  - rewrite map_to_list_insert by done. rewrite Hb in Hpend. cbn in Hpend |- *.
    by rewrite <-Permutation_middle, Hpend.
  - intros _ Hnil. by destruct ps1.
Qed.

Lemma inv_post_link tr t b q p n ps1 ps2 cs ns xs ul :
  inv tr (mkSys b (ps1 ++ PLink t :: ps2) cs) ns xs ul →
  Mpsc.pending (systemMailbox b) !! t = Some (p, n) →
  Mpsc.push_link p n (Mpsc.queue (systemMailbox b)) = (Ret tt, q) →
  inv (tr ++ [EInternal])
    (mkSys (set_sys (Mpsc.mkConf q (delete t (Mpsc.pending (systemMailbox b)))) b) (ps1 ++ [PSysInc] ++ ps2) cs)
    ns xs ul.
Proof.
  intros [Hch Hring Hho [Hsx Hsu] Hsys Husr Hns Hnu Hrun Hargs Hpend Hwake] Ht Hlink.
  assert (Hch' := Hch). cbn [box] in Hch'. destruct (systemMailbox b) as [q0 pend] eqn:Hb.
  destruct (Mpsc.chain_link q0 pend ns xs t p n Hch' Ht) as (q' & Hlink' & Hc).
  cbn [Mpsc.queue Mpsc.pending] in *. rewrite Hlink' in Hlink. injection Hlink as <-.
  split; normalize_threads; try done.
  - by apply (args_replace _ _ _ _ [PSysInc] Hargs); constructor.
  - rewrite Hb in Hpend. cbn in Hpend. rewrite <-(insert_delete_id pend t (p, n)) in Hpend at 1 by done.
    rewrite map_to_list_insert in Hpend by apply lookup_delete_eq. cbn in Hpend.
    rewrite <-Permutation_middle in Hpend. by apply Permutation_cons_inv in Hpend.
  - intros _ Hnil. by destruct ps1.
Qed.

Lemma inv_post tr t p o spawn ev b b' ps1 ps2 cs ns xs ul :
  inv tr (mkSys b (ps1 ++ p :: ps2) cs) ns xs ul → few (tr ++ [ev]) →
  Mpsc.pending (systemMailbox b) !! t = None → post_step t p b = Ret (o, spawn, ev, b') →
  ∃ ns' xs' ul', inv (tr ++ [ev])
    (mkSys b' (ps1 ++ opt_list o ++ ps2) (if spawn : bool then RSys :: cs else cs)) ns' xs' ul'.
Proof.
  intros Hinv Hfew Ht Hstep. destruct p as [m| |m|t'| |]; cbn [post_step] in Hstep.
  - destruct (Goring.Push m _) as [[[]| | |] q] eqn:Hpush; try done. injection Hstep as <- <- <- <-.
    eexists _, _, _. by eapply inv_post_user.
  - injection Hstep as <- <- <- <-. exists ns, xs, ul.
    destruct Hinv as [Hch Hring Hho Hso Hsys Husr Hns Hnu Hrun Hargs Hpend Hwake].
    split; normalize_threads; try done.
    + rewrite Hnu, wrap32_add. f_equal. lia.
    + by apply (args_replace _ _ _ _ [PSched] Hargs); constructor.
    + intros _ Hnil. by destruct ps1.
  - destruct (Mpsc.push_swap m _) as [[r| | |] q] eqn:Hswap; try done. injection Hstep as <- <- <- <-.
    destruct (inv_post_sys _ _ _ _ _ _ _ _ _ _ _ _ Hinv Ht Hswap) as [ns' Hns']. eauto.
  - destruct (Mpsc.pending _ !! t') as [[prev n]|] eqn:Ht'; [|done].
    destruct (Mpsc.push_link prev n _) as [[[]| | |] q] eqn:Hlink; try done. injection Hstep as <- <- <- <-.
    eexists _, _, _. by eapply inv_post_link.
  - injection Hstep as <- <- <- <-. exists ns, xs, ul.
    destruct Hinv as [Hch Hring Hho Hso Hsys Husr Hns Hnu Hrun Hargs Hpend Hwake].
    split; normalize_threads; try done.
    + rewrite Hns, wrap32_add. f_equal. lia.
    + by apply (args_replace _ _ _ _ [PSched] Hargs); constructor.
    + intros _ Hnil. by destruct ps1.
  - exists ns, xs, ul. destruct Hinv as [Hch Hring Hho Hso Hsys Husr Hns Hnu Hrun Hargs Hpend Hwake].
    destruct (schedulerStatus b) eqn:Hst; injection Hstep as <- <- <- <-;
      (split; normalize_threads; rewrite ?Hst in *; try done;
       first [lia | apply (args_replace _ _ _ _ [] Hargs), Forall_nil_2]).
Qed.

(** Only one goroutine is inside [run]. *)
Lemma consuming_alone r cs1 cs2 (st : bool) :
  countb consuming (cs1 ++ r :: cs2) = (if st then 1 else 0) → consuming r = true →
  st = true ∧ countb consuming cs1 = 0 ∧ countb consuming cs2 = 0 ∧
  concat (map got_sys cs1) = [] ∧ concat (map got_sys cs2) = [] ∧
  concat (map got_user cs1) = [] ∧ concat (map got_user cs2) = [].
Proof.
  rewrite countb_app, countb_cons. intros Hc Hr. rewrite Hr in Hc.
  pose proof (countb_nonneg consuming cs1). pose proof (countb_nonneg consuming cs2).
  destruct st; [|lia]. assert (countb consuming cs1 = 0 ∧ countb consuming cs2 = 0) as [Hq1 Hq2] by lia.
  destruct (idle_gots cs1 Hq1), (idle_gots cs2 Hq2). done.
Qed.

(** Inside [run] the wake-up condition does not apply. *)
Ltac alone Hrun :=
  let Hst := fresh "Hst" in
  destruct (consuming_alone _ _ _ _ Hrun eq_refl) as (Hst & Hc1 & Hc2 & Hg1 & Hg2 & Hg3 & Hg4);
  rewrite Hst in *; normalize_threads; rewrite ?Hg1, ?Hg2, ?Hg3, ?Hg4, ?Hc1, ?Hc2 in *; reduce_threads; rewrite ?app_nil_r in *.
Ltac settle := match goal with
  | Hg1 : concat (map got_sys ?a) = [], Hg2 : concat (map got_sys ?b) = [],
    Hg3 : concat (map got_user ?a) = [], Hg4 : concat (map got_user ?b) = [],
    Hc1 : countb consuming ?a = 0, Hc2 : countb consuming ?b = 0, Hst : schedulerStatus _ = true |- _ =>
    normalize_threads; rewrite ?Hg1, ?Hg2, ?Hg3, ?Hg4, ?Hc1, ?Hc2, ?Hst; reduce_threads;
    rewrite ?app_nil_r; try done
  end.

Lemma inv_proc_sys tr b o ev b' ps cs1 cs2 ns xs ul crash :
  inv tr (mkSys b ps (cs1 ++ RSys :: cs2)) ns xs ul → proc_step crash RSys b = Ret (o, ev, b') →
  ∃ ns' xs', inv (tr ++ [ev]) (mkSys b' ps (cs1 ++ opt_list o ++ cs2)) ns' xs' ul.
Proof.
  intros [Hch Hring Hho [Hsx Hsu] Hsys Husr Hns Hnu Hrun Hargs Hpend Hwake] Hstep.
  cbn [proc_step] in Hstep. cbn [box posters consumers] in *.
  destruct (systemMailbox b) as [q0 pend] eqn:Hb. cbn [Mpsc.queue Mpsc.pending] in *.
  alone Hrun.
  destruct (Mpsc.chain_pop q0 pend ns xs Hch) as [(_ & HP & _)|(ns' & v & xs' & q' & -> & _ & HP & Hc)];
    rewrite HP in Hstep; injection Hstep as <- <- <-.
  - exists ns, xs. destruct (suspended b); (split; settle).
  - apply Forall_cons in Hsx as [[m ->] Hsx]. exists ns', xs'. split; settle.
    + rewrite Hsys. cbn. by rewrite <-app_assoc.
    + rewrite Hns. f_equal. unfold len. simpl. lia.
Qed.

Lemma inv_proc_user tr b o ev b' ps cs1 cs2 ns xs ul crash :
  inv tr (mkSys b ps (cs1 ++ RUser :: cs2)) ns xs ul → proc_step crash RUser b = Ret (o, ev, b') →
  ∃ ul', inv (tr ++ [ev]) (mkSys b' ps (cs1 ++ opt_list o ++ cs2)) ns xs ul'.
Proof.
  intros [Hch Hring Hho [Hsx Hsu] Hsys Husr Hns Hnu Hrun Hargs Hpend Hwake] Hstep.
  cbn [proc_step] in Hstep. cbn [box posters consumers] in *. alone Hrun.
  destruct ul as [|v ul].
  - rewrite (Goring.Pop_empty _ Hho) in Hstep. injection Hstep as <- <- <-. exists []. split; settle.
  - apply Forall_cons in Hsu as [[m ->] Hsu].
    pose proof (Goring.Pop_spec (userMailbox b) (Some m) ul Hring Hho) as Hspec. unfold wp in Hspec.
    destruct (Goring.Pop _) as [a q] eqn:HP. cbn [fst snd] in Hspec. destruct Hspec as (-> & Hring' & Hho' & _).
    injection Hstep as <- <- <-. exists ul. split; settle.
    + rewrite Husr. cbn. by rewrite <-app_assoc.
    + rewrite Hnu. f_equal. unfold len. simpl. lia.
Qed.

(** The message in hand is delivered and counted. *)
Lemma inv_proc_got tr b r o ev b' ps cs1 cs2 ns xs ul crash :
  inv tr (mkSys b ps (cs1 ++ r :: cs2)) ns xs ul →
  match r with RGotSys _ | RGotUser _ => True | _ => False end →
  proc_step crash r b = Ret (o, ev, b') →
  inv (tr ++ [ev]) (mkSys b' ps (cs1 ++ opt_list o ++ cs2)) ns xs ul.
Proof.
  intros [Hch Hring Hho Hso Hsys Husr Hns Hnu Hrun Hargs Hpend Hwake] Hr Hstep.
  cbn [box posters consumers] in *.
  destruct r as [|m| |m| | | | |]; try done; cbn [proc_step] in Hstep.
  - assert (∃ r', (r' = RSys ∨ r' = REnd) ∧ o = Some r' ∧ ev = ESysDelivered m ∧
      ∃ su, b' = set_suspended su (add_sys (-1) b)) as (r' & Hr' & -> & -> & su & ->).
    { destruct m; injection Hstep as <- <- <-; eauto 8.
      destruct crash; eexists; (split; [|split; [done|split; [done|by exists (suspended b)]]]); auto. }
    alone Hrun. assert (wrap32 (sysMessages b + -1)
      = wrap32 (len xs + len (@nil message) - countb sys_uncounted ps)) as Hn.
    { rewrite Hns, wrap32_add. f_equal. unfold len. simpl. lia. }
    destruct Hr' as [->| ->]; split; settle; by rewrite Hsys, map_app.
  - assert (∃ r', (r' = RSys ∨ r' = REnd) ∧ o = Some r' ∧ ev = EUserDelivered m ∧
      b' = add_user (-1) b) as (r' & Hr' & -> & -> & ->).
    { destruct crash; injection Hstep as <- <- <-; eauto 8. }
    alone Hrun. assert (wrap32 (userMessages b + -1)
      = wrap32 (len ul + len (@nil message) - countb user_uncounted ps)) as Hn.
    { rewrite Hnu, wrap32_add. f_equal. unfold len. simpl. lia. }
    destruct Hr' as [->| ->]; split; settle; by rewrite Husr, map_app.
Qed.

(** The noticing consumer stays, or is the one that moves. *)
Lemma wake_move (P : consumer → Prop) cs1 r cs2 o :
  (∃ r0, r0 ∈ cs1 ++ r :: cs2 ∧ P r0) → (P r → ∃ r', o = Some r' ∧ P r') →
  ∃ r0, r0 ∈ cs1 ++ opt_list o ++ cs2 ∧ P r0.
Proof.
  intros (r0 & Hin & HP) Hr. rewrite elem_of_app, elem_of_cons in Hin.
  destruct Hin as [Hin|[->|Hin]].
  - exists r0. rewrite !elem_of_app. auto.
  - destruct (Hr HP) as (r' & -> & HP'). exists r'. cbn [opt_list]. rewrite !elem_of_app, elem_of_cons. auto.
  - exists r0. rewrite !elem_of_app. auto.
Qed.

(** With nobody posting and nobody in [run], the counters are exact. *)
Lemma counters_exact tr s ns xs ul :
  inv tr s ns xs ul → few tr → schedulerStatus (box s) = false → posters s = [] →
  sysMessages (box s) = len xs ∧ userMessages (box s) = len ul.
Proof.
  intros [Hch Hring Hho Hso Hsys Husr Hns Hnu Hrun Hargs Hpend Hwake] [Hf1 Hf2] Hst Hps.
  rewrite Hst in Hrun. destruct (idle_gots _ Hrun) as [Hg1 Hg2].
  rewrite Hns, Hnu, Hps, Hg1, Hg2. rewrite Hsys in Hf1. rewrite Husr in Hf2. unfold len in *.
  rewrite !length_app in *. cbn [countb foldr length]. rewrite !wrap32_small by lia. lia.
Qed.

Lemma len_pos {B} (l : list B) : l ≠ [] → 0 < len l.
Proof. unfold len. destruct l; [done|]. simpl. lia. Qed.

(** Past [run]: the loads and the test. *)
Lemma inv_proc_after tr b r o ev b' ps cs1 cs2 ns xs ul crash :
  inv tr (mkSys b ps (cs1 ++ r :: cs2)) ns xs ul → few tr →
  match r with RLoadSys | RLoadUser _ | RCheck _ _ => True | _ => False end →
  proc_step crash r b = Ret (o, ev, b') →
  inv (tr ++ [ev]) (mkSys b' ps (cs1 ++ opt_list o ++ cs2)) ns xs ul.
Proof.
  intros Hinv Hfew Hr Hstep. pose proof (counters_exact _ _ _ _ _ Hinv Hfew) as Hexact.
  destruct Hinv as [Hch Hring Hho Hso Hsys Husr Hns Hnu Hrun Hargs Hpend Hwake].
  assert (b' = b ∧ ev = EInternal ∧ match o with Some r' => consuming r' = false | None => True end ∧
    got_sys r = [] ∧ got_user r = [] ∧ consuming r = false ∧
    (schedulerStatus b = false → ps = [] → xs ≠ [] ∨ suspended b = false ∧ ul ≠ [] →
     notices b xs r → ∃ r', o = Some r' ∧ notices b xs r')) as (-> & -> & Ho & Hgs & Hgu & Hcr & Hmove).
  { cbn [box posters] in *. destruct r as [| | | | | |s|s u|]; try done; cbn [proc_step] in Hstep;
      injection Hstep as <- <- <-; (do 2 (split; [done|])).
    - split; [done|]. do 3 (split; [done|]). intros Hst Hps Hwork _. eexists. split; [done|].
      destruct (Hexact Hst Hps) as [-> _]. cbn. destruct xs; [by right|]. left. by apply len_pos.
    - split; [done|]. do 3 (split; [done|]). intros Hst Hps Hwork Hnot. eexists. split; [done|].
      destruct (Hexact Hst Hps) as [_ ->]. cbn in *. destruct Hnot as [?| ->]; [by left|]. right.
      destruct Hwork as [?|[? ?]]; [done|]. split; [done|]. by apply len_pos.
    - split; [by destruct (_ || _)|]. do 3 (split; [done|]). intros _ _ _ Hnot. exists RCas. split; [|done].
      cbn in Hnot. destruct Hnot as [Hs|[-> Hu]].
      + by rewrite bool_decide_eq_true_2.
      + rewrite (bool_decide_eq_true_2 (0 < u)) by done. by rewrite orb_true_r. }
  assert (concat (map got_sys (opt_list o)) = [] ∧ concat (map got_user (opt_list o)) = [] ∧
    countb consuming (opt_list o) = 0) as (Hos & Hou & Hoc).
  { destruct o as [r'|]; [|done]. by destruct r'. }
  split; normalize_threads; rewrite ?Hgs, ?Hgu, ?Hcr, ?Hos, ?Hou, ?Hoc in *; try done.
  intros Hst Hps Hwork. apply (wake_move _ _ r); [by apply Hwake|by apply Hmove].
Qed.

Lemma inv_proc tr b r o ev b' ps cs1 cs2 ns xs ul crash :
  inv tr (mkSys b ps (cs1 ++ r :: cs2)) ns xs ul → few tr →
  proc_step crash r b = Ret (o, ev, b') →
  ∃ ns' xs' ul', inv (tr ++ [ev]) (mkSys b' ps (cs1 ++ opt_list o ++ cs2)) ns' xs' ul'.
Proof.
  intros Hinv Hfew Hstep. destruct r as [|m| |m| | |s|s u|].
  - destruct (inv_proc_sys _ _ _ _ _ _ _ _ _ _ _ _ Hinv Hstep) as (? & ? & ?). eauto.
  - eexists _, _, _. by eapply inv_proc_got.
  - destruct (inv_proc_user _ _ _ _ _ _ _ _ _ _ _ _ Hinv Hstep) as [? ?]. eauto.
  - eexists _, _, _. by eapply inv_proc_got.
  - exists ns, xs, ul. destruct Hinv as [Hch Hring Hho Hso Hsys Husr Hns Hnu Hrun Hargs Hpend Hwake].
    injection Hstep as <- <- <-. cbn [box posters consumers] in *. alone Hrun. split; settle.
    intros _ _ _. exists RLoadSys. split; [|done]. rewrite elem_of_app, elem_of_cons. auto.
  - eexists _, _, _. by eapply inv_proc_after.
  - eexists _, _, _. by eapply inv_proc_after.
  - eexists _, _, _. by eapply inv_proc_after.
  - exists ns, xs, ul. destruct Hinv as [Hch Hring Hho Hso Hsys Husr Hns Hnu Hrun Hargs Hpend Hwake].
    cbn [proc_step] in Hstep. destruct (schedulerStatus b) eqn:Hst; injection Hstep as <- <- <-;
      (split; normalize_threads; rewrite ?Hst in *; try done; lia).
Qed.

Lemma inv_step tr s ev s' ns xs ul :
  inv tr s ns xs ul → few (tr ++ [ev]) → step s ev s' → ∃ ns' xs' ul', inv (tr ++ [ev]) s' ns' xs' ul'.
Proof.
  intros Hinv Hfew Hstep. destruct Hstep.
  1,2: exists ns, xs, ul; destruct Hinv as [Hch Hring Hho Hso Hsys Husr Hns Hnu Hrun Hargs Hpend Hwake];
    split; normalize_threads; try done; by constructor.
  - by eapply inv_post.
  - eapply inv_proc; [done| |done]. by eapply few_prefix.
Qed.

Lemma inv_new b : Unbounded = Ret b → inv [] (mkSys b [] []) [0%nat] [] [].
Proof.
  intros [= <-]. split; normalize_threads; try done.
  - apply Mpsc.chain_new.
  - split; [done|]. intros k Hk. simpl in Hk. lia.
  - intros _ _ [?|[_ ?]]; done.
Qed.

Lemma exec_inv tr s : exec tr s → few tr → ∃ ns xs ul, inv tr s ns xs ul.
Proof.
  induction 1 as [b Hb|tr s ev s' Hex IH Hstep]; intros Hfew.
  - eexists _, _, _. by apply inv_new.
  - destruct IH as (ns & xs & ul & Hinv); [by eapply few_prefix|]. by eapply inv_step.
Qed.

(** Nobody is left, and nothing is lost. *)
Lemma rest_delivered tr s : exec tr s → few tr → posters s = [] → consumers s = [] →
  schedulerStatus (box s) = false ∧ sys_posted tr = (Some <$> sys_delivered tr) ∧
  (suspended (box s) = false → user_posted tr = (Some <$> user_delivered tr)).
Proof.
  intros Hex Hfew Hps Hcs. destruct (exec_inv tr s Hex Hfew) as (ns & xs & ul & Hinv).
  destruct Hinv as [Hch Hring Hho Hso Hsys Husr Hns Hnu Hrun Hargs Hpend Hwake]. rewrite Hcs in *. cbn in Hrun.
  destruct (schedulerStatus (box s)) eqn:Hst; [done|]. split; [done|].
  assert (¬ (xs ≠ [] ∨ suspended (box s) = false ∧ ul ≠ [])) as Hno.
  { intros Hwork. destruct (Hwake eq_refl Hps Hwork) as (r & Hr & _). by apply elem_of_nil in Hr. }
  cbn in Hsys, Husr. rewrite app_nil_r in Hsys, Husr. split.
  - destruct xs; [by rewrite app_nil_r in Hsys|]. exfalso. apply Hno. by left.
  - intros Hsusp. destruct ul; [by rewrite app_nil_r in Husr|]. exfalso. apply Hno. by right.
Qed.

(** C16: no message is lost, duplicated or delivered out of order, and no wake-up is missed: in
    every interleaving of fewer than [2^31] posts of each kind, none of them nil, the messages delivered (or in
    the consumer's hand) are an initial part of those posted, for each of the two queues;
    once no thread is left, the mailbox is idle, every system message has been delivered,
    and unless the mailbox is suspended every user message too.  At most one goroutine is ever
    inside [run], so the queues have the single consumer they require. *)
Theorem mailbox_delivers_everything tr s :
  exec tr s → few tr →
  countb consuming (consumers s) = (if schedulerStatus (box s) then 1 else 0) ∧
  (∃ rest, sys_posted tr = (Some <$> (sys_delivered tr ++ concat (map got_sys (consumers s)))) ++ rest) ∧
  (∃ rest, user_posted tr = (Some <$> (user_delivered tr ++ concat (map got_user (consumers s)))) ++ rest) ∧
  (posters s = [] → consumers s = [] →
   schedulerStatus (box s) = false ∧ sys_posted tr = (Some <$> sys_delivered tr) ∧
   (suspended (box s) = false → user_posted tr = (Some <$> user_delivered tr))).
Proof.
  intros Hex Hfew. destruct (exec_inv tr s Hex Hfew) as (ns & xs & ul & Hinv).
  destruct Hinv as [Hch Hring Hho Hso Hsys Husr Hns Hnu Hrun Hargs Hpend Hwake].
  split; [done|]. split; [by exists xs|]. split; [by exists ul|]. by apply rest_delivered.
Qed.

(** ** Coming to rest *)

(** No step panics, so no thread is ever stuck. *)
Lemma threads_progress tr s :
  exec tr s → few (tr ++ [ESysPosted None; EUserPosted None]) →
  (∀ p, p ∈ posters s → ∃ t r, Mpsc.pending (systemMailbox (box s)) !! t = None ∧
     post_step t p (box s) = Ret r) ∧
  (∀ r, r ∈ consumers s → ∀ crash, ∃ r', proc_step crash r (box s) = Ret r').
Proof.
  intros Hex Hfew.
  assert (few tr ∧ len (user_posted tr) + 1 < 2 ^ 31) as [Hfew' Hroom].
  { revert Hfew. unfold few, sys_posted, user_posted. rewrite !omap_app. unfold len. rewrite !length_app.
    cbn. lia. }
  destruct (exec_inv tr s Hex Hfew') as (ns & xs & ul & Hinv).
  destruct Hinv as [Hch Hring Hho [Hsx Hsu] Hsys Husr Hns Hnu Hrun Hargs Hpend Hwake].
  destruct (systemMailbox (box s)) as [q0 pend] eqn:Hb. cbn [Mpsc.pending Mpsc.queue] in *. split.
  - intros p Hp. set (t := fresh (dom pend)). exists t.
    assert (pend !! t = None) as Ht by (apply not_elem_of_dom, is_fresh).
    destruct p as [m| |m|t'| |]; cbn [post_step]; rewrite ?Hb; cbn [Mpsc.pending Mpsc.queue].
    + pose proof (Goring.Push_spec (userMailbox (box s)) ul m Hring Hho) as Hspec. unfold wp in Hspec.
      destruct (Goring.Push m _) as [a q]. cbn [fst snd] in Hspec. destruct Hspec as (-> & _); [|by eauto].
      destruct Hho as [Hlen _]. intros Hfull. unfold Goring.max_len.
      assert (len ul ≤ len (user_posted tr)) by (rewrite Husr; unfold len; rewrite length_app; lia). lia.
    + eauto.
    + destruct (Mpsc.chain_swap q0 pend ns xs t m Hch Ht) as [-> _]. eauto.
    + assert (t' ∈ (map_to_list pend).*1) as Hin.
      { rewrite <-Hpend. apply list_elem_of_omap. by exists (PLink t'). }
      apply list_elem_of_fmap in Hin as ([t1 [prev n]] & -> & Hin%elem_of_map_to_list). cbn [fst].
      rewrite Hin. destruct (Mpsc.chain_link q0 pend ns xs t1 prev n Hch Hin) as (q' & -> & _). eauto.
    + eauto.
    + destruct (schedulerStatus _); eauto.
  - intros r Hr crash. destruct r as [|m| |m| | |n|n u|]; cbn [proc_step]; rewrite ?Hb;
      cbn [Mpsc.pending Mpsc.queue]; eauto.
    + destruct (Mpsc.chain_pop q0 pend ns xs Hch) as [(_ & -> & _)|(? & ? & ? & ? & _ & _ & -> & _)]; eauto.
    + destruct ul as [|v ul].
      * rewrite (Goring.Pop_empty _ Hho). eauto.
      * pose proof (Goring.Pop_spec (userMailbox (box s)) v ul Hring Hho) as Hspec. unfold wp in Hspec.
        destruct (Goring.Pop _) as [a q]. cbn [fst snd] in Hspec. destruct Hspec as (-> & _). eauto.
    + destruct (schedulerStatus _); eauto.
Qed.

(** The steps a thread in a post still has to make. *)
Definition steps_left (p : poster) : nat :=
  match p with PSys _ => 4 | PUser _ | PLink _ => 3 | PUserInc | PSysInc => 2 | PSched => 1 end.

Lemma post_steps_left t p b o spawn ev b' :
  post_step t p b = Ret (o, spawn, ev, b') → steps_left p = S (match o with Some p' => steps_left p' | None => 0 end).
Proof.
  destruct p as [m| |m|t'| |]; cbn [post_step].
  - destruct (Goring.Push m _) as [[[]| | |] q]; try done. by intros [= <- <- <- <-].
  - by intros [= <- <- <- <-].
  - destruct (Mpsc.push_swap m _) as [[r| | |] q]; try done. by intros [= <- <- <- <-].
  - destruct (_ !! t') as [[prev n]|]; [|done]. destruct (Mpsc.push_link prev n _) as [[[]| | |] q]; try done. by intros [= <- <- <- <-].
  - by intros [= <- <- <- <-].
  - by destruct (schedulerStatus b); intros [= <- <- <- <-].
Qed.

(** Steps of the goroutines alone, with what happens in them. *)
Inductive moves : nat → list event → system → list event → system → Prop :=
  | moves_none tr s : moves 0 tr s tr s
  | moves_one n tr b ps cs1 r cs2 crash o ev b' tr' s' :
      proc_step crash r b = Ret (o, ev, b') →
      moves n (tr ++ [ev]) (mkSys b' ps (cs1 ++ opt_list o ++ cs2)) tr' s' →
      moves (S n) tr (mkSys b ps (cs1 ++ r :: cs2)) tr' s'.

Definition undelivered (tr : list event) : Z :=
  len (sys_posted tr) - len (sys_delivered tr) + (len (user_posted tr) - len (user_delivered tr)).

(** Every message has two steps to go, being taken and being delivered. *)
Definition hands (cs : list consumer) : list message := concat (map got_sys cs) ++ concat (map got_user cs).
Definition to_go (tr : list event) (cs : list consumer) : Z := 2 * undelivered tr - len (hands cs).

(** How long a goroutine can go on without taking or delivering a message: while there is one to
    take ([avail]) it finds it within a round; while one is in the hand of another it gives up at
    the compare-and-swap; else it may make one more round on counters that it read before. *)
Definition rank (avail hand susp unil : bool) (r : consumer) : nat :=
  if avail then
    match r with
    | RUser => if unil then 7 else 0 | REnd => 6 | RLoadSys => 5 | RLoadUser _ => 4 | RCheck _ _ => 3 | RCas => 2 | RSys => 1
    | RGotSys _ | RGotUser _ => 0
    end
  else if hand then match r with RLoadSys => 4 | RLoadUser _ => 3 | RCheck _ _ => 2 | RCas => 1 | _ => 0 end
  else
    match r with
    | RLoadUser n => if bool_decide (0 < n) then 11 else 2
    | RCheck n u => if bool_decide (0 < n) || negb susp && bool_decide (0 < u) then 10 else 1
    | RCas => 9 | RSys => 7 | RUser => 6 | REnd => 5 | RLoadSys => 3
    | RGotSys _ | RGotUser _ => 0
    end.

Definition filled {B} (l : list B) : bool := match l with [] => false | _ => true end.

Definition rank_in (s : system) (xs ul : list (option message)) : consumer → nat :=
  rank (filled xs || negb (suspended (box s)) && filled ul) (filled (hands (consumers s))) (suspended (box s)) (negb (filled ul)).

Lemma rank_bound av h su un r : (rank av h su un r ≤ 11)%nat.
Proof. unfold rank. destruct av, h, r; cbn; repeat case_match; lia. Qed.

(** With nobody posting, the counters count the queues and the messages in hand. *)
Lemma counters_quiet tr s ns xs ul :
  inv tr s ns xs ul → few tr → posters s = [] →
  sysMessages (box s) = len xs + len (concat (map got_sys (consumers s))) ∧
  userMessages (box s) = len ul + len (concat (map got_user (consumers s))) ∧
  Mpsc.pending (systemMailbox (box s)) = ∅.
Proof.
  intros [Hch Hring Hho Hso Hsys Husr Hns Hnu Hrun Hargs Hpend Hwake] [Hf1 Hf2] Hps. rewrite Hns, Hnu, Hps.
  rewrite Hsys in Hf1. rewrite Husr in Hf2. unfold len in *. rewrite !length_app, !length_fmap, !length_app in *. cbn [countb foldr].
  rewrite !wrap32_small by lia. split; [lia|]. split; [lia|]. rewrite Hps in Hpend. cbn in Hpend. symmetry in Hpend.
  apply Permutation_nil_r, fmap_nil_inv in Hpend. by apply map_to_list_empty_iff in Hpend.
Qed.

(** The step changes none of what the ranks depend on, and the goroutine that moves goes down. *)
Lemma rank_drops s s' xs ul cs1 r cs2 o :
  consumers s = cs1 ++ r :: cs2 → consumers s' = cs1 ++ opt_list o ++ cs2 →
  suspended (box s') = suspended (box s) → hands (consumers s') = hands (consumers s) →
  (match o with Some r' => S (rank_in s xs ul r') | None => 1 end ≤ rank_in s xs ul r)%nat →
  (sum_list_with (rank_in s' xs ul) (consumers s') < sum_list_with (rank_in s xs ul) (consumers s))%nat.
Proof.
  intros Hc Hc' Hsu Hh Hr. assert (rank_in s' xs ul = rank_in s xs ul) as -> by (unfold rank_in; by rewrite Hsu, Hh).
  rewrite Hc, Hc', !sum_list_with_app. cbn [sum_list_with]. destruct o; cbn [opt_list sum_list_with app]; lia.
Qed.

(** The queues are what was posted and is neither delivered nor in a hand. *)
Lemma inv_queues tr s s' ns xs ul ns' xs' ul' :
  inv tr s ns xs ul → inv (tr ++ [EInternal]) s' ns' xs' ul' →
  concat (map got_sys (consumers s')) = concat (map got_sys (consumers s)) →
  concat (map got_user (consumers s')) = concat (map got_user (consumers s)) → xs' = xs ∧ ul' = ul.
Proof.
  intros Hinv Hinv' Hgs Hgu. pose proof (i_sys _ _ _ _ _ Hinv) as E1. pose proof (i_sys _ _ _ _ _ Hinv') as E2.
  pose proof (i_user _ _ _ _ _ Hinv) as E3. pose proof (i_user _ _ _ _ _ Hinv') as E4.
  rewrite ?sys_posted_snoc, ?sys_delivered_snoc, ?user_posted_snoc, ?user_delivered_snoc, ?app_nil_r in *. rewrite Hgs in E2. rewrite Hgu in E4.
  rewrite E1 in E2. rewrite E3 in E4. apply app_inv_head in E2, E4. done.
Qed.

Lemma to_go_taken tr cs1 r r' cs2 :
  (∃ m, got_sys r' ++ got_user r' = [m]) → got_sys r ++ got_user r = [] →
  to_go (tr ++ [EInternal]) (cs1 ++ r' :: cs2) = to_go tr (cs1 ++ r :: cs2) - 1.
Proof.
  intros [m Hm] [H1 H2]%app_eq_nil. apply (f_equal len) in Hm. unfold to_go, undelivered, hands, len in *.
  rewrite ?sys_posted_snoc, ?sys_delivered_snoc, ?user_posted_snoc, ?user_delivered_snoc, ?app_nil_r.
  rewrite !map_app, !concat_app. cbn [map concat]. rewrite H1, H2. rewrite !length_app in *. cbn in *. lia.
Qed.

Lemma to_go_delivered tr ev cs1 r r' cs2 m :
  ev = ESysDelivered m ∧ r = RGotSys m ∨ ev = EUserDelivered m ∧ r = RGotUser m → r' = RSys ∨ r' = REnd →
  to_go (tr ++ [ev]) (cs1 ++ r' :: cs2) = to_go tr (cs1 ++ r :: cs2) - 1.
Proof.
  intros Hev Hr'. assert (got_sys r' = [] ∧ got_user r' = []) as [H1 H2] by (by destruct Hr' as [->| ->]). unfold to_go, undelivered, hands, len.
  rewrite !map_app, !concat_app. cbn [map concat]. rewrite H1, H2.
  destruct Hev as [[-> ->]|[-> ->]]; rewrite ?sys_posted_snoc, ?sys_delivered_snoc, ?user_posted_snoc, ?user_delivered_snoc, ?app_nil_r;
    rewrite !length_app; cbn; lia.
Qed.

(** A message in hand, and another goroutine inside [run] is the one that has it. *)
Lemma hands_alone st cs1 r cs2 :
  countb consuming (cs1 ++ r :: cs2) = (if st : bool then 1 else 0) → consuming r = true → hands (cs1 ++ r :: cs2) = got_sys r ++ got_user r.
Proof.
  intros Hc Hr. destruct (consuming_alone _ _ _ _ Hc Hr) as (_ & _ & _ & Hg1 & Hg2 & Hg3 & Hg4). unfold hands.
  rewrite !map_app, !concat_app. cbn [map concat]. by rewrite Hg1, Hg2, Hg3, Hg4, !app_nil_r.
Qed.

Lemma hands_busy (st : bool) cs : countb consuming cs = (if st then 1 else 0) → hands cs ≠ [] → st = true.
Proof. intros Hc Hh. destruct st; [done|]. destruct (idle_gots cs Hc) as [H1 H2]. unfold hands in Hh. by rewrite H1, H2 in Hh. Qed.

(** What a step without a message does to the rank of the goroutine that makes it. *)
Lemma rank_step tr b ps cs1 r cs2 ns xs ul crash o ev b' :
  let s := mkSys b ps (cs1 ++ r :: cs2) in
  inv tr s ns xs ul → few tr → ps = [] → proc_step crash r b = Ret (o, ev, b') →
  to_go (tr ++ [ev]) (cs1 ++ opt_list o ++ cs2) = to_go tr (cs1 ++ r :: cs2) - 1 ∨
  ev = EInternal ∧ suspended b' = suspended b ∧ got_sys r ++ got_user r = [] ∧
  (match o with Some r' => got_sys r' ++ got_user r' = [] ∧ S (rank_in s xs ul r') ≤ rank_in s xs ul r
              | None => 1 ≤ rank_in s xs ul r end)%nat.
Proof.
  intros s Hinv Hfew Hps Hstep. destruct (counters_quiet _ _ _ _ _ Hinv Hfew Hps) as (Hns & Hnu & Hpend).
  destruct Hinv as [Hch Hring Hho [Hsx Hsu] Hsys Husr _ _ Hrun _ _ _]. cbn [box posters consumers s] in *.
  destruct r as [|m| |m| | |n|n u|]; cbn [proc_step] in Hstep.
  - (* RSys *)
    pose proof (hands_alone _ _ _ _ Hrun eq_refl) as Hh. destruct (systemMailbox b) as [q0 pend]. cbn [Mpsc.queue Mpsc.pending] in *. subst pend.
    destruct (Mpsc.chain_pop q0 ∅ ns xs Hch) as [(_ & HP & Hx)|(ns' & v & xs' & q' & -> & _ & HP & Hc)]; rewrite HP in Hstep; injection Hstep as <- <- <-.
    + right. destruct Hx as [->|(t & n & Ht)]; [|by rewrite lookup_empty in Ht]. unfold rank_in, rank. cbn [box consumers s]. rewrite Hh.
      destruct (suspended b) eqn:Hs; cbn; [repeat split; (done || lia)|]. destruct ul; cbn; repeat split; (done || lia).
    + left. apply Forall_cons in Hsx as [[m ->] _]. apply to_go_taken; [by exists m|done].
  - (* RGotSys *)
    left. assert (∃ r', (r' = RSys ∨ r' = REnd) ∧ o = Some r' ∧ ev = ESysDelivered m) as (r' & Hr' & -> & ->)
      by (destruct m, crash; injection Hstep as <- <- <-; eauto).
    eapply to_go_delivered; [by left|done].
  - (* RUser *)
    pose proof (hands_alone _ _ _ _ Hrun eq_refl) as Hh. destruct ul as [|v ul].
    + rewrite (Goring.Pop_empty _ Hho) in Hstep. injection Hstep as <- <- <-. right. unfold rank_in, rank. cbn [box consumers s]. rewrite Hh.
      destruct (filled xs), (suspended b) eqn:Hs; cbn; repeat split; (done || lia).
    + apply Forall_cons in Hsu as [[m ->] _]. pose proof (Goring.Pop_spec (userMailbox b) (Some m) ul Hring Hho) as Hspec. unfold wp in Hspec.
      destruct (Goring.Pop _) as [a q] eqn:HP. cbn [fst snd] in Hspec. destruct Hspec as (-> & _). injection Hstep as <- <- <-.
      left. apply to_go_taken; [by exists m|done].
  - (* RGotUser *)
    left. assert (∃ r', (r' = RSys ∨ r' = REnd) ∧ o = Some r' ∧ ev = EUserDelivered m) as (r' & Hr' & -> & ->)
      by (destruct crash; injection Hstep as <- <- <-; eauto).
    eapply to_go_delivered; [by right|done].
  - (* REnd *)
    pose proof (hands_alone _ _ _ _ Hrun eq_refl) as Hh. injection Hstep as <- <- <-. right. unfold rank_in, rank. cbn [box consumers s]. rewrite Hh.
    repeat split. destruct (_ || _); cbn; lia.
  - (* RLoadSys *)
    injection Hstep as <- <- <-. right. repeat split. unfold rank_in, rank. cbn [box consumers s].
    destruct (_ || _) eqn:Hav; [lia|]. destruct (filled (hands _)) eqn:Hh; [lia|]. unfold hands in Hh.
    apply orb_false_iff in Hav as [Hav _]. rewrite bool_decide_false; [lia|]. rewrite Hns.
    destruct xs; [|done]. by destruct (concat (map got_sys _)).
  - (* RLoadUser *)
    injection Hstep as <- <- <-. right. repeat split. unfold rank_in, rank. cbn [box consumers s].
    destruct (_ || _) eqn:Hav; [lia|]. destruct (filled (hands _)) eqn:Hh; [lia|]. unfold hands in Hh.
    apply orb_false_iff in Hav as [_ Hav]. destruct (bool_decide (0 < n)); cbn; [lia|].
    assert (negb (suspended b) && bool_decide (0 < userMessages b) = false) as ->; [|lia]. rewrite Hnu.
    destruct (suspended b); [done|]. destruct ul; [|done]. destruct (concat (map got_sys _)); [|done]. by destruct (concat (map got_user _)).
  - (* RCheck *)
    injection Hstep as <- <- <-. right. unfold rank_in, rank. cbn [box consumers s]. destruct (bool_decide (0 < n) || _);
      repeat split; destruct (_ || negb _ && filled ul); cbn; try lia; destruct (filled (hands _)); lia.
  - (* RCas *)
    right. unfold rank_in, rank. cbn [box consumers s]. destruct (filled (hands _)) eqn:Hh.
    + rewrite (hands_busy _ _ Hrun) in Hstep by (intros He; by rewrite He in Hh). injection Hstep as <- <- <-. repeat split. destruct (_ || _); lia.
    + destruct (schedulerStatus b); injection Hstep as <- <- <-; repeat split; destruct (_ || _); lia.
Qed.

Lemma to_go_nonneg tr s ns xs ul : inv tr s ns xs ul → 0 ≤ to_go tr (consumers s).
Proof.
  intros Hinv. pose proof (i_sys _ _ _ _ _ Hinv) as E1. pose proof (i_user _ _ _ _ _ Hinv) as E2.
  unfold to_go, undelivered, hands, len. rewrite E1, E2, !length_app, !length_fmap, !length_app. lia.
Qed.

Lemma proc_posts_nothing crash r b o ev b' tr :
  proc_step crash r b = Ret (o, ev, b') → sys_posted (tr ++ [ev]) = sys_posted tr ∧ user_posted (tr ++ [ev]) = user_posted tr.
Proof.
  rewrite sys_posted_snoc, user_posted_snoc. intros Hstep.
  assert (match ev with ESysPosted _ | EUserPosted _ => False | _ => True end) as Hev; [|by destruct ev; rewrite ?app_nil_r].
  destruct r as [|m| |m| | |n|n u|]; cbn [proc_step] in Hstep.
  - by destruct (Mpsc.Pop _) as [[v| | |] q]; simplify_eq.
  - by destruct m; simplify_eq.
  - by destruct (Goring.Pop _) as [[[v ok]| | |] q]; simplify_eq.
  - by simplify_eq.
  - by simplify_eq.
  - by simplify_eq.
  - by simplify_eq.
  - by simplify_eq.
  - by destruct (schedulerStatus b); simplify_eq.
Qed.

Lemma sum_rank_bound f (cs : list consumer) : (∀ r, f r ≤ 11)%nat → (sum_list_with f cs ≤ 11 * length cs)%nat.
Proof. intros Hf. induction cs as [|r cs IH]; cbn; [lia|]. specialize (Hf r). lia. Qed.

Lemma moves_bound c n tr s tr' s' : moves n tr s tr' s' → ∀ ns xs ul,
  inv tr s ns xs ul → few tr → posters s = [] → (length (consumers s) ≤ c)%nat →
  Z.of_nat n ≤ to_go tr (consumers s) * (11 * Z.of_nat c + 1) + Z.of_nat (sum_list_with (rank_in s xs ul) (consumers s)).
Proof.
  induction 1 as [tr s|n tr b ps cs1 r cs2 crash o ev b' tr' s' Hstep _ IH]; intros ns xs ul Hinv Hfew Hps Hc.
  - pose proof (to_go_nonneg _ _ _ _ _ Hinv). nia.
  - destruct (inv_proc _ _ _ _ _ _ _ _ _ _ _ _ _ Hinv Hfew Hstep) as (ns' & xs' & ul' & Hinv').
    assert (few (tr ++ [ev])) as Hfew' by (destruct (proc_posts_nothing _ _ _ _ _ _ tr Hstep) as [E1 E2]; unfold few; by rewrite E1, E2).
    assert (length (cs1 ++ opt_list o ++ cs2) ≤ c)%nat as Hc'
      by (cbn [consumers] in Hc; rewrite length_app in *; cbn in Hc; rewrite length_app; destruct o; cbn; lia).
    specialize (IH _ _ _ Hinv' Hfew' Hps Hc'). cbn [consumers posters] in *.
    destruct (rank_step _ _ _ _ _ _ _ _ _ _ _ _ _ Hinv Hfew Hps Hstep) as [Hgo|(-> & Hsu & Hr & Ho)].
    + pose proof (sum_rank_bound (rank_in (mkSys b' ps (cs1 ++ opt_list o ++ cs2)) xs' ul') (cs1 ++ opt_list o ++ cs2) ltac:(intros; apply rank_bound)).
      rewrite Hgo in IH. nia.
    + assert (concat (map got_sys (cs1 ++ opt_list o ++ cs2)) = concat (map got_sys (cs1 ++ r :: cs2)) ∧
        concat (map got_user (cs1 ++ opt_list o ++ cs2)) = concat (map got_user (cs1 ++ r :: cs2))) as [Hgs Hgu].
      { apply app_eq_nil in Hr as [R1 R2]. rewrite !map_app, !concat_app. cbn [map concat]. rewrite R1, R2.
        destruct o as [r'|]; [|done]. destruct Ho as [[R3 R4]%app_eq_nil _]. cbn. by rewrite R3, R4. }
      destruct (inv_queues _ _ _ _ _ _ _ _ _ Hinv Hinv' Hgs Hgu) as [-> ->].
      assert (hands (cs1 ++ opt_list o ++ cs2) = hands (cs1 ++ r :: cs2)) as Hh by (unfold hands; by rewrite Hgs, Hgu).
      opose proof (rank_drops (mkSys b ps (cs1 ++ r :: cs2)) (mkSys b' ps (cs1 ++ opt_list o ++ cs2)) xs ul cs1 r cs2 o eq_refl eq_refl Hsu Hh _) as Hdrop;
        [by destruct o; [apply Ho|]|].
      cbn [consumers] in Hdrop. assert (to_go (tr ++ [EInternal]) (cs1 ++ opt_list o ++ cs2) = to_go tr (cs1 ++ r :: cs2)) as Hgo.
      { unfold to_go, undelivered. by rewrite Hh, sys_posted_snoc, sys_delivered_snoc, user_posted_snoc, user_delivered_snoc, !app_nil_r. }
      rewrite Hgo in IH. lia.
Qed.

Lemma moves_keep n tr s tr' s' : moves n tr s tr' s' → exec tr s →
  exec tr' s' ∧ posters s' = posters s ∧ sys_posted tr' = sys_posted tr ∧ user_posted tr' = user_posted tr.
Proof.
  induction 1 as [|n tr b ps cs1 r cs2 crash o ev b' tr' s' Hstep _ IH]; intros Hex; [done|].
  destruct IH as (Hex' & Hps & E1 & E2); [econstructor; [done|by econstructor]|].
  destruct (proc_posts_nothing _ _ _ _ _ _ tr Hstep) as [F1 F2]. split; [done|]. split; [done|]. by rewrite E1, E2.
Qed.

(** C17: the mailbox comes to rest.  Messages are not nil, and fewer than [2^31 - 1] of each kind
    are posted.  In every interleaving a thread in a post can always make its next step, and is
    through after at most four steps of its own.  Once no thread posts, the goroutines make only a
    bounded number of steps, whatever the interleaving and whichever messages make the invoker
    panic; none of them is ever stuck before it ends; and when they have ended, every system message
    has been delivered, and every user message unless the mailbox is suspended.  (A nil user message
    does keep a goroutine going for ever, see [nil_message_spins].) *)
Theorem mailbox_comes_to_rest tr s :
  exec tr s → few (tr ++ [ESysPosted None; EUserPosted None]) →
  (∀ p, p ∈ posters s → (steps_left p ≤ 4)%nat ∧
     ∃ t o spawn ev b', Mpsc.pending (systemMailbox (box s)) !! t = None ∧ post_step t p (box s) = Ret (o, spawn, ev, b') ∧
       steps_left p = S (match o with Some p' => steps_left p' | None => 0 end)) ∧
  (posters s = [] → ∀ n tr' s', moves n tr s tr' s' →
     Z.of_nat n ≤ (2 * undelivered tr + 1) * (11 * len (consumers s) + 1) ∧
     (∀ r, r ∈ consumers s' → ∀ crash, ∃ r', proc_step crash r (box s') = Ret r') ∧
     (consumers s' = [] → schedulerStatus (box s') = false ∧ sys_posted tr' = (Some <$> sys_delivered tr') ∧
        (suspended (box s') = false → user_posted tr' = (Some <$> user_delivered tr')))).
Proof.
  intros Hex Hfew. assert (few tr) as Hfew0
    by (apply (few_prefix tr (ESysPosted None)), (few_prefix (tr ++ [ESysPosted None]) (EUserPosted None)); by rewrite <-app_assoc). split.
  - intros p Hp. split; [by destruct p; cbn; lia|].
    destruct (proj1 (threads_progress tr s Hex Hfew) p Hp) as (t & [[[o spawn] ev] b'] & Ht & Hstep).
    exists t, o, spawn, ev, b'. split; [done|]. split; [done|]. by eapply post_steps_left.
  - intros Hps n tr' s' Hm. destruct (moves_keep _ _ _ _ _ Hm Hex) as (Hex' & Hps' & E1 & E2). split; [|split].
    + destruct (exec_inv tr s Hex Hfew0) as (ns & xs & ul & Hinv).
      pose proof (moves_bound (length (consumers s)) _ _ _ _ _ Hm _ _ _ Hinv Hfew0 Hps (Nat.le_refl _)) as Hb.
      pose proof (sum_rank_bound (rank_in s xs ul) (consumers s) ltac:(intros; apply rank_bound)).
      assert (to_go tr (consumers s) ≤ 2 * undelivered tr) by (unfold to_go, len; lia).
      pose proof (to_go_nonneg _ _ _ _ _ Hinv). unfold len in *. nia.
    + apply (threads_progress tr' s' Hex'). unfold few in *. unfold sys_posted, user_posted in *. rewrite !omap_app in *. by rewrite E1, E2.
    + intros Hcs. apply rest_delivered; [done| |by rewrite Hps'|done]. unfold few in *. by rewrite E1, E2.
Qed.

(** ** Playing a schedule *)
Inductive choice :=
  | CallUser (m : message) | CallSys (m : message)
  | RunPoster (i t : nat)
  | RunConsumer (i : nat) (crash : bool).

Definition fire (s : system) (ch : choice) : option (event * system) :=
  match ch with
  | CallUser m => Some (EInternal, mkSys (box s) (PUser (Some m) :: posters s) (consumers s))
  | CallSys m => Some (EInternal, mkSys (box s) (PSys (Some m) :: posters s) (consumers s))
  | RunPoster i t =>
    match posters s !! i, Mpsc.pending (systemMailbox (box s)) !! t with
    | Some p, None =>
      match post_step t p (box s) with
      | Ret (o, spawn, ev, b') =>
        Some (ev, mkSys b' (take i (posters s) ++ opt_list o ++ drop (S i) (posters s))
                    (if spawn : bool then RSys :: consumers s else consumers s))
      | _ => None
      end
    | _, _ => None
    end
  | RunConsumer i crash =>
    match consumers s !! i with
    | Some r =>
      match proc_step crash r (box s) with
      | Ret (o, ev, b') =>
        Some (ev, mkSys b' (posters s) (take i (consumers s) ++ opt_list o ++ drop (S i) (consumers s)))
      | _ => None
      end
    | None => None
    end
  end.

Fixpoint play (chs : list choice) (tr : list event) (s : system) : option (list event * system) :=
  match chs with
  | [] => Some (tr, s)
  | ch :: chs' => match fire s ch with Some (ev, s') => play chs' (tr ++ [ev]) s' | None => None end
  end.

Lemma box_fire_step s ch ev s' : fire s ch = Some (ev, s') → step s ev s'.
Proof.
  destruct s as [b ps cs], ch as [m|m|i t|i crash]; cbn [fire box posters consumers].
  - intros [= <- <-]. constructor.
  - intros [= <- <-]. constructor.
  - destruct (ps !! i) as [p|] eqn:Hp; [|done]. destruct (_ !! t) eqn:Ht; [done|].
    destruct (post_step t p b) as [[[[o spawn] ev'] b']| | |] eqn:Hstep; try done. intros [= <- <-].
    rewrite <-(take_drop_middle ps i p Hp) at 1. by econstructor.
  - destruct (cs !! i) as [r|] eqn:Hr; [|done].
    destruct (proc_step crash r b) as [[[o ev'] b']| | |] eqn:Hstep; try done. intros [= <- <-].
    rewrite <-(take_drop_middle cs i r Hr) at 1. by econstructor.
Qed.

Lemma box_play_exec chs tr s tr' s' : exec tr s → play chs tr s = Some (tr', s') → exec tr' s'.
Proof.
  revert tr s. induction chs as [|ch chs IH]; intros tr s Hex; cbn [play].
  - by intros [= <- <-].
  - destruct (fire s ch) as [[ev s1]|] eqn:Hf; [|done]. apply IH. econstructor; [done|by eapply box_fire_step].
Qed.

Lemma play_moves chs tr s tr' s' :
  Forall (λ ch, if ch is RunConsumer _ _ then True else False) chs → play chs tr s = Some (tr', s') → moves (length chs) tr s tr' s'.
Proof.
  intros Hall. revert tr s. induction Hall as [|ch chs Hch _ IH]; intros tr s; cbn [play length].
  - intros [= <- <-]. constructor.
  - destruct ch as [| | |i crash]; try done. destruct s as [b ps cs]. cbn [fire box posters consumers].
    destruct (cs !! i) as [r|] eqn:Hr; [|done]. destruct (proc_step crash r b) as [[[o ev] b']| | |] eqn:Hstep; try done.
    intros Hp. rewrite <-(take_drop_middle cs i r Hr) at 1. econstructor; [done|by apply IH].
Qed.
End Mailbox.
Arguments message : clear implicits.
Arguments defaultMailbox : clear implicits.
Arguments event : clear implicits.
Arguments poster : clear implicits.
Arguments consumer : clear implicits.
Arguments system : clear implicits.
Arguments choice : clear implicits.

(** A system message is taken and delivered before its sender has counted it, and the sender
    starts a second goroutine while the first is still checking the counters. *)
Definition sample_schedule : list (choice Z) :=
  [CallUser (Message 5); RunPoster 0 0; RunPoster 0 0; RunPoster 0 0;
   RunConsumer 0 false; RunConsumer 0 false; CallSys (Message 7); RunConsumer 0 false;
   RunPoster 0 0; RunPoster 0 1; RunConsumer 0 false; RunConsumer 0 false;
   RunConsumer 0 false; RunConsumer 0 false; RunConsumer 0 false; RunConsumer 0 false;
   RunPoster 0 0; RunPoster 0 0;
   RunConsumer 1 false; RunConsumer 1 false; RunConsumer 0 false; RunConsumer 0 false;
   RunConsumer 0 false; RunConsumer 0 false; RunConsumer 0 false; RunConsumer 0 false].
Definition sample_box : defaultMailbox Z :=
  match Unbounded with Ret b => b | _ => mkBox (Goring.mkQueue (Goring.mkRing [] 0 0 0) 0) (Mpsc.mkConf Mpsc.New ∅) false 0 0 false end.
Definition sample_trace (chs : list (choice Z)) : list (event Z) * system Z :=
  match play chs [] (mkSys sample_box [] []) with Some r => r | None => ([], mkSys sample_box [] []) end.

Lemma sample_exec chs : is_Some (play chs [] (mkSys sample_box [] [])) →
  exec (sample_trace chs).1 (sample_trace chs).2.
Proof.
  intros [[tr s] Hplay]. unfold sample_trace. rewrite Hplay. eapply box_play_exec; [|done].
  by constructor.
Qed.

Lemma mailbox_delivers_everything_witness :
  sys_delivered (sample_trace sample_schedule).1 = [Message 7] ∧
  user_delivered (sample_trace sample_schedule).1 = [Message 5].
Proof.
  destruct (mailbox_delivers_everything _ _ (sample_exec sample_schedule ltac:(decided))
    ltac:(split; vm_compute; reflexivity)) as (_ & _ & _ & Hend).
  destruct Hend as (_ & Hs & Hu); [vm_compute; reflexivity..|].
  specialize (Hu ltac:(vm_compute; reflexivity)).
  split; apply (inj (fmap Some)); [rewrite <-Hs|rewrite <-Hu]; vm_compute; reflexivity.
Defined.

(** Midway the senders are through and two goroutines are left, which come to rest in eight steps. *)
Definition sample_mid : list (event Z) * system Z := Eval vm_compute in sample_trace (take 18 sample_schedule).
Definition sample_rest : list (event Z) * system Z := Eval vm_compute in sample_trace sample_schedule.

Lemma sample_mid_exec : exec sample_mid.1 sample_mid.2.
Proof. change sample_mid with (sample_trace (take 18 sample_schedule)). apply sample_exec. decided. Qed.
Lemma sample_mid_few : few (sample_mid.1 ++ [ESysPosted None; EUserPosted None]).
Proof. split; vm_compute; reflexivity. Qed.
Lemma sample_moves : moves 8 sample_mid.1 sample_mid.2 sample_rest.1 sample_rest.2.
Proof. apply (play_moves (drop 18 sample_schedule)); [repeat constructor|vm_compute; reflexivity]. Qed.

Lemma mailbox_comes_to_rest_witness :
  posters sample_mid.2 = [] ∧ length (consumers sample_mid.2) = 2%nat ∧
  8 ≤ (2 * undelivered sample_mid.1 + 1) * (11 * len (consumers sample_mid.2) + 1) ∧
  sys_posted sample_rest.1 = (Some <$> sys_delivered sample_rest.1).
Proof.
  destruct (mailbox_comes_to_rest _ _ sample_mid_exec sample_mid_few) as [_ Hrest].
  destruct (Hrest eq_refl _ _ _ sample_moves) as (Hb & _ & Hend).
  destruct (Hend eq_refl) as (_ & Hs & _).
  exact (conj eq_refl (conj eq_refl (conj Hb Hs))).
Defined.

(** A goroutine alone, for a number of steps. *)
Fixpoint solo (n : nat) (r : consumer Z) (b : defaultMailbox Z) : option (consumer Z * defaultMailbox Z) :=
  match n with
  | O => Some (r, b)
  | S n' => match proc_step false r b with
            | Ret (Some r', _, b') => solo n' r' b'
            | _ => None
            end
  end.

(** A [nil] user message is never counted as delivered: once [PostUserMessage(nil)] has been
    taken off the queue, the goroutine comes back to the start of [run] after seven steps with
    the mailbox as it was, and so never ends while nothing is posted. *)
Lemma nil_message_spins :
  ∃ q, Goring.Push None (userMailbox sample_box) = (Ret tt, q) ∧
  let b := set_status true (add_user 1 (set_user q sample_box)) in
  ∃ b', solo 7 RSys b = Some (RSys, b') ∧ len_ (userMailbox b') = 0 ∧ userMessages b' = 1 ∧
  solo 7 RSys b' = Some (RSys, b') ∧ ∀ n, is_Some (solo (7 * n) RSys b').
Proof.
  eexists. split; [vm_compute; reflexivity|]. cbv zeta.
  eexists. split; [vm_compute; reflexivity|]. split; [reflexivity|]. split; [reflexivity|].
  split; [vm_compute; reflexivity|]. intros n. induction n as [|n IH]; [by eexists|].
  replace (7 * S n)%nat with (7 + 7 * n)%nat by lia. exact IH.
Qed.
