(* ===== verification/HexKeys.v ===== *)
(** [trie/encoding.go]: the three encodings of the keys of the Merkle-Patricia trie.

    A byte is a [Z] below 256; shifts and sums of bytes wrap around. *)
From S2P Require Import Prelude Bytes.
Open Scope Z_scope.

#[export] Instance outcome_ret : MRet outcome := λ A a, Ret a.
#[export] Instance outcome_bind : MBind outcome := λ A B f o,
  match o with Ret a => f a | Fail e => Fail e | Panic w => Panic w | OutOfFuel => OutOfFuel end.

Definition byte_shl (a n : Z) : Z := Z.shiftl a n mod 256.

Definition hasTerm (s : bytes) : bool :=
  match last s with Some x => bool_decide (x = 16) | None => false end.

(** Writes the nibbles two by two into the buffer, from index [bi] on. *)
Fixpoint decodeNibbles_at (bi : Z) (nibbles : bytes) (buf : bytes) : outcome bytes :=
  match nibbles with
  | [] => mret buf
  | [_] => Panic "index out of range"
  | a :: b :: rest =>
    buf' ← set_index buf bi (Z.lor (byte_shl a 4) b);
    decodeNibbles_at (bi + 1) rest buf'
  end.
Definition decodeNibbles (nibbles buf : bytes) : outcome bytes := decodeNibbles_at 0 nibbles buf.

Definition without_term (hex : bytes) : bytes :=
  if hasTerm hex then take (length hex - 1) hex else hex.

Definition hexToCompact (hex : bytes) : outcome bytes :=
  let terminator := if hasTerm hex then 1 else 0 in
  let hex := without_term hex in
  let buf := replicate (Z.to_nat (len hex / 2 + 1)) 0 in
  let b0 := byte_shl terminator 5 in
  if bool_decide (Z.land (len hex) 1 = 1) then
    h0 ← index hex 0;
    tl ← slice_from hex 1;
    rest ← decodeNibbles tl (drop 1 buf);
    mret (Z.lor (Z.lor b0 (Z.shiftl 1 4)) h0 :: rest)
  else
    rest ← decodeNibbles hex (drop 1 buf);
    mret (b0 :: rest).

Definition keybytesToHex (str : bytes) : bytes :=
  concat (map (λ b, [b / 16; b mod 16]) str) ++ [16].

Definition compactToHex (compact : bytes) : outcome bytes :=
  let base := keybytesToHex compact in
  let base := take (length base - 1) base in
  b0 ← index base 0;
  let base := if bool_decide (2 ≤ b0) then base ++ [16] else base in
  slice_from base (2 - Z.land b0 1).

Definition hexToKeybytes (hex : bytes) : outcome bytes :=
  let hex := without_term hex in
  if bool_decide (Z.land (len hex) 1 ≠ 0) then Panic "can't convert hex key of odd length"
  else decodeNibbles hex (replicate (Z.to_nat ((len hex + 1) / 2)) 0).

(** The loop counts the places where the two agree, up to the shorter length. *)
Fixpoint prefixLen (a b : bytes) : nat :=
  match a, b with
  | x :: a', y :: b' => if bool_decide (x = y) then S (prefixLen a' b') else 0%nat
  | _, _ => 0%nat
  end.

(** ** Keys in hex encoding *)
Definition is_nibble (x : Z) : Prop := 0 ≤ x < 16.

(** Nibbles, then perhaps a terminator. *)
Inductive hex_ok : bytes → Prop :=
  | hex_plain ns : Forall is_nibble ns → hex_ok ns
  | hex_term ns : Forall is_nibble ns → hex_ok (ns ++ [16]).

Lemma hasTerm_snoc ns : hasTerm (ns ++ [16]) = true.
Proof. unfold hasTerm. by rewrite last_snoc. Qed.

Lemma hasTerm_plain ns : Forall is_nibble ns → hasTerm ns = false.
Proof.
  intros Hns. unfold hasTerm. destruct (last ns) as [x|] eqn:Hx; [|done].
  apply bool_decide_eq_false. apply last_Some_elem_of in Hx. rewrite Forall_forall in Hns.
  specialize (Hns x Hx). unfold is_nibble in Hns. lia.
Qed.

Lemma without_term_snoc ns : without_term (ns ++ [16]) = ns.
Proof.
  unfold without_term. rewrite hasTerm_snoc, length_app. simpl.
  by rewrite Nat.add_sub, take_app_length.
Qed.

Lemma without_term_plain ns : Forall is_nibble ns → without_term ns = ns.
Proof. intros Hns. unfold without_term. by rewrite hasTerm_plain. Qed.

(** Pairs of nibbles as bytes. *)
Fixpoint pack (ns : bytes) : bytes :=
  match ns with a :: b :: rest => a * 16 + b :: pack rest | _ => [] end.

Definition unpack (bs : bytes) : bytes := concat (map (λ b, [b / 16; b mod 16]) bs).

Lemma nibble_cases (P : Z → Prop) x : Forall P (seqZ 0 16) → is_nibble x → P x.
Proof. intros HP Hx. rewrite Forall_forall in HP. apply HP, elem_of_seqZ. unfold is_nibble in Hx. lia. Qed.

Lemma nibble_lor a b : is_nibble a → is_nibble b → Z.lor (byte_shl a 4) b = a * 16 + b.
Proof.
  intros Ha. apply (nibble_cases (λ b, Z.lor (byte_shl a 4) b = a * 16 + b)).
  revert Ha. apply (nibble_cases (λ a, Forall (λ b, Z.lor (byte_shl a 4) b = a * 16 + b) (seqZ 0 16))).
  decided.
Qed.

Lemma half_SS n : (S (S n) / 2)%nat = S (n / 2).
Proof. exact (Nat.div_add_l 1 2 n ltac:(lia)). Qed.

Lemma length_pack ns : length (pack ns) = (length ns / 2)%nat.
Proof.
  induction ns as [ns IH] using (induction_ltof1 _ (@length Z)). unfold ltof in IH.
  destruct ns as [|a [|b ns]]; [done..|]. cbn [pack length]. rewrite IH by (simpl; lia).
  by rewrite half_SS.
Qed.

Lemma decodeNibbles_at_spec ns pre buf :
  Forall is_nibble ns → Nat.even (length ns) = true → length buf = (length ns / 2)%nat →
  decodeNibbles_at (len pre) ns (pre ++ buf) = Ret (pre ++ pack ns).
Proof.
  revert pre buf. induction ns as [ns IH] using (induction_ltof1 _ (@length Z)). unfold ltof in IH.
  intros pre buf Hns Hev Hbuf. destruct ns as [|a [|b ns]].
  - destruct buf; [|done]. done.
  - done.
  - cbn [length] in Hbuf. rewrite half_SS in Hbuf.
    destruct buf as [|x buf]; [simpl in Hbuf; lia|]. injection Hbuf as Hbuf.
    apply Forall_cons in Hns as [Ha Hns]. apply Forall_cons in Hns as [Hb Hns].
    cbn [decodeNibbles_at pack]. unfold set_index. rewrite decide_True
      by (unfold len; rewrite length_app; simpl; lia). cbn [mbind outcome_bind].
    rewrite nibble_lor by done. unfold len. rewrite Nat2Z.id, insert_app_r_alt, Nat.sub_diag by lia. cbn [insert list_insert].
    replace (Z.of_nat (length pre) + 1) with (len (pre ++ [a * 16 + b])) by (unfold len; rewrite length_app; simpl; lia).
    change (a * 16 + b :: buf) with ([a * 16 + b] ++ buf). rewrite app_assoc.
    rewrite IH; [by rewrite <-app_assoc|simpl; lia|done|done|exact Hbuf].
Qed.

Lemma decodeNibbles_spec ns buf :
  Forall is_nibble ns → Nat.even (length ns) = true → length buf = (length ns / 2)%nat →
  decodeNibbles ns buf = Ret (pack ns).
Proof. apply (decodeNibbles_at_spec ns []). Qed.

Lemma unpack_pack ns : Forall is_nibble ns → Nat.even (length ns) = true → unpack (pack ns) = ns.
Proof.
  induction ns as [ns IH] using (induction_ltof1 _ (@length Z)). unfold ltof in IH.
  intros Hns Hev. destruct ns as [|a [|b ns]]; [done..|].
  apply Forall_cons in Hns as [Ha Hns]. apply Forall_cons in Hns as [Hb Hns]. unfold is_nibble in *.
  cbn [pack]. unfold unpack. cbn [map concat app]. change (concat _) with (unpack (pack ns)).
  rewrite IH by (done || (simpl; lia)). rewrite Z.div_add_l, Z.div_small, Z.add_0_r by lia.
  rewrite Z.add_comm, Z_mod_plus_full, Z.mod_small by lia. done.
Qed.

Lemma pack_unpack bs : is_bytes bs → pack (unpack bs) = bs.
Proof.
  induction 1 as [|b bs Hb _ IH]; [done|]. unfold unpack. cbn [map concat app pack].
  change (concat _) with (unpack bs). rewrite IH. f_equal. pose proof (Z.div_mod b 16). lia.
Qed.

Lemma unpack_nibbles bs : is_bytes bs → Forall is_nibble (unpack bs).
Proof.
  induction 1 as [|b bs Hb _ IH]; [constructor|]. unfold is_byte in Hb. unfold unpack. cbn [map concat app].
  constructor; [|constructor; [|exact IH]].
  - split; [apply Z.div_pos; lia|apply Z.div_lt_upper_bound; lia].
  - by apply Z.mod_pos_bound.
Qed.

Lemma length_unpack bs : length (unpack bs) = (2 * length bs)%nat.
Proof. induction bs as [|b bs IH]; [done|]. unfold unpack in *. cbn [map concat app length]. lia. Qed.

Lemma land_1 n : Z.land (Z.of_nat n) 1 = if Nat.even n then 0 else 1.
Proof.
  change 1 with (Z.ones 1) at 1. rewrite Z.land_ones by lia. change (2 ^ 1) with 2.
  destruct (Nat.even n) eqn:Hn.
  - apply Nat.even_spec in Hn as [m ->]. symmetry. apply (Z.mod_unique _ _ (Z.of_nat m)); lia.
  - rewrite <-Nat.negb_odd in Hn. apply negb_false_iff, Nat.odd_spec in Hn as [m ->].
    symmetry. apply (Z.mod_unique _ _ (Z.of_nat m)); lia.
Qed.

Lemma keybytesToHex_unpack bs : keybytesToHex bs = unpack bs ++ [16].
Proof. done. Qed.

Lemma even_double n : Nat.even (2 * n) = true.
Proof. apply Nat.even_spec. by exists n. Qed.

Lemma half_double n : (2 * n / 2)%nat = n.
Proof. rewrite Nat.mul_comm. by apply Nat.div_mul. Qed.

Lemma half_pos n : Z.to_nat (Z.of_nat n / 2) = (n / 2)%nat.
Proof. change 2 with (Z.of_nat 2). by rewrite <-Nat2Z.inj_div, Nat2Z.id. Qed.

(** Key bytes turned into nibbles and back are the key bytes; the nibble form has two
    nibbles per byte and the terminator. *)
Lemma key_bytes_round_trip key :
  is_bytes key →
  hexToKeybytes (keybytesToHex key) = Ret key ∧ hex_ok (keybytesToHex key) ∧
  len (keybytesToHex key) = 2 * len key + 1 ∧ hasTerm (keybytesToHex key) = true.
Proof.
  intros Hkey. rewrite keybytesToHex_unpack. split; [|split; [|split]].
  - unfold hexToKeybytes. rewrite without_term_snoc. unfold len. rewrite land_1, length_unpack, even_double.
    cbv beta iota zeta. rewrite bool_decide_eq_false_2 by tauto.
    rewrite decodeNibbles_spec; [by rewrite pack_unpack|by apply unpack_nibbles|by rewrite length_unpack, even_double|].
    rewrite length_replicate, length_unpack, half_double.
    replace (Z.of_nat (2 * length key) + 1) with (1 + Z.of_nat (length key) * 2) by lia.
    rewrite Z.div_add by lia. change (1 / 2) with 0. lia.
  - apply hex_term. by apply unpack_nibbles.
  - unfold len. rewrite length_app, length_unpack. simpl. lia.
  - apply hasTerm_snoc.
Qed.

(** The flag byte. *)
Lemma flag_lor (t : bool) h : is_nibble h →
  Z.lor (Z.lor (byte_shl (if t then 1 else 0) 5) (Z.shiftl 1 4)) h = (if t then 32 else 0) + 16 + h.
Proof.
  apply (nibble_cases (λ h, Z.lor (Z.lor (byte_shl (if t then 1 else 0) 5) (Z.shiftl 1 4)) h
    = (if t then 32 else 0) + 16 + h)).
  destruct t; decided.
Qed.

Definition with_term (t : bool) (ns : bytes) : bytes := if t then ns ++ [16] else ns.

Lemma hex_ok_cases hex : hex_ok hex → ∃ t ns, hex = with_term t ns ∧ Forall is_nibble ns.
Proof. destruct 1 as [ns Hns|ns Hns]; [by exists false, ns|by exists true, ns]. Qed.

Lemma with_term_facts t ns : Forall is_nibble ns →
  hasTerm (with_term t ns) = t ∧ without_term (with_term t ns) = ns.
Proof.
  intros Hns. destruct t; cbn [with_term]; split;
    auto using hasTerm_snoc, without_term_snoc, hasTerm_plain, without_term_plain.
Qed.

(** The flag nibble, an optional first nibble, the rest in pairs. *)
Lemma hexToCompact_spec t ns : Forall is_nibble ns →
  hexToCompact (with_term t ns)
  = Ret (if Nat.even (length ns) then (if t then 32 else 0) :: pack ns
         else match ns with
              | h :: tl => (if t then 32 else 0) + 16 + h :: pack tl
              | [] => []
              end).
Proof.
  intros Hns. destruct (with_term_facts t ns Hns) as [Ht Hw]. unfold hexToCompact. rewrite Ht, Hw.
  unfold len. rewrite land_1. rewrite Z2Nat.inj_add, half_pos by (try apply Z.div_pos; lia).
  rewrite Nat.add_comm. change (Z.to_nat 1 + _)%nat with (S (length ns / 2)). cbn [replicate drop]. rewrite drop_0.
  destruct (Nat.even (length ns)) eqn:Hev; cbv beta iota zeta.
  - rewrite bool_decide_eq_false_2 by done.
    rewrite decodeNibbles_spec by (done || by rewrite length_replicate). by destruct t.
  - rewrite bool_decide_eq_true_2 by done. destruct ns as [|h tl]; [done|].
    apply Forall_cons in Hns as [Hh Htl]. cbn [index lookup list_lookup].
    unfold index, slice_from. rewrite decide_True, decide_True by (simpl; lia).
    change (Z.to_nat 0) with 0%nat. change (Z.to_nat 1) with 1%nat. cbn [lookup list_lookup drop mbind outcome_bind].
    assert (Nat.even (length tl) = true) as Hev'.
    { cbn [length] in Hev. rewrite Nat.even_succ, <-Nat.negb_even in Hev. by apply negb_false_iff in Hev. }
    assert ((length (h :: tl) / 2)%nat = (length tl / 2)%nat) as Hhalf.
    { apply Nat.even_spec in Hev' as [m Hm]. cbn [length]. rewrite Hm, half_double.
      symmetry. apply (Nat.div_unique _ 2 _ 1); lia. }
    rewrite decodeNibbles_spec by (done || by rewrite length_replicate, Hhalf).
    cbn [mbind outcome_bind]. by rewrite flag_lor.
Qed.

Lemma compactToHex_cons b0 rest :
  compactToHex (b0 :: rest) = slice_from
    (if bool_decide (2 ≤ b0 / 16) then [b0 / 16; b0 mod 16] ++ unpack rest ++ [16]
     else [b0 / 16; b0 mod 16] ++ unpack rest) (2 - Z.land (b0 / 16) 1).
Proof.
  unfold compactToHex. rewrite keybytesToHex_unpack, length_app. change (length [16]) with 1%nat.
  rewrite Nat.add_sub, take_app_length. unfold unpack. cbn [map concat app].
  done.
Qed.

Lemma compactToHex_flag (t odd : bool) low rest :
  is_nibble low →
  compactToHex ((if t then 32 else 0) + (if odd then 16 else 0) + low :: rest)
  = Ret (with_term t ((if odd then [low] else []) ++ unpack rest)).
Proof.
  intros Hlow. unfold is_nibble in Hlow. set (f := (if t then 2 else 0) + (if odd then 1 else 0)).
  assert ((if t then 32 else 0) + (if odd then 16 else 0) + low = f * 16 + low) as ->
    by (unfold f; destruct t, odd; lia).
  assert ((f * 16 + low) / 16 = f) as Hd by (rewrite Z.div_add_l, Z.div_small by lia; lia).
  assert ((f * 16 + low) mod 16 = low) as Hm
    by (rewrite Z.add_comm, Z_mod_plus_full, Z.mod_small by lia; done).
  rewrite compactToHex_cons, Hd, Hm. unfold f, slice_from.
  destruct t, odd;
    [change (2 - Z.land (2 + 1) 1) with 1; change (bool_decide (2 ≤ 2 + 1)) with true
    |change (2 - Z.land (2 + 0) 1) with 2; change (bool_decide (2 ≤ 2 + 0)) with true
    |change (2 - Z.land (0 + 1) 1) with 1; change (bool_decide (2 ≤ 0 + 1)) with false
    |change (2 - Z.land (0 + 0) 1) with 2; change (bool_decide (2 ≤ 0 + 0)) with false];
    cbv iota; (rewrite decide_True by (cbn [length app]; lia)); done.
Qed.

Lemma pack_bytes ns : Forall is_nibble ns → is_bytes (pack ns).
Proof.
  induction ns as [ns IH] using (induction_ltof1 _ (@length Z)). unfold ltof in IH.
  intros Hns. destruct ns as [|a [|b ns]]; [constructor..|].
  apply Forall_cons in Hns as [Ha Hns]. apply Forall_cons in Hns as [Hb Hns]. unfold is_nibble in *.
  cbn [pack]. constructor; [unfold is_byte; lia|]. apply IH; [simpl; lia|done].
Qed.

Lemma compact_bytes t ns c : Forall is_nibble ns → hexToCompact (with_term t ns) = Ret c → is_bytes c ∧ c ≠ [].
Proof.
  intros Hns. rewrite hexToCompact_spec by done. intros [= <-]. destruct (Nat.even (length ns)) eqn:Hev.
  - split; [|done]. constructor; [unfold is_byte; destruct t; lia|by apply pack_bytes].
  - destruct ns as [|h tl]; [done|]. apply Forall_cons in Hns as [Hh Htl]. unfold is_nibble in Hh. split; [|done].
    constructor; [unfold is_byte; destruct t; lia|by apply pack_bytes].
Qed.

Lemma compact_inverse hex :
  hex_ok hex →
  ∃ c, hexToCompact hex = Ret c ∧ compactToHex c = Ret hex ∧
       len c = len (without_term hex) / 2 + 1.
Proof.
  intros (t & ns & -> & Hns)%hex_ok_cases. rewrite hexToCompact_spec by done.
  rewrite (proj2 (with_term_facts t ns Hns)). eexists. split; [done|].
  destruct (Nat.even (length ns)) eqn:Hev.
  - split.
    + pose proof (compactToHex_flag t false 0 (pack ns)) as Hf. cbv iota in Hf. rewrite !Z.add_0_r in Hf.
      rewrite Hf, unpack_pack by done. done.
    + unfold len. cbn [length]. rewrite length_pack, <-half_pos. rewrite Nat2Z.inj_succ, Z2Nat.id; [lia|].
      apply Z.div_pos; lia.
  - destruct ns as [|h tl]; [done|]. apply Forall_cons in Hns as [Hh Htl].
    cbn [length] in Hev. rewrite Nat.even_succ, <-Nat.negb_even in Hev. apply negb_false_iff in Hev. split.
    + pose proof (compactToHex_flag t true h (pack tl) Hh) as Hf. cbv iota in Hf.
      rewrite Hf, unpack_pack by done. done.
    + unfold len. cbn [length]. rewrite length_pack. apply Nat.even_spec in Hev as [m Hm]. rewrite Hm.
      rewrite half_double. replace (Z.of_nat (S (2 * m))) with (Z.of_nat m * 2 + 1) by lia.
      rewrite Z.div_add_l by lia. change (1 / 2) with 0. lia.
Qed.
