(* ===== verification/Rlp.v ===== *)
(** [common/rlp/encode.go]: the RLP encoder.

    Strings are written to [encbuf.str]; the header of a list is only recorded, with its
    place and its size, and [toBytes] and [toWriter] put the headers in when all is written.
    A Go value seen by reflection is a [gval]; what it means in RLP is an [rval], with its
    textbook encoding [enc]. *)
From S2P Require Import Prelude Bytes.
Open Scope Z_scope.

(** ** Numbers, big endian *)

(** [byte(i >> 8(n-1)), ..., byte(i)] *)
Fixpoint be_bytes (n : nat) (i : Z) : bytes :=
  match n with
  | O => []
  | S n' => Z.shiftr i (8 * Z.of_nat n') mod 256 :: be_bytes n' i
  end.

(** The bytes written; their number is the answer of the function. *)
Definition putint (i : Z) : bytes :=
  if bool_decide (i < 2 ^ 8) then be_bytes 1 i
  else if bool_decide (i < 2 ^ 16) then be_bytes 2 i
  else if bool_decide (i < 2 ^ 24) then be_bytes 3 i
  else if bool_decide (i < 2 ^ 32) then be_bytes 4 i
  else if bool_decide (i < 2 ^ 40) then be_bytes 5 i
  else if bool_decide (i < 2 ^ 48) then be_bytes 6 i
  else if bool_decide (i < 2 ^ 56) then be_bytes 7 i
  else be_bytes 8 i.

(** The loop shifts [i] until it is 0; it has at most as many bits as rounds. *)
Fixpoint intsize_loop (fuel : nat) (size i : Z) : Z :=
  match fuel with
  | O => size
  | S f => let i' := Z.shiftr i 8 in
           if bool_decide (i' = 0) then size else intsize_loop f (size + 1) i'
  end.
Definition intsize (i : Z) : Z := intsize_loop (S (Z.to_nat (Z.log2 i))) 1 i.

Definition headsize (size : Z) : Z := if bool_decide (size < 56) then 1 else 1 + intsize size.

(** The bytes written to the buffer. *)
Definition puthead (smalltag largetag size : Z) : bytes :=
  if bool_decide (size < 56) then [(smalltag + size) mod 256]
  else let b := putint size in (largetag + len b) mod 256 :: b.

Definition ListSize (contentSize : Z) : Z := headsize contentSize + contentSize.

(** ** The encoding buffer *)
Record listhead := mkHead { offset : Z; hsize : Z }.
Record encbuf := mkBuf { str : bytes; lheads : list listhead; lhsize : Z }.

Definition empty_buf : encbuf := mkBuf [] [] 0.

Abbreviation W := (M encbuf).

(** [w.str = append(w.str, b...)] *)
Definition append_str (b : bytes) : W unit := modify (λ w, mkBuf (str w ++ b) (lheads w) (lhsize w)).

Definition buf_size (w : encbuf) : Z := len (str w) + lhsize w.
Definition buf_reset : W unit := modify (λ _, empty_buf).

Definition encodeStringHeader (size : Z) : W unit :=
  if bool_decide (size < 56) then append_str [(128 + size) mod 256]
  else let b := putint size in append_str ((183 + len b) mod 256 :: b).

Definition encodeString (b : bytes) : W unit :=
  match b with
  | [x] => if bool_decide (x ≤ 127) then append_str [x]
           else encodeStringHeader (len b) ;; append_str b
  | _ => encodeStringHeader (len b) ;; append_str b
  end.

(** The pointer to the new header is its index. *)
Definition list_ : W nat :=
  w ← get;
  modify (λ w, mkBuf (str w) (lheads w ++ [mkHead (len (str w)) (lhsize w)]) (lhsize w)) ;;
  mret (length (lheads w)).

Definition listEnd (lh : nat) : W unit :=
  w ← get;
  match lheads w !! lh with
  | None => panic "invalid memory address"
  | Some h =>
    let size := buf_size w - offset h - hsize h in
    modify (λ w, mkBuf (str w) (<[lh := mkHead (offset h) size]> (lheads w)) (lhsize w)) ;;
    modify (λ w, mkBuf (str w) (lheads w)
      (lhsize w + if bool_decide (size < 56) then 1 else 1 + intsize size))
  end.

(** ** Writers, one per type of value *)

(** What reflection finds: [GSlice] for a slice or an array of anything but bytes, [GTail] for
    a slice field tagged "tail", [GIface None] for a nil interface.  A pointer is written as
    what it points to; a nil pointer as [GNilBytes] if it points to an array of bytes, as
    [GNilList] if it points to another array or to a struct, and as the zero value of the type
    it points to otherwise. *)
Inductive gval :=
  | GRaw (b : bytes)
  | GUint (i : Z)
  | GBool (b : bool)
  | GBigInt (i : option Z)
  | GBytes (b : bytes)
  | GString (s : bytes)
  | GIface (v : option gval)
  | GSlice (vs : list gval)
  | GTail (vs : list gval)
  | GStruct (fields : list gval)
  | GNilBytes
  | GNilList.

Definition writeUint (i : Z) : W unit :=
  if bool_decide (i = 0) then append_str [128]
  else if bool_decide (i < 128) then append_str [i mod 256]
  else let b := putint i in append_str ((128 + len b) mod 256 :: b).

Definition writeBool (b : bool) : W unit := append_str [if b then 1 else 128].

(** [i.Bytes()]: big endian without leading zeros. *)
Definition big_Bytes (i : Z) : bytes :=
  if bool_decide (i = 0) then [] else be_bytes (Z.to_nat (intsize i)) i.

Definition writeBigInt (i : Z) : W unit :=
  if bool_decide (i < 0) then fail (Errorf "rlp: cannot encode negative *big.Int")
  else if bool_decide (i = 0) then append_str [128]
  else encodeString (big_Bytes i).

Definition writeString (s : bytes) : W unit :=
  match s with
  | [x] => if bool_decide (x ≤ 127) then append_str [x]
           else encodeStringHeader (len s) ;; append_str s
  | _ => encodeStringHeader (len s) ;; append_str s
  end.

(** The slice writer ends the list also when an element fails ([defer]); the struct writer
    does not. *)
Definition finally {A} (m : W A) (after : W unit) : W A := λ w,
  match m w with
  | (Fail e, w') => match after w' with
                    | (Panic p, w'') => (Panic p, w'')
                    | (_, w'') => (Fail e, w'')
                    end
  | (Ret a, w') => match after w' with
                   | (Ret _, w'') => (Ret a, w'')
                   | (Fail e, w'') => (Fail e, w'')
                   | (Panic p, w'') => (Panic p, w'')
                   | (OutOfFuel, w'') => (OutOfFuel, w'')
                   end
  | r => r
  end.

Definition writeRawValue (b : bytes) : W unit := append_str b.
Definition writeBytes (b : bytes) : W unit := encodeString b.
Definition writeBigIntPtr (i : option Z) : W unit :=
  match i with None => append_str [128] | Some i => writeBigInt i end.

(** The writers below are given the writer of the values inside. *)
Definition writeInterface (writer : gval → W unit) (v : option gval) : W unit :=
  match v with None => append_str [192] | Some v => writer v end.

Definition makeSliceWriter (writer : gval → W unit) (tail : bool) (vs : list gval) : W unit :=
  if tail then for_each writer vs
  else lh ← list_; finally (for_each writer vs) (listEnd lh).

Definition makeStructWriter (writer : gval → W unit) (vs : list gval) : W unit :=
  lh ← list_;
  for_each writer vs ;;
  listEnd lh.

(** A nil pointer, by what it points to. *)
Definition nil_bytes : W unit := append_str [128].
Definition nil_list : W unit := lh ← list_; listEnd lh.

Fixpoint write (v : gval) : W unit :=
  match v with
  | GRaw b => writeRawValue b
  | GUint i => writeUint i
  | GBool b => writeBool b
  | GBigInt i => writeBigIntPtr i
  | GBytes b => writeBytes b
  | GString s => writeString s
  | GIface v => writeInterface write v
  | GSlice vs => makeSliceWriter write false vs
  | GTail vs => makeSliceWriter write true vs
  | GStruct vs => makeStructWriter write vs
  | GNilBytes => nil_bytes
  | GNilList => nil_list
  end.

(** ** Putting the headers in *)

(** [copy(out[pos:], data)]; the number of bytes copied. *)
Definition copy_at (out : bytes) (pos : Z) (data : bytes) : bytes * Z :=
  let d := take (Z.to_nat (len out - pos)) data in
  (take (Z.to_nat pos) out ++ d ++ drop (Z.to_nat (pos + len d)) out, len d).

(** [puthead(out[pos:], ...)] writes byte by byte and panics past the end. *)
Definition put_at (out : bytes) (pos : Z) (data : bytes) : outcome bytes :=
  if bool_decide (pos + len data ≤ len out) then Ret (copy_at out pos data).1
  else Panic "index out of range".

Definition head_encode (h : listhead) : bytes := puthead 192 247 (hsize h).

(** [b[i:j]] *)
Definition slice {A} (l : list A) (i j : Z) : outcome (list A) :=
  if bool_decide (0 ≤ i ≤ j ∧ j ≤ len l) then Ret (take (Z.to_nat (j - i)) (drop (Z.to_nat i) l))
  else Panic "slice bounds out of range".

Fixpoint to_bytes_loop (str : bytes) (heads : list listhead) (out : bytes) (strpos pos : Z) : outcome (bytes * Z * Z) :=
  match heads with
  | [] => Ret (out, strpos, pos)
  | h :: heads' =>
    match slice str strpos (offset h) with
    | Ret data =>
      let '(out1, n) := copy_at out pos data in
      match put_at out1 (pos + n) (head_encode h) with
      | Ret out2 => to_bytes_loop str heads' out2 (strpos + n) (pos + n + len (head_encode h))
      | Fail e => Fail e | Panic p => Panic p | OutOfFuel => OutOfFuel
      end
    | Fail e => Fail e | Panic p => Panic p | OutOfFuel => OutOfFuel
    end
  end.

Definition toBytes (w : encbuf) : outcome bytes :=
  match to_bytes_loop (str w) (lheads w) (replicate (Z.to_nat (buf_size w)) 0) 0 0 with
  | Ret (out, strpos, pos) =>
    match slice_from (str w) strpos with
    | Ret data => Ret (copy_at out pos data).1
    | Fail e => Fail e | Panic p => Panic p | OutOfFuel => OutOfFuel
    end
  | Fail e => Fail e | Panic p => Panic p | OutOfFuel => OutOfFuel
  end.

(** The pieces written to a writer that takes them whole. *)
Fixpoint to_writer_loop (str : bytes) (heads : list listhead) (strpos : Z) (out : bytes) : outcome (bytes * Z) :=
  match heads with
  | [] => Ret (out, strpos)
  | h :: heads' =>
    if bool_decide (0 < offset h - strpos) then
      match slice str strpos (offset h) with
      | Ret data => to_writer_loop str heads' (strpos + len data) (out ++ data ++ head_encode h)
      | Fail e => Fail e | Panic p => Panic p | OutOfFuel => OutOfFuel
      end
    else to_writer_loop str heads' strpos (out ++ head_encode h)
  end.

Definition toWriter (w : encbuf) (out : bytes) : outcome bytes :=
  match to_writer_loop (str w) (lheads w) 0 out with
  | Ret (out, strpos) =>
    if bool_decide (strpos < len (str w)) then
      match slice_from (str w) strpos with
      | Ret data => Ret (out ++ data)
      | Fail e => Fail e | Panic p => Panic p | OutOfFuel => OutOfFuel
      end
    else Ret out
  | Fail e => Fail e | Panic p => Panic p | OutOfFuel => OutOfFuel
  end.

(** [Encode(w, val)], for a writer that is not itself an encoding buffer *)
Definition Encode (v : gval) (w : bytes) : outcome bytes :=
  match write v empty_buf with
  | (Ret _, eb) => toWriter eb w
  | (Fail e, _) => Fail e | (Panic p, _) => Panic p | (OutOfFuel, _) => OutOfFuel
  end.

Definition EncodeToBytes (v : gval) : outcome bytes :=
  match write v empty_buf with
  | (Ret _, w) => toBytes w
  | (Fail e, _) => Fail e | (Panic p, _) => Panic p | (OutOfFuel, _) => OutOfFuel
  end.

(** ** Facts about numbers *)
Lemma length_be_bytes n i : length (be_bytes n i) = n.
Proof. induction n; simpl; auto. Qed.

Lemma be_bytes_ok n i : is_bytes (be_bytes n i).
Proof. induction n; constructor; [by apply Z.mod_pos_bound|done]. Qed.

(** The number a byte string stands for. *)
Fixpoint be_val (b : bytes) : Z :=
  match b with [] => 0 | x :: b' => x * 256 ^ len b' + be_val b' end.

Lemma be_val_bound b : is_bytes b → 0 ≤ be_val b < 256 ^ len b.
Proof.
  induction 1 as [|x b Hx _ IH]; [done|]. unfold is_byte in Hx. cbn [be_val]. unfold len in *. cbn [length].
  rewrite Nat2Z.inj_succ, Z.pow_succ_r by lia. nia.
Qed.

Lemma be_val_bytes n i : 0 ≤ i → be_val (be_bytes n i) = i mod 256 ^ Z.of_nat n.
Proof.
  intros Hi. induction n as [|n IH]; [by rewrite Z.mod_1_r|].
  cbn [be_bytes be_val]. rewrite IH. unfold len. rewrite length_be_bytes.
  rewrite Z.shiftr_div_pow2 by lia. change 256 with (2 ^ 8). rewrite <-Z.pow_mul_r by lia.
  rewrite Nat2Z.inj_succ, <-Z.pow_mul_r by lia.
  replace (8 * Z.succ (Z.of_nat n)) with (8 * Z.of_nat n + 8) by lia. rewrite Z.pow_add_r by lia.
  rewrite Z.rem_mul_r by lia. lia.
Qed.

Lemma intsize_loop_spec f size i :
  0 ≤ i → 1 ≤ size → i < 2 ^ Z.of_nat f → (0 < f)%nat →
  let n := intsize_loop f size i in
  size ≤ n ∧ i < 256 ^ (n - size + 1) ∧ (size < n → 256 ^ (n - size) ≤ i).
Proof.
  revert size i. induction f as [|f IH]; intros size i Hi Hs Hf H0; [lia|]. cbn zeta. cbn [intsize_loop].
  rewrite Z.shiftr_div_pow2 by lia. change (2 ^ 8) with 256. case_bool_decide as Hd.
  - replace (size - size + 1) with 1 by lia. apply Z.div_small_iff in Hd; lia.
  - assert (256 ≤ i) as Hbig by (destruct (decide (i < 256)); [rewrite Z.div_small in Hd; lia|lia]).
    assert (0 < f)%nat as H0' by (destruct f; [change (2 ^ Z.of_nat 1) with 2 in Hf; lia|lia]).
    assert (i / 256 < 2 ^ Z.of_nat f) as Hf'.
    { apply Z.div_lt_upper_bound; [lia|]. rewrite Nat2Z.inj_succ, Z.pow_succ_r in Hf by lia. lia. }
    destruct (IH (size + 1) (i / 256)) as (Hn1 & Hn2 & Hn3); [by apply Z.div_pos|lia|done|done|].
    set (n := intsize_loop f (size + 1) (i / 256)) in *. split; [lia|].
    pose proof (Z.div_mod i 256 ltac:(lia)). pose proof (Z.mod_pos_bound i 256 ltac:(lia)).
    replace (n - (size + 1) + 1) with (n - size) in Hn2 by lia. split.
    + rewrite Z.pow_add_r by lia. change (256 ^ 1) with 256. lia.
    + intros _. destruct (decide (size + 1 < n)) as [Hlt|Hge].
      * specialize (Hn3 Hlt). replace (n - size) with (n - (size + 1) + 1) by lia.
        rewrite Z.pow_add_r by lia. change (256 ^ 1) with 256. lia.
      * replace (n - size) with 1 by lia. done.
Qed.

(** [intsize] is the least number of bytes that hold the number (one for zero). *)
Lemma intsize_spec i :
  0 ≤ i → 1 ≤ intsize i ∧ i < 256 ^ intsize i ∧ (1 < intsize i → 256 ^ (intsize i - 1) ≤ i).
Proof.
  intros Hi. destruct (intsize_loop_spec (S (Z.to_nat (Z.log2 i))) 1 i) as (Hq1 & Hq2 & Hq3); [done|lia| |lia|].
  - destruct (decide (i = 0)) as [->|]; [done|].
    rewrite Nat2Z.inj_succ, Z2Nat.id by apply Z.log2_nonneg. apply Z.log2_spec. lia.
  - unfold intsize. replace (intsize_loop _ 1 i - 1 + 1) with (intsize_loop (S (Z.to_nat (Z.log2 i))) 1 i) in Hq2 by lia.
    done.
Qed.

Lemma intsize_unique i n :
  0 ≤ i → 1 ≤ n → i < 256 ^ n → (1 < n → 256 ^ (n - 1) ≤ i) → intsize i = n.
Proof.
  intros Hi Hn Hlt Hge. destruct (intsize_spec i Hi) as (Hq1 & Hq2 & Hq3).
  destruct (Z.lt_trichotomy (intsize i) n) as [H|[H|H]]; [|done|].
  - pose proof (Z.pow_le_mono_r 256 (intsize i) (n - 1) ltac:(lia) ltac:(lia)). lia.
  - pose proof (Z.pow_le_mono_r 256 n (intsize i - 1) ltac:(lia) ltac:(lia)). lia.
Qed.

Lemma intsize_le_8 i : 0 ≤ i < 2 ^ 64 → intsize i ≤ 8.
Proof.
  intros Hi. destruct (intsize_spec i) as (Hq1 & Hq2 & Hq3); [lia|].
  destruct (decide (intsize i ≤ 8)); [done|]. specialize (Hq3 ltac:(lia)).
  pose proof (Z.pow_le_mono_r 256 8 (intsize i - 1) ltac:(lia) ltac:(lia)). lia.
Qed.

(** The cases of [putint] pick the least number of bytes. *)
Lemma putint_spec i : 0 ≤ i < 2 ^ 64 → putint i = be_bytes (Z.to_nat (intsize i)) i.
Proof.
  intros Hi.
  assert (∀ n, 1 ≤ n → i < 256 ^ n → (1 < n → 256 ^ (n - 1) ≤ i) →
    be_bytes (Z.to_nat n) i = be_bytes (Z.to_nat (intsize i)) i) as Hn.
  { intros n Hn1 Hn2 Hn3. by rewrite (intsize_unique i n) by (done || lia). }
  unfold putint. repeat case_bool_decide;
    [apply (Hn 1)|apply (Hn 2)|apply (Hn 3)|apply (Hn 4)|apply (Hn 5)|apply (Hn 6)|apply (Hn 7)|apply (Hn 8)]; lia.
Qed.

Lemma len_putint i : 0 ≤ i < 2 ^ 64 → len (putint i) = intsize i.
Proof.
  intros Hi. rewrite putint_spec by done. unfold len. rewrite length_be_bytes.
  pose proof (intsize_spec i ltac:(lia)). lia.
Qed.

Lemma len_puthead a b size : 0 ≤ size < 2 ^ 64 → len (puthead a b size) = headsize size.
Proof.
  intros Hs. unfold puthead, headsize. case_bool_decide; [done|].
  unfold len. cbn [length]. pose proof (len_putint size Hs) as Hl. unfold len in Hl. lia.
Qed.

(** ** What RLP says *)

(** An RLP value; [RRaw] stands for bytes put in as they are. *)
Inductive rval := RStr (b : bytes) | RList (vs : list rval) | RRaw (b : bytes).

Definition enc_str (b : bytes) : bytes :=
  match b with
  | [x] => if bool_decide (x ≤ 127) then b else puthead 128 183 (len b) ++ b
  | _ => puthead 128 183 (len b) ++ b
  end.

Fixpoint enc (v : rval) : bytes :=
  match v with
  | RStr b => enc_str b
  | RList vs => let body := concat (map enc vs) in puthead 192 247 (len body) ++ body
  | RRaw b => b
  end.

(** The RLP values a Go value is written as; none for a negative number. *)
Fixpoint shape (v : gval) : option (list rval) :=
  match v with
  | GRaw b => Some [RRaw b]
  | GUint i => Some [RStr (big_Bytes i)]
  | GBool b => Some [RStr (if b then [1] else [])]
  | GBigInt None => Some [RStr []]
  | GBigInt (Some i) => if bool_decide (i < 0) then None else Some [RStr (big_Bytes i)]
  | GBytes b | GString b => Some [RStr b]
  | GIface None => Some [RList []]
  | GIface (Some v) => shape v
  | GSlice vs | GStruct vs => rs ← mapM shape vs; Some [RList (concat rs)]
  | GTail vs => rs ← mapM shape vs; Some (concat rs)
  | GNilBytes => Some [RStr []]
  | GNilList => Some [RList []]
  end.

(** Unsigned integers are 64 bits wide. *)
Fixpoint gval_ok (v : gval) : Prop :=
  match v with
  | GUint i => 0 ≤ i < 2 ^ 64
  | GIface (Some v) => gval_ok v
  | GSlice vs | GTail vs | GStruct vs => foldr (λ v P, gval_ok v ∧ P) True vs
  | _ => True
  end.

(** ** The buffer holds the encoding, with the headers aside *)

(** [sd] are the string bytes from [off] on. *)
Fixpoint weave (off : Z) (sd : bytes) (hs : list listhead) : bytes :=
  match hs with
  | [] => sd
  | h :: hs' =>
    let n := Z.to_nat (offset h - off) in
    take n sd ++ head_encode h ++ weave (offset h) (drop n sd) hs'
  end.

Fixpoint placed (off : Z) (sd : bytes) (hs : list listhead) : Prop :=
  match hs with
  | [] => True
  | h :: hs' => off ≤ offset h ≤ off + len sd ∧ placed (offset h) (drop (Z.to_nat (offset h - off)) sd) hs'
  end.

Lemma len_drop {A} n (l : list A) : 0 ≤ n ≤ len l → len (drop (Z.to_nat n) l) = len l - n.
Proof. unfold len. rewrite length_drop. lia. Qed.
Lemma len_take {A} n (l : list A) : 0 ≤ n ≤ len l → len (take (Z.to_nat n) l) = n.
Proof. unfold len. rewrite length_take. lia. Qed.
Lemma len_app {A} (l k : list A) : len (l ++ k) = len l + len k.
Proof. unfold len. rewrite length_app. lia. Qed.
Lemma len_nonneg {A} (l : list A) : 0 ≤ len l.
Proof. unfold len. lia. Qed.

Lemma weave_app off s1 hs1 s2 hs2 :
  placed off s1 hs1 → placed (off + len s1) s2 hs2 →
  weave off (s1 ++ s2) (hs1 ++ hs2) = weave off s1 hs1 ++ weave (off + len s1) s2 hs2 ∧
  placed off (s1 ++ s2) (hs1 ++ hs2).
Proof.
  revert off s1. induction hs1 as [|h hs1 IH]; intros off s1 Hp1 Hp2.
  - cbn [app weave placed]. destruct hs2 as [|h hs2]; [done|]. destruct Hp2 as [Hh Hp2].
    cbn [weave placed]. pose proof (len_nonneg s1). rewrite len_app.
    assert (Z.to_nat (offset h - off) = (length s1 + Z.to_nat (offset h - (off + len s1)))%nat) as ->
      by (unfold len in *; lia).
    rewrite take_app_add, drop_app_add. split; [by rewrite <-app_assoc|]. split; [lia|done].
  - destruct Hp1 as [Hh Hp1]. cbn [app weave placed]. set (n := Z.to_nat (offset h - off)) in *.
    assert (n ≤ length s1)%nat as Hn by (unfold n, len in *; lia).
    assert (offset h + len (drop n s1) = off + len s1) as Hoff.
    { unfold n. rewrite len_drop by lia. lia. }
    destruct (IH (offset h) (drop n s1) Hp1) as [Hw Hpl]; [by rewrite Hoff|].
    rewrite Hoff in Hw. rewrite take_app_le, drop_app_le by done. rewrite Hw.
    split; [by rewrite <-!app_assoc|]. rewrite len_app. pose proof (len_nonneg s2). split; [lia|done].
Qed.

Lemma weave_head off sd hs size :
  placed off sd hs →
  weave off sd (mkHead off size :: hs) = puthead 192 247 size ++ weave off sd hs ∧
  placed off sd (mkHead off size :: hs).
Proof.
  intros Hp. cbn [weave placed offset]. rewrite Z.sub_diag. cbn [Z.to_nat]. rewrite take_0, drop_0.
  pose proof (len_nonneg sd). split; [done|]. split; [lia|done].
Qed.

(** [writes m e]: the writer appends the encoding [e], whatever was written before. *)
Definition writes (m : W unit) (e : bytes) : Prop :=
  ∀ w, ∃ sd hs,
    m w = (Ret tt, mkBuf (str w ++ sd) (lheads w ++ hs) (lhsize w + (len e - len sd))) ∧
    placed (len (str w)) sd hs ∧ weave (len (str w)) sd hs = e.

Lemma writes_append b : writes (append_str b) b.
Proof.
  intros w. exists b, []. rewrite app_nil_r, Z.sub_diag, Z.add_0_r. done.
Qed.

Lemma writes_seq m1 m2 e1 e2 : writes m1 e1 → writes m2 e2 → writes (m1 ;; m2) (e1 ++ e2).
Proof.
  intros Hm1 Hm2 w. destruct (Hm1 w) as (s1 & h1 & Hr1 & Hp1 & He1).
  destruct (Hm2 (mkBuf (str w ++ s1) (lheads w ++ h1) (lhsize w + (len e1 - len s1))))
    as (s2 & h2 & Hr2 & Hp2 & He2). cbn [str lheads lhsize] in *. rewrite len_app in Hp2, He2.
  destruct (weave_app _ _ _ _ _ Hp1 Hp2) as [Hw Hp]. exists (s1 ++ s2), (h1 ++ h2).
  split; [|by rewrite Hw, He1, He2].
  rewrite (run_bind_Ret _ _ _ _ _ Hr1), Hr2. rewrite <-!app_assoc, !len_app. do 2 f_equal. lia.
Qed.

Lemma writes_ret : writes (mret tt) [].
Proof. intros w. exists [], []. rewrite !app_nil_r, Z.add_0_r. by destruct w. Qed.

Lemma writes_for_each {A} (f : A → W unit) (g : A → bytes) l :
  Forall (λ x, writes (f x) (g x)) l → writes (for_each f l) (concat (map g l)).
Proof. induction 1 as [|x l Hx _ IH]; [apply writes_ret|]. by apply writes_seq. Qed.

(** A list: a header is opened, the elements are written, the header is closed. *)
Lemma writes_list (m : W unit) e :
  writes m e → len e < 2 ^ 64 →
  writes (lh ← list_; m ;; listEnd lh) (puthead 192 247 (len e) ++ e) ∧
  writes (lh ← list_; finally m (listEnd lh)) (puthead 192 247 (len e) ++ e).
Proof.
  intros Hm Hlen. pose proof (len_nonneg e) as Hnn.
  assert (∀ w, ∃ sd hs w1, m (mkBuf (str w) (lheads w ++ [mkHead (len (str w)) (lhsize w)]) (lhsize w)) = (Ret tt, w1) ∧
    listEnd (length (lheads w)) w1
      = (Ret tt, mkBuf (str w ++ sd) (lheads w ++ mkHead (len (str w)) (len e) :: hs)
                  (lhsize w + (len (puthead 192 247 (len e) ++ e) - len sd))) ∧
    placed (len (str w)) sd hs ∧ weave (len (str w)) sd hs = e) as Hcore.
  { intros w. destruct (Hm (mkBuf (str w) (lheads w ++ [mkHead (len (str w)) (lhsize w)]) (lhsize w)))
      as (sd & hs & Hr & Hp & He). cbn [str lheads lhsize] in *.
    exists sd, hs. eexists. split; [exact Hr|]. split; [|done].
    unfold listEnd. erewrite run_bind_Ret by done. cbn [lheads]. rewrite <-app_assoc. cbn [app].
    rewrite list_lookup_middle by done. cbn [offset hsize]. unfold buf_size. cbn [str lhsize].
    assert (len (str w ++ sd) + (lhsize w + (len e - len sd)) - len (str w) - lhsize w = len e) as ->
      by (rewrite len_app; lia).
    unfold modify, mbind, M_bind. cbn [str lheads lhsize].
    rewrite insert_app_r_alt, Nat.sub_diag by done. cbn [insert list_insert]. do 2 f_equal.
    rewrite len_app, len_puthead by done. unfold headsize. lia. }
  split; intros w; destruct (Hcore w) as (sd & hs & w1 & Hr1 & Hr2 & Hp & He);
    destruct (weave_head _ _ _ (len e) Hp) as [Hw Hpl];
    exists sd, (mkHead (len (str w)) (len e) :: hs); (split; [|by rewrite Hw, He]).
  - unfold list_. erewrite run_bind_Ret by done. by rewrite (run_bind_Ret _ _ _ _ _ Hr1).
  - unfold list_. erewrite run_bind_Ret by done. unfold finally. by rewrite Hr1, Hr2.
Qed.

(** Induction through the lists of a value. *)
Lemma gval_induction (P : gval → Prop) :
  (∀ v, match v with GIface (Some _) | GSlice _ | GTail _ | GStruct _ => False | _ => True end → P v) →
  (∀ v, P v → P (GIface (Some v))) →
  (∀ vs, Forall P vs → P (GSlice vs) ∧ P (GTail vs) ∧ P (GStruct vs)) →
  ∀ v, P v.
Proof.
  intros Hbase Hif Hlist.
  fix IH 1. intros v.
  assert (∀ vs, Forall P vs) as Hall by (clear -IH; fix IHl 1; intros [|v vs]; constructor; [apply IH|apply IHl]).
  destruct v as [| | | | | |[v|]|vs|vs|vs| |]; try (by apply Hbase); try (by apply Hlist).
  apply Hif, IH.
Qed.

Lemma writes_header size :
  writes (encodeStringHeader size) (puthead 128 183 size).
Proof.
  unfold encodeStringHeader, puthead. case_bool_decide; apply writes_append.
Qed.

Lemma writes_string b : writes (encodeString b) (enc_str b).
Proof.
  unfold encodeString, enc_str. destruct b as [|x [|y b]]; [| |]; try case_bool_decide;
    first [apply writes_append | apply writes_seq; [apply writes_header|apply writes_append]].
Qed.

(** A single byte below 128 is its own encoding; [0] is the empty string. *)
Lemma writes_uint i : 0 ≤ i < 2 ^ 64 → writes (writeUint i) (enc_str (big_Bytes i)).
Proof.
  intros Hi. unfold writeUint, big_Bytes. case_bool_decide as H0; [apply writes_append|].
  destruct (intsize_spec i) as (Hq1 & Hq2 & Hq3); [lia|].
  case_bool_decide as Hs.
  - rewrite (intsize_unique i 1) by lia. change (Z.to_nat 1) with 1%nat. cbn [be_bytes].
    rewrite Z.shiftr_0_r. unfold enc_str. rewrite Z.mod_small by lia.
    rewrite bool_decide_eq_true_2 by lia. apply writes_append.
  - assert (enc_str (be_bytes (Z.to_nat (intsize i)) i)
      = puthead 128 183 (len (putint i)) ++ putint i) as ->.
    { rewrite <-putint_spec by done. destruct (putint i) as [|x [|y l]] eqn:Hp; [done| |done].
      unfold enc_str. rewrite bool_decide_eq_false_2; [done|]. intros Hx.
      assert (intsize i = 1) as H1 by (rewrite <-len_putint, Hp by done; done).
      rewrite putint_spec, H1 in Hp by done. change (Z.to_nat 1) with 1%nat in Hp. cbn [be_bytes] in Hp.
      rewrite Z.shiftr_0_r in Hp. rewrite H1 in Hq2. injection Hp as <-.
      rewrite Z.mod_small in Hx by lia. lia. }
    unfold puthead. rewrite len_putint by done. rewrite bool_decide_eq_true_2
      by (pose proof (intsize_le_8 i Hi); lia).
    apply writes_append.
Qed.

Lemma len_enc_elems vs : len (concat (map enc vs)) ≤ len (enc (RList vs)).
Proof. cbn [enc]. rewrite len_app. pose proof (len_nonneg (puthead 192 247 (len (concat (map enc vs))))). lia. Qed.

Lemma concat_map_enc rss :
  concat (map enc (concat rss)) = concat (map (λ rs, concat (map enc rs)) rss).
Proof.
  induction rss as [|rs rss IH]; [done|]. cbn [concat map]. by rewrite map_app, concat_app, IH.
Qed.

(** The elements of a list, each with its own encoding. *)
Lemma writes_elems vs rss :
  Forall (λ v, ∀ rs, gval_ok v → shape v = Some rs → len (concat (map enc rs)) < 2 ^ 64 →
                     writes (write v) (concat (map enc rs))) vs →
  foldr (λ v P, gval_ok v ∧ P) True vs → mapM shape vs = Some rss →
  len (concat (map enc (concat rss))) < 2 ^ 64 →
  writes (for_each write vs) (concat (map enc (concat rss))).
Proof.
  intros Hall. revert rss. induction Hall as [|v vs Hv _ IH]; intros rss Hok Hrs Hlen.
  { cbn in Hrs. injection Hrs as <-. apply writes_ret. }
  cbn [mapM] in Hrs. apply bind_Some in Hrs as (rs & Hs & Hrs). apply bind_Some in Hrs as (rss' & Hss & Hrs).
  injection Hrs as <-. destruct Hok as [Hokv Hok]. cbn [concat] in Hlen |- *.
  rewrite map_app, concat_app in Hlen |- *. rewrite len_app in Hlen.
  pose proof (len_nonneg (concat (map enc rs))). pose proof (len_nonneg (concat (map enc (concat rss')))).
  apply writes_seq; [apply Hv|apply IH]; (done || lia).
Qed.

Lemma write_spec v : ∀ rs,
  gval_ok v → shape v = Some rs → len (concat (map enc rs)) < 2 ^ 64 → writes (write v) (concat (map enc rs)).
Proof.
  revert v. apply (gval_induction (λ v, ∀ rs, gval_ok v → shape v = Some rs →
    len (concat (map enc rs)) < 2 ^ 64 → writes (write v) (concat (map enc rs)))).
  - intros v Hbase rs Hok Hs Hlen. destruct v as [b|i|b|[i|]|b|s|[v|]|vs|vs|vs| |]; try done; cbn [shape] in Hs;
      try (case_bool_decide; [done|]); injection Hs as <-; cbn [map concat enc] in *; rewrite ?app_nil_r in *.
    + apply writes_append.
    + by apply writes_uint.
    + destruct b; apply writes_append.
    + cbn [write writeBigIntPtr]. unfold writeBigInt. rewrite bool_decide_eq_false_2 by done. case_bool_decide as H0.
      * subst i. apply writes_append.
      * apply writes_string.
    + apply writes_append.
    + apply writes_string.
    + apply (writes_string s).
    + apply writes_append.
    + apply writes_append.
    + exact (proj1 (writes_list (mret tt) [] writes_ret eq_refl)).
  - intros v IH rs Hok Hs Hlen. by apply IH.
  - intros vs IH. split; [|split]; intros rs Hok Hs Hlen; cbn [shape] in Hs;
      apply bind_Some in Hs as (rss & Hss & [= <-]); cbn [gval_ok write] in *.
    + cbn [map concat] in *. rewrite app_nil_r in *. pose proof (len_enc_elems (concat rss)).
      refine (proj2 (writes_list _ (concat (map enc (concat rss))) _ _)); [apply (writes_elems vs rss); (done || lia)|lia].
    + by eapply writes_elems.
    + cbn [map concat] in *. rewrite app_nil_r in *. pose proof (len_enc_elems (concat rss)).
      refine (proj1 (writes_list _ (concat (map enc (concat rss))) _ _)); [apply (writes_elems vs rss); (done || lia)|lia].
Qed.

(** *** [toBytes] and [toWriter] weave the headers in *)
Lemma slice_mid {A} (pre mid post : list A) i j :
  i = len pre → j = len pre + len mid → slice (pre ++ mid ++ post) i j = Ret mid.
Proof.
  intros -> ->. unfold slice. rewrite bool_decide_eq_true_2 by (rewrite !len_app; unfold len; lia).
  replace (len pre + len mid - len pre) with (len mid) by lia. unfold len.
  by rewrite !Nat2Z.id, drop_app_length, take_app_length.
Qed.

Lemma slice_from_app {A} (pre post : list A) i : i = len pre → slice_from (pre ++ post) i = Ret post.
Proof.
  intros ->. unfold slice_from. rewrite decide_True by (unfold len; rewrite length_app; lia).
  unfold len. by rewrite Nat2Z.id, drop_app_length.
Qed.

(** The bytes still to be filled are [rest]. *)
Lemma copy_at_app (done_ rest data : bytes) pos :
  pos = len done_ → len data ≤ len rest →
  copy_at (done_ ++ rest) pos data = (done_ ++ data ++ drop (length data) rest, len data).
Proof.
  intros -> Hl. unfold copy_at. rewrite len_app. unfold len in *.
  replace (Z.of_nat (length done_) + Z.of_nat (length rest) - Z.of_nat (length done_))
    with (Z.of_nat (length rest)) by lia.
  rewrite !Nat2Z.id, (take_ge data) by lia. rewrite take_app_length.
  rewrite <-Nat2Z.inj_add, Nat2Z.id. by rewrite drop_app_add.
Qed.

Lemma to_bytes_weave pre sd hs done_ rest :
  placed (len pre) sd hs → len rest = len (weave (len pre) sd hs) →
  match to_bytes_loop (pre ++ sd) hs (done_ ++ rest) (len pre) (len done_) with
  | Ret (out, strpos, pos) =>
    match slice_from (pre ++ sd) strpos with
    | Ret data => (copy_at out pos data).1 = done_ ++ weave (len pre) sd hs
    | _ => False
    end
  | _ => False
  end.
Proof.
  revert pre sd done_ rest. induction hs as [|h hs IH]; intros pre sd done_ rest Hp Hlen.
  - cbn [to_bytes_loop weave] in *. rewrite slice_from_app by done.
    rewrite copy_at_app by (done || lia). cbn [fst]. rewrite drop_ge by (unfold len in *; lia).
    by rewrite app_nil_r.
  - destruct Hp as [Hh Hp]. cbn [to_bytes_loop weave] in *. set (n := Z.to_nat (offset h - len pre)) in *.
    assert (len (take n sd) = offset h - len pre) as Hn by (unfold n; rewrite len_take by lia; done).
    assert (slice (pre ++ sd) (len pre) (offset h) = Ret (take n sd)) as Hslice.
    { rewrite <-(take_drop n sd) at 1. apply slice_mid; [done|lia]. }
    rewrite Hslice. rewrite !len_app in Hlen. pose proof (len_nonneg (head_encode h)).
    pose proof (len_nonneg (weave (offset h) (drop n sd) hs)).
    rewrite copy_at_app by (done || lia). unfold put_at. rewrite bool_decide_eq_true_2.
    2: { rewrite !len_app. unfold len in *. rewrite length_drop. lia. }
    rewrite app_assoc, copy_at_app.
    2: by rewrite len_app.
    2: unfold len in *; rewrite length_drop; lia.
    cbn [fst]. rewrite drop_drop.
    assert (len (pre ++ take n sd) = offset h) as Hoff by (rewrite len_app; lia).
    specialize (IH (pre ++ take n sd) (drop n sd) ((done_ ++ take n sd) ++ head_encode h)
      (drop (length (take n sd) + length (head_encode h)) rest)).
    rewrite Hoff, <-!app_assoc, (take_drop n sd) in IH. specialize (IH Hp).
    assert (len pre + len (take n sd) = offset h) as -> by lia.
    rewrite <-!app_assoc, !len_app in *. rewrite Z.add_assoc in IH. apply IH.
    unfold len in *. rewrite length_drop. lia.
Qed.

Lemma to_writer_weave pre sd hs out :
  placed (len pre) sd hs →
  match to_writer_loop (pre ++ sd) hs (len pre) out with
  | Ret (out', strpos) =>
    ∃ data, slice_from (pre ++ sd) strpos = Ret data ∧ out' ++ data = out ++ weave (len pre) sd hs ∧
            (strpos < len (pre ++ sd) ∨ data = [])
  | _ => False
  end.
Proof.
  revert pre sd out. induction hs as [|h hs IH]; intros pre sd out Hp.
  - cbn [to_writer_loop weave]. exists sd. rewrite slice_from_app by done. split; [done|]. split; [done|].
    rewrite len_app. destruct sd; [by right|]. left. unfold len. simpl. lia.
  - destruct Hp as [Hh Hp]. cbn [to_writer_loop weave]. set (n := Z.to_nat (offset h - len pre)) in *.
    assert (len (take n sd) = offset h - len pre) as Hn by (unfold n; rewrite len_take by lia; done).
    assert (slice (pre ++ sd) (len pre) (offset h) = Ret (take n sd)) as Hslice.
    { rewrite <-(take_drop n sd) at 1. apply slice_mid; [done|lia]. }
    assert (len (pre ++ take n sd) = offset h) as Hoff by (rewrite len_app; lia).
    specialize (IH (pre ++ take n sd) (drop n sd)). rewrite Hoff in IH.
    rewrite <-app_assoc, take_drop in IH. case_bool_decide as Hd.
    + rewrite Hslice, Hn.
      replace (len pre + (offset h - len pre)) with (offset h) by lia.
      specialize (IH (out ++ take n sd ++ head_encode h) Hp). by rewrite <-!app_assoc in IH.
    + assert (offset h = len pre) as Heq by lia. specialize (IH (out ++ head_encode h) Hp).
      rewrite Heq in *. assert (n = 0%nat) as Hn0 by (unfold n; lia). rewrite Hn0, take_0, drop_0 in *.
      by rewrite <-!app_assoc in IH.
Qed.

(** ** Failures *)

(** A run that only adds headers and succeeds, or fails, as told. *)
Definition outcome_like {A} (r : outcome unit * encbuf) (w : encbuf) (s : option A) : Prop :=
  (length (lheads w) ≤ length (lheads r.2))%nat ∧
  match s with Some _ => r.1 = Ret tt | None => ∃ e, r.1 = Fail e end.

Lemma listEnd_ok lh w : (lh < length (lheads w))%nat →
  ∃ w', listEnd lh w = (Ret tt, w') ∧ length (lheads w') = length (lheads w).
Proof.
  intros Hlt. destruct (lookup_lt_is_Some_2 _ _ Hlt) as [h Hh]. unfold listEnd.
  erewrite run_bind_Ret by done. rewrite Hh. eexists. split; [done|]. cbn. by rewrite length_insert.
Qed.

Lemma outcome_elems vs w :
  Forall (λ v, ∀ w, outcome_like (write v w) w (shape v)) vs →
  outcome_like (for_each write vs w) w (mapM shape vs).
Proof.
  intros Hall. revert w. induction Hall as [|v vs Hv _ IH]; intros w; [done|].
  cbn [for_each mapM]. specialize (Hv w). destruct (write v w) as [o w1] eqn:Hw. destruct Hv as [Hl Ho].
  cbn [fst snd] in *. destruct (shape v) as [rs|].
  - subst o. rewrite (run_bind_Ret _ _ _ _ _ Hw). destruct (IH w1) as [Hl' Ho']. split; [lia|].
    destruct (mapM shape vs); done.
  - destruct Ho as [e ->]. rewrite (run_bind_Fail _ _ _ _ _ Hw). split; [done|]. by exists e.
Qed.

Lemma outcome_list {A} (m : W unit) w (s : option A) :
  (∀ w, outcome_like (m w) w s) →
  outcome_like ((lh ← list_; finally m (listEnd lh)) w) w s ∧
  outcome_like ((lh ← list_; m ;; listEnd lh) w) w s.
Proof.
  intros Hm. unfold list_. set (w0 := mkBuf (str w) (lheads w ++ [mkHead (len (str w)) (lhsize w)]) (lhsize w)).
  specialize (Hm w0). destruct (m w0) as [o w1] eqn:Hw. destruct Hm as [Hl Ho]. cbn [fst snd] in *.
  assert (length (lheads w) < length (lheads w1))%nat as Hlt.
  { unfold w0 in Hl. cbn [lheads] in Hl. rewrite length_app in Hl. simpl in Hl. lia. }
  destruct (listEnd_ok _ _ Hlt) as (w2 & He & Hl2).
  split; (erewrite run_bind_Ret by done); fold w0.
  - unfold finally. rewrite Hw. destruct s.
    + subst o. rewrite He. split; [cbn [snd]; lia|done].
    + destruct Ho as [e ->]. rewrite He. split; [cbn [snd]; lia|by exists e].
  - destruct s.
    + subst o. rewrite (run_bind_Ret _ _ _ _ _ Hw), He. split; [cbn [snd]; lia|done].
    + destruct Ho as [e ->]. rewrite (run_bind_Fail _ _ _ _ _ Hw). split; [cbn [snd]; lia|by exists e].
Qed.

(** Writing fails exactly on a value without a shape, and never panics. *)
Lemma write_outcome v w : outcome_like (write v w) w (shape v).
Proof.
  revert w. revert v. apply (gval_induction (λ v, ∀ w, outcome_like (write v w) w (shape v))).
  - intros v Hv w. destruct v as [b|i|b|[i|]|b|b|[v|]|vs|vs|vs| |]; try done; cbn [write writeBigIntPtr shape].
    + unfold writeUint. by repeat case_bool_decide.
    + unfold writeBigInt. case_bool_decide; [by split; [|eexists]|]. case_bool_decide; [done|].
      unfold encodeString, encodeStringHeader. destruct (big_Bytes i) as [|x [|y l]]; by repeat case_bool_decide.
    + unfold writeBytes, encodeString, encodeStringHeader. destruct b as [|x [|y l]]; by repeat case_bool_decide.
    + unfold writeString, encodeStringHeader. destruct b as [|x [|y l]]; by repeat case_bool_decide.
    + exact (proj2 (outcome_list (mret tt) w (Some [RList []]) (λ w, conj (Nat.le_refl _) eq_refl))).
  - auto.
  - intros vs IH. pose proof (λ w, outcome_elems vs w IH) as Hvs.
    split; [|split]; intros w; cbn [write shape].
    + destruct (proj1 (outcome_list (for_each write vs) w (mapM shape vs) Hvs)) as [Hl Ho]. split; [done|].
      by destruct (mapM shape vs).
    + destruct (Hvs w) as [Hl Ho]. split; [done|]. by destruct (mapM shape vs).
    + destruct (proj2 (outcome_list (for_each write vs) w (mapM shape vs) Hvs)) as [Hl Ho]. split; [done|].
      by destruct (mapM shape vs).
Qed.

Lemma EncodeToBytes_enc v rs :
  gval_ok v → shape v = Some rs → len (concat (map enc rs)) < 2 ^ 64 →
  EncodeToBytes v = Ret (concat (map enc rs)).
Proof.
  intros Hok Hs Hlen. unfold EncodeToBytes. destruct (write_spec v rs Hok Hs Hlen empty_buf) as (sd & hs & Hw & Hp & He).
  cbn [str lheads lhsize empty_buf app] in *. rewrite Hw. set (e := concat (map enc rs)) in *.
  assert (buf_size (mkBuf sd hs (0 + (len e - len sd))) = len e) as Hsize
    by (unfold buf_size; cbn [str lhsize]; lia).
  unfold toBytes. rewrite Hsize. cbn [str lheads].
  pose proof (to_bytes_weave [] sd hs [] (replicate (Z.to_nat (len e)) 0) Hp) as Hb.
  change (len (@nil Z)) with 0 in *. cbn [app] in Hb. rewrite He in Hb.
  assert (len (replicate (Z.to_nat (len e)) 0) = len e) as Hrep
    by (unfold len; rewrite length_replicate; lia).
  specialize (Hb Hrep). destruct (to_bytes_loop _ _ _ _ _) as [[[out1 strpos] pos]| | |]; try done.
  destruct (slice_from sd strpos); try done. by rewrite Hb.
Qed.

Lemma Encode_enc v rs out :
  gval_ok v → shape v = Some rs → len (concat (map enc rs)) < 2 ^ 64 →
  Encode v out = Ret (out ++ concat (map enc rs)).
Proof.
  intros Hok Hs Hlen. unfold Encode. destruct (write_spec v rs Hok Hs Hlen empty_buf) as (sd & hs & Hw & Hp & He).
  cbn [str lheads lhsize empty_buf app] in *. rewrite Hw. set (e := concat (map enc rs)) in *.
  unfold toWriter. cbn [str lheads]. pose proof (to_writer_weave [] sd hs out Hp) as Hb.
  change (len (@nil Z)) with 0 in *. cbn [app] in Hb. rewrite He in Hb.
  destruct (to_writer_loop _ _ _ _) as [[out1 strpos]| | |]; try done.
  destruct Hb as (data & -> & Hd & Hor). case_bool_decide; [by rewrite Hd|].
  destruct Hor as [?| ->]; [done|]. by rewrite app_nil_r in Hd; subst.
Qed.
