(* ===== verification/RlpReader.v ===== *)
(** The reader of [common/rlp/encode.go], which hands the encoding out piece by piece, and the
    correctness of the encoder. *)
From S2P Require Import Prelude Bytes HexKeys Rlp.
Open Scope Z_scope.

(** [rbuf] is [None] and [piece] is [None] where the code has [nil]. *)
Record encReader := mkReader {
  rbuf : option encbuf; lhpos : Z; strpos : Z; piece : option bytes }.

Definition R (A : Type) : Type := M encReader A.

Definition EncodeToReader (v : gval) : outcome (Z * encReader) :=
  match write v empty_buf with
  | (Ret _, w) => Ret (buf_size w, mkReader (Some w) 0 0 None)
  | (Fail e, _) => Fail e | (Panic p, _) => Panic p | (OutOfFuel, _) => OutOfFuel
  end.

(** The next piece of data, [None] at the end. *)
Definition next : R (option bytes) :=
  r ← get;
  match rbuf r with
  | None => mret None
  | Some w =>
    match piece r with
    | Some p => mret (Some p)
    | None =>
      if bool_decide (lhpos r < len (lheads w)) then
        head ← lift (index (lheads w) (lhpos r));
        if bool_decide (0 < offset head - strpos r) then
          p ← lift (slice (str w) (strpos r) (offset head));
          modify (λ r, mkReader (rbuf r) (lhpos r) (offset head) (piece r)) ;;
          mret (Some p)
        else
          modify (λ r, mkReader (rbuf r) (lhpos r + 1) (strpos r) (piece r)) ;;
          mret (Some (head_encode head))
      else if bool_decide (strpos r < len (str w)) then
        p ← lift (slice_from (str w) (strpos r));
        modify (λ r, mkReader (rbuf r) (lhpos r) (len (str w)) (piece r)) ;;
        mret (Some p)
      else mret None
    end
  end.

Definition set_piece (p : option bytes) : R unit :=
  modify (λ r, mkReader (rbuf r) (lhpos r) (strpos r) p).

(** [Read] into a buffer with room for [n] more bytes; [true] is [io.EOF]. *)
Fixpoint read_loop (fuel : nat) (n : Z) (acc : bytes) : R (bytes * bool) :=
  match fuel with
  | O => out_of_fuel
  | S f =>
    p ← next;
    set_piece p ;;
    match p with
    | None =>
      modify (λ r, mkReader None (lhpos r) (strpos r) (piece r)) ;;
      mret (acc, true)
    | Some p =>
      let nn := Z.min n (len p) in
      let acc := acc ++ take (Z.to_nat nn) p in
      if bool_decide (nn < len p) then
        set_piece (Some (drop (Z.to_nat nn) p)) ;;
        mret (acc, false)
      else
        set_piece None ;;
        read_loop f (n - nn) acc
    end
  end.

(** Each header and the strings around it are pieces. *)
Definition pieces (r : encReader) : nat :=
  match rbuf r with Some w => 2 * length (lheads w) + 3 | None => 1 end.

Definition Read (n : Z) : R (bytes * bool) := λ r, read_loop (pieces r) n [] r.

(** ** What is left to read *)
Definition left_of (r : encReader) : bytes :=
  match rbuf r with
  | None => []
  | Some w => default [] (piece r) ++
              weave (strpos r) (drop (Z.to_nat (strpos r)) (str w)) (drop (Z.to_nat (lhpos r)) (lheads w))
  end.

Definition reader_ok (r : encReader) : Prop :=
  match rbuf r with
  | None => True
  | Some w => 0 ≤ lhpos r ≤ len (lheads w) ∧ 0 ≤ strpos r ≤ len (str w) ∧ piece r ≠ Some [] ∧
              placed (strpos r) (drop (Z.to_nat (strpos r)) (str w)) (drop (Z.to_nat (lhpos r)) (lheads w))
  end.

(** How many more pieces there can be: a header, the string before it if it is still to come,
    and the string at the end. *)
Definition todo (r : encReader) : nat :=
  match rbuf r with
  | None => 0
  | Some w => (match piece r with Some _ => 1 | None => 0 end) +
              2 * (length (lheads w) - Z.to_nat (lhpos r)) -
              (match lheads w !! Z.to_nat (lhpos r) with
               | Some h => if bool_decide (offset h = strpos r) then 1 else 0 | None => 0 end) +
              (if bool_decide (strpos r < len (str w)) then 1 else 0)
  end.

Definition no_piece (r : encReader) : encReader := mkReader (rbuf r) (lhpos r) (strpos r) None.

Lemma head_encode_nonempty h : head_encode h ≠ [].
Proof. unfold head_encode, puthead. by case_bool_decide. Qed.

Lemma drop_lookup {A} (l : list A) n x : l !! n = Some x → drop n l = x :: drop (S n) l.
Proof. by apply drop_S. Qed.

Lemma next_head w lh sp :
  reader_ok (mkReader (Some w) lh sp None) → lh < len (lheads w) →
  ∃ p r, next (mkReader (Some w) lh sp None) = (Ret (Some p), r) ∧ p ≠ [] ∧ rbuf r = Some w ∧ reader_ok (no_piece r) ∧
    left_of (mkReader (Some w) lh sp None) = p ++ left_of (no_piece r) ∧
    (todo (no_piece r) < todo (mkReader (Some w) lh sp None))%nat.
Proof.
  intros (Hlh & Hsp & _ & Hp) Hlt. cbn [rbuf lhpos strpos piece] in *.
  destruct (lookup_lt_is_Some_2 (lheads w) (Z.to_nat lh)) as [h Hh]; [unfold len in Hlt; lia|].
  unfold next. unfold get at 1, mbind at 1, M_bind at 1. cbn [rbuf piece lhpos strpos].
  rewrite bool_decide_eq_true_2 by done. unfold index. rewrite decide_True by lia. rewrite Hh.
  unfold lift, mbind, M_bind. rewrite (drop_lookup _ _ _ Hh) in Hp. cbn [placed] in Hp. destruct Hp as [Ho Hp].
  rewrite len_drop in Ho by lia. assert (lh + 1 = Z.of_nat (S (Z.to_nat lh))) as Hnext by lia.
  case_bool_decide as H0.
  - unfold slice. rewrite bool_decide_eq_true_2 by lia. eexists _, _. split; [done|].
    set (p := take (Z.to_nat (offset h - sp)) (drop (Z.to_nat sp) (str w))).
    assert (len p = offset h - sp) as Hlp by (apply len_take; rewrite len_drop by lia; lia).
    split; [intros Hnil; rewrite Hnil in Hlp; change (len []) with 0 in Hlp; lia|]. split; [done|].
    assert (drop (Z.to_nat (offset h)) (str w) = drop (Z.to_nat (offset h - sp)) (drop (Z.to_nat sp) (str w))) as Hd
      by (rewrite drop_drop; f_equal; lia).
    unfold no_piece, left_of, todo, reader_ok. cbn [rbuf lhpos strpos piece modify]. rewrite (drop_lookup _ _ _ Hh), Hd, Hh.
    cbn [weave placed default app]. rewrite Z.sub_diag. change (Z.to_nat 0) with 0%nat. rewrite drop_0. split; [|split].
    + repeat split; try lia; try done. pose proof (len_nonneg (drop (Z.to_nat (offset h - sp)) (drop (Z.to_nat sp) (str w)))). lia.
    + cbn [take app]. done.
    + rewrite (bool_decide_eq_true_2 (offset h = offset h)) by done. rewrite (bool_decide_eq_false_2 (offset h = sp)) by lia.
      rewrite (bool_decide_eq_true_2 (sp < len (str w))) by lia. unfold len in Hlt. case_bool_decide; lia.
  - assert (offset h = sp) as Hoff by lia. eexists _, _. split; [done|]. split; [apply head_encode_nonempty|]. split; [done|].
    rewrite Hoff, Z.sub_diag in Hp. change (Z.to_nat 0) with 0%nat in Hp. rewrite drop_0 in Hp.
    unfold no_piece, left_of, todo, reader_ok. cbn [rbuf lhpos strpos piece modify].
    rewrite (drop_lookup _ _ _ Hh), Hnext, Nat2Z.id, Hh. cbn [weave default app]. rewrite Hoff, Z.sub_diag.
    change (Z.to_nat 0) with 0%nat. rewrite drop_0. split; [|split].
    + unfold len in *. repeat split; try lia; done.
    + cbn [take app]. by rewrite <-app_assoc || done.
    + rewrite (bool_decide_eq_true_2 (sp = sp)) by done. unfold len in Hlt. repeat case_match; lia.
Qed.

Lemma next_spec r :
  reader_ok r →
  (next r = (Ret None, r) ∧ left_of r = []) ∨
  (∃ p r', next r = (Ret (Some p), r') ∧ p ≠ [] ∧ rbuf r ≠ None ∧ rbuf r' = rbuf r ∧ reader_ok (no_piece r') ∧
     left_of r = p ++ left_of (no_piece r') ∧ (todo (no_piece r') < todo r)%nat).
Proof.
  destruct r as [[w|] lh sp pc]; [|by left]. intros Hok. destruct pc as [p|].
  { right. exists p, (mkReader (Some w) lh sp (Some p)). destruct Hok as (H1 & H2 & H3 & H4). split; [done|].
    split; [naive_solver|]. split; [done|]. split; [done|]. split; [done|]. split; [done|].
    unfold no_piece, todo. cbn [rbuf lhpos strpos piece] in *. unfold len in H1. 
    destruct (lheads w !! Z.to_nat lh) as [h|] eqn:Hh; [apply lookup_lt_Some in Hh|]; repeat case_bool_decide; lia. }
  destruct (decide (lh < len (lheads w))) as [Hlt|Hge].
  { right. destruct (next_head w lh sp Hok Hlt) as (p & r' & Hn & Hne & Hb & Hr & Hl & Ht). exists p, r'. eauto 10. }
  destruct Hok as (H1 & H2 & H3 & H4). cbn [rbuf lhpos strpos piece] in *.
  assert (drop (Z.to_nat lh) (lheads w) = []) as Hdr by (apply drop_ge; unfold len in Hge; lia).
  assert (lheads w !! Z.to_nat lh = None) as Hlk by (apply lookup_ge_None_2; unfold len in Hge; lia).
  assert (next (mkReader (Some w) lh sp None) =
    if bool_decide (sp < len (str w)) then (Ret (Some (drop (Z.to_nat sp) (str w))), mkReader (Some w) lh (len (str w)) None)
    else (Ret None, mkReader (Some w) lh sp None)) as Hnx.
  { unfold next. unfold get at 1, mbind at 1, M_bind at 1. cbn [rbuf piece lhpos strpos].
    rewrite bool_decide_eq_false_2 by done. case_bool_decide; [|done]. unfold slice_from. by rewrite decide_True by (unfold len in *; lia). }
  rewrite Hnx. unfold left_of, todo, reader_ok, no_piece. cbn [rbuf lhpos strpos piece default app].
  rewrite Hdr, Hlk. cbn [weave]. case_bool_decide as Hs.
  - right. eexists _, _. split; [done|]. cbn [rbuf lhpos strpos piece default app]. rewrite Hdr, Hlk. cbn [weave placed].
    unfold len in *. rewrite Nat2Z.id, drop_all. split_and!; try done; try lia.
    + intros Hn. apply (f_equal length) in Hn. rewrite length_drop in Hn. simpl in Hn. lia.
    + by rewrite app_nil_r.
    + rewrite (bool_decide_eq_false_2 (Z.of_nat _ < Z.of_nat _)) by lia. lia.
  - left. split; [done|]. apply drop_ge. unfold len in Hs. lia.
Qed.

Lemma read_loop_spec fuel n acc r :
  reader_ok r → 0 ≤ n → (todo r < fuel)%nat →
  ∃ r', read_loop fuel n acc r
      = (Ret (acc ++ take (Z.to_nat n) (left_of r), bool_decide (len (left_of r) ≤ n)), r') ∧
    reader_ok r' ∧ left_of r' = drop (Z.to_nat n) (left_of r).
Proof.
  revert n acc r. induction fuel as [|fuel IH]; intros n acc r Hok Hn Hf; [lia|]. cbn [read_loop].
  destruct (next_spec r Hok) as [[Hnx Hl]|(p & r' & Hnx & Hne & Hb & Hb' & Hok' & Hl & Ht)];
    rewrite (run_bind_Ret _ _ _ _ _ Hnx); unfold set_piece, modify, mbind, M_bind; cbn beta iota.
  - rewrite Hl, take_nil, drop_nil, app_nil_r. rewrite bool_decide_eq_true_2 by done. by eexists.
  - rewrite Hl. cbn [rbuf lhpos strpos piece]. case_bool_decide as Hfit.
    + assert (n < len p) as Hnp by lia. rewrite Z.min_l by lia. eexists. split.
      * rewrite bool_decide_eq_false_2 by (rewrite len_app; pose proof (len_nonneg (left_of (no_piece r'))); lia).
        rewrite take_app_le by (unfold len in Hnp; lia). done.
      * rewrite drop_app_le by (unfold len in Hnp; lia). destruct r' as [[w|] lh sp pc]; cbn [rbuf] in *; [|congruence].
        unfold reader_ok, left_of, no_piece in *. cbn [rbuf lhpos strpos piece default] in *.
        destruct Hok' as (H1 & H2 & _ & H4). split; [|done]. repeat split; try lia; [|done].
        intros [= Hd]. apply (f_equal length) in Hd. rewrite length_drop in Hd. unfold len in Hnp. simpl in Hd. lia.
    + assert (len p ≤ n) as Hnp by lia. rewrite Z.min_r by lia. fold (no_piece r').
      destruct (IH (n - len p) (acc ++ p) (no_piece r') Hok' ltac:(lia) ltac:(lia)) as (r'' & Hr & Hok'' & Hl'').
      exists r''. assert (Z.to_nat n = (length p + Z.to_nat (n - len p))%nat) as Hnn by (unfold len in *; lia).
      rewrite take_ge by (unfold len; lia). change (mkReader _ _ _ None) with (no_piece r'). rewrite Hr. split.
      * rewrite Hnn, take_app_add, <-app_assoc. repeat f_equal. rewrite len_app. apply bool_decide_ext. lia.
      * split; [done|]. by rewrite Hl'', Hnn, drop_app_add.
Qed.

(** Successive reads with buffers of the given sizes. *)
Fixpoint reads (ns : list Z) : R (list (bytes * bool)) :=
  match ns with
  | [] => mret []
  | n :: ns' => x ← Read n; xs ← reads ns'; mret (x :: xs)
  end.

(** The chunks a stream of bytes is cut into. *)
Fixpoint chunks (ns : list Z) (e : bytes) : list (bytes * bool) :=
  match ns with
  | [] => []
  | n :: ns' => (take (Z.to_nat n) e, bool_decide (len e ≤ n)) :: chunks ns' (drop (Z.to_nat n) e)
  end.

Lemma todo_pieces r : (todo r < pieces r)%nat.
Proof. unfold todo, pieces. destruct (rbuf r) as [w|]; [|lia]. destruct (piece r); case_bool_decide; lia. Qed.

Lemma reads_spec ns r :
  reader_ok r → Forall (λ n, 0 ≤ n) ns →
  ∃ r', reads ns r = (Ret (chunks ns (left_of r)), r').
Proof.
  revert r. induction ns as [|n ns IH]; intros r Hok Hns; [by eexists|]. apply Forall_cons in Hns as [Hn Hns].
  destruct (read_loop_spec (pieces r) n [] r Hok Hn (todo_pieces r)) as (r1 & Hr & Hok1 & Hl1).
  destruct (IH r1 Hok1 Hns) as (r2 & Hr2). exists r2. cbn [reads chunks].
  rewrite (run_bind_Ret (Read n) _ _ _ _ Hr), (run_bind_Ret _ _ _ _ _ Hr2). by rewrite Hl1.
Qed.

(** C35: the encoder, with its headers recorded aside and put in at the end, gives exactly the
    textbook encoding of the value, as bytes, to a writer and through a reader with buffers of
    any sizes; the size computed in advance is the size of the result, so no byte of the output
    is cut off or left unset.  A value that holds a negative number, and no other, is refused. *)
Theorem encoder_equals_reference v out ns :
  gval_ok v → Forall (λ n, 0 ≤ n) ns →
  match shape v with
  | Some rs =>
    let e := concat (map enc rs) in
    len e < 2 ^ 64 →
    EncodeToBytes v = Ret e ∧
    Encode v out = Ret (out ++ e) ∧
    (∃ r r', EncodeToReader v = Ret (len e, r) ∧ reads ns r = (Ret (chunks ns e), r'))
  | None => ∃ err, EncodeToBytes v = Fail err
  end.
Proof.
  intros Hok Hns. pose proof (write_outcome v empty_buf) as [_ Ho].
  destruct (shape v) as [rs|] eqn:Hs.
  - intros e Hlen. split; [by apply EncodeToBytes_enc|]. split; [by apply Encode_enc|]. unfold EncodeToReader.
    destruct (write_spec v rs Hok Hs Hlen empty_buf) as (sd & hs & Hw & Hp & He).
    cbn [str lheads lhsize empty_buf app] in *. rewrite Hw. fold e in Hw, He.
    change (len []) with 0 in *. set (w := mkBuf sd hs _). set (r := mkReader (Some w) 0 0 None).
    assert (left_of r = e) as Hl by done. assert (reader_ok r) as Hr.
    { repeat split; try done; apply len_nonneg. }
    destruct (reads_spec ns r Hr Hns) as (r' & Hrd). rewrite Hl in Hrd. exists r, r'. split; [|done].
    unfold w, buf_size. cbn [str lhsize]. repeat f_equal. fold e. lia.
  - unfold EncodeToBytes. destruct Ho as [e He]. destruct (write v empty_buf) as [o w]. cbn [fst] in He. subst o. by exists e.
Qed.

Lemma encoder_equals_reference_witness :
  EncodeToBytes (GStruct [GUint 1024; GSlice [GBytes [1; 2]; GBool true]; GIface None])
    = Ret [201; 130; 4; 0; 196; 130; 1; 2; 1; 192] ∧
  ∃ e, EncodeToBytes (GSlice [GBigInt (Some (-1))]) = Fail e.
Proof.
  split.
  - apply (encoder_equals_reference (GStruct [GUint 1024; GSlice [GBytes [1; 2]; GBool true]; GIface None]) [] [3; 4]);
      [repeat split; lia|repeat constructor; lia|vm_compute; reflexivity].
  - apply (encoder_equals_reference (GSlice [GBigInt (Some (-1))]) [] []); [by split|constructor].
Defined.
