(* ===== verification/RlpRaw.v ===== *)
(** [common/rlp/raw.go]: splitting encoded values without decoding them. *)
From S2P Require Import Prelude Bytes HexKeys Rlp.
Open Scope Z_scope.

Inductive Kind := Byte | String_ | List_.

#[export] Instance Kind_eq_dec : EqDecision Kind.
Proof. solve_decision. Defined.

Definition ErrUnexpectedEOF : gerror := LibErr "unexpected EOF".
Definition ErrExpectedString : gerror := Errorf "rlp: expected String or Byte".
Definition ErrExpectedList : gerror := Errorf "rlp: expected List".
Definition ErrCanonSize : gerror := Errorf "rlp: non-canonical size information".
Definition ErrValueTooLarge : gerror := Errorf "rlp: value size exceeds available input length".

(** [uint64(b[0])<<8(n-1) | ... | uint64(b[n-1])] *)
Fixpoint be_or (b : bytes) : Z :=
  match b with
  | [] => 0
  | [x] => x
  | x :: b' => Z.lor (Z.shiftl x (8 * len b')) (be_or b')
  end.

(** [slen] is between 1 and 8. *)
Definition readSize (b : bytes) (slen : Z) : outcome Z :=
  if bool_decide (len b < slen) then Fail ErrUnexpectedEOF
  else
    let s := be_or (take (Z.to_nat slen) b) in
    b0 ← index b 0;
    if bool_decide (s < 56 ∨ b0 = 0) then Fail ErrCanonSize else Ret s.

(** kind, tag size, content size *)
Definition readKind (buf : bytes) : outcome (Kind * Z * Z) :=
  match buf with
  | [] => Fail ErrUnexpectedEOF
  | b :: rest =>
    r ← (if bool_decide (b < 128) then Ret (Byte, 0, 1)
         else if bool_decide (b < 184) then
           let contentsize := b - 128 in
           if bool_decide (contentsize = 1) then
             b1 ← index buf 1;
             if bool_decide (b1 < 128) then Fail ErrCanonSize else Ret (String_, 1, contentsize)
           else Ret (String_, 1, contentsize)
         else if bool_decide (b < 192) then
           c ← readSize rest (b - 183); Ret (String_, b - 183 + 1, c)
         else if bool_decide (b < 248) then Ret (List_, 1, b - 192)
         else c ← readSize rest (b - 247); Ret (List_, b - 247 + 1, c));
    let '(k, tagsize, contentsize) := r in
    if bool_decide ((len buf - tagsize) mod 2 ^ 64 < contentsize) then Fail ErrValueTooLarge
    else Ret (k, tagsize, contentsize)
  end.

Definition Split (b : bytes) : outcome (Kind * bytes * bytes) :=
  r ← readKind b;
  let '(k, ts, cs) := r in
  content ← slice b ts ((ts + cs) mod 2 ^ 64);
  rest ← slice_from b ((ts + cs) mod 2 ^ 64);
  Ret (k, content, rest).

Definition SplitString (b : bytes) : outcome (bytes * bytes) :=
  r ← Split b;
  let '(k, content, rest) := r in
  if decide (k = List_) then Fail ErrExpectedString else Ret (content, rest).

Definition SplitList (b : bytes) : outcome (bytes * bytes) :=
  r ← Split b;
  let '(k, content, rest) := r in
  if decide (k ≠ List_) then Fail ErrExpectedList else Ret (content, rest).

(** Each value takes at least one byte. *)
Fixpoint count_values (fuel : nat) (i : Z) (b : bytes) : outcome Z :=
  match b with
  | [] => Ret i
  | _ =>
    match fuel with
    | O => OutOfFuel
    | S f =>
      r ← readKind b;
      let '(_, tagsize, size) := r in
      b' ← slice_from b ((tagsize + size) mod 2 ^ 64);
      count_values f (i + 1) b'
    end
  end.
Definition CountValues (b : bytes) : outcome Z := count_values (length b) 0 b.

(** ** Facts *)
Lemma be_or_cons x y b : be_or (x :: y :: b) = Z.lor (Z.shiftl x (8 * len (y :: b))) (be_or (y :: b)).
Proof. done. Qed.

Lemma lor_shift_add x t k : 0 ≤ k → 0 ≤ t < 2 ^ k → Z.lor (Z.shiftl x k) t = x * 2 ^ k + t.
Proof.
  intros Hk Ht. pose proof (Z.add_lor_land (Z.shiftl x k) t) as Hadd.
  assert (Z.land (Z.shiftl x k) t = 0) as H0.
  { apply Z.bits_inj'. intros n Hn. rewrite Z.land_spec, Z.bits_0.
    destruct (decide (n < k)) as [Hlt|Hge].
    - by rewrite Z.shiftl_spec_low.
    - rewrite <-(Z.mod_small t (2 ^ k)) by done. rewrite Z.mod_pow2_bits_high by lia. apply andb_false_r. }
  rewrite Z.shiftl_mul_pow2 in * by done. lia.
Qed.

Lemma be_or_val b : is_bytes b → be_or b = be_val b.
Proof.
  induction 1 as [|x b Hx Hb IH]; [done|]. destruct b as [|y b].
  - change (x = x * 1 + 0). lia.
  - rewrite be_or_cons, IH. change (be_val (x :: y :: b)) with (x * 256 ^ len (y :: b) + be_val (y :: b)).
    pose proof (be_val_bound (y :: b) Hb) as Hbound. pose proof (len_nonneg (y :: b)).
    assert (256 ^ len (y :: b) = 2 ^ (8 * len (y :: b))) as Hp by (change 256 with (2 ^ 8); by rewrite <-Z.pow_mul_r by lia).
    rewrite Hp in *. rewrite lor_shift_add by (done || lia). done.
Qed.

(** The size read back. *)
Lemma readSize_put size rest :
  56 ≤ size < 2 ^ 64 → readSize (putint size ++ rest) (len (putint size)) = Ret size.
Proof.
  intros Hs. unfold readSize. rewrite len_app. pose proof (len_nonneg rest).
  rewrite bool_decide_eq_false_2 by lia. unfold len. rewrite Nat2Z.id, take_app_length.
  destruct (intsize_spec size) as (Hq1 & Hq2 & Hq3); [lia|].
  rewrite putint_spec by lia. rewrite be_or_val by apply be_bytes_ok. rewrite be_val_bytes by lia.
  rewrite Z2Nat.id by lia. rewrite Z.mod_small by lia.
  destruct (Z.to_nat (intsize size)) as [|n] eqn:Hn; [lia|]. cbn [be_bytes app].
  unfold index. rewrite decide_True by lia. change (Z.to_nat 0) with 0%nat. cbn [lookup list_lookup mbind outcome_bind].
  rewrite bool_decide_eq_false_2; [done|]. intros [?|H0]; [lia|].
  rewrite Z.shiftr_div_pow2 in H0 by lia.
  assert (intsize size = Z.of_nat (S n)) as Hsz by lia. rewrite Hsz in *.
  assert (2 ^ (8 * Z.of_nat n) = 256 ^ Z.of_nat n) as Hp by (change 256 with (2 ^ 8); by rewrite <-Z.pow_mul_r by lia).
  rewrite Hp in H0. rewrite Nat2Z.inj_succ, Z.pow_succ_r in Hq2 by lia.
  assert (0 < 256 ^ Z.of_nat n) by (apply Z.pow_pos_nonneg; lia).
  assert (size / 256 ^ Z.of_nat n < 256) by (apply Z.div_lt_upper_bound; lia).
  rewrite Z.mod_small in H0 by (split; [apply Z.div_pos; lia|done]).
  apply Z.div_small_iff in H0; [|lia]. destruct (decide (n = 0%nat)) as [->|Hn0].
  - change (256 ^ Z.of_nat 0) with 1 in H0. lia.
  - specialize (Hq3 ltac:(lia)). replace (Z.of_nat (S n) - 1) with (Z.of_nat n) in Hq3 by lia. lia.
Qed.

(** ** Canonical items *)
Definition header (k : Kind) (size : Z) : bytes :=
  match k with Byte => [] | String_ => puthead 128 183 size | List_ => puthead 192 247 size end.

(** A byte below 128 is [Byte], any other string is [String_]. *)
Definition is_small (c : bytes) : bool :=
  match c with [x] => bool_decide (x < 128) | _ => false end.
Definition well_kinded (k : Kind) (c : bytes) : bool :=
  match k with Byte => is_small c | String_ => negb (is_small c) | List_ => true end.

Definition item (k : Kind) (c : bytes) : bytes := header k (len c) ++ c.

Definition str_kind (b : bytes) : Kind := if is_small b then Byte else String_.

Lemma enc_str_item b : enc_str b = item (str_kind b) b ∧ well_kinded (str_kind b) b = true.
Proof.
  unfold str_kind, item. destruct b as [|x [|y b]]; [done| |done]. cbn [is_small enc_str].
  do 2 case_bool_decide; (lia || done || idtac).
  - split; [done|]. cbn. by rewrite bool_decide_eq_true_2.
  - split; [done|]. cbn. by rewrite bool_decide_eq_false_2.
Qed.

Lemma enc_list_item vs : enc (RList vs) = item List_ (concat (map enc vs)).
Proof. done. Qed.

(** The header of a string or a list, small or large. *)
Lemma puthead_cases small large size :
  0 ≤ size < 2 ^ 64 → small + 55 < 256 → large + 8 < 256 → 0 ≤ small → 0 ≤ large →
  (size < 56 ∧ puthead small large size = [small + size]) ∨
  (56 ≤ size ∧ puthead small large size = large + intsize size :: putint size ∧ 1 ≤ intsize size ≤ 8).
Proof.
  intros Hs Ha Hb Ha0 Hb0. unfold puthead. case_bool_decide as H0.
  - left. by rewrite Z.mod_small by lia.
  - right. pose proof (intsize_spec size ltac:(lia)). pose proof (intsize_le_8 size Hs).
    rewrite len_putint, Z.mod_small by lia. repeat split; lia || done.
Qed.

(** [readKind] reads the tag, then checks that the content is there. *)
Definition tag_of (b : Z) (rest : bytes) : outcome (Kind * Z * Z) :=
  if bool_decide (b < 128) then Ret (Byte, 0, 1)
  else if bool_decide (b < 184) then
    if bool_decide (b - 128 = 1) then
      b1 ← index (b :: rest) 1;
      if bool_decide (b1 < 128) then Fail ErrCanonSize else Ret (String_, 1, b - 128)
    else Ret (String_, 1, b - 128)
  else if bool_decide (b < 192) then
    c ← readSize rest (b - 183); Ret (String_, b - 183 + 1, c)
  else if bool_decide (b < 248) then Ret (List_, 1, b - 192)
  else c ← readSize rest (b - 247); Ret (List_, b - 247 + 1, c).

Definition fits (n : Z) (r : Kind * Z * Z) : outcome (Kind * Z * Z) :=
  let '(k, tagsize, contentsize) := r in
  if bool_decide ((n - tagsize) mod 2 ^ 64 < contentsize) then Fail ErrValueTooLarge
  else Ret (k, tagsize, contentsize).

Lemma readKind_cons b rest : readKind (b :: rest) = tag_of b rest ≫= fits (len (b :: rest)).
Proof. done. Qed.

Lemma fits_ok n k ts cs : 0 ≤ n - ts < 2 ^ 64 → fits n (k, ts, cs) = (if bool_decide (n - ts < cs) then Fail ErrValueTooLarge else Ret (k, ts, cs)).
Proof. intros Hn. unfold fits. by rewrite Z.mod_small. Qed.

Lemma index_1 (a x : Z) l : index (a :: x :: l) 1 = Ret x.
Proof. done. Qed.

Lemma tag_of_item k c rest :
  well_kinded k c = true → len c < 2 ^ 63 →
  ∃ b r, item k c ++ rest = b :: r ∧ tag_of b r = Ret (k, len (header k (len c)), len c).
Proof.
  intros Hk Hlen. unfold item. pose proof (len_nonneg c).
  assert (∀ x (l : bytes), len (x :: l) = len l + 1) as Hcons by (intros; unfold len; simpl; lia).
  destruct k; cbn [header].
  - destruct c as [|x [|y c]]; try done. exists x, rest. split; [done|]. unfold tag_of.
    cbn [well_kinded is_small] in Hk. by rewrite Hk.
  - destruct (puthead_cases 128 183 (len c)) as [[Hs Hp]|(Hs & Hp & Hi)]; try lia; rewrite Hp;
      eexists _, ((_ ++ c) ++ rest); (split; [reflexivity|]); unfold tag_of.
    + rewrite bool_decide_eq_false_2 by lia. rewrite bool_decide_eq_true_2 by lia.
      replace (128 + len c - 128) with (len c) by lia. case_bool_decide as H1; [|done].
      destruct c as [|x [|y c]]; [done| |unfold len in H1; simpl in H1; lia].
      cbn [app]. rewrite index_1. cbn [mbind outcome_bind].
      cbn [well_kinded is_small] in Hk. apply negb_true_iff in Hk. by rewrite Hk.
    + rewrite !bool_decide_eq_false_2 by lia. rewrite bool_decide_eq_true_2 by lia. rewrite <-app_assoc.
      replace (183 + intsize (len c) - 183) with (len (putint (len c))) by (rewrite len_putint; lia).
      rewrite readSize_put by lia. cbn [mbind outcome_bind]. by rewrite Hcons.
  - destruct (puthead_cases 192 247 (len c)) as [[Hs Hp]|(Hs & Hp & Hi)]; try lia; rewrite Hp;
      eexists _, ((_ ++ c) ++ rest); (split; [reflexivity|]); unfold tag_of.
    + rewrite !bool_decide_eq_false_2 by lia. rewrite bool_decide_eq_true_2 by lia. do 2 f_equal. lia.
    + rewrite !bool_decide_eq_false_2 by lia. rewrite <-app_assoc.
      replace (247 + intsize (len c) - 247) with (len (putint (len c))) by (rewrite len_putint; lia).
      rewrite readSize_put by lia. cbn [mbind outcome_bind]. by rewrite Hcons.
Qed.

Lemma readKind_item k c rest :
  well_kinded k c = true → len (item k c ++ rest) < 2 ^ 63 →
  readKind (item k c ++ rest) = Ret (k, len (header k (len c)), len c).
Proof.
  intros Hk Hlen. pose proof (len_nonneg c). pose proof (len_nonneg rest).
  pose proof (len_nonneg (header k (len c))).
  assert (len (item k c ++ rest) = len (header k (len c)) + len c + len rest) as Hl
    by (unfold item; rewrite !len_app; lia).
  destruct (tag_of_item k c rest) as (b & r & Hb & Ht); [done..|lia|]. rewrite Hb in *.
  rewrite readKind_cons, Ht. cbn [mbind outcome_bind]. rewrite fits_ok by lia.
  by rewrite bool_decide_eq_false_2 by lia.
Qed.

(** ** The converse *)
Lemma be_val_inj a b :
  is_bytes a → is_bytes b → length a = length b → be_val a = be_val b → a = b.
Proof.
  intros Ha. revert b. induction Ha as [|x a Hx Ha IH]; intros [|y b] Hb Hl Hv; try done.
  apply Forall_cons in Hb as [Hy Hb]. cbn [length] in Hl. injection Hl as Hl. cbn [be_val] in Hv.
  pose proof (be_val_bound a Ha) as Ba. pose proof (be_val_bound b Hb) as Bb.
  unfold len in *. rewrite Hl in *. assert (x = y) as -> by nia. f_equal. apply IH; (done || lia).
Qed.

Lemma be_bytes_val b : is_bytes b → be_bytes (length b) (be_val b) = b.
Proof.
  intros Hb. apply be_val_inj; [apply be_bytes_ok|done|apply length_be_bytes|].
  pose proof (be_val_bound b Hb). rewrite be_val_bytes by lia. by apply Z.mod_small.
Qed.

(** What [readSize] accepts is what [putint] writes. *)
Lemma readSize_inv b slen s :
  is_bytes b → 1 ≤ slen ≤ 8 → readSize b slen = Ret s →
  56 ≤ s < 2 ^ 64 ∧ intsize s = slen ∧ ∃ rest, b = putint s ++ rest.
Proof.
  intros Hb Hl. unfold readSize. case_bool_decide as Hlen; [done|].
  destruct b as [|x b]; [unfold len in Hlen; simpl in Hlen; lia|].
  change (index (x :: b) 0) with (Ret x). cbn [mbind outcome_bind].
  set (n := Z.to_nat slen). assert (slen = Z.of_nat n) as Hn by lia. clearbody n. subst slen.
  assert (is_bytes (take n (x :: b))) as Ht by by apply Forall_take.
  rewrite be_or_val by done. case_bool_decide as Hc; [done|]. intros [= <-].
  assert (length (take n (x :: b)) = n) as Hln by (rewrite length_take; unfold len in Hlen; lia).
  pose proof (be_val_bound _ Ht) as Hbd. unfold len in Hbd. rewrite Hln in Hbd.
  assert (256 ^ (Z.of_nat n - 1) ≤ be_val (take n (x :: b))) as Hlow.
  { destruct n as [|n]; [lia|]. cbn [take length] in *. injection Hln as Hln. cbn [be_val].
    apply Forall_cons in Ht as [Hx Ht]. pose proof (be_val_bound _ Ht). unfold is_byte in Hx.
    unfold len in *. rewrite Hln in *. replace (Z.of_nat (S n) - 1) with (Z.of_nat n) by lia. nia. }
  assert (256 ^ Z.of_nat n ≤ 2 ^ 64) as Hmax.
  { change (2 ^ 64) with (256 ^ 8). apply Z.pow_le_mono_r; lia. }
  assert (intsize (be_val (take n (x :: b))) = Z.of_nat n) as Hi by (apply intsize_unique; lia).
  split; [lia|]. split; [done|]. exists (drop n (x :: b)).
  rewrite putint_spec by lia. rewrite Hi, Nat2Z.id. rewrite <-Hln at 1.
  rewrite be_bytes_val by done. symmetry. apply take_drop.
Qed.

Lemma puthead_large small large size :
  56 ≤ size < 2 ^ 64 → 0 ≤ large → large + 8 < 256 →
  puthead small large size = large + intsize size :: putint size.
Proof.
  intros Hs H1 H2. unfold puthead. rewrite bool_decide_eq_false_2 by lia.
  pose proof (intsize_spec size ltac:(lia)). pose proof (intsize_le_8 size ltac:(lia)).
  rewrite len_putint, Z.mod_small by lia. done.
Qed.

Lemma puthead_small small large size :
  0 ≤ size < 56 → 0 ≤ small → small + 55 < 256 → puthead small large size = [small + size].
Proof. intros Hs H1 H2. unfold puthead. rewrite bool_decide_eq_true_2 by lia. by rewrite Z.mod_small by lia. Qed.

(** What the first content byte must be for the kind. *)
Definition kinded (k : Kind) (cs : Z) (r : bytes) : Prop :=
  match k with
  | Byte => cs = 1 ∧ ∃ x r', r = x :: r' ∧ x < 128
  | String_ => cs = 1 → ∃ x r', r = x :: r' ∧ 128 ≤ x
  | List_ => True
  end.

Lemma kinded_well_kinded k cs r :
  kinded k cs r → 0 ≤ cs ≤ len r → well_kinded k (take (Z.to_nat cs) r) = true.
Proof.
  intros Hk Hcs. destruct k; cbn [kinded well_kinded] in *; [| |done].
  - destruct Hk as (-> & x & r' & -> & Hx). change (Z.to_nat 1) with 1%nat. cbn [take is_small].
    by apply bool_decide_eq_true_2.
  - apply negb_true_iff. destruct (decide (cs = 1)) as [->|Hne].
    + destruct Hk as (x & r' & -> & Hx); [done|]. change (Z.to_nat 1) with 1%nat. cbn [take is_small].
      apply bool_decide_eq_false_2. lia.
    + destruct r as [|x [|y r]]; destruct (Z.to_nat cs) as [|[|n]] eqn:Hn; try done; unfold len in Hcs; simpl in Hcs; lia.
Qed.

Lemma tag_of_inv b rest k ts cs :
  is_bytes (b :: rest) → tag_of b rest = Ret (k, ts, cs) →
  0 ≤ cs < 2 ^ 64 ∧ ts = len (header k cs) ∧ ∃ r, b :: rest = header k cs ++ r ∧ kinded k cs r.
Proof.
  intros Hb. pose proof (Forall_cons_1 _ _ _ Hb) as [Hx Hr]. unfold is_byte in Hx. unfold tag_of.
  case_bool_decide as H1; [intros [= <- <- <-]; split; [lia|]; split; [done|]; exists (b :: rest); split; [done|]; split; [done|]; by exists b, rest|].
  case_bool_decide as H2.
  { assert (∀ r, (b - 128 = 1 → ∃ x r', rest = x :: r' ∧ 128 ≤ x) → Ret (String_, 1, b - 128) = r → r = Ret (k, ts, cs) →
      0 ≤ cs < 2 ^ 64 ∧ ts = len (header k cs) ∧ ∃ r, b :: rest = header k cs ++ r ∧ kinded k cs r) as Hfin.
    { intros r Hk <- [= <- <- <-]. cbn [header kinded]. rewrite puthead_small by lia.
      split; [lia|]. split; [done|]. exists rest. split; [|done]. cbn [app]. f_equal. lia. }
    case_bool_decide as H3; [|intros; eapply Hfin; (done || lia)].
    destruct rest as [|x rest]; [done|]. rewrite index_1. cbn [mbind outcome_bind].
    case_bool_decide; [done|]. apply Hfin; [|done]. intros _. exists x, rest. split; [done|lia]. }
  case_bool_decide as H3.
  { destruct (readSize rest (b - 183)) as [s| | |] eqn:Hs; try done. cbn [mbind outcome_bind]. intros [= <- <- <-].
    apply readSize_inv in Hs as (Hs & Hi & r & ->); [|done|lia]. cbn [header kinded].
    rewrite puthead_large by lia. split; [lia|]. split; [unfold len; cbn [length]; pose proof (len_putint s) as Hlp; unfold len in Hlp; lia|].
    exists r. split; [cbn [app]; f_equal; lia|lia]. }
  case_bool_decide as H4.
  { intros [= <- <- <-]. cbn [header kinded]. rewrite puthead_small by lia. split; [lia|]. split; [done|].
    exists rest. split; [|done]. cbn [app]. f_equal. lia. }
  destruct (readSize rest (b - 247)) as [s| | |] eqn:Hs; try done. cbn [mbind outcome_bind]. intros [= <- <- <-].
  apply readSize_inv in Hs as (Hs & Hi & r & ->); [|done|lia]. cbn [header kinded].
  rewrite puthead_large by lia. split; [lia|]. split; [unfold len; cbn [length]; pose proof (len_putint s) as Hlp; unfold len in Hlp; lia|].
  exists r. split; [cbn [app]; f_equal; lia|done].
Qed.

Lemma readKind_inv buf k ts cs :
  is_bytes buf → len buf < 2 ^ 63 → readKind buf = Ret (k, ts, cs) →
  ∃ c rest, buf = item k c ++ rest ∧ well_kinded k c = true ∧ ts = len (header k (len c)) ∧ cs = len c.
Proof.
  intros Hb Hl. destruct buf as [|b buf]; [done|]. rewrite readKind_cons.
  destruct (tag_of b buf) as [[[k' ts'] cs']| | |] eqn:Ht; try done. cbn [mbind outcome_bind].
  apply tag_of_inv in Ht as (Hcs & -> & r & Hr & Hk); [|done].
  assert (len (b :: buf) = len (header k' cs') + len r) as Hlen by (rewrite Hr, len_app; done).
  pose proof (len_nonneg r). pose proof (len_nonneg (header k' cs')). rewrite fits_ok by lia.
  case_bool_decide as Hfit; [done|]. intros [= -> <- ->].
  assert (len (take (Z.to_nat cs) r) = cs) as Htk by (rewrite len_take by lia; lia).
  exists (take (Z.to_nat cs) r), (drop (Z.to_nat cs) r). rewrite Htk. split_and!; [|apply kinded_well_kinded; [done|lia]|done..].
  unfold item. rewrite Htk, Hr, <-app_assoc. by rewrite take_drop.
Qed.

Lemma Split_item k c rest :
  well_kinded k c = true → len (item k c ++ rest) < 2 ^ 63 →
  Split (item k c ++ rest) = Ret (k, c, rest).
Proof.
  intros Hk Hl. unfold Split. rewrite readKind_item by done. cbn [mbind outcome_bind].
  unfold item in *. rewrite !len_app in Hl. pose proof (len_nonneg c). pose proof (len_nonneg rest).
  pose proof (len_nonneg (header k (len c))). rewrite Z.mod_small by lia.
  rewrite <-app_assoc at 1. rewrite (slice_mid (header k (len c)) c rest) by lia. cbn [mbind outcome_bind].
  by rewrite slice_from_app by (rewrite len_app; lia).
Qed.

Lemma is_bytes_item k c rest : is_bytes (item k c ++ rest) → is_bytes c ∧ is_bytes rest.
Proof. unfold item, is_bytes. rewrite !Forall_app. naive_solver. Qed.

(** Whether [readKind] panics is decided by its tag. *)
Lemma readKind_panic buf m : readKind buf = Panic m → buf = [129].
Proof.
  destruct buf as [|b buf]; [done|]. rewrite readKind_cons.
  assert (∀ r, fits (len (b :: buf)) r ≠ Panic m) as Hf.
  { intros [[k ts] cs]. unfold fits. by case_bool_decide. }
  assert (∀ l n, 1 ≤ n → readSize l n ≠ Panic m) as Hrs.
  { intros l n Hn. unfold readSize. case_bool_decide as Hl; [done|].
    destruct l as [|x l]; [unfold len in Hl; simpl in Hl; lia|].
    change (index (x :: l) 0) with (Ret x). cbn [mbind outcome_bind]. by case_bool_decide. }
  destruct (tag_of b buf) as [r| | |] eqn:Ht; cbn [mbind outcome_bind]; [by intros ?%Hf|done| |done].
  intros [= ->]. unfold tag_of in Ht. case_bool_decide; [done|]. case_bool_decide.
  - case_bool_decide as H1; [|done]. destruct buf as [|x buf]; [f_equal; lia|].
    rewrite index_1 in Ht. cbn [mbind outcome_bind] in Ht. by case_bool_decide.
  - case_bool_decide; [|case_bool_decide; [done|]].
    + specialize (Hrs buf (b - 183) ltac:(lia)). destruct (readSize buf (b - 183)); cbn in Ht; congruence.
    + specialize (Hrs buf (b - 247) ltac:(lia)). destruct (readSize buf (b - 247)); cbn in Ht; congruence.
Qed.

Lemma Split_canonical buf k c rest :
  is_bytes buf → len buf < 2 ^ 63 →
  Split buf = Ret (k, c, rest) ↔ buf = item k c ++ rest ∧ well_kinded k c = true.
Proof.
  intros Hb Hl. split.
  - intros Hs. destruct (readKind buf) as [[[k' ts] cs]| | |] eqn:Hk; unfold Split in Hs; rewrite Hk in Hs; try done.
    apply readKind_inv in Hk as (c' & rest' & -> & Hw & -> & ->); [|done..].
    pose proof (is_bytes_item _ _ _ Hb) as [Hc _]. pose proof (Split_item _ _ _ Hw Hl) as Hs'. unfold Split in Hs'.
    rewrite readKind_item in Hs' by done. rewrite Hs' in Hs. by injection Hs as -> -> ->.
  - intros [-> Hw]. apply is_bytes_item in Hb as [Hc _]. by apply Split_item.
Qed.

Lemma Split_panics buf : is_bytes buf → len buf < 2 ^ 63 → (∃ m, Split buf = Panic m) ↔ buf = [129].
Proof.
  intros Hb Hl. split; [|intros ->; by eexists].
  intros [m Hs]. unfold Split in Hs. destruct (readKind buf) as [[[k ts] cs]| |m'|] eqn:Hk; try done.
  - apply readKind_inv in Hk as (c & rest & -> & Hw & -> & ->); [|done..].
    apply is_bytes_item in Hb as [Hc _]. pose proof (Split_item _ _ _ Hw Hl) as Hs'. unfold Split in Hs'.
    rewrite readKind_item in Hs' by done. by rewrite Hs' in Hs.
  - by apply readKind_panic in Hk.
Qed.

(** C36: [Split] accepts exactly the canonical encodings: on any input of bytes it returns
    kind [k], content [c] and remainder [rest] if and only if the input is the shortest header
    for [k] and [len c], then [c], then [rest], and a byte below 128 is not wrapped as a string.
    It indexes past the end of its input on exactly one input: the single byte 0x81, the header of
    a one-byte string whose byte is missing.  Every other input is rejected with an error. *)
Theorem split_accepts_exactly_canonical buf :
  is_bytes buf → len buf < 2 ^ 63 →
  (∀ k c rest, Split buf = Ret (k, c, rest) ↔ buf = item k c ++ rest ∧ well_kinded k c = true) ∧
  ((∃ m, Split buf = Panic m) ↔ buf = [129]).
Proof.
  intros Hb Hl. split; [intros k c rest; by apply Split_canonical|]. by apply Split_panics.
Qed.

Lemma split_accepts_exactly_canonical_witness :
  let buf := [131; 1; 2; 3; 192] in
  (Split buf = Ret (String_, [1; 2; 3], [192]) ↔ buf = item String_ [1; 2; 3] ++ [192] ∧ well_kinded String_ [1; 2; 3] = true)
  ∧ Split buf = Ret (String_, [1; 2; 3], [192]) ∧ (∃ m, Split [129] = Panic m).
Proof.
  split; [|split; [by vm_compute|]].
  - apply (split_accepts_exactly_canonical [131; 1; 2; 3; 192]); [|by vm_compute]. repeat constructor; done.
  - apply (proj2 (split_accepts_exactly_canonical [129] ltac:(repeat constructor; done) ltac:(done))). done.
Defined.

(** ** Counting *)
Lemma item_nonempty k c : well_kinded k c = true → 1 ≤ len (item k c).
Proof.
  intros Hk. unfold item. rewrite len_app. pose proof (len_nonneg c).
  assert (∀ x (l : bytes), 1 ≤ len (x :: l)) as Hcons by (intros; unfold len; simpl; lia).
  assert (∀ a b n, 1 ≤ len (puthead a b n)) as Hp by (intros a b n; unfold puthead; by case_bool_decide).
  destruct k; cbn [header well_kinded] in *.
  - destruct c as [|x c]; [done|]. pose proof (Hcons x c). change (len []) with 0. lia.
  - specialize (Hp 128 183 (len c)). lia.
  - specialize (Hp 192 247 (len c)). lia.
Qed.

Definition canonical (kc : Kind * bytes) : bool := well_kinded (fst kc) (snd kc).
Definition items (l : list (Kind * bytes)) : bytes := concat (map (λ kc, item (fst kc) (snd kc)) l).

Lemma count_step fuel i k c rest :
  well_kinded k c = true → len (item k c ++ rest) < 2 ^ 63 →
  count_values (S fuel) i (item k c ++ rest) = count_values fuel (i + 1) rest.
Proof.
  intros Hk Hl. pose proof (item_nonempty k c Hk) as Hne. cbn [count_values].
  destruct (item k c ++ rest) as [|b buf] eqn:Hb.
  { apply (f_equal len) in Hb. rewrite len_app in Hb. pose proof (len_nonneg rest). change (len []) with 0 in Hb. lia. }
  rewrite <-Hb in *. rewrite readKind_item by done. cbn [mbind outcome_bind].
  unfold item in *. rewrite !len_app in Hl. pose proof (len_nonneg c). pose proof (len_nonneg rest).
  pose proof (len_nonneg (header k (len c))). rewrite Z.mod_small by lia.
  by rewrite slice_from_app by (rewrite len_app; lia).
Qed.

Lemma count_values_spec fuel i buf n :
  is_bytes buf → len buf < 2 ^ 63 → len buf ≤ Z.of_nat fuel →
  count_values fuel i buf = Ret n ↔ ∃ l, buf = items l ∧ forallb canonical l = true ∧ n = i + len l.
Proof.
  revert i buf. induction fuel as [|fuel IH]; intros i buf Hb Hl Hf.
  all: destruct (decide (buf = [])) as [->|Hne].
  1, 3: change (Ret i = Ret n ↔ ∃ l, [] = items l ∧ forallb canonical l = true ∧ n = i + len l); split;
    [intros [= <-]; exists []; split_and!; [done..|change (len []) with 0; lia]
    |intros ([|[k c] l] & Hnil & Hcan & ->); [change (len []) with 0; f_equal; lia|]].
  1, 2: apply (f_equal len) in Hnil; unfold items in Hnil; cbn [map concat fst snd] in Hnil; rewrite len_app in Hnil;
    apply andb_true_iff in Hcan as [Hw _]; pose proof (item_nonempty k c Hw);
    pose proof (len_nonneg (concat (map (λ kc : Kind * bytes, item (fst kc) (snd kc)) l)));
    change (len []) with 0 in Hnil; lia.
  { destruct buf; [done|]. unfold len in Hf. simpl in Hf. lia. }
  split.
  - intros Hcount. destruct (readKind buf) as [[[k ts] cs]| | |] eqn:Hk;
      [|destruct buf; [done|]; cbn [count_values] in Hcount; by rewrite Hk in Hcount..].
    apply readKind_inv in Hk as (c & rest & -> & Hw & -> & ->); [|done..].
    pose proof (is_bytes_item _ _ _ Hb) as [Hc Hr]. pose proof (item_nonempty k c Hw).
    rewrite len_app in Hf. rewrite count_step in Hcount by done.
    rewrite len_app in Hl. apply IH in Hcount as (l & -> & Hcan & ->); [|done|lia..].
    exists ((k, c) :: l). split_and!; [done|by apply andb_true_iff|]. unfold len. simpl. lia.
  - intros ([|[k c] l] & -> & Hcan & ->); [done|]. apply andb_true_iff in Hcan as [Hw Hcan].
    change (items ((k, c) :: l)) with (item k c ++ items l) in *.
    pose proof (is_bytes_item _ _ _ Hb) as [Hc Hr]. pose proof (item_nonempty k c Hw).
    rewrite count_step by done. rewrite len_app in *. apply IH; [done|lia..|].
    exists l. split_and!; [done..|]. unfold len. simpl. lia.
Qed.

Lemma readKind_fuel buf : readKind buf ≠ OutOfFuel.
Proof.
  destruct buf as [|b buf]; [done|]. rewrite readKind_cons.
  assert (∀ l n, readSize l n ≠ OutOfFuel) as Hrs.
  { intros l n. unfold readSize, index. repeat (case_match; cbn [mbind outcome_bind]); done. }
  assert (tag_of b buf ≠ OutOfFuel) as Ht.
  { unfold tag_of. specialize (Hrs buf). repeat case_bool_decide; try done.
    - unfold index. by repeat (case_match; cbn [mbind outcome_bind]).
    - specialize (Hrs (b - 183)). by destruct (readSize buf (b - 183)).
    - specialize (Hrs (b - 247)). by destruct (readSize buf (b - 247)). }
  destruct (tag_of b buf) as [[[k ts] cs]| | |]; try done. cbn [mbind outcome_bind]. unfold fits. by case_bool_decide.
Qed.

Lemma count_values_fuel fuel i buf :
  is_bytes buf → len buf < 2 ^ 63 → len buf ≤ Z.of_nat fuel → count_values fuel i buf ≠ OutOfFuel.
Proof.
  revert i buf. induction fuel as [|fuel IH]; intros i buf Hb Hl Hf; destruct (decide (buf = [])) as [->|Hne]; try done.
  { destruct buf; [done|]. unfold len in Hf. simpl in Hf. lia. }
  destruct (readKind buf) as [[[k ts] cs]| | |] eqn:Hk.
  2-4: destruct buf; [done|]; cbn [count_values]; rewrite Hk; try done.
  - apply readKind_inv in Hk as (c & rest & -> & Hw & -> & ->); [|done..].
    pose proof (is_bytes_item _ _ _ Hb) as [Hc Hr]. pose proof (item_nonempty k c Hw).
    rewrite count_step by done. rewrite len_app in *. apply IH; [done|lia..].
  - exfalso. by apply (readKind_fuel (z :: buf)).
Qed.

(** [CountValues] terminates and counts: it returns [n] if and only if the input is a
    sequence of [n] canonical items with nothing left over; in particular it has enough fuel
    on every input, since each item takes at least one byte. *)
Lemma count_values_counts buf :
  is_bytes buf → len buf < 2 ^ 63 →
  CountValues buf ≠ OutOfFuel ∧
  ∀ n, CountValues buf = Ret n ↔ ∃ l, buf = items l ∧ forallb canonical l = true ∧ n = len l.
Proof.
  intros Hb Hl. split.
  - apply count_values_fuel; (done || unfold len; lia).
  - intros n. unfold CountValues. rewrite count_values_spec by (done || unfold len; lia). done.
Qed.

