(* ===== verification/RlpStream.v ===== *)
(** [common/rlp/decode.go]: the decoding stream and the decoders.

    The stream reads from a [bytes.Reader], as [DecodeBytes] makes it.  A decoder stores into a
    zero value of its type; the value it leaves behind when it fails is not modelled.  The text
    of a decoding error leaves the name of the Go type out. *)
From S2P Require Import Prelude Bytes HexKeys Rlp RlpRaw.
Open Scope Z_scope.

(** ** Errors *)
Definition EOL : gerror := Errorf "rlp: end of list".
Definition EOF : gerror := LibErr "EOF".
Definition ErrCanonInt : gerror := Errorf "rlp: non-canonical integer format".
Definition ErrElemTooLarge : gerror := Errorf "rlp: element is larger than containing list".
Definition ErrMoreThanOneValue : gerror := Errorf "rlp: input contains more than one value".
Definition errNotInList : gerror := Errorf "rlp: call of ListEnd outside of any list".
Definition errNotAtEOL : gerror := Errorf "rlp: call of ListEnd not positioned at EOL".
Definition errUintOverflow : gerror := Errorf "rlp: uint overflow".

(** A [*decodeError]: its context and its message. *)
Definition decodeError (msg : string) : gerror := Wrapf "" (Errorf msg).

Definition wrapStreamError (err : gerror) : gerror :=
  if decide (err = ErrCanonInt) then decodeError "non-canonical integer (leading zero bytes)"
  else if decide (err = ErrCanonSize) then decodeError "non-canonical size information"
  else if decide (err = ErrExpectedList) then decodeError "expected input list"
  else if decide (err = ErrExpectedString) then decodeError "expected input string or byte"
  else if decide (err = errUintOverflow) then decodeError "input string too long"
  else if decide (err = errNotAtEOL) then decodeError "input list has too many elements"
  else err.

Definition addErrorContext (err : gerror) (ctx : string) : gerror :=
  match err with
  | Wrapf c e => Wrapf (ctx ++ c) e
  | _ => err
  end.

(** ** The stream *)
Record listpos := mkPos { pos : Z; psize : Z }.

(** [kind] is [None] where the code stores -1; the innermost list is the head of [stack]. *)
Record Stream := mkStream {
  input : bytes;
  remaining : Z;
  limited : bool;
  kind : option Kind;
  vsize : Z;
  byteval : Z;
  kinderr : option gerror;
  stack : list listpos }.

Definition D (A : Type) : Type := M Stream A.

Definition set_input (b : bytes) (s : Stream) : Stream :=
  mkStream b (remaining s) (limited s) (kind s) (vsize s) (byteval s) (kinderr s) (stack s).
Definition set_remaining (n : Z) (s : Stream) : Stream :=
  mkStream (input s) n (limited s) (kind s) (vsize s) (byteval s) (kinderr s) (stack s).
Definition set_kind (k : option Kind) (s : Stream) : Stream :=
  mkStream (input s) (remaining s) (limited s) k (vsize s) (byteval s) (kinderr s) (stack s).
Definition set_vsize (n : Z) (s : Stream) : Stream :=
  mkStream (input s) (remaining s) (limited s) (kind s) n (byteval s) (kinderr s) (stack s).
Definition set_byteval (b : Z) (s : Stream) : Stream :=
  mkStream (input s) (remaining s) (limited s) (kind s) (vsize s) b (kinderr s) (stack s).
Definition set_kinderr (e : option gerror) (s : Stream) : Stream :=
  mkStream (input s) (remaining s) (limited s) (kind s) (vsize s) (byteval s) e (stack s).
Definition set_stack (st : list listpos) (s : Stream) : Stream :=
  mkStream (input s) (remaining s) (limited s) (kind s) (vsize s) (byteval s) (kinderr s) st.

(** [uint64] subtraction and addition. *)
Definition sub64 (a b : Z) : Z := (a - b) mod 2 ^ 64.
Definition add64 (a b : Z) : Z := (a + b) mod 2 ^ 64.

(** A reset stream; a [bytes.Reader] is its own limit when none is given. *)
Definition Reset (b : bytes) (inputLimit : Z) : Stream :=
  mkStream b (if bool_decide (0 < inputLimit) then inputLimit else len b) true None 0 0 None [].
Definition NewStream (b : bytes) (inputLimit : Z) : Stream := Reset b inputLimit.
Definition NewListStream (b : bytes) (l : Z) : Stream :=
  set_vsize l (set_kind (Some List_) (Reset b l)).

Definition willRead (n : Z) : D unit :=
  modify (set_kind None) ;;
  st ← gets stack;
  match st with
  | tos :: st' =>
    if bool_decide (sub64 (psize tos) (pos tos) < n) then fail ErrElemTooLarge
    else modify (set_stack (mkPos (add64 (pos tos) n) (psize tos) :: st'))
  | [] => mret tt
  end ;;
  lim ← gets limited;
  if lim : bool then
    rem ← gets remaining;
    if bool_decide (rem < n) then fail ErrValueTooLarge
    else modify (set_remaining (sub64 rem n))
  else mret tt.

(** Fills a buffer of [n] bytes; a [bytes.Reader] hands out what it has and then [io.EOF]. *)
Definition readFull (n : Z) : D bytes :=
  willRead n ;;
  b ← gets input;
  if bool_decide (len b < n) then modify (set_input []) ;; fail ErrUnexpectedEOF
  else modify (set_input (drop (Z.to_nat n) b)) ;; mret (take (Z.to_nat n) b).

Definition readByte : D Z :=
  willRead 1 ;;
  b ← gets input;
  match b with
  | [] => fail ErrUnexpectedEOF
  | x :: b' => modify (set_input b') ;; mret x
  end.

(** The bytes are read into the end of a buffer of 8 zeros. *)
Definition readUint (size : Z) : D Z :=
  if bool_decide (size = 0) then modify (set_kind None) ;; mret 0
  else if bool_decide (size = 1) then readByte
  else
    b ← readFull size;
    b0 ← lift (index b 0);
    if bool_decide (b0 = 0) then fail ErrCanonSize
    else mret (be_or (replicate (Z.to_nat (8 - size)) 0 ++ b)).

(** A kind and a size are returned also with an error. *)
Definition readKind : D (Kind * Z * option gerror) :=
  r ← try readByte;
  match r with
  | inl err =>
    st ← gets stack;
    match st with
    | [] => mret (Byte, 0, Some (if decide (err = ErrUnexpectedEOF) then EOF
                                 else if decide (err = ErrValueTooLarge) then EOF else err))
    | _ => mret (Byte, 0, Some err)
    end
  | inr b =>
    modify (set_byteval 0) ;;
    if bool_decide (b < 128) then modify (set_byteval b) ;; mret (Byte, 0, None)
    else if bool_decide (b < 184) then mret (String_, b - 128, None)
    else if bool_decide (b < 192) then
      r ← try (readUint (b - 183));
      match r with
      | inl err => mret (String_, 0, Some err)
      | inr size => mret (String_, size, if bool_decide (size < 56) then Some ErrCanonSize else None)
      end
    else if bool_decide (b < 248) then mret (List_, b - 192, None)
    else
      r ← try (readUint (b - 247));
      match r with
      | inl err => mret (List_, 0, Some err)
      | inr size => mret (List_, size, if bool_decide (size < 56) then Some ErrCanonSize else None)
      end
  end.

Definition at_end (st : list listpos) : bool :=
  match st with
  | tos :: _ => bool_decide (pos tos = psize tos)
  | [] => false
  end.

(** The method [Kind]: the kind and the size of the value ahead. *)
Definition Kind_ : D (Kind * Z) :=
  k ← gets kind;
  match k with
  | Some _ => mret tt
  | None =>
    modify (set_kinderr None) ;;
    st ← gets stack;
    if at_end st then fail EOL
    else
      r ← readKind;
      let '(k, size, err) := r in
      modify (λ s, set_kinderr err (set_vsize size (set_kind (Some k) s))) ;;
      match err with
      | Some _ => mret tt
      | None =>
        s ← get;
        match stack s with
        | [] => if limited s && bool_decide (remaining s < vsize s)
                then modify (set_kinderr (Some ErrValueTooLarge)) else mret tt
        | tos :: _ => if bool_decide (sub64 (psize tos) (pos tos) < vsize s)
                      then modify (set_kinderr (Some ErrElemTooLarge)) else mret tt
        end
      end
  end ;;
  s ← get;
  match kinderr s with
  | Some e => fail e
  | None => mret (default Byte (kind s), vsize s)
  end.

Definition Bytes : D bytes :=
  ks ← Kind_;
  match ks with
  | (Byte, _) => modify (set_kind None) ;; b ← gets byteval; mret [b]
  | (String_, size) =>
    b ← readFull size;
    if bool_decide (size = 1) then
      b0 ← lift (index b 0);
      if bool_decide (b0 < 128) then fail ErrCanonSize else mret b
    else mret b
  | (List_, _) => fail ErrExpectedString
  end.

(** The header is gone from the input: it is written again in front of the content. *)
Definition Raw : D bytes :=
  ks ← Kind_;
  match ks with
  | (Byte, _) => modify (set_kind None) ;; b ← gets byteval; mret [b]
  | (String_, size) => b ← readFull size; mret (puthead 128 183 size ++ b)
  | (List_, size) => b ← readFull size; mret (puthead 192 247 size ++ b)
  end.

Definition uint (maxbits : Z) : D Z :=
  ks ← Kind_;
  match ks with
  | (Byte, _) =>
    b ← gets byteval;
    if bool_decide (b = 0) then fail ErrCanonInt else modify (set_kind None) ;; mret b
  | (String_, size) =>
    if bool_decide (maxbits / 8 < size) then fail errUintOverflow
    else
      r ← try (readUint size);
      match r with
      | inl err => if decide (err = ErrCanonSize) then fail ErrCanonInt else fail err
      | inr v => if bool_decide (0 < size ∧ v < 128) then fail ErrCanonSize else mret v
      end
  | (List_, _) => fail ErrExpectedString
  end.

Definition Uint : D Z := uint 64.

Definition Bool : D bool :=
  num ← uint 8;
  if bool_decide (num = 0) then mret false
  else if bool_decide (num = 1) then mret true
  else fail (Errorf ("rlp: invalid boolean value: " ++ pretty num)).

Definition List : D Z :=
  ks ← Kind_;
  match ks with
  | (List_, size) =>
    modify (λ s, set_vsize 0 (set_kind None (set_stack (mkPos 0 size :: stack s) s))) ;;
    mret size
  | _ => fail ErrExpectedList
  end.

Definition ListEnd : D unit :=
  st ← gets stack;
  match st with
  | [] => fail errNotInList
  | tos :: st' =>
    if bool_decide (pos tos ≠ psize tos) then fail errNotAtEOL
    else
      let st'' := match st' with
                  | p :: q => mkPos (add64 (pos p) (psize tos)) (psize p) :: q
                  | [] => []
                  end in
      modify (λ s, set_vsize 0 (set_kind None (set_stack st'' s)))
  end.

(** ** Decoders *)

(** The cases of [makeDecoder], for a type without a decoder of its own.  [TTail] is a slice
    field tagged "tail", [TOptPtr] a pointer field tagged "nil". *)
Inductive gtype :=
  | TRaw | TUint (bits : Z) | TBool | TBigInt | TString | TBytes | TByteArray (n : nat)
  | TSlice (t : gtype) | TTail (t : gtype) | TArray (n : nat) (t : gtype)
  | TStruct (fields : list (string * gtype)) | TPtr (t : gtype) | TOptPtr (t : gtype) | TIface.

Definition wrapping {A} (m : D A) : D A := λ s,
  match m s with
  | (Fail e, s') => (Fail (wrapStreamError e), s')
  | r => r
  end.

Definition decodeRawValue : D gval := b ← Raw; mret (GRaw b).
Definition decodeUint (bits : Z) : D gval := num ← wrapping (uint bits); mret (GUint num).
Definition decodeBool : D gval := b ← wrapping Bool; mret (GBool b).
Definition decodeString : D gval := b ← wrapping Bytes; mret (GString b).
Definition decodeByteSlice : D gval := b ← wrapping Bytes; mret (GBytes b).

Definition decodeBigInt : D gval :=
  b ← wrapping Bytes;
  match b with
  | 0 :: _ => fail (wrapStreamError ErrCanonInt)
  | _ => mret (GBigInt (Some (be_val b)))
  end.

(** An error of [Uint] is dropped, together with the rearming of the stream. *)
Definition decodeByteArray (vlen : nat) : D gval :=
  ks ← Kind_;
  match ks with
  | (Byte, _) =>
    if bool_decide (vlen = 0%nat) then fail (decodeError "input string too long")
    else if bool_decide (1 < vlen)%nat then fail (decodeError "input string too short")
    else
      r ← try Uint;
      mret (GBytes [match r with inl _ => 0 | inr bv => bv mod 256 end])
  | (String_, size) =>
    if bool_decide (Z.of_nat vlen < size) then fail (decodeError "input string too long")
    else if bool_decide (size < Z.of_nat vlen) then fail (decodeError "input string too short")
    else
      b ← readFull (Z.of_nat vlen);
      if bool_decide (size = 1) then
        b0 ← lift (index b 0);
        if bool_decide (b0 < 128) then fail (wrapStreamError ErrCanonSize) else mret (GBytes b)
      else mret (GBytes b)
  | (List_, _) => fail (wrapStreamError ErrExpectedString)
  end.

Definition elem_ctx (i : Z) : string := "[" ++ pretty i ++ "]".

(** The elements up to the end of the innermost list. *)
Fixpoint decodeSliceElems (fuel : nat) (elemdec : D gval) (i : Z) : D (list gval) :=
  match fuel with
  | O => out_of_fuel
  | S f =>
    r ← try elemdec;
    match r with
    | inl err => if decide (err = EOL) then mret [] else fail (addErrorContext err (elem_ctx i))
    | inr v => vs ← decodeSliceElems f elemdec (i + 1); mret (v :: vs)
    end
  end.

Definition decodeListSlice (fuel : nat) (elemdec : D gval) : D gval :=
  size ← wrapping List;
  if bool_decide (size = 0) then ListEnd ;; mret (GSlice [])
  else
    vs ← decodeSliceElems fuel elemdec 0;
    ListEnd ;;
    mret (GSlice vs).

(** [n] elements are left to decode. *)
Fixpoint array_elems (n : nat) (elemdec : D gval) (i : Z) : D (list gval) :=
  match n with
  | O => mret []
  | S n' =>
    r ← try elemdec;
    match r with
    | inl err => if decide (err = EOL) then fail (decodeError "input list has too few elements")
                 else fail (addErrorContext err (elem_ctx i))
    | inr v => vs ← array_elems n' elemdec (i + 1); mret (v :: vs)
    end
  end.

Definition decodeListArray (vlen : nat) (elemdec : D gval) : D gval :=
  wrapping List ;;
  vs ← array_elems vlen elemdec 0;
  wrapping ListEnd ;;
  mret (GSlice vs).

(** The fields in order, each with its decoder. *)
Fixpoint struct_fields (fields : list (string * D gval)) : D (list gval) :=
  match fields with
  | [] => mret []
  | (name, dec) :: fs =>
    r ← try dec;
    match r with
    | inl err => if decide (err = EOL) then fail (decodeError "too few elements")
                 else fail (addErrorContext err ("." ++ name))
    | inr v => vs ← struct_fields fs; mret (v :: vs)
    end
  end.

Definition decodeStruct (fields : list (string * D gval)) : D gval :=
  wrapping List ;;
  vs ← struct_fields fields;
  wrapping ListEnd ;;
  mret (GStruct vs).

(** A nil pointer to a value of the type, as the encoder sees it. *)
Fixpoint nil_val (t : gtype) : gval :=
  match t with
  | TRaw => GRaw [] | TUint _ => GUint 0 | TBool => GBool false | TBigInt => GBigInt None
  | TString => GString [] | TBytes => GBytes [] | TByteArray _ => GNilBytes
  | TSlice _ | TTail _ => GSlice [] | TArray _ _ | TStruct _ => GNilList
  | TPtr t | TOptPtr t => nil_val t
  | TIface => GIface None
  end.

Definition decodeOptionalPtr (t : gtype) (elemdec : D gval) : D gval :=
  r ← try Kind_;
  match r with
  | inl err => modify (set_kind None) ;; fail err
  | inr (k, size) =>
    if bool_decide (size = 0 ∧ k ≠ Byte) then modify (set_kind None) ;; mret (nil_val t)
    else elemdec
  end.

Fixpoint decodeInterface (fuel : nat) : D gval :=
  match fuel with
  | O => out_of_fuel
  | S f =>
    ks ← Kind_;
    match ks with
    | (List_, _) => v ← decodeListSlice fuel (decodeInterface f); mret (GIface (Some v))
    | _ => b ← Bytes; mret (GIface (Some (GBytes b)))
    end
  end.

Fixpoint makeDecoder (fuel : nat) (typ : gtype) : D gval :=
  match typ with
  | TRaw => decodeRawValue
  | TUint bits => decodeUint bits
  | TBool => decodeBool
  | TBigInt => decodeBigInt
  | TString => decodeString
  | TBytes => decodeByteSlice
  | TByteArray n => decodeByteArray n
  | TSlice t => decodeListSlice fuel (makeDecoder fuel t)
  | TTail t => vs ← decodeSliceElems fuel (makeDecoder fuel t) 0; mret (GTail vs)
  | TArray n t => decodeListArray n (makeDecoder fuel t)
  | TStruct fields => decodeStruct (map (λ f, (f.1, makeDecoder fuel f.2)) fields)
  | TPtr t => makeDecoder fuel t
  | TOptPtr t => decodeOptionalPtr t (makeDecoder fuel t)
  | TIface => decodeInterface fuel
  end.

Definition Decode (fuel : nat) (typ : gtype) : D gval := makeDecoder fuel typ.

Definition DecodeBytes_with (fuel : nat) (b : bytes) (typ : gtype) : outcome gval :=
  match Decode fuel typ (NewStream b (len b)) with
  | (Ret v, s) => if bool_decide (0 < len (input s)) then Fail ErrMoreThanOneValue else Ret v
  | (Fail e, _) => Fail e
  | (Panic w, _) => Panic w
  | (OutOfFuel, _) => OutOfFuel
  end.

(** Every element and every nested list takes at least a byte of the input. *)
Definition DecodeBytes (b : bytes) (typ : gtype) : outcome gval :=
  DecodeBytes_with (S (S (length b))) b typ.

(** ** The stream on a reader of known length *)
Definition bump (n : Z) (st : list listpos) : list listpos :=
  match st with p :: st' => mkPos (pos p + n) (psize p) :: st' | [] => [] end.

(** The enclosing lists leave room for the [extra] bytes of the inner one, and the input holds
    what they announce. *)
Fixpoint nested (extra : Z) (st : list listpos) (avail : Z) : Prop :=
  match st with
  | [] => 0 ≤ avail
  | p :: st' => 0 ≤ extra ∧ 0 ≤ pos p ∧ pos p + extra ≤ psize p ∧ psize p < 2 ^ 63 ∧
                nested (psize p) st' (avail - (psize p - pos p - extra))
  end.

Record wf (s : Stream) : Prop := {
  wf_limited : limited s = true;
  wf_remaining : remaining s = len (input s);
  wf_len : len (input s) < 2 ^ 63;
  wf_bytes : is_bytes (input s);
  wf_nested : nested 0 (stack s) (len (input s)) }.

(** The bytes that may be read before the innermost list ends. *)
Definition room (s : Stream) : Z :=
  match stack s with p :: _ => psize p - pos p | [] => len (input s) end.

Definition advance (n : Z) (s : Stream) : Stream :=
  set_input (drop (Z.to_nat n) (input s)) (set_remaining (remaining s - n)
    (set_stack (bump n (stack s)) (set_kind None s))).

Lemma nested_avail extra st avail : nested extra st avail → 0 ≤ avail.
Proof.
  revert extra avail. induction st as [|p st IH]; intros extra avail; [done|].
  intros (H1 & H2 & H3 & H4 & H5). apply IH in H5. lia.
Qed.

Lemma wf_room s : wf s → 0 ≤ room s ≤ len (input s).
Proof.
  intros Hs. pose proof (wf_nested _ Hs) as Hn. unfold room. destruct (stack s) as [|p st]; [pose proof (len_nonneg (input s)); lia|].
  destruct Hn as (H1 & H2 & H3 & H4 & H5). apply nested_avail in H5. lia.
Qed.

Lemma wf_advance n s : wf s → 0 ≤ n ≤ room s → wf (advance n s) ∧ room (advance n s) = room s - n.
Proof.
  intros Hs Hn. pose proof (wf_room s Hs) as Hr. destruct Hs as [Hl Hrem Hlen Hb Hnest].
  assert (len (input (advance n s)) = len (input s) - n) as Hlen' by (apply len_drop; lia).
  split.
  - split; [done|cbn [advance remaining set_input set_remaining] in *; lia|lia|by apply Forall_drop|].
    rewrite Hlen'. change (stack (advance n s)) with (bump n (stack s)).
    unfold room in Hn. destruct (stack s) as [|p st]; [cbn in *; lia|].
    destruct Hnest as (H1 & H2 & H3 & H4 & H5). cbn [bump nested pos psize]. repeat split; try lia.
    by replace (len (input s) - n - (psize p - (pos p + n) - 0)) with (len (input s) - (psize p - pos p - 0)) by lia.
  - unfold room in *. change (stack (advance n s)) with (bump n (stack s)).
    destruct (stack s) as [|p st]; [done|]. cbn [bump pos psize]. lia.
Qed.

Lemma bump_bump m n st : bump m (bump n st) = bump (n + m) st.
Proof. destruct st as [|p st]; [done|]. cbn. do 2 f_equal. lia. Qed.

Lemma bump_0 st : bump 0 st = st.
Proof. destruct st as [|[p z] st]; [done|]. cbn. do 2 f_equal. lia. Qed.

(** Runs the stateful parts of a goal about an explicit stream. *)
Ltac run_stream :=
  cbv beta iota delta [mbind M_bind mret M_ret modify gets get fail try lift
    set_input set_remaining set_kind set_vsize set_byteval set_kinderr set_stack advance
    input remaining limited kind vsize byteval kinderr stack].

Lemma willRead_ok n s :
  wf s → 0 ≤ n ≤ room s →
  willRead n s = (Ret tt, set_remaining (remaining s - n) (set_stack (bump n (stack s)) (set_kind None s))).
Proof.
  intros Hs Hn. pose proof (wf_room s Hs) as Hr. destruct Hs as [Hl Hrem Hlen Hb Hnest].
  destruct s as [inp rem lim k vs bv ke st]. unfold room in *. cbn [limited remaining input stack] in *. subst lim rem.
  unfold willRead. run_stream. destruct st as [|p st]; cbn [bump].
  - rewrite bool_decide_eq_false_2 by lia. unfold sub64. by rewrite Z.mod_small by lia.
  - destruct Hnest as (H1 & H2 & H3 & H4 & H5). unfold sub64, add64. rewrite (Z.mod_small (psize p - pos p)) by lia.
    rewrite !bool_decide_eq_false_2 by lia. by rewrite !Z.mod_small by lia.
Qed.

Lemma willRead_far n s :
  wf s → room s < n → ∃ e s', willRead n s = (Fail e, s') ∧ (e = ErrElemTooLarge ∨ e = ErrValueTooLarge).
Proof.
  intros Hs Hn. pose proof (wf_room s Hs) as Hr. destruct Hs as [Hl Hrem Hlen Hb Hnest].
  destruct s as [inp rem lim k vs bv ke st]. unfold room in *. cbn [limited remaining input stack] in *. subst lim rem.
  unfold willRead. run_stream. destruct st as [|p st].
  - rewrite bool_decide_eq_true_2 by lia. eauto.
  - destruct Hnest as (H1 & H2 & H3 & H4 & H5). unfold sub64. rewrite (Z.mod_small (psize p - pos p)) by lia.
    rewrite bool_decide_eq_true_2 by lia. eauto.
Qed.

Lemma readFull_ok n s :
  wf s → 0 ≤ n ≤ room s → readFull n s = (Ret (take (Z.to_nat n) (input s)), advance n s).
Proof.
  intros Hs Hn. pose proof (wf_room s Hs) as Hr. unfold readFull.
  rewrite (run_bind_Ret _ _ _ _ _ (willRead_ok n s Hs Hn)).
  destruct s as [inp rem lim k vs bv ke st]. cbn [input] in *. run_stream.
  by rewrite bool_decide_eq_false_2 by lia.
Qed.

Lemma readFull_far n s :
  wf s → room s < n → ∃ e s', readFull n s = (Fail e, s') ∧ (e = ErrElemTooLarge ∨ e = ErrValueTooLarge).
Proof.
  intros Hs Hn. destruct (willRead_far n s Hs Hn) as (e & s' & Hw & He). exists e, s'. split; [|done].
  unfold readFull. by rewrite (run_bind_Fail _ _ _ _ _ Hw).
Qed.

Lemma readByte_ok s :
  wf s → 1 ≤ room s → ∃ x b, input s = x :: b ∧ readByte s = (Ret x, advance 1 s).
Proof.
  intros Hs Hn. pose proof (wf_room s Hs) as Hr. destruct (input s) as [|x b] eqn:Hi.
  { change (len []) with 0 in Hr. lia. }
  exists x, b. split; [done|]. unfold readByte. rewrite (run_bind_Ret _ _ _ _ _ (willRead_ok 1 s Hs ltac:(lia))).
  destruct s as [inp rem lim k vs bv ke st]. cbn [input] in *. subst inp. done.
Qed.

Lemma readByte_far s :
  wf s → room s < 1 → ∃ e s', readByte s = (Fail e, s') ∧ (e = ErrElemTooLarge ∨ e = ErrValueTooLarge).
Proof.
  intros Hs Hn. destruct (willRead_far 1 s Hs Hn) as (e & s' & Hw & He). exists e, s'. split; [|done].
  unfold readByte. by rewrite (run_bind_Fail _ _ _ _ _ Hw).
Qed.

Lemma be_val_zeros n b : be_val (replicate n 0 ++ b) = be_val b.
Proof. induction n as [|n IH]; [done|]. cbn [replicate app be_val]. rewrite IH. lia. Qed.

Lemma is_bytes_zeros n : is_bytes (replicate n 0).
Proof. apply Forall_replicate. unfold is_byte. lia. Qed.

Lemma advance_0 s : advance 0 s = set_kind None s.
Proof.
  destruct s as [inp rem lim k vs bv ke st]. unfold advance. run_stream. cbn [Z.to_nat drop].
  by rewrite bump_0, Z.sub_0_r.
Qed.

(** A number is read back from its big endian bytes, a leading zero refused. *)
Definition uint_of (c : bytes) : outcome Z :=
  match c with 0 :: _ :: _ => Fail ErrCanonSize | _ => Ret (be_val c) end.

Lemma uint_of_cons x l :
  uint_of (x :: l) = if bool_decide (x = 0 ∧ l ≠ []) then Fail ErrCanonSize else Ret (be_val (x :: l)).
Proof.
  case_bool_decide as Hx.
  - destruct Hx as [-> Hl]. by destruct l.
  - destruct x; try done. destruct l; [done|]. by destruct Hx.
Qed.

Lemma readUint_ok n s :
  wf s → 0 ≤ n ≤ 8 → n ≤ room s →
  readUint n s = (uint_of (take (Z.to_nat n) (input s)), advance n s).
Proof.
  intros Hs Hn Hroom. pose proof (wf_room s Hs) as Hr. unfold readUint.
  case_bool_decide as H0; [by subst n; rewrite advance_0|].
  case_bool_decide as H1.
  { subst n. destruct (readByte_ok s) as (x & b & Hi & ->); [done|lia|]. rewrite Hi.
    change (Z.to_nat 1) with 1%nat. cbn [take]. rewrite uint_of_cons, bool_decide_eq_false_2 by naive_solver.
    do 2 f_equal. change (x = x * 1 + 0). lia. }
  rewrite (run_bind_Ret _ _ _ _ _ (readFull_ok n s Hs ltac:(lia))).
  set (c := take (Z.to_nat n) (input s)). assert (len c = n) as Hc by (apply len_take; lia).
  assert (is_bytes c) as Hb by (apply Forall_take, Hs).
  destruct c as [|x [|y c]]; [unfold len in Hc; simpl in Hc; lia..|].
  change (index (x :: y :: c) 0) with (Ret x). rewrite (run_bind_Ret (lift (Ret x)) _ _ x _ eq_refl).
  case_bool_decide as Hx; [by subst x|].
  rewrite be_or_val by (apply Forall_app; split; [apply is_bytes_zeros|done]). rewrite be_val_zeros.
  by destruct x.
Qed.

Lemma readUint_far n s :
  wf s → 0 ≤ n ≤ 8 → room s < n →
  ∃ e s', readUint n s = (Fail e, s') ∧ (e = ErrElemTooLarge ∨ e = ErrValueTooLarge).
Proof.
  intros Hs Hn Hroom. pose proof (wf_room s Hs) as Hr. unfold readUint.
  rewrite bool_decide_eq_false_2 by lia. case_bool_decide; [apply readByte_far; [done|lia]|].
  destruct (readFull_far n s Hs Hroom) as (e & s' & Hf & He). exists e, s'. by rewrite (run_bind_Fail _ _ _ _ _ Hf).
Qed.

(** Sizes are read as in [raw.go]. *)
Lemma uint_of_readSize b n sz :
  is_bytes b → 1 ≤ n ≤ len b →
  uint_of (take (Z.to_nat n) b) = Ret sz ∧ 56 ≤ sz ↔ readSize b n = Ret sz.
Proof.
  intros Hb Hn. unfold readSize. rewrite bool_decide_eq_false_2 by lia.
  destruct b as [|x b]; [unfold len in Hn; simpl in Hn; lia|].
  change (index (x :: b) 0) with (Ret x). cbn [mbind outcome_bind].
  assert (is_bytes (take (Z.to_nat n) (x :: b))) as Ht by by apply Forall_take.
  rewrite be_or_val by done. destruct (Z.to_nat n) as [|m] eqn:Hm; [lia|]. cbn [take] in *.
  rewrite uint_of_cons. set (t := take m b) in *. case_bool_decide as Hx; case_bool_decide as Hc.
  - naive_solver.
  - destruct Hx as [-> _]. naive_solver.
  - split; [|done]. intros [Heq H56]. exfalso. assert (be_val (x :: t) = sz) by congruence. destruct Hc as [?|Hz]; [lia|]. subst x.
    apply Hx. split; [done|]. intros Htn. rewrite Htn in *. cbn [be_val] in *. lia.
  - split; [naive_solver|]. intros Heq. split; [done|]. assert (be_val (x :: t) = sz) as <- by congruence.
    destruct (decide (be_val (x :: t) < 56)); [exfalso; naive_solver|lia].
Qed.

(** ** The value ahead *)
Definition head_ok (k : Kind) (sz x : Z) (h : bytes) : Prop :=
  match k with
  | Byte => h = [x] ∧ 0 ≤ x < 128 ∧ sz = 0
  | _ => h = header k sz ∧ x = 0 ∧ 0 ≤ sz < 2 ^ 64
  end.

Definition arm (k : Kind) (sz x : Z) (s : Stream) : Stream :=
  set_kinderr None (set_vsize sz (set_kind (Some k) (set_byteval x s))).

(** [readKind] after its first byte. *)
Definition read_size (k : Kind) (n : Z) : D (Kind * Z * option gerror) :=
  r ← try (readUint n);
  match r with
  | inl err => mret (k, 0, Some err)
  | inr size => mret (k, size, if bool_decide (size < 56) then Some ErrCanonSize else None)
  end.
Definition read_tag (b : Z) : D (Kind * Z * option gerror) :=
  if bool_decide (b < 128) then modify (set_byteval b) ;; mret (Byte, 0, None)
  else if bool_decide (b < 184) then mret (String_, b - 128, None)
  else if bool_decide (b < 192) then read_size String_ (b - 183)
  else if bool_decide (b < 248) then mret (List_, b - 192, None)
  else read_size List_ (b - 247).

Lemma readKind_run s b r :
  wf s → input s = b :: r → 1 ≤ room s → readKind s = read_tag b (set_byteval 0 (advance 1 s)).
Proof.
  intros Hs Hi Hl. destruct (readByte_ok s Hs ltac:(lia)) as (b1 & r1 & Hi1 & Hrb).
  rewrite Hi in Hi1. injection Hi1 as <- <-.
  unfold readKind. assert (try readByte s = (Ret (inr b), advance 1 s)) as Htry by (unfold try; by rewrite Hrb).
  by rewrite (run_bind_Ret _ _ _ _ _ Htry).
Qed.

Lemma wf_byteval x s : wf s → wf (set_byteval x s).
Proof. by intros []. Qed.

Lemma advance_byteval n x s : advance n (set_byteval x s) = set_byteval x (advance n s).
Proof. by destruct s. Qed.

Lemma advance_advance m n s : 0 ≤ m → 0 ≤ n → advance n (advance m s) = advance (m + n) s.
Proof.
  intros Hm Hn. destruct s as [inp rem lim k vs bv ke st]. unfold advance. run_stream.
  rewrite drop_drop, bump_bump, Z2Nat.inj_add by lia. by rewrite Z.sub_add_distr.
Qed.

(** Reading a size: the bytes [putint] writes are accepted and nothing else is. *)
Lemma read_size_ok k n s sz rest :
  wf s → 1 ≤ n ≤ 8 → n ≤ room s → 56 ≤ sz < 2 ^ 64 → intsize sz = n → input s = putint sz ++ rest →
  read_size k n s = (Ret (k, sz, None), advance n s).
Proof.
  intros Hs Hn Hroom Hsz Hint Hi. pose proof (wf_room s Hs).
  assert (readSize (input s) n = Ret sz) as Hrs.
  { rewrite Hi, <-Hint, <-len_putint by lia. by apply readSize_put. }
  apply uint_of_readSize in Hrs as [Hu H56]; [|apply Hs|lia].
  unfold read_size, try, mbind, M_bind. rewrite readUint_ok by (done || lia). rewrite Hu.
  by rewrite bool_decide_eq_false_2 by lia.
Qed.

Lemma read_size_inv k n s k' sz s' :
  wf s → 1 ≤ n ≤ 8 → read_size k n s = (Ret (k', sz, None), s') →
  k' = k ∧ n ≤ room s ∧ 56 ≤ sz < 2 ^ 64 ∧ intsize sz = n ∧ s' = advance n s ∧ ∃ rest, input s = putint sz ++ rest.
Proof.
  intros Hs Hn. pose proof (wf_room s Hs). unfold read_size, try, mbind, M_bind.
  destruct (decide (n ≤ room s)) as [Hle|Hgt].
  - rewrite readUint_ok by (done || lia). destruct (uint_of _) as [v|e| |] eqn:Hu; try done.
    case_bool_decide as H56; [done|]. intros [= <- <- <-].
    assert (readSize (input s) n = Ret v) as Hrs by (apply uint_of_readSize; [apply Hs|lia|split; [done|lia]]).
    apply readSize_inv in Hrs as (Hv & Hint & rest & Hr); [|apply Hs|done]. eauto 10.
  - destruct (readUint_far n s Hs ltac:(lia) ltac:(lia)) as (e & s1 & -> & _). done.
Qed.

Lemma read_size_total k n s :
  wf s → 1 ≤ n ≤ 8 → ∃ r s', read_size k n s = (Ret r, s') ∧ r.2 ≠ Some EOL.
Proof.
  intros Hs Hn. pose proof (wf_room s Hs). unfold read_size, try, mbind, M_bind.
  destruct (decide (n ≤ room s)) as [Hle|Hgt].
  - rewrite readUint_ok by (done || lia). unfold uint_of.
    repeat case_match; simplify_eq; do 2 eexists; (split; [done|]); cbn; by try case_bool_decide.
  - destruct (readUint_far n s Hs ltac:(lia) ltac:(lia)) as (e & s1 & -> & He). do 2 eexists. split; [done|].
    cbn. by destruct He as [-> | ->].
Qed.

Lemma len_cons {A} (x : A) l : len (x :: l) = 1 + len l.
Proof. unfold len. simpl. lia. Qed.

(** The header of a string or a list. *)
Lemma header_cases k sz :
  k ≠ Byte → 0 ≤ sz < 2 ^ 64 →
  let small := match k with List_ => 192 | _ => 128 end in
  let large := match k with List_ => 247 | _ => 183 end in
  (sz < 56 ∧ header k sz = [small + sz]) ∨
  (56 ≤ sz ∧ header k sz = large + intsize sz :: putint sz ∧ 1 ≤ intsize sz ≤ 8).
Proof. intros Hk Hsz. destruct k; [done|..]; apply puthead_cases; lia. Qed.

Lemma readKind_head s k sz x h rest :
  wf s → head_ok k sz x h → input s = h ++ rest → len h ≤ room s →
  readKind s = (Ret (k, sz, None), set_byteval x (advance (len h) s)).
Proof.
  intros Hs Hh Hi Hl. destruct (decide (k = Byte)) as [->|Hk].
  { destruct Hh as (-> & Hx & ->). rewrite (readKind_run s x rest) by (done || rewrite len_cons in Hl; pose proof (len_nonneg []); lia).
    unfold read_tag. rewrite bool_decide_eq_true_2 by lia. by destruct s. }
  assert (h = header k sz ∧ x = 0 ∧ 0 ≤ sz < 2 ^ 64) as (-> & -> & Hsz) by by destruct k.
  destruct (header_cases k sz Hk Hsz) as [[Hs56 Hp]|(Hs56 & Hp & Hint)]; rewrite Hp in *; rewrite ?len_cons in *.
  - change (len []) with 0 in *. rewrite (readKind_run s _ rest) by (done || lia). unfold read_tag.
    destruct k; [done|..]; rewrite !bool_decide_eq_false_2 by lia; rewrite bool_decide_eq_true_2 by lia;
      unfold mret, M_ret; repeat f_equal; lia.
  - rewrite len_putint in * by lia. pose proof (wf_room s Hs).
    rewrite (readKind_run s _ (putint sz ++ rest)) by (done || lia). unfold read_tag.
    destruct (wf_advance 1 s Hs ltac:(lia)) as [Hs1 Hr1].
    assert (input (advance 1 s) = putint sz ++ rest) as Hi1 by (cbn [advance set_input input]; by rewrite Hi).
    assert (∀ n, n = intsize sz → read_size k n (set_byteval 0 (advance 1 s)) =
      (Ret (k, sz, None), set_byteval 0 (advance (1 + intsize sz) s))) as Hrs.
    { intros n ->. rewrite (read_size_ok k (intsize sz) _ sz rest);
        [|by apply wf_byteval|lia|change (intsize sz ≤ room (advance 1 s)); lia|lia|done|done].
      by rewrite advance_byteval, advance_advance by lia. }
    destruct k; [done|..]; rewrite !bool_decide_eq_false_2 by lia.
    + rewrite bool_decide_eq_true_2 by lia. apply Hrs. lia.
    + apply Hrs. lia.
Qed.

Lemma readKind_inv' s k sz s' :
  wf s → readKind s = (Ret (k, sz, None), s') →
  ∃ x h rest, head_ok k sz x h ∧ input s = h ++ rest ∧ len h ≤ room s ∧ s' = set_byteval x (advance (len h) s).
Proof.
  intros Hs. destruct (decide (1 ≤ room s)) as [Hl|Hl]; cycle 1.
  { destruct (readByte_far s Hs ltac:(lia)) as (e & s1 & Hr & He). unfold readKind.
    unfold try, mbind, M_bind, gets. rewrite Hr. by destruct (stack s1). }
  destruct (readByte_ok s Hs Hl) as (b & r & Hi & _). rewrite (readKind_run s b r) by done.
  destruct (wf_advance 1 s Hs ltac:(lia)) as [Hs1 Hr1].
  assert (is_bytes (input s)) as Hb by apply Hs. rewrite Hi in Hb. apply Forall_cons in Hb as [Hb _]. unfold is_byte in Hb.
  assert (input (advance 1 s) = r) as Hi1 by (cbn [advance set_input input]; by rewrite Hi).
  assert (∀ k' n, k' ≠ Byte → b = match k' with List_ => 247 | _ => 183 end + n → 1 ≤ n ≤ 8 →
    read_size k' n (set_byteval 0 (advance 1 s)) = (Ret (k, sz, None), s') →
    ∃ x h rest, head_ok k sz x h ∧ input s = h ++ rest ∧ len h ≤ room s ∧ s' = set_byteval x (advance (len h) s)) as Hlarge.
  { intros k' n Hk' Hbn Hn Hrs. apply read_size_inv in Hrs as (-> & Hroom & Hsz & Hint & -> & rest & Hr); [|by apply wf_byteval|done].
    change (input (set_byteval 0 (advance 1 s))) with (input (advance 1 s)) in Hr. rewrite Hi1 in Hr.
    change (room (set_byteval 0 (advance 1 s))) with (room (advance 1 s)) in Hroom.
    exists 0, (header k' sz), rest.
    destruct (header_cases k' sz Hk' ltac:(lia)) as [[? _]|(_ & Hp & _)]; [lia|].
    assert (head_ok k' sz 0 (header k' sz)) as Hh by (destruct k'; [done|..]; split_and!; (done || lia)).
    split; [done|]. rewrite Hp, len_cons, len_putint, Hint by lia. split_and!; [rewrite Hi, Hr, Hbn; done|lia|].
    rewrite advance_byteval, advance_advance by lia. done. }
  unfold read_tag. case_bool_decide as H1.
  { intros [= <- <- <-]. exists b, [b], r. split; [by repeat split; lia|]. split; [done|]. split; [exact Hl|by destruct s]. }
  case_bool_decide as H2.
  { intros [= <- <- <-]. exists 0, [b], r. split; [|by repeat split]. split; [|by repeat split; lia].
    cbn [header]. rewrite puthead_small by lia. f_equal. lia. }
  case_bool_decide as H3; [apply Hlarge; (done || lia)|].
  case_bool_decide as H4; [|apply Hlarge; (done || lia)].
  intros [= <- <- <-]. exists 0, [b], r. split; [|by repeat split]. split; [|by repeat split; lia].
  cbn [header]. rewrite puthead_small by lia. f_equal. lia.
Qed.

Lemma readKind_total s : wf s → ∃ r s', readKind s = (Ret r, s') ∧ r.2 ≠ Some EOL.
Proof.
  intros Hs. destruct (decide (1 ≤ room s)) as [Hl|Hl].
  - destruct (readByte_ok s Hs Hl) as (b & r & Hi & _). rewrite (readKind_run s b r) by done.
    destruct (wf_advance 1 s Hs ltac:(lia)) as [Hs1 Hr1].
    assert (is_bytes (input s)) as Hb by apply Hs. rewrite Hi in Hb. apply Forall_cons in Hb as [Hb _]. unfold is_byte in Hb.
    unfold read_tag. repeat case_bool_decide; try (do 2 eexists; by split);
      (apply read_size_total; [by apply wf_byteval|lia]).
  - destruct (readByte_far s Hs ltac:(lia)) as (e & s1 & Hr & He). unfold readKind.
    unfold try, mbind, M_bind, gets. rewrite Hr. destruct (stack s1); do 2 eexists; (split; [done|]); cbn;
      destruct He as [-> | ->]; by repeat case_decide.
Qed.

(** [Kind] after [readKind]: does the value fit? *)
Lemma Kind_run s k sz err s1 :
  kind s = None → at_end (stack s) = false → readKind (set_kinderr None s) = (Ret (k, sz, err), s1) →
  let s2 := set_kinderr err (set_vsize sz (set_kind (Some k) s1)) in
  match err with
  | Some e => Kind_ s = (Fail e, s2)
  | None => wf s1 → 0 ≤ sz →
            if bool_decide (sz ≤ room s1) then Kind_ s = (Ret (k, sz), s2)
            else ∃ e s', Kind_ s = (Fail e, s') ∧ e ≠ EOL
  end.
Proof.
  intros Hk Hend Hrk s2. subst s2.
  destruct s as [inp rem lim k0 vs bv ke st], s1 as [inp1 rem1 lim1 k1 vs1 bv1 ke1 st1].
  cbn [kind stack] in *. subst k0. unfold Kind_.
  unfold set_kinderr in Hrk. cbn [input remaining limited kind vsize byteval stack] in Hrk. run_stream. rewrite Hend, Hrk. destruct err as [e|]; [done|].
  intros Hwf Hsz. pose proof (wf_room _ Hwf) as Hr.
  destruct Hwf as [Hl Hrem Hlen Hb Hnest]. unfold room in *. cbn [limited remaining input stack] in *. subst lim1 rem1.
  destruct st1 as [|p st1].
  - cbn [andb]. case_bool_decide as H1; [rewrite bool_decide_eq_false_2 by lia|rewrite bool_decide_eq_true_2 by lia; eauto]. done.
  - destruct Hnest as (H1 & H2 & H3 & H4 & H5). unfold sub64. rewrite Z.mod_small by lia.
    case_bool_decide as H6; [rewrite bool_decide_eq_false_2 by lia|rewrite bool_decide_eq_true_2 by lia; eauto]. done.
Qed.

Lemma wf_kinderr e s : wf s → wf (set_kinderr e s).
Proof. by intros []. Qed.

Lemma len_head k sz x h : head_ok k sz x h → 1 ≤ len h.
Proof.
  destruct k; intros (-> & _); [done|..]; cbn [header]; unfold puthead; case_bool_decide; try done;
    rewrite len_cons; pose proof (len_nonneg (putint sz)); lia.
Qed.

Lemma head_size k sz x h : head_ok k sz x h → 0 ≤ sz.
Proof. destruct k; intros (? & ? & ?); lia. Qed.

Lemma Kind_head s k sz x h rest :
  wf s → kind s = None → head_ok k sz x h → input s = h ++ rest → len h + sz ≤ room s →
  Kind_ s = (Ret (k, sz), arm k sz x (advance (len h) s)).
Proof.
  intros Hs Hk Hh Hi Hroom. pose proof (len_head _ _ _ _ Hh). pose proof (head_size _ _ _ _ Hh).
  destruct (wf_advance (len h) s Hs ltac:(lia)) as [Hs1 Hr1].
  assert (at_end (stack s) = false) as Hend.
  { unfold room in Hroom. destruct (stack s) as [|p st]; [done|]. apply bool_decide_eq_false_2. lia. }
  pose proof (readKind_head (set_kinderr None s) k sz x h rest (wf_kinderr _ _ Hs) Hh Hi ltac:(change (len h ≤ room s); lia)) as Hrk.
  pose proof (Kind_run s k sz None _ Hk Hend Hrk) as Hrun. cbn beta iota zeta in Hrun.
  change (room (set_byteval x (advance (len h) (set_kinderr None s)))) with (room (advance (len h) s)) in Hrun.
  rewrite bool_decide_eq_true_2 in Hrun by lia. rewrite Hrun; [by destruct s| |done].
  by apply wf_byteval; destruct s, Hs1.
Qed.

Lemma Kind_spec s :
  wf s → kind s = None →
  (at_end (stack s) = true ∧ Kind_ s = (Fail EOL, set_kinderr None s)) ∨
  (∃ k sz x h rest, head_ok k sz x h ∧ input s = h ++ rest ∧ len h + sz ≤ room s ∧
     Kind_ s = (Ret (k, sz), arm k sz x (advance (len h) s))) ∨
  (∃ e s', Kind_ s = (Fail e, s') ∧ e ≠ EOL).
Proof.
  intros Hs Hk. destruct (at_end (stack s)) eqn:Hend.
  { left. split; [done|]. destruct s. cbn [kind stack] in *. subst. unfold Kind_. run_stream. by rewrite Hend. }
  right. destruct (readKind_total (set_kinderr None s)) as ([[k sz] err] & s1 & Hrk & Herr); [by apply wf_kinderr|].
  pose proof (Kind_run s k sz err _ Hk Hend Hrk) as Hrun. destruct err as [e|]; [right; eexists _, _; split; [exact Hrun|]; intros ->; by apply Herr|].
  apply readKind_inv' in Hrk as (x & h & rest & Hh & Hi & Hl & ->); [|by apply wf_kinderr].
  change (input s = h ++ rest) in Hi. change (len h ≤ room s) in Hl.
  pose proof (len_head _ _ _ _ Hh). pose proof (head_size _ _ _ _ Hh).
  destruct (wf_advance (len h) s Hs ltac:(lia)) as [Hs1 Hr1].
  specialize (Hrun ltac:(by apply wf_byteval; destruct s, Hs1) ltac:(done)).
  change (room (set_byteval x (advance (len h) (set_kinderr None s)))) with (room (advance (len h) s)) in Hrun.
  case_bool_decide as Hfit; [left|by right].
  exists k, sz, x, h, rest. split_and!; [done|done|lia|]. rewrite Hrun. by destruct s.
Qed.
