(* ===== verification/RlpDecode.v ===== *)
(** The decoders of [common/rlp/decode.go] invert the encoder of [common/rlp/encode.go]: each
    decoder reads the encodings of its type and nothing else, first for the parts of the
    stream ([inverts], [fills]), then for every type by induction on it. *)
From S2P Require Import Prelude Bytes HexKeys Rlp RlpRaw RlpStream.
Open Scope Z_scope.

(** ** Decoders that invert an encoding *)
Definition ready (s : Stream) : Prop := wf s ∧ kind s = None.

(** [s'] is [s] after the bytes [p]. *)
Definition moved (p : bytes) (s s' : Stream) : Prop :=
  input s = p ++ input s' ∧ stack s' = bump (len p) (stack s) ∧ ready s'.

(** [dec] reads the encodings [G] describes and no other input: it stops at the end of a list
    with [EOL], or succeeds and has consumed an encoding of its result, or fails; and it does
    succeed wherever an encoding is in front.  [N] bounds the input its fuel is made for. *)
Record inverts {A} (N : nat) (dec : D A) (G : A → bytes → Prop) : Prop := {
  inv_run s : ready s → (length (input s) < N)%nat →
    if at_end (stack s) then ∃ s', dec s = (Fail EOL, s') ∧ moved [] s s'
    else (∃ a p s', dec s = (Ret a, s') ∧ G a p ∧ moved p s s') ∨
         (∃ e s', dec s = (Fail e, s') ∧ e ≠ EOL);
  inv_complete s a p rest : ready s → (length (input s) < N)%nat → G a p →
    input s = p ++ rest → len p ≤ room s → ∃ s', dec s = (Ret a, s') ∧ moved p s s';
  inv_nonempty a p : G a p → p ≠ [] }.

Definition armed (k : Kind) (sz x : Z) (s : Stream) : Prop :=
  wf s ∧ kind s = Some k ∧ byteval s = x ∧ kinderr s = None ∧ vsize s = sz ∧ 0 ≤ sz ≤ room s.

Lemma moved_nil s s' : input s' = input s → stack s' = stack s → ready s' → moved [] s s'.
Proof. intros Hi Hst Hr. split; [by rewrite Hi|]. split; [by rewrite bump_0|done]. Qed.

Lemma moved_advance n s : wf s → 0 ≤ n ≤ room s → moved (take (Z.to_nat n) (input s)) s (advance n s).
Proof.
  intros Hs Hn. pose proof (wf_room s Hs). destruct (wf_advance n s Hs Hn). split; [symmetry; apply take_drop|].
  split; [|done]. by rewrite len_take by lia.
Qed.

Lemma wf_arm k sz x s : wf s → wf (arm k sz x s).
Proof. by intros []. Qed.

Lemma ready_kind s : wf s → ready (set_kind None s).
Proof. by intros []. Qed.

Lemma bump_len_app (p q : bytes) st : bump (len q) (bump (len p) st) = bump (len (p ++ q)) st.
Proof. by rewrite bump_bump, len_app. Qed.

(** A decoder that begins with [Kind]. *)
Lemma inverts_kind {A} N (f : Kind * Z → D A) (G : A → bytes → Prop) :
  (∀ k sz x h s, head_ok k sz x h → armed k sz x s → (S (length (input s)) < N)%nat →
     (∃ a p s', f (k, sz) s = (Ret a, s') ∧ G a (h ++ p) ∧ moved p s s') ∨
     (∃ e s', f (k, sz) s = (Fail e, s') ∧ e ≠ EOL)) →
  (∀ a p, G a p → len p < 2 ^ 63 → ∃ k sz x h q, p = h ++ q ∧ head_ok k sz x h ∧ sz = len q ∧
     ∀ s rest, armed k sz x s → (S (length (input s)) < N)%nat → input s = q ++ rest →
       ∃ s', f (k, sz) s = (Ret a, s') ∧ moved q s s') →
  (∀ a p, G a p → p ≠ []) →
  inverts N (Kind_ ≫= f) G.
Proof.
  intros Hrun Hcomplete Hne. split; [| |done].
  - intros s [Hs Hk] HN. destruct (Kind_spec s Hs Hk) as [[Hend Hkd]|[(k & sz & x & h & rest & Hh & Hi & Hl & Hkd)|(e & s' & Hkd & He)]].
    + rewrite Hend. exists (set_kinderr None s). rewrite (run_bind_Fail _ _ _ _ _ Hkd). split; [done|].
      apply moved_nil; [done..|]. split; [by apply wf_kinderr|done].
    + pose proof (len_head _ _ _ _ Hh). pose proof (head_size _ _ _ _ Hh). pose proof (wf_room s Hs).
      assert (at_end (stack s) = false) as ->.
      { unfold room in Hl. destruct (stack s) as [|p st]; [done|]. apply bool_decide_eq_false_2. lia. }
      rewrite (run_bind_Ret _ _ _ _ _ Hkd). destruct (wf_advance (len h) s Hs ltac:(lia)) as [Hs1 Hr1].
      assert (input (advance (len h) s) = rest) as Hi1.
      { cbn [advance set_input input]. rewrite Hi. unfold len. by rewrite Nat2Z.id, drop_app_length. }
      destruct (Hrun k sz x h (arm k sz x (advance (len h) s)) Hh) as [(a & p & s' & Hf & HG & Hi' & Hst & Hrd)|(e & s' & Hf & He)].
      * split_and!; [by apply wf_arm|done..|]. change (sz ≤ room (advance (len h) s)). lia.
      * change (S (length (input (advance (len h) s))) < N)%nat. rewrite Hi1. rewrite Hi, length_app in HN. unfold len in *. lia.
      * left. exists a, (h ++ p), s'. split; [done|]. split; [done|]. split_and!; [|by rewrite Hst, <-bump_len_app|apply Hrd..].
        rewrite <-app_assoc, <-Hi'. rewrite Hi. f_equal. symmetry. exact Hi1.
      * right. eauto.
    + rewrite (run_bind_Fail _ _ _ _ _ Hkd). destruct (at_end (stack s)) eqn:Hend; [|eauto]. exfalso.
      destruct s as [inp rem lim k0 vs bv ke st]. cbn [kind stack] in *. subst k0. unfold Kind_ in Hkd. revert Hkd. run_stream. rewrite Hend. naive_solver.
  - intros s a p rest [Hs Hk] HN HG Hi Hl. pose proof (wf_room s Hs). pose proof (wf_len s Hs).
    destruct (Hcomplete a p HG ltac:(lia)) as (k & sz & x & h & q & -> & Hh & -> & Hf).
    pose proof (len_head _ _ _ _ Hh). pose proof (len_nonneg q). rewrite len_app in Hl. rewrite <-app_assoc in Hi.
    pose proof (Kind_head s k (len q) x h (q ++ rest) Hs Hk Hh Hi ltac:(lia)) as Hkd.
    destruct (wf_advance (len h) s Hs ltac:(lia)) as [Hs1 Hr1].
    assert (input (advance (len h) s) = q ++ rest) as Hi1.
    { cbn [advance set_input input]. rewrite Hi. unfold len. by rewrite Nat2Z.id, drop_app_length. }
    destruct (Hf (arm k (len q) x (advance (len h) s)) rest) as (s' & Hrun' & Hi' & Hst & Hrd).
    + split_and!; [by apply wf_arm|done..|]. change (len q ≤ room (advance (len h) s)). lia.
    + change (S (length (input (advance (len h) s))) < N)%nat. rewrite Hi1. rewrite Hi, length_app in HN. unfold len in *. lia.
    + exact Hi1.
    + exists s'. rewrite (run_bind_Ret _ _ _ _ _ Hkd). split; [done|]. split_and!; [|by rewrite Hst, <-bump_len_app|apply Hrd..].
      rewrite <-app_assoc, <-Hi'. rewrite Hi. f_equal. symmetry. exact Hi1.
Qed.

(** *** Strings, raw values and numbers *)
Definition G_str (b p : bytes) : Prop := is_bytes b ∧ p = enc_str b.

Lemma enc_str_small x : x < 128 → enc_str [x] = [x].
Proof. intros Hx. unfold enc_str. by rewrite bool_decide_eq_true_2 by lia. Qed.

Lemma enc_str_big c : is_small c = false → enc_str c = header String_ (len c) ++ c.
Proof.
  intros Hc. destruct (enc_str_item c) as [He _]. unfold str_kind in He. by rewrite Hc in He.
Qed.

Lemma is_small_true c : is_small c = true → ∃ x, c = [x] ∧ x < 128.
Proof. destruct c as [|x [|y c]]; try done. cbn. intros Hx%bool_decide_eq_true_1. eauto. Qed.

Lemma moved_kind k sz x s : armed k sz x s → moved [] s (set_kind None s).
Proof. intros (Hs & _). apply moved_nil; [done..|by apply ready_kind]. Qed.

Lemma armed_full k sz x s :
  armed k sz x s →
  let c := take (Z.to_nat sz) (input s) in
  readFull sz s = (Ret c, advance sz s) ∧ len c = sz ∧ is_bytes c ∧ moved c s (advance sz s).
Proof.
  intros (Hs & _ & _ & _ & _ & Hsz). pose proof (wf_room s Hs). split_and!.
  - by apply readFull_ok.
  - apply len_take. lia.
  - apply Forall_take, Hs.
  - by apply moved_advance.
Qed.

Lemma take_len_app {A} (q rest : list A) : take (Z.to_nat (len q)) (q ++ rest) = q.
Proof. unfold len. by rewrite Nat2Z.id, take_app_length. Qed.

(** A string in front, canonical or not. *)
Lemma string_head c : is_bytes c → len c < 2 ^ 64 → head_ok String_ (len c) 0 (header String_ (len c)).
Proof. intros Hc Hl. split_and!; [done..|apply len_nonneg|done]. Qed.

Lemma index_0 {A} (c : list A) : c ≠ [] → ∃ x c', c = x :: c' ∧ index c 0 = Ret x.
Proof. destruct c as [|x c]; [done|]. eauto. Qed.

(** The check for a byte that should have been its own encoding. *)
Lemma single_check {A} (c : bytes) sz (good bad : D A) (s : Stream) :
  len c = sz →
  (if bool_decide (sz = 1) then
     b0 ← lift (index c 0); if bool_decide (b0 < 128) then bad else good
   else good) s = (if is_small c then bad else good) s.
Proof.
  intros <-. destruct c as [|x [|y c]]; [done| |].
  - rewrite bool_decide_eq_true_2 by done. change (index [x] 0) with (Ret x).
    unfold lift, mbind, M_bind. cbn [is_small]. by case_bool_decide.
  - rewrite bool_decide_eq_false_2; [done|]. rewrite !len_cons. pose proof (len_nonneg c). lia.
Qed.

Lemma enc_str_nonempty b : enc_str b ≠ [].
Proof.
  destruct (is_small b) eqn:Hs.
  - apply is_small_true in Hs as (x & -> & Hx). by rewrite enc_str_small.
  - rewrite enc_str_big by done. cbn [header]. unfold puthead. by case_bool_decide.
Qed.

Lemma Bytes_inverts N : inverts N Bytes G_str.
Proof.
  apply inverts_kind.
  - intros k sz x h s Hh Ha _. destruct k; cbn beta iota.
    + left. destruct Hh as (-> & Hx & ->). exists [x], [], (set_kind None s). split; [|split].
      * destruct Ha as (_ & _ & Hb & _). destruct s as [inp rem lim k0 vs bv ke st]. cbn in *. by subst.
      * split; [by repeat constructor; lia|]. rewrite enc_str_small by lia. done.
      * by eapply moved_kind.
    + destruct Hh as (-> & -> & Hsz). destruct (armed_full _ _ _ _ Ha) as (Hrf & Hl & Hb & Hm).
      rewrite (run_bind_Ret _ _ _ _ _ Hrf). rewrite single_check by done. destruct (is_small _) eqn:Hsm; [right; by eexists _, _|].
      left. eexists _, _, _. split; [done|]. split; [|exact Hm]. split; [done|]. by rewrite enc_str_big, Hl by done.
    + right. by eexists _, _.
  - intros b p [Hb ->] Hlp. destruct (is_small b) eqn:Hsm.
    + apply is_small_true in Hsm as (x & -> & Hx). apply Forall_cons in Hb as [Hb _]. unfold is_byte in Hb.
      exists Byte, 0, x, [x], []. rewrite enc_str_small by done. split; [done|]. split; [by repeat split; lia|]. split; [done|].
      intros s rest Ha _ Hi. exists (set_kind None s). split; [|by eapply moved_kind].
      destruct Ha as (_ & _ & Hbv & _). destruct s as [inp rem lim k0 vs bv ke st]. cbn in *. by subst.
    + rewrite enc_str_big in * by done. rewrite len_app in Hlp. pose proof (len_nonneg b). pose proof (len_nonneg (header String_ (len b))).
      exists String_, (len b), 0, (header String_ (len b)), b. split; [done|]. split; [by repeat split; lia|]. split; [done|].
      intros s rest Ha _ Hi. destruct (armed_full _ _ _ _ Ha) as (Hrf & Hl & Hb' & Hm). rewrite Hi, take_len_app in *.
      exists (advance (len b) s). split; [|done]. cbn beta iota. rewrite (run_bind_Ret _ _ _ _ _ Hrf).
      rewrite single_check by done. by rewrite Hsm.
  - intros b p [_ ->]. apply enc_str_nonempty.
Qed.

Definition raw_ok (b : bytes) : Prop :=
  ∃ k c, b = item k c ∧ is_bytes c ∧ (k = Byte → is_small c = true).
Definition G_raw (b p : bytes) : Prop := p = b ∧ raw_ok b.

Lemma Raw_inverts N : inverts N Raw G_raw.
Proof.
  apply inverts_kind.
  - intros k sz x h s Hh Ha _. left. destruct (decide (k = Byte)) as [->|Hk].
    + destruct Hh as (-> & Hx & ->). exists [x], [], (set_kind None s). split; [|split].
      * destruct Ha as (_ & _ & Hb & _). destruct s as [inp rem lim k0 vs bv ke st]. cbn in *. by subst.
      * split; [done|]. exists Byte, [x]. split; [done|]. split; [by repeat constructor; lia|]. intros _. apply bool_decide_eq_true_2. lia.
      * by eapply moved_kind.
    + assert (h = header k sz ∧ x = 0 ∧ 0 ≤ sz < 2 ^ 64) as (-> & -> & Hsz) by by destruct k.
      destruct (armed_full _ _ _ _ Ha) as (Hrf & Hl & Hb & Hm). set (c := take _ _) in *.
      exists (header k sz ++ c), c, (advance sz s). split; [|split; [|exact Hm]].
      * destruct k; [done|..]; by rewrite (run_bind_Ret _ _ _ _ _ Hrf).
      * split; [done|]. exists k, c. unfold item. by rewrite Hl.
  - intros b p [-> (k & c & -> & Hb & Hsm)] Hlp. destruct (decide (k = Byte)) as [->|Hk].
    + destruct (is_small_true c) as (x & -> & Hx); [by apply Hsm|]. apply Forall_cons in Hb as [Hb _]. unfold is_byte in Hb.
      exists Byte, 0, x, [x], []. split; [done|]. split; [by repeat split; lia|]. split; [done|].
      intros s rest Ha _ Hi. exists (set_kind None s). split; [|by eapply moved_kind].
      destruct Ha as (_ & _ & Hbv & _). destruct s as [inp rem lim k0 vs bv ke st]. cbn in *. by subst.
    + unfold item in *. rewrite len_app in Hlp. pose proof (len_nonneg c). pose proof (len_nonneg (header k (len c))).
      exists k, (len c), 0, (header k (len c)), c. split; [done|].
      split; [destruct k; [done|..]; by repeat split; lia|]. split; [done|].
      intros s rest Ha _ Hi. destruct (armed_full _ _ _ _ Ha) as (Hrf & Hl & Hb' & Hm). rewrite Hi, take_len_app in *.
      exists (advance (len c) s). split; [|done]. destruct k; [done|..]; by rewrite (run_bind_Ret _ _ _ _ _ Hrf).
  - intros b p [-> (k & c & -> & Hb & Hsm)]. unfold item. destruct k; cbn [header].
    + by destruct (is_small_true c) as (x & -> & Hx); [apply Hsm|].
    + unfold puthead. by case_bool_decide.
    + unfold puthead. by case_bool_decide.
Qed.

(** Numbers without leading zeros. *)
Definition no_lead (c : bytes) : bool := match c with 0 :: _ => false | _ => true end.

Lemma no_lead_cons x c : no_lead (x :: c) = negb (bool_decide (x = 0)).
Proof. by destruct x. Qed.

Lemma be_val_low x c : is_bytes (x :: c) → x ≠ 0 → 256 ^ len c ≤ be_val (x :: c).
Proof.
  intros [Hx Hc]%Forall_cons Hne. unfold is_byte in Hx. pose proof (be_val_bound c Hc). cbn [be_val].
  assert (0 < 256 ^ len c) by (apply Z.pow_pos_nonneg; [lia|apply len_nonneg]). nia.
Qed.

Lemma big_Bytes_val c : is_bytes c → no_lead c = true → big_Bytes (be_val c) = c.
Proof.
  intros Hc Hn. destruct c as [|x c]; [done|]. rewrite no_lead_cons in Hn. apply negb_true_iff, bool_decide_eq_false in Hn.
  pose proof (be_val_low x c Hc Hn) as Hlow. pose proof (be_val_bound _ Hc) as Hb. rewrite len_cons in Hb.
  pose proof (len_nonneg c). assert (0 < 256 ^ len c) by (apply Z.pow_pos_nonneg; lia).
  unfold big_Bytes. rewrite bool_decide_eq_false_2 by lia.
  rewrite (intsize_unique _ (1 + len c)); [|lia..|intros _; by replace (1 + len c - 1) with (len c) by lia].
  replace (Z.to_nat (1 + len c)) with (length (x :: c)) by (unfold len; simpl; lia). by apply be_bytes_val.
Qed.

Lemma big_Bytes_ok i :
  0 ≤ i → is_bytes (big_Bytes i) ∧ be_val (big_Bytes i) = i ∧ no_lead (big_Bytes i) = true ∧
  ∀ n, 0 ≤ n → i < 256 ^ n ↔ len (big_Bytes i) ≤ n.
Proof.
  intros Hi. unfold big_Bytes. case_bool_decide as H0.
  { subst i. split_and!; [constructor|done..|]. intros n Hn. change (len []) with 0.
    assert (0 < 256 ^ n) by (apply Z.pow_pos_nonneg; lia). lia. }
  destruct (intsize_spec i Hi) as (Hq1 & Hq2 & Hq3).
  split; [apply be_bytes_ok|]. split.
  { rewrite be_val_bytes by done. rewrite Z2Nat.id by lia. by apply Z.mod_small. }
  assert (256 ^ (intsize i - 1) ≤ i) as Hlow.
  { destruct (decide (1 < intsize i)); [by apply Hq3|]. replace (intsize i - 1) with 0 by lia. change (256 ^ 0) with 1. lia. }
  split.
  - destruct (Z.to_nat (intsize i)) as [|n] eqn:Hn; [lia|]. cbn [be_bytes]. rewrite no_lead_cons.
    apply negb_true_iff, bool_decide_eq_false. intros Hz. rewrite Z.shiftr_div_pow2 in Hz by lia.
    assert (intsize i = Z.of_nat (S n)) as Hsz by lia. rewrite Hsz in *.
    assert (2 ^ (8 * Z.of_nat n) = 256 ^ Z.of_nat n) as Hp by (change 256 with (2 ^ 8); by rewrite <-Z.pow_mul_r by lia).
    rewrite Hp in Hz. rewrite Nat2Z.inj_succ in *. replace (Z.succ (Z.of_nat n) - 1) with (Z.of_nat n) in Hlow by lia.
    rewrite Z.pow_succ_r in Hq2 by lia. assert (0 < 256 ^ Z.of_nat n) by (apply Z.pow_pos_nonneg; lia).
    assert (1 ≤ i / 256 ^ Z.of_nat n) by (apply Z.div_le_lower_bound; lia).
    assert (i / 256 ^ Z.of_nat n < 256) by (apply Z.div_lt_upper_bound; lia).
    rewrite Z.mod_small in Hz by lia. lia.
  - intros n Hn. unfold len. rewrite length_be_bytes. rewrite Z2Nat.id by lia. split.
    + intros Hlt. destruct (decide (intsize i ≤ n)) as [|Hgt]; [done|]. exfalso.
      assert (256 ^ n ≤ 256 ^ (intsize i - 1)) by (apply Z.pow_le_mono_r; lia). lia.
    + intros Hle. assert (256 ^ intsize i ≤ 256 ^ n) by (apply Z.pow_le_mono_r; lia). lia.
Qed.

Definition G_uint (bits i : Z) (p : bytes) : Prop := 0 ≤ i < 2 ^ bits ∧ p = enc_str (big_Bytes i).

Lemma uint_of_no_lead c : no_lead c = true → uint_of c = Ret (be_val c).
Proof. destruct c as [|x c]; [done|]. rewrite no_lead_cons, uint_of_cons. intros Hn%negb_true_iff%bool_decide_eq_false. by rewrite bool_decide_eq_false_2 by naive_solver. Qed.

Lemma big_Bytes_small x : 0 < x < 128 → big_Bytes x = [x].
Proof.
  intros Hx. replace x with (be_val [x]) at 1 by (change (x * 1 + 0 = x); lia). apply big_Bytes_val.
  - repeat constructor; lia.
  - rewrite no_lead_cons. apply negb_true_iff, bool_decide_eq_false. lia.
Qed.

(** What [uint] accepts of the content of a string. *)
Lemma uint_content c v :
  is_bytes c → uint_of c = Ret v → (0 < len c ∧ v < 128 → False) →
  c = big_Bytes v ∧ is_small c = false ∧ 0 ≤ v < 256 ^ len c.
Proof.
  intros Hb Hu Hc. destruct c as [|x c].
  { injection Hu as <-. done. }
  rewrite uint_of_cons in Hu. case_bool_decide as H0; [done|]. assert (be_val (x :: c) = v) as <- by congruence.
  pose proof (be_val_bound _ Hb) as Hbd. rewrite len_cons in Hc. pose proof (len_nonneg c).
  assert (x ≠ 0) as Hx.
  { intros ->. destruct c as [|y c]; [|by apply H0]. apply Hc. split; [done|]. done. }
  split_and!; [| |lia..].
  - symmetry. apply big_Bytes_val; [done|]. rewrite no_lead_cons. by apply negb_true_iff, bool_decide_eq_false.
  - destruct (is_small (x :: c)) eqn:Hs; [|done]. apply is_small_true in Hs as (y & [= -> ->] & Hy). exfalso.
    apply Hc. change (len []) with 0. split; [lia|]. change (y * 1 + 0 < 128). lia.
Qed.

Lemma big_Bytes_content i :
  0 ≤ i → is_small (big_Bytes i) = false → uint_of (big_Bytes i) = Ret i ∧ ¬ (0 < len (big_Bytes i) ∧ i < 128).
Proof.
  intros Hi Hs. destruct (big_Bytes_ok i Hi) as (Hb & Hv & Hn & Hl). split; [by rewrite uint_of_no_lead, Hv|].
  intros [Hl0 H128]. destruct (decide (i = 0)) as [->|Hne]; [done|]. rewrite big_Bytes_small in Hs by lia.
  cbn in Hs. apply bool_decide_eq_false in Hs. lia.
Qed.

Lemma uint_inverts N bits :
  8 ≤ bits ≤ 64 → bits = 8 * (bits / 8) → inverts N (uint bits) (G_uint bits).
Proof.
  intros Hbits H8. assert (2 ^ bits = 256 ^ (bits / 8)) as Hpow.
  { rewrite H8 at 1. change 256 with (2 ^ 8). rewrite <-Z.pow_mul_r by lia. done. }
  assert (256 ≤ 256 ^ (bits / 8)) as Hmin by (change 256 with (256 ^ 1) at 1; apply Z.pow_le_mono_r; lia).
  apply inverts_kind.
  - intros k sz x h s Hh Ha _. destruct k; cbn beta iota.
    + destruct Hh as (-> & Hx & ->). assert (byteval s = x) as Hb by apply Ha.
      assert (gets byteval s = (Ret x, s)) as Hg by (unfold gets; by rewrite Hb).
      rewrite !(run_bind_Ret _ _ _ _ _ Hg). case_bool_decide as H0; [right; by eexists _, _|].
      left. exists x, [], (set_kind None s). split; [done|]. split; [|by eapply moved_kind].
      split; [lia|]. rewrite big_Bytes_small, enc_str_small by lia. done.
    + destruct Hh as (-> & -> & Hsz). case_bool_decide as Hover; [right; by eexists _, _|].
      destruct (armed_full _ _ _ _ Ha) as (_ & Hl & Hb & Hm). pose proof Ha as (Hs & _ & _ & _ & _ & Hfit).
      unfold try, mbind, M_bind. rewrite readUint_ok by (done || lia). set (c := take _ _) in *.
      destruct (uint_of c) as [v|e| |] eqn:Hu.
      * case_bool_decide as Hc; [right; by eexists _, _|]. left.
        apply uint_content in Hu as (Hc' & Hsm & Hv); [|done|by rewrite Hl]. exists v, c, (advance sz s). split; [done|]. split; [|done].
        assert (256 ^ len c ≤ 256 ^ (bits / 8)) by (apply Z.pow_le_mono_r; lia).
        split; [lia|]. rewrite <-Hc'. by rewrite enc_str_big, Hl by done.
      * right. assert (e = ErrCanonSize) as -> by (clear -Hu; unfold uint_of in Hu; by repeat case_match; simplify_eq).
        rewrite decide_True by done. by eexists _, _.
      * unfold uint_of in Hu. by repeat case_match.
      * unfold uint_of in Hu. by repeat case_match.
    + right. by eexists _, _.
  - intros i p [Hi ->] Hlp. destruct (big_Bytes_ok i ltac:(lia)) as (Hb & Hv & Hn & Hl).
    destruct (is_small (big_Bytes i)) eqn:Hsm.
    + apply is_small_true in Hsm as (x & Hx & Hx'). rewrite Hx in *. rewrite enc_str_small by done.
      assert (x = i) as -> by (rewrite <-Hv; change (x = x * 1 + 0); lia).
      rewrite no_lead_cons in Hn. apply negb_true_iff, bool_decide_eq_false in Hn.
      exists Byte, 0, i, [i], []. split; [done|]. split; [by repeat split; lia|]. split; [done|].
      intros s rest Ha _ _. exists (set_kind None s). split; [|by eapply moved_kind]. assert (byteval s = i) as Hbv by apply Ha.
      assert (gets byteval s = (Ret i, s)) as Hg by (unfold gets; by rewrite Hbv).
      cbn beta iota. rewrite (run_bind_Ret _ _ _ _ _ Hg). by rewrite bool_decide_eq_false_2.
    + pose proof (proj1 (Hl (bits / 8) ltac:(lia)) ltac:(lia)) as Hl8. set (c := big_Bytes i) in *. pose proof (len_nonneg c).
      rewrite enc_str_big in * by done. exists String_, (len c), 0, (header String_ (len c)), c.
      split; [done|]. split; [by repeat split; lia|]. split; [done|].
      intros s rest Ha _ Hin. destruct (armed_full _ _ _ _ Ha) as (_ & _ & _ & Hm). pose proof Ha as (Hs & _ & _ & _ & _ & Hfit).
      exists (advance (len c) s). rewrite Hin, take_len_app in Hm. split; [|done]. cbn beta iota.
      rewrite bool_decide_eq_false_2 by lia. unfold try, mbind, M_bind. rewrite readUint_ok by (done || lia).
      rewrite Hin, take_len_app. destruct (big_Bytes_content i ltac:(lia) Hsm) as [Hu Hc]. fold c in Hu, Hc. rewrite Hu.
      by rewrite bool_decide_eq_false_2.
  - intros i p [_ ->]. apply enc_str_nonempty.
Qed.

(** *** Combining decoders *)
Lemma wrap_EOL e : wrapStreamError e = EOL ↔ e = EOL.
Proof. unfold wrapStreamError. split; [|by intros ->]. repeat case_decide; by try subst. Qed.

Lemma ctx_EOL e c : addErrorContext e c = EOL ↔ e = EOL.
Proof. unfold addErrorContext. by destruct e. Qed.

Lemma inverts_wrapping {A} N (dec : D A) G : inverts N dec G → inverts N (wrapping dec) G.
Proof.
  intros [Hrun Hcomplete Hne]. split; [| |done].
  - intros s Hs HN. specialize (Hrun s Hs HN). unfold wrapping. destruct (at_end (stack s)).
    + destruct Hrun as (s' & -> & Hm). by exists s'.
    + destruct Hrun as [(a & p & s' & -> & HG & Hm)|(e & s' & -> & He)]; [by eauto 10|].
      right. do 2 eexists. split; [done|]. by rewrite wrap_EOL.
  - intros s a p rest Hs HN HG Hi Hl. destruct (Hcomplete s a p rest Hs HN HG Hi Hl) as (s' & Hd & Hm).
    exists s'. unfold wrapping. by rewrite Hd.
Qed.

(** A result that is checked and converted. *)
Lemma inverts_map {A B} N (dec : D A) G (k : A → D B) (f : A → outcome B) :
  inverts N dec G → (∀ a s, k a s = (f a, s)) →
  (∀ a, match f a with Ret _ => True | Fail e => e ≠ EOL | _ => False end) →
  inverts N (a ← dec; k a) (λ b p, ∃ a, f a = Ret b ∧ G a p).
Proof.
  intros [Hrun Hcomplete Hne] Hk Hf. split.
  - intros s Hs HN. specialize (Hrun s Hs HN). destruct (at_end (stack s)).
    + destruct Hrun as (s' & Hd & Hm). exists s'. by rewrite (run_bind_Fail _ _ _ _ _ Hd).
    + destruct Hrun as [(a & p & s' & Hd & HG & Hm)|(e & s' & Hd & He)].
      * rewrite !(run_bind_Ret _ _ _ _ _ Hd), Hk. specialize (Hf a). destruct (f a) as [b|e| |] eqn:Hfa; try done.
        -- left. exists b, p, s'. eauto 10.
        -- right. by exists e, s'.
      * right. exists e, s'. by rewrite (run_bind_Fail _ _ _ _ _ Hd).
  - intros s b p rest Hs HN (a & Hfa & HG) Hi Hl. destruct (Hcomplete s a p rest Hs HN HG Hi Hl) as (s' & Hd & Hm).
    exists s'. by rewrite (run_bind_Ret _ _ _ _ _ Hd), Hk, Hfa.
  - intros b p (a & _ & HG). eauto.
Qed.

Lemma inverts_ext {A} N (dec dec' : D A) G G' :
  (∀ s, dec s = dec' s) → (∀ a p, G a p ↔ G' a p) → inverts N dec G → inverts N dec' G'.
Proof.
  intros Hd HG [Hrun Hcomplete Hne]. split.
  - intros s Hs HN. specialize (Hrun s Hs HN). rewrite <-Hd. destruct (at_end (stack s)); [done|].
    destruct Hrun as [(a & p & s' & Hr & Hg & Hm)|?]; [left; exists a, p, s'; by rewrite <-HG|by right].
  - intros s a p rest Hs HN Hg%HG Hi Hl. rewrite <-Hd. eauto.
  - intros a p Hg%HG. eauto.
Qed.

Lemma inverts_fmap {A B} N (dec : D A) G (f : A → B) :
  inverts N dec G → inverts N (a ← dec; mret (f a)) (λ b p, ∃ a, f a = b ∧ G a p).
Proof.
  intros H. eapply inverts_ext; [done| |apply (inverts_map N dec G (λ a, mret (f a)) (λ a, Ret (f a)) H)]; [|done..].
  intros b p. cbn beta. split; intros (a & Ha & HG); exists a; (split; [|done]); congruence.
Qed.

(** *** What a list holds *)

(** A decoder of the whole content of a list. *)
Record fills {A} (N : nat) (dec : D A) (G : A → bytes → Prop) : Prop := {
  fill_run s : ready s → stack s ≠ [] → (length (input s) < N)%nat →
    (∃ a p s', dec s = (Ret a, s') ∧ G a p ∧ moved p s s') ∨ (∃ e s', dec s = (Fail e, s') ∧ e ≠ EOL);
  fill_complete s a p rest : ready s → stack s ≠ [] → (length (input s) < N)%nat → G a p →
    input s = p ++ rest → len p = room s → ∃ s', dec s = (Ret a, s') ∧ moved p s s' }.

Lemma moved_trans p q s1 s2 s3 : moved p s1 s2 → moved q s2 s3 → moved (p ++ q) s1 s3.
Proof.
  intros (Hi1 & Hs1 & _) (Hi2 & Hs2 & Hr). split; [by rewrite Hi1, Hi2, app_assoc|].
  split; [by rewrite Hs2, Hs1, bump_len_app|done].
Qed.

Lemma moved_room p s s' : moved p s s' → room s' = room s - len p.
Proof.
  intros (Hi & Hst & _). unfold room. rewrite Hst. destruct (stack s); cbn [bump pos psize]; [rewrite Hi, len_app|]; lia.
Qed.

Lemma moved_stack p s s' : moved p s s' → stack s ≠ [] → stack s' ≠ [].
Proof. intros (_ & -> & _). by destruct (stack s). Qed.

Lemma moved_input p s s' : moved p s s' → length (input s) = (length p + length (input s'))%nat.
Proof. intros (-> & _). apply length_app. Qed.

Lemma at_end_room s : wf s → stack s ≠ [] → at_end (stack s) = true ↔ room s = 0.
Proof.
  intros Hs Hne. unfold at_end, room. destruct (stack s); [done|]. rewrite bool_decide_eq_true. lia.
Qed.

Definition G_cons {A} (G : A → bytes → Prop) (H : list A → bytes → Prop) (vs : list A) (p : bytes) : Prop :=
  ∃ v vs' p1 p2, vs = v :: vs' ∧ p = p1 ++ p2 ∧ G v p1 ∧ H vs' p2.
Definition G_nil {A} (vs : list A) (p : bytes) : Prop := vs = [] ∧ p = [].
Definition G_elems {A} (G : A → bytes → Prop) (vs : list A) (p : bytes) : Prop :=
  ∃ ps, Forall2 G vs ps ∧ p = concat ps.

Lemma fills_nil {A} N : fills N (mret []) (@G_nil A).
Proof.
  split.
  - intros s Hs _ _. left. exists [], [], s. split; [done|]. split; [done|]. by apply moved_nil.
  - intros s vs p rest Hs _ _ [-> ->] Hi Hl. exists s. split; [done|]. by apply moved_nil.
Qed.

(** An element that must be there, then the others. *)
Lemma fills_cons {A} N (dec : D A) G rest H e1 ctx :
  inverts N dec G → fills N rest H → e1 ≠ EOL →
  fills N (r ← try dec;
           match r with
           | inl err => if decide (err = EOL) then fail e1 else fail (addErrorContext err ctx)
           | inr v => vs ← rest; mret (v :: vs)
           end) (G_cons G H).
Proof.
  intros [Hrun Hcomplete Hne] [Hfr Hfc] He1. split.
  - intros s Hs Hst HN. specialize (Hrun s Hs HN). destruct (at_end (stack s)).
    { right. destruct Hrun as (s' & Hd & _). unfold try, mbind, M_bind. rewrite Hd. by eexists _, _. }
    destruct Hrun as [(a & p & s' & Hd & HG & Hm)|(e & s' & Hd & He)]; unfold try, mbind, M_bind; rewrite Hd.
    + assert (Hr' := proj2 (proj2 Hm)).
      destruct (Hfr s' Hr') as [(vs & q & s'' & Hd' & HH & Hm')|(e & s'' & Hd' & He)];
        [by eapply moved_stack|apply moved_input in Hm; lia|..]; rewrite Hd'.
      * left. exists (a :: vs), (p ++ q), s''. split; [done|]. split; [by exists a, vs, p, q|]. by eapply moved_trans.
      * right. by exists e, s''.
    + right. rewrite decide_False by done. do 2 eexists. split; [done|]. by rewrite ctx_EOL.
  - intros s vs p rst Hs Hst HN (v & vs' & p1 & p2 & -> & -> & HG & HH) Hi Hl. pose proof (len_nonneg p2).
    rewrite len_app in Hl. rewrite <-app_assoc in Hi.
    destruct (Hcomplete s v p1 _ Hs HN HG Hi ltac:(lia)) as (s' & Hd & Hm).
    assert (input s' = p2 ++ rst) as Hi' by (destruct Hm as (Hm & _); rewrite Hi in Hm; by apply app_inv_head in Hm).
    destruct (Hfc s' vs' p2 rst) as (s'' & Hd' & Hm'); [apply Hm|by eapply moved_stack|apply moved_input in Hm; lia|done..| |].
    { rewrite (moved_room _ _ _ Hm). lia. }
    exists s''. unfold try, mbind, M_bind. rewrite Hd, Hd'. split; [done|]. by eapply moved_trans.
Qed.

(** The last field of a struct may take the rest of the list. *)
Lemma fills_tail {A} N (dec : D A) G e1 ctx :
  fills N dec G →
  fills N (r ← try dec;
           match r with
           | inl err => if decide (err = EOL) then fail e1 else fail (addErrorContext err ctx)
           | inr v => vs ← mret []; mret (v :: vs)
           end) (λ vs p, ∃ v, vs = [v] ∧ G v p).
Proof.
  intros [Hfr Hfc]. split.
  - intros s Hs Hst HN. destruct (Hfr s Hs Hst HN) as [(a & p & s' & Hd & HG & Hm)|(e & s' & Hd & He)];
      unfold try, mbind, M_bind; rewrite Hd; [left; by eauto 10|]. right. rewrite decide_False by done.
    do 2 eexists. split; [done|]. by rewrite ctx_EOL.
  - intros s vs p rst Hs Hst HN (v & -> & HG) Hi Hl. destruct (Hfc s v p rst Hs Hst HN HG Hi Hl) as (s' & Hd & Hm).
    exists s'. unfold try, mbind, M_bind. by rewrite Hd.
Qed.

Lemma array_fills N (dec : D gval) G n i :
  inverts N dec G → fills N (array_elems n dec i) (λ vs p, length vs = n ∧ G_elems G vs p).
Proof.
  intros Hdec. revert i. induction n as [|n IH]; intros i.
  - destruct (@fills_nil gval N) as [Hr Hc]. split.
    + intros s Hs Hst HN. destruct (Hr s Hs Hst HN) as [(a & p & s' & Hd & [-> ->] & Hm)|?]; [left|by right].
      exists [], [], s'. split; [done|]. split; [|done]. split; [done|]. exists []. by repeat constructor.
    + intros s vs p rest Hs Hst HN [Hl (ps & Hps & ->)]. destruct vs; [|done]. inversion Hps; subst. by apply Hc.
  - destruct (fills_cons N dec G _ _ (decodeError "input list has too few elements") (elem_ctx i) Hdec (IH (i + 1))) as [Hr Hc];
      [done|]. split.
    + intros s Hs Hst HN. destruct (Hr s Hs Hst HN) as [(vs & p & s' & Hd & (v & vs' & p1 & p2 & -> & -> & HG & Hl & ps & Hps & ->) & Hm)|?]; [left|by right].
      eexists _, _, s'. split; [done|]. split; [|done]. split; [by f_equal/=|]. exists (p1 :: ps). split; [by constructor|done].
    + intros s vs p rest Hs Hst HN [Hl (ps & Hps & ->)]. destruct vs as [|v vs]; [done|]. inversion Hps; subst. apply Hc; try done.
      eexists _, _, _, _. split; [done|]. split; [done|]. split; [done|]. split; [by injection Hl|]. by eexists.
Qed.

Lemma slice_fills N (dec : D gval) G fuel i :
  inverts N dec G → (N ≤ fuel)%nat → fills N (decodeSliceElems fuel dec i) (G_elems G).
Proof.
  intros [Hrun Hcomplete Hne] HNf.
  assert (∀ s fuel i, ready s → stack s ≠ [] → (length (input s) < N)%nat → (length (input s) < fuel)%nat →
    (∃ vs p s', decodeSliceElems fuel dec i s = (Ret vs, s') ∧ G_elems G vs p ∧ moved p s s') ∨
    (∃ e s', decodeSliceElems fuel dec i s = (Fail e, s') ∧ e ≠ EOL)) as Hr.
  { clear fuel i HNf. intros s fuel. revert s. induction fuel as [|fuel IH]; intros s i Hs Hst HN Hf; [lia|].
    cbn [decodeSliceElems]. specialize (Hrun s Hs HN). destruct (at_end (stack s)).
    { left. destruct Hrun as (s' & Hd & Hm). exists [], [], s'. unfold try, mbind, M_bind. rewrite Hd.
      rewrite decide_True by done. split; [done|]. split; [|done]. exists []. by repeat constructor. }
    destruct Hrun as [(a & p & s' & Hd & HG & Hm)|(e & s' & Hd & He)]; unfold try, mbind, M_bind; rewrite Hd.
    - pose proof (moved_input _ _ _ Hm). assert (length p ≠ 0%nat) by (specialize (Hne _ _ HG); by destruct p).
      destruct (IH s' (i + 1)) as [(vs & q & s'' & Hd' & (ps & Hps & ->) & Hm')|(e & s'' & Hd' & He)];
        [apply Hm|by eapply moved_stack|lia..| |]; rewrite Hd'.
      + left. exists (a :: vs), (p ++ concat ps), s''. split; [done|]. split; [|by eapply moved_trans].
        exists (p :: ps). split; [by constructor|done].
      + right. by exists e, s''.
    - right. rewrite decide_False by done. do 2 eexists. split; [done|]. by rewrite ctx_EOL. }
  split; [intros s Hs Hst HN; apply Hr; (done || lia)|].
  intros s vs p rest Hs Hst HN (ps & Hps & ->) Hi Hl.
  assert (length (input s) < fuel)%nat as Hf by lia. clear HNf. revert s fuel i Hs Hst HN Hf Hi Hl.
  induction Hps as [|v p vs ps HG Hps IH]; intros s fuel i Hs Hst HN Hf Hi Hl; (destruct fuel as [|fuel]; [lia|]);
    cbn [decodeSliceElems concat] in *; unfold try, mbind, M_bind.
  - specialize (Hrun s Hs HN). rewrite (proj2 (at_end_room s (proj1 Hs) Hst)) in Hrun by done.
    destruct Hrun as (s' & Hd & Hm). exists s'. rewrite Hd. by rewrite decide_True.
  - rewrite len_app in Hl. rewrite <-app_assoc in Hi. pose proof (len_nonneg (concat ps)).
    destruct (Hcomplete s v p _ Hs HN HG Hi ltac:(lia)) as (s' & Hd & Hm). rewrite Hd.
    assert (length p ≠ 0%nat) by (specialize (Hne _ _ HG); by destruct p). pose proof (moved_input _ _ _ Hm).
    destruct (IH s' fuel (i + 1)) as (s'' & Hd' & Hm'); [apply Hm|by eapply moved_stack|lia..| | |].
    { destruct Hm as (Hm & _). rewrite Hi in Hm. by apply app_inv_head in Hm. }
    { rewrite (moved_room _ _ _ Hm). lia. }
    exists s''. rewrite Hd'. split; [done|]. by eapply moved_trans.
Qed.

(** *** Lists *)
Lemma inverts_wrap_bind {A B} N (m : D A) (g : A → D B) G :
  inverts N (m ≫= g) G → inverts N (wrapping m ≫= g) G.
Proof.
  assert (∀ s, (∀ e s', m s ≠ (Fail e, s')) → (wrapping m ≫= g) s = (m ≫= g) s) as Hsame.
  { intros s Hm. unfold wrapping, mbind, M_bind. destruct (m s) as [[] s'] eqn:He; naive_solver. }
  intros [Hrun Hcomplete Hne]. split; [| |done].
  - intros s Hs HN. specialize (Hrun s Hs HN). destruct (m s) as [[a|e| |] s1] eqn:Hm;
      try (rewrite Hsame by (rewrite Hm; naive_solver); done).
    unfold wrapping, mbind, M_bind in *. rewrite Hm in *. destruct (at_end (stack s)).
    + destruct Hrun as (s' & [= -> <-] & ?). eauto.
    + right. destruct Hrun as [(? & ? & ? & ? & _)|(? & ? & [= <- <-] & ?)]; [done|]. do 2 eexists. split; [done|]. by rewrite wrap_EOL.
  - intros s a p rest Hs HN HG Hi Hl. destruct (Hcomplete s a p rest Hs HN HG Hi Hl) as (s' & Hd & ?). exists s'.
    rewrite Hsame; [done|]. intros e s1 Hm. by rewrite (run_bind_Fail _ _ _ _ _ Hm) in Hd.
Qed.

Definition push (sz : Z) (s : Stream) : Stream :=
  set_vsize 0 (set_kind None (set_stack (mkPos 0 sz :: stack s) s)).

Lemma ready_push x sz s : armed List_ sz x s → ready (push sz s) ∧ room (push sz s) = sz.
Proof.
  intros (Hs & _ & _ & _ & _ & Hsz). pose proof (wf_room s Hs). destruct Hs as [Hl Hrem Hlen Hb Hnest].
  split; [|unfold room; cbn; lia]. split; [|done]. split; [done..|]. cbn [push stack set_vsize set_kind set_stack nested pos psize].
  change (input (push sz s)) with (input s). repeat split; try lia. unfold room in *.
  destruct (stack s) as [|p st]; cbn [nested]; [lia|]. destruct Hnest as (H1 & H2 & H3 & H4 & H5). repeat split; try lia.
  by replace (len (input s) - (sz - 0 - 0) - (psize p - pos p - sz)) with (len (input s) - (psize p - pos p - 0)) by lia.
Qed.

(** The end of the list gives the position back to the enclosing one. *)
Lemma ListEnd_ok p sz s s' :
  wf s → moved p (push sz s) s' → len p = sz → ∃ s'', ListEnd s' = (Ret tt, s'') ∧ moved p s s''.
Proof.
  intros Hs (Hi & Hst & [Hs' Hk']) Hlp. cbn [push stack set_vsize set_kind set_stack bump pos psize] in Hst.
  change (input (push sz s)) with (input s) in Hi. destruct Hs' as [Hl Hrem Hlen Hb Hnest].
  destruct s' as [inp rem lim k vs bv ke st]. cbn [limited remaining input stack kind] in *. subst.
  cbn [nested pos psize] in Hnest. destruct Hnest as (_ & _ & _ & Hlt & Hnest).
  assert (match stack s with [] => [] | p0 :: q => mkPos (add64 (pos p0) (len p)) (psize p0) :: q end = bump (len p) (stack s)) as Hbump.
  { destruct (stack s) as [|q st]; [done|]. cbn [bump nested] in *. unfold add64. by rewrite Z.mod_small by lia. }
  exists (mkStream inp (len inp) true None 0 bv ke (bump (len p) (stack s))). split.
  - revert Hbump. generalize (stack s) as st. intros st Hbump. unfold ListEnd. run_stream. cbn [pos psize].
    rewrite bool_decide_eq_false_2 by lia. by rewrite Hbump.
  - split; [done|]. split; [done|]. split; [|done]. split; [done..|]. cbn [stack input].
    replace (len inp - (len p - (0 + len p) - 0)) with (len inp) in Hnest by lia.
    destruct (stack s) as [|q st]; [done|]. cbn [bump nested pos psize] in *. destruct Hnest as (? & ? & ? & ? & Hn). repeat split; try lia.
    by replace (len inp - (psize q - (pos q + len p) - 0)) with (len inp - (psize q - pos q - len p)) by lia.
Qed.

Lemma ListEnd_not_at_end p sz s s' :
  moved p (push sz s) s' → len p ≠ sz → ListEnd s' = (Fail errNotAtEOL, s').
Proof.
  intros (Hi & Hst & _) Hlp. destruct s' as [inp rem lim k vs bv ke st]. cbn [stack push set_vsize set_kind set_stack bump pos psize] in *. subst.
  unfold ListEnd. run_stream. cbn [pos psize]. by rewrite bool_decide_eq_true_2 by lia.
Qed.

Definition G_list {A} (G : A → bytes → Prop) (a : A) (p : bytes) : Prop :=
  ∃ q, G a q ∧ p = header List_ (len q) ++ q.

(** A list: its content is filled by [body], then the end of the list is checked. *)
Lemma inverts_list {A} N (body : Z → D A) (fin : D unit) G :
  (∀ s sz, ready s → stack s ≠ [] → room s = sz → (S (length (input s)) < N)%nat →
    (∃ a p s', body sz s = (Ret a, s') ∧ G a p ∧ moved p s s') ∨ (∃ e s', body sz s = (Fail e, s') ∧ e ≠ EOL)) →
  (∀ s a p rest sz, ready s → stack s ≠ [] → (S (length (input s)) < N)%nat → G a p →
    input s = p ++ rest → len p = room s → room s = sz → ∃ s', body sz s = (Ret a, s') ∧ moved p s s') →
  fin = ListEnd ∨ fin = wrapping ListEnd →
  inverts N (size ← List; a ← body size; fin ;; mret a) (G_list G).
Proof.
  intros Hrun Hcomplete Hfin.
  assert (∀ s s', ListEnd s = (Ret tt, s') → fin s = (Ret tt, s')) as Hfin1.
  { intros s s' Hl. destruct Hfin as [-> | ->]; [done|]. unfold wrapping. by rewrite Hl. }
  assert (∀ s s', ListEnd s = (Fail errNotAtEOL, s') → ∃ e, fin s = (Fail e, s') ∧ e ≠ EOL) as Hfin2.
  { intros s s' Hl. destruct Hfin as [-> | ->]; [by eexists|]. unfold wrapping. rewrite Hl. by eexists. }
  set (F := λ ks : Kind * Z, match ks with
    | (List_, size) => (modify (push size) ;; mret size) ≫= λ size, a ← body size; fin ;; mret a
    | _ => fail ErrExpectedList end).
  apply (inverts_ext N (Kind_ ≫= F) _ (G_list G)); [|done|].
  { intros s. unfold List, F, mbind, M_bind. destruct (Kind_ s) as [[[[] sz]| | |] s']; done. }
  apply inverts_kind.
  - intros k sz x h s Hh Ha HN. destruct k; [right; by eexists _, _..|].
    destruct Hh as (-> & -> & Hsz). destruct (ready_push _ _ _ Ha) as [Hrd Hroom]. cbn [F].
    change ((modify (push sz) ;; mret sz) ≫= ?g) with (λ s, g sz (push sz s)). cbn beta.
    destruct (Hrun (push sz s) sz Hrd) as [(a & p & s' & Hb & HG & Hm)|(e & s' & Hb & He)]; [done|done|done|..].
    + rewrite !(run_bind_Ret _ _ _ _ _ Hb). destruct (decide (len p = sz)) as [Hl|Hl].
      * left. destruct (ListEnd_ok p sz s s') as (s'' & He & Hm'); [apply Ha|done..|]. apply Hfin1 in He.
        exists a, p, s''. rewrite (run_bind_Ret _ _ _ _ _ He). split; [done|]. split; [|done]. exists p. by rewrite Hl.
      * right. pose proof (ListEnd_not_at_end _ _ _ _ Hm Hl) as He. apply Hfin2 in He as (e & He & Hne).
        exists e, s'. by rewrite (run_bind_Fail _ _ _ _ _ He).
    + right. exists e, s'. by rewrite (run_bind_Fail _ _ _ _ _ Hb).
  - intros a p (q & HG & ->) Hlp. rewrite len_app in Hlp. pose proof (len_nonneg q). pose proof (len_nonneg (header List_ (len q))).
    exists List_, (len q), 0, (header List_ (len q)), q. split; [done|]. split; [by repeat split; lia|]. split; [done|].
    intros s rest Ha HN Hi. destruct (ready_push _ _ _ Ha) as [Hrd Hroom]. cbn [F].
    change ((modify (push (len q)) ;; mret (len q)) ≫= ?g) with (λ s, g (len q) (push (len q) s)). cbn beta.
    destruct (Hcomplete (push (len q) s) a q rest (len q) Hrd) as (s' & Hb & Hm); [done..|].
    destruct (ListEnd_ok q (len q) s s') as (s'' & He & Hm'); [apply Ha|done..|]. apply Hfin1 in He.
    exists s''. by rewrite (run_bind_Ret _ _ _ _ _ Hb), (run_bind_Ret _ _ _ _ _ He).
  - intros a p (q & _ & ->). cbn [header]. unfold puthead. by case_bool_decide.
Qed.

Lemma inverts_list_fills {A} N (body : D A) (fin : D unit) G :
  fills N body G → fin = ListEnd ∨ fin = wrapping ListEnd →
  inverts N (wrapping List ;; a ← body; fin ;; mret a) (G_list G).
Proof.
  intros [Hr Hc] Hfin. apply (inverts_wrap_bind N List (λ _, a ← body; fin ;; mret a)).
  apply (inverts_list N (λ _, body) fin G); [|intros; eapply Hc; (done || lia)|done].
  intros s sz Hs Hst _ HN. apply Hr; (done || lia).
Qed.

(** *** Types *)
Fixpoint iface_ok (v : gval) : Prop :=
  match v with
  | GIface (Some (GBytes b)) => is_bytes b
  | GIface (Some (GSlice vs)) => foldr (λ v P, iface_ok v ∧ P) True vs
  | _ => False
  end.

(** The values a decoder can make of a type. *)
Fixpoint has_type (t : gtype) (v : gval) : Prop :=
  match t, v with
  | TRaw, GRaw b => raw_ok b
  | TUint bits, GUint i => 0 ≤ i < 2 ^ bits
  | TBool, GBool _ => True
  | TBigInt, GBigInt (Some i) => 0 ≤ i
  | TString, GString b => is_bytes b
  | TBytes, GBytes b => is_bytes b
  | TByteArray n, GBytes b => is_bytes b ∧ length b = n
  | TSlice t, GSlice vs => Forall (has_type t) vs
  | TTail t, GTail vs => Forall (has_type t) vs
  | TArray n t, GSlice vs => length vs = n ∧ Forall (has_type t) vs
  | TStruct fs, GStruct vs =>
    (fix go (fs : list (string * gtype)) (vs : list gval) : Prop :=
       match fs, vs with
       | [], [] => True
       | f :: fs', v :: vs' => has_type f.2 v ∧ go fs' vs'
       | _, _ => False
       end) fs vs
  | TPtr t, v => has_type t v
  | TIface, v => iface_ok v
  | _, _ => False
  end.

(** Types without pointers that may be nil, without arrays of one byte, and with "tail" on the
    last field of a struct only. *)
Fixpoint plain (t : gtype) : bool :=
  match t with
  | TRaw | TBool | TBigInt | TString | TBytes | TIface => true
  | TUint bits => bool_decide (bits ∈ [8; 16; 32; 64])
  | TByteArray n => bool_decide (n ≠ 1%nat)
  | TSlice t | TArray _ t | TPtr t => plain t
  | TStruct fs =>
    (fix go (fs : list (string * gtype)) : bool :=
       match fs with
       | [] => true
       | [(_, TTail t)] => plain t
       | f :: fs' => plain f.2 && go fs'
       end) fs
  | TTail _ | TOptPtr _ => false
  end.

(** What the encoder writes for a value. *)
Definition encoding (v : gval) (p : bytes) : Prop := ∃ rs, shape v = Some rs ∧ p = concat (map enc rs).
Definition typed (t : gtype) (v : gval) (p : bytes) : Prop := has_type t v ∧ encoding v p.
Arguments encoding : simpl never.
Arguments typed : simpl never.

Lemma encoding_one v r p : shape v = Some [r] → encoding v p ↔ p = enc r.
Proof.
  intros Hs. unfold encoding. rewrite Hs. split.
  - intros (rs & [= <-] & ->). apply app_nil_r.
  - intros ->. exists [r]. split; [done|]. symmetry. apply app_nil_r.
Qed.

Lemma encodings vs q :
  (∃ rss, mapM shape vs = Some rss ∧ q = concat (map enc (concat rss))) ↔
  ∃ ps, Forall2 encoding vs ps ∧ q = concat ps.
Proof.
  split.
  - intros (rss & Hm & ->). apply mapM_Some in Hm. exists (map (λ rs, concat (map enc rs)) rss). split.
    + induction Hm as [|v rs vs rss Hv _ IH]; constructor; [by exists rs|done].
    + induction rss as [|rs rss IH] in |-*; [done|]. cbn [map concat]. by rewrite map_app, concat_app, IH.
  - intros (ps & Hps & ->). induction Hps as [|v p vs ps (rs & Hs & ->) _ (rss & Hm & IH)]; [by exists []|].
    exists (rs :: rss). cbn [mapM]. rewrite Hs. cbn [mbind option_bind]. rewrite Hm. split; [done|].
    cbn [concat map]. by rewrite map_app, concat_app, IH.
Qed.

Lemma encoding_list vs p (f : list gval → gval) :
  f = GSlice ∨ f = GStruct →
  encoding (f vs) p ↔ ∃ q, p = header List_ (len q) ++ q ∧ ∃ ps, Forall2 encoding vs ps ∧ q = concat ps.
Proof.
  intros Hf. assert (shape (f vs) = rs ← mapM shape vs; Some [RList (concat rs)]) as Hs by by destruct Hf as [-> | ->].
  setoid_rewrite <-encodings. unfold encoding. rewrite Hs. split.
  - intros (rs & (rss & Hm & [= <-])%bind_Some & ->). eexists. split; [apply app_nil_r|]. eauto.
  - intros (q & -> & rss & Hm & ->). rewrite Hm. eexists. split; [done|]. symmetry. apply app_nil_r.
Qed.

Lemma encoding_tail vs p : encoding (GTail vs) p ↔ ∃ ps, Forall2 encoding vs ps ∧ p = concat ps.
Proof.
  rewrite <-encodings. unfold encoding. cbn [shape]. split.
  - intros (rs & (rss & Hm & [= <-])%bind_Some & ->). eauto.
  - intros (rss & Hm & ->). rewrite Hm. eauto.
Qed.

(** A value of a type and its encoding, for the elements of a list. *)
Lemma Forall2_typed t vs ps : Forall2 (typed t) vs ps ↔ Forall (has_type t) vs ∧ Forall2 encoding vs ps.
Proof.
  split.
  - induction 1 as [|v p vs ps [Hv Hp] _ [IH1 IH2]]; by repeat constructor.
  - intros [Hv Hp]. induction Hp; [constructor|]. apply Forall_cons in Hv as [Hv Hvs]. constructor; [by split|auto].
Qed.

(** *** The decoder of each type *)
Lemma raw_decoder N : inverts N decodeRawValue (typed TRaw).
Proof.
  eapply inverts_ext; [done| |apply inverts_fmap, (Raw_inverts N)].
  intros v p. split.
  - intros (b & <- & -> & Hb). split; [done|]. by rewrite (encoding_one _ (RRaw b)).
  - intros [Hv He]. destruct v; try done. exists b. split; [done|]. rewrite (encoding_one _ (RRaw b)) in He by done. by split.
Qed.

Lemma uint_decoder N bits : bits ∈ [8; 16; 32; 64] → inverts N (decodeUint bits) (typed (TUint bits)).
Proof.
  intros Hb. assert (8 ≤ bits ≤ 64 ∧ bits = 8 * (bits / 8)) as [H1 H2].
  { repeat (apply elem_of_cons in Hb as [->|Hb]; [done|]). by apply not_elem_of_nil in Hb. }
  eapply inverts_ext; [done| |apply inverts_fmap, inverts_wrapping, (uint_inverts N bits H1 H2)].
  intros v p. split.
  - intros (i & <- & Hi & ->). split; [done|]. by rewrite (encoding_one _ (RStr (big_Bytes i))).
  - intros [Hv He]. destruct v; try done. exists i. split; [done|]. split; [done|].
    by rewrite (encoding_one _ (RStr (big_Bytes i))) in He.
Qed.

Lemma bool_decoder N : inverts N decodeBool (typed TBool).
Proof.
  assert (inverts N Bool (λ b p, ∃ i, (if bool_decide (i = 0) then Ret false else if bool_decide (i = 1) then Ret true
    else Fail (Errorf ("rlp: invalid boolean value: " ++ pretty i))) = Ret b ∧ G_uint 8 i p)) as HB.
  { apply (inverts_map N (uint 8)); [by apply uint_inverts|intros i s|intros i]; by repeat case_bool_decide. }
  eapply inverts_ext; [done| |apply inverts_fmap, inverts_wrapping, HB].
  intros v p. split.
  - intros (b & <- & i & Hb & Hi & ->). split; [done|].
    case_bool_decide; [|case_bool_decide; [|done]]; injection Hb as <-; subst i;
      [by rewrite (encoding_one _ (RStr []))|by rewrite (encoding_one _ (RStr [1]))].
  - intros [Hv He]. destruct v; try done. exists b. split; [done|].
    rewrite (encoding_one _ (RStr (if b then [1] else []))) in He by done. subst p.
    destruct b; [exists 1|exists 0]; done.
Qed.

Lemma bytes_decoder N (f : bytes → gval) t :
  (∀ b, shape (f b) = Some [RStr b]) → (∀ v, has_type t v ↔ ∃ b, v = f b ∧ is_bytes b) →
  inverts N (b ← wrapping Bytes; mret (f b)) (typed t).
Proof.
  intros Hf Ht. eapply inverts_ext; [done| |apply inverts_fmap, inverts_wrapping, (Bytes_inverts N)].
  intros v p. unfold typed. rewrite Ht. split.
  - intros (b & <- & Hb & ->). split; [by exists b|]. by rewrite (encoding_one _ (RStr b)).
  - intros [(b & -> & Hb) He]. exists b. split; [done|]. split; [done|]. by rewrite (encoding_one _ (RStr b)) in He.
Qed.

Lemma bigint_decoder N : inverts N decodeBigInt (typed TBigInt).
Proof.
  eapply inverts_ext; [| |apply (inverts_map N (wrapping Bytes) G_str
    (λ b, match b with 0 :: _ => fail (wrapStreamError ErrCanonInt) | _ => mret (GBigInt (Some (be_val b))) end)
    (λ b, if no_lead b then Ret (GBigInt (Some (be_val b))) else Fail (wrapStreamError ErrCanonInt)))];
    [done| |apply inverts_wrapping, Bytes_inverts|intros [|[] b]; done|intros b; by destruct (no_lead b)].
  intros v p. split.
  - intros (b & Hb & Hbs & ->). destruct (no_lead b) eqn:Hn; [|done]. assert (v = GBigInt (Some (be_val b))) as -> by congruence.
    pose proof (be_val_bound b Hbs). split; [cbn [has_type]; lia|]. rewrite (encoding_one _ (RStr (big_Bytes (be_val b)))).
    + by rewrite big_Bytes_val.
    + cbn [shape]. by rewrite bool_decide_eq_false_2 by lia.
  - intros [Hv He]. destruct v as [| | |[i|]| | | | | | | |]; try done. cbn [has_type] in Hv.
    destruct (big_Bytes_ok i Hv) as (Hb & Hval & Hn & _). exists (big_Bytes i). rewrite Hn, Hval. split; [done|]. split; [done|].
    rewrite (encoding_one _ (RStr (big_Bytes i))) in He; [done|]. cbn [shape]. by rewrite bool_decide_eq_false_2 by lia.
Qed.

Lemma array_decoder N n : n ≠ 1%nat → inverts N (decodeByteArray n) (typed (TByteArray n)).
Proof.
  intros Hn. apply inverts_kind.
  - intros k sz x h s Hh Ha _. destruct k; cbn beta iota.
    + right. case_bool_decide; [by eexists _, _|]. rewrite bool_decide_eq_true_2 by lia. by eexists _, _.
    + case_bool_decide; [right; by eexists _, _|]. case_bool_decide; [right; by eexists _, _|].
      destruct Hh as (-> & -> & Hsz). destruct (armed_full _ _ _ _ Ha) as (Hrf & Hl & Hb & Hm).
      assert (Z.of_nat n = sz) as -> by lia. rewrite !(run_bind_Ret _ _ _ _ _ Hrf). rewrite bool_decide_eq_false_2 by lia.
      left. eexists _, _, _. split; [done|]. split; [|exact Hm]. set (c := take _ _) in *.
      assert (length c = n) as Hlc by (unfold len in Hl; lia).
      split; [by split|]. rewrite (encoding_one _ (RStr c)) by done. cbn [enc]. rewrite enc_str_big, Hl; [done|].
      destruct c as [|y [|z c]]; [done| |done]. simpl in Hlc. lia.
    + right. by eexists _, _.
  - intros v p [Hv He] Hlp. destruct v; try done. destruct Hv as [Hb Hl]. rewrite (encoding_one _ (RStr b)) in He by done. subst p.
    assert (is_small b = false) as Hsm by (destruct b as [|y [|z b]]; [done| |done]; simpl in Hl; lia).
    cbn [enc] in *. rewrite enc_str_big in * by done. rewrite len_app in Hlp. pose proof (len_nonneg b).
    pose proof (len_nonneg (header String_ (len b))). exists String_, (len b), 0, (header String_ (len b)), b.
    split; [done|]. split; [by repeat split; lia|]. split; [done|].
    intros s rest Ha _ Hi. destruct (armed_full _ _ _ _ Ha) as (Hrf & _ & _ & Hm). rewrite Hi, take_len_app in *.
    exists (advance (len b) s). split; [|done]. assert (Z.of_nat n = len b) as -> by (unfold len; lia).
    cbn beta iota. rewrite !bool_decide_eq_false_2 by lia. rewrite (run_bind_Ret _ _ _ _ _ Hrf).
    by rewrite bool_decide_eq_false_2 by (unfold len; lia).
  - intros v p [Hv He]. destruct v; try done. rewrite (encoding_one _ (RStr b)) in He by done. subst p. apply enc_str_nonempty.
Qed.

Lemma slice_inverts N M fuel (dec : D gval) G :
  inverts M dec G → (M ≤ fuel)%nat → (N ≤ S M)%nat →
  inverts N (decodeListSlice fuel dec) (λ v p, ∃ vs, v = GSlice vs ∧ G_list (G_elems G) vs p).
Proof.
  intros Hdec Hf HN. destruct (slice_fills M dec G fuel 0 Hdec Hf) as [Hr Hc].
  set (body := λ size, if bool_decide (size = 0) then mret [] else decodeSliceElems fuel dec 0).
  apply (inverts_ext N (vs ← (size ← wrapping List; vs ← body size; ListEnd ;; mret vs); mret (GSlice vs)) _
    (λ v p, ∃ vs, GSlice vs = v ∧ G_list (G_elems G) vs p)); [|naive_solver|apply inverts_fmap, inverts_wrap_bind, inverts_list; [| |by left]].
  - intros s. unfold decodeListSlice, body, mbind, M_bind. destruct (wrapping List s) as [[sz| | |] s1]; try done.
    case_bool_decide; cbn [mret M_ret]; [|destruct (decodeSliceElems fuel dec 0 s1) as [[] s2]; try done];
      [destruct (ListEnd s1) as [[] ?]|destruct (ListEnd s2) as [[] ?]]; done.
  - intros s sz Hs Hst Hroom HN'. unfold body. case_bool_decide; [|apply Hr; (done || lia)].
    left. exists [], [], s. split; [done|]. split; [|by apply moved_nil]. exists []. by repeat constructor.
  - intros s vs p rest sz Hs Hst HN' HG Hi Hl Hroom. unfold body. case_bool_decide as H0; [|eapply Hc; (done || lia)].
    destruct HG as (ps & Hps & ->). assert (concat ps = []) as Hnil by (apply length_zero_iff_nil; unfold len in Hl; lia).
    destruct Hps as [|v p vs ps Hv _]; [|cbn [concat] in Hnil; apply app_nil in Hnil as [-> _]; by apply (inv_nonempty _ _ _ Hdec) in Hv].
    exists s. split; [done|]. by apply moved_nil.
Qed.

Lemma G_list_slice t vs p (f : list gval → gval) :
  f = GSlice ∨ f = GStruct →
  G_list (G_elems (typed t)) vs p ↔ Forall (has_type t) vs ∧ encoding (f vs) p.
Proof.
  intros Hf. rewrite (encoding_list vs p f Hf). unfold G_list, G_elems. split.
  - intros (q & (ps & Hps & ->) & ->). apply Forall2_typed in Hps as [Hv He]. split; [done|]. eauto 10.
  - intros (Hv & q & -> & ps & He & ->). exists (concat ps). split; [|done]. exists ps. split; [|done]. by apply Forall2_typed.
Qed.

Lemma list_decoder N fuel t (dec : D gval) :
  inverts N dec (typed t) → (N ≤ fuel)%nat → inverts N (decodeListSlice fuel dec) (typed (TSlice t)).
Proof.
  intros Hdec Hf. eapply inverts_ext; [done| |apply (slice_inverts N N fuel dec _ Hdec Hf); lia].
  intros v p. split.
  - intros (vs & -> & HG). apply (G_list_slice t vs p GSlice) in HG as [Hv He]; [|by left]. by split.
  - intros [Hv He]. destruct v; try done. exists vs. split; [done|]. apply (G_list_slice t vs p GSlice); [by left|]. by split.
Qed.

Lemma fixed_decoder N n t (dec : D gval) :
  inverts N dec (typed t) → inverts N (decodeListArray n dec) (typed (TArray n t)).
Proof.
  intros Hdec. eapply inverts_ext; [| |apply inverts_fmap with (f := GSlice), (inverts_list_fills N (array_elems n dec 0) (wrapping ListEnd));
    [by apply array_fills|by right]].
  - intros s. unfold decodeListArray, mbind, M_bind. destruct (wrapping List s) as [[] s1]; try done.
    destruct (array_elems n dec 0 s1) as [[] s2]; try done. by destruct (wrapping ListEnd s2) as [[] ?].
  - intros v p. split.
    + intros (vs & <- & q & [Hl Hq] & ->). assert (G_list (G_elems (typed t)) vs (header List_ (len q) ++ q)) as HG by by exists q.
      apply (G_list_slice t vs _ GSlice) in HG as [Hv He]; [|by left]. by repeat split.
    + intros [Hv He]. destruct v; try done. destruct Hv as [Hl Hv]. exists vs. split; [done|].
      destruct (proj2 (G_list_slice t vs p GSlice (or_introl eq_refl))) as (q & HG & ->); [done|]. by exists q.
Qed.

Lemma tail_fills N fuel t (dec : D gval) :
  inverts N dec (typed t) → (N ≤ fuel)%nat →
  fills N (vs ← decodeSliceElems fuel dec 0; mret (GTail vs)) (typed (TTail t)).
Proof.
  intros Hdec Hf. destruct (slice_fills N dec _ fuel 0 Hdec Hf) as [Hr Hc]. split.
  - intros s Hs Hst HN. destruct (Hr s Hs Hst HN) as [(vs & p & s' & Hd & (ps & Hps & ->) & Hm)|(e & s' & Hd & He)].
    + left. exists (GTail vs), (concat ps), s'. rewrite (run_bind_Ret _ _ _ _ _ Hd). split; [done|]. split; [|done].
      apply Forall2_typed in Hps as [Hv He]. split; [done|]. apply encoding_tail. eauto.
    + right. exists e, s'. by rewrite (run_bind_Fail _ _ _ _ _ Hd).
  - intros s v p rest Hs Hst HN [Hv He] Hi Hl. destruct v; try done. apply encoding_tail in He as (ps & He & ->).
    destruct (Hc s vs (concat ps) rest) as (s' & Hd & Hm); [done..| |done|done|].
    { exists ps. split; [|done]. by apply Forall2_typed. }
    exists s'. by rewrite (run_bind_Ret _ _ _ _ _ Hd).
Qed.

Lemma fills_ext {A} N (dec : D A) G G' : (∀ a p, G a p ↔ G' a p) → fills N dec G → fills N dec G'.
Proof.
  intros HG [Hr Hc]. split.
  - intros s Hs Hst HN. destruct (Hr s Hs Hst HN) as [(a & p & s' & Hd & Hg & Hm)|?]; [left|by right]. exists a, p, s'. by rewrite <-HG.
  - intros s a p rest Hs Hst HN Hg%HG. eauto.
Qed.

(** The fields of a struct and what they are written as. *)
Definition fields_typed (fs : list (string * gtype)) (vs : list gval) (p : bytes) : Prop :=
  has_type (TStruct fs) (GStruct vs) ∧ ∃ ps, Forall2 encoding vs ps ∧ p = concat ps.

Definition decoder_ok (N fuel : nat) (t : gtype) : Prop :=
  plain t = true → inverts N (makeDecoder fuel t) (typed t).

Lemma fields_cons f fs vs p :
  fields_typed (f :: fs) vs p ↔ G_cons (typed f.2) (fields_typed fs) vs p.
Proof.
  unfold fields_typed, G_cons. split.
  - intros [Hv (ps & Hps & ->)]. destruct Hps as [|v p vs ps He Hps]; [done|]. destruct Hv as [Hv Hvs].
    exists v, vs, p, (concat ps). split; [done|]. split; [done|]. split; [by split|]. split; [done|]. eauto.
  - intros (v & vs' & p1 & p2 & -> & -> & [Hv He] & Hvs & ps & Hps & ->). split; [by split|].
    exists (p1 :: ps). split; [by constructor|done].
Qed.

Lemma struct_fills N fuel fs :
  (N ≤ fuel)%nat →
  Forall (λ f, decoder_ok N fuel f.2 ∧ ∀ t, f.2 = TTail t → decoder_ok N fuel t) fs →
  plain (TStruct fs) = true →
  fills N (struct_fields (map (λ f, (f.1, makeDecoder fuel f.2)) fs)) (fields_typed fs).
Proof.
  intros Hf. induction 1 as [|[name t] fs [Hdec Htail] _ IH]; intros Hpl.
  - apply (fills_ext N _ G_nil); [|apply fills_nil]. intros vs p. unfold G_nil, fields_typed. split.
    + intros [-> ->]. split; [done|]. exists []. by repeat constructor.
    + intros [Hv (ps & Hps & ->)]. destruct vs; [|done]. by inversion Hps.
  - cbn [map struct_fields fst snd].
    assert ((fs = [] ∧ ∃ t', t = TTail t') ∨ ¬ (fs = [] ∧ ∃ t', t = TTail t')) as [[-> [t' ->]]|Hno]
      by (destruct fs; [destruct t; try (right; by intros [_ [? [=]]]); left; by eauto|right; by intros [[=] _]]).
    + apply (fills_ext N _ (λ vs p, ∃ v, vs = [v] ∧ typed (TTail t') v p)).
      * intros vs p. unfold fields_typed. split.
        -- intros (v & -> & Hv & He). split; [by split|]. exists [p]. split; [by repeat constructor|]. symmetry. apply app_nil_r.
        -- intros [Hv (ps & Hps & ->)]. destruct Hps as [|v p vs ps He Hps]; [done|]. destruct Hps; [|by destruct Hv].
           exists v. split; [done|]. destruct Hv as [Hv _]. split; [done|]. cbn [concat]. by rewrite app_nil_r.
      * apply fills_tail. cbn [makeDecoder]. apply tail_fills; [|done]. by apply Htail.
    + assert (plain t = true ∧ plain (TStruct fs) = true) as [Ht Hfs].
      { cbn [plain] in Hpl. destruct t; try (apply andb_true_iff in Hpl; exact Hpl).
        destruct fs; [exfalso; apply Hno; by eauto|]. by apply andb_true_iff in Hpl as [? _]. }
      apply (fills_ext N _ (G_cons (typed t) (fields_typed fs))); [intros; symmetry; apply (fields_cons (name, t))|].
      apply fills_cons; [by apply Hdec|by apply IH|done].
Qed.

Lemma struct_decoder N fuel fs :
  (N ≤ fuel)%nat →
  Forall (λ f, decoder_ok N fuel f.2 ∧ ∀ t, f.2 = TTail t → decoder_ok N fuel t) fs →
  decoder_ok N fuel (TStruct fs).
Proof.
  intros Hf Hfs Hpl. pose proof (struct_fills N fuel fs Hf Hfs Hpl) as Hfill.
  eapply inverts_ext; [| |apply inverts_fmap with (f := GStruct), (inverts_list_fills N _ (wrapping ListEnd) _ Hfill); by right].
  - intros s. cbn [makeDecoder]. unfold decodeStruct, mbind, M_bind. destruct (wrapping List s) as [[] s1]; try done.
    destruct (struct_fields _ s1) as [[] s2]; try done. by destruct (wrapping ListEnd s2) as [[] ?].
  - intros v p. unfold typed. split.
    + intros (vs & <- & q & [Hv Hq] & ->). split; [done|]. apply (encoding_list vs _ GStruct); [by right|]. eauto.
    + intros [Hv He]. destruct v; try done. exists fields. split; [done|].
      apply (encoding_list fields p GStruct) in He as (q & -> & Hq); [|by right]. exists q. by repeat split.
Qed.

(** *** Interfaces *)
Lemma Kind_armed k sz x s : Kind_ (arm k sz x s) = (Ret (k, sz), arm k sz x s).
Proof. by destruct s. Qed.

(** A decoder that looks at the kind first and then picks one of two. *)
Lemma inverts_choice {A} N (d1 d2 : D A) G1 G2 :
  inverts N d1 G1 → inverts N d2 G2 →
  (∀ s k sz x s', Kind_ s = (Ret (k, sz), arm k sz x s') →
     d1 (arm k sz x s') = d1 s ∧ d2 (arm k sz x s') = d2 s ∧
     (k ≠ List_ → ∀ a s'', d1 s ≠ (Ret a, s'')) ∧ (k = List_ → ∀ a s'', d2 s ≠ (Ret a, s''))) →
  (∀ s e s', Kind_ s = (Fail e, s') → ∀ a s'', d1 s ≠ (Ret a, s'') ∧ d2 s ≠ (Ret a, s'')) →
  inverts N (ks ← Kind_; match ks with (List_, _) => d1 | _ => d2 end) (λ a p, G1 a p ∨ G2 a p).
Proof.
  intros [Hr1 Hc1 Hn1] [Hr2 Hc2 Hn2] Hpeek Hfail. split; [| |naive_solver].
  - intros s Hs HN. specialize (Hr1 s Hs HN). specialize (Hr2 s Hs HN).
    destruct (Kind_spec s (proj1 Hs) (proj2 Hs)) as [[Hend Hkd]|[(k & sz & x & h & rest & Hh & Hi & Hl & Hkd)|(e & s' & Hkd & He)]].
    + rewrite Hend. rewrite (run_bind_Fail _ _ _ _ _ Hkd). exists (set_kinderr None s). split; [done|].
      apply moved_nil; [done..|]. split; [by apply wf_kinderr, Hs|apply Hs].
    + destruct (Hpeek _ _ _ _ _ Hkd) as (H1 & H2 & _). rewrite (run_bind_Ret _ _ _ _ _ Hkd).
      destruct k; [rewrite H2|rewrite H2|rewrite H1]; (destruct (at_end (stack s)); [done|]); naive_solver.
    + rewrite (run_bind_Fail _ _ _ _ _ Hkd). destruct (at_end (stack s)) eqn:Hend; [|eauto]. exfalso.
      destruct s as [inp rem lim k0 vs bv ke st]. destruct Hs as [_ Hk]. cbn [kind stack] in *. subst k0. unfold Kind_ in Hkd. revert Hkd. run_stream. rewrite Hend. naive_solver.
  - intros s a p rest Hs HN HG Hi Hl.
    assert (∃ s', (d1 s = (Ret a, s') ∨ d2 s = (Ret a, s')) ∧ moved p s s') as (s' & Hd & Hm) by naive_solver.
    exists s'. split; [|done]. destruct (Kind_spec s (proj1 Hs) (proj2 Hs)) as [[Hend Hkd]|[(k & sz & x & h & rst & Hh & Hi' & Hl' & Hkd)|(e & s1 & Hkd & He)]].
    + exfalso. destruct (Hfail _ _ _ Hkd a s'). naive_solver.
    + destruct (Hpeek _ _ _ _ _ Hkd) as (H1 & H2 & H3 & H4). rewrite (run_bind_Ret _ _ _ _ _ Hkd).
      destruct k; [rewrite H2|rewrite H2|rewrite H1]; destruct Hd as [Hd|Hd]; naive_solver.
    + exfalso. destruct (Hfail _ _ _ Hkd a s'). naive_solver.
Qed.

Lemma iface_ok_all vs : foldr (λ v P, iface_ok v ∧ P) True vs ↔ Forall iface_ok vs.
Proof. induction vs as [|v vs IH]; cbn; [split; [constructor|done]|]. rewrite Forall_cons. naive_solver. Qed.

Lemma iface_typed v p :
  typed TIface v p ↔
  (∃ w, GIface (Some w) = v ∧ ∃ vs, w = GSlice vs ∧ G_list (G_elems (typed TIface)) vs p) ∨
  (∃ b, GIface (Some (GBytes b)) = v ∧ G_str b p).
Proof.
  split.
  - intros [Hv He]. destruct v as [| | | | | |[[]|]| | | | |]; try done; cbn [has_type iface_ok] in Hv.
    + right. exists b. split; [done|]. split; [done|]. by rewrite (encoding_one _ (RStr b)) in He.
    + left. eexists. split; [done|]. eexists. split; [done|]. apply (G_list_slice TIface vs p GSlice); [by left|].
      split; [|done]. by apply iface_ok_all.
  - intros [(w & <- & vs & -> & HG)|(b & <- & Hb & ->)].
    + apply (G_list_slice TIface vs p GSlice) in HG as [Hv He]; [|by left]. split; [|done]. by apply iface_ok_all.
    + split; [done|]. by rewrite (encoding_one _ (RStr b)).
Qed.

Lemma iface_decoder N fuel : (N ≤ fuel)%nat → inverts N (decodeInterface fuel) (typed TIface).
Proof.
  revert N. induction fuel as [|fuel IH]; intros N HN.
  { split; [intros; lia..|]. intros v p [(w & _ & vs & _ & q & _ & ->)|(b & _ & _ & ->)]%iface_typed; [|apply enc_str_nonempty].
    cbn [header]. unfold puthead. by case_bool_decide. }
  eapply inverts_ext; [done|intros v p; symmetry; apply iface_typed|]. cbn [decodeInterface].
  pose proof (inverts_fmap N _ _ (λ v, GIface (Some v))
    (slice_inverts N fuel (S fuel) (decodeInterface fuel) _ (IH fuel (le_n _)) ltac:(lia) HN)) as H1.
  pose proof (inverts_fmap N _ _ (λ b, GIface (Some (GBytes b))) (Bytes_inverts N)) as H2.
  eapply inverts_ext; [| |apply (inverts_choice N _ _ _ _ H1 H2)]; [|done|..].
  - intros s. unfold mbind, M_bind. destruct (Kind_ s) as [[[[] ?]| | |] ?]; done.
  - intros s k sz x s' Hk. assert (∀ A (f : Kind * Z → D A), (Kind_ ≫= f) (arm k sz x s') = (Kind_ ≫= f) s) as Hpeek.
    { intros A f. by rewrite (run_bind_Ret _ _ _ _ _ Hk), (run_bind_Ret _ _ _ _ _ (Kind_armed _ _ _ _)). }
    assert (List (arm k sz x s') = List s) as HL by apply Hpeek.
    assert (Bytes (arm k sz x s') = Bytes s) as HB by apply Hpeek.
    split; [unfold decodeListSlice, wrapping, mbind, M_bind; by rewrite HL|].
    split; [unfold mbind, M_bind; by rewrite HB|]. split.
    + intros Hne a s''. assert (List s = (Fail ErrExpectedList, arm k sz x s')) as Hf.
      { unfold List. rewrite (run_bind_Ret _ _ _ _ _ Hk). by destruct k. }
      unfold decodeListSlice, wrapping, mbind, M_bind. by rewrite Hf.
    + intros -> a s''. unfold mbind, M_bind. unfold Bytes. by rewrite (run_bind_Ret _ _ _ _ _ Hk).
  - intros s e s' Hk a s''. unfold decodeListSlice, wrapping, List, Bytes, mbind, M_bind. by rewrite Hk.
Qed.

Lemma gtype_induction (P : gtype → Prop) :
  (∀ t, match t with TSlice _ | TTail _ | TArray _ _ | TStruct _ | TPtr _ | TOptPtr _ => False | _ => True end → P t) →
  (∀ t, P t → P (TSlice t) ∧ P (TTail t) ∧ (∀ n, P (TArray n t)) ∧ P (TPtr t) ∧ P (TOptPtr t)) →
  (∀ fs, Forall (λ f, P f.2) fs → P (TStruct fs)) → ∀ t, P t.
Proof.
  intros Hbase Hone Hstruct. fix IH 1. intros t.
  destruct t; try (by apply Hbase); try (by apply Hone, IH). apply Hstruct.
  induction fields as [|[name t] fs IHf]; constructor; [apply IH|exact IHf].
Qed.

Lemma makeDecoder_ok N fuel t : (N ≤ fuel)%nat → decoder_ok N fuel t ∧ ∀ t', t = TTail t' → decoder_ok N fuel t'.
Proof.
  intros Hf. revert t. apply gtype_induction.
  - intros t Hb. split; [|intros t' ->; done]. intros Hpl. destruct t; try done; cbn [makeDecoder].
    + apply raw_decoder.
    + apply uint_decoder. by apply bool_decide_eq_true_1 in Hpl.
    + apply bool_decoder.
    + apply bigint_decoder.
    + apply bytes_decoder; [done|]. intros v. split; [destruct v; try done; by eauto|by intros (b & -> & Hb')].
    + apply bytes_decoder; [done|]. intros v. split; [destruct v; try done; by eauto|by intros (b & -> & Hb')].
    + apply array_decoder. by apply bool_decide_eq_true_1 in Hpl.
    + by apply iface_decoder.
  - intros t [IH _]. split; [|split; [|split; [intros n|split]]]; (split; [intros Hpl|intros t' Ht]); try done.
    + apply list_decoder; [by apply IH|done].
    + by injection Ht as <-.
    + apply fixed_decoder. by apply IH.
    + exact (IH Hpl).
  - intros fs Hfs. split; [|done]. by apply struct_decoder.
Qed.

(** ** Round trips *)
Lemma is_bytes_head small large size : is_bytes (puthead small large size).
Proof.
  assert (∀ z, is_byte (z mod 256)) as Hm by (intros z; apply Z.mod_pos_bound; lia).
  unfold puthead. case_bool_decide; [constructor; [done|constructor]|]. constructor; [done|].
  unfold putint. repeat case_bool_decide; apply be_bytes_ok.
Qed.

Lemma is_bytes_enc_str b : is_bytes b → is_bytes (enc_str b).
Proof.
  intros Hb. destruct (enc_str_item b) as [-> _]. unfold item. apply Forall_app. split; [|done].
  unfold str_kind. destruct (is_small b); [constructor|apply is_bytes_head].
Qed.

(** The encoder accepts the value and writes bytes. *)
Definition writable (v : gval) : Prop := gval_ok v ∧ ∃ p, encoding v p ∧ is_bytes p.

Lemma writable_str v b : gval_ok v → shape v = Some [RStr b] → is_bytes b → writable v.
Proof.
  intros Hv Hs Hb. split; [done|]. exists (enc_str b). split; [by apply (encoding_one _ (RStr b))|by apply is_bytes_enc_str].
Qed.

Lemma writable_list vs : Forall writable vs → writable (GSlice vs) ∧ writable (GTail vs) ∧ writable (GStruct vs).
Proof.
  intros Hvs.
  assert (foldr (λ v P, gval_ok v ∧ P) True vs) as Hok by (induction Hvs as [|v vs [Hv _] _ IH]; by cbn).
  assert (∃ ps, Forall2 encoding vs ps ∧ is_bytes (concat ps)) as (ps & Hps & Hb).
  { clear Hok. induction Hvs as [|v vs (_ & p & Hp & Hb) _ (ps & Hps & IH)]; [exists []; by repeat constructor|].
    exists (p :: ps). split; [by constructor|]. by apply Forall_app. }
  assert (is_bytes (header List_ (len (concat ps)) ++ concat ps)) as Hbl by (apply Forall_app; split; [apply is_bytes_head|done]).
  split; [|split]; (split; [exact Hok|]).
  - eexists. split; [|exact Hbl]. apply (encoding_list vs _ GSlice); [by left|]. eauto.
  - exists (concat ps). split; [|done]. apply encoding_tail. eauto.
  - eexists. split; [|exact Hbl]. apply (encoding_list vs _ GStruct); [by right|]. eauto.
Qed.

Lemma writable_iface v : iface_ok v → writable v.
Proof.
  enough ((iface_ok v → writable v) ∧ ∀ vs, v = GSlice vs → Forall iface_ok vs → writable v) by naive_solver.
  revert v. apply (gval_induction (λ v, (iface_ok v → writable v) ∧ ∀ vs, v = GSlice vs → Forall iface_ok vs → writable v)).
  - intros v Hb. split; [by destruct v as [| | | | | |[]| | | | |]|]. intros vs ->. done.
  - intros v [_ IH]. split; [|done]. intros Hv. destruct v; try done; cbn [iface_ok] in Hv.
    + by apply (writable_str _ b).
    + apply iface_ok_all in Hv. destruct (IH vs eq_refl Hv) as [H1 H2]. by split.
  - intros vs IH. split; [|split; by split]. split; [done|]. intros vs' [= <-] Hvs.
    apply writable_list. apply Forall_forall. intros v Hin. rewrite Forall_forall in IH, Hvs. by apply IH, Hvs.
Qed.

Lemma typed_writable t v : plain t = true → has_type t v → writable v.
Proof.
  intros Hpl Hv. enough (∀ t, (∀ v, plain t = true → has_type t v → writable v) ∧
    (∀ t' v, t = TTail t' → plain t' = true → has_type t v → writable v)) as H by (by apply H in Hv).
  clear t v Hpl Hv. apply gtype_induction.
  - intros t Hb. split; [|intros t' v ->; done]. intros v Hpl Hv.
    destruct t; try done; try (by apply writable_iface); destruct v as [b|i|b|[i|]|b|s|w|vs|vs|vs| |]; try done; cbn [has_type] in Hv.
    + destruct Hv as (k & c & -> & Hb' & _). split; [done|]. exists (item k c). split; [by apply (encoding_one _ (RRaw (item k c)))|].
      apply Forall_app. split; [|done]. destruct k; [constructor|apply is_bytes_head..].
    + assert (2 ^ bits ≤ 2 ^ 64) by (apply bool_decide_eq_true_1 in Hpl; apply Z.pow_le_mono_r; [lia|];
        repeat (apply elem_of_cons in Hpl as [->|Hpl]; [lia|]); by apply not_elem_of_nil in Hpl).
      apply (writable_str _ (big_Bytes i)); [cbn; lia|done|]. apply big_Bytes_ok. lia.
    + apply (writable_str _ (if b then [1] else [])); [done..|]. destruct b; by repeat constructor.
    + apply (writable_str _ (big_Bytes i)); [done| |by apply big_Bytes_ok]. cbn [shape]. by rewrite bool_decide_eq_false_2 by lia.
    + by apply (writable_str _ s).
    + by apply (writable_str _ b).
    + destruct Hv. by apply (writable_str _ b).
  - intros t [IH _].
    assert (∀ vs, plain t = true → Forall (has_type t) vs → Forall writable vs) as Hall
      by (intros vs Hp Hvs; eapply Forall_impl; [exact Hvs|]; eauto).
    split; [|split; [|split; [intros n|split]]]; (split; [intros v Hpl Hv|intros t' v Ht Hpl Hv]); try done.
    + destruct v; try done. by apply writable_list, Hall.
    + injection Ht as <-. destruct v; try done. by apply writable_list, Hall.
    + destruct v; try done. destruct Hv as [_ Hv]. by apply writable_list, Hall.
    + by apply IH.
  - intros fs Hfs. split; [|done]. intros v Hpl Hv. destruct v; try done. apply writable_list. revert fields Hv.
    induction Hfs as [|[name t] fs [H1 H2] _ IH]; intros [|v vs] Hv; try done. destruct Hv as [Hv Hvs]. cbn [snd] in *.
    cbn [plain] in Hpl.
    assert ((plain t = true ∧ plain (TStruct fs) = true) ∨ ∃ t', t = TTail t' ∧ fs = [] ∧ plain t' = true) as [[Ht Hfs]|(t' & -> & -> & Ht')].
    { destruct t; try (left; apply andb_true_iff in Hpl; exact Hpl). destruct fs; [right; by eauto|]. by apply andb_true_iff in Hpl as [? _]. }
    + constructor; [by apply H1|]. by apply IH.
    + constructor; [by eapply H2|]. by destruct vs.
Qed.

(** The bytes the reference encoding gives to a value. *)
Definition written (v : gval) : bytes := concat (map enc (default [] (shape v))).

Lemma encoding_written v p : encoding v p → p = written v.
Proof. unfold encoding, written. by intros (rs & -> & ->). Qed.

Lemma EncodeToBytes_encoding v p : gval_ok v → encoding v p → len p < 2 ^ 64 → EncodeToBytes v = Ret p.
Proof. intros Hv (rs & Hs & ->) Hl. by apply EncodeToBytes_enc. Qed.

Lemma ready_NewStream b : is_bytes b → len b < 2 ^ 63 → ready (NewStream b (len b)).
Proof.
  intros Hb Hl. split; [|done]. unfold NewStream, Reset. pose proof (len_nonneg b). split; [done| |done..].
  cbn [remaining input]. by case_bool_decide.
Qed.

(** The decoder of a type inverts the encoder on a whole input. *)
Lemma DecodeBytes_spec b t :
  plain t = true → is_bytes b → len b < 2 ^ 63 →
  match DecodeBytes b t with Ret v => typed t v b | Fail _ => True | _ => False end ∧
  ∀ v, typed t v b → DecodeBytes b t = Ret v.
Proof.
  intros Hpl Hb Hl. set (N := S (S (length b))). destruct (proj1 (makeDecoder_ok N N t (le_n _)) Hpl) as [Hrun Hcomplete _].
  pose proof (ready_NewStream b Hb Hl) as Hs. assert (length (input (NewStream b (len b))) < N)%nat as HN by (unfold N; simpl; lia).
  split.
  - specialize (Hrun _ Hs HN). cbn [NewStream Reset stack at_end] in Hrun. unfold DecodeBytes, DecodeBytes_with, Decode. fold N.
    destruct Hrun as [(v & p & s' & Hd & HG & Hi & _)|(e & s' & Hd & _)]; unfold NewStream in *; rewrite Hd; [|done].
    case_bool_decide as H0; [done|]. cbn [Reset input] in Hi. assert (input s' = []) as Hnil by (destruct (input s') as [|y l]; [done|rewrite len_cons in H0; pose proof (len_nonneg l); lia]).
    rewrite Hnil, app_nil_r in Hi. by subst p.
  - intros v HG. destruct (Hcomplete (NewStream b (len b)) v b [] Hs HN HG) as (s' & Hd & Hi & _);
      [symmetry; apply app_nil_r|done|]. unfold DecodeBytes, DecodeBytes_with, Decode. fold N. rewrite Hd.
    cbn [NewStream Reset input] in Hi. assert (input s' = []) as -> by (apply (f_equal length) in Hi; rewrite length_app in Hi; destruct (input s'); [done|simpl in Hi; lia]).
    done.
Qed.

(** C34: decoding undoes encoding.  Every value a type can hold (nested structs, slices, arrays,
    interfaces, a "tail" field, integers of any width) is encoded to bytes that [DecodeBytes]
    turns back into that same value; types with "nil" pointers or arrays of one byte apart.  The
    encoding is shorter than [2^63]. *)
Theorem decode_undoes_encode t v :
  plain t = true → has_type t v → len (written v) < 2 ^ 63 →
  ∃ b, EncodeToBytes v = Ret b ∧ DecodeBytes b t = Ret v.
Proof.
  intros Hpl Hv Hl. destruct (typed_writable t v Hpl Hv) as [Hok (p & He & Hb)].
  pose proof (encoding_written _ _ He) as Hw. rewrite <-Hw in Hl. exists p. split; [apply EncodeToBytes_encoding; (done || lia)|].
  apply (DecodeBytes_spec p t); done.
Qed.

Definition example_type : gtype :=
  TStruct [("Nonce", TUint 64); ("To", TByteArray 3); ("Items", TSlice (TStruct [("Name", TString)]));
           ("Any", TIface); ("Rest", TTail TBool)].
Definition example_value : gval :=
  GStruct [GUint 1024; GBytes [7; 8; 9]; GSlice [GStruct [GString [104; 105]]; GStruct [GString []]];
           GIface (Some (GSlice [GIface (Some (GBytes [1]))])); GTail [GBool true; GBool false]].

Lemma decode_undoes_encode_witness :
  ∃ b, EncodeToBytes example_value = Ret b ∧ DecodeBytes b example_type = Ret example_value.
Proof.
  apply decode_undoes_encode; [reflexivity| |vm_compute; reflexivity].
  cbn. unfold is_bytes, is_byte. repeat split; repeat constructor; try lia; done.
Defined.

(** C33: into a [plain] type the decoder accepts nothing but canonical encodings: on any bytes,
    fewer than [2^63], [DecodeBytes] returns, either an error or a value of the type, and then encoding
    that value gives the very bytes it was decoded from, so no value has two encodings.  Plain are
    the types without a "nil" pointer and without an array of one byte, with "tail" on the last
    field of a struct only and unsigned integers of 8 to 64 bits.  The restriction is needed: an empty
    string and an empty list both decode to a nil pointer, and decoding a slice of one-byte
    arrays need not end (see [zero_byte_array_never_decoded]). *)
Theorem decode_accepts_only_encodings b t :
  plain t = true → is_bytes b → len b < 2 ^ 63 →
  match DecodeBytes b t with
  | Ret v => has_type t v ∧ EncodeToBytes v = Ret b
  | Fail _ => True
  | Panic _ | OutOfFuel => False
  end.
Proof.
  intros Hpl Hb Hl. destruct (DecodeBytes_spec b t Hpl Hb Hl) as [Hd _].
  destruct (DecodeBytes b t) as [v| | |]; try done. destruct Hd as [Hv He]. split; [done|].
  destruct (typed_writable t v Hpl Hv) as [Hok _]. apply EncodeToBytes_encoding; (done || lia).
Qed.

Lemma decode_accepts_only_encodings_witness :
  (∃ v, DecodeBytes [197; 130; 4; 0; 193; 1] (TStruct [("A", TUint 32); ("B", TSlice (TUint 16))]) = Ret v) ∧
  match DecodeBytes [197; 130; 4; 0; 193; 1] (TStruct [("A", TUint 32); ("B", TSlice (TUint 16))]) with
  | Ret v => has_type (TStruct [("A", TUint 32); ("B", TSlice (TUint 16))]) v ∧
             EncodeToBytes v = Ret [197; 130; 4; 0; 193; 1]
  | Fail _ => True
  | Panic _ | OutOfFuel => False
  end.
Proof.
  split; [exists (GStruct [GUint 1024; GSlice [GUint 1]]); vm_compute; reflexivity|].
  apply decode_accepts_only_encodings; [reflexivity| |vm_compute; reflexivity].
  unfold is_bytes, is_byte. repeat constructor; lia.
Defined.

(** ** Arrays of one byte *)

(** The stream after the byte 0 was decoded into an array of one byte: the value is still ahead. *)
Lemma stuck_elem s :
  kind s = Some Byte → kinderr s = None → byteval s = 0 →
  decodeByteArray 1 s = (Ret (GBytes [0]), s).
Proof.
  destruct s as [inp rem lim k vs bv ke st]. cbn [kind kinderr byteval]. intros -> -> ->. done.
Qed.

Lemma stuck_elems fuel i s :
  kind s = Some Byte → kinderr s = None → byteval s = 0 →
  decodeSliceElems fuel (decodeByteArray 1) i s = (OutOfFuel, s).
Proof.
  intros Hk He Hb. revert i. induction fuel as [|fuel IH]; intros i; [done|]. cbn [decodeSliceElems].
  unfold try, mbind, M_bind. rewrite stuck_elem by done. by rewrite IH.
Qed.

(** A slice of one-byte arrays that holds a zero byte is encoded but never decoded: the
    decoder of the array drops the error by which [Uint] refuses the byte 0, and with it the
    step to the next value, so the slice decoder reads the same byte for ever.  In a struct
    the same slip lets one byte fill two fields. *)
Lemma zero_byte_array_never_decoded :
  EncodeToBytes (GSlice [GBytes [0]]) = Ret [193; 0] ∧
  (∀ fuel, DecodeBytes_with fuel [193; 0] (TSlice (TByteArray 1)) = OutOfFuel) ∧
  DecodeBytes [193; 0] (TStruct [("A", TByteArray 1); ("B", TByteArray 1)]) = Ret (GStruct [GBytes [0]; GBytes [0]]) ∧
  EncodeToBytes (GStruct [GBytes [0]; GBytes [0]]) = Ret [194; 0; 0].
Proof.
  split; [done|]. split; [|done]. intros [|fuel]; [done|].
  unfold DecodeBytes_with, Decode. cbn [makeDecoder]. unfold decodeListSlice.
  assert (wrapping List (NewStream [193; 0] (len [193; 0]))
    = (Ret 1, mkStream [0] 1 true None 0 0 None [mkPos 0 1])) as HL by (vm_compute; reflexivity).
  rewrite (run_bind_Ret _ _ _ _ _ HL). rewrite bool_decide_eq_false_2 by lia. cbn [decodeSliceElems].
  set (s := mkStream [0] 1 true None 0 0 None [mkPos 0 1]).
  assert (decodeByteArray 1 s = (Ret (GBytes [0]), mkStream [] 0 true (Some Byte) 0 0 None [mkPos 1 1])) as Hd by (vm_compute; reflexivity).
  unfold try, mbind, M_bind. rewrite Hd. by rewrite stuck_elems.
Qed.
