(* ===== verification/RlpOptional.v ===== *)
(** Decoders beyond the plain types: pointers tagged "nil" ([decodeOptionalPtr] of
    [common/rlp/decode.go]), structs whose fields have decoders of any kind, types that look at
    the kind of the next value first, and decoding a whole input or the first value of it
    ([DecodeBytes] and [Decode] on a [bytes.Reader]). *)
From S2P Require Import Prelude Bytes HexKeys Rlp RlpRaw RlpStream RlpDecode.
Open Scope Z_scope.

(** [Decode(bytes.NewReader(b), val)]: what follows the first value is left in the reader. *)
Definition DecodeReader {A} (b : bytes) (dec : D A) : outcome A := fst (dec (NewStream b 0)).

(** [DecodeBytes(b, val)] for a value with the decoder [dec]. *)
Definition DecodeWhole {A} (b : bytes) (dec : D A) : outcome A :=
  match dec (NewStream b (len b)) with
  | (Ret v, s) => if bool_decide (0 < len (input s)) then Fail ErrMoreThanOneValue else Ret v
  | (Fail e, _) => Fail e
  | (Panic w, _) => Panic w
  | (OutOfFuel, _) => OutOfFuel
  end.

(** ** Looking ahead *)

(** A decoder that starts by asking for the kind does not notice that it was asked before. *)
Definition peeks {A} (dec : D A) : Prop :=
  ∀ s k sz x s', Kind_ s = (Ret (k, sz), arm k sz x s') → dec (arm k sz x s') = dec s.

Lemma peeks_kind {A} (f : Kind * Z → D A) : peeks (Kind_ ≫= f).
Proof.
  intros s k sz x s' Hk. by rewrite (run_bind_Ret _ _ _ _ _ Hk), (run_bind_Ret _ _ _ _ _ (Kind_armed _ _ _ _)).
Qed.

Lemma peeks_bind {A B} (m : D A) (f : A → D B) : peeks m → peeks (m ≫= f).
Proof. intros Hm s k sz x s' Hk. unfold mbind, M_bind. by rewrite (Hm _ _ _ _ _ Hk). Qed.

Lemma peeks_wrapping {A} (m : D A) : peeks m → peeks (wrapping m).
Proof. intros Hm s k sz x s' Hk. unfold wrapping. by rewrite (Hm _ _ _ _ _ Hk). Qed.

Lemma peeks_array n : peeks (decodeByteArray n).
Proof. apply peeks_kind. Qed.

Lemma peeks_struct fs : peeks (decodeStruct fs).
Proof. apply peeks_bind, peeks_wrapping. unfold List. apply peeks_kind. Qed.

Lemma Kind_end s : ready s → at_end (stack s) = true → Kind_ s = (Fail EOL, set_kinderr None s).
Proof.
  intros [_ Hk] Hend. destruct s as [inp rem lim k0 vs bv ke st]. cbn [kind stack] in *. subst k0.
  unfold Kind_. run_stream. by rewrite Hend.
Qed.

Lemma moved_kinderr s : ready s → moved [] s (set_kinderr None s).
Proof. intros Hs. apply moved_nil; [done..|]. split; [by apply wf_kinderr, Hs|apply Hs]. Qed.

(** ** Pointers that may be nil *)

(** A value, or nil: written as an empty string, and read from an empty list as well. *)
Definition optional (t : gtype) (v : gval) (p : bytes) : Prop :=
  typed t v p ∨ (v = nil_val t ∧ (p = [128] ∨ p = [192])).

Lemma moved_header k s : wf s → k ≠ Byte → len (header k 0) ≤ room s → ∀ rest, input s = header k 0 ++ rest →
  moved (header k 0) s (set_kind None (arm k 0 0 (advance (len (header k 0)) s))).
Proof.
  intros Hs Hk Hl rest Hi. pose proof (len_nonneg (header k 0)). destruct (moved_advance (len (header k 0)) s Hs) as (H1 & H2 & H3 & H4); [lia|].
  assert (take (Z.to_nat (len (header k 0))) (input s) = header k 0) as Ht
    by (rewrite Hi; unfold len; rewrite Nat2Z.id; apply take_app_length).
  rewrite Ht in H1, H2. split; [exact H1|]. split; [exact H2|]. split; [|done].
  destruct (wf_advance (len (header k 0)) s Hs ltac:(lia)) as [[] _]. by split.
Qed.

Lemma empty_head k : k ≠ Byte → head_ok k 0 0 (header k 0) ∧ (header k 0 = [128] ∨ header k 0 = [192]).
Proof. destruct k; intros Hk; try done; (split; [split_and!; (done || lia)|]); [by left|by right]. Qed.

Lemma optional_decoder N t (dec : D gval) :
  inverts N dec (typed t) → peeks dec →
  (∀ s k x s' v s'', k ≠ Byte → Kind_ s = (Ret (k, 0), arm k 0 x s') → dec s ≠ (Ret v, s'')) →
  (∀ s e s' v s'', Kind_ s = (Fail e, s') → dec s ≠ (Ret v, s'')) →
  inverts N (decodeOptionalPtr t dec) (optional t).
Proof.
  intros [Hrun Hcomplete Hne] Hpeek Hzero Hfail.
  assert (∀ s k sz x s', Kind_ s = (Ret (k, sz), arm k sz x s') →
    decodeOptionalPtr t dec s = if bool_decide (sz = 0 ∧ k ≠ Byte) then (Ret (nil_val t), set_kind None (arm k sz x s')) else dec s) as Hok.
  { intros s k sz x s' Hk. unfold decodeOptionalPtr, try, mbind, M_bind. rewrite Hk. case_bool_decide; [done|]. by apply Hpeek. }
  split.
  - intros s Hs HN. specialize (Hrun s Hs HN). destruct (at_end (stack s)) eqn:Hend.
    { pose proof (Kind_end s Hs Hend) as Hk. exists (set_kind None (set_kinderr None s)).
      unfold decodeOptionalPtr, try, mbind, M_bind. rewrite Hk. split; [done|].
      destruct (moved_kinderr s Hs) as (H1 & H2 & [] & H4). split; [done|]. split; [done|]. by split. }
    destruct (Kind_spec s (proj1 Hs) (proj2 Hs)) as [[? _]|[(k & sz & x & h & rest & Hh & Hi & Hl & Hk)|(e & s' & Hk & He)]]; [congruence| |].
    + rewrite (Hok _ _ _ _ _ Hk). case_bool_decide as Hz.
      * left. destruct Hz as [-> Hkb]. destruct (empty_head k Hkb) as [_ Hform].
        assert (h = header k 0 ∧ x = 0) as [-> ->] by (by destruct k; [|destruct Hh as (-> & -> & _)..]).
        do 3 eexists. split; [done|]. split; [right; split; [done|exact Hform]|]. eapply moved_header; [apply Hs|done|lia|done].
      * destruct Hrun as [(v & p & s' & Hd & HG & Hm)|?]; [left|by right]. exists v, p, s'. split; [done|]. split; [by left|done].
    + right. exists e. unfold decodeOptionalPtr, try, mbind, M_bind. rewrite Hk. by eexists.
  - intros s v p rest Hs HN [HG|[-> Hp]] Hi Hl.
    + destruct (Hcomplete s v p rest Hs HN HG Hi Hl) as (s' & Hd & Hm). exists s'. split; [|done].
      destruct (Kind_spec s (proj1 Hs) (proj2 Hs)) as [[_ Hk]|[(k & sz & x & h & rest' & Hh & _ & _ & Hk)|(e & s1 & Hk & He)]].
      * by apply (Hfail _ _ _ v s') in Hk.
      * rewrite (Hok _ _ _ _ _ Hk). case_bool_decide as Hz; [|done]. destruct Hz as [-> Hkb]. by destruct (Hzero _ _ _ _ v s' Hkb Hk).
      * by apply (Hfail _ _ _ v s') in Hk.
    + assert (∃ k, k ≠ Byte ∧ p = header k 0) as (k & Hkb & ->) by (destruct Hp as [->| ->]; [by exists String_|by exists List_]).
      destruct (empty_head k Hkb) as [Hh _].
      pose proof (Kind_head s k 0 0 _ rest (proj1 Hs) (proj2 Hs) Hh Hi ltac:(lia)) as Hk. rewrite (Hok _ _ _ _ _ Hk).
      rewrite bool_decide_eq_true_2 by done. eexists. split; [done|]. eapply moved_header; [apply Hs|done|lia|done].
  - intros v p [HG|[-> [->| ->]]]; [by eapply Hne|done..].
Qed.

Lemma optional_array N n :
  (1 < n)%nat → inverts N (decodeOptionalPtr (TByteArray n) (decodeByteArray n)) (optional (TByteArray n)).
Proof.
  intros Hn. apply optional_decoder; [apply array_decoder; lia|apply peeks_array|..].
  - intros s k x s' v s'' Hk Hkd. unfold decodeByteArray. rewrite (run_bind_Ret _ _ _ _ _ Hkd).
    destruct k; [done| |done]. rewrite bool_decide_eq_false_2 by lia. by rewrite bool_decide_eq_true_2 by lia.
  - intros s e s' v s'' Hkd. unfold decodeByteArray. by rewrite (run_bind_Fail _ _ _ _ _ Hkd).
Qed.

(** ** Structs of any fields *)
Fixpoint G_fields (Gs : list (gval → bytes → Prop)) : list gval → bytes → Prop :=
  match Gs with [] => G_nil | G :: Gs' => G_cons G (G_fields Gs') end.

Lemma struct_inverts N (fs : list (string * D gval)) Gs :
  Forall2 (λ f G, inverts N f.2 G) fs Gs →
  inverts N (decodeStruct fs) (λ v p, ∃ vs, GStruct vs = v ∧ G_list (G_fields Gs) vs p).
Proof.
  intros Hfs.
  assert (fills N (struct_fields fs) (G_fields Gs)) as Hfill.
  { induction Hfs as [|[name dec] G fs Gs Hdec _ IH]; [apply fills_nil|]. cbn [struct_fields G_fields]. by apply fills_cons. }
  pose proof (inverts_fmap N _ _ GStruct (inverts_list_fills N _ (wrapping ListEnd) _ Hfill (or_intror eq_refl))) as Hinv.
  refine (inverts_ext N _ _ _ _ _ (λ a p, iff_refl _) Hinv).
  intros s. unfold decodeStruct, mbind, M_bind. destruct (wrapping List s) as [[] s1]; try done.
  destruct (struct_fields _ s1) as [[] s2]; try done. by destruct (wrapping ListEnd s2) as [[] ?].
Qed.

(** ** Whole inputs and first values *)
Lemma DecodeWhole_spec {A} N b (dec : D A) G :
  inverts N dec G → is_bytes b → len b < 2 ^ 63 → (length b < N)%nat →
  match DecodeWhole b dec with Ret v => G v b | Fail _ => True | _ => False end ∧
  ∀ v, G v b → DecodeWhole b dec = Ret v.
Proof.
  intros [Hrun Hcomplete _] Hb Hl HN. pose proof (ready_NewStream b Hb Hl) as Hs. unfold DecodeWhole. split.
  - specialize (Hrun _ Hs HN). cbn [NewStream Reset stack at_end] in Hrun.
    destruct Hrun as [(v & p & s' & Hd & HG & Hi & _)|(e & s' & Hd & _)]; unfold NewStream in *; rewrite Hd; [|done].
    case_bool_decide as H0; [done|]. cbn [Reset input] in Hi.
    assert (input s' = []) as Hnil by (destruct (input s') as [|y l]; [done|rewrite len_cons in H0; pose proof (len_nonneg l); lia]).
    rewrite Hnil, app_nil_r in Hi. by subst p.
  - intros v HG. destruct (Hcomplete (NewStream b (len b)) v b [] Hs HN HG) as (s' & Hd & Hi & _); [symmetry; apply app_nil_r|done|].
    rewrite Hd. cbn [NewStream Reset input] in Hi.
    assert (input s' = []) as -> by (apply (f_equal length) in Hi; rewrite length_app in Hi; destruct (input s'); [done|simpl in Hi; lia]).
    done.
Qed.

Lemma DecodeReader_spec {A} N b (dec : D A) G :
  inverts N dec G → is_bytes b → len b < 2 ^ 63 → (length b < N)%nat →
  match DecodeReader b dec with Ret v => ∃ p rest, b = p ++ rest ∧ G v p | Fail _ => True | _ => False end ∧
  ∀ v p rest, b = p ++ rest → G v p → DecodeReader b dec = Ret v.
Proof.
  intros [Hrun Hcomplete _] Hb Hl HN.
  assert (ready (NewStream b 0)) as Hs by (split; [|done]; unfold NewStream, Reset; pose proof (len_nonneg b); by split).
  unfold DecodeReader. split.
  - specialize (Hrun _ Hs HN). cbn [NewStream Reset stack at_end] in Hrun.
    destruct Hrun as [(v & p & s' & Hd & HG & Hi & _)|(e & s' & Hd & _)]; unfold NewStream in *; rewrite Hd; [|done].
    exists p, (input s'). by split.
  - intros v p rest Hbp HG. destruct (Hcomplete (NewStream b 0) v p rest Hs HN HG) as (s' & Hd & _); [done| |by rewrite Hd].
    cbn [NewStream Reset room stack input]. rewrite Hbp, len_app. pose proof (len_nonneg rest). lia.
Qed.

(** ** Asking for the size of a list before decoding it *)
Lemma Kind_cached s e : is_Some (kind s) → kinderr s = Some e → Kind_ s = (Fail e, s).
Proof. destruct s as [inp rem lim k vs bv ke st]. cbn [kind kinderr]. by intros [k' ->] ->. Qed.

Lemma Kind_again s e s' : wf s → Kind_ s = (Fail e, s') → Kind_ s' = (Fail e, s').
Proof.
  intros Hs. destruct (kind s) as [k|] eqn:Hk.
  { destruct s as [inp rem lim k0 vs bv ke st]. cbn [kind] in Hk. subst k0. unfold Kind_ at 1. run_stream.
    destruct ke; [|done]. by intros [= <- <-]. }
  destruct (at_end (stack s)) eqn:Hend.
  { rewrite Kind_end by done. intros [= <- <-]. rewrite Kind_end; [by destruct s| |done]. split; [by apply wf_kinderr|done]. }
  destruct (readKind_total (set_kinderr None s)) as ([[k sz] err] & s1 & Hrk & _); [by apply wf_kinderr|].
  destruct s as [inp rem lim k0 vs bv ke st], s1 as [inp1 rem1 lim1 k1 vs1 bv1 ke1 st1].
  cbn [kind stack] in *. subst k0. unfold Kind_ at 1.
  unfold set_kinderr in Hrk. cbn [input remaining limited kind vsize byteval stack] in Hrk. run_stream. rewrite Hend, Hrk.
  destruct err as [e1|]; [|destruct st1 as [|p st1]; [destruct (lim1 && _)|destruct (bool_decide _)]]; intros Heq; simplify_eq; (apply Kind_cached; [by eexists|done]).
Qed.

Definition kind_first {A} (dec : D A) : Prop :=
  ∀ s e s', Kind_ s = (Fail e, s') → dec s = (Fail (wrapStreamError e), s').

Lemma kind_first_struct fs : kind_first (decodeStruct fs).
Proof.
  intros s e s' Hk. unfold decodeStruct, wrapping, List, mbind, M_bind. by rewrite Hk.
Qed.

(** [f] gets the size that [Kind] has announced. *)
Definition with_size {A B} (dec : D A) (f : Z → A → D B) : D B :=
  r ← try Kind_;
  a ← dec;
  f (match r with inr (_, size) => size | inl _ => 0 end) a.

Lemma sized_decoder {A B} N (dec : D A) (G : A → bytes → Prop) (f : Z → A → D B) (g : Z → A → B) :
  inverts N dec G → peeks dec → kind_first dec →
  (∀ a p, G a p → (∃ q, p = header List_ (len q) ++ q) ∧ ∀ n s, f n a s = (Ret (g n a), s)) →
  inverts N (with_size dec f) (λ b p, ∃ a q, b = g (len q) a ∧ G a p ∧ p = header List_ (len q) ++ q).
Proof.
  intros [Hrun Hcomplete Hne] Hpeek Hfirst HG.
  assert (∀ s a p q rest s', ready s → G a p → p = header List_ (len q) ++ q → input s = p ++ rest → len p ≤ room s →
    dec s = (Ret a, s') → with_size dec f s = (Ret (g (len q) a), s')) as Hok.
  { intros s a p q rest s' Hs Ha Hq Hi Hl Hd. destruct (HG a p Ha) as [_ Hf].
    pose proof (wf_room s (proj1 Hs)). pose proof (wf_len s (proj1 Hs)). pose proof (len_nonneg q). pose proof (len_nonneg (header List_ (len q))).
    rewrite Hq, len_app in Hl. rewrite Hq, <-app_assoc in Hi.
    assert (Kind_ s = (Ret (List_, len q), arm List_ (len q) 0 (advance (len (header List_ (len q))) s))) as Hk
      by (apply (Kind_head _ _ _ _ _ (q ++ rest)); [apply Hs|apply Hs|split_and!; (done || lia)|done|lia]).
    unfold with_size, try, mbind, M_bind. rewrite Hk, (Hpeek _ _ _ _ _ Hk), Hd. apply Hf. }
  split.
  - intros s Hs HN. specialize (Hrun s Hs HN). destruct (at_end (stack s)) eqn:Hend.
    { pose proof (Kind_end s Hs Hend) as Hk. exists (set_kinderr None s). split; [|by apply moved_kinderr].
      unfold with_size, try, mbind, M_bind. rewrite Hk.
      by rewrite (Hfirst _ _ _ (Kind_again _ _ _ (proj1 Hs) Hk)). }
    destruct Hrun as [(a & p & s' & Hd & Ha & Hm)|(e & s' & Hd & He)].
    + left. assert (len p ≤ room s) as Hl.
      { pose proof (moved_room _ _ _ Hm). destruct Hm as (_ & _ & Hr). pose proof (wf_room s' (proj1 Hr)). lia. }
      destruct (HG a p Ha) as [[q Hq] _]. exists (g (len q) a), p, s'. split; [|split; [|done]]; [|by exists a, q].
      by apply (Hok s a p q (input s') s' Hs Ha Hq (proj1 Hm)).
    + right. unfold with_size, try, mbind, M_bind.
      destruct (Kind_spec s (proj1 Hs) (proj2 Hs)) as [[? _]|[(k & sz & x & h & rest & _ & _ & _ & Hk)|(e' & s1 & Hk & He')]]; [congruence|..]; rewrite Hk.
      * rewrite (Hpeek _ _ _ _ _ Hk), Hd. eauto.
      * rewrite (Hfirst _ _ _ (Kind_again _ _ _ (proj1 Hs) Hk)). eexists _, _. split; [done|]. by rewrite wrap_EOL.
  - intros s b p rest Hs HN (a & q & -> & Ha & Hq) Hi Hl. destruct (Hcomplete s a p rest Hs HN Ha Hi Hl) as (s' & Hd & Hm).
    exists s'. split; [|done]. by apply (Hok s a p q rest s').
  - intros b p (a & q & _ & Ha & _). by eapply Hne.
Qed.
