(* ===== verification/TrieNode.v ===== *)
(** [trie/node.go], [trie/errors.go]: the nodes of the Merkle-Patricia trie, their RLP form and
    its decoding. *)
From S2P Require Import Prelude Bytes HexKeys Rlp RlpRaw.
Open Scope Z_scope.

(** ** Hashes ([common/types.go]) *)
Definition HashLength : Z := 32.

(** Longer input loses its first bytes, shorter input is padded with zeros in front. *)
Definition BytesToHash (b : bytes) : bytes :=
  let b := if bool_decide (HashLength < len b) then drop (Z.to_nat (len b - HashLength)) b else b in
  replicate (Z.to_nat (HashLength - len b)) 0 ++ b.

Lemma BytesToHash_32 h : len h = 32 → BytesToHash h = h.
Proof. intros Hl. unfold BytesToHash, HashLength. rewrite bool_decide_eq_false_2 by lia. rewrite Hl. done. Qed.

(** ** Nodes *)

(** The generation is a [uint16]. *)
Record nodeFlag := mkFlag { fhash : option bytes; gen : Z; dirty : bool }.

(** [NilN] is a nil node; the 17 children of a full node are a list. *)
Inductive node :=
  | NilN
  | ValueN (v : bytes)
  | HashN (h : bytes)
  | ShortN (Key : bytes) (Val : node) (flags : nodeFlag)
  | FullN (Children : list node) (flags : nodeFlag).

Definition flag_canUnload (f : nodeFlag) (cachegen cachelimit : Z) : bool :=
  negb (dirty f) && bool_decide (cachelimit ≤ (cachegen - gen f) mod 2 ^ 16).

Definition canUnload (n : node) (cachegen cachelimit : Z) : bool :=
  match n with
  | FullN _ f | ShortN _ _ f => flag_canUnload f cachegen cachelimit
  | _ => false
  end.

(** The cached hash and whether the node is dirty; a nil node has no method. *)
Definition cache (n : node) : outcome (option bytes * bool) :=
  match n with
  | FullN _ f | ShortN _ _ f => Ret (fhash f, dirty f)
  | HashN _ | ValueN _ => Ret (None, true)
  | NilN => Panic "nil pointer dereference"
  end.

(** What [rlp.Encode] is given: the exported fields of a short node, the children of a full
    node ([EncodeRLP]); the children are interface values. *)
Fixpoint node_gval (n : node) : gval :=
  match n with
  | NilN => GIface None
  | ValueN v => GBytes v
  | HashN h => GBytes h
  | ShortN k v _ => GStruct [GBytes k; match v with NilN => GIface None | _ => GIface (Some (node_gval v)) end]
  | FullN cs _ => GSlice (map (λ c, match c with NilN => GIface None | _ => GIface (Some (node_gval c)) end) cs)
  end.

(** ** Errors *)
Definition hexx (b : bytes) : string :=
  of_chars (concat (map (λ x, [digit_char false (x / 16); digit_char false (x mod 16)]) b)).
Definition MissingNodeError (h path : bytes) : gerror :=
  Errorf ("missing trie node " +:+ hexx (BytesToHash h) +:+ " (path " +:+ hexx path +:+ ")").

Definition wrapError (err : gerror) (ctx : string) : gerror := Wrapf ctx err.

Definition wrapping_ctx {A} (ctx : string) (o : outcome A) : outcome A :=
  match o with Fail e => Fail (wrapError e ctx) | o => o end.

(** ** Decoding *)

(** A reference to a child: an embedded node, nothing, or a hash; the rest of the input. *)
Definition decodeRef (decode : bytes → outcome node) (buf : bytes) : outcome (node * bytes) :=
  r ← Split buf;
  let '(kind, val, rest) := r in
  match kind with
  | List_ =>
    if bool_decide (HashLength < len buf - len rest) then Fail (Errorf "oversized embedded node")
    else n ← decode buf; Ret (n, rest)
  | String_ =>
    if bool_decide (len val = 0) then Ret (NilN, rest)
    else if bool_decide (len val = 32) then Ret (HashN val, rest)
    else Fail (Errorf "invalid RLP string size (want 0 or 32)")
  | Byte => Fail (Errorf "invalid RLP string size (want 0 or 32)")
  end.

Definition decodeShort (decode : bytes → outcome node) (hash : option bytes) (elems : bytes) (cachegen : Z) : outcome node :=
  r ← SplitString elems;
  let '(kbuf, rest) := r in
  let flag := mkFlag hash cachegen false in
  key ← compactToHex kbuf;
  if hasTerm key then
    match SplitString rest with
    | Ret (val, _) => Ret (ShortN key (ValueN val) flag)
    | Fail e => Fail (Wrapf "invalid value node" e)
    | Panic w => Panic w
    | OutOfFuel => OutOfFuel
    end
  else
    r ← wrapping_ctx "val" (decodeRef decode rest);
    Ret (ShortN key (fst r) flag).

(** [k] children are left to decode. *)
Fixpoint decode_children (decode : bytes → outcome node) (k : nat) (elems : bytes) : outcome (list node * bytes) :=
  match k with
  | O => Ret ([], elems)
  | S k' =>
    r ← wrapping_ctx ("[" ++ pretty (Z.of_nat (16 - k)) ++ "]") (decodeRef decode elems);
    let '(cld, rest) := r in
    rs ← decode_children decode k' rest;
    Ret (cld :: fst rs, snd rs)
  end.

Definition decodeFull (decode : bytes → outcome node) (hash : option bytes) (elems : bytes) (cachegen : Z) : outcome node :=
  r ← decode_children decode 16 elems;
  let '(children, elems) := r in
  r ← SplitString elems;
  let '(val, _) := r in
  Ret (FullN (children ++ [if bool_decide (0 < len val) then ValueN val else NilN]) (mkFlag hash cachegen false)).

(** A nested node is shorter than the node around it. *)
Fixpoint decodeNode_with (fuel : nat) (hash : option bytes) (buf : bytes) (cachegen : Z) : outcome node :=
  match fuel with
  | O => OutOfFuel
  | S f =>
    match buf with
    | [] => Fail ErrUnexpectedEOF
    | _ =>
      match SplitList buf with
      | Ret (elems, _) =>
        let decode := λ b, decodeNode_with f None b cachegen in
        match CountValues elems with
        | Ret 2 => wrapping_ctx "short" (decodeShort decode hash elems cachegen)
        | Ret 17 => wrapping_ctx "full" (decodeFull decode hash elems cachegen)
        | Ret _ | Fail _ => Fail (Errorf "invalid number of list elements")
        | Panic w => Panic w
        | OutOfFuel => OutOfFuel
        end
      | Fail e => Fail (Wrapf "decode error" e)
      | Panic w => Panic w
      | OutOfFuel => OutOfFuel
      end
    end
  end.

Definition decodeNode (hash : option bytes) (buf : bytes) (cachegen : Z) : outcome node :=
  decodeNode_with (S (length buf)) hash buf cachegen.

Definition mustDecodeNode (hash : option bytes) (buf : bytes) (cachegen : Z) : outcome node :=
  match decodeNode hash buf cachegen with
  | Fail e => Panic "node: decode error"
  | o => o
  end.
