(* ===== verification/HexUtil.v ===== *)
(** [common/hexutil]: bytes and quantities as hexadecimal text with the prefix 0x, and the hex
    helpers of [common/bytes.go] and [common/types.go].

    A Go string, or a slice that holds text, is its list of characters. *)
From Stdlib Require Import Ascii.
From S2P Require Import Prelude Bytes HexKeys TrieNode.
Open Scope Z_scope.

Abbreviation text := (list Ascii.ascii).

(** ** Errors

    Errors are compared as pointers: the two with the same text differ here. *)
Definition ErrEmptyString : gerror := Errorf "empty hex string".
Definition ErrSyntax : gerror := Errorf "invalid hex string".
Definition ErrMissingPrefix : gerror := Errorf "hex string without 0x prefix".
Definition ErrOddLength : gerror := Errorf "hex string of odd length".
Definition ErrEmptyNumber : gerror := Errorf "hex string 0x".
Definition ErrLeadingZero : gerror := Errorf "hex number with leading zero digits".
Definition ErrUint64Range : gerror := Errorf "hex number > 64 bits".
Definition ErrUintRange : gerror := Errorf "hex number > 64 bits (uint)".
Definition ErrBig256Range : gerror := Errorf "hex number > 256 bits".

(** The errors of the libraries. *)
Definition ParseRange : gerror := LibErr "strconv: value out of range".
Definition ParseSyntax : gerror := LibErr "strconv: invalid syntax".
Definition hex_ErrLength : gerror := LibErr "encoding/hex: odd length hex string".
Definition InvalidByteError : gerror := LibErr "encoding/hex: invalid byte".

Definition mapError (err : gerror) : gerror :=
  if bool_decide (err = ParseRange) then ErrUint64Range
  else if bool_decide (err = ParseSyntax) then ErrSyntax
  else if bool_decide (err = InvalidByteError) then ErrSyntax
  else if bool_decide (err = hex_ErrLength) then ErrOddLength
  else err.

Definition mapped {A} (o : outcome A) : outcome A := match o with Fail e => Fail (mapError e) | o => o end.

(** ** Prefixes *)
Definition has0xPrefix (input : text) : bool :=
  match input with
  | a :: b :: _ => bool_decide (a = "0"%char) && (bool_decide (b = "x"%char) || bool_decide (b = "X"%char))
  | _ => false
  end.

Definition checkNumber (input : text) : outcome text :=
  if bool_decide (input = []) then Fail ErrEmptyString
  else if negb (has0xPrefix input) then Fail ErrMissingPrefix
  else
    let input := drop 2 input in
    if bool_decide (input = []) then Fail ErrEmptyNumber
    else if bool_decide (1 < length input)%nat && bool_decide (head input = Some "0"%char) then Fail ErrLeadingZero
    else Ret input.

(** ** Bytes *)
Definition prefix0x : text := ["0"; "x"]%char.

(** [hex.Encode] writes small letters. *)
Definition hex_Encode (b : bytes) : text := flat_map (λ x, [digit_char false (x / 16); digit_char false (x mod 16)]) b.

Definition hex_Decode (src : text) : outcome bytes :=
  match decode_hex src with (b, None) => Ret b | (_, Some e) => Fail e end.

Definition Encode (b : bytes) : text := prefix0x ++ hex_Encode b.

Definition Decode (input : text) : outcome bytes :=
  if bool_decide (input = []) then Fail ErrEmptyString
  else if negb (has0xPrefix input) then Fail ErrMissingPrefix
  else mapped (hex_Decode (drop 2 input)).

Definition must {A} (o : outcome A) : outcome A := match o with Fail _ => Panic "invalid hex" | o => o end.
Definition MustDecode (input : text) : outcome bytes := must (Decode input).

(** ** Quantities *)

(** The digits of [n] in base 16, and [strconv.AppendUint]. *)
Fixpoint digits16 (fuel : nat) (n : Z) (acc : text) : text :=
  match fuel with
  | O => acc
  | S f => let acc' := digit_char false (n mod 16) :: acc in if n <? 16 then acc' else digits16 f (n / 16) acc'
  end.
Definition FormatUint (n : Z) : text := digits16 (S (Z.to_nat (Z.log2 n))) n [].

(** [strconv.ParseUint(raw, 16, 64)] *)
Fixpoint parse_uint (l : text) (n : Z) : outcome Z :=
  match l with
  | [] => Ret n
  | c :: l' =>
    match char_digit 16 c with
    | None => Fail ParseSyntax
    | Some d =>
      if bool_decide (2 ^ 64 / 16 ≤ n) then Fail ParseRange
      else
        let n := n * 16 in
        let n1 := (n + d) mod 2 ^ 64 in
        if bool_decide (n1 < n) then Fail ParseRange else parse_uint l' n1
    end
  end.
Definition ParseUint (raw : text) : outcome Z := if bool_decide (raw = []) then Fail ParseSyntax else parse_uint raw 0.

Definition DecodeUint64 (input : text) : outcome Z :=
  raw ← checkNumber input;
  mapped (ParseUint raw).
Definition MustDecodeUint64 (input : text) : outcome Z := must (DecodeUint64 input).
Definition EncodeUint64 (i : Z) : text := prefix0x ++ FormatUint i.

(** ** Big quantities *)
Definition badNibble : Z := 2 ^ 64 - 1.

Definition decodeNibble (c : Ascii.ascii) : Z :=
  let n := Z.of_N (Ascii.N_of_ascii c) in
  if bool_decide (48 ≤ n ≤ 57) then n - 48
  else if bool_decide (65 ≤ n ≤ 70) then n - 65 + 10
  else if bool_decide (97 ≤ n ≤ 102) then n - 97 + 10
  else badNibble.

(** The machine words of a [big.Int], least significant first. *)
Definition bigWordNibbles : nat := 16.
Fixpoint SetBits (ws : list Z) : Z := match ws with [] => 0 | w :: ws' => w + 2 ^ 64 * SetBits ws' end.

(** One word: the characters of [raw[start:end]]. *)
Fixpoint nibbles (l : text) (w : Z) : outcome Z :=
  match l with
  | [] => Ret w
  | c :: l' =>
    let nib := decodeNibble c in
    if bool_decide (nib = badNibble) then Fail ErrSyntax
    else nibbles l' (((w * 16) mod 2 ^ 64 + nib) mod 2 ^ 64)
  end.

(** [n] words from [end_] down. *)
Fixpoint fill_words (n : nat) (raw : text) (end_ : nat) : outcome (list Z) :=
  match n with
  | O => Ret []
  | S n' =>
    let start := (end_ - bigWordNibbles)%nat in
    w ← nibbles (take (end_ - start) (drop start raw)) 0;
    ws ← fill_words n' raw start;
    Ret (w :: ws)
  end.

Definition big_of (raw : text) : outcome Z :=
  if bool_decide (64 < length raw)%nat then Fail ErrBig256Range
  else
    words ← fill_words (length raw / bigWordNibbles + 1) raw (length raw);
    Ret (SetBits words).

Definition DecodeBig (input : text) : outcome Z :=
  raw ← checkNumber input;
  big_of raw.
Definition MustDecodeBig (input : text) : outcome Z := must (DecodeBig input).

(** The format [%#x] of a big integer writes the sign in front of the prefix. *)
Definition EncodeBig (n : Z) : text :=
  if bool_decide (n = 0) then prefix0x ++ ["0"%char]
  else (if bool_decide (n < 0) then ["-"%char] else []) ++ prefix0x ++ FormatUint (Z.abs n).

(** ** Text of the JSON types ([json.go]) *)
Definition checkText (input : text) (wantPrefix : bool) : outcome text :=
  if bool_decide (input = []) then Ret []
  else
    input ← (if has0xPrefix input then Ret (drop 2 input) else if wantPrefix then Fail ErrMissingPrefix else Ret input);
    if bool_decide (length input mod 2 ≠ 0)%nat then Fail ErrOddLength else Ret input.

Definition checkNumberText (input : text) : outcome text :=
  if bool_decide (input = []) then Ret [] else checkNumber input.

Definition Bytes_MarshalText (b : bytes) : text := prefix0x ++ hex_Encode b.
Definition Bytes_UnmarshalText (input : text) : outcome bytes :=
  raw ← checkText input true;
  mapped (hex_Decode raw).

(** [out] is what the slice holds before; it changes only when the text is good. *)
Definition fixed_text (wantPrefix : bool) (input : text) (out : bytes) : outcome bytes :=
  raw ← checkText input wantPrefix;
  if bool_decide (length raw / 2 ≠ length out)%nat then Fail (Errorf "hex string has length, want")
  else if existsb (λ c, bool_decide (decodeNibble c = badNibble)) raw then Fail ErrSyntax
  else let b := fst (decode_hex raw) in Ret (b ++ drop (length b) out).
Definition UnmarshalFixedText := fixed_text true.
Definition UnmarshalFixedUnprefixedText := fixed_text false.

Definition Big_MarshalText (n : Z) : text := EncodeBig n.
Definition Big_UnmarshalText (input : text) : outcome Z :=
  raw ← checkNumberText input;
  big_of raw.

Definition Uint64_MarshalText (n : Z) : text := prefix0x ++ FormatUint n.
Definition Uint64_UnmarshalText (input : text) : outcome Z :=
  raw ← checkNumberText input;
  if bool_decide (16 < length raw)%nat then Fail ErrUint64Range else nibbles raw 0.

(** A [uint] has 64 bits. *)
Definition Uint_UnmarshalText (input : text) : outcome Z :=
  let o := Uint64_UnmarshalText input in
  let u64 := match o with Ret n => n | _ => 0 end in
  if bool_decide (2 ^ 64 - 1 < u64) || bool_decide (o = Fail ErrUint64Range) then Fail ErrUintRange else o.

(** ** JSON strings *)
Definition isString (input : text) : bool :=
  match input with
  | a :: b :: _ => bool_decide (a = Ascii.ascii_of_N 34) && bool_decide (last input = Some (Ascii.ascii_of_N 34))
  | _ => false
  end.

(** [wrapTypeError] only touches the errors of this package. *)
Definition decErrors : list gerror :=
  [ErrEmptyString; ErrSyntax; ErrMissingPrefix; ErrOddLength; ErrEmptyNumber; ErrLeadingZero; ErrUint64Range; ErrUintRange; ErrBig256Range].
Definition wrapTypeError {A} (o : outcome A) : outcome A :=
  match o with Fail e => if bool_decide (e ∈ decErrors) then Fail (Wrapf "json: cannot unmarshal" e) else Fail e | o => o end.
Definition errNonString : gerror := LibErr "json: cannot unmarshal non-string".

Definition json_text {A} (unmarshal : text → outcome A) (input : text) : outcome A :=
  if negb (isString input) then Fail errNonString
  else wrapTypeError (unmarshal (take (length input - 2) (drop 1 input))).

Definition Bytes_UnmarshalJSON := json_text Bytes_UnmarshalText.
Definition UnmarshalFixedJSON (input : text) (out : bytes) := json_text (λ t, UnmarshalFixedText t out) input.
Definition Big_UnmarshalJSON := json_text Big_UnmarshalText.
Definition Uint64_UnmarshalJSON := json_text Uint64_UnmarshalText.
Definition Uint_UnmarshalJSON := json_text Uint_UnmarshalText.

(** ** Lenient conversions ([common/bytes.go], [common/types.go]) *)

(** What was decoded before an error is kept. *)
Definition Hex2Bytes (str : text) : bytes := fst (decode_hex str).
Definition Bytes2Hex (d : bytes) : text := hex_Encode d.

Definition ToHex (b : bytes) : text :=
  let hex := Bytes2Hex b in
  prefix0x ++ (if bool_decide (length hex = 0%nat) then ["0"%char] else hex).

Definition FromHex (s : text) : bytes :=
  if bool_decide (1 < length s)%nat then
    let s := if bool_decide (take 2 s = ["0"; "x"]%char ∨ take 2 s = ["0"; "X"]%char) then drop 2 s else s in
    let s := if bool_decide (length s mod 2 = 1)%nat then "0"%char :: s else s in
    Hex2Bytes s
  else [].

Definition IsHex (str : text) : bool :=
  bool_decide (4 ≤ length str)%nat && bool_decide (length str mod 2 = 0)%nat && bool_decide (take 2 str = prefix0x).

Definition Hex2BytesFixed (str : text) (flen : nat) : bytes :=
  let h := fst (decode_hex str) in
  if bool_decide (length h = flen) then h
  else if bool_decide (flen < length h)%nat then drop (length h - flen) h
  else replicate (flen - length h) 0 ++ h.

Definition RightPadBytes (slice : bytes) (l : nat) : bytes :=
  if bool_decide (l ≤ length slice)%nat then slice else slice ++ replicate (l - length slice) 0.
Definition LeftPadBytes (slice : bytes) (l : nat) : bytes :=
  if bool_decide (l ≤ length slice)%nat then slice else replicate (l - length slice) 0 ++ slice.

(** [SetBytes] into a zero address keeps the last bytes. *)
Definition AddressLength : nat := 20.
Definition BytesToAddress (b : bytes) : bytes :=
  let b := if bool_decide (AddressLength < length b)%nat then drop (length b - AddressLength) b else b in
  replicate (AddressLength - length b) 0 ++ b.
Definition HexToAddress (s : text) : bytes := BytesToAddress (FromHex s).
Definition HexToHash (s : text) : bytes := BytesToHash (FromHex s).
Definition IsHexAddress (s : text) : bool :=
  bool_decide (length s = 2 + 2 * AddressLength)%nat && IsHex s ||
  bool_decide (length s = 2 * AddressLength)%nat && IsHex (prefix0x ++ s).

(** ** Digits and letters *)
Definition lower_char (c : Ascii.ascii) : Ascii.ascii :=
  let n := Ascii.N_of_ascii c in if bool_decide (65 ≤ n ≤ 90)%N then Ascii.ascii_of_N (n + 32) else c.
Definition lower : text → text := map lower_char.

(** A property of characters is checked on all 256. *)
Lemma every_char (f : ascii → bool) : forallb (λ n, f (ascii_of_nat n)) (seq 0 256) = true → ∀ c, f c = true.
Proof.
  intros Hall c. rewrite <-(ascii_nat_embedding c). rewrite forallb_forall in Hall.
  apply Hall, in_seq. pose proof (nat_ascii_bounded c). lia.
Qed.

Lemma char_digit_lower c : char_digit 16 (lower_char c) = char_digit 16 c.
Proof.
  pose proof (every_char (λ c, bool_decide (char_digit 16 (lower_char c) = char_digit 16 c))) as Hall. cbv beta in Hall. eapply bool_decide_eq_true_1, Hall. vm_compute. reflexivity.
Qed.

Definition digit_ok (d : Z) : Prop := 0 ≤ d < 16.

Lemma char_digit_some c d : char_digit 16 c = Some d ↔ digit_ok d ∧ lower_char c = digit_char false d.
Proof.
  split.
  - pose proof (every_char (λ c, match char_digit 16 c with Some d => bool_decide (0 ≤ d < 16 ∧ lower_char c = digit_char false d) | None => true end)) as Hall.
    specialize (Hall ltac:(vm_compute; reflexivity) c). intros Hc. cbv beta in Hall. rewrite Hc in Hall. by apply bool_decide_eq_true_1 in Hall.
  - intros [Hd Hc]. by rewrite <-char_digit_lower, Hc, char_digit_16.
Qed.

Lemma decodeNibble_digit c : decodeNibble c = default badNibble (char_digit 16 c).
Proof.
  pose proof (every_char (λ c, bool_decide (decodeNibble c = default badNibble (char_digit 16 c)))) as Hall. cbv beta in Hall. eapply bool_decide_eq_true_1, Hall. vm_compute. reflexivity.
Qed.

(** ** Numbers *)
Abbreviation digits := (mapM (char_digit 16)).

Definition val16 (n : Z) (ds : list Z) : Z := fold_left (λ n d, n * 16 + d) ds n.

Lemma val16_app n ds ds' : val16 n (ds ++ ds') = val16 (val16 n ds) ds'.
Proof. apply fold_left_app. Qed.

Lemma val16_cons n d ds : val16 n (d :: ds) = val16 (n * 16 + d) ds.
Proof. done. Qed.

Lemma val16_shift n ds : val16 n ds = n * 16 ^ len ds + val16 0 ds.
Proof.
  revert n. induction ds as [|d ds IH]; intros n; cbn [val16 fold_left]; [change (len (@nil Z)) with 0; lia|].
  change (val16 (n * 16 + d) ds = n * 16 ^ len (d :: ds) + val16 (0 * 16 + d) ds).
  rewrite IH, (IH (0 * 16 + d)). replace (len (d :: ds)) with (1 + len ds) by (unfold len; cbn; lia).
  rewrite Z.pow_add_r by (unfold len; lia). lia.
Qed.

Lemma val16_bound ds : Forall digit_ok ds → 0 ≤ val16 0 ds < 16 ^ len ds.
Proof.
  induction ds as [|d ds IH] using rev_ind; [done|]. rewrite Forall_app, Forall_singleton. intros [Hds Hd].
  rewrite val16_app. unfold len in *. rewrite length_app, Nat2Z.inj_add, Z.pow_add_r by lia. cbn. specialize (IH Hds). unfold digit_ok in Hd. lia.
Qed.

Lemma digits_ok t ds : digits t = Some ds → Forall digit_ok ds ∧ lower t = map (digit_char false) ds ∧ length t = length ds.
Proof.
  intros Hm%mapM_Some. induction Hm as [|c d t ds Hc _ IH]; [done|]. apply char_digit_some in Hc as [Hd Hc].
  destruct IH as (IH1 & IH2 & IH3). cbn. rewrite IH2, Hc, IH3. by split_and!; [constructor| |].
Qed.

Lemma digits_lower t ds : Forall digit_ok ds → lower t = map (digit_char false) ds → digits t = Some ds.
Proof.
  intros Hds. revert t. induction Hds as [|d ds Hd _ IH]; intros [|c t]; try done. intros [= Hc Ht]. cbn.
  by rewrite (proj2 (char_digit_some c d)), (IH t).
Qed.

(** What a number is written with: no zero in front. *)
Definition canon (ds : list Z) : Prop := ds ≠ [] ∧ Forall digit_ok ds ∧ ((1 < length ds)%nat → head ds ≠ Some 0).

Lemma canon_low ds : canon ds → (1 < length ds)%nat → 16 ^ (len ds - 1) ≤ val16 0 ds.
Proof.
  intros (Hne & Hds & Hlead) Hl. destruct ds as [|d ds]; [done|]. inversion Hds as [|?? Hd Hds']; subst.
  assert (d ≠ 0) by (intros ->; by apply Hlead). rewrite val16_cons, val16_shift.
  replace (len (d :: ds) - 1) with (len ds) by (unfold len; cbn; lia). pose proof (val16_bound ds Hds'). unfold digit_ok in Hd.
  assert (0 < 16 ^ len ds) by (apply Z.pow_pos_nonneg; unfold len; lia). nia.
Qed.

Lemma canon_snoc ds d : ds ≠ [] → canon (ds ++ [d]) → canon ds ∧ digit_ok d ∧ 1 ≤ val16 0 ds.
Proof.
  intros Hne (_ & Hds & Hlead). rewrite Forall_app, Forall_singleton in Hds. destruct Hds as [Hds Hd].
  destruct ds as [|x ds]; [done|]. assert (head (x :: ds) ≠ Some 0) as Hx by (apply Hlead; rewrite length_app; cbn; lia).
  assert (canon (x :: ds)) as Hc by (split_and!; [done|done|done]). split; [done|]. split; [done|].
  destruct ds as [|y ds].
  - inversion Hds as [|?? Hx' _]; subst. unfold digit_ok in Hx'. assert (x ≠ 0) by (by intros ->). cbn. lia.
  - pose proof (canon_low _ Hc ltac:(cbn; lia)). assert (0 < 16 ^ (len (x :: y :: ds) - 1)) by (apply Z.pow_pos_nonneg; unfold len; cbn; lia). lia.
Qed.

Lemma digits16_canon ds f acc : canon ds → (length ds ≤ f)%nat → digits16 f (val16 0 ds) acc = map (digit_char false) ds ++ acc.
Proof.
  revert f acc. induction ds as [|d ds IH] using rev_ind; intros f acc Hc Hf; [by destruct Hc|].
  rewrite length_app in Hf. cbn in Hf. destruct f as [|f]; [lia|]. cbn [digits16]. rewrite val16_app. cbn [val16 fold_left]. fold (val16 0 ds).
  destruct (decide (ds = [])) as [->|Hne].
  - destruct Hc as (_ & Hd & _). cbn [app] in Hd. rewrite Forall_singleton in Hd. unfold digit_ok in Hd. change (val16 0 []) with 0.
    replace (0 * 16 + d) with d by lia. rewrite Z.mod_small by lia. destruct (Z.ltb_spec d 16); [|lia]. done.
  - destruct (canon_snoc _ _ Hne Hc) as (Hc' & Hd & Hv). unfold digit_ok in Hd.
    destruct (Z.ltb_spec (val16 0 ds * 16 + d) 16); [lia|].
    replace ((val16 0 ds * 16 + d) mod 16) with d by (apply (Z.mod_unique _ _ (val16 0 ds)); lia).
    replace ((val16 0 ds * 16 + d) / 16) with (val16 0 ds) by (apply (Z.div_unique _ _ _ d); lia).
    rewrite IH by (done || lia). by rewrite map_app, <-app_assoc.
Qed.

Lemma FormatUint_canon ds : canon ds → FormatUint (val16 0 ds) = map (digit_char false) ds.
Proof.
  intros Hc. unfold FormatUint. rewrite digits16_canon, app_nil_r; [done|done|].
  destruct (decide (1 < length ds)%nat) as [Hl|Hl]; [|lia]. pose proof (canon_low _ Hc Hl) as Hlow.
  assert (len ds - 1 ≤ Z.log2 (val16 0 ds)); [|unfold len in *; lia].
  transitivity (Z.log2 (16 ^ (len ds - 1))); [|by apply Z.log2_le_mono].
  replace 16 with (2 ^ 4) by done. rewrite <-Z.pow_mul_r, Z.log2_pow2 by (unfold len; lia). unfold len; lia.
Qed.

Lemma canon_exists n : 0 ≤ n → ∃ ds, canon ds ∧ val16 0 ds = n.
Proof.
  intros Hn. induction n as [n IH] using (well_founded_induction (Z.lt_wf 0)). destruct (decide (n < 16)).
  - exists [n]. split; [|done]. split_and!; [done|by apply Forall_singleton|cbn; lia].
  - destruct (IH (n / 16)) as (ds & (Hne & Hds & Hlead) & Hv).
    { split; [by apply Z.div_pos|]. apply Z.div_lt; lia. } { by apply Z.div_pos. }
    exists (ds ++ [n mod 16]). split; [|rewrite val16_app, Hv; cbn; pose proof (Z.div_mod n 16); lia].
    split_and!.
    + by destruct ds.
    + rewrite Forall_app, Forall_singleton. split; [done|]. by apply Z.mod_pos_bound.
    + intros _. destruct ds as [|x ds]; [done|]. cbn. destruct ds as [|y ds]; [|apply Hlead; cbn; lia].
      intros [= ->]. cbn in Hv. assert (1 ≤ n / 16) by (apply Z.div_le_lower_bound; lia). lia.
Qed.

(** ** Decoding *)
Lemma val16_grows n ds : 0 ≤ n → Forall digit_ok ds → n ≤ val16 n ds.
Proof.
  intros Hn Hds. revert n Hn. induction Hds as [|d ds Hd _ IH]; intros n Hn; [done|]. rewrite val16_cons. unfold digit_ok in Hd.
  transitivity (n * 16 + d); [lia|apply IH; lia].
Qed.

Lemma parse_uint_ok l n r : 0 ≤ n < 2 ^ 64 → parse_uint l n = Ret r ↔ ∃ ds, digits l = Some ds ∧ val16 n ds = r ∧ r < 2 ^ 64.
Proof.
  revert n. induction l as [|c l IH]; intros n Hn; cbn [parse_uint].
  - split; [intros [= <-]; exists []; split_and!; [done|done|lia]|]. intros (ds & [= <-] & <- & _). done.
  - assert (digits (c :: l) = (d ← char_digit 16 c; ds ← digits l; Some (d :: ds))) as -> by done.
    destruct (char_digit 16 c) as [d|] eqn:Hc; [|split; [done|by intros (? & ? & _)]]. apply char_digit_some in Hc as [Hd _]. unfold digit_ok in Hd.
    case_bool_decide as Hbig.
    + split; [done|]. intros (ds & Hds & <- & Hr). exfalso. cbn in Hds. destruct (digits l) as [ds'|] eqn:Hl; [|done]. injection Hds as <-.
      apply digits_ok in Hl as (Hok & _). pose proof (val16_grows (n * 16 + d) ds' ltac:(lia) Hok). rewrite val16_cons in Hr.
      change (2 ^ 64 / 16) with (2 ^ 60) in Hbig. lia.
    + change (2 ^ 64 / 16) with (2 ^ 60) in Hbig. rewrite Z.mod_small by lia. rewrite bool_decide_eq_false_2 by lia.
      rewrite IH by lia. cbn. destruct (digits l) as [ds'|]; cbn.
      * split; intros (ds & [= <-] & H1); eexists; (split; [reflexivity|]); exact H1.
      * by split; intros (ds & ? & _).
Qed.

Lemma ParseUint_ok raw r : raw ≠ [] → ParseUint raw = Ret r ↔ ∃ ds, digits raw = Some ds ∧ val16 0 ds = r ∧ r < 2 ^ 64.
Proof. intros Hne. unfold ParseUint. rewrite bool_decide_eq_false_2 by done. by apply parse_uint_ok. Qed.

Lemma mapped_ok {A} (o : outcome A) r : mapped o = Ret r ↔ o = Ret r.
Proof. by destruct o. Qed.

(** Sixteen digits fit a word. *)
Lemma nibbles_ok l n : 0 ≤ n → (n + 1) * 16 ^ len l ≤ 2 ^ 64 →
  nibbles l n = match digits l with Some ds => Ret (val16 n ds) | None => Fail ErrSyntax end.
Proof.
  revert n. induction l as [|c l IH]; intros n Hn Hfit; [done|]. cbn [nibbles]. rewrite decodeNibble_digit.
  assert (digits (c :: l) = (d ← char_digit 16 c; ds ← digits l; Some (d :: ds))) as -> by done.
  destruct (char_digit 16 c) as [d|] eqn:Hc; [|done]. apply char_digit_some in Hc as [Hd _]. unfold digit_ok in Hd. cbn [default from_option id].
  unfold badNibble. rewrite bool_decide_eq_false_2 by lia.
  replace (len (c :: l)) with (1 + len l) in Hfit by (unfold len; cbn; lia). rewrite Z.pow_add_r in Hfit by (unfold len; lia).
  assert (1 ≤ 16 ^ len l) by (apply (Z.pow_le_mono_r 16 0); unfold len; lia).
  rewrite (Z.mod_small (n * 16)) by nia. rewrite Z.mod_small by nia. rewrite IH by nia. cbn. by destruct (digits l).
Qed.

Lemma digits_app a b : digits (a ++ b) = (x ← digits a; y ← digits b; Some (x ++ y)).
Proof.
  induction a as [|c a IH]; cbn; [by destruct (digits b)|]. destruct (char_digit 16 c); cbn; [|done]. rewrite IH.
  destruct (digits a); cbn; [|done]. by destruct (digits b).
Qed.

Lemma fill_words_ok n raw end_ : (end_ ≤ length raw)%nat → (end_ ≤ 16 * n)%nat →
  match digits (take end_ raw) with
  | Some ds => ∃ ws, fill_words n raw end_ = Ret ws ∧ SetBits ws = val16 0 ds
  | None => fill_words n raw end_ = Fail ErrSyntax
  end.
Proof.
  revert end_. induction n as [|n IH]; intros end_ Hl Hn; [replace end_ with 0%nat by lia; by exists []|].
  cbn [fill_words]. set (start := (end_ - bigWordNibbles)%nat). unfold bigWordNibbles in start.
  assert (length (take (end_ - start) (drop start raw)) = (end_ - start)%nat) as Hlen by (rewrite length_take, length_drop; subst start; lia).
  assert (take end_ raw = take start raw ++ take (end_ - start) (drop start raw)) as Hsplit.
  { rewrite take_take_drop. f_equal. subst start. lia. }
  rewrite nibbles_ok; [|done|].
  2: { unfold len. rewrite Hlen. transitivity (16 ^ 16); [|done]. rewrite Z.mul_1_l. apply Z.pow_le_mono_r; [lia|]. subst start. lia. }
  specialize (IH start ltac:(subst start; lia) ltac:(subst start; lia)). rewrite Hsplit, digits_app.
  destruct (digits (take (end_ - start) (drop start raw))) as [y|] eqn:Hy; cbn [mbind option_bind outcome_bind].
  - destruct (digits (take start raw)) as [x|] eqn:Hx; cbn [mbind option_bind]; [|by rewrite IH].
    destruct IH as (ws & -> & Hws). exists (val16 0 y :: ws). split; [done|]. cbn [SetBits]. rewrite Hws, val16_app, (val16_shift (val16 0 x) y).
    apply digits_ok in Hy as (_ & _ & Hly). unfold len. rewrite <-Hly, Hlen. destruct (decide (start = 0%nat)) as [H0|H0].
    + assert (x = []) as -> by (rewrite H0 in Hx; by injection Hx as <-). change (val16 0 []) with 0. lia.
    + replace (end_ - start)%nat with 16%nat by (subst start; lia). change (16 ^ Z.of_nat 16) with (2 ^ 64). lia.
  - by destruct (digits (take start raw)).
Qed.

Definition good_raw (raw : text) : Prop := raw ≠ [] ∧ ((1 < length raw)%nat → head raw ≠ Some "0"%char).

Lemma canon_digits raw ds : good_raw raw → digits raw = Some ds → canon ds.
Proof.
  intros [Hne Hlead] Hd. pose proof (digits_ok _ _ Hd) as (Hok & Hlow & Hlen). split_and!; [|done|].
  - intros ->. by destruct raw.
  - rewrite <-Hlen. intros Hl. specialize (Hlead Hl). destruct raw as [|c raw]; [done|]. destruct ds as [|d ds]; [done|].
    cbn in *. intros [= ->]. apply Hlead. f_equal. injection Hlow as Hc _.
    pose proof (every_char (λ c, bool_decide (lower_char c = digit_char false 0 → c = "0"%char))) as Hall. cbv beta in Hall.
    specialize (Hall ltac:(vm_compute; reflexivity) c). apply bool_decide_eq_true_1 in Hall. by apply Hall.
Qed.

Lemma big_of_ok raw r : good_raw raw → big_of raw = Ret r ↔ ∃ ds, digits raw = Some ds ∧ val16 0 ds = r ∧ r < 2 ^ 256.
Proof.
  intros Hraw. unfold big_of. case_bool_decide as Hbig.
  - split; [done|]. intros (ds & Hds & <- & Hr). exfalso. pose proof (canon_low _ (canon_digits _ _ Hraw Hds)) as Hlow.
    apply digits_ok in Hds as (_ & _ & Hlen). rewrite Hlen in Hbig. specialize (Hlow ltac:(lia)).
    assert (16 ^ 64 ≤ 16 ^ (len ds - 1)) by (apply Z.pow_le_mono_r; unfold len; lia). change (2 ^ 256) with (16 ^ 64) in Hr. lia.
  - pose proof (fill_words_ok (length raw / bigWordNibbles + 1) raw (length raw) ltac:(lia)) as Hfill. rewrite firstn_all in Hfill.
    unfold bigWordNibbles in *. specialize (Hfill ltac:(pose proof (Nat.div_mod_eq (length raw) 16); pose proof (Nat.mod_upper_bound (length raw) 16); lia)).
    destruct (digits raw) as [ds|] eqn:Hds.
    + destruct Hfill as (ws & -> & Hws). cbn [mbind outcome_bind]. rewrite Hws. apply digits_ok in Hds as (Hok & _ & Hlen). split.
      * intros [= <-]. exists ds. split; [done|]. split; [done|]. pose proof (val16_bound _ Hok).
        assert (16 ^ len ds ≤ 16 ^ 64) by (apply Z.pow_le_mono_r; unfold len; lia). change (2 ^ 256) with (16 ^ 64). lia.
      * by intros (? & [= <-] & <- & _).
    + rewrite Hfill. by split; [|intros (? & ? & _)].
Qed.

Lemma Uint64_ok raw r : good_raw raw →
  (if bool_decide (16 < length raw)%nat then Fail ErrUint64Range else nibbles raw 0) = Ret r ↔
  ∃ ds, digits raw = Some ds ∧ val16 0 ds = r ∧ r < 2 ^ 64.
Proof.
  intros Hraw. case_bool_decide as Hbig.
  - split; [done|]. intros (ds & Hds & <- & Hr). exfalso. pose proof (canon_low _ (canon_digits _ _ Hraw Hds)) as Hlow.
    apply digits_ok in Hds as (_ & _ & Hlen). rewrite Hlen in Hbig. specialize (Hlow ltac:(lia)).
    assert (16 ^ 16 ≤ 16 ^ (len ds - 1)) by (apply Z.pow_le_mono_r; unfold len; lia). change (2 ^ 64) with (16 ^ 16) in Hr. lia.
  - assert (16 ^ len raw ≤ 16 ^ 16) by (apply Z.pow_le_mono_r; unfold len; lia). change (16 ^ 16) with (2 ^ 64) in *.
    rewrite nibbles_ok by lia. destruct (digits raw) as [ds|] eqn:Hds; [|by split; [|intros (? & ? & _)]].
    apply digits_ok in Hds as (Hok & _ & Hlen). split; [|by intros (? & [= <-] & <- & _)].
    intros [= <-]. exists ds. split; [done|]. split; [done|]. pose proof (val16_bound _ Hok). unfold len in *. rewrite <-Hlen in *. lia.
Qed.

(** ** Prefixes *)
Lemma prefix_ok t : has0xPrefix t = true ↔ ∃ pre raw, t = pre ++ raw ∧ lower pre = prefix0x.
Proof.
  assert (∀ c, lower_char c = "0"%char → c = "0"%char) as H0.
  { intros c. pose proof (every_char (λ c, bool_decide (lower_char c = "0"%char → c = "0"%char))) as Hall. cbv beta in Hall.
    specialize (Hall ltac:(vm_compute; reflexivity) c). by apply bool_decide_eq_true_1 in Hall. }
  assert (∀ c, lower_char c = "x"%char ↔ c = "x"%char ∨ c = "X"%char) as Hx.
  { intros c. split; [|by intros [-> | ->]].
    pose proof (every_char (λ c, bool_decide (lower_char c = "x"%char → c = "x"%char ∨ c = "X"%char))) as Hall. cbv beta in Hall.
    specialize (Hall ltac:(vm_compute; reflexivity) c). by apply bool_decide_eq_true_1 in Hall. }
  split.
  - destruct t as [|a [|b t]]; [done..|]. cbn. rewrite andb_true_iff, orb_true_iff, !bool_decide_eq_true. intros [-> Hb].
    exists ["0"%char; b], t. split; [done|]. unfold prefix0x. cbn. by rewrite (proj2 (Hx b) Hb).
  - intros (pre & raw & -> & Hpre). destruct pre as [|a [|b [|c pre]]]; try done. injection Hpre as Ha%H0 Hb%Hx. cbn.
    rewrite andb_true_iff, orb_true_iff, !bool_decide_eq_true. done.
Qed.

Lemma prefix_drop t : has0xPrefix t = true → lower (take 2 t) = prefix0x ∧ t = take 2 t ++ drop 2 t ∧ t ≠ [].
Proof.
  intros (pre & raw & -> & Hpre)%prefix_ok. by destruct pre as [|a [|b [|c pre]]].
Qed.

Lemma checkNumber_ok t raw : checkNumber t = Ret raw ↔ has0xPrefix t = true ∧ raw = drop 2 t ∧ good_raw raw.
Proof.
  unfold checkNumber, good_raw. case_bool_decide as Hn; [subst t; by split; [|intros (? & _)]|].
  destruct (has0xPrefix t); cbn [negb]; [|by split; [|intros (? & _)]].
  case_bool_decide as Hd; [split; [done|]; by intros (_ & -> & ? & _)|].
  destruct (bool_decide (1 < _)%nat && _) eqn:Hlead.
  - split; [done|]. rewrite andb_true_iff, !bool_decide_eq_true in Hlead. intros (_ & -> & _ & Hl). by destruct Hlead as [?%Hl ?].
  - split; [|by intros (_ & -> & _)]. intros [= <-]. split; [done|]. split; [done|]. split; [done|]. intros Hl Hh.
    rewrite andb_false_iff, !bool_decide_eq_false in Hlead. by destruct Hlead.
Qed.

Lemma lower_app a b : lower (a ++ b) = lower a ++ lower b.
Proof. apply map_app. Qed.

(** A decoder of the digits decodes exactly the numbers in canonical form. *)
Lemma quantity_ok (f : text → outcome Z) B t n :
  (∀ raw r, good_raw raw → f raw = Ret r ↔ ∃ ds, digits raw = Some ds ∧ val16 0 ds = r ∧ r < B) →
  (raw ← checkNumber t; f raw) = Ret n ↔ 0 ≤ n < B ∧ lower t = prefix0x ++ FormatUint n.
Proof.
  intros Hf. split.
  - destruct (checkNumber t) as [raw| | |] eqn:Ht; try done. cbn [mbind outcome_bind]. apply checkNumber_ok in Ht as (Hp & -> & Hraw). rewrite Hf by done.
    intros (ds & Hds & <- & Hn). apply prefix_drop in Hp as (Hp & Hsplit & _).
    pose proof (digits_ok _ _ Hds) as (Hok & Hlow & _). pose proof (val16_bound _ Hok).
    split; [lia|]. rewrite Hsplit, lower_app, Hp, Hlow. by rewrite FormatUint_canon by by apply (canon_digits (drop 2 t)).
  - intros [Hn Ht]. destruct (canon_exists n ltac:(lia)) as (ds & Hc & <-). rewrite FormatUint_canon in Ht by done.
    destruct t as [|a [|b raw]]; try done. injection Ht as Ha Hb Hlow.
    assert (has0xPrefix (a :: b :: raw) = true) as Hp by (apply prefix_ok; exists [a; b], raw; split; [done|unfold prefix0x; cbn; by rewrite Ha, Hb]).
    assert (digits raw = Some ds) as Hds by (apply digits_lower; [apply Hc|done]).
    assert (good_raw raw) as Hraw.
    { destruct Hc as (Hne & Hok & Hlead). apply digits_ok in Hds as (_ & _ & Hlen). split; [by destruct raw, ds|]. intros Hl.
      rewrite Hlen in Hl. specialize (Hlead Hl). destruct raw as [|c raw]; [done|]. destruct ds as [|d ds]; [done|]. cbn in *. intros [= ->].
      apply Hlead. injection Hlow as Hd _. inversion Hok as [|?? Hdd _]; subst. f_equal.
      assert (char_digit 16 "0" = Some d) as [=] by (apply char_digit_some; split; done). done. }
    rewrite (proj2 (checkNumber_ok _ raw)) by done. cbn [mbind outcome_bind]. apply Hf; [done|]. exists ds. split; [done|]. split; [done|lia].
Qed.

(** ** Bytes *)
Lemma hex_Decode_pair a b l : hex_Decode (a :: b :: l) =
  match char_digit 16 a, char_digit 16 b with
  | Some x, Some y => r ← hex_Decode l; Ret (x * 16 + y :: r)
  | _, _ => Fail InvalidByteError
  end.
Proof.
  unfold hex_Decode. cbn [decode_hex]. destruct (char_digit 16 a); [|done]. destruct (char_digit 16 b); [|done].
  by destruct (decode_hex l) as [r [e|]].
Qed.

Lemma hex_Decode_ok l b : hex_Decode l = Ret b ↔ is_bytes b ∧ lower l = hex_Encode b.
Proof.
  revert b. induction l as [l IH] using (induction_ltof1 _ length). destruct l as [|a [|c l]]; intros bs.
  - split; [intros [= <-]; split; [constructor|done]|]. intros [_ Hl]. by destruct bs.
  - split; [by unfold hex_Decode; cbn; destruct (char_digit 16 a)|]. intros [_ Hl]. by destruct bs as [|x [|y bs]].
  - rewrite hex_Decode_pair. split.
    + destruct (char_digit 16 a) as [x|] eqn:Hx; [|done]. destruct (char_digit 16 c) as [y|] eqn:Hy; [|done].
      destruct (hex_Decode l) as [r| | |] eqn:Hr; try done. intros [= <-]. apply (IH l) in Hr as [Hr Hl]; [|unfold ltof; cbn; lia].
      apply char_digit_some in Hx as [Hx Hax]. apply char_digit_some in Hy as [Hy Hcy]. unfold digit_ok in *. split.
      { constructor; [unfold is_byte; lia|done]. }
      cbn. rewrite Hl, Hax, Hcy. replace ((x * 16 + y) / 16) with x by (apply (Z.div_unique _ _ _ y); lia).
      by replace ((x * 16 + y) mod 16) with y by (apply (Z.mod_unique _ _ x); lia).
    + intros [Hbs Hl]. destruct bs as [|z bs]; [done|]. inversion Hbs as [|?? Hz Hbs']; subst. unfold is_byte in Hz. injection Hl as Ha Hc Hl.
      assert (0 ≤ z / 16 < 16) by (split; [apply Z.div_pos; lia|apply Z.div_lt_upper_bound; lia]).
      rewrite (proj2 (char_digit_some a (z / 16))) by done. rewrite (proj2 (char_digit_some c (z mod 16))) by (split; [apply Z.mod_pos_bound; lia|done]).
      rewrite (proj2 (IH l ltac:(unfold ltof; cbn; lia) bs)) by done. cbn. do 2 f_equal. pose proof (Z.div_mod z 16). lia.
Qed.

Lemma Decode_ok t b : Decode t = Ret b ↔ is_bytes b ∧ lower t = Encode b.
Proof.
  unfold Decode, Encode. split.
  - case_bool_decide; [done|]. destruct (has0xPrefix t) eqn:Hp; [|done]. cbn [negb]. rewrite mapped_ok, hex_Decode_ok. intros [Hb Hl].
    apply prefix_drop in Hp as (Hp & Hsplit & _). split; [done|]. by rewrite Hsplit, lower_app, Hp, Hl.
  - intros [Hb Ht]. destruct t as [|a [|c raw]]; try done. injection Ht as Ha Hc Hraw.
    assert (has0xPrefix (a :: c :: raw) = true) as Hp by (apply prefix_ok; exists [a; c], raw; split; [done|unfold prefix0x; cbn; by rewrite Ha, Hc]).
    rewrite bool_decide_eq_false_2 by done. rewrite Hp. cbn [negb drop]. by apply mapped_ok, hex_Decode_ok.
Qed.

Lemma even_hex l b : hex_Decode l = Ret b → (length l = 2 * length b)%nat.
Proof.
  intros [_ Hl]%hex_Decode_ok. assert (length (lower l) = length (hex_Encode b)) as E by (by rewrite Hl). unfold lower in E. rewrite length_map in E.
  rewrite E. clear. induction b as [|x b IH]; [done|].
  change (S (S (length (hex_Encode b))) = (2 * S (length b))%nat). lia.
Qed.

Lemma Bytes_Unmarshal_ok t b : Bytes_UnmarshalText t = Ret b ↔ t = [] ∧ b = [] ∨ Decode t = Ret b.
Proof.
  unfold Bytes_UnmarshalText, checkText, Decode. case_bool_decide as Hn; [subst t; cbn; split; [intros [= <-]; by left|by intros [[_ ->]|]]|].
  destruct (has0xPrefix t); cbn [negb mbind outcome_bind]; [|by split; [|intros [[? _]|]]].
  case_bool_decide as Hodd; cbn [mbind outcome_bind].
  - split; [done|]. intros [[? _]|Hd]; [done|]. apply mapped_ok, even_hex in Hd. exfalso. apply Hodd. rewrite Hd. rewrite Nat.mul_comm. by apply Nat.Div0.mod_mul.
  - split; [by right|]. by intros [[? _]|].
Qed.

Lemma good_hex raw : (length raw mod 2 = 0)%nat →
  if existsb (λ c, bool_decide (decodeNibble c = badNibble)) raw then ∀ b, hex_Decode raw ≠ Ret b else ∃ b, hex_Decode raw = Ret b.
Proof.
  induction raw as [raw IH] using (induction_ltof1 _ length). destruct raw as [|a [|c raw]]; [intros _; by exists []|done|]. intros Hev.
  assert (∀ x, bool_decide (decodeNibble x = badNibble) = bool_decide (char_digit 16 x = None)) as Hbad.
  { intros x. rewrite decodeNibble_digit. destruct (char_digit 16 x) as [d|] eqn:Hx; [|done]. apply char_digit_some in Hx as [Hd _].
    unfold digit_ok in Hd. apply bool_decide_ext. cbn. unfold badNibble. split; [lia|done]. }
  specialize (IH raw ltac:(unfold ltof; cbn; lia)). rewrite hex_Decode_pair. cbn [existsb]. rewrite !Hbad.
  destruct (char_digit 16 a) as [x|]; [|done]. destruct (char_digit 16 c) as [y|]; [|done]. rewrite !bool_decide_eq_false_2 by done. cbn [orb].
  replace (length (a :: c :: raw)) with (length raw + 1 * 2)%nat in Hev by (cbn; lia). rewrite Nat.Div0.mod_add in Hev. specialize (IH Hev).
  destruct (existsb _ raw).
  - intros b. destruct (hex_Decode raw) as [r| | |]; try done. by destruct (IH r).
  - destruct IH as (b & ->). by eexists.
Qed.

Lemma fixed_ok t out b : UnmarshalFixedText t out = Ret b ↔ Bytes_UnmarshalText t = Ret b ∧ length b = length out.
Proof.
  unfold UnmarshalFixedText, fixed_text, Bytes_UnmarshalText. destruct (checkText t true) as [raw| | |] eqn:Ht; cbn [mbind outcome_bind]; try by split; [|intros [? _]].
  assert (length raw mod 2 = 0)%nat as Hev.
  { unfold checkText in Ht. case_bool_decide; [by injection Ht as <-|]. destruct (has0xPrefix t); [|done]. cbn [mbind outcome_bind] in Ht.
    case_bool_decide; [done|]. injection Ht as <-. lia. }
  pose proof (good_hex raw Hev) as Hgood. rewrite mapped_ok.
  assert (∀ b', hex_Decode raw = Ret b' → (length raw / 2 = length b')%nat) as Hlen.
  { intros b' Hb'. rewrite (even_hex _ _ Hb'). rewrite Nat.mul_comm. by apply Nat.div_mul. }
  case_bool_decide as Hl; [split; [done|]; intros [Hd%Hlen Hb]; lia|].
  destruct (existsb _ raw); [split; [done|]; by intros [?%Hgood _]|]. destruct Hgood as (b' & Hb').
  assert (fst (decode_hex raw) = b') as ->. { unfold hex_Decode in Hb'. destruct (decode_hex raw) as [r [e|]]; [done|]. by injection Hb'. }
  rewrite Hb'. specialize (Hlen _ Hb'). rewrite drop_ge, app_nil_r by lia. split; [intros [= <-]; split; [done|lia]|by intros [[= <-] _]].
Qed.

(** ** Numbers in JSON *)
Lemma checkNumberText_ok {A} (f : text → outcome A) t r r0 :
  f [] = Ret r0 → (raw ← checkNumberText t; f raw) = Ret r ↔ t = [] ∧ r = r0 ∨ (raw ← checkNumber t; f raw) = Ret r.
Proof.
  intros Hf. unfold checkNumberText. case_bool_decide as Hn; [|split; [by right|by intros [[? _]|]]].
  subst t. cbn [mbind outcome_bind]. rewrite Hf. split; [intros [= <-]; by left|by intros [[_ ->]|]].
Qed.

Lemma EncodeBig_nonneg n : 0 ≤ n → EncodeBig n = prefix0x ++ FormatUint n.
Proof.
  intros Hn. unfold EncodeBig. case_bool_decide as H0; [by subst n|]. rewrite bool_decide_eq_false_2 by lia. by rewrite Z.abs_eq.
Qed.

Lemma DecodeUint64_ok t n : DecodeUint64 t = Ret n ↔ 0 ≤ n < 2 ^ 64 ∧ lower t = EncodeUint64 n.
Proof.
  apply (quantity_ok (λ raw, mapped (ParseUint raw)) (2 ^ 64)). intros raw r [Hne _]. rewrite mapped_ok. by apply ParseUint_ok.
Qed.

Lemma DecodeBig_ok t n : DecodeBig t = Ret n ↔ 0 ≤ n < 2 ^ 256 ∧ lower t = EncodeBig n.
Proof.
  unfold DecodeBig. rewrite (quantity_ok big_of (2 ^ 256)) by (intros; by apply big_of_ok).
  split; intros [Hn Ht]; (split; [done|]); by rewrite EncodeBig_nonneg in * by lia.
Qed.

Lemma Uint64_Unmarshal_ok t n : Uint64_UnmarshalText t = Ret n ↔ t = [] ∧ n = 0 ∨ DecodeUint64 t = Ret n.
Proof.
  unfold Uint64_UnmarshalText. rewrite checkNumberText_ok by done. rewrite DecodeUint64_ok. unfold EncodeUint64.
  by rewrite (quantity_ok _ (2 ^ 64)) by apply Uint64_ok.
Qed.

Lemma Uint_Unmarshal_ok t n : Uint_UnmarshalText t = Ret n ↔ Uint64_UnmarshalText t = Ret n.
Proof.
  unfold Uint_UnmarshalText. destruct (Uint64_UnmarshalText t) as [m|e| |] eqn:Ht.
  - assert (m < 2 ^ 64). { apply Uint64_Unmarshal_ok in Ht as [[_ ->]|[? _]%DecodeUint64_ok]; lia. }
    rewrite (bool_decide_eq_false_2 (2 ^ 64 - 1 < m)) by lia. rewrite bool_decide_eq_false_2 by done. done.
  - destruct (_ || _); by split.
  - rewrite (bool_decide_eq_false_2 (_ < 0)) by lia. rewrite bool_decide_eq_false_2 by done. done.
  - rewrite (bool_decide_eq_false_2 (_ < 0)) by lia. rewrite bool_decide_eq_false_2 by done. done.
Qed.

(** C39: hexadecimal text.  A text is decoded to bytes exactly when, with small letters, it is
    their encoding; to a number below 2^64, or below 2^256, exactly when it is that of the number
    (so without zeros in front), though the big one is assembled from machine words.  In JSON the
    same holds, but the empty text stands for nothing or zero. *)
Theorem hex_texts_exact t :
  (∀ b, Decode t = Ret b ↔ is_bytes b ∧ lower t = Encode b) ∧
  (∀ n, DecodeUint64 t = Ret n ↔ 0 ≤ n < 2 ^ 64 ∧ lower t = EncodeUint64 n) ∧
  (∀ n, DecodeBig t = Ret n ↔ 0 ≤ n < 2 ^ 256 ∧ lower t = EncodeBig n) ∧
  (∀ b, Bytes_UnmarshalText t = Ret b ↔ t = [] ∧ b = [] ∨ is_bytes b ∧ lower t = Bytes_MarshalText b) ∧
  (∀ n, Big_UnmarshalText t = Ret n ↔ t = [] ∧ n = 0 ∨ 0 ≤ n < 2 ^ 256 ∧ lower t = Big_MarshalText n) ∧
  (∀ n, Uint64_UnmarshalText t = Ret n ↔ t = [] ∧ n = 0 ∨ 0 ≤ n < 2 ^ 64 ∧ lower t = Uint64_MarshalText n) ∧
  (∀ n, Uint_UnmarshalText t = Ret n ↔ Uint64_UnmarshalText t = Ret n) ∧
  (∀ out b, UnmarshalFixedText t out = Ret b ↔ Bytes_UnmarshalText t = Ret b ∧ length b = length out).
Proof.
  split; [apply Decode_ok|]. split; [apply DecodeUint64_ok|]. split; [apply DecodeBig_ok|].
  split; [intros b; by rewrite Bytes_Unmarshal_ok, Decode_ok|].
  split; [intros n; unfold Big_UnmarshalText; rewrite checkNumberText_ok by done; by rewrite <-DecodeBig_ok|].
  split; [intros n; by rewrite Uint64_Unmarshal_ok, DecodeUint64_ok|].
  split; [apply Uint_Unmarshal_ok|apply fixed_ok].
Qed.
