(* ===== verification/Trie.v ===== *)
(** [trie/trie.go], [trie/hasher.go], [trie/secure_trie.go]: the operations of the
    Merkle-Patricia trie.

    The database is an interface of the code; so it is here, a class.  Keccak-256 is a
    parameter.  The path handed down to the operations only appears in the text of errors. *)
From S2P Require Import Prelude Bytes HexKeys Rlp RlpRaw TrieNode.
Open Scope Z_scope.

(** ** The database *)

(** [Get] answers [None] for an error as for a missing value; [Put] answers its error. *)
Class Database (DB : Type) := {
  db_Get : DB → bytes → option bytes;
  db_Put : DB → bytes → bytes → option gerror * DB }.

(** What is put is there afterwards, and nothing else changes. *)
Class DatabaseLaws (DB : Type) `{Database DB} := {
  Get_Put db k v db' k' : db_Put db k v = (None, db') →
    db_Get db' k' = if decide (k' = k) then Some v else db_Get db k' }.

#[export] Instance gmap_Database : Database (gmap bytes bytes) := {
  db_Get db k := db !! k;
  db_Put db k v := (None, <[k := v]> db) }.

#[export] Instance gmap_DatabaseLaws : DatabaseLaws (gmap bytes bytes).
Proof.
  split. intros db k v db' k' [= <-]. cbn. case_decide; [subst; by rewrite lookup_insert_eq|by rewrite lookup_insert_ne].
Qed.

Section Trie.
Context {DB : Type} `{Database DB} (keccak : bytes → bytes).

(** The zero value of [db] is a nil interface. *)
Record Trie := mkTrie {
  root : node; db : option DB; originalRoot : bytes; cachegen : Z; cachelimit : Z }.

Definition set_root (n : node) (t : Trie) : Trie := mkTrie n (db t) (originalRoot t) (cachegen t) (cachelimit t).

Definition SetCacheLimit (l : Z) (t : Trie) : Trie := mkTrie (root t) (db t) (originalRoot t) (cachegen t) l.

Definition newFlag (g : Z) : nodeFlag := mkFlag None g true.

(** ** Loading nodes *)
Definition resolveHash (d : option DB) (g : Z) (n prefix : bytes) : outcome node :=
  match d with
  | None => Panic "nil pointer dereference"
  | Some d =>
    match db_Get d n with
    | None => Fail (MissingNodeError n prefix)
    | Some enc => mustDecodeNode (Some n) enc g
    end
  end.

Definition resolve (d : option DB) (g : Z) (n : node) (prefix : bytes) : outcome node :=
  match n with
  | HashN h => resolveHash d g h prefix
  | _ => Ret n
  end.

(** ** Reading *)

(** The value, the node with what was loaded on the way, and whether anything was. *)
Fixpoint tryGet (fuel : nat) (d : option DB) (g : Z) (origNode : node) (key : bytes) (pos : Z) : outcome (option bytes * node * bool) :=
  match fuel with
  | O => OutOfFuel
  | S f =>
    match origNode with
    | NilN => Ret (None, NilN, false)
    | ValueN v => Ret (Some v, origNode, false)
    | ShortN nKey nVal flags =>
      if bool_decide (len key - pos < len nKey ∨ take (length nKey) (drop (Z.to_nat pos) key) ≠ nKey)
      then Ret (None, origNode, false)
      else
        r ← tryGet f d g nVal key (pos + len nKey);
        let '(value, newnode, didResolve) := r in
        Ret (value, if didResolve : bool then ShortN nKey newnode (mkFlag (fhash flags) g (dirty flags)) else origNode, didResolve)
    | FullN children flags =>
      k ← index key pos;
      child ← index children k;
      r ← tryGet f d g child key (pos + 1);
      let '(value, newnode, didResolve) := r in
      if didResolve : bool then
        children' ← set_index children k newnode;
        Ret (value, FullN children' (mkFlag (fhash flags) g (dirty flags)), didResolve)
      else Ret (value, origNode, didResolve)
    | HashN h =>
      child ← resolveHash d g h (take (Z.to_nat pos) key);
      r ← tryGet f d g child key pos;
      let '(value, newnode, _) := r in
      Ret (value, newnode, true)
    end
  end.

(** Every step takes a nibble off the key, or loads a node, which is not a hash. *)
Definition key_fuel (key : bytes) : nat := 2 * length key + 2.

Definition TryGet (key : bytes) : M Trie (option bytes) :=
  let key := keybytesToHex key in
  t ← get;
  r ← lift (tryGet (key_fuel key) (db t) (cachegen t) (root t) key 0);
  let '(value, newroot, didResolve) := r in
  (if didResolve : bool then modify (set_root newroot) else mret tt) ;;
  mret value.

(** ** Writing *)
Fixpoint insert (fuel : nat) (d : option DB) (g : Z) (n : node) (prefix key : bytes) (value : node) : outcome (bool * node) :=
  match fuel with
  | O => OutOfFuel
  | S f =>
    match key with
    | [] =>
      match n, value with
      | ValueN v, ValueN v' => Ret (negb (bool_decide (v = v')), value)
      | ValueN v, _ => Panic "interface conversion"
      | _, _ => Ret (true, value)
      end
    | k0 :: key' =>
      match n with
      | ShortN nKey nVal flags =>
        let matchlen := prefixLen key nKey in
        if bool_decide (matchlen = length nKey) then
          r ← insert f d g nVal (prefix ++ take matchlen key) (drop matchlen key) value;
          let '(dirty, nn) := r in
          if dirty : bool then Ret (true, ShortN nKey nn (newFlag g)) else Ret (false, n)
        else
          nk ← index nKey (Z.of_nat matchlen);
          r1 ← insert f d g NilN (prefix ++ take (S matchlen) nKey) (drop (S matchlen) nKey) nVal;
          branch1 ← set_index (replicate 17 NilN) nk (snd r1);
          kk ← index key (Z.of_nat matchlen);
          r2 ← insert f d g NilN (prefix ++ take (S matchlen) key) (drop (S matchlen) key) value;
          branch2 ← set_index branch1 kk (snd r2);
          let branch := FullN branch2 (newFlag g) in
          if bool_decide (matchlen = 0%nat) then Ret (true, branch)
          else Ret (true, ShortN (take matchlen key) branch (newFlag g))
      | FullN children flags =>
        child ← index children k0;
        r ← insert f d g child (prefix ++ [k0]) key' value;
        let '(dirty, nn) := r in
        if dirty : bool then
          children' ← set_index children k0 nn;
          Ret (true, FullN children' (newFlag g))
        else Ret (false, n)
      | NilN => Ret (true, ShortN key value (newFlag g))
      | HashN h =>
        rn ← resolveHash d g h prefix;
        r ← insert f d g rn prefix key value;
        let '(dirty, nn) := r in
        if dirty : bool then Ret (true, nn) else Ret (false, rn)
      | ValueN _ => Panic "invalid node"
      end
    end
  end.

(** The index of the only child, -1 if there is none, -2 if there are several. *)
Fixpoint only_child (i pos : Z) (children : list node) : Z :=
  match children with
  | [] => pos
  | NilN :: cs => only_child (i + 1) pos cs
  | _ :: cs => if bool_decide (pos = -1) then only_child (i + 1) i cs else -2
  end.

Fixpoint delete (fuel : nat) (d : option DB) (g : Z) (n : node) (prefix key : bytes) : outcome (bool * node) :=
  match fuel with
  | O => OutOfFuel
  | S f =>
    match n with
    | ShortN nKey nVal flags =>
      let matchlen := prefixLen key nKey in
      if bool_decide (matchlen < length nKey)%nat then Ret (false, n)
      else if bool_decide (matchlen = length key) then Ret (true, NilN)
      else
        r ← delete f d g nVal (prefix ++ take (length nKey) key) (drop (length nKey) key);
        let '(dirty, child) := r in
        if dirty : bool then
          match child with
          | ShortN cKey cVal _ => Ret (true, ShortN (nKey ++ cKey) cVal (newFlag g))
          | _ => Ret (true, ShortN nKey child (newFlag g))
          end
        else Ret (false, n)
    | FullN children flags =>
      k0 ← index key 0;
      child ← index children k0;
      r ← delete f d g child (prefix ++ [k0]) (drop 1 key);
      let '(dirty, nn) := r in
      if dirty : bool then
        children' ← set_index children k0 nn;
        let pos := only_child 0 (-1) children' in
        if bool_decide (0 ≤ pos) then
          last ← index children' pos;
          cnode ← (if bool_decide (pos ≠ 16) then resolve d g last prefix else Ret NilN);
          match cnode with
          | ShortN cKey cVal _ => Ret (true, ShortN (pos :: cKey) cVal (newFlag g))
          | _ => Ret (true, ShortN [pos] last (newFlag g))
          end
        else Ret (true, FullN children' (newFlag g))
      else Ret (false, n)
    | ValueN _ => Ret (true, NilN)
    | NilN => Ret (false, NilN)
    | HashN h =>
      rn ← resolveHash d g h prefix;
      r ← delete f d g rn prefix key;
      let '(dirty, nn) := r in
      if dirty : bool then Ret (true, nn) else Ret (false, rn)
    end
  end.

Definition TryDelete (key : bytes) : M Trie unit :=
  let k := keybytesToHex key in
  t ← get;
  r ← lift (delete (key_fuel k) (db t) (cachegen t) (root t) [] k);
  modify (set_root (snd r)).

Definition TryUpdate (key value : bytes) : M Trie unit :=
  let k := keybytesToHex key in
  t ← get;
  if bool_decide (len value ≠ 0) then
    r ← lift (insert (key_fuel k) (db t) (cachegen t) (root t) [] k (ValueN value));
    modify (set_root (snd r))
  else
    r ← lift (delete (key_fuel k) (db t) (cachegen t) (root t) [] k);
    modify (set_root (snd r)).

(** [Get], [Update] and [Delete] log an error and go on. *)
Definition Get (key : bytes) : M Trie (option bytes) :=
  r ← try (TryGet key); mret (match r with inr v => v | inl _ => None end).
Definition Update (key value : bytes) : M Trie unit := try (TryUpdate key value) ;; mret tt.
Definition Delete (key : bytes) : M Trie unit := try (TryDelete key) ;; mret tt.

(** ** Hashing *)

(** The state is the database to write to, [None] where the code passes nil. *)
Section Hasher.
Context (hgen hlimit : Z).

Definition store (n : node) (force : bool) : M (option DB) node :=
  match n with
  | HashN _ | NilN => mret n
  | _ =>
    match EncodeToBytes (node_gval n) with
    | Ret enc =>
      if bool_decide (len enc < 32) && negb force then mret n
      else
        c ← lift (cache n);
        let hash := match fst c with Some h => h | None => keccak enc end in
        d ← get;
        match d with
        | Some d =>
          match db_Put d hash enc with
          | (None, d') => modify (λ _, Some d') ;; mret (HashN hash)
          | (Some e, d') => modify (λ _, Some d') ;; fail e
          end
        | None => mret (HashN hash)
        end
    | Fail _ => panic "encode error"
    | Panic w => panic w
    | OutOfFuel => out_of_fuel
    end
  end.

(** The first [k] of the children are replaced by their hashes. *)
Fixpoint hash_children (hash : node → bool → M (option DB) (node * node)) (k : nat) (children : list node) : M (option DB) (list node * list node) :=
  match children with
  | [] => mret ([], [])
  | c :: cs =>
    match k with
    | O => mret (match c with NilN => ValueN [] | _ => c end :: cs, c :: cs)
    | S k' =>
      r ← match c with NilN => mret (ValueN [], NilN) | _ => hash c false end;
      rs ← hash_children hash k' cs;
      mret (fst r :: fst rs, snd r :: snd rs)
    end
  end.

Definition hashChildren (hash : node → bool → M (option DB) (node * node)) (original : node) : M (option DB) (node * node) :=
  match original with
  | ShortN nKey nVal flags =>
    ck ← lift (hexToCompact nKey);
    r ← match nVal with ValueN _ => mret (nVal, nVal) | _ => hash nVal false end;
    mret (ShortN ck (match fst r with NilN => ValueN [] | v => v end) flags, ShortN nKey (snd r) flags)
  | FullN children flags =>
    r ← hash_children hash 16 children;
    mret (FullN (fst r) flags, FullN (snd r) flags)
  | _ => mret (original, original)
  end.

(** The cached node gets the hash, and loses its dirty mark when there is a database. *)
Definition set_cached (wr : bool) (hashed cached : node) : node :=
  let cachedHash := match hashed with HashN h => Some h | _ => None end in
  match cached with
  | ShortN k v f => ShortN k v (mkFlag cachedHash (gen f) (if wr then false else dirty f))
  | FullN cs f => FullN cs (mkFlag cachedHash (gen f) (if wr then false else dirty f))
  | n => n
  end.

Definition writing (d : option DB) : bool := match d with Some _ => true | None => false end.

Fixpoint hash (n : node) (force : bool) : M (option DB) (node * node) :=
  c ← lift (cache n);
  d ← get;
  let continue :=
    r ← hashChildren hash n;
    hashed ← store (fst r) force;
    mret (hashed, set_cached (writing d) hashed (snd r)) in
  match fst c with
  | Some h =>
    if negb (writing d) then mret (HashN h, n)
    else if canUnload n hgen hlimit then mret (HashN h, HashN h)
    else if negb (snd c) then mret (HashN h, n)
    else continue
  | None => continue
  end.
End Hasher.

(** The hash of [\x80], the encoding of nothing. *)
Definition emptyRoot : bytes :=
  [86; 232; 31; 23; 27; 204; 85; 166; 255; 131; 69; 230; 146; 192; 248; 110;
   91; 72; 224; 27; 153; 108; 173; 192; 1; 98; 47; 181; 227; 99; 180; 33].
Definition zeroHash : bytes := replicate 32 0.

Definition New (root : bytes) (db : option DB) : outcome Trie :=
  if bool_decide (root ≠ zeroHash ∧ root ≠ emptyRoot) then
    match db with
    | None => Panic "trie.New: cannot use existing root without a database"
    | Some _ =>
      rootnode ← resolveHash db 0 root [];
      Ret (mkTrie rootnode db root 0 0)
    end
  else Ret (mkTrie NilN db root 0 0).

Definition hashRoot (t : Trie) : M (option DB) (node * node) :=
  match root t with
  | NilN => mret (HashN emptyRoot, NilN)
  | _ => hash (cachegen t) (cachelimit t) (root t) true
  end.

(** [hash.(hashNode)]; the root is always hashed. *)
Definition as_hash (n : node) : outcome bytes :=
  match n with HashN h => Ret (BytesToHash h) | _ => Panic "interface conversion" end.

(** An error is ignored; the hash is empty then. *)
Definition Hash : M Trie bytes :=
  t ← get;
  match fst (hashRoot t None) with
  | Ret (hash, cached) => modify (set_root cached) ;; lift (as_hash hash)
  | Fail _ => mret (BytesToHash [])
  | Panic w => panic w
  | OutOfFuel => out_of_fuel
  end.

(** The trie and the database written to. *)
Definition CommitTo : M (Trie * DB) bytes := λ '(t, d),
  match hashRoot t (Some d) with
  | (Ret (hash, cached), d') =>
    (as_hash hash, (mkTrie cached (db t) (originalRoot t) ((cachegen t + 1) mod 2 ^ 16) (cachelimit t), default d d'))
  | (Fail e, d') => (Fail e, (t, default d d'))
  | (Panic w, d') => (Panic w, (t, default d d'))
  | (OutOfFuel, d') => (OutOfFuel, (t, default d d'))
  end.

Definition Commit : M Trie bytes := λ t,
  match db t with
  | None => (Panic "Commit called on trie with nil database", t)
  | Some d =>
    let '(o, (t', d')) := CommitTo (t, d) in
    (o, mkTrie (root t') (Some d') (originalRoot t') (cachegen t') (cachelimit t'))
  end.
End Trie.
Arguments Trie : clear implicits.
