(* ===== verification/TrieTree.v ===== *)
(** What a trie stands for: trees without hashes and flags, the values they hold, and their
    canonical form.  Two trees in canonical form that hold the same values are the same tree. *)
From S2P Require Import Prelude Bytes HexKeys.
Open Scope Z_scope.

Inductive ptree :=
  | PNil
  | PVal (v : bytes)
  | PShort (k : bytes) (t : ptree)
  | PFull (ts : list ptree).

Lemma ptree_induction (P : ptree → Prop) :
  P PNil → (∀ v, P (PVal v)) → (∀ k t, P t → P (PShort k t)) → (∀ ts, Forall P ts → P (PFull ts)) → ∀ t, P t.
Proof.
  intros Hn Hv Hs Hf. fix IH 1. intros [|v|k t|ts]; [done|done|by apply Hs|]. apply Hf.
  induction ts as [|t ts IHl]; constructor; [apply IH|exact IHl].
Qed.

#[export] Instance ptree_eq_dec : EqDecision ptree.
Proof.
  refine (fix go t1 t2 : Decision (t1 = t2) :=
    let _ : EqDecision ptree := go in
    match t1, t2 with
    | PNil, PNil => left eq_refl
    | PVal v1, PVal v2 => cast_if (decide (v1 = v2))
    | PShort k1 s1, PShort k2 s2 => cast_if_and (decide (k1 = k2)) (decide (s1 = s2))
    | PFull l1, PFull l2 => cast_if (decide (l1 = l2))
    | _, _ => right _
    end); try congruence; abstract congruence.
Defined.

(** ** Lookup *)
Fixpoint plookup (t : ptree) (key : bytes) : option bytes :=
  match t with
  | PNil => None
  | PVal v => match key with [] => Some v | _ => None end
  | PShort k t' => if bool_decide (take (length k) key = k) then plookup t' (drop (length k) key) else None
  | PFull ts => match key with
                | [] => None
                | x :: key' => if bool_decide (0 ≤ x) then map (λ t, plookup t key') ts !! Z.to_nat x ≫= id else None
                end
  end.

Lemma plookup_full ts x key :
  0 ≤ x → plookup (PFull ts) (x :: key) = ts !! Z.to_nat x ≫= λ t, plookup t key.
Proof.
  intros Hx. cbn [plookup]. rewrite bool_decide_eq_true_2 by done.
  change (map ?f ts) with (f <$> ts). rewrite list_lookup_fmap. by destruct (ts !! Z.to_nat x).
Qed.

Lemma plookup_short k t key : plookup (PShort k t) (k ++ key) = plookup t key.
Proof. cbn [plookup]. rewrite take_app_length, drop_app_length. by rewrite bool_decide_eq_true_2. Qed.

Lemma plookup_short_inv k t key v : plookup (PShort k t) key = Some v → ∃ key', key = k ++ key' ∧ plookup t key' = Some v.
Proof.
  cbn [plookup]. case_bool_decide as Hk; [|done]. intros Hv. exists (drop (length k) key).
  split; [|done]. rewrite <-Hk at 1. symmetry. apply take_drop.
Qed.

(** ** Canonical form *)
Definition nibbles (k : bytes) : Prop := Forall is_nibble k.

(** A whole key, or what is left of one: nibbles and the terminator. *)
Definition term_key (k : bytes) : Prop := ∃ k', k = k' ++ [16] ∧ nibbles k'.

Definition present (t : ptree) : bool := match t with PNil => false | _ => true end.

(** A leaf has the rest of its key, terminator included; an extension leads to a branch; a
    branch has 17 children, at least two of them present, the last a value. *)
Fixpoint tree_ok (t : ptree) : Prop :=
  match t with
  | PShort k t' =>
    match t' with
    | PVal v => term_key k ∧ v ≠ []
    | PFull _ => nibbles k ∧ k ≠ [] ∧ tree_ok t'
    | _ => False
    end
  | PFull ts =>
    length ts = 17%nat ∧ 2 ≤ countb present ts ∧
    (fix go (i : nat) (ts : list ptree) : Prop :=
       match ts with
       | [] => True
       | t :: ts' =>
         match t with
         | PNil => True
         | PVal v => i = 16%nat ∧ v ≠ []
         | _ => (i < 16)%nat ∧ tree_ok t
         end ∧ go (S i) ts'
       end) 0%nat ts
  | _ => False
  end.

(** What may stand at place [i] of a branch. *)
Definition child_ok (i : nat) (t : ptree) : Prop :=
  match t with
  | PNil => True
  | PVal v => i = 16%nat ∧ v ≠ []
  | _ => (i < 16)%nat ∧ tree_ok t
  end.

Lemma tree_full ts :
  tree_ok (PFull ts) ↔ length ts = 17%nat ∧ 2 ≤ countb present ts ∧ ∀ i t, ts !! i = Some t → child_ok i t.
Proof.
  assert (∀ ts i0, (fix go (i : nat) (ts : list ptree) : Prop :=
       match ts with
       | [] => True
       | t :: ts' =>
         match t with
         | PNil => True
         | PVal v => i = 16%nat ∧ v ≠ []
         | _ => (i < 16)%nat ∧ tree_ok t
         end ∧ go (S i) ts'
       end) i0 ts ↔ ∀ i t, ts !! i = Some t → child_ok (i0 + i) t) as Hgo.
  { clear ts. induction ts as [|t ts IH]; intros i0; [split; [by intros _ i t ?|done]|].
    rewrite IH. split.
    - intros [Ht Hts] [|i] t'; [intros [= <-]; by rewrite Nat.add_0_r|].
      intros Hi. replace (i0 + S i)%nat with (S i0 + i)%nat by lia. by apply Hts.
    - intros Hall. split; [specialize (Hall 0%nat t eq_refl); by rewrite Nat.add_0_r in Hall|].
      intros i t' Hi. replace (S i0 + i)%nat with (i0 + S i)%nat by lia. by apply Hall. }
  cbn [tree_ok]. by rewrite Hgo.
Qed.

Lemma term_key_16 : term_key [16].
Proof. exists []. split; [done|constructor]. Qed.

Lemma term_key_cons x k : term_key (x :: k) ↔ (x = 16 ∧ k = []) ∨ (is_nibble x ∧ term_key k).
Proof.
  split.
  - intros ([|y k'] & Heq & Hn); [injection Heq as -> ->; by left|]. injection Heq as -> ->.
    apply Forall_cons in Hn as [Hy Hn]. right. split; [done|]. by exists k'.
  - intros [[-> ->]|[Hx (k' & -> & Hn)]]; [apply term_key_16|]. exists (x :: k'). split; [done|by constructor].
Qed.

Lemma term_key_nonempty k : term_key k → k ≠ [].
Proof. intros (k' & -> & _). by destruct k'. Qed.

Lemma term_key_app k k' : nibbles k → term_key k' → term_key (k ++ k').
Proof. intros Hk (k2 & -> & Hk2). exists (k ++ k2). split; [by rewrite app_assoc|by apply Forall_app]. Qed.

Lemma term_key_app_inv k x k' : term_key (k ++ x :: k') → nibbles k ∧ term_key (x :: k').
Proof.
  induction k as [|y k IH]; [by split; [constructor|]|]. cbn [app]. intros [[-> Hnil]|[Hy Ht]]%term_key_cons; [by destruct k|].
  apply IH in Ht as [Hk Ht]. split; [by constructor|done].
Qed.

Lemma short_key_nonempty k t : tree_ok (PShort k t) → k ≠ [].
Proof. destruct t; try done; intros Hok; [apply term_key_nonempty, Hok|apply Hok]. Qed.

Lemma countb_two {A} (f : A → bool) l :
  2 ≤ countb f l → ∃ i j x y, i ≠ j ∧ l !! i = Some x ∧ l !! j = Some y ∧ f x = true ∧ f y = true.
Proof.
  assert (∀ l, 1 ≤ countb f l → ∃ i x, l !! i = Some x ∧ f x = true) as Hone.
  { clear l. induction l as [|x l IH]; [cbn; lia|]. rewrite countb_cons. destruct (f x) eqn:Hx; [intros _; by exists 0%nat, x|].
    intros H. destruct IH as (i & y & Hi & Hy); [lia|]. by exists (S i), y. }
  induction l as [|x l IH]; [cbn; lia|]. rewrite countb_cons. destruct (f x) eqn:Hx.
  - intros H. destruct (Hone l) as (i & y & Hi & Hy); [lia|]. by exists 0%nat, (S i), x, y.
  - intros H. destruct IH as (i & j & y & z & Hij & Hi & Hj & Hy & Hz); [lia|]. exists (S i), (S j), y, z. split; [lia|done].
Qed.

(** *** The keys of a tree *)
Lemma tree_keys t : (∀ k v, tree_ok t → plookup t k = Some v → term_key k ∧ v ≠ []) ∧
  (∀ i k v, child_ok i t → plookup t k = Some v → term_key (Z.of_nat i :: k) ∧ v ≠ []).
Proof.
  assert (∀ t, (∀ k v, tree_ok t → plookup t k = Some v → term_key k ∧ v ≠ []) →
    ∀ i k v, child_ok i t → plookup t k = Some v → term_key (Z.of_nat i :: k) ∧ v ≠ []) as Hchild.
  { intros t' Ht i k v Hc Hl. destruct t' as [|w|k1 t1|ts]; [done| |..].
    - destruct Hc as [-> Hw]. destruct k; [|done]. injection Hl as <-. split; [apply term_key_16|done].
    - destruct Hc as [Hi Hw]. apply Ht in Hl as [Hk Hv]; [|done]. split; [|done]. apply term_key_cons. right. split; [unfold is_nibble; lia|done].
    - destruct Hc as [Hi Hw]. apply Ht in Hl as [Hk Hv]; [|done]. split; [|done]. apply term_key_cons. right. split; [unfold is_nibble; lia|done]. }
  enough (∀ k v, tree_ok t → plookup t k = Some v → term_key k ∧ v ≠ []) by eauto.
  revert t. apply (ptree_induction (λ t, ∀ k v, tree_ok t → plookup t k = Some v → term_key k ∧ v ≠ [])).
  - done.
  - done.
  - intros k t IH key v Hw Hl. apply plookup_short_inv in Hl as (key' & -> & Hl). destruct t as [|w|k1 t1|ts]; try done.
    + destruct Hw as [Hk Hv]. destruct key'; [|done]. injection Hl as <-. by rewrite app_nil_r.
    + destruct Hw as (Hk & _ & Hw). apply IH in Hl as [Hk' Hv]; [|done]. split; [by apply term_key_app|done].
  - intros ts IH [|x key] v Hw Hl; [done|]. apply tree_full in Hw as (_ & _ & Hc). cbn [plookup] in Hl.
    destruct (decide (0 ≤ x)) as [Hx|Hx]; [|by rewrite bool_decide_eq_false_2 in Hl].
    change (plookup (PFull ts) (x :: key) = Some v) in Hl. rewrite plookup_full in Hl by done.
    destruct (ts !! Z.to_nat x) as [t|] eqn:Ht; [|done]. cbn [mbind option_bind] in Hl.
    rewrite Forall_lookup in IH. destruct (Hchild t (IH _ _ Ht) _ _ _ (Hc _ _ Ht) Hl) as [Hk Hv]. by rewrite Z2Nat.id in Hk.
Qed.

Lemma tree_key t k v : tree_ok t → plookup t k = Some v → term_key k ∧ v ≠ [].
Proof. apply tree_keys. Qed.

Lemma tree_inhabited t : (tree_ok t → ∃ k v, plookup t k = Some v) ∧ (∀ i, child_ok i t → present t = true → ∃ k v, plookup t k = Some v).
Proof.
  assert (∀ t, (tree_ok t → ∃ k v, plookup t k = Some v) → ∀ i, child_ok i t → present t = true → ∃ k v, plookup t k = Some v) as Hchild.
  { intros [|v|k t'|ts] Ht i Hc Hp; [done|by exists [], v|by apply Ht, Hc..]. }
  enough (tree_ok t → ∃ k v, plookup t k = Some v) by eauto.
  revert t. apply (ptree_induction (λ t, tree_ok t → ∃ k v, plookup t k = Some v)); [done..| |].
  - intros k t IH Hw. destruct t as [|w|k1 t1|ts]; try done.
    + exists k, w. rewrite <-(app_nil_r k) at 2. by rewrite plookup_short.
    + destruct Hw as (_ & _ & Hw). destruct (IH Hw) as (key & v & Hl). exists (k ++ key), v. by rewrite plookup_short.
  - intros ts IH (_ & H2 & Hc)%tree_full. apply countb_two in H2 as (i & j & x & y & Hij & Hi & Hj & Hx & Hy).
    rewrite Forall_lookup in IH. destruct (Hchild x (IH _ _ Hi) i (Hc _ _ Hi) Hx) as (k & v & Hl).
    exists (Z.of_nat i :: k), v. rewrite plookup_full by lia. by rewrite Nat2Z.id, Hi.
Qed.

(** A branch holds two keys that differ at once. *)
Lemma tree_full_two ts :
  tree_ok (PFull ts) → ∃ x y k1 k2, x ≠ y ∧ is_Some (plookup (PFull ts) (x :: k1)) ∧ is_Some (plookup (PFull ts) (y :: k2)).
Proof.
  intros (_ & H2 & Hc)%tree_full. apply countb_two in H2 as (i & j & x & y & Hij & Hi & Hj & Hx & Hy).
  destruct (proj2 (tree_inhabited x) i (Hc _ _ Hi) Hx) as (k1 & v1 & Hl1).
  destruct (proj2 (tree_inhabited y) j (Hc _ _ Hj) Hy) as (k2 & v2 & Hl2).
  exists (Z.of_nat i), (Z.of_nat j), k1, k2. split; [lia|]. rewrite !plookup_full by lia. rewrite !Nat2Z.id, Hi, Hj.
  cbn [mbind option_bind]. rewrite Hl1, Hl2. by split; eexists.
Qed.

(** ** Extensionality *)
Definition same (t t' : ptree) : Prop := ∀ k, plookup t k = plookup t' k.

Lemma short_vs_full k t ts : k ≠ [] → tree_ok (PFull ts) → ¬ same (PShort k t) (PFull ts).
Proof.
  intros Hk Hw Hs. destruct (tree_full_two ts Hw) as (x & y & k1 & k2 & Hxy & [v1 H1] & [v2 H2]).
  rewrite <-Hs in H1, H2. apply plookup_short_inv in H1 as (? & H1 & _). apply plookup_short_inv in H2 as (? & H2 & _).
  destruct k as [|z k]; [done|]. injection H1 as -> _. by injection H2 as -> _.
Qed.

Lemma leaf_vs_ext k v k' ts : tree_ok (PFull ts) → ¬ same (PShort k (PVal v)) (PShort k' (PFull ts)).
Proof.
  intros Hw Hs. destruct (tree_full_two ts Hw) as (x & y & k1 & k2 & Hxy & [v1 H1] & [v2 H2]).
  assert (∀ key w, plookup (PFull ts) key = Some w → k = k' ++ key) as Hk.
  { intros key w Hl. rewrite <-(plookup_short k' (PFull ts) key), <-Hs in Hl. apply plookup_short_inv in Hl as ([|? ?] & Heq & Hl); [|done].
    by rewrite app_nil_r in Heq. }
  pose proof (Hk _ _ H1) as E1. pose proof (Hk _ _ H2) as E2. rewrite E1 in E2. apply app_inv_head in E2. by injection E2 as ->.
Qed.

Lemma ext_prefix k ts k' ts' : tree_ok (PFull ts) → same (PShort k (PFull ts)) (PShort k' (PFull ts')) → k' `prefix_of` k.
Proof.
  intros Hw Hs. destruct (tree_full_two ts Hw) as (x & y & k1 & k2 & Hxy & [v1 H1] & [v2 H2]).
  assert (∀ key w, plookup (PFull ts) key = Some w → ∃ key', k ++ key = k' ++ key') as Hk.
  { intros key w Hl. rewrite <-(plookup_short k (PFull ts) key), Hs in Hl. apply plookup_short_inv in Hl as (key' & Heq & _). eauto. }
  destruct (Hk _ _ H1) as [r1 E1]. destruct (Hk _ _ H2) as [r2 E2]. clear -Hxy E1 E2.
  revert k E1 E2. induction k' as [|z k' IH]; intros k E1 E2; [apply prefix_nil|].
  destruct k as [|w k]; [injection E1 as -> _; by injection E2 as -> _|]. injection E1 as -> E1. injection E2 as E2.
  by apply prefix_cons, IH.
Qed.

Lemma same_short k t t' : same (PShort k t) (PShort k t') → same t t'.
Proof. intros Hs key. by rewrite <-(plookup_short k t), <-(plookup_short k t'). Qed.

Lemma child_ext i t t' :
  (tree_ok t → tree_ok t' → same t t' → t = t') → child_ok i t → child_ok i t' → same t t' → t = t'.
Proof.
  intros IH Hc Hc' Hs.
  assert (∀ t t', same t t' → child_ok i t → child_ok i t' → present t = true → present t' = true) as Hp.
  { clear. intros t t' Hs Hc Hc' Hp. destruct (proj2 (tree_inhabited t) i Hc Hp) as (k & v & Hl). rewrite Hs in Hl. by destruct t'. }
  destruct (present t) eqn:Hpt.
  - assert (present t' = true) as Hpt' by by apply (Hp t t').
    destruct t as [|v|k t|ts], t' as [|v'|k' t'|ts']; try done; cbn [child_ok] in *; try lia; try (by apply IH; naive_solver).
    specialize (Hs []). by injection Hs as ->.
  - assert (present t' = false) as Hpt'.
    { destruct (present t') eqn:E; [|done]. rewrite (Hp t' t) in Hpt; [done|intros k; by rewrite Hs|done..]. }
    by destruct t, t'.
Qed.

Lemma tree_ext t t' : tree_ok t → tree_ok t' → same t t' → t = t'.
Proof.
  revert t'. revert t. apply (ptree_induction (λ t, ∀ t', tree_ok t → tree_ok t' → same t t' → t = t')); [done..| |].
  - intros k t IH t' Hw Hw' Hs. destruct t as [|v|k1 t1|ts]; try done; destruct t' as [|v'|k' t'|ts']; try done.
    + destruct t' as [|v'|k1 t1|ts']; try done.
      * pose proof (plookup_short k (PVal v) []) as H1. rewrite app_nil_r, Hs in H1.
        apply plookup_short_inv in H1 as ([|? ?] & Heq & H1); [|done]. rewrite app_nil_r in Heq. by injection H1 as ->; subst.
      * destruct Hw' as (_ & _ & Hw'). by apply leaf_vs_ext in Hs.
    + apply short_vs_full in Hs; [done|apply term_key_nonempty, Hw|done].
    + destruct Hw as (Hk & Hne & Hw). destruct t' as [|v'|k1 t1|ts']; try done.
      * exfalso. apply (leaf_vs_ext k' v' k ts Hw). intros key. by rewrite Hs.
      * destruct Hw' as (Hk' & Hne' & Hw'). assert (k = k') as ->.
        { apply (anti_symm prefix); [apply (ext_prefix k' ts' k ts Hw'); intros key; by rewrite Hs|by apply (ext_prefix k ts k' ts' Hw)]. }
        f_equal. by apply IH, (same_short k').
    + destruct Hw as (_ & Hne & _). by apply short_vs_full in Hs.
  - intros ts IH t' Hw Hw' Hs. destruct t' as [|v'|k' t'|ts']; try done.
    + exfalso. assert (same (PShort k' t') (PFull ts)) as Hs' by (intros key; by rewrite Hs). apply short_vs_full in Hs'; [done| |done].
      destruct t'; try done; [apply term_key_nonempty, Hw'|apply Hw'].
    + f_equal. apply tree_full in Hw as (Hl & _ & Hc). apply tree_full in Hw' as (Hl' & _ & Hc').
      apply list_eq. intros i. destruct (ts !! i) as [t|] eqn:Hi.
      * assert (is_Some (ts' !! i)) as [t' Hi'] by (apply lookup_lt_is_Some; apply lookup_lt_Some in Hi; lia).
        rewrite Hi'. f_equal. apply (child_ext i); [|by apply Hc|by apply Hc'|].
        { intros. rewrite Forall_lookup in IH. by apply (IH i). }
        intros k. specialize (Hs (Z.of_nat i :: k)). rewrite !plookup_full in Hs by lia. by rewrite !Nat2Z.id, Hi, Hi' in Hs.
      * symmetry. apply lookup_ge_None. apply lookup_ge_None in Hi. lia.
Qed.
