(* ===== verification/TrieRep.v ===== *)
(** How the nodes of a trie, in memory and in the database, represent a tree, and that a node
    is decoded from its encoding. *)
From S2P Require Import Prelude Bytes HexKeys Rlp RlpRaw TrieNode Trie TrieTree.
Open Scope Z_scope.

(** ** More about splitting *)
Definition no_raw (r : rval) : Prop := match r with RRaw _ => False | _ => True end.

Lemma enc_item r : no_raw r → ∃ k c, enc r = item k c ∧ well_kinded k c = true.
Proof.
  destruct r as [b|vs|b]; intros Hr; [|by exists List_, (concat (map enc vs))|done].
  destruct (enc_str_item b). eauto.
Qed.

Lemma SplitString_enc b rest : len (enc_str b ++ rest) < 2 ^ 63 → SplitString (enc_str b ++ rest) = Ret (b, rest).
Proof.
  intros Hl. destruct (enc_str_item b) as [He Hw]. unfold SplitString. rewrite He in *. rewrite Split_item by done.
  cbn [mbind outcome_bind]. rewrite decide_False; [done|]. unfold str_kind. by destruct (is_small b).
Qed.

Lemma SplitList_enc rs rest :
  len (enc (RList rs) ++ rest) < 2 ^ 63 → SplitList (enc (RList rs) ++ rest) = Ret (concat (map enc rs), rest).
Proof.
  intros Hl. unfold SplitList. rewrite enc_list_item in *. rewrite Split_item by done. cbn [mbind outcome_bind].
  by rewrite decide_False by naive_solver.
Qed.

Lemma count_encs fuel i rs :
  Forall no_raw rs → (length (concat (map enc rs)) ≤ fuel)%nat → len (concat (map enc rs)) < 2 ^ 63 →
  count_values fuel i (concat (map enc rs)) = Ret (i + len rs).
Proof.
  intros Hr. revert fuel i. induction Hr as [|r rs Hr _ IH]; intros fuel i Hf Hl.
  { change (len []) with 0. rewrite Z.add_0_r. by destruct fuel. }
  cbn [map concat] in *. destruct (enc_item r Hr) as (k & c & He & Hw). rewrite He in *.
  pose proof (item_nonempty k c Hw) as Hne. rewrite length_app in Hf. destruct fuel as [|fuel]; [unfold len in Hne; lia|].
  rewrite count_step by done. rewrite len_app in Hl. pose proof (len_nonneg (concat (map enc rs))).
  rewrite IH by (unfold len in *; lia). f_equal. unfold len. cbn [length]. lia.
Qed.

Lemma CountValues_encs rs :
  Forall no_raw rs → len (concat (map enc rs)) < 2 ^ 63 → CountValues (concat (map enc rs)) = Ret (len rs).
Proof. intros Hr Hl. unfold CountValues. by rewrite count_encs. Qed.

(** ** The encoding of a tree *)
Section Rep.
Context {DB : Type} `{Database DB} (keccak : bytes → bytes).

Definition compact (k : bytes) : bytes := match hexToCompact k with Ret c => c | _ => [] end.

(** A node of 32 bytes or more is referred to by its hash. *)
Definition shrink (r : rval) : rval :=
  match r with
  | RList _ => if bool_decide (len (enc r) < 32) then r else RStr (keccak (enc r))
  | _ => r
  end.

Fixpoint body (t : ptree) : rval :=
  match t with
  | PNil => RStr []
  | PVal v => RStr v
  | PShort k t' => RList [RStr (compact k); shrink (body t')]
  | PFull ts => RList (map (λ t, shrink (body t)) ts)
  end.

Definition blob (t : ptree) : bytes := enc (body t).
Definition is_node (t : ptree) : bool := match t with PShort _ _ | PFull _ => true | _ => false end.

(** ** Nodes and the database *)
Context (d : option DB).

(** The database holds [b] under [h]; [b] is a Go slice. *)
Definition holds (h b : bytes) : Prop :=
  match d with Some d => db_Get d h = Some b | None => False end ∧ len b < 2 ^ 63.

(** The nodes below are in the database, unless they are embedded. *)
Fixpoint kids_stored (t : ptree) : Prop :=
  match t with
  | PShort _ t' => kids_stored t' ∧ (is_node t' = true → 32 ≤ len (blob t') → holds (keccak (blob t')) (blob t'))
  | PFull ts =>
    foldr (λ t P, (kids_stored t ∧ (is_node t = true → 32 ≤ len (blob t) → holds (keccak (blob t)) (blob t))) ∧ P) True ts
  | _ => True
  end.

Definition kid_stored (t : ptree) : Prop :=
  kids_stored t ∧ (is_node t = true → 32 ≤ len (blob t) → holds (keccak (blob t)) (blob t)).

Definition stored (t : ptree) : Prop := holds (keccak (blob t)) (blob t) ∧ kids_stored t.

Lemma kids_full ts : kids_stored (PFull ts) ↔ Forall kid_stored ts.
Proof. cbn [kids_stored]. induction ts as [|t ts IH]; cbn [foldr]; [split; [constructor|done]|]. by rewrite Forall_cons, <-IH. Qed.

(** The root is hashed whatever its size. *)
Definition hashed_ok (is_root : bool) (h : bytes) (t : ptree) : Prop :=
  is_node t = true ∧ h = keccak (blob t) ∧ (is_root = true ∨ 32 ≤ len (blob t)).

(** A node without a hash is dirty, or embedded in its parent. *)
Definition flags_ok (is_root : bool) (f : nodeFlag) (t : ptree) : Prop :=
  match fhash f with
  | None => dirty f = false → is_root = false ∧ len (blob t) < 32
  | Some h => hashed_ok is_root h t ∧ (dirty f = false → stored t)
  end.

(** The node [n] stands for the tree [t]. *)
Fixpoint rep (is_root : bool) (n : node) (t : ptree) : Prop :=
  match n with
  | NilN => t = PNil
  | ValueN v => t = PVal v
  | HashN h => hashed_ok is_root h t ∧ stored t
  | ShortN k c f => match t with PShort k' t' => k' = k ∧ rep false c t' | _ => False end ∧ flags_ok is_root f t
  | FullN cs f =>
    match t with
    | PFull ts =>
      (fix go (cs : list node) (ts : list ptree) : Prop :=
         match cs, ts with
         | [], [] => True
         | c :: cs', t :: ts' => rep false c t ∧ go cs' ts'
         | _, _ => False
         end) cs ts
    | _ => False
    end ∧ flags_ok is_root f t
  end.

Lemma rep_full is_root cs f t :
  rep is_root (FullN cs f) t ↔ ∃ ts, t = PFull ts ∧ Forall2 (rep false) cs ts ∧ flags_ok is_root f t.
Proof.
  assert (∀ cs ts, (fix go (cs : list node) (ts : list ptree) : Prop :=
         match cs, ts with
         | [], [] => True
         | c :: cs', t :: ts' => rep false c t ∧ go cs' ts'
         | _, _ => False
         end) cs ts ↔ Forall2 (rep false) cs ts) as Hgo.
  { clear. induction cs as [|c cs IH]; intros [|t ts].
    - split; [constructor|done].
    - split; [done|by intros ?%Forall2_nil_cons_inv].
    - split; [done|by intros ?%Forall2_cons_nil_inv].
    - rewrite IH. by rewrite Forall2_cons. }
  split.
  - intros [Ht Hf]. destruct t as [| | |ts]; try done. apply Hgo in Ht. eauto.
  - intros (ts & -> & Hts & Hf). split; [by apply Hgo|done].
Qed.

Lemma rep_short is_root k c f t :
  rep is_root (ShortN k c f) t ↔ ∃ t', t = PShort k t' ∧ rep false c t' ∧ flags_ok is_root f t.
Proof.
  split.
  - intros [Ht Hf]. destruct t as [| |k' t'|]; try done. destruct Ht as [-> Ht]. eauto.
  - intros (t' & -> & Ht & Hf). by repeat split.
Qed.

Lemma rep_nil is_root n : rep is_root n PNil → n = NilN.
Proof. destruct n; try done; intros Hr; by destruct Hr as [[? _] _] || destruct Hr. Qed.

Lemma rep_val is_root n v : rep is_root n (PVal v) → n = ValueN v.
Proof. destruct n; try done; intros Hr; [by injection Hr as ->|..]; by destruct Hr as [[? _] _] || destruct Hr. Qed.

(** ** Decoding *)
Context (keccak_len : ∀ b, len (keccak b) = 32).

Lemma hex_ok_term k : term_key k → hex_ok k.
Proof. intros (k' & -> & Hk). by constructor. Qed.

Lemma compact_ok k : hex_ok k → hexToCompact k = Ret (compact k) ∧ compactToHex (compact k) = Ret k.
Proof. intros Hk. destruct (compact_inverse k Hk) as (c & Hc & Hh & _). unfold compact. by rewrite Hc. Qed.

Lemma body_list t : is_node t = true → ∃ rs, body t = RList rs.
Proof. destruct t; try done; cbn [body]; eauto. Qed.

Lemma no_raw_shrink t : no_raw (shrink (body t)).
Proof. destruct t; try done; cbn [body shrink]; by case_bool_decide. Qed.

Lemma ref_cases t :
  is_node t = true →
  (len (blob t) < 32 ∧ shrink (body t) = body t) ∨ (32 ≤ len (blob t) ∧ shrink (body t) = RStr (keccak (blob t))).
Proof.
  intros Hn. destruct (body_list t Hn) as [rs Hb]. unfold blob, shrink. rewrite Hb.
  case_bool_decide; [by left|right]. split; [lia|done].
Qed.

Lemma len_enc_elem r rs : r ∈ rs → len (enc r) < len (enc (RList rs)).
Proof.
  intros Hr. rewrite enc_list_item. unfold item. rewrite len_app.
  assert (1 ≤ len (header List_ (len (concat (map enc rs))))) as Hh.
  { cbn [header]. unfold puthead. case_bool_decide; [done|]. unfold len. simpl. lia. }
  assert (len (enc r) ≤ len (concat (map enc rs))); [|lia].
  apply list_elem_of_split in Hr as (l1 & l2 & ->). rewrite map_app, concat_app. cbn [map concat]. rewrite !len_app.
  pose proof (len_nonneg (concat (map enc l1))). pose proof (len_nonneg (concat (map enc l2))). lia.
Qed.

(** A reference is decoded to a node that stands for the child. *)
Lemma decodeRef_child (decode : bytes → outcome node) c rest :
  c = PNil ∨ tree_ok c → kid_stored c →
  (is_node c = true → len (blob c) < 32 → ∃ n, decode (blob c ++ rest) = Ret n ∧ rep false n c) →
  len (enc (shrink (body c)) ++ rest) < 2 ^ 63 →
  ∃ n, decodeRef decode (enc (shrink (body c)) ++ rest) = Ret (n, rest) ∧ rep false n c.
Proof.
  intros Hc [Hkids Hst] Hdec Hl. destruct (decide (c = PNil)) as [->|Hne].
  { exists NilN. split; [|done]. unfold decodeRef. cbn [shrink body enc] in *.
    change (enc_str []) with (item String_ []) in *. by rewrite Split_item by done. }
  destruct Hc as [?|Hc]; [done|]. assert (is_node c = true) as Hn by by destruct c.
  destruct (ref_cases c Hn) as [[Hs Hr]|[Hs Hr]]; rewrite Hr in *.
  - destruct (Hdec Hn Hs) as (n & Hd & Hrep). exists n. split; [|done]. unfold decodeRef.
    destruct (body_list c Hn) as [rs Hb]. fold (blob c). unfold blob in *. rewrite Hb in *. rewrite enc_list_item in *.
    rewrite Split_item by done. cbn [mbind outcome_bind]. rewrite Hd.
    rewrite bool_decide_eq_false_2; [done|]. rewrite len_app. unfold HashLength. lia.
  - exists (HashN (keccak (blob c))). split.
    + unfold decodeRef. cbn [enc] in *. destruct (enc_str_item (keccak (blob c))) as [He Hw]. rewrite He in *.
      rewrite Split_item by done. cbn [mbind outcome_bind].
      assert (str_kind (keccak (blob c)) = String_) as ->.
      { unfold str_kind. destruct (is_small (keccak (blob c))) eqn:Hsm; [|done]. pose proof (keccak_len (blob c)) as H32.
        destruct (keccak (blob c)) as [|x [|y l]]; try done. }
      rewrite keccak_len. done.
    + split; [by split_and!; [..|right]|]. split; [by apply Hst|done].
Qed.

Lemma decode_children_spec (decode : bytes → outcome node) cs rest :
  (length cs ≤ 16)%nat →
  Forall (λ c, (c = PNil ∨ tree_ok c) ∧ kid_stored c ∧
    ∀ rest, is_node c = true → len (blob c) < 32 → len (blob c ++ rest) < 2 ^ 63 →
      ∃ n, decode (blob c ++ rest) = Ret n ∧ rep false n c) cs →
  len (concat (map (λ c, enc (shrink (body c))) cs) ++ rest) < 2 ^ 63 →
  ∃ ns, decode_children decode (length cs) (concat (map (λ c, enc (shrink (body c))) cs) ++ rest) = Ret (ns, rest) ∧
        Forall2 (rep false) ns cs.
Proof.
  intros _ Hall. induction Hall as [|c cs (Hc & Hk & Hdec) _ IH]; intros Hl; [by exists []|].
  cbn [map concat length decode_children] in *. rewrite <-app_assoc in *.
  destruct (decodeRef_child decode c (concat (map (λ c, enc (shrink (body c))) cs) ++ rest) Hc Hk) as (n & Hd & Hr); [|done|].
  { intros Hn Hs. apply Hdec; [done..|]. destruct (ref_cases c Hn) as [[_ Hr]|[? _]]; [|lia]. by rewrite Hr in Hl. }
  rewrite len_app in Hl. pose proof (len_nonneg (enc (shrink (body c)))).
  destruct IH as (ns & Hns & Hrs); [lia|]. exists (n :: ns). rewrite Hd. cbn [wrapping_ctx mbind outcome_bind].
  rewrite Hns. cbn [mbind outcome_bind fst snd]. split; [done|by constructor].
Qed.

(** A node as it comes out of the database. *)
Definition loaded (n : node) : bool := match n with ShortN _ _ _ | FullN _ _ => true | _ => false end.

Definition decodes (t : ptree) : Prop :=
  tree_ok t → kids_stored t → ∀ fuel hash g rest, (length (blob t) < fuel)%nat → len (blob t ++ rest) < 2 ^ 63 →
  ∃ n, decodeNode_with fuel hash (blob t ++ rest) g = Ret n ∧ loaded n = true ∧
       ∀ is_root, flags_ok is_root (mkFlag hash g false) t → rep is_root n t.

(** Both kinds of node begin alike. *)
Lemma decodeNode_list fuel hash rs rest g :
  Forall no_raw rs → len (enc (RList rs) ++ rest) < 2 ^ 63 →
  let elems := concat (map enc rs) in
  let decode := λ b, decodeNode_with fuel None b g in
  (len rs = 2 → decodeNode_with (S fuel) hash (enc (RList rs) ++ rest) g
                = wrapping_ctx "short" (decodeShort decode hash elems g)) ∧
  (len rs = 17 → decodeNode_with (S fuel) hash (enc (RList rs) ++ rest) g
                = wrapping_ctx "full" (decodeFull decode hash elems g)).
Proof.
  intros Hraw Hl elems decode. pose proof (SplitList_enc rs rest Hl) as Hs.
  assert (len elems < 2 ^ 63) as Hle.
  { unfold elems. rewrite enc_list_item in Hl. unfold item in Hl. rewrite !len_app in Hl.
    pose proof (len_nonneg rest). pose proof (len_nonneg (header List_ (len (concat (map enc rs))))). lia. }
  pose proof (CountValues_encs rs Hraw Hle) as Hc. fold elems in Hc, Hs.
  assert (enc (RList rs) ++ rest ≠ []) as Hne.
  { rewrite enc_list_item. unfold item. cbn [header]. unfold puthead. by case_bool_decide. }
  split; intros Hn; cbn [decodeNode_with]; destruct (enc (RList rs) ++ rest) as [|b buf]; try done;
    rewrite Hs, Hc, Hn; done.
Qed.

Lemma decode_short k t : decodes t → decodes (PShort k t).
Proof.
  intros IH Hok Hkids fuel hash g rest Hf Hl. destruct fuel as [|fuel]; [lia|]. unfold blob in *. cbn [body] in *.
  set (rs := [RStr (compact k); shrink (body t)]) in *.
  assert (Forall no_raw rs) as Hraw by (repeat constructor; apply no_raw_shrink).
  rewrite (proj1 (decodeNode_list fuel hash rs rest g Hraw Hl) eq_refl). set (decode := λ b, decodeNode_with fuel None b g).
  assert (len (concat (map enc rs)) < 2 ^ 63) as Hle.
  { rewrite enc_list_item in Hl. unfold item in Hl. rewrite !len_app in Hl.
    pose proof (len_nonneg rest). pose proof (len_nonneg (header List_ (len (concat (map enc rs))))). lia. }
  change (concat (map enc rs)) with (enc_str (compact k) ++ enc (shrink (body t)) ++ []) in *. unfold decodeShort. rewrite SplitString_enc by done. cbn [mbind outcome_bind].
  rewrite len_app in Hle. pose proof (len_nonneg (enc_str (compact k))).
  destruct t as [|v|k1 t1|ts]; try done.
  - destruct Hok as [Hk Hv]. destruct (compact_ok k (hex_ok_term k Hk)) as [_ ->]. cbn [mbind outcome_bind].
    destruct Hk as (k' & -> & Hk'). rewrite hasTerm_snoc. cbn [shrink body enc] in *. rewrite SplitString_enc by lia.
    eexists. split; [done|]. split; [done|]. intros is_root Hfl. apply rep_short. by exists (PVal v).
  - destruct Hok as (Hk & Hne & Hok). destruct (compact_ok k (hex_plain k Hk)) as [_ ->]. cbn [mbind outcome_bind].
    rewrite hasTerm_plain by done.
    destruct (decodeRef_child decode (PFull ts) [] (or_intror Hok) Hkids) as (n & Hd & Hr); [|lia|].
    + intros _ Hs. destruct (IH Hok (proj1 Hkids) fuel None g []) as (n & Hd & _ & Hr); [| |].
      * pose proof (len_enc_elem (shrink (body (PFull ts))) rs) as Hlt. destruct (ref_cases (PFull ts) eq_refl) as [[_ Href]|[? _]]; [|lia].
        specialize (Hlt ltac:(unfold rs; set_solver)). rewrite Href in Hlt.
        unfold blob, len in *. lia.
      * rewrite app_nil_r. lia.
      * exists n. split; [done|]. by apply Hr.
    + rewrite Hd. cbn [wrapping_ctx mbind outcome_bind fst]. eexists. split; [done|]. split; [done|].
      intros is_root Hfl. apply rep_short. by exists (PFull ts).
Qed.

Lemma tree_full_split ts :
  tree_ok (PFull ts) → ∃ cs l, ts = cs ++ [l] ∧ length cs = 16%nat ∧ Forall (λ c, c = PNil ∨ tree_ok c) cs ∧
    (l = PNil ∨ ∃ v, l = PVal v ∧ v ≠ []).
Proof.
  intros (Hl & _ & Hc)%tree_full. destruct (exists_last (l := ts)) as (cs & l & ->); [by destruct ts|].
  rewrite length_app in Hl. simpl in Hl. exists cs, l. split; [done|]. split; [lia|]. split.
  - apply Forall_lookup. intros i c Hi. specialize (Hc i c (lookup_app_l_Some _ _ _ _ Hi)). apply lookup_lt_Some in Hi.
    destruct c as [|v|k t|ts]; [by left|destruct Hc; lia|right; apply Hc..].
  - specialize (Hc 16%nat l). rewrite lookup_app_r in Hc by lia. replace (16 - length cs)%nat with 0%nat in Hc by lia.
    specialize (Hc eq_refl). destruct l as [|v|k t|ts]; [by left|right; exists v; naive_solver|destruct Hc; lia..].
Qed.

Lemma decode_full ts : Forall decodes ts → decodes (PFull ts).
Proof.
  intros IH Hok Hkids fuel hash g rest Hf Hl. destruct fuel as [|fuel]; [lia|]. unfold blob in *. cbn [body] in *.
  set (rs := map (λ t, shrink (body t)) ts) in *.
  assert (Forall no_raw rs) as Hraw by (apply Forall_fmap, Forall_true; intros t; apply no_raw_shrink).
  destruct (tree_full_split ts Hok) as (cs & l & -> & Hlen & Hcs & Hlast). apply kids_full in Hkids. apply Forall_app in Hkids as [Hkids _].
  assert (len rs = 17) as Hl17 by (unfold rs, len; rewrite length_map, length_app; simpl; lia).
  rewrite (proj2 (decodeNode_list fuel hash rs rest g Hraw Hl) Hl17). set (decode := λ b, decodeNode_with fuel None b g).
  assert (len (concat (map enc rs)) < 2 ^ 63) as Hle.
  { rewrite enc_list_item in Hl. unfold item in Hl. rewrite !len_app in Hl.
    pose proof (len_nonneg rest). pose proof (len_nonneg (header List_ (len (concat (map enc rs))))). lia. }
  assert (concat (map enc rs) = concat (map (λ c, enc (shrink (body c))) cs) ++ enc (shrink (body l)) ++ []) as Helems.
  { unfold rs. rewrite map_map, map_app, concat_app. done. }
  rewrite Helems in *. unfold decodeFull.
  destruct (decode_children_spec decode cs (enc (shrink (body l)) ++ [])) as (ns & Hns & Hrep); [lia| |done|].
  { apply Forall_lookup. intros i c Hi. rewrite Forall_lookup in Hcs, Hkids. split; [by eapply Hcs|]. split; [by eapply Hkids|].
    intros rest' Hn Hs Hl'. rewrite Forall_lookup in IH.
    assert (length (blob c) < fuel)%nat as Hfc.
    { pose proof (len_enc_elem (shrink (body c)) rs) as Hlt. destruct (ref_cases c Hn) as [[_ Href]|[? _]]; [|lia].
      assert (shrink (body c) ∈ rs) as Hin.
      { unfold rs. apply list_elem_of_In, (in_map (λ t, shrink (body t))), list_elem_of_In, elem_of_app. left. by apply list_elem_of_lookup_2 in Hi. }
      specialize (Hlt Hin). rewrite Href in Hlt. unfold blob, len in *. lia. }
    destruct (Hcs _ _ Hi) as [->|Hokc]; [done|].
    destruct (IH i c (lookup_app_l_Some _ _ _ _ Hi) Hokc (proj1 (Hkids _ _ Hi)) fuel None g rest' Hfc Hl') as (n & Hd & _ & Hr).
    exists n. split; [done|]. by apply Hr. }
  rewrite Hlen in Hns. rewrite Hns. cbn [mbind outcome_bind]. rewrite len_app in Hle.
  pose proof (len_nonneg (concat (map (λ c, enc (shrink (body c))) cs))).
  assert (∃ v, body l = RStr v ∧ rep false (if bool_decide (0 < len v) then ValueN v else NilN) l) as (v & Hv & Hrl).
  { destruct Hlast as [->|(v & -> & Hv)]; [by exists []|]. exists v. split; [done|]. rewrite bool_decide_eq_true_2; [done|].
    unfold len. destruct v; [done|]. simpl. lia. }
  rewrite Hv in *. cbn [shrink enc] in *. rewrite SplitString_enc by lia. cbn [mbind outcome_bind wrapping_ctx].
  eexists. split; [done|]. split; [done|]. intros is_root Hfl. apply rep_full. eexists. split; [done|]. split; [|done].
  apply Forall2_app; [done|by constructor].
Qed.

Lemma decode_node t : decodes t.
Proof.
  revert t. apply (ptree_induction decodes); [by intros ?|by intros ? ?| |].
  - intros k t. apply decode_short.
  - apply decode_full.
Qed.

(** A hash is resolved to a node that stands for the same tree. *)
Lemma resolveHash_spec g h prefix t is_root :
  tree_ok t → rep is_root (HashN h) t →
  ∃ n, resolveHash d g h prefix = Ret n ∧ rep is_root n t ∧ loaded n = true.
Proof.
  intros Hok [Hh Hst]. pose proof Hh as (Hn & -> & Hsz). pose proof Hst as [[Hd Hl] Hkids].
  assert (resolveHash d g (keccak (blob t)) prefix = mustDecodeNode (Some (keccak (blob t))) (blob t) g) as ->.
  { unfold resolveHash. clear -Hd. destruct d; [|done]. by rewrite Hd. }
  unfold mustDecodeNode, decodeNode.
  destruct (decode_node t Hok Hkids (S (length (blob t))) (Some (keccak (blob t))) g []) as (n & Hdec & Hld & Hrep);
    [lia|by rewrite app_nil_r|].
  rewrite app_nil_r in Hdec. rewrite Hdec. exists n. split; [done|]. split; [|done]. by apply Hrep.
Qed.
End Rep.
