(* ===== verification/TrieEdit.v ===== *)
(** Changes to trees in canonical form: replacing a child of a branch, splitting a short node,
    and reducing a branch that is left with one child. *)
From S2P Require Import Prelude Bytes HexKeys TrieTree.
Open Scope Z_scope.

(** ** Places: what may be found where the rest of the key is [s] *)
Definition place (t : ptree) (s : bytes) : Prop :=
  (s = [] ∧ (t = PNil ∨ ∃ v, t = PVal v ∧ v ≠ [])) ∨ (term_key s ∧ (t = PNil ∨ tree_ok t)).

Lemma place_child ts x s :
  tree_ok (PFull ts) → term_key (x :: s) → ∃ c, 0 ≤ x < 17 ∧ ts !! Z.to_nat x = Some c ∧ place c s ∧ child_ok (Z.to_nat x) c.
Proof.
  intros (Hl & _ & Hc)%tree_full Hk. assert (0 ≤ x < 17) as Hx.
  { apply term_key_cons in Hk as [[-> _]|[Hx _]]; [lia|]. unfold is_nibble in Hx. lia. }
  assert (is_Some (ts !! Z.to_nat x)) as [c Hx'] by (apply lookup_lt_is_Some; lia).
  exists c. split; [done|]. split; [done|]. pose proof (Hc _ _ Hx') as Hck. split; [|done].
  apply term_key_cons in Hk as [[-> ->]|[Hn Hk]].
  - left. split; [done|]. destruct c as [|v|k t|cs]; [by left|right; exists v; naive_solver|destruct Hck; lia..].
  - right. split; [done|]. unfold is_nibble in Hn. destruct c as [|v|k t|cs]; [by left|destruct Hck; lia|right; apply Hck..].
Qed.

Lemma place_child_ok x c s : place c s → term_key (x :: s) → child_ok (Z.to_nat x) c.
Proof.
  intros Hp Hk. apply term_key_cons in Hk as [[-> ->]|[Hx Hk]].
  - destruct Hp as [[_ [->|(v & -> & Hv)]]|[?%term_key_nonempty _]]; done.
  - destruct Hp as [[-> _]|[_ [->|Hok]]]; [by apply term_key_nonempty in Hk|done|]. unfold is_nibble in Hx. by destruct c; try done; (split; [lia|]).
Qed.

Lemma nibbles_not_term k : nibbles k → ¬ term_key k.
Proof.
  intros Hn (k' & -> & _). apply Forall_app in Hn as [_ Hn]. apply Forall_cons in Hn as [Hn _]. unfold is_nibble in Hn. lia.
Qed.

Lemma term_key_no_app k x s : term_key k → ¬ term_key (k ++ x :: s).
Proof. intros Hk [Hn _]%term_key_app_inv. by apply (nibbles_not_term k). Qed.

Lemma place_short k t s : tree_ok (PShort k t) → term_key (k ++ s) → place t s.
Proof.
  intros Hok Hk. destruct t as [|v|k1 t1|ts]; try done.
  - destruct Hok as [(k' & -> & Hk') Hv]. left. rewrite <-app_assoc in Hk. cbn [app] in Hk.
    apply term_key_app_inv in Hk as [_ Hk]. apply term_key_cons in Hk as [[_ ->]|[Hx _]]; [|unfold is_nibble in Hx; lia].
    split; [done|]. right. eauto.
  - destruct Hok as (Hn & _ & Hok). right. split; [|by right].
    destruct s as [|x s]; [|by apply term_key_app_inv in Hk as [_ ?]]. rewrite app_nil_r in Hk. destruct Hk as (k' & -> & _).
    apply Forall_app in Hn as [_ Hn]. apply Forall_cons in Hn as [Hn _]. unfold is_nibble in Hn. lia.
Qed.

(** ** A child of a branch is replaced *)
Lemma plookup_full_insert (ts : list ptree) x c key :
  (x < length ts)%nat →
  plookup (PFull (<[x := c]> ts)) key =
    match key with
    | y :: key' => if decide (y = Z.of_nat x) then plookup c key' else plookup (PFull ts) key
    | [] => None
    end.
Proof.
  intros Hx. destruct key as [|y key]; [done|]. case_decide as Hy.
  - subst y. rewrite plookup_full by lia. rewrite Nat2Z.id, list_lookup_insert_eq by done. done.
  - destruct (decide (0 ≤ y)) as [Hy0|Hy0].
    + rewrite !plookup_full by done. rewrite list_lookup_insert_ne by lia. done.
    + cbn [plookup]. by rewrite !bool_decide_eq_false_2.
Qed.

Lemma countb_insert {A} (f : A → bool) l i x y :
  l !! i = Some y → countb f (<[i := x]> l) = countb f l + (if f x then 1 else 0) - (if f y then 1 else 0).
Proof.
  revert i. induction l as [|z l IH]; intros [|i] Hi; try done.
  - injection Hi as ->. change (<[0%nat := x]> (y :: l)) with (x :: l). rewrite !countb_cons. lia.
  - change (<[S i := x]> (z :: l)) with (z :: <[i := x]> l). rewrite !countb_cons. rewrite (IH i) by done. lia.
Qed.

Lemma children_insert (ts : list ptree) i c :
  (∀ j t, ts !! j = Some t → child_ok j t) → child_ok i c →
  ∀ j t, <[i := c]> ts !! j = Some t → child_ok j t.
Proof.
  intros Hts Hc j t Hj. apply list_lookup_insert_Some in Hj as [(-> & <- & _)|[_ Hj]]; [done|by apply Hts].
Qed.

Lemma tree_full_insert (ts : list ptree) i c c' :
  tree_ok (PFull ts) → ts !! i = Some c → child_ok i c' → present c' = true → tree_ok (PFull (<[i := c']> ts)).
Proof.
  intros (Hl & H2 & Hc)%tree_full Hi Hc' Hp. apply tree_full. split; [by rewrite length_insert|]. split.
  - rewrite (countb_insert _ _ _ _ _ Hi), Hp. destruct (present c); lia.
  - by apply children_insert.
Qed.

(** ** A short node is split *)
Definition graft (k : bytes) (t : ptree) : ptree := match k with [] => t | _ => PShort k t end.

Lemma plookup_graft k t key : plookup (graft k t) key = plookup (PShort k t) key.
Proof. destruct k; [|done]. cbn [graft plookup length]. by rewrite take_0, drop_0, bool_decide_eq_true_2. Qed.

Lemma child_graft_leaf x k v : term_key (x :: k) → v ≠ [] → child_ok (Z.to_nat x) (graft k (PVal v)) ∧ 0 ≤ x < 17.
Proof.
  intros Hk Hv. apply term_key_cons in Hk as [[-> ->]|[Hx Hk]]; [done|]. unfold is_nibble in Hx.
  pose proof (term_key_nonempty k Hk). destruct k as [|y k]; [done|]. cbn [graft child_ok tree_ok]. split; [|lia]. split; [lia|done].
Qed.

Lemma child_graft_short x k2 k t :
  tree_ok (PShort (k ++ x :: k2) t) → child_ok (Z.to_nat x) (graft k2 t) ∧ 0 ≤ x < 17 ∧ nibbles k ∧ present (graft k2 t) = true.
Proof.
  intros Hok. destruct t as [|v|k1 t1|ts]; try done.
  - destruct Hok as [Hk Hv]. apply term_key_app_inv in Hk as [Hn Hk]. destruct (child_graft_leaf x k2 v Hk Hv). split_and!; try done; try lia.
    by destruct k2.
  - destruct Hok as (Hn & _ & Hok). apply Forall_app in Hn as [Hn1 Hn2]. apply Forall_cons in Hn2 as [Hx Hn2]. unfold is_nibble in Hx.
    assert ((Z.to_nat x < 16)%nat ∧ 0 ≤ x < 17) as [Hx1 Hx2] by lia.
    destruct k2 as [|y k2]; (split; [|split; [done|by split]]); cbn [graft child_ok]; (split; [done|]); [done|]. by split_and!.
Qed.

Definition fork (x : Z) (tx : ptree) (y : Z) (ty : ptree) : list ptree :=
  <[Z.to_nat y := ty]> (<[Z.to_nat x := tx]> (replicate 17 PNil)).

Lemma plookup_nils n key : plookup (PFull (replicate n PNil)) key = None.
Proof.
  destruct key as [|z key]; [done|]. destruct (decide (0 ≤ z)) as [Hz|Hz].
  - rewrite plookup_full by done. destruct (replicate n PNil !! Z.to_nat z) as [t|] eqn:Ht; [|done].
    apply lookup_replicate in Ht as [-> _]. done.
  - cbn [plookup]. by rewrite bool_decide_eq_false_2.
Qed.

Lemma fork_ok x tx y ty :
  x ≠ y → 0 ≤ x < 17 → 0 ≤ y < 17 → child_ok (Z.to_nat x) tx → child_ok (Z.to_nat y) ty →
  present tx = true → present ty = true → tree_ok (PFull (fork x tx y ty)).
Proof.
  intros Hxy Hx Hy Hcx Hcy Hpx Hpy. unfold fork. apply tree_full. split; [by rewrite !length_insert|]. split.
  - rewrite (countb_insert _ _ _ _ PNil), (countb_insert _ _ _ _ PNil).
    + rewrite Hpx, Hpy. by vm_compute.
    + apply lookup_replicate_2. lia.
    + rewrite list_lookup_insert_ne by lia. apply lookup_replicate_2. lia.
  - apply children_insert; [|done]. apply children_insert; [|done]. intros j t Hj. by apply lookup_replicate in Hj as [-> _].
Qed.

Lemma plookup_fork x tx y ty z key :
  x ≠ y → 0 ≤ x < 17 → 0 ≤ y < 17 →
  plookup (PFull (fork x tx y ty)) (z :: key)
  = if decide (z = y) then plookup ty key else if decide (z = x) then plookup tx key else None.
Proof.
  intros Hxy Hx Hy. unfold fork. rewrite plookup_full_insert by (rewrite length_insert, length_replicate; lia).
  rewrite Z2Nat.id by lia. case_decide; [done|].
  rewrite plookup_full_insert by (rewrite length_replicate; lia). rewrite Z2Nat.id by lia. case_decide; [done|]. apply plookup_nils.
Qed.

(** ** What a change does to the values *)

(** [t'] holds [r] at [s], and what [t] holds elsewhere. *)
Definition sets (t : ptree) (s : bytes) (r : option bytes) (t' : ptree) : Prop :=
  ∀ key, plookup t' key = if decide (key = s) then r else plookup t key.

Lemma plookup_short_cases k t key :
  (∃ s, key = k ++ s ∧ plookup (PShort k t) key = plookup t s) ∨ ((∀ s, key ≠ k ++ s) ∧ ∀ t', plookup (PShort k t') key = None).
Proof.
  destruct (decide (take (length k) key = k)) as [Hk|Hk].
  - left. exists (drop (length k) key). assert (key = k ++ drop (length k) key) as Heq by (rewrite <-Hk at 1; by rewrite take_drop).
    split; [done|]. rewrite Heq at 1. apply plookup_short.
  - right. split; [intros s ->; by rewrite take_app_length in Hk|]. intros t'. cbn [plookup]. by rewrite bool_decide_eq_false_2.
Qed.

Lemma sets_short k t s r t' : sets t s r t' → sets (PShort k t) (k ++ s) r (PShort k t').
Proof.
  intros Hs key. destruct (plookup_short_cases k t key) as [(s' & -> & Hl)|[Hne Hl]].
  - rewrite Hl, plookup_short, Hs. destruct (decide (s' = s)) as [->|Hne]; [by rewrite decide_True|].
    rewrite decide_False; [done|]. by intros ?%app_inv_head.
  - rewrite !Hl. case_decide; naive_solver.
Qed.

Lemma sets_full ts x c s r c' :
  0 ≤ x → ts !! Z.to_nat x = Some c → sets c s r c' → sets (PFull ts) (x :: s) r (PFull (<[Z.to_nat x := c']> ts)).
Proof.
  intros Hx Hc Hs key. rewrite plookup_full_insert by (by eapply lookup_lt_Some). rewrite Z2Nat.id by done.
  destruct key as [|y key]; [done|]. destruct (decide (y = x)) as [->|Hne].
  - rewrite Hs, plookup_full, Hc by done. cbn [mbind option_bind]. repeat case_decide; congruence.
  - rewrite decide_False by congruence. done.
Qed.

Lemma sets_leaf k v : sets PNil k (Some v) (PShort k (PVal v)).
Proof.
  intros key. destruct (plookup_short_cases k (PVal v) key) as [(s & -> & Hl)|[Hne Hl]].
  - rewrite Hl. destruct s as [|x s]; [rewrite app_nil_r; by rewrite decide_True|]. rewrite decide_False; [done|].
    intros Heq. apply (f_equal length) in Heq. rewrite length_app in Heq. cbn [length] in Heq. lia.
  - rewrite Hl. case_decide as Heq; [|done]. destruct (Hne []). by rewrite app_nil_r.
Qed.

Lemma sets_value v w : sets (PVal v) [] (Some w) (PVal w).
Proof. by intros [|x key]. Qed.

Lemma sets_remove k v : sets (PShort k (PVal v)) k None PNil.
Proof.
  intros key. case_decide as Heq; [done|].
  destruct (plookup_short_cases k (PVal v) key) as [([|x s] & -> & Hl)|[_ Hl]]; [by rewrite app_nil_r in Heq|by rewrite Hl..].
Qed.

Lemma sets_missing t s : plookup t s = None → sets t s None t.
Proof. intros Hs key. by case_decide as Heq; [subst|]. Qed.

Lemma sets_again t s r : plookup t s = r → sets t s r t.
Proof. intros Hs key. by case_decide as Heq; [subst|]. Qed.

Lemma sets_same t s r t1 t2 : sets t s r t1 → same t1 t2 → sets t s r t2.
Proof. intros H1 Hs key. by rewrite <-Hs. Qed.

Lemma same_short_app k1 k2 t : same (PShort k1 (PShort k2 t)) (PShort (k1 ++ k2) t).
Proof.
  intros key. destruct (plookup_short_cases (k1 ++ k2) t key) as [(s & -> & Hl)|[Hne Hl]].
  - by rewrite Hl, <-app_assoc, !plookup_short.
  - rewrite Hl. destruct (plookup_short_cases k1 (PShort k2 t) key) as [(s & -> & Hl1)|[_ ->]]; [|done]. rewrite Hl1.
    destruct (plookup_short_cases k2 t s) as [(s' & -> & _)|[_ ->]]; [|done]. destruct (Hne s'). by rewrite app_assoc.
Qed.

(** A short node whose key parts from the new key after [p]. *)
Lemma sets_split p y s2 t x s1 v :
  x ≠ y → 0 ≤ x < 17 → 0 ≤ y < 17 →
  sets (PShort (p ++ y :: s2) t) (p ++ x :: s1) (Some v) (graft p (PFull (fork y (graft s2 t) x (graft s1 (PVal v))))).
Proof.
  intros Hxy Hx Hy. apply (sets_same _ _ _ (PShort p (PFull (fork y (graft s2 t) x (graft s1 (PVal v)))))).
  2: { intros key. by rewrite plookup_graft. }
  intros key. rewrite <-(same_short_app p (y :: s2) t key).
  revert key. apply sets_short. intros [|z key]; [done|]. rewrite plookup_fork, !plookup_graft by done.
  assert (plookup (PShort (y :: s2) t) (z :: key) = if decide (z = y) then plookup (PShort s2 t) key else None) as Hl.
  { change (y :: s2) with ([y] ++ s2). rewrite <-(same_short_app [y] s2 t (z :: key)). case_decide as Hz; [subst z; by rewrite (plookup_short [y] _ key)|].
    cbn [plookup length take]. rewrite bool_decide_eq_false_2; [done|]. rewrite take_0. congruence. }
  rewrite Hl. destruct (decide (z = x)) as [->|Hz].
  - rewrite (sets_leaf s1 v key). destruct (decide (x = y)) as [|_]; [done|]. repeat case_decide; simplify_eq; done.
  - rewrite (decide_False (P := z :: key = x :: s1)) by congruence. done.
Qed.

(** A branch with one child left. *)
Definition only (ts : list ptree) (i : nat) (c : ptree) : Prop :=
  ts !! i = Some c ∧ present c = true ∧ ∀ j t, ts !! j = Some t → j ≠ i → t = PNil.

Lemma same_only ts i c : only ts i c → same (PFull ts) (PShort [Z.of_nat i] c).
Proof.
  intros (Hi & _ & Ho) [|x key]; [done|]. destruct (decide (x = Z.of_nat i)) as [->|Hne].
  - rewrite plookup_full, Nat2Z.id, Hi by lia.
    change (Z.of_nat i :: key) with ([Z.of_nat i] ++ key). by rewrite plookup_short.
  - transitivity (@None bytes).
    + destruct (decide (0 ≤ x)) as [Hx|Hx]; [|cbn [plookup]; by rewrite bool_decide_eq_false_2].
      rewrite plookup_full by done. destruct (ts !! Z.to_nat x) as [t|] eqn:Ht; [|done]. by rewrite (Ho _ _ Ht) by lia.
    + cbn [plookup length take]. rewrite bool_decide_eq_false_2; [done|]. rewrite take_0. congruence.
Qed.

Definition reduce (i : nat) (c : ptree) : ptree :=
  match c with
  | PShort k t => PShort (Z.of_nat i :: k) t
  | _ => PShort [Z.of_nat i] c
  end.

Lemma same_reduce ts i c : only ts i c → same (PFull ts) (reduce i c).
Proof.
  intros Ho key. rewrite (same_only ts i c Ho). destruct c; try done. apply (same_short_app [Z.of_nat i]).
Qed.

Lemma reduce_ok i c : child_ok i c → present c = true → tree_ok (reduce i c).
Proof.
  intros Hc Hp. destruct c as [|v|k t|ts]; try done; cbn [reduce].
  - destruct Hc as [-> Hv]. by split; [apply term_key_16|].
  - destruct Hc as [Hi Hok]. assert (is_nibble (Z.of_nat i)) as Hn by (unfold is_nibble; lia).
    destruct t as [|v|k1 t1|ts]; try done.
    + destruct Hok as [Hk Hv]. split; [|done]. apply term_key_cons. by right.
    + destruct Hok as (Hk & _ & Hok). split; [by constructor|]. by split.
  - destruct Hc as [Hi Hok]. split; [|by split]. constructor; [unfold is_nibble; lia|constructor].
Qed.

Lemma extend_ok k c : nibbles k → k ≠ [] → tree_ok c →
  tree_ok (match c with PShort k' t => PShort (k ++ k') t | _ => PShort k c end) ∧
  same (PShort k c) (match c with PShort k' t => PShort (k ++ k') t | _ => PShort k c end).
Proof.
  intros Hk Hne Hok. destruct c as [|v|k' t|ts]; try done. split; [|apply same_short_app].
  destruct t as [|v|k1 t1|ts]; try done.
  - destruct Hok as [Hk' Hv]. split; [by apply term_key_app|done].
  - destruct Hok as (Hk' & Hne' & Hok). split; [by apply Forall_app|]. split; [by destruct k|done].
Qed.

(** ** The common prefix of two keys *)
Lemma prefixLen_cases a b :
  (∃ s, a = b ++ s ∧ prefixLen a b = length b) ∨
  (∃ x s, b = a ++ x :: s ∧ prefixLen a b = length a) ∨
  (∃ p x y s1 s2, a = p ++ x :: s1 ∧ b = p ++ y :: s2 ∧ x ≠ y ∧ prefixLen a b = length p).
Proof.
  revert b. induction a as [|x a IH]; intros [|y b].
  - left. by exists [].
  - right. left. by exists y, b.
  - left. by exists (x :: a).
  - cbn [prefixLen]. case_bool_decide as Hxy.
    + subst y. destruct (IH b) as [(s & -> & ->)|[(z & s & -> & ->)|(p & z & w & s1 & s2 & -> & -> & Hzw & ->)]].
      * left. by exists s.
      * right. left. by exists z, s.
      * right. right. by exists (x :: p), z, w, s1, s2.
    + right. right. by exists [], x, y, a, b.
Qed.

Lemma prefixLen_app (k s : bytes) : prefixLen (k ++ s) k = length k.
Proof. induction k as [|y k IH]; [by destruct s|]. cbn [app prefixLen length]. by rewrite bool_decide_eq_true_2, IH. Qed.

(** A whole key does not end inside the key of a short node. *)
Lemma short_not_longer k x s t : tree_ok (PShort (k ++ x :: s) t) → ¬ term_key k.
Proof.
  intros Hok. assert (nibbles k) as Hn.
  { destruct t; try done; [destruct Hok as [Hk _]; by apply term_key_app_inv in Hk as [? _]|].
    destruct Hok as (Hk & _). by apply Forall_app in Hk as [? _]. }
  by apply nibbles_not_term.
Qed.
