(* ===== verification/TrieMap.v ===== *)
(** The trie as a map: [tryGet], [insert] and [delete] on nodes do to the tree the nodes stand
    for what they should, and keep it in canonical form. *)
From S2P Require Import Prelude Bytes HexKeys Rlp TrieNode Trie TrieTree TrieRep TrieEdit.
Open Scope Z_scope.

Section Map.
Context {DB : Type} `{Database DB} (keccak : bytes → bytes) (keccak_len : ∀ b, len (keccak b) = 32).
Context (d : option DB) (g : Z).
#[local] Abbreviation rep := (rep keccak d).

(** A hash costs a step before the node itself is visited. *)
Definition steps (n : node) (s : bytes) : nat := 2 * length s + match n with HashN _ => 1 | _ => 0 end.

Lemma steps_loaded n s : loaded n = true → steps n s = (2 * length s)%nat.
Proof. destruct n; try done; unfold steps; lia. Qed.

Lemma rep_value_place is_root n s t : rep is_root n t → place t s → s = [] → n = NilN ∧ t = PNil ∨ ∃ v, n = ValueN v ∧ t = PVal v.
Proof.
  intros Hr Hp ->. destruct Hp as [[_ Ht]|[Hk _]]; [|by apply term_key_nonempty in Hk].
  destruct Ht as [->|(v & -> & _)].
  - left. split; [|done]. destruct n; try done; by destruct Hr as [[? _] _] || destruct Hr.
  - right. exists v. split; [|done]. destruct n; try done; [by injection Hr as ->|..]; by destruct Hr as [[? _] _] || destruct Hr.
Qed.

Lemma rep_place_key is_root n t s : rep is_root n t → place t s → n ≠ NilN → (∀ v, n ≠ ValueN v) → term_key s ∧ tree_ok t.
Proof.
  intros Hr Hp Hn Hv. destruct (decide (s = [])) as [Hs|Hs].
  - destruct (rep_value_place _ _ _ _ Hr Hp Hs) as [[? _]|(v & Hnv & _)]; [done|by destruct (Hv v)].
  - destruct Hp as [[-> _]|[Hk [->|Hok]]]; [done| |done]. destruct n; try done; by destruct Hr as [[? _] _] || destruct Hr.
Qed.

Lemma rep_child cs ts i t : Forall2 (rep false) cs ts → ts !! i = Some t → ∃ c, cs !! i = Some c ∧ rep false c t.
Proof. intros Hf Ht. destruct (Forall2_lookup_r _ _ _ _ _ Hf Ht) as (c & Hc & Hr). eauto. Qed.

Lemma rep_same_children is_root cs f ts i c t f' :
  rep is_root (FullN cs f) (PFull ts) → ts !! i = Some t → rep false c t → fhash f' = fhash f → dirty f' = dirty f →
  rep is_root (FullN (<[i := c]> cs) f') (PFull ts).
Proof.
  intros (ts' & [= <-] & Hf & Hfl)%rep_full Ht Hc Hh Hd. apply rep_full. exists ts. split; [done|]. split.
  - rewrite <-(list_insert_id ts i t Ht). by apply Forall2_insert.
  - unfold flags_ok in *. by rewrite Hh, Hd.
Qed.

(** *** [tryGet] *)

(** What a call with fuel [f] does. *)
Definition gets_ok (f : nat) (is_root : bool) (n : node) (key : bytes) (pos : Z) (t : ptree) : Prop :=
  rep is_root n t → 0 ≤ pos → place t (drop (Z.to_nat pos) key) → (steps n (drop (Z.to_nat pos) key) < f)%nat →
  ∃ n' b, tryGet f d g n key pos = Ret (plookup t (drop (Z.to_nat pos) key), n', b) ∧ rep is_root n' t.

Lemma tryGet_hash f is_root h key pos t :
  (∀ n, gets_ok f is_root n key pos t) → gets_ok (S f) is_root (HashN h) key pos t.
Proof.
  unfold gets_ok. set (s := drop (Z.to_nat pos) key). intros IH Hr Hpos Hp Hf. cbn [tryGet].
  destruct (rep_place_key _ _ _ _ Hr Hp) as [Hk Hok]; [done..|].
  destruct (resolveHash_spec keccak d keccak_len g h (take (Z.to_nat pos) key) t is_root Hok Hr) as (n & -> & Hr' & Hl).
  cbn [mbind outcome_bind]. destruct (IH n Hr' Hpos Hp) as (n' & b & -> & Hr2).
  { rewrite steps_loaded by done. unfold steps in Hf. lia. }
  by eexists _, _.
Qed.

Lemma tryGet_short f is_root k c fl key pos t :
  (∀ t', gets_ok f false c key (pos + len k) t') → gets_ok (S f) is_root (ShortN k c fl) key pos t.
Proof.
  unfold gets_ok. set (s := drop (Z.to_nat pos) key). intros IH Hr Hpos Hp Hf. cbn [tryGet].
  destruct (rep_place_key _ _ _ _ Hr Hp) as [Hk Hok]; [done..|].
  pose proof Hr as (t' & -> & Hc & Hfl)%rep_short. fold s.
  assert (length s ≠ 0)%nat as Hs0 by (intros ?%length_zero_iff_nil; by apply term_key_nonempty in Hk).
  destruct (plookup_short_cases k t' s) as [(s' & Heq & Hl)|[Hne Hl]].
  - assert (drop (Z.to_nat (pos + len k)) key = s') as Hs'.
    { unfold len. rewrite Z2Nat.inj_add, Nat2Z.id by lia. rewrite <-drop_drop. fold s. rewrite Heq. apply drop_app_length. }
    rewrite bool_decide_eq_false_2.
    2: { rewrite Heq, take_app_length. intros [Hlt|?]; [|done]. apply (f_equal length) in Heq. unfold s in Heq, Hs0.
         rewrite length_drop in Heq, Hs0. rewrite length_app in Heq. unfold len in Hlt. lia. }
    specialize (IH t' Hc). rewrite Hs' in IH. destruct IH as (n' & b & -> & Hr').
    { unfold len. lia. }
    { rewrite Heq in Hk. by apply (place_short k). }
    { pose proof (short_key_nonempty _ _ Hok). destruct k as [|x k]; [done|]. rewrite Heq in Hf. unfold steps in *.
      rewrite length_app in Hf. cbn [length] in Hf. destruct c; lia. }
    rewrite Hl. cbn [mbind outcome_bind]. destruct b; eexists _, _; (split; [done|]); [|done].
    apply rep_short. eauto.
  - rewrite bool_decide_eq_true_2; [rewrite Hl; by eexists _, _|]. right. intros Htk.
    apply (Hne (drop (length k) s)). rewrite <-Htk at 1. by rewrite take_drop.
Qed.

Lemma tryGet_full f is_root cs fl key pos t :
  (∀ c t', gets_ok f false c key (pos + 1) t') → gets_ok (S f) is_root (FullN cs fl) key pos t.
Proof.
  unfold gets_ok. destruct (drop (Z.to_nat pos) key) as [|x s] eqn:Es; intros IH Hr Hpos Hp Hf.
  { by destruct (rep_place_key _ _ _ _ Hr Hp) as [?%term_key_nonempty _]. }
  cbn [tryGet]. destruct (rep_place_key _ _ _ _ Hr Hp) as [Hk Hok]; [done..|].
  pose proof Hr as (ts & -> & Hc & Hfl)%rep_full. destruct (place_child ts x s Hok Hk) as (t' & Hx & Ht' & Hp' & _).
  destruct (rep_child _ _ _ _ Hc Ht') as (c & Hcx & Hrc).
  assert (drop (Z.to_nat (pos + 1)) key = s) as Hs'.
  { rewrite Z2Nat.inj_add by lia. rewrite <-drop_drop, Es. done. }
  rewrite (index_Some key pos x) by (done || by rewrite <-(Nat.add_0_r (Z.to_nat pos)), <-lookup_drop, Es).
  cbn [mbind outcome_bind]. rewrite (index_Some cs x c) by (done || lia). cbn [mbind outcome_bind].
  specialize (IH c t' Hrc). rewrite Hs' in IH. destruct IH as (n' & b & -> & Hr'); [lia|done| |].
  { unfold steps in *. cbn [length] in Hf. destruct c; lia. }
  cbn [mbind outcome_bind]. rewrite plookup_full, Ht' by lia. cbn [mbind option_bind].
  destruct b; [|by eexists _, _]. rewrite set_index_Ret by (apply lookup_lt_Some in Hcx; lia).
  cbn [mbind outcome_bind]. eexists _, _. split; [done|]. by apply (rep_same_children is_root cs fl ts _ n' t').
Qed.

Lemma tryGet_spec f is_root n key pos t : gets_ok f is_root n key pos t.
Proof.
  revert is_root n pos t. induction f as [|f IH]; intros is_root n pos t; [intros ????; lia|].
  destruct n as [|v|h|k c fl|cs fl].
  - intros Hr _ _ _. cbn in Hr. subst t. by eexists _, _.
  - intros Hr _ Hp _. cbn in Hr. subst t. destruct Hp as [[-> _]|[_ [?|?]]]; [|done..]. by eexists _, _.
  - by apply tryGet_hash.
  - by apply tryGet_short.
  - by apply tryGet_full.
Qed.

(** *** [insert] *)
Definition is_full (t : ptree) : bool := match t with PFull _ => true | _ => false end.

Definition inserts_ok (f : nat) (is_root : bool) (n : node) (prefix s v : bytes) (t : ptree) : Prop :=
  rep is_root n t → place t s → v ≠ [] → (steps n s < f)%nat →
  ∃ b n' t', insert f d g n prefix s (ValueN v) = Ret (b, n') ∧ rep is_root n' t' ∧ sets t s (Some v) t' ∧
    (place t' s ∧ present t' = true) ∧ (b = false → t' = t) ∧ (is_full t = true → is_full t' = true).

Lemma flags_new is_root t : flags_ok keccak d is_root (newFlag g) t.
Proof. done. Qed.

Lemma rep_new_child is_root cs f ts i c t :
  rep is_root (FullN cs f) (PFull ts) → rep false c t → rep is_root (FullN (<[i := c]> cs) (newFlag g)) (PFull (<[i := t]> ts)).
Proof. intros (ts' & [= <-] & Hf & Hfl)%rep_full Hc. apply rep_full. eexists. split; [done|]. split; [by apply Forall2_insert|done]. Qed.

Lemma rep_new_short is_root k c t : rep false c t → rep is_root (ShortN k c (newFlag g)) (PShort k t).
Proof. intros Hc. apply rep_short. eauto using flags_new. Qed.

(** An insertion into nothing puts the node there, under what is left of the key. *)
Lemma insert_nil f prefix k n t :
  rep false n t → ∃ b n', insert (S f) d g NilN prefix k n = Ret (b, n') ∧ rep false n' (graft k t).
Proof. intros Hr. destruct k as [|x k]; cbn [insert]; eexists _, _; (split; [done|]); [done|]. by apply rep_new_short. Qed.

Lemma insert_hash f is_root h prefix s v t :
  (∀ n, inserts_ok f is_root n prefix s v t) → inserts_ok (S f) is_root (HashN h) prefix s v t.
Proof.
  intros IH Hr Hp Hv Hf. destruct (rep_place_key _ _ _ _ Hr Hp) as [Hk Hok]; [done..|].
  destruct s as [|x s]; [by apply term_key_nonempty in Hk|]. cbn [insert].
  destruct (resolveHash_spec keccak d keccak_len g h prefix t is_root Hok Hr) as (n & -> & Hr' & Hl).
  cbn [mbind outcome_bind]. destruct (IH n Hr' Hp Hv) as (b & n' & t' & -> & Hr2 & Hs & Hpl & Hb & Hfu).
  { rewrite steps_loaded by done. unfold steps in Hf. lia. }
  cbn [mbind outcome_bind]. destruct b; [by exists true, n', t'|]. specialize (Hb eq_refl). subst t'. by exists false, n, t.
Qed.

Lemma insert_full f is_root cs fl prefix s v t :
  (∀ c prefix s' t', inserts_ok f false c prefix s' v t') → inserts_ok (S f) is_root (FullN cs fl) prefix s v t.
Proof.
  intros IH Hr Hp Hv Hf. destruct (rep_place_key _ _ _ _ Hr Hp) as [Hk Hok]; [done..|].
  destruct s as [|x s]; [by apply term_key_nonempty in Hk|]. cbn [insert].
  pose proof Hr as (ts & -> & Hc & Hfl)%rep_full. destruct (place_child ts x s Hok Hk) as (t' & Hx & Ht' & Hp' & Hck).
  destruct (rep_child _ _ _ _ Hc Ht') as (c & Hcx & Hrc).
  rewrite (index_Some cs x c) by (done || lia). cbn [mbind outcome_bind].
  destruct (IH c (prefix ++ [x]) s t' Hrc Hp' Hv) as (b & n' & t2 & -> & Hr2 & Hs & [Hpl Hpr] & Hb & _).
  { unfold steps in *. cbn [length] in Hf. destruct c; lia. }
  cbn [mbind outcome_bind]. pose proof (sets_full ts x t' s (Some v) t2 ltac:(lia) Ht' Hs) as Hsets. destruct b.
  - rewrite set_index_Ret by (apply lookup_lt_Some in Hcx; lia). cbn [mbind outcome_bind].
    eexists true, _, (PFull (<[Z.to_nat x := t2]> ts)). split; [done|]. split; [by eapply rep_new_child|].
    split; [done|]. split; [|done]. split; [|done]. right. split; [done|]. right.
    apply (tree_full_insert ts _ t' t2 Hok Ht'); [by apply (place_child_ok x t2 s)|done].
  - specialize (Hb eq_refl). subst t2. rewrite list_insert_id in Hsets by done. by exists false, (FullN cs fl), (PFull ts).
Qed.

(** The short node is on the way to the key. *)
Lemma insert_short_below f is_root k c fl prefix s v t :
  (∀ prefix t', inserts_ok f false c prefix s v t') → k ≠ [] →
  inserts_ok (S f) is_root (ShortN k c fl) prefix (k ++ s) v t.
Proof.
  intros IH Hne Hr Hp Hv Hf. destruct (rep_place_key _ _ _ _ Hr Hp) as [Hk Hok]; [done..|].
  pose proof Hr as (t' & -> & Hc & Hfl)%rep_short. destruct k as [|x k]; [done|]. cbn [insert app].
  change (x :: k ++ s) with ((x :: k) ++ s). rewrite prefixLen_app, bool_decide_eq_true_2 by done. rewrite drop_app_length.
  destruct (IH (prefix ++ take (length (x :: k)) ((x :: k) ++ s)) t' Hc) as (b & n' & t2 & -> & Hr2 & Hs & [Hpl Hpr] & Hb & Hfu).
  { by apply (place_short (x :: k)). }
  { done. }
  { unfold steps in *. rewrite length_app in Hf. cbn [length] in Hf. destruct c; lia. }
  cbn [mbind outcome_bind]. pose proof (sets_short (x :: k) _ _ _ _ Hs) as Hsets. destruct b.
  - eexists true, _, (PShort (x :: k) t2). split; [done|]. split; [by apply rep_new_short|]. split; [done|]. split; [|done].
    split; [|done]. right. split; [done|]. right. destruct t' as [|w|k1 t1|ts]; try done.
    + destruct Hpl as [[-> [->|(w' & -> & Hw')]]|[Hks _]]; [done|by destruct Hok|].
      exfalso. destruct Hok as [Hkk _]. destruct s as [|z s]; [by apply term_key_nonempty in Hks|].
      by apply (term_key_no_app (x :: k) z s).
    + destruct t2 as [| | |ts2]; try (by specialize (Hfu eq_refl)). destruct Hok as (Hn & Hne' & Hok). split; [done|].
      split; [done|]. destruct Hpl as [[_ [?|(? & ? & _)]]|[_ [?|?]]]; done.
  - specialize (Hb eq_refl). subst t2. by eexists false, _, (PShort (x :: k) t').
Qed.

Lemma rep_fork is_root x nx tx y ny ty :
  rep false nx tx → rep false ny ty →
  rep is_root (FullN (<[Z.to_nat y := ny]> (<[Z.to_nat x := nx]> (replicate 17 NilN))) (newFlag g)) (PFull (fork x tx y ty)).
Proof.
  intros Hx Hy. apply rep_full. eexists. split; [done|]. split; [|done]. unfold fork.
  apply Forall2_insert; [|done]. apply Forall2_insert; [|done]. by apply Forall2_replicate.
Qed.

Lemma drop_past {A} (p : list A) x s : drop (S (length p)) (p ++ x :: s) = s.
Proof. by induction p as [|y p IH]. Qed.

(** The key of the short node parts from the key of the insertion after [p]. *)
Lemma insert_short_split f is_root p y s2 c fl prefix x s1 v t :
  x ≠ y → prefixLen (p ++ x :: s1) (p ++ y :: s2) = length p →
  inserts_ok (S (S f)) is_root (ShortN (p ++ y :: s2) c fl) prefix (p ++ x :: s1) v t.
Proof.
  intros Hxy Hpre Hr Hp Hv _. destruct (rep_place_key _ _ _ _ Hr Hp) as [Hk Hok]; [done..|].
  pose proof Hr as (t' & -> & Hc & _)%rep_short. destruct (child_graft_short y s2 p t' Hok) as (Hcy & Hy & Hnp & Hpy).
  pose proof (term_key_app_inv _ _ _ Hk) as [_ Hks]. destruct (child_graft_leaf x s1 v Hks Hv) as [Hcx Hx].
  remember (S f) as f' eqn:Ef. 
  assert (∃ k0 key', p ++ x :: s1 = k0 :: key') as (k0 & key' & E) by (destruct p; eauto).
  rewrite E. cbn [insert]. rewrite <-E, Hpre, bool_decide_eq_false_2 by (rewrite length_app; cbn [length]; lia).
  rewrite (index_Some (p ++ y :: s2) (Z.of_nat (length p)) y) by (lia || by rewrite Nat2Z.id, list_lookup_middle).
  rewrite (index_Some (p ++ x :: s1) (Z.of_nat (length p)) x) by (lia || by rewrite Nat2Z.id, list_lookup_middle).
  cbn [mbind outcome_bind]. rewrite !drop_past, take_app_length. subst f'.
  destruct (insert_nil f (prefix ++ take (S (length p)) (p ++ y :: s2)) s2 c t' Hc) as (b1 & n1 & -> & Hr1).
  cbn [mbind outcome_bind snd]. rewrite set_index_Ret by (rewrite length_replicate; lia). cbn [mbind outcome_bind].
  destruct (insert_nil f (prefix ++ take (S (length p)) (p ++ x :: s1)) s1 (ValueN v) (PVal v)) as (b2 & n2 & -> & Hr2); [done|].
  cbn [mbind outcome_bind snd]. rewrite set_index_Ret by (rewrite length_insert, length_replicate; lia). cbn [mbind outcome_bind].
  assert (tree_ok (PFull (fork y (graft s2 t') x (graft s1 (PVal v))))) as Hfork.
  { apply fork_ok; try done. by destruct s1. }
  pose proof (sets_split p y s2 t' x s1 v Hxy Hx Hy) as Hsets.
  destruct p as [|z p]; (eexists true, _, _; split; [reflexivity|]; split; [|split; [exact Hsets|]]).
  - by apply rep_fork.
  - split; [|done]. split; [|done]. right. split; [done|]. by right.
  - apply rep_new_short. by apply rep_fork.
  - split; [|done]. split; [|done]. right. split; [done|]. right. by split.
Qed.

Lemma insert_spec f is_root n prefix s v t : inserts_ok f is_root n prefix s v t.
Proof.
  revert is_root n prefix s t. induction f as [|f IH]; intros is_root n prefix s t; [intros ????; lia|].
  destruct n as [|w|h|k c fl|cs fl].
  - intros Hr Hp Hv _. cbn in Hr. subst t. destruct s as [|x s].
    + exists true, (ValueN v), (PVal v). split; [done|]. split; [done|]. split; [by intros [|y key]|]. split; [|done]. split; [|done].
      left. split; [done|]. right. by exists v.
    + destruct Hp as [[? _]|[Hk _]]; [done|]. eexists true, _, (PShort (x :: s) (PVal v)). split; [done|].
      split; [by apply rep_new_short|]. split; [apply sets_leaf|]. split; [|done]. split; [|done]. right. split; [done|]. by right.
  - intros Hr Hp Hv _. cbn in Hr. subst t. destruct Hp as [[-> _]|[_ [?|?]]]; [|done..].
    eexists _, (ValueN v), (PVal v). split; [done|]. split; [done|]. split; [apply sets_value|]. split.
    { split; [|done]. left. split; [done|]. right. by exists v. }
    split; [|done]. case_bool_decide; [by subst|done].
  - by apply insert_hash.
  - intros Hr Hp Hv Hf. destruct (rep_place_key _ _ _ _ Hr Hp) as [Hk Hok]; [done..|].
    pose proof Hr as (t' & -> & _)%rep_short. pose proof (short_key_nonempty _ _ Hok) as Hne.
    destruct (prefixLen_cases s k) as [(s' & -> & _)|[(x & s' & -> & _)|(p & x & y & s1 & s2 & -> & -> & Hxy & Hpre)]].
    + by apply insert_short_below.
    + by apply short_not_longer in Hok.
    + destruct f as [|f]; [unfold steps in Hf; rewrite length_app in Hf; cbn [length] in Hf; lia|].
      by apply insert_short_split.
  - by apply insert_full.
Qed.

(** *** [delete] *)

(** After a change the node is at hand: a short node below shows as one. *)
Definition deletes_ok (f : nat) (is_root : bool) (n : node) (prefix s : bytes) (t : ptree) : Prop :=
  rep is_root n t → place t s → (steps n s < f)%nat →
  ∃ b n' t', delete f d g n prefix s = Ret (b, n') ∧ rep is_root n' t' ∧ sets t s None t' ∧ place t' s ∧
    (b = false → t' = t) ∧ (b = true → ∀ h, n' ≠ HashN h) ∧ (is_full t = true → present t' = true).

Lemma delete_hash f is_root h prefix s t :
  (∀ n, deletes_ok f is_root n prefix s t) → deletes_ok (S f) is_root (HashN h) prefix s t.
Proof.
  intros IH Hr Hp Hf. destruct (rep_place_key _ _ _ _ Hr Hp) as [Hk Hok]; [done..|]. cbn [delete].
  destruct (resolveHash_spec keccak d keccak_len g h prefix t is_root Hok Hr) as (n & -> & Hr' & Hl).
  cbn [mbind outcome_bind]. destruct (IH n Hr' Hp) as (b & n' & t' & -> & Hr2 & Hs & Hpl & Hb & Hh & Hfu).
  { rewrite steps_loaded by done. unfold steps in Hf. lia. }
  cbn [mbind outcome_bind]. destruct b; [by exists true, n', t'|]. specialize (Hb eq_refl). subst t'. by exists false, n, t.
Qed.

(** The short node is on the way to the key. *)
Lemma delete_short_below f is_root k c fl prefix s t :
  (∀ prefix t', deletes_ok f false c prefix s t') → k ≠ [] → s ≠ [] → deletes_ok (S f) is_root (ShortN k c fl) prefix (k ++ s) t.
Proof.
  intros IH Hne Hs0 Hr Hp Hf. destruct (rep_place_key _ _ _ _ Hr Hp) as [Hk Hok]; [done..|].
  pose proof Hr as (t' & -> & Hc & Hfl)%rep_short. cbn [delete].
  assert (0 < length s)%nat as Hsl by (destruct s; [done|cbn [length]; lia]).
  rewrite prefixLen_app, !bool_decide_eq_false_2 by (rewrite ?length_app; lia). rewrite take_app_length, drop_app_length.
  pose proof (place_short k t' s Hok Hk) as Hps.
  destruct (IH (prefix ++ k) t' Hc Hps) as (b & n' & t2 & -> & Hr2 & Hs & Hpl & Hb & Hh & Hfu).
  { unfold steps in *. rewrite length_app in Hf. destruct k; [done|]. cbn [length] in Hf. destruct c; lia. }
  destruct Hps as [[? _]|[Hks [->|Hok']]]; [done|done|]. destruct Hpl as [[? _]|[_ Hpl]]; [done|].
  cbn [mbind outcome_bind]. pose proof (sets_short k _ _ _ _ Hs) as Hsets. destruct b.
  - destruct t' as [|w|k1 t1|ts]; try done. destruct Hok as (Hn & _ & _). destruct Hpl as [->|Hok2]; [by specialize (Hfu eq_refl)|].
    destruct (extend_ok k t2 Hn Hne Hok2) as [Hok3 Hsame].
    destruct n' as [|w|h|k2 c2 fl2|cs2 fl2]; [by cbn in Hr2; subst t2|by cbn in Hr2; subst t2|by destruct (Hh eq_refl h)| |].
    + pose proof Hr2 as (t3 & -> & Hc3 & _)%rep_short. eexists true, _, (PShort (k ++ k2) t3). split; [done|].
      split; [by apply rep_new_short|]. split; [by eapply sets_same|]. split; [|done]. right. split; [done|]. by right.
    + pose proof Hr2 as (ts3 & -> & _)%rep_full. eexists true, _, (PShort k (PFull ts3)). split; [done|].
      split; [by apply rep_new_short|]. split; [done|]. split; [|done]. right. split; [done|]. by right.
  - specialize (Hb eq_refl). subst t2. by eexists false, _, (PShort k t').
Qed.

Lemma delete_short f is_root k c fl prefix s t :
  (∀ prefix s' t', deletes_ok f false c prefix s' t') → deletes_ok (S f) is_root (ShortN k c fl) prefix s t.
Proof.
  intros IH Hr Hp Hf. destruct (rep_place_key _ _ _ _ Hr Hp) as [Hk Hok]; [done..|].
  pose proof Hr as (t' & -> & Hc & Hfl)%rep_short. pose proof (short_key_nonempty _ _ Hok) as Hne.
  destruct (prefixLen_cases s k) as [(s' & -> & _)|[(x & s' & -> & _)|(p & x & y & s1 & s2 & -> & -> & Hxy & Hpre)]].
  - destruct (decide (s' = [])) as [->|Hs']; [|by apply delete_short_below].
    cbn [delete]. rewrite prefixLen_app, app_nil_r. rewrite bool_decide_eq_false_2 by lia. rewrite bool_decide_eq_true_2 by done.
    exists true, NilN, PNil. split; [done|]. split; [done|]. rewrite app_nil_r in Hk.
    destruct t' as [|v|k1 t1|ts]; try done; [|destruct Hok as (Hn & _); exfalso; by apply (nibbles_not_term k)].
    split; [apply sets_remove|]. split; [|done]. right. split; [done|]. by left.
  - by apply short_not_longer in Hok.
  - cbn [delete]. rewrite Hpre, bool_decide_eq_true_2 by (rewrite length_app; cbn [length]; lia).
    eexists false, _, _. split; [done|]. split; [done|]. split; [|by split]. apply sets_missing.
    destruct (plookup_short_cases (p ++ y :: s2) t' (p ++ x :: s1)) as [(s & Heq & _)|[_ Hl]]; [|apply Hl].
    rewrite <-app_assoc in Heq. apply app_inv_head in Heq. by injection Heq as ->.
Qed.

(** *** A branch left with one child *)
Definition here (n : node) : bool := match n with NilN => false | _ => true end.

Lemma only_child_more i pos cs :
  pos ≠ -1 → only_child i pos cs = if bool_decide (countb here cs = 0) then pos else -2.
Proof.
  intros Hpos. revert i. induction cs as [|c cs IH]; intros i; [done|].
  pose proof (countb_nonneg here cs). rewrite countb_cons.
  destruct c; cbn [only_child here]; [rewrite IH; f_equal; apply bool_decide_ext; lia|..];
    rewrite (bool_decide_eq_false_2 (pos = -1)) by done; by rewrite bool_decide_eq_false_2 by lia.
Qed.

Lemma countb_0 {A} (f : A → bool) l j x : countb f l = 0 → l !! j = Some x → f x = false.
Proof.
  revert j. induction l as [|y l IH]; intros j Hl Hj; [done|]. rewrite countb_cons in Hl. pose proof (countb_nonneg f l).
  destruct (f y) eqn:Hy; [lia|]. destruct j as [|j]; [by injection Hj as ->|]. apply (IH j); [lia|done].
Qed.

Lemma only_child_spec i cs :
  0 ≤ i → 1 ≤ countb here cs →
  (2 ≤ countb here cs ∧ only_child i (-1) cs = -2) ∨
  (∃ j c, cs !! j = Some c ∧ here c = true ∧ only_child i (-1) cs = i + Z.of_nat j ∧
    ∀ j' c', cs !! j' = Some c' → j' ≠ j → c' = NilN).
Proof.
  revert i. induction cs as [|c cs IH]; intros i Hi H1; [cbn in H1; lia|]. rewrite countb_cons in *.
  destruct (here c) eqn:Hc.
  - assert (only_child i (-1) (c :: cs) = only_child (i + 1) i cs) as -> by by destruct c.
    rewrite only_child_more by lia. case_bool_decide as H0; [right|left; pose proof (countb_nonneg here cs); split; [lia|done]].
    exists 0%nat, c. split; [done|]. split; [done|]. split; [lia|]. intros [|j'] c' Hj Hne; [done|].
    apply (countb_0 _ _ _ _ H0) in Hj. by destruct c'.
  - assert (c = NilN) as -> by by destruct c. cbn [only_child]. destruct (IH (i + 1)) as [[H2 ->]|(j & c & Hj & Hc' & -> & Ho)]; [lia..| |].
    + left. split; [lia|done].
    + right. exists (S j), c. split; [done|]. split; [done|]. split; [lia|]. intros [|j'] c' Hj' Hne; [by injection Hj' as ->|].
      apply (Ho j'); [done|lia].
Qed.

Lemma rep_here is_root n t : rep is_root n t → here n = present t.
Proof. destruct n; intros Hr; [by cbn in Hr; subst|by cbn in Hr; subst|..]; by destruct t; try (destruct Hr as [[? _] _]); try destruct Hr. Qed.

Lemma countb_here cs ts : Forall2 (rep false) cs ts → countb here cs = countb present ts.
Proof.
  induction 1 as [|c t cs ts Hr _ IH]; [done|]. rewrite !countb_cons, IH. by rewrite (rep_here _ _ _ Hr).
Qed.

(** The end of [delete] on a branch, the child replaced. *)
Definition shrink_full (prefix : bytes) (children : list node) : outcome (bool * node) :=
  let pos := only_child 0 (-1) children in
  if bool_decide (0 ≤ pos) then
    last ← index children pos;
    cnode ← (if bool_decide (pos ≠ 16) then resolve d g last prefix else Ret NilN);
    match cnode with
    | ShortN cKey cVal _ => Ret (true, ShortN (pos :: cKey) cVal (newFlag g))
    | _ => Ret (true, ShortN [pos] last (newFlag g))
    end
  else Ret (true, FullN children (newFlag g)).

(** What the node turns out to be when it is looked at. *)
Definition shown (j : nat) (cn : node) (t : ptree) : Prop :=
  (∃ k1 c1 f1 t1, cn = ShortN k1 c1 f1 ∧ t = PShort k1 t1 ∧ rep false c1 t1) ∨
  ((∀ k1 c1 f1, cn ≠ ShortN k1 c1 f1) ∧ reduce j t = PShort [Z.of_nat j] t).

Lemma resolve_child prefix j c t :
  rep false c t → child_ok j t → present t = true →
  ∃ cn, (if bool_decide (Z.of_nat j ≠ 16) then resolve d g c prefix else Ret NilN) = Ret cn ∧ shown j cn t.
Proof.
  intros Hr Hct Hp. case_bool_decide as Hj.
  - assert (tree_ok t) as Hok by (destruct t; try done; destruct Hct; done || lia).
    assert (∃ cn, resolve d g c prefix = Ret cn ∧ rep false cn t ∧ loaded cn = true) as (cn & -> & Hrn & Hl).
    { destruct c as [|v|h|k c fl|cs fl]; [by cbn in Hr; subst|by cbn in Hr; subst| |by eexists..].
      by apply (resolveHash_spec keccak d keccak_len). }
    exists cn. split; [done|]. destruct cn as [|v|h|k c1 fl|cs fl]; try done.
    + pose proof Hrn as (t1 & -> & Hc1 & _)%rep_short. left. by exists k, c1, fl, t1.
    + pose proof Hrn as (ts & -> & _)%rep_full. by right.
  - exists NilN. split; [done|]. right. split; [done|]. destruct t; try done. destruct Hct. lia.
Qed.

Lemma shrink_full_spec is_root prefix cs ts :
  Forall2 (rep false) cs ts → length ts = 17%nat → (∀ i t, ts !! i = Some t → child_ok i t) → 1 ≤ countb present ts →
  ∃ n' t', shrink_full prefix cs = Ret (true, n') ∧ rep is_root n' t' ∧ same (PFull ts) t' ∧ tree_ok t' ∧ ∀ h, n' ≠ HashN h.
Proof.
  intros Hf Hl Hc H1. rewrite <-(countb_here _ _ Hf) in H1. unfold shrink_full.
  destruct (only_child_spec 0 cs ltac:(done) H1) as [[H2 ->]|(j & c & Hj & Hh & -> & Ho)].
  - rewrite bool_decide_eq_false_2 by lia. eexists _, (PFull ts). split; [done|]. split; [|split; [done|split; [|done]]].
    + apply rep_full. eauto using flags_new.
    + apply tree_full. by rewrite <-(countb_here _ _ Hf).
  - destruct (Forall2_lookup_l _ _ _ _ _ Hf Hj) as (t & Ht & Hr). rewrite (rep_here _ _ _ Hr) in Hh.
    pose proof (Hc _ _ Ht) as Hct. assert (only ts j t) as Honly.
    { split; [done|]. split; [done|]. intros j' t' Hj' Hne. destruct (rep_child _ _ _ _ Hf Hj') as (c' & Hc' & Hr').
      rewrite (Ho _ _ Hc' Hne) in Hr'. done. }
    rewrite bool_decide_eq_true_2 by lia. rewrite Z.add_0_l. rewrite (index_Some cs _ c) by (lia || by rewrite Nat2Z.id).
    cbn [mbind outcome_bind].
    destruct (resolve_child prefix j c t Hr Hct Hh) as (cn & -> & Hcn). cbn [mbind outcome_bind].
    exists (match cn with ShortN k1 c1 _ => ShortN (Z.of_nat j :: k1) c1 (newFlag g) | _ => ShortN [Z.of_nat j] c (newFlag g) end), (reduce j t).
    split; [by destruct cn|]. split; [|split; [by apply same_reduce|split; [by apply reduce_ok|by destruct cn]]].
    destruct Hcn as [(k1 & c1 & f1 & t1 & -> & -> & Hr1)|[Hns ->]]; [by apply rep_new_short|].
    destruct cn as [|v|h|k1 c1 f1|cs1 f1]; try (by apply rep_new_short). by destruct (Hns k1 c1 f1).
Qed.

Lemma delete_full f is_root cs fl prefix s t :
  (∀ c prefix s' t', deletes_ok f false c prefix s' t') → deletes_ok (S f) is_root (FullN cs fl) prefix s t.
Proof.
  intros IH Hr Hp Hf. destruct (rep_place_key _ _ _ _ Hr Hp) as [Hk Hok]; [done..|].
  destruct s as [|x s]; [by apply term_key_nonempty in Hk|]. cbn [delete]. change (drop 1 (x :: s)) with s.
  pose proof Hr as (ts & -> & Hc & Hfl)%rep_full. destruct (place_child ts x s Hok Hk) as (t' & Hx & Ht' & Hp' & Hck).
  destruct (rep_child _ _ _ _ Hc Ht') as (c & Hcx & Hrc). change (index (x :: s) 0) with (Ret x). cbn [mbind outcome_bind].
  rewrite (index_Some cs x c) by (done || lia). cbn [mbind outcome_bind].
  destruct (IH c (prefix ++ [x]) s t' Hrc Hp') as (b & n' & t2 & -> & Hr2 & Hs & Hpl & Hb & _ & _).
  { unfold steps in *. cbn [length] in Hf. destruct c; lia. }
  cbn [mbind outcome_bind]. pose proof (sets_full ts x t' s None t2 ltac:(lia) Ht' Hs) as Hsets. destruct b.
  - rewrite set_index_Ret by (apply lookup_lt_Some in Hcx; lia). cbn [mbind outcome_bind].
    apply tree_full in Hok as (Hl & H2 & Hch).
    destruct (shrink_full_spec is_root prefix (<[Z.to_nat x := n']> cs) (<[Z.to_nat x := t2]> ts)) as (n2 & t3 & Hsh & Hr3 & Hsame & Hok3 & Hh).
    + by apply Forall2_insert.
    + by rewrite length_insert.
    + apply children_insert; [done|]. by apply (place_child_ok x t2 s).
    + rewrite (countb_insert _ _ _ _ _ Ht'). destruct (present t2), (present t'); lia.
    + exists true, n2, t3. split; [exact Hsh|]. split; [done|]. split; [by eapply sets_same|].
      split; [right; split; [done|by right]|]. split; [done|]. split; [done|]. intros _. by destruct t3.
  - specialize (Hb eq_refl). subst t2. rewrite list_insert_id in Hsets by done. by exists false, (FullN cs fl), (PFull ts).
Qed.

Lemma delete_spec f is_root n prefix s t : deletes_ok f is_root n prefix s t.
Proof.
  revert is_root n prefix s t. induction f as [|f IH]; intros is_root n prefix s t; [intros ???; lia|].
  destruct n as [|w|h|k c fl|cs fl].
  - intros Hr Hp _. cbn in Hr. subst t. exists false, NilN, PNil. split; [done|]. split; [done|]. split; [by apply sets_missing|]. by split.
  - intros Hr Hp _. cbn in Hr. subst t. destruct Hp as [[-> _]|[_ [?|?]]]; [|done..].
    exists true, NilN, PNil. split; [done|]. split; [done|]. split; [by intros [|y key]|]. split; [|done]. left. split; [done|by left].
  - by apply delete_hash.
  - by apply delete_short.
  - by apply delete_full.
Qed.

End Map.
