(* ===== verification/TrieHash.v ===== *)
(** The hasher: the hash of a trie is that of its tree, whatever is loaded or cached, and what
    [Commit] writes is enough to read the tree back. *)
From S2P Require Import Prelude Bytes HexKeys Rlp RlpRaw TrieNode Trie TrieTree TrieRep TrieEdit.
Open Scope Z_scope.

Lemma node_induction (P : node → Prop) :
  P NilN → (∀ v, P (ValueN v)) → (∀ h, P (HashN h)) → (∀ k c f, P c → P (ShortN k c f)) →
  (∀ cs f, Forall P cs → P (FullN cs f)) → ∀ n, P n.
Proof.
  intros Hn Hv Hh Hs Hf. fix IH 1. intros [|v|h|k c f|cs f]; [done|done|done|by apply Hs|]. apply Hf.
  induction cs as [|c cs IHl]; constructor; [apply IH|exact IHl].
Qed.

Section Hash.
Context {DB : Type} `{DatabaseLaws DB} (keccak : bytes → bytes) (keccak_len : ∀ b, len (keccak b) = 32).

(** The encodings of the nodes of a tree. *)
Fixpoint blobs (t : ptree) : list bytes :=
  match t with
  | PShort _ t' => blob keccak t :: blobs t'
  | PFull ts => blob keccak t :: concat (map blobs ts)
  | _ => []
  end.

(** Encodings on which the hash does not collide, and which are Go slices. *)
Context (univ : bytes → Prop)
  (univ_inj : ∀ a b, univ a → univ b → keccak a = keccak b → a = b)
  (univ_len : ∀ a, univ a → len a < 2 ^ 63).

Definition covered (t : ptree) : Prop := ∀ b, b ∈ blobs t → univ b.

Lemma covered_node t : is_node t = true → covered t → univ (blob keccak t).
Proof. intros Hn Hc. apply Hc. destruct t; try done; by left. Qed.

Lemma covered_short k t : covered (PShort k t) → covered t.
Proof. intros Hc b Hb. apply Hc. by right. Qed.

Lemma covered_full ts t : covered (PFull ts) → t ∈ ts → covered t.
Proof.
  intros Hc Ht b Hb. apply Hc. right. apply list_elem_of_In, in_concat. exists (blobs t).
  split; [apply in_map; by apply list_elem_of_In|by apply list_elem_of_In].
Qed.

(** ** The encoding determines the tree *)
Lemma enc_app_inj r r' rest rest' :
  no_raw r → no_raw r' → len (enc r ++ rest) < 2 ^ 63 → enc r ++ rest = enc r' ++ rest' → enc r = enc r' ∧ rest = rest'.
Proof.
  intros Hr Hr' Hl Heq. destruct (enc_item r Hr) as (k & c & He & Hw). destruct (enc_item r' Hr') as (k' & c' & He' & Hw').
  rewrite He, He' in *. pose proof (Split_item k c rest Hw Hl) as H1. rewrite Heq in Hl, H1.
  rewrite (Split_item k' c' rest' Hw' Hl) in H1. by injection H1 as -> -> ->.
Qed.

Lemma enc_nonempty r : no_raw r → enc r ≠ [].
Proof. intros Hr. destruct (enc_item r Hr) as (k & c & -> & Hw). intros Heq. pose proof (item_nonempty k c Hw) as H1. by rewrite Heq in H1. Qed.

Lemma encs_inj rs rs' :
  Forall no_raw rs → Forall no_raw rs' → len (concat (map enc rs)) < 2 ^ 63 → concat (map enc rs) = concat (map enc rs') →
  Forall2 (λ r r', enc r = enc r') rs rs'.
Proof.
  intros Hr. revert rs'. induction Hr as [|r rs Hr _ IH]; intros rs' Hr' Hl Heq; destruct Hr' as [|r' rs' Hr' Hrs']; cbn [map concat] in *.
  - constructor.
  - symmetry in Heq. apply app_nil in Heq as [Heq _]. by apply enc_nonempty in Heq.
  - apply app_nil in Heq as [Heq _]. by apply enc_nonempty in Heq.
  - destruct (enc_app_inj _ _ _ _ Hr Hr' Hl Heq) as [H1 H2]. constructor; [done|]. apply IH; [done| |done].
    rewrite len_app in Hl. pose proof (len_nonneg (enc r)). lia.
Qed.

Lemma enc_list_inj rs rs' :
  Forall no_raw rs → Forall no_raw rs' → len (enc (RList rs)) < 2 ^ 63 → enc (RList rs) = enc (RList rs') →
  Forall2 (λ r r', enc r = enc r') rs rs'.
Proof.
  intros Hr Hr' Hl Heq. pose proof (SplitList_enc rs []) as H1. rewrite app_nil_r in H1. specialize (H1 Hl).
  pose proof (SplitList_enc rs' []) as H2. rewrite app_nil_r, <-Heq in H2. specialize (H2 Hl). rewrite H1 in H2.
  injection H2 as H2. apply encs_inj; [done..| |done]. rewrite enc_list_item in Hl. unfold item in Hl. rewrite len_app in Hl.
  pose proof (len_nonneg (header List_ (len (concat (map enc rs))))). lia.
Qed.

Lemma enc_str_inj b b' : len (enc_str b) < 2 ^ 63 → enc_str b = enc_str b' → b = b'.
Proof.
  intros Hl Heq. pose proof (SplitString_enc b []) as H1. rewrite app_nil_r in H1. specialize (H1 Hl).
  pose proof (SplitString_enc b' []) as H2. rewrite app_nil_r, <-Heq in H2. specialize (H2 Hl). rewrite H1 in H2. by injection H2.
Qed.

Lemma enc_str_list b rs : len (enc_str b) < 2 ^ 63 → enc_str b ≠ enc (RList rs).
Proof.
  intros Hl Heq. destruct (enc_str_item b) as [He Hw]. pose proof (Split_item (str_kind b) b [] Hw) as H1.
  rewrite app_nil_r, <-He, Heq in H1. rewrite Heq, enc_list_item in Hl.
  pose proof (Split_item List_ (concat (map enc rs)) [] eq_refl) as H2. rewrite app_nil_r in H2. rewrite enc_list_item in H1.
  rewrite H2 in H1 by done. specialize (H1 Hl). injection H1 as Hk _. unfold str_kind in Hk. by destruct (is_small b).
Qed.

Definition determined (t : ptree) : Prop := ∀ t',
  tree_ok t → tree_ok t' → covered t → covered t' → blob keccak t = blob keccak t' → t = t'.

Lemma blob_len t : is_node t = true → covered t → len (blob keccak t) < 2 ^ 63.
Proof. intros Hn Hc. by apply univ_len, covered_node. Qed.

Lemma enc_str_hash b : len (enc_str (keccak b)) = 33.
Proof.
  pose proof (keccak_len b) as Hl. destruct (keccak b) as [|x [|y l]]; [done..|]. cbn [enc_str]. rewrite len_app, Hl. done.
Qed.

(** References to the same thing are to the same tree. *)
Lemma ref_inj t t' :
  determined t → t = PNil ∨ tree_ok t → t' = PNil ∨ tree_ok t' → covered t → covered t' →
  enc (shrink keccak (body keccak t)) = enc (shrink keccak (body keccak t')) → t = t'.
Proof.
  assert (∀ t, tree_ok t → enc (shrink keccak (body keccak t)) ≠ enc_str []) as Hnil.
  { intros t1 H1 Heq. assert (is_node t1 = true) as Hn by by destruct t1. destruct (ref_cases keccak t1 Hn) as [[_ Hr]|[_ Hr]]; rewrite Hr in Heq.
    - destruct (body_list keccak t1 Hn) as [rs Hb]. rewrite Hb in Heq. symmetry in Heq. by apply enc_str_list in Heq.
    - cbn [enc] in Heq. apply (f_equal len) in Heq. rewrite enc_str_hash in Heq. done. }
  intros Hdet Hok Hok' Hc Hc' Heq. destruct Hok as [->|Hok], Hok' as [->|Hok']; [done| | |].
  { symmetry in Heq. by destruct (Hnil t' Hok'). }
  { by destruct (Hnil t Hok). }
  assert (is_node t = true ∧ is_node t' = true) as [Hn Hn'] by by destruct t, t'.
  destruct (ref_cases keccak t Hn) as [[_ Hr]|[_ Hr]], (ref_cases keccak t' Hn') as [[_ Hr']|[_ Hr']]; rewrite Hr, Hr' in Heq.
  - by apply Hdet.
  - destruct (body_list keccak t Hn) as [rs Hb]. rewrite Hb in Heq. symmetry in Heq. apply enc_str_list in Heq; [done|].
    by rewrite enc_str_hash.
  - destruct (body_list keccak t' Hn') as [rs Hb]. rewrite Hb in Heq. apply enc_str_list in Heq; [done|]. by rewrite enc_str_hash.
  - cbn [enc] in Heq. apply enc_str_inj in Heq; [|by rewrite enc_str_hash]. apply univ_inj in Heq; [|by apply covered_node..].
    by apply Hdet.
Qed.

Lemma no_raw_refs ts : Forall no_raw (map (λ t, shrink keccak (body keccak t)) ts).
Proof. apply Forall_fmap, Forall_true. intros t. apply no_raw_shrink. Qed.

Lemma len_enc_in r rs : r ∈ rs → len (enc (RList rs)) < 2 ^ 63 → len (enc r) < 2 ^ 63.
Proof. intros Hr Hl. pose proof (len_enc_elem r rs Hr). lia. Qed.

Lemma short_hex_ok k t : tree_ok (PShort k t) → hex_ok k.
Proof. intros Hok. destruct t; try done; [apply hex_ok_term, Hok|constructor; apply Hok]. Qed.

Lemma determined_short k t : determined t → determined (PShort k t).
Proof.
  intros IH t' Hok Hok' Hc Hc' Heq. pose proof (blob_len (PShort k t) eq_refl Hc) as Hl. unfold blob in Hl, Heq.
  assert (∀ k t, Forall no_raw [RStr (compact k); shrink keccak (body keccak t)]) as Hraw.
  { intros k1 t1. repeat constructor. apply no_raw_shrink. }
  destruct t' as [| |k' t'|ts]; try done; cbn [body] in Hl, Heq; apply enc_list_inj in Heq; try apply Hraw; try apply no_raw_refs; try done.
  2: { apply Forall2_length in Heq. rewrite length_map in Heq. apply tree_full in Hok' as [Hl' _]. by rewrite Hl' in Heq. }
  apply Forall2_cons in Heq as [Hk Heq]. apply Forall2_cons in Heq as [Ht _]. cbn [enc] in Hk.
  apply enc_str_inj in Hk; [|apply (len_enc_in (RStr (compact k)) _ ltac:(by left) Hl)].
  pose proof (compact_ok k (short_hex_ok _ _ Hok)) as [_ H1]. pose proof (compact_ok k' (short_hex_ok _ _ Hok')) as [_ H2].
  rewrite Hk, H2 in H1. injection H1 as ->. f_equal.
  destruct t as [|v|k1 t1|ts], t' as [|v'|k1' t1'|ts']; try done.
  - f_equal. cbn [body shrink enc] in Ht. apply enc_str_inj in Ht; [done|]. apply (len_enc_in (RStr v) _ ltac:(by right; left) Hl).
  - destruct Hok as [Hk1 _]. destruct Hok' as [Hn _]. by apply nibbles_not_term in Hn.
  - destruct Hok' as [Hk1 _]. destruct Hok as [Hn _]. by apply nibbles_not_term in Hn.
  - apply covered_short in Hc, Hc'. apply ref_inj; try done; [right; apply Hok|right; apply Hok'].
Qed.

Definition held (t : ptree) : bytes := match t with PVal v => v | _ => [] end.

Lemma held_inj t t' : child_ok 16 t → child_ok 16 t' → held t = held t' → t = t'.
Proof. destruct t, t'; cbn [child_ok held]; intros Hc Hc' Heq; subst; try done; exfalso; destruct Hc, Hc'; (done || lia). Qed.

Lemma child_inj i t t' :
  determined t → child_ok i t → child_ok i t' → (i ≤ 16)%nat → covered t → covered t' →
  len (enc (shrink keccak (body keccak t))) < 2 ^ 63 →
  enc (shrink keccak (body keccak t)) = enc (shrink keccak (body keccak t')) → t = t'.
Proof.
  intros Hdet Hck Hck' Hi Hc Hc' Hl Heq. destruct (decide (i = 16%nat)) as [->|Hne].
  - apply held_inj; [done..|]. assert (∀ t, child_ok 16 t → enc (shrink keccak (body keccak t)) = enc_str (held t)) as Hs.
    { intros t1 H1. destruct t1; try done; destruct H1; lia. }
    rewrite !Hs in Heq by done. rewrite Hs in Hl by done. by apply enc_str_inj.
  - assert (∀ t, child_ok i t → t = PNil ∨ tree_ok t) as Hs.
    { intros t1 H1. destruct t1; [by left|destruct H1; lia|right; apply H1..]. }
    apply ref_inj; auto.
Qed.

Lemma determined_full ts : Forall determined ts → determined (PFull ts).
Proof.
  intros IH t' Hok Hok' Hc Hc' Heq. pose proof (blob_len (PFull ts) eq_refl Hc) as Hl. unfold blob in Hl, Heq.
  pose proof Hok as (H17 & _ & Hch)%tree_full.
  destruct t' as [| |k' t'|ts']; try done; cbn [body] in Hl, Heq; apply enc_list_inj in Heq; try apply no_raw_refs; try done.
  { apply Forall2_length in Heq. rewrite length_map, H17 in Heq. done. }
  { repeat constructor. apply no_raw_shrink. }
  pose proof Hok' as (H17' & _ & Hch')%tree_full. f_equal. apply (list_eq_same_length _ _ 17); [done..|].
  intros i t t' Hi Ht Ht'. rewrite Forall2_fmap in Heq. pose proof (Forall2_lookup_lr _ _ _ _ _ _ Heq Ht Ht') as He.
  apply list_elem_of_lookup_2 in Ht as Hin. apply list_elem_of_lookup_2 in Ht' as Hin'. rewrite Forall_forall in IH.
  apply (child_inj i); [by apply IH|by apply Hch|by apply Hch'|lia|by apply (covered_full ts)|by apply (covered_full ts')| |done].
  apply (len_enc_in _ _ (list_elem_of_fmap_2 (λ t, shrink keccak (body keccak t)) _ _ Hin) Hl).
Qed.

(** The encoding of a tree, hashes included, determines the tree. *)
Lemma blob_inj t : determined t.
Proof.
  revert t. apply (ptree_induction determined); [by intros ? ?|by intros ? ? ?|apply determined_short|apply determined_full].
Qed.

(** ** More nodes in the database *)
Definition grows (d d' : option DB) : Prop := ∀ b, univ b → holds d (keccak b) b → holds d' (keccak b) b.

Lemma grows_put db h b db' : univ b → h = keccak b → db_Put db h b = (None, db') → grows (Some db) (Some db').
Proof.
  intros Hb -> Hp b' Hb' [Hg Hl]. split; [|done]. rewrite (Get_Put _ _ _ _ (keccak b') Hp). case_decide as Heq; [|done].
  f_equal. symmetry. by apply univ_inj.
Qed.

#[local] Instance grows_preorder : PreOrder grows.
Proof. split; [by intros d b|]. intros d1 d2 d3 H12 H23 b Hb Hh. by apply H23, H12. Qed.

Lemma kids_grow t d d' : grows d d' → covered t → kids_stored keccak d t → kids_stored keccak d' t.
Proof.
  intros Hg. revert t. apply (ptree_induction (λ t, covered t → kids_stored keccak d t → kids_stored keccak d' t)); try done.
  - intros k t IH Hc [Hk Hh]. apply covered_short in Hc. split; [by apply IH|]. intros Hn Hl. apply Hg; [by apply covered_node|by apply Hh].
  - intros ts IH Hc Hk. apply kids_full. apply kids_full in Hk. rewrite Forall_forall in *. intros t Ht.
    pose proof (covered_full ts t Hc Ht) as Hct. destruct (Hk t Ht) as [Hkt Hh]. split; [by apply IH|].
    intros Hn Hl. apply Hg; [by apply covered_node|by apply Hh].
Qed.

Lemma kid_grow t d d' : grows d d' → covered t → kid_stored keccak d t → kid_stored keccak d' t.
Proof.
  intros Hg Hc [Hk Hh]. split; [by apply (kids_grow t d)|]. intros Hn Hl. apply Hg; [by apply covered_node|by apply Hh].
Qed.

Lemma stored_grow t d d' : grows d d' → is_node t = true → covered t → stored keccak d t → stored keccak d' t.
Proof. intros Hg Hn Hc [Hh Hk]. split; [apply Hg; [by apply covered_node|done]|by apply (kids_grow t d)]. Qed.

Lemma flags_grow is_root f t d d' :
  grows d d' → covered t → flags_ok keccak d is_root f t → flags_ok keccak d' is_root f t.
Proof.
  intros Hg Hc. unfold flags_ok. destruct (fhash f); [|done]. intros [Hh Hs]. split; [done|]. intros Hd.
  apply (stored_grow t d); [done|apply Hh|done|by apply Hs].
Qed.

Lemma rep_grow n is_root t d d' : grows d d' → covered t → rep keccak d is_root n t → rep keccak d' is_root n t.
Proof.
  intros Hg. revert is_root t. revert n.
  apply (node_induction (λ n, ∀ is_root t, covered t → rep keccak d is_root n t → rep keccak d' is_root n t)); try done.
  - intros h is_root t Hc [Hh Hs]. split; [done|]. apply (stored_grow t d); [done|apply Hh|done..].
  - intros k c f IH is_root t Hc (t' & -> & Hr & Hf)%rep_short. apply rep_short. exists t'. split; [done|].
    split; [apply IH; [by apply covered_short in Hc|done]|by apply (flags_grow _ _ _ d)].
  - intros cs f IH is_root t Hc (ts & -> & Hr & Hf)%rep_full. apply rep_full. exists ts. split; [done|].
    split; [|by apply (flags_grow _ _ _ d)]. apply Forall2_same_length_lookup_2; [by apply Forall2_length in Hr|].
    intros i c t Hi Ht. rewrite Forall_lookup in IH. apply (IH i c Hi).
    + apply (covered_full ts); [done|]. by apply list_elem_of_lookup_2 in Ht.
    + by apply (Forall2_lookup_lr _ _ _ _ _ _ Hr Hi Ht).
Qed.

Lemma rep_grow_all cs ts d d' :
  grows d d' → Forall covered ts → Forall2 (rep keccak d false) cs ts → Forall2 (rep keccak d' false) cs ts.
Proof.
  intros Hg Hc. induction 1 as [|c t cs ts Hr _ IH]; [done|]. apply Forall_cons in Hc as [Hct Hc].
  constructor; [by apply (rep_grow _ _ _ d)|by apply IH].
Qed.

(** ** Running the hasher *)

(** The hasher sees the database only when it writes. *)
Definition view (wr : bool) (d : option DB) : option DB := if wr then d else None.

Definition put_error (e : gerror) : Prop := ∃ db k v db', db_Put db k v = (Some e, db').

Definition advances (wr : bool) (d d' : option DB) : Prop :=
  (wr = false → d' = d) ∧ (wr = true → is_Some d → is_Some d') ∧ grows d d'.

(** The run ends with a result, or with an error of the database. *)
Definition finishes {A} (wr : bool) (d : option DB) (m : M (option DB) A) (Q : A → option DB → Prop) : Prop :=
  (∃ a d', m (view wr d) = (Ret a, view wr d') ∧ advances wr d d' ∧ Q a d') ∨
  (wr = true ∧ ∃ e d', m (view wr d) = (Fail e, d') ∧ put_error e).

Lemma advances_refl wr d : advances wr d d.
Proof. split; [done|]. split; [done|reflexivity]. Qed.

Lemma advances_trans wr d1 d2 d3 : advances wr d1 d2 → advances wr d2 d3 → advances wr d1 d3.
Proof.
  intros (Hw1 & Hs1 & Hg1) (Hw2 & Hs2 & Hg2). split; [intros E; rewrite Hw2, Hw1; done|]. split; [auto|by transitivity d2].
Qed.

Lemma finishes_ret {A} wr d (a : A) (Q : A → option DB → Prop) : Q a d → finishes wr d (mret a) Q.
Proof. intros HQ. left. exists a, d. split; [done|]. split; [apply advances_refl|done]. Qed.

Lemma finishes_bind {A B} wr d (m : M (option DB) A) (f : A → M (option DB) B) Q (R : B → option DB → Prop) :
  finishes wr d m Q → (∀ a d', advances wr d d' → Q a d' → finishes wr d' (f a) R) → finishes wr d (m ≫= f) R.
Proof.
  intros [(a & d' & Hm & Hadv & HQ)|(Hw & e & d' & Hm & He)] Hf.
  - destruct (Hf a d' Hadv HQ) as [(b & d2 & Hr & Hadv2 & HR)|(Hw & e & d2 & Hr & He)].
    + left. exists b, d2. split; [by rewrite (run_bind_Ret _ _ _ _ _ Hm)|]. split; [by apply (advances_trans wr d d')|done].
    + right. split; [done|]. exists e, d2. split; [by rewrite (run_bind_Ret _ _ _ _ _ Hm)|done].
  - right. split; [done|]. exists e, d'. split; [by rewrite (run_bind_Fail _ _ _ _ _ Hm)|done].
Qed.

Lemma finishes_mono {A} wr d (m : M (option DB) A) (Q R : A → option DB → Prop) :
  (∀ a d', Q a d' → R a d') → finishes wr d m Q → finishes wr d m R.
Proof. intros HQR [(a & d' & Hm & Hadv & HQ)|He]; [left; exists a, d'; by auto|by right]. Qed.

Lemma finishes_lift {A} wr d (o : outcome A) a (Q : A → option DB → Prop) : o = Ret a → Q a d → finishes wr d (lift o) Q.
Proof. intros -> HQ. by apply finishes_ret. Qed.

(** ** The encoding of a collapsed node *)

(** Encoding [n] inside a list gives the item [r]. *)
Definition refers (n : node) (r : rval) : Prop :=
  n ≠ NilN ∧ gval_ok (node_gval n) ∧ shape (node_gval n) = Some [r].

Lemma refers_hash h : refers (HashN h) (RStr h).
Proof. done. Qed.

Lemma refers_value v : refers (ValueN v) (RStr v).
Proof. done. Qed.

Lemma shape_iface n r :
  refers n r → gval_ok (match n with NilN => GIface None | _ => GIface (Some (node_gval n)) end) ∧
    shape (match n with NilN => GIface None | _ => GIface (Some (node_gval n)) end) = Some [r].
Proof. intros (Hn & Hok & Hs). by destruct n. Qed.

Lemma refers_short k n f r : refers n r → refers (ShortN k n f) (RList [RStr k; r]).
Proof.
  intros Hr. apply shape_iface in Hr as [Hok Hs]. split; [done|]. cbn [node_gval gval_ok shape mapM foldr]. split; [done|].
  rewrite Hs. done.
Qed.

Lemma refers_full ns f rs : Forall2 refers ns rs → refers (FullN ns f) (RList rs).
Proof.
  intros Hr. split; [done|]. cbn [node_gval gval_ok shape].
  set (g := λ c, match c with NilN => GIface None | _ => GIface (Some (node_gval c)) end). split.
  - induction Hr as [|n r ns rs Hn _ IH]; [done|]. cbn [map foldr]. split; [apply (shape_iface n r Hn)|done].
  - assert (mapM shape (map g ns) = Some (map (λ r, [r]) rs)) as ->.
    { induction Hr as [|n r ns rs Hn _ IH]; [done|]. cbn [map mapM].
      assert (shape (g n) = Some [r]) as -> by apply (shape_iface n r Hn). by rewrite IH. }
    cbn [mbind option_bind]. do 3 f_equal. clear. induction rs as [|r rs IH]; [done|]. cbn. by rewrite IH.
Qed.

(** ** [store] *)
Definition flags_of (n : node) : option nodeFlag :=
  match n with ShortN _ _ f | FullN _ f => Some f | _ => None end.

(** The node goes to the database under its hash, unless it is embedded. *)
Lemma store_spec wr d n f force t :
  flags_of n = Some f → refers n (body keccak t) → is_node t = true → univ (blob keccak t) →
  (∀ h, fhash f = Some h → h = keccak (blob keccak t)) → (wr = true → is_Some d) →
  finishes wr d (store keccak n force) (λ hashed d',
    if bool_decide (len (blob keccak t) < 32) && negb force then hashed = n ∧ d' = d
    else hashed = HashN (keccak (blob keccak t)) ∧ (wr = true → holds d' (keccak (blob keccak t)) (blob keccak t))).
Proof.
  intros Hf (_ & Hok & Hs) Hn Hu Hh Hd. set (b := blob keccak t) in *. pose proof (univ_len b Hu) as Hlen.
  assert (EncodeToBytes (node_gval n) = Ret b) as Henc.
  { rewrite (EncodeToBytes_enc _ _ Hok Hs); cbn [map concat]; rewrite app_nil_r; [done|].
    change (enc (body keccak t)) with b. lia. }
  assert (store keccak n force = (if bool_decide (len b < 32) && negb force then mret n
      else d ← get; match d with
        | Some d => match db_Put d (keccak b) b with
          | (None, d') => modify (λ _, Some d') ;; mret (HashN (keccak b))
          | (Some e, d') => modify (λ _, Some d') ;; fail e
          end
        | None => mret (HashN (keccak b))
        end) :> M (option DB) node) as ->.
  { destruct n as [|v|h|k c f'|cs f']; try done; injection Hf as ->; cbn [store]; rewrite Henc;
      (destruct (bool_decide (len b < 32) && negb force); [done|]);
      (destruct (fhash f) as [h|] eqn:Efh; [rewrite <-(Hh h eq_refl)|]); unfold cache; rewrite Efh; done. }
  destruct (bool_decide (len b < 32) && negb force); [by apply finishes_ret|]. unfold finishes, mbind, M_bind, get.
  destruct wr; cbn [view].
  - destruct (Hd eq_refl) as [db ->]. destruct (db_Put db (keccak b) b) as [[e|] db'] eqn:Hp.
    + right. split; [done|]. exists e, (Some db'). split; [done|]. by exists db, (keccak b), b, db'.
    + left. exists (HashN (keccak b)), (Some db'). split; [done|]. split.
      { split; [done|]. split; [done|]. by apply (grows_put db (keccak b) b). }
      split; [done|]. intros _. split; [|done]. rewrite (Get_Put _ _ _ _ (keccak b) Hp). by rewrite decide_True.
  - left. exists (HashN (keccak b)), d. split; [done|]. split; [apply advances_refl|done].
Qed.

(** ** [hash] *)
Definition hash_result (wr force : bool) (t : ptree) (r : node * node) (d' : option DB) : Prop :=
  rep keccak d' force (snd r) t ∧
  (wr = true → kid_stored keccak d' t ∧ (force = true → stored keccak d' t)) ∧
  (if force then fst r = HashN (keccak (blob keccak t)) else refers (fst r) (shrink keccak (body keccak t))).

Definition reflag (fl : nodeFlag) (n : node) : node :=
  match n with ShortN k c _ => ShortN k c fl | FullN cs _ => FullN cs fl | n => n end.

Lemma set_cached_reflag wr hashed cached f :
  flags_of cached = Some f →
  set_cached wr hashed cached =
    reflag (mkFlag (match hashed with HashN h => Some h | _ => None end) (gen f) (if wr then false else dirty f)) cached.
Proof. by destruct cached; try done; intros [= ->]. Qed.

Lemma writing_view wr d : (wr = true → is_Some d) → writing (view wr d) = wr.
Proof. destruct wr; [|done]. intros Hd. by destruct (Hd eq_refl) as [db ->]. Qed.

(** A node that is hashed already. *)
Lemma hashed_result wr force h t d n :
  hashed_ok keccak force h t → (wr = true → stored keccak d t) → rep keccak d force n t → hash_result wr force t (HashN h, n) d.
Proof.
  intros (Hn & -> & Hsz) Hst Hr. split; [done|]. split.
  - intros Hw. specialize (Hst Hw). split; [|done]. split; [apply Hst|]. intros _ _. apply Hst.
  - cbn [fst]. destruct force; [done|]. destruct Hsz as [?|Hsz]; [done|].
    destruct (ref_cases keccak t Hn) as [[? _]|[_ ->]]; [lia|]. apply refers_hash.
Qed.

(** The end of [hash], when the children are done. *)
Lemma hash_end wr d force t collapsed cached f :
  flags_of collapsed = Some f → flags_of cached = Some f → refers collapsed (body keccak t) →
  is_node t = true → covered t → (wr = true → is_Some d) →
  flags_ok keccak d force f t → (wr = false → fhash f = None) → (wr = true → kids_stored keccak d t) →
  (∀ d' fl, grows d d' → flags_ok keccak d' force fl t → rep keccak d' force (reflag fl cached) t) →
  finishes wr d (hashed ← store keccak collapsed force; mret (hashed, set_cached wr hashed cached)) (hash_result wr force t).
Proof.
  intros Hf1 Hf2 Href Hn Hc Hd Hfl Hfresh Hkids Hrep. pose proof (covered_node t Hn Hc) as Hu.
  eapply finishes_bind; [apply (store_spec wr d collapsed f force t); try done|].
  { intros h Hh. unfold flags_ok in Hfl. rewrite Hh in Hfl. apply Hfl. }
  intros hashed d' (_ & _ & Hg) Hres. apply finishes_ret. rewrite (set_cached_reflag _ _ _ _ Hf2).
  destruct (bool_decide (len (blob keccak t) < 32) && negb force) eqn:Hsmall.
  - apply andb_true_iff in Hsmall as [Hs%bool_decide_eq_true ->%negb_true_iff]. destruct Hres as [-> ->]. split; [|split]; cbn [fst snd].
    + apply Hrep; [done|]. destruct collapsed; try done; unfold flags_ok; cbn [fhash dirty]; done.
    + intros Hw. split; [|done]. split; [by apply Hkids|]. intros _ ?. lia.
    + destruct (ref_cases keccak t Hn) as [[_ ->]|[? _]]; [done|lia].
  - destruct Hres as [-> Hst]. assert (force = true ∨ 32 ≤ len (blob keccak t)) as Hbig.
    { apply andb_false_iff in Hsmall as [Hs%bool_decide_eq_false|Hs%negb_false_iff]; [right; lia|by left]. }
    assert (wr = true → stored keccak d' t) as Hst'.
    { intros Hw. split; [by apply Hst|]. apply (kids_grow t d); [done..|by apply Hkids]. }
    apply hashed_result; [done|done|]. apply Hrep; [done|]. unfold flags_ok. cbn [fhash dirty]. split; [done|].
    destruct wr; [by intros _; apply Hst'|]. intros Hdirty. unfold flags_ok in Hfl. rewrite Hfresh in Hfl by done.
    destruct (Hfl Hdirty) as [-> ?]. destruct Hbig; [done|lia].
Qed.

Section Generation.
Context (hgen hlimit : Z).

Definition hash_ok (n : node) : Prop := ∀ force t wr d,
  rep keccak d force n t → tree_ok t → covered t → (wr = true → is_Some d) →
  finishes wr d (hash keccak hgen hlimit n force) (hash_result wr force t).

Lemma hash_unfold n force :
  hash keccak hgen hlimit n force =
  (c ← lift (cache n);
   d ← get;
   let continue :=
     r ← hashChildren (hash keccak hgen hlimit) n;
     hashed ← store keccak (fst r) force;
     mret (hashed, set_cached (writing d) hashed (snd r)) in
   match fst c with
   | Some h =>
     if negb (writing d) then mret (HashN h, n)
     else if canUnload n hgen hlimit then mret (HashN h, HashN h)
     else if negb (snd c) then mret (HashN h, n)
     else continue
   | None => continue
   end) :> M (option DB) (node * node).
Proof. by destruct n. Qed.

Lemma finishes_ext {A} wr d (m m' : M (option DB) A) Q : m (view wr d) = m' (view wr d) → finishes wr d m' Q → finishes wr d m Q.
Proof. intros Heq. unfold finishes. by rewrite Heq. Qed.

Lemma canUnload_clean n f : flags_of n = Some f → canUnload n hgen hlimit = true → dirty f = false.
Proof. by destruct n; try done; intros [= ->]; cbn [canUnload]; unfold flag_canUnload; destruct (dirty f). Qed.

(** A node with flags [f] is returned as it is, or its children come first. *)
Lemma hash_loaded n f force t wr d :
  flags_of n = Some f → rep keccak d force n t → flags_ok keccak d force f t → (wr = true → is_Some d) →
  ((wr = false → fhash f = None) →
   finishes wr d (r ← hashChildren (hash keccak hgen hlimit) n; hashed ← store keccak (fst r) force;
                  mret (hashed, set_cached wr hashed (snd r))) (hash_result wr force t)) →
  finishes wr d (hash keccak hgen hlimit n force) (hash_result wr force t).
Proof.
  intros Hf Hr Hfl Hd Hcont. rewrite hash_unfold.
  assert (cache n = Ret (fhash f, dirty f)) as -> by by destruct n; try done; injection Hf as ->.
  eapply finishes_ext; [unfold mbind at 1, M_bind at 1, lift, mbind at 1, M_bind at 1, get; rewrite writing_view by done; reflexivity|].
  cbn [fst snd]. unfold flags_ok in Hfl. destruct (fhash f) as [h|]; [|by apply Hcont]. destruct Hfl as [Hh Hst].
  destruct wr; cbn [negb]; [|apply finishes_ret; by apply hashed_result].
  destruct (canUnload n hgen hlimit) eqn:Hu.
  - pose proof (Hst (canUnload_clean _ _ Hf Hu)) as Hst'. apply finishes_ret. by apply hashed_result.
  - destruct (dirty f) eqn:Hdirty; cbn [negb]; [by apply Hcont|]. apply finishes_ret. apply hashed_result; [done|by intros _; apply Hst|done].
Qed.

Lemma hash_hash h : hash_ok (HashN h).
Proof.
  intros force t wr d Hr Hok Hc Hd. rewrite hash_unfold.
  apply (finishes_ext _ _ _ (mret (HashN h, HashN h))); [done|]. apply finishes_ret. destruct Hr as [Hh Hst]. by apply hashed_result.
Qed.

(** A child in its place: the node it collapses to, and the one that is kept. *)
Definition kid_result (wr : bool) (t : ptree) (r : node * node) (d' : option DB) : Prop :=
  refers (fst r) (shrink keccak (body keccak t)) ∧ rep keccak d' false (snd r) t ∧ (wr = true → kid_stored keccak d' t).

Lemma kid_result_grow wr t r d d' : grows d d' → covered t → kid_result wr t r d → kid_result wr t r d'.
Proof.
  intros Hg Hc (Hr & Hrep & Hk). split; [done|]. split; [by apply (rep_grow _ _ _ d)|]. intros Hw. by apply (kid_grow _ d), Hk.
Qed.

Lemma kid_value wr v d : kid_result wr (PVal v) (ValueN v, ValueN v) d.
Proof. done. Qed.

Lemma kid_hash wr t n d :
  hash_ok n → rep keccak d false n t → tree_ok t → covered t → (wr = true → is_Some d) →
  finishes wr d (hash keccak hgen hlimit n false) (kid_result wr t).
Proof.
  intros Hh Hr Hok Hc Hd. apply (finishes_mono wr d _ (hash_result wr false t)); [|by apply Hh].
  intros r d' (Hrep & Hk & Href). split; [done|]. split; [done|]. intros Hw. by apply Hk.
Qed.

Lemma hash_short k c f : hash_ok c → hash_ok (ShortN k c f).
Proof.
  intros IH force t wr d Hr Hok Hc Hd. pose proof Hr as (t' & -> & Hrc & Hfl)%rep_short.
  apply (hash_loaded _ f); try done. intros Hfresh. pose proof (covered_short _ _ Hc) as Hc'.
  assert (hexToCompact k = Ret (compact k)) as Hck.
  { apply compact_ok. destruct t'; try done; [apply hex_ok_term, Hok|constructor; apply Hok]. }
  assert (finishes wr d (match c with ValueN _ => mret (c, c) | _ => hash keccak hgen hlimit c false end) (kid_result wr t')) as Hkid.
  { destruct t' as [|v| |ts]; try done; [apply rep_val in Hrc as ->; by apply finishes_ret|].
    destruct Hok as (_ & _ & Hok). destruct c; try done; by apply kid_hash. }
  apply (finishes_bind wr d _ _ (λ r d', ∃ hv cv, r = (ShortN (compact k) hv f, ShortN k cv f) ∧ kid_result wr t' (hv, cv) d')).
  - cbn [hashChildren]. apply (finishes_bind wr d _ _ (λ ck d', ck = compact k ∧ d' = d)); [by apply (finishes_lift _ _ _ (compact k))|].
    intros ? ? _ [-> ->]. eapply finishes_bind; [exact Hkid|]. intros [hv cv] d' _ Hres. apply finishes_ret. exists hv, cv.
    split; [|done]. destruct Hres as [[Hne _] _]. by destruct hv.
  - intros ? d' (_ & Hs & Hg) (hv & cv & -> & Href & Hrep & Hkst). cbn [fst snd] in *.
    apply (hash_end _ _ _ (PShort k t') _ _ f); try done.
    + by apply refers_short.
    + intros Hw. apply Hs; [done|by apply Hd].
    + by apply (flags_grow _ _ _ d).
    + intros d2 fl Hg2 Hfl2. cbn [reflag]. apply rep_short. exists t'. split; [done|]. split; [by apply (rep_grow _ _ _ d')|done].
Qed.

(** The children of a branch, the last a value that stays. *)
Lemma hash_children_spec wr d cs ts l tl :
  Forall hash_ok cs → Forall2 (rep keccak d false) cs ts → Forall (λ t, t = PNil ∨ tree_ok t) ts → Forall covered ts →
  (l = NilN ∧ tl = PNil ∨ ∃ v, l = ValueN v ∧ tl = PVal v) → (wr = true → is_Some d) →
  finishes wr d (hash_children (hash keccak hgen hlimit) (length cs) (cs ++ [l]))
    (λ r d', ∃ rs, r = (map fst rs, map snd rs) ∧ Forall2 (λ r t, kid_result wr t r d') rs (ts ++ [tl])).
Proof.
  intros Hall Hf Hok Hcov Hl. revert d ts Hf Hok Hcov. induction Hall as [|c cs Hc _ IH]; intros d ts Hf Hok Hcov Hd.
  - apply Forall2_nil_inv_l in Hf as ->. cbn [length app hash_children]. apply finishes_ret.
    exists [(match l with NilN => ValueN [] | _ => l end, l)]. split; [done|]. constructor; [|constructor].
    destruct Hl as [[-> ->]|(v & -> & ->)]; done.
  - apply Forall2_cons_inv_l in Hf as (t & ts' & Hr & Hf & ->). apply Forall_cons in Hok as [Ht Hok]. apply Forall_cons in Hcov as [Hct Hcov].
    cbn [length app hash_children].
    apply (finishes_bind wr d _ _ (kid_result wr t)).
    { destruct Ht as [->|Ht]; [apply rep_nil in Hr as ->; by apply finishes_ret|].
      destruct c; try done; [by cbn in Hr; subst|by apply kid_hash..]. }
    intros r d1 (_ & Hs & Hg) Hres. eapply finishes_bind.
    { apply (IH d1 ts').
      - by apply (rep_grow_all _ _ d).
      - done.
      - done.
      - intros Hw. apply Hs; [done|by apply Hd]. }
    intros rs' d2 (_ & _ & Hg2) (rs & -> & Hrs). apply finishes_ret. exists (r :: rs). split; [done|].
    cbn [app]. constructor; [by apply (kid_result_grow _ _ _ d1)|done].
Qed.

Lemma hash_full cs f : Forall hash_ok cs → hash_ok (FullN cs f).
Proof.
  intros IH force t wr d Hr Hok Hc Hd. pose proof Hr as (ts & -> & Hrc & Hfl)%rep_full.
  apply (hash_loaded _ f); try done. intros Hfresh.
  destruct (tree_full_split ts Hok) as (ts0 & tl & -> & Hl & Hoks & Htl).
  apply Forall2_app_inv_r in Hrc as (cs0 & cl & Hrc & Hrl & ->). apply Forall2_cons_inv_r in Hrl as (l & ? & Hrl & Hnil & ->).
  apply Forall2_nil_inv_r in Hnil as ->. apply Forall_app in IH as [IH _].
  assert (Forall covered (ts0 ++ [tl])) as Hcov by (apply Forall_forall; intros t; by apply covered_full).
  assert (length cs0 = 16%nat) as Hl' by (apply Forall2_length in Hrc; congruence).
  apply (finishes_bind wr d _ _ (λ r d', ∃ rs, r = (FullN (map fst rs) f, FullN (map snd rs) f) ∧
    Forall2 (λ r t, kid_result wr t r d') rs (ts0 ++ [tl]))).
  { cbn [hashChildren]. eapply finishes_bind; [rewrite <-Hl'; apply (hash_children_spec wr d cs0 ts0 l tl); try done|].
    - by apply Forall_app in Hcov as [? _].
    - destruct Htl as [->|(v & -> & _)]; [left; split; [by eapply rep_nil|done]|right; exists v; split; [by eapply rep_val|done]].
    - intros ? d' _ (rs & -> & Hrs). apply finishes_ret. by exists rs. }
  intros ? d' (_ & Hs & Hg) (rs & -> & Hrs). cbn [fst snd] in *.
  apply (hash_end _ _ _ (PFull (ts0 ++ [tl])) _ _ f); try done.
  - apply refers_full. rewrite Forall2_fmap_l, Forall2_fmap_r. by eapply Forall2_impl; [exact Hrs|intros ? ? (? & _)].
  - intros Hw. apply Hs; [done|by apply Hd].
  - by apply (flags_grow _ _ _ d).
  - intros Hw. apply kids_full. clear -Hrs Hw. induction Hrs as [|r t rs ts (_ & _ & Hk) _ IH]; constructor; [by apply Hk|done].
  - intros d2 fl Hg2 Hfl2. cbn [reflag]. apply rep_full. eexists. split; [done|]. split; [|done].
    apply (rep_grow_all _ _ d'); [done..|]. apply Forall2_fmap_l. by eapply Forall2_impl; [exact Hrs|intros ? ? (_ & ? & _)].
Qed.

Lemma hash_spec n : hash_ok n.
Proof.
  revert n. apply (node_induction hash_ok).
  - intros force t wr d Hr Hok. cbn in Hr. by subst t.
  - intros v force t wr d Hr Hok. cbn in Hr. by subst t.
  - apply hash_hash.
  - apply hash_short.
  - apply hash_full.
Qed.
End Generation.
End Hash.
