(* ===== verification/TrieSpec.v ===== *)
(** What a trie promises: it is a map from byte strings to non-empty byte strings, its root hash
    is a function of the map, and a committed trie can be opened again from its root hash. *)
From S2P Require Import Prelude Bytes HexKeys Rlp RlpRaw TrieNode Trie TrieTree TrieRep TrieEdit TrieMap TrieHash.
Open Scope Z_scope.

(** ** Trees and maps *)
Lemma hex_term_key k : is_bytes k → term_key (keybytesToHex k).
Proof. intros Hk. rewrite keybytesToHex_unpack. exists (unpack k). split; [done|by apply unpack_nibbles]. Qed.

Lemma hex_inj k k' : is_bytes k → is_bytes k' → keybytesToHex k = keybytesToHex k' → k = k'.
Proof.
  intros Hk Hk'. rewrite !keybytesToHex_unpack. intros Heq. apply app_inj_tail in Heq as [Heq _].
  by rewrite <-(pack_unpack k), <-(pack_unpack k'), Heq.
Qed.

(** The tree, in canonical form, holds the entries of the map and nothing else. *)
Definition map_tree (m : gmap bytes bytes) (t : ptree) : Prop :=
  (t = PNil ∨ tree_ok t) ∧
  ∀ key v, plookup t key = Some v ↔ ∃ k, is_bytes k ∧ key = keybytesToHex k ∧ m !! k = Some v.

Definition byte_keys (m : gmap bytes bytes) : Prop := ∀ k v, m !! k = Some v → is_bytes k.

Lemma map_tree_empty : map_tree ∅ PNil.
Proof. split; [by left|]. intros key v. split; [done|]. by intros (k & _ & _ & ?%lookup_empty_Some). Qed.

Lemma map_tree_lookup m t k : map_tree m t → is_bytes k → plookup t (keybytesToHex k) = m !! k.
Proof.
  intros [_ Ht] Hk. apply option_eq. intros v. rewrite Ht. split; [|by exists k].
  intros (k' & Hk' & Heq & Hm). apply hex_inj in Heq; [by subst|done..].
Qed.

Lemma map_tree_sets m t k r t' :
  map_tree m t → is_bytes k → sets t (keybytesToHex k) r t' → t' = PNil ∨ tree_ok t' → map_tree (partial_alter (λ _, r) k m) t'.
Proof.
  intros [_ Ht] Hk Hs Hok. split; [done|]. intros key v. rewrite Hs. case_decide as Heq.
  - subst key. split.
    + intros ->. exists k. by rewrite lookup_partial_alter_eq.
    + intros (k' & Hk' & Heq & Hm). apply hex_inj in Heq as <-; [|done..]. by rewrite lookup_partial_alter_eq in Hm.
  - rewrite Ht. split; intros (k' & Hk' & -> & Hm); exists k'; (split; [done|]); (split; [done|]).
    + by rewrite lookup_partial_alter_ne by congruence.
    + by rewrite lookup_partial_alter_ne in Hm by congruence.
Qed.

Lemma map_tree_unique m t t' : map_tree m t → map_tree m t' → t = t'.
Proof.
  intros [Hok Ht] [Hok' Ht']. assert (same t t') as Hs by (intros key; apply option_eq; intros v; by rewrite Ht, Ht').
  assert (∀ t, tree_ok t → ¬ same t PNil) as Hne.
  { intros t1 H1 Hs1. destruct (proj1 (tree_inhabited t1) H1) as (k & v & Hl). by rewrite Hs1 in Hl. }
  destruct Hok as [->|Hok], Hok' as [->|Hok']; [done| | |by apply tree_ext].
  - destruct (Hne t' Hok'). intros key. by rewrite Hs.
  - by destruct (Hne t Hok).
Qed.

Lemma tree_map_unique m m' t : byte_keys m → byte_keys m' → map_tree m t → map_tree m' t → m = m'.
Proof.
  intros Hm Hm' [_ Ht] [_ Ht']. apply map_eq. intros k. apply option_eq. intros v. split; intros Hk.
  - assert (plookup t (keybytesToHex k) = Some v) as Hl by (apply Ht; exists k; eauto).
    apply Ht' in Hl as (k' & Hk' & Heq & Hl). apply hex_inj in Heq as <-; eauto.
  - assert (plookup t (keybytesToHex k) = Some v) as Hl by (apply Ht'; exists k; eauto).
    apply Ht in Hl as (k' & Hk' & Heq & Hl). apply hex_inj in Heq as <-; eauto.
Qed.

Lemma map_tree_place m t k : map_tree m t → is_bytes k → place t (keybytesToHex k).
Proof. intros [Hok _] Hk. right. split; [by apply hex_term_key|done]. Qed.

Section Spec.
Context {DB : Type} `{DatabaseLaws DB} (keccak : bytes → bytes) (keccak_len : ∀ b, len (keccak b) = 32).
Implicit Types (T : Trie DB) (m : gmap bytes bytes).

Definition models T m : Prop := byte_keys m ∧ ∃ t, rep keccak (db T) true (root T) t ∧ map_tree m t.

Lemma key_fuel_enough n k : (steps n k < key_fuel k)%nat.
Proof. unfold steps, key_fuel. destruct n; lia. Qed.

Lemma models_root T m n t : byte_keys m → rep keccak (db T) true n t → map_tree m t → models (set_root n T) m.
Proof. intros Hm Hr Ht. split; [done|]. by exists t. Qed.

Lemma byte_keys_alter m k r : byte_keys m → is_bytes k → byte_keys (partial_alter (λ _, r) k m).
Proof.
  intros Hm Hk k' v. destruct (decide (k' = k)) as [->|Hne]; [done|]. rewrite lookup_partial_alter_ne by done. apply Hm.
Qed.

Lemma TryGet_spec T m k : models T m → is_bytes k → ∃ T', TryGet k T = (Ret (m !! k), T') ∧ models T' m.
Proof.
  intros [Hm (t & Hr & Ht)] Hk. unfold TryGet.
  destruct (tryGet_spec keccak keccak_len (db T) (cachegen T) (key_fuel (keybytesToHex k)) true (root T) (keybytesToHex k) 0 t)
    as (n' & b & Hget & Hr'); [done..|by apply (map_tree_place m)|apply key_fuel_enough|].
  change (drop (Z.to_nat 0) (keybytesToHex k)) with (keybytesToHex k) in Hget. rewrite (map_tree_lookup m) in Hget by done.
  exists (if b then set_root n' T else T). split; [|destruct b; [by apply (models_root _ _ _ t)|by split; [|exists t]]].
  unfold mbind, M_bind, get, lift. cbn iota beta. rewrite Hget. by destruct b.
Qed.

Lemma TryDelete_spec T m k : models T m → is_bytes k → ∃ T', TryDelete k T = (Ret tt, T') ∧ models T' (base.delete k m).
Proof.
  intros [Hm (t & Hr & Ht)] Hk. unfold TryDelete.
  destruct (delete_spec keccak keccak_len (db T) (cachegen T) (key_fuel (keybytesToHex k)) true (root T) [] (keybytesToHex k) t)
    as (b & n' & t' & Hdel & Hr' & Hs & Hpl & _); [done|by apply (map_tree_place m)|apply key_fuel_enough|].
  exists (set_root n' T). split; [unfold mbind, M_bind, get, lift; cbn iota beta; by rewrite Hdel|].
  apply (models_root _ _ _ t'); [by apply byte_keys_alter|done|]. apply (map_tree_sets m t); [done..|].
  destruct Hpl as [[Hnil _]|[_ Hok]]; [|done]. by apply hex_term_key, term_key_nonempty in Hk.
Qed.

Definition updated (k v : bytes) m : gmap bytes bytes := if bool_decide (v = []) then base.delete k m else <[k := v]> m.

Lemma TryUpdate_spec T m k v : models T m → is_bytes k → ∃ T', TryUpdate k v T = (Ret tt, T') ∧ models T' (updated k v m).
Proof.
  intros Hmod Hk. unfold TryUpdate, updated. destruct (decide (v = [])) as [->|Hv].
  { destruct (TryDelete_spec T m k Hmod Hk) as (T' & Hd & Hm'). exists T'. split; [exact Hd|done]. }
  destruct Hmod as [Hm (t & Hr & Ht)]. rewrite (bool_decide_eq_false_2 (v = [])) by done.
  destruct (insert_spec keccak keccak_len (db T) (cachegen T) (key_fuel (keybytesToHex k)) true (root T) [] (keybytesToHex k) v t)
    as (b & n' & t' & Hins & Hr' & Hs & [Hpl _] & _); [done|by apply (map_tree_place m)|done|apply key_fuel_enough|].
  exists (set_root n' T). rewrite bool_decide_eq_true_2 by (destruct v; [done|unfold len; cbn [length]; lia]).
  split; [unfold mbind, M_bind, get, lift; cbn iota beta; by rewrite Hins|].
  apply (models_root _ _ _ t'); [by apply byte_keys_alter|done|]. apply (map_tree_sets m t); [done..|].
  destruct Hpl as [[Hnil _]|[_ Hok]]; [|done]. by apply hex_term_key, term_key_nonempty in Hk.
Qed.

(** ** Hashing and committing *)

(** The root hash of a tree. *)
Definition tree_root (t : ptree) : bytes := match t with PNil => emptyRoot | _ => keccak (blob keccak t) end.

Section Univ.
Context (univ : bytes → Prop)
  (univ_inj : ∀ a b, univ a → univ b → keccak a = keccak b → a = b)
  (univ_len : ∀ a, univ a → len a < 2 ^ 63).

Definition map_covered m : Prop := ∀ t, map_tree m t → covered keccak univ t.

Lemma tree_root_len t : len (tree_root t) = 32.
Proof. destruct t; [done|apply keccak_len..]. Qed.

Lemma hashRoot_spec T t wr :
  rep keccak (db T) true (root T) t → t = PNil ∨ tree_ok t → covered keccak univ t → (wr = true → is_Some (db T)) →
  finishes keccak univ wr (db T) (hashRoot keccak T) (λ r d',
    fst r = HashN (tree_root t) ∧ rep keccak d' true (snd r) t ∧ (wr = true → tree_ok t → stored keccak d' t)).
Proof.
  intros Hr Hok Hc Hd. unfold hashRoot. destruct Hok as [->|Hok].
  { rewrite (rep_nil _ _ _ _ Hr). by apply finishes_ret. }
  assert (tree_root t = keccak (blob keccak t)) as -> by by destruct t.
  pose proof (hash_spec keccak univ univ_inj univ_len (cachegen T) (cachelimit T) (root T) true t wr (db T) Hr Hok Hc Hd) as Hf.
  assert (match root T with NilN => mret (HashN emptyRoot, NilN) | _ => hash keccak (cachegen T) (cachelimit T) (root T) true end
    = hash keccak (cachegen T) (cachelimit T) (root T) true :> M (option DB) (node * node)) as ->.
  { destruct (root T) eqn:Heq; [|done..]. cbn in Hr. by subst t. }
  apply (finishes_mono keccak univ wr (db T) _ (hash_result keccak wr true t)); [|done].
  intros r d' (Hrep & Hst & Hh). split; [done|]. split; [done|]. intros Hw _. by apply (Hst Hw).
Qed.

(** [Hash] writes nothing, so nothing can fail. *)
Lemma Hash_spec T m t :
  models T m → map_tree m t → map_covered m → ∃ T', Hash keccak T = (Ret (tree_root t), T') ∧ models T' m ∧ db T' = db T.
Proof.
  intros [Hm (t' & Hr & Ht')] Ht Hcov. rewrite (map_tree_unique m t t' Ht Ht') in *. clear t Ht. rename t' into t, Ht' into Ht.
  destruct (hashRoot_spec T t false Hr (proj1 Ht) (Hcov t Ht)) as [([hashed cached] & d' & Hrun & (Hd & _ & _) & Hh & Hrep & _)|(? & _)];
    [done| |done].
  exists (set_root cached T). cbn [fst snd view] in *. rewrite Hd in Hrep by done. split; [|split; [by apply (models_root _ _ _ t)|done]].
    unfold Hash, mbind, M_bind, get. cbn beta iota. rewrite Hrun, Hh. cbn [fst].
    unfold lift, as_hash, modify. by rewrite BytesToHash_32 by apply tree_root_len.
Qed.

(** Either the database refuses a write, and the trie keeps its root, or the tree is in the
    database afterwards. *)
Lemma Commit_spec T m t d :
  models T m → map_tree m t → map_covered m → db T = Some d →
  (∃ e T', Commit keccak T = (Fail e, T') ∧ put_error e ∧ root T' = root T) ∨
  (∃ T', Commit keccak T = (Ret (tree_root t), T') ∧ models T' m ∧ is_Some (db T') ∧ (tree_ok t → stored keccak (db T') t)).
Proof.
  intros [Hm (t' & Hr & Ht')] Ht Hcov Hd. rewrite (map_tree_unique m t t' Ht Ht') in *. clear t Ht. rename t' into t, Ht' into Ht.
  destruct (hashRoot_spec T t true Hr (proj1 Ht) (Hcov t Ht))
    as [([hashed cached] & d' & Hrun & (_ & Hs & _) & Hh & Hrep & Hst)|(_ & e & d' & Hrun & He)]; [by rewrite Hd| |].
  - right. unfold Commit, CommitTo. rewrite Hd. cbn [fst snd view] in *. rewrite Hd in Hrun. rewrite Hrun, Hh. cbn [as_hash].
    rewrite BytesToHash_32 by apply tree_root_len. destruct (Hs eq_refl) as [db' ->]; [by rewrite Hd|]. cbn [default].
    eexists. split; [done|]. split; [split; [done|by exists t]|]. split; [done|]. by apply Hst.
  - left. unfold Commit, CommitTo. rewrite Hd. cbn [view] in *. rewrite Hd in Hrun. rewrite Hrun. by eexists _, _.
Qed.

(** ** The root hash *)

(** Hashes of nodes are not the two values that stand for the empty trie. *)
Context (univ_root : ∀ b, univ b → keccak b ≠ emptyRoot ∧ keccak b ≠ zeroHash).

Lemma tree_root_inj m m' t t' :
  map_tree m t → map_tree m' t' → map_covered m → map_covered m' → tree_root t = tree_root t' → t = t'.
Proof.
  intros Ht Ht' Hc Hc' Heq. pose proof (Hc t Ht) as Hct. pose proof (Hc' t' Ht') as Hct'.
  assert (∀ t, tree_ok t → is_node t = true) as Hnode by by destruct t0.
  destruct Ht as [[->|Hok] _], Ht' as [[->|Hok'] _]; [done| | |].
  - destruct (univ_root (blob keccak t')) as [Hne _]; [by apply covered_node; [apply Hnode|]|]. by destruct t'.
  - destruct (univ_root (blob keccak t)) as [Hne _]; [by apply covered_node; [apply Hnode|]|]. by destruct t.
  - assert (keccak (blob keccak t) = keccak (blob keccak t')) as Hk by by destruct t, t'.
    apply univ_inj in Hk; [|by apply covered_node; [apply Hnode|]..]. by apply (blob_inj keccak keccak_len univ).
Qed.
End Univ.
End Spec.
