(* ===== verification/TrieProps.v ===== *)
(** The trie against its abstract specification, a map with a root hash. *)
From S2P Require Import Prelude Bytes HexKeys Rlp RlpRaw TrieNode Trie TrieTree TrieRep TrieEdit TrieMap TrieHash TrieSpec.
Open Scope Z_scope.

(** ** The hash function *)

(** What is asked of Keccak-256 on the encodings [univ] that a run meets: hashes of 32 bytes that
    do not collide and are not those that stand for the empty trie.  Encodings are Go slices. *)
Class GoodHash (keccak : bytes → bytes) (univ : bytes → Prop) : Prop := {
  hash_len b : len (keccak b) = 32;
  hash_inj a b : univ a → univ b → keccak a = keccak b → a = b;
  enc_len a : univ a → len a < 2 ^ 63;
  hash_root b : univ b → keccak b ≠ emptyRoot ∧ keccak b ≠ zeroHash }.

(** ** Calls *)
Inductive trie_op :=
  | OGet (k : bytes) | OUpdate (k v : bytes) | ODelete (k : bytes) | OHash | OCommit.
Inductive answer := ADone | AValue (v : option bytes) | ARoot (h : bytes).

Section Props.
Context {DB : Type} `{DatabaseLaws DB} (keccak : bytes → bytes) (univ : bytes → Prop) `{GH : !GoodHash keccak univ}.
Implicit Types (T : Trie DB) (m : gmap bytes bytes).

Definition exec (o : trie_op) : M (Trie DB) answer :=
  match o with
  | OGet k => v ← TryGet k; mret (AValue v)
  | OUpdate k v => TryUpdate k v ;; mret ADone
  | ODelete k => TryDelete k ;; mret ADone
  | OHash => h ← Hash keccak; mret (ARoot h)
  | OCommit => h ← Commit keccak; mret (ARoot h)
  end.

Fixpoint exec_all (os : list trie_op) : M (Trie DB) (list answer) :=
  match os with
  | [] => mret []
  | o :: os => a ← exec o; rest ← exec_all os; mret (a :: rest)
  end.

(** ** The specification *)
Definition post (o : trie_op) m : gmap bytes bytes :=
  match o with
  | OUpdate k v => updated k v m
  | ODelete k => base.delete k m
  | _ => m
  end.

Definition answers (o : trie_op) m (a : answer) : Prop :=
  match o with
  | OGet k => a = AValue (m !! k)
  | OUpdate _ _ | ODelete _ => a = ADone
  | OHash | OCommit => ∃ t, map_tree m t ∧ a = ARoot (tree_root keccak t)
  end.

Fixpoint answers_all (os : list trie_op) m (l : list answer) : Prop :=
  match os, l with
  | [], [] => True
  | o :: os, a :: l => answers o m a ∧ answers_all os (post o m) l
  | _, _ => False
  end.

(** Keys are bytes, and the hash is good for what is hashed. *)
Definition op_ok (o : trie_op) m : Prop :=
  match o with
  | OGet k | OUpdate k _ | ODelete k => is_bytes k
  | OHash | OCommit => map_covered keccak univ m
  end.

Fixpoint ops_ok (os : list trie_op) m : Prop :=
  match os with [] => True | o :: os => op_ok o m ∧ ops_ok os (post o m) end.

(** The database accepts every write. *)
Definition accepting : Prop := ∀ (d : DB) k v, fst (db_Put d k v) = None.

Lemma TryGet_db k T : db (snd (TryGet k T)) = db T.
Proof.
  unfold TryGet, mbind, M_bind, get, lift. cbn beta iota.
  destruct (tryGet _ _ _ _ _ _) as [[[v n] [|]]|e|w|]; done.
Qed.

Lemma TryDelete_db k T : db (snd (TryDelete k T)) = db T.
Proof. unfold TryDelete, mbind, M_bind, get, lift. cbn beta iota. by destruct (delete _ _ _ _ _ _) as [[b n]|e|w|]. Qed.

Lemma TryUpdate_db k v T : db (snd (TryUpdate k v T)) = db T.
Proof.
  unfold TryUpdate, mbind, M_bind, get, lift. cbn beta iota. case_bool_decide.
  - by destruct (insert _ _ _ _ _ _ _) as [[b n]|e|w|].
  - by destruct (delete _ _ _ _ _ _) as [[b n]|e|w|].
Qed.

Lemma exec_spec o T m :
  accepting → models keccak T m → is_Some (db T) → op_ok o m →
  ∃ a T', exec o T = (Ret a, T') ∧ answers o m a ∧ models keccak T' (post o m) ∧ is_Some (db T').
Proof.
  intros Hacc Hmod Hdb Hok. pose proof Hmod as [_ (t & _ & Ht)]. destruct o as [k|k v|k| |]; cbn [exec post answers op_ok] in *.
  - destruct (TryGet_spec keccak hash_len T m k Hmod Hok) as (T' & Hrun & Hm'). pose proof (TryGet_db k T) as Hd. rewrite Hrun in Hd. cbn in Hd.
    exists (AValue (m !! k)), T'. rewrite (run_bind_Ret _ _ _ _ _ Hrun), Hd. done.
  - destruct (TryUpdate_spec keccak hash_len T m k v Hmod Hok) as (T' & Hrun & Hm'). pose proof (TryUpdate_db k v T) as Hd. rewrite Hrun in Hd. cbn in Hd.
    exists ADone, T'. rewrite (run_bind_Ret _ _ _ _ _ Hrun), Hd. done.
  - destruct (TryDelete_spec keccak hash_len T m k Hmod Hok) as (T' & Hrun & Hm'). pose proof (TryDelete_db k T) as Hd. rewrite Hrun in Hd. cbn in Hd.
    exists ADone, T'. rewrite (run_bind_Ret _ _ _ _ _ Hrun), Hd. done.
  - destruct (Hash_spec keccak hash_len univ hash_inj enc_len T m t Hmod Ht Hok) as (T' & Hrun & Hm' & Hd).
    exists (ARoot (tree_root keccak t)), T'. rewrite (run_bind_Ret _ _ _ _ _ Hrun), Hd. by eauto 10.
  - destruct Hdb as [d Hd].
    destruct (Commit_spec keccak hash_len univ hash_inj enc_len T m t d Hmod Ht Hok Hd) as [(e & T' & _ & (d0 & k & v & d1 & Hp) & _)|(T' & Hrun & Hm' & Hd' & _)].
    { specialize (Hacc d0 k v). by rewrite Hp in Hacc. }
    exists (ARoot (tree_root keccak t)), T'. rewrite (run_bind_Ret _ _ _ _ _ Hrun). by eauto 10.
Qed.

Lemma exec_all_spec os T m :
  accepting → models keccak T m → is_Some (db T) → ops_ok os m →
  ∃ l T', exec_all os T = (Ret l, T') ∧ answers_all os m l ∧ models keccak T' (foldl (λ m o, post o m) m os).
Proof.
  intros Hacc. revert T m. induction os as [|o os IH]; intros T m Hmod Hdb Hok; [by exists [], T|]. destruct Hok as [Ho Hok].
  destruct (exec_spec o T m Hacc Hmod Hdb Ho) as (a & T1 & Hrun & Ha & Hmod1 & Hdb1).
  destruct (IH T1 (post o m) Hmod1 Hdb1 Hok) as (l & T2 & Hrun2 & Hl & Hmod2). exists (a :: l), T2.
  cbn [exec_all]. rewrite (run_bind_Ret _ _ _ _ _ Hrun), (run_bind_Ret _ _ _ _ _ Hrun2). done.
Qed.

Lemma models_empty d : models keccak (mkTrie NilN (Some d) emptyRoot 0 0) ∅.
Proof. split; [by intros k v ?%lookup_empty_Some|]. exists PNil. split; [done|apply map_tree_empty]. Qed.

Lemma New_spec m t (d : option DB) :
  byte_keys m → map_tree m t → map_covered keccak univ m → is_Some d → (tree_ok t → stored keccak d t) →
  ∃ T, New (tree_root keccak t) d = Ret T ∧ models keccak T m.
Proof.
  intros Hb Ht Hc [d' ->] Hst. unfold New. pose proof Ht as [[->|Hok] _].
  - rewrite bool_decide_eq_false_2 by (cbn [tree_root]; naive_solver). eexists. split; [done|]. split; [done|]. by exists PNil.
  - assert (tree_root keccak t = keccak (blob keccak t) ∧ is_node t = true) as [-> Hn] by by destruct t.
    destruct (hash_root (blob keccak t)) as [He Hz]; [by apply covered_node; [|apply Hc]|]. rewrite bool_decide_eq_true_2 by done.
    destruct (resolveHash_spec keccak (Some d') hash_len 0 (keccak (blob keccak t)) [] t true Hok) as (n & Hres & Hr & _).
    { split; [by split_and!; [..|left]|by apply Hst]. }
    rewrite Hres. eexists. split; [done|]. split; [done|]. exists t. by split.
Qed.

(** C21: a trie is a map.  A new trie is the empty map; from any trie that holds a map, every
    sequence of [TryGet], [TryUpdate], [TryDelete], [Hash] and [Commit] ends without error, gives
    the answers the map gives (an update with an empty value deletes; the root hash is that of
    the canonical tree of the map) and leaves a trie that holds the map the sequence leads to,
    whatever mixture of loaded, hashed and cached nodes it passes through.  Keys are bytes, the
    database accepts every write, and the hash has no collision among the nodes that are hashed. *)
Theorem trie_refines_map os T m d :
  accepting → models keccak T m → is_Some (db T) → ops_ok os m →
  (∃ T0, New emptyRoot (Some d) = Ret T0 ∧ models keccak T0 ∅) ∧
  ∃ l T', exec_all os T = (Ret l, T') ∧ answers_all os m l ∧ models keccak T' (foldl (λ m o, post o m) m os).
Proof.
  intros Hacc Hmod Hdb Hok. split; [|by apply exec_all_spec].
  eexists. split; [done|]. apply models_empty.
Qed.

(** C22: the root hash is a fingerprint of the contents.  Two tries, whatever their histories
    and databases, have the same root hash exactly when they hold the same map, provided that the
    hash has no collision among the encodings of their nodes. *)
Theorem root_hash_fingerprint T T' m m' :
  models keccak T m → models keccak T' m' → map_covered keccak univ m → map_covered keccak univ m' →
  ∃ h h', fst (Hash keccak T) = Ret h ∧ fst (Hash keccak T') = Ret h' ∧ (h = h' ↔ m = m').
Proof.
  intros Hmod Hmod' Hc Hc'. pose proof Hmod as [Hb (t & _ & Ht)]. pose proof Hmod' as [Hb' (t' & _ & Ht')].
  destruct (Hash_spec keccak hash_len univ hash_inj enc_len T m t Hmod Ht Hc) as (T1 & -> & _).
  destruct (Hash_spec keccak hash_len univ hash_inj enc_len T' m' t' Hmod' Ht' Hc') as (T2 & -> & _).
  eexists _, _. split; [done|]. split; [done|]. split.
  - intros Heq. apply (tree_root_inj keccak hash_len univ hash_inj enc_len hash_root m m') in Heq as <-; [|done..].
    by apply (tree_map_unique m m' t).
  - intros <-. by rewrite (map_tree_unique m t t').
Qed.

(** C23: commit and reopen.  [Commit] either reports an error of the database and keeps the
    root, or returns a root hash from which [New], on the database it leaves, opens a trie that
    holds the same map.  The hash has no collision among the encodings of the nodes. *)
Theorem commit_reopen T m d :
  models keccak T m → db T = Some d → map_covered keccak univ m →
  (∃ e T', Commit keccak T = (Fail e, T') ∧ put_error e ∧ root T' = root T) ∨
  (∃ h T' T2, Commit keccak T = (Ret h, T') ∧ models keccak T' m ∧ New h (db T') = Ret T2 ∧ models keccak T2 m).
Proof.
  intros Hmod Hd Hc. pose proof Hmod as [Hb (t & _ & Ht)].
  destruct (Commit_spec keccak hash_len univ hash_inj enc_len T m t d Hmod Ht Hc Hd) as [Hfail|(T' & Hrun & Hmod' & Hd' & Hst)]; [by left|right].
  destruct (New_spec m t (db T') Hb Ht Hc Hd' Hst) as (T2 & Hnew & Hmod2). by exists (tree_root keccak t), T', T2.
Qed.
End Props.

(** ** A concrete run *)
Module Example_.
Definition toy (b : bytes) : bytes := take 32 (b ++ replicate 32 0).
Definition leaf : ptree := PShort (keybytesToHex [1]) (PVal [7]).
Definition met (b : bytes) : Prop := b ∈ blobs toy leaf.

Definition leaf_blob : bytes := Eval vm_compute in blob toy leaf.

Lemma met_leaf b : met b → b = leaf_blob.
Proof.
  unfold met. assert (blobs toy leaf = [leaf_blob]) as -> by (vm_compute; reflexivity). by intros ->%list_elem_of_singleton.
Qed.

#[export] Instance toy_good : GoodHash toy met.
Proof.
  split.
  - intros b. unfold toy, len. rewrite length_take, length_app, length_replicate. lia.
  - by intros a b ->%met_leaf ->%met_leaf.
  - intros a ->%met_leaf. vm_compute. reflexivity.
  - intros a ->%met_leaf. split; decided.
Qed.

Lemma map_covered_tree m t : map_tree m t → covered toy met t → map_covered toy met m.
Proof. intros Ht Hc t' Ht'. by rewrite (map_tree_unique m t' t). Qed.

Lemma empty_covered : map_covered toy met ∅.
Proof. apply (map_covered_tree _ PNil); [apply map_tree_empty|]. by intros b ?%elem_of_nil. Qed.

Lemma leaf_tree : map_tree (<[[1] := [7]]> ∅) leaf.
Proof.
  apply (map_tree_sets ∅ PNil [1] (Some [7]) leaf); [apply map_tree_empty|repeat constructor; decided|apply sets_leaf|].
  right. split; [|done]. apply hex_term_key. repeat constructor; decided.
Qed.

Lemma leaf_covered : map_covered toy met (<[[1] := [7]]> ∅).
Proof. apply (map_covered_tree _ leaf); [apply leaf_tree|]. by intros b. Qed.

Definition T0 : Trie (gmap bytes bytes) := mkTrie NilN (Some ∅) emptyRoot 0 0.
Definition calls : list trie_op := [OUpdate [1] [7]; OGet [1]; OHash; OCommit; ODelete [1]; OGet [1]; OHash].

Lemma calls_ok : ops_ok toy met calls ∅.
Proof.
  repeat split; try (repeat constructor; decided); try apply leaf_covered. 
  change (map_covered toy met (base.delete [1] (<[[1] := [7]]> ∅))). rewrite delete_insert_eq. apply empty_covered.
Qed.

(** The answers of the map to the calls. *)
Lemma calls_answers l : answers_all toy calls ∅ l → nth 1 l ADone = AValue (Some [7]) ∧ nth 5 l ADone = AValue None.
Proof.
  intros Hl. destruct l as [|a0 l]; [destruct Hl|]. destruct Hl as [_ Hl]. destruct l as [|a1 l]; [destruct Hl|].
  destruct Hl as [-> Hl]. do 3 (destruct l as [|? l]; [destruct Hl|]; destruct Hl as [_ Hl]).
  destruct l as [|a5 l]; [destruct Hl|]. destruct Hl as [Ha _]. split; [reflexivity|]. exact Ha.
Qed.

Lemma trie_refines_map_witness :
  ∃ l T', exec_all toy calls T0 = (Ret l, T') ∧ nth 1 l ADone = AValue (Some [7]) ∧ nth 5 l ADone = AValue None.
Proof.
  destruct (trie_refines_map toy met calls T0 ∅ ∅) as [_ (l & T' & Hrun & Hl & _)]; [by intros d k v|apply models_empty|by exists ∅|apply calls_ok|].
  exists l, T'. split; [exact Hrun|]. by apply calls_answers.
Defined.

(** The trie with the leaf. *)
Definition T1 : Trie (gmap bytes bytes) := mkTrie (ShortN (keybytesToHex [1]) (ValueN [7]) (newFlag 0)) (Some ∅) emptyRoot 0 0.

Lemma T1_models : models toy T1 (<[[1] := [7]]> ∅).
Proof.
  split; [|exists leaf; split; [|apply leaf_tree]].
  - intros k v [[<- _]|[_ ?%lookup_empty_Some]]%lookup_insert_Some; [repeat constructor; decided|done].
  - by repeat split.
Qed.

Lemma root_hash_fingerprint_witness : ∃ h h', fst (Hash toy T0) = Ret h ∧ fst (Hash toy T1) = Ret h' ∧ h ≠ h'.
Proof.
  destruct (root_hash_fingerprint toy met T0 T1 ∅ (<[[1] := [7]]> ∅)) as (h & h' & Hh & Hh' & Heq);
    [apply models_empty|apply T1_models|apply empty_covered|apply leaf_covered|].
  exists h, h'. split; [exact Hh|]. split; [exact Hh'|]. intros E. apply Heq in E. by apply (insert_non_empty (M := gmap bytes) ∅ [1] [7]).
Defined.

Lemma commit_reopen_witness :
  ∃ h T' T2, Commit toy T1 = (Ret h, T') ∧ New h (db T') = Ret T2 ∧ models toy T2 (<[[1] := [7]]> ∅).
Proof.
  destruct (commit_reopen toy met T1 (<[[1] := [7]]> ∅) ∅) as [(e & T' & Hrun & _)|(h & T' & T2 & Hrun & _ & Hnew & Hm)];
    [apply T1_models|reflexivity|apply leaf_covered|vm_compute in Hrun; congruence|].
  exists h, T', T2. split; [exact Hrun|]. by split.
Defined.
End Example_.
