(* ===== verification/SecureTrie.v ===== *)
(** [trie/secure_trie.go]: a trie whose keys are hashed, with a cache of the preimages. *)
From S2P Require Import Prelude Bytes HexKeys TrieNode Trie.
Open Scope Z_scope.

Module Secure.
Section Secure.
Context {DB : Type} `{Database DB} `{RangeOrder} (keccak : bytes → bytes).

(** The two buffers of the code hold values that are not used after the next call.  [owned] is
    whether [secKeyCacheOwner] points to the trie itself: the cache of a copy is another's. *)
Record SecureTrie := mkSecure { trie : Trie DB; secKeyCache : gmap bytes bytes; owned : bool }.

Definition set_trie (t : Trie DB) (s : SecureTrie) : SecureTrie := mkSecure t (secKeyCache s) (owned s).
Definition set_cache (c : gmap bytes bytes) (s : SecureTrie) : SecureTrie := mkSecure (trie s) c (owned s).

(** "secure-key-" *)
Definition secureKeyPrefix : bytes := [115; 101; 99; 117; 114; 101; 45; 107; 101; 121; 45].

Definition secKey (key : bytes) : bytes := secureKeyPrefix ++ key.

Definition hashKey (key : bytes) : bytes := keccak key.

Definition getSecKeyCache : M SecureTrie (gmap bytes bytes) :=
  t ← get;
  if owned t then mret (secKeyCache t)
  else modify (λ t, mkSecure (trie t) ∅ true) ;; mret ∅.

Definition NewSecure (root : bytes) (db : option DB) (cachelimit : Z) : outcome SecureTrie :=
  match db with
  | None => Panic "NewSecure called with nil database"
  | Some _ => t ← New root db; Ret (mkSecure (SetCacheLimit cachelimit t) ∅ false)
  end.

Definition TryGet (key : bytes) : M SecureTrie (option bytes) := zoom trie set_trie (Trie.TryGet (hashKey key)).

Definition TryUpdate (key value : bytes) : M SecureTrie unit :=
  zoom trie set_trie (Trie.TryUpdate (hashKey key) value) ;;
  c ← getSecKeyCache;
  modify (set_cache (<[hashKey key := key]> c)).

Definition TryDelete (key : bytes) : M SecureTrie unit :=
  c ← getSecKeyCache;
  modify (set_cache (base.delete (hashKey key) c)) ;;
  zoom trie set_trie (Trie.TryDelete (hashKey key)).

(** [Get], [Update] and [Delete] log an error and go on. *)
Definition Get (key : bytes) : M SecureTrie (option bytes) :=
  r ← try (TryGet key); mret (match r with inr v => v | inl _ => None end).
Definition Update (key value : bytes) : M SecureTrie unit := try (TryUpdate key value) ;; mret tt.
Definition Delete (key : bytes) : M SecureTrie unit := try (TryDelete key) ;; mret tt.

Definition GetKey (shaKey : bytes) : M SecureTrie (option bytes) :=
  c ← getSecKeyCache;
  match c !! shaKey with
  | Some key => mret (Some key)
  | None =>
    t ← get;
    match db (trie t) with
    | Some d => mret (db_Get d (secKey shaKey))
    | None => panic "nil pointer dereference"
    end
  end.

Definition Hash : M SecureTrie bytes := zoom trie set_trie (Trie.Hash keccak).

Definition Copy (t : SecureTrie) : SecureTrie := mkSecure (trie t) (secKeyCache t) false.

(** The preimages are written, in the order of the map. *)
Definition put_keys (l : list (bytes * bytes)) : M DB unit :=
  for_each (λ '(hk, key) d,
    match db_Put d (secKey hk) key with
    | (None, d') => (Ret tt, d')
    | (Some e, d') => (Fail e, d')
    end) l.

Definition CommitTo : M (SecureTrie * DB) bytes :=
  c ← zoom fst (λ t s, (t, snd s)) getSecKeyCache;
  (if bool_decide (c = ∅) then mret tt
   else
     zoom snd (λ d s, (fst s, d)) (put_keys (range c)) ;;
     modify (λ s, (set_cache ∅ (fst s), snd s))) ;;
  zoom (λ s, (trie (fst s), snd s)) (λ r s, (set_trie (fst r) (fst s), snd r)) (Trie.CommitTo keccak).

Definition Commit : M SecureTrie bytes := λ t,
  match db (trie t) with
  | None => (Panic "nil pointer dereference", t)
  | Some d =>
    let '(o, (t', d')) := CommitTo (t, d) in
    (o, set_trie (mkTrie (root (trie t')) (Some d') (originalRoot (trie t')) (cachegen (trie t')) (cachelimit (trie t'))) t')
  end.
End Secure.
Arguments SecureTrie : clear implicits.
End Secure.
