(* ===== verification/State.v ===== *)
(** [state/journal.go], [state/state_object.go], [state/statedb.go]: accounts on top of a trie,
    with a journal of changes that can be undone.

    The tries, the database and Keccak-256 are interfaces of the code.  A state object is
    reached through one pointer, that of the map of live objects; methods of an object take it
    and answer it as they leave it, and the caller files it again. *)
From S2P Require Import Prelude Bytes HexKeys Rlp RlpRaw RlpStream TrieNode.
Open Scope Z_scope.

(** ** Interfaces ([state/database.go]) *)
Class StateTrie (TR : Type) := {
  TryGet : bytes → M TR (option bytes);
  TryUpdate : bytes → bytes → M TR unit;
  TryDelete : bytes → M TR unit;
  Hash : M TR bytes }.

(** What a database caches is not seen through its interface. *)
Class StateDatabase (SDB TR : Type) := {
  OpenTrie : SDB → bytes → outcome TR;
  OpenStorageTrie : SDB → bytes → bytes → outcome TR;
  CopyTrie : SDB → TR → TR;
  ContractCode : SDB → bytes → bytes → outcome bytes;
  ContractCodeSize : SDB → bytes → bytes → outcome Z }.

(** Where tries and code are written to. *)
Class Writer (TR W : Type) := {
  Put : W → bytes → bytes → option gerror * W;
  trie_CommitTo : M (TR * W) bytes }.

(** ** Accounts and objects *)
Record Account := mkAccount { Nonce : Z; Balance : Z; Root : bytes; CodeHash : bytes }.

(** The type [rlp] finds by reflection, and the value it encodes. *)
Definition account_type : gtype :=
  TStruct [("Nonce", TUint 64); ("Balance", TBigInt); ("Root", TByteArray 32); ("CodeHash", TBytes)].
Definition account_gval (a : Account) : gval :=
  GStruct [GUint (Nonce a); GBigInt (Some (Balance a)); GBytes (Root a); GBytes (CodeHash a)].
Definition account_of (v : gval) : option Account :=
  match v with
  | GStruct [GUint n; GBigInt (Some b); GBytes r; GBytes c] => Some (mkAccount n b r c)
  | _ => None
  end.

Record Log := mkLog {
  l_Address : bytes; Topics : list bytes; Data : bytes; BlockNumber : Z;
  TxHash : bytes; TxIndex : Z; BlockHash : bytes; Index : Z; Removed : bool }.

Section State.
Context {SDB TR : Type} `{StateTrie TR} `{StateDatabase SDB TR} `{RangeOrder} (keccak : bytes → bytes).

Definition emptyCodeHash : bytes := keccak [].
Definition zero : bytes := replicate 32 0.

(** [onDirty] is whether the callback is set: it is [MarkStateObjectDirty] of the state.  [code]
    may be nil. *)
Record stateObject := mkObject {
  address : bytes; addrHash : bytes; data : Account; obj_dbErr : option gerror;
  obj_trie : option TR; code : option bytes; cachedStorage : gmap bytes bytes; dirtyStorage : gmap bytes bytes;
  dirtyCode : bool; suicided : bool; touched : bool; deleted : bool; onDirty : bool }.

Definition set_data (a : Account) (o : stateObject) : stateObject :=
  mkObject (address o) (addrHash o) a (obj_dbErr o) (obj_trie o) (code o) (cachedStorage o) (dirtyStorage o)
           (dirtyCode o) (suicided o) (touched o) (deleted o) (onDirty o).
Definition set_obj_trie (t : TR) (o : stateObject) : stateObject :=
  mkObject (address o) (addrHash o) (data o) (obj_dbErr o) (Some t) (code o) (cachedStorage o) (dirtyStorage o)
           (dirtyCode o) (suicided o) (touched o) (deleted o) (onDirty o).
Definition set_code (c : option bytes) (d : bool) (o : stateObject) : stateObject :=
  mkObject (address o) (addrHash o) (data o) (obj_dbErr o) (obj_trie o) c (cachedStorage o) (dirtyStorage o)
           d (suicided o) (touched o) (deleted o) (onDirty o).
Definition set_storage (c d : gmap bytes bytes) (o : stateObject) : stateObject :=
  mkObject (address o) (addrHash o) (data o) (obj_dbErr o) (obj_trie o) (code o) c d
           (dirtyCode o) (suicided o) (touched o) (deleted o) (onDirty o).
Definition set_flags (su to de di : bool) (o : stateObject) : stateObject :=
  mkObject (address o) (addrHash o) (data o) (obj_dbErr o) (obj_trie o) (code o) (cachedStorage o) (dirtyStorage o)
           (dirtyCode o) su to de di.

(** The first error is kept. *)
Definition obj_setError (e : option gerror) (o : stateObject) : stateObject :=
  mkObject (address o) (addrHash o) (data o) (match obj_dbErr o with None => e | e' => e' end) (obj_trie o) (code o)
           (cachedStorage o) (dirtyStorage o) (dirtyCode o) (suicided o) (touched o) (deleted o) (onDirty o).

(** [None] is [Account{}], with a nil balance and a nil code hash. *)
Definition newObject (addr : bytes) (d : option Account) (cb : bool) : stateObject :=
  let d := match d with Some d => d | None => mkAccount 0 0 zero emptyCodeHash end in
  mkObject addr (keccak addr) d None None None ∅ ∅ false false false false cb.

Definition empty (o : stateObject) : bool :=
  bool_decide (Nonce (data o) = 0) && bool_decide (Balance (data o) = 0) && bool_decide (CodeHash (data o) = emptyCodeHash).

(** ** The state *)
Inductive journalEntry :=
  | createObjectChange (account : bytes)
  | resetObjectChange (prev : stateObject)
  | suicideChange (account : bytes) (prev : bool) (prevbalance : Z)
  | balanceChange (account : bytes) (prev : Z)
  | nonceChange (account : bytes) (prev : Z)
  | storageChange (account key prevalue : bytes)
  | codeChange (account : bytes) (prevcode : option bytes) (prevhash : bytes)
  | refundChange (prev : Z)
  | addLogChange (txhash : bytes)
  | addPreimageChange (hash : bytes)
  | touchChange (account : bytes) (prev prevDirty : bool).

(** A revision is its number and an index into the journal. *)
Record StateDB := mkState {
  db : SDB; trie : TR; stateObjects : gmap bytes stateObject; stateObjectsDirty : gmap bytes unit;
  dbErr : option gerror; refund : Z; thash : bytes; bhash : bytes; txIndex : Z;
  logs : gmap bytes (list Log); logSize : Z; preimages : gmap bytes bytes;
  journal : list journalEntry; validRevisions : list (Z * Z); nextRevisionId : Z }.

Definition set_objects (m : gmap bytes stateObject) (d : gmap bytes unit) (s : StateDB) : StateDB :=
  mkState (db s) (trie s) m d (dbErr s) (refund s) (thash s) (bhash s) (txIndex s) (logs s) (logSize s) (preimages s)
          (journal s) (validRevisions s) (nextRevisionId s).
Definition set_trie (t : TR) (s : StateDB) : StateDB :=
  mkState (db s) t (stateObjects s) (stateObjectsDirty s) (dbErr s) (refund s) (thash s) (bhash s) (txIndex s) (logs s) (logSize s)
          (preimages s) (journal s) (validRevisions s) (nextRevisionId s).
Definition set_refund (r : Z) (s : StateDB) : StateDB :=
  mkState (db s) (trie s) (stateObjects s) (stateObjectsDirty s) (dbErr s) r (thash s) (bhash s) (txIndex s) (logs s) (logSize s)
          (preimages s) (journal s) (validRevisions s) (nextRevisionId s).
Definition set_logs (l : gmap bytes (list Log)) (n : Z) (s : StateDB) : StateDB :=
  mkState (db s) (trie s) (stateObjects s) (stateObjectsDirty s) (dbErr s) (refund s) (thash s) (bhash s) (txIndex s) l n
          (preimages s) (journal s) (validRevisions s) (nextRevisionId s).
Definition set_preimages (p : gmap bytes bytes) (s : StateDB) : StateDB :=
  mkState (db s) (trie s) (stateObjects s) (stateObjectsDirty s) (dbErr s) (refund s) (thash s) (bhash s) (txIndex s) (logs s) (logSize s)
          p (journal s) (validRevisions s) (nextRevisionId s).
Definition set_journal (j : list journalEntry) (v : list (Z * Z)) (n : Z) (s : StateDB) : StateDB :=
  mkState (db s) (trie s) (stateObjects s) (stateObjectsDirty s) (dbErr s) (refund s) (thash s) (bhash s) (txIndex s) (logs s) (logSize s)
          (preimages s) j v n.

Definition setError (e : option gerror) (s : StateDB) : StateDB :=
  mkState (db s) (trie s) (stateObjects s) (stateObjectsDirty s) (match dbErr s with None => e | e' => e' end) (refund s)
          (thash s) (bhash s) (txIndex s) (logs s) (logSize s) (preimages s) (journal s) (validRevisions s) (nextRevisionId s).

Definition New (root : bytes) (d : SDB) : outcome StateDB :=
  tr ← OpenTrie d root;
  Ret (mkState d tr ∅ ∅ None 0 zero zero 0 ∅ 0 ∅ [] [] 0).

Definition setStateObject (o : stateObject) : M StateDB unit :=
  modify (λ s, set_objects (<[address o := o]> (stateObjects s)) (stateObjectsDirty s) s).

Definition MarkStateObjectDirty (addr : bytes) : M StateDB unit :=
  modify (λ s, set_objects (stateObjects s) (<[addr := tt]> (stateObjectsDirty s)) s).

Definition append_journal (e : journalEntry) : M StateDB unit :=
  modify (λ s, set_journal (journal s ++ [e]) (validRevisions s) (nextRevisionId s) s).

(** An error of a call on the trie of the state, for [setError]. *)
Definition trying {S A} (m : M S A) : M S (option gerror * option A) :=
  r ← try m; mret (match r with inl e => (Some e, None) | inr a => (None, Some a) end).

Definition getStateObject (addr : bytes) : M StateDB (option stateObject) :=
  s ← get;
  match stateObjects s !! addr with
  | Some o => mret (if deleted o then None else Some o)
  | None =>
    r ← zoom trie set_trie (trying (TryGet addr));
    let '(err, enc) := r in
    match default None enc with
    | None | Some [] => modify (setError err) ;; mret None
    | Some enc =>
      match DecodeBytes enc account_type with
      | Ret v =>
        match account_of v with
        | Some a => let o := newObject addr (Some a) true in setStateObject o ;; mret (Some o)
        | None => mret None
        end
      | Fail _ => mret None
      | Panic w => panic w
      | OutOfFuel => out_of_fuel
      end
    end
  end.

(** ** Methods of objects ([state_object.go]) *)

(** [if onDirty != nil { onDirty(address); onDirty = nil }] *)
Definition fire (o : stateObject) : M StateDB stateObject :=
  if onDirty o then MarkStateObjectDirty (address o) ;; mret (set_flags (suicided o) (touched o) (deleted o) false o)
  else mret o.

Definition markSuicided (o : stateObject) : M StateDB stateObject :=
  fire (set_flags true (touched o) (deleted o) (onDirty o) o).

Definition touch (o : stateObject) : M StateDB stateObject :=
  append_journal (touchChange (address o) (touched o) (negb (onDirty o))) ;;
  o ← fire o;
  mret (set_flags (suicided o) true (deleted o) (onDirty o) o).

(** The trie is opened at the first use; if even the empty trie cannot be opened, it stays nil
    and the caller's use of it panics. *)
Definition getTrie (d : SDB) (o : stateObject) : outcome (TR * stateObject) :=
  match obj_trie o with
  | Some t => Ret (t, o)
  | None =>
    match OpenStorageTrie d (addrHash o) (Root (data o)) with
    | Ret t => Ret (t, set_obj_trie t o)
    | Fail e =>
      match OpenStorageTrie d (addrHash o) zero with
      | Ret t => Ret (t, obj_setError (Some (Wrapf "can't create storage trie" e)) (set_obj_trie t o))
      | Fail _ => Panic "nil pointer dereference"
      | Panic w => Panic w
      | OutOfFuel => OutOfFuel
      end
    | Panic w => Panic w
    | OutOfFuel => OutOfFuel
    end
  end.

Definition obj_GetState (d : SDB) (key : bytes) (o : stateObject) : outcome (bytes * stateObject) :=
  match cachedStorage o !! key with
  | Some value => Ret (value, o)
  | None =>
    r ← getTrie d o;
    let '(t, o) := r in
    match TryGet key t with
    | (Ret enc, t') =>
      let o := set_obj_trie t' o in
      r ← match default [] enc with
          | [] => Ret (zero, o)
          | enc =>
            match Split enc with
            | Ret (_, content, _) => Ret (BytesToHash content, o)
            | Fail e => Ret (BytesToHash [], obj_setError (Some e) o)
            | Panic w => Panic w
            | OutOfFuel => OutOfFuel
            end
          end;
      let '(value, o) := r in
      Ret (value, if bool_decide (value ≠ zero) then set_storage (<[key := value]> (cachedStorage o)) (dirtyStorage o) o else o)
    | (Fail e, t') => Ret (zero, obj_setError (Some e) (set_obj_trie t' o))
    | (Panic w, _) => Panic w
    | (OutOfFuel, _) => OutOfFuel
    end
  end.

Definition setState (key value : bytes) (o : stateObject) : M StateDB stateObject :=
  fire (set_storage (<[key := value]> (cachedStorage o)) (<[key := value]> (dirtyStorage o)) o).

Definition obj_SetState (d : SDB) (key value : bytes) (o : stateObject) : M StateDB stateObject :=
  r ← lift (obj_GetState d key o);
  let '(prevalue, o) := r in
  append_journal (storageChange (address o) key prevalue) ;;
  setState key value o.

Definition setBalance (amount : Z) (o : stateObject) : M StateDB stateObject :=
  let d := data o in fire (set_data (mkAccount (Nonce d) amount (Root d) (CodeHash d)) o).

Definition obj_SetBalance (amount : Z) (o : stateObject) : M StateDB stateObject :=
  append_journal (balanceChange (address o) (Balance (data o))) ;;
  setBalance amount o.

Definition obj_AddBalance (amount : Z) (o : stateObject) : M StateDB stateObject :=
  if bool_decide (amount = 0) then (if empty o then touch o else mret o)
  else obj_SetBalance (Balance (data o) + amount) o.

Definition obj_SubBalance (amount : Z) (o : stateObject) : M StateDB stateObject :=
  if bool_decide (amount = 0) then mret o else obj_SetBalance (Balance (data o) - amount) o.

Definition Code (d : SDB) (o : stateObject) : outcome (option bytes * stateObject) :=
  match code o with
  | Some c => Ret (Some c, o)
  | None =>
    if bool_decide (CodeHash (data o) = emptyCodeHash) then Ret (None, o)
    else
      match ContractCode d (addrHash o) (BytesToHash (CodeHash (data o))) with
      | Ret c => Ret (Some c, set_code (Some c) (dirtyCode o) o)
      | Fail e => Ret (None, obj_setError (Some (Wrapf "can't load code hash" e)) o)
      | Panic w => Panic w
      | OutOfFuel => OutOfFuel
      end
  end.

Definition setCode (codeHash : bytes) (c : option bytes) (o : stateObject) : M StateDB stateObject :=
  let d := data o in
  fire (set_code c true (set_data (mkAccount (Nonce d) (Balance d) (Root d) codeHash) o)).

Definition obj_SetCode (d : SDB) (codeHash : bytes) (c : option bytes) (o : stateObject) : M StateDB stateObject :=
  r ← lift (Code d o);
  let '(prevcode, o) := r in
  append_journal (codeChange (address o) prevcode (CodeHash (data o))) ;;
  setCode codeHash c o.

Definition setNonce (nonce : Z) (o : stateObject) : M StateDB stateObject :=
  let d := data o in fire (set_data (mkAccount nonce (Balance d) (Root d) (CodeHash d)) o).

Definition obj_SetNonce (nonce : Z) (o : stateObject) : M StateDB stateObject :=
  append_journal (nonceChange (address o) (Nonce (data o))) ;;
  setNonce nonce o.

(** [bytes.TrimLeft(value, "\x00")] *)
Fixpoint trim_left (b : bytes) : bytes :=
  match b with x :: b' => if bool_decide (x = 0) then trim_left b' else b | [] => [] end.

(** The changed slots, in the order of the map, go to the storage trie. *)
Fixpoint write_slots (l : list (bytes * bytes)) (t : TR) (o : stateObject) : outcome (TR * stateObject) :=
  match l with
  | [] => Ret (t, o)
  | (key, value) :: l' =>
    let o := set_storage (cachedStorage o) (base.delete key (dirtyStorage o)) o in
    v ← (if bool_decide (value = zero) then Ret [] else EncodeToBytes (GBytes (trim_left value)));
    let '(r, t') := trying (if bool_decide (value = zero) then TryDelete key else TryUpdate key v) t in
    match r with
    | Ret (err, _) => write_slots l' t' (obj_setError err o)
    | Fail e => Fail e
    | Panic w => Panic w
    | OutOfFuel => OutOfFuel
    end
  end.

Definition updateTrie (d : SDB) (o : stateObject) : outcome (TR * stateObject) :=
  r ← getTrie d o;
  let '(t, o) := r in
  r ← write_slots (range (dirtyStorage o)) t o;
  let '(t', o) := r in
  Ret (t', set_obj_trie t' o).

Definition set_root (root : bytes) (o : stateObject) : stateObject :=
  let d := data o in set_data (mkAccount (Nonce d) (Balance d) root (CodeHash d)) o.

Definition updateRoot (d : SDB) (o : stateObject) : outcome stateObject :=
  r ← updateTrie d o;
  let '(t, o) := r in
  match Hash t with
  | (Ret root, t') => Ret (set_root root (set_obj_trie t' o))
  | (Fail e, _) => Fail e
  | (Panic w, _) => Panic w
  | (OutOfFuel, _) => OutOfFuel
  end.

Definition deepCopy (d : SDB) (cb : bool) (o : stateObject) : stateObject :=
  mkObject (address o) (keccak (address o)) (data o) None (CopyTrie d <$> obj_trie o) (code o) (dirtyStorage o) (dirtyStorage o)
           (dirtyCode o) (suicided o) false (deleted o) cb.

(** ** Reading ([statedb.go]) *)
Definition with_object {A} (addr : bytes) (none : A) (f : stateObject → M StateDB A) : M StateDB A :=
  o ← getStateObject addr;
  match o with Some o => f o | None => mret none end.

Definition Exist (addr : bytes) : M StateDB bool := with_object addr false (λ _, mret true).
Definition Empty (addr : bytes) : M StateDB bool := with_object addr true (λ o, mret (empty o)).
Definition GetBalance (addr : bytes) : M StateDB Z := with_object addr 0 (λ o, mret (Balance (data o))).
Definition GetNonce (addr : bytes) : M StateDB Z := with_object addr 0 (λ o, mret (Nonce (data o))).
Definition GetCodeHash (addr : bytes) : M StateDB bytes := with_object addr zero (λ o, mret (BytesToHash (CodeHash (data o)))).
Definition HasSuicided (addr : bytes) : M StateDB bool := with_object addr false (λ o, mret (suicided o)).

Definition GetCode (addr : bytes) : M StateDB (option bytes) :=
  with_object addr None (λ o,
    s ← get;
    r ← lift (Code (db s) o);
    setStateObject (snd r) ;; mret (fst r)).

Definition GetCodeSize (addr : bytes) : M StateDB Z :=
  with_object addr 0 (λ o,
    match code o with
    | Some c => mret (len c)
    | None =>
      s ← get;
      match ContractCodeSize (db s) (addrHash o) (BytesToHash (CodeHash (data o))) with
      | Ret size => mret size
      | Fail e => modify (setError (Some e)) ;; mret 0
      | Panic w => panic w
      | OutOfFuel => out_of_fuel
      end
    end).

Definition GetState (addr key : bytes) : M StateDB bytes :=
  with_object addr zero (λ o,
    s ← get;
    r ← lift (obj_GetState (db s) key o);
    setStateObject (snd r) ;; mret (fst r)).

Definition StorageTrie (addr : bytes) : M StateDB (option TR) :=
  with_object addr None (λ o,
    s ← get;
    r ← lift (updateTrie (db s) (deepCopy (db s) false o));
    mret (Some (fst r))).

(** ** Creating and changing *)
Definition createObject (addr : bytes) : M StateDB (stateObject * option stateObject) :=
  prev ← getStateObject addr;
  newobj ← setNonce 0 (newObject addr None true);
  append_journal (match prev with None => createObjectChange addr | Some p => resetObjectChange p end) ;;
  setStateObject newobj ;;
  mret (newobj, prev).

Definition GetOrNewStateObject (addr : bytes) : M StateDB stateObject :=
  o ← getStateObject addr;
  match o with
  | Some o => if deleted o then r ← createObject addr; mret (fst r) else mret o
  | None => r ← createObject addr; mret (fst r)
  end.

Definition CreateAccount (addr : bytes) : M StateDB unit :=
  r ← createObject addr;
  match snd r with
  | Some prev => o ← setBalance (Balance (data prev)) (fst r); setStateObject o
  | None => mret tt
  end.

Definition changing (addr : bytes) (f : stateObject → M StateDB stateObject) : M StateDB unit :=
  o ← GetOrNewStateObject addr;
  o ← f o;
  setStateObject o.

Definition AddBalance (addr : bytes) (amount : Z) : M StateDB unit := changing addr (obj_AddBalance amount).
Definition SubBalance (addr : bytes) (amount : Z) : M StateDB unit := changing addr (obj_SubBalance amount).
Definition SetBalance (addr : bytes) (amount : Z) : M StateDB unit := changing addr (obj_SetBalance amount).
Definition SetNonce (addr : bytes) (nonce : Z) : M StateDB unit := changing addr (obj_SetNonce nonce).
Definition SetCode (addr : bytes) (c : option bytes) : M StateDB unit :=
  changing addr (λ o, s ← get; obj_SetCode (db s) (keccak (default [] c)) c o).
Definition SetState (addr key value : bytes) : M StateDB unit :=
  changing addr (λ o, s ← get; obj_SetState (db s) key value o).

Definition Suicide (addr : bytes) : M StateDB bool :=
  with_object addr false (λ o,
    append_journal (suicideChange addr (suicided o) (Balance (data o))) ;;
    o ← markSuicided o;
    let d := data o in
    setStateObject (set_data (mkAccount (Nonce d) 0 (Root d) (CodeHash d)) o) ;;
    mret true).

(** [logSize] and the index of a log are [uint]s. *)
Definition AddLog (l : Log) : M StateDB unit :=
  s ← get;
  append_journal (addLogChange (thash s)) ;;
  let l := mkLog (l_Address l) (Topics l) (Data l) (BlockNumber l) (thash s) (txIndex s mod 2 ^ 64) (bhash s) (logSize s) (Removed l) in
  modify (λ s, set_logs (<[thash s := default [] (logs s !! thash s) ++ [l]]> (logs s)) ((logSize s + 1) mod 2 ^ 64) s).

Definition GetLogs (h : bytes) : M StateDB (list Log) := gets (λ s, default [] (logs s !! h)).
Definition Logs : M StateDB (list Log) := gets (λ s, concat (map snd (range (logs s)))).

Definition AddPreimage (h preimage : bytes) : M StateDB unit :=
  s ← get;
  match preimages s !! h with
  | Some _ => mret tt
  | None => append_journal (addPreimageChange h) ;; modify (λ s, set_preimages (<[h := preimage]> (preimages s)) s)
  end.

Definition AddRefund (gas : Z) : M StateDB unit :=
  s ← get;
  append_journal (refundChange (refund s)) ;;
  modify (λ s, set_refund (refund s + gas) s).

(** ** Undoing ([journal.go]) *)
Definition ripemd : bytes := replicate 19 0 ++ [3].

(** A method of a nil object dereferences it. *)
Definition on_object (addr : bytes) (f : stateObject → M StateDB stateObject) : M StateDB unit :=
  o ← getStateObject addr;
  match o with
  | Some o => o ← f o; setStateObject o
  | None => panic "nil pointer dereference"
  end.

Definition undo (ch : journalEntry) : M StateDB unit :=
  match ch with
  | createObjectChange a => modify (λ s, set_objects (base.delete a (stateObjects s)) (base.delete a (stateObjectsDirty s)) s)
  | resetObjectChange prev => setStateObject prev
  | suicideChange a prev prevbalance =>
    with_object a tt (λ o,
      o ← setBalance prevbalance (set_flags prev (touched o) (deleted o) (onDirty o) o);
      setStateObject o)
  | touchChange a prev prevDirty =>
    if negb prev && bool_decide (a ≠ ripemd) then
      on_object a (λ o, mret (set_flags (suicided o) prev (deleted o) (onDirty o) o)) ;;
      if prevDirty : bool then mret tt
      else modify (λ s, set_objects (stateObjects s) (base.delete a (stateObjectsDirty s)) s)
    else mret tt
  | balanceChange a prev => on_object a (setBalance prev)
  | nonceChange a prev => on_object a (setNonce prev)
  | codeChange a prevcode prevhash => on_object a (setCode (BytesToHash prevhash) prevcode)
  | storageChange a key prevalue => on_object a (setState key prevalue)
  | refundChange prev => modify (set_refund prev)
  | addLogChange h =>
    s ← get;
    let l := default [] (logs s !! h) in
    if bool_decide (len l = 1) then modify (λ s, set_logs (base.delete h (logs s)) ((logSize s - 1) mod 2 ^ 64) s)
    else if bool_decide (l = []) then panic "slice bounds out of range"
    else modify (λ s, set_logs (<[h := take (length l - 1) l]> (logs s)) ((logSize s - 1) mod 2 ^ 64) s)
  | addPreimageChange h => modify (λ s, set_preimages (base.delete h (preimages s)) s)
  end.

(** ** Snapshots *)
Definition Snapshot : M StateDB Z :=
  s ← get;
  let id := nextRevisionId s in
  modify (set_journal (journal s) (validRevisions s ++ [(id, len (journal s))]) (id + 1)) ;;
  mret id.

(** [sort.Search]: the least index in [[i, j)] at which [f] holds, by halving. *)
Fixpoint sort_search (fuel : nat) (f : Z → outcome bool) (i j : Z) : outcome Z :=
  if bool_decide (i < j) then
    match fuel with
    | O => OutOfFuel
    | S fuel' =>
      let h := (i + j) / 2 in
      b ← f h;
      if negb b then sort_search fuel' f (h + 1) j else sort_search fuel' f i h
    end
  else Ret i.

(** The entries from the last on. *)
Definition undo_all (l : list journalEntry) : M StateDB unit := for_each undo (reverse l).

Definition RevertToSnapshot (revid : Z) : M StateDB unit :=
  s ← get;
  let v := validRevisions s in
  idx ← lift (sort_search (S (length v)) (λ i, r ← index v i; Ret (bool_decide (revid ≤ fst r))) 0 (len v));
  if bool_decide (idx = len v) then panic "revision id cannot be reverted"
  else
    r ← lift (index v idx);
    if bool_decide (fst r ≠ revid) then panic "revision id cannot be reverted"
    else
      let snapshot := Z.to_nat (snd r) in
      undo_all (drop snapshot (journal s)) ;;
      modify (λ s, set_journal (take snapshot (journal s)) (take (Z.to_nat idx) (validRevisions s)) (nextRevisionId s) s).

(** ** The end of a transaction *)
Definition clearJournalAndRefund (s : StateDB) : StateDB := set_refund 0 (set_journal [] [] (nextRevisionId s) s).

Definition updateStateObject (o : stateObject) : M StateDB unit :=
  match EncodeToBytes (account_gval (data o)) with
  | Ret d => r ← zoom trie set_trie (trying (TryUpdate (address o) d)); modify (setError (fst r))
  | Fail _ => panic "can't encode object"
  | Panic w => panic w
  | OutOfFuel => out_of_fuel
  end.

Definition deleteStateObject (o : stateObject) : M StateDB unit :=
  setStateObject (set_flags (suicided o) (touched o) true (onDirty o) o) ;;
  r ← zoom trie set_trie (trying (TryDelete (address o)));
  modify (setError (fst r)).

Definition finalise_one (deleteEmptyObjects : bool) (addr : bytes) : M StateDB unit :=
  s ← get;
  match stateObjects s !! addr with
  | None => panic "nil pointer dereference"
  | Some o =>
    if suicided o || deleteEmptyObjects && empty o then deleteStateObject o
    else
      o ← lift (updateRoot (db s) o);
      setStateObject o ;;
      updateStateObject o
  end.

Definition Finalise (deleteEmptyObjects : bool) : M StateDB unit :=
  s ← get;
  for_each (λ kv, finalise_one deleteEmptyObjects (fst kv)) (range (stateObjectsDirty s)) ;;
  modify clearJournalAndRefund.

Definition IntermediateRoot (deleteEmptyObjects : bool) : M StateDB bytes :=
  Finalise deleteEmptyObjects ;;
  zoom trie set_trie Hash.

Definition Prepare (th bh : bytes) (ti : Z) : M StateDB unit :=
  modify (λ s, mkState (db s) (trie s) (stateObjects s) (stateObjectsDirty s) (dbErr s) (refund s) th bh ti (logs s) (logSize s)
                       (preimages s) (journal s) (validRevisions s) (nextRevisionId s)).

Definition DeleteSuicides : M StateDB unit :=
  modify clearJournalAndRefund ;;
  s ← get;
  for_each (λ kv, 
    s ← get;
    match stateObjects s !! fst kv with
    | None => panic "nil pointer dereference"
    | Some o =>
      (if suicided o then setStateObject (set_flags (suicided o) (touched o) true (onDirty o) o) else mret tt) ;;
      modify (λ s, set_objects (stateObjects s) (base.delete (fst kv) (stateObjectsDirty s)) s)
    end) (range (stateObjectsDirty s)).

Definition Reset (root : bytes) : M StateDB unit :=
  s ← get;
  tr ← lift (OpenTrie (db s) root);
  modify (λ s, clearJournalAndRefund
    (mkState (db s) tr ∅ ∅ (dbErr s) (refund s) zero zero 0 ∅ 0 ∅ (journal s) (validRevisions s) (nextRevisionId s))).

(** ** Copying *)

(** Only the dirty objects are copied. *)
Fixpoint copy_objects (l : list bytes) (s : StateDB) (m : gmap bytes stateObject) : outcome (gmap bytes stateObject) :=
  match l with
  | [] => Ret m
  | addr :: l' =>
    match stateObjects s !! addr with
    | Some o => copy_objects l' s (<[addr := deepCopy (db s) true o]> m)
    | None => Panic "nil pointer dereference"
    end
  end.

(** The copy has the very trie of the state, not a copy of it (see [shared]). *)
Definition Copy (s : StateDB) : outcome StateDB :=
  objects ← copy_objects (map fst (range (stateObjectsDirty s))) s ∅;
  Ret (mkState (db s) (trie s) objects (stateObjectsDirty s) None (refund s) zero zero 0 (logs s) (logSize s) (preimages s) [] [] 0).

(** A call on the first of two states that share a trie. *)
Definition shared {A} (f : M StateDB A) : M (StateDB * StateDB) A := λ p,
  let '(r, s) := f (fst p) in (r, (s, set_trie (trie s) (snd p))).

(** ** Committing *)
Section Commit.
Context {W : Type} `{Writer TR W}.

(** The object, the writer, and the error of the call. *)
Definition CommitTrie (d : SDB) (o : stateObject) (w : W) : outcome (stateObject * W * option gerror) :=
  r ← updateTrie d o;
  let '(t, o) := r in
  match obj_dbErr o with
  | Some e => Ret (o, w, Some e)
  | None =>
    match trie_CommitTo (t, w) with
    | (Ret root, (t', w')) => Ret (set_root root (set_obj_trie t' o), w', None)
    | (Fail e, (t', w')) => Ret (set_obj_trie t' o, w', Some e)
    | (Panic p, _) => Panic p
    | (OutOfFuel, _) => OutOfFuel
    end
  end.

Definition on_state {A} (m : M StateDB A) : M (StateDB * W) A := zoom fst (λ s r, (s, snd r)) m.

Definition commit_code (o : stateObject) : M (StateDB * W) stateObject :=
  match code o with
  | Some c =>
    if dirtyCode o then λ '(s, w),
      match Put w (CodeHash (data o)) c with
      | (None, w') => (Ret (set_code (code o) false o), (s, w'))
      | (Some e, w') => (Fail e, (s, w'))
      end
    else mret o
  | None => mret o
  end.

Definition commit_one (deleteEmptyObjects : bool) (addr : bytes) : M (StateDB * W) unit :=
  s ← gets fst;
  match stateObjects s !! addr with
  | None => mret tt
  | Some o =>
    let isDirty := bool_decide (is_Some (stateObjectsDirty s !! addr)) in
    (if suicided o || isDirty && deleteEmptyObjects && empty o then on_state (deleteStateObject o)
     else if isDirty then
       o ← commit_code o;
       on_state (setStateObject o) ;;
       w ← gets snd;
       r ← lift (CommitTrie (db s) o w);
       let '(o, w', err) := r in
       modify (λ p, (fst p, w')) ;;
       on_state (setStateObject o) ;;
       match err with
       | Some e => fail e
       | None => on_state (updateStateObject o)
       end
     else mret tt) ;;
    on_state (modify (λ s, set_objects (stateObjects s) (base.delete addr (stateObjectsDirty s)) s))
  end.

Definition state_CommitTo (deleteEmptyObjects : bool) : M (StateDB * W) bytes := λ p,
  let '(r, p') :=
    (s ← gets fst;
     for_each (λ kv, commit_one deleteEmptyObjects (fst kv)) (range (stateObjects s)) ;;
     zoom (λ p, (trie (fst p), snd p)) (λ r p, (set_trie (fst r) (fst p), snd r)) trie_CommitTo) p in
  (r, (clearJournalAndRefund (fst p'), snd p')).
End Commit.
End State.
Arguments stateObject : clear implicits.
Arguments journalEntry : clear implicits.
Arguments StateDB : clear implicits.
