(* ===== verification/StateView.v ===== *)
(** What a state stands for: the accounts, logs, preimages and refund that its methods show,
    whether they are live objects or still in the trie. *)
From S2P Require Import Prelude Bytes HexKeys Rlp RlpRaw RlpStream TrieNode State.
Open Scope Z_scope.

(** ** The view *)
Record acct := mkAcct {
  a_nonce : Z; a_balance : Z; a_codehash : bytes; a_code : bytes; a_suicided : bool; a_storage : bytes → bytes }.

Record sview := mkView {
  accts : bytes → option acct; v_refund : Z; v_thash : bytes; v_bhash : bytes; v_txIndex : Z;
  v_logs : bytes → list Log; v_logSize : Z; v_preimages : gmap bytes bytes }.

Definition put (a : bytes) (r : option acct) (V : sview) : sview :=
  mkView (λ b, if decide (b = a) then r else accts V b) (v_refund V) (v_thash V) (v_bhash V) (v_txIndex V) (v_logs V) (v_logSize V) (v_preimages V).

(** Views are compared by what they show. *)
#[export] Instance acct_equiv : Equiv acct := λ x y,
  a_nonce x = a_nonce y ∧ a_balance x = a_balance y ∧ a_codehash x = a_codehash y ∧ a_code x = a_code y ∧
  a_suicided x = a_suicided y ∧ ∀ key, a_storage x key = a_storage y key.

#[export] Instance sview_equiv : Equiv sview := λ V V',
  (∀ a, accts V a ≡ accts V' a) ∧ v_refund V = v_refund V' ∧ v_thash V = v_thash V' ∧ v_bhash V = v_bhash V' ∧
  v_txIndex V = v_txIndex V' ∧ (∀ h, v_logs V h = v_logs V' h) ∧ v_logSize V = v_logSize V' ∧ v_preimages V = v_preimages V'.

#[export] Instance acct_equivalence : Equivalence (≡@{acct}).
Proof.
  split.
  - by intros x.
  - intros x y (E1 & E2 & E3 & E4 & E5 & E6). by split_and!.
  - intros x y z (E1 & E2 & E3 & E4 & E5 & E6) (F1 & F2 & F3 & F4 & F5 & F6). split_and!; congruence.
Qed.

#[export] Instance sview_equivalence : Equivalence (≡@{sview}).
Proof.
  split.
  - by intros V.
  - intros V V' (E1 & E2 & E3 & E4 & E5 & E6 & E7 & E8). split; [by intros a; symmetry|]. by split_and!.
  - intros V1 V2 V3 (E1 & E2 & E3 & E4 & E5 & E6 & E7 & E8) (F1 & F2 & F3 & F4 & F5 & F6 & F7 & F8).
    split; [by intros a; transitivity (accts V2 a)|]. split_and!; congruence.
Qed.

#[export] Instance put_proper a : Proper ((≡) ==> (≡) ==> (≡)) (put a).
Proof.
  intros r r' Hr V V' (E1 & E2 & E3 & E4 & E5 & E6 & E7 & E8). split; [|by split_and!].
  intros b. cbn. by case_decide.
Qed.

Lemma put_put a r r' V : put a r (put a r' V) ≡ put a r V.
Proof. split; [|by split_and!]. intros b. cbn. by case_decide. Qed.

Lemma put_id a V : put a (accts V a) V ≡ V.
Proof. split; [|by split_and!]. intros b. cbn. by case_decide as Hb; [subst|]. Qed.

(** ** What the tries promise *)
Class TrieLaws (TR : Type) `{StateTrie TR} (key_ok : bytes → Prop) (contents : TR → gmap bytes bytes → Prop) : Prop := {
  law_get t m k : contents t m → key_ok k → ∃ t', TryGet k t = (Ret (m !! k), t') ∧ contents t' m;
  law_update t m k v : contents t m → key_ok k → v ≠ [] → ∃ t', TryUpdate k v t = (Ret tt, t') ∧ contents t' (<[k := v]> m);
  law_delete t m k : contents t m → key_ok k → ∃ t', TryDelete k t = (Ret tt, t') ∧ contents t' (base.delete k m) }.

Definition quiet {A} (o : outcome A) : Prop := match o with Ret _ | Fail _ => True | _ => False end.

Class StateDatabaseLaws {SDB TR : Type} `{StateDatabase SDB TR} (contents : TR → gmap bytes bytes → Prop) (d : SDB) : Prop := {
  open_zero h : ∃ t, OpenStorageTrie d h (replicate 32 0) = Ret t ∧ contents t ∅;
  code_quiet h c : quiet (ContractCode d h c) }.

Section View.
Context {SDB TR : Type} `{StateTrie TR} `{StateDatabase SDB TR} `{RangeOrder}.
Context (keccak : bytes → bytes) (keccak_len : ∀ b, len (keccak b) = 32).
Context (key_ok : bytes → Prop) (contents : TR → gmap bytes bytes → Prop).
Context `{!TrieLaws TR key_ok contents} (d : SDB) `{!StateDatabaseLaws contents d}.
Implicit Types (o : stateObject TR) (s : StateDB SDB TR) (V : sview).

(** The value of a storage slot. *)
Definition slot (enc : option bytes) : bytes :=
  match default [] enc with
  | [] => zero
  | enc => match Split enc with Ret (_, c, _) => BytesToHash c | _ => BytesToHash [] end
  end.

Definition slots_quiet (m : gmap bytes bytes) : Prop := ∀ k enc, m !! k = Some enc → quiet (Split enc).

Definition storage_trie o (m : gmap bytes bytes) : Prop :=
  match obj_trie o with
  | Some t => contents t m
  | None => ∃ t, OpenStorageTrie d (addrHash o) (Root (data o)) = Ret t ∧ contents t m
  end ∧ slots_quiet m.

(** The code of the account [a] with hash [h], when [c] is loaded. *)
Definition code_at (a h : bytes) (c : option bytes) : bytes :=
  match c with
  | Some c => c
  | None =>
    if bool_decide (h = emptyCodeHash keccak) then []
    else match ContractCode d (keccak a) (BytesToHash h) with Ret c => c | _ => [] end
  end.

(** The object shows the account. *)
Record obj_view o (ac : acct) : Prop := {
  ov_addrHash : addrHash o = keccak (address o);
  ov_nonce : a_nonce ac = Nonce (data o);
  ov_balance : a_balance ac = Balance (data o);
  ov_codehash : a_codehash ac = CodeHash (data o);
  ov_hashlen : len (CodeHash (data o)) = 32;
  ov_code : a_code ac = code_at (address o) (CodeHash (data o)) (code o);
  ov_suicided : a_suicided ac = suicided o;
  ov_storage : ∃ m, storage_trie o m ∧
    ∀ key, key_ok key → a_storage ac key = default (slot (m !! key)) (cachedStorage o !! key) }.

Lemma obj_view_proper o ac ac' : ac ≡ ac' → obj_view o ac → obj_view o ac'.
Proof.
  intros (E1 & E2 & E3 & E4 & E5 & E6) [F0 F1 F2 F3 F4 F5 F6 (m & Hm & F7)]. split; try congruence.
  exists m. split; [done|]. intros key Hk. rewrite <-E6. by apply F7.
Qed.

(** *** Methods that change an object *)
Definition ac_data (n b : Z) (ac : acct) : acct := mkAcct n b (a_codehash ac) (a_code ac) (a_suicided ac) (a_storage ac).
Definition ac_code (h c : bytes) (ac : acct) : acct := mkAcct (a_nonce ac) (a_balance ac) h c (a_suicided ac) (a_storage ac).
Definition ac_suicided (b : bool) (ac : acct) : acct := mkAcct (a_nonce ac) (a_balance ac) (a_codehash ac) (a_code ac) b (a_storage ac).
Definition ac_slot (key v : bytes) (ac : acct) : acct :=
  mkAcct (a_nonce ac) (a_balance ac) (a_codehash ac) (a_code ac) (a_suicided ac) (λ k, if decide (k = key) then v else a_storage ac k).

Lemma view_flags o ac su to de di : obj_view o ac → obj_view (set_flags su to de di o) (ac_suicided su ac).
Proof. by intros [E0 E1 E2 E3 E4 E5 E6 E7]; split. Qed.

Lemma view_same_flags o ac to de di : obj_view o ac → obj_view (set_flags (suicided o) to de di o) ac.
Proof. by intros [E0 E1 E2 E3 E4 E5 E6 E7]; split. Qed.

Lemma view_data o ac n b :
  obj_view o ac → obj_view (set_data (mkAccount n b (Root (data o)) (CodeHash (data o))) o) (ac_data n b ac).
Proof. by intros [E0 E1 E2 E3 E4 E5 E6 E7]; split. Qed.

Lemma view_code o ac h c :
  obj_view o ac → len h = 32 →
  obj_view (set_code c true (set_data (mkAccount (Nonce (data o)) (Balance (data o)) (Root (data o)) h) o)) (ac_code h (code_at (address o) h c) ac).
Proof. by intros [E0 E1 E2 E3 E4 E5 E6 E7]; split. Qed.

Lemma view_slot o ac key v dirty :
  obj_view o ac → obj_view (set_storage (<[key := v]> (cachedStorage o)) dirty o) (ac_slot key v ac).
Proof.
  intros [E0 E1 E2 E3 E4 E5 E6 (m & Hm & E7)]. split; try done. exists m. split; [done|]. intros k Hk. cbn. case_decide as Heq.
  - subst k. by rewrite lookup_insert_eq.
  - rewrite lookup_insert_ne by done. by apply E7.
Qed.

Lemma view_slot_same o ac key dirty :
  obj_view o ac → obj_view (set_storage (<[key := a_storage ac key]> (cachedStorage o)) dirty o) ac.
Proof.
  intros [E0 E1 E2 E3 E4 E5 E6 (m & Hm & E7)]. split; try done. exists m. split; [done|]. intros k Hk. cbn.
  destruct (decide (k = key)) as [->|Hne]; [by rewrite lookup_insert_eq|]. rewrite lookup_insert_ne by done. by apply E7.
Qed.

Lemma view_error o ac e : obj_view o ac → obj_view (obj_setError e o) ac.
Proof. by intros [E0 E1 E2 E3 E4 E5 E6 E7]; split. Qed.

(** The same object in the eyes of its state. *)
Definition same_place o o' : Prop := address o' = address o ∧ deleted o' = deleted o.

Lemma getTrie_spec o m :
  storage_trie o m → ∃ t o1, getTrie d o = Ret (t, o1) ∧ contents t m ∧ ∀ t', set_obj_trie t' o1 = set_obj_trie t' o.
Proof.
  intros [Ht _]. unfold getTrie. destruct (obj_trie o) as [t|]; [by exists t, o|].
  destruct Ht as (t & -> & Ht). by exists t, (set_obj_trie t o).
Qed.

Lemma view_obj_trie o ac t m :
  obj_view o ac → storage_trie o m → (∀ key, key_ok key → a_storage ac key = default (slot (m !! key)) (cachedStorage o !! key)) →
  contents t m → obj_view (set_obj_trie t o) ac.
Proof. intros [E0 E1 E2 E3 E4 E5 E6 _] [_ Hq] Hm Ht. split; try done. by exists m. Qed.

Lemma obj_GetState_spec o ac key :
  obj_view o ac → key_ok key →
  ∃ o', obj_GetState d key o = Ret (a_storage ac key, o') ∧ obj_view o' ac ∧ same_place o o'.
Proof.
  intros Hv Hk. pose proof (ov_storage _ _ Hv) as (m & Hm & Hsl). pose proof (Hsl key Hk) as Hkey. unfold obj_GetState.
  destruct (cachedStorage o !! key) as [v|] eqn:Hc; [cbn in Hkey; rewrite Hkey; by exists o|]. cbn [default from_option] in Hkey.
  destruct (getTrie_spec o m Hm) as (t & o1 & -> & Ht & Ho1). cbn [mbind outcome_bind].
  destruct (law_get t m key Ht Hk) as (t' & Hget & Ht'). rewrite Hget, Ho1. set (o2 := set_obj_trie t' o).
  assert (obj_view o2 ac) as Hv2 by by apply (view_obj_trie o ac t' m).
  assert (∀ v o3, v = a_storage ac key → obj_view o3 ac → same_place o o3 → ∃ o',
    (Ret (v, if bool_decide (v ≠ zero) then set_storage (<[key:=v]> (cachedStorage o3)) (dirtyStorage o3) o3 else o3)
      : outcome (bytes * stateObject TR)) = Ret (a_storage ac key, o') ∧ obj_view o' ac ∧ same_place o o') as Hend.
  { intros v o3 -> Hv3 Hp. eexists. split; [done|]. case_bool_decide; [|done]. split; [|done]. by apply view_slot_same. }
  unfold slot in Hkey. destruct (m !! key) as [enc|] eqn:Hmk; cbn [default from_option id] in *; [|by apply Hend].
  destruct enc as [|x enc]; [by apply Hend|]. pose proof (proj2 Hm key _ Hmk) as Hq.
  destruct (Split (x :: enc)) as [[[k c] rest]|e| |]; try done; cbn [mbind outcome_bind]; [by apply Hend|].
  apply Hend; [done|by apply view_error|done].
Qed.

Lemma Code_spec o ac :
  obj_view o ac → ∃ c o', Code keccak d o = Ret (c, o') ∧ default [] c = a_code ac ∧
    code_at (address o) (CodeHash (data o)) c = a_code ac ∧ obj_view o' ac ∧ same_place o o' ∧ data o' = data o.
Proof.
  intros Hv. pose proof (ov_code _ _ Hv) as Hc. unfold Code, code_at in *. destruct (code o) as [c|]; [by exists (Some c), o|].
  case_bool_decide as Hh; [by exists None, o|]. rewrite (ov_addrHash _ _ Hv).
  pose proof (code_quiet (keccak (address o)) (BytesToHash (CodeHash (data o)))) as Hq.
  destruct (ContractCode d (keccak (address o)) (BytesToHash (CodeHash (data o)))) as [c|e| |] eqn:Ec; try done.
  - eexists (Some c), _. split; [done|]. split; [done|]. split; [done|]. split; [|done].
    destruct Hv as [E0 E1 E2 E3 E4 E5 E6 E7]. by split.
  - eexists None, _. split; [done|]. split; [done|]. split; [done|]. split; [by apply view_error|done].
Qed.

(** ** The accounts in the trie *)
Context (m : gmap bytes bytes).

Definition base_account (a : bytes) : option Account :=
  match m !! a with
  | None | Some [] => None
  | Some enc => match DecodeBytes enc account_type with Ret v => account_of v | _ => None end
  end.

(** What was committed can be read: accounts decode without a panic, with code hashes of 32
    bytes and storage tries that open. *)
Definition base_ok : Prop := ∀ a enc, m !! a = Some enc →
  quiet (DecodeBytes enc account_type) ∧
  ∀ acc, base_account a = Some acc → ∃ ac, obj_view (newObject keccak a (Some acc) true) ac.

(** The state shows [r] at the address [a]. *)
Definition acct_view s (a : bytes) (r : option acct) : Prop :=
  match stateObjects s !! a with
  | Some o =>
    address o = a ∧
    if deleted o then r = None ∧ base_account a = None else ∃ ac, r = Some ac ∧ obj_view o ac
  | None =>
    match base_account a with
    | None => r = None
    | Some acc => ∃ ac, r = Some ac ∧ obj_view (newObject keccak a (Some acc) true) ac
    end
  end.

Lemma acct_view_proper s a r r' : r ≡ r' → acct_view s a r → acct_view s a r'.
Proof.
  intros Hr. unfold acct_view. destruct (stateObjects s !! a) as [o|].
  - intros [Ha Hv]. split; [done|]. destruct (deleted o); [destruct Hv as [-> ?]; by inversion Hr|].
    destruct Hv as (ac & -> & Hv). inversion Hr as [? ac' Heq|]; subst. eauto using obj_view_proper.
  - destruct (base_account a); [|intros ->; by inversion Hr].
    intros (ac & -> & Hv). inversion Hr as [? ac' Heq|]; subst. eauto using obj_view_proper.
Qed.

Record obs s V : Prop := {
  obs_db : db s = d;
  obs_trie : contents (trie s) m;
  obs_accts : ∀ a, key_ok a → acct_view s a (accts V a);
  obs_refund : refund s = v_refund V;
  obs_thash : thash s = v_thash V;
  obs_bhash : bhash s = v_bhash V;
  obs_txIndex : txIndex s = v_txIndex V;
  obs_logs : ∀ h, default [] (logs s !! h) = v_logs V h;
  obs_logSize : logSize s = v_logSize V;
  obs_logRange : 0 ≤ logSize s < 2 ^ 64;
  obs_preimages : preimages s = v_preimages V }.

(** The journal and the revisions. *)
Definition book s : list (journalEntry TR) * list (Z * Z) * Z := (journal s, validRevisions s, nextRevisionId s).

(** Only the marks and the journal differ. *)
Definition light s s' : Prop :=
  db s' = db s ∧ trie s' = trie s ∧ stateObjects s' = stateObjects s ∧ refund s' = refund s ∧ thash s' = thash s ∧
  bhash s' = bhash s ∧ txIndex s' = txIndex s ∧ logs s' = logs s ∧ logSize s' = logSize s ∧ preimages s' = preimages s.

Lemma obs_light s s' V : light s s' → obs s V → obs s' V.
Proof.
  intros (Hdb & Htr & Hso & Hr & Ht & Hb & Hx & Hl & Hn & Hp) [E1 E2 E3 E4 E5 E6 E7 E8 E9 E10 E11].
  split; try congruence.
  intros a Ha. unfold acct_view. rewrite Hso. by apply E3.
Qed.

Lemma light_refl s : light s s.
Proof. done. Qed.

(** *** Filing an object *)
Lemma obs_put s V o ac :
  obs s V → key_ok (address o) → deleted o = false → obj_view o ac →
  obs (set_objects (<[address o := o]> (stateObjects s)) (stateObjectsDirty s) s) (put (address o) (Some ac) V).
Proof.
  intros [E1 E2 E3 E4 E5 E6 E7 E8 E9 E10 E11] Ha Hd Hv. split; try done. intros b Hb. unfold acct_view. cbn.
  destruct (decide (b = address o)) as [->|Hne].
  - rewrite lookup_insert_eq. split; [done|]. rewrite Hd. eauto.
  - rewrite lookup_insert_ne by done. by apply E3.
Qed.

Lemma obs_setError s V e : obs s V → obs (setError e s) V.
Proof. apply obs_light. done. Qed.

#[local] Instance obs_proper : Proper ((=) ==> (≡) ==> iff) obs.
Proof.
  assert (∀ s V V', V ≡ V' → obs s V → obs s V') as Himp.
  { intros s V V' (F1 & F2 & F3 & F4 & F5 & F6 & F7 & F8) [E1 E2 E3 E4 E5 E6 E7 E8 E9 E10 E11]. split; try congruence.
    intros a Ha. apply (acct_view_proper s a (accts V a)); [done|by apply E3]. }
  intros s s' <- V V' HV. split; by apply Himp.
Qed.

(** *** [getStateObject] *)
Lemma getStateObject_spec s V a :
  obs s V → base_ok → key_ok a →
  ∃ r s', getStateObject keccak a s = (Ret r, s') ∧ obs s' V ∧ book s' = book s ∧
    match accts V a with
    | Some ac => ∃ o, r = Some o ∧ stateObjects s' !! a = Some o ∧ address o = a ∧ deleted o = false ∧ obj_view o ac
    | None => r = None ∧ base_account a = None
    end.
Proof.
  intros Hobs Hbase Ha. pose proof (obs_accts _ _ Hobs a Ha) as Hva. unfold acct_view in Hva.
  unfold getStateObject, mbind, M_bind, get. cbn beta iota. destruct (stateObjects s !! a) as [o|] eqn:Hlive.
  - destruct Hva as [Haddr Hva]. exists (if deleted o then None else Some o), s. split; [done|]. split; [done|]. split; [done|].
    destruct (deleted o) eqn:Hdel; [by destruct Hva as [-> ?]|]. destruct Hva as (ac & -> & Hv). by exists o.
  - destruct (law_get (trie s) m a (obs_trie _ _ Hobs) Ha) as (t' & Hget & Ht').
    assert (zoom trie set_trie (trying (TryGet a)) s = (Ret (None, Some (m !! a)), set_trie t' s)) as ->.
    { unfold zoom, trying, mbind, M_bind, try. by rewrite Hget. }
    assert (obs (set_trie t' s) V) as Hobs'.
    { destruct Hobs as [E1 E2 E3 E4 E5 E6 E7 E8 E9 E10 E11]. by split. }
    cbn [default from_option id]. destruct (m !! a) as [[|b enc]|] eqn:Hm.
    + assert (base_account a = None) as Hb by (unfold base_account; by rewrite Hm). rewrite Hb in Hva. rewrite Hva.
      exists None, (setError None (set_trie t' s)). split; [done|]. split; [by apply obs_setError|done].
    + destruct (Hbase a _ Hm) as [Hq _]. assert (base_account a = match DecodeBytes (b :: enc) account_type with Ret v => account_of v | _ => None end) as Hb
        by (unfold base_account; by rewrite Hm). rewrite Hb in Hva |- *.
      destruct (DecodeBytes (b :: enc) account_type) as [v|e| |]; try done.
      2: { rewrite Hva. by exists None, (set_trie t' s). }
      destruct (account_of v) as [acc|]; [|rewrite Hva; by exists None, (set_trie t' s)].
      destruct Hva as (ac & HVa & Hv). rewrite HVa. set (o := newObject keccak a (Some acc) true) in *.
      eexists (Some o), _. split; [done|]. split; [|split; [done|]].
      * apply (obs_proper _ _ eq_refl (put a (Some ac) V)); [by rewrite <-HVa, put_id|by apply (obs_put _ V o ac)].
      * exists o. split; [done|]. cbn. by rewrite lookup_insert_eq.
    + assert (base_account a = None) as Hb by (unfold base_account; by rewrite Hm). rewrite Hb in Hva. rewrite Hva.
      exists None, (setError None (set_trie t' s)). split; [done|]. split; [by apply obs_setError|done].
Qed.
End View.
