(* ===== verification/StateDatabase.v ===== *)
(** [state/database.go]: the database of states, on top of secure tries.  It discharges what the
    state asks of its tries and of its database. *)
From S2P Require Import Prelude Bytes HexKeys Rlp RlpRaw TrieNode Trie TrieTree TrieRep TrieEdit TrieMap TrieHash TrieSpec SecureTrie State StateView.
Open Scope Z_scope.

Section Caching.
Context {DB : Type} `{Database DB} (keccak : bytes → bytes).

(** Past tries may be opened again without the database.  The cache of code sizes is left out: it
    answers what the database would. *)
Record cachingDB := mkCaching { storage : DB; pastTries : list (Secure.SecureTrie DB) }.

Definition maxPastTries : Z := 12.
Definition MaxTrieCacheGen : Z := 120.

Definition pushTrie (t : Secure.SecureTrie DB) (d : cachingDB) : cachingDB :=
  if bool_decide (maxPastTries ≤ len (pastTries d)) then mkCaching (storage d) (drop 1 (pastTries d) ++ [t])
  else mkCaching (storage d) (pastTries d ++ [t]).

(** From the last trie on, the first with the root. *)
Fixpoint find_past (root : bytes) (ts : list (Secure.SecureTrie DB)) : outcome (option (Secure.SecureTrie DB)) :=
  match ts with
  | [] => Ret None
  | t :: ts' =>
    match Secure.Hash keccak t with
    | (Ret h, t') => if bool_decide (h = root) then Ret (Some (Secure.Copy t')) else find_past root ts'
    | (Fail e, _) => Fail e
    | (Panic w, _) => Panic w
    | (OutOfFuel, _) => OutOfFuel
    end
  end.

Definition c_OpenTrie (d : cachingDB) (root : bytes) : outcome (Secure.SecureTrie DB) :=
  r ← find_past root (reverse (pastTries d));
  match r with
  | Some t => Ret t
  | None => Secure.NewSecure root (Some (storage d)) MaxTrieCacheGen
  end.

Definition c_OpenStorageTrie (d : cachingDB) (addrHash root : bytes) : outcome (Secure.SecureTrie DB) :=
  Secure.NewSecure root (Some (storage d)) 0.

Definition c_ContractCode (d : cachingDB) (addrHash codeHash : bytes) : outcome bytes :=
  match db_Get (storage d) codeHash with
  | Some c => Ret c
  | None => Fail (LibErr "not found")
  end.

Definition c_ContractCodeSize (d : cachingDB) (addrHash codeHash : bytes) : outcome Z :=
  c ← c_ContractCode d addrHash codeHash; Ret (len c).

#[export] Instance caching_StateDatabase : StateDatabase cachingDB (Secure.SecureTrie DB) := {|
  OpenTrie := c_OpenTrie;
  OpenStorageTrie := c_OpenStorageTrie;
  CopyTrie := λ _, Secure.Copy;
  ContractCode := c_ContractCode;
  ContractCodeSize := c_ContractCodeSize |}.

#[export] Instance secure_StateTrie : StateTrie (Secure.SecureTrie DB) := {|
  State.TryGet := Secure.TryGet keccak;
  State.TryUpdate := Secure.TryUpdate keccak;
  State.TryDelete := Secure.TryDelete keccak;
  State.Hash := Secure.Hash keccak |}.

(** States are committed to the store their tries read.  That the trie is then kept as a past
    trie only concerns the cache. *)
Definition with_store (d : DB) (t : Secure.SecureTrie DB) : Secure.SecureTrie DB :=
  let tr := Secure.trie t in
  Secure.set_trie (mkTrie (root tr) (Some d) (originalRoot tr) (cachegen tr) (cachelimit tr)) t.

Definition c_CommitTo `{RangeOrder} : M (Secure.SecureTrie DB * DB) bytes := λ p,
  let '(o, (t, d)) := Secure.CommitTo keccak p in (o, (with_store d t, d)).

#[export] Instance store_Writer `{RangeOrder} : Writer (Secure.SecureTrie DB) DB := {|
  State.Put := db_Put;
  State.trie_CommitTo := c_CommitTo |}.

(** ** A secure trie is a map *)
Context (keccak_len : ∀ b, len (keccak b) = 32).

(** Keys whose hashes do not collide. *)
Context (keys : bytes → Prop) (keys_inj : ∀ k k', keys k → keys k' → keccak k = keccak k' → k = k')
  (keys_bytes : ∀ k, keys k → is_bytes (keccak k)).

Definition hashed_map (m hm : gmap bytes bytes) : Prop :=
  (∀ k, keys k → hm !! keccak k = m !! k) ∧ (∀ k v, m !! k = Some v → keys k).

Definition secure_contents (t : Secure.SecureTrie DB) (m : gmap bytes bytes) : Prop :=
  ∃ hm, models keccak (Secure.trie t) hm ∧ hashed_map m hm.

Lemma hashed_alter m hm k r :
  keys k → hashed_map m hm → hashed_map (partial_alter (λ _, r) k m) (partial_alter (λ _, r) (keccak k) hm).
Proof.
  intros Hk [Hl Hd]. split.
  - intros k' Hk'. destruct (decide (k' = k)) as [->|Hne]; [by rewrite !lookup_partial_alter_eq|].
    rewrite !lookup_partial_alter_ne; [by apply Hl|done|]. intros Heq. by apply keys_inj in Heq.
  - intros k' v. destruct (decide (k' = k)) as [->|Hne]; [done|]. rewrite lookup_partial_alter_ne by done. apply Hd.
Qed.

#[export] Instance secure_TrieLaws : TrieLaws (Secure.SecureTrie DB) keys secure_contents.
Proof.
  split.
  - intros t m k (hm & Hmod & Hh) Hk. destruct (TryGet_spec keccak keccak_len _ _ _ Hmod (keys_bytes k Hk)) as (T' & Hrun & Hmod').
    exists (Secure.set_trie T' t). split; [|by exists hm]. cbn. unfold Secure.TryGet, zoom, Secure.hashKey. rewrite Hrun. by rewrite (proj1 Hh k Hk).
  - intros t m k v (hm & Hmod & Hh) Hk Hv.
    destruct (TryUpdate_spec keccak keccak_len _ _ _ v Hmod (keys_bytes k Hk)) as (T' & Hrun & Hmod').
    unfold updated in Hmod'. rewrite bool_decide_eq_false_2 in Hmod' by done.
    assert (zoom Secure.trie Secure.set_trie (Trie.TryUpdate (Secure.hashKey keccak k) v) t = (Ret tt, Secure.set_trie T' t)) as Hz.
    { unfold zoom, Secure.hashKey. by rewrite Hrun. }
    cbn. unfold Secure.TryUpdate. rewrite (run_bind_Ret _ _ _ _ _ Hz). unfold Secure.getSecKeyCache, mbind, M_bind, get. cbn beta iota.
    destruct (Secure.owned (Secure.set_trie T' t)); (eexists; split; [done|]); exists (<[keccak k := v]> hm); (split; [done|by apply hashed_alter]).
  - intros t m k (hm & Hmod & Hh) Hk.
    destruct (TryDelete_spec keccak keccak_len _ _ _ Hmod (keys_bytes k Hk)) as (T' & Hrun & Hmod').
    cbn. unfold Secure.TryDelete, Secure.getSecKeyCache, mbind, M_bind, get, zoom, Secure.hashKey. cbn beta iota.
    destruct (Secure.owned t); cbn; rewrite Hrun; (eexists; split; [done|]); exists (base.delete (keccak k) hm); (split; [done|by apply hashed_alter]).
Qed.

Lemma models_fresh (d : option DB) r g l : models keccak (mkTrie NilN d r g l) ∅.
Proof. split; [by intros k v ?%lookup_empty_Some|]. exists PNil. split; [done|apply map_tree_empty]. Qed.

#[export] Instance caching_laws (d : cachingDB) : StateDatabaseLaws secure_contents d.
Proof.
  split.
  - intros h. eexists. split; [reflexivity|]. exists ∅. split; [apply models_fresh|]. split; [done|by intros k v ?%lookup_empty_Some].
  - intros h c. cbn. unfold c_ContractCode. by destruct (db_Get (storage d) c).
Qed.
End Caching.
Arguments cachingDB : clear implicits.
