(* ===== verification/StateUndo.v ===== *)
(** The journal: undoing the entries of a change brings back the view from before it. *)
From S2P Require Import Prelude Bytes HexKeys Rlp RlpRaw RlpStream TrieNode State StateView.
Open Scope Z_scope.

Section Undo.
Context {SDB TR : Type} `{StateTrie TR} `{StateDatabase SDB TR} `{RangeOrder}.
Context (keccak : bytes → bytes) (keccak_len : ∀ b, len (keccak b) = 32).
Context (key_ok : bytes → Prop) (contents : TR → gmap bytes bytes → Prop).
Context `{!TrieLaws TR key_ok contents} (d : SDB) `{!StateDatabaseLaws contents d}.
Context (m : gmap bytes bytes) (Hbase : base_ok keccak key_ok contents d m).
Implicit Types (o : stateObject TR) (s : StateDB SDB TR) (V : sview) (e : journalEntry TR).
#[local] Abbreviation obs := (obs keccak key_ok contents d m).
#[local] Abbreviation obj_view := (obj_view keccak key_ok contents d).
#[local] Abbreviation base_account := (base_account m).

#[local] Instance obs_equiv : Proper ((=) ==> (≡) ==> iff) obs := obs_proper keccak key_ok contents d m.

(** ** Objects in the hands of a method *)

(** [f] turns an object that shows [ac] into one that shows [ac'] and appends [es] to the
    journal. *)
Definition turns (f : stateObject TR → M (StateDB SDB TR) (stateObject TR)) (a : bytes) (ac ac' : acct) (es : list (journalEntry TR)) : Prop :=
  ∀ o s, address o = a → deleted o = false → obj_view o ac → db s = d →
  ∃ o' s', f o s = (Ret o', s') ∧ light s s' ∧ journal s' = journal s ++ es ∧ validRevisions s' = validRevisions s ∧
    nextRevisionId s' = nextRevisionId s ∧ obj_view o' ac' ∧ address o' = a ∧ deleted o' = false.

Lemma fire_turns (g : stateObject TR → stateObject TR) a ac ac' :
  (∀ o, address o = a → obj_view o ac → obj_view (g o) ac') → (∀ o, same_place o (g o)) →
  turns (λ o, fire (g o)) a ac ac' [].
Proof.
  intros Hg Hp o s Ha Hd Hv Hdb. destruct (Hp o) as [Hpa Hpd]. pose proof (Hg o Ha Hv) as Hv'. unfold fire. destruct (onDirty (g o)).
  - eexists _, _. split; [done|]. split; [done|]. cbn [journal]. rewrite app_nil_r. split; [done|]. split; [done|]. split; [done|].
    split; [by apply view_same_flags|]. cbn. by rewrite Hpa, Hpd.
  - exists (g o), s. rewrite app_nil_r. split_and!; try done; congruence.
Qed.

Lemma journal_turns e f a ac ac' :
  turns f a ac ac' [] → turns (λ o, append_journal e ;; f o) a ac ac' [e].
Proof.
  intros Hf o s Ha Hd Hv Hdb.
  destruct (Hf o (set_journal (journal s ++ [e]) (validRevisions s) (nextRevisionId s) s) Ha Hd Hv Hdb)
    as (o' & s' & Hrun & Hl & Hj & Hr & Hn & Hv' & Ha' & Hd').
  exists o', s'. split; [exact Hrun|]. split; [done|]. rewrite app_nil_r in Hj. done.
Qed.

Lemma turns_ext f f' a ac ac' es :
  (∀ o s, address o = a → obj_view o ac → f o s = f' o s) → turns f' a ac ac' es → turns f a ac ac' es.
Proof. intros Hext Hf o s Ha Hd Hv Hdb. rewrite Hext by done. by apply Hf. Qed.

Lemma setBalance_turns b a ac : turns (setBalance b) a ac (ac_data (a_nonce ac) b ac) [].
Proof.
  apply (fire_turns (λ o, set_data (mkAccount (Nonce (data o)) b (Root (data o)) (CodeHash (data o))) o)); [|done].
  intros o _ Hv. rewrite (ov_nonce _ _ _ _ _ _ Hv). by apply view_data.
Qed.

Lemma setNonce_turns n a ac : turns (setNonce n) a ac (ac_data n (a_balance ac) ac) [].
Proof.
  apply (fire_turns (λ o, set_data (mkAccount n (Balance (data o)) (Root (data o)) (CodeHash (data o))) o)); [|done].
  intros o _ Hv. rewrite (ov_balance _ _ _ _ _ _ Hv). by apply view_data.
Qed.

Lemma setCode_turns h c a ac : len h = 32 → turns (setCode h c) a ac (ac_code h (code_at keccak d a h c) ac) [].
Proof.
  intros Hh. apply (fire_turns (λ o, set_code c true (set_data (mkAccount (Nonce (data o)) (Balance (data o)) (Root (data o)) h) o))); [|done].
  intros o <- Hv. by apply view_code.
Qed.

Lemma setState_turns key v a ac : turns (setState key v) a ac (ac_slot key v ac) [].
Proof.
  apply (fire_turns (λ o, set_storage (<[key := v]> (cachedStorage o)) (<[key := v]> (dirtyStorage o)) o)); [|done].
  intros o _ Hv. by apply view_slot.
Qed.

(** *** Methods with a journal entry *)
Lemma SetBalance_turns b a ac : turns (obj_SetBalance b) a ac (ac_data (a_nonce ac) b ac) [balanceChange a (a_balance ac)].
Proof.
  apply (turns_ext _ (λ o, append_journal (balanceChange a (a_balance ac)) ;; setBalance b o)); [|apply journal_turns, setBalance_turns].
  intros o s <- Hv. by rewrite (ov_balance _ _ _ _ _ _ Hv).
Qed.

Lemma SetNonce_turns n a ac : turns (obj_SetNonce n) a ac (ac_data n (a_balance ac) ac) [nonceChange a (a_nonce ac)].
Proof.
  apply (turns_ext _ (λ o, append_journal (nonceChange a (a_nonce ac)) ;; setNonce n o)); [|apply journal_turns, setNonce_turns].
  intros o s <- Hv. by rewrite (ov_nonce _ _ _ _ _ _ Hv).
Qed.

Lemma SetState_turns key v a ac :
  key_ok key → turns (obj_SetState d key v) a ac (ac_slot key v ac) [storageChange a key (a_storage ac key)].
Proof.
  intros Hk o s Ha Hd Hv Hdb. unfold obj_SetState, mbind at 1, M_bind at 1, lift.
  destruct (obj_GetState_spec keccak key_ok contents d o ac key Hv Hk) as (o1 & -> & Hv1 & Ha1 & Hd1). cbn beta iota.
  rewrite Ha1, Ha. apply (journal_turns _ _ _ _ _ (setState_turns key v a ac)); congruence || done.
Qed.

(** The entry of [SetCode] restores the code. *)
Lemma SetCode_turns h c a ac :
  len h = 32 → ∀ o s, address o = a → deleted o = false → obj_view o ac → db s = d →
  ∃ pc o' s', obj_SetCode keccak d h c o s = (Ret o', s') ∧ light s s' ∧
    journal s' = journal s ++ [codeChange a pc (a_codehash ac)] ∧ validRevisions s' = validRevisions s ∧
    nextRevisionId s' = nextRevisionId s ∧ obj_view o' (ac_code h (code_at keccak d a h c) ac) ∧ address o' = a ∧ deleted o' = false ∧
    code_at keccak d a (a_codehash ac) pc = a_code ac.
Proof.
  intros Hh o s Ha Hd Hv Hdb. unfold obj_SetCode, mbind at 1, M_bind at 1, lift.
  destruct (Code_spec keccak key_ok contents d o ac Hv) as (pc & o1 & -> & _ & Hpc & Hv1 & [Ha1 Hd1] & Hdata). cbn beta iota.
  rewrite Ha in Hpc. rewrite Ha1, Ha, Hdata, <-(ov_codehash _ _ _ _ _ _ Hv).
  destruct (journal_turns (codeChange a pc (a_codehash ac)) _ _ _ _ (setCode_turns h c a ac Hh) o1 s) as (o' & s' & Hrun & Hrest); [congruence|congruence|done|done|].
  exists pc, o', s'. rewrite <-(ov_codehash _ _ _ _ _ _ Hv) in Hpc. split; [exact Hrun|]. destruct Hrest as (? & ? & ? & ? & ? & ? & ?). by split_and!.
Qed.

(** ** Filing what a method answers *)
Lemma file_spec f a ac ac' es o s V :
  turns f a ac ac' es → obs s V → key_ok a → address o = a → deleted o = false → obj_view o ac →
  ∃ s', (o' ← f o; setStateObject o') s = (Ret tt, s') ∧ obs s' (put a (Some ac') V) ∧
    journal s' = journal s ++ es ∧ validRevisions s' = validRevisions s ∧ nextRevisionId s' = nextRevisionId s.
Proof.
  intros Hf Hobs Hk Ha Hd Hv. destruct (Hf o s Ha Hd Hv (obs_db _ _ _ _ _ _ _ Hobs)) as (o' & s1 & Hrun & Hl & Hj & Hr & Hn & Hv' & Ha' & Hd').
  rewrite (run_bind_Ret _ _ _ _ _ Hrun). eexists. split; [done|]. split; [|done].
  rewrite <-Ha'. apply obs_put; [by apply (obs_light _ _ _ _ _ s)|by rewrite Ha'|done..].
Qed.

Lemma on_object_spec f a ac ac' s V :
  turns f a ac ac' [] → obs s V → key_ok a → accts V a = Some ac →
  ∃ s', on_object keccak a f s = (Ret tt, s') ∧ obs s' (put a (Some ac') V) ∧ book s' = book s.
Proof.
  intros Hf Hobs Hk HV. unfold on_object.
  destruct (getStateObject_spec keccak key_ok contents d m s V a Hobs Hbase Hk) as (r & s1 & Hget & Hobs1 & Hb & Hr).
  rewrite HV in Hr. destruct Hr as (o & -> & _ & Ha & Hd & Hv). rewrite (run_bind_Ret _ _ _ _ _ Hget).
  destruct (file_spec f a ac ac' [] o s1 V Hf Hobs1 Hk Ha Hd Hv) as (s2 & Hrun & Hobs2 & Hj & Hrev & Hn).
  exists s2. split; [exact Hrun|]. split; [done|]. rewrite app_nil_r in Hj. unfold book in *. congruence.
Qed.

(** ** Entries *)

(** Undoing [e] in any state that shows [V2] leads to a state that shows [V1]. *)
Definition entry_ok e V1 V2 : Prop :=
  ∀ s, obs s V2 → ∃ s', undo keccak e s = (Ret tt, s') ∧ obs s' V1 ∧ book s' = book s.

Lemma entry_equiv e V1 V2 V1' V2' : V1 ≡ V1' → V2 ≡ V2' → entry_ok e V1 V2 → entry_ok e V1' V2'.
Proof.
  intros HV1 HV2 He s Hobs. destruct (He s) as (s' & Hrun & Hobs' & Hb); [by rewrite HV2|]. exists s'. split; [done|]. by rewrite <-HV1.
Qed.

(** An entry that is undone by a method of the object. *)
Lemma entry_on_object e f a ac1 ac2 ac3 V :
  key_ok a → accts V a = Some ac1 → undo keccak e = on_object keccak a f → turns f a ac2 ac3 [] → ac3 ≡ ac1 →
  entry_ok e V (put a (Some ac2) V).
Proof.
  intros Hk HV Hu Hf Heq s Hobs. rewrite Hu.
  destruct (on_object_spec f a ac2 ac3 s (put a (Some ac2) V) Hf Hobs Hk) as (s' & Hrun & Hobs' & Hb); [cbn; by rewrite decide_True|].
  exists s'. split; [done|]. split; [|done]. by rewrite put_put, Heq, <-HV, put_id in Hobs'.
Qed.

Lemma entry_balance a ac b V :
  key_ok a → accts V a = Some ac → entry_ok (balanceChange a (a_balance ac)) V (put a (Some (ac_data (a_nonce ac) b ac)) V).
Proof. intros Hk HV. eapply entry_on_object; [done|done|done|apply setBalance_turns|done]. Qed.

Lemma entry_nonce a ac n V :
  key_ok a → accts V a = Some ac → entry_ok (nonceChange a (a_nonce ac)) V (put a (Some (ac_data n (a_balance ac) ac)) V).
Proof. intros Hk HV. eapply entry_on_object; [done|done|done|apply setNonce_turns|done]. Qed.

Lemma entry_storage a ac key v V :
  key_ok a → accts V a = Some ac → entry_ok (storageChange a key (a_storage ac key)) V (put a (Some (ac_slot key v ac)) V).
Proof.
  intros Hk HV. eapply entry_on_object; [done|done|done|apply setState_turns|]. split_and!; try done. intros k. cbn.
  by case_decide; [subst|].
Qed.

Lemma entry_code a ac h c pc V :
  key_ok a → accts V a = Some ac → len (a_codehash ac) = 32 → code_at keccak d a (a_codehash ac) pc = a_code ac →
  entry_ok (codeChange a pc (a_codehash ac)) V (put a (Some (ac_code h c ac)) V).
Proof.
  intros Hk HV Hl Hpc. eapply (entry_on_object _ (setCode (BytesToHash (a_codehash ac)) pc)); [done|done|done|apply setCode_turns|].
  - by rewrite BytesToHash_32.
  - rewrite (BytesToHash_32 _ Hl), Hpc. done.
Qed.

Lemma entry_create a r V :
  accts V a = None → base_account a = None → entry_ok (createObjectChange a) V (put a r V).
Proof.
  intros HV Hb s Hobs. eexists. split; [done|]. split; [|done]. 
  destruct Hobs as [E1 E2 E3 E4 E5 E6 E7 E8 E9 E10 E11]. split; try done. intros b Hk. specialize (E3 b Hk).
  unfold acct_view in *. cbn in *. destruct (decide (b = a)) as [->|Hne].
  - rewrite lookup_delete_eq, Hb. done.
  - by rewrite lookup_delete_ne by done.
Qed.

Lemma entry_reset a o ac r V :
  key_ok a → address o = a → deleted o = false → obj_view o ac → accts V a = Some ac →
  entry_ok (resetObjectChange o) V (put a r V).
Proof.
  intros Hk Ha Hd Hv HV s Hobs. eexists. split; [done|]. split; [|done].
  rewrite <-(put_id a V), HV, <-(put_put a (Some ac) r V), <-Ha. apply obs_put; (done || by rewrite Ha).
Qed.

Lemma entry_suicide a ac V :
  key_ok a → accts V a = Some ac →
  entry_ok (suicideChange a (a_suicided ac) (a_balance ac)) V (put a (Some (ac_suicided true (ac_data (a_nonce ac) 0 ac))) V).
Proof.
  intros Hk HV. set (ac2 := ac_suicided true (ac_data (a_nonce ac) 0 ac)).
  set (f := λ o, setBalance (SDB := SDB) (a_balance ac) (set_flags (a_suicided ac) (touched o) (deleted o) (onDirty o) o)).
  assert (turns f a ac2 (ac_data (a_nonce ac) (a_balance ac) (ac_suicided (a_suicided ac) ac2)) []) as Hf.
  { apply (fire_turns (λ o, set_data (mkAccount (Nonce (data o)) (a_balance ac) (Root (data o)) (CodeHash (data o)))
      (set_flags (a_suicided ac) (touched o) (deleted o) (onDirty o) o))); [|done].
    intros o _ Hv. rewrite (ov_nonce _ _ _ _ _ _ Hv : a_nonce ac = _).
    apply (view_data _ _ _ _ (set_flags (a_suicided ac) (touched o) (deleted o) (onDirty o) o)). by apply view_flags. }
  intros s Hobs. cbn [undo]. unfold with_object.
  destruct (getStateObject_spec keccak key_ok contents d m s _ a Hobs Hbase Hk) as (r & s1 & Hget & Hobs1 & Hb & Hr).
  cbn in Hr. rewrite decide_True in Hr by done. destruct Hr as (o & -> & _ & Ha & Hd & Hv). rewrite (run_bind_Ret _ _ _ _ _ Hget).
  destruct (file_spec f a _ _ [] o s1 _ Hf Hobs1 Hk Ha Hd Hv) as (s2 & Hrun & Hobs2 & Hj & Hrev & Hn).
  exists s2. split; [exact Hrun|]. split; [|rewrite app_nil_r in Hj; unfold book in *; congruence].
  assert (ac_data (a_nonce ac) (a_balance ac) (ac_suicided (a_suicided ac) ac2) ≡ ac) as Heq by done.
  by rewrite put_put, Heq, <-HV, put_id in Hobs2.
Qed.

Lemma entry_touch a ac to di V : key_ok a → accts V a = Some ac → entry_ok (touchChange a to di) V V.
Proof.
  intros Hk HV s Hobs. cbn [undo]. destruct (negb to && bool_decide (a ≠ ripemd)); [|by exists s].
  assert (turns (λ o, mret (set_flags (suicided o) to (deleted o) (onDirty o) o)) a ac ac []) as Hf.
  { intros o s0 Ha Hd Hv _. eexists _, s0. rewrite app_nil_r. split; [done|]. split; [done|]. split_and!; try done. by apply view_same_flags. }
  destruct (on_object_spec _ a ac ac s V Hf Hobs Hk HV) as (s1 & Hrun & Hobs1 & Hb). rewrite <-HV, put_id in Hobs1.
  rewrite (run_bind_Ret _ _ _ _ _ Hrun). destruct di; [by exists s1|]. eexists. split; [done|]. split; [|done].
  by apply (obs_light _ _ _ _ _ s1).
Qed.

Definition v_set_refund (r : Z) V : sview :=
  mkView (accts V) r (v_thash V) (v_bhash V) (v_txIndex V) (v_logs V) (v_logSize V) (v_preimages V).

Lemma entry_refund r V : entry_ok (refundChange (v_refund V)) V (v_set_refund r V).
Proof.
  intros s [E1 E2 E3 E4 E5 E6 E7 E8 E9 E10 E11]. eexists. split; [done|]. split; [|done]. by split.
Qed.

Definition v_set_preimages p V : sview :=
  mkView (accts V) (v_refund V) (v_thash V) (v_bhash V) (v_txIndex V) (v_logs V) (v_logSize V) p.

Lemma entry_preimage h p V :
  v_preimages V !! h = None → entry_ok (addPreimageChange h) V (v_set_preimages (<[h := p]> (v_preimages V)) V).
Proof.
  intros HV s [E1 E2 E3 E4 E5 E6 E7 E8 E9 E10 E11]. eexists. split; [done|]. split; [|done]. split; try done.
  cbn in *. rewrite E11. by rewrite delete_insert_id.
Qed.

(** The log as it is filed. *)
Definition filed (l : Log) V : Log :=
  mkLog (l_Address l) (Topics l) (Data l) (BlockNumber l) (v_thash V) (v_txIndex V mod 2 ^ 64) (v_bhash V) (v_logSize V) (Removed l).
Definition v_add_log (l : Log) V : sview :=
  mkView (accts V) (v_refund V) (v_thash V) (v_bhash V) (v_txIndex V)
         (λ h, if decide (h = v_thash V) then v_logs V h ++ [filed l V] else v_logs V h) ((v_logSize V + 1) mod 2 ^ 64) (v_preimages V).

Lemma entry_log l V : 0 ≤ v_logSize V < 2 ^ 64 → entry_ok (addLogChange (v_thash V)) V (v_add_log l V).
Proof.
  intros Hn s [E1 E2 E3 E4 E5 E6 E7 E8 E9 E10 E11]. cbn [undo]. unfold mbind, M_bind, get. cbn beta iota.
  pose proof (E8 (v_thash V)) as Hl. cbn in Hl. rewrite decide_True in Hl by done.
  assert ((logSize s - 1) mod 2 ^ 64 = v_logSize V) as Hsz.
  { rewrite E9. cbn. rewrite Zminus_mod_idemp_l. replace (v_logSize V + 1 - 1) with (v_logSize V) by lia. by apply Z.mod_small. }
  rewrite Hl. unfold len. rewrite length_app. cbn [length].
  destruct (v_logs V (v_thash V)) as [|x ls] eqn:Hv.
  - rewrite bool_decide_eq_true_2 by done. eexists. split; [done|]. split; [|done]. split; try done.
    + intros h. cbn. specialize (E8 h). cbn in E8. destruct (decide (h = v_thash V)) as [->|Hne].
      * by rewrite lookup_delete_eq, Hv.
      * by rewrite lookup_delete_ne by done.
    + cbn. by rewrite Hsz.
  - rewrite bool_decide_eq_false_2 by (cbn [length]; lia). rewrite bool_decide_eq_false_2 by done.
    eexists. split; [done|]. split; [|done]. split; try done.
    + intros h. cbn [logs set_logs]. specialize (E8 h). cbn in E8. destruct (decide (h = v_thash V)) as [->|Hne].
      * rewrite lookup_insert_eq, Hv. cbn [default from_option id].
        replace (length (x :: ls) + 1 - 1)%nat with (length (x :: ls)) by lia. by rewrite take_app_length.
      * by rewrite lookup_insert_ne by done.
    + cbn. by rewrite Hsz.
Qed.

(** ** Sequences of entries *)
Inductive chain : list (journalEntry TR) → sview → sview → Prop :=
  | chain_nil V V' : V ≡ V' → chain [] V V'
  | chain_snoc es e V1 V2 V3 : chain es V1 V2 → entry_ok e V2 V3 → chain (es ++ [e]) V1 V3.

Lemma chain_one e V V' : entry_ok e V V' → chain [e] V V'.
Proof. intros He. apply (chain_snoc [] e V V V'); [by constructor|done]. Qed.

Lemma chain_equiv es V1 V2 V1' V2' : V1 ≡ V1' → V2 ≡ V2' → chain es V1 V2 → chain es V1' V2'.
Proof.
  intros HV1 HV2 Hc. revert V2' HV2. induction Hc as [V V' Heq|es e V1 V2 V3 Hc IH He]; intros V2' HV2.
  - constructor. by rewrite <-HV1, Heq.
  - eapply chain_snoc; [by apply IH|]. by apply (entry_equiv e V2 V3).
Qed.

Lemma chain_app es1 es2 V1 V2 V3 : chain es1 V1 V2 → chain es2 V2 V3 → chain (es1 ++ es2) V1 V3.
Proof.
  intros H12. revert V3. induction es2 as [|e es2 IH] using rev_ind; intros V3 H23.
  - inversion H23 as [V V' Heq|es e V V' V'' _ _ Hnil]; subst; [|by destruct es]. rewrite app_nil_r. by apply (chain_equiv _ V1 V2).
  - inversion H23 as [V V' Heq|es e' V V' V'' Hc He Hnil]; subst; [by destruct es2|]. apply app_inj_tail in Hnil as [-> ->].
    rewrite app_assoc. eapply chain_snoc; [by apply IH|done].
Qed.

(** Undoing the entries from the last on. *)
Lemma undo_chain es V V' s :
  chain es V V' → obs s V' → ∃ s', undo_all keccak es s = (Ret tt, s') ∧ obs s' V ∧ book s' = book s.
Proof.
  intros Hc. revert s. induction Hc as [V V' Heq|es e V1 V2 V3 Hc IH He]; intros s Hobs.
  - exists s. split; [done|]. split; [by rewrite Heq|done].
  - destruct (He s Hobs) as (s1 & Hrun & Hobs1 & Hb). destruct (IH s1 Hobs1) as (s2 & Hrun2 & Hobs2 & Hb2). exists s2.
    split; [|split; [done|congruence]]. unfold undo_all in *. rewrite reverse_snoc. cbn [for_each].
    by rewrite (run_bind_Ret _ _ _ _ _ Hrun).
Qed.
End Undo.
