(* ===== verification/StateOps.v ===== *)
(** The operations of the state against its view: each does what it should to the accounts and
    leaves journal entries that bring the view back. *)
From S2P Require Import Prelude Bytes HexKeys Rlp RlpRaw RlpStream TrieNode State StateView StateUndo.
Open Scope Z_scope.

Section Ops.
Context {SDB TR : Type} `{StateTrie TR} `{StateDatabase SDB TR} `{RangeOrder}.
Context (keccak : bytes → bytes) (keccak_len : ∀ b, len (keccak b) = 32).
Context (key_ok : bytes → Prop) (contents : TR → gmap bytes bytes → Prop).
Context `{!TrieLaws TR key_ok contents} (d : SDB) `{!StateDatabaseLaws contents d}.
Context (m : gmap bytes bytes) (Hbase : base_ok keccak key_ok contents d m).
Implicit Types (o : stateObject TR) (s : StateDB SDB TR) (V : sview) (e : journalEntry TR).
#[local] Abbreviation obs := (obs keccak key_ok contents d m).
#[local] Abbreviation obj_view := (obj_view keccak key_ok contents d).
#[local] Abbreviation entry_ok := (entry_ok keccak key_ok contents d m).
#[local] Abbreviation chain := (chain keccak key_ok contents d m).
#[local] Abbreviation turns := (turns keccak key_ok contents d).
#[local] Abbreviation getStateObject_spec := (getStateObject_spec keccak key_ok contents d m).

#[local] Instance obs_equiv' : Proper ((=) ==> (≡) ==> iff) obs := obs_proper keccak key_ok contents d m.

(** From [s] to [s'] the journal grew by [es]. *)
Definition wrote s s' (es : list (journalEntry TR)) : Prop :=
  journal s' = journal s ++ es ∧ validRevisions s' = validRevisions s ∧ nextRevisionId s' = nextRevisionId s.

Lemma wrote_nil s s' : book s' = book s → wrote s s' [].
Proof. unfold book, wrote. rewrite app_nil_r. intros [= -> -> ->]. done. Qed.

Lemma wrote_trans s1 s2 s3 es es' : wrote s1 s2 es → wrote s2 s3 es' → wrote s1 s3 (es ++ es').
Proof. intros (Hj & Hr & Hn) (Hj' & Hr' & Hn'). unfold wrote. rewrite Hj', Hj, app_assoc. split_and!; congruence. Qed.

(** On a state that shows [V] the call answers [r], shows [V'] afterwards, and its journal
    entries lead back to [V]. *)
Definition does {A} (f : M (StateDB SDB TR) A) V (r : A) V' : Prop :=
  ∀ s, obs s V → ∃ s' es, f s = (Ret r, s') ∧ obs s' V' ∧ wrote s s' es ∧ chain es V V'.

(** ** Reading *)
Lemma with_object_does {A} a (none : A) (f : stateObject TR → M (StateDB SDB TR) A) V (r : A) :
  key_ok a →
  match accts V a with
  | None => r = none
  | Some ac => ∀ o s, obs s V → address o = a → deleted o = false → obj_view o ac →
      ∃ s', f o s = (Ret r, s') ∧ obs s' V ∧ book s' = book s
  end →
  does (with_object keccak a none f) V r V.
Proof.
  intros Hk Hf s Hobs. unfold with_object.
  destruct (getStateObject_spec s V a Hobs Hbase Hk) as (ro & s1 & Hget & Hobs1 & Hb & Hr). rewrite (run_bind_Ret _ _ _ _ _ Hget).
  destruct (accts V a) as [ac|].
  - destruct Hr as (o & -> & _ & Ha & Hd & Hv). destruct (Hf o s1 Hobs1 Ha Hd Hv) as (s2 & Hrun & Hobs2 & Hb2).
    exists s2, []. split; [done|]. split; [done|]. split; [apply wrote_nil; congruence|by constructor].
  - destruct Hr as [-> _]. subst r. exists s1, []. split; [done|]. split; [done|]. split; [by apply wrote_nil|by constructor].
Qed.

Lemma read_does {A} a (none : A) (f : stateObject TR → A) (g : acct → A) V :
  key_ok a → (∀ o ac, obj_view o ac → f o = g ac) →
  does (with_object keccak a none (λ o, mret (f o))) V (match accts V a with Some ac => g ac | None => none end) V.
Proof.
  intros Hk Hfg. apply with_object_does; [done|]. destruct (accts V a) as [ac|]; [|done].
  intros o s Hobs _ _ Hv. exists s. by rewrite (Hfg o ac Hv).
Qed.

Lemma Exist_does a V : key_ok a → does (Exist keccak a) V (bool_decide (is_Some (accts V a))) V.
Proof.
  intros Hk. replace (bool_decide (is_Some (accts V a))) with (match accts V a with Some _ => true | None => false end) by by destruct (accts V a).
  by apply (read_does a false (λ _, true) (λ _, true)).
Qed.

Lemma GetBalance_does a V : key_ok a → does (GetBalance keccak a) V (match accts V a with Some ac => a_balance ac | None => 0 end) V.
Proof. intros Hk. apply read_does; [done|]. intros o ac Hv. by rewrite (ov_balance _ _ _ _ _ _ Hv). Qed.

Lemma GetNonce_does a V : key_ok a → does (GetNonce keccak a) V (match accts V a with Some ac => a_nonce ac | None => 0 end) V.
Proof. intros Hk. apply read_does; [done|]. intros o ac Hv. by rewrite (ov_nonce _ _ _ _ _ _ Hv). Qed.

Lemma GetCodeHash_does a V : key_ok a → does (GetCodeHash keccak a) V (match accts V a with Some ac => a_codehash ac | None => zero end) V.
Proof.
  intros Hk. apply read_does; [done|]. intros o ac Hv. rewrite (ov_codehash _ _ _ _ _ _ Hv). apply BytesToHash_32, (ov_hashlen _ _ _ _ _ _ Hv).
Qed.

Lemma HasSuicided_does a V : key_ok a → does (HasSuicided keccak a) V (match accts V a with Some ac => a_suicided ac | None => false end) V.
Proof. intros Hk. apply read_does; [done|]. intros o ac Hv. by rewrite (ov_suicided _ _ _ _ _ _ Hv). Qed.

Definition ac_empty (ac : acct) : bool :=
  bool_decide (a_nonce ac = 0) && bool_decide (a_balance ac = 0) && bool_decide (a_codehash ac = emptyCodeHash keccak).

Lemma empty_view o ac : obj_view o ac → empty keccak o = ac_empty ac.
Proof. intros Hv. unfold empty, ac_empty. by rewrite (ov_nonce _ _ _ _ _ _ Hv), (ov_balance _ _ _ _ _ _ Hv), (ov_codehash _ _ _ _ _ _ Hv). Qed.

Lemma Empty_does a V : key_ok a → does (Empty keccak a) V (match accts V a with Some ac => ac_empty ac | None => true end) V.
Proof. intros Hk. apply read_does; [done|]. apply empty_view. Qed.

Lemma file_same o o' s V ac :
  obs s V → key_ok (address o) → accts V (address o) = Some ac → same_place o o' → deleted o = false → obj_view o' ac →
  obs (set_objects (<[address o' := o']> (stateObjects s)) (stateObjectsDirty s) s) V.
Proof.
  intros Hobs Hk HV [Ha Hd] Hdel Hv. apply (obs_proper _ _ _ _ _ _ _ eq_refl (put (address o') (Some ac) V)).
  - rewrite Ha, <-HV. apply put_id.
  - apply obs_put; [done|by rewrite Ha|congruence|done].
Qed.

Lemma GetState_does a key V :
  key_ok a → key_ok key → does (GetState keccak a key) V (match accts V a with Some ac => a_storage ac key | None => zero end) V.
Proof.
  intros Hk Hkey. apply with_object_does; [done|]. destruct (accts V a) as [ac|] eqn:HV; [|done]. intros o s Hobs Ha Hd Hv.
  unfold mbind, M_bind, get, lift. cbn beta iota. rewrite (obs_db _ _ _ _ _ _ _ Hobs).
  destruct (obj_GetState_spec keccak key_ok contents d o ac key Hv Hkey) as (o' & -> & Hv' & Hp). eexists. split; [done|].
  split; [|done]. apply (file_same o o' s V ac); (done || congruence).
Qed.

Lemma GetCode_does a V :
  key_ok a → does (c ← GetCode keccak a; mret (default [] c)) V (match accts V a with Some ac => a_code ac | None => [] end) V.
Proof.
  intros Hk s Hobs. destruct (accts V a) as [ac|] eqn:HV.
  - unfold GetCode, with_object.
    destruct (getStateObject_spec s V a Hobs Hbase Hk) as (ro & s1 & Hget & Hobs1 & Hb & Hr). rewrite HV in Hr.
    destruct Hr as (o & -> & _ & Ha & Hd & Hv). 
    destruct (Code_spec keccak key_ok contents d o ac Hv) as (c & o' & Hc & Hdef & _ & Hv' & Hp & _).
    set (s2 := set_objects (<[address o' := o']> (stateObjects s1)) (stateObjectsDirty s1) s1).
    exists s2, []. split; [|split; [apply (file_same o o' s1 V ac); (done || congruence)|split; [by apply wrote_nil|by constructor]]].
    erewrite run_bind_Ret; [rewrite <-Hdef; reflexivity|]. rewrite (run_bind_Ret _ _ _ _ _ Hget).
    unfold mbind, M_bind, get, lift. cbn beta iota. rewrite (obs_db _ _ _ _ _ _ _ Hobs1), Hc. done.
  - destruct (with_object_does a None (λ o, s ← get; r ← lift (Code keccak (db s) o); setStateObject (snd r) ;; mret (fst r)) V None Hk) with (s := s)
      as (s1 & es & Hrun & Hobs1 & Hw & Hc); [by rewrite HV|done|].
    exists s1, es. split; [|done]. unfold GetCode. by rewrite (run_bind_Ret _ _ _ _ _ Hrun).
Qed.

(** ** Creating *)
Definition new_acct : acct := mkAcct 0 0 (emptyCodeHash keccak) [] false (λ _, zero).

Lemma view_new a cb : obj_view (newObject keccak a None cb) new_acct.
Proof.
  split; try done.
  - apply keccak_len.
  - unfold code_at. cbn. by rewrite bool_decide_eq_true_2.
  - destruct (open_zero (contents := contents) (keccak a)) as (t & Hopen & Ht). exists ∅. split; [split; [by exists t|]|].
    + by intros k enc ?%lookup_empty_Some.
    + intros key _. cbn. by rewrite !lookup_empty.
Qed.

Lemma createObject_spec s V a :
  obs s V → key_ok a →
  ∃ o prev s' e, createObject keccak a s = (Ret (o, prev), s') ∧ obs s' (put a (Some new_acct) V) ∧ wrote s s' [e] ∧
    (∀ r, entry_ok e V (put a r V)) ∧ address o = a ∧ deleted o = false ∧ obj_view o new_acct ∧
    match accts V a with Some ac => ∃ p, prev = Some p ∧ obj_view p ac | None => prev = None end.
Proof.
  intros Hobs Hk. unfold createObject.
  destruct (getStateObject_spec s V a Hobs Hbase Hk) as (prev & s1 & Hget & Hobs1 & Hb & Hr). rewrite (run_bind_Ret _ _ _ _ _ Hget).
  set (e := match prev with None => createObjectChange a | Some p => resetObjectChange p end).
  destruct (setNonce_turns keccak key_ok contents d 0 a new_acct (newObject keccak a None true) s1 eq_refl eq_refl (view_new a true) (obs_db _ _ _ _ _ _ _ Hobs1))
    as (o & s2 & Hset & Hl & Hj & Hrev & Hn & Hv & Ha & Hd). rewrite (run_bind_Ret _ _ _ _ _ Hset).
  pose proof (obs_light _ _ _ _ _ _ _ _ Hl Hobs1) as Hobs2. rewrite app_nil_r in Hj.
  eexists o, prev, _, e. split; [done|]. split.
  { rewrite <-Ha at 1. apply (obs_put _ _ _ _ _ (set_journal (journal s2 ++ [e]) (validRevisions s2) (nextRevisionId s2) s2)); [|by rewrite Ha|done|done].
    by apply (obs_light _ _ _ _ _ s2). }
  split; [unfold wrote; cbn; unfold book in Hb; injection Hb as <- <- <-; by rewrite Hj|]. split; [|split; [done|split; [done|split; [done|]]]].
  - intros r. unfold e. destruct (accts V a) as [ac|] eqn:HV.
    + destruct Hr as (p & -> & _ & Hpa & Hpd & Hpv). by apply (entry_reset _ _ _ _ _ a p ac).
    + destruct Hr as [-> Hba]. by apply entry_create.
  - destruct (accts V a) as [ac|]; [destruct Hr as (p & -> & _ & _ & _ & Hpv); eauto|by destruct Hr as [-> _]].
Qed.

Definition ensure (a : bytes) V : sview := match accts V a with Some _ => V | None => put a (Some new_acct) V end.
Definition acct_at (a : bytes) V : acct := default new_acct (accts V a).

Lemma ensure_at a V : accts (ensure a V) a = Some (acct_at a V).
Proof. unfold ensure, acct_at. destruct (accts V a) eqn:HV; [done|]. cbn. by rewrite decide_True. Qed.

Lemma put_ensure a r V : put a r (ensure a V) ≡ put a r V.
Proof. unfold ensure. destruct (accts V a); [done|apply put_put]. Qed.

Lemma GetOrNew_spec s V a :
  obs s V → key_ok a →
  ∃ o s' es, GetOrNewStateObject keccak a s = (Ret o, s') ∧ obs s' (ensure a V) ∧ wrote s s' es ∧ chain es V (ensure a V) ∧
    address o = a ∧ deleted o = false ∧ obj_view o (acct_at a V).
Proof.
  intros Hobs Hk. unfold GetOrNewStateObject, ensure, acct_at.
  destruct (getStateObject_spec s V a Hobs Hbase Hk) as (prev & s1 & Hget & Hobs1 & Hb & Hr). rewrite (run_bind_Ret _ _ _ _ _ Hget).
  destruct (accts V a) as [ac|] eqn:HV.
  - destruct Hr as (o & -> & _ & Ha & Hd & Hv). rewrite Hd. exists o, s1, []. split; [done|]. split; [done|].
    split; [by apply wrote_nil|]. split; [by constructor|done].
  - destruct Hr as [-> _]. destruct (createObject_spec s1 V a Hobs1 Hk) as (o & p & s2 & e & Hrun & Hobs2 & Hw & He & Ha & Hd & Hv & _).
    exists o, s2, [e]. rewrite (run_bind_Ret _ _ _ _ _ Hrun). split; [done|]. split; [done|].
    split; [apply (wrote_trans s s1 s2 [] [e]); [by apply wrote_nil|done]|]. split; [apply chain_one, He|done].
Qed.

(** ** Changing *)
(** The entries may depend on more than the view of the object. *)
Definition alters (f : stateObject TR → M (StateDB SDB TR) (stateObject TR)) (a : bytes) (ac ac' : acct) (P : list (journalEntry TR) → Prop) : Prop :=
  ∀ o s, address o = a → deleted o = false → obj_view o ac → db s = d →
  ∃ es o' s', P es ∧ f o s = (Ret o', s') ∧ light s s' ∧ wrote s s' es ∧ obj_view o' ac' ∧ address o' = a ∧ deleted o' = false.

Lemma turns_alters f a ac ac' es (P : list (journalEntry TR) → Prop) : turns f a ac ac' es → P es → alters f a ac ac' P.
Proof.
  intros Hf HP o s Ha Hd Hv Hdb. destruct (Hf o s Ha Hd Hv Hdb) as (o' & s' & Hrun & Hl & Hj & Hr & Hn & Hv' & Ha' & Hd').
  by exists es, o', s'.
Qed.

Lemma changing_does a f ac' V :
  key_ok a → alters f a (acct_at a V) ac' (λ es, chain es (ensure a V) (put a (Some ac') V)) →
  does (changing keccak a f) V tt (put a (Some ac') V).
Proof.
  intros Hk Hf s Hobs. unfold changing.
  destruct (GetOrNew_spec s V a Hobs Hk) as (o & s1 & es1 & Hrun & Hobs1 & Hw1 & Hc1 & Ha & Hd & Hv). rewrite (run_bind_Ret _ _ _ _ _ Hrun).
  destruct (Hf o s1 Ha Hd Hv (obs_db _ _ _ _ _ _ _ Hobs1)) as (es & o' & s2 & Hc & Hrun2 & Hl & Hw & Hv' & Ha' & Hd').
  rewrite (run_bind_Ret _ _ _ _ _ Hrun2). eexists _, (es1 ++ es). split; [done|].
  split; [|split; [by apply (wrote_trans s s1)|by apply (chain_app _ _ _ _ _ _ _ _ (ensure a V))]].
  apply (obs_proper _ _ _ _ _ _ _ eq_refl (put a (Some ac') (ensure a V))); [apply put_ensure|].
  pose proof (obs_put keccak key_ok contents d m s2 (ensure a V) o' ac') as Hput. rewrite Ha' in Hput |- *.
  apply Hput; [by apply (obs_light _ _ _ _ _ s1)|done..].
Qed.

Lemma chain_entry e a ac' V :
  entry_ok e (ensure a V) (put a (Some ac') (ensure a V)) → chain [e] (ensure a V) (put a (Some ac') V).
Proof. intros He. apply chain_one. eapply entry_equiv; [done|apply put_ensure|done]. Qed.

Lemma one_entry_does a f ac' e V :
  key_ok a → turns f a (acct_at a V) ac' [e] → entry_ok e (ensure a V) (put a (Some ac') (ensure a V)) →
  does (changing keccak a f) V tt (put a (Some ac') V).
Proof. intros Hk Hf He. apply changing_does; [done|]. eapply turns_alters; [done|by apply chain_entry]. Qed.

Lemma SetBalance_does a b V :
  key_ok a → does (SetBalance keccak a b) V tt (put a (Some (ac_data (a_nonce (acct_at a V)) b (acct_at a V))) V).
Proof. intros Hk. eapply one_entry_does; [done|apply SetBalance_turns|]. by apply entry_balance; [..|apply ensure_at]. Qed.

Lemma SetNonce_does a n V :
  key_ok a → does (SetNonce keccak a n) V tt (put a (Some (ac_data n (a_balance (acct_at a V)) (acct_at a V))) V).
Proof. intros Hk. eapply one_entry_does; [done|apply SetNonce_turns|]. by apply entry_nonce; [..|apply ensure_at]. Qed.

Lemma with_db {A} (f : SDB → M (StateDB SDB TR) A) s : db s = d → (s ← get; f (db s)) s = f d s.
Proof. unfold mbind, M_bind, get. by intros ->. Qed.

Lemma SetState_does a key v V :
  key_ok a → key_ok key → does (SetState keccak a key v) V tt (put a (Some (ac_slot key v (acct_at a V))) V).
Proof.
  intros Hk Hkey. eapply (one_entry_does a); [done| |by apply entry_storage; [..|apply ensure_at]].
  intros o s Ha Hd Hv Hdb. rewrite (with_db (λ d, obj_SetState d key v o)) by done. by apply SetState_turns.
Qed.

Lemma SetCode_does a c V :
  key_ok a → does (SetCode keccak a c) V tt (put a (Some (ac_code (keccak (default [] c)) (default [] c) (acct_at a V))) V).
Proof.
  intros Hk. apply changing_does; [done|]. intros o s Ha Hd Hv Hdb.
  rewrite (with_db (λ d, obj_SetCode keccak d (keccak (default [] c)) c o)) by done.
  destruct (SetCode_turns keccak key_ok contents d (keccak (default [] c)) c a (acct_at a V) (keccak_len _) o s Ha Hd Hv Hdb)
    as (pc & o' & s' & Hrun & Hl & Hj & Hr & Hn & Hv' & Ha' & Hd' & Hpc).
  assert (code_at keccak d a (keccak (default [] c)) c = default [] c) as Hcode.
  { destruct c; [done|]. unfold code_at. by rewrite bool_decide_eq_true_2. }
  rewrite Hcode in Hv'. exists [codeChange a pc (a_codehash (acct_at a V))], o', s'. split_and!; try done.
  apply chain_entry. apply entry_code; [done|done|done|apply ensure_at| |done].
  rewrite (ov_codehash _ _ _ _ _ _ Hv). apply (ov_hashlen _ _ _ _ _ _ Hv).
Qed.

Lemma put_same a V : put a (Some (acct_at a V)) V ≡ ensure a V.
Proof. rewrite <-put_ensure, <-ensure_at. apply put_id. Qed.

(** Nothing changes but perhaps the marks of the object. *)
Lemma idle_does a f V :
  key_ok a → alters f a (acct_at a V) (acct_at a V) (λ es, chain es (ensure a V) (ensure a V)) →
  does (changing keccak a f) V tt (put a (Some (acct_at a V)) V).
Proof.
  intros Hk Hf. apply changing_does; [done|]. intros o s Ha Hd Hv Hdb. destruct (Hf o s Ha Hd Hv Hdb) as (es & o' & s' & Hc & Hrest).
  exists es, o', s'. split; [|done]. eapply chain_equiv; [done|symmetry; apply put_same|done].
Qed.

Lemma does_equiv {A} (f : M (StateDB SDB TR) A) V r V1 V2 : V1 ≡ V2 → does f V r V1 → does f V r V2.
Proof.
  intros Heq Hf s Hobs. destruct (Hf s Hobs) as (s' & es & Hrun & Hobs' & Hw & Hc). exists s', es. split; [done|].
  split; [by rewrite <-Heq|]. split; [done|]. by eapply chain_equiv.
Qed.

Lemma touch_alters a V : key_ok a → alters touch a (acct_at a V) (acct_at a V) (λ es, chain es (ensure a V) (ensure a V)).
Proof.
  intros Hk o s Ha Hd Hv Hdb. set (e := touchChange (address o) (touched o) (negb (onDirty o)) : journalEntry TR).
  destruct (journal_turns keccak key_ok contents d e fire a (acct_at a V) (acct_at a V)) with (o := o) (s := s)
    as (o' & s' & Hrun & Hl & Hj & Hr & Hn & Hv' & Ha' & Hd'); [by apply (fire_turns _ _ _ _ (λ o, o))|done..|].
  exists [e], (set_flags (suicided o') true (deleted o') (onDirty o') o'), s'.
  split; [apply chain_one; unfold e; rewrite Ha; eapply entry_touch; [done|done|done|apply ensure_at]|].
  split; [|split_and!; try done; by apply view_same_flags]. unfold touch. fold e.
  change ((append_journal e ;; fire o) s = (Ret o', s')) in Hrun.
  unfold mbind, M_bind in *. destruct (append_journal e s) as [[[]| | |] s1]; try done.
  by destruct (fire o s1) as [[| | |] s2]; try done; injection Hrun as -> ->.
Qed.

Lemma AddBalance_does a x V :
  key_ok a → does (AddBalance keccak a x) V tt
    (put a (Some (ac_data (a_nonce (acct_at a V)) (a_balance (acct_at a V) + x) (acct_at a V))) V).
Proof.
  intros Hk. set (ac := acct_at a V). destruct (decide (x = 0)) as [->|Hx].
  - apply (does_equiv _ _ _ (put a (Some ac) V)).
    { assert (ac_data (a_nonce ac) (a_balance ac + 0) ac ≡ ac) as Heq by (rewrite Z.add_0_r; done). by rewrite Heq. }
    apply idle_does; [done|]. intros o s Ha Hd Hv Hdb. unfold obj_AddBalance. rewrite bool_decide_eq_true_2 by done.
    destruct (empty keccak o); [by apply touch_alters|]. exists [], o, s. split; [by constructor|]. split_and!; try done. by apply wrote_nil.
  - eapply one_entry_does; [done| |by apply entry_balance; [..|apply ensure_at]].
    eapply turns_ext; [|apply SetBalance_turns].
    intros o s _ Hv. unfold obj_AddBalance. rewrite bool_decide_eq_false_2 by done. by rewrite <-(ov_balance _ _ _ _ _ _ Hv).
Qed.

Lemma SubBalance_does a x V :
  key_ok a → does (SubBalance keccak a x) V tt
    (put a (Some (ac_data (a_nonce (acct_at a V)) (a_balance (acct_at a V) - x) (acct_at a V))) V).
Proof.
  intros Hk. set (ac := acct_at a V). destruct (decide (x = 0)) as [->|Hx].
  - apply (does_equiv _ _ _ (put a (Some ac) V)).
    { assert (ac_data (a_nonce ac) (a_balance ac - 0) ac ≡ ac) as Heq by (rewrite Z.sub_0_r; done). by rewrite Heq. }
    apply idle_does; [done|]. intros o s Ha Hd Hv Hdb. unfold obj_SubBalance. rewrite bool_decide_eq_true_2 by done.
    exists [], o, s. split; [by constructor|]. split_and!; try done. by apply wrote_nil.
  - eapply one_entry_does; [done| |by apply entry_balance; [..|apply ensure_at]].
    eapply turns_ext; [|apply SetBalance_turns].
    intros o s _ Hv. unfold obj_SubBalance. rewrite bool_decide_eq_false_2 by done. by rewrite <-(ov_balance _ _ _ _ _ _ Hv).
Qed.

Lemma CreateAccount_does a V :
  key_ok a → does (CreateAccount keccak a) V tt (put a (Some (ac_data 0 (a_balance (acct_at a V)) new_acct)) V).
Proof.
  intros Hk s Hobs. unfold CreateAccount, acct_at.
  destruct (createObject_spec s V a Hobs Hk) as (o & p & s1 & e & Hrun & Hobs1 & Hw & He & Ha & Hd & Hv & Hp). rewrite (run_bind_Ret _ _ _ _ _ Hrun).
  cbn [fst snd]. destruct (accts V a) as [ac|]; cbn [default from_option id].
  - destruct Hp as (p' & -> & Hpv).
    destruct (file_spec keccak key_ok contents d m _ _ _ _ _ o s1 _ (setBalance_turns keccak key_ok contents d (Balance (data p')) a new_acct) Hobs1 Hk Ha Hd Hv)
      as (s2 & Hrun2 & Hobs2 & Hj & Hr & Hn).
    exists s2, [e]. split; [exact Hrun2|]. rewrite put_put in Hobs2. rewrite (ov_balance _ _ _ _ _ _ Hpv : a_balance ac = _). split; [done|].
    split; [|apply chain_one, He]. rewrite app_nil_r in Hj. unfold wrote in *. rewrite Hj, Hr, Hn. done.
  - subst p. exists s1, [e]. split; [done|]. split; [done|]. split; [done|apply chain_one, He].
Qed.

Lemma Suicide_does a V :
  key_ok a → does (Suicide keccak a) V (bool_decide (is_Some (accts V a)))
    (match accts V a with Some ac => put a (Some (ac_suicided true (ac_data (a_nonce ac) 0 ac))) V | None => V end).
Proof.
  intros Hk s Hobs. unfold Suicide, with_object.
  destruct (getStateObject_spec s V a Hobs Hbase Hk) as (r & s1 & Hget & Hobs1 & Hb & Hr). rewrite (run_bind_Ret _ _ _ _ _ Hget).
  destruct (accts V a) as [ac|] eqn:HV.
  - destruct Hr as (o & -> & _ & Ha & Hd & Hv). set (e := suicideChange a (a_suicided ac) (a_balance ac) : journalEntry TR).
    assert (turns markSuicided a ac (ac_suicided true ac) []) as Hf.
    { apply (fire_turns _ _ _ _ (λ o, set_flags true (touched o) (deleted o) (onDirty o) o)); [|done]. intros o1 _. apply view_flags. }
    destruct (journal_turns keccak key_ok contents d e _ _ _ _ Hf o s1 Ha Hd Hv (obs_db _ _ _ _ _ _ _ Hobs1)) as (o2 & s2 & Hrun & Hl & Hj & Hrev & Hn & Hv2 & Ha2 & Hd2).
    set (o3 := set_data (mkAccount (Nonce (data o2)) 0 (Root (data o2)) (CodeHash (data o2))) o2).
    exists (set_objects (<[address o3 := o3]> (stateObjects s2)) (stateObjectsDirty s2) s2), [e].
    split; [|split; [|split]].
    + assert (e = suicideChange a (suicided o) (Balance (data o))) as Ee.
      { unfold e. by rewrite (ov_suicided _ _ _ _ _ _ Hv), (ov_balance _ _ _ _ _ _ Hv). }
      rewrite <-Ee. unfold mbind, M_bind in Hrun |- *. destruct (append_journal e s1) as [[[]| | |] s1']; try done.
      destruct (markSuicided o s1') as [[o2'| | |] s2']; try done. injection Hrun as -> ->. done.
    + apply (obs_proper _ _ _ _ _ _ _ eq_refl (put (address o3) (Some (ac_data (Nonce (data o2)) 0 (ac_suicided true ac))) V)).
      * change (address o3) with (address o2). rewrite Ha2, <-(ov_nonce _ _ _ _ _ _ Hv2). done.
      * apply obs_put; [by apply (obs_light _ _ _ _ _ s1)|by change (address o3) with (address o2); rewrite Ha2|done|]. by apply view_data.
    + apply (wrote_trans s s1 _ [] [e]); [by apply wrote_nil|done].
    + apply chain_one. by apply entry_suicide.
  - destruct Hr as [-> _]. exists s1, []. split; [done|]. split; [done|]. split; [by apply wrote_nil|by constructor].
Qed.

(** ** Logs, preimages and the refund *)
Lemma AddRefund_does x V : does (AddRefund x) V tt (v_set_refund (v_refund V + x) V).
Proof.
  intros s Hobs. pose proof Hobs as [E1 E2 E3 E4 E5 E6 E7 E8 E9 E10 E11]. eexists _, [refundChange (v_refund V)].
  split; [unfold AddRefund, mbind, M_bind, get; cbn beta iota; rewrite E4; reflexivity|]. split; [|split; [done|apply chain_one, entry_refund]].
  split; try done. cbn. by rewrite E4.
Qed.

Lemma AddPreimage_does h p V :
  does (AddPreimage h p) V tt
    (match v_preimages V !! h with Some _ => V | None => v_set_preimages (<[h := p]> (v_preimages V)) V end).
Proof.
  intros s Hobs. pose proof Hobs as [E1 E2 E3 E4 E5 E6 E7 E8 E9 E10 E11]. unfold AddPreimage, mbind, M_bind, get. cbn beta iota. rewrite E11.
  destruct (v_preimages V !! h) as [q|] eqn:Hq.
  - exists s, []. split; [done|]. split; [done|]. split; [by apply wrote_nil|by constructor].
  - eexists _, [addPreimageChange h]. split; [done|]. split; [|split; [done|by apply chain_one, entry_preimage]].
    split; try done. cbn. by rewrite E11.
Qed.

Lemma AddLog_does l V : does (AddLog l) V tt (v_add_log l V).
Proof.
  intros s Hobs. pose proof Hobs as [E1 E2 E3 E4 E5 E6 E7 E8 E9 E10 E11].
  eexists _, [addLogChange (v_thash V)]. unfold AddLog, mbind, M_bind, get. cbn beta iota. rewrite E5.
  split; [reflexivity|]. split; [|split; [done|apply chain_one, entry_log; congruence]].
  split; try done.
  - intros h. cbn. rewrite E5, E6, E7, E9. specialize (E8 h). destruct (decide (h = v_thash V)) as [->|Hne].
    + by rewrite lookup_insert_eq, E8.
    + by rewrite lookup_insert_ne by done.
  - cbn. by rewrite E9.
  - cbn. apply Z.mod_pos_bound. lia.
Qed.
End Ops.
