(* ===== verification/StateProps.v ===== *)
(** The state against its specification: accounts, logs, preimages and a refund, with a stack
    of saved views that can be returned to. *)
From S2P Require Import Prelude Bytes HexKeys Rlp RlpRaw RlpStream TrieNode Trie TrieTree TrieSpec SecureTrie State StateView StateDatabase StateUndo StateOps.
Open Scope Z_scope.

Lemma run_lift_Ret {S A B} (o : outcome A) (f : A → M S B) s a : o = Ret a → (lift o ≫= f) s = f a s.
Proof. by intros ->. Qed.

(** ** Searching *)
Lemma sort_search_spec fuel (f : Z → bool) i j :
  i ≤ j → (Z.to_nat (j - i) ≤ fuel)%nat →
  (∀ x y, i ≤ x → x ≤ y → y < j → f x = true → f y = true) →
  ∃ k, sort_search fuel (λ h, Ret (f h)) i j = Ret k ∧ i ≤ k ≤ j ∧ (∀ x, i ≤ x < k → f x = false) ∧ (∀ x, k ≤ x < j → f x = true).
Proof.
  revert i j. induction fuel as [|fuel IH]; intros i j Hij Hf Hmono; cbn [sort_search].
  - rewrite bool_decide_eq_false_2 by lia. exists i. split; [done|]. split; [lia|]. split; intros x ?; lia.
  - case_bool_decide as Hlt; [|exists i; split; [done|]; split; [lia|]; split; intros x ?; lia].
    cbn [mbind outcome_bind]. set (h := (i + j) / 2). assert (i ≤ h < j) as Hh.
    { unfold h. split; [apply Z.div_le_lower_bound; lia|apply Z.div_lt_upper_bound; lia]. }
    destruct (f h) eqn:Hfh; cbn [negb].
    + destruct (IH i h) as (k & -> & Hk & Hlo & Hhi); [lia..| |].
      { intros x y ???. apply Hmono; lia. }
      exists k. split; [done|]. split; [lia|]. split; [done|]. intros x Hx. destruct (decide (x < h)); [apply Hhi; lia|].
      apply (Hmono h x); (done || lia).
    + destruct (IH (h + 1) j) as (k & -> & Hk & Hlo & Hhi); [lia..| |].
      { intros x y ???. apply Hmono; lia. }
      exists k. split; [done|]. split; [lia|]. split; [|done]. intros x Hx. destruct (decide (x ≤ h)) as [Hxh|]; [|apply Hlo; lia].
      destruct (f x) eqn:Hfx; [|done]. rewrite (Hmono x h) in Hfh; (done || lia).
Qed.

Lemma sort_search_ext fuel f g i j : (∀ x, i ≤ x < j → f x = g x) → sort_search fuel f i j = sort_search fuel g i j.
Proof.
  revert i j. induction fuel as [|fuel IH]; intros i j Hfg; cbn [sort_search]; case_bool_decide as Hlt; try done.
  set (h := (i + j) / 2). assert (i ≤ h < j) as Hh.
  { unfold h. split; [apply Z.div_le_lower_bound; lia|apply Z.div_lt_upper_bound; lia]. }
  rewrite (Hfg h Hh). destruct (g h) as [b| | |]; try done. cbn [mbind outcome_bind].
  destruct b; cbn [negb]; apply IH; intros x Hx; apply Hfg; lia.
Qed.

(** The place of a revision. *)
Definition ids_sorted (v : list (Z * Z)) : Prop := ∀ i j a b, v !! i = Some a → v !! j = Some b → (i < j)%nat → fst a < fst b.

Lemma find_revision v id :
  ids_sorted v →
  ∃ k, sort_search (S (length v)) (λ i, r ← index v i; Ret (bool_decide (id ≤ fst r))) 0 (len v) = Ret k ∧ 0 ≤ k ≤ len v ∧
    (∀ i j, v !! i = Some (id, j) → k = Z.of_nat i).
Proof.
  intros Hs. set (f := λ i, match v !! Z.to_nat i with Some r => bool_decide (id ≤ fst r) | None => false end).
  assert (∀ i, 0 ≤ i < len v → (r ← index v i; Ret (bool_decide (id ≤ fst r))) = Ret (f i)) as Hf.
  { intros i Hi. destruct (index_in_range v i Hi) as (r & -> & Hr). unfold f. by rewrite Hr. }
  rewrite (sort_search_ext _ _ (λ i, Ret (f i))) by done.
  destruct (sort_search_spec (S (length v)) f 0 (len v)) as (k & Hk & Hk0 & Hlo & Hhi); [unfold len; lia..| |].
  { intros x y Hx Hxy Hy. unfold f. destruct (index_in_range v x) as (a & _ & Ha); [unfold len in Hy; lia|].
    destruct (index_in_range v y) as (b & _ & Hb); [unfold len in Hy; lia|]. rewrite Ha, Hb. intros Hid%bool_decide_eq_true.
    apply bool_decide_eq_true_2. destruct (decide (x = y)) as [->|Hne]; [congruence|].
    specialize (Hs (Z.to_nat x) (Z.to_nat y) a b Ha Hb ltac:(lia)). lia. }
  exists k. split; [done|]. split; [done|]. intros i j Hi. pose proof (lookup_lt_Some _ _ _ Hi) as Hil.
  destruct (Z.lt_trichotomy k (Z.of_nat i)) as [Hlt|[Heq|Hgt]]; [|done|].
  - assert (f k = true) as Hfk by (apply Hhi; unfold len; lia). unfold f in Hfk.
    destruct (v !! Z.to_nat k) as [r|] eqn:Hr; [|done]. apply bool_decide_eq_true in Hfk.
    specialize (Hs (Z.to_nat k) i r _ Hr Hi ltac:(lia)). cbn in Hs. lia.
  - specialize (Hlo (Z.of_nat i) ltac:(lia)). unfold f in Hlo. rewrite Nat2Z.id, Hi in Hlo. apply bool_decide_eq_false in Hlo. cbn in Hlo. lia.
Qed.

(** ** Calls *)
Inductive sop :=
  | SAddBalance (a : bytes) (x : Z) | SSubBalance (a : bytes) (x : Z) | SSetBalance (a : bytes) (x : Z) | SSetNonce (a : bytes) (n : Z)
  | SSetCode (a : bytes) (c : option bytes) | SSetState (a key v : bytes) | SSuicide (a : bytes) | SCreateAccount (a : bytes)
  | SAddLog (l : Log) | SAddRefund (x : Z) | SAddPreimage (h p : bytes)
  | SExist (a : bytes) | SEmpty (a : bytes) | SGetBalance (a : bytes) | SGetNonce (a : bytes) | SGetCodeHash (a : bytes) | SGetCode (a : bytes)
  | SGetState (a key : bytes) | SHasSuicided (a : bytes) | SGetLogs (h : bytes) | SGetRefund
  | SSnapshot | SRevert (id : Z).
Inductive sans := RUnit | RBool (b : bool) | RZ (z : Z) | RBytes (b : bytes) | RLogs (l : list Log).

Section Props.
Context {SDB TR : Type} `{StateTrie TR} `{StateDatabase SDB TR} `{RangeOrder}.
Context (keccak : bytes → bytes) (key_ok : bytes → Prop) (contents : TR → gmap bytes bytes → Prop) (d : SDB) (m : gmap bytes bytes).
Implicit Types (s : StateDB SDB TR) (V : sview).

Definition sexec (o : sop) : M (StateDB SDB TR) sans :=
  match o with
  | SAddBalance a x => AddBalance keccak a x ;; mret RUnit
  | SSubBalance a x => SubBalance keccak a x ;; mret RUnit
  | SSetBalance a x => SetBalance keccak a x ;; mret RUnit
  | SSetNonce a n => SetNonce keccak a n ;; mret RUnit
  | SSetCode a c => SetCode keccak a c ;; mret RUnit
  | SSetState a key v => SetState keccak a key v ;; mret RUnit
  | SSuicide a => b ← Suicide keccak a; mret (RBool b)
  | SCreateAccount a => CreateAccount keccak a ;; mret RUnit
  | SAddLog l => AddLog l ;; mret RUnit
  | SAddRefund x => AddRefund x ;; mret RUnit
  | SAddPreimage h p => AddPreimage h p ;; mret RUnit
  | SExist a => b ← Exist keccak a; mret (RBool b)
  | SEmpty a => b ← Empty keccak a; mret (RBool b)
  | SGetBalance a => z ← GetBalance keccak a; mret (RZ z)
  | SGetNonce a => z ← GetNonce keccak a; mret (RZ z)
  | SGetCodeHash a => h ← GetCodeHash keccak a; mret (RBytes h)
  | SGetCode a => c ← (c ← GetCode keccak a; mret (default [] c)); mret (RBytes c)
  | SGetState a key => v ← GetState keccak a key; mret (RBytes v)
  | SHasSuicided a => b ← HasSuicided keccak a; mret (RBool b)
  | SGetLogs h => l ← GetLogs h; mret (RLogs l)
  | SGetRefund => z ← gets refund; mret (RZ z)
  | SSnapshot => z ← Snapshot; mret (RZ z)
  | SRevert id => RevertToSnapshot keccak id ;; mret RUnit
  end.

Fixpoint sexec_all (os : list sop) : M (StateDB SDB TR) (list sans) :=
  match os with
  | [] => mret []
  | o :: os => a ← sexec o; rest ← sexec_all os; mret (a :: rest)
  end.

(** ** The specification *)
#[local] Abbreviation acct_at := (acct_at keccak).
#[local] Abbreviation new_acct := (new_acct keccak).

Definition after (o : sop) V : sview :=
  match o with
  | SAddBalance a x => put a (Some (ac_data (a_nonce (acct_at a V)) (a_balance (acct_at a V) + x) (acct_at a V))) V
  | SSubBalance a x => put a (Some (ac_data (a_nonce (acct_at a V)) (a_balance (acct_at a V) - x) (acct_at a V))) V
  | SSetBalance a x => put a (Some (ac_data (a_nonce (acct_at a V)) x (acct_at a V))) V
  | SSetNonce a n => put a (Some (ac_data n (a_balance (acct_at a V)) (acct_at a V))) V
  | SSetCode a c => put a (Some (ac_code (keccak (default [] c)) (default [] c) (acct_at a V))) V
  | SSetState a key v => put a (Some (ac_slot key v (acct_at a V))) V
  | SSuicide a => match accts V a with Some ac => put a (Some (ac_suicided true (ac_data (a_nonce ac) 0 ac))) V | None => V end
  | SCreateAccount a => put a (Some (ac_data 0 (a_balance (acct_at a V)) new_acct)) V
  | SAddLog l => v_add_log l V
  | SAddRefund x => v_set_refund (v_refund V + x) V
  | SAddPreimage h p => match v_preimages V !! h with Some _ => V | None => v_set_preimages (<[h := p]> (v_preimages V)) V end
  | _ => V
  end.

Definition shown {A} (a : bytes) (none : A) (f : acct → A) V : A := match accts V a with Some ac => f ac | None => none end.

Definition reply (o : sop) V : sans :=
  match o with
  | SSuicide a | SExist a => RBool (bool_decide (is_Some (accts V a)))
  | SEmpty a => RBool (shown a true (ac_empty keccak) V)
  | SGetBalance a => RZ (shown a 0 a_balance V)
  | SGetNonce a => RZ (shown a 0 a_nonce V)
  | SGetCodeHash a => RBytes (shown a zero a_codehash V)
  | SGetCode a => RBytes (shown a [] a_code V)
  | SGetState a key => RBytes (shown a zero (λ ac, a_storage ac key) V)
  | SHasSuicided a => RBool (shown a false a_suicided V)
  | SGetLogs h => RLogs (v_logs V h)
  | SGetRefund => RZ (v_refund V)
  | _ => RUnit
  end.

(** The view, the saved views with their numbers, and the next number. *)
Record machine := mkMachine { now : sview; saved : list (Z * sview); next : Z }.

(** The saved view [id] and those saved before it. *)
Fixpoint go_back (id : Z) (l : list (Z * sview)) : option (sview * list (Z * sview)) :=
  match l with
  | [] => None
  | (i, V) :: l' => if bool_decide (i = id) then Some (V, []) else r ← go_back id l'; Some (fst r, (i, V) :: snd r)
  end.

(** [None] where the call panics. *)
Definition astep (o : sop) (A : machine) : option (sans * machine) :=
  match o with
  | SSnapshot => Some (RZ (next A), mkMachine (now A) (saved A ++ [(next A, now A)]) (next A + 1))
  | SRevert id => r ← go_back id (saved A); Some (RUnit, mkMachine (fst r) (snd r) (next A))
  | o => Some (reply o (now A), mkMachine (after o (now A)) (saved A) (next A))
  end.

Fixpoint astep_all (os : list sop) (A : machine) : option (list sans * machine) :=
  match os with
  | [] => Some ([], A)
  | o :: os => r ← astep o A; rs ← astep_all os (snd r); Some (fst r :: fst rs, snd rs)
  end.

(** Addresses and storage keys that the tries can tell apart. *)
Definition sop_ok (o : sop) : Prop :=
  match o with
  | SAddBalance a _ | SSubBalance a _ | SSetBalance a _ | SSetNonce a _ | SSetCode a _ | SSuicide a | SCreateAccount a
  | SExist a | SEmpty a | SGetBalance a | SGetNonce a | SGetCodeHash a | SGetCode a | SHasSuicided a => key_ok a
  | SSetState a key _ | SGetState a key => key_ok a ∧ key_ok key
  | _ => True
  end.

Definition plain_op (o : sop) : bool := match o with SSnapshot | SRevert _ => false | _ => true end.

Lemma astep_plain o A : plain_op o = true → astep o A = Some (reply o (now A), mkMachine (after o (now A)) (saved A) (next A)).
Proof. by destruct o. Qed.

(** ** The simulation *)
Context (keccak_len : ∀ b, len (keccak b) = 32).
Context `{!TrieLaws TR key_ok contents} `{!StateDatabaseLaws contents d} (Hbase : base_ok keccak key_ok contents d m).
#[local] Abbreviation obs := (obs keccak key_ok contents d m).
#[local] Abbreviation chain := (chain keccak key_ok contents d m).
#[local] Abbreviation does := (does keccak key_ok contents d m).

Lemma does_map {A B} (f : M (StateDB SDB TR) A) (g : A → B) V r V' : does f V r V' → does (a ← f; mret (g a)) V (g r) V'.
Proof.
  intros Hf s Hobs. destruct (Hf s Hobs) as (s' & es & Hrun & Hrest). exists s', es. split; [|done].
  by rewrite (run_bind_Ret _ _ _ _ _ Hrun).
Qed.

Lemma does_gets {A} (f : StateDB SDB TR → A) r V : (∀ s, obs s V → f s = r) → does (gets f) V r V.
Proof.
  intros Hf s Hobs. exists s, []. split; [unfold gets; by rewrite (Hf s Hobs)|]. split; [done|].
  split; [by apply wrote_nil|by constructor].
Qed.

Lemma plain_does o V : plain_op o = true → sop_ok o → does (sexec o) V (reply o V) (after o V).
Proof.
  intros Hp Hok. destruct o; try done; cbn [sexec reply after sop_ok] in *.
  - apply (does_map _ (λ _, RUnit) _ tt). by apply AddBalance_does.
  - apply (does_map _ (λ _, RUnit) _ tt). by apply SubBalance_does.
  - apply (does_map _ (λ _, RUnit) _ tt). by apply SetBalance_does.
  - apply (does_map _ (λ _, RUnit) _ tt). by apply SetNonce_does.
  - apply (does_map _ (λ _, RUnit) _ tt). by apply SetCode_does.
  - destruct Hok. apply (does_map _ (λ _, RUnit) _ tt). by apply SetState_does.
  - apply does_map. by apply Suicide_does.
  - apply (does_map _ (λ _, RUnit) _ tt). by apply CreateAccount_does.
  - apply (does_map _ (λ _, RUnit) _ tt). by apply AddLog_does.
  - apply (does_map _ (λ _, RUnit) _ tt). by apply AddRefund_does.
  - apply (does_map _ (λ _, RUnit) _ tt). by apply AddPreimage_does.
  - apply does_map. by apply Exist_does.
  - apply does_map. by apply Empty_does.
  - apply does_map. by apply GetBalance_does.
  - apply does_map. by apply GetNonce_does.
  - apply does_map. by apply GetCodeHash_does.
  - apply (does_map _ RBytes). by apply GetCode_does.
  - destruct Hok. apply does_map. by apply GetState_does.
  - apply does_map. by apply HasSuicided_does.
  - apply does_map. apply does_gets. intros s Hobs. apply (obs_logs _ _ _ _ _ _ _ Hobs).
  - apply does_map. apply does_gets. intros s Hobs. apply (obs_refund _ _ _ _ _ _ _ Hobs).
Qed.

(** *** Saved views and the journal *)

(** Newest first: undoing the journal down to a revision leads to its saved view. *)
Fixpoint layers (rv : list (Z * Z)) (sv : list (Z * sview)) (J : list (journalEntry TR)) V : Prop :=
  match rv, sv with
  | [], [] => True
  | (id, j) :: rv', (id', Vk) :: sv' =>
    id = id' ∧ 0 ≤ j ≤ len J ∧ chain (drop (Z.to_nat j) J) Vk V ∧ layers rv' sv' (take (Z.to_nat j) J) Vk
  | _, _ => False
  end.

Lemma layers_grow rv sv J es V V' : layers rv sv J V → chain es V V' → layers rv sv (J ++ es) V'.
Proof.
  destruct rv as [|[id j] rv], sv as [|[id' Vk] sv]; try done. intros (-> & Hj & Hc & Hl) He. unfold len in *.
  split; [done|]. rewrite drop_app_le, take_app_le by lia. unfold len. rewrite length_app. split; [lia|]. split; [|done]. by eapply chain_app.
Qed.

(** Going back over the newer revisions [l]. *)
Lemma layers_back l id j rv sv J V :
  layers (l ++ (id, j) :: rv) sv J V →
  ∃ sl Vk sv', sv = sl ++ (id, Vk) :: sv' ∧ map fst sl = map fst l ∧ 0 ≤ j ≤ len J ∧
    chain (drop (Z.to_nat j) J) Vk V ∧ layers rv sv' (take (Z.to_nat j) J) Vk.
Proof.
  revert sv J V. induction l as [|[id0 j0] l IH]; intros [|[id' V0] sv] J V Hl; try done; destruct Hl as (-> & Hj & Hc & Hl).
  - by exists [], V0, sv.
  - destruct (IH sv _ _ Hl) as (sl & Vk & sv' & -> & Hsl & Hjk & Hck & Hlk). exists ((id', V0) :: sl), Vk, sv'.
    unfold len in *. rewrite length_take in Hjk. rewrite take_take in Hlk. rewrite Nat.min_l in Hlk by lia.
    split; [done|]. split; [cbn; by rewrite Hsl|]. split; [lia|]. split; [|done].
    replace (drop (Z.to_nat j) J) with (drop (Z.to_nat j) (take (Z.to_nat j0) J) ++ drop (Z.to_nat j0) J); [by eapply chain_app|].
    rewrite <-(take_drop (Z.to_nat j0) J) at 3. rewrite drop_app_le by (rewrite length_take; lia). done.
Qed.

Definition sim s (A : machine) : Prop :=
  obs s (now A) ∧ nextRevisionId s = next A ∧ layers (reverse (validRevisions s)) (reverse (saved A)) (journal s) (now A) ∧
  ids_sorted (validRevisions s) ∧ ∀ i r, validRevisions s !! i = Some r → fst r < next A.

Lemma sim_plain s A o :
  sim s A → plain_op o = true → sop_ok o →
  ∃ s', sexec o s = (Ret (reply o (now A)), s') ∧ sim s' (mkMachine (after o (now A)) (saved A) (next A)).
Proof.
  intros (Hobs & Hn & Hl & Hs & Hid) Hp Hok. destruct (plain_does o (now A) Hp Hok s Hobs) as (s' & es & Hrun & Hobs' & (Hj & Hr & Hn') & Hc).
  exists s'. split; [done|]. split; [done|]. cbn [now saved next]. rewrite Hr, Hj, Hn'. split; [done|]. split; [by eapply layers_grow|done].
Qed.

Lemma sim_snapshot s A :
  sim s A → ∃ s', sexec SSnapshot s = (Ret (RZ (next A)), s') ∧ sim s' (mkMachine (now A) (saved A ++ [(next A, now A)]) (next A + 1)).
Proof.
  intros (Hobs & Hn & Hl & Hs & Hid). eexists. split; [unfold sexec, Snapshot, mbind, M_bind, get; cbn beta iota; by rewrite Hn|].
  split; [by apply (obs_light _ _ _ _ _ s)|]. cbn [now saved next nextRevisionId validRevisions journal set_journal].
  split; [done|]. split; [|split].
  - rewrite !reverse_snoc. cbn [layers]. split; [done|]. unfold len. split; [lia|]. rewrite Nat2Z.id, drop_all, take_ge by lia.
    split; [by constructor|done].
  - intros i j a b Ha Hb Hij. apply lookup_app_Some in Hb as [Hb|[Hge Hb]].
    + rewrite lookup_app_l in Ha by (apply lookup_lt_Some in Hb; lia). by apply (Hs i j).
    + destruct (j - length (validRevisions s))%nat as [|k] eqn:Hjk; [|done]. injection Hb as <-. cbn [fst].
      rewrite lookup_app_l in Ha by lia. by apply (Hid i).
  - intros i r Hr. apply lookup_app_Some in Hr as [Hr|[Hge Hr]]; [specialize (Hid i r Hr); lia|].
    destruct (i - length (validRevisions s))%nat as [|k] eqn:Hk; [|done]. injection Hr as <-. cbn [fst]. lia.
Qed.

Lemma go_back_app id V l l' : id ∉ map fst l → go_back id (l ++ (id, V) :: l') = Some (V, l).
Proof.
  induction l as [|[i Vi] l IH]; intros Hni; cbn [go_back app].
  - by rewrite bool_decide_eq_true_2.
  - rewrite bool_decide_eq_false_2 by (intros ->; apply Hni; by left). rewrite IH by (intros ?; apply Hni; by right). done.
Qed.

Lemma go_back_some id l r : go_back id l = Some r → ∃ l', l = snd r ++ (id, fst r) :: l' ∧ id ∉ map fst (snd r).
Proof.
  revert r. induction l as [|[i V] l IH]; intros r Hr; [done|]. cbn [go_back] in Hr. case_bool_decide as Hi.
  - subst i. injection Hr as <-. exists l. split; [done|]. by intros ?%elem_of_nil.
  - apply bind_Some in Hr as (r' & Hr' & Hr). injection Hr as <-. destruct (IH r' Hr') as (l' & -> & Hni). exists l'. split; [done|].
    cbn. intros [?|?]%elem_of_cons; done.
Qed.

Lemma layers_ids rv sv J V : layers rv sv J V → map fst rv = map fst sv.
Proof.
  revert sv J V. induction rv as [|[id j] rv IH]; intros [|[id' Vk] sv] J V Hl; try done. destruct Hl as (-> & _ & _ & Hl).
  cbn. f_equal. by eapply IH.
Qed.

Lemma sim_ids s A : sim s A → map fst (validRevisions s) = map fst (saved A).
Proof.
  intros (_ & _ & Hl & _). apply layers_ids in Hl. change (fst <$> reverse (validRevisions s) = fst <$> reverse (saved A)) in Hl.
  rewrite !fmap_reverse in Hl. by apply (inj reverse) in Hl.
Qed.

(** The search finds the revision, the saved view is that of its place. *)
Lemma sim_revert s A id V l :
  sim s A → go_back id (saved A) = Some (V, l) →
  ∃ s', RevertToSnapshot keccak id s = (Ret tt, s') ∧ sim s' (mkMachine V l (next A)).
Proof.
  intros Hsim Hgo. pose proof (sim_ids _ _ Hsim) as Hids. destruct Hsim as (Hobs & Hn & Hl & Hs & Hid).
  apply go_back_some in Hgo as (post & Hsaved & Hni). cbn [fst snd] in *. rewrite Hsaved in Hids.
  change (fst <$> validRevisions s = fst <$> l ++ (id, V) :: post) in Hids. rewrite fmap_app in Hids.
  apply fmap_app_inv in Hids as (vpre & vrest & Hpre & Hrest & Hv). cbn in Hrest. destruct vrest as [|[id' j] vpost]; [done|].
  injection Hrest as <- Hpost. destruct (find_revision (validRevisions s) id Hs) as (k & Hk & Hk0 & Hkat).
  assert (validRevisions s !! length vpre = Some (id, j)) as Hlook by (by rewrite Hv, list_lookup_middle).
  rewrite (Hkat _ _ Hlook) in *. unfold RevertToSnapshot, mbind at 1, M_bind at 1, get. rewrite run_lift_Ret with (1 := Hk).
  rewrite bool_decide_eq_false_2 by (apply lookup_lt_Some in Hlook; unfold len; lia).
  rewrite run_lift_Ret with (a := (id, j)) by (apply index_Some; [lia|by rewrite Nat2Z.id]).
  rewrite bool_decide_eq_false_2 by (cbn; naive_solver). cbn [snd].
  rewrite Hv, Hsaved, !reverse_app, !reverse_cons, <-!app_assoc in Hl. cbn [app] in Hl.
  apply layers_back in Hl as (sl & Vk & sv' & Heq & Hsl & Hj & Hc & Hl').
  assert (length (reverse post) = length sl) as Hlen.
  { apply (f_equal length) in Hsl. rewrite !length_map in Hsl. rewrite Hsl, !length_reverse.
    apply (f_equal length) in Hpost. by rewrite !length_fmap in Hpost. }
  apply app_inj_1 in Heq as [_ Heq]; [|done]. injection Heq as <- <-.
  destruct (undo_chain keccak key_ok contents d m _ _ _ s Hc Hobs) as (s1 & Hrun & Hobs1 & Hb).
  rewrite (run_bind_Ret _ _ _ _ _ Hrun). unfold book in Hb. injection Hb as Hbj Hbr Hbn.
  eexists. split; [done|]. split; [by apply (obs_light _ _ _ _ _ s1)|]. cbn [now saved next nextRevisionId validRevisions journal set_journal].
  rewrite Nat2Z.id, Hbj, Hbr, Hbn, Hv, take_app_length. split; [done|]. split; [done|]. split.
  - intros i i' a b Ha Hb'. apply Hs; rewrite Hv; apply lookup_app_l_Some; done.
  - intros i r Hr. apply (Hid i). rewrite Hv. by apply lookup_app_l_Some.
Qed.

Lemma sim_revert_unknown s A id :
  sim s A → go_back id (saved A) = None → ∃ w s', RevertToSnapshot keccak id s = (Panic w, s').
Proof.
  intros Hsim Hgo. pose proof (sim_ids _ _ Hsim) as Hids. destruct Hsim as (_ & _ & _ & Hs & _).
  assert (id ∉ map fst (validRevisions s)) as Hni.
  { rewrite Hids. clear -Hgo. induction (saved A) as [|[i V] l IH]; [by intros ?%elem_of_nil|]. cbn [go_back] in Hgo.
    case_bool_decide as Hi; [done|]. cbn. intros [->|Hin]%elem_of_cons; [done|]. apply IH; [|done]. by destruct (go_back id l). }
  destruct (find_revision (validRevisions s) id Hs) as (k & Hk & Hk0 & _).
  unfold RevertToSnapshot, mbind at 1, M_bind at 1, get. rewrite run_lift_Ret with (1 := Hk). case_bool_decide as Hend; [by eexists _, _|].
  destruct (index_in_range (validRevisions s) k) as (r & Hr & Hlook); [unfold len in *; lia|]. rewrite run_lift_Ret with (1 := Hr).
  rewrite bool_decide_eq_true_2; [by eexists _, _|]. intros <-. apply Hni. apply list_elem_of_lookup_2 in Hlook.
  by apply (list_elem_of_fmap_2 fst).
Qed.

Lemma sim_step o s A :
  sim s A → sop_ok o →
  match astep o A with
  | Some (r, A') => ∃ s', sexec o s = (Ret r, s') ∧ sim s' A'
  | None => ∃ w s', sexec o s = (Panic w, s')
  end.
Proof.
  intros Hsim Hok. destruct (plain_op o) eqn:Hp; [rewrite astep_plain by done; by apply sim_plain|].
  destruct o as [| | | | | | | | | | | | | | | | | | | | | |id]; try done; [by apply sim_snapshot|]. cbn [astep sexec].
  destruct (go_back id (saved A)) as [[V l]|] eqn:Hgo; cbn [mbind option_bind].
  - destruct (sim_revert s A id V l Hsim Hgo) as (s' & Hrun & Hsim'). exists s'. by rewrite (run_bind_Ret _ _ _ _ _ Hrun).
  - destruct (sim_revert_unknown s A id Hsim Hgo) as (w & s' & Hrun). exists w, s'. unfold mbind, M_bind. by rewrite Hrun.
Qed.

(** C24: snapshots.  A state behaves as a record of accounts, logs, preimages and a refund with
    a stack of saved copies: every sequence of changes, reads, [Snapshot] and [RevertToSnapshot]
    gives the answers of that machine and ends in its state.  In particular [RevertToSnapshot]
    brings back exactly what every account, storage slot, code, log, preimage and the refund
    were at the [Snapshot], however the changes in between created, reset, suicided or touched
    accounts, and it panics exactly when the revision is unknown or was passed over. *)
Theorem statedb_refines_saved_views os s A :
  sim s A → Forall sop_ok os →
  match astep_all os A with
  | Some (rs, A') => ∃ s', sexec_all os s = (Ret rs, s') ∧ sim s' A'
  | None => ∃ w s', sexec_all os s = (Panic w, s')
  end.
Proof.
  intros Hsim Hok. revert s A Hsim. induction Hok as [|o os Ho _ IH]; intros s A Hsim; [by exists s|]. cbn [astep_all sexec_all].
  pose proof (sim_step o s A Hsim Ho) as Hstep. destruct (astep o A) as [[r A1]|]; cbn [mbind option_bind snd fst].
  - destruct Hstep as (s1 & Hrun & Hsim1). specialize (IH s1 A1 Hsim1). rewrite (run_bind_Ret _ _ _ _ _ Hrun).
    destruct (astep_all os A1) as [[rs A2]|]; cbn [mbind option_bind snd fst].
    + destruct IH as (s2 & Hrun2 & Hsim2). exists s2. by rewrite (run_bind_Ret _ _ _ _ _ Hrun2).
    + destruct IH as (w & s2 & Hrun2). exists w, s2. unfold mbind, M_bind. by rewrite Hrun2.
  - destruct Hstep as (w & s1 & Hrun). exists w, s1. unfold mbind, M_bind. by rewrite Hrun.
Qed.
End Props.

(** ** A concrete state *)
Module Example_.
Definition toy (b : bytes) : bytes := take 32 (b ++ replicate 32 0).
Definition alice : bytes := replicate 20 1.
Definition key : bytes := replicate 32 2.
Definition bob : bytes := replicate 20 4.
Definition keys (k : bytes) : Prop := k ∈ [alice; bob; key].
Definition d0 : cachingDB (gmap bytes bytes) := mkCaching ∅ [].
#[local] Existing Instance listing_order.
#[local] Existing Instance caching_StateDatabase.
#[local] Instance toy_trie : StateTrie (Secure.SecureTrie (gmap bytes bytes)) := secure_StateTrie toy.
#[local] Instance toy_database : StateDatabase (cachingDB (gmap bytes bytes)) (Secure.SecureTrie (gmap bytes bytes)) := caching_StateDatabase toy.

Lemma toy_len b : len (toy b) = 32.
Proof. unfold toy, len. rewrite length_take, length_app, length_replicate. lia. Qed.

Lemma keys_cases k : keys k → k = alice ∨ k = bob ∨ k = key.
Proof. intros [->|[->|[->|?%elem_of_nil]%elem_of_cons]%elem_of_cons]%elem_of_cons; auto. done. Qed.

Lemma keys_inj k k' : keys k → keys k' → toy k = toy k' → k = k'.
Proof. intros [->|[->| ->]]%keys_cases [->|[->| ->]]%keys_cases; try done; intros Heq; by vm_compute in Heq. Qed.

Lemma keys_bytes k : keys k → is_bytes (toy k).
Proof. intros [->|[->| ->]]%keys_cases; vm_compute; repeat constructor; lia || done. Qed.

Definition nothing : sview := mkView (λ _, None) 0 zero zero 0 (λ _, []) 0 ∅.
Definition s0 : StateDB (cachingDB (gmap bytes bytes)) (Secure.SecureTrie (gmap bytes bytes)) :=
  mkState d0 (Secure.mkSecure (mkTrie NilN (Some ∅) zero 0 120) ∅ false) ∅ ∅ None 0 zero zero 0 ∅ 0 ∅ [] [] 0.

Lemma s0_sim : sim toy keys (secure_contents toy keys) d0 ∅ s0 (mkMachine nothing [] 0).
Proof.
  split; [|split; [done|split; [done|split; [by intros i j a b ?|by intros i r ?]]]].
  split; try done.
  exists ∅. split; [apply models_fresh|]. split; [done|by intros k v ?%lookup_empty_Some].
Qed.

Definition calls : list sop :=
  [SAddBalance alice 5; SSnapshot; SSetState alice key (replicate 32 7); SSubBalance alice 3; SGetBalance alice; SSuicide alice;
   SRevert 0; SGetBalance alice; SGetState alice key; SHasSuicided alice].

#[local] Instance toy_laws : TrieLaws (Secure.SecureTrie (gmap bytes bytes)) keys (secure_contents toy keys) :=
  secure_TrieLaws toy toy_len keys keys_inj keys_bytes.
#[local] Instance toy_dblaws : StateDatabaseLaws (secure_contents toy keys) d0 := caching_laws toy keys d0.

Definition replies : list sans := [RUnit; RZ 0; RUnit; RUnit; RZ 2; RBool true; RUnit; RZ 5; RBytes zero; RBool false].

Lemma calls_replies : fst <$> astep_all toy calls (mkMachine nothing [] 0) = Some replies.
Proof. vm_compute. reflexivity. Qed.

Lemma state_calls_ok : Forall (sop_ok keys) calls.
Proof. repeat constructor; decided. Qed.

Lemma nothing_stored : base_ok toy keys (secure_contents toy keys) d0 ∅.
Proof. by intros a enc ?%lookup_empty_Some. Qed.

Lemma statedb_refines_saved_views_witness : ∃ s', sexec_all toy calls s0 = (Ret replies, s').
Proof.
  pose proof (statedb_refines_saved_views toy keys (secure_contents toy keys) d0 ∅ toy_len nothing_stored calls s0 (mkMachine nothing [] 0) s0_sim state_calls_ok) as Hrun.
  pose proof calls_replies as Hr. destruct (astep_all toy calls (mkMachine nothing [] 0)) as [[rs A']|]; [|discriminate Hr].
  injection Hr as ->. destruct Hrun as (s' & Hrun & _). exists s'. exact Hrun.
Defined.
End Example_.
