(* ===== verification/StateWf.v ===== *)
(** Well-formed states: every live object is filed under its own address and carries the hash of
    that address, so does every object kept in the journal, and only live objects are dirty. *)
From S2P Require Import Prelude Bytes HexKeys Rlp RlpRaw RlpStream TrieNode Trie SecureTrie State StateDatabase StateProps.
Open Scope Z_scope.

Section Wf.
Context {SDB TR : Type} `{StateTrie TR} `{StateDatabase SDB TR} `{RangeOrder} (keccak : bytes → bytes).
Implicit Types (o : stateObject TR) (s : StateDB SDB TR).

Definition obj_wf o : Prop := addrHash o = keccak (address o).

Definition entry_wf (e : journalEntry TR) : Prop := match e with resetObjectChange p => obj_wf p | _ => True end.

Record wf s : Prop := {
  wf_objects : ∀ a o, stateObjects s !! a = Some o → address o = a ∧ obj_wf o;
  wf_dirty : ∀ a, is_Some (stateObjectsDirty s !! a) → is_Some (stateObjects s !! a);
  wf_journal : Forall entry_wf (journal s) }.

Definition live (a : bytes) s : Prop := is_Some (stateObjects s !! a).

(** Whatever happens the state stays well-formed, and [Q] holds if the call returns. *)
Definition keeps {A} (f : M (StateDB SDB TR) A) s (Q : A → StateDB SDB TR → Prop) : Prop :=
  wp f s (λ r s', wf s' ∧ match r with Ret a => Q a s' | _ => True end).

Lemma keeps_ret {A} (a : A) s (Q : A → _ → Prop) : wf s → Q a s → keeps (mret a) s Q.
Proof. done. Qed.

Lemma keeps_stop {A} (r : outcome A) s (Q : A → _ → Prop) : wf s → (∀ a, r = Ret a → Q a s) → keeps (lift r) s Q.
Proof. intros Hwf HQ. split; [done|]. cbn. destruct r; auto. Qed.

Lemma keeps_panic {A} w s (Q : A → _ → Prop) : wf s → keeps (panic w) s Q.
Proof. by split. Qed.

Lemma keeps_bind {A B} (f : M _ A) (g : A → M _ B) s (P : A → _ → Prop) (Q : B → _ → Prop) :
  keeps f s P → (∀ a s', wf s' → P a s' → keeps (g a) s' Q) → keeps (f ≫= g) s Q.
Proof.
  unfold keeps, wp, mbind, M_bind. intros Hf Hg. destruct (f s) as [[a|e|w|] s1], Hf as [Hwf Ha]; [by apply Hg|done..].
Qed.

Lemma keeps_mono {A} (f : M _ A) s (P Q : A → StateDB SDB TR → Prop) : keeps f s P → (∀ a s', P a s' → Q a s') → keeps f s Q.
Proof. unfold keeps, wp. intros [Hwf Ha] HPQ. split; [done|]. destruct (f s).1; auto. Qed.

Lemma keeps_modify (f : StateDB SDB TR → StateDB SDB TR) s (Q : unit → _ → Prop) : wf (f s) → Q tt (f s) → keeps (modify f) s Q.
Proof. done. Qed.

Lemma keeps_get {A} (f : StateDB SDB TR → M _ A) s Q : keeps (f s) s Q → keeps (s' ← get; f s') s Q.
Proof. done. Qed.

(** *** Small steps *)
Lemma wf_light s s' : stateObjects s' = stateObjects s → stateObjectsDirty s' = stateObjectsDirty s → journal s' = journal s → wf s → wf s'.
Proof. intros E1 E2 E3 [F1 F2 F3]. by split; rewrite ?E1, ?E2, ?E3. Qed.

Lemma keeps_light (f : StateDB SDB TR → StateDB SDB TR) s (Q : unit → _ → Prop) :
  wf s → stateObjects (f s) = stateObjects s → stateObjectsDirty (f s) = stateObjectsDirty s → journal (f s) = journal s →
  Q tt (f s) → keeps (modify f) s Q.
Proof. intros Hwf E1 E2 E3 HQ. apply keeps_modify; [by apply (wf_light s)|done]. Qed.

Lemma keeps_file o s : wf s → obj_wf o → keeps (setStateObject o) s (λ _ s', live (address o) s').
Proof.
  intros [F1 F2 F3] Ho. apply keeps_modify; [|unfold live; cbn; by rewrite lookup_insert_eq]. split; cbn; [| |done].
  - intros a o' [[<- <-]|[_ Ha]]%lookup_insert_Some; [done|by apply F1].
  - intros a Ha. apply lookup_insert_is_Some'. right. by apply F2.
Qed.

Lemma keeps_mark a s : wf s → live a s → keeps (MarkStateObjectDirty a) s (λ _ s', stateObjects s' = stateObjects s).
Proof.
  intros [F1 F2 F3] Ha. apply keeps_modify; [|done]. split; cbn; [done| |done].
  intros b [->|Hb]%lookup_insert_is_Some'; [done|by apply F2].
Qed.

Lemma keeps_journal e s : wf s → entry_wf e → keeps (append_journal e) s (λ _ s', stateObjects s' = stateObjects s).
Proof. intros [F1 F2 F3] He. apply keeps_modify; [|done]. split; cbn; [done..|]. apply Forall_app; auto. Qed.

Lemma keeps_unmark a s : wf s → keeps (modify (λ s, set_objects (stateObjects s) (base.delete a (stateObjectsDirty s)) s)) s (λ _ _, True).
Proof.
  intros [F1 F2 F3]. apply keeps_modify; [|done]. split; cbn; [done| |done].
  intros b [c Hb]. apply lookup_delete_Some in Hb as [_ Hb]. apply F2. eauto.
Qed.

(** A call on the trie. *)
Lemma keeps_trie {A} (f : M TR A) s : wf s → keeps (zoom trie set_trie f) s (λ _ s', stateObjects s' = stateObjects s).
Proof. intros Hwf. apply wp_zoom. unfold wp. split; [by apply (wf_light s)|]. by destruct (f (trie s)).1. Qed.

Lemma keeps_getStateObject a s :
  wf s → keeps (getStateObject keccak a) s (λ r s', match r with Some o => address o = a ∧ obj_wf o ∧ live a s' | None => True end).
Proof.
  intros Hwf. apply keeps_get. destruct (stateObjects s !! a) as [o|] eqn:Ha.
  - destruct (wf_objects _ Hwf a o Ha) as [Haddr Ho]. apply keeps_ret; [done|]. destruct (deleted o); [done|]. unfold live. rewrite Ha. eauto.
  - eapply keeps_bind; [by apply keeps_trie|]. intros [err enc] s1 Hwf1 _. cbn beta iota.
    destruct (default None enc) as [[|b enc']|];
      [eapply keeps_bind; [by apply (keeps_light _ _ (λ _ _, True))|by intros ? ? ? ?]| |eapply keeps_bind; [by apply (keeps_light _ _ (λ _ _, True))|by intros ? ? ? ?]].
    destruct (DecodeBytes (b :: enc') account_type) as [v|e|w|]; try by split.
    destruct (account_of v) as [acc|]; [|by apply keeps_ret].
    eapply keeps_bind; [by apply keeps_file|]. intros [] s2 Hwf2 Hl. by apply keeps_ret.
Qed.

(** *** Methods of live objects *)
Definition steady (f : stateObject TR → M (StateDB SDB TR) (stateObject TR)) : Prop := ∀ o s,
  wf s → obj_wf o → live (address o) s → keeps (f o) s (λ o' s', address o' = address o ∧ obj_wf o' ∧ live (address o) s').

Lemma live_same a s s' : stateObjects s' = stateObjects s → live a s → live a s'.
Proof. unfold live. by intros ->. Qed.

Lemma fire_steady (g : stateObject TR → stateObject TR) :
  (∀ o, address (g o) = address o ∧ addrHash (g o) = addrHash o) → steady (λ o, fire (g o)).
Proof.
  intros Hg o s Hwf Ho Hl. destruct (Hg o) as [Ha Hh]. assert (obj_wf (g o)) by (unfold obj_wf; congruence). unfold fire.
  destruct (onDirty (g o)); [|by apply keeps_ret]. rewrite <-Ha in Hl |- *.
  eapply keeps_bind; [by apply keeps_mark|]. intros [] s1 Hwf1 Hs1. apply keeps_ret; [done|]. split; [done|]. split; [done|]. by eapply live_same.
Qed.

Lemma journal_steady (e : stateObject TR → journalEntry TR) f :
  (∀ o, obj_wf o → entry_wf (e o)) → steady f → steady (λ o, append_journal (e o) ;; f o).
Proof.
  intros He Hf o s Hwf Ho Hl. eapply keeps_bind; [by apply keeps_journal; auto|]. intros [] s1 Hwf1 Hs1. apply Hf; [done..|by eapply live_same].
Qed.

Lemma setBalance_steady x : steady (setBalance x).
Proof. by apply (fire_steady (λ o, set_data (mkAccount (Nonce (data o)) x (Root (data o)) (CodeHash (data o))) o)). Qed.

Lemma setNonce_steady x : steady (setNonce x).
Proof. by apply (fire_steady (λ o, set_data (mkAccount x (Balance (data o)) (Root (data o)) (CodeHash (data o))) o)). Qed.

Lemma setCode_steady h c : steady (setCode h c).
Proof. by apply (fire_steady (λ o, set_code c true (set_data (mkAccount (Nonce (data o)) (Balance (data o)) (Root (data o)) h) o))). Qed.

Lemma setState_steady k v : steady (setState k v).
Proof. by apply (fire_steady (λ o, set_storage (<[k := v]> (cachedStorage o)) (<[k := v]> (dirtyStorage o)) o)). Qed.

Lemma markSuicided_steady : steady markSuicided.
Proof. by apply (fire_steady (λ o, set_flags true (touched o) (deleted o) (onDirty o) o)). Qed.

Lemma touch_steady : steady touch.
Proof.
  apply (journal_steady (λ o, touchChange (address o) (touched o) (negb (onDirty o)))); [done|]. intros o s Hwf Ho Hl.
  eapply keeps_bind; [by apply (fire_steady id)|]. intros o' s' Hwf' (Ha & Ho' & Hl'). by apply keeps_ret.
Qed.

Lemma obj_SetBalance_steady x : steady (obj_SetBalance x).
Proof. apply (journal_steady (λ o, balanceChange (address o) (Balance (data o)))); [done|apply setBalance_steady]. Qed.

Lemma obj_SetNonce_steady x : steady (obj_SetNonce x).
Proof. apply (journal_steady (λ o, nonceChange (address o) (Nonce (data o)))); [done|apply setNonce_steady]. Qed.

Lemma ret_steady : steady mret.
Proof. intros o s Hwf Ho Hl. by apply keeps_ret. Qed.

Lemma obj_AddBalance_steady x : steady (obj_AddBalance keccak x).
Proof.
  intros o s Hwf Ho Hl. unfold obj_AddBalance. case_bool_decide; [destruct (empty keccak o)|].
  - by apply touch_steady.
  - by apply ret_steady.
  - by apply obj_SetBalance_steady.
Qed.

Lemma obj_SubBalance_steady x : steady (obj_SubBalance x).
Proof.
  intros o s Hwf Ho Hl. unfold obj_SubBalance. case_bool_decide; [by apply ret_steady|by apply obj_SetBalance_steady].
Qed.

(** *** Methods that only load *)
Definition same_id o o' : Prop := address o' = address o ∧ addrHash o' = addrHash o.

Lemma same_wf o o' : same_id o o' → obj_wf o → obj_wf o'.
Proof. unfold obj_wf. intros [-> ->]. done. Qed.

Lemma getTrie_id d o t o' : getTrie d o = Ret (t, o') → same_id o o'.
Proof.
  unfold getTrie. destruct (obj_trie o); [by intros [= _ <-]|].
  destruct (OpenStorageTrie d (addrHash o) (Root (data o))); try done; [by intros [= _ <-]|].
  destruct (OpenStorageTrie d (addrHash o) zero); try done. by intros [= _ <-].
Qed.

Lemma obj_GetState_id d k o v o' : obj_GetState d k o = Ret (v, o') → same_id o o'.
Proof.
  unfold obj_GetState. destruct (cachedStorage o !! k); [by intros [= _ <-]|].
  destruct (getTrie d o) as [[t o1]|e|w|] eqn:Ht; try done. apply getTrie_id in Ht as [Ha Hh]. cbn [mbind outcome_bind].
  destruct (TryGet k t) as [[enc|e|w|] t']; try done; [|by intros [= _ <-]].
  destruct (default [] enc) as [|b enc']; cbn [mbind outcome_bind]; [intros [= _ <-]; by repeat case_match|].
  destruct (Split (b :: enc')) as [[[? c] ?]|e|w|]; try done; cbn [mbind outcome_bind]; intros [= _ <-]; by repeat case_match.
Qed.

Lemma Code_id d o c o' : Code keccak d o = Ret (c, o') → same_id o o'.
Proof.
  unfold Code. destruct (code o); [by intros [= _ <-]|]. case_bool_decide; [by intros [= _ <-]|].
  destruct (ContractCode d (addrHash o) (BytesToHash (CodeHash (data o)))); try done; by intros [= _ <-].
Qed.

Lemma write_slots_id l t o t' o' : write_slots l t o = Ret (t', o') → same_id o o'.
Proof.
  revert t o. induction l as [|[k v] l IH]; intros t o; cbn [write_slots]; [by intros [= _ <-]|].
  destruct (if bool_decide (v = zero) then Ret [] else EncodeToBytes (GBytes (trim_left v))) as [enc|e|w|]; try done. cbn [mbind outcome_bind].
  destruct (trying (if bool_decide (v = zero) then TryDelete k else TryUpdate k enc) t) as [[[err ?]|e|w|] t1]; try done.
  intros Hl. apply IH in Hl as [Ha Hh]. done.
Qed.

Lemma updateTrie_id d o t o' : updateTrie d o = Ret (t, o') → same_id o o'.
Proof.
  unfold updateTrie. destruct (getTrie d o) as [[t1 o1]|e|w|] eqn:Ht; try done. apply getTrie_id in Ht as [Ha Hh]. cbn [mbind outcome_bind].
  destruct (write_slots (range (dirtyStorage o1)) t1 o1) as [[t2 o2]|e|w|] eqn:Hw; try done. apply write_slots_id in Hw as [Ha' Hh'].
  intros [= _ <-]. split; cbn; congruence.
Qed.

Lemma updateRoot_id d o o' : updateRoot d o = Ret o' → same_id o o'.
Proof.
  unfold updateRoot. destruct (updateTrie d o) as [[t o1]|e|w|] eqn:Ht; try done. apply updateTrie_id in Ht as [Ha Hh]. cbn [mbind outcome_bind].
  destruct (Hash t) as [[r|e|w|] t']; try done. by intros [= <-].
Qed.

(** A load followed by a method. *)
Lemma load_steady {A} (g : stateObject TR → outcome (A * stateObject TR)) (f : A → stateObject TR → M (StateDB SDB TR) (stateObject TR)) :
  (∀ o a o', g o = Ret (a, o') → same_id o o') → (∀ a, steady (f a)) →
  steady (λ o, r ← lift (g o); let '(a, o') := r in f a o').
Proof.
  intros Hg Hf o s Hwf Ho Hl. eapply keeps_bind; [apply (keeps_stop _ _ (λ r s', s' = s ∧ g o = Ret r)); [done|by intros r ->]|].
  intros [a o'] s' _ [-> Hr]. apply Hg in Hr. pose proof Hr as [Ha _]. rewrite <-Ha in Hl |- *. apply Hf; [done|by eapply same_wf|done].
Qed.

Lemma obj_SetState_steady d k v : steady (obj_SetState d k v).
Proof.
  apply (load_steady (obj_GetState d k) (λ prev o, append_journal (storageChange (address o) k prev) ;; setState k v o)).
  - intros o a o'. apply obj_GetState_id.
  - intros prev. apply (journal_steady (λ o, storageChange (address o) k prev)); [done|apply setState_steady].
Qed.

Lemma obj_SetCode_steady d h c : steady (obj_SetCode keccak d h c).
Proof.
  apply (load_steady (Code keccak d) (λ prev o, append_journal (codeChange (address o) prev (CodeHash (data o))) ;; setCode h c o)).
  - intros o a o'. apply Code_id.
  - intros prev. apply (journal_steady (λ o, codeChange (address o) prev (CodeHash (data o)))); [done|apply setCode_steady].
Qed.

(** *** Methods of the state *)
Definition stable {A} (f : M (StateDB SDB TR) A) : Prop := ∀ s, wf s → keeps f s (λ _ _, True).

Lemma stable_ret {A} (a : A) : stable (mret a).
Proof. by intros s Hwf. Qed.

Lemma stable_bind {A B} (f : M _ A) (g : A → M _ B) : stable f → (∀ a, stable (g a)) → stable (f ≫= g).
Proof. intros Hf Hg s Hwf. eapply keeps_bind; [by apply Hf|]. intros a s' Hwf' _. by apply Hg. Qed.

Lemma stable_get {A} (f : StateDB SDB TR → M _ A) : (∀ s, wf s → keeps (f s) s (λ _ _, True)) → stable (s ← get; f s).
Proof. intros Hf s Hwf. apply keeps_get. by apply Hf. Qed.

Lemma stable_light (f : StateDB SDB TR → StateDB SDB TR) :
  (∀ s, stateObjects (f s) = stateObjects s ∧ stateObjectsDirty (f s) = stateObjectsDirty s ∧ journal (f s) = journal s) → stable (modify f).
Proof. intros Hf s Hwf. destruct (Hf s) as (E1 & E2 & E3). by apply keeps_light. Qed.

Lemma stable_for_each {A} (f : A → M _ unit) l : (∀ x, stable (f x)) → stable (for_each f l).
Proof. intros Hf. induction l as [|x l IH]; [apply stable_ret|]. apply stable_bind; auto. Qed.

Lemma stable_journal e : entry_wf e → stable (append_journal e).
Proof. intros He s Hwf. eapply keeps_mono; [by apply keeps_journal|done]. Qed.

Lemma keeps_setStateObject o s : wf s → obj_wf o → keeps (setStateObject o) s (λ _ _, True).
Proof. intros Hwf Ho. eapply keeps_mono; [by apply keeps_file|done]. Qed.

Lemma stable_with_object {A} a (none : A) f :
  (∀ o s, wf s → obj_wf o → live (address o) s → address o = a → keeps (f o) s (λ _ _, True)) → stable (with_object keccak a none f).
Proof.
  intros Hf s Hwf. eapply keeps_bind; [by apply keeps_getStateObject|]. intros [o|] s1 Hwf1 Ho; [|by apply keeps_ret].
  destruct Ho as (Ha & Ho & Hl). apply Hf; [done..|by rewrite Ha|done].
Qed.

(** Filing what a method answers. *)
Lemma steady_filed f o s : steady f → wf s → obj_wf o → live (address o) s → keeps (o' ← f o; setStateObject o') s (λ _ _, True).
Proof.
  intros Hf Hwf Ho Hl. eapply keeps_bind; [by apply Hf|]. intros o' s1 Hwf1 (_ & Ho' & _). by apply keeps_setStateObject.
Qed.

Lemma load_filed {A} (g : SDB → outcome (A * stateObject TR)) o s :
  (∀ d a o', g d = Ret (a, o') → same_id o o') → wf s → obj_wf o →
  keeps (s ← get; r ← lift (g (db s)); setStateObject (snd r) ;; mret (fst r)) s (λ _ _, True).
Proof.
  intros Hg Hwf Ho. apply keeps_get. eapply keeps_bind; [apply (keeps_stop _ _ (λ r s', g (db s) = Ret r)); [done|by intros r ->]|].
  intros [a o'] s1 Hwf1 Hr. cbn [fst snd]. eapply keeps_bind; [apply keeps_setStateObject; [done|by eapply same_wf, Ho; eapply Hg]|].
  intros [] s2 Hwf2 _. by apply keeps_ret.
Qed.

Lemma keeps_createObject a s :
  wf s → keeps (createObject keccak a) s (λ r s', address (fst r) = a ∧ obj_wf (fst r) ∧ live a s').
Proof.
  intros Hwf. eapply keeps_bind; [by apply keeps_getStateObject|]. intros prev s1 [F1 F2 F3] Hprev.
  assert (entry_wf (match prev with None => createObjectChange a | Some p => resetObjectChange p end)) as He by (destruct prev; naive_solver).
  set (e := match prev with None => createObjectChange a | Some p => resetObjectChange p end) in *.
  set (o := set_flags false false false false (newObject keccak a None true) : stateObject TR).
  set (s2 := set_objects (<[a := o]> (stateObjects s1)) (<[a := tt]> (stateObjectsDirty s1)) (set_journal (journal s1 ++ [e]) (validRevisions s1) (nextRevisionId s1) s1)).
  change (wf s2 ∧ a = a ∧ obj_wf o ∧ live a s2). split; [split; cbn|split; [done|split; [done|unfold live; cbn; by rewrite lookup_insert_eq]]].
  - intros b o' [[<- <-]|[_ Hb]]%lookup_insert_Some; [done|by apply F1].
  - intros b [->|Hb]%lookup_insert_is_Some'; apply lookup_insert_is_Some'; [by left|right; by apply F2].
  - apply Forall_app; auto.
Qed.

Lemma keeps_GetOrNew a s : wf s → keeps (GetOrNewStateObject keccak a) s (λ o s', address o = a ∧ obj_wf o ∧ live a s').
Proof.
  intros Hwf. eapply keeps_bind; [by apply keeps_getStateObject|]. intros prev s1 Hwf1 Hprev.
  assert (keeps (r ← createObject keccak a; mret (fst r)) s1 (λ o s', address o = a ∧ obj_wf o ∧ live a s')) as Hnew.
  { eapply keeps_bind; [by apply keeps_createObject|]. intros r s2 Hwf2 Hr. by apply keeps_ret. }
  destruct prev as [o|]; [|done]. destruct (deleted o); [done|]. by apply keeps_ret.
Qed.

Lemma stable_changing a f : steady f → stable (changing keccak a f).
Proof.
  intros Hf s Hwf. eapply keeps_bind; [by apply keeps_GetOrNew|]. intros o s1 Hwf1 (Ha & Ho & Hl).
  apply steady_filed; [done..|by rewrite Ha].
Qed.

(** A method that looks up the database first. *)
Lemma db_steady (f : SDB → stateObject TR → M _ (stateObject TR)) : (∀ d, steady (f d)) → steady (λ o, s ← get; f (db s) o).
Proof. intros Hf o s Hwf Ho Hl. apply keeps_get. by apply Hf. Qed.

Lemma stable_CreateAccount a : stable (CreateAccount keccak a).
Proof.
  intros s Hwf. eapply keeps_bind; [by apply keeps_createObject|]. intros [o prev] s1 Hwf1 (Ha & Ho & Hl). cbn [fst snd] in *.
  destruct prev as [p|]; [|by apply keeps_ret]. apply steady_filed; [apply setBalance_steady|done..|by rewrite Ha].
Qed.

Lemma stable_Suicide a : stable (Suicide keccak a).
Proof.
  apply stable_with_object. intros o s Hwf Ho Hl _. eapply keeps_bind; [by apply keeps_journal|]. intros [] s1 Hwf1 Hs1.
  eapply keeps_bind; [apply markSuicided_steady; [done..|by eapply live_same]|]. intros o' s2 Hwf2 (_ & Ho' & _).
  eapply keeps_bind; [by apply keeps_setStateObject|]. intros [] s3 Hwf3 _. by apply keeps_ret.
Qed.

(** *** Undoing *)
Lemma stable_on_object a f : steady f → stable (on_object keccak a f).
Proof.
  intros Hf s Hwf. eapply keeps_bind; [by apply keeps_getStateObject|]. intros [o|] s1 Hwf1 Ho; [|by apply keeps_panic].
  destruct Ho as (Ha & Ho & Hl). apply steady_filed; [done..|by rewrite Ha].
Qed.

Lemma stable_undo_touch a prev prevDirty : stable (undo keccak (touchChange a prev prevDirty)).
Proof.
  unfold undo. destruct (negb prev && bool_decide (a ≠ ripemd)); [|apply stable_ret].
  apply stable_bind; [|intros []; destruct prevDirty; [apply stable_ret|intros s Hwf; by apply keeps_unmark]].
  apply stable_on_object. intros o s Hwf Ho Hl. by apply keeps_ret.
Qed.

Lemma stable_undo_create a : stable (undo keccak (createObjectChange a)).
Proof.
  intros s [F1 F2 F3]. apply keeps_modify; [|done]. split; cbn; [| |done].
  - intros b o [_ Hb]%lookup_delete_Some. by apply F1.
  - intros b [u Hb]. apply lookup_delete_Some in Hb as [Hne Hb]. rewrite lookup_delete_ne by done. apply F2. eauto.
Qed.

Lemma stable_undo_suicide a prev b : stable (undo keccak (suicideChange a prev b)).
Proof.
  apply stable_with_object. intros o s Hwf Ho Hl _.
  apply (steady_filed (setBalance b) (set_flags prev (touched o) (deleted o) (onDirty o) o)); [apply setBalance_steady|done..].
Qed.

Lemma stable_undo_log h : stable (undo keccak (addLogChange h)).
Proof.
  apply stable_get. intros s Hwf. case_bool_decide; [by apply keeps_light|]. case_bool_decide; [by apply keeps_panic|by apply keeps_light].
Qed.

Lemma stable_undo e : entry_wf e → stable (undo keccak e).
Proof.
  intros He. destruct e.
  - apply stable_undo_create.
  - intros s Hwf. by apply keeps_setStateObject.
  - apply stable_undo_suicide.
  - apply stable_on_object, setBalance_steady.
  - apply stable_on_object, setNonce_steady.
  - apply stable_on_object, setState_steady.
  - apply stable_on_object, setCode_steady.
  - by apply stable_light.
  - apply stable_undo_log.
  - by apply stable_light.
  - apply stable_undo_touch.
Qed.

Lemma stable_undo_all l : Forall entry_wf l → stable (undo_all keccak l).
Proof.
  unfold undo_all. intros Hl%Forall_reverse. induction Hl as [|e es He _ IH]; [apply stable_ret|].
  apply stable_bind; [by apply stable_undo|done].
Qed.

Lemma wf_set_journal j v n s : wf s → Forall entry_wf j → wf (set_journal j v n s).
Proof. intros [F1 F2 F3] Hj. by split. Qed.

Lemma stable_Revert id : stable (RevertToSnapshot keccak id).
Proof.
  apply stable_get. intros s Hwf. eapply keeps_bind; [by apply (keeps_stop _ _ (λ _ _, True))|]. intros i s1 Hwf1 _.
  case_bool_decide; [by apply keeps_panic|]. eapply keeps_bind; [by apply (keeps_stop _ _ (λ _ _, True))|]. intros r s2 Hwf2 _.
  case_bool_decide; [by apply keeps_panic|].
  eapply keeps_bind; [apply stable_undo_all; [apply Forall_drop, wf_journal, Hwf|done]|]. intros [] s3 Hwf3 _.
  apply keeps_modify; [|done]. apply wf_set_journal; [done|]. apply Forall_take, wf_journal, Hwf3.
Qed.

Lemma stable_Snapshot : stable Snapshot.
Proof. intros s Hwf. split; [|done]. by apply wf_set_journal, wf_journal. Qed.

(** *** The end of a transaction *)
Lemma keeps_trying {A} (f : M TR A) s (Q : unit → _ → Prop) :
  wf s → (∀ s', wf s' → Q tt s') → keeps (r ← zoom trie set_trie (trying f); modify (setError (fst r))) s Q.
Proof. intros Hwf HQ. eapply keeps_bind; [by apply keeps_trie|]. intros r s1 Hwf1 _. apply keeps_light; try done. apply HQ. by apply (wf_light s1). Qed.

Lemma stable_updateStateObject o : stable (updateStateObject o).
Proof. intros s Hwf. unfold updateStateObject. destruct (EncodeToBytes _); try by split. by apply keeps_trying. Qed.

Lemma keeps_deleteStateObject o s : wf s → obj_wf o → keeps (deleteStateObject o) s (λ _ _, True).
Proof.
  intros Hwf Ho. eapply keeps_bind; [by apply keeps_setStateObject|]. intros [] s1 Hwf1 _. by apply keeps_trying.
Qed.

Lemma stable_finalise_one b a : stable (finalise_one keccak b a).
Proof.
  apply stable_get. intros s Hwf. destruct (stateObjects s !! a) as [o|] eqn:Ha; [|by apply keeps_panic].
  destruct (wf_objects _ Hwf a o Ha) as [_ Ho]. destruct (suicided o || b && empty keccak o); [by apply keeps_deleteStateObject|].
  eapply keeps_bind; [apply (keeps_stop _ _ (λ r _, updateRoot (db s) o = Ret r)); [done|by intros r ->]|]. intros o' s1 Hwf1 Hr.
  eapply keeps_bind; [apply keeps_setStateObject; [done|exact (same_wf _ _ (updateRoot_id _ _ _ Hr) Ho)]|]. intros [] s2 Hwf2 _.
  by apply stable_updateStateObject.
Qed.

Lemma wf_clear s : wf s → wf (clearJournalAndRefund s).
Proof. intros [F1 F2 F3]. by split; cbn. Qed.

Lemma stable_Finalise b : stable (Finalise keccak b).
Proof.
  apply stable_get. intros s Hwf. eapply keeps_bind; [apply stable_for_each; [|done]; intros kv; apply stable_finalise_one|].
  intros [] s1 Hwf1 _. apply keeps_modify; [by apply wf_clear|done].
Qed.

Lemma stable_IntermediateRoot b : stable (IntermediateRoot keccak b).
Proof. apply stable_bind; [apply stable_Finalise|]. intros [] s Hwf. eapply keeps_mono; [by apply keeps_trie|done]. Qed.

Lemma stable_DeleteSuicides : stable DeleteSuicides.
Proof.
  apply stable_bind; [intros s Hwf; apply keeps_modify; [by apply wf_clear|done]|]. intros []. apply stable_get. intros s0 Hwf0.
  apply stable_for_each; [|done]. intros kv. apply stable_get. intros s Hwf.
  destruct (stateObjects s !! fst kv) as [o|] eqn:Ha; [|by apply keeps_panic]. destruct (wf_objects _ Hwf _ o Ha) as [_ Ho].
  eapply keeps_bind; [|intros [] s1 Hwf1 _; by apply keeps_unmark]. destruct (suicided o); [by apply keeps_setStateObject|by apply keeps_ret].
Qed.

Lemma stable_Reset root : stable (Reset root).
Proof.
  apply stable_get. intros s Hwf. eapply keeps_bind; [by apply (keeps_stop _ _ (λ _ _, True))|]. intros tr s1 Hwf1 _.
  apply keeps_modify; [|done]. split; cbn; [by intros a o ?%lookup_empty_Some| |done]. intros a Ha. by rewrite lookup_empty in Ha.
Qed.

Lemma stable_GetCodeSize a : stable (GetCodeSize keccak a).
Proof.
  apply stable_with_object. intros o s Hwf Ho _ _. destruct (code o); [by apply keeps_ret|]. apply keeps_get.
  destruct (ContractCodeSize _ _ _); try by split. eapply keeps_bind; [by apply (keeps_light _ _ (λ _ _, True))|by intros [] s1 Hwf1 _].
Qed.

Lemma stable_StorageTrie a : stable (StorageTrie keccak a).
Proof.
  apply stable_with_object. intros o s Hwf Ho _ _. apply keeps_get.
  eapply keeps_bind; [by apply (keeps_stop _ _ (λ _ _, True))|]. intros r s1 Hwf1 _. by apply keeps_ret.
Qed.

Lemma stable_AddLog l : stable (AddLog l).
Proof.
  apply stable_get. intros s Hwf. eapply keeps_bind; [by apply keeps_journal|]. intros [] s1 Hwf1 _. by apply keeps_light.
Qed.

Lemma stable_AddPreimage h p : stable (AddPreimage h p).
Proof.
  apply stable_get. intros s Hwf. destruct (preimages s !! h); [by apply keeps_ret|].
  eapply keeps_bind; [by apply keeps_journal|]. intros [] s1 Hwf1 _. by apply keeps_light.
Qed.

Lemma stable_AddRefund x : stable (AddRefund x).
Proof.
  apply stable_get. intros s Hwf. eapply keeps_bind; [by apply keeps_journal|]. intros [] s1 Hwf1 _. by apply keeps_light.
Qed.

Lemma stable_sexec (call : sop) : stable (sexec keccak call).
Proof.
  destruct call; cbn [sexec]; (apply stable_bind; [|intros; apply stable_ret]).
  - apply stable_changing, obj_AddBalance_steady.
  - apply stable_changing, obj_SubBalance_steady.
  - apply stable_changing, obj_SetBalance_steady.
  - apply stable_changing, obj_SetNonce_steady.
  - apply stable_changing. apply (db_steady (λ d, obj_SetCode keccak d (keccak (default [] c)) c)). intros d. apply obj_SetCode_steady.
  - apply stable_changing. apply (db_steady (λ d, obj_SetState d key v)). intros d. apply obj_SetState_steady.
  - apply stable_Suicide.
  - apply stable_CreateAccount.
  - apply stable_AddLog.
  - apply stable_AddRefund.
  - apply stable_AddPreimage.
  - apply stable_with_object. intros. by apply keeps_ret.
  - apply stable_with_object. intros. by apply keeps_ret.
  - apply stable_with_object. intros. by apply keeps_ret.
  - apply stable_with_object. intros. by apply keeps_ret.
  - apply stable_with_object. intros. by apply keeps_ret.
  - apply stable_bind; [|intros; apply stable_ret]. apply stable_with_object. intros o s Hwf Ho _ _. apply (load_filed (λ d, Code keccak d o) o); [|done..]. intros d. apply Code_id.
  - apply stable_with_object. intros o s Hwf Ho _ _. apply (load_filed (λ d, obj_GetState d key o) o); [|done..]. intros d. apply obj_GetState_id.
  - apply stable_with_object. intros. by apply keeps_ret.
  - by intros s Hwf.
  - by intros s Hwf.
  - apply stable_Snapshot.
  - apply stable_Revert.
Qed.

(** *** Committing *)
Section Commit.
Context {W : Type} `{Writer TR W}.
Implicit Types (p : StateDB SDB TR * W).

Definition commits {A} (f : M (StateDB SDB TR * W) A) p (Q : A → StateDB SDB TR * W → Prop) : Prop :=
  wp f p (λ r p', wf (fst p') ∧ match r with Ret a => Q a p' | _ => True end).

Lemma commits_bind {A B} (f : M _ A) (g : A → M _ B) p (P : A → _ → Prop) (Q : B → _ → Prop) :
  commits f p P → (∀ a p', wf (fst p') → P a p' → commits (g a) p' Q) → commits (f ≫= g) p Q.
Proof.
  unfold commits, wp, mbind, M_bind. intros Hf Hg. destruct (f p) as [[a|e|w|] p1], Hf as [Hwf Ha]; [by apply Hg|done..].
Qed.

Lemma commits_on_state {A} (f : M (StateDB SDB TR) A) p (Q : A → _ → Prop) :
  keeps f (fst p) (λ a s, ∀ w, Q a (s, w)) → commits (on_state f) p Q.
Proof.
  unfold commits, keeps, on_state, zoom, wp. destruct (f (fst p)) as [r s1]. cbn. intros [Hwf Hr]. split; [done|]. destruct r; auto.
Qed.

Lemma keeps_True {A} (f : M (StateDB SDB TR) A) s (Q : A → StateDB SDB TR → Prop) : keeps f s (λ _ _, True) → (∀ a s', Q a s') → keeps f s Q.
Proof. intros Hf HQ. eapply keeps_mono; [exact Hf|]. auto. Qed.

Lemma commits_lift {A} (r : outcome A) p : wf (fst p) → commits (lift r) p (λ a p', r = Ret a).
Proof. intros Hwf. split; [done|]. cbn. by destruct r. Qed.

Lemma commits_gets {A} (f : _ → A) p : wf (fst p) → commits (gets f) p (λ a p', a = f p ∧ p' = p).
Proof. by split. Qed.

Lemma commits_modify (f : _ → StateDB SDB TR * W) p : wf (fst (f p)) → commits (modify f) p (λ _ _, True).
Proof. by split. Qed.

Lemma commits_code o p : wf (fst p) → commits (commit_code o) p (λ o' _, same_id o o').
Proof.
  intros Hwf. unfold commit_code. destruct (code o) as [c|]; [|by split]. destruct (dirtyCode o); [|by split].
  destruct p as [s w]. unfold commits, wp. destruct (Put w (CodeHash (data o)) c) as [[e|] w']; by split.
Qed.

Lemma CommitTrie_id d o (w : W) o' w' err : CommitTrie d o w = Ret (o', w', err) → same_id o o'.
Proof.
  unfold CommitTrie. destruct (updateTrie d o) as [[t o1]|e|x|] eqn:Ht; try done. apply updateTrie_id in Ht as [Ha Hh]. cbn [mbind outcome_bind].
  destruct (obj_dbErr o1); [by intros [= <- _ _]|]. destruct (trie_CommitTo (t, w)) as [[r|e|x|] [t' w1]]; try done; by intros [= <- _ _].
Qed.

Lemma commits_file o p : wf (fst p) → obj_wf o → commits (on_state (setStateObject o)) p (λ _ _, True).
Proof. intros Hwf Ho. apply commits_on_state, keeps_True; [by apply keeps_setStateObject|done]. Qed.

Lemma commits_write d o p :
  wf (fst p) → obj_wf o →
  commits (o ← commit_code o;
    on_state (setStateObject o) ;;
    w ← gets snd;
    r ← lift (CommitTrie d o w);
    let '(o, w', err) := r in
    modify (λ p, (fst p, w')) ;;
    on_state (setStateObject o) ;;
    match err with Some e => fail e | None => on_state (updateStateObject o) end) p (λ _ _, True).
Proof.
  intros Hwf Ho. eapply commits_bind; [by apply commits_code|]. intros o1 p1 Hwf1 Hid1. pose proof (same_wf _ _ Hid1 Ho) as Ho1.
  eapply commits_bind; [by apply commits_file|]. intros [] p2 Hwf2 _.
  eapply commits_bind; [by apply (commits_gets _ p2)|]. intros w p3 Hwf3 _.
  eapply commits_bind; [by apply commits_lift|]. intros [[o2 w2] err] p4 Hwf4 Hid2. apply CommitTrie_id in Hid2.
  pose proof (same_wf _ _ Hid2 Ho1) as Ho2. eapply commits_bind; [by apply (commits_modify _ p4)|]. intros [] p5 Hwf5 _.
  eapply commits_bind; [by apply commits_file|]. intros [] p6 Hwf6 _.
  destruct err; [by split|]. apply commits_on_state, keeps_True; [by apply stable_updateStateObject|done].
Qed.

Lemma commits_one b a p : wf (fst p) → commits (commit_one keccak b a) p (λ _ _, True).
Proof.
  intros Hwf. eapply commits_bind; [by apply (commits_gets _ p)|]. intros s p1 Hwf1 [-> ->].
  destruct (stateObjects (fst p) !! a) as [o|] eqn:Ha; [|by split]. destruct (wf_objects _ Hwf a o Ha) as [_ Ho]. cbv zeta.
  eapply commits_bind.
  - instantiate (1 := λ _ _, True). destruct (suicided o || _); [apply commits_on_state, keeps_True; [by apply keeps_deleteStateObject|done]|].
    destruct (bool_decide _); [by apply commits_write|by split].
  - intros [] p2 Hwf2 _. apply commits_on_state, keeps_True; [by apply keeps_unmark|done].
Qed.

Lemma commits_for_each {A} (f : A → M (StateDB SDB TR * W) unit) l p :
  (∀ x p, wf (fst p) → commits (f x) p (λ _ _, True)) → wf (fst p) → commits (for_each f l) p (λ _ _, True).
Proof.
  intros Hf. revert p. induction l as [|x l IH]; intros p Hwf; [by split|]. eapply commits_bind; [by apply Hf|]. intros [] p1 Hwf1 _. by apply IH.
Qed.

Lemma commits_CommitTo b p : wf (fst p) → wf (fst (snd (state_CommitTo keccak b p))).
Proof.
  intros Hwf. unfold state_CommitTo. set (run := gets fst ≫= _).
  assert (commits run p (λ _ _, True)) as [Hrun _].
  { eapply commits_bind; [by apply (commits_gets _ p)|]. intros s p1 Hwf1 [-> ->].
    eapply commits_bind; [by apply commits_for_each; [intros kv ? ?; by apply commits_one|]|]. intros [] p2 Hwf2 _.
    unfold commits. apply wp_zoom. unfold wp. split; [by apply (wf_light (fst p2))|by destruct (trie_CommitTo _).1]. }
  destruct (run p) as [r p']. cbn in *. by apply wf_clear.
Qed.

(** *** Copies *)
Lemma copy_objects_spec (l : list bytes) s (m : gmap bytes (stateObject TR)) :
  wf s → (∀ a, a ∈ l → live a s) → (∀ a o, m !! a = Some o → address o = a ∧ obj_wf o) →
  ∃ m', copy_objects keccak l s m = Ret m' ∧ (∀ a o, m' !! a = Some o → address o = a ∧ obj_wf o) ∧
    ∀ a, a ∈ l ∨ is_Some (m !! a) → is_Some (m' !! a).
Proof.
  intros Hwf. revert m. induction l as [|a l IH]; intros m Hl Hm; cbn [copy_objects].
  - exists m. split; [done|]. split; [done|]. intros a [?%elem_of_nil|?]; done.
  - destruct (Hl a) as [o Ho]; [by left|]. rewrite Ho. destruct (wf_objects _ Hwf a o Ho) as [Ha _].
    destruct (IH (<[a := deepCopy keccak (db s) true o]> m)) as (m' & -> & Hm' & Hin).
    + intros b Hb. apply Hl. by right.
    + intros b o' [[<- <-]|[_ Hb]]%lookup_insert_Some; [done|by apply Hm].
    + exists m'. split; [done|]. split; [done|]. intros b Hb. apply Hin. rewrite lookup_insert_is_Some'.
      destruct Hb as [[->|Hb]%elem_of_cons|Hb]; auto.
Qed.

Lemma Copy_wf s : wf s → ∃ c, Copy keccak s = Ret c ∧ wf c.
Proof.
  intros Hwf. assert (∀ a, a ∈ map fst (range (stateObjectsDirty s)) ↔ is_Some (stateObjectsDirty s !! a)) as Hdirty.
  { intros a. unfold is_Some. setoid_rewrite <-elem_of_map_to_list. setoid_rewrite <-range_perm. change (map fst) with (fmap (M := list) (@fst bytes unit)).
    rewrite list_elem_of_fmap. split; [intros ([b u] & -> & Hb); by exists u|intros [u Hu]; by exists (a, u)]. }
  destruct (copy_objects_spec (map fst (range (stateObjectsDirty s))) s ∅ Hwf) as (m & Hm & Hobj & Hin).
  - intros a Ha%Hdirty. by apply (wf_dirty _ Hwf).
  - by intros a o ?%lookup_empty_Some.
  - unfold Copy. rewrite Hm. eexists. split; [done|]. split; cbn; [done| |done]. intros a Ha. apply Hin. left. by apply Hdirty.
Qed.

(** ** Every state *)
Inductive call :=
  | CState (o : sop) | CGetCodeSize (a : bytes) | CStorageTrie (a : bytes) | CLogs
  | CFinalise (b : bool) | CIntermediateRoot (b : bool) | CPrepare (th bh : bytes) (ti : Z) | CDeleteSuicides
  | CReset (root : bytes) | CCommitTo (b : bool).

Definition exec (c : call) : M (StateDB SDB TR * W) unit :=
  match c with
  | CState o => on_state (sexec keccak o) ;; mret tt
  | CGetCodeSize a => on_state (GetCodeSize keccak a) ;; mret tt
  | CStorageTrie a => on_state (StorageTrie keccak a) ;; mret tt
  | CLogs => on_state Logs ;; mret tt
  | CFinalise b => on_state (Finalise keccak b)
  | CIntermediateRoot b => on_state (IntermediateRoot keccak b) ;; mret tt
  | CPrepare th bh ti => on_state (Prepare th bh ti)
  | CDeleteSuicides => on_state DeleteSuicides
  | CReset root => on_state (Reset root)
  | CCommitTo b => state_CommitTo keccak b ;; mret tt
  end.

Lemma commits_stable {A} (f : M (StateDB SDB TR) A) p : stable f → wf (fst p) → wf (fst (snd (on_state f p))).
Proof.
  intros Hf Hwf. destruct (commits_on_state f p (λ _ _, True)) as [Hp _]; [|done]. apply keeps_True; [by apply Hf|done].
Qed.

Lemma wf_ignored {A} (f : M (StateDB SDB TR * W) A) p : wf (fst (snd (f p))) → wf (fst (snd ((f ;; mret tt) p))).
Proof. unfold mbind, M_bind. by destruct (f p) as [[]]. Qed.

Lemma exec_wf c p : wf (fst p) → wf (fst (snd (exec c p))).
Proof.
  intros Hwf. destruct c; cbn [exec]; try apply wf_ignored; try (apply commits_stable; [|done]).
  - apply stable_sexec.
  - apply stable_GetCodeSize.
  - apply stable_StorageTrie.
  - by intros s' Hs'.
  - apply stable_Finalise.
  - apply stable_IntermediateRoot.
  - by apply stable_light.
  - apply stable_DeleteSuicides.
  - apply stable_Reset.
  - by apply commits_CommitTo.
Qed.

(** The state after calls, each made whatever became of the one before: an error is left to the
    caller, and a panic may have been recovered from. *)
Definition after (cs : list call) (p : StateDB SDB TR * W) : StateDB SDB TR * W :=
  foldl (λ p c, snd (exec c p)) p cs.

Lemma after_wf cs p : wf (fst p) → wf (fst (after cs p)).
Proof. revert p. induction cs as [|c cs IH]; intros p Hwf; [done|]. by apply IH, exec_wf. Qed.

(** C25: well-formed states.  From a new state on, whatever calls are made one after the other,
    each of them returning, failing or panicking, every live object is filed under its own address
    and carries the hash of that address, only live objects are marked dirty, and the objects kept
    in the journal are of the same kind.  So copying the state never meets a dirty address without
    an object, and the copy is well-formed too. *)
Theorem state_stays_well_formed root d s cs w :
  New root d = Ret s →
  let s' := fst (after cs (s, w)) in
  wf s' ∧ ∃ c, Copy keccak s' = Ret c ∧ wf c.
Proof.
  intros Hnew. cbv zeta. assert (wf (fst (after cs (s, w)))) as Hwf; [|split; [done|by apply Copy_wf]].
  apply after_wf. unfold New in Hnew. destruct (OpenTrie d root) as [tr|e|x|]; try done. injection Hnew as <-.
  split; cbn; [by intros a o ?%lookup_empty_Some|intros a Ha; by rewrite lookup_empty in Ha|done].
Qed.
End Commit.
End Wf.

(** ** A concrete run *)
Module Run.
Import Example_.
#[local] Existing Instance listing_order.
#[local] Instance run_trie : StateTrie (Secure.SecureTrie (gmap bytes bytes)) := secure_StateTrie toy.
#[local] Instance run_database : StateDatabase (cachingDB (gmap bytes bytes)) (Secure.SecureTrie (gmap bytes bytes)) := caching_StateDatabase toy.
#[local] Instance run_writer : Writer (Secure.SecureTrie (gmap bytes bytes)) (gmap bytes bytes) := store_Writer toy.

(** A revert to a snapshot that there is not panics, and the calls go on. *)
Definition run_calls : list call :=
  [CState (SAddBalance alice 5); CState SSnapshot; CState (SSetNonce bob 1); CState (SRevert 7); CState (SRevert 0); CIntermediateRoot true;
   CState (SSuicide alice); CCommitTo true].

Lemma state_stays_well_formed_witness :
  (∃ x, fst (exec toy (CState (SRevert 7)) (after toy (take 3 run_calls) (s0, ∅))) = Panic x) ∧
  ∃ c, Copy toy (fst (after toy run_calls (s0, ∅))) = Ret c ∧ wf toy c.
Proof.
  split; [by eexists; vm_compute|]. exact (proj2 (state_stays_well_formed toy zero d0 s0 run_calls ∅ eq_refl)).
Defined.
End Run.
