(* ===== verification/Transition.v ===== *)
(** [proxy/proxy_processor.go], [proxy/gaspool.go], [proxy/errors.go]: what a message does to the
    state.  Big integers are [Z]; a [nil] gas pool is [None]. *)
From S2P Require Import Prelude Bytes HexKeys Rlp RlpRaw RlpStream TrieNode State.
Open Scope Z_scope.

Definition ErrNonceTooHigh : gerror := Errorf "nonce is too high".
Definition ErrNonceTooLow : gerror := Errorf "nonce is too low".
Definition ErrInsufficientBalanceForGas : gerror := Errorf "insufficient balance to pay for gas".
Definition ErrInsufficientBalance : gerror := Errorf "insufficient balance".
Definition ErrOutOfGas : gerror := Errorf "out of gas".
Definition ErrGasLimitReached : gerror := Errorf "gas limit reached".

(** ** Gas pools *)
Definition AddGas (amount : Z) (gp : option Z) : outcome (option Z) :=
  match gp with Some i => Ret (Some (i + amount)) | None => Panic "nil pointer dereference" end.

Definition SubGas (amount : Z) (gp : option Z) : outcome (option Z) :=
  match gp with
  | Some i => if bool_decide (i < amount) then Fail ErrGasLimitReached else Ret (Some (i - amount))
  | None => Panic "nil pointer dereference"
  end.

(** ** Messages *)
Record Message := mkMessage {
  To : option bytes; From : bytes; msg_Nonce : Z; Value : Z; GasPrice : Z; Gas : Z; msg_Data : bytes; CheckNonce : bool }.

(** [big.Int.BitLen] and [big.Int.Uint64] *)
Definition BitLen (x : Z) : Z := if bool_decide (x = 0) then 0 else Z.log2 (Z.abs x) + 1.
Definition Uint64 (x : Z) : Z := Z.abs x mod 2 ^ 64.

Definition BigMin (x y : Z) : Z := if bool_decide (x > y) then y else x.

Section Transition.
Context {SDB TR : Type} `{StateTrie TR} `{StateDatabase SDB TR} `{RangeOrder} (keccak : bytes → bytes).

Record StateTransition := mkTransition { gp : option Z; gas : Z; initialGas : Z; state : StateDB SDB TR }.

Definition set_gp (g : option Z) (st : StateTransition) : StateTransition := mkTransition g (gas st) (initialGas st) (state st).
Definition set_gas (g : Z) (st : StateTransition) : StateTransition := mkTransition (gp st) g (initialGas st) (state st).
Definition set_initialGas (g : Z) (st : StateTransition) : StateTransition := mkTransition (gp st) (gas st) g (state st).
Definition set_state (s : StateDB SDB TR) (st : StateTransition) : StateTransition := mkTransition (gp st) (gas st) (initialGas st) s.
Definition on_db {A} (f : M (StateDB SDB TR) A) : M StateTransition A := zoom state set_state f.

(** Calls of the gas pool. *)
Definition on_gp (f : option Z → outcome (option Z)) : M StateTransition unit :=
  st ← get; g ← lift (f (gp st)); modify (set_gp g).

Definition exists_or_create (a : bytes) : M StateTransition unit :=
  b ← on_db (Exist keccak a);
  if b : bool then mret tt else on_db (CreateAccount keccak a).

Definition CanTransfer (addr : bytes) (amount : Z) : M (StateDB SDB TR) bool :=
  b ← GetBalance keccak addr; mret (bool_decide (amount ≤ b)).

Definition Transfer (sender recipient : bytes) (amount : Z) : M (StateDB SDB TR) unit :=
  SubBalance keccak sender amount ;; AddBalance keccak recipient amount.

Section Msg.
Context (msg : Message).

Definition from : M StateTransition bytes := exists_or_create (From msg) ;; mret (From msg).

Definition to : M StateTransition bytes :=
  match To msg with
  | None => mret (replicate 20 0)
  | Some a => exists_or_create a ;; mret a
  end.

Definition useGas (amount : Z) : M StateTransition unit :=
  st ← get;
  if bool_decide (gas st < amount) then fail ErrOutOfGas
  else modify (set_gas ((gas st - amount) mod 2 ^ 64)).

Definition buyGas : M StateTransition unit :=
  let mgas := Gas msg in
  if bool_decide (BitLen mgas > 64) then fail ErrOutOfGas
  else
    let mgval := mgas * GasPrice msg in
    sender ← from;
    balance ← on_db (GetBalance keccak sender);
    if bool_decide (balance < mgval) then fail ErrInsufficientBalanceForGas
    else
      on_gp (SubGas mgas) ;;
      modify (λ st, set_gas ((gas st + Uint64 mgas) mod 2 ^ 64) st) ;;
      modify (set_initialGas mgas) ;;
      on_db (SubBalance keccak sender mgval).

Definition preCheck : M StateTransition unit :=
  sender ← from;
  (if CheckNonce msg then
     nonce ← on_db (GetNonce keccak sender);
     if bool_decide (nonce < msg_Nonce msg) then fail ErrNonceTooHigh
     else if bool_decide (nonce > msg_Nonce msg) then fail ErrNonceTooLow
     else mret tt
   else mret tt) ;;
  buyGas.

Definition gasUsed (st : StateTransition) : Z := initialGas st - gas st.

(** [math.BigMin] answers one of the two integers it is given, so [refund.Mul] writes to the
    counter of the state when that is the smaller one. *)
Definition refundGas : M StateTransition unit :=
  sender ← from;
  remaining ← gets (λ st, gas st * GasPrice msg);
  on_db (AddBalance keccak sender remaining) ;;
  uhalf ← gets (λ st, gasUsed st / 2);
  counter ← on_db (gets refund);
  let refund := BigMin uhalf counter in
  modify (λ st, set_gas ((gas st + Uint64 refund) mod 2 ^ 64) st) ;;
  on_db (if bool_decide (uhalf > counter) then modify (set_refund (refund * GasPrice msg)) else mret tt) ;;
  on_db (AddBalance keccak sender (refund * GasPrice msg)) ;;
  left ← gets gas;
  on_gp (AddGas left).

(** The required gas and the used gas; the returned bytes are nil and the message never fails
    without an error. *)
Definition TransitionOnNative : M StateTransition (Z * Z) :=
  preCheck ;;
  to_ ← to;
  useGas 100 ;;
  enough ← on_db (CanTransfer (From msg) (Value msg));
  if negb enough then fail ErrInsufficientBalance
  else
    to2 ← to;
    (b ← on_db (Exist keccak to2); if b : bool then mret tt else on_db (CreateAccount keccak to_)) ;;
    on_db (Transfer (From msg) to_ (Value msg)) ;;
    sender ← from;
    nonce ← on_db (GetNonce keccak sender);
    on_db (SetNonce keccak sender ((nonce + 1) mod 2 ^ 64)) ;;
    requiredGas ← gets gasUsed;
    refundGas ;;
    used ← gets gasUsed;
    mret (requiredGas, used).

(** The gas used; the pool and the state are the caller's. *)
Definition ProcessMessage : M (option Z * StateDB SDB TR) Z := λ p,
  let '(r, st) := TransitionOnNative (mkTransition (fst p) 0 0 (snd p)) in
  (match r with Ret (_, used) => Ret used | Fail e => Fail e | Panic w => Panic w | OutOfFuel => OutOfFuel end, (gp st, state st)).
End Msg.
End Transition.
Arguments StateTransition : clear implicits.
