(* ===== verification/TransitionProps.v ===== *)
(** What a message does, in terms of balances and nonces: when it is rejected and why, what it
    costs then, and what it moves when it is not. *)
From S2P Require Import Prelude Bytes HexKeys Rlp RlpRaw RlpStream TrieNode Trie TrieTree TrieSpec SecureTrie State StateView StateDatabase StateUndo StateOps StateProps Transition.
Open Scope Z_scope.

(** ** Ledgers *)
Definition bal (V : sview) (a : bytes) : Z := match accts V a with Some ac => a_balance ac | None => 0 end.
Definition non (V : sview) (a : bytes) : Z := match accts V a with Some ac => a_nonce ac | None => 0 end.

(** Everything but balances and nonces of the accounts [l] is as in [V0]; accounts of [l] may be
    new. *)
Record kept (l : list bytes) (V0 V : sview) : Prop := {
  kept_others : ∀ a, a ∉ l → accts V a = accts V0 a;
  kept_rest : ∀ a ac, accts V0 a = Some ac → ∃ ac', accts V a = Some ac' ∧ ac' ≡ ac_data (a_nonce ac') (a_balance ac') ac;
  kept_world : v_thash V = v_thash V0 ∧ v_bhash V = v_bhash V0 ∧ v_txIndex V = v_txIndex V0 ∧ v_logs V = v_logs V0 ∧
    v_logSize V = v_logSize V0 ∧ v_preimages V = v_preimages V0 }.

Lemma kept_refl l V : kept l V V.
Proof. split; [done| |done]. intros a ac Ha. by exists ac. Qed.

Lemma kept_put l V0 V a ac' :
  kept l V0 V → a ∈ l → (∀ ac, accts V a = Some ac → ac' ≡ ac_data (a_nonce ac') (a_balance ac') ac) → kept l V0 (put a (Some ac') V).
Proof.
  intros [E1 E2 E3] Ha Hac. split; [| |done].
  - intros b Hb. cbn. case_decide; [by subst b|]. by apply E1.
  - intros b ac Hb. destruct (E2 b ac Hb) as (ac1 & H1 & Heq1). cbn. case_decide as Hba; [subst b|by exists ac1].
    exists ac'. split; [done|]. specialize (Hac ac1 H1). destruct Hac as (_ & _ & F1 & F2 & F3 & F4), Heq1 as (_ & _ & G1 & G2 & G3 & G4).
    cbn in *. split; [done|]. split; [done|]. cbn. split_and!; congruence.
Qed.

(** What a message is judged by: the gas pool, the gas left and bought, and the ledger. *)
Record books := mkBooks { b_pool : Z; b_gas : Z; b_initial : Z; b_bal : bytes → Z; b_non : bytes → Z; b_refund : Z }.

Definition upd (a : bytes) (x : Z) (f : bytes → Z) : bytes → Z := λ b, if decide (b = a) then x else f b.

Definition with_bal (a : bytes) (x : Z) (X : books) : books := mkBooks (b_pool X) (b_gas X) (b_initial X) (upd a x (b_bal X)) (b_non X) (b_refund X).
Definition with_non (a : bytes) (x : Z) (X : books) : books := mkBooks (b_pool X) (b_gas X) (b_initial X) (b_bal X) (upd a x (b_non X)) (b_refund X).
Definition with_gas (p g i : Z) (X : books) : books := mkBooks p g i (b_bal X) (b_non X) (b_refund X).
Definition with_refund (r : Z) (X : books) : books := mkBooks (b_pool X) (b_gas X) (b_initial X) (b_bal X) (b_non X) r.

Section Props.
Context {SDB TR : Type} `{StateTrie TR} `{StateDatabase SDB TR} `{RangeOrder}.
Context (keccak : bytes → bytes) (keccak_len : ∀ b, len (keccak b) = 32).
Context (key_ok : bytes → Prop) (contents : TR → gmap bytes bytes → Prop).
Context `{!TrieLaws TR key_ok contents} (d : SDB) `{!StateDatabaseLaws contents d}.
Context (m : gmap bytes bytes) (Hbase : base_ok keccak key_ok contents d m).
Implicit Types (V : sview) (st : StateTransition SDB TR) (X : books).
#[local] Abbreviation obs := (obs keccak key_ok contents d m).
#[local] Abbreviation does := (does keccak key_ok contents d m).

Section From.
Context (V0 : sview) (l : list bytes) (Hl : ∀ a, a ∈ l → key_ok a).

Definition ledger V X : Prop := (∀ a, bal V a = b_bal X a) ∧ (∀ a, non V a = b_non X a) ∧ v_refund V = b_refund X.

Definition stands st X : Prop :=
  gp st = Some (b_pool X) ∧ gas st = b_gas X ∧ initialGas st = b_initial X ∧ ∃ V, obs (state st) V ∧ kept l V0 V ∧ ledger V X.

(** From the books [X], [f] ends with [o] and the books [X']. *)
Definition runs {A} (f : M (StateTransition SDB TR) A) X (o : outcome A) X' : Prop :=
  ∀ st, stands st X → ∃ st', f st = (o, st') ∧ stands st' X'.

Lemma runs_ret {A} (a : A) X : runs (mret a) X (Ret a) X.
Proof. intros st Hst. by exists st. Qed.

Lemma runs_fail {A} e X : runs (fail e : M _ A) X (Fail e) X.
Proof. intros st Hst. by exists st. Qed.

Lemma runs_bind {A B} (f : M _ A) (g : A → M _ B) X a X1 o X2 : runs f X (Ret a) X1 → runs (g a) X1 o X2 → runs (f ≫= g) X o X2.
Proof.
  intros Hf Hg st Hst. destruct (Hf st Hst) as (st1 & Hrun & Hst1). destruct (Hg st1 Hst1) as (st2 & Hrun2 & Hst2).
  exists st2. by rewrite (run_bind_Ret _ _ _ _ _ Hrun).
Qed.

Lemma runs_stop {A B} (f : M _ A) (g : A → M _ B) X e X1 : runs f X (Fail e) X1 → runs (f ≫= g) X (Fail e) X1.
Proof. intros Hf st Hst. destruct (Hf st Hst) as (st1 & Hrun & Hst1). exists st1. by rewrite (run_bind_Fail _ _ _ _ _ Hrun). Qed.

Lemma runs_gets {A} (f : StateTransition SDB TR → A) X r : (∀ st, stands st X → f st = r) → runs (gets f) X (Ret r) X.
Proof. intros Hf st Hst. exists st. by rewrite <-(Hf st Hst). Qed.

Lemma runs_modify (f : StateTransition SDB TR → StateTransition SDB TR) X X' :
  (∀ st, stands st X → stands (f st) X') → runs (modify f) X (Ret tt) X'.
Proof. intros Hf st Hst. exists (f st). split; [done|by apply Hf]. Qed.

(** A call on the state. *)
Lemma runs_on_db {A} (f : M (StateDB SDB TR) A) X (r : A) X' :
  b_pool X' = b_pool X → b_gas X' = b_gas X → b_initial X' = b_initial X →
  (∀ V, kept l V0 V → ledger V X → ∃ V', does f V r V' ∧ kept l V0 V' ∧ ledger V' X') →
  runs (on_db f) X (Ret r) X'.
Proof.
  intros Hp Hg Hi Hf st (Hgp & Hgas & Hini & V & Hobs & Hk & HL). destruct (Hf V Hk HL) as (V' & Hdoes & Hk' & HL').
  destruct (Hdoes _ Hobs) as (s' & es & Hrun & Hobs' & _). exists (set_state s' st). unfold on_db, zoom. rewrite Hrun.
  split; [done|]. unfold stands. cbn. rewrite Hp, Hg, Hi. eauto 10.
Qed.

Lemma runs_read {A} (f : M (StateDB SDB TR) A) X (r : A) : (∀ V, ledger V X → does f V r V) → runs (on_db f) X (Ret r) X.
Proof. intros Hf. apply runs_on_db; [done..|]. intros V Hk HL. exists V. auto. Qed.

Lemma runs_balance a X : a ∈ l → runs (on_db (GetBalance keccak a)) X (Ret (b_bal X a)) X.
Proof. intros Ha. apply runs_read. intros V (HB & _). rewrite <-HB. apply GetBalance_does; auto. Qed.

Lemma runs_nonce a X : a ∈ l → runs (on_db (GetNonce keccak a)) X (Ret (b_non X a)) X.
Proof. intros Ha. apply runs_read. intros V (_ & HN & _). rewrite <-HN. apply GetNonce_does; auto. Qed.

Lemma ledger_put a ac V X : a_balance ac = bal V a → a_nonce ac = non V a → ledger V X → ledger (put a (Some ac) V) X.
Proof.
  intros Hb Hn (HB & HN & HR). split_and!; [intros b..|done]; unfold bal, non in *; cbn; case_decide; subst; rewrite ?Hb, ?Hn; auto.
Qed.

Lemma acct_at_bal a V : a_balance (acct_at keccak a V) = bal V a.
Proof. unfold acct_at, bal. by destruct (accts V a). Qed.

Lemma acct_at_non a V : a_nonce (acct_at keccak a V) = non V a.
Proof. unfold acct_at, non. by destruct (accts V a). Qed.

(** An account that is created is empty. *)
Lemma runs_exists_or_create a X : a ∈ l → runs (exists_or_create keccak a) X (Ret tt) X.
Proof.
  intros Ha st (Hgp & Hgas & Hini & V & Hobs & Hk & HL). unfold exists_or_create.
  destruct (Exist_does keccak key_ok contents d m Hbase a V (Hl a Ha) _ Hobs) as (s1 & es & Hrun & Hobs1 & _).
  rewrite (run_bind_Ret _ _ _ (bool_decide (is_Some (accts V a))) (set_state s1 st)) by (unfold on_db, zoom; by rewrite Hrun).
  case_bool_decide as HV; [exists (set_state s1 st); split; [done|]; unfold stands; eauto 10|].
  apply eq_None_not_Some in HV.
  destruct (CreateAccount_does keccak keccak_len key_ok contents d m Hbase a V (Hl a Ha) s1 Hobs1) as (s2 & es2 & Hrun2 & Hobs2 & _).
  exists (set_state s2 st). unfold on_db, zoom. cbn. rewrite Hrun2. split; [done|]. split_and!; try done.
  eexists. split; [done|]. split.
  - apply kept_put; [done..|]. by rewrite HV.
  - apply ledger_put; [cbn; apply acct_at_bal|cbn|done]. unfold non. by rewrite HV.
Qed.

Lemma kept_data a n b V : kept l V0 V → a ∈ l → kept l V0 (put a (Some (ac_data n b (acct_at keccak a V))) V).
Proof. intros Hk Ha. apply kept_put; [done..|]. intros ac Hac. unfold acct_at. by rewrite Hac. Qed.

Lemma ledger_bal a x V X :
  ledger V X → ledger (put a (Some (ac_data (a_nonce (acct_at keccak a V)) x (acct_at keccak a V))) V) (with_bal a x X).
Proof.
  intros (HB & HN & HR). split_and!; [intros b..|done]; unfold bal, non, upd in *; cbn; unfold upd; case_decide; subst; auto.
  rewrite acct_at_non. apply HN.
Qed.

Lemma ledger_non a x V X :
  ledger V X → ledger (put a (Some (ac_data x (a_balance (acct_at keccak a V)) (acct_at keccak a V))) V) (with_non a x X).
Proof.
  intros (HB & HN & HR). split_and!; [intros b..|done]; unfold bal, non, upd in *; cbn; unfold upd; case_decide; subst; auto.
  rewrite acct_at_bal. apply HB.
Qed.

Lemma runs_add a x X : a ∈ l → runs (on_db (AddBalance keccak a x)) X (Ret tt) (with_bal a (b_bal X a + x) X).
Proof.
  intros Ha. apply runs_on_db; [done..|]. intros V Hk HL. eexists. split; [apply AddBalance_does; auto|]. split; [by apply kept_data|].
  rewrite acct_at_bal, (proj1 HL). by apply ledger_bal.
Qed.

Lemma runs_sub a x X : a ∈ l → runs (on_db (SubBalance keccak a x)) X (Ret tt) (with_bal a (b_bal X a - x) X).
Proof.
  intros Ha. apply runs_on_db; [done..|]. intros V Hk HL. eexists. split; [apply SubBalance_does; auto|]. split; [by apply kept_data|].
  rewrite acct_at_bal, (proj1 HL). by apply ledger_bal.
Qed.

Lemma runs_set_nonce a x X : a ∈ l → runs (on_db (SetNonce keccak a x)) X (Ret tt) (with_non a x X).
Proof.
  intros Ha. apply runs_on_db; [done..|]. intros V Hk HL. eexists. split; [apply SetNonce_does; auto|]. split; [by apply kept_data|].
  by apply ledger_non.
Qed.

Lemma runs_gas (f : StateTransition SDB TR → StateTransition SDB TR) p g i X :
  (∀ st, stands st X → gp (f st) = Some p ∧ gas (f st) = g ∧ initialGas (f st) = i ∧ state (f st) = state st) →
  runs (modify f) X (Ret tt) (with_gas p g i X).
Proof.
  intros Hf. apply runs_modify. intros st Hst. destruct (Hf st Hst) as (E1 & E2 & E3 & E4).
  destruct Hst as (_ & _ & _ & HV). unfold stands. rewrite E1, E2, E3, E4. done.
Qed.
End From.

(** ** A message *)
Section Msg.
Context (msg : Message) (Hgas : 0 ≤ Gas msg).

Definition recipient : bytes := default (replicate 20 0) (To msg).
Definition cost : Z := Gas msg * GasPrice msg.

(** Why the message is rejected, given the pool and the balance and nonce of its sender, and
    whether the gas was bought before. *)
Definition rejection (pool b n : Z) : option (gerror * bool) :=
  if CheckNonce msg && bool_decide (n < msg_Nonce msg) then Some (ErrNonceTooHigh, false)
  else if CheckNonce msg && bool_decide (msg_Nonce msg < n) then Some (ErrNonceTooLow, false)
  else if bool_decide (2 ^ 64 ≤ Gas msg) then Some (ErrOutOfGas, false)
  else if bool_decide (b < cost) then Some (ErrInsufficientBalanceForGas, false)
  else if bool_decide (pool < Gas msg) then Some (ErrGasLimitReached, false)
  else if bool_decide (Gas msg < 100) then Some (ErrOutOfGas, true)
  else if bool_decide (b - cost < Value msg) then Some (ErrInsufficientBalance, true)
  else None.

(** Gas used, of which half may be paid back from the refund counter. *)
Definition used_gas (counter : Z) : Z := 100 - Z.min 50 counter.

Section Run.
Context (V0 : sview) (Hfrom : key_ok (From msg)) (Hto : key_ok recipient).
#[local] Abbreviation l := [From msg; recipient].
#[local] Abbreviation runs := (runs V0 l).
#[local] Abbreviation stands := (stands V0 l).

Lemma listed_ok a : a ∈ l → key_ok a.
Proof. by intros [->|[->|?%elem_of_nil]%elem_of_cons]%elem_of_cons. Qed.

Lemma from_listed : From msg ∈ l.
Proof. by left. Qed.

Lemma to_listed : recipient ∈ l.
Proof. right. by left. Qed.

Lemma runs_from X : runs (from keccak msg) X (Ret (From msg)) X.
Proof. eapply runs_bind; [apply runs_exists_or_create; [apply listed_ok|apply from_listed]|apply runs_ret]. Qed.

Lemma runs_to X : runs (to keccak msg) X (Ret recipient) X.
Proof.
  unfold to. destruct (To msg) as [a|] eqn:Ha.
  - replace a with recipient by (unfold recipient; by rewrite Ha).
    eapply runs_bind; [apply runs_exists_or_create; [apply listed_ok|apply to_listed]|apply runs_ret].
  - replace (replicate 20 0) with recipient by (unfold recipient; by rewrite Ha). apply runs_ret.
Qed.

Lemma BitLen_64 x : 0 ≤ x → bool_decide (BitLen x > 64) = bool_decide (2 ^ 64 ≤ x).
Proof.
  intros Hx. apply bool_decide_ext. unfold BitLen. case_bool_decide as Hz; [subst; split; [lia|intros ?; lia]|].
  rewrite Z.abs_eq by done. split; intros Hlt.
  - apply (Z.log2_le_pow2 x 64); lia.
  - apply (Z.log2_le_pow2 x 64) in Hlt; lia.
Qed.

Lemma Uint64_small x : 0 ≤ x < 2 ^ 64 → Uint64 x = x.
Proof. intros Hx. unfold Uint64. rewrite Z.abs_eq by lia. by apply Z.mod_small. Qed.

(** The books once the gas is bought. *)
Definition bought X : books := with_bal (From msg) (b_bal X (From msg) - cost) (with_gas (b_pool X - Gas msg) (Gas msg) (Gas msg) X).

Lemma runs_on_gp f g X :
  f (Some (b_pool X)) = Ret (Some g) → runs (on_gp f) X (Ret tt) (with_gas g (b_gas X) (b_initial X) X).
Proof.
  intros Hf st (Hgp & Hg & Hi & HV). exists (set_gp (Some g) st). unfold on_gp, mbind, M_bind, get, lift. cbn beta iota.
  rewrite Hgp, Hf. done.
Qed.

Lemma runs_on_gp_fail f e X : f (Some (b_pool X)) = Fail e → runs (on_gp f) X (Fail e) X.
Proof.
  intros Hf st Hst. exists st. split; [|done]. destruct Hst as (Hgp & _). unfold on_gp, mbind, M_bind, get, lift. cbn beta iota.
  by rewrite Hgp, Hf.
Qed.

Definition buy X : outcome unit * books :=
  if bool_decide (2 ^ 64 ≤ Gas msg) then (Fail ErrOutOfGas, X)
  else if bool_decide (b_bal X (From msg) < cost) then (Fail ErrInsufficientBalanceForGas, X)
  else if bool_decide (b_pool X < Gas msg) then (Fail ErrGasLimitReached, X)
  else (Ret tt, bought X).

Lemma runs_buyGas X : b_gas X = 0 → runs (buyGas keccak msg) X (fst (buy X)) (snd (buy X)).
Proof.
  intros Hg. unfold buyGas, buy. rewrite BitLen_64 by done. case_bool_decide as Hbig; [apply runs_fail|]. fold cost.
  eapply runs_bind; [apply runs_from|]. eapply runs_bind; [apply runs_balance; [apply listed_ok|apply from_listed]|].
  case_bool_decide; [apply runs_fail|]. case_bool_decide as Hp.
  { apply runs_stop, runs_on_gp_fail. unfold SubGas. by rewrite bool_decide_eq_true_2. }
  eapply runs_bind; [eapply runs_on_gp; unfold SubGas; by rewrite bool_decide_eq_false_2|].
  eapply runs_bind; [apply (runs_gas _ _ _ (b_pool X - Gas msg) (Gas msg) (b_initial X))|].
  { intros st (E1 & E2 & E3 & _). cbn in *. split_and!; try done. rewrite E2, Hg, Uint64_small by lia. apply Z.mod_small. lia. }
  eapply runs_bind; [apply (runs_gas _ _ _ (b_pool X - Gas msg) (Gas msg) (Gas msg)); by intros st (E1 & E2 & E3 & _)|].
  apply (runs_sub _ _ listed_ok); apply from_listed.
Qed.

(** The nonce is checked first. *)
Definition nonce_error X : option gerror :=
  if CheckNonce msg && bool_decide (b_non X (From msg) < msg_Nonce msg) then Some ErrNonceTooHigh
  else if CheckNonce msg && bool_decide (msg_Nonce msg < b_non X (From msg)) then Some ErrNonceTooLow
  else None.

Lemma runs_preCheck X :
  b_gas X = 0 →
  runs (preCheck keccak msg) X (match nonce_error X with Some e => Fail e | None => fst (buy X) end)
    (match nonce_error X with Some _ => X | None => snd (buy X) end).
Proof.
  intros Hg. unfold preCheck, nonce_error. eapply runs_bind; [apply runs_from|].
  destruct (CheckNonce msg); cbn [andb]; [|eapply runs_bind; [apply runs_ret|by apply runs_buyGas]].
  case_bool_decide as Hlo.
  { apply runs_stop. eapply runs_bind; [apply runs_nonce; [apply listed_ok|apply from_listed]|].
    rewrite bool_decide_eq_true_2 by done. apply runs_fail. }
  case_bool_decide as Hhi.
  { apply runs_stop. eapply runs_bind; [apply runs_nonce; [apply listed_ok|apply from_listed]|].
    rewrite bool_decide_eq_false_2, bool_decide_eq_true_2 by lia. apply runs_fail. }
  eapply runs_bind; [|by apply runs_buyGas]. eapply runs_bind; [apply runs_nonce; [apply listed_ok|apply from_listed]|].
  rewrite !bool_decide_eq_false_2 by lia. apply runs_ret.
Qed.

(** *** Refunds *)
Lemma runs_set_refund r X : runs (on_db (modify (set_refund r))) X (Ret tt) (with_refund r X).
Proof.
  intros st (Hgp & Hg & Hi & V & Hobs & [E1 E2 E3] & HB & HN & _). eexists. split; [done|]. split_and!; try done.
  exists (v_set_refund r V). split; [|split; [by split|done]].
  destruct Hobs as [F1 F2 F3 F4 F5 F6 F7 F8 F9 F10 F11]. by split.
Qed.

Definition paid_back X : Z := Z.min ((b_initial X - b_gas X) / 2) (b_refund X).

(** The books after the refund. *)
Definition refunded X : books :=
  let r := paid_back X in
  let X1 := with_bal (From msg) (b_bal X (From msg) + b_gas X * GasPrice msg) X in
  let X2 := with_gas (b_pool X) (b_gas X + r) (b_initial X) X1 in
  let X3 := if bool_decide ((b_initial X - b_gas X) / 2 > b_refund X) then with_refund (r * GasPrice msg) X2 else X2 in
  let X4 := with_bal (From msg) (b_bal X3 (From msg) + r * GasPrice msg) X3 in
  with_gas (b_pool X + (b_gas X + r)) (b_gas X + r) (b_initial X) X4.

Lemma BigMin_min x y : BigMin x y = Z.min x y.
Proof. unfold BigMin. case_bool_decide; lia. Qed.

Lemma runs_refundGas X :
  0 ≤ b_gas X → 0 ≤ paid_back X → b_gas X + paid_back X < 2 ^ 64 → runs (refundGas keccak msg) X (Ret tt) (refunded X).
Proof.
  intros Hg Hr Hover. unfold refundGas. eapply runs_bind; [apply runs_from|].
  eapply runs_bind; [apply (runs_gets _ _ _ _ (b_gas X * GasPrice msg)); by intros st (_ & -> & _)|].
  eapply runs_bind; [apply (runs_add _ _ listed_ok); apply from_listed|].
  eapply runs_bind; [apply (runs_gets _ _ _ _ ((b_initial X - b_gas X) / 2)); unfold gasUsed; by intros st (_ & -> & -> & _)|].
  eapply runs_bind; [apply (runs_read _ _ _ _ (b_refund X)); intros V (_ & _ & HR); apply does_gets; intros s Hobs; cbn in HR; rewrite <-HR; apply (obs_refund _ _ _ _ _ _ _ Hobs)|].
  cbv zeta. rewrite BigMin_min. fold (paid_back X).
  eapply runs_bind; [apply (runs_gas _ _ _ (b_pool X) (b_gas X + paid_back X) (b_initial X))|].
  { intros st (E1 & E2 & E3 & _). cbn in *. split_and!; try done. rewrite E2, Uint64_small by lia. apply Z.mod_small. lia. }
  set (X2 := with_gas (b_pool X) (b_gas X + paid_back X) (b_initial X) _).
  set (X3 := if bool_decide ((b_initial X - b_gas X) / 2 > b_refund X) then with_refund (paid_back X * GasPrice msg) X2 else X2).
  apply (runs_bind _ _ _ _ _ tt X3).
  { unfold X3. case_bool_decide; [apply runs_set_refund|apply runs_read; intros V _; by apply (does_gets _ _ _ _ _ (λ _, tt))]. }
  assert (b_gas X3 = b_gas X + paid_back X ∧ b_pool X3 = b_pool X ∧ b_initial X3 = b_initial X) as (Hg3 & Hp3 & Hi3)
    by (unfold X3; by case_bool_decide).
  eapply runs_bind; [apply (runs_add _ _ listed_ok); apply from_listed|]. set (X4 := with_bal _ _ X3).
  eapply runs_bind; [apply (runs_gets _ _ _ _ (b_gas X3)); by intros st (_ & -> & _)|].
  unfold refunded. fold X2. fold X3. fold X4. rewrite <-Hg3, <-Hp3, <-Hi3. by apply (runs_on_gp _ _ X4).
Qed.

(** *** The whole transition *)
Definition moved X : books :=
  let f := From msg in
  let X1 := with_gas (b_pool X) (b_gas X - 100) (b_initial X) X in
  let X2 := with_bal f (b_bal X1 f - Value msg) X1 in
  let X3 := with_bal recipient (b_bal X2 recipient + Value msg) X2 in
  with_non f ((b_non X f + 1) mod 2 ^ 64) X3.

(** The result, and the books at the end. *)
Definition settle X : outcome (Z * Z) * books :=
  match nonce_error X with
  | Some e => (Fail e, X)
  | None =>
    match buy X with
    | (Fail e, X1) => (Fail e, X1)
    | (_, X1) =>
      if bool_decide (Gas msg < 100) then (Fail ErrOutOfGas, X1)
      else if bool_decide (b_bal X1 (From msg) < Value msg) then (Fail ErrInsufficientBalance, with_gas (b_pool X1) (b_gas X1 - 100) (b_initial X1) X1)
      else let X2 := refunded (moved X1) in (Ret (100, b_initial X2 - b_gas X2), X2)
    end
  end.

Lemma runs_useGas X : 
  0 ≤ b_gas X < 2 ^ 64 →
  runs (useGas 100) X (if bool_decide (b_gas X < 100) then Fail ErrOutOfGas else Ret tt)
    (if bool_decide (b_gas X < 100) then X else with_gas (b_pool X) (b_gas X - 100) (b_initial X) X).
Proof.
  intros Hg st Hst. pose proof Hst as (E1 & E2 & E3 & HV). unfold useGas, mbind, M_bind, get. cbn beta iota. rewrite E2.
  case_bool_decide; [by exists st|]. eexists. split; [done|]. split_and!; try done. cbn. apply Z.mod_small. lia.
Qed.

Lemma runs_CanTransfer X : runs (on_db (CanTransfer keccak (From msg) (Value msg))) X (Ret (bool_decide (Value msg ≤ b_bal X (From msg)))) X.
Proof.
  apply runs_read. intros V (HB & _). rewrite <-HB. apply (does_map _ _ _ _ _ _ (λ b, bool_decide (Value msg ≤ b))).
  by apply GetBalance_does.
Qed.

Lemma runs_on_db_bind {A B} (f : M (StateDB SDB TR) A) (g : A → M (StateDB SDB TR) B) X o X' :
  runs (on_db f ≫= λ a, on_db (g a)) X o X' → runs (on_db (f ≫= g)) X o X'.
Proof.
  intros Hr st Hst. destruct (Hr st Hst) as (st' & Hrun & Hst'). exists st'. split; [|done]. rewrite <-Hrun.
  unfold on_db, zoom, mbind, M_bind. destruct (f (state st)) as [[a|e|w|] s1]; done.
Qed.

Lemma runs_Transfer X :
  runs (on_db (Transfer keccak (From msg) recipient (Value msg))) X (Ret tt)
    (let X2 := with_bal (From msg) (b_bal X (From msg) - Value msg) X in with_bal recipient (b_bal X2 recipient + Value msg) X2).
Proof.
  apply runs_on_db_bind. eapply runs_bind; [apply (runs_sub _ _ listed_ok); apply from_listed|].
  apply (runs_add _ _ listed_ok). apply to_listed.
Qed.

Lemma paid_back_moved X : b_initial X = b_gas X → paid_back (moved X) = Z.min 50 (b_refund X).
Proof. intros Hi. unfold paid_back. cbn. rewrite Hi. by replace (b_gas X - (b_gas X - 100)) with 100 by lia. Qed.

Lemma runs_moved X :
  b_gas X = Gas msg → b_initial X = Gas msg → 0 ≤ b_refund X → 100 ≤ Gas msg < 2 ^ 64 →
  runs (refundGas keccak msg) (moved X) (Ret tt) (refunded (moved X)).
Proof.
  intros Hg Hi Hr Hm. apply runs_refundGas; rewrite ?paid_back_moved by congruence; cbn; lia.
Qed.

Lemma runs_transition X :
  b_gas X = 0 → 0 ≤ b_refund X → runs (TransitionOnNative keccak msg) X (fst (settle X)) (snd (settle X)).
Proof.
  intros Hg Hr. unfold TransitionOnNative, settle. pose proof (runs_preCheck X Hg) as Hpre.
  destruct (nonce_error X) as [e|]; [by apply runs_stop|]. unfold buy in *.
  case_bool_decide as Hbig; [by apply runs_stop|]. case_bool_decide; [by apply runs_stop|]. case_bool_decide; [by apply runs_stop|].
  eapply runs_bind; [exact Hpre|]. cbn [fst snd]. eapply runs_bind; [apply runs_to|].
  pose proof (runs_useGas (bought X)) as Huse. cbn [bought b_gas with_bal with_gas] in Huse. specialize (Huse ltac:(lia)).
  case_bool_decide; [by apply runs_stop|].
  eapply runs_bind; [exact Huse|]. set (X1 := with_gas _ _ _ (bought X)). eapply runs_bind; [apply runs_CanTransfer|].
  replace (b_bal X1 (From msg)) with (b_bal (bought X) (From msg)) by done.
  case_bool_decide as Hv; cbn [negb]; [rewrite bool_decide_eq_false_2 by lia|rewrite bool_decide_eq_true_2 by lia; apply runs_fail].
  eapply runs_bind; [apply runs_to|].
  eapply runs_bind; [apply (runs_exists_or_create _ _ listed_ok); apply to_listed|].
  eapply runs_bind; [apply runs_Transfer|]. eapply runs_bind; [apply runs_from|].
  eapply runs_bind; [apply runs_nonce; [apply listed_ok|apply from_listed]|].
  eapply runs_bind; [apply (runs_set_nonce _ _ listed_ok); apply from_listed|].
  change (runs (requiredGas ← gets gasUsed; refundGas keccak msg ;; used ← gets gasUsed; mret (requiredGas, used)) (moved (bought X))
    (Ret (100, b_initial (refunded (moved (bought X))) - b_gas (refunded (moved (bought X))))) (refunded (moved (bought X)))).
  eapply runs_bind; [apply (runs_gets _ _ _ _ 100)|].
  { intros st (_ & E2 & E3 & _). unfold gasUsed. rewrite E2, E3. cbn. lia. }
  eapply runs_bind; [by apply runs_moved; [..|lia]|].
  eapply runs_bind; [apply (runs_gets _ _ _ _ (b_initial (refunded (moved (bought X))) - b_gas (refunded (moved (bought X)))))|apply runs_ret].
  intros st (_ & E2 & E3 & _). unfold gasUsed. by rewrite E2, E3.
Qed.

(** What the books say at the end. *)
Definition settled X (o : outcome Z) X' : Prop :=
  match rejection (b_pool X) (b_bal X (From msg)) (b_non X (From msg)) with
  | Some (e, charged) =>
    o = Fail e ∧ b_pool X' = b_pool X - (if charged : bool then Gas msg else 0) ∧ b_refund X' = b_refund X ∧
    ∀ a, b_non X' a = b_non X a ∧ b_bal X' a = b_bal X a - (if charged && bool_decide (a = From msg) then cost else 0)
  | None =>
    let used := used_gas (b_refund X) in
    o = Ret used ∧ b_pool X' = b_pool X - used ∧
    b_refund X' = (if bool_decide (b_refund X < 50) then b_refund X * GasPrice msg else b_refund X) ∧
    ∀ a, b_non X' a = (if bool_decide (a = From msg) then (b_non X a + 1) mod 2 ^ 64 else b_non X a) ∧
      b_bal X' a = b_bal X a - (if bool_decide (a = From msg) then Value msg + used * GasPrice msg else 0)
        + (if bool_decide (a = recipient) then Value msg else 0)
  end.

Definition used_of (o : outcome (Z * Z)) : outcome Z :=
  match o with Ret (_, used) => Ret used | Fail e => Fail e | Panic w => Panic w | OutOfFuel => OutOfFuel end.

(** The accounts of an accepted message. *)
Lemma accepted_books X :
  let X' := refunded (moved (bought X)) in
  let used := used_gas (b_refund X) in
  b_initial X' - b_gas X' = used ∧ b_pool X' = b_pool X - used ∧
  b_refund X' = (if bool_decide (b_refund X < 50) then b_refund X * GasPrice msg else b_refund X) ∧
  ∀ a, b_non X' a = (if bool_decide (a = From msg) then (b_non X a + 1) mod 2 ^ 64 else b_non X a) ∧
    b_bal X' a = b_bal X a - (if bool_decide (a = From msg) then Value msg + used * GasPrice msg else 0)
      + (if bool_decide (a = recipient) then Value msg else 0).
Proof.
  cbv zeta. unfold refunded. rewrite paid_back_moved by done. unfold used_gas. cbn [b_refund bought with_bal with_gas].
  set (r := Z.min 50 (b_refund X)). cbn [moved bought b_initial b_gas b_refund b_pool with_bal with_gas with_non].
  replace (Gas msg - (Gas msg - 100)) with 100 by lia. change (100 / 2) with 50.
  split; [cbn; lia|]. split; [cbn; lia|]. split.
  - case_bool_decide; cbn; [rewrite bool_decide_eq_true_2 by lia; unfold r; f_equal; lia|by rewrite bool_decide_eq_false_2 by lia].
  - intros a. split.
    + case_bool_decide; cbn; unfold upd; repeat case_decide; repeat case_bool_decide; subst; done.
    + case_bool_decide; cbn; unfold upd, cost; repeat case_decide; repeat case_bool_decide; subst; try done; lia.
Qed.

Lemma settle_settled X : settled X (used_of (fst (settle X))) (snd (settle X)).
Proof.
  unfold settled, rejection, settle, nonce_error, buy.
  assert (∀ e X', b_bal X' = b_bal X → b_non X' = b_non X → b_refund X' = b_refund X → b_pool X' = b_pool X →
    Fail e = (Fail e : outcome Z) ∧ b_pool X' = b_pool X - 0 ∧ b_refund X' = b_refund X ∧
      ∀ a, b_non X' a = b_non X a ∧ b_bal X' a = b_bal X a - 0) as Hfree.
  { intros e X' -> -> -> ->. split; [done|]. split; [lia|]. split; [done|]. split; [done|lia]. }
  assert (∀ e g i, Fail e = (Fail e : outcome Z) ∧ b_pool (bought X) = b_pool X - Gas msg ∧ b_refund X = b_refund X ∧
      ∀ a, b_non X a = b_non X a ∧ b_bal (with_gas (b_pool (bought X)) g i (bought X)) a = b_bal X a - (if bool_decide (a = From msg) then cost else 0)) as Hpaid.
  { intros e g i. do 3 (split; [done|]). intros a. split; [done|]. cbn. unfold upd. case_decide; case_bool_decide; subst; try done; lia. }
  destruct (CheckNonce msg && bool_decide (b_non X (From msg) < msg_Nonce msg)); [by apply Hfree|].
  destruct (CheckNonce msg && bool_decide (msg_Nonce msg < b_non X (From msg))); [by apply Hfree|]. case_bool_decide; [by apply Hfree|].
  case_bool_decide; [by apply Hfree|]. case_bool_decide; [by apply Hfree|]. cbn [fst snd].
  case_bool_decide; [apply (Hpaid _ (Gas msg) (Gas msg))|].
  replace (b_bal (bought X) (From msg)) with (b_bal X (From msg) - cost) by (cbn; unfold upd; by rewrite decide_True).
  case_bool_decide; [apply Hpaid|]. destruct (accepted_books X) as (Hu & Hrest). cbn [used_of fst snd]. by rewrite Hu.
Qed.
End Run.

(** C26: a message.  [ProcessMessage] rejects a message exactly when its nonce is not that of the
    sender, its gas does not fit 64 bits, the sender cannot pay for the gas, the pool has too
    little, the gas is below 100, or the rest of the balance is below the value, in this order.
    When it accepts, the value goes from the sender to the recipient, the sender pays for the
    gas used and its nonce grows by one; no other balance, nonce, code or storage changes, and
    the pool gives exactly the gas used.  A message rejected for the last two reasons is charged:
    the sender has paid for all the gas, with nothing done and the nonce as before. *)
Theorem process_message_correct s V pool :
  obs s V → 0 ≤ v_refund V → key_ok (From msg) → key_ok recipient →
  ∃ o pool' s' V', ProcessMessage keccak msg (Some pool, s) = (o, (Some pool', s')) ∧ obs s' V' ∧ kept [From msg; recipient] V V' ∧
    match rejection pool (bal V (From msg)) (non V (From msg)) with
    | Some (e, charged) =>
      o = Fail e ∧ pool' = pool - (if charged : bool then Gas msg else 0) ∧ v_refund V' = v_refund V ∧
      ∀ a, non V' a = non V a ∧ bal V' a = bal V a - (if charged && bool_decide (a = From msg) then cost else 0)
    | None =>
      let used := used_gas (v_refund V) in
      o = Ret used ∧ pool' = pool - used ∧
      v_refund V' = (if bool_decide (v_refund V < 50) then v_refund V * GasPrice msg else v_refund V) ∧
      ∀ a, non V' a = (if bool_decide (a = From msg) then (non V a + 1) mod 2 ^ 64 else non V a) ∧
        bal V' a = bal V a - (if bool_decide (a = From msg) then Value msg + used * GasPrice msg else 0)
          + (if bool_decide (a = recipient) then Value msg else 0)
    end.
Proof.
  intros Hobs Hr Hf Ht. set (X := mkBooks pool 0 0 (bal V) (non V) (v_refund V)).
  destruct (runs_transition V Hf Ht X eq_refl Hr (mkTransition (Some pool) 0 0 s)) as (st & Hrun & Hst).
  { split_and!; try done. exists V. split; [done|]. split; [apply kept_refl|done]. }
  destruct Hst as (Hgp & _ & _ & V' & Hobs' & Hkept & HB & HN & HR).
  exists (used_of (fst (settle X))), (b_pool (snd (settle X))), (state st), V'.
  split; [unfold ProcessMessage; cbn [fst snd]; by rewrite Hrun, Hgp|]. split; [done|]. split; [done|].
  pose proof (settle_settled X) as Hset. unfold settled in Hset. cbn [b_pool b_bal b_non b_refund X] in Hset. rewrite HR.
  destruct (rejection pool (bal V (From msg)) (non V (From msg))) as [[e charged]|]; cbv zeta in *;
    destruct Hset as (E1 & E2 & E3 & E4); (split; [done|split; [done|split; [done|]]]); intros a; rewrite HB, HN; apply E4.
Qed.
End Msg.
End Props.

(** ** A payment *)
Module Payment.
Import Example_.
#[local] Existing Instance listing_order.
#[local] Instance pay_trie : StateTrie (Secure.SecureTrie (gmap bytes bytes)) := secure_StateTrie toy.
#[local] Instance pay_database : StateDatabase (cachingDB (gmap bytes bytes)) (Secure.SecureTrie (gmap bytes bytes)) := caching_StateDatabase toy.
#[local] Instance pay_laws : TrieLaws (Secure.SecureTrie (gmap bytes bytes)) keys (secure_contents toy keys) :=
  secure_TrieLaws toy toy_len keys keys_inj keys_bytes.
#[local] Instance pay_dblaws : StateDatabaseLaws (secure_contents toy keys) d0 := caching_laws toy keys d0.

Definition payment : Message := mkMessage (Some bob) alice 0 250 2 150 [] true.

(** Alice has 1000, pays Bob 250 and 100 gas at 2 each. *)
Lemma process_message_correct_witness :
  ∃ s1 s2 V2, AddBalance toy alice 1000 s0 = (Ret tt, s1) ∧ ProcessMessage toy payment (Some 5000, s1) = (Ret 100, (Some 4900, s2)) ∧
    obs toy keys (secure_contents toy keys) d0 ∅ s2 V2 ∧ bal V2 alice = 550 ∧ bal V2 bob = 250 ∧ non V2 alice = 1.
Proof.
  assert (keys alice ∧ keys bob) as [Ha Hb] by (split; decided).
  destruct (AddBalance_does toy toy_len keys (secure_contents toy keys) d0 ∅ nothing_stored alice 1000 nothing Ha s0 (proj1 s0_sim))
    as (s1 & es & Hrun & Hobs & _).
  destruct (process_message_correct toy toy_len keys (secure_contents toy keys) d0 ∅ nothing_stored payment ltac:(decided) s1 _ 5000 Hobs ltac:(decided) Ha Hb)
    as (o & pool' & s2 & V2 & Hrun2 & Hobs2 & _ & Hres).
  replace (rejection _ _ _ _) with (@None (gerror * bool)) in Hres by (vm_compute; reflexivity).
  destruct Hres as (-> & -> & _ & Hbal). exists s1, s2, V2. split; [exact Hrun|]. split; [exact Hrun2|]. split; [exact Hobs2|].
  split; [rewrite (proj2 (Hbal alice)); vm_compute; reflexivity|].
  split; [rewrite (proj2 (Hbal bob)); vm_compute; reflexivity|rewrite (proj1 (Hbal alice)); vm_compute; reflexivity].
Defined.
End Payment.
