(* ===== verification/BigMath.v ===== *)
(** [common/math/big.go]: arithmetic on big integers, kept to 256 bits, and their bytes.

    A [big.Int] is a [Z]; a function that writes to an argument answers it as well.  Words have
    64 bits. *)
From Stdlib Require Import Ascii Zpow_facts.
From S2P Require Import Prelude Bytes HexKeys TrieNode HexUtil Rlp RlpRaw RlpStream RlpDecode State Transition.
Open Scope Z_scope.

(** ** Words of a [big.Int] *)
Definition wordBits : nat := 64.
Definition wordBytes : nat := 8.

(** [Bits]: the words of the absolute value, least significant first, the last one not zero. *)
Fixpoint words (fuel : nat) (x : Z) : list Z :=
  match fuel with
  | O => []
  | S f => if bool_decide (x = 0) then [] else x mod 2 ^ 64 :: words f (x / 2 ^ 64)
  end.
Definition Bits (x : Z) : list Z := words (Z.to_nat (BitLen x)) (Z.abs x).

(** ** Constants *)
Definition BigPow (a b : Z) : Z := if bool_decide (b ≤ 0) then 1 else a ^ b.
Definition tt255 : Z := BigPow 2 255.
Definition tt256 : Z := BigPow 2 256.
Definition tt256m1 : Z := tt256 - 1.

Definition BigMax (x y : Z) : Z := if bool_decide (x < y) then y else x.

(** ** Text *)

(** [SetString]: an optional sign, then at least one digit. *)
Fixpoint parse_digits (base : Z) (l : text) (acc : Z) : option Z :=
  match l with
  | [] => Some acc
  | c :: l' => match char_digit base c with Some d => parse_digits base l' (acc * base + d) | None => None end
  end.
Definition SetString (s : text) (base : Z) : option Z :=
  match s with
  | [] => None
  | c :: l =>
    let unsigned (t : text) := if bool_decide (t = []) then None else parse_digits base t 0 in
    if bool_decide (c = "-"%char) then Z.opp <$> unsigned l
    else if bool_decide (c = "+"%char) then unsigned l
    else unsigned s
  end.

(** The second result of the code is false for [None]. *)
Definition ParseBig256 (s : text) : option Z :=
  if bool_decide (s = []) then Some 0
  else
    let bigint :=
      if bool_decide (2 ≤ length s)%nat && bool_decide (take 2 s = ["0"; "x"]%char ∨ take 2 s = ["0"; "X"]%char)
      then SetString (drop 2 s) 16 else SetString s 10 in
    match bigint with
    | Some n => if bool_decide (256 < BitLen n) then None else Some n
    | None => None
    end.

Definition MustParseBig256 (s : text) : outcome Z :=
  match ParseBig256 s with Some v => Ret v | None => Panic "invalid 256 bit integer" end.

Definition HexOrDecimal256_UnmarshalText (input : text) : outcome Z :=
  match ParseBig256 input with Some n => Ret n | None => Fail (Errorf "invalid hex or decimal integer") end.

(** The format [%#x]; [None] is a nil pointer. *)
Definition HexOrDecimal256_MarshalText (i : option Z) : text :=
  match i with
  | None => ["0"; "x"; "0"]%char
  | Some n => (if bool_decide (n < 0) then ["-"%char] else []) ++ prefix0x ++ FormatUint (Z.abs n)
  end.

(** ** Bits and bytes *)
Fixpoint first_bit (fuel : nat) (v i : Z) : Z :=
  match fuel with
  | O => i
  | S f => if bool_decide (i < BitLen v) then if Z.testbit v i then i else first_bit f v (i + 1) else BitLen v
  end.
Definition FirstBitSet (v : Z) : Z := first_bit (S (Z.to_nat (BitLen v))) v 0.

(** One word into the bytes in front of [i]; the next free place. *)
Fixpoint read_word (n : nat) (d : Z) (i : nat) (buf : bytes) : nat * bytes :=
  match n, i with
  | S n', S i' => read_word n' (Z.shiftr d 8) i' (<[i' := d mod 256]> buf)
  | _, _ => (i, buf)
  end.
Fixpoint read_words (ws : list Z) (i : nat) (buf : bytes) : bytes :=
  match ws with
  | [] => buf
  | d :: ws' => let '(i', buf') := read_word wordBytes d i buf in read_words ws' i' buf'
  end.
Definition ReadBits (x : Z) (buf : bytes) : bytes := read_words (Bits x) (length buf) buf.

Definition PaddedBigBytes (x n : Z) : bytes :=
  if bool_decide (n ≤ BitLen x / 8) then big_Bytes (Z.abs x) else ReadBits x (replicate (Z.to_nat n) 0).

Definition bigEndianByteAt (x n : Z) : outcome Z :=
  let ws := Bits x in
  let i := Z.quot n 8 in
  if bool_decide (len ws ≤ i) then Ret 0
  else
    word ← index ws i;
    let shift := (8 * Z.rem n 8) mod 2 ^ 64 in
    Ret (Z.shiftr word shift mod 256).

Definition Byte (x padlength n : Z) : outcome Z :=
  if bool_decide (padlength ≤ n) then Ret 0 else bigEndianByteAt x (padlength - 1 - n).

(** ** 256-bit arithmetic *)
Definition U256 (x : Z) : Z := Z.land x tt256m1.
Definition S256 (x : Z) : Z := if bool_decide (x < tt255) then x else x - tt256.

(** The result and the base: the code squares the base it is given. *)
Fixpoint exp_bits (n : nat) (word result base : Z) : Z * Z :=
  match n with
  | O => (result, base)
  | S n' =>
    let result := if bool_decide (Z.land word 1 = 1) then U256 (result * base) else result in
    exp_bits n' (Z.shiftr word 1) result (U256 (base * base))
  end.
Fixpoint exp_words (ws : list Z) (result base : Z) : Z * Z :=
  match ws with
  | [] => (result, base)
  | w :: ws' => let '(result, base) := exp_bits wordBits w result base in exp_words ws' result base
  end.
Definition Exp (base exponent : Z) : Z * Z := exp_words (Bits exponent) 1 base.

(** ** Words *)
Lemma BitLen_bound x : 0 ≤ BitLen x ∧ Z.abs x < 2 ^ BitLen x ∧ (x ≠ 0 → 2 ^ (BitLen x - 1) ≤ Z.abs x).
Proof.
  unfold BitLen. case_bool_decide as H0; [subst x; cbn; split; [lia|split; [lia|done]]|].
  pose proof (Z.log2_spec (Z.abs x) ltac:(lia)) as [Hl Hu]. pose proof (Z.log2_nonneg (Z.abs x)).
  split; [lia|]. split; [done|]. intros _. by replace (Z.log2 (Z.abs x) + 1 - 1) with (Z.log2 (Z.abs x)) by lia.
Qed.

Definition word_ok (w : Z) : Prop := 0 ≤ w < 2 ^ 64.

Lemma words_ok f x : 0 ≤ x < 2 ^ Z.of_nat f → SetBits (words f x) = x ∧ Forall word_ok (words f x).
Proof.
  revert x. induction f as [|f IH]; intros x Hx; [change (2 ^ Z.of_nat 0) with 1 in Hx; cbn; split; [lia|done]|]. cbn [words].
  case_bool_decide as H0; [subst x; by split|]. rewrite Nat2Z.inj_succ, Z.pow_succ_r in Hx by lia.
  destruct (IH (x / 2 ^ 64)) as [IH1 IH2].
  { split; [apply Z.div_pos; lia|]. apply Z.div_lt_upper_bound; [lia|]. nia. }
  cbn [SetBits]. rewrite IH1. split; [pose proof (Z.div_mod x (2 ^ 64)); lia|]. constructor; [apply Z.mod_pos_bound; lia|done].
Qed.

Lemma Bits_ok x : SetBits (Bits x) = Z.abs x ∧ Forall word_ok (Bits x).
Proof. apply words_ok. pose proof (BitLen_bound x). rewrite Z2Nat.id by lia. lia. Qed.

Lemma Bits_nil x : Bits x = [] ↔ x = 0.
Proof.
  split; [|by intros ->]. intros Hn. destruct (Bits_ok x) as [Hv _]. rewrite Hn in Hv. cbn in Hv. lia.
Qed.

(** ** Powers *)
Abbreviation M256 := (2 ^ 256).

Lemma U256_mod x : U256 x = x mod M256.
Proof. unfold U256, tt256m1, tt256. change (BigPow 2 256 - 1) with (Z.ones 256). by rewrite Z.land_ones. Qed.

Lemma exp_bits_ok n w r b : 0 ≤ w →
  let '(r', b') := exp_bits n w r b in
  r' mod M256 = (r * b ^ (w mod 2 ^ Z.of_nat n)) mod M256 ∧ b' mod M256 = b ^ (2 ^ Z.of_nat n) mod M256 ∧
  (0 ≤ r < M256 → 0 ≤ r' < M256) ∧ ((0 < n)%nat ∨ 0 ≤ b < M256 → 0 ≤ b' < M256).
Proof.
  revert w r b. induction n as [|n IH]; intros w r b Hw; cbn [exp_bits].
  { change (2 ^ Z.of_nat 0) with 1. rewrite Z.mod_1_r, Z.pow_0_r, Z.pow_1_r, Z.mul_1_r. split_and!; [done|done|done|by intros [?|?]; [lia|]]. }
  set (r1 := if bool_decide (Z.land w 1 = 1) then _ else _). rewrite U256_mod.
  assert (r1 mod M256 = (r * b ^ (w mod 2)) mod M256 ∧ (0 ≤ r < M256 → 0 ≤ r1 < M256)) as [Hr1 Hr1b].
  { subst r1. change (Z.land w 1) with (Z.land w (Z.ones 1)). rewrite Z.land_ones by lia. change (2 ^ 1) with 2. pose proof (Z.mod_pos_bound w 2 ltac:(lia)). case_bool_decide as Hb.
    - rewrite Hb, Z.pow_1_r, U256_mod, Z.mod_mod by lia. split; [done|]. intros _. by apply Z.mod_pos_bound.
    - replace (w mod 2) with 0 by lia. by rewrite Z.pow_0_r, Z.mul_1_r. }
  specialize (IH (Z.shiftr w 1) r1 ((b * b) mod M256) ltac:(by apply Z.shiftr_nonneg)).
  destruct (exp_bits n (Z.shiftr w 1) r1 _) as [r' b']. destruct IH as (I1 & I2 & I3 & I4).
  rewrite Z.shiftr_div_pow2 in I1 by lia. change (2 ^ 1) with 2 in I1.
  assert (0 ≤ (w / 2) mod 2 ^ Z.of_nat n) as Hq by (apply Z.mod_pos_bound; lia).
  assert (w mod 2 ^ Z.of_nat (S n) = w mod 2 + 2 * ((w / 2) mod 2 ^ Z.of_nat n)) as Hmod.
  { rewrite Nat2Z.inj_succ, Z.pow_succ_r by lia. apply Z.rem_mul_r; lia. }
  assert (∀ k, 0 ≤ k → (b ^ (2 * k)) mod M256 = (((b * b) mod M256) ^ k) mod M256) as Hsq.
  { intros k Hk. rewrite Z.pow_mul_r by lia. rewrite Zpower_mod by lia. symmetry. by rewrite Zpower_mod, Z.mod_mod, Z.pow_2_r by lia. }
  split_and!.
  - rewrite I1, Hmod, Z.pow_add_r by (pose proof (Z.mod_pos_bound w 2); lia). rewrite Z.mul_assoc.
    rewrite (Z.mul_mod r1), Hr1, <-Hsq by lia. by rewrite <-Z.mul_mod by lia.
  - rewrite I2, Nat2Z.inj_succ, Z.pow_succ_r by lia. symmetry. apply Hsq. lia.
  - intros Hr. by apply I3, Hr1b.
  - intros _. apply I4. right. by apply Z.mod_pos_bound.
Qed.

Lemma SetBits_nonneg ws : Forall word_ok ws → 0 ≤ SetBits ws.
Proof. induction 1 as [|w ws Hw _ IH]; [done|]. cbn. unfold word_ok in Hw. lia. Qed.

Lemma pow_pow_mod m b b1 K k : 0 < m → 0 ≤ K → 0 ≤ k → b1 mod m = b ^ K mod m → b1 ^ k mod m = b ^ (K * k) mod m.
Proof. intros Hm HK Hk Hb. rewrite Z.pow_mul_r by done. rewrite Zpower_mod, Hb by done. by rewrite <-Zpower_mod. Qed.

Lemma mul_pow_mod m r r1 b b1 x y : 0 < m → 0 ≤ x → 0 ≤ y → r1 mod m = (r * b ^ x) mod m → b1 mod m = b ^ y mod m →
  (r1 * b1) mod m = (r * b ^ (x + y)) mod m.
Proof. intros Hm Hx Hy Hr Hb. rewrite Z.pow_add_r, Z.mul_assoc by done. rewrite Z.mul_mod, Hr, Hb by lia. by rewrite <-Z.mul_mod by lia. Qed.

Lemma exp_words_ok ws r b : Forall word_ok ws →
  let '(r', b') := exp_words ws r b in
  r' mod M256 = (r * b ^ SetBits ws) mod M256 ∧ b' mod M256 = b ^ (2 ^ (64 * len ws)) mod M256 ∧
  (0 ≤ r < M256 → 0 ≤ r' < M256) ∧ (ws ≠ [] ∨ 0 ≤ b < M256 → 0 ≤ b' < M256).
Proof.
  intros Hws. revert r b. induction Hws as [|w ws Hw Hws IH]; intros r b; cbn [exp_words].
  { cbn [SetBits]. rewrite Z.pow_0_r, Z.mul_1_r. change (2 ^ (64 * len (@nil Z))) with 1. rewrite Z.pow_1_r. split_and!; [done|done|done|by intros [?|?]]. }
  unfold word_ok in Hw. pose proof (exp_bits_ok wordBits w r b ltac:(lia)) as Hone. destruct (exp_bits wordBits w r b) as [r1 b1].
  change (2 ^ Z.of_nat wordBits) with (2 ^ 64) in Hone. rewrite (Z.mod_small w) in Hone by done. destruct Hone as (O1 & O2 & O3 & O4).
  specialize (IH r1 b1). destruct (exp_words ws r1 b1) as [r' b']. destruct IH as (I1 & I2 & I3 & I4).
  assert (0 ≤ SetBits ws) as Hs by by apply SetBits_nonneg.
  assert (∀ k, 0 ≤ k → b1 ^ k mod M256 = b ^ (2 ^ 64 * k) mod M256) as Hpow by (intros k Hk; by apply pow_pow_mod).
  clear O2. split_and!.
  - rewrite I1. cbn [SetBits]. apply mul_pow_mod; [done|lia|lia|done|by apply Hpow].
  - rewrite I2, Hpow by (apply Z.pow_nonneg; lia). f_equal. f_equal. replace (len (w :: ws)) with (1 + len ws) by (unfold len; cbn; lia).
    rewrite <-Z.pow_add_r by (unfold len; lia). f_equal. lia.
  - intros Hr. by apply I3, O3.
  - intros _. apply I4. right. apply O4. left. unfold wordBits. lia.
Qed.

Lemma U256_S256 x : - 2 ^ 255 ≤ x < 2 ^ 255 → S256 (U256 x) = x.
Proof.
  intros Hx. rewrite U256_mod. unfold S256, tt255, tt256. change (BigPow 2 255) with (2 ^ 255). change (BigPow 2 256) with (2 ^ 256).
  destruct (decide (0 ≤ x)).
  - rewrite Z.mod_small by lia. by rewrite bool_decide_eq_true_2 by lia.
  - replace (x mod M256) with (x + M256) by (apply (Z.mod_unique _ _ (-1)); lia). rewrite bool_decide_eq_false_2 by lia. lia.
Qed.

(** ** Bytes *)
Lemma be_bytes_app a b x : 0 ≤ x → be_bytes (a + b) x = be_bytes a (x / 256 ^ Z.of_nat b) ++ be_bytes b x.
Proof.
  intros Hx. induction a as [|a IH]; [done|]. cbn. rewrite IH. f_equal. f_equal. rewrite !Z.shiftr_div_pow2 by lia.
  change 256 with (2 ^ 8). rewrite <-Z.pow_mul_r, Z.div_div by lia. rewrite <-Z.pow_add_r by lia. do 2 f_equal. lia.
Qed.

Lemma be_bytes_mod k m x : (k ≤ m)%nat → 0 ≤ x → be_bytes k (x mod 256 ^ Z.of_nat m) = be_bytes k x.
Proof.
  intros Hk Hx. induction k as [|k IH]; [done|]. cbn [be_bytes]. rewrite IH by lia. f_equal. rewrite !Z.shiftr_div_pow2 by lia.
  change 256 with (2 ^ 8). rewrite <-Z.pow_mul_r by lia.
  apply Z.bits_inj'. intros n Hn. rewrite !Z.testbit_mod_pow2 by lia. destruct (decide (n < 8)); [|by rewrite (proj2 (Z.ltb_ge n 8)) by lia].
  rewrite (proj2 (Z.ltb_lt n 8)) by lia. cbn [andb]. rewrite !Z.div_pow2_bits by lia. rewrite Z.mod_pow2_bits_low by lia. done.
Qed.

(** A word fills the bytes in front of what is already written. *)
Lemma read_word_ok n d pre suf : 0 ≤ d →
  read_word n d (length pre) (pre ++ suf) =
  let k := (n `min` length pre)%nat in ((length pre - k)%nat, take (length pre - k) pre ++ be_bytes k d ++ suf).
Proof.
  revert d pre suf. induction n as [|n IH]; intros d pre suf Hd; cbn [read_word].
  { cbn. rewrite Nat.sub_0_r, firstn_all. by destruct (length pre). }
  destruct pre as [|x pre] using rev_ind; [done|]. clear IHpre. rewrite length_app. cbn [length]. rewrite Nat.add_1_r.
  rewrite <-app_assoc. replace (length pre) with (length pre + 0)%nat by lia. rewrite insert_app_r. cbn [app].
  change (<[0%nat := d mod 256]> (x :: suf)) with (d mod 256 :: suf). rewrite Nat.add_0_r.
  rewrite IH by (by apply Z.shiftr_nonneg). cbv zeta. rewrite Nat.succ_min_distr || rewrite <-Nat.succ_min_distr.
  set (k := (n `min` length pre)%nat). f_equal. cbn [Nat.sub]. rewrite take_app_le by lia. f_equal.
  replace (S k) with (k + 1)%nat by lia. rewrite be_bytes_app by done. rewrite <-app_assoc. change (256 ^ Z.of_nat 1) with 256.
  rewrite Z.shiftr_div_pow2 by lia. change (2 ^ 8) with 256. f_equal.
Qed.

Lemma be_bytes_0 n : be_bytes n 0 = replicate n 0.
Proof. induction n as [|n IH]; [done|]. cbn [be_bytes replicate]. by rewrite IH, Z.shiftr_0_l. Qed.

Lemma read_words_ok ws p suf : Forall word_ok ws → read_words ws p (replicate p 0 ++ suf) = be_bytes p (SetBits ws) ++ suf.
Proof.
  intros Hws. revert p suf. induction Hws as [|w ws Hw Hws IH]; intros p suf; [by rewrite be_bytes_0|]. cbn [read_words SetBits].
  unfold word_ok in Hw. pose proof (read_word_ok wordBytes w (replicate p 0) suf ltac:(lia)) as Hword. rewrite length_replicate in Hword. rewrite Hword.
  cbv zeta beta iota. set (k := (wordBytes `min` p)%nat). rewrite take_replicate. replace ((p - k) `min` p)%nat with (p - k)%nat by lia.
  rewrite IH, app_assoc. f_equal. pose proof (SetBits_nonneg ws Hws) as Hs. unfold wordBytes in k.
  assert (be_bytes k w = be_bytes k (w + 2 ^ 64 * SetBits ws)) as ->.
  { rewrite <-(be_bytes_mod k 8 (w + _)) by (subst k; lia). f_equal. change (256 ^ Z.of_nat 8) with (2 ^ 64).
    apply (Z.mod_unique _ _ (SetBits ws)); lia. }
  destruct (decide (8 ≤ p)%nat).
  - replace k with 8%nat by (subst k; lia). replace p with (p - 8 + 8)%nat at 2 by lia. rewrite (be_bytes_app (p - 8) 8) by lia.
    f_equal. f_equal. change (256 ^ Z.of_nat 8) with (2 ^ 64). apply (Z.div_unique _ _ _ w); lia.
  - replace k with p by (subst k; lia). by rewrite Nat.sub_diag.
Qed.

Lemma ReadBits_ok x n : ReadBits x (replicate n 0) = be_bytes n (Z.abs x).
Proof.
  destruct (Bits_ok x) as [Hv Hok]. unfold ReadBits. rewrite length_replicate. rewrite <-(app_nil_r (replicate n 0)), read_words_ok by done.
  by rewrite app_nil_r, Hv.
Qed.

(** The number of bytes of [|x|]. *)
Definition byte_len (x : Z) : Z := (BitLen x + 7) / 8.

Lemma big_Bytes_len x : len (big_Bytes (Z.abs x)) = byte_len x.
Proof.
  destruct (big_Bytes_ok (Z.abs x) ltac:(lia)) as (_ & _ & _ & Hlen). destruct (BitLen_bound x) as (H0 & Hu & Hl).
  assert (∀ n, 0 ≤ n → 256 ^ n = 2 ^ (8 * n)) as Hp by (intros n Hn; change 256 with (2 ^ 8); by rewrite Z.pow_mul_r by lia).
  unfold byte_len. pose proof (Z.div_mod (BitLen x + 7) 8 ltac:(lia)) as Hdm. pose proof (Z.mod_pos_bound (BitLen x + 7) 8 ltac:(lia)).
  set (q := (BitLen x + 7) / 8) in *. assert (0 ≤ q) by (apply Z.div_pos; lia). apply Z.le_antisymm.
  - apply Hlen; [done|]. rewrite Hp by done. eapply Z.lt_le_trans; [exact Hu|]. apply Z.pow_le_mono_r; lia.
  - destruct (decide (x = 0)) as [->|Hx]; [assert (q = 0) as -> by done; unfold len; lia|]. specialize (Hl Hx).
    apply Z.nlt_ge. intros Hlt. assert (Z.abs x < 256 ^ (q - 1)) as Hs by (apply Hlen; [|lia]; unfold len in *; lia).
    rewrite Hp in Hs by (unfold len in *; lia). assert (2 ^ (8 * (q - 1)) ≤ 2 ^ (BitLen x - 1)) by (apply Z.pow_le_mono_r; lia). lia.
Qed.

Lemma PaddedBigBytes_ok x n :
  is_bytes (PaddedBigBytes x n) ∧ be_val (PaddedBigBytes x n) = Z.abs x ∧ len (PaddedBigBytes x n) = n `max` byte_len x.
Proof.
  destruct (big_Bytes_ok (Z.abs x) ltac:(lia)) as (Hb & Hv & _ & _). pose proof (big_Bytes_len x) as Hlen.
  unfold PaddedBigBytes, byte_len in *. destruct (BitLen_bound x) as (H0 & Hu & _).
  pose proof (Z.div_mod (BitLen x + 7) 8 ltac:(lia)). pose proof (Z.mod_pos_bound (BitLen x + 7) 8 ltac:(lia)).
  pose proof (Z.div_mod (BitLen x) 8 ltac:(lia)). pose proof (Z.mod_pos_bound (BitLen x) 8 ltac:(lia)).
  case_bool_decide as Hn; [split; [done|]; split; [done|lia]|]. rewrite ReadBits_ok. split; [apply be_bytes_ok|].
  split; [|unfold len; rewrite length_be_bytes; lia].
  rewrite be_val_bytes by lia. apply Z.mod_small. split; [lia|]. change 256 with (2 ^ 8). rewrite <-Z.pow_mul_r by lia.
  eapply Z.lt_le_trans; [exact Hu|]. apply Z.pow_le_mono_r; lia.
Qed.

(** ** Single bytes *)
Lemma SetBits_lookup ws i w : Forall word_ok ws → ws !! i = Some w → w = SetBits ws / 2 ^ (64 * Z.of_nat i) mod 2 ^ 64.
Proof.
  intros Hws. revert i. induction Hws as [|w0 ws Hw0 Hws IH]; intros i Hi; [done|]. unfold word_ok in Hw0. destruct i as [|i].
  - injection Hi as ->. cbn [SetBits]. rewrite Z.mul_0_r, Z.pow_0_r, Z.div_1_r. apply (Z.mod_unique _ _ (SetBits ws)); lia.
  - cbn in Hi. rewrite (IH _ Hi). cbn [SetBits]. replace (64 * Z.of_nat (S i)) with (64 + 64 * Z.of_nat i) by lia.
    rewrite Z.pow_add_r, <-Z.div_div by lia. do 2 f_equal. apply (Z.div_unique _ _ _ w0); lia.
Qed.

Lemma SetBits_bound ws : Forall word_ok ws → SetBits ws < 2 ^ (64 * len ws).
Proof.
  induction 1 as [|w ws Hw Hws IH]; [done|]. unfold word_ok in Hw. cbn [SetBits]. replace (64 * len (w :: ws)) with (64 + 64 * len ws) by (unfold len; cbn; lia).
  rewrite Z.pow_add_r by (unfold len; lia). lia.
Qed.

Lemma bigEndianByteAt_ok x n : 0 ≤ n → bigEndianByteAt x n = Ret (Z.abs x / 256 ^ n mod 256).
Proof.
  intros Hn. destruct (Bits_ok x) as [Hv Hok]. unfold bigEndianByteAt. rewrite Z.quot_div_nonneg, Z.rem_mod_nonneg by lia.
  pose proof (Z.div_mod n 8 ltac:(lia)) as Hdm. pose proof (Z.mod_pos_bound n 8 ltac:(lia)). assert (0 ≤ n / 8) by (apply Z.div_pos; lia).
  assert (256 ^ n = 2 ^ (8 * n)) as -> by (change 256 with (2 ^ 8) at 1; by rewrite Z.pow_mul_r by lia).
  case_bool_decide as Hbig.
  - rewrite Z.div_small, Z.mod_0_l; [done|lia|]. split; [lia|]. rewrite <-Hv. eapply Z.lt_le_trans; [by apply SetBits_bound|].
    apply Z.pow_le_mono_r; unfold len in *; lia.
  - destruct (lookup_lt_is_Some_2 (Bits x) (Z.to_nat (n / 8))) as [w Hw]; [unfold len in Hbig; lia|].
    rewrite (index_Some _ _ _ ltac:(done) Hw). cbn [mbind outcome_bind]. f_equal.
    rewrite (SetBits_lookup _ _ _ Hok Hw), Hv. rewrite (Z.mod_small (8 * (n mod 8))) by lia. rewrite Z.shiftr_div_pow2 by lia.
    apply Z.bits_inj'. intros j Hj. change 256 with (2 ^ 8). rewrite !Z.testbit_mod_pow2 by lia. destruct (decide (j < 8)); [|by rewrite (proj2 (Z.ltb_ge j 8)) by lia].
    rewrite (proj2 (Z.ltb_lt j 8)) by lia. cbn [andb]. rewrite !Z.div_pow2_bits by lia. rewrite Z.mod_pow2_bits_low by lia.
    rewrite Z.div_pow2_bits by lia. f_equal. lia.
Qed.

Lemma Byte_ok x pad n : 0 ≤ n → Byte x pad n = Ret (if bool_decide (n < pad) then Z.abs x / 256 ^ (pad - 1 - n) mod 256 else 0).
Proof.
  intros Hn. unfold Byte. case_bool_decide; [by rewrite bool_decide_eq_false_2 by lia|]. rewrite bool_decide_eq_true_2 by lia.
  apply bigEndianByteAt_ok. lia.
Qed.

Lemma first_bit_ok f v i : 0 ≤ i ≤ BitLen v → (Z.to_nat (BitLen v - i) < f)%nat → (∀ j, 0 ≤ j < i → Z.testbit v j = false) →
  let r := first_bit f v i in
  0 ≤ r ≤ BitLen v ∧ (∀ j, 0 ≤ j < r → Z.testbit v j = false) ∧ (r < BitLen v → Z.testbit v r = true).
Proof.
  revert i. induction f as [|f IH]; intros i Hi Hf Hlow; [lia|]. cbn [first_bit]. case_bool_decide as Hlt.
  - destruct (Z.testbit v i) eqn:Hb; [done|]. apply IH; [lia|lia|]. intros j Hj. destruct (decide (j = i)) as [->|]; [done|]. apply Hlow. lia.
  - cbv zeta. split; [lia|]. split; [|lia]. intros j Hj. apply Hlow. lia.
Qed.

Lemma FirstBitSet_ok v : v ≠ 0 → 0 ≤ FirstBitSet v ∧ Z.testbit v (FirstBitSet v) = true ∧ ∀ j, 0 ≤ j < FirstBitSet v → Z.testbit v j = false.
Proof.
  intros Hv. destruct (BitLen_bound v) as (H0 & Hu & _).
  destruct (first_bit_ok (S (Z.to_nat (BitLen v))) v 0 ltac:(lia) ltac:(lia) ltac:(lia)) as (H1 & H2 & H3).
  change (first_bit _ v 0) with (FirstBitSet v) in *. split; [lia|]. split; [|done].
  destruct (decide (FirstBitSet v < BitLen v)) as [Hlt|Hge]; [by apply H3|]. exfalso.
  assert (v mod 2 ^ BitLen v = 0) as Hz.
  { apply Z.bits_inj'. intros j Hj. rewrite Z.bits_0, Z.testbit_mod_pow2 by lia. destruct (Z.ltb_spec j (BitLen v)); [|done]. cbn. apply H2. lia. }
  apply Z.mod_divide in Hz as [q Hq]; [|apply Z.pow_nonzero; lia].
  assert (0 < 2 ^ BitLen v) as Hp by (apply Z.pow_pos_nonneg; lia). set (P := 2 ^ BitLen v) in *. destruct (decide (q = 0)) as [->|Hq0]; [lia|]. assert (Z.abs v = Z.abs q * P) as Hav by (rewrite Hq at 1; rewrite Z.abs_mul, (Z.abs_eq P); lia). nia.
Qed.

(** ** Text *)
Lemma parse_digits_16 l acc ds : digits l = Some ds → parse_digits 16 l acc = Some (val16 acc ds).
Proof.
  revert acc ds. induction l as [|c l IH]; intros acc ds; [by intros [= <-]|]. cbn. destruct (char_digit 16 c) as [d|]; [|done]. cbn.
  destruct (digits l) as [ds'|]; [|done]. intros [= <-]. by rewrite (IH _ ds').
Qed.

Lemma SetString_hex n : 0 ≤ n → SetString (FormatUint n) 16 = Some n.
Proof.
  intros Hn. destruct (canon_exists n Hn) as (ds & Hc & <-). rewrite FormatUint_canon by done.
  assert (digits (map (digit_char false) ds) = Some ds) as Hds.
  { clear Hn. apply mapM_Some. destruct Hc as (_ & Hok & _). induction Hok as [|d ds Hd _ IH]; [constructor|]. constructor; [by apply char_digit_16|done]. }
  destruct Hc as (Hne & Hok & _). destruct ds as [|d ds]; [done|]. cbn [map] in *. unfold SetString.
  inversion Hok as [|?? Hd _]; subst. pose proof (char_digit_16 false d Hd) as Hd16.
  rewrite bool_decide_eq_false_2 by (intros Heq; by rewrite Heq in Hd16). rewrite bool_decide_eq_false_2 by (intros Heq; by rewrite Heq in Hd16).
  rewrite bool_decide_eq_false_2 by done. by apply parse_digits_16.
Qed.

Lemma HexOrDecimal256_ok n : 0 ≤ n < M256 → HexOrDecimal256_UnmarshalText (HexOrDecimal256_MarshalText (Some n)) = Ret n.
Proof.
  intros Hn. unfold HexOrDecimal256_UnmarshalText, HexOrDecimal256_MarshalText. rewrite (bool_decide_eq_false_2 (n < 0)) by lia.
  rewrite Z.abs_eq by lia. cbn [app]. unfold ParseBig256. rewrite bool_decide_eq_false_2 by done.
  rewrite (bool_decide_eq_true_2 (2 ≤ _)%nat) by (rewrite length_app; cbn; lia). cbn [andb]. rewrite bool_decide_eq_true_2 by (by left). cbn [drop prefix0x app].
  rewrite drop_0, SetString_hex by lia. rewrite bool_decide_eq_false_2; [done|]. destruct (BitLen_bound n) as (H0 & _ & Hl).
  intros Hbig. assert (n ≠ 0) as Hz by (intros ->; by vm_compute in Hbig). specialize (Hl Hz).
  assert (M256 ≤ 2 ^ (BitLen n - 1)) by (apply Z.pow_le_mono_r; lia). lia.
Qed.

(** C40: big integers.  [Exp] gives the power modulo 2^256, but leaves the base it was given
    squared 64 times for each word of the exponent, not as it was.  [PaddedBigBytes] writes the
    absolute value in the number of bytes asked for, or in those it needs, and [Byte] reads one of
    them; [U256] and [S256] are inverse on the numbers of 256 bits with a sign; [FirstBitSet] is
    the lowest bit of a number that is not zero; numbers below 2^256 survive their text form. *)
Theorem big_math_correct x y :
  (fst (Exp x y) = x ^ Z.abs y mod M256 ∧ snd (Exp x y) = (if bool_decide (y = 0) then x else x ^ (2 ^ (64 * len (Bits y))) mod M256)) ∧
  (∀ n, is_bytes (PaddedBigBytes x n) ∧ be_val (PaddedBigBytes x n) = Z.abs x ∧ len (PaddedBigBytes x n) = n `max` byte_len x) ∧
  (∀ pad n, 0 ≤ n → Byte x pad n = Ret (if bool_decide (n < pad) then Z.abs x / 256 ^ (pad - 1 - n) mod 256 else 0)) ∧
  (- 2 ^ 255 ≤ x < 2 ^ 255 → S256 (U256 x) = x) ∧
  (x ≠ 0 → 0 ≤ FirstBitSet x ∧ Z.testbit x (FirstBitSet x) = true ∧ ∀ j, 0 ≤ j < FirstBitSet x → Z.testbit x j = false) ∧
  (0 ≤ x < M256 → HexOrDecimal256_UnmarshalText (HexOrDecimal256_MarshalText (Some x)) = Ret x).
Proof.
  split; [|split; [apply PaddedBigBytes_ok|split; [apply Byte_ok|split; [apply U256_S256|split; [apply FirstBitSet_ok|apply HexOrDecimal256_ok]]]]].
  destruct (Bits_ok y) as [Hv Hok]. pose proof (exp_words_ok _ 1 x Hok) as Hexp. unfold Exp.
  destruct (exp_words (Bits y) 1 x) as [r b] eqn:Hr. destruct Hexp as (E1 & E2 & E3 & E4). rewrite Hv, Z.mul_1_l in E1. cbn [fst snd].
  split; [rewrite <-E1; symmetry; by apply Z.mod_small, E3|]. case_bool_decide as Hy.
  - subst y. by injection Hr as _ <-.
  - rewrite <-E2. symmetry. apply Z.mod_small, E4. left. by rewrite Bits_nil.
Qed.

Lemma big_math_correct_witness :
  fst (Exp 3 5) = 243 ∧ be_val (PaddedBigBytes 3 32) = 3 ∧ len (PaddedBigBytes 3 32) = 32 ∧ Byte 3 32 31 = Ret 3 ∧
  S256 (U256 3) = 3 ∧ Z.testbit 3 (FirstBitSet 3) = true ∧ HexOrDecimal256_UnmarshalText (HexOrDecimal256_MarshalText (Some 3)) = Ret 3.
Proof.
  destruct (big_math_correct 3 5) as ([H1 _] & H2 & H3 & H4 & H5 & H6). destruct (H2 32) as (_ & H2v & H2l).
  split; [exact H1|]. split; [exact H2v|]. split; [exact H2l|]. split; [apply (H3 32 31); lia|]. split; [apply H4; lia|].
  split; [apply H5; lia|]. apply H6. lia.
Defined.
