(* ===== verification/KeccakF.v ===== *)
(** [common/crypto/sha3/keccakf.go]: the permutation of Keccak, unrolled and in place, and its
    equivalence with the five steps of FIPS 202.  Lanes are 64-bit words. *)
From S2P Require Import Prelude.
Open Scope Z_scope.

Declare Scope lane_scope.
Delimit Scope lane_scope with lane.
Infix "⊕" := Z.lxor (at level 50, left associativity) : lane_scope.
Infix "∖∖" := Z.ldiff (at level 40, left associativity) : lane_scope.
Open Scope lane_scope.

(** ** The code *)
Definition rc : list Z :=
  [0x0000000000000001; 0x0000000000008082; 0x800000000000808A; 0x8000000080008000;
   0x000000000000808B; 0x0000000080000001; 0x8000000080008081; 0x8000000000008009;
   0x000000000000008A; 0x0000000000000088; 0x0000000080008009; 0x000000008000000A;
   0x000000008000808B; 0x800000000000008B; 0x8000000000008089; 0x8000000000008003;
   0x8000000000008002; 0x8000000000000080; 0x000000000000800A; 0x800000008000000A;
   0x8000000080008081; 0x8000000000008080; 0x0000000080000001; 0x8000000080008008].

(** [t<<k | t>>(64-k)] *)
Definition rotl (t k : Z) : Z := Z.lor (Z.shiftl t k mod 2 ^ 64) (Z.shiftr t (64 - k)).

Definition round1 (rci : Z) (a : list Z) : list Z :=
  match a with
  | [a0; a1; a2; a3; a4; a5; a6; a7; a8; a9; a10; a11; a12; a13; a14; a15; a16; a17; a18; a19; a20; a21; a22; a23; a24] =>
    let bc0 := a0 ⊕ a5 ⊕ a10 ⊕ a15 ⊕ a20 in
    let bc1 := a1 ⊕ a6 ⊕ a11 ⊕ a16 ⊕ a21 in
    let bc2 := a2 ⊕ a7 ⊕ a12 ⊕ a17 ⊕ a22 in
    let bc3 := a3 ⊕ a8 ⊕ a13 ⊕ a18 ⊕ a23 in
    let bc4 := a4 ⊕ a9 ⊕ a14 ⊕ a19 ⊕ a24 in
    let d0 := bc4 ⊕ (rotl bc1 1) in
    let d1 := bc0 ⊕ (rotl bc2 1) in
    let d2 := bc1 ⊕ (rotl bc3 1) in
    let d3 := bc2 ⊕ (rotl bc4 1) in
    let d4 := bc3 ⊕ (rotl bc0 1) in
    let bc0 := a0 ⊕ d0 in
    let t := a6 ⊕ d1 in
    let bc1 := rotl t 44 in
    let t := a12 ⊕ d2 in
    let bc2 := rotl t 43 in
    let t := a18 ⊕ d3 in
    let bc3 := rotl t 21 in
    let t := a24 ⊕ d4 in
    let bc4 := rotl t 14 in
    let a0 := bc0 ⊕ (bc2 ∖∖ bc1) ⊕ rci in
    let a6 := bc1 ⊕ (bc3 ∖∖ bc2) in
    let a12 := bc2 ⊕ (bc4 ∖∖ bc3) in
    let a18 := bc3 ⊕ (bc0 ∖∖ bc4) in
    let a24 := bc4 ⊕ (bc1 ∖∖ bc0) in
    let t := a10 ⊕ d0 in
    let bc2 := rotl t 3 in
    let t := a16 ⊕ d1 in
    let bc3 := rotl t 45 in
    let t := a22 ⊕ d2 in
    let bc4 := rotl t 61 in
    let t := a3 ⊕ d3 in
    let bc0 := rotl t 28 in
    let t := a9 ⊕ d4 in
    let bc1 := rotl t 20 in
    let a10 := bc0 ⊕ (bc2 ∖∖ bc1) in
    let a16 := bc1 ⊕ (bc3 ∖∖ bc2) in
    let a22 := bc2 ⊕ (bc4 ∖∖ bc3) in
    let a3 := bc3 ⊕ (bc0 ∖∖ bc4) in
    let a9 := bc4 ⊕ (bc1 ∖∖ bc0) in
    let t := a20 ⊕ d0 in
    let bc4 := rotl t 18 in
    let t := a1 ⊕ d1 in
    let bc0 := rotl t 1 in
    let t := a7 ⊕ d2 in
    let bc1 := rotl t 6 in
    let t := a13 ⊕ d3 in
    let bc2 := rotl t 25 in
    let t := a19 ⊕ d4 in
    let bc3 := rotl t 8 in
    let a20 := bc0 ⊕ (bc2 ∖∖ bc1) in
    let a1 := bc1 ⊕ (bc3 ∖∖ bc2) in
    let a7 := bc2 ⊕ (bc4 ∖∖ bc3) in
    let a13 := bc3 ⊕ (bc0 ∖∖ bc4) in
    let a19 := bc4 ⊕ (bc1 ∖∖ bc0) in
    let t := a5 ⊕ d0 in
    let bc1 := rotl t 36 in
    let t := a11 ⊕ d1 in
    let bc2 := rotl t 10 in
    let t := a17 ⊕ d2 in
    let bc3 := rotl t 15 in
    let t := a23 ⊕ d3 in
    let bc4 := rotl t 56 in
    let t := a4 ⊕ d4 in
    let bc0 := rotl t 27 in
    let a5 := bc0 ⊕ (bc2 ∖∖ bc1) in
    let a11 := bc1 ⊕ (bc3 ∖∖ bc2) in
    let a17 := bc2 ⊕ (bc4 ∖∖ bc3) in
    let a23 := bc3 ⊕ (bc0 ∖∖ bc4) in
    let a4 := bc4 ⊕ (bc1 ∖∖ bc0) in
    let t := a15 ⊕ d0 in
    let bc3 := rotl t 41 in
    let t := a21 ⊕ d1 in
    let bc4 := rotl t 2 in
    let t := a2 ⊕ d2 in
    let bc0 := rotl t 62 in
    let t := a8 ⊕ d3 in
    let bc1 := rotl t 55 in
    let t := a14 ⊕ d4 in
    let bc2 := rotl t 39 in
    let a15 := bc0 ⊕ (bc2 ∖∖ bc1) in
    let a21 := bc1 ⊕ (bc3 ∖∖ bc2) in
    let a2 := bc2 ⊕ (bc4 ∖∖ bc3) in
    let a8 := bc3 ⊕ (bc0 ∖∖ bc4) in
    let a14 := bc4 ⊕ (bc1 ∖∖ bc0) in
    [a0; a1; a2; a3; a4; a5; a6; a7; a8; a9; a10; a11; a12; a13; a14; a15; a16; a17; a18; a19; a20; a21; a22; a23; a24]
  | _ => a
  end.

Definition round2 (rci : Z) (a : list Z) : list Z :=
  match a with
  | [a0; a1; a2; a3; a4; a5; a6; a7; a8; a9; a10; a11; a12; a13; a14; a15; a16; a17; a18; a19; a20; a21; a22; a23; a24] =>
    let bc0 := a0 ⊕ a5 ⊕ a10 ⊕ a15 ⊕ a20 in
    let bc1 := a1 ⊕ a6 ⊕ a11 ⊕ a16 ⊕ a21 in
    let bc2 := a2 ⊕ a7 ⊕ a12 ⊕ a17 ⊕ a22 in
    let bc3 := a3 ⊕ a8 ⊕ a13 ⊕ a18 ⊕ a23 in
    let bc4 := a4 ⊕ a9 ⊕ a14 ⊕ a19 ⊕ a24 in
    let d0 := bc4 ⊕ (rotl bc1 1) in
    let d1 := bc0 ⊕ (rotl bc2 1) in
    let d2 := bc1 ⊕ (rotl bc3 1) in
    let d3 := bc2 ⊕ (rotl bc4 1) in
    let d4 := bc3 ⊕ (rotl bc0 1) in
    let bc0 := a0 ⊕ d0 in
    let t := a16 ⊕ d1 in
    let bc1 := rotl t 44 in
    let t := a7 ⊕ d2 in
    let bc2 := rotl t 43 in
    let t := a23 ⊕ d3 in
    let bc3 := rotl t 21 in
    let t := a14 ⊕ d4 in
    let bc4 := rotl t 14 in
    let a0 := bc0 ⊕ (bc2 ∖∖ bc1) ⊕ rci in
    let a16 := bc1 ⊕ (bc3 ∖∖ bc2) in
    let a7 := bc2 ⊕ (bc4 ∖∖ bc3) in
    let a23 := bc3 ⊕ (bc0 ∖∖ bc4) in
    let a14 := bc4 ⊕ (bc1 ∖∖ bc0) in
    let t := a20 ⊕ d0 in
    let bc2 := rotl t 3 in
    let t := a11 ⊕ d1 in
    let bc3 := rotl t 45 in
    let t := a2 ⊕ d2 in
    let bc4 := rotl t 61 in
    let t := a18 ⊕ d3 in
    let bc0 := rotl t 28 in
    let t := a9 ⊕ d4 in
    let bc1 := rotl t 20 in
    let a20 := bc0 ⊕ (bc2 ∖∖ bc1) in
    let a11 := bc1 ⊕ (bc3 ∖∖ bc2) in
    let a2 := bc2 ⊕ (bc4 ∖∖ bc3) in
    let a18 := bc3 ⊕ (bc0 ∖∖ bc4) in
    let a9 := bc4 ⊕ (bc1 ∖∖ bc0) in
    let t := a15 ⊕ d0 in
    let bc4 := rotl t 18 in
    let t := a6 ⊕ d1 in
    let bc0 := rotl t 1 in
    let t := a22 ⊕ d2 in
    let bc1 := rotl t 6 in
    let t := a13 ⊕ d3 in
    let bc2 := rotl t 25 in
    let t := a4 ⊕ d4 in
    let bc3 := rotl t 8 in
    let a15 := bc0 ⊕ (bc2 ∖∖ bc1) in
    let a6 := bc1 ⊕ (bc3 ∖∖ bc2) in
    let a22 := bc2 ⊕ (bc4 ∖∖ bc3) in
    let a13 := bc3 ⊕ (bc0 ∖∖ bc4) in
    let a4 := bc4 ⊕ (bc1 ∖∖ bc0) in
    let t := a10 ⊕ d0 in
    let bc1 := rotl t 36 in
    let t := a1 ⊕ d1 in
    let bc2 := rotl t 10 in
    let t := a17 ⊕ d2 in
    let bc3 := rotl t 15 in
    let t := a8 ⊕ d3 in
    let bc4 := rotl t 56 in
    let t := a24 ⊕ d4 in
    let bc0 := rotl t 27 in
    let a10 := bc0 ⊕ (bc2 ∖∖ bc1) in
    let a1 := bc1 ⊕ (bc3 ∖∖ bc2) in
    let a17 := bc2 ⊕ (bc4 ∖∖ bc3) in
    let a8 := bc3 ⊕ (bc0 ∖∖ bc4) in
    let a24 := bc4 ⊕ (bc1 ∖∖ bc0) in
    let t := a5 ⊕ d0 in
    let bc3 := rotl t 41 in
    let t := a21 ⊕ d1 in
    let bc4 := rotl t 2 in
    let t := a12 ⊕ d2 in
    let bc0 := rotl t 62 in
    let t := a3 ⊕ d3 in
    let bc1 := rotl t 55 in
    let t := a19 ⊕ d4 in
    let bc2 := rotl t 39 in
    let a5 := bc0 ⊕ (bc2 ∖∖ bc1) in
    let a21 := bc1 ⊕ (bc3 ∖∖ bc2) in
    let a12 := bc2 ⊕ (bc4 ∖∖ bc3) in
    let a3 := bc3 ⊕ (bc0 ∖∖ bc4) in
    let a19 := bc4 ⊕ (bc1 ∖∖ bc0) in
    [a0; a1; a2; a3; a4; a5; a6; a7; a8; a9; a10; a11; a12; a13; a14; a15; a16; a17; a18; a19; a20; a21; a22; a23; a24]
  | _ => a
  end.

Definition round3 (rci : Z) (a : list Z) : list Z :=
  match a with
  | [a0; a1; a2; a3; a4; a5; a6; a7; a8; a9; a10; a11; a12; a13; a14; a15; a16; a17; a18; a19; a20; a21; a22; a23; a24] =>
    let bc0 := a0 ⊕ a5 ⊕ a10 ⊕ a15 ⊕ a20 in
    let bc1 := a1 ⊕ a6 ⊕ a11 ⊕ a16 ⊕ a21 in
    let bc2 := a2 ⊕ a7 ⊕ a12 ⊕ a17 ⊕ a22 in
    let bc3 := a3 ⊕ a8 ⊕ a13 ⊕ a18 ⊕ a23 in
    let bc4 := a4 ⊕ a9 ⊕ a14 ⊕ a19 ⊕ a24 in
    let d0 := bc4 ⊕ (rotl bc1 1) in
    let d1 := bc0 ⊕ (rotl bc2 1) in
    let d2 := bc1 ⊕ (rotl bc3 1) in
    let d3 := bc2 ⊕ (rotl bc4 1) in
    let d4 := bc3 ⊕ (rotl bc0 1) in
    let bc0 := a0 ⊕ d0 in
    let t := a11 ⊕ d1 in
    let bc1 := rotl t 44 in
    let t := a22 ⊕ d2 in
    let bc2 := rotl t 43 in
    let t := a8 ⊕ d3 in
    let bc3 := rotl t 21 in
    let t := a19 ⊕ d4 in
    let bc4 := rotl t 14 in
    let a0 := bc0 ⊕ (bc2 ∖∖ bc1) ⊕ rci in
    let a11 := bc1 ⊕ (bc3 ∖∖ bc2) in
    let a22 := bc2 ⊕ (bc4 ∖∖ bc3) in
    let a8 := bc3 ⊕ (bc0 ∖∖ bc4) in
    let a19 := bc4 ⊕ (bc1 ∖∖ bc0) in
    let t := a15 ⊕ d0 in
    let bc2 := rotl t 3 in
    let t := a1 ⊕ d1 in
    let bc3 := rotl t 45 in
    let t := a12 ⊕ d2 in
    let bc4 := rotl t 61 in
    let t := a23 ⊕ d3 in
    let bc0 := rotl t 28 in
    let t := a9 ⊕ d4 in
    let bc1 := rotl t 20 in
    let a15 := bc0 ⊕ (bc2 ∖∖ bc1) in
    let a1 := bc1 ⊕ (bc3 ∖∖ bc2) in
    let a12 := bc2 ⊕ (bc4 ∖∖ bc3) in
    let a23 := bc3 ⊕ (bc0 ∖∖ bc4) in
    let a9 := bc4 ⊕ (bc1 ∖∖ bc0) in
    let t := a5 ⊕ d0 in
    let bc4 := rotl t 18 in
    let t := a16 ⊕ d1 in
    let bc0 := rotl t 1 in
    let t := a2 ⊕ d2 in
    let bc1 := rotl t 6 in
    let t := a13 ⊕ d3 in
    let bc2 := rotl t 25 in
    let t := a24 ⊕ d4 in
    let bc3 := rotl t 8 in
    let a5 := bc0 ⊕ (bc2 ∖∖ bc1) in
    let a16 := bc1 ⊕ (bc3 ∖∖ bc2) in
    let a2 := bc2 ⊕ (bc4 ∖∖ bc3) in
    let a13 := bc3 ⊕ (bc0 ∖∖ bc4) in
    let a24 := bc4 ⊕ (bc1 ∖∖ bc0) in
    let t := a20 ⊕ d0 in
    let bc1 := rotl t 36 in
    let t := a6 ⊕ d1 in
    let bc2 := rotl t 10 in
    let t := a17 ⊕ d2 in
    let bc3 := rotl t 15 in
    let t := a3 ⊕ d3 in
    let bc4 := rotl t 56 in
    let t := a14 ⊕ d4 in
    let bc0 := rotl t 27 in
    let a20 := bc0 ⊕ (bc2 ∖∖ bc1) in
    let a6 := bc1 ⊕ (bc3 ∖∖ bc2) in
    let a17 := bc2 ⊕ (bc4 ∖∖ bc3) in
    let a3 := bc3 ⊕ (bc0 ∖∖ bc4) in
    let a14 := bc4 ⊕ (bc1 ∖∖ bc0) in
    let t := a10 ⊕ d0 in
    let bc3 := rotl t 41 in
    let t := a21 ⊕ d1 in
    let bc4 := rotl t 2 in
    let t := a7 ⊕ d2 in
    let bc0 := rotl t 62 in
    let t := a18 ⊕ d3 in
    let bc1 := rotl t 55 in
    let t := a4 ⊕ d4 in
    let bc2 := rotl t 39 in
    let a10 := bc0 ⊕ (bc2 ∖∖ bc1) in
    let a21 := bc1 ⊕ (bc3 ∖∖ bc2) in
    let a7 := bc2 ⊕ (bc4 ∖∖ bc3) in
    let a18 := bc3 ⊕ (bc0 ∖∖ bc4) in
    let a4 := bc4 ⊕ (bc1 ∖∖ bc0) in
    [a0; a1; a2; a3; a4; a5; a6; a7; a8; a9; a10; a11; a12; a13; a14; a15; a16; a17; a18; a19; a20; a21; a22; a23; a24]
  | _ => a
  end.

Definition round4 (rci : Z) (a : list Z) : list Z :=
  match a with
  | [a0; a1; a2; a3; a4; a5; a6; a7; a8; a9; a10; a11; a12; a13; a14; a15; a16; a17; a18; a19; a20; a21; a22; a23; a24] =>
    let bc0 := a0 ⊕ a5 ⊕ a10 ⊕ a15 ⊕ a20 in
    let bc1 := a1 ⊕ a6 ⊕ a11 ⊕ a16 ⊕ a21 in
    let bc2 := a2 ⊕ a7 ⊕ a12 ⊕ a17 ⊕ a22 in
    let bc3 := a3 ⊕ a8 ⊕ a13 ⊕ a18 ⊕ a23 in
    let bc4 := a4 ⊕ a9 ⊕ a14 ⊕ a19 ⊕ a24 in
    let d0 := bc4 ⊕ (rotl bc1 1) in
    let d1 := bc0 ⊕ (rotl bc2 1) in
    let d2 := bc1 ⊕ (rotl bc3 1) in
    let d3 := bc2 ⊕ (rotl bc4 1) in
    let d4 := bc3 ⊕ (rotl bc0 1) in
    let bc0 := a0 ⊕ d0 in
    let t := a1 ⊕ d1 in
    let bc1 := rotl t 44 in
    let t := a2 ⊕ d2 in
    let bc2 := rotl t 43 in
    let t := a3 ⊕ d3 in
    let bc3 := rotl t 21 in
    let t := a4 ⊕ d4 in
    let bc4 := rotl t 14 in
    let a0 := bc0 ⊕ (bc2 ∖∖ bc1) ⊕ rci in
    let a1 := bc1 ⊕ (bc3 ∖∖ bc2) in
    let a2 := bc2 ⊕ (bc4 ∖∖ bc3) in
    let a3 := bc3 ⊕ (bc0 ∖∖ bc4) in
    let a4 := bc4 ⊕ (bc1 ∖∖ bc0) in
    let t := a5 ⊕ d0 in
    let bc2 := rotl t 3 in
    let t := a6 ⊕ d1 in
    let bc3 := rotl t 45 in
    let t := a7 ⊕ d2 in
    let bc4 := rotl t 61 in
    let t := a8 ⊕ d3 in
    let bc0 := rotl t 28 in
    let t := a9 ⊕ d4 in
    let bc1 := rotl t 20 in
    let a5 := bc0 ⊕ (bc2 ∖∖ bc1) in
    let a6 := bc1 ⊕ (bc3 ∖∖ bc2) in
    let a7 := bc2 ⊕ (bc4 ∖∖ bc3) in
    let a8 := bc3 ⊕ (bc0 ∖∖ bc4) in
    let a9 := bc4 ⊕ (bc1 ∖∖ bc0) in
    let t := a10 ⊕ d0 in
    let bc4 := rotl t 18 in
    let t := a11 ⊕ d1 in
    let bc0 := rotl t 1 in
    let t := a12 ⊕ d2 in
    let bc1 := rotl t 6 in
    let t := a13 ⊕ d3 in
    let bc2 := rotl t 25 in
    let t := a14 ⊕ d4 in
    let bc3 := rotl t 8 in
    let a10 := bc0 ⊕ (bc2 ∖∖ bc1) in
    let a11 := bc1 ⊕ (bc3 ∖∖ bc2) in
    let a12 := bc2 ⊕ (bc4 ∖∖ bc3) in
    let a13 := bc3 ⊕ (bc0 ∖∖ bc4) in
    let a14 := bc4 ⊕ (bc1 ∖∖ bc0) in
    let t := a15 ⊕ d0 in
    let bc1 := rotl t 36 in
    let t := a16 ⊕ d1 in
    let bc2 := rotl t 10 in
    let t := a17 ⊕ d2 in
    let bc3 := rotl t 15 in
    let t := a18 ⊕ d3 in
    let bc4 := rotl t 56 in
    let t := a19 ⊕ d4 in
    let bc0 := rotl t 27 in
    let a15 := bc0 ⊕ (bc2 ∖∖ bc1) in
    let a16 := bc1 ⊕ (bc3 ∖∖ bc2) in
    let a17 := bc2 ⊕ (bc4 ∖∖ bc3) in
    let a18 := bc3 ⊕ (bc0 ∖∖ bc4) in
    let a19 := bc4 ⊕ (bc1 ∖∖ bc0) in
    let t := a20 ⊕ d0 in
    let bc3 := rotl t 41 in
    let t := a21 ⊕ d1 in
    let bc4 := rotl t 2 in
    let t := a22 ⊕ d2 in
    let bc0 := rotl t 62 in
    let t := a23 ⊕ d3 in
    let bc1 := rotl t 55 in
    let t := a24 ⊕ d4 in
    let bc2 := rotl t 39 in
    let a20 := bc0 ⊕ (bc2 ∖∖ bc1) in
    let a21 := bc1 ⊕ (bc3 ∖∖ bc2) in
    let a22 := bc2 ⊕ (bc4 ∖∖ bc3) in
    let a23 := bc3 ⊕ (bc0 ∖∖ bc4) in
    let a24 := bc4 ⊕ (bc1 ∖∖ bc0) in
    [a0; a1; a2; a3; a4; a5; a6; a7; a8; a9; a10; a11; a12; a13; a14; a15; a16; a17; a18; a19; a20; a21; a22; a23; a24]
  | _ => a
  end.

(** One pass of the loop: four rounds. *)
Definition four_rounds (a : list Z) (i : nat) : list Z :=
  let c j := nth (i + j) rc 0 in
  round4 (c 3%nat) (round3 (c 2%nat) (round2 (c 1%nat) (round1 (c 0%nat) a))).

Definition keccakF1600 (a : list Z) : list Z := fold_left four_rounds [0; 4; 8; 12; 16; 20]%nat a.
#[global] Arguments keccakF1600 : simpl never.

(** ** The standard (FIPS 202, section 3) *)
Module Standard.
Definition lane (s : list Z) (x y : nat) : Z := nth (x mod 5 + 5 * (y mod 5)) s 0.
Definition build (f : nat → nat → Z) : list Z := map (λ i, f (i mod 5) (i / 5))%nat (seq 0 25).

Definition columns (s : list Z) : list Z :=
  map (λ x, lane s x 0 ⊕ lane s x 1 ⊕ lane s x 2 ⊕ lane s x 3 ⊕ lane s x 4) (seq 0 5).

(** The offsets of ρ: from (1, 0) on, the next place of (x, y) is (y, 2x + 3y), and the [t]-th
    place is turned by (t+1)(t+2)/2. *)
Fixpoint walk (n t x y : nat) : list (nat * nat * nat) :=
  match n with
  | O => []
  | S n' => (x, y, (t + 1) * (t + 2) / 2 mod 64)%nat :: walk n' (S t) y ((2 * x + 3 * y) mod 5)
  end.
Definition offset (x y : nat) : Z :=
  match find (λ '(x', y', _), Nat.eqb x x' && Nat.eqb y y') (walk 24 0 1 0) with Some (_, _, k) => Z.of_nat k | None => 0 end.

(** The shift register of ι. *)
Definition lfsr_step (R : list bool) : list bool :=
  match R with
  | [r0; r1; r2; r3; r4; r5; r6; r7] => [r7; r0; r1; r2; xorb r3 r7; xorb r4 r7; xorb r5 r7; r6]
  | _ => R
  end.
Definition rc_bit (t : nat) : bool :=
  nth 0 (Nat.iter (t mod 255) lfsr_step [true; false; false; false; false; false; false; false]) false.
Definition RC (ir : nat) : Z :=
  fold_left (λ c j, if rc_bit (j + 7 * ir) then Z.lor c (2 ^ (2 ^ Z.of_nat j - 1)) else c) (seq 0 7) 0.

Section Rot.
Context (rot : Z → Z → Z).

Definition theta (C s : list Z) : list Z :=
  build (λ x y, lane s x y ⊕ (nth ((x + 4) mod 5) C 0 ⊕ rot (nth ((x + 1) mod 5) C 0) 1)).
Definition rho (s : list Z) : list Z :=
  build (λ x y, if Nat.eqb x 0 && Nat.eqb y 0 then lane s x y else rot (lane s x y) (offset x y)).
Definition pi (s : list Z) : list Z := build (λ x y, lane s (x + 3 * y) x).
Definition chi (s : list Z) : list Z := build (λ x y, lane s x y ⊕ Z.land (Z.lnot (lane s (x + 1) y)) (lane s (x + 2) y)).
Definition iota (c : Z) (s : list Z) : list Z := build (λ x y, if Nat.eqb x 0 && Nat.eqb y 0 then lane s x y ⊕ c else lane s x y).

(** The round, given the parities of the columns. *)
Definition round_of (c : Z) (C s : list Z) : list Z := iota c (chi (pi (rho (theta C s)))).
Definition round (c : Z) (s : list Z) : list Z := round_of c (columns s) s.
End Rot.

(** Turning a word of 64 bits. *)
Definition ROT (x k : Z) : Z := (x * 2 ^ k) mod 2 ^ 64 + x / 2 ^ (64 - k).

Definition keccak_f (s : list Z) : list Z := fold_left (λ s ir, round ROT (RC ir) s) (seq 0 24) s.
End Standard.
Import Standard.

(** ** The rounds of the code are those of the standard, with the lanes in other places *)

(** Where a round leaves the lane (x, y): at a place of the same column. *)
Definition place (s : list Z) : list Z := build (λ x y, lane s x (2 * x + 3 * y)).

Lemma build_ext f g : (∀ x y, f x y = g x y) → build f = build g.
Proof. intros Hfg. apply map_ext. intros i. apply Hfg. Qed.

(** χ as the code writes it. *)
Definition chi_code (s : list Z) : list Z := build (λ x y, lane s x y ⊕ (lane s (x + 2) y ∖∖ lane s (x + 1) y)).

Lemma chi_chi_code s : chi s = chi_code s.
Proof. apply build_ext. intros x y. by rewrite Z.ldiff_land, Z.land_comm. Qed.

Ltac lanes s := do 25 (destruct s as [|? s]; [done|]); destruct s; [|done].

(** One round, with the columns added up in the order in which the lanes lie. *)
Ltac same_round s Hs := lanes s; clear Hs; unfold round_of; rewrite chi_chi_code; cbv -[rotl Z.lxor Z.ldiff]; reflexivity.

Lemma round1_of c s : length s = 25%nat → round1 c s = place (round_of rotl c (columns s) s).
Proof. intros Hs. same_round s Hs. Qed.

Lemma round2_of c s : length s = 25%nat → round2 c (place s) = place (place (round_of rotl c (columns (place s)) s)).
Proof. intros Hs. same_round s Hs. Qed.

Lemma round3_of c s : length s = 25%nat → round3 c (place (place s)) = place (place (place (round_of rotl c (columns (place (place s))) s))).
Proof. intros Hs. same_round s Hs. Qed.

Lemma round4_of c s : length s = 25%nat → round4 c (place (place (place s))) = round_of rotl c (columns (place (place (place s)))) s.
Proof. intros Hs. same_round s Hs. Qed.

(** The places of a round are in the same column. *)
Lemma columns_place s : length s = 25%nat → columns (place s) = columns s.
Proof.
  intros Hs. lanes s. clear Hs. cbv -[Z.lxor]. repeat apply (f_equal2 (@cons Z)); [..|reflexivity].
  all: apply Z.bits_inj; intros i; rewrite !Z.lxor_spec.
  all: repeat match goal with |- context [Z.testbit ?x ?i] => destruct (Z.testbit x i) end; reflexivity.
Qed.

Lemma length_build f : length (build f) = 25%nat.
Proof. by unfold build; rewrite length_map, length_seq. Qed.

Lemma four_rounds_standard s i :
  length s = 25%nat →
  four_rounds s i = fold_left (λ s c, round rotl c s) (map (λ j, nth (i + j) rc 0) (seq 0 4)) s.
Proof.
  intros Hs. unfold four_rounds. cbn [map seq fold_left]. rewrite round1_of by done. fold (round rotl (nth (i + 0) rc 0) s).
  set (s1 := round rotl _ s). assert (length s1 = 25%nat) as Hs1 by apply length_build.
  rewrite round2_of by done. rewrite columns_place by done. fold (round rotl (nth (i + 1) rc 0) s1).
  set (s2 := round rotl _ s1). assert (length s2 = 25%nat) as Hs2 by apply length_build.
  rewrite round3_of by done. rewrite !columns_place by (done || apply length_build). fold (round rotl (nth (i + 2) rc 0) s2).
  set (s3 := round rotl _ s2). assert (length s3 = 25%nat) as Hs3 by apply length_build.
  rewrite round4_of by done. by rewrite !columns_place by (done || apply length_build).
Qed.

(** The constants are those of the shift register. *)
Lemma rc_standard : rc = map RC (seq 0 24).
Proof. vm_compute. reflexivity. Qed.

(** ** Words *)
Definition word (x : Z) : Prop := 0 ≤ x < 2 ^ 64.

Lemma word_bits x : word x ↔ 0 ≤ x ∧ ∀ i, 64 ≤ i → Z.testbit x i = false.
Proof.
  unfold word. split.
  - intros [H0 H1]. split; [done|]. intros i Hi. destruct (decide (x = 0)) as [->|]; [apply Z.bits_0|].
    apply Z.bits_above_log2; [done|]. assert (Z.log2 x < 64) by (apply Z.log2_lt_pow2; lia). lia.
  - intros [H0 H1]. split; [done|]. destruct (decide (x < 2 ^ 64)) as [|Hge]; [done|exfalso].
    assert (64 ≤ Z.log2 x) as Hl by (apply Z.log2_le_pow2; lia).
    specialize (H1 (Z.log2 x) Hl). rewrite Z.bit_log2 in H1; [done|lia].
Qed.

Lemma word_lxor x y : word x → word y → word (x ⊕ y).
Proof.
  rewrite !word_bits. intros [Hx Hx'] [Hy Hy']. split; [by apply Z.lxor_nonneg|]. intros i Hi. by rewrite Z.lxor_spec, Hx', Hy'.
Qed.

Lemma word_chi x y : word y → word (Z.land (Z.lnot x) y).
Proof.
  rewrite !word_bits. intros [Hy Hy']. split; [apply Z.land_nonneg; by right|]. intros i Hi. rewrite Z.land_spec, Hy' by done. apply andb_false_r.
Qed.

Lemma rotl_ROT x k : word x → 0 ≤ k ≤ 64 → rotl x k = ROT x k.
Proof.
  intros Hx Hk. apply word_bits in Hx as [Hx Hbits]. unfold rotl, ROT. rewrite <-Z.shiftr_div_pow2, Z.shiftl_mul_pow2 by lia.
  assert (Z.land ((x * 2 ^ k) mod 2 ^ 64) (Z.shiftr x (64 - k)) = 0) as Hd.
  { apply Z.bits_inj'. intros i Hi. rewrite Z.land_spec, Z.bits_0. destruct (decide (i < k)).
    - destruct (decide (i < 64)); [rewrite Z.mod_pow2_bits_low, Z.mul_pow2_bits_low by lia; done|rewrite Z.mod_pow2_bits_high by lia; done].
    - rewrite Z.shiftr_spec, Hbits by lia. apply andb_false_r. }
  by rewrite Z.add_nocarry_lxor, Z.lxor_lor.
Qed.

Lemma word_ROT x k : word x → 0 ≤ k ≤ 64 → word (ROT x k).
Proof.
  intros Hx Hk. rewrite <-rotl_ROT by done. unfold rotl. apply word_bits in Hx as [Hx Hbits]. apply word_bits. split.
  - apply Z.lor_nonneg. split; [apply Z.mod_pos_bound; lia|by apply Z.shiftr_nonneg].
  - intros i Hi. rewrite Z.lor_spec, Z.mod_pow2_bits_high, Z.shiftr_spec, Hbits by lia. done.
Qed.

Definition words (s : list Z) : Prop := length s = 25%nat ∧ Forall word s.

Lemma lane_word s x y : words s → word (lane s x y).
Proof.
  intros [Hlen Hs]. unfold lane. rewrite nth_lookup. destruct (s !! _) as [v|] eqn:Hv; [by eapply Forall_lookup_1|].
  split; [done|]. cbn. lia.
Qed.

Lemma build_words f : (∀ x y, (x < 5)%nat → (y < 5)%nat → word (f x y)) → words (build f).
Proof.
  intros Hf. split; [apply length_build|]. unfold build. apply Forall_map, Forall_seq. intros i Hi. apply Hf.
  - by apply Nat.mod_upper_bound.
  - apply Nat.Div0.div_lt_upper_bound. lia.
Qed.

Lemma build_ext_in f g : (∀ x y, (x < 5)%nat → (y < 5)%nat → f x y = g x y) → build f = build g.
Proof.
  intros Hfg. apply map_ext_in. intros i Hi%in_seq. apply Hfg; [by apply Nat.mod_upper_bound|apply Nat.Div0.div_lt_upper_bound; lia].
Qed.

Lemma columns_words s x : words s → word (nth x (columns s) 0).
Proof.
  intros Hs. destruct (decide (x < 5)%nat) as [Hx|Hx].
  - unfold columns. rewrite (nth_indep _ 0 (lane s 0 0 ⊕ lane s 0 1 ⊕ lane s 0 2 ⊕ lane s 0 3 ⊕ lane s 0 4)) by (by rewrite length_map, length_seq).
    change (lane s 0 0 ⊕ lane s 0 1 ⊕ lane s 0 2 ⊕ lane s 0 3 ⊕ lane s 0 4) with ((λ x, lane s x 0 ⊕ lane s x 1 ⊕ lane s x 2 ⊕ lane s x 3 ⊕ lane s x 4) 0%nat).
    rewrite map_nth. repeat apply word_lxor; by apply lane_word.
  - rewrite nth_overflow; [split; [done|cbn; lia]|]. unfold columns. rewrite length_map, length_seq. lia.
Qed.

Lemma offset_range x y : 0 ≤ offset x y ≤ 64.
Proof.
  unfold offset. destruct (find _ _) as [[[x' y'] k]|] eqn:Hf; [|lia]. apply find_some in Hf as [Hin _].
  assert (Forall (λ p, (p.2 < 64)%nat) (walk 24 0 1 0)) as Hall by (vm_compute; repeat constructor; lia).
  rewrite List.Forall_forall in Hall. specialize (Hall _ Hin). cbn in Hall. lia.
Qed.

(** On words the two rotations are the same, so the two rounds are. *)
Lemma theta_words s : words s → theta rotl (columns s) s = theta ROT (columns s) s ∧ words (theta ROT (columns s) s).
Proof.
  intros Hs. split.
  - apply build_ext_in. intros x y _ _. by rewrite rotl_ROT; [|by apply columns_words|lia].
  - apply build_words. intros x y _ _. repeat apply word_lxor; [by apply lane_word|by apply columns_words|].
    apply word_ROT; [by apply columns_words|lia].
Qed.

Lemma rho_words s : words s → rho rotl s = rho ROT s ∧ words (rho ROT s).
Proof.
  intros Hs. split.
  - apply build_ext_in. intros x y _ _. destruct (_ && _); [done|]. apply rotl_ROT; [by apply lane_word|apply offset_range].
  - apply build_words. intros x y _ _. destruct (_ && _); [by apply lane_word|]. apply word_ROT; [by apply lane_word|apply offset_range].
Qed.

Lemma pi_words s : words s → words (pi s).
Proof. intros Hs. apply build_words. intros x y _ _. by apply lane_word. Qed.

Lemma chi_words s : words s → words (chi s).
Proof. intros Hs. apply build_words. intros x y _ _. apply word_lxor; [by apply lane_word|]. by apply word_chi, lane_word. Qed.

Lemma iota_words c s : word c → words s → words (iota c s).
Proof. intros Hc Hs. apply build_words. intros x y _ _. destruct (_ && _); [apply word_lxor; [|done]|]; by apply lane_word. Qed.

Lemma round_words c s : word c → words s → round rotl c s = round ROT c s ∧ words (round ROT c s).
Proof.
  intros Hc Hs. unfold round, round_of. destruct (theta_words s Hs) as [-> Ht]. destruct (rho_words _ Ht) as [-> Hr].
  split; [done|]. by apply iota_words, chi_words, pi_words.
Qed.

Lemma rounds_words cs s :
  Forall word cs → words s →
  fold_left (λ s c, round rotl c s) cs s = fold_left (λ s c, round ROT c s) cs s ∧ words (fold_left (λ s c, round ROT c s) cs s).
Proof.
  intros Hcs. revert s. induction Hcs as [|c cs Hc _ IH]; intros s Hs; [done|]. cbn [fold_left].
  destruct (round_words c s Hc Hs) as [-> Hs1]. by apply IH.
Qed.

Lemma rc_words : Forall word rc.
Proof. unfold word. decided. Qed.

Lemma keccakF1600_rounds s : length s = 25%nat → keccakF1600 s = fold_left (λ s c, round rotl c s) rc s.
Proof.
  intros Hs. unfold keccakF1600.
  change rc with (concat (map (λ i, map (λ j, nth (i + j) rc 0) (seq 0 4)) [0; 4; 8; 12; 16; 20]%nat)).
  generalize [0; 4; 8; 12; 16; 20]%nat. intros l. revert s Hs. induction l as [|i l IH]; intros s Hs; [done|].
  cbn [map concat fold_left]. rewrite fold_left_app, four_rounds_standard by done. apply IH. apply length_build.
Qed.

Lemma fold_left_map {A B C} (f : A → C → A) (g : B → C) l a : fold_left f (map g l) a = fold_left (λ a b, f a (g b)) l a.
Proof. revert a. induction l as [|b l IH]; intros a; [done|]. apply IH. Qed.

(** The permutation.  [keccakF1600], which combines the five steps of a round, unrolls four
    rounds and leaves the lanes in permuted places in between, computes Keccak-f[1600] of
    FIPS 202 on every state of 25 words: 24 rounds of θ, ρ, π, χ and ι with the offsets and the
    constants generated as the standard says.  The result is again 25 words. *)
Lemma keccakF1600_standard s : words s → keccakF1600 s = keccak_f s ∧ words (keccakF1600 s).
Proof.
  intros Hs. rewrite keccakF1600_rounds by apply Hs. destruct (rounds_words rc s rc_words Hs) as [-> Hw]. split; [|done].
  rewrite rc_standard. apply fold_left_map.
Qed.

Lemma length_keccak_f s : length (keccak_f s) = 25%nat.
Proof. unfold keccak_f. change (seq 0 24) with (seq 0 23 ++ [23%nat]). rewrite fold_left_app. apply length_build. Qed.
