(* ===== verification/Sha3.v ===== *)
(** [common/crypto/sha3/sha3.go], [hashes.go], [xor_unaligned.go] and the hash functions of
    [common/crypto/crypto.go]: the sponge around the permutation.

    The buffer of a sponge is a slice of its own storage, so it is a range of positions in it;
    [None] is nil. *)
From S2P Require Import Prelude Bytes HexKeys KeccakF.
Open Scope Z_scope.
Open Scope lane_scope.

Definition maxRate : nat := 168.

Record state := mkSponge {
  a : list Z; buf : option (nat * nat); rate : nat; dsbyte : Z; storage : list Z; outputLen : nat; squeezing : bool }.

Definition set_a (l : list Z) (d : state) : state := mkSponge l (buf d) (rate d) (dsbyte d) (storage d) (outputLen d) (squeezing d).
Definition set_buf (lo hi : nat) (d : state) : state := mkSponge (a d) (Some (lo, hi)) (rate d) (dsbyte d) (storage d) (outputLen d) (squeezing d).
Definition set_storage (l : list Z) (d : state) : state := mkSponge (a d) (buf d) (rate d) (dsbyte d) l (outputLen d) (squeezing d).
Definition set_squeezing (b : bool) (d : state) : state := mkSponge (a d) (buf d) (rate d) (dsbyte d) (storage d) (outputLen d) b.

Definition slice (lo hi : nat) (l : list Z) : list Z := take (hi - lo) (drop lo l).
Definition bounds (d : state) : nat * nat := default (0, 0)%nat (buf d).
Definition buf_bytes (d : state) : list Z := slice (fst (bounds d)) (snd (bounds d)) (storage d).
Definition buf_len (d : state) : nat := snd (bounds d) - fst (bounds d).

(** [copy(l[i:], p)], in range *)
Definition write_at (i : nat) (p l : list Z) : list Z := take i l ++ p ++ drop (i + length p) l.

(** [append(d.buf, p...)]: in place, as long as the storage has room. *)
Definition append_buf (p : list Z) (d : state) : outcome state :=
  let '(lo, hi) := bounds d in
  if Nat.leb (hi + length p) maxRate then Ret (set_buf lo (hi + length p) (set_storage (write_at hi p (storage d)) d))
  else Panic "buffer outgrows its storage".

(** ** Words and bytes (a little-endian machine) *)
Fixpoint le_word (l : list Z) : Z := match l with [] => 0 | b :: l' => b + 256 * le_word l' end.
Fixpoint le_bytes (n : nat) (x : Z) : list Z := match n with O => [] | S n' => x mod 256 :: le_bytes n' (x / 256) end.
Definition word_at (l : list Z) (i : nat) : Z := le_word (slice (8 * i) (8 * i + 8) l).

(** [a[i] ^= bw[i]] for [lo ≤ i < hi] *)
Definition xor_words (lo hi : nat) (b l : list Z) : list Z :=
  imap (λ i x, if Nat.leb lo i && Nat.ltb i hi then x ⊕ word_at b i else x) l.

Definition xorIn (b : list Z) (d : state) : outcome state :=
  if bool_decide (b = []) then Panic "index out of range"
  else
    let n := length b in
    let l := a d in
    let l := if Nat.leb 72 n then xor_words 0 9 b l else l in
    let l := if Nat.leb 104 n then xor_words 9 13 b l else l in
    let l := if Nat.leb 136 n then xor_words 13 17 b l else l in
    let l := if Nat.leb 144 n then xor_words 17 18 b l else l in
    let l := if Nat.leb 168 n then xor_words 18 21 b l else l in
    Ret (set_a l d).

Definition lane_bytes (l : list Z) : list Z := concat (map (le_bytes 8) l).

(** [copyOut(d, d.buf)] *)
Definition copyOut (d : state) : state :=
  let '(lo, hi) := bounds d in
  set_storage (write_at lo (take (hi - lo) (take maxRate (lane_bytes (a d)))) (storage d)) d.

(** ** The sponge *)
Definition permute (d : state) : outcome state :=
  if squeezing d then
    let d := set_a (keccakF1600 (a d)) d in
    Ret (copyOut (set_buf 0 (rate d) d))
  else
    d ← xorIn (buf_bytes d) d;
    let d := set_buf 0 0 d in
    Ret (set_a (keccakF1600 (a d)) d).

Definition Reset (d : state) : state :=
  set_buf 0 0 (set_squeezing false (set_a (replicate (length (a d)) 0) d)).

(** A nil buffer becomes an empty one. *)
Definition with_buf (d : state) : state := match buf d with None => set_buf 0 0 d | Some _ => d end.

Fixpoint write_loop (fuel : nat) (p : list Z) (d : state) : outcome state :=
  match p with
  | [] => Ret d
  | _ =>
    match fuel with
    | O => OutOfFuel
    | S fuel' =>
      if Nat.eqb (buf_len d) 0 && Nat.leb (rate d) (length p) then
        d ← xorIn (take (rate d) p) d;
        write_loop fuel' (drop (rate d) p) (set_a (keccakF1600 (a d)) d)
      else
        let todo := Nat.min (rate d - buf_len d) (length p) in
        d ← append_buf (take todo p) d;
        d ← (if Nat.eqb (buf_len d) (rate d) then permute d else Ret d);
        write_loop fuel' (drop todo p) d
    end
  end.

(** Every pass takes at least one byte. *)
Definition Write (p : list Z) (d : state) : outcome state :=
  if squeezing d then Panic "sha3: write to sponge after read" else write_loop (length p) p (with_buf d).

Definition padAndPermute (ds : Z) (d : state) : outcome state :=
  d ← append_buf [ds] (with_buf d);
  let zerosStart := buf_len d in
  let d := set_buf 0 (rate d) d in
  let d := set_storage (write_at zerosStart (replicate (rate d - zerosStart) 0) (storage d)) d in
  let d := set_storage (alter (λ b, b ⊕ 0x80) (rate d - 1)%nat (storage d)) d in
  d ← permute d;
  Ret (copyOut (set_buf 0 (rate d) (set_squeezing true d))).

Fixpoint read_loop (fuel n : nat) (d : state) : outcome (list Z * state) :=
  match n with
  | O => Ret ([], d)
  | _ =>
    match fuel with
    | O => OutOfFuel
    | S fuel' =>
      let k := Nat.min n (buf_len d) in
      let out := take k (buf_bytes d) in
      let d := set_buf (fst (bounds d) + k) (snd (bounds d)) d in
      d ← (if Nat.eqb (buf_len d) 0 then permute d else Ret d);
      r ← read_loop fuel' (n - k) d;
      Ret (out ++ fst r, snd r)
    end
  end.

(** [Read] into a slice of length [n]; the first pass may find nothing left. *)
Definition Read (n : nat) (d : state) : outcome (list Z * state) :=
  d ← (if squeezing d then Ret d else padAndPermute (dsbyte d) d);
  read_loop (S n) n d.

Definition clone (d : state) : outcome state :=
  let '(lo, hi) := bounds d in
  if squeezing d then
    if Nat.ltb (rate d) (maxRate - lo) then Panic "slice bounds out of range" else Ret (set_buf (rate d - (maxRate - lo)) (rate d) d)
  else Ret (set_buf 0 (hi - lo) d).

Definition Sum (inp : list Z) (d : state) : outcome (list Z) :=
  dup ← clone d;
  r ← Read (outputLen dup) dup;
  Ret (inp ++ fst r).

(** ** The hashes *)
Definition new (r : nat) (out : nat) (ds : Z) : state := mkSponge (replicate 25 0) None r ds (replicate maxRate 0) out false.
Definition NewKeccak256 : state := new 136 32 0x01.
Definition NewKeccak512 : state := new 72 64 0x01.
Definition New224 : state := new 144 28 0x06.
Definition New256 : state := new 136 32 0x06.
Definition New384 : state := new 104 48 0x06.
Definition New512 : state := new 72 64 0x06.

Fixpoint write_all (ps : list (list Z)) (d : state) : outcome state :=
  match ps with
  | [] => Ret d
  | p :: ps' => d ← Write p d; write_all ps' d
  end.

Definition Sum224 (data : list Z) : outcome (list Z) := d ← Write data New224; Sum [] d.
Definition Sum256 (data : list Z) : outcome (list Z) := d ← Write data New256; Sum [] d.
Definition Sum384 (data : list Z) : outcome (list Z) := d ← Write data New384; Sum [] d.
Definition Sum512 (data : list Z) : outcome (list Z) := d ← Write data New512; Sum [] d.

Definition Keccak256 (data : list (list Z)) : outcome (list Z) := d ← write_all data NewKeccak256; Sum [] d.
Definition Keccak256Hash (data : list (list Z)) : outcome (list Z) := d ← write_all data NewKeccak256; Sum [] d.
Definition Keccak512 (data : list (list Z)) : outcome (list Z) := d ← write_all data NewKeccak512; Sum [] d.
