(* ===== verification/Sha3Props.v ===== *)
(** The hash functions against the sponge of FIPS 202: writing in pieces, buffering and padding in
    place give the digest of the padded message. *)
From S2P Require Import Prelude Bytes HexKeys KeccakF Sha3.
Open Scope Z_scope.
Open Scope lane_scope.

(** ** The standard (FIPS 202, sections 4 and 5, on whole bytes) *)
Section Sponge.
Context (f : list Z → list Z) (r : nat).

(** Bytes past the block count as 0. *)
Definition xor_block (s b : list Z) : list Z := imap (λ i x, x ⊕ word_at b i) s.

(** The first [k] blocks of [m]. *)
Fixpoint absorb (k : nat) (s m : list Z) : list Z :=
  match k with O => s | S k' => absorb k' (f (xor_block s (take r m))) (drop r m) end.

(** What is appended to a message of [n] bytes: the domain bits, a one, zeros and a one. *)
Definition pad (ds : Z) (n : nat) : list Z :=
  let q := (r - n mod r)%nat in
  if Nat.eqb q 1 then [ds ⊕ 0x80] else ds :: replicate (q - 2) 0 ++ [0x80].

Definition sponge (ds : Z) (out : nat) (m : list Z) : list Z :=
  let p := m ++ pad ds (length m) in
  take out (lane_bytes (absorb (length p / r) (replicate 25 0) p)).
End Sponge.

(** ** Lists *)
Lemma slice_take_drop lo hi (l : list Z) : slice lo hi l = take (hi - lo) (drop lo l).
Proof. done. Qed.

Lemma length_write_at i p l : (i + length p ≤ length l)%nat → length (write_at i p l) = length l.
Proof. intros Hi. unfold write_at. rewrite !length_app, length_take, length_drop. lia. Qed.

Lemma take_write_at i p l : (i + length p ≤ length l)%nat → take (i + length p) (write_at i p l) = take i l ++ p.
Proof.
  intros Hi. unfold write_at. rewrite app_assoc, take_app_le; [|rewrite length_app, length_take; lia].
  apply take_ge. rewrite length_app, length_take. lia.
Qed.

Lemma take_write_at_le j i p l : (j ≤ i)%nat → (i ≤ length l)%nat → take j (write_at i p l) = take j l.
Proof. intros Hj Hi. unfold write_at. rewrite take_app_le by (rewrite length_take; lia). rewrite take_take. f_equal. lia. Qed.

(** ** Blocks *)
Lemma word_at_past b i : (length b ≤ 8 * i)%nat → word_at b i = 0.
Proof. intros Hb. unfold word_at, slice. by rewrite drop_ge, take_nil. Qed.

Lemma xor_words_join lo mid hi b l : (lo ≤ mid ≤ hi)%nat → xor_words mid hi b (xor_words lo mid b l) = xor_words lo hi b l.
Proof.
  intros Hm. apply list_eq. intros i. unfold xor_words. rewrite !list_lookup_imap. destruct (l !! i) as [x|]; [|done]. cbn [fmap option_fmap option_map]. f_equal.
  destruct (Nat.leb_spec lo i), (Nat.ltb_spec i mid), (Nat.leb_spec mid i), (Nat.ltb_spec i hi); cbn; done || lia.
Qed.

Lemma xor_words_block n b l : length b = (8 * n)%nat → xor_words 0 n b l = xor_block l b.
Proof.
  intros Hb. apply list_eq. intros i. unfold xor_words, xor_block. rewrite !list_lookup_imap. destruct (l !! i) as [x|]; [|done]. cbn [fmap option_fmap option_map]. f_equal.
  destruct (Nat.ltb_spec i n); [done|]. rewrite word_at_past by lia. by rewrite Z.lxor_0_r.
Qed.

(** The rates of the hashes. *)
Definition is_rate (n : nat) : Prop := n ∈ [72; 104; 136; 144; 168]%nat.

Lemma xorIn_block b d : is_rate (length b) → xorIn b d = Ret (set_a (xor_block (a d) b) d).
Proof.
  intros Hr. unfold xorIn. rewrite bool_decide_eq_false_2; [|intros ->; apply (bool_decide_unpack (¬ is_rate 0)); [by vm_compute|done]].
  do 2 f_equal. unfold is_rate in Hr. repeat (apply elem_of_cons in Hr as [Hr|Hr]); [..|by apply elem_of_nil in Hr]; rewrite Hr; cbn [Nat.leb];
    rewrite ?xor_words_join by lia; by apply xor_words_block.
Qed.

(** *** Absorbing *)
Section Absorb.
Context (f : list Z → list Z) (r : nat).
Implicit Types (s m p : list Z).

Lemma absorb_app k s m p : (k * r ≤ length m)%nat → absorb f r k s (m ++ p) = absorb f r k s m.
Proof.
  revert s m. induction k as [|k IH]; intros s m Hk; [done|]. cbn [absorb]. rewrite take_app_le, drop_app_le by lia.
  apply IH. rewrite length_drop. lia.
Qed.

Lemma absorb_S k s m : absorb f r (S k) s m = f (xor_block (absorb f r k s m) (take r (drop (k * r) m))).
Proof.
  revert s m. induction k as [|k IH]; intros s m; [done|].
  change (absorb f r (S (S k)) s m) with (absorb f r (S k) (f (xor_block s (take r m))) (drop r m)). rewrite IH. cbn [absorb].
  by rewrite drop_drop.
Qed.
End Absorb.

(** ** A sponge that absorbs *)
Section Write.
Context (r : nat) (Hr : is_rate r).
Implicit Types (m p : list Z) (d : state).
#[local] Abbreviation absorbed := (absorb keccakF1600 r).

Lemma rate_bounds : (72 ≤ r ≤ 168)%nat.
Proof. unfold is_rate in Hr. repeat (apply elem_of_cons in Hr as [->|Hr]; [lia|]). by apply elem_of_nil in Hr. Qed.

(** [m] was written so far: [k] blocks are absorbed and the rest is in the buffer. *)
Record holds d m : Prop := {
  h_rate : rate d = r;
  h_mode : squeezing d = false;
  h_storage : length (storage d) = maxRate;
  h_blocks : ∃ k, (k * r ≤ length m < k * r + r)%nat ∧ a d = absorbed k (replicate 25 0) m ∧
    bounds d = (0, length m - k * r)%nat ∧ buf_bytes d = drop (k * r) m }.

(** What the writes do not touch. *)
Definition like d d' : Prop := dsbyte d' = dsbyte d ∧ outputLen d' = outputLen d.

Lemma holds_append d m p k :
  holds d m → (k * r ≤ length m < k * r + r)%nat → a d = absorbed k (replicate 25 0) m → bounds d = (0, length m - k * r)%nat →
  buf_bytes d = drop (k * r) m → (length m + length p ≤ k * r + r)%nat →
  ∃ d', append_buf p d = Ret d' ∧ rate d' = r ∧ squeezing d' = false ∧ length (storage d') = maxRate ∧ a d' = a d ∧
    bounds d' = (0, length (m ++ p) - k * r)%nat ∧ buf_bytes d' = drop (k * r) (m ++ p) ∧ like d d'.
Proof.
  intros [E1 E2 E3 _] Hk Ha Hb Hbytes Hp. pose proof rate_bounds. unfold append_buf. rewrite Hb.
  assert (length m - k * r + length p ≤ maxRate)%nat as Hroom by (unfold maxRate; lia).
  destruct (Nat.leb_spec (length m - k * r + length p) maxRate) as [_|]; [|lia]. eexists. split; [done|]. cbn.
  rewrite length_write_at by lia. rewrite length_app. split_and!; try done.
  - f_equal. lia.
  - unfold buf_bytes in *. cbn. rewrite Hb in Hbytes. unfold slice in *. cbn in *. rewrite drop_0, Nat.sub_0_r in *.
    rewrite take_write_at by lia. rewrite Hbytes. by rewrite drop_app_le by lia.
Qed.

(** A full buffer is absorbed. *)
Lemma permute_full d m k :
  rate d = r → squeezing d = false → length (storage d) = maxRate → a d = absorbed k (replicate 25 0) m →
  buf_bytes d = drop (k * r) m → length m = (k * r + r)%nat →
  ∃ d', permute d = Ret d' ∧ holds d' m ∧ like d d' ∧ a d' = absorbed (S k) (replicate 25 0) m ∧ storage d' = storage d.
Proof.
  intros E1 E2 E3 Ha Hb Hm. unfold permute. rewrite E2. rewrite xorIn_block by (rewrite Hb, length_drop; by replace (length m - k * r)%nat with r by lia).
  eexists. split; [done|].
  assert (keccakF1600 (xor_block (a d) (buf_bytes d)) = absorbed (S k) (replicate 25 0) m) as Hnew.
  { rewrite absorb_S, <-Ha, Hb. by rewrite take_ge by (rewrite length_drop; lia). }
  split; [|split; [done|split; [done|done]]]. split; try done. exists (S k). pose proof rate_bounds. split; [lia|]. split; [done|].
  split; [cbn; f_equal; lia|]. unfold buf_bytes. cbn. rewrite (drop_ge m) by lia. done.
Qed.

(** A whole block goes past the empty buffer. *)
Lemma holds_block d m q k :
  holds d m → length m = (k * r)%nat → a d = absorbed k (replicate 25 0) m → bounds d = (0, 0)%nat → length q = r →
  holds (set_a (keccakF1600 (xor_block (a d) q)) d) (m ++ q).
Proof.
  intros [E1 E2 E3 _] Hm Ha Hb Hq. pose proof rate_bounds. split; try done. exists (S k). rewrite length_app, absorb_S, absorb_app by lia.
  rewrite <-Hm, drop_app_length, (take_ge q), <-Ha by lia. split; [lia|]. split; [done|].
  split; [change (bounds d = (0, length m + length q - S k * r)%nat); rewrite Hb; f_equal; lia|].
  change (buf_bytes d = drop (S k * r) (m ++ q)). unfold buf_bytes. rewrite Hb. by rewrite (drop_ge (m ++ q)) by (rewrite length_app; lia).
Qed.

(** Part of a block goes to the buffer, which is absorbed once it is full. *)
Lemma holds_part d m q k :
  holds d m → (k * r ≤ length m < k * r + r)%nat → a d = absorbed k (replicate 25 0) m → bounds d = (0, length m - k * r)%nat →
  buf_bytes d = drop (k * r) m → (length m + length q ≤ k * r + r)%nat →
  ∃ d', (d ← append_buf q d; if Nat.eqb (buf_len d) (rate d) then permute d else Ret d) = Ret d' ∧ holds d' (m ++ q) ∧ like d d'.
Proof.
  intros Hd Hk Ha Hb Hbytes Hq. destruct (holds_append d m q k Hd Hk Ha Hb Hbytes Hq) as (d1 & -> & E1 & E2 & E3 & Ha1 & Hb1 & Hbytes1 & Hl1).
  cbn [mbind outcome_bind]. unfold buf_len. rewrite Hb1, E1. cbn [fst snd]. rewrite length_app in *. rewrite <-absorb_app with (p := q) in Ha by lia.
  destruct (Nat.eqb_spec (length m + length q - k * r - 0) r) as [Hfull|Hpart].
  - destruct (permute_full d1 (m ++ q) k) as (d2 & Hrun & Hd2 & Hl2 & _); [done..|congruence|done|rewrite length_app; lia|].
    exists d2. split; [done|]. split; [done|]. destruct Hl1, Hl2. split; congruence.
  - exists d1. split; [done|]. split; [|done]. split; try done. exists k. rewrite length_app. split; [lia|]. split; [congruence|done].
Qed.

Lemma write_loop_holds fuel p d m :
  (length p ≤ fuel)%nat → holds d m → ∃ d', write_loop fuel p d = Ret d' ∧ holds d' (m ++ p) ∧ like d d'.
Proof.
  revert p d m. induction fuel as [|fuel IH]; intros p d m Hf Hd; (destruct p as [|x p]; [exists d; by rewrite app_nil_r|]); [cbn in Hf; lia|].
  cbn [write_loop]. set (q := x :: p) in *. assert (length q ≠ 0)%nat as Hq by done. clearbody q. clear x p. pose proof rate_bounds.
  destruct (h_blocks _ _ Hd) as (k & Hk & Ha & Hb & Hbytes). pose proof (h_rate _ _ Hd) as E1.
  assert (buf_len d = length m - k * r)%nat as Hbl by (unfold buf_len; rewrite Hb; cbn; lia). rewrite Hbl, E1.
  destruct (Nat.eqb (length m - k * r) 0 && Nat.leb r (length q)) eqn:Hfast.
  - apply andb_true_iff in Hfast as [Hm%Nat.eqb_eq Hlen%Nat.leb_le]. rewrite xorIn_block by (rewrite length_take; by replace (Nat.min r (length q)) with r by lia).
    cbn [mbind outcome_bind]. destruct (IH (drop r q) (set_a (keccakF1600 (xor_block (a d) (take r q))) d) (m ++ take r q)) as (d' & Hrun & Hd' & Hl').
    + rewrite length_drop. lia.
    + apply (holds_block d m (take r q) k); [done|lia|done|rewrite Hb; f_equal; lia|rewrite length_take; lia].
    + rewrite <-app_assoc, take_drop in Hd'. exists d'. split; [|done].
      change (rate (set_a (xor_block (a d) (take r q)) d)) with (rate d). rewrite E1. exact Hrun.
  - set (todo := Nat.min (r - (length m - k * r)) (length q)).
    destruct (holds_part d m (take todo q) k Hd Hk Ha Hb Hbytes) as (d1 & Hrun1 & Hd1 & Hl1); [rewrite length_take; lia|].
    destruct (IH (drop todo q) d1 (m ++ take todo q)) as (d2 & Hrun2 & Hd2 & Hl2); [rewrite length_drop; lia|done|].
    rewrite <-app_assoc, take_drop in Hd2. exists d2. split; [|split; [done|destruct Hl1, Hl2; split; congruence]].
    destruct (append_buf (take todo q) d) as [d0| | |]; try done. cbn [mbind outcome_bind] in *. by rewrite Hrun1.
Qed.

Lemma holds_new out ds : holds (with_buf (new r out ds)) [].
Proof. pose proof rate_bounds. split; try done. exists 0%nat. cbn. split; [lia|done]. Qed.

Lemma holds_with_buf d m : holds d m → holds (with_buf d) m.
Proof. unfold with_buf. destruct (buf d) eqn:Hb; [done|]. intros [E1 E2 E3 (k & Hk)]. split; try done. exists k. unfold buf_bytes, bounds in *. by rewrite Hb in Hk. Qed.

Lemma Write_holds p d m : holds (with_buf d) m → ∃ d', Write p d = Ret d' ∧ holds (with_buf d') (m ++ p) ∧ like d d'.
Proof.
  intros Hd. assert (squeezing d = false) as Hs by (pose proof (h_mode _ _ Hd); unfold with_buf in *; by destruct (buf d)).
  unfold Write. rewrite Hs. destruct (write_loop_holds (length p) p (with_buf d) m (le_n _) Hd) as (d' & Hrun & Hd' & Hl).
  exists d'. split; [done|]. split; [by apply holds_with_buf|]. destruct Hl. unfold like, with_buf in *. by destruct (buf d).
Qed.

Lemma write_all_holds ps d m : holds (with_buf d) m → ∃ d', write_all ps d = Ret d' ∧ holds (with_buf d') (m ++ concat ps) ∧ like d d'.
Proof.
  revert d m. induction ps as [|p ps IH]; intros d m Hd; [exists d; by rewrite app_nil_r|]. cbn [write_all concat].
  destruct (Write_holds p d m Hd) as (d1 & -> & Hd1 & [E1 E2]). destruct (IH d1 _ Hd1) as (d2 & Hrun & Hd2 & [F1 F2]).
  rewrite <-app_assoc in Hd2. exists d2. split; [done|]. split; [done|]. split; congruence.
Qed.

(** ** Padding and squeezing *)
Lemma length_pad ds n : length (pad r ds n) = (r - n mod r)%nat.
Proof.
  pose proof rate_bounds. assert (n mod r < r)%nat by (apply Nat.mod_upper_bound; lia). unfold pad.
  destruct (Nat.eqb_spec (r - n mod r) 1) as [->|]; [done|]. cbn. rewrite length_app, length_replicate. cbn. lia.
Qed.

(** The storage after the padding is written in place. *)
Lemma padded st n ds :
  length st = maxRate → (n < r)%nat →
  take r (alter (λ b, b ⊕ 0x80) (r - 1)%nat (write_at (n + 1) (replicate (r - (n + 1)) 0) (write_at n [ds] st))) = take n st ++ pad r ds n.
Proof.
  intros Hst Hn. pose proof rate_bounds. unfold maxRate in *. set (st1 := write_at n [ds] st).
  assert (length st1 = 168)%nat as H1 by (unfold st1; rewrite length_write_at; cbn; lia).
  set (st2 := write_at (n + 1) (replicate (r - (n + 1)) 0) st1).
  assert (length st2 = 168)%nat as H2 by (unfold st2; rewrite length_write_at; [done|rewrite length_replicate; lia]).
  assert (take r st2 = take n st ++ [ds] ++ replicate (r - (n + 1)) 0) as Ht.
  { pose proof (take_write_at (n + 1) (replicate (r - (n + 1)) 0) st1) as Hw. rewrite length_replicate in Hw.
    replace (n + 1 + (r - (n + 1)))%nat with r in Hw by lia. unfold st2. rewrite Hw by lia. unfold st1.
    pose proof (take_write_at n [ds] st) as Hw1. cbn [length] in Hw1. rewrite Hw1 by lia. by rewrite <-app_assoc. }
  replace (take r (alter (λ b, b ⊕ 128) (r - 1)%nat st2)) with (alter (λ b, b ⊕ 128) (r - 1)%nat (take r st2)).
  2: { apply list_eq. intros i. destruct (decide (i < r)%nat).
       - rewrite lookup_take_lt by done. destruct (decide (i = r - 1)%nat) as [->|].
         + rewrite !list_lookup_alter_eq. by rewrite lookup_take_lt by lia.
         + rewrite !list_lookup_alter_ne by done. by rewrite lookup_take_lt by lia.
       - rewrite lookup_take_ge by lia. rewrite list_lookup_alter_ne by lia. by rewrite lookup_take_ge by lia. }
  rewrite Ht. replace (r - 1)%nat with (length (take n st) + (r - n - 1))%nat by (rewrite length_take; lia). rewrite alter_app_r. f_equal.
  unfold pad. rewrite Nat.mod_small by done. destruct (Nat.eqb_spec (r - n) 1) as [Hq|Hq].
  - rewrite Hq. by replace (r - (n + 1))%nat with 0%nat by lia.
  - replace (r - (n + 1))%nat with (r - n - 2 + 1)%nat by lia. rewrite replicate_add. cbn [app replicate].
    replace (r - n - 1)%nat with (S (r - n - 2)) by lia. cbn [alter list_alter]. f_equal.
    rewrite alter_app_r_alt by (rewrite length_replicate; lia). by rewrite length_replicate, Nat.sub_diag.
Qed.

Lemma length_le_bytes n x : length (le_bytes n x) = n.
Proof. revert x. induction n as [|n IH]; intros x; [done|]. cbn. by rewrite IH. Qed.

Lemma length_lane_bytes l : length (lane_bytes l) = (8 * length l)%nat.
Proof. unfold lane_bytes. induction l as [|x l IH]; [done|]. cbn [map concat]. rewrite length_app, IH, length_le_bytes. cbn. lia. Qed.

Lemma length_keccakF1600 l : length l = 25%nat → length (keccakF1600 l) = 25%nat.
Proof.
  intros Hl. rewrite keccakF1600_rounds by done. revert l Hl. generalize rc. intros cs. induction cs as [|c cs IH]; intros l Hl; [done|].
  apply IH, length_build.
Qed.

Lemma length_absorbed k s m : length s = 25%nat → length (absorbed k s m) = 25%nat.
Proof. revert s m. induction k as [|k IH]; intros s m Hs; [done|]. cbn [absorb]. apply IH, length_keccakF1600. by rewrite <-Hs; apply length_imap. Qed.

Lemma pad_mod ds n k : (k * r ≤ n < k * r + r)%nat → pad r ds n = pad r ds (n - k * r).
Proof.
  intros Hn. unfold pad. replace (n mod r)%nat with (n - k * r)%nat; [by rewrite (Nat.mod_small (n - k * r)) by lia|].
  apply (Nat.mod_unique _ _ k); lia.
Qed.

Lemma copyOut_bytes d n :
  bounds d = (0, n)%nat → (n ≤ maxRate)%nat → length (storage d) = maxRate → length (a d) = 25%nat →
  buf_bytes (copyOut d) = take n (lane_bytes (a d)).
Proof.
  intros Hb Hn Hs Ha. unfold copyOut. rewrite Hb. unfold buf_bytes. change (bounds (set_storage _ d)) with (bounds d). rewrite Hb.
  cbn [fst snd storage set_storage]. unfold slice. rewrite drop_0, Nat.sub_0_r, take_take, Nat.min_l by done.
  set (p := take n (lane_bytes (a d))).
  assert (length p = n) as Hp by (unfold p; rewrite length_take, length_lane_bytes, Ha; unfold maxRate in Hn; lia).
  pose proof (take_write_at 0 p (storage d)) as Hw. rewrite Hp in Hw. cbn [Nat.add take app] in Hw. apply Hw. lia.
Qed.

Lemma padAndPermute_spec d m ds :
  holds (with_buf d) m →
  ∃ d', padAndPermute ds d = Ret d' ∧ squeezing d' = true ∧ bounds d' = (0, r)%nat ∧ rate d' = r ∧
    let p := m ++ pad r ds (length m) in buf_bytes d' = take r (lane_bytes (absorbed (length p / r) (replicate 25 0) p)).
Proof.
  intros Hd. pose proof rate_bounds. destruct (h_blocks _ _ Hd) as (k & Hk & Ha & Hb & Hbytes).
  destruct (holds_append (with_buf d) m [ds] k Hd Hk Ha Hb Hbytes) as (d1 & Happ & E1 & E2 & E3 & Ha1 & Hb1 & _); [cbn; lia|].
  unfold padAndPermute. rewrite Happ. cbn [mbind outcome_bind].
  assert (storage d1 = write_at (length m - k * r) [ds] (storage (with_buf d))) as Hst.
  { unfold append_buf in Happ. rewrite Hb in Happ. destruct (Nat.leb_spec (length m - k * r + length [ds]) maxRate); [|done]. by injection Happ as <-. }
  assert (buf_len d1 = length m - k * r + 1)%nat as Hl1 by (unfold buf_len; rewrite Hb1, length_app; cbn; lia).
  set (p := m ++ pad r ds (length m)).
  assert (length p = k * r + r)%nat as Hp by (unfold p; rewrite length_app, length_pad, <-(Nat.mod_unique (length m) r k (length m - k * r)); lia).
  set (d2 := set_storage (alter (λ b, b ⊕ 128) _ _) _).
  destruct (permute_full d2 p k) as (d3 & Hrun & Hd3 & _ & Ha3 & Hst3); [done|done| | | |done|].
  { cbn. rewrite length_alter, length_write_at; [done|]. rewrite length_replicate, E1, E3. unfold maxRate, buf_len. cbn. rewrite Hb1, length_app. cbn. lia. }
  { cbn. rewrite Ha1, Ha. unfold p. by rewrite absorb_app by lia. }
  { unfold buf_bytes. cbn. unfold slice. rewrite drop_0, Nat.sub_0_r, E1, Hl1, Hst. rewrite padded; [|by apply h_storage in Hd|lia].
    unfold buf_bytes in Hbytes. rewrite Hb in Hbytes. unfold slice in Hbytes. cbn in Hbytes. rewrite drop_0, Nat.sub_0_r in Hbytes. rewrite Hbytes.
    unfold p. rewrite drop_app_le by lia. by rewrite <-pad_mod. }
  rewrite Hrun. cbn [mbind outcome_bind]. pose proof (h_rate _ _ Hd3) as Hr3. eexists. split; [done|]. split; [done|].
  split; [cbn; by rewrite Hr3|]. split; [done|]. cbv zeta. rewrite Hp.
  replace ((k * r + r) / r)%nat with (S k) by (rewrite Nat.div_add_l, Nat.div_same by lia; lia).
  rewrite <-Ha3. replace (a d3) with (a (set_buf 0 (rate d3) (set_squeezing true d3))) by done.
  apply copyOut_bytes; [by rewrite Hr3|unfold maxRate; lia|exact (h_storage _ _ Hd3)|].
  change (length (a d3) = 25%nat). rewrite Ha3. by apply length_absorbed.
Qed.

Lemma read_loop_one n d :
  bounds d = (0, r)%nat → (n < r)%nat → length (buf_bytes d) = r → ∃ d', read_loop (S n) n d = Ret (take n (buf_bytes d), d').
Proof.
  intros Hb Hn Hl. destruct n as [|n]; [by exists d|]. cbn [read_loop].
  assert (buf_len d = r) as Hbl by (unfold buf_len; rewrite Hb; cbn; lia). rewrite Hbl, Hb, Nat.min_l by lia.
  set (d1 := set_buf _ _ d). assert (buf_len d1 = r - S n)%nat as Hl1 by done. rewrite Hl1.
  destruct (Nat.eqb_spec (r - S n) 0); [lia|]. cbn [mbind outcome_bind]. rewrite Nat.sub_diag.
  exists d1. destruct n; cbn [read_loop mbind outcome_bind fst snd]; by rewrite app_nil_r.
Qed.

(** The digest of what was written. *)
Lemma Sum_holds d m inp :
  holds (with_buf d) m → (outputLen d < r)%nat → Sum inp d = Ret (inp ++ sponge keccakF1600 r (dsbyte d) (outputLen d) m).
Proof.
  intros Hd Hout. pose proof rate_bounds. destruct (h_blocks _ _ Hd) as (k & Hk & Ha & Hb & Hbytes).
  assert (bounds d = bounds (with_buf d)) as Hbd by (unfold with_buf, bounds; destruct (buf d) eqn:Hbuf; [by rewrite Hbuf|done]).
  assert (squeezing d = false) as Hs by (pose proof (h_mode _ _ Hd); unfold with_buf in *; by destruct (buf d)).
  unfold Sum, clone. rewrite Hbd, Hb, Hs. cbn [mbind outcome_bind]. set (dup := set_buf _ _ d).
  assert (holds (with_buf dup) m) as Hdup.
  { destruct Hd as [E1 E2 E3 _]. unfold with_buf in *. cbn. split; [by destruct (buf d)|done|by destruct (buf d)|]. exists k. split; [done|].
    split; [rewrite <-Ha; by destruct (buf d)|]. split; [cbn; by rewrite Nat.sub_0_r|]. rewrite <-Hbytes. unfold buf_bytes. rewrite Hb. cbn.
    rewrite Nat.sub_0_r. by destruct (buf d). }
  unfold Read. cbn [squeezing dup set_buf]. rewrite Hs.
  destruct (padAndPermute_spec dup m (dsbyte dup) Hdup) as (d1 & -> & _ & Hb1 & _ & Hbytes1). cbn [mbind outcome_bind].
  destruct (read_loop_one (outputLen dup) d1) as (d2 & ->); [done..| |].
  { rewrite Hbytes1, length_take, length_lane_bytes, length_absorbed by apply length_replicate. lia. }
  cbn [mbind outcome_bind fst]. rewrite Hbytes1, take_take. rewrite Nat.min_l by (cbn; lia). done.
Qed.
End Write.

(** *** On words the permutation is the standard's *)
Lemma le_word_range l : is_bytes l → 0 ≤ le_word l < 256 ^ Z.of_nat (length l).
Proof.
  induction 1 as [|b l Hb _ IH]; [cbn; lia|]. cbn [le_word length]. unfold is_byte in Hb. rewrite Nat2Z.inj_succ, Z.pow_succ_r by lia. lia.
Qed.

Lemma word_at_word b i : is_bytes b → word (word_at b i).
Proof.
  intros Hb. unfold word_at, slice. set (l := take _ _).
  assert (is_bytes l) as Hl by (unfold l; by apply Forall_take, Forall_drop). assert (length l ≤ 8)%nat by (unfold l; rewrite length_take; lia).
  pose proof (le_word_range l Hl). unfold word. assert (256 ^ Z.of_nat (length l) ≤ 256 ^ 8) by (apply Z.pow_le_mono_r; lia).
  change (256 ^ 8) with (2 ^ 64) in *. lia.
Qed.

Lemma xor_block_words s b : words s → is_bytes b → words (xor_block s b).
Proof.
  intros [Hl Hs] Hb. split; [by unfold xor_block; rewrite length_imap|]. unfold xor_block. apply Forall_lookup_2. intros i x Hx.
  rewrite list_lookup_imap in Hx. destruct (s !! i) as [y|] eqn:Hy; [|done]. injection Hx as <-.
  apply word_lxor; [by eapply Forall_lookup_1|by apply word_at_word].
Qed.

Lemma absorb_standard r k s m :
  words s → is_bytes m →
  absorb keccakF1600 r k s m = absorb Standard.keccak_f r k s m ∧ words (absorb keccakF1600 r k s m).
Proof.
  revert s m. induction k as [|k IH]; intros s m Hs Hm; [done|]. cbn [absorb].
  destruct (keccakF1600_standard (xor_block s (take r m))) as [<- Hw]; [by apply xor_block_words, Forall_take|].
  apply IH; [done|by apply Forall_drop].
Qed.

Lemma words_zero : words (replicate 25 0).
Proof. split; [done|]. unfold word. decided. Qed.

Lemma pad_bytes r ds n : is_byte ds → is_bytes (pad r ds n).
Proof.
  unfold is_byte. intros Hds. unfold pad. destruct (Nat.eqb _ 1).
  - constructor; [|constructor]. assert (word (ds ⊕ 128)) as [Hw _] by (apply word_lxor; unfold word; lia). unfold is_byte. split; [done|].
    destruct (decide (ds ⊕ 128 = 0)) as [->|Hnz]; [lia|]. change 256 with (2 ^ 8). apply Z.log2_lt_pow2; [lia|].
    pose proof (Z.log2_lxor ds 128 ltac:(lia) ltac:(lia)) as Hl. change (Z.log2 128) with 7 in Hl.
    assert (Z.log2 ds < 8); [|lia]. destruct (decide (ds = 0)) as [->|]; [done|]. apply Z.log2_lt_pow2; [lia|]. change (2 ^ 8) with 256. lia.
  - constructor; [done|]. apply Forall_app. split; [apply Forall_replicate; unfold is_byte; lia|]. constructor; [unfold is_byte; lia|constructor].
Qed.

Lemma sponge_standard r ds out m :
  is_byte ds → is_bytes m → sponge keccakF1600 r ds out m = sponge Standard.keccak_f r ds out m.
Proof.
  intros Hds Hm. unfold sponge. destruct (absorb_standard r (length (m ++ pad r ds (length m)) / r) (replicate 25 0) (m ++ pad r ds (length m))) as [-> _];
    [apply words_zero| |done]. apply Forall_app. split; [done|by apply pad_bytes].
Qed.

(** A hash of the package, fed in pieces. *)
Lemma hash_standard r out ds ps :
  is_rate r → (out < r)%nat → is_byte ds → is_bytes (concat ps) →
  (d ← write_all ps (new r out ds); Sum [] d) = Ret (sponge Standard.keccak_f r ds out (concat ps)).
Proof.
  intros Hr Hout Hds Hps. destruct (write_all_holds r Hr ps (new r out ds) [] (holds_new r Hr out ds)) as (d & -> & Hd & [E1 E2]).
  cbn [mbind outcome_bind]. rewrite (Sum_holds r Hr d _ [] Hd) by (rewrite E2; done). rewrite E1, E2. cbn [dsbyte outputLen new app].
  by rewrite sponge_standard.
Qed.

Lemma length_sponge f r ds out m :
  (out ≤ 200)%nat → (∀ s, length s = 25%nat → length (f s) = 25%nat) → length (sponge f r ds out m) = out.
Proof.
  intros Hout Hf. unfold sponge. rewrite length_take, length_lane_bytes.
  assert (∀ k s m, length s = 25%nat → length (absorb f r k s m) = 25%nat) as Ha.
  { intros k. induction k as [|k IH]; intros s m' Hs; [done|]. cbn [absorb]. apply IH, Hf. by rewrite <-Hs; apply length_imap. }
  rewrite Ha by done. lia.
Qed.

(** C27: the hash functions.  Whatever pieces the data is written in, [Keccak256] and
    [Keccak512] return, and the result is that of the sponge of FIPS 202 over Keccak-f[1600] on
    the concatenated data, with rates of 136 and 72 bytes and the padding of the original Keccak;
    so do [Sum224] to [Sum512] with the domain bits of SHA-3.  In particular a digest of
    [Keccak256] has 32 bytes. *)
Theorem hashes_are_sponges ps m :
  is_bytes (concat ps) → is_bytes m →
  Keccak256 ps = Ret (sponge Standard.keccak_f 136 0x01 32 (concat ps)) ∧
  Keccak512 ps = Ret (sponge Standard.keccak_f 72 0x01 64 (concat ps)) ∧
  Sum224 m = Ret (sponge Standard.keccak_f 144 0x06 28 m) ∧
  Sum256 m = Ret (sponge Standard.keccak_f 136 0x06 32 m) ∧
  Sum384 m = Ret (sponge Standard.keccak_f 104 0x06 48 m) ∧
  Sum512 m = Ret (sponge Standard.keccak_f 72 0x06 64 m) ∧
  length (sponge Standard.keccak_f 136 0x01 32 (concat ps)) = 32%nat.
Proof.
  intros Hps Hm. assert (∀ r out ds, is_rate r → (out < r)%nat → is_byte ds →
    (d ← Write m (new r out ds); Sum [] d) = Ret (sponge Standard.keccak_f r ds out m)) as Hone.
  { intros r out ds Hr Hout Hds. pose proof (hash_standard r out ds [m] Hr Hout Hds) as Hh. cbn [write_all concat] in Hh. rewrite app_nil_r in Hh.
    rewrite <-Hh by done. by destruct (Write m (new r out ds)). }
  split_and!; try (apply hash_standard; [decided|lia|unfold is_byte; lia|done]); try (apply Hone; [decided|lia|unfold is_byte; lia]).
  apply length_sponge; [lia|]. intros s _.  apply length_keccak_f.
Qed.

Lemma hashes_are_sponges_witness : Keccak256 [[97]; [98; 99]] = Ret (sponge Standard.keccak_f 136 0x01 32 [97; 98; 99]) ∧
  take 4 (sponge Standard.keccak_f 136 0x01 32 [97; 98; 99]) = [78; 3; 101; 122].
Proof.
  split; [|vm_compute; reflexivity]. assert (is_bytes [97; 98; 99]) as Hb by (unfold is_bytes, is_byte; decided).
  exact (proj1 (hashes_are_sponges [[97]; [98; 99]] [] Hb (Forall_nil_2 _))).
Defined.
