(* ===== verification/Transactions.v ===== *)
(** [types/transaction.go], [types/signer.go] and the part of [common/crypto] they use: the
    data of a transaction with its cached hash, size and sender, its RLP form, signing and the
    recovery of the sender.

    The elliptic curve ([btcec]) and Keccak-256 are parameters.  The integers of a transaction
    are never nil once it was made by [newTransaction] or decoded, so they are [Z]; the zero
    value [Transaction{}], whose integers are nil and of which only the hash is taken, is
    [zero_transaction]. *)
From S2P Require Import Prelude Bytes HexKeys Rlp RlpRaw RlpStream RlpDecode RlpOptional TrieNode State Transition.
Open Scope Z_scope.

Definition ErrInvalidSig : gerror := Errorf "invalid transaction v, r, s values".
Definition ErrInvalidChainId : gerror := Errorf "invalid chain id for signer".

(** ** Data *)
Record txdata := mkData {
  AccountNonce : Z; Price : Z; GasLimit : Z; Recipient : option bytes; Amount : Z; Payload : bytes;
  V : Z; R : Z; S_ : Z }.

Record BasicSigner := mkSigner { chainId : Z; chainIdMul : Z }.

(** The caches are empty until the first call that fills them. *)
Record Transaction := mkTx {
  tx_data : txdata; tx_hash : option bytes; tx_size : option Z; tx_from : option (BasicSigner * bytes) }.

Definition new_tx (d : txdata) : Transaction := mkTx d None None None.
Definition set_hash (h : bytes) (tx : Transaction) : Transaction := mkTx (tx_data tx) (Some h) (tx_size tx) (tx_from tx).
Definition set_size (n : Z) (tx : Transaction) : Transaction := mkTx (tx_data tx) (tx_hash tx) (Some n) (tx_from tx).
Definition set_from (f : BasicSigner * bytes) (tx : Transaction) : Transaction := mkTx (tx_data tx) (tx_hash tx) (tx_size tx) (Some f).

Definition newTransaction (nonce : Z) (to : option bytes) (amount gasLimit gasPrice : option Z) (payload : bytes) : Transaction :=
  new_tx (mkData nonce (default 0 gasPrice) (default 0 gasLimit) to (default 0 amount) payload 0 0 0).

Definition NewTransaction (nonce : Z) (to : bytes) := newTransaction nonce (Some to).
Definition NewContractCreation (nonce : Z) := newTransaction nonce None.

(** ** Chain identifiers *)
Definition deriveChainId (v : Z) : Z :=
  if bool_decide (BitLen v ≤ 64) then
    let u := Uint64 v in
    if bool_decide (u = 27 ∨ u = 28) then 0 else (u - 35) mod 2 ^ 64 / 2
  else (v - 35) / 2.

Definition isProtectedV (v : Z) : bool :=
  if bool_decide (BitLen v ≤ 8) then let u := Uint64 v in negb (bool_decide (u = 27 ∨ u = 28)) else true.

Definition ChainId (tx : Transaction) : Z := deriveChainId (V (tx_data tx)).
Definition Protected (tx : Transaction) : bool := isProtectedV (V (tx_data tx)).

(** ** RLP *)
Definition recipient_gval (a : option bytes) : gval := match a with Some a => GBytes a | None => GNilBytes end.

Definition txdata_gval (d : txdata) : gval :=
  GStruct [GUint (AccountNonce d); GBigInt (Some (Price d)); GBigInt (Some (GasLimit d)); recipient_gval (Recipient d);
           GBigInt (Some (Amount d)); GBytes (Payload d); GBigInt (Some (V d)); GBigInt (Some (R d)); GBigInt (Some (S_ d))].

Definition txdata_type : gtype :=
  TStruct [("AccountNonce", TUint 64); ("Price", TBigInt); ("GasLimit", TBigInt); ("Recipient", TOptPtr (TByteArray 20));
           ("Amount", TBigInt); ("Payload", TBytes); ("V", TBigInt); ("R", TBigInt); ("S", TBigInt)].

(** The struct the decoder has filled. *)
Definition txdata_of (v : gval) : option txdata :=
  match v with
  | GStruct [GUint n; GBigInt (Some p); GBigInt (Some g); r; GBigInt (Some a); GBytes d;
             GBigInt (Some v); GBigInt (Some r'); GBigInt (Some s)] =>
    match r with
    | GBytes to => Some (mkData n p g (Some to) a d v r' s)
    | GNilBytes => Some (mkData n p g None a d v r' s)
    | _ => None
    end
  | _ => None
  end.

(** The value [Transaction{}]: every integer and the recipient are nil. *)
Definition zero_transaction : gval :=
  GStruct [GUint 0; GBigInt None; GBigInt None; GNilBytes; GBigInt None; GBytes []; GBigInt None; GBigInt None; GBigInt None].

Definition EncodeRLP (tx : Transaction) (w : bytes) : outcome bytes := Encode (txdata_gval (tx_data tx)) w.

Definition DecodeRLP (fuel : nat) : D Transaction :=
  r ← try Kind_;
  v ← Decode fuel txdata_type;
  match txdata_of v with
  | Some d => mret (set_size (ListSize match r with inr (_, size) => size | inl _ => 0 end) (new_tx d))
  | None => panic "reflect"
  end.

(** ** Signature values *)
Definition secp256k1_N : Z := 0xfffffffffffffffffffffffffffffffebaaedce6af48a03bbfd25e8cd0364141.
Definition secp256k1_halfN : Z := secp256k1_N / 2.

Definition ValidateSignatureValues (v r s : Z) : bool :=
  if bool_decide (r < 1 ∨ s < 1) then false
  else if bool_decide (secp256k1_halfN < s) then false
  else bool_decide (r < secp256k1_N) && bool_decide (s < secp256k1_N) && bool_decide (v = 0 ∨ v = 1).

(** [UnmarshalJSON], after the generated decoder has filled [dec]. *)
Definition UnmarshalJSON (dec : txdata) : outcome Transaction :=
  let v := if isProtectedV (V dec) then
             let chain := Uint64 (deriveChainId (V dec)) in (Uint64 (V dec) - 35 - 2 * chain) mod 256
           else (Uint64 (V dec) - 27) mod 256 in
  if negb (ValidateSignatureValues v (R dec) (S_ dec)) then Fail ErrInvalidSig else Ret (new_tx dec).

(** ** The curve *)
Class Curve (PrivateKey PublicKey : Type) := {
  on_curve : PrivateKey → bool;
  public : PrivateKey → PublicKey;
  SignCompact : PrivateKey → bytes → outcome bytes;
  RecoverCompact : bytes → bytes → outcome PublicKey;
  SerializeUncompressed : PublicKey → bytes }.

(** What [btcec] documents: a compact signature is the code of the key (plus 27) and the two
    numbers padded to 32 bytes, with the smaller of the two possible [s]; the public key is
    recovered from it and the hash; an uncompressed key starts with the byte 4. *)
Class CurveLaws (PrivateKey PublicKey : Type) `{Curve PrivateKey PublicKey} : Prop := {
  sign_law prv h : on_curve prv = true → length h = 32%nat →
    ∃ code r s, 0 ≤ code < 4 ∧ 0 < r < secp256k1_N ∧ 0 < s ≤ secp256k1_halfN ∧
      SignCompact prv h = Ret (27 + code :: be_bytes 32 r ++ be_bytes 32 s) ∧
      RecoverCompact (27 + code :: be_bytes 32 r ++ be_bytes 32 s) h = Ret (public prv);
  serialize_law p : ∃ xy, SerializeUncompressed p = 4 :: xy }.

Section Signer.
Context (keccak : bytes → bytes) {PrivateKey PublicKey : Type} `{Curve PrivateKey PublicKey}.

(** [common.RlpHash]: an error of the encoder is dropped, and then nothing was written. *)
Definition RlpHash (v : gval) : outcome bytes :=
  match Encode v [] with
  | Ret b => Ret (keccak b) | Fail _ => Ret (keccak [])
  | Panic p => Panic p | OutOfFuel => OutOfFuel
  end.

(** [crypto.SigToPub] and [crypto.Ecrecover] *)
Definition SigToPub (hash sig : bytes) : outcome PublicKey :=
  v ← index sig 64;
  RecoverCompact ((v + 27) mod 256 :: take 64 sig) hash.

Definition Ecrecover (hash sig : bytes) : outcome bytes :=
  pub ← SigToPub hash sig;
  Ret (SerializeUncompressed pub).

(** [crypto.Sign] *)
Definition SignHash (hash : bytes) (prv : PrivateKey) : outcome bytes :=
  if bool_decide (length hash ≠ 32%nat) then Fail (Errorf "hash is required to be exactly 32 bytes")
  else if negb (on_curve prv) then Fail (Errorf "private key curve is not secp256k1")
  else
    sig ← SignCompact prv hash;
    v ← index sig 0;
    set_index (drop 1 sig ++ drop (length sig - 1) sig) 64 ((v - 27) mod 256).

Definition PubkeyToAddress (p : PublicKey) : bytes := drop 12 (keccak (drop 1 (SerializeUncompressed p))).

(** ** The signer *)
Definition NewBasicSigner : BasicSigner := mkSigner 1 (1 * 2).
Definition Equal (s s2 : BasicSigner) : bool := bool_decide (chainId s2 = chainId s).

(** [copy(sig[32-len(b):32], b)] into zeros *)
Definition padded (b : bytes) : outcome bytes :=
  if bool_decide (32 < length b)%nat then Panic "slice bounds out of range" else Ret (replicate (32 - length b) 0 ++ b).

Definition recoverPlain (sighash : bytes) (r s vb : Z) : outcome bytes :=
  if bool_decide (BitLen vb > 8) then Fail ErrInvalidSig
  else
    let v := (Uint64 vb - 27) mod 256 in
    if negb (ValidateSignatureValues v r s) then Fail ErrInvalidSig
    else
      rb ← padded (big_Bytes (Z.abs r));
      sb ← padded (big_Bytes (Z.abs s));
      pub ← Ecrecover sighash (rb ++ sb ++ [v]);
      match pub with
      | 4 :: rest => Ret (take 20 (drop 12 (keccak rest)))
      | _ => Fail (Errorf "invalid public key")
      end.

(** The fields that are signed, and the chain. *)
Definition signed_gval (s : BasicSigner) (d : txdata) : gval :=
  GSlice (map (λ v, GIface (Some v))
    [GUint (AccountNonce d); GBigInt (Some (Price d)); GBigInt (Some (GasLimit d)); recipient_gval (Recipient d);
     GBigInt (Some (Amount d)); GBytes (Payload d); GBigInt (Some (chainId s)); GUint 0; GUint 0]).

Definition signer_Hash (s : BasicSigner) (tx : Transaction) : outcome bytes := RlpHash (signed_gval s (tx_data tx)).

Definition signer_Sender (s : BasicSigner) (tx : Transaction) : outcome bytes :=
  if bool_decide (ChainId tx ≠ chainId s) then Fail ErrInvalidChainId
  else
    h ← signer_Hash s tx;
    recoverPlain h (R (tx_data tx)) (S_ (tx_data tx)) (V (tx_data tx) - chainIdMul s - 8).

(** R, S and V *)
Definition SignatureValues (s : BasicSigner) (sig : bytes) : outcome (Z * Z * Z) :=
  if bool_decide (length sig ≠ 65%nat) then Panic "wrong size for signature"
  else
    v ← index sig 64;
    Ret (be_val (take 32 sig), be_val (take 32 (drop 32 sig)),
         if bool_decide (chainId s ≠ 0) then (v + 35) mod 256 + chainIdMul s else be_val [(v + 27) mod 256]).

(** ** Operations on a transaction *)
Definition Hash : M Transaction bytes :=
  tx ← get;
  match tx_hash tx with
  | Some h => mret h
  | None => v ← lift (RlpHash (txdata_gval (tx_data tx))); modify (set_hash v) ;; mret v
  end.

(** The counter has counted what was written, also when the encoder failed. *)
Definition Size : M Transaction Z :=
  tx ← get;
  match tx_size tx with
  | Some n => mret n
  | None =>
    r ← try (lift (Encode (txdata_gval (tx_data tx)) []));
    let c := match r with inr b => len b | inl _ => 0 end in
    modify (set_size c) ;; mret c
  end.

Definition Sender (signer : BasicSigner) : M Transaction bytes :=
  tx ← get;
  let derive :=
    addr ← lift (signer_Sender signer tx);
    modify (set_from (signer, addr)) ;; mret addr in
  match tx_from tx with
  | Some (s, a) => if Equal s signer then mret a else derive
  | None => derive
  end.

Definition AsMessage (s : BasicSigner) : M Transaction Message :=
  tx ← get;
  let d := tx_data tx in
  from ← Sender s;
  mret (mkMessage (Recipient d) from (AccountNonce d) (Amount d) (Price d) (GasLimit d) (Payload d) true).

Definition WithSignature (signer : BasicSigner) (sig : bytes) (tx : Transaction) : outcome Transaction :=
  '(r, s, v) ← SignatureValues signer sig;
  let d := tx_data tx in
  Ret (new_tx (mkData (AccountNonce d) (Price d) (GasLimit d) (Recipient d) (Amount d) (Payload d) v r s)).

Definition SignTx (tx : Transaction) (s : BasicSigner) (prv : PrivateKey) : outcome Transaction :=
  h ← signer_Hash s tx;
  sig ← SignHash h prv;
  WithSignature s sig tx.

Definition Cost (tx : Transaction) : Z := Price (tx_data tx) * GasLimit (tx_data tx) + Amount (tx_data tx).
End Signer.
