(* ===== verification/TransactionsProps.v ===== *)
(** What [types/transaction.go] and [types/signer.go] promise: transactions survive the wire, a
    signed transaction names its signer wherever it is received, and the hash that is signed
    commits to the contents. *)
From S2P Require Import Prelude Bytes HexKeys Rlp RlpRaw RlpStream RlpReader RlpDecode RlpOptional TrieNode State Transition Transactions.
Open Scope Z_scope.

(** ** Transactions and their encodings *)
Definition recipient_ok (a : option bytes) : Prop := match a with Some a => is_bytes a ∧ length a = 20%nat | None => True end.

Record tx_ok (d : txdata) : Prop := {
  ok_nonce : 0 ≤ AccountNonce d < 2 ^ 64;
  ok_price : 0 ≤ Price d;
  ok_gas : 0 ≤ GasLimit d;
  ok_recipient : recipient_ok (Recipient d);
  ok_amount : 0 ≤ Amount d;
  ok_payload : is_bytes (Payload d);
  ok_v : 0 ≤ V d;
  ok_r : 0 ≤ R d;
  ok_s : 0 ≤ S_ d }.

(** The same transaction with its missing recipient written as an empty list. *)
Definition list_nil_gval (d : txdata) : gval :=
  GStruct [GUint (AccountNonce d); GBigInt (Some (Price d)); GBigInt (Some (GasLimit d)); GNilList;
           GBigInt (Some (Amount d)); GBytes (Payload d); GBigInt (Some (V d)); GBigInt (Some (R d)); GBigInt (Some (S_ d))].

(** [p] is read as the transaction [d]. *)
Definition reads (d : txdata) (p : bytes) : Prop :=
  tx_ok d ∧ (encoding (txdata_gval d) p ∨ Recipient d = None ∧ encoding (list_nil_gval d) p).

Lemma txdata_of_gval d : txdata_of (txdata_gval d) = Some d.
Proof. by destruct d as [? ? ? [] ? ? ? ? ?]. Qed.

Definition tx_fields : list (gval → bytes → Prop) :=
  [typed (TUint 64); typed TBigInt; typed TBigInt; optional (TByteArray 20); typed TBigInt; typed TBytes;
   typed TBigInt; typed TBigInt; typed TBigInt].

Lemma typed_uint v p : typed (TUint 64) v p → ∃ n, v = GUint n ∧ 0 ≤ n < 2 ^ 64 ∧ encoding v p.
Proof. intros [Hv He]. destruct v; try done. by eexists. Qed.
Lemma typed_bigint v p : typed TBigInt v p → ∃ n, v = GBigInt (Some n) ∧ 0 ≤ n ∧ encoding v p.
Proof. intros [Hv He]. destruct v as [| | |[]| | | | | | | |]; try done. by eexists. Qed.
Lemma typed_bytes v p : typed TBytes v p → ∃ b, v = GBytes b ∧ is_bytes b ∧ encoding v p.
Proof. intros [Hv He]. destruct v; try done. by eexists. Qed.

Lemma optional_recipient v p :
  optional (TByteArray 20) v p →
  ∃ a, v = recipient_gval a ∧ recipient_ok a ∧ (encoding v p ∨ a = None ∧ encoding GNilList p).
Proof.
  intros [[Hv He]|[-> [->| ->]]].
  - destruct v; try done. exists (Some b). split; [done|]. split; [exact Hv|by left].
  - exists None. split; [done|]. split; [done|]. left. by apply (encoding_one _ (RStr [])).
  - exists None. split; [done|]. split; [done|]. right. split; [done|]. by apply (encoding_one _ (RList [])).
Qed.

Lemma recipient_optional a p :
  recipient_ok a → encoding (recipient_gval a) p ∨ a = None ∧ encoding GNilList p → optional (TByteArray 20) (recipient_gval a) p.
Proof.
  intros Ha [He|[-> He]].
  - destruct a as [a|]; [by left|]. right. split; [done|]. left. by apply (encoding_one _ (RStr [])) in He as ->.
  - right. split; [done|]. right. by apply (encoding_one _ (RList [])) in He as ->.
Qed.

Lemma reads_fields v p :
  (∃ vs, GStruct vs = v ∧ G_list (G_fields tx_fields) vs p) ↔ ∃ d, v = txdata_gval d ∧ reads d p.
Proof.
  split.
  - intros (vs & <- & q & Hq & ->). unfold tx_fields in Hq. cbn [G_fields] in Hq.
    destruct Hq as (v1 & vs1 & p1 & q1 & -> & -> & H1 & v2 & vs2 & p2 & q2 & -> & -> & H2 & v3 & vs3 & p3 & q3 & -> & -> & H3 &
      v4 & vs4 & p4 & q4 & -> & -> & H4 & v5 & vs5 & p5 & q5 & -> & -> & H5 & v6 & vs6 & p6 & q6 & -> & -> & H6 &
      v7 & vs7 & p7 & q7 & -> & -> & H7 & v8 & vs8 & p8 & q8 & -> & -> & H8 & v9 & vs9 & p9 & q9 & -> & -> & H9 & -> & ->).
    destruct (typed_uint _ _ H1) as (n & -> & Hn & E1), (typed_bigint _ _ H2) as (x2 & -> & ? & E2), (typed_bigint _ _ H3) as (x3 & -> & ? & E3),
      (optional_recipient _ _ H4) as (a & -> & Ha & Hea), (typed_bigint _ _ H5) as (x5 & -> & ? & E5), (typed_bytes _ _ H6) as (b & -> & Hb & E6),
      (typed_bigint _ _ H7) as (x7 & -> & ? & E7), (typed_bigint _ _ H8) as (x8 & -> & ? & E8), (typed_bigint _ _ H9) as (x9 & -> & ? & E9).
    exists (mkData n x2 x3 a x5 b x7 x8 x9). split; [done|]. split; [by split|].
    destruct Hea as [Hea|[-> Hea]]; [left|right; split; [done|]]; (eapply encoding_list; [by right|]);
      eexists; (split; [done|]); exists [p1; p2; p3; p4; p5; p6; p7; p8; p9];
      (split; [repeat (apply Forall2_cons_2; [assumption|]); apply Forall2_nil_2|done]).
  - intros (d & -> & Hok & He). eexists. split; [reflexivity|].
    assert (∃ p1 p2 p3 p4 p5 p6 p7 p8 p9, p = header List_ (len (p1 ++ p2 ++ p3 ++ p4 ++ p5 ++ p6 ++ p7 ++ p8 ++ p9 ++ [])) ++
        p1 ++ p2 ++ p3 ++ p4 ++ p5 ++ p6 ++ p7 ++ p8 ++ p9 ++ [] ∧
      encoding (GUint (AccountNonce d)) p1 ∧ encoding (GBigInt (Some (Price d))) p2 ∧ encoding (GBigInt (Some (GasLimit d))) p3 ∧
      (encoding (recipient_gval (Recipient d)) p4 ∨ Recipient d = None ∧ encoding GNilList p4) ∧
      encoding (GBigInt (Some (Amount d))) p5 ∧ encoding (GBytes (Payload d)) p6 ∧ encoding (GBigInt (Some (V d))) p7 ∧
      encoding (GBigInt (Some (R d))) p8 ∧ encoding (GBigInt (Some (S_ d))) p9) as (p1 & p2 & p3 & p4 & p5 & p6 & p7 & p8 & p9 & -> & E1 & E2 & E3 & E4 & E5 & E6 & E7 & E8 & E9).
    { destruct He as [He|[Hn He]]; (apply encoding_list in He as (q & -> & ps & Hps & ->); [|by right]);
        repeat (apply Forall2_cons_inv_l in Hps as (? & ? & ? & Hps & ->)); apply Forall2_nil_inv_l in Hps as ->;
        do 9 eexists; (split; [reflexivity|]); split_and!; try eassumption; [by left|by right]. }
    destruct Hok. eexists. split; [|reflexivity]. unfold tx_fields. cbn [G_fields].
    do 9 (do 4 eexists; split; [reflexivity|]; split; [reflexivity|]; split; [first [by apply recipient_optional|by split]|]). done.
Qed.

Lemma DecodeRLP_with_size N : DecodeRLP N = with_size (Decode N txdata_type)
  (λ n v, match txdata_of v with Some d => mret (set_size (ListSize n) (new_tx d)) | None => panic "reflect" end).
Proof. done. Qed.

Lemma txdata_decoder N fuel : inverts N (Decode fuel txdata_type) (λ v p, ∃ d, v = txdata_gval d ∧ reads d p).
Proof.
  assert (Forall2 (λ f G, inverts N f.2 G) (map (λ f, (f.1, makeDecoder fuel f.2))
    [("AccountNonce", TUint 64); ("Price", TBigInt); ("GasLimit", TBigInt); ("Recipient", TOptPtr (TByteArray 20));
     ("Amount", TBigInt); ("Payload", TBytes); ("V", TBigInt); ("R", TBigInt); ("S", TBigInt)]) tx_fields) as Hfs.
  { repeat (apply Forall2_cons_2; [cbn [fst snd map makeDecoder]|]); try apply Forall2_nil_2; try apply bigint_decoder;
      [apply uint_decoder; by do 3 right; left|apply optional_array; lia|].
    apply bytes_decoder; [done|]. intros v. split; [destruct v; try done; by eauto|by intros (b & -> & Hb')]. }
  refine (inverts_ext N _ _ _ _ (λ s, eq_refl) reads_fields (struct_inverts N _ _ Hfs)).
Qed.

Lemma reads_list d p : reads d p → ∃ q, p = header List_ (len q) ++ q.
Proof. intros [_ [He|[_ He]]]; (apply encoding_list in He as (q & -> & _); [by exists q|by right]). Qed.

Lemma transaction_decoder N fuel :
  inverts N (DecodeRLP fuel) (λ tx p, ∃ d, reads d p ∧ ∃ q, p = header List_ (len q) ++ q ∧ tx = set_size (ListSize (len q)) (new_tx d)).
Proof.
  rewrite DecodeRLP_with_size.
  refine (inverts_ext N _ _ _ _ (λ s, eq_refl) _ (sized_decoder N _ _ _
    (λ n v, match txdata_of v with Some d => set_size (ListSize n) (new_tx d) | None => new_tx (mkData 0 0 0 None 0 [] 0 0 0) end)
    (txdata_decoder N fuel) (peeks_struct _) (kind_first_struct _) _)).
  - intros tx p. split.
    + intros (v & q & -> & (d & -> & Hd) & Hq). exists d. split; [done|]. exists q. by rewrite txdata_of_gval.
    + intros (d & Hd & q & Hq & ->). exists (txdata_gval d), q. rewrite txdata_of_gval. split; [done|]. split; [by exists d|done].
  - intros v p (d & -> & Hd). split; [by eapply reads_list|]. intros n s. by rewrite txdata_of_gval.
Qed.

(** ** What is written is read back *)
Lemma writable_uint i : 0 ≤ i < 2 ^ 64 → writable (GUint i).
Proof. intros Hi. apply (writable_str _ (big_Bytes i)); [done|done|]. apply big_Bytes_ok. lia. Qed.

Lemma writable_bigint i : 0 ≤ i → writable (GBigInt (Some i)).
Proof.
  intros Hi. apply (writable_str _ (big_Bytes i)); [done| |by apply big_Bytes_ok]. cbn [shape]. by rewrite bool_decide_eq_false_2 by lia.
Qed.

Lemma writable_recipient a : recipient_ok a → writable (recipient_gval a).
Proof. destruct a as [a|]; intros Ha; [apply (writable_str _ a); [done|done|apply Ha]|apply (writable_str _ []); [done|done|constructor]]. Qed.

Lemma writable_txdata d : tx_ok d → writable (txdata_gval d) ∧ writable (list_nil_gval d).
Proof.
  intros []. split; apply writable_list; repeat apply Forall_cons_2;
    auto using writable_uint, writable_bigint, writable_recipient, Forall_nil_2; try (by apply (writable_str _ (Payload d))).
  split; [done|]. exists [192]. split; [by apply (encoding_one _ (RList []))|by repeat constructor].
Qed.

Lemma writable_written v : writable v → gval_ok v ∧ encoding v (written v) ∧ is_bytes (written v).
Proof. intros (Hok & p & He & Hb). by rewrite <-(encoding_written _ _ He). Qed.

Lemma Encode_written v out : writable v → len (written v) < 2 ^ 64 → Encode v out = Ret (out ++ written v).
Proof.
  intros Hw Hl. destruct (writable_written v Hw) as (Hok & (rs & Hs & He) & _). rewrite He in *. by apply Encode_enc.
Qed.

Lemma EncodeToBytes_written v : writable v → len (written v) < 2 ^ 64 → EncodeToBytes v = Ret (written v).
Proof. intros Hw Hl. destruct (writable_written v Hw) as (Hok & He & _). by apply EncodeToBytes_encoding. Qed.

Lemma reads_written d : tx_ok d → reads d (written (txdata_gval d)).
Proof. intros Hd. split; [done|]. left. by apply writable_written, writable_txdata. Qed.

Lemma ListSize_header q : len q < 2 ^ 64 → ListSize (len q) = len (header List_ (len q) ++ q).
Proof. intros Hq. pose proof (len_nonneg q). unfold ListSize. rewrite len_app. cbn [header]. by rewrite len_puthead by lia. Qed.

(** The two forms of the input, and no other, are decoded. *)
Lemma decode_transaction b :
  is_bytes b → len b < 2 ^ 63 →
  let dec := DecodeRLP (S (S (length b))) in
  match DecodeWhole b dec with
  | Ret tx => reads (tx_data tx) b ∧ tx = set_size (len b) (new_tx (tx_data tx))
  | Fail _ => True | _ => False
  end ∧
  ∀ d, reads d b → DecodeWhole b dec = Ret (set_size (len b) (new_tx d)).
Proof.
  intros Hb Hl dec. destruct (DecodeWhole_spec (S (S (length b))) b dec _ (transaction_decoder _ _) Hb Hl ltac:(lia)) as [Hd Hc].
  split.
  - destruct (DecodeWhole b dec) as [tx| | |]; try done. destruct Hd as (d & Hd & q & -> & ->). rewrite len_app in Hl.
    pose proof (len_nonneg (header List_ (len q))). rewrite ListSize_header by lia. by split.
  - intros d Hr. destruct (reads_list d b Hr) as [q Hq]. rewrite (Hc (set_size (ListSize (len q)) (new_tx d))).
    + rewrite Hq, len_app in Hl. pose proof (len_nonneg (header List_ (len q))). rewrite ListSize_header by lia. by rewrite <-Hq.
    + exists d. split; [done|]. by exists q.
Qed.

Lemma reads_inj d1 d2 b : len b < 2 ^ 63 → reads d1 b → reads d2 b → d1 = d2.
Proof.
  intros Hl H1 H2. assert (is_bytes b) as Hb.
  { destruct H1 as [Hok [He|[_ He]]]; rewrite (encoding_written _ _ He); apply writable_written, writable_txdata, Hok. }
  destruct (decode_transaction b Hb Hl) as [_ Hd]. pose proof (Hd d1 H1) as E1. rewrite (Hd d2 H2) in E1. by injection E1.
Qed.

(** C28: transactions on the wire.  On any bytes, fewer than [2^63], the decoder returns; a
    transaction it accepts is well formed, has empty caches but for the size of the input, and encodes back to
    the input, with one exception: a missing recipient is also accepted as an empty list.  Every
    transaction is encoded to bytes that are decoded to it again, so two transactions never have
    the same encoding. *)
Theorem transaction_wire_round_trip b :
  is_bytes b → len b < 2 ^ 63 →
  match DecodeWhole b (DecodeRLP (S (S (length b)))) with
  | Ret tx => tx_ok (tx_data tx) ∧ tx = set_size (len b) (new_tx (tx_data tx)) ∧
              (EncodeRLP tx [] = Ret b ∨ Recipient (tx_data tx) = None ∧ Encode (list_nil_gval (tx_data tx)) [] = Ret b)
  | Fail _ => True
  | Panic _ | OutOfFuel => False
  end ∧
  (∀ d, tx_ok d → b = written (txdata_gval d) →
     EncodeRLP (new_tx d) [] = Ret b ∧ DecodeWhole b (DecodeRLP (S (S (length b)))) = Ret (set_size (len b) (new_tx d))) ∧
  (∀ d1 d2, tx_ok d1 → tx_ok d2 → b = written (txdata_gval d1) → b = written (txdata_gval d2) → d1 = d2).
Proof.
  intros Hb Hl. destruct (decode_transaction b Hb Hl) as [Hd Hc]. split; [|split].
  - destruct (DecodeWhole b _) as [tx| | |]; try done. destruct Hd as [[Hok He] Htx]. split; [done|]. split; [done|].
    destruct (writable_txdata _ Hok) as [Hw1 Hw2]. unfold EncodeRLP.
    destruct He as [He|[Hn He]]; [left|right; split; [done|]]; rewrite (encoding_written _ _ He) in Hl |- *; apply Encode_written; (done || lia).
  - intros d Hok ->. split; [apply (Encode_written (txdata_gval d) []); [by apply writable_txdata|lia]|]. by apply Hc, reads_written.
  - intros d1 d2 H1 H2 Hb1 Hb2. apply (reads_inj d1 d2 b Hl); [rewrite Hb1|rewrite Hb2]; by apply reads_written.
Qed.

Definition example_tx : txdata :=
  mkData 9 20000000000 21000 (Some (replicate 20 53)) 1000000000000000000 [] 37
    0x28EF61340BD939BC2195FE537567866003E1A15D3C71FF63E1590620AA636276 0x67CBE9D8997F761AECB703304B3800CCF555C9F3DC64214B297FB1966A3B6D83.

Lemma transaction_wire_round_trip_witness :
  EncodeRLP (new_tx example_tx) [] = Ret (written (txdata_gval example_tx)) ∧
  DecodeWhole (written (txdata_gval example_tx)) (DecodeRLP (S (S (length (written (txdata_gval example_tx))))))
    = Ret (set_size 110 (new_tx example_tx)).
Proof.
  destruct (transaction_wire_round_trip (written (txdata_gval example_tx))) as (_ & H & _);
    [unfold is_bytes, is_byte; decided|vm_compute; reflexivity|].
  assert (len (written (txdata_gval example_tx)) = 110) as Hn by (vm_compute; reflexivity). rewrite Hn in H.
  apply H; [|reflexivity]. split; (decided || constructor).
Defined.

(** ** Signing and recovering *)
Lemma padded_big x : 0 ≤ x < 2 ^ 256 → padded (big_Bytes x) = Ret (be_bytes 32 x).
Proof.
  intros Hx. destruct (big_Bytes_ok x ltac:(lia)) as (Hb & Hv & _ & Hl).
  assert (len (big_Bytes x) ≤ 32) as Hlen by (apply Hl; [lia|]; change (256 ^ 32) with (2 ^ 256); lia).
  unfold padded, len in *. rewrite bool_decide_eq_false_2 by lia. f_equal.
  assert (is_bytes (replicate (32 - length (big_Bytes x)) 0 ++ big_Bytes x)) as Hp
    by (apply Forall_app; split; [by apply Forall_replicate|done]).
  rewrite <-(be_bytes_val _ Hp), be_val_zeros, Hv. f_equal. rewrite length_app, length_replicate. lia.
Qed.

Lemma be_val_be32 x : 0 ≤ x < 2 ^ 256 → be_val (be_bytes 32 x) = x.
Proof. intros Hx. rewrite be_val_bytes by lia. change (256 ^ Z.of_nat 32) with (2 ^ 256). apply Z.mod_small. lia. Qed.

Lemma BitLen_le x n : 0 ≤ n → 0 ≤ x < 2 ^ n → BitLen x ≤ n.
Proof.
  intros Hn Hx. unfold BitLen. case_bool_decide; [lia|]. rewrite Z.abs_eq by lia. assert (Z.log2 x < n) by (apply Z.log2_lt_pow2; lia). lia.
Qed.

Section Signing.
Context (keccak : bytes → bytes) {PrivateKey PublicKey : Type} `{CurveLaws PrivateKey PublicKey}.
Hypothesis keccak_length : ∀ b, length (keccak b) = 32%nat.
Let signer := NewBasicSigner.

(** The transaction that is signed: the chain stands in the place of the signature. *)
Definition unsigned (s : BasicSigner) (d : txdata) : txdata :=
  mkData (AccountNonce d) (Price d) (GasLimit d) (Recipient d) (Amount d) (Payload d) (chainId s) 0 0.

Definition signed (d : txdata) (v r s : Z) : txdata :=
  mkData (AccountNonce d) (Price d) (GasLimit d) (Recipient d) (Amount d) (Payload d) v r s.

Lemma unsigned_ok s d : 0 ≤ chainId s → tx_ok d → tx_ok (unsigned s d).
Proof. intros Hs []. by split. Qed.

Lemma signed_ok d v r s : tx_ok d → 0 ≤ v → 0 ≤ r → 0 ≤ s → tx_ok (signed d v r s).
Proof. intros [] ? ? ?. by split. Qed.

Lemma signed_shape s d : shape (signed_gval s d) = shape (txdata_gval (unsigned s d)).
Proof. done. Qed.

Lemma signed_written s d : written (signed_gval s d) = written (txdata_gval (unsigned s d)).
Proof. unfold written. by rewrite signed_shape. Qed.

Lemma signed_writable s d : 0 ≤ chainId s → tx_ok d → writable (signed_gval s d).
Proof.
  intros Hs Hd. destruct (writable_txdata _ (unsigned_ok s d Hs Hd)) as [[Hok (p & He & Hb)] _]. split.
  - destruct Hd as [Hn _ _ _ _ _ _ _ _]. cbn. destruct (Recipient d); repeat split; lia.
  - exists p. split; [|done]. unfold encoding in *. by rewrite signed_shape.
Qed.

Lemma signer_Hash_written s tx :
  0 ≤ chainId s → tx_ok (tx_data tx) → len (written (signed_gval s (tx_data tx))) < 2 ^ 64 →
  signer_Hash keccak s tx = Ret (keccak (written (txdata_gval (unsigned s (tx_data tx))))).
Proof.
  intros Hs Hd Hl. unfold signer_Hash, RlpHash. rewrite (Encode_written _ [] (signed_writable _ _ Hs Hd) Hl).
  cbn [app]. by rewrite signed_written.
Qed.

Lemma Ecrecover_compact code r s h xy :
  0 ≤ code < 2 → RecoverCompact (27 + code :: be_bytes 32 r ++ be_bytes 32 s) h = Ret xy →
  Ecrecover h (be_bytes 32 r ++ be_bytes 32 s ++ [code]) = Ret (SerializeUncompressed xy).
Proof.
  intros Hc Hr. unfold Ecrecover, SigToPub.
  assert (index (be_bytes 32 r ++ be_bytes 32 s ++ [code]) 64 = Ret code) as ->.
  { apply index_Some; [lia|]. rewrite lookup_app_r, lookup_app_r; rewrite !length_be_bytes; (done || lia). }
  assert (take 64 (be_bytes 32 r ++ be_bytes 32 s ++ [code]) = be_bytes 32 r ++ be_bytes 32 s) as Ht.
  { rewrite app_assoc. apply take_app_length'. by rewrite length_app, !length_be_bytes. }
  cbn [mbind outcome_bind]. rewrite Ht. replace ((code + 27) mod 256) with (27 + code) by (rewrite Z.mod_small; lia).
  by rewrite Hr.
Qed.

Lemma SignHash_compact code r s h prv :
  on_curve prv = true → length h = 32%nat → 0 ≤ code < 4 →
  SignCompact prv h = Ret (27 + code :: be_bytes 32 r ++ be_bytes 32 s) →
  SignHash h prv = Ret (be_bytes 32 r ++ be_bytes 32 s ++ [code]).
Proof.
  intros Hon Hh Hc Hs. unfold SignHash. rewrite bool_decide_eq_false_2 by lia. rewrite Hon, Hs. cbn [negb mbind outcome_bind index].
  set (b := be_bytes 32 r ++ be_bytes 32 s). assert (length b = 64%nat) as Hb by (unfold b; by rewrite length_app, !length_be_bytes).
  change (index (27 + code :: b) 0) with (Ret (27 + code)). cbn [mbind outcome_bind drop]. rewrite (app_assoc (be_bytes 32 r)). fold b.
  assert (∃ z, drop (length (27 + code :: b) - 1) (27 + code :: b) = [z]) as [z ->].
  { cbn [length]. rewrite Hb. replace (S 64 - 1)%nat with 64%nat by lia. cbn [drop].
    destruct (drop 63 b) as [|z [|y l]] eqn:E; apply (f_equal length) in E; rewrite length_drop, Hb in E; cbn in E; try lia. by exists z. }
  change (drop 0 b) with b. rewrite set_index_Ret by (rewrite length_app, Hb; cbn; lia). replace ((27 + code - 27) mod 256) with code by (rewrite Z.mod_small; lia).
  rewrite insert_app_r_alt by (rewrite Hb; lia). rewrite Hb. done.
Qed.

Lemma SignatureValues_compact code r s :
  0 ≤ code < 4 → 0 ≤ r < 2 ^ 256 → 0 ≤ s < 2 ^ 256 →
  SignatureValues signer (be_bytes 32 r ++ be_bytes 32 s ++ [code]) = Ret (r, s, 37 + code).
Proof.
  intros Hc Hr Hs. unfold SignatureValues. rewrite bool_decide_eq_false_2 by (rewrite !length_app, !length_be_bytes; cbn; lia).
  assert (index (be_bytes 32 r ++ be_bytes 32 s ++ [code]) 64 = Ret code) as ->.
  { apply index_Some; [lia|]. rewrite lookup_app_r, lookup_app_r; rewrite !length_be_bytes; (done || lia). }
  cbn [mbind outcome_bind]. rewrite take_app_length' by (by rewrite length_be_bytes). rewrite drop_app_length' by (by rewrite length_be_bytes).
  rewrite take_app_length' by (by rewrite length_be_bytes). rewrite !be_val_be32 by done.
  rewrite Z.mod_small by lia. change (chainIdMul signer) with 2. change (chainId signer) with 1. rewrite bool_decide_eq_true_2 by lia. do 2 f_equal. lia.
Qed.

Lemma N_width : secp256k1_N < 2 ^ 256 ∧ secp256k1_halfN < secp256k1_N.
Proof. split; vm_compute; reflexivity. Qed.

(** The chain that a signature of this signer names. *)
Lemma ChainId_signed d code r s :
  0 ≤ code < 4 → ChainId (new_tx (signed d (37 + code) r s)) = if bool_decide (code < 2) then 1 else 2.
Proof.
  intros Hc. unfold ChainId. cbn. assert (code = 0 ∨ code = 1 ∨ code = 2 ∨ code = 3) as [->|[->|[->| ->]]] by lia; vm_compute; reflexivity.
Qed.

Lemma recoverPlain_compact code r s h pub :
  0 ≤ code < 2 → 0 < r < secp256k1_N → 0 < s ≤ secp256k1_halfN →
  RecoverCompact (27 + code :: be_bytes 32 r ++ be_bytes 32 s) h = Ret pub →
  recoverPlain keccak h r s (27 + code) = Ret (PubkeyToAddress keccak pub).
Proof.
  intros Hc Hr Hs Hrec. pose proof N_width as [H256 Hhalf]. unfold recoverPlain.
  assert (BitLen (27 + code) ≤ 8) by (apply BitLen_le; lia). rewrite bool_decide_eq_false_2 by lia.
  assert ((Uint64 (27 + code) - 27) mod 256 = code) as ->.
  { unfold Uint64. rewrite Z.abs_eq, (Z.mod_small (27 + code)) by lia. rewrite Z.mod_small; lia. }
  assert (ValidateSignatureValues code r s = true) as ->.
  { unfold ValidateSignatureValues. rewrite !bool_decide_eq_false_2 by lia. rewrite !bool_decide_eq_true_2 by lia. done. }
  cbn [negb]. rewrite !Z.abs_eq by lia. rewrite !padded_big by lia. cbn [mbind outcome_bind].
  rewrite (Ecrecover_compact code r s h pub Hc Hrec). cbn [mbind outcome_bind]. unfold PubkeyToAddress.
  destruct (serialize_law pub) as [xy ->]. cbn [drop]. f_equal. apply take_ge. rewrite length_drop, keccak_length. lia.
Qed.

Lemma Sender_fresh s tx :
  tx_from tx = None →
  Sender keccak s tx = match signer_Sender keccak s tx with
                       | Ret a => (Ret a, set_from (s, a) tx)
                       | Fail e => (Fail e, tx) | Panic w => (Panic w, tx) | OutOfFuel => (OutOfFuel, tx)
                       end.
Proof.
  intros Hf. unfold Sender, get, lift, modify, mbind, M_bind, mret, M_ret. rewrite Hf. by destruct (signer_Sender keccak s tx).
Qed.

(** Of a transaction with the signature, whatever caches it has filled but that of the sender. *)
Lemma Sender_signed d code r s pub tx :
  tx_ok d → 0 ≤ code < 4 → 0 < r < secp256k1_N → 0 < s ≤ secp256k1_halfN →
  len (written (signed_gval signer d)) < 2 ^ 64 →
  RecoverCompact (27 + code :: be_bytes 32 r ++ be_bytes 32 s) (keccak (written (txdata_gval (unsigned signer d)))) = Ret pub →
  tx_data tx = signed d (37 + code) r s → tx_from tx = None →
  Sender keccak signer tx =
    if bool_decide (code < 2) then (Ret (PubkeyToAddress keccak pub), set_from (signer, PubkeyToAddress keccak pub) tx)
    else (Fail ErrInvalidChainId, tx).
Proof.
  intros Hd Hc Hr Hs Hl Hrec Htx Hfrom. rewrite Sender_fresh by done. unfold signer_Sender.
  pose proof (ChainId_signed d code r s Hc) as Hch. unfold ChainId in *. cbn [new_tx tx_data] in Hch. rewrite Htx, Hch.
  case_bool_decide as Hlow; [|done]. rewrite bool_decide_eq_false_2 by (by intros ?).
  assert (signer_Hash keccak signer tx = Ret (keccak (written (txdata_gval (unsigned signer d))))) as ->.
  { rewrite signer_Hash_written; rewrite ?Htx; [done|done|apply signed_ok; (done || lia)|exact Hl]. }
  cbn [mbind outcome_bind signed V R S_]. replace (37 + code - chainIdMul signer - 8) with (27 + code) by (cbn; lia).
  by rewrite (recoverPlain_compact code r s _ pub ltac:(lia) Hr Hs Hrec).
Qed.

Lemma Sender_cached tx a : tx_from tx = Some (signer, a) → Sender keccak signer tx = (Ret a, tx).
Proof. intros Hf. unfold Sender, get, mbind, M_bind. by rewrite Hf. Qed.

Definition message_of (d : txdata) (a : bytes) : Message :=
  mkMessage (Recipient d) a (AccountNonce d) (Amount d) (Price d) (GasLimit d) (Payload d) true.

(** C29: signing and recovering.  [SignTx] returns a transaction with the same contents and a
    signature for the chain of the signer.  When the recovery code is 0 or 1, as it is unless [r]
    overflows the order of the curve, whoever decodes the encoded transaction gets the message
    with the address of the signing key as its sender, at the first call and from the cache; with
    any other code the transaction is refused as one of another chain.  The hash that is signed
    commits to the contents: two transactions that share it are equal but for their signatures,
    unless their encodings are a collision of the hash function. *)
Theorem signed_transaction_names_its_signer d prv :
  tx_ok d → on_curve prv = true → len (written (signed_gval signer d)) < 2 ^ 63 →
  (∃ code r s, 0 ≤ code < 4 ∧
    let d' := signed d (37 + code) r s in
    let b := written (txdata_gval d') in
    SignTx keccak (new_tx d) signer prv = Ret (new_tx d') ∧ Protected (new_tx d') = true ∧
    (len b < 2 ^ 63 →
     EncodeRLP (new_tx d') [] = Ret b ∧
     ∃ tx, DecodeWhole b (DecodeRLP (S (S (length b)))) = Ret tx ∧
       if bool_decide (code < 2) then
         ∃ tx1, let m := message_of d (PubkeyToAddress keccak (public prv)) in
           AsMessage keccak signer tx = (Ret m, tx1) ∧ AsMessage keccak signer tx1 = (Ret m, tx1)
       else AsMessage keccak signer tx = (Fail ErrInvalidChainId, tx))) ∧
  (∀ d2, tx_ok d2 → len (written (signed_gval signer d2)) < 2 ^ 63 →
     signer_Hash keccak signer (new_tx d2) = signer_Hash keccak signer (new_tx d) →
     (keccak (written (signed_gval signer d2)) = keccak (written (signed_gval signer d)) →
      written (signed_gval signer d2) = written (signed_gval signer d)) →
     signed d2 (V d) (R d) (S_ d) = d).
Proof.
  intros Hd Hon Hl. split.
  - set (h := keccak (written (txdata_gval (unsigned signer d)))).
    destruct (sign_law prv h Hon (keccak_length _)) as (code & r & s & Hc & Hr & Hs & Hsign & Hrec). pose proof N_width as [H256 Hhalf].
    exists code, r, s. split; [done|]. cbv zeta. split; [|split].
    + unfold SignTx. rewrite signer_Hash_written; [|done|done|cbn [tx_data new_tx]; lia]. cbn [mbind outcome_bind tx_data new_tx]. fold h.
      rewrite (SignHash_compact code r s h prv Hon (keccak_length _) Hc Hsign). cbn [mbind outcome_bind].
      unfold WithSignature. rewrite SignatureValues_compact by lia. done.
    + unfold Protected, isProtectedV. cbn [tx_data new_tx signed V]. case_bool_decide; [|done].
      unfold Uint64. rewrite Z.abs_eq, Z.mod_small by lia. by rewrite bool_decide_eq_false_2 by lia.
    + intros Hlb. assert (tx_ok (signed d (37 + code) r s)) as Hd' by (apply signed_ok; (done || lia)).
      split; [apply (Encode_written (txdata_gval (signed d (37 + code) r s)) []); [by apply writable_txdata|lia]|].
      pose proof (proj2 (decode_transaction _ (proj2 (proj2 (writable_written _ (proj1 (writable_txdata _ Hd'))))) Hlb) _ (reads_written _ Hd')) as Hdec.
      eexists. split; [exact Hdec|]. unfold AsMessage, get, mbind, M_bind.
      rewrite (Sender_signed d code r s (public prv) (set_size (len (written (txdata_gval (signed d (37 + code) r s)))) (new_tx (signed d (37 + code) r s))) Hd Hc Hr Hs ltac:(lia) Hrec eq_refl eq_refl).
      case_bool_decide; [|done]. eexists. split; [reflexivity|]. by erewrite Sender_cached by reflexivity.
  - intros d2 Hd2 Hl2 Heq Hcol. rewrite !signed_written in *.
    rewrite !signer_Hash_written in Heq; rewrite ?signed_written; try (done || (cbn [tx_data new_tx]; lia)).
    injection Heq as Heq. specialize (Hcol Heq).
    assert (unsigned signer d2 = unsigned signer d) as Hu.
    { apply (reads_inj _ _ (written (txdata_gval (unsigned signer d2)))); [done|by apply reads_written, unsigned_ok|].
      rewrite Hcol. by apply reads_written, unsigned_ok. }
    unfold unsigned, signed in *. destruct d, d2. cbn in *. congruence.
Qed.
End Signing.

(** A curve that meets the laws: a key is a small number, and a signature shows it. *)
Module ToyCurve.
#[export] Instance toy_curve : Curve Z Z := {|
  on_curve k := bool_decide (0 < k < 1000);
  public k := k;
  SignCompact k h := Ret (27 :: be_bytes 32 k ++ be_bytes 32 1);
  RecoverCompact sig h := Ret (be_val (take 32 (drop 1 sig)));
  SerializeUncompressed k := 4 :: be_bytes 64 k |}.

#[export] Instance toy_laws : CurveLaws Z Z.
Proof.
  split; [|intros p; by eexists].
  intros prv h Hon%bool_decide_eq_true _. exists 0, prv, 1.
  assert (1000 < secp256k1_N ∧ 1 < secp256k1_halfN) as [H1 H2] by (split; vm_compute; reflexivity).
  split; [lia|]. split; [lia|]. split; [lia|]. split; [reflexivity|].
  change (Ret (be_val (take 32 (be_bytes 32 prv ++ be_bytes 32 1))) = Ret prv). rewrite take_app_length' by (by rewrite length_be_bytes). rewrite be_val_be32 by lia. done.
Qed.

Definition toy_keccak (b : bytes) : bytes := be_bytes 32 (be_val b + 1).

Lemma signed_transaction_names_its_signer_witness :
  ∃ code r s, 0 ≤ code < 4 ∧
    SignTx toy_keccak (new_tx (signed example_tx 0 0 0)) NewBasicSigner 7 = Ret (new_tx (signed example_tx (37 + code) r s)).
Proof.
  destruct (signed_transaction_names_its_signer toy_keccak (λ b, length_be_bytes _ _) (signed example_tx 0 0 0) 7)
    as [(code & r & s & Hc & H & _) _]; [|decided|vm_compute; reflexivity|by exists code, r, s].
  split; (decided || constructor).
Defined.
End ToyCurve.
