(* ===== verification/PriceHeap.v ===== *)
(** The transaction lists of [types/transaction.go]: the standard library's [container/heap] on
    [TxByPrice], and [TransactionsByPriceAndNonce], which hands out the transactions of many
    accounts by price while keeping the order of each account. *)
From S2P Require Import Prelude Bytes HexKeys Rlp RlpStream State Transition Transactions.
Open Scope Z_scope.

(** ** [container/heap] *)
Section Heap.
Context {A : Type} (less : A → A → bool).
Implicit Types (l : list A) (i j n : nat).

(** [h.Less(i, j)] and [h.Swap(i, j)] of a slice *)
Definition Less l i j : outcome bool :=
  x ← index l (Z.of_nat i);
  y ← index l (Z.of_nat j);
  Ret (less x y).

Definition Swap l i j : outcome (list A) :=
  x ← index l (Z.of_nat i);
  y ← index l (Z.of_nat j);
  l1 ← set_index l (Z.of_nat i) y;
  set_index l1 (Z.of_nat j) x.

(** The fuel bounds the depth: every round at least doubles [i]. *)
Fixpoint down (fuel : nat) l i n : outcome (nat * list A) :=
  match fuel with
  | O => OutOfFuel
  | S f =>
    let j1 := (2 * i + 1)%nat in
    if bool_decide (n ≤ j1)%nat then Ret (i, l)
    else
      right ← (if bool_decide (j1 + 1 < n)%nat then Less l (j1 + 1) j1 else Ret false);
      let j := if right : bool then (j1 + 1)%nat else j1 in
      b ← Less l j i;
      if negb b then Ret (i, l) else l' ← Swap l i j; down f l' j n
  end.

(** [down(h, i0, n)] and whether it moved the element *)
Definition down_from l i0 n : outcome (bool * list A) :=
  '(i, l') ← down (S n) l i0 n;
  Ret (bool_decide (i0 < i)%nat, l').

Fixpoint up (fuel : nat) l j : outcome (list A) :=
  match fuel with
  | O => OutOfFuel
  | S f =>
    let i := ((j - 1) / 2)%nat in
    if bool_decide (i = j) then Ret l
    else
      b ← Less l j i;
      if negb b then Ret l else l' ← Swap l i j; up f l' i
  end.

(** [for i := k - 1; i >= 0; i-- { down(h, i, n) }] *)
Fixpoint heapify k l n : outcome (list A) :=
  match k with
  | O => Ret l
  | S i => '(_, l') ← down_from l i n; heapify i l' n
  end.

Definition heap_Init l : outcome (list A) := heapify (length l / 2) l (length l).

(** The element taken out, and the rest. *)
Definition heap_Pop l : outcome (A * list A) :=
  if bool_decide (l = []) then Panic "index out of range"
  else
    let n := (length l - 1)%nat in
    l1 ← Swap l 0 n;
    '(_, l2) ← down_from l1 0 n;
    x ← index l2 (Z.of_nat n);
    Ret (x, take n l2).

Definition heap_Fix l i : outcome (list A) :=
  '(moved, l') ← down_from l i (length l);
  if moved : bool then Ret l' else up (S i) l' i.
End Heap.

(** ** Transactions by price and nonce *)

(** [TxByPrice.Less] *)
Definition TxByPrice_Less (x y : Transaction) : bool := bool_decide (Price (tx_data x) > Price (tx_data y)).
(** [TxByNonce.Less] *)
Definition TxByNonce_Less (x y : Transaction) : bool := bool_decide (AccountNonce (tx_data x) < AccountNonce (tx_data y)).

Record TransactionsByPriceAndNonce := mkPriced {
  txs : gmap bytes (list Transaction); heads : list Transaction; signer : BasicSigner }.

Section Priced.
Context (keccak : bytes → bytes) {PrivateKey PublicKey : Type} `{Curve PrivateKey PublicKey} `{RangeOrder}.

(** [acc, _ := Sender(signer, tx)]: the zero address when there is an error; the transaction
    keeps what the call has cached. *)
Definition sender_or_zero (s : BasicSigner) (tx : Transaction) : outcome (bytes * Transaction) :=
  match Sender keccak s tx with
  | (Ret a, tx') => Ret (a, tx')
  | (Fail _, tx') => Ret (replicate 20 0, tx')
  | (Panic w, _) => Panic w
  | (OutOfFuel, _) => OutOfFuel
  end.

(** The loop over the accounts.  An entry is read when it is visited; an account that is added on
    the way is not visited. *)
Fixpoint collect (s : BasicSigner) (accs : list bytes) (m : gmap bytes (list Transaction)) (hs : list Transaction) :
    outcome (gmap bytes (list Transaction) * list Transaction) :=
  match accs with
  | [] => Ret (m, hs)
  | a :: accs' =>
    let accTxs := default [] (m !! a) in
    tx ← index accTxs 0;
    '(acc, tx') ← sender_or_zero s tx;
    rest ← slice_from accTxs 1;
    collect s accs' (<[acc := rest]> m) (hs ++ [tx'])
  end.

Definition NewTransactionsByPriceAndNonce (s : BasicSigner) (m : gmap bytes (list Transaction)) : outcome TransactionsByPriceAndNonce :=
  '(m', hs) ← collect s (map fst (range m)) m [];
  hs' ← heap_Init TxByPrice_Less hs;
  Ret (mkPriced m' hs' s).

Definition Peek (t : TransactionsByPriceAndNonce) : option Transaction := head (heads t).

Definition Shift (t : TransactionsByPriceAndNonce) : outcome TransactionsByPriceAndNonce :=
  h ← index (heads t) 0;
  '(acc, h') ← sender_or_zero (signer t) h;
  match txs t !! acc with
  | Some (x :: rest) =>
    hs ← set_index (heads t) 0 x;
    hs' ← heap_Fix TxByPrice_Less hs 0;
    Ret (mkPriced (<[acc := rest]> (txs t)) hs' (signer t))
  | _ =>
    hs ← set_index (heads t) 0 h';
    '(_, hs') ← heap_Pop TxByPrice_Less hs;
    Ret (mkPriced (txs t) hs' (signer t))
  end.

Definition Pop (t : TransactionsByPriceAndNonce) : outcome TransactionsByPriceAndNonce :=
  '(_, hs) ← heap_Pop TxByPrice_Less (heads t);
  Ret (mkPriced (txs t) hs (signer t)).

(** ** The difference of two lists of transactions *)
Definition hash_of (tx : Transaction) : outcome bytes := fst (Hash keccak tx).

Fixpoint hashes (l : list Transaction) : outcome (list bytes) :=
  match l with [] => Ret [] | tx :: l' => h ← hash_of tx; hs ← hashes l'; Ret (h :: hs) end.

Fixpoint keep_others (remove : list bytes) (a : list Transaction) : outcome (list Transaction) :=
  match a with
  | [] => Ret []
  | tx :: a' =>
    h ← hash_of tx;
    keep ← keep_others remove a';
    Ret (if bool_decide (h ∈ remove) then keep else tx :: keep)
  end.

Definition TxDifference (a b : list Transaction) : outcome (list Transaction) :=
  remove ← hashes b;
  keep_others remove a.
End Priced.
