(* ===== verification/PriceHeapProps.v ===== *)
(** [container/heap] keeps a heap, and [TransactionsByPriceAndNonce] refines a map from accounts to
    lists of transactions of which the dearest head is taken. *)
From S2P Require Import Prelude Bytes HexKeys Rlp RlpStream State Transition Transactions TransactionsProps PriceHeap.
Open Scope Z_scope.

(** ** Heaps *)
Section HeapProofs.
Context {A : Type} (less : A → A → bool) (key : A → Z).
Hypothesis less_key : ∀ x y, less x y = bool_decide (key x > key y).
Implicit Types (l : list A) (i j k n : nat).

Definition parent j : nat := ((j - 1) / 2)%nat.
Definition K l i : Z := match l !! i with Some x => key x | None => 0 end.

(** Below [n], no child of a place from [k] on is dearer than its parent. *)
Definition heap_from k n l : Prop := ∀ j, (0 < j < n)%nat → (k ≤ parent j)%nat → K l j ≤ K l (parent j).

(** The same, but for the children of [i], which are not dearer than the parent of [i]. *)
Definition hole k i n l : Prop :=
  (∀ j, (0 < j < n)%nat → (k ≤ parent j)%nat → parent j ≠ i → K l j ≤ K l (parent j)) ∧
  (∀ j, (0 < j < n)%nat → parent j = i → (0 < i)%nat → (k ≤ parent i)%nat → K l j ≤ K l (parent i)).

Lemma parent_spec j i : (0 < j)%nat → parent j = i ↔ (j = 2 * i + 1 ∨ j = 2 * i + 2)%nat.
Proof.
  intros Hj. unfold parent. pose proof (Nat.div_mod (j - 1) 2 ltac:(lia)). pose proof (Nat.mod_upper_bound (j - 1) 2 ltac:(lia)).
  split; [intros <-; lia|]. intros Hc. assert (j - 1 = 2 * i ∨ j - 1 = 2 * i + 1)%nat as [-> | ->] by lia.
  - rewrite Nat.mul_comm. apply Nat.div_mul. lia.
  - rewrite Nat.add_comm, (Nat.mul_comm 2 i), Nat.div_add by lia. done.
Qed.

Lemma parent_lt j : (0 < j)%nat → (parent j < j)%nat.
Proof. intros Hj. pose proof (proj1 (parent_spec j _ Hj) eq_refl). lia. Qed.

Lemma index_at l i x : l !! i = Some x → index l (Z.of_nat i) = Ret x.
Proof. intros Hx. apply index_Some; [lia|]. by rewrite Nat2Z.id. Qed.

Lemma Less_ok l i j : (i < length l)%nat → (j < length l)%nat → Less less l i j = Ret (bool_decide (K l i > K l j)).
Proof.
  intros Hi Hj. destruct (lookup_lt_is_Some_2 l i Hi) as [x Hx], (lookup_lt_is_Some_2 l j Hj) as [y Hy].
  unfold Less, K. rewrite Hx, Hy. rewrite (index_at _ _ _ Hx), (index_at _ _ _ Hy).
  cbn [mbind outcome_bind]. by rewrite less_key.
Qed.

Definition swapped i j (a : nat) : nat := if bool_decide (a = i) then j else if bool_decide (a = j) then i else a.

Lemma Swap_ok l i j :
  (i < length l)%nat → (j < length l)%nat →
  ∃ l', Swap l i j = Ret l' ∧ l' ≡ₚ l ∧ ∀ a, l' !! a = l !! swapped i j a.
Proof.
  intros Hi Hj. destruct (lookup_lt_is_Some_2 l i Hi) as [x Hx], (lookup_lt_is_Some_2 l j Hj) as [y Hy].
  exists (<[j := x]> (<[i := y]> l)).
  assert (∀ a, <[j := x]> (<[i := y]> l) !! a = l !! swapped i j a) as Hl.
  { intros a. unfold swapped. destruct (decide (a = j)) as [->|Hj'].
    - rewrite list_lookup_insert_eq by (by rewrite length_insert). case_bool_decide; [congruence|]. by rewrite bool_decide_eq_true_2.
    - rewrite list_lookup_insert_ne by done. destruct (decide (a = i)) as [->|Hi'].
      + rewrite list_lookup_insert_eq by done. by rewrite bool_decide_eq_true_2.
      + rewrite list_lookup_insert_ne by done. by rewrite !bool_decide_eq_false_2. }
  split; [|split; [|done]].
  - unfold Swap. rewrite (index_at _ _ _ Hx), (index_at _ _ _ Hy).
    cbn [mbind outcome_bind]. rewrite set_index_Ret by lia. cbn [mbind outcome_bind]. rewrite Nat2Z.id.
    rewrite set_index_Ret by (rewrite length_insert; lia). by rewrite Nat2Z.id.
  - apply Permutation_inj. split; [by rewrite !length_insert|]. exists (swapped i j). split; [|done].
    intros a b. unfold swapped. repeat case_bool_decide; congruence.
Qed.

Lemma K_swapped l l' i j a : (∀ a, l' !! a = l !! swapped i j a) → K l' a = K l (swapped i j a).
Proof. intros Hl. unfold K. by rewrite Hl. Qed.

(** Moving the dearest child up leaves a hole in its place. *)
Lemma hole_step l l' i j k n :
  (k ≤ i)%nat → hole k i n l → (0 < j < n)%nat → parent j = i → K l i < K l j →
  (∀ j', (0 < j' < n)%nat → parent j' = i → K l j' ≤ K l j) →
  (∀ a, l' !! a = l !! swapped i j a) → hole k j n l'.
Proof.
  intros Hk [Ho Hg] Hj Hp Hlt Hmax Hl. pose proof (parent_lt j ltac:(lia)) as Hpj. rewrite Hp in Hpj.
  assert (∀ a, K l' a = if bool_decide (a = i) then K l j else if bool_decide (a = j) then K l i else K l a) as HK.
  { intros a. rewrite (K_swapped l l' i j a Hl). unfold swapped. by repeat case_bool_decide. }
  split.
  - intros c Hc Hkc Hcj. pose proof (parent_lt c ltac:(lia)). rewrite !HK.
    destruct (decide (parent c = i)) as [Hci|Hci].
    + rewrite Hci. rewrite (bool_decide_eq_false_2 (c = i)) by lia. rewrite (bool_decide_eq_true_2 (i = i)) by done.
      case_bool_decide; [lia|]. by apply Hmax.
    + rewrite (bool_decide_eq_false_2 (parent c = i)) by done. rewrite (bool_decide_eq_false_2 (parent c = j)) by done.
      case_bool_decide as E; [subst c; apply Hg; (done || lia)|]. case_bool_decide as E'; [subst c; congruence|]. by apply Ho.
  - intros c Hc Hcj _ _. pose proof (parent_lt c ltac:(lia)). rewrite Hp, !HK. rewrite (bool_decide_eq_false_2 (c = i)) by lia.
    rewrite (bool_decide_eq_false_2 (c = j)) by lia. rewrite (bool_decide_eq_true_2 (i = i)) by done. rewrite <-Hcj. apply Ho; [done|lia|lia].
Qed.

Lemma down_ok fuel l i n k :
  fuel ≠ 0%nat → (n < i + fuel)%nat → (k ≤ i)%nat → (n ≤ length l)%nat → hole k i n l →
  ∃ i' l', down less fuel l i n = Ret (i', l') ∧ l' ≡ₚ l ∧ heap_from k n l' ∧ (i ≤ i')%nat ∧
    (∀ a, (n ≤ a)%nat → l' !! a = l !! a) ∧ (i' = i → l' = l).
Proof.
  revert l i. induction fuel as [|fuel IH]; intros l i Hf0 Hf Hk Hn Hh; [done|]. cbn [down].
  case_bool_decide as Hj1.
  { exists i, l. split; [done|]. split; [done|]. split; [|done]. intros j Hj Hkj. apply Hh; [done|done|].
    intros Hp. apply parent_spec in Hp; lia. }
  set (j1 := (2 * i + 1)%nat) in *.
  assert (∃ j, (if bool_decide (j1 + 1 < n)%nat then Less less l (j1 + 1) j1 else Ret false) = Ret (bool_decide (j ≠ j1)) ∧
    (if bool_decide (j ≠ j1) then (j1 + 1)%nat else j1) = j ∧ (0 < j < n)%nat ∧ parent j = i ∧
    ∀ j', (0 < j' < n)%nat → parent j' = i → K l j' ≤ K l j) as (j & Hright & Hsel & Hj & Hp & Hmax).
  { case_bool_decide as H2.
    - rewrite Less_ok by lia. case_bool_decide as Hgt.
      + exists (j1 + 1)%nat. rewrite !bool_decide_eq_true_2 by lia. split; [done|]. split; [done|]. split; [lia|]. split; [apply parent_spec; lia|].
        intros j' Hj' Hp'. apply parent_spec in Hp' as [-> | ->]; [fold j1; lia| |lia]. replace (2 * i + 2)%nat with (j1 + 1)%nat by lia. lia.
      + exists j1. rewrite !bool_decide_eq_false_2 by lia. split; [done|]. split; [done|]. split; [lia|]. split; [apply parent_spec; lia|].
        intros j' Hj' Hp'. apply parent_spec in Hp' as [-> | ->]; [fold j1; lia| |lia]. replace (2 * i + 2)%nat with (j1 + 1)%nat by lia. lia.
    - exists j1. rewrite !bool_decide_eq_false_2 by lia. split; [done|]. split; [done|]. split; [lia|]. split; [apply parent_spec; lia|].
      intros j' Hj' Hp'. apply parent_spec in Hp' as [-> | ->]; [fold j1; lia|lia..]. }
  rewrite Hright. cbn [mbind outcome_bind]. rewrite Hsel. pose proof (parent_lt j ltac:(lia)). rewrite Less_ok by lia. cbn [mbind outcome_bind].
  destruct (decide (K l j > K l i)) as [Hgt|Hgt]; [rewrite bool_decide_eq_true_2 by done|rewrite bool_decide_eq_false_2 by done]; cbn [negb].
  - destruct (Swap_ok l i j) as (l1 & -> & Hperm & Hl1); [lia..|]. cbn [mbind outcome_bind].
    destruct (IH l1 j) as (i' & l' & -> & Hperm' & Hheap & Hle & Hout & _); [lia..| | |].
    { by rewrite Hperm. } { by apply (hole_step l l1 i j k n Hk Hh Hj Hp ltac:(lia) Hmax). }
    exists i', l'. split; [done|]. split; [by rewrite Hperm'|]. split; [done|]. split; [lia|]. split; [|lia].
    intros a Ha. rewrite Hout, Hl1 by done. unfold swapped. by rewrite !bool_decide_eq_false_2 by lia.
  - exists i, l. split; [done|]. split; [done|]. split; [|done]. intros c Hc Hkc.
    destruct (decide (parent c = i)) as [Hci|Hci]; [|by apply Hh]. rewrite Hci. specialize (Hmax c Hc Hci). lia.
Qed.

Lemma down_from_ok l i n :
  (n ≤ length l)%nat → hole i i n l →
  ∃ b l', down_from less l i n = Ret (b, l') ∧ l' ≡ₚ l ∧ heap_from i n l' ∧ (∀ a, (n ≤ a)%nat → l' !! a = l !! a) ∧ (b = false → l' = l).
Proof.
  intros Hn Hh. destruct (down_ok (S n) l i n i) as (i' & l' & Hd & Hp & Hheap & Hle & Hout & Heq); [lia..|done|].
  unfold down_from. rewrite Hd. exists (bool_decide (i < i')%nat), l'. split; [done|]. split; [done|]. split; [done|]. split; [done|].
  intros Hb%bool_decide_eq_false. apply Heq. lia.
Qed.

Lemma hole_root k n l : heap_from (S k) n l → hole k k n l.
Proof.
  intros Hh. split; [intros j Hj Hkj Hne; apply Hh; [done|lia]|]. intros j Hj _ Hk Hkp. pose proof (parent_lt k Hk). lia.
Qed.

Definition heap l : Prop := heap_from 0 (length l) l.

Lemma heapify_ok k l :
  heap_from k (length l) l → ∃ l', heapify less k l (length l) = Ret l' ∧ l' ≡ₚ l ∧ heap l'.
Proof.
  revert l. induction k as [|k IH]; intros l Hh; [by exists l|]. cbn [heapify].
  destruct (down_from_ok l k (length l)) as (b & l1 & -> & Hp & Hheap & _); [done|by apply hole_root|]. cbn [mbind outcome_bind].
  rewrite <-(Permutation_length Hp) in Hheap |- *. destruct (IH l1 Hheap) as (l' & Hl' & Hp' & Hh'). exists l'. split; [done|]. split; [by rewrite Hp'|done].
Qed.

Lemma heap_Init_ok l : ∃ l', heap_Init less l = Ret l' ∧ l' ≡ₚ l ∧ heap l'.
Proof.
  apply heapify_ok. intros j Hj Hp. exfalso. pose proof (proj1 (parent_spec j _ ltac:(lia)) eq_refl).
  pose proof (Nat.div_mod (length l) 2 ltac:(lia)). pose proof (Nat.mod_upper_bound (length l) 2 ltac:(lia)). lia.
Qed.

Lemma heap_top l t : heap l → l !! 0%nat = Some t → ∀ x, x ∈ l → key x ≤ key t.
Proof.
  intros Hh Ht x Hx. apply list_elem_of_lookup in Hx as [j Hj].
  enough (K l j ≤ K l 0) as Hle by (unfold K in Hle; by rewrite Hj, Ht in Hle).
  pose proof (lookup_lt_Some _ _ _ Hj) as Hlen. clear x Hj. induction (lt_wf j) as [j _ IH]. destruct (decide (j = 0%nat)) as [->|Hj0]; [done|].
  pose proof (parent_lt j ltac:(lia)). specialize (IH (parent j) ltac:(lia) ltac:(lia)). specialize (Hh j ltac:(lia) ltac:(lia)). lia.
Qed.

Lemma heap_Pop_ok l x :
  heap l → l !! 0%nat = Some x → ∃ l', heap_Pop less l = Ret (x, l') ∧ l ≡ₚ x :: l' ∧ heap l'.
Proof.
  intros Hh Hx. pose proof (lookup_lt_Some _ _ _ Hx) as Hlen. unfold heap_Pop. rewrite bool_decide_eq_false_2 by (by intros ->).
  set (n := (length l - 1)%nat). destruct (Swap_ok l 0 n) as (l1 & -> & Hp1 & Hl1); [lia..|]. cbn [mbind outcome_bind].
  assert (hole 0 0 n l1) as Hhole.
  { apply hole_root. intros j Hj Hpj. pose proof (parent_lt j ltac:(lia)). rewrite !(K_swapped _ _ _ _ _ Hl1). unfold swapped.
    rewrite !bool_decide_eq_false_2 by lia. apply Hh; lia. }
  destruct (down_from_ok l1 0 n) as (b & l2 & -> & Hp2 & Hheap & Hout & _); [rewrite Hp1; lia|done|]. cbn [mbind outcome_bind].
  assert (l2 !! n = Some x) as Hn.
  { rewrite Hout, Hl1 by done. unfold swapped. case_bool_decide as E; [by rewrite E|]. by rewrite bool_decide_eq_true_2. }
  rewrite (index_at _ _ _ Hn). cbn [mbind outcome_bind]. exists (take n l2). split; [done|].
  assert (length l2 = S n) as Hlen2 by (rewrite Hp2, Hp1; lia).
  assert (l2 = take n l2 ++ [x]) as Hsplit.
  { rewrite <-(take_drop n l2) at 1. f_equal. rewrite (drop_S _ _ _ Hn). by rewrite drop_ge by lia. }
  split; [rewrite <-Hp1, <-Hp2, Hsplit at 1; symmetry; apply Permutation_cons_append|].
  intros j Hj _. rewrite length_take in Hj. pose proof (parent_lt j ltac:(lia)). unfold K. rewrite !lookup_take_lt by lia. apply Hheap; lia.
Qed.

Lemma heap_Fix_ok l t x :
  heap (t :: l) → ∃ l', heap_Fix less (x :: l) 0 = Ret l' ∧ l' ≡ₚ x :: l ∧ heap l'.
Proof.
  intros Hh. assert (hole 0 0 (length (x :: l)) (x :: l)) as Hhole.
  { apply hole_root. intros j Hj Hp. pose proof (parent_lt j ltac:(lia)). destruct j as [|j]; [lia|]. specialize (Hh (S j) Hj ltac:(lia)).
    unfold K in *. destruct (parent (S j)); [lia|]. exact Hh. }
  unfold heap_Fix. destruct (down_from_ok (x :: l) 0 _ (le_n _) Hhole) as (b & l' & -> & Hp & Hheap & _ & Heq). cbn [mbind outcome_bind].
  exists l'. assert (heap l') as Hl' by (unfold heap; by rewrite (Permutation_length Hp)). destruct b; [done|]. cbn [up]. by rewrite bool_decide_eq_true_2.
Qed.
End HeapProofs.

(** ** The abstract queue

    Every account has the list of what is left of its transactions.  The next transaction is a
    head that no other head exceeds in price; the client goes on with the same account
    ([true], [Shift]) or gives it up ([false], [Pop]). *)
Abbreviation Queue := (gmap bytes (list txdata)).

Definition dearest (Q : Queue) (x : txdata) : Prop :=
  ∀ a y u, Q !! a = Some (y :: u) → Price y ≤ Price x.

Definition next (a : bytes) (u : list txdata) (Q : Queue) : Queue :=
  match u with [] => delete a Q | _ => <[a := u]> Q end.

Inductive emits : Queue → list bool → list txdata → Prop :=
  | emits_stop Q : emits Q [] []
  | emits_empty ops : emits ∅ ops []
  | emits_shift Q a x u ops out :
      Q !! a = Some (x :: u) → dearest Q x → emits (next a u Q) ops out → emits Q (true :: ops) (x :: out)
  | emits_pop Q a x u ops out :
      Q !! a = Some (x :: u) → dearest Q x → emits (delete a Q) ops out → emits Q (false :: ops) (x :: out).

(** All that a queue holds. *)
Definition contents (Q : Queue) : list txdata := concat (map snd (map_to_list Q)).

Lemma contents_delete a q Q : Q !! a = Some q → contents Q ≡ₚ q ++ contents (delete a Q).
Proof. intros Ha. unfold contents. by rewrite <-(map_to_list_delete Q a q Ha). Qed.

Lemma contents_next a x u Q : Q !! a = Some (x :: u) → contents Q ≡ₚ x :: contents (next a u Q).
Proof.
  intros Ha. rewrite (contents_delete a _ Q Ha). cbn [app]. constructor. destruct u as [|y u]; [done|]. cbn [next].
  rewrite (contents_delete a (y :: u) (<[a := y :: u]> Q)) by apply lookup_insert_eq. by rewrite delete_insert_eq.
Qed.

(** With enough calls of [Shift] everything is handed out. *)
Lemma emits_all Q n out : emits Q (replicate n true) out → (length (contents Q) ≤ n)%nat → out ≡ₚ contents Q.
Proof.
  revert Q out. induction n as [|n IH]; intros Q out He Hn; cbn [replicate] in He.
  - assert (contents Q = []) as -> by (by apply length_zero_iff_nil; lia). by inversion He.
  - inversion He as [|?|? a x u ? out' Ha Hd He'|]; subst; [done|]. rewrite (contents_next a x u Q Ha) in Hn |- *. constructor.
    apply IH; [done|]. cbn in Hn. lia.
Qed.

Section Refinement.
Context (keccak : bytes → bytes) {PrivateKey PublicKey : Type} `{Curve PrivateKey PublicKey} `{RangeOrder} (s : BasicSigner).
Let price (tx : Transaction) : Z := Price (tx_data tx).

(** The sender of [tx] is [a]. *)
Definition owned (a : bytes) (tx : Transaction) : Prop := ∃ tx', Sender keccak s tx = (Ret a, tx').
Definition acc_of (tx : Transaction) : bytes := match fst (Sender keccak s tx) with Ret a => a | _ => [] end.

Lemma price_less x y : TxByPrice_Less x y = bool_decide (price x > price y).
Proof. done. Qed.

Lemma owned_acc a tx : owned a tx → acc_of tx = a.
Proof. unfold acc_of. by intros [tx' ->]. Qed.

Lemma owned_Sender a tx : owned a tx → ∃ tx', sender_or_zero keccak s tx = Ret (a, tx') ∧ tx_data tx' = tx_data tx ∧ owned a tx'.
Proof.
  intros [tx' Hs]. exists tx'. split; [unfold sender_or_zero; by rewrite Hs|].
  assert (∀ s', Equal s' s = true → tx_from tx' = Some (s', a) → owned a tx') as Hcached.
  { intros s' He Hf. exists tx'. unfold Sender, get, mbind, M_bind. by rewrite Hf, He. }
  revert Hs. unfold Sender, get, lift, modify, mbind, M_bind, mret, M_ret.
  assert (Equal s s = true) as Hss by (unfold Equal; by apply bool_decide_eq_true_2).
  destruct (tx_from tx) as [[s' a']|] eqn:Hf; [destruct (Equal s' s) eqn:He|];
    try (destruct (signer_Sender keccak s tx); [|done..]); intros [= <- <-]; (split; [done|]); by eapply Hcached.
Qed.

Record repr (t : TransactionsByPriceAndNonce) (Q : Queue) : Prop := {
  r_signer : signer t = s;
  r_heap : heap price (heads t);
  r_heads tx : tx ∈ heads t → ∃ a u, owned a tx ∧ txs t !! a = Some u ∧ Forall (owned a) u ∧ Q !! a = Some (tx_data tx :: map tx_data u);
  r_nodup : NoDup (map acc_of (heads t));
  r_all a q : Q !! a = Some q → a ∈ map acc_of (heads t) }.

Lemma repr_acc t Q tx a q : repr t Q → tx ∈ heads t → Q !! a = Some q → acc_of tx = a →
  ∃ u, owned a tx ∧ txs t !! a = Some u ∧ Forall (owned a) u ∧ q = tx_data tx :: map tx_data u.
Proof.
  intros Hr Hin Hq Ha. destruct (r_heads t Q Hr tx Hin) as (a' & u & Ho & Hu & Hall & HQ). rewrite (owned_acc _ _ Ho) in Ha. subst a'.
  exists u. rewrite HQ in Hq. injection Hq as <-. done.
Qed.

(** The first head is one of the dearest. *)
Lemma repr_dearest t Q h hs : repr t Q → heads t = h :: hs → dearest Q (tx_data h).
Proof.
  intros Hr Hh a y u HQ. pose proof (r_all t Q Hr a _ HQ) as (tx & -> & Hin)%list_elem_of_fmap.
  destruct (repr_acc t Q tx _ _ Hr Hin HQ eq_refl) as (u' & _ & _ & _ & [= -> _]).
  eapply (heap_top price (heads t)); [apply Hr|by rewrite Hh|done].
Qed.

Lemma repr_drop t Q h l a :
  repr t Q → heads t ≡ₚ h :: l → owned a h → heap price l → repr (mkPriced (txs t) l s) (delete a Q).
Proof.
  intros Hr Hp Ho Hl. pose proof (owned_acc _ _ Ho) as Ha. pose proof (r_nodup t Q Hr) as Hnd. rewrite Hp in Hnd. cbn [map] in Hnd.
  apply NoDup_cons in Hnd as [Hnot Hnd]. rewrite Ha in Hnot. split; cbn [heads txs signer]; [done|done| |done|].
  - intros tx Hin. destruct (r_heads t Q Hr tx) as (a' & u & Ho' & Hu & Hall & HQ); [rewrite Hp; by right|].
    exists a', u. split; [done|]. split; [done|]. split; [done|]. rewrite lookup_delete_ne; [done|]. intros <-. apply Hnot.
    rewrite <-(owned_acc _ _ Ho'). by apply list_elem_of_fmap_2.
  - intros a' q [Hne Hq]%lookup_delete_Some. pose proof (r_all t Q Hr a' q Hq) as Hin. rewrite Hp in Hin. cbn [map] in Hin.
    apply elem_of_cons in Hin as [->|?]; congruence.
Qed.

Lemma Peek_ok t Q : repr t Q → Peek t = None → Q = ∅.
Proof.
  intros Hr Hp. unfold Peek in Hp. apply map_eq. intros a. rewrite lookup_empty. destruct (Q !! a) as [q|] eqn:Hq; [|done].
  apply (r_all t Q Hr) in Hq. destruct (heads t); [by apply not_elem_of_nil in Hq|done].
Qed.

Lemma Pop_ok t Q h : repr t Q → Peek t = Some h → ∃ a u t', Q !! a = Some (tx_data h :: u) ∧ Pop t = Ret t' ∧ repr t' (delete a Q).
Proof.
  intros Hr Hp. unfold Peek in Hp. destruct (heads t) as [|h' hs] eqn:Hh; [done|]. injection Hp as ->.
  destruct (r_heads t Q Hr h) as (a & u & Ho & Hu & Hall & HQ); [rewrite Hh; by left|]. exists a, (map tx_data u).
  destruct (heap_Pop_ok TxByPrice_Less price price_less (heads t) h) as (l & Hpop & Hperm & Hheap); [apply Hr|by rewrite Hh|].
  exists (mkPriced (txs t) l s). split; [done|]. unfold Pop. rewrite Hpop, (r_signer t Q Hr). split; [done|]. by apply (repr_drop t Q h).
Qed.

(** The next transaction of the account takes the place of its head. *)
Lemma repr_replace t Q h hs l a x u :
  repr t Q → heads t = h :: hs → owned a h → txs t !! a = Some (x :: u) → l ≡ₚ x :: hs → heap price l →
  repr (mkPriced (<[a := u]> (txs t)) l s) (<[a := map tx_data (x :: u)]> Q).
Proof.
  intros Hr Hh Ho Hu Hp Hl. destruct (r_heads t Q Hr h) as (a' & u' & Ho' & Hu' & Hall & HQ); [rewrite Hh; by left|].
  assert (a' = a) as -> by (rewrite <-(owned_acc _ _ Ho), <-(owned_acc _ _ Ho'); done). rewrite Hu in Hu'. injection Hu' as <-.
  apply Forall_cons in Hall as [Hx Hall]. pose proof (r_nodup t Q Hr) as Hnd. rewrite Hh in Hnd. cbn [map] in Hnd.
  apply NoDup_cons in Hnd as [Hnot Hnd]. rewrite (owned_acc _ _ Ho) in Hnot.
  assert (map acc_of l ≡ₚ a :: map acc_of hs) as Haccs by (rewrite Hp; cbn [map]; by rewrite (owned_acc _ _ Hx)).
  split; cbn [heads txs signer]; [done|done|..].
  - intros tx Hin. rewrite Hp in Hin. apply elem_of_cons in Hin as [->|Hin].
    + exists a, u. rewrite !lookup_insert_eq. done.
    + destruct (r_heads t Q Hr tx) as (b & ub & Hob & Hub & Hallb & HQb); [rewrite Hh; by right|]. exists b, ub.
      assert (a ≠ b). { intros <-. apply Hnot. rewrite <-(owned_acc _ _ Hob). by apply list_elem_of_fmap_2. }
      rewrite !lookup_insert_ne by done. done.
  - rewrite Haccs. by apply NoDup_cons.
  - intros b q Hb. rewrite Haccs. apply lookup_insert_Some in Hb as [[-> _]|[Hne Hb]]; [by left|].
    pose proof (r_all t Q Hr b q Hb) as Hin. rewrite Hh in Hin. cbn [map] in Hin. rewrite (owned_acc _ _ Ho) in Hin.
    apply elem_of_cons in Hin as [->|?]; [done|by right].
Qed.

Lemma heap_same_price h h' l : price h = price h' → heap price (h :: l) → heap price (h' :: l).
Proof.
  intros Hp Hh j Hj Hk. specialize (Hh j Hj Hk). unfold K in *. destruct j as [|j]; [lia|]. cbn [lookup list_lookup] in *.
  destruct (parent (S j)); cbn in *; [|done]. by rewrite <-Hp.
Qed.

Lemma Shift_ok t Q h :
  repr t Q → Peek t = Some h → ∃ a u t', Q !! a = Some (tx_data h :: u) ∧ Shift keccak t = Ret t' ∧ repr t' (next a u Q).
Proof.
  intros Hr Hp. unfold Peek in Hp. destruct (heads t) as [|h' hs] eqn:Hh; [done|]. injection Hp as ->.
  destruct (r_heads t Q Hr h) as (a & u & Ho & Hu & Hall & HQ); [rewrite Hh; by left|]. exists a, (map tx_data u).
  destruct (owned_Sender a h Ho) as (h1 & Hsend & Hdata & Ho1). pose proof (r_heap t Q Hr) as Hheap. rewrite Hh in Hheap.
  unfold Shift. rewrite Hh, (r_signer t Q Hr). change (index (h :: hs) 0) with (Ret h). cbn [mbind outcome_bind]. rewrite Hsend.
  cbn [mbind outcome_bind]. rewrite Hu. destruct u as [|x u].
  - assert (set_index (h :: hs) 0 h1 = Ret (h1 :: hs)) as -> by (rewrite set_index_Ret by (cbn; lia); done). cbn [mbind outcome_bind].
    destruct (heap_Pop_ok TxByPrice_Less price price_less (h1 :: hs) h1) as (l & Hpop & Hperm & Hl); [|done|].
    { apply (heap_same_price h); [by unfold price; rewrite Hdata|done]. }
    rewrite Hpop. cbn [mbind outcome_bind map next]. eexists. split; [done|]. split; [done|]. apply (repr_drop t Q h); [done| |done|done].
    rewrite Hh. by apply Permutation_cons_inv in Hperm as <-.
  - assert (set_index (h :: hs) 0 x = Ret (x :: hs)) as -> by (rewrite set_index_Ret by (cbn; lia); done). cbn [mbind outcome_bind].
    destruct (heap_Fix_ok TxByPrice_Less price price_less hs h x Hheap) as (l & Hfix & Hperm & Hl).
    rewrite Hfix. cbn [mbind outcome_bind map next]. eexists. split; [done|]. split; [done|]. by apply (repr_replace t Q h hs).
Qed.

(** Taking transactions: [true] goes on with [Shift], [false] with [Pop]. *)
Fixpoint takes (ops : list bool) (t : TransactionsByPriceAndNonce) : outcome (list Transaction) :=
  match ops with
  | [] => Ret []
  | op :: ops' =>
    match Peek t with
    | None => Ret []
    | Some tx =>
      t' ← (if op : bool then Shift keccak t else Pop t);
      out ← takes ops' t';
      Ret (tx :: out)
    end
  end.

Lemma takes_ok ops t Q : repr t Q → ∃ out, takes ops t = Ret out ∧ emits Q ops (map tx_data out).
Proof.
  revert t Q. induction ops as [|op ops IH]; intros t Q Hr; [exists []; split; [done|constructor]|]. cbn [takes].
  destruct (Peek t) as [h|] eqn:Hp; [|rewrite (Peek_ok t Q Hr Hp); exists []; split; [done|constructor]].
  assert (dearest Q (tx_data h)) as Hd.
  { unfold Peek in Hp. destruct (heads t) as [|h' hs] eqn:Hh; [done|]. injection Hp as ->. by apply (repr_dearest t Q h hs). }
  destruct op.
  - destruct (Shift_ok t Q h Hr Hp) as (a & u & t' & HQ & -> & Hr'). cbn [mbind outcome_bind]. destruct (IH t' _ Hr') as (out & -> & He).
    exists (h :: out). split; [done|]. by apply (emits_shift Q a _ u).
  - destruct (Pop_ok t Q h Hr Hp) as (a & u & t' & HQ & -> & Hr'). cbn [mbind outcome_bind]. destruct (IH t' _ Hr') as (out & -> & He).
    exists (h :: out). split; [done|]. by apply (emits_pop Q a _ u).
Qed.

(** Every account has transactions, and they are its own. *)
Definition sorted_out (m : gmap bytes (list Transaction)) : Prop :=
  ∀ a l, m !! a = Some l → l ≠ [] ∧ Forall (owned a) l.

Lemma collect_ok (m0 : gmap bytes (list Transaction)) accs m hs :
  NoDup accs → (∀ a, a ∈ accs → m !! a = m0 !! a ∧ ∃ l, m0 !! a = Some l ∧ l ≠ [] ∧ Forall (owned a) l) →
  ∃ m' new, collect keccak s accs m hs = Ret (m', hs ++ new) ∧
    (∀ a, a ∉ accs → m' !! a = m !! a) ∧
    Forall2 (λ a tx, ∃ tx0 u, m0 !! a = Some (tx0 :: u) ∧ m' !! a = Some u ∧ owned a tx ∧ tx_data tx = tx_data tx0) accs new.
Proof.
  revert m hs. induction accs as [|a accs IH]; intros m hs Hnd Hm.
  { exists m, []. rewrite app_nil_r. split; [done|]. split; [done|constructor]. }
  apply NoDup_cons in Hnd as [Hnot Hnd]. destruct (Hm a) as (Hma & l & Hl & Hne & Hall); [by left|]. cbn [collect]. rewrite Hma, Hl.
  destruct l as [|tx u]; [done|]. change (default [] (Some (tx :: u))) with (tx :: u). apply Forall_cons in Hall as [Htx Hall].
  change (index (tx :: u) 0) with (Ret tx). cbn [mbind outcome_bind]. destruct (owned_Sender a tx Htx) as (tx' & -> & Hdata & Ho).
  cbn [mbind outcome_bind]. assert (slice_from (tx :: u) 1 = Ret u) as -> by (unfold slice_from; rewrite decide_True by (cbn; lia); done).
  cbn [mbind outcome_bind].
  destruct (IH (<[a := u]> m) (hs ++ [tx']) Hnd) as (m' & new & Hc & Hout & Hnew).
  { intros b Hb. rewrite lookup_insert_ne by (by intros ->). apply Hm. by right. }
  exists m', (tx' :: new). rewrite Hc, <-app_assoc. split; [done|]. split.
  - intros b Hb. apply not_elem_of_cons in Hb as [Hba Hb]. by rewrite Hout, lookup_insert_ne by done.
  - constructor; [exists tx, u; by rewrite Hout, lookup_insert_eq|].
    exact Hnew.
Qed.

Lemma New_ok m :
  sorted_out m → ∃ t, NewTransactionsByPriceAndNonce keccak s m = Ret t ∧ repr t (map tx_data <$> m).
Proof.
  intros Hm. assert (NoDup (map fst (range m))) as Hnd by apply NoDup_fst_range.
  assert (∀ a, a ∈ map fst (range m) ↔ is_Some (m !! a)) as Hdom.
  { intros a. rewrite list_elem_of_fmap. split; [intros ([k v] & -> & Hin); eexists; by apply elem_of_range|].
    intros [l Hl]. exists (a, l). split; [done|]. by apply elem_of_range. }
  destruct (collect_ok m (map fst (range m)) m [] Hnd) as (m' & new & Hc & Hout & Hnew).
  { intros a [l Hl]%Hdom. split; [done|]. exists l. split; [done|]. by apply Hm. }
  unfold NewTransactionsByPriceAndNonce. rewrite Hc. cbn [mbind outcome_bind app].
  destruct (heap_Init_ok TxByPrice_Less price price_less new) as (hs & -> & Hp & Hheap). cbn [mbind outcome_bind].
  assert (map acc_of new = map fst (range m)) as Haccs.
  { clear -Hnew. induction Hnew as [|a tx accs new (_ & _ & _ & _ & Ho & _) _ IH]; [done|]. cbn [map]. by rewrite IH, (owned_acc _ _ Ho). }
  eexists. split; [done|]. split; cbn [signer heads txs]; [done|done|..].
  - intros tx Hin. rewrite Hp in Hin. apply list_elem_of_lookup in Hin as [i Hi]. destruct (Forall2_lookup_r _ _ _ _ _ Hnew Hi) as (a & Ha & tx0 & u & Hm0 & Hm' & Ho & Hd).
    exists a, u. split; [done|]. split; [done|]. split; [by apply Hm in Hm0 as [_ [_ ?]%Forall_cons]|]. by rewrite lookup_fmap, Hm0, Hd.
  - rewrite Hp, Haccs. done.
  - intros a q Hq. rewrite Hp, Haccs. apply Hdom. rewrite lookup_fmap in Hq. destruct (m !! a); [by eexists|done].
Qed.

(** C30: transactions by price and nonce.  Given transactions sorted out by sender, whatever the
    order in which the map is walked through, [NewTransactionsByPriceAndNonce] succeeds, and
    every sequence of [Peek] followed by [Shift] or [Pop] then runs without a panic and hands out
    what the abstract queue may: each time a dearest one among the next transactions of the
    accounts, in the order of its account, never one of an account that was popped.  With
    [Shift] alone every transaction is handed out exactly once. *)
Theorem transactions_by_price_and_nonce m :
  sorted_out m →
  ∃ t, NewTransactionsByPriceAndNonce keccak s m = Ret t ∧
    (∀ ops, ∃ out, takes ops t = Ret out ∧ emits (map tx_data <$> m) ops (map tx_data out)) ∧
    ∀ n, (length (contents (map tx_data <$> m)) ≤ n)%nat →
      ∃ out, takes (replicate n true) t = Ret out ∧ map tx_data out ≡ₚ contents (map tx_data <$> m).
Proof.
  intros Hm. destruct (New_ok m Hm) as (t & Hnew & Hr). exists t. split; [done|]. split; [intros ops; by apply takes_ok|].
  intros n Hn. destruct (takes_ok (replicate n true) t _ Hr) as (out & Ht & He). exists out. split; [done|]. by apply (emits_all _ n).
Qed.
End Refinement.

Module HeapExample.
Import ToyCurve.
#[local] Existing Instance listing_order.

Definition tx_from_at (a : bytes) (nonce price : Z) : Transaction :=
  mkTx (mkData nonce price 21000 None 1 [] 37 1 1) None None (Some (NewBasicSigner, a)).
Definition alice : bytes := replicate 20 1.
Definition bob : bytes := replicate 20 2.
Definition pending : gmap bytes (list Transaction) :=
  {[ alice := [tx_from_at alice 0 10; tx_from_at alice 1 50]; bob := [tx_from_at bob 0 30] ]}.

Lemma pending_sorted : sorted_out toy_keccak NewBasicSigner pending.
Proof.
  intros a l Hl. unfold pending in Hl. apply lookup_insert_Some in Hl as [[<- <-]|[_ Hl]].
  - split; [done|]. repeat constructor; by eexists.
  - apply lookup_singleton_Some in Hl as [<- <-]. split; [done|]. repeat constructor; by eexists.
Qed.

Lemma transactions_by_price_and_nonce_witness :
  ∃ t out, NewTransactionsByPriceAndNonce toy_keccak NewBasicSigner pending = Ret t ∧
    takes toy_keccak (replicate 3 true) t = Ret out ∧ map tx_data out ≡ₚ contents (map tx_data <$> pending).
Proof.
  destruct (transactions_by_price_and_nonce toy_keccak NewBasicSigner pending pending_sorted) as (t & Ht & _ & Hall).
  destruct (Hall 3%nat) as (out & Hout & Hp); [|exact (ex_intro _ t (ex_intro _ out (conj Ht (conj Hout Hp))))].
  apply Nat.leb_le. vm_compute. reflexivity.
Defined.

(** The dearest transaction of all comes last: its account has a cheaper one before it. *)
Lemma pending_order :
  match NewTransactionsByPriceAndNonce toy_keccak NewBasicSigner pending with
  | Ret t => (map (λ tx, Price (tx_data tx)) <$> match takes toy_keccak [true; true; true] t with Ret out => Some out | _ => None end)
  | _ => None
  end = Some [30; 10; 50].
Proof. vm_compute. reflexivity. Qed.
End HeapExample.
