(* ===== verification/Receipts.v ===== *)
(** [types/receipt.go], [types/log.go] and [types/bloom9.go]: receipts and logs with their RLP
    forms, and the bloom filters over their addresses and topics. *)
From S2P Require Import Prelude Bytes HexKeys Rlp RlpRaw RlpStream RlpDecode RlpOptional TrieNode State Transition Transactions.
Open Scope Z_scope.

(** ** Bloom filters *)
Definition BloomByteLength : nat := 256.

(** [SetBytes]: the bytes in front keep their old value. *)
Definition bloom_SetBytes (d b : bytes) : outcome bytes :=
  if bool_decide (length b < length d)%nat then Panic "bloom bytes too big"
  else Ret (take (BloomByteLength - length d) b ++ d).

Definition BytesToBloom (b : bytes) : outcome bytes := bloom_SetBytes b (replicate BloomByteLength 0).

Definition Big (b : bytes) : Z := be_val b.

Section Bloom.
Context (keccak : bytes → bytes).

(** One bit: the bytes [i] and [i + 1] of the hash, 11 bits of them. *)
Definition bloom_bit (h : bytes) (i : Z) : outcome Z :=
  lo ← index h (i + 1);
  hi ← index h i;
  Ret (Z.land (lo + Z.shiftl hi 8) 2047).

Definition bloom9 (b : bytes) : outcome Z :=
  let h := keccak b in
  b0 ← bloom_bit h 0;
  b1 ← bloom_bit h 2;
  b2 ← bloom_bit h 4;
  Ret (Z.lor (Z.lor (Z.lor 0 (Z.shiftl 1 b0)) (Z.shiftl 1 b1)) (Z.shiftl 1 b2)).

Fixpoint topics_bloom (l : list bytes) (bin : Z) : outcome Z :=
  match l with [] => Ret bin | t :: l' => x ← bloom9 t; topics_bloom l' (Z.lor bin x) end.

Fixpoint logs_bloom (l : list Log) (bin : Z) : outcome Z :=
  match l with
  | [] => Ret bin
  | log :: l' =>
    x ← bloom9 (l_Address log);
    bin' ← topics_bloom (Topics log) (Z.lor bin x);
    logs_bloom l' bin'
  end.

Definition LogsBloom (logs : list Log) : outcome Z := logs_bloom logs 0.

Definition BloomLookup (bin topic : bytes) : outcome bool :=
  cmp ← bloom9 topic;
  Ret (bool_decide (Z.land (Big bin) cmp = cmp)).

Definition bloom_Add (d : Z) (b : bytes) : outcome bytes :=
  x ← bloom9 (big_Bytes (Z.abs d));
  bloom_SetBytes (big_Bytes (Z.lor (Big b) x)) b.

Definition bloom_Test (b : bytes) (test : Z) : outcome bool := BloomLookup b (big_Bytes (Z.abs test)).
Definition TestBytes (b test : bytes) : outcome bool := bloom_Test b (be_val test).

(** ** Receipts *)
Record Receipt := mkReceipt {
  PostState : bytes; Status : Z; CumulativeGasUsed : Z; Bloom : bytes; Logs : list Log;
  rc_TxHash : bytes; ContractAddress : bytes; GasUsed : Z }.

Definition ReceiptStatusFailed : Z := 0.
Definition ReceiptStatusSuccessful : Z := 1.
Definition receiptStatusFailedRLP : bytes := [].
Definition receiptStatusSuccessfulRLP : bytes := [1].

(** The zero value, which the decoders fill. *)
Definition zero_receipt : Receipt := mkReceipt [] 0 0 (replicate 256 0) [] (replicate 32 0) (replicate 20 0) 0.

Definition NewReceipt (root : bytes) (failed : bool) (cumulativeGasUsed : Z) : Receipt :=
  mkReceipt root (if failed then ReceiptStatusFailed else ReceiptStatusSuccessful) cumulativeGasUsed
    (replicate 256 0) [] (replicate 32 0) (replicate 20 0) 0.

Fixpoint create_bloom (rs : list Receipt) (bin : Z) : outcome Z :=
  match rs with [] => Ret bin | r :: rs' => x ← LogsBloom (Logs r); create_bloom rs' (Z.lor bin x) end.

Definition CreateBloom (rs : list Receipt) : outcome bytes :=
  bin ← create_bloom rs 0;
  BytesToBloom (big_Bytes bin).

Definition set_status (st : Z) (r : Receipt) : Receipt :=
  mkReceipt (PostState r) st (CumulativeGasUsed r) (Bloom r) (Logs r) (rc_TxHash r) (ContractAddress r) (GasUsed r).
Definition set_poststate (p : bytes) (r : Receipt) : Receipt :=
  mkReceipt p (Status r) (CumulativeGasUsed r) (Bloom r) (Logs r) (rc_TxHash r) (ContractAddress r) (GasUsed r).

Definition setStatus (p : bytes) (r : Receipt) : outcome Receipt :=
  if bool_decide (p = receiptStatusSuccessfulRLP) then Ret (set_status ReceiptStatusSuccessful r)
  else if bool_decide (p = receiptStatusFailedRLP) then Ret (set_status ReceiptStatusFailed r)
  else if bool_decide (length p = 32%nat) then Ret (set_poststate p r)
  else Fail (Errorf "invalid receipt status").

Definition statusEncoding (r : Receipt) : bytes :=
  if bool_decide (length (PostState r) = 0%nat) then
    if bool_decide (Status r = ReceiptStatusFailed) then receiptStatusFailedRLP else receiptStatusSuccessfulRLP
  else PostState r.

(** ** RLP of logs *)
Definition rlpLog_type : gtype :=
  TStruct [("Address", TByteArray 20); ("Topics", TSlice (TByteArray 32)); ("Data", TBytes)].
Definition rlpLog (l : Log) : gval := GStruct [GBytes (l_Address l); GSlice (map GBytes (Topics l)); GBytes (Data l)].

Definition rlpStorageLog_type : gtype :=
  TStruct [("Address", TByteArray 20); ("Topics", TSlice (TByteArray 32)); ("Data", TBytes); ("BlockNumber", TUint 64);
           ("TxHash", TByteArray 32); ("TxIndex", TUint 64); ("BlockHash", TByteArray 32); ("Index", TUint 64)].
Definition rlpStorageLog (l : Log) : gval :=
  GStruct [GBytes (l_Address l); GSlice (map GBytes (Topics l)); GBytes (Data l); GUint (BlockNumber l);
           GBytes (TxHash l); GUint (TxIndex l); GBytes (BlockHash l); GUint (Index l)].

Definition bytes_of (v : gval) : option bytes := match v with GBytes b => Some b | _ => None end.

(** What [Log.DecodeRLP] and [LogForStorage.DecodeRLP] assign to a new log. *)
Definition log_of (v : gval) : option Log :=
  match v with
  | GStruct [GBytes a; GSlice ts; GBytes d] =>
    ts' ← mapM bytes_of ts; Some (mkLog a ts' d 0 (replicate 32 0) 0 (replicate 32 0) 0 false)
  | _ => None
  end.
Definition storageLog_of (v : gval) : option Log :=
  match v with
  | GStruct [GBytes a; GSlice ts; GBytes d; GUint n; GBytes th; GUint ti; GBytes bh; GUint i] =>
    ts' ← mapM bytes_of ts; Some (mkLog a ts' d n th ti bh i false)
  | _ => None
  end.

(** ** RLP of receipts *)
Definition receiptRLP_type : gtype :=
  TStruct [("PostStateOrStatus", TBytes); ("CumulativeGasUsed", TBigInt); ("Bloom", TByteArray 256);
           ("Logs", TSlice (TPtr rlpLog_type))].
Definition receiptRLP (r : Receipt) : gval :=
  GStruct [GBytes (statusEncoding r); GBigInt (Some (CumulativeGasUsed r)); GBytes (Bloom r); GSlice (map rlpLog (Logs r))].

Definition receiptStorageRLP_type : gtype :=
  TStruct [("PostStateOrStatus", TBytes); ("CumulativeGasUsed", TBigInt); ("Bloom", TByteArray 256); ("TxHash", TByteArray 32);
           ("ContractAddress", TByteArray 20); ("Logs", TSlice (TPtr rlpStorageLog_type)); ("GasUsed", TBigInt)].
Definition receiptStorageRLP (r : Receipt) : gval :=
  GStruct [GBytes (statusEncoding r); GBigInt (Some (CumulativeGasUsed r)); GBytes (Bloom r); GBytes (rc_TxHash r);
           GBytes (ContractAddress r); GSlice (map rlpStorageLog (Logs r)); GBigInt (Some (GasUsed r))].

(** [Receipt.EncodeRLP] and [ReceiptForStorage.EncodeRLP] *)
Definition receipt_EncodeRLP (r : Receipt) (w : bytes) : outcome bytes := Encode (receiptRLP r) w.
Definition storage_EncodeRLP (r : Receipt) (w : bytes) : outcome bytes := Encode (receiptStorageRLP r) w.

(** What the decoders assign, once the struct is filled. *)
Definition receipt_assign (v : gval) (r : Receipt) : outcome Receipt :=
  match v with
  | GStruct [GBytes p; GBigInt (Some c); GBytes b; GSlice ls] =>
    r1 ← setStatus p r;
    match mapM log_of ls with
    | Some logs => Ret (mkReceipt (PostState r1) (Status r1) c b logs (rc_TxHash r1) (ContractAddress r1) (GasUsed r1))
    | None => Panic "reflect"
    end
  | _ => Panic "reflect"
  end.

Definition storage_assign (v : gval) (r : Receipt) : outcome Receipt :=
  match v with
  | GStruct [GBytes p; GBigInt (Some c); GBytes b; GBytes th; GBytes ca; GSlice ls; GBigInt (Some g)] =>
    r1 ← setStatus p r;
    match mapM storageLog_of ls with
    | Some logs => Ret (mkReceipt (PostState r1) (Status r1) c b logs th ca g)
    | None => Panic "reflect"
    end
  | _ => Panic "reflect"
  end.

(** [Receipt.DecodeRLP] and [ReceiptForStorage.DecodeRLP] *)
Definition receipt_DecodeRLP (fuel : nat) (r : Receipt) : D Receipt :=
  v ← Decode fuel receiptRLP_type; lift (receipt_assign v r).
Definition storage_DecodeRLP (fuel : nat) (r : Receipt) : D Receipt :=
  v ← Decode fuel receiptStorageRLP_type; lift (storage_assign v r).
End Bloom.
