(* ===== verification/ReceiptsProps.v ===== *)
(** What [types/bloom9.go] and [types/receipt.go] promise: a filter answers yes for everything that
    was put in, and a stored receipt is read back, up to what its status field can hold. *)
From S2P Require Import Prelude Bytes HexKeys Rlp RlpRaw RlpStream RlpDecode RlpOptional TrieNode State Transition Transactions TransactionsProps Receipts.
Open Scope Z_scope.

(** ** Bloom filters *)
Section Filters.
Context (keccak : bytes → bytes).
Hypothesis keccak_length : ∀ b, length (keccak b) = 32%nat.
Hypothesis keccak_bytes : ∀ b, is_bytes (keccak b).

(** The bits of an entry: three numbers below 2048 from the first six bytes of its hash. *)
Definition bit_of (h : bytes) (i : nat) : Z := (nth i h 0 * 256 + nth (S i) h 0) mod 2048.
Definition bits (b : bytes) : list Z := [bit_of (keccak b) 0; bit_of (keccak b) 2; bit_of (keccak b) 4].

(** The number [x] has the bits of the entries [es] set, and no other. *)
Definition filters (x : Z) (es : list bytes) : Prop :=
  0 ≤ x < 2 ^ 2048 ∧ ∀ n, 0 ≤ n → Z.testbit x n = true ↔ ∃ e, e ∈ es ∧ n ∈ bits e.

Lemma bit_range h i : 0 ≤ bit_of h i < 2048.
Proof. apply Z.mod_pos_bound. lia. Qed.

Lemma index_nth (h : bytes) i : (i < length h)%nat → index h (Z.of_nat i) = Ret (nth i h 0).
Proof.
  intros Hi. destruct (lookup_lt_is_Some_2 h i Hi) as [x Hx]. rewrite (index_Some h _ x); [|lia|by rewrite Nat2Z.id].
  f_equal. symmetry. by apply nth_lookup_Some.
Qed.

Lemma bloom_bit_ok b i : (i < 31)%nat → bloom_bit (keccak b) (Z.of_nat i) = Ret (bit_of (keccak b) i).
Proof.
  intros Hi. unfold bloom_bit. replace (Z.of_nat i + 1) with (Z.of_nat (S i)) by lia.
  rewrite !index_nth by (rewrite keccak_length; lia). cbn [mbind outcome_bind]. f_equal. unfold bit_of.
  change 2047 with (Z.ones 11). rewrite Z.land_ones by lia. rewrite Z.shiftl_mul_pow2 by lia. change (2 ^ 11) with 2048. f_equal. lia.
Qed.

Lemma testbit_one b n : 0 ≤ b → Z.testbit (Z.shiftl 1 b) n = bool_decide (n = b).
Proof. intros Hb. rewrite Z.shiftl_1_l, Z.pow2_bits_eqb by done. case_bool_decide; [subst; apply Z.eqb_refl|apply Z.eqb_neq; lia]. Qed.

Lemma lor_range x y : 0 ≤ x < 2 ^ 2048 → 0 ≤ y < 2 ^ 2048 → 0 ≤ Z.lor x y < 2 ^ 2048.
Proof.
  intros Hx Hy. assert (0 ≤ Z.lor x y) by (apply Z.lor_nonneg; lia). split; [done|]. destruct (decide (Z.lor x y = 0)) as [->|Hne]; [lia|].
  apply Z.log2_lt_pow2; [lia|]. rewrite Z.log2_lor by lia.
  assert (∀ z, 0 ≤ z < 2 ^ 2048 → Z.log2 z < 2048) as Hlog.
  { intros z Hz. destruct (decide (z = 0)) as [->|]; [done|]. apply Z.log2_lt_pow2; lia. }
  apply Z.max_lub_lt; by apply Hlog.
Qed.

Lemma shift_range b : 0 ≤ b < 2048 → 0 ≤ Z.shiftl 1 b < 2 ^ 2048.
Proof. intros Hb. rewrite Z.shiftl_1_l. split; [by apply Z.pow_nonneg|]. apply Z.pow_lt_mono_r; lia. Qed.

Lemma filters_nil : filters 0 [].
Proof.
  split; [split; [lia|by apply Z.pow_pos_nonneg]|]. intros n Hn. rewrite Z.bits_0. split; [done|]. by intros (e & []%not_elem_of_nil & _).
Qed.

Lemma filters_lor x y es es' : filters x es → filters y es' → filters (Z.lor x y) (es ++ es').
Proof.
  intros [Hx Hxb] [Hy Hyb]. split; [by apply lor_range|]. intros n Hn. rewrite Z.lor_spec, orb_true_iff, Hxb, Hyb by done.
  setoid_rewrite elem_of_app. naive_solver.
Qed.

Lemma bloom9_ok b : ∃ x, bloom9 keccak b = Ret x ∧ filters x [b].
Proof.
  eexists. split.
  - assert (bloom_bit (keccak b) 0 = Ret (bit_of (keccak b) 0)) as H0 by exact (bloom_bit_ok b 0 ltac:(lia)).
    assert (bloom_bit (keccak b) 2 = Ret (bit_of (keccak b) 2)) as H2 by exact (bloom_bit_ok b 2 ltac:(lia)).
    assert (bloom_bit (keccak b) 4 = Ret (bit_of (keccak b) 4)) as H4 by exact (bloom_bit_ok b 4 ltac:(lia)).
    unfold bloom9. rewrite H0, H2, H4. reflexivity.
  - pose proof (λ i, bit_range (keccak b) i) as Hr. split.
    { repeat apply lor_range; try (by apply shift_range, Hr). split; [lia|by apply Z.pow_pos_nonneg]. }
    intros n Hn. rewrite !Z.lor_spec, Z.bits_0, !testbit_one by apply Hr. cbn [orb]. rewrite !orb_true_iff, !bool_decide_eq_true.
    setoid_rewrite list_elem_of_singleton. unfold bits. setoid_rewrite elem_of_cons. setoid_rewrite elem_of_cons.
    setoid_rewrite elem_of_cons. split; [intros Hor; exists b; tauto|]. intros (e & -> & Hor). pose proof (not_elem_of_nil n). tauto.
Qed.

Definition log_entries (l : Log) : list bytes := l_Address l :: Topics l.
Definition entries (rs : list Receipt) : list bytes := concat (map (λ r, concat (map log_entries (Logs r))) rs).

Lemma topics_bloom_ok ts x es : filters x es → ∃ y, topics_bloom keccak ts x = Ret y ∧ filters y (es ++ ts).
Proof.
  revert x es. induction ts as [|t ts IH]; intros x es Hx; [exists x; by rewrite app_nil_r|]. cbn [topics_bloom].
  destruct (bloom9_ok t) as (y & -> & Hy). cbn [mbind outcome_bind]. destruct (IH _ _ (filters_lor _ _ _ _ Hx Hy)) as (z & Hz & Hf).
  exists z. split; [done|]. by rewrite <-app_assoc in Hf.
Qed.

Lemma logs_bloom_ok ls x es : filters x es → ∃ y, logs_bloom keccak ls x = Ret y ∧ filters y (es ++ concat (map log_entries ls)).
Proof.
  revert x es. induction ls as [|l ls IH]; intros x es Hx; [exists x; by rewrite app_nil_r|]. cbn [logs_bloom].
  destruct (bloom9_ok (l_Address l)) as (y & -> & Hy). cbn [mbind outcome_bind].
  destruct (topics_bloom_ok (Topics l) _ _ (filters_lor _ _ _ _ Hx Hy)) as (z & -> & Hz). cbn [mbind outcome_bind].
  destruct (IH _ _ Hz) as (w & Hw & Hf). exists w. split; [done|]. by rewrite <-!app_assoc in Hf.
Qed.

Lemma create_bloom_ok rs x es : filters x es → ∃ y, create_bloom keccak rs x = Ret y ∧ filters y (es ++ entries rs).
Proof.
  revert x es. induction rs as [|r rs IH]; intros x es Hx; [exists x; by rewrite app_nil_r|]. cbn [create_bloom]. unfold LogsBloom.
  destruct (logs_bloom_ok (Logs r) 0 [] filters_nil) as (y & -> & Hy). cbn [mbind outcome_bind].
  destruct (IH _ _ (filters_lor _ _ _ _ Hx Hy)) as (z & Hz & Hf). exists z. split; [done|]. unfold entries in *. by rewrite <-app_assoc in Hf.
Qed.

Lemma be_val_app a b : be_val (a ++ b) = be_val a * 256 ^ len b + be_val b.
Proof.
  induction a as [|x a IH]; cbn [app be_val]; [lia|]. rewrite IH, len_app, Z.pow_add_r by apply len_nonneg. lia.
Qed.

(** Writing a number of at most 256 bytes over one that has no more. *)
Lemma SetBytes_ok x b :
  0 ≤ x < 2 ^ 2048 → length b = 256%nat → is_bytes b → be_val b ≤ x →
  ∃ b', bloom_SetBytes (big_Bytes x) b = Ret b' ∧ length b' = 256%nat ∧ is_bytes b' ∧ Big b' = x.
Proof.
  intros Hx Hl Hb Hle. destruct (big_Bytes_ok x ltac:(lia)) as (Hxb & Hv & _ & Hlen).
  assert (len (big_Bytes x) ≤ 256) as H256 by (apply Hlen; [lia|]; change (256 ^ 256) with (2 ^ 2048); lia). unfold len in H256.
  unfold bloom_SetBytes, BloomByteLength. rewrite bool_decide_eq_false_2 by lia. eexists. split; [reflexivity|].
  set (n := length (big_Bytes x)) in *.
  assert (take (256 - n) b = replicate (256 - n) 0) as Hz.
  { assert (is_bytes (take (256 - n) b) ∧ is_bytes (drop (256 - n) b)) as [Ht Hd] by (apply Forall_app; by rewrite take_drop).
    apply (be_val_inj _ _ Ht); [by apply Forall_replicate|rewrite length_take, length_replicate; lia|].
    pose proof (be_val_zeros (256 - n) []) as H0. rewrite app_nil_r in H0. rewrite H0. cbn [be_val].
    pose proof (be_val_bound _ Ht) as [Hlow _].
    assert (be_val (take (256 - n) b) * 256 ^ Z.of_nat n ≤ x) as Hbig.
    { assert (be_val b = be_val (take (256 - n) b) * 256 ^ Z.of_nat n + be_val (drop (256 - n) b)) as Hsplit.
      { rewrite <-(take_drop (256 - n) b) at 1. rewrite be_val_app. unfold len. rewrite length_drop, Hl. do 3 f_equal. lia. }
      pose proof (be_val_bound _ Hd). lia. }
    assert (x < 256 ^ Z.of_nat n) by (apply Hlen; [lia|]; unfold len; fold n; lia).
    destruct (decide (be_val (take (256 - n) b) = 0)); [done|]. nia. }
  rewrite Hz. split; [rewrite length_app, length_replicate; lia|]. split; [apply Forall_app; split; [by apply Forall_replicate|done]|].
  unfold Big. by rewrite be_val_zeros.
Qed.

Lemma land_covers x y : 0 ≤ y → Z.land x y = y ↔ ∀ n, 0 ≤ n → Z.testbit y n = true → Z.testbit x n = true.
Proof.
  intros Hy. split.
  - intros Heq n Hn Hb. rewrite <-Heq, Z.land_spec in Hb. by apply andb_true_iff in Hb as [? _].
  - intros Hc. apply Z.bits_inj'. intros n Hn. rewrite Z.land_spec. destruct (Z.testbit y n) eqn:Hb; [by rewrite Hc|apply andb_false_r].
Qed.

Definition covered (es : list bytes) (t : bytes) : Prop := ∀ n, n ∈ bits t → ∃ e, e ∈ es ∧ n ∈ bits e.

Lemma bits_range t n : n ∈ bits t → 0 ≤ n.
Proof.
  unfold bits. intros [->|[->|[->|[]%not_elem_of_nil]%elem_of_cons]%elem_of_cons]%elem_of_cons; apply bit_range.
Qed.

Lemma BloomLookup_ok bl x es t :
  Big bl = x → filters x es → ∃ b, BloomLookup keccak bl t = Ret b ∧ (b = true ↔ covered es t).
Proof.
  intros Hbl [Hx Hxb]. unfold BloomLookup. destruct (bloom9_ok t) as (y & -> & [Hy Hyb]). cbn [mbind outcome_bind]. rewrite Hbl.
  eexists. split; [done|]. rewrite bool_decide_eq_true, land_covers by lia. split.
  - intros Hc n Hn. pose proof (bits_range t n Hn). apply Hxb; [done|]. apply Hc; [done|]. apply Hyb; [done|]. exists t.
    split; [by apply list_elem_of_singleton|done].
  - intros Hc n Hn (e & ->%list_elem_of_singleton & He)%Hyb; [|done]. by apply Hxb, Hc.
Qed.

Lemma covered_elem es t : t ∈ es → covered es t.
Proof. intros Ht n Hn. by exists t. Qed.

Lemma BloomLookup_covered bl x es t : Big bl = x → filters x es → covered es t → BloomLookup keccak bl t = Ret true.
Proof. intros Hbl Hx Hc. destruct (BloomLookup_ok bl x es t Hbl Hx) as (b & -> & Hb). by rewrite (proj2 Hb Hc). Qed.

(** C32: bloom filters.  [CreateBloom] never panics, and the filter of a list of receipts answers
    yes for the address and for every topic of every log in them.  It answers yes for something
    else only when each of its three bits is a bit of one of these.  Adding a number keeps every
    yes and answers yes for the number. *)
Theorem bloom_has_no_false_negatives rs :
  ∃ bl, CreateBloom keccak rs = Ret bl ∧
    (∀ r l, r ∈ rs → l ∈ Logs r →
       BloomLookup keccak bl (l_Address l) = Ret true ∧ ∀ t, t ∈ Topics l → BloomLookup keccak bl t = Ret true) ∧
    (∀ t, ∃ b, BloomLookup keccak bl t = Ret b ∧ (b = true ↔ covered (entries rs) t)) ∧
    (∀ d, ∃ bl', bloom_Add keccak d bl = Ret bl' ∧ bloom_Test keccak bl' d = Ret true ∧
       ∀ t, BloomLookup keccak bl t = Ret true → BloomLookup keccak bl' t = Ret true).
Proof.
  destruct (create_bloom_ok rs 0 [] filters_nil) as (x & Hc & Hf). cbn [app] in Hf. unfold CreateBloom. rewrite Hc. cbn [mbind outcome_bind].
  assert (is_bytes (replicate 256 0) ∧ be_val (replicate 256 0) = 0) as [Hz0 Hz]
    by (split; [by apply Forall_replicate|vm_compute; reflexivity]).
  destruct (SetBytes_ok x (replicate 256 0) (proj1 Hf)) as (bl & Hbl & Hlen & Hb & HBig); [apply length_replicate|done|rewrite Hz; apply Hf|].
  exists bl. split; [exact Hbl|]. split; [|split].
  - intros r l Hr Hl. assert (∀ t, t ∈ log_entries l → t ∈ entries rs) as Hin.
    { intros t Ht. apply list_elem_of_In, in_concat. exists (concat (map log_entries (Logs r))).
      split; [apply list_elem_of_In; by apply (list_elem_of_fmap_2 (λ r, concat (map log_entries (Logs r))))|].
      apply in_concat. exists (log_entries l). split; apply list_elem_of_In; [by apply list_elem_of_fmap_2|done]. }
    split; [|intros t Ht]; apply (BloomLookup_covered bl x _ _ HBig Hf), covered_elem, Hin; [by left|by right].
  - intros t. by apply (BloomLookup_ok bl x).
  - intros d. unfold bloom_Add. destruct (bloom9_ok (big_Bytes (Z.abs d))) as (y & -> & Hy). cbn [mbind outcome_bind]. rewrite HBig.
    pose proof (filters_lor x y _ _ Hf Hy) as Hxy.
    assert (x ≤ Z.lor x y) as Hle.
    { apply Z.ldiff_le; [apply Hxy|]. apply Z.bits_inj'. intros n Hn. rewrite Z.ldiff_spec, Z.lor_spec, Z.bits_0. by destruct (Z.testbit x n). }
    destruct (SetBytes_ok (Z.lor x y) bl (proj1 Hxy) Hlen Hb) as (bl' & -> & _ & _ & HBig'); [unfold Big in HBig; by rewrite HBig|].
    exists bl'. split; [done|]. split.
    + apply (BloomLookup_covered bl' _ _ _ HBig' Hxy), covered_elem, elem_of_app. right. by left.
    + intros t Ht. destruct (BloomLookup_ok bl x _ t HBig Hf) as (b & Hlb & Hbt). rewrite Hlb in Ht. injection Ht as ->.
      apply (BloomLookup_covered bl' _ _ _ HBig' Hxy). intros n Hn. destruct (proj1 Hbt eq_refl n Hn) as (e & He & Hne).
      exists e. split; [apply elem_of_app; by left|done].
Qed.
End Filters.

(** ** Receipts *)
Definition width (n : nat) (b : bytes) : Prop := is_bytes b ∧ length b = n.
Definition word64 (x : Z) : Prop := 0 ≤ x < 2 ^ 64.

Record log_ok (l : Log) : Prop := {
  ok_address : width 20 (l_Address l);
  ok_topics : Forall (width 32) (Topics l);
  ok_data : is_bytes (Data l);
  ok_number : word64 (BlockNumber l);
  ok_txhash : width 32 (TxHash l);
  ok_txindex : word64 (TxIndex l);
  ok_blockhash : width 32 (BlockHash l);
  ok_index : word64 (Index l) }.

Record receipt_ok (r : Receipt) : Prop := {
  ok_poststate : is_bytes (PostState r);
  ok_cumulative : 0 ≤ CumulativeGasUsed r;
  ok_bloom : width 256 (Bloom r);
  ok_logs : Forall log_ok (Logs r);
  ok_rc_txhash : width 32 (rc_TxHash r);
  ok_contract : width 20 (ContractAddress r);
  ok_gasused : 0 ≤ GasUsed r }.

Lemma topics_typed ts : Forall (width 32) ts → Forall (has_type (TByteArray 32)) (map GBytes ts).
Proof. induction 1; by constructor. Qed.

Lemma log_typed l : log_ok l → has_type rlpStorageLog_type (rlpStorageLog l).
Proof.
  intros [[] Ht Hd Hn [] Hti [] Hi]. unfold rlpStorageLog, rlpStorageLog_type. repeat (split; [try done|]); try done. exact (topics_typed _ Ht).
Qed.

Lemma statusEncoding_bytes r : is_bytes (PostState r) → is_bytes (statusEncoding r).
Proof. intros Hp. unfold statusEncoding. repeat case_bool_decide; [constructor|by repeat constructor|done]. Qed.

Lemma receipt_typed r : receipt_ok r → has_type receiptStorageRLP_type (receiptStorageRLP r).
Proof.
  intros [Hp Hc [] Hl [] [] Hg]. assert (Forall (has_type (TPtr rlpStorageLog_type)) (map rlpStorageLog (Logs r))) as Hls.
  { apply Forall_map. eapply Forall_impl; [exact Hl|]. intros l Hlok. exact (log_typed l Hlok). }
  unfold receiptStorageRLP, receiptStorageRLP_type. repeat (split; [try done|]); try done. by apply statusEncoding_bytes.
Qed.

Definition not_removed (l : Log) : Log :=
  mkLog (l_Address l) (Topics l) (Data l) (BlockNumber l) (TxHash l) (TxIndex l) (BlockHash l) (Index l) false.

(** What is read back from the store for [r]: one field holds the state root or the status. *)
Definition stored (r : Receipt) : outcome Receipt :=
  let back p st := mkReceipt p st (CumulativeGasUsed r) (Bloom r) (map not_removed (Logs r)) (rc_TxHash r) (ContractAddress r) (GasUsed r) in
  if bool_decide (PostState r = []) then Ret (back [] (if bool_decide (Status r = 0) then 0 else 1))
  else if bool_decide (PostState r = [1]) then Ret (back [] 1)
  else if bool_decide (length (PostState r) = 32%nat) then Ret (back (PostState r) 0)
  else Fail (Errorf "invalid receipt status").

Lemma topics_back ts : mapM bytes_of (map GBytes ts) = Some ts.
Proof. induction ts as [|t ts IH]; [done|]. cbn [map mapM bytes_of mbind option_bind]. by rewrite IH. Qed.

Lemma log_back l : storageLog_of (rlpStorageLog l) = Some (not_removed l).
Proof. unfold storageLog_of, rlpStorageLog. by rewrite topics_back. Qed.

Lemma logs_back ls : mapM storageLog_of (map rlpStorageLog ls) = Some (map not_removed ls).
Proof. induction ls as [|l ls IH]; [done|]. cbn [map mapM]. rewrite log_back. cbn [mbind option_bind]. by rewrite IH. Qed.

Lemma storage_assign_stored r : storage_assign (receiptStorageRLP r) zero_receipt = stored r.
Proof.
  unfold storage_assign, receiptStorageRLP, stored, setStatus, statusEncoding, ReceiptStatusFailed, receiptStatusFailedRLP, receiptStatusSuccessfulRLP.
  rewrite logs_back. destruct (PostState r) as [|x p] eqn:Hp.
  - destruct (bool_decide (Status r = 0)); reflexivity.
  - rewrite (bool_decide_eq_false_2 (length (x :: p) = 0%nat)) by done. rewrite (bool_decide_eq_false_2 (x :: p = [])) by done.
    destruct (bool_decide (x :: p = [1])); [done|]. by destruct (bool_decide (length (x :: p) = 32%nat)).
Qed.

(** Decoding a struct and then assigning its fields. *)
Lemma DecodeWhole_assign {A} b t v (f : gval → outcome A) :
  DecodeBytes b t = Ret v → DecodeWhole b (v ← Decode (S (S (length b))) t; lift (f v)) = f v.
Proof.
  unfold DecodeBytes, DecodeBytes_with, DecodeWhole, mbind, M_bind, lift.
  destruct (Decode _ t _) as [[v'| | |] s]; try done. destruct (bool_decide _); [done|]. intros [= ->]. by destruct (f v).
Qed.

Lemma stored_receipt r :
  let b := written (receiptStorageRLP r) in
  receipt_ok r → len b < 2 ^ 63 →
  storage_EncodeRLP r [] = Ret b ∧
  DecodeWhole b (storage_DecodeRLP (S (S (length b))) zero_receipt) = stored r.
Proof.
  intros b Hr Hl. pose proof (receipt_typed r Hr) as Ht. assert (plain receiptStorageRLP_type = true) as Hpl by reflexivity.
  destruct (typed_writable _ _ Hpl Ht) as [Hok (p & He & Hb)]. pose proof (encoding_written _ _ He) as ->. fold b in He, Hb. split.
  - apply (Encode_written (receiptStorageRLP r) []); [|change (len b < 2 ^ 64); lia]. split; [done|]. by exists b.
  - rewrite <-storage_assign_stored. apply (DecodeWhole_assign b receiptStorageRLP_type _ (λ v, storage_assign v zero_receipt)).
    apply (DecodeBytes_spec b receiptStorageRLP_type Hpl Hb Hl). by split.
Qed.

(** C31: stored receipts.  A receipt is written to the store and read back with every field but
    two: the mark of a removed log is dropped, and the state root and the status share a field.
    A receipt with a root comes back as failed, whatever its status was; without a root the
    status is kept; a root that is not 32 bytes long makes the receipt unreadable.  The fields of the
    receipt have their widths and are not negative, and its encoding is shorter than [2^63]. *)
Theorem stored_receipt_round_trip r :
  let b := written (receiptStorageRLP r) in
  receipt_ok r → len b < 2 ^ 63 →
  storage_EncodeRLP r [] = Ret b ∧
  DecodeWhole b (storage_DecodeRLP (S (S (length b))) zero_receipt) = stored r.
Proof. apply stored_receipt. Qed.

Definition example_receipt : Receipt :=
  mkReceipt (replicate 32 7) 1 21000 (replicate 256 0)
    [mkLog (replicate 20 1) [replicate 32 2] [3; 4] 5 (replicate 32 6) 0 (replicate 32 8) 1 true] (replicate 32 9) (replicate 20 0) 21000.

Lemma stored_receipt_round_trip_witness :
  DecodeWhole (written (receiptStorageRLP example_receipt))
      (storage_DecodeRLP (S (S (length (written (receiptStorageRLP example_receipt))))) zero_receipt)
    = Ret (mkReceipt (replicate 32 7) 0 21000 (replicate 256 0)
        [mkLog (replicate 20 1) [replicate 32 2] [3; 4] 5 (replicate 32 6) 0 (replicate 32 8) 1 false] (replicate 32 9) (replicate 20 0) 21000).
Proof.
  refine (proj2 (stored_receipt_round_trip example_receipt _ _)); [|vm_compute; reflexivity].
  split; unfold width, word64, is_bytes, is_byte; try decided. constructor; [|constructor]. split; unfold width, word64, is_bytes, is_byte; decided.
Defined.

Lemma bloom_has_no_false_negatives_witness :
  ∃ bl, CreateBloom ToyCurve.toy_keccak [example_receipt] = Ret bl ∧ BloomLookup ToyCurve.toy_keccak bl (replicate 20 1) = Ret true.
Proof.
  destruct (bloom_has_no_false_negatives ToyCurve.toy_keccak (λ b, length_be_bytes _ _) [example_receipt]) as (bl & Hbl & Hin & _).
  exists bl. split; [exact Hbl|]. refine (proj1 (Hin example_receipt (mkLog (replicate 20 1) [replicate 32 2] [3; 4] 5 (replicate 32 6) 0 (replicate 32 8) 1 true) _ _)); by left.
Defined.
