(* ===== verification/ProxyState.v ===== *)
(** [proxy/proxy_state.go], [proxy/proxy_was_state.go], [proxy/mem_pool.go] and the commit of
    [proxy/inmem_proxy.go]: the application on top of the consensus.  It applies the transactions
    of a block to a state ahead of the store, commits them, and opens the state again at a start.

    The state, the state ahead and at first that of the pool are copies that share one trie
    ([StateDB.Copy] copies the pointer): a call on one of them leaves the trie to the others.  All
    of them read the one store, so what is written to it is given to all of them.  The pool opens
    the trie of a root from the store; the code may find it among the tries it committed before,
    with the same root. *)
From S2P Require Import Prelude Bytes Types HexKeys Rlp RlpRaw RlpStream RlpDecode RlpOptional TrieNode HexUtil State Transition BigMath Transactions Receipts.
Open Scope Z_scope.

(** What the application asks of its store, and how a database and a trie see that it was written. *)
Class NodeStore (SDB TR W : Type) := {
  store_Get : W → bytes → outcome bytes;
  NewDatabase : W → SDB;
  on_store : W → SDB → SDB;
  trie_on_store : W → TR → TR }.

Definition gasLimit : Z := 1000000000000000000.
(** "receipts-" and "LastTx" *)
Definition receiptsPrefix : bytes := [114; 101; 99; 101; 105; 112; 116; 115; 45].
Definition headTxKey : bytes := [76; 97; 115; 116; 84; 120].

(** A genesis account, with its text as it was read. *)
Record AccountEntry := mkEntry { e_Code : string; e_Storage : gmap string string; e_Balance : string }.
Abbreviation AccountMap := (gmap string AccountEntry).

Section Proxy.
Context {SDB TR W : Type} `{StateTrie TR} `{StateDatabase SDB TR} `{Writer TR W} `{NodeStore SDB TR W} `{RangeOrder} `{Crypto}.
Context {PrivateKey PublicKey : Type} `{Curve PrivateKey PublicKey} (keccak : bytes → bytes) (json_block : Block → gerror + bytes).
Abbreviation SDB_ := (StateDB SDB TR).

(** ** Data *)
Record WriteAheadState := mkWAS {
  was_stateDB : SDB_; was_txIndex : Z; was_transactions : list Transaction; was_receipts : list Receipt;
  was_allLogs : list Log; was_totalUsedGas : Z; was_gp : option Z }.

(** [pool_shares] is whether the state of the pool still has the trie of the others. *)
Record TxPool := mkPool {
  pool_stateDB : SDB_; pool_signer : BasicSigner; pool_gasLimit : Z; pool_totalUsedGas : option Z; pool_gp : option Z;
  pool_shares : bool }.

(** The pointers are nil until the state is initialised. *)
Record PState := mkPState {
  p_db : W; p_statedb : option SDB_; p_was : option WriteAheadState; p_txPool : option TxPool; p_signer : BasicSigner }.

Definition set_was_state (s : SDB_) (w : WriteAheadState) : WriteAheadState :=
  mkWAS s (was_txIndex w) (was_transactions w) (was_receipts w) (was_allLogs w) (was_totalUsedGas w) (was_gp w).
Definition set_pool_state (s : SDB_) (q : TxPool) : TxPool :=
  mkPool s (pool_signer q) (pool_gasLimit q) (pool_totalUsedGas q) (pool_gp q) (pool_shares q).
Definition set_was (w : WriteAheadState) (p : PState) : PState := mkPState (p_db p) (p_statedb p) (Some w) (p_txPool p) (p_signer p).
Definition set_statedb (s : option SDB_) (p : PState) : PState := mkPState (p_db p) s (p_was p) (p_txPool p) (p_signer p).
Definition set_txPool (q : TxPool) (p : PState) : PState := mkPState (p_db p) (p_statedb p) (p_was p) (Some q) (p_signer p).

(** The trie of one of the states that share it is that of all. *)
Definition spread (t : TR) (p : PState) : PState :=
  mkPState (p_db p) (set_trie t <$> p_statedb p) ((λ w, set_was_state (set_trie t (was_stateDB w)) w) <$> p_was p)
    ((λ q, if pool_shares q then set_pool_state (set_trie t (pool_stateDB q)) q else q) <$> p_txPool p) (p_signer p).

(** The store was written: every database and trie reads it. *)
Definition object_on (w : W) (o : stateObject TR) : stateObject TR :=
  match obj_trie o with Some t => set_obj_trie (trie_on_store w t) o | None => o end.
Definition entry_on (w : W) (e : journalEntry TR) : journalEntry TR :=
  match e with resetObjectChange o => resetObjectChange (object_on w o) | e => e end.
Definition state_on (w : W) (s : SDB_) : SDB_ :=
  mkState (on_store w (db s)) (trie_on_store w (trie s)) (object_on w <$> stateObjects s) (stateObjectsDirty s) (dbErr s) (refund s)
    (thash s) (bhash s) (txIndex s) (logs s) (logSize s) (preimages s) (map (entry_on w) (journal s)) (validRevisions s) (nextRevisionId s).
Definition rehome (w : W) (p : PState) : PState :=
  mkPState w (state_on w <$> p_statedb p) ((λ x, set_was_state (state_on w (was_stateDB x)) x) <$> p_was p)
    ((λ q, set_pool_state (state_on w (pool_stateDB q)) q) <$> p_txPool p) (p_signer p).

(** ** Calls on the parts *)
Definition the_was : M PState WriteAheadState :=
  p ← get; match p_was p with Some w => mret w | None => panic "nil pointer dereference" end.

Definition on_was {A} (f : M SDB_ A) : M PState A := λ p,
  match p_was p with
  | Some w => let '(r, s) := f (was_stateDB w) in (r, spread (trie s) (set_was (set_was_state s w) p))
  | None => (Panic "nil pointer dereference", p)
  end.

Definition Put_ (k v : bytes) : M PState unit := λ p,
  let '(e, w) := Put (p_db p) k v in (match e with None => Ret tt | Some e => Fail e end, rehome w p).

(** A computation on a transaction that is a local variable. *)
Definition on_tx {A} (f : M Transaction A) (t : Transaction) : M PState (A * Transaction) := λ p,
  let '(r, t') := f t in
  (match r with Ret a => Ret (a, t') | Fail e => Fail e | Panic x => Panic x | OutOfFuel => OutOfFuel end, p).

(** ** Committing ([proxy_was_state.go]) *)
Definition tx_key (t : Transaction) : outcome bytes := fst (Transactions.Hash keccak t).

Definition writeHead : M PState unit :=
  w ← the_was;
  h ← lift (match last (was_transactions w) with Some t => tx_key t | None => RlpHash keccak zero_transaction end);
  Put_ headTxKey h.

Definition writeTransactions : M PState unit :=
  w ← the_was;
  for_each (λ t, data ← lift (EncodeRLP t []); h ← lift (tx_key t); Put_ h data) (was_transactions w).

Definition writeReceipts : M PState unit :=
  w ← the_was;
  for_each (λ r, data ← lift (storage_EncodeRLP r []); Put_ (receiptsPrefix ++ rc_TxHash r) data) (was_receipts w).

(** [was.stateDB.CommitTo(was.db, true)] *)
Definition commit_state : M PState bytes := λ p,
  match p_was p with
  | Some w =>
    let '(r, (s, d)) := state_CommitTo keccak true (was_stateDB w, p_db p) in
    (r, rehome d (spread (trie s) (set_was (set_was_state s w) p)))
  | None => (Panic "nil pointer dereference", p)
  end.

Definition Commit : M PState bytes :=
  root ← commit_state;
  writeHead ;;
  writeTransactions ;;
  writeReceipts ;;
  mret root.

(** ** The pool ([mem_pool.go]) *)
Definition NewTxPool (s : SDB_) (signer : BasicSigner) (limit : Z) : TxPool := mkPool s signer limit None None true.

(** A nil pool is dereferenced.  A new trie is opened, so nothing is shared afterwards. *)
Definition pool_Reset (root : bytes) : M PState unit := λ p,
  match p_txPool p with
  | Some q =>
    match Reset root (pool_stateDB q) with
    | (Ret _, s) => (Ret tt, set_txPool (mkPool s (pool_signer q) (pool_gasLimit q) (Some 0) (Some (0 + pool_gasLimit q)) false) p)
    | (r, _) => (r, p)
    end
  | None => (Panic "nil pointer dereference", p)
  end.

(** The error of [ProcessMessage] is not looked at, and then its gas is nil. *)
Definition pool_process (q : TxPool) (msg : Message) : M PState unit := λ p,
  let '(o, (gp', s)) := ProcessMessage keccak msg (pool_gp q, pool_stateDB q) in
  let charged total := set_txPool (mkPool s (pool_signer q) (pool_gasLimit q) total gp' (pool_shares q)) p in
  let shared p := if pool_shares q then spread (trie s) p else p in
  match o, pool_totalUsedGas q with
  | Ret gas, Some total => (Ret tt, shared (charged (Some (total + gas))))
  | Ret _, None => (Panic "nil pointer dereference", shared (charged None))
  | Fail _, total => (Panic "nil pointer dereference", shared (charged total))
  | Panic x, total => (Panic x, shared (charged total))
  | OutOfFuel, total => (OutOfFuel, shared (charged total))
  end.

Definition CheckTx (tx : Transaction) : M PState unit :=
  p ← get;
  match p_txPool p with
  | None => panic "nil pointer dereference"
  | Some q => r ← on_tx (AsMessage keccak (pool_signer q)) tx; pool_process q (fst r)
  end.

(** ** The state ([proxy_state.go]) *)
Definition GetReceipt (txHash : bytes) : M PState Receipt :=
  p ← get;
  data ← lift (store_Get (p_db p) (receiptsPrefix ++ txHash));
  lift (DecodeWhole data (storage_DecodeRLP (S (S (length data))) zero_receipt)).

Definition GetTransaction (hash : bytes) : M PState Transaction :=
  p ← get;
  data ← lift (store_Get (p_db p) hash);
  lift (DecodeWhole data (DecodeRLP (S (S (length data))))).

(** [AddGas] on a new pool. *)
Definition resetWAS : M PState unit :=
  p ← get;
  match p_statedb p with
  | Some s => c ← lift (Copy keccak s); modify (set_was (mkWAS c 0 [] [] [] 0 (Some (0 + gasLimit))))
  | None => panic "nil pointer dereference"
  end.

Definition commit : M PState bytes :=
  root ← Commit;
  w ← the_was;
  modify (set_statedb (Some (was_stateDB w))) ;;
  resetWAS ;;
  pool_Reset root ;;
  mret root.

(** The root a state is opened with; [None] is an early return with the empty state. *)
Definition head_root : M PState (option bytes) :=
  emptyTxHash ← lift (RlpHash keccak zero_transaction);
  p ← get;
  r ← try (lift (store_Get (p_db p) headTxKey));
  match r with
  | inl _ | inr [] => mret (Some zero)
  | inr data =>
    let headTxHash := BytesToHash data in
    if bool_decide (headTxHash = emptyTxHash) then mret None
    else
      receipt ← GetReceipt headTxHash;
      mret (Some (if bool_decide (PostState receipt = []) then zero else BytesToHash (PostState receipt)))
  end.

(** [s.statedb, err = state.New(root, state.NewDatabase(s.db))] *)
Definition open_state (root : bytes) : M PState (option gerror) := λ p,
  match State.New root (NewDatabase (p_db p)) with
  | Ret s => (Ret None, set_statedb (Some s) p)
  | Fail e => (Ret (Some e), set_statedb None p)
  | Panic x => (Panic x, p)
  | OutOfFuel => (OutOfFuel, p)
  end.

Definition returning (e : option gerror) : M PState unit := match e with Some e => fail e | None => mret tt end.

Definition InitState : M PState unit :=
  root ← head_root;
  match root with
  | None => e ← open_state zero; returning e
  | Some root =>
    e ← open_state root;
    p ← get;
    match p_statedb p with
    | Some s => c ← lift (Copy keccak s); modify (set_txPool (NewTxPool c (p_signer p) gasLimit)) ;; returning e
    | None => panic "nil pointer dereference"
    end
  end.

Definition NewState (store : W) : outcome PState :=
  match (InitState ;; resetWAS) (mkPState store None None None NewBasicSigner) with
  | (Ret _, p) => Ret p
  | (Fail e, _) => Fail e
  | (Panic x, _) => Panic x
  | (OutOfFuel, _) => OutOfFuel
  end.

(** [ProcessMessage(msg, s.was.gp, s.was.stateDB)] *)
Definition process (msg : Message) : M PState Z := λ p,
  match p_was p with
  | Some w =>
    let '(r, (gp', s)) := ProcessMessage keccak msg (was_gp w, was_stateDB w) in
    (r, spread (trie s) (set_was (mkWAS s (was_txIndex w) (was_transactions w) (was_receipts w) (was_allLogs w) (was_totalUsedGas w) gp') p))
  | None => (Panic "nil pointer dereference", p)
  end.

(** What the log of the code calls on the transaction: [Hash], and [String], which derives the
    sender and ignores an error. *)
Definition log_tx : M Transaction unit :=
  Transactions.Hash keccak ;;
  try (Sender keccak NewBasicSigner) ;;
  Transactions.Hash keccak ;;
  mret tt.

Definition new_receipt (root h : bytes) (gas total : Z) (logs : list Log) : outcome Receipt :=
  let r := NewReceipt root false total in
  let r := mkReceipt (PostState r) (Status r) (CumulativeGasUsed r) (Bloom r) logs h (ContractAddress r) gas in
  bloom ← CreateBloom keccak [r];
  Ret (mkReceipt (PostState r) (Status r) (CumulativeGasUsed r) bloom logs h (ContractAddress r) gas).

Definition applyTransaction (txBytes : bytes) (txIndex : Z) (blockHash : bytes) : M PState unit :=
  t ← lift (DecodeReader txBytes (DecodeRLP (S (S (length txBytes)))));
  '(_, t) ← on_tx log_tx t;
  p ← get;
  '(msg, t) ← on_tx (AsMessage keccak (p_signer p)) t;
  '(h, t) ← on_tx (Transactions.Hash keccak) t;
  on_was (Prepare h blockHash txIndex) ;;
  gas ← process msg;
  w ← the_was;
  let total := was_totalUsedGas w + gas in
  modify (set_was (mkWAS (was_stateDB w) (was_txIndex w) (was_transactions w) (was_receipts w) (was_allLogs w) total (was_gp w))) ;;
  root ← on_was (IntermediateRoot keccak true);
  logs ← on_was (GetLogs h);
  receipt ← lift (new_receipt root h gas total logs);
  w ← the_was;
  modify (set_was (mkWAS (was_stateDB w) (was_txIndex w + 1) (was_transactions w ++ [t]) (was_receipts w ++ [receipt])
                         (was_allLogs w ++ logs) (was_totalUsedGas w) (was_gp w))).

(** The transactions from the index [i] on; the first error ends the loop. *)
Fixpoint apply_all (i : Z) (txs : list bytes) (blockHash : bytes) : M PState unit :=
  match txs with
  | [] => mret tt
  | tx :: txs' => applyTransaction tx i blockHash ;; apply_all (i + 1) txs' blockHash
  end.

(** An error of [Hash] is dropped, and the hash is then zero. *)
Definition block_Hash (b : Block) : bytes := match json_block b with inr data => SHA256 data | inl _ => [] end.

Definition ProcessBlock (b : Block) : M PState bytes :=
  apply_all 0 (bb_Transactions (b_Body b)) (BytesToHash (block_Hash b)) ;;
  commit.

Definition create_account (addr : string) (account : AccountEntry) : M PState unit :=
  let address := HexToAddress (chars addr) in
  balance ← lift (MustParseBig256 (chars (e_Balance account)));
  on_was (AddBalance keccak address balance) ;;
  on_was (SetCode keccak address (Some (Hex2Bytes (chars (e_Code account))))) ;;
  for_each (λ kv, on_was (SetState keccak address (HexToHash (chars (fst kv))) (HexToHash (chars (snd kv))))) (range (e_Storage account)).

Definition CreateAccounts (accounts : AccountMap) : M PState unit :=
  for_each (λ kv, create_account (fst kv) (snd kv)) (range accounts) ;;
  commit ;;
  mret tt.

(** ** Reading *)
Definition on_statedb {A} (f : M SDB_ A) : M PState A := λ p,
  match p_statedb p with
  | Some s => let '(r, s') := f s in (r, spread (trie s') (set_statedb (Some s') p))
  | None => (Panic "nil pointer dereference", p)
  end.
Definition p_GetBalance (addr : bytes) : M PState Z := on_statedb (GetBalance keccak addr).
Definition p_GetNonce (addr : bytes) : M PState Z := on_was (GetNonce keccak addr).
Definition GetPoolNonce (addr : bytes) : M PState Z := λ p,
  match p_txPool p with
  | Some q =>
    let '(r, s) := GetNonce keccak addr (pool_stateDB q) in
    let p := set_txPool (set_pool_state s q) p in (r, if pool_shares q then spread (trie s) p else p)
  | None => (Panic "nil pointer dereference", p)
  end.

(** ** [InmemAppProxy.commit] *)
Definition inmem_commit (b : Block) : M PState bytes :=
  for_each (λ tx, try (lift (DecodeReader tx (DecodeRLP (S (S (length tx)))))) ;; mret tt) (bb_Transactions (b_Body b)) ;;
  ProcessBlock b.
End Proxy.
