(* ===== verification/ProxyStateProps.v ===== *)
(** What the application promises: whatever was applied ahead is found in the store once a block
    is committed, and what a start makes of the store. *)
From S2P Require Import Prelude Bytes Types HexKeys Rlp RlpRaw RlpStream RlpReader RlpDecode RlpOptional TrieNode HexUtil Trie SecureTrie State StateDatabase Transition BigMath Transactions TransactionsProps Receipts ReceiptsProps ProxyState.
Open Scope Z_scope.

(** ** Writing a list of keys and values *)
Definition latest (k : bytes) (kvs : list (bytes * bytes)) : option bytes :=
  fold_left (λ r kv, if decide (fst kv = k) then Some (snd kv) else r) kvs None.

Lemma latest_snoc k kvs kv : latest k (kvs ++ [kv]) = if decide (fst kv = k) then Some (snd kv) else latest k kvs.
Proof. unfold latest. by rewrite fold_left_app. Qed.

Lemma latest_app k kvs kvs' : latest k (kvs ++ kvs') = match latest k kvs' with Some v => Some v | None => latest k kvs end.
Proof.
  induction kvs' as [|kv kvs' IH] using rev_ind; [by rewrite app_nil_r|]. rewrite app_assoc, !latest_snoc, IH. by case_decide.
Qed.

Lemma latest_Some k v kvs : latest k kvs = Some v → (k, v) ∈ kvs.
Proof.
  induction kvs as [|[k' v'] kvs IH] using rev_ind; [done|]. rewrite latest_snoc, elem_of_app. cbn.
  case_decide as Hk; [intros [= ->]; subst; right; by apply list_elem_of_singleton|]. intros ?. left. auto.
Qed.

Lemma latest_is_Some k v kvs : (k, v) ∈ kvs → is_Some (latest k kvs).
Proof.
  induction kvs as [|[k' v'] kvs IH] using rev_ind; [by intros ?%elem_of_nil|]. rewrite latest_snoc, elem_of_app, list_elem_of_singleton. cbn.
  intros [Hin|[= -> ->]]; [case_decide; [by eexists|auto]|]. by rewrite decide_True.
Qed.

(** The last entry of a key counts. *)
Lemma latest_at k v kvs i :
  kvs !! i = Some (k, v) → (∀ j v', kvs !! j = Some (k, v') → (j ≤ i)%nat) → latest k kvs = Some v.
Proof.
  induction kvs as [|[k' v'] kvs IH] using rev_ind; [done|]. intros Hi Hlast. rewrite latest_snoc. cbn [fst snd]. case_decide as Hk.
  - subst k'. assert ((length kvs ≤ i)%nat) as Hle by (by apply (Hlast _ v'), list_lookup_middle).
    rewrite lookup_app_r in Hi by done. apply list_lookup_singleton_Some in Hi as [_ Hi]. congruence.
  - apply lookup_app_Some in Hi as [Hi|[_ [_ Hi]%list_lookup_singleton_Some]]; [|congruence].
    apply IH; [done|]. intros j v1 Hj. apply (Hlast j v1). by apply lookup_app_l_Some.
Qed.

(** The keys that are in the list have their value, when equal keys have equal values. *)
Lemma latest_functional k v kvs : (k, v) ∈ kvs → (∀ v', (k, v') ∈ kvs → v' = v) → latest k kvs = Some v.
Proof. intros Hin Hfun. destruct (latest_is_Some _ _ _ Hin) as [v' Hv']. rewrite Hv'. f_equal. by apply Hfun, latest_Some. Qed.

(** Where equal transactions have equal lengths. *)
Lemma list_nil_length d p : tx_ok d → Recipient d = None → encoding (list_nil_gval d) p → len (written (txdata_gval d)) = len p.
Proof.
  intros Hok Hn He. apply (encoding_list _ p GStruct (or_intror eq_refl)) in He as (q & -> & ps & Hps & ->).
  pose proof (Forall2_length _ _ _ Hps) as Hlen. destruct ps as [|p1 [|p2 [|p3 [|p4 ps]]]]; try discriminate Hlen.
  apply Forall2_cons_1 in Hps as [H1 Hps]. apply Forall2_cons_1 in Hps as [H2 Hps]. apply Forall2_cons_1 in Hps as [H3 Hps].
  apply Forall2_cons_1 in Hps as [H4 Hps]. apply (encoding_one _ (RList [])) in H4; [|done].
  assert (encoding (txdata_gval d) (header List_ (len (concat (p1 :: p2 :: p3 :: [128] :: ps))) ++ concat (p1 :: p2 :: p3 :: [128] :: ps))) as He'.
  { apply (encoding_list _ _ GStruct (or_intror eq_refl)). eexists. split; [done|]. eexists. split; [|done].
    repeat (apply Forall2_cons_2; [done|]). apply Forall2_cons_2; [rewrite Hn; by apply (encoding_one _ (RStr []))|done]. }
  rewrite <-(encoding_written _ _ He'). subst p4. cbn [concat]. rewrite !len_app. change (len (enc (RList []))) with 1. change (len [128]) with 1. done.
Qed.

Lemma reads_small d b : reads d b → len (written (txdata_gval d)) = len b.
Proof. intros [Hok [He|[Hn He]]]; [by rewrite <-(encoding_written _ _ He)|by apply list_nil_length]. Qed.

(** ** The store *)
Class NodeStoreLaws (SDB TR W : Type) `{Writer TR W} `{NodeStore SDB TR W} : Prop := {
  put_law w k v w' : Put w k v = (None, w') →
    store_Get w' k = Ret v ∧ ∀ k', k' ≠ k → store_Get w' k' = store_Get w k' }.

Section Props.
Context {SDB TR W : Type} `{StateTrie TR} `{StateDatabase SDB TR} `{Writer TR W} `{NodeStore SDB TR W} `{RangeOrder} `{Crypto} `{!NodeStoreLaws SDB TR W}.
Context {PrivateKey PublicKey : Type} `{Curve PrivateKey PublicKey} (keccak : bytes → bytes) (json_block : Block → gerror + bytes).
Context (keccak_len : ∀ b, length (keccak b) = 32%nat).
Abbreviation PS := (PState (SDB := SDB) (TR := TR) (W := W)).
Implicit Types (p : PS).

Definition txhash (d : txdata) : bytes := keccak (written (txdata_gval d)).

(** A transaction that is applied: well formed, with its hash cached. *)
Definition applied (t : Transaction) : Prop :=
  tx_ok (tx_data t) ∧ len (written (txdata_gval (tx_data t))) < 2 ^ 63 ∧ tx_hash t = Some (txhash (tx_data t)).

(** What waits to be committed. *)
Definition pending p : option (list Transaction * list Receipt) :=
  (λ w, (was_transactions w, was_receipts w)) <$> p_was p.

(** Nothing but the states changes. *)
Definition same p p' : Prop :=
  p_db p' = p_db p ∧ pending p' = pending p ∧ p_signer p' = p_signer p ∧ (p_txPool p' = None ↔ p_txPool p = None).

Lemma same_refl p : same p p.
Proof. done. Qed.

Lemma same_trans p1 p2 p3 : same p1 p2 → same p2 p3 → same p1 p3.
Proof. intros (A1 & A2 & A3 & A4) (B1 & B2 & B3 & B4). split_and!; try congruence. by rewrite B4. Qed.

Lemma pending_spread t p : same p (spread t p).
Proof. destruct p as [d s [w|] [q|] sg]; by split_and!. Qed.

Lemma pending_rehome w p : pending (rehome w p) = pending p ∧ (p_txPool (rehome w p) = None ↔ p_txPool p = None) ∧ p_signer (rehome w p) = p_signer p.
Proof. destruct p as [d s [x|] [q|] sg]; by split_and!. Qed.

(** *** Calls that only change the states *)
Definition quietly {A} (m : M PS A) : Prop := ∀ p, same p (snd (m p)).

Lemma quietly_ret {A} (a : A) : quietly (mret a).
Proof. intros p. apply same_refl. Qed.

Lemma quietly_bind {A B} (m : M PS A) (f : A → M PS B) : quietly m → (∀ a, quietly (f a)) → quietly (m ≫= f).
Proof.
  intros Hm Hf p. specialize (Hm p). unfold mbind, M_bind. destruct (m p) as [[a|e|x|] p']; cbn in *; try done.
  eapply same_trans; [done|]. apply Hf.
Qed.

Lemma quietly_lift {A} (o : outcome A) : quietly (lift o).
Proof. intros p. apply same_refl. Qed.

Lemma quietly_get : quietly get.
Proof. intros p. apply same_refl. Qed.

Lemma quietly_the_was : quietly the_was.
Proof. intros p. unfold the_was, mbind, M_bind, get. by destruct (p_was p). Qed.

Lemma quietly_on_tx {A} (f : M Transaction A) t : quietly (on_tx f t).
Proof. intros p. unfold on_tx. by destruct (f t). Qed.

Lemma same_set_was w w' p : p_was p = Some w → was_transactions w' = was_transactions w → was_receipts w' = was_receipts w → same p (set_was w' p).
Proof. intros Hw Ht Hr. split_and!; try done. unfold pending. rewrite Hw. cbn. by rewrite Ht, Hr. Qed.

Lemma quietly_on_was {A} (f : M (StateDB SDB TR) A) : quietly (on_was f).
Proof.
  intros p. unfold on_was. destruct (p_was p) as [w|] eqn:Hw; [|done]. destruct (f (was_stateDB w)) as [r s].
  eapply same_trans; [|apply pending_spread]. by apply (same_set_was w).
Qed.

Lemma quietly_process msg : quietly (process keccak msg).
Proof.
  intros p. unfold process. destruct (p_was p) as [w|] eqn:Hw; [|done]. destruct (ProcessMessage keccak msg _) as [r [gp' s]].
  eapply same_trans; [|apply pending_spread]. by apply (same_set_was w).
Qed.

Lemma quietly_for_each {A} (f : A → M PS unit) l : (∀ x, quietly (f x)) → quietly (for_each f l).
Proof. intros Hf. induction l as [|x l IH]; [apply quietly_ret|]. apply quietly_bind; [done|]. by intros _. Qed.

Lemma wp_quietly {A} (m : M PS A) p (Q : outcome A → PS → Prop) : quietly m → (∀ o p', same p p' → Q o p') → wp m p Q.
Proof. intros Hm HQ. apply HQ, Hm. Qed.

Lemma wp_the_was p (Q : outcome WriteAheadState → PS → Prop) :
  (∀ w, p_was p = Some w → Q (Ret w) p) → (p_was p = None → ∀ x, Q (Panic x) p) → wp the_was p Q.
Proof. intros HS HN. unfold wp, the_was, mbind, M_bind, get. destruct (p_was p); cbn; auto. Qed.

(** *** Transactions *)
Lemma RlpHash_tx d : tx_ok d → len (written (txdata_gval d)) < 2 ^ 63 → RlpHash keccak (txdata_gval d) = Ret (txhash d).
Proof.
  intros Hok Hl. unfold RlpHash. rewrite Encode_written; [done|by apply writable_txdata|]. lia.
Qed.

(** [t'] is [t] with more in its caches. *)
Definition cached (t t' : Transaction) : Prop :=
  tx_data t' = tx_data t ∧ (tx_hash t' = Some (txhash (tx_data t)) ∨ tx_hash t' = tx_hash t).

Definition hashable (t : Transaction) : Prop :=
  tx_ok (tx_data t) ∧ len (written (txdata_gval (tx_data t))) < 2 ^ 63 ∧ (tx_hash t = None ∨ tx_hash t = Some (txhash (tx_data t))).

Lemma Hash_hashable t : hashable t → ∃ t', Transactions.Hash keccak t = (Ret (txhash (tx_data t)), t') ∧ tx_data t' = tx_data t ∧ applied t'.
Proof.
  intros (Hok & Hl & [Hh|Hh]); unfold Transactions.Hash, mbind, M_bind, get; cbn; rewrite Hh.
  - unfold lift. rewrite RlpHash_tx by done. eexists. split; [done|]. by split; [|split_and!].
  - exists t. split; [done|]. by split; [|split_and!].
Qed.

Lemma applied_hashable t : applied t → hashable t.
Proof. intros (Hok & Hl & Hh). split_and!; [done|done|by right]. Qed.

Lemma Sender_keeps sg t : tx_data (snd (Sender keccak sg t)) = tx_data t ∧ tx_hash (snd (Sender keccak sg t)) = tx_hash t.
Proof.
  unfold Sender, mbind, M_bind, get, lift. cbn. destruct (tx_from t) as [[s a]|].
  - destruct (Equal s sg); [done|]. by destruct (signer_Sender keccak sg t).
  - by destruct (signer_Sender keccak sg t).
Qed.

Lemma applied_keeps t t' : tx_data t' = tx_data t → tx_hash t' = tx_hash t → applied t → applied t'.
Proof. unfold applied. by intros -> ->. Qed.

Lemma log_tx_applied t : hashable t → wp (log_tx keccak) t (λ o t', tx_data t' = tx_data t ∧ applied t').
Proof.
  intros Ht. destruct (Hash_hashable t Ht) as (t1 & Hrun1 & Hd1 & Ha1). unfold log_tx, wp. rewrite (run_bind_Ret _ _ _ _ _ Hrun1).
  destruct (Sender_keeps NewBasicSigner t1) as [Hd2 Hh2]. unfold try, mbind, M_bind.
  destruct (Sender keccak NewBasicSigner t1) as [o t2]. cbn in Hd2, Hh2. pose proof (applied_keeps t1 t2 Hd2 Hh2 Ha1) as Ha2.
  destruct (Hash_hashable t2 (applied_hashable _ Ha2)) as (t3 & Hrun3 & Hd3 & Ha3).
  destruct o; rewrite ?Hrun3; cbn; (split; [congruence|done]).
Qed.

Lemma AsMessage_keeps sg t : tx_data (snd (AsMessage keccak sg t)) = tx_data t ∧ tx_hash (snd (AsMessage keccak sg t)) = tx_hash t.
Proof.
  unfold AsMessage. unfold mbind at 1, M_bind at 1, get. cbn beta iota. pose proof (Sender_keeps sg t) as Hk. unfold mbind, M_bind.
  by destruct (Sender keccak sg t) as [[a|e|x|] t'].
Qed.

Lemma wp_on_tx {A} (f : M Transaction A) t p (Q : outcome (A * Transaction) → PS → Prop) :
  wp f t (λ o t', Q match o with Ret a => Ret (a, t') | Fail e => Fail e | Panic x => Panic x | OutOfFuel => OutOfFuel end p) →
  wp (on_tx f t) p Q.
Proof. unfold wp, on_tx. by destruct (f t). Qed.

Lemma decoded_hashable tx : is_bytes tx → len tx < 2 ^ 63 →
  match DecodeReader tx (DecodeRLP (S (S (length tx)))) with
  | Ret t => hashable t ∧ ∃ b rest, tx = b ++ rest ∧ reads (tx_data t) b
  | Fail _ => True | _ => False
  end.
Proof.
  intros Hb Hl. destruct (DecodeReader_spec (S (S (length tx))) tx _ _ (transaction_decoder _ (S (S (length tx)))) Hb Hl ltac:(lia)) as [Hd _].
  destruct (DecodeReader tx _) as [t| | |]; try done. destruct Hd as (b & rest & -> & d & Hr & q & _ & ->). split.
  - split_and!; [apply Hr| |by left]. change (len (written (txdata_gval d)) < 2 ^ 63). rewrite (reads_small d b Hr). rewrite len_app in Hl. pose proof (len_nonneg rest). lia.
  - by exists b, rest.
Qed.

(** ** Applying a transaction *)
Definition adds (tx : bytes) p p' : Prop :=
  ∃ ts rs t r, pending p = Some (ts, rs) ∧ pending p' = Some (ts ++ [t], rs ++ [r]) ∧ applied t ∧ rc_TxHash r = txhash (tx_data t) ∧
    ∃ b rest, tx = b ++ rest ∧ reads (tx_data t) b.

(** Everything but the list of what waits. *)
Definition around p p' : Prop := p_db p' = p_db p ∧ p_signer p' = p_signer p ∧ (p_txPool p' = None ↔ p_txPool p = None).

Lemma same_around p p' : same p p' → around p p'.
Proof. intros (A1 & A2 & A3 & A4). done. Qed.

Definition post {A} (tx : bytes) p0 (o : outcome A) p' : Prop :=
  around p0 p' ∧ match o with Ret _ => adds tx p0 p' | _ => pending p' = pending p0 end.

Lemma post_step {A B} tx (m : M PS A) (f : A → M PS B) p0 p :
  quietly m → same p0 p → (∀ a p1, same p0 p1 → wp (f a) p1 (post tx p0)) → wp (m ≫= f) p (post tx p0).
Proof.
  intros Hm Hs Hf. apply wp_bind. apply wp_quietly; [done|]. intros o p1 Hs1.
  assert (same p0 p1) as Hs' by by eapply same_trans. destruct o; [by apply Hf|split; [by apply same_around|apply Hs']..].
Qed.

Lemma set_total_same p0 p w w' : same p0 p → p_was p = Some w → was_transactions w' = was_transactions w → was_receipts w' = was_receipts w → same p0 (set_was w' p).
Proof. intros Hs Hw Ht Hr. eapply same_trans; [done|]. by apply (same_set_was w). Qed.

Lemma new_receipt_hash root h gas total logs r : new_receipt keccak root h gas total logs = Ret r → rc_TxHash r = h.
Proof. unfold new_receipt. cbv zeta. destruct (CreateBloom keccak _); try done. cbn [mbind outcome_bind]. by intros [= <-]. Qed.

Lemma apply_spec tx i bh p : is_bytes tx → len tx < 2 ^ 63 → wp (applyTransaction keccak tx i bh) p (post tx p).
Proof.
  intros Hb Hl. pose proof (decoded_hashable tx Hb Hl) as Hdec. unfold applyTransaction. apply wp_bind. unfold wp at 1, lift at 1. cbn [fst snd].
  destruct (DecodeReader tx _) as [t| | |]; try done. destruct Hdec as (Ht & b & rest & Htx & Hr).
  apply wp_bind, wp_on_tx. eapply wp_mono; [by apply log_tx_applied|]. intros o t1 [Hd1 Ha1]. destruct o; try done.
  cbn beta iota. apply (post_step tx get _ p p); [apply quietly_get|done|]. intros p1 p2 Hs2.
  apply wp_bind, wp_on_tx. unfold wp at 1. destruct (AsMessage_keeps (p_signer p1) t1) as [Hd2 Hh2].
  destruct (AsMessage keccak (p_signer p1) t1) as [[msg|e|x|] t2]; cbn in Hd2, Hh2; cbn [fst snd]; try (split; [by apply same_around|apply Hs2]).
  pose proof (applied_keeps t1 t2 Hd2 Hh2 Ha1) as Ha2. destruct (Hash_hashable t2 (applied_hashable _ Ha2)) as (t3 & Hrun3 & Hd3 & Ha3).
  apply wp_bind, wp_on_tx. unfold wp at 1. rewrite Hrun3. cbn [fst snd].
  apply post_step; [apply quietly_on_was|done|]. intros _ p3 Hs3.
  apply post_step; [apply quietly_process|done|]. intros gas p4 Hs4.
  apply wp_bind, wp_the_was; [|intros _ x; split; [by apply same_around|apply Hs4]]. intros w4 Hw4. cbv zeta. apply wp_modify_bind.
  set (p5 := set_was _ p4). assert (same p p5) as Hs5 by (by apply (set_total_same _ _ w4)).
  apply post_step; [apply quietly_on_was|done|]. intros root p6 Hs6.
  apply post_step; [apply quietly_on_was|done|]. intros logs p7 Hs7.
  apply wp_bind. unfold wp at 1, lift. cbn [fst snd].
  destruct (new_receipt keccak root (txhash (tx_data t2)) gas (was_totalUsedGas w4 + gas) logs) as [r|e|x|] eqn:Hrec; try (split; [by apply same_around|apply Hs7]).
  apply wp_bind, wp_the_was; [|intros _ x; split; [by apply same_around|apply Hs7]]. intros w7 Hw7. unfold wp, modify. cbn [fst snd].
  destruct Hs7 as (S1 & S2 & S3 & S4). split; [by split_and!|].
  exists (was_transactions w7), (was_receipts w7), t3, r. split; [rewrite <-S2; unfold pending; by rewrite Hw7|]. split; [done|]. split; [done|].
  split; [rewrite (new_receipt_hash _ _ _ _ _ _ Hrec); by rewrite Hd3|]. exists b, rest. by rewrite Hd3, Hd2, Hd1.
Qed.

Lemma around_trans p1 p2 p3 : around p1 p2 → around p2 p3 → around p1 p3.
Proof. intros (A1 & A2 & A3) (B1 & B2 & B3). split_and!; try congruence. by rewrite B3. Qed.

(** What was decoded from [tx]. *)
Definition from_bytes (tx : bytes) (t : Transaction) : Prop := ∃ b rest, tx = b ++ rest ∧ reads (tx_data t) b.

Definition applied_pair (t : Transaction) (r : Receipt) : Prop := applied t ∧ rc_TxHash r = txhash (tx_data t).

(** ** Applying a block *)
Definition small_block (txs : list bytes) : Prop := Forall (λ tx, is_bytes tx ∧ len tx < 2 ^ 63) txs.

(** A prefix of the block is added to what waits, all of it when there is no error; the store is
    not touched. *)
Lemma apply_all_spec i txs bh p ts rs : small_block txs → pending p = Some (ts, rs) →
  wp (apply_all keccak i txs bh) p (λ o p', around p p' ∧ ∃ n ts' rs',
    pending p' = Some (ts ++ ts', rs ++ rs') ∧ Forall2 from_bytes (take n txs) ts' ∧ Forall2 applied_pair ts' rs' ∧
    match o with Ret _ => n = length txs | _ => (n < length txs)%nat end).
Proof.
  intros Hsm. revert i p ts rs. induction Hsm as [|tx txs [Hb Hl] _ IH]; intros i p ts rs Hp; cbn [apply_all].
  - apply wp_ret. split; [done|]. exists 0%nat, [], []. rewrite !app_nil_r. split_and!; [done|constructor|constructor|done].
  - apply wp_bind. eapply wp_mono; [by apply apply_spec|]. intros o p1 [Har Ho]. destruct o as [u|e|x|].
    2-4: split; [done|]; exists 0%nat, [], []; rewrite !app_nil_r; cbn [length]; split_and!; [congruence|constructor|constructor|lia].
    destruct Ho as (ts0 & rs0 & t & r & Hp0 & Hp1 & Ht & Hr & Hfrom). rewrite Hp in Hp0. injection Hp0 as <- <-.
    eapply wp_mono; [by apply (IH (i + 1) p1 _ _ Hp1)|]. intros o p2 (Har2 & n & ts' & rs' & Hp2 & Hf & Ha & Hn).
    split; [by eapply around_trans|]. exists (S n), (t :: ts'), (r :: rs'). rewrite <-!app_assoc in Hp2. cbn [app] in Hp2.
    split; [done|]. split; [by constructor|]. split; [by constructor|]. destruct o; cbn [length]; lia.
Qed.

(** ** Writing *)
Definition stores p0 (kvs : list (bytes * bytes)) p : Prop :=
  (∀ k, store_Get (p_db p) k = match latest k kvs with Some v => Ret v | None => store_Get (p_db p0) k end) ∧
  pending p = pending p0 ∧ (p_txPool p = None ↔ p_txPool p0 = None).

Lemma stores_nil p : stores p [] p.
Proof. done. Qed.

Lemma stores_put p0 kvs p k v : stores p0 kvs p →
  wp (Put_ k v) p (λ o p', match o with Ret _ => stores p0 (kvs ++ [(k, v)]) p' | _ => True end).
Proof.
  intros (Hget & Hpend & Hpool). unfold wp, Put_. destruct (Put (p_db p) k v) as [[e|] w] eqn:Hput; cbn [fst snd]; [done|].
  destruct (put_law _ _ _ _ Hput) as [Hk Hother]. destruct (pending_rehome w p) as (R1 & R2 & R3).
  split; [|split; [by rewrite R1|by rewrite R2]]. intros k'. cbn [rehome p_db]. rewrite latest_snoc. cbn [fst snd].
  case_decide as Heq; [by subst k'|]. rewrite Hother by done. apply Hget.
Qed.

(** A loop that writes one entry for each element. *)
Lemma stores_each {A} (f : A → M PS unit) (kv : A → option (bytes * bytes)) l p0 kvs p :
  (∀ x q kvs', stores p0 kvs' q → wp (f x) q (λ o q', match o with Ret _ => ∃ e, kv x = Some e ∧ stores p0 (kvs' ++ [e]) q' | _ => True end)) →
  stores p0 kvs p →
  wp (for_each f l) p (λ o p', match o with Ret _ => ∃ es, mapM kv l = Some es ∧ stores p0 (kvs ++ es) p' | _ => True end).
Proof.
  intros Hf. revert kvs p. induction l as [|x l IH]; intros kvs p Hp; cbn [for_each].
  - apply wp_ret. exists []. by rewrite app_nil_r.
  - apply wp_bind. eapply wp_mono; [by apply Hf|]. intros [u|e|y|] q; try done. intros (e & He & Hq).
    eapply wp_mono; [by apply IH|]. intros [u'|e'|y|] q'; try done. intros (es & Hes & Hq'). exists (e :: es).
    split; [cbn; by rewrite He, Hes|]. by rewrite <-app_assoc in Hq'.
Qed.

(** ** Committing *)
Definition tx_entry (t : Transaction) : option (bytes * bytes) :=
  match EncodeRLP t [], tx_key keccak t with Ret data, Ret h => Some (h, data) | _, _ => None end.
Definition rc_entry (r : Receipt) : option (bytes * bytes) :=
  match storage_EncodeRLP r [] with Ret data => Some (receiptsPrefix ++ rc_TxHash r, data) | _ => None end.
Definition head_hash (ts : list Transaction) : outcome bytes :=
  match last ts with Some t => tx_key keccak t | None => RlpHash keccak zero_transaction end.

Lemma stores_the_was p0 kvs p ts rs (Q : outcome WriteAheadState → PS → Prop) :
  stores p0 kvs p → pending p0 = Some (ts, rs) →
  (∀ w, was_transactions w = ts → was_receipts w = rs → Q (Ret w) p) → wp the_was p Q.
Proof.
  intros (_ & Hpend & _) Hp HQ. apply wp_the_was.
  - intros w Hw. rewrite Hp in Hpend. unfold pending in Hpend. rewrite Hw in Hpend. injection Hpend as <- <-. by apply HQ.
  - intros Hn. rewrite Hp in Hpend. unfold pending in Hpend. by rewrite Hn in Hpend.
Qed.

Lemma wp_lift_or {A B} (o : outcome A) (f : A → M PS B) p (Q : outcome B → PS → Prop) :
  (∀ a, o = Ret a → wp (f a) p Q) → (∀ e, Q (Fail e) p) → (∀ x, Q (Panic x) p) → Q OutOfFuel p → wp (lift o ≫= f) p Q.
Proof. intros Hr Hf Hp Ho. apply wp_bind. unfold wp, lift. cbn. destruct o; auto. by apply Hr. Qed.

Lemma writeHead_spec p0 p ts rs : stores p0 [] p → pending p0 = Some (ts, rs) →
  wp (writeHead keccak) p (λ o p', match o with Ret _ => ∃ h, head_hash ts = Ret h ∧ stores p0 [(headTxKey, h)] p' | _ => True end).
Proof.
  intros Hs Hp. apply wp_bind. eapply stores_the_was; [done..|]. intros w Ht Hr. apply wp_lift_or; try done. intros h Hh. rewrite Ht in Hh.
  eapply wp_mono; [by apply (stores_put p0 [])|]. intros [u| | |] p'; try done. intros Hs'. by exists h.
Qed.

Lemma writeTransactions_spec p0 kvs p ts rs : stores p0 kvs p → pending p0 = Some (ts, rs) →
  wp (writeTransactions keccak) p (λ o p', match o with Ret _ => ∃ es, mapM tx_entry ts = Some es ∧ stores p0 (kvs ++ es) p' | _ => True end).
Proof.
  intros Hs Hp. apply wp_bind. eapply stores_the_was; [done..|]. intros w Ht Hr. rewrite Ht. apply stores_each; [|done].
  intros t q kvs' Hq. apply wp_lift_or; try done. intros data Hdata. apply wp_lift_or; try done. intros h Hh.
  eapply wp_mono; [by apply (stores_put p0 kvs')|]. intros [u| | |] q'; try done. intros Hq'. exists (h, data). unfold tx_entry. by rewrite Hdata, Hh.
Qed.

Lemma writeReceipts_spec p0 kvs p ts rs : stores p0 kvs p → pending p0 = Some (ts, rs) →
  wp writeReceipts p (λ o p', match o with Ret _ => ∃ es, mapM rc_entry rs = Some es ∧ stores p0 (kvs ++ es) p' | _ => True end).
Proof.
  intros Hs Hp. apply wp_bind. eapply stores_the_was; [done..|]. intros w Ht Hr. rewrite Hr. apply stores_each; [|done].
  intros r q kvs' Hq. apply wp_lift_or; try done. intros data Hdata.
  eapply wp_mono; [by apply (stores_put p0 kvs')|]. intros [u| | |] q'; try done. intros Hq'. eexists. unfold rc_entry. by rewrite Hdata.
Qed.

Lemma commit_state_keeps p : pending (snd (commit_state keccak p)) = pending p ∧ (p_txPool (snd (commit_state keccak p)) = None ↔ p_txPool p = None).
Proof.
  unfold commit_state. destruct (p_was p) as [w|] eqn:Hw; [|done]. destruct (state_CommitTo keccak true _) as [r [s d]]. cbn [snd].
  destruct (pending_rehome d (spread (trie s) (set_was (set_was_state s w) p))) as (R1 & R2 & _).
  destruct (pending_spread (trie s) (set_was (set_was_state s w) p)) as (_ & S2 & _ & S4).
  destruct (same_set_was w (set_was_state s w) p Hw eq_refl eq_refl) as (_ & T2 & _ & T4). split; [congruence|]. by rewrite R2, S4, T4.
Qed.

(** What is in the store after [kvs] were written. *)
Definition committed (ts : list Transaction) (rs : list Receipt) (w : W) : Prop :=
  ∃ (w0 : W) h es es', head_hash ts = Ret h ∧ mapM tx_entry ts = Some es ∧ mapM rc_entry rs = Some es' ∧
    ∀ k, store_Get w k = match latest k ((headTxKey, h) :: es ++ es') with Some v => Ret v | None => store_Get w0 k end.

Lemma was_Commit_spec p ts rs : pending p = Some (ts, rs) →
  wp (Commit keccak) p (λ o p', match o with
    Ret _ => committed ts rs (p_db p') ∧ pending p' = Some (ts, rs) ∧ (p_txPool p' = None ↔ p_txPool p = None) | _ => True end).
Proof.
  intros Hp. unfold Commit. apply wp_bind. unfold wp at 1. destruct (commit_state_keeps p) as [Hp0 Hpool]. rewrite Hp in Hp0.
  destruct (commit_state keccak p) as [[root| | |] p0]; try done. cbn [fst snd] in *.
  apply wp_bind. eapply wp_mono; [by apply (writeHead_spec p0 p0 ts rs)|]. intros [u1| | |] p1; try done. intros (h & Hh & Hs1).
  apply wp_bind. eapply wp_mono; [by apply (writeTransactions_spec p0 [(headTxKey, h)] p1 ts rs)|]. intros [u2| | |] p2; try done. intros (es & Hes & Hs2).
  apply wp_bind. eapply wp_mono; [by apply (writeReceipts_spec p0 ([(headTxKey, h)] ++ es) p2 ts rs)|]. intros [u3| | |] p3; try done. intros (es' & Hes' & Hs3).
  apply wp_ret. destruct Hs3 as (Hget & Hpend & Hpl). split; [|split; [congruence|by rewrite Hpl]]. exists (p_db p0), h, es, es'.
  rewrite <-app_assoc in Hget. done.
Qed.

Lemma resetWAS_spec p : wp (resetWAS keccak) p (λ o p', match o with
  Ret _ => p_db p' = p_db p ∧ pending p' = Some ([], []) ∧ p_txPool p' = p_txPool p | _ => True end).
Proof.
  unfold resetWAS, wp, mbind, M_bind, get. cbn beta iota. destruct (p_statedb p) as [s|]; [|done].
  unfold lift. by destruct (Copy keccak s).
Qed.

(** Copying a state returns, unless a dirty address has no object. *)
Lemma Copy_or (s : StateDB SDB TR) : (∃ c, Copy keccak s = Ret c) ∨ Copy keccak s = Panic "nil pointer dereference".
Proof.
  unfold Copy. generalize (map fst (range (stateObjectsDirty s))), (∅ : gmap bytes (stateObject TR)). intros l.
  induction l as [|a l IH]; intros m; cbn [copy_objects]; [by left; eexists|]. destruct (stateObjects s !! a); [apply IH|by right].
Qed.

(** Once the write-ahead state is committed, the store and the state are as it left them, whatever
    becomes of the call; without a pool it panics, and when it returns nothing waits any more. *)
Lemma commit_after root p p' w : Commit keccak p = (Ret root, p') → p_was p' = Some w →
  p_db (snd (commit keccak p)) = p_db p' ∧ p_statedb (snd (commit keccak p)) = Some (was_stateDB w) ∧
  (p_txPool p' = None → fst (commit keccak p) = Panic "nil pointer dereference") ∧
  (∀ root', fst (commit keccak p) = Ret root' → root' = root ∧ pending (snd (commit keccak p)) = Some ([], []) ∧ is_Some (p_txPool p')).
Proof.
  intros Hc Hw. unfold commit, mbind, M_bind. rewrite Hc. unfold the_was, mbind, M_bind, get. rewrite Hw. cbn. unfold resetWAS, mbind, M_bind, get, lift. cbn.
  destruct (Copy_or (was_stateDB w)) as [[c ->]| ->]; [|by split_and!]. unfold pool_Reset. cbn.
  destruct (p_txPool p') as [q|]; [|by split_and!]. destruct (Reset root (pool_stateDB q)) as [[]]; split_and!; try done.
  by intros root' [= <-].
Qed.

Lemma commit_failed p : (∀ root, fst (Commit keccak p) ≠ Ret root) →
  snd (commit keccak p) = snd (Commit keccak p) ∧ ∀ root, fst (commit keccak p) ≠ Ret root.
Proof. intros Hf. unfold commit, mbind, M_bind. destruct (Commit keccak p) as [[r| | |] p'] eqn:Hc; try done. by destruct (Hf r). Qed.

Lemma commit_spec p ts rs : pending p = Some (ts, rs) →
  wp (commit keccak) p (λ o p', match o with
    Ret _ => committed ts rs (p_db p') ∧ pending p' = Some ([], []) ∧ is_Some (p_txPool p) | _ => True end).
Proof.
  intros Hp. unfold wp. pose proof (was_Commit_spec p ts rs Hp) as HC. unfold wp in HC. destruct (Commit keccak p) as [o p'] eqn:Hc. cbn [fst snd] in HC.
  destruct o as [root| | |].
  2-4: destruct (commit_failed p) as [_ Hno]; [by rewrite Hc|]; destruct (fst (commit keccak p)) as [r| | |]; try done; by destruct (Hno r).
  destruct HC as (Hcom & Hp' & Hpool). destruct (p_was p') as [w|] eqn:Hw; [|unfold pending in Hp'; by rewrite Hw in Hp'].
  destruct (commit_after _ _ _ _ Hc Hw) as (Hdb & _ & _ & Hret). destruct (fst (commit keccak p)) as [r| | |]; try done.
  destruct (Hret r eq_refl) as (_ & Hpend & Hq). rewrite Hdb. split; [done|]. split; [done|].
  destruct (p_txPool p); [by eexists|]. rewrite (proj2 Hpool eq_refl) in Hq. by destruct Hq.
Qed.

(** *** Nothing that waits is forgotten by a commit that fails *)
Definition keeps_waiting {A} (m : M PS A) : Prop := ∀ p, pending (snd (m p)) = pending p.

Lemma waiting_bind {A B} (m : M PS A) (f : A → M PS B) : keeps_waiting m → (∀ a, keeps_waiting (f a)) → keeps_waiting (m ≫= f).
Proof. intros Hm Hf p. specialize (Hm p). unfold mbind, M_bind. destruct (m p) as [[a| | |] p']; cbn in *; try done. by rewrite Hf. Qed.

Lemma waiting_quietly {A} (m : M PS A) : quietly m → keeps_waiting m.
Proof. intros Hm p. apply Hm. Qed.

Lemma waiting_Put k v : keeps_waiting (Put_ k v).
Proof. intros p. unfold Put_. destruct (Put (p_db p) k v) as [e w]. apply pending_rehome. Qed.

Lemma waiting_for_each {A} (f : A → M PS unit) l : (∀ x, keeps_waiting (f x)) → keeps_waiting (for_each f l).
Proof. intros Hf. induction l as [|x l IH]; [done|]. apply waiting_bind; [done|]. by intros _. Qed.

Lemma waiting_with_was {A} (f : WriteAheadState → M PS A) : (∀ w, keeps_waiting (f w)) → keeps_waiting (the_was ≫= f).
Proof. intros Hf. by apply waiting_bind; [apply waiting_quietly, quietly_the_was|]. Qed.

Lemma waiting_lift {A B} (o : outcome A) (f : A → M PS B) : (∀ a, keeps_waiting (f a)) → keeps_waiting (lift o ≫= f).
Proof. intros Hf. by apply waiting_bind; [apply waiting_quietly, quietly_lift|]. Qed.

Lemma waiting_Commit : keeps_waiting (Commit keccak).
Proof.
  apply waiting_bind; [intros p; apply commit_state_keeps|]. intros root. apply waiting_bind.
  - apply waiting_with_was. intros w. apply waiting_lift. intros h. apply waiting_Put.
  - intros _. apply waiting_bind.
    + apply waiting_with_was. intros w. apply waiting_for_each. intros t. do 2 (apply waiting_lift; intros ?). apply waiting_Put.
    + intros _. apply waiting_bind; [|by intros _ p].
      apply waiting_with_was. intros w. apply waiting_for_each. intros r. apply waiting_lift. intros d. apply waiting_Put.
Qed.

(** *** Reading what was committed *)
Definition hash_of (t : Transaction) : bytes := txhash (tx_data t).

Lemma applied_key t : applied t → tx_key keccak t = Ret (hash_of t).
Proof. intros (_ & _ & Hh). unfold tx_key, Transactions.Hash, mbind, M_bind, get. cbn. by rewrite Hh. Qed.

Lemma applied_entry t : applied t → tx_entry t = Some (hash_of t, written (txdata_gval (tx_data t))).
Proof.
  intros Ht. unfold tx_entry. rewrite applied_key by done. destruct Ht as (Hok & Hl & _). unfold EncodeRLP.
  rewrite Encode_written; [done|by apply writable_txdata|lia].
Qed.

Lemma hash_length t : length (hash_of t) = 32%nat.
Proof. apply keccak_len. Qed.

Lemma entries_lengths ts rs es es' : Forall2 applied_pair ts rs → mapM tx_entry ts = Some es → mapM rc_entry rs = Some es' →
  Forall2 (λ t e, e = (hash_of t, written (txdata_gval (tx_data t)))) ts es ∧
  Forall2 (λ tr e, fst e = receiptsPrefix ++ hash_of (fst tr) ∧ storage_EncodeRLP (snd tr) [] = Ret (snd e)) (zip ts rs) es'.
Proof.
  intros Hap. revert es es'. induction Hap as [|t r ts rs [Ht Hr] _ IH]; intros es es'; cbn.
  - intros [= <-] [= <-]. split; constructor.
  - rewrite applied_entry by done. cbn. destruct (mapM tx_entry ts) as [es0|]; [|done]. intros [= <-].
    destruct (rc_entry r) as [e|] eqn:He; [|done]. cbn. destruct (mapM rc_entry rs) as [es0'|]; [|done]. intros [= <-].
    destruct (IH _ _ eq_refl eq_refl) as [IH1 IH2]. split; constructor; try done. unfold rc_entry in He. rewrite Hr in He.
    destruct (storage_EncodeRLP r []) as [data| | |] eqn:Hd; try done. injection He as <-. split; [done|exact Hd].
Qed.

Lemma committed_head ts rs w : Forall2 applied_pair ts rs → committed ts rs w → ∃ h, head_hash ts = Ret h ∧ store_Get w headTxKey = Ret h.
Proof.
  intros Hap (w0 & h & es & es' & Hh & Hes & Hes' & Hget). exists h. split; [done|]. rewrite Hget.
  destruct (entries_lengths _ _ _ _ Hap Hes Hes') as [F1 F2]. rewrite (latest_functional headTxKey h); [done|by left|].
  intros v' [[= ->]|[Hin|Hin]%elem_of_app]%elem_of_cons; [done|exfalso..].
  - apply list_elem_of_lookup in Hin as [i Hi]. destruct (Forall2_lookup_r _ _ _ _ _ F1 Hi) as (t & _ & [= Hk _]).
    apply (f_equal length) in Hk. by rewrite hash_length in Hk.
  - apply list_elem_of_lookup in Hin as [i Hi]. destruct (Forall2_lookup_r _ _ _ _ _ F2 Hi) as (tr & _ & Hk & _).
    apply (f_equal length) in Hk. rewrite length_app, hash_length in Hk. done.
Qed.

(** No transaction after the [i]-th has the hash of [t]. *)
Definition last_of (ts : list Transaction) (i : nat) (t : Transaction) : Prop :=
  ts !! i = Some t ∧ ∀ j t', ts !! j = Some t' → hash_of t' = hash_of t → (j ≤ i)%nat.

Lemma committed_entries ts rs w i t r : Forall2 applied_pair ts rs → committed ts rs w → last_of ts i t → rs !! i = Some r →
  store_Get w (hash_of t) = Ret (written (txdata_gval (tx_data t))) ∧
  ∃ data, storage_EncodeRLP r [] = Ret data ∧ store_Get w (receiptsPrefix ++ hash_of t) = Ret data.
Proof.
  intros Hap (w0 & h & es & es' & Hh & Hes & Hes' & Hget) [Hi Hlast] Hr. destruct (entries_lengths _ _ _ _ Hap Hes Hes') as [F1 F2]. split.
  - destruct (Forall2_lookup_l _ _ _ _ _ F1 Hi) as (e & He & ->). rewrite Hget.
    rewrite (latest_at _ (written (txdata_gval (tx_data t))) _ (S i)); [done|cbn; by apply lookup_app_l_Some|].
    intros [|j] v'; [lia|]. cbn. intros [Hj|[_ Hj]]%lookup_app_Some.
    + destruct (Forall2_lookup_r _ _ _ _ _ F1 Hj) as (t' & Ht' & [= Hk ->]). pose proof (Hlast _ _ Ht' (eq_sym Hk)). lia.
    + destruct (Forall2_lookup_r _ _ _ _ _ F2 Hj) as (tr & _ & Hk & _). apply (f_equal length) in Hk. cbn in Hk. rewrite ?length_app, !hash_length in Hk. done.
  - assert (zip ts rs !! i = Some (t, r)) as Hz by (apply lookup_zip_with_Some; eauto).
    destruct (Forall2_lookup_l _ _ _ _ _ F2 Hz) as ([k data] & He & Hk & Hdata). cbn in Hk, Hdata. subst k. exists data. split; [done|]. rewrite Hget.
    assert ((es ++ es') !! (length es + i)%nat = Some (receiptsPrefix ++ hash_of t, data)) as Hpos
      by (rewrite lookup_app_r by lia; by replace (length es + i - length es)%nat with i by lia).
    rewrite (latest_at _ data _ (S (length es + i))); [done|exact Hpos|].
    intros [|j] v'; [lia|]. cbn. intros [Hj%lookup_lt_Some|[Hle Hj]]%lookup_app_Some; [lia|].
    destruct (Forall2_lookup_r _ _ _ _ _ F2 Hj) as ([t' r'] & Ht' & Hk & _). cbn in Hk. injection Hk as Hk.
    apply lookup_zip_with_Some in Ht' as (t1 & r1 & [= <- <-] & Ht' & _). pose proof (Hlast _ _ Ht' (eq_sym Hk)). lia.
Qed.

Lemma GetTransaction_stored d p : tx_ok d → len (written (txdata_gval d)) < 2 ^ 63 → store_Get (p_db p) (txhash d) = Ret (written (txdata_gval d)) →
  GetTransaction (txhash d) p = (Ret (set_size (len (written (txdata_gval d))) (new_tx d)), p).
Proof.
  intros Hok Hl Hget. unfold GetTransaction. unfold mbind at 1, M_bind at 1, get. cbn beta iota. rewrite Hget.
  unfold mbind, M_bind, lift. f_equal. apply decode_transaction; [by apply writable_written, writable_txdata|done|by apply reads_written].
Qed.

Lemma GetReceipt_stored h r data p : receipt_ok r → len (written (receiptStorageRLP r)) < 2 ^ 63 → storage_EncodeRLP r [] = Ret data →
  store_Get (p_db p) (receiptsPrefix ++ h) = Ret data → GetReceipt h p = (stored r, p).
Proof.
  intros Hok Hl Henc Hget. destruct (stored_receipt r Hok Hl) as [He Hd]. rewrite He in Henc. injection Henc as <-.
  unfold GetReceipt. unfold mbind at 1, M_bind at 1, get. cbn beta iota. rewrite Hget. unfold mbind, M_bind, lift. f_equal. exact Hd.
Qed.

(** The store has the transactions and their receipts. *)
Definition recorded (ts : list Transaction) (rs : list Receipt) p : Prop :=
  (∃ h, head_hash ts = Ret h ∧ store_Get (p_db p) headTxKey = Ret h) ∧
  ∀ i t r, last_of ts i t → rs !! i = Some r →
    GetTransaction (hash_of t) p = (Ret (set_size (len (written (txdata_gval (tx_data t)))) (new_tx (tx_data t))), p) ∧
    (∃ data, storage_EncodeRLP r [] = Ret data ∧ store_Get (p_db p) (receiptsPrefix ++ hash_of t) = Ret data) ∧
    (receipt_ok r → len (written (receiptStorageRLP r)) < 2 ^ 63 → GetReceipt (hash_of t) p = (stored r, p)).

Lemma committed_recorded ts rs p : Forall2 applied_pair ts rs → committed ts rs (p_db p) → recorded ts rs p.
Proof.
  intros Hap Hcom. split; [by eapply committed_head|]. intros i t r Hi Hr.
  destruct (committed_entries _ _ _ _ _ _ Hap Hcom Hi Hr) as [Ht (data & Henc & Hget)].
  destruct (Forall2_lookup_l _ _ _ _ _ Hap (proj1 Hi)) as (r' & _ & (Hok & Hl & _) & _).
  split; [by apply GetTransaction_stored|]. split; [eauto|]. intros Hrok Hrl. by eapply GetReceipt_stored.
Qed.

(** C37: a block.  [ts] and [rs] are what waits from before, [p1] is the node once the transactions of
    the block have been applied, as far as that went.
    - When a transaction cannot be applied, the call does not return a root, the store is untouched,
      and the transactions before it stay among those that wait, for the next block to commit.
    - When all are applied and [WriteAheadState.Commit] does not return, neither does the call.  The
      store may have been written in part; everything still waits.
    - When [Commit] returns, the transactions that waited and those of the block, each decoded from
      the front of its bytes, are in the store, and stay there also if the call then panics or fails
      at the pool: the head is the hash of the last one; the last one with its hash is found under
      this hash by [GetTransaction], and the encoding of its receipt under the hash with the prefix;
      if the fields of the receipt have their widths and are not negative, [GetReceipt] reads it.
      The call returns no other root than that of [Commit], and when it does nothing waits.
    What waits from before are well-formed transactions with their hashes cached, each with its
    receipt ([applied_pair]); the transactions of the block are bytes and shorter than [2^63]. *)
Theorem block_is_committed b p ts rs :
  pending p = Some (ts, rs) → Forall2 applied_pair ts rs → small_block (bb_Transactions (b_Body b)) →
  let p1 := snd (apply_all keccak 0 (bb_Transactions (b_Body b)) (BytesToHash (block_Hash json_block b)) p) in
  let p' := snd (ProcessBlock keccak json_block b p) in
  ∃ n ts' rs',
    p_db p1 = p_db p ∧ pending p1 = Some (ts ++ ts', rs ++ rs') ∧
    Forall2 from_bytes (take n (bb_Transactions (b_Body b))) ts' ∧ Forall2 applied_pair ts' rs' ∧
    ((n < length (bb_Transactions (b_Body b)))%nat ∧ p' = p1 ∧ (∀ root, fst (ProcessBlock keccak json_block b p) ≠ Ret root) ∨
     n = length (bb_Transactions (b_Body b)) ∧ ProcessBlock keccak json_block b p = commit keccak p1 ∧
     ((∀ root, fst (Commit keccak p1) ≠ Ret root) ∧ p' = snd (Commit keccak p1) ∧ pending p' = Some (ts ++ ts', rs ++ rs') ∧
        (∀ root, fst (ProcessBlock keccak json_block b p) ≠ Ret root) ∨
      ∃ root, fst (Commit keccak p1) = Ret root ∧ recorded (ts ++ ts') (rs ++ rs') p' ∧
        ∀ root', fst (ProcessBlock keccak json_block b p) = Ret root' → root' = root ∧ pending p' = Some ([], []))).
Proof.
  intros Hp Hap Hsm. cbv zeta. unfold ProcessBlock.
  pose proof (apply_all_spec 0 _ (BytesToHash (block_Hash json_block b)) p ts rs Hsm Hp) as Happly. unfold wp in Happly.
  unfold mbind, M_bind. destruct (apply_all keccak 0 _ _ p) as [o p1]. cbn [fst snd] in *.
  destruct Happly as ((Hdb & _ & _) & n & ts' & rs' & Hp1 & Hfrom & Hap' & Hn). exists n, ts', rs'.
  split; [done|]. split; [done|]. split; [done|]. split; [done|]. destruct o as [u|e|x|]; [|by left..]. right. split; [done|]. split; [done|].
  pose proof (was_Commit_spec p1 _ _ Hp1) as HC. unfold wp in HC. pose proof (waiting_Commit p1) as Hwait.
  destruct (Commit keccak p1) as [o p2] eqn:Hc. cbn [fst snd] in *. destruct o as [root| | |].
  2-4: left; split; [done|]; destruct (commit_failed p1) as [Hs Hno]; [by rewrite Hc|]; rewrite Hc in Hs; cbn [snd] in Hs; rewrite Hs; split; [done|]; split; [congruence|done].
  right. exists root. split; [done|]. destruct HC as (Hcom & Hp2 & _).
  destruct (p_was p2) as [w|] eqn:Hw; [|unfold pending in Hp2; by rewrite Hw in Hp2]. destruct (commit_after _ _ _ _ Hc Hw) as (Hdb' & _ & _ & Hret). split.
  - apply committed_recorded; [by apply Forall2_app|by rewrite Hdb'].
  - intros root' Hr. by destruct (Hret root' Hr) as (? & ? & _).
Qed.

(** ** Starting again *)
Lemma RlpHash_length v h : RlpHash keccak v = Ret h → length h = 32%nat.
Proof. unfold RlpHash. by destruct (Rlp.Encode v []); intros [= <-]. Qed.

(** A call that has brought the node to [p1] and commits there: it does not return.  Once the
    write-ahead state is committed it panics, with the store and the state written. *)
Definition panics_after_commit {A} p1 (r : outcome A * PS) : Prop :=
  (∀ a, fst r ≠ Ret a) ∧
  ∀ root p2, Commit keccak p1 = (Ret root, p2) →
    fst r = Panic "nil pointer dereference" ∧ p_db (snd r) = p_db p2 ∧ p_statedb (snd r) = was_stateDB <$> p_was p2.

Lemma commit_without_pool p : p_txPool p = None → panics_after_commit p (commit keccak p).
Proof.
  intros Hq. destruct (pending p) as [[ts rs]|] eqn:Hp.
  - pose proof (was_Commit_spec p ts rs Hp) as HC. unfold wp in HC. destruct (Commit keccak p) as [o p2] eqn:Hc. cbn [fst snd] in HC. destruct o as [root| | |].
    2-4: split; [apply commit_failed; by rewrite Hc|intros root p2'; by rewrite Hc].
    destruct HC as (_ & Hp2 & Hpool). destruct (p_was p2) as [w|] eqn:Hw; [|unfold pending in Hp2; by rewrite Hw in Hp2].
    destruct (commit_after _ _ _ _ Hc Hw) as (Hdb & Hst & Hpanic & _). specialize (Hpanic (proj2 Hpool Hq)). split; [by rewrite Hpanic|].
    intros root' p2'. rewrite Hc. intros [= <- <-]. split; [done|]. split; [done|]. by rewrite Hst, Hw.
  - unfold pending in Hp. destruct (p_was p) as [w|] eqn:Hw; [done|].
    assert (Commit keccak p = (Panic "nil pointer dereference", p)) as Hc by (unfold Commit, mbind, M_bind, commit_state; by rewrite Hw).
    split; [apply commit_failed; by rewrite Hc|intros root p2; by rewrite Hc].
Qed.

Lemma quietly_create addr account : quietly (create_account keccak addr account).
Proof.
  unfold create_account. apply quietly_bind; [apply quietly_lift|]. intros balance.
  apply quietly_bind; [apply quietly_on_was|]. intros _. apply quietly_bind; [apply quietly_on_was|]. intros _.
  apply quietly_for_each. intros kv. apply quietly_on_was.
Qed.

Abbreviation create_all accounts := (for_each (λ kv, create_account keccak (fst kv) (snd kv)) (range accounts)).

Lemma quietly_create_all (accounts : AccountMap) : quietly (create_all accounts).
Proof. apply quietly_for_each. intros kv. apply quietly_create. Qed.

Lemma CreateAccounts_commits accounts p : fst (CreateAccounts keccak accounts p) = Ret tt →
  ∃ p1 root p', same p p1 ∧ commit keccak p1 = (Ret root, p') ∧ snd (CreateAccounts keccak accounts p) = p'.
Proof.
  unfold CreateAccounts. intros Hr. pose proof (quietly_create_all accounts p) as Hq.
  revert Hr. unfold mbind, M_bind. destruct (create_all accounts p) as [[u| | |] p1]; try done. cbn [snd] in Hq.
  destruct (commit keccak p1) as [[root| | |] p'] eqn:Hc; try done. intros _. by exists p1, root, p'.
Qed.

Lemma NewState_zero_head w q : (∃ h, RlpHash keccak zero_transaction = Ret h ∧ store_Get w headTxKey = Ret h) → NewState keccak w = Ret q →
  p_txPool q = None ∧ ∃ s, State.New zero (NewDatabase w) = Ret s ∧ p_statedb q = Some s.
Proof.
  intros (h & Hh & Hget) Hnew. pose proof (RlpHash_length _ _ Hh) as Hlen.
  assert (BytesToHash h = h) as Hid by (apply BytesToHash_32; unfold len; lia).
  unfold NewState in Hnew. set (p0 := mkPState w None None None NewBasicSigner) in *.
  assert (head_root keccak p0 = (Ret None, p0)) as Hroot.
  { unfold head_root. unfold mbind at 1, M_bind at 1, lift at 1. rewrite Hh. unfold mbind at 1, M_bind at 1, get.
    unfold mbind, M_bind, try, lift. cbn [p_db p0]. rewrite Hget. destruct h as [|x h]; [done|]. rewrite Hid. by rewrite bool_decide_eq_true_2. }
  unfold InitState in Hnew. revert Hnew. unfold mbind, M_bind. rewrite Hroot. unfold open_state. cbn [p_db p0].
  destruct (State.New zero (NewDatabase w)) as [s| | |]; try done. cbn. unfold resetWAS, mbind, M_bind, get, lift. cbn.
  destruct (Copy keccak s); try done. intros [= <-]. cbn. split; [done|]. by exists s.
Qed.

Lemma NewState_waits w q : NewState keccak w = Ret q → pending q = Some ([], []).
Proof.
  unfold NewState. destruct ((InitState keccak ;; resetWAS keccak) _) as [[u| | |] q'] eqn:Hrun; try done. intros [= ->]. revert Hrun.
  unfold mbind, M_bind. destruct (InitState keccak _) as [[u'| | |] q0]; try done. pose proof (resetWAS_spec q0) as Hreset. unfold wp in Hreset.
  intros Hrun. rewrite Hrun in Hreset. apply Hreset.
Qed.

Lemma ProcessBlock_without_pool b q ts rs : p_txPool q = None → pending q = Some (ts, rs) → small_block (bb_Transactions (b_Body b)) →
  let r := apply_all keccak 0 (bb_Transactions (b_Body b)) (BytesToHash (block_Hash json_block b)) q in
  match fst r with
  | Ret _ => panics_after_commit (snd r) (ProcessBlock keccak json_block b q)
  | _ => (∀ root, fst (ProcessBlock keccak json_block b q) ≠ Ret root) ∧ p_db (snd (ProcessBlock keccak json_block b q)) = p_db q
  end.
Proof.
  intros Hpool Hp Hsm. pose proof (apply_all_spec 0 _ (BytesToHash (block_Hash json_block b)) q ts rs Hsm Hp) as Happly. unfold wp in Happly.
  unfold ProcessBlock, mbind, M_bind. destruct (apply_all keccak 0 _ _ q) as [[u| | |] q1]; cbn [fst snd] in *; destruct Happly as [(Hdb & _ & Hq1) _]; try done.
  apply commit_without_pool. by apply Hq1.
Qed.

Lemma CreateAccounts_without_pool accounts q : p_txPool q = None →
  match fst (create_all accounts q) with
  | Ret _ => panics_after_commit (snd (create_all accounts q)) (CreateAccounts keccak accounts q)
  | _ => (∀ a, fst (CreateAccounts keccak accounts q) ≠ Ret a) ∧ p_db (snd (CreateAccounts keccak accounts q)) = p_db q
  end.
Proof.
  intros Hpool. pose proof (quietly_create_all accounts q) as (Hdb & _ & _ & Hq1). unfold CreateAccounts, mbind, M_bind.
  destruct (create_all accounts q) as [[u| | |] q1]; cbn [fst snd] in *; try done.
  destruct (commit_without_pool q1 (proj2 Hq1 Hpool)) as [Hno Hpanic]. split.
  - intros a. destruct (commit keccak q1) as [[r| | |] q2]; try done. by destruct (Hno r).
  - intros root p2 Hc. destruct (Hpanic root p2 Hc) as (E1 & E2 & E3). destruct (commit keccak q1) as [[r| | |] q2]; try done. by injection E1 as ->.
Qed.

(** C38: a restart after the genesis.  When accounts were created and no transaction was committed,
    the head in the store is the hash of the empty transaction.  A start from such a store opens
    the empty state, without the accounts, and leaves the pool of transactions nil.  From then on:
    - every transaction offered to the pool panics;
    - processing a block never returns a root, and creating accounts never returns: a call that
      does not get as far as the commit leaves the store alone, and once
      [WriteAheadState.Commit] has returned the call panics at the nil pool, when the store and the
      state of the node have already been written.
    The blocks have transactions that are bytes and shorter than [2^63]. *)
Theorem restart_after_genesis_panics accounts p q :
  pending p = Some ([], []) → fst (CreateAccounts keccak accounts p) = Ret tt →
  NewState keccak (p_db (snd (CreateAccounts keccak accounts p))) = Ret q →
  (∃ s, State.New zero (NewDatabase (p_db (snd (CreateAccounts keccak accounts p)))) = Ret s ∧ p_statedb q = Some s) ∧ p_txPool q = None ∧
  (∀ tx, fst (CheckTx keccak tx q) = Panic "nil pointer dereference") ∧
  (∀ b, small_block (bb_Transactions (b_Body b)) →
     let r := apply_all keccak 0 (bb_Transactions (b_Body b)) (BytesToHash (block_Hash json_block b)) q in
     match fst r with
     | Ret _ => panics_after_commit (snd r) (ProcessBlock keccak json_block b q)
     | _ => (∀ root, fst (ProcessBlock keccak json_block b q) ≠ Ret root) ∧ p_db (snd (ProcessBlock keccak json_block b q)) = p_db q
     end) ∧
  (∀ accounts',
     match fst (create_all accounts' q) with
     | Ret _ => panics_after_commit (snd (create_all accounts' q)) (CreateAccounts keccak accounts' q)
     | _ => (∀ a, fst (CreateAccounts keccak accounts' q) ≠ Ret a) ∧ p_db (snd (CreateAccounts keccak accounts' q)) = p_db q
     end).
Proof.
  intros Hp Hr Hnew. destruct (CreateAccounts_commits accounts p Hr) as (p1 & root & p' & (_ & Hp1 & _) & Hc & Hp'). rewrite Hp' in *.
  rewrite Hp in Hp1. pose proof (commit_spec p1 _ _ Hp1) as Hcs. unfold wp in Hcs. rewrite Hc in Hcs. destruct Hcs as (Hcom & _).
  destruct (committed_head [] [] (p_db p') ltac:(constructor) Hcom) as (h & Hh & Hget).
  destruct (NewState_zero_head _ q (ex_intro _ h (conj Hh Hget)) Hnew) as [Hpool Hs]. split; [done|]. split; [done|]. split; [|split].
  - intros tx. unfold CheckTx, mbind, M_bind, get. cbn beta iota. by rewrite Hpool.
  - intros b Hsm. eapply ProcessBlock_without_pool; [done|by eapply NewState_waits|done].
  - intros accounts'. by apply CreateAccounts_without_pool.
Qed.
End Props.

(** ** On the database of the states *)
Section Instance.
Context {DB : Type} `{Database DB}.

#[export] Instance caching_NodeStore : NodeStore (cachingDB DB) (Secure.SecureTrie DB) DB := {|
  store_Get := λ d k, match db_Get d k with Some v => Ret v | None => Fail (LibErr "Key not found") end;
  NewDatabase := λ d, mkCaching d [];
  on_store := λ d c, mkCaching d (map (with_store d) (pastTries c));
  trie_on_store := with_store |}.
End Instance.

(** ** A chain with one block *)
Definition ret_or {A} (d : A) (o : outcome A) : A := match o with Ret a => a | _ => d end.

Lemma ret_or_spec {A} (d : A) (o : outcome A) : match o with Ret _ => true | _ => false end = true → o = Ret (ret_or d o).
Proof. by destruct o. Qed.

Lemma ret_pair {S A} (r : outcome A * S) : match fst r with Ret _ => true | _ => false end = true → ∃ a s, r = (Ret a, s).
Proof. destruct r as [[]]; try done. by eexists _, _. Qed.

Module Chain.
Import ToyCurve.
Abbreviation store := (gmap bytes bytes).
#[local] Existing Instance listing_order.
#[local] Instance chain_trie : StateTrie (Secure.SecureTrie store) := secure_StateTrie toy_keccak.
#[local] Instance chain_database : StateDatabase (cachingDB store) (Secure.SecureTrie store) := caching_StateDatabase toy_keccak.
#[local] Instance chain_writer : Writer (Secure.SecureTrie store) store := store_Writer toy_keccak.
#[local] Instance chain_crypto : Crypto := {|
  PrivKey := Z; FromECDSAPub := λ _, []; json_body := λ _, inr []; json_block_body := λ _, inr []; SHA256 := λ b, b;
  ecdsa_Sign := λ _ _, inr (0, 0); ecdsa_Verify := λ _ _ _ _, Ret true |}.
#[local] Instance chain_laws : NodeStoreLaws (cachingDB store) (Secure.SecureTrie store) store.
Proof.
  split. intros w k v w' [= <-]. cbn. split; [by rewrite lookup_insert_eq|]. intros k' Hk. by rewrite lookup_insert_ne.
Qed.

Abbreviation node := (PState (SDB := cachingDB store) (TR := Secure.SecureTrie store) (W := store)).
Definition start : node :=
  ret_or (mkPState ∅ None None None NewBasicSigner) (NewState toy_keccak (∅ : store)).
Definition genesis : AccountMap := {["0x0000000000000000000000000000000000000008" := mkEntry "" ∅ "1000000"]}.
Definition funded : node := snd (CreateAccounts toy_keccak genesis start).

(** The owner of the key 7, which has the address 8, pays 5. *)
Definition chain_tx : bytes :=
  match SignTx toy_keccak (NewTransaction 0 (replicate 20 9) (Some 5) (Some 1000) (Some 1) []) NewBasicSigner 7 with
  | Ret t => match EncodeRLP t [] with Ret b => b | _ => [] end
  | _ => []
  end.
Definition block : Block := NewBlock 0 1 [chain_tx].
Definition chain_json (b : Block) : gerror + bytes := inr [].
Definition root1 : bytes := ret_or [] (fst (ProcessBlock toy_keccak chain_json block funded)).

Definition applied1 : node := snd (apply_all toy_keccak 0 [chain_tx] (BytesToHash (block_Hash chain_json block)) funded).
Definition tx1 : Transaction := match pending applied1 with Some ([t], _) => t | _ => new_tx (mkData 0 0 0 None 0 [] 0 0 0) end.
Definition receipt1 : Receipt := match pending applied1 with Some (_, [r]) => r | _ => zero_receipt end.

(** A block without transactions, offered to the node that was started again. *)
Definition restarted : node := ret_or start (NewState toy_keccak (p_db (snd (CreateAccounts toy_keccak genesis start)))).
Definition empty_block : Block := NewBlock 0 1 [].

Lemma chain_tx_small : small_block [chain_tx].
Proof. constructor; [|constructor]. unfold is_bytes, is_byte. split; decided. Qed.
Lemma block_returns : fst (ProcessBlock toy_keccak chain_json block funded) = Ret root1.
Proof. vm_compute. reflexivity. Qed.
Lemma applied1_waits : pending applied1 = Some ([tx1], [receipt1]).
Proof. vm_compute. reflexivity. Qed.
Lemma receipt1_ok : receipt_ok receipt1.
Proof.
  assert (Logs receipt1 = []) as Hl by (vm_compute; reflexivity).
  split; [| | |rewrite Hl; constructor| | |]; unfold width, is_bytes, is_byte; decided.
Qed.
Lemma receipt1_small : len (written (receiptStorageRLP receipt1)) < 2 ^ 63.
Proof. vm_compute. reflexivity. Qed.
Lemma restart_opens : NewState toy_keccak (p_db (snd (CreateAccounts toy_keccak genesis start))) = Ret restarted.
Proof. apply ret_or_spec. vm_compute. reflexivity. Qed.
Lemma empty_block_applied : fst (apply_all toy_keccak 0 (bb_Transactions (b_Body empty_block)) (BytesToHash (block_Hash chain_json empty_block)) restarted) = Ret tt.
Proof. reflexivity. Qed.
Lemma empty_block_commits : ∃ root p2, Commit toy_keccak (snd (apply_all toy_keccak 0 (bb_Transactions (b_Body empty_block)) (BytesToHash (block_Hash chain_json empty_block)) restarted)) = (Ret root, p2).
Proof. apply ret_pair. vm_compute. reflexivity. Qed.

#[local] Opaque chain_tx funded root1 ProcessBlock commit GetTransaction GetReceipt CreateAccounts NewState start toy_keccak applied1 tx1 receipt1 restarted apply_all.

Lemma block_is_committed_witness :
  let p' := snd (ProcessBlock toy_keccak chain_json block funded) in
  from_bytes chain_tx tx1 ∧ store_Get (p_db p') headTxKey = Ret (hash_of toy_keccak tx1) ∧
  GetTransaction (hash_of toy_keccak tx1) p' = (Ret (set_size (len (written (txdata_gval (tx_data tx1)))) (new_tx (tx_data tx1))), p') ∧
  GetReceipt (hash_of toy_keccak tx1) p' = (stored receipt1, p') ∧ pending p' = Some ([], []).
Proof.
  destruct (block_is_committed toy_keccak chain_json (λ b, length_be_bytes _ _) block funded [] [] ltac:(vm_compute; reflexivity) ltac:(constructor) chain_tx_small)
    as (n & ts & rs & _ & Hp1 & Hfrom & Hap & [(_ & _ & Hno)|(-> & Hrun & [(_ & _ & _ & Hno)|(root & _ & Hrec & Hret)])]).
  - destruct (Hno root1 block_returns).
  - destruct (Hno root1 block_returns).
  - pose proof (eq_trans (eq_sym applied1_waits) Hp1) as Heq. injection Heq as <- <-. change (take _ _) with [chain_tx] in Hfrom.
    apply Forall2_cons_1 in Hfrom as [Ht _]. apply Forall2_cons_1 in Hap as [Htr _]. destruct Hrec as [(h & Hh & Hget) Hent].
    assert (last_of toy_keccak [tx1] 0 tx1) as Hlast by (split; [reflexivity|]; intros [|j] t' Hj _; [lia|discriminate Hj]).
    destruct (Hent 0%nat tx1 receipt1 Hlast eq_refl) as (Hgt & _ & Hgr). split; [exact Ht|]. split; [|split; [exact Hgt|split]].
    + rewrite Hget, <-Hh. apply applied_key, Htr.
    + exact (Hgr receipt1_ok receipt1_small).
    + exact (proj2 (Hret root1 block_returns)).
Defined.

(** Creating the accounts once more on the node that was started again panics, and they are there. *)
Lemma restart_after_genesis_panics_witness :
  fst (CheckTx toy_keccak (NewTransaction 0 (replicate 20 9) (Some 5) (Some 1000) (Some 1) []) restarted) = Panic "nil pointer dereference" ∧
  fst (ProcessBlock toy_keccak chain_json empty_block restarted) = Panic "nil pointer dereference" ∧
  fst (CreateAccounts toy_keccak genesis restarted) ≠ Ret tt ∧
  fst (p_GetBalance toy_keccak (replicate 19 0 ++ [8]) restarted) = Ret 0 ∧
  fst (p_GetBalance toy_keccak (replicate 19 0 ++ [8]) (snd (CreateAccounts toy_keccak genesis restarted))) = Ret 1000000.
Proof.
  destruct (restart_after_genesis_panics toy_keccak chain_json (λ b, length_be_bytes _ _) genesis start restarted
    ltac:(vm_compute; reflexivity) ltac:(vm_compute; reflexivity) restart_opens) as (_ & _ & Hcheck & Hblock & Hcreate).
  split; [apply Hcheck|]. split.
  - specialize (Hblock empty_block ltac:(constructor)). cbv zeta in Hblock. rewrite empty_block_applied in Hblock.
    destruct empty_block_commits as (root & p2 & Hc). exact (proj1 (proj2 Hblock root p2 Hc)).
  - split; [|split; vm_compute; reflexivity]. specialize (Hcreate genesis).
    destruct (fst (for_each _ _ _)); exact (proj1 Hcreate tt).
Defined.
End Chain.
